(* ===== verification/_CoqProject ===== *)
-Q . S2P
Prelude.v
JsMap.v
JsArray.v
JsString.v
JsRegExp.v
JsJson.v
RedactSecrets.v
AgentEvents.v
Anomalies.v
AnomalyDetector.v
AttentionQueue.v
SnoozeSuppression.v
CircuitBreaker.v
SpawnRateLimiter.v
TaskTypes.v
CompletionDigest.v
TerminalReceipt.v
SessionRegistry.v
CompletionSignal.v
TaskStore.v
TaskRuns.v
CompletionGates.v
TaskQueries.v
Persistence.v
LaunchDependencyAdmission.v
ControllerLease.v
CommandJournal.v
PaneScreen.v
ToolLatency.v
Watchdog.v
IdempotencyLedger.v
CapacityLedger.v
RalphCycler.v
IssueClaims.v
SignalOutbox.v
Monitor.v
JsDate.v
Schedule.v
ScheduleService.v
RelaunchArbiter.v
AgentSelection.v
ScheduleProbe.v
ScheduleRunner.v
