(* ===== verification/Prelude.v ===== *)
(** * Verification of the Kookr supervisor core

    Kookr supervises coding agents: it launches them in terminal sessions, keeps
    a record per task, watches their event stream, raises findings that need a
    human, and decides when a task may be completed, relaunched or reaped.  A
    remote client may take over a session through a lease and an audited command
    journal.  Schedules launch tasks on their own.  This library models the
    components of [src/core], [src/shared], [src/remote] and [src/server] that hold
    that state, and proves what they promise.

    ** The parts and how they interact

    - The task store ([tasks.ts]) holds every task record, the relations between
      tasks, the launch reservations and the processed signals.  The launch path
      reserves a task, starts an agent, and attaches its session through the
      session registry ([session-registry.ts]), which works on the store through
      a host interface.  Each mutator marks what it changed, and
      [persistTaskState] ([task-persistence.ts]) drains the marks into a SQLite
      flush ([task-sqlite-store.ts]).
    - A launch passes a budget per source ([spawn-rate-limiter.ts]) and the health
      circuits of the services it needs ([launch-dependency-admission.ts]).
      External calls go through circuit breakers ([circuit-breaker.ts]).
    - Agent events give a turn state ([turn-state.ts]); the Stop-hook policy
      ([completion-signal.ts]) and the reaper ([hung-task-reaper.ts]) decide from
      it; every terminal move leaves a receipt ([terminal-receipt.ts]).
    - Findings carry fingerprints ([anomaly-fingerprint.ts],
      [finding-fingerprint.ts]); the attention queue ([attention-queue.ts]) ranks,
      snoozes and resolves them, and [snooze-suppression.ts] mutes and
      deduplicates the repeated ones.
    - The watchdog ([watchdog.ts]) turns hook events, pane contents and token
      activity into a verdict per agent; it rebuilds the visible screen
      ([pane-semantics.ts]) and feeds the histogram of tool latencies
      ([tool-latency-metrics.ts]).
    - The capacity ledger ([capacity-ledger.ts]) classifies the tasks that hold a
      slot; [completion-ready-cleanup.ts] and [hung-suspect-ttl.ts] choose those
      whose slot is reclaimed, and [faa-root-cause.ts] reports why one is not.
    - A launch request with an idempotency key goes through the ledger
      ([idempotency-ledger.ts]) in the loop [launchTaskIdempotent]
      ([launch-service.ts]).
    - A task with a Ralph loop is launched again and again on one prompt: the cycler
      ([ralph-cycler.ts]) decides at each Stop whether the loop goes on, and the
      service ([ralph-loop-service.ts]) launches, relaunches or escalates.
    - A task claims the issue it works on ([issue-claim-registry.ts]); the registry
      holds the owners in memory and writes each claim on the task record, from which
      it is rebuilt at boot.
    - A remote client holds a session by a lease ([controller-lease.ts]) and sends
      commands through the pipeline ([command-pipeline.ts]) and its journal
      ([command-journal.ts]).
    - The monitor ([monitor.ts]) keeps the event window of each agent, asks the
      anomaly detector ([anomaly-detector.ts]) for the finding of that window, merges
      it with the verdicts of the watchdog and writes the attention queue; it holds
      back what outstanding subagents ([outstanding-subagents.ts]) or a systemic stall
      of the hooks ([systemic-hook-stall.ts]) explain.
    - An agent signals that it is done.  The signal is queued in a file
      ([signal-outbox.ts]) and delivered to the store ([signal-outbox-service.ts],
      the signal route of [task-routes.ts]) after the completion gates: a lesson
      decided ([lesson-decision.ts]) and a pull request merged ([merge-required.ts]).
    - What leaves the node is scrubbed of secrets ([redact-secrets.ts]).
    - The schedule store ([schedule.ts]) holds the schedules with their ledgers and
      rollups ([schedule-rollup.ts]); every change of a row goes through the schedule
      service ([schedule-service.ts]): reservation, acceptance, outcome, the failure
      streak and its auto-pause.  The runner ([schedule-runner.ts]) decides at each
      tick, and once at the start, which schedules fire; a fire passes the run before,
      the drain, the kill-switch ([automation-kill-switch.ts]), the probe
      ([schedule-probe.ts]), the drift of the checkout, the relaunch arbiter
      ([relaunch-arbiter.ts]) and the choice of an agent ([agent-types.ts]).

    ** The files

    - [Prelude]: results, nullish operators, tactics, the hint database [kookr].
    - [JsMap], [JsArray], [JsString], [JsDate]: JavaScript's insertion-ordered [Map],
      stable [sort], the string methods and the ISO dates the code uses, with their
      lemmas; [JsRegExp]: regular expressions with the backtracking matcher of
      JavaScript; [JsJson]: JSON values and [JSON.stringify].
    - [RedactSecrets], module [Redact]: [redactSecrets] and the scan for keys.
    - [AgentEvents]: events and [deriveTurnState].
    - [Anomalies]: findings and both fingerprints.
    - [AttentionQueue], module [Queue]: the class [AttentionQueue], a method per
      definition; [reachable] is closed under all of them.
    - [SnoozeSuppression], modules [Suppression] and [Dedup].
    - [CircuitBreaker], modules [Breaker] and [Registry]; [call] is split at its
      await into [callBegin] and [callEnd], and [step] interleaves them.
    - [SpawnRateLimiter], module [Limiter].
    - [TaskTypes]: the records of tasks, sessions, receipts and relations.
    - [CompletionDigest], module [Digest]: the byte cap of stored digests.
    - [TerminalReceipt], modules [Receipt] and [HungTask].
    - [SessionRegistry]: the classes [SessionHost] and [SessionHostLaws], and the
      registry's methods against them.
    - [CompletionSignal], module [Completion].
    - [TaskStore], module [Store]: the class [TaskStore], which is an instance of
      [SessionHost].
    - [TaskRuns], module [Runs]: the mutators as the type [op], and what any
      sequence of them preserves; a write through a live reference is one of them.
    - [TaskQueries], module [Queries]: the usage roll-up and the promotion order.
    - [Persistence], module [Persist]: tables, flush and [persistTaskState]; [life] is any
      sequence of operations and saves.
    - [LaunchDependencyAdmission], module [Admission].
    - [ControllerLease], module [Lease]: the class [ControllerLeaseManager]; [run]
      interleaves its methods with the two kinds of timer.
    - [CommandJournal], module [Journal]: the journal in memory, the audit file
      with rows that are queued, torn or written, snapshots and recovery, and the
      pipeline and the compaction split at their awaits, which [exec] interleaves.
    - [PaneScreen], module [Screen]: the screen model of
      [visibleLinesFromTerminalText].
    - [ToolLatency], module [Latency]: the class [ToolLatencyMetrics].
    - [Watchdog], module [Watch]: the class [Watchdog]; a log of what each agent was
      told is the specification its state is compared with.
    - [IdempotencyLedger], module [Idempotency]: the ledger with its queue of
      writes, and any number of clients inside [launchTaskIdempotent].
    - [CapacityLedger], module [Capacity]: the ledger, the root causes and both
      reclaim selections.
    - [RalphCycler], module [Ralph]: [handleStop] of the cycler as a computation with
      early exits, interleaved with the operator's commands at its awaits; the
      handling of its action; [run] is a loop over time.
    - [IssueClaims], module [Claims]: the class [IssueClaimRegistry] against the port
      [ClaimTaskPort]; module [Wiring]: the task store as that port.
    - [CompletionGates], module [Gates]: the two gates and the scans of the hook logs
      they decide from.
    - [SignalOutbox], modules [Outbox] and [Delivery]: the file, also with several
      processes at it, and deliveries and requests split at their awaits, which [handle]
      interleaves with each other and with other work on the store.
    - [AnomalyDetector], module [Detector]; [Monitor], modules [Subagents],
      [HookStall] and [Mon]: a method per definition, [exec] over all of them.
    - [Schedule], module [Sched]: schedules, rollups, the store, the recovery rules;
      [ScheduleService], module [Service]: the methods as a machine over the rows,
      each with the rights ([grant]) over the run and the switch of its row.
    - [RelaunchArbiter], module [Arbiter]; [AgentSelection], modules [Agents] and
      [KillSwitch]; [ScheduleProbe], module [Probe].
    - [ScheduleRunner], module [Runner]: a fire is a record with a phase, [resume]
      takes it from one await to the next on an answer, and [perform] interleaves
      any number of them with ticks, the catch-up, operators and the service.

    ** How the code is rendered

    A method takes the state of its object and returns the new one, with its
    result beside it; a [throw] is [Err], and the state before it is the one the
    caller keeps where the code throws before its first write.  [Date.now()] and
    [new Date()] are [Z] arguments, one for each reading of the clock.  A [Map] or
    [Set] is the list of its entries in insertion order, because the code iterates
    it.  An optional field is an [option].  A cost is an exact number, [None] when
    it is not finite; a relation confidence is a rational.  A string is a list of
    bytes; the em dash and the ellipsis of the messages are one unit each, as in
    UTF-16, and the few other such characters are parameters.  Values the code only
    carries are serialised text ([json]); what it looks into (tool inputs, hook
    lines) is a [jvalue].  Random ids are arguments.  Code outside the modelled files
    enters as a section variable of which nothing is assumed: SHA-256, deterministic
    task naming (which cuts text by UTF-16 units), the task resolver of the queue, the
    cron library, [Date.parse] and [JSON.parse].

    ** What the theorems show

    - Store: the lifecycle invariant after any run, the transition table, one
      launcher at a time, the exact effect of attaching a session, FIFO promotion,
      and that the roll-up terminates and counts each descendant once.
    - Persistence: no mutator forgets to mark its change, so that the database equals the
      store after each save, as long as no live reference is written through after a save
      has drained its mark; live tasks survive failed flushes.  Deletions do not, and the
      loop service does hold references over saves: defects of the code.
    - Queue: well-formedness after any run, findings are never lost, hidden ones
      stay hidden until they should wake, order and round trips.
    - Suppression and deduplication: the counters as functions of the history,
      conservation of detections.
    - Circuits: the invariant and the state machine of the breaker, exact trip and
      recovery; one recovery probe per dependency, no return to health without
      evidence, no launch past the cleanup fence.
    - Policies: exact budgets and retry hints, sound completion signals, the reap
      verdict, the aggregation of outcomes.
    - Lease: the invariant of records and timers, no remote access after a local
      takeover, every loss of a lease announced; the sweep revokes exactly the leases in
      held-remote that are past its delay.
    - Journal: a restart recovers what memory held, revocations are durable, and no tuple
      runs twice within a day, with requests, compactions and crashes interleaved at every
      await, as long as no row is appended to a torn line or inside a compaction: such
      rows are lost, and a grant revoked during an authorization is used, which are defects.
      Retries replay.
    - Screen: the reconstruction ends with a bounded grid, and is the newline model
      on a text without escapes.
    - Watchdog: its state is a function of the log, no silence alarm on an active
      agent, a silent agent is reported, latencies are exact.
    - Idempotency: one launcher per key, no waiter waits for nobody, one launch
      within the life of an entry, the bound, and exact recovery.
    - Capacity: the ledger is a partition and counts what admission counts; the
      sweep and the health report agree; the reclaim is exact.
    - Ralph loop: a loop is launched a bounded number of times, its log numbers the
      iterations without gap when no append fails, and the ledger of given-up targets is
      sound.  A
      cancellation during the last iteration is overwritten, and a pause between the
      decision and the launch strands the loop: defects of the code.
    - Issue claims: one owner per issue under every interleaving with the rest of the
      server; an owner only loses its issue by force or its own release, and restarts keep
      the owners, when every restart finds no claim on an ended task; the code leaves one
      when it stops between the end of a task and its release.
    - Signals: what the outbox holds under any interleaving at the file, what a delivery
      checks before it waits for the gates and does after, and that requests with one key
      that do not overlap announce once.  What changes while the gates run is not checked
      again (a relaunch, an end, a second request), a drain erases what is appended
      meanwhile, and the drain of the command line has no fence: defects.
    - Gates: each lets through exactly what it finds in the logs and the live check; a
      command that does two things at once is counted as one of them, which is a defect.
    - Detector and monitor: the detector agrees with the turn state; the queue holds
      the finding of the window; windows are bounded; an alarm needs consecutive
      verdicts of one kind.
    - Redaction: the bounded scan for keys finds what the expression would.
    - Schedules: the rollups equal a fold of the ledgers, the failure streak pauses
      whatever the order of the steps, no re-arm lifts an operator's hold that it could read
      (one that read the row before does, a defect), a restart settles every open run, and
      the budget of triggers is kept.
    - Arbiter: between two holders of an issue the backoff has passed.  Agents: a pin
      is kept exactly when it can be, and its substitute obeys the policy.  Probes:
      arguments are read back from their command.
    - Runner: nothing launches a schedule beside its active run, each fire that
      returns has closed its own receipt, and a due schedule is fired within a bounded
      number of ticks.  A schedule retired during the catch-up is launched, a missed
      slot hides the run before, and a failed reservation loses its slot: defects.

    ** Fuel

    Some loops are not structural.  [rollupLoop] runs with [rollupFuel], one more
    than the number of child links of the store: each round pops one entry, and a
    task pushes its children once; it is proved enough.  The loop of the
    screen model runs with the length of the text, as an iteration reads at least a
    character; [screen_bounded] proves that it ends.  The eviction
    loop of the queue recurses on the map it shortens.

    ** Not modelled

    Adapters, terminal backends, HTTP routes other than those named, the frontend, the
    relay, the command-line tools and the playbooks do I/O around these components.
    The classifiers of panes and the extraction of the digest enter as parameters.  Of
    the modelled files, these parts are left out: the pruning of rotated audit
    archives, the vetted-idea runway of the capacity signal, and loading the database
    after a restart; of the loop service, starting and editing a loop, the verdict
    file and the delivery watchdog; of the schedule runner, its timers, the alarms
    (dead-man, stale, parked), the resolution health of playbooks, the reading of a
    playbook, and the prompt of a launch.  Later targets are the parking of launches
    around the admission circuits, loading the database, and the hook parser. *)

From stdpp Require Export base tactics option list numbers strings fin_maps gmap.
From stdpp Require Export sorting.
From Stdlib Require Export ZArith Lia.

#[export] Set Default Goal Selector "!".

Declare Scope kookr_scope.
Delimit Scope kookr_scope with kookr.
#[local] Open Scope Z_scope.
#[global] Open Scope kookr_scope.

(** ** Fallible operations: a JavaScript [throw] is the [Err] value *)

Inductive result (E A : Type) : Type :=
| Ok (a : A)
| Err (e : E).
Arguments Ok {E A} a.
Arguments Err {E A} e.

Definition res_bind {E A B} (m : result E A) (k : A → result E B) : result E B :=
  match m with Ok a => k a | Err e => Err e end.

Notation "'let!' x := m 'in' k" := (res_bind m (λ x, k))
  (at level 10, x pattern, m at level 100, k at level 200) : kookr_scope.

(** ** Nullish coalescing and optional chaining *)

(** [x ?? d]. *)
Definition orElse {A} (x : option A) (d : A) : A := default d x.

(** [x ?? y] when both sides may be absent. *)
Definition orOpt {A} (x y : option A) : option A :=
  match x with Some a => Some a | None => y end.

(** Truthiness of an optional string: absent and [""] are falsy. *)
Definition truthyStr (x : option string) : option string :=
  match x with
  | Some s => if String.eqb s "" then None else Some s
  | None => None
  end.

Definition isSome {A} (x : option A) : bool :=
  match x with Some _ => true | None => false end.

(** [max0 x] is [Math.max(0, x)]. *)
Definition max0 (x : Z) : Z := Z.max 0 x.

(** ** Automation *)

Create HintDb kookr discriminated.
#[export] Hint Constants Opaque : kookr.

(** Case analysis on the boolean test of the first [if] of the goal. *)
Ltac case_if :=
  match goal with
  | |- context [if ?b then _ else _] => let E := fresh "E" in destruct b eqn:E
  end.

(** The same in a hypothesis. *)
Ltac case_if_in H :=
  match type of H with
  | context [if ?b then _ else _] => let E := fresh "E" in destruct b eqn:E
  end.

(** Reflect the boolean integer comparisons of the code into [Z] facts. *)
Ltac zbool :=
  repeat match goal with
  | H : (_ <? _) = true |- _ => apply Z.ltb_lt in H
  | H : (_ <? _) = false |- _ => apply Z.ltb_ge in H
  | H : (_ <=? _) = true |- _ => apply Z.leb_le in H
  | H : (_ <=? _) = false |- _ => apply Z.leb_gt in H
  | H : (_ =? _) = true |- _ => apply Z.eqb_eq in H
  | H : (_ =? _) = false |- _ => apply Z.eqb_neq in H
  | H : (_ && _) = true |- _ => apply andb_true_iff in H as [? ?]
  | H : (_ || _) = false |- _ => apply orb_false_iff in H as [? ?]
  | H : negb _ = true |- _ => apply negb_true_iff in H
  | H : negb _ = false |- _ => apply negb_false_iff in H
  | H : String.eqb _ _ = true |- _ => apply String.eqb_eq in H
  | H : String.eqb _ _ = false |- _ => apply String.eqb_neq in H
  | H : bool_decide _ = true |- _ => apply bool_decide_eq_true in H
  | H : bool_decide _ = false |- _ => apply bool_decide_eq_false in H
  end.

(** Split every [if]/[match] of the goal, reflecting the tests. *)
Ltac split_ifs := repeat (case_match; simplify_eq/=); zbool.

(** ** Generic lemmas *)

Lemma truthyStr_Some x s : truthyStr x = Some s ↔ x = Some s ∧ s ≠ "".
Proof.
  destruct x as [t|]; simpl; [|naive_solver].
  destruct (String.eqb_spec t ""); naive_solver.
Qed.

Lemma max0_nonneg x : 0 ≤ max0 x.
Proof. unfold max0; lia. Qed.

(** Counting with a boolean predicate. *)
Definition countb {A} (p : A → bool) (l : list A) : nat := length (List.filter p l).

Lemma countb_app {A} (p : A → bool) l1 l2 :
  countb p (l1 ++ l2) = (countb p l1 + countb p l2)%nat.
Proof. unfold countb. by rewrite List.filter_app, length_app. Qed.

Lemma countb_cons {A} (p : A → bool) x l :
  countb p (x :: l) = ((if p x then 1 else 0) + countb p l)%nat.
Proof. unfold countb; simpl. by destruct (p x). Qed.

Lemma countb_nil {A} (p : A → bool) : countb p [] = 0%nat.
Proof. done. Qed.

Lemma countb_le {A} (p q : A → bool) l :
  (∀ x, x ∈ l → p x = true → q x = true) → (countb p l ≤ countb q l)%nat.
Proof.
  induction l as [|x l IH]; intros H; [done|].
  rewrite !countb_cons.
  assert (countb p l ≤ countb q l)%nat by (apply IH; intros; apply H; set_solver).
  destruct (p x) eqn:E; [|lia].
  rewrite (H x); [lia|set_solver|done].
Qed.

Lemma countb_Forall {A} (p : A → bool) l : Forall (λ x, p x = true) l → countb p l = length l.
Proof. induction 1 as [|x l Hx _ IH]; [done|]. rewrite countb_cons, Hx, IH. done. Qed.

Lemma countb_Forall_not {A} (p : A → bool) l : Forall (λ x, p x = false) l → countb p l = 0%nat.
Proof. induction 1 as [|x l Hx _ IH]; [done|]. by rewrite countb_cons, Hx, IH. Qed.

Lemma countb_length {A} (p : A → bool) l : (countb p l ≤ length l)%nat.
Proof. unfold countb. rewrite List.filter_length_le. done. Qed.

Lemma countb_perm {A} (p : A → bool) l l' : l ≡ₚ l' → countb p l = countb p l'.
Proof.
  induction 1 as [|x l l' _ IH|x y l|l1 l2 l3 _ IH1 _ IH2]; rewrite ?countb_cons; [done|lia|lia|lia].
Qed.

Lemma filter_filter {A} (p q : A → bool) l :
  List.filter p (List.filter q l) = List.filter (λ x, q x && p x) l.
Proof.
  induction l as [|x l IH]; [done|]. simpl. destruct (q x); simpl; [|done]. by rewrite IH.
Qed.

Lemma filter_countb_all {A} (p : A → bool) l : countb (λ x, negb (p x)) l = 0%nat → List.filter p l = l.
Proof.
  induction l as [|x l IH]; [done|]. rewrite countb_cons. simpl. destruct (p x); simpl; [|lia].
  intros H. by rewrite IH.
Qed.
