(* ===== verification/JsMap.v ===== *)
(** * JavaScript [Map]: an insertion-ordered dictionary

    The source keeps its state in [Map] objects and iterates them in insertion
    order, which is observable (FIFO eviction, stable sorting, snapshots).
    A [Map] is therefore modelled as the association list of its entries in
    insertion order.  [mset] on a present key updates in place and keeps its
    position, as [Map.prototype.set] does; on an absent key it appends.
    [mequiv] is equality up to order: the same value under every key. *)

From S2P Require Import Prelude.
Local Open Scope Z_scope.

Abbreviation jmap K V := (list (K * V)).

Section jsmap.
Context {K V : Type} `{EqDecision K}.
Implicit Types (m : jmap K V) (k : K) (v : V).

(** ** Operations *)

Fixpoint mget k m : option V :=
  match m with
  | [] => None
  | (k', v) :: m' => if decide (k = k') then Some v else mget k m'
  end.

Fixpoint mset k v m : jmap K V :=
  match m with
  | [] => [(k, v)]
  | (k', v') :: m' =>
      if decide (k = k') then (k', v) :: m' else (k', v') :: mset k v m'
  end.

Fixpoint mdel k m : jmap K V :=
  match m with
  | [] => []
  | (k', v') :: m' =>
      if decide (k = k') then mdel k m' else (k', v') :: mdel k m'
  end.

(** Mutation of the object stored under a key through a live reference. *)
Fixpoint mupd (f : V → V) k m : jmap K V :=
  match m with
  | [] => []
  | (k', v') :: m' =>
      if decide (k = k') then (k', f v') :: m' else (k', v') :: mupd f k m'
  end.

Definition mhas k m : bool := isSome (mget k m).
Definition mkeys m : list K := m.*1.
Definition mvals m : list V := m.*2.
Definition msize m : nat := length m.

(** A [Map] never holds a key twice. *)
Definition mwf m : Prop := NoDup (mkeys m).

(** ** Lookups *)

Lemma mget_mset_eq k v m : mget k (mset k v m) = Some v.
Proof.
  induction m as [|[k' v'] m IH]; simpl; [by rewrite decide_True|].
  by destruct (decide (k = k')) as [->|Hne]; simpl;
    [rewrite decide_True | rewrite decide_False].
Qed.

Lemma mget_mset_ne k k' v m : k ≠ k' → mget k (mset k' v m) = mget k m.
Proof.
  intros Hne. induction m as [|[k2 v2] m IH]; simpl; [by rewrite decide_False|].
  destruct (decide (k' = k2)) as [->|]; simpl.
  - by rewrite !decide_False.
  - by destruct (decide (k = k2)).
Qed.

Lemma mget_mset k k' v m :
  mget k (mset k' v m) = if decide (k = k') then Some v else mget k m.
Proof.
  destruct (decide (k = k')) as [->|]; [apply mget_mset_eq | by apply mget_mset_ne].
Qed.

Lemma mget_mdel_eq k m : mget k (mdel k m) = None.
Proof.
  induction m as [|[k' v'] m IH]; simpl; [done|].
  destruct (decide (k = k')) as [->|]; simpl; [done|by rewrite decide_False].
Qed.

Lemma mget_mdel_ne k k' m : k ≠ k' → mget k (mdel k' m) = mget k m.
Proof.
  intros Hne. induction m as [|[k2 v2] m IH]; simpl; [done|].
  destruct (decide (k' = k2)) as [->|]; simpl; [by rewrite decide_False|].
  by destruct (decide (k = k2)).
Qed.

Lemma mget_mdel k k' m :
  mget k (mdel k' m) = if decide (k = k') then None else mget k m.
Proof.
  destruct (decide (k = k')) as [->|]; [apply mget_mdel_eq | by apply mget_mdel_ne].
Qed.

Lemma mget_mupd f k k' m :
  mget k (mupd f k' m) = if decide (k = k') then f <$> mget k m else mget k m.
Proof.
  induction m as [|[k2 v2] m IH]; simpl; [by case_decide|].
  repeat case_decide; simplify_eq/=; repeat case_decide; simplify_eq/=; auto.
Qed.

Lemma mget_mupd_ne f k k' m : k ≠ k' → mget k (mupd f k' m) = mget k m.
Proof. intros. by rewrite mget_mupd, decide_False. Qed.

Lemma mget_here k v m : mget k ((k, v) :: m) = Some v.
Proof. simpl. by rewrite decide_True. Qed.

Lemma mget_there k k' v m : k ≠ k' → mget k ((k', v) :: m) = mget k m.
Proof. intros. simpl. by rewrite decide_False. Qed.

Lemma mupd_here f k v m : mupd f k ((k, v) :: m) = (k, f v) :: m.
Proof. simpl. by rewrite decide_True. Qed.

Lemma mupd_mupd f g k m : mupd f k (mupd g k m) = mupd (λ v, f (g v)) k m.
Proof.
  induction m as [|[k' v'] m IH]; simpl; [done|].
  destruct (decide (k = k')) as [->|]; simpl.
  - by rewrite decide_True.
  - rewrite decide_False by done. by rewrite IH.
Qed.

(** Deleting an absent key, and updating a present one in place. *)
Lemma mdel_absent k m : mget k m = None → mdel k m = m.
Proof.
  induction m as [|[k' v'] m IH]; simpl; [done|].
  destruct (decide (k = k')); [done|]. intros. by rewrite IH.
Qed.

Lemma mupd_absent f k m : mget k m = None → mupd f k m = m.
Proof.
  induction m as [|[k' v'] m IH]; simpl; [done|].
  destruct (decide (k = k')); [done|]. intros. by rewrite IH.
Qed.

Lemma mset_mupd k v m :
  is_Some (mget k m) → mset k v m = mupd (λ _, v) k m.
Proof.
  induction m as [|[k' v'] m IH]; simpl; [by intros [? ?]|].
  destruct (decide (k = k')) as [->|]; [done|]. intros. by rewrite IH.
Qed.

Lemma mset_fresh k v m : mget k m = None → mset k v m = m ++ [(k, v)].
Proof.
  induction m as [|[k' v'] m IH]; simpl; [done|].
  destruct (decide (k = k')); [done|]. intros. by rewrite IH.
Qed.

(** ** Keys *)

Lemma elem_of_mkeys k m : k ∈ mkeys m ↔ is_Some (mget k m).
Proof.
  induction m as [|[k' v'] m IH]; simpl.
  - unfold mkeys; simpl. rewrite elem_of_nil. split; [done|by intros [? ?]].
  - unfold mkeys in *; simpl. rewrite elem_of_cons, IH.
    destruct (decide (k = k')) as [->|]; naive_solver.
Qed.

Lemma not_elem_of_mkeys k m : k ∉ mkeys m ↔ mget k m = None.
Proof. rewrite elem_of_mkeys. symmetry. apply eq_None_not_Some. Qed.

Lemma mget_elem_of k v m : mget k m = Some v → (k, v) ∈ m.
Proof.
  induction m as [|[k' v'] m IH]; simpl; [done|].
  destruct (decide (k = k')) as [->|]; [intros [= ->]; by left|].
  intros; right; auto.
Qed.

Lemma elem_of_mget k v m : mwf m → (k, v) ∈ m → mget k m = Some v.
Proof.
  unfold mwf, mkeys. induction m as [|[k' v'] m IH]; simpl.
  - by rewrite elem_of_nil.
  - rewrite NoDup_cons, elem_of_cons. intros [Hni Hnd] [[= -> ->]|Hin].
    + by rewrite decide_True.
    + rewrite decide_False; [by apply IH|]. intros ->.
      apply Hni. apply list_elem_of_fmap. by exists (k', v).
Qed.

Lemma mkeys_mset k v m :
  mkeys (mset k v m) =
    match mget k m with Some _ => mkeys m | None => mkeys m ++ [k] end.
Proof.
  unfold mkeys. induction m as [|[k' v'] m IH]; csimpl; [done|].
  destruct (decide (k = k')) as [->|Hne]; csimpl; [done|].
  rewrite IH. by destruct (mget k m).
Qed.

Lemma mkeys_mupd f k m : mkeys (mupd f k m) = mkeys m.
Proof.
  unfold mkeys. induction m as [|[k' v'] m IH]; csimpl; [done|].
  destruct (decide (k = k')); csimpl; [done|by rewrite IH].
Qed.

Lemma mdel_sublist k m : mdel k m `sublist_of` m.
Proof.
  induction m as [|[k' v'] m IH]; csimpl; [done|].
  destruct (decide (k = k')); [by apply sublist_cons|by apply sublist_skip].
Qed.

Lemma elem_of_mdel p k m : p ∈ mdel k m ↔ p ∈ m ∧ p.1 ≠ k.
Proof.
  destruct p as [kp vp].
  induction m as [|[k' v'] m IH]; simpl; [set_solver|].
  destruct (decide (k = k')) as [->|]; rewrite ?elem_of_cons, IH; naive_solver.
Qed.

Lemma elem_of_mset p k v m : p ∈ mset k v m → p = (k, v) ∨ (p ∈ m).
Proof.
  induction m as [|[k' v'] m IH]; simpl; [set_solver|].
  destruct (decide (k = k')) as [->|]; rewrite !elem_of_cons; naive_solver.
Qed.

(** ** Well-formedness is preserved *)

Lemma mwf_nil : mwf [].
Proof. apply NoDup_nil_2. Qed.

Lemma mwf_mset k v m : mwf m → mwf (mset k v m).
Proof.
  unfold mwf. rewrite mkeys_mset. intros Hnd. destruct (mget k m) eqn:E; [done|].
  apply not_elem_of_mkeys in E.
  rewrite NoDup_app. split; [done|]. split; [set_solver|apply NoDup_singleton].
Qed.

Lemma mwf_mdel k m : mwf m → mwf (mdel k m).
Proof.
  unfold mwf, mkeys. intros Hnd.
  eapply sublist_NoDup; [exact Hnd|]. apply fmap_sublist, mdel_sublist.
Qed.

Lemma mwf_mupd f k m : mwf m → mwf (mupd f k m).
Proof. unfold mwf. by rewrite mkeys_mupd. Qed.

Lemma mwf_filter (p : K * V → bool) m : mwf m → mwf (List.filter p m).
Proof.
  unfold mwf, mkeys. induction m as [|[k v] m IH]; simpl; [done|].
  rewrite NoDup_cons. intros [Hni Hnd].
  destruct (p (k, v)); simpl; [|by apply IH].
  rewrite NoDup_cons. split; [|by apply IH].
  rewrite list_elem_of_fmap. intros ([k2 v2] & Heq & Hin); cbn in Heq; subst k2.
  apply Hni. rewrite list_elem_of_In, filter_In in Hin. destruct Hin as [Hin _].
  apply list_elem_of_fmap. exists (k, v2). by rewrite list_elem_of_In.
Qed.

(** ** Sizes *)

Lemma mget_filter (p : K * V → bool) k m :
  mwf m →
  mget k (List.filter p m) =
    match mget k m with Some v => if p (k, v) then Some v else None | None => None end.
Proof.
  unfold mwf, mkeys. induction m as [|[k' v'] m IH]; intros Hwf; [done|]. cbn in Hwf.
  apply NoDup_cons in Hwf as [Hn Hwf]. cbn [List.filter mget].
  destruct (decide (k = k')) as [->|Hk].
  - destruct (p (k', v')); cbn [mget]; [by rewrite decide_True|]. rewrite IH by done.
    assert (Hm : mget k' m = None) by (destruct (mget k' m) eqn:E; [|done]; exfalso; apply Hn;
      apply list_elem_of_fmap; exists (k', v); split; [done|]; clear -E;
      induction m as [|[k v0] m IH]; [done|]; cbn in E; destruct (decide (k' = k)) as [->|];
      [injection E as ->; by left|right; by apply IH]).
    by rewrite Hm.
  - destruct (p (k', v')); cbn [mget]; [rewrite decide_False by done|]; by apply IH.
Qed.

(** Deleting several keys. *)
Definition mdels (ks : list K) m : jmap K V := fold_left (λ m k, mdel k m) ks m.

Lemma mget_mdels ks k m : mget k (mdels ks m) = if decide (k ∈ ks) then None else mget k m.
Proof.
  revert m. induction ks as [|k' ks IH]; intros m; cbn [mdels fold_left].
  - rewrite decide_False; [done|]. apply not_elem_of_nil.
  - fold (mdels ks (mdel k' m)). rewrite IH, mget_mdel. destruct (decide (k ∈ ks)) as [Hk|Hk].
    + rewrite decide_True; [done|by right].
    + destruct (decide (k = k')) as [->|Hn]; [by rewrite decide_True by by left|].
      rewrite decide_False; [done|]. by intros [?|?]%elem_of_cons.
Qed.

Lemma mwf_mdels ks m : mwf m → mwf (mdels ks m).
Proof.
  revert m. induction ks as [|k ks IH]; intros m Hm; [done|]. cbn [mdels fold_left].
  by apply IH, mwf_mdel.
Qed.

Lemma elem_of_mdels ks q m : q ∈ mdels ks m ↔ q ∈ m ∧ q.1 ∉ ks.
Proof.
  revert m. induction ks as [|k ks IH]; intros m; cbn [mdels fold_left].
  - split; [intros ?; split; [done|apply not_elem_of_nil]|by intros [? _]].
  - fold (mdels ks (mdel k m)). rewrite IH, elem_of_mdel, not_elem_of_cons. tauto.
Qed.

Lemma mdel_filter k m : mdel k m = List.filter (λ q, negb (bool_decide (q.1 = k))) m.
Proof.
  induction m as [|[k' v'] m IH]; [done|]. cbn [mdel List.filter fst]. rewrite IH.
  destruct (decide (k = k')) as [->|Hn]; [by rewrite bool_decide_true|by rewrite bool_decide_false].
Qed.

Lemma mdels_filter ks m : mdels ks m = List.filter (λ q, negb (bool_decide (q.1 ∈ ks))) m.
Proof.
  revert m. induction ks as [|k ks IH]; intros m; cbn [mdels fold_left].
  - symmetry. apply filter_countb_all. apply countb_Forall_not, Forall_forall. intros q _.
    rewrite bool_decide_false; [done|]. apply not_elem_of_nil.
  - fold (mdels ks (mdel k m)). rewrite IH, mdel_filter, filter_filter. apply filter_ext. intros q.
    destruct (bool_decide_reflect (q.1 = k)) as [->|Hn]; simpl.
    + rewrite bool_decide_true; [done|by left].
    + f_equal. apply bool_decide_ext. rewrite elem_of_cons. tauto.
Qed.

Lemma msize_mset k v m :
  msize (mset k v m) = (if mget k m is Some _ then msize m else S (msize m)).
Proof.
  induction m as [|[k' v'] m IH]; simpl; [done|].
  destruct (decide (k = k')); simpl; [done|]. rewrite IH. by destruct (mget k m).
Qed.

Lemma msize_mupd f k m : msize (mupd f k m) = msize m.
Proof.
  induction m as [|[k' v'] m IH]; simpl; [done|].
  destruct (decide (k = k')); simpl; [done|]. by rewrite IH.
Qed.

Lemma msize_mdel_le k m : (msize (mdel k m) ≤ msize m)%nat.
Proof. apply sublist_length, mdel_sublist. Qed.

Lemma msize_mdel_present k m :
  mwf m → is_Some (mget k m) → S (msize (mdel k m)) = msize m.
Proof.
  unfold mwf, mkeys. induction m as [|[k' v'] m IH]; simpl; [by intros _ [? ?]|].
  rewrite NoDup_cons. intros [Hni Hnd] Hs.
  destruct (decide (k = k')) as [->|].
  - f_equal. rewrite mdel_absent; [done|]. by apply not_elem_of_mkeys.
  - simpl. f_equal. by apply IH.
Qed.

(** ** Equality up to order *)

Definition mequiv (m1 m2 : jmap K V) : Prop := ∀ k, mget k m1 = mget k m2.

#[export] Instance mequiv_equivalence : Equivalence mequiv.
Proof.
  split; [done|by intros ?? H ?; rewrite H|].
  intros ??? H1 H2 k. by rewrite H1.
Qed.

#[export] Instance mget_proper : Proper (eq ==> mequiv ==> eq) mget.
Proof. intros ?? -> m1 m2 H. apply H. Qed.

#[export] Instance mset_proper : Proper (eq ==> eq ==> mequiv ==> mequiv) mset.
Proof. intros ?? -> ?? -> m1 m2 H k. by rewrite !mget_mset, H. Qed.

#[export] Instance mdel_proper : Proper (eq ==> mequiv ==> mequiv) mdel.
Proof. intros ?? -> m1 m2 H k. by rewrite !mget_mdel, H. Qed.

Lemma mset_comm k1 k2 v1 v2 m :
  k1 ≠ k2 → mequiv (mset k1 v1 (mset k2 v2 m)) (mset k2 v2 (mset k1 v1 m)).
Proof. intros Hne k. rewrite !mget_mset. repeat case_decide; congruence. Qed.

Lemma mset_mset k v1 v2 m : mequiv (mset k v1 (mset k v2 m)) (mset k v1 m).
Proof. intros k'. rewrite !mget_mset. by case_decide. Qed.

Lemma mset_mdel k v m : mequiv (mset k v (mdel k m)) (mset k v m).
Proof. intros k'. rewrite !mget_mset, mget_mdel. by case_decide. Qed.

Lemma mdel_mset k v m : mequiv (mdel k (mset k v m)) (mdel k m).
Proof. intros k'. rewrite !mget_mdel, mget_mset. by case_decide. Qed.

(** Inserting the entries of [m'] one after the other, as a persistence import
    does. *)
Definition mimport (entries m : jmap K V) : jmap K V :=
  foldl (λ acc e, mset e.1 e.2 acc) m entries.

Lemma mimport_app_fresh entries m :
  mwf (m ++ entries) → mimport entries m = m ++ entries.
Proof.
  unfold mimport. revert m. induction entries as [|[k v] es IH]; intros m Hwf; simpl.
  - by rewrite app_nil_r.
  - assert (mget k m = None) as Hk.
    { apply not_elem_of_mkeys. unfold mwf, mkeys in Hwf.
      rewrite fmap_app in Hwf; simpl in Hwf. apply NoDup_app in Hwf as (_ & Hd & _).
      intros Hin. apply (Hd k Hin). by left. }
    rewrite mset_fresh by done. rewrite IH.
    + by rewrite <- app_assoc.
    + by rewrite <- app_assoc.
Qed.

(** Importing an exported map into an empty one restores it exactly. *)
Lemma mimport_roundtrip m : mwf m → mimport m [] = m.
Proof. intros Hwf. by rewrite mimport_app_fresh. Qed.

Lemma mwf_mimport entries m : mwf m → mwf (mimport entries m).
Proof.
  unfold mimport. revert m. induction entries as [|e es IH]; intros m Hwf; simpl;
    [done|]. apply IH, mwf_mset, Hwf.
Qed.
End jsmap.

Arguments mget : simpl nomatch.

(** The values of a map with one key updated. *)
Lemma Forall_mset {K V} `{EqDecision K} (P : K * V → Prop) k v (m : jmap K V) :
  Forall P m → P (k, v) → Forall P (mset k v m).
Proof.
  rewrite !Forall_forall. intros Hm Hp x Hx.
  destruct (elem_of_mset _ _ _ _ Hx) as [->|?]; auto.
Qed.

Lemma Forall_mdel {K V} `{EqDecision K} (P : K * V → Prop) k (m : jmap K V) :
  Forall P m → Forall P (mdel k m).
Proof.
  rewrite !Forall_forall. intros Hm x Hx. apply Hm. by apply elem_of_mdel in Hx as [? _].
Qed.

Create Rewrite HintDb jsmap.
#[export] Hint Rewrite @mget_mset_eq @mget_mdel_eq @mget_mset @mget_mdel @mget_mupd
  : jsmap.
#[export] Hint Resolve mwf_nil mwf_mset mwf_mdel mwf_mupd mwf_filter mwf_mimport : kookr.

(** Normalise lookups, splitting on the keys. *)
Ltac simp_map :=
  repeat (autorewrite with jsmap in *; repeat case_decide; simplify_eq/=).
