(* ===== verification/JsArray.v ===== *)
(** * JavaScript arrays: stable sorting and bounded logs

    [Array.prototype.sort] is stable (ECMAScript 2019), and the attention queue
    relies on it: entries of equal rank keep their insertion order.  [sort_by]
    is a stable sort by a three-way comparator, with its specification. *)

From S2P Require Import Prelude.
Local Open Scope Z_scope.

Section sort.
Context {A : Type} (cmp : A → A → Z).

(** Insert [x] before the first element it does not come after. *)
Fixpoint insert_by (x : A) (l : list A) : list A :=
  match l with
  | [] => [x]
  | y :: l' => if cmp x y <=? 0 then x :: y :: l' else y :: insert_by x l'
  end.

(** [[...l].sort(cmp)]. *)
Definition sort_by (l : list A) : list A := foldr insert_by [] l.

Lemma insert_by_perm x l : insert_by x l ≡ₚ x :: l.
Proof.
  induction l as [|y l IH]; simpl; [done|].
  destruct (cmp x y <=? 0); [done|]. rewrite IH. apply Permutation_swap.
Qed.

Lemma sort_by_perm l : sort_by l ≡ₚ l.
Proof.
  induction l as [|x l IH]; simpl; [done|]. by rewrite insert_by_perm, IH.
Qed.

Lemma elem_of_sort_by x l : x ∈ sort_by l ↔ x ∈ l.
Proof. by rewrite sort_by_perm. Qed.

Lemma length_sort_by l : length (sort_by l) = length l.
Proof. by rewrite sort_by_perm. Qed.

(** The comparator is a total preorder. *)
Class CmpOrder : Prop := {
  cmp_flip x y : cmp x y <= 0 ∨ cmp y x <= 0;
  cmp_trans x y z : cmp x y <= 0 → cmp y z <= 0 → cmp x z <= 0
}.

Context `{!CmpOrder}.

Definition cmp_le (x y : A) : Prop := cmp x y <= 0.

Lemma insert_by_sorted x l :
  StronglySorted cmp_le l → StronglySorted cmp_le (insert_by x l).
Proof.
  induction 1 as [|y l Hs IH Hall]; simpl; [repeat constructor|].
  destruct (cmp x y <=? 0) eqn:E; zbool.
  - constructor; [by constructor|]. constructor; [done|].
    eapply Forall_impl; [exact Hall|]. intros z Hz.
    unfold cmp_le in *. by eapply cmp_trans.
  - constructor; [done|]. rewrite insert_by_perm. constructor; [|done].
    unfold cmp_le. destruct (cmp_flip x y); [lia|done].
Qed.

Lemma sort_by_sorted l : StronglySorted cmp_le (sort_by l).
Proof.
  induction l as [|x l IH]; simpl; [constructor|by apply insert_by_sorted].
Qed.

(** The head of a sorted array is a least element. *)
Lemma sort_by_head l x xs :
  sort_by l = x :: xs → x ∈ l ∧ ∀ y, y ∈ l → cmp_le x y.
Proof.
  intros Hs. pose proof (sort_by_sorted l) as Hso. rewrite Hs in Hso.
  split.
  - apply elem_of_sort_by. rewrite Hs. by left.
  - intros y Hy. apply elem_of_sort_by in Hy. rewrite Hs in Hy.
    apply elem_of_cons in Hy as [->|Hy].
    + unfold cmp_le. destruct (cmp_flip x x); done.
    + inversion Hso as [|? ? ? Hall]; subst. rewrite Forall_forall in Hall. auto.
Qed.

(** More precisely, the first of the least elements. *)
Lemma sort_by_first l x xs :
  sort_by l = x :: xs →
  ∃ before after, l = before ++ x :: after ∧
    (∀ y, y ∈ before → 0 < cmp y x) ∧ (∀ y, y ∈ after → cmp x y ≤ 0).
Proof.
  revert x xs. induction l as [|z l IH]; intros x xs; simpl; [done|].
  destruct (sort_by l) as [|y ys] eqn:Hl; simpl.
  - intros [= <- <-]. exists [], l. split_and!; [done|set_solver|].
    intros w Hw. rewrite <- elem_of_sort_by, Hl in Hw. by apply elem_of_nil in Hw.
  - destruct (sort_by_head l y ys Hl) as [_ Hmin].
    destruct (cmp z y <=? 0) eqn:E; zbool; intros [= <- <-].
    + exists [], l. split_and!; [done|set_solver|].
      intros w Hw. eapply cmp_trans; [exact E|]. by apply Hmin.
    + destruct (IH y ys eq_refl) as (before & after & -> & Hb & Ha).
      exists (z :: before), after. split_and!; [done| |done].
      intros w [->|Hw]%elem_of_cons; [lia|auto].
Qed.

(** *** Stability *)

(** A class of elements the comparator does not distinguish keeps its order:
    filtering by any predicate whose elements are mutually tied commutes with
    sorting. *)
Definition tied (p : A → bool) : Prop :=
  ∀ x y, p x = true → p y = true → cmp x y <= 0.

Lemma insert_by_filter_out p x l :
  p x = false → List.filter p (insert_by x l) = List.filter p l.
Proof.
  intros Hx. induction l as [|y l IH]; simpl; [by rewrite Hx|].
  destruct (cmp x y <=? 0); simpl; [by rewrite Hx|]. by rewrite IH.
Qed.

Lemma insert_by_filter_in p x l :
  tied p → p x = true →
  List.filter p (insert_by x l) = x :: List.filter p l.
Proof.
  intros Ht Hx. induction l as [|y l IH]; simpl; [by rewrite Hx|].
  destruct (cmp x y <=? 0) eqn:E; simpl; [by rewrite Hx|].
  rewrite IH. destruct (p y) eqn:Hy; [|done].
  zbool. specialize (Ht x y Hx Hy). lia.
Qed.

Lemma sort_by_stable p l : tied p → List.filter p (sort_by l) = List.filter p l.
Proof.
  intros Ht. induction l as [|x l IH]; simpl; [done|].
  destruct (p x) eqn:Hx.
  - by rewrite insert_by_filter_in, IH.
  - by rewrite insert_by_filter_out.
Qed.
End sort.

Arguments CmpOrder {A} cmp.

Lemma StronglySorted_impl {A} (R S : A → A → Prop) l :
  (∀ a b, R a b → S a b) → StronglySorted R l → StronglySorted S l.
Proof.
  intros H. induction 1 as [|x l Hs IH Hall]; constructor; [done|].
  eapply Forall_impl; [exact Hall|]. auto.
Qed.

Lemma StronglySorted_filter {A} (R : A → A → Prop) (p : A → bool) l :
  StronglySorted R l → StronglySorted R (List.filter p l).
Proof.
  induction 1 as [|x l Hs IH Hall]; cbn; [constructor|]. destruct (p x); [|done].
  constructor; [done|]. rewrite Forall_forall in *. intros y Hy. apply Hall.
  apply list_elem_of_In, filter_In in Hy as [Hy _]. by apply list_elem_of_In.
Qed.

(** Sorting maps: a key that the comparator factors through. *)
Lemma sort_by_nil {A} (cmp : A → A → Z) l : sort_by cmp l = [] ↔ l = [].
Proof.
  split; [|by intros ->]. intros H. apply length_zero_iff_nil.
  by rewrite <- (length_sort_by cmp), H.
Qed.
