(* ===== verification/JsString.v ===== *)
(** * JavaScript strings

    A JavaScript string is a sequence of UTF-16 code units.  It is modelled as a
    [string] whose characters are the code units 0 to 255, so the text the
    development computes with is Latin-1; the case mapping and the white-space
    class below are those of ECMAScript on that range.  Identifiers (task,
    session, agent ids) are only compared and concatenated. *)

From S2P Require Import Prelude.
From stdpp Require Export pretty.
From Stdlib Require Export Ascii.
Local Open Scope Z_scope.

Abbreviation str := (list ascii).

Definition chars (s : string) : str := String.list_ascii_of_string s.
Definition unchars (l : str) : string := String.string_of_list_ascii l.

Definition code (c : ascii) : N := N_of_ascii c.

(** [String.prototype.charCodeAt]. *)
Definition charCodeAt (c : ascii) : Z := Z.of_N (code c).

(** [String.prototype.toLowerCase] on one code unit. *)
Definition lowerChar (c : ascii) : ascii :=
  let n := code c in
  if (((65 <=? n) && (n <=? 90)) || ((192 <=? n) && (n <=? 222) && negb (n =? 215)))%N
  then ascii_of_N (n + 32) else c.

(** The class [\s]. *)
Definition isWs (c : ascii) : bool :=
  let n := code c in
  (((9 <=? n) && (n <=? 13)) || (n =? 32) || (n =? 160))%N.

Definition isDigit (c : ascii) : bool := let n := code c in ((48 <=? n) && (n <=? 57))%N.

Fixpoint dropWhile (p : ascii → bool) (l : str) : str :=
  match l with
  | [] => []
  | c :: l' => if p c then dropWhile p l' else l
  end.

Definition dropWhileEnd (p : ascii → bool) (l : str) : str := rev (dropWhile p (rev l)).

(** [String.prototype.trim]. *)
Definition trimChars (l : str) : str := dropWhileEnd isWs (dropWhile isWs l).
Definition trim (s : string) : string := unchars (trimChars (chars s)).

(** [.replace(/\s+/g, ' ')]: [inWs] says the previous code unit was white
    space. *)
Fixpoint collapseFrom (inWs : bool) (l : str) : str :=
  match l with
  | [] => []
  | c :: l' =>
      if isWs c then (if inWs then collapseFrom true l' else " "%char :: collapseFrom true l')
      else c :: collapseFrom false l'
  end.
Definition collapseWs (l : str) : str := collapseFrom false l.

(** [s.slice(0, n)]. *)
Definition sliceTo (n : nat) (s : string) : string := unchars (take n (chars s)).

Definition startsWith (p s : string) : bool := String.prefix p s.

(** [s.split(c)] for a separator of one code unit. *)
Fixpoint splitOn (c : ascii) (l : str) : list str :=
  match l with
  | [] => [[]]
  | x :: l' =>
      if decide (x = c) then [] :: splitOn c l'
      else match splitOn c l' with [] => [[x]] | h :: t => (x :: h) :: t end
  end.

(** Decimal rendering of an integer number. *)
Definition showZ (z : Z) : string := pretty z.

(** [parts.join(sep)]. *)
Definition joinWith (sep : string) (parts : list string) : string := String.concat sep parts.

(** ** Lemmas *)

Lemma chars_unchars l : chars (unchars l) = l.
Proof. apply String.list_ascii_of_string_of_list_ascii. Qed.

Lemma unchars_chars s : unchars (chars s) = s.
Proof. apply String.string_of_list_ascii_of_string. Qed.

Lemma chars_app s t : chars (s +:+ t) = chars s ++ chars t.
Proof. induction s as [|c s IH]; [done|]. unfold chars in *. simpl. by f_equal. Qed.

Lemma unchars_inj l1 l2 : unchars l1 = unchars l2 → l1 = l2.
Proof. intros H. by rewrite <- (chars_unchars l1), H, chars_unchars. Qed.

Lemma chars_inj s t : chars s = chars t → s = t.
Proof. intros H. by rewrite <- (unchars_chars s), H, unchars_chars. Qed.

Lemma lowerChar_idem c : lowerChar (lowerChar c) = lowerChar c.
Proof. by destruct c as [[] [] [] [] [] [] [] []]. Qed.

Lemma isWs_lowerChar c : isWs (lowerChar c) = isWs c.
Proof. by destruct c as [[] [] [] [] [] [] [] []]. Qed.

Lemma dropWhile_sublist p l : dropWhile p l `suffix_of` l.
Proof.
  induction l as [|c l IH]; simpl; [done|]. destruct (p c); [|done].
  by apply suffix_cons_r.
Qed.

Lemma dropWhile_head p l c l' : dropWhile p l = c :: l' → p c = false.
Proof.
  induction l as [|d l IH]; simpl; [done|]. destruct (p d) eqn:E; [done|].
  by intros [= -> ->].
Qed.

Lemma collapseFrom_app b l1 l2 :
  ∃ b', collapseFrom b (l1 ++ l2) = collapseFrom b l1 ++ collapseFrom b' l2 ∧
    (∀ l3, collapseFrom b (l1 ++ l3) = collapseFrom b l1 ++ collapseFrom b' l3).
Proof.
  revert b. induction l1 as [|c l1 IH]; intros b; simpl.
  - by exists b.
  - destruct (isWs c); [destruct b|].
    + destruct (IH true) as (b' & H1 & H2). exists b'. by rewrite H1.
    + destruct (IH true) as (b' & H1 & H2). exists b'. rewrite H1.
      split; [done|]. intros l3. by rewrite H2.
    + destruct (IH false) as (b' & H1 & H2). exists b'. rewrite H1.
      split; [done|]. intros l3. by rewrite H2.
Qed.

(** A run of white space collapses like a single white-space unit. *)
Lemma collapseWs_run l1 l2 w1 w2 :
  isWs w1 = true → isWs w2 = true →
  collapseWs (l1 ++ w1 :: w2 :: l2) = collapseWs (l1 ++ w2 :: l2).
Proof.
  intros H1 H2. unfold collapseWs.
  destruct (collapseFrom_app false l1 (w1 :: w2 :: l2)) as (b & -> & H).
  rewrite H. f_equal. simpl. rewrite H1, H2. by destruct b.
Qed.

(** White space after collapsing is a single blank. *)
Lemma collapseFrom_ws b l c : c ∈ collapseFrom b l → isWs c = true → c = " "%char.
Proof.
  revert b. induction l as [|d l IH]; intros b; simpl; [by rewrite elem_of_nil|].
  destruct (isWs d) eqn:E; [destruct b|].
  - apply IH.
  - rewrite elem_of_cons. intros [->|Hin] Hc; [done|by eapply IH].
  - rewrite elem_of_cons. intros [->|Hin] Hc; [congruence|by eapply IH].
Qed.

(** Two texts split at the first occurrence of a separator neither prefix
    contains. *)
Lemma app_sep_inj (c : ascii) (l1 l2 r1 r2 : str) :
  c ∉ l1 → c ∉ l2 → l1 ++ c :: r1 = l2 ++ c :: r2 → l1 = l2 ∧ r1 = r2.
Proof.
  revert l2. induction l1 as [|d l1 IH]; intros [|d2 l2] H1 H2; simpl.
  - by intros [= ->].
  - intros [= -> _]. set_solver.
  - intros [= -> _]. set_solver.
  - intros [= -> H]. destruct (IH l2) as [-> ->]; set_solver.
Qed.

(** Removing code units of a class, [.replace(/[...]/g, '')]. *)
Definition removeChars (p : ascii → bool) (l : str) : str := List.filter (λ c, negb (p c)) l.

Lemma removeChars_app p l1 l2 : removeChars p (l1 ++ l2) = removeChars p l1 ++ removeChars p l2.
Proof. apply List.filter_app. Qed.

(** ** Stripping a decimal run *)

(** [skipDigits l] drops the digits at the front of [l]. *)
Definition skipDigits (l : str) : str := dropWhile isDigit l.

Lemma dropWhile_app_all p l1 l2 :
  Forall (λ c, p c = true) l1 → dropWhile p (l1 ++ l2) = dropWhile p l2.
Proof. induction 1 as [|c l Hc _ IH]; simpl; [done|]. by rewrite Hc. Qed.

Lemma splitOn_app c l1 l2 :
  c ∉ l1 → splitOn c (l1 ++ c :: l2) = l1 :: splitOn c l2.
Proof.
  induction l1 as [|x l1 IH]; intros Hc; simpl; [by rewrite decide_True|].
  rewrite decide_False by set_solver. by rewrite IH by set_solver.
Qed.

Lemma app_sep_inj_last (c : ascii) (l1 l2 r1 r2 : str) :
  c ∉ r1 → c ∉ r2 → l1 ++ c :: r1 = l2 ++ c :: r2 → l1 = l2 ∧ r1 = r2.
Proof.
  intros H1 H2 H. apply (f_equal reverse) in H. rewrite !reverse_app, !reverse_cons in H.
  rewrite <- !app_assoc in H. simpl in H.
  apply app_sep_inj in H as [E1 E2]; [|by rewrite elem_of_reverse..].
  split; [by apply (inj reverse)|by apply (inj reverse)].
Qed.

(** ** Reading a decimal integer *)

Definition digitOf (c : ascii) : Z := charCodeAt c - 48.

(** [Number] on the decimal integers; no other text is read in the modelled code. *)
Definition readDigits (l : str) : option Z :=
  if bool_decide (l ≠ []) && forallb isDigit l
  then Some (fold_left (λ n c, 10 * n + digitOf c) l 0) else None.

Definition readNumber (l : str) : option Z :=
  match l with
  | c :: l' => if bool_decide (c = "-"%char) then Z.opp <$> readDigits l' else readDigits l
  | [] => Some 0
  end.

Lemma digit_char x : isDigit (pretty_N_char x) = true.
Proof. unfold pretty_N_char. repeat case_match; done. Qed.

Lemma digitOf_char x : (x < 10)%N → digitOf (pretty_N_char x) = Z.of_N x.
Proof.
  intros H. assert (x = 0 ∨ x = 1 ∨ x = 2 ∨ x = 3 ∨ x = 4 ∨ x = 5 ∨ x = 6 ∨ x = 7 ∨ x = 8 ∨ x = 9)%N as E by lia.
  by destruct_or! E; subst.
Qed.

(** The digits of a number are digits, and read back as the number. *)
Lemma pretty_go x : ∀ s,
  (Forall (λ c, isDigit c = true) (chars s) → Forall (λ c, isDigit c = true) (chars (pretty_N_go x s))) ∧
  fold_left (λ n c, 10 * n + digitOf c) (chars (pretty_N_go x s)) 0
  = fold_left (λ n c, 10 * n + digitOf c) (chars s) (Z.of_N x).
Proof.
  induction (N.lt_wf_0 x) as [x _ IH]. intros s. destruct (decide (0 < x)%N) as [Hx|Hx].
  - rewrite pretty_N_go_step by done.
    destruct (IH (x `div` 10)%N ltac:(apply N.div_lt; lia) (String (pretty_N_char (x `mod` 10)) s)) as [A B].
    split.
    + intros F. apply A. simpl. constructor; [apply digit_char|done].
    + rewrite B. simpl. rewrite digitOf_char by (apply N.mod_lt; lia). f_equal.
      rewrite N2Z.inj_div, N2Z.inj_mod. pose proof (Z.div_mod (Z.of_N x) 10). lia.
  - assert (x = 0)%N as -> by lia. by rewrite pretty_N_go_0.
Qed.

Lemma readDigits_pretty (n : N) :
  Forall (λ c, isDigit c = true) (chars (pretty n)) ∧ readDigits (chars (pretty n)) = Some (Z.of_N n).
Proof.
  unfold pretty, pretty_N. case_decide; [subst; split; [repeat constructor|done]|].
  destruct (pretty_go n ""%string) as [A B]. specialize (A (Forall_nil_2 _)). split; [done|].
  unfold readDigits. rewrite bool_decide_true.
  - rewrite (proj2 (forallb_forall _ _)); [by rewrite B|].
    intros c Hc. by eapply Forall_forall in A; [|apply list_elem_of_In].
  - intros E. rewrite E in B. simpl in B. lia.
Qed.

Lemma showZ_chars n : Forall (λ c, isDigit c = true ∨ c = "-"%char) (chars (showZ n)).
Proof.
  assert (F : ∀ m : N, Forall (λ c, isDigit c = true ∨ c = "-"%char) (chars (pretty m))).
  { intros m. eapply Forall_impl; [apply readDigits_pretty|auto]. }
  unfold showZ, pretty, pretty_Z. destruct n; [repeat constructor; auto|apply F|].
  simpl. constructor; [by right|apply F].
Qed.

Lemma readNumber_showZ n : readNumber (chars (showZ n)) = Some n.
Proof.
  assert (F : ∀ p, readNumber (chars (pretty (N.pos p))) = Some (Z.pos p)).
  { intros p. destruct (readDigits_pretty (N.pos p)) as [A B]. unfold readNumber.
    destruct (chars (pretty (N.pos p))) as [|c l]; [done|]. apply Forall_cons in A as [A _].
    case_bool_decide; [by subst|done]. }
  unfold showZ, pretty, pretty_Z. destruct n as [|p|p]; [done|apply F|].
  change (Z.opp <$> readDigits (chars (pretty (N.pos p))) = Some (Z.neg p)).
  by rewrite (proj2 (readDigits_pretty (N.pos p))).
Qed.
