(* ===== verification/JsRegExp.v ===== *)
(** * JavaScript regular expressions

    The constructs of ECMAScript regular expressions the program uses: character
    classes, sequence, ordered choice, greedy and lazy repetition, word boundaries,
    the ends of the text and one capture group.  [matches] lists what the backtracking
    matcher would try, in its order, so the head of the list is its match;
    [Matches] is the order-free meaning, and [matches_iff] relates the two. *)

From S2P Require Import Prelude JsString.
Local Open Scope Z_scope.

Inductive regexp :=
| RClass (p : ascii → bool)
| RSeq (r1 r2 : regexp)
| RAlt (r1 r2 : regexp)
| REmpty
| RRep (greedy : bool) (r : regexp)
| RWordBoundary
| RStart
| REnd
| RCapture (r : regexp).

(** [r*] and [r*?]. *)
Abbreviation RStar := (RRep true).
Abbreviation RLazy := (RRep false).

(** Where the matcher is: the code unit before, the text after, the captured group. *)
Record place := mkPlace {
  before : option ascii;
  after : str;
  captured : option str
}.

(** The class [\w]. *)
Definition isWord (c : ascii) : bool :=
  let n := code c in
  (((48 <=? n) && (n <=? 57)) || ((65 <=? n) && (n <=? 90)) || (n =? 95)
   || ((97 <=? n) && (n <=? 122)))%N.

Definition isWordOpt (c : option ascii) : bool :=
  match c with Some c => isWord c | None => false end.

Definition atWordBoundary (s : place) : bool :=
  xorb (isWordOpt (before s)) (isWordOpt (head (after s))).

(** What was consumed between two places. *)
Definition consumed (s s' : place) : str := take (length (after s) - length (after s')) (after s).

Section matcher.

(** A repetition, which goes on first or stops first: [n] bounds the iterations, each
    of which must consume. *)
Fixpoint repeat (greedy : bool) (m : place → list place) (n : nat) (s : place) : list place :=
  match n with
  | O => [s]
  | S n =>
      let more :=
        m s ≫= λ s', if Nat.ltb (length (after s')) (length (after s)) then repeat greedy m n s' else [] in
      if greedy then more ++ [s] else s :: more
  end.

Fixpoint matches (r : regexp) (s : place) : list place :=
  match r with
  | RClass p =>
      match after s with
      | c :: l => if p c then [mkPlace (Some c) l (captured s)] else []
      | [] => []
      end
  | RSeq r1 r2 => matches r1 s ≫= matches r2
  | RAlt r1 r2 => matches r1 s ++ matches r2 s
  | REmpty => [s]
  | RRep g r => repeat g (matches r) (length (after s)) s
  | RWordBoundary => if atWordBoundary s then [s] else []
  | RStart => if before s is None then [s] else []
  | REnd => if after s is [] then [s] else []
  | RCapture r => (λ s', mkPlace (before s') (after s') (Some (consumed s s'))) <$> matches r s
  end.

(** A match: the text before it, the matched text, the group, and where it ends. *)
Record found := mkFound {
  skipped : str;
  matched : str;
  group : option str;
  rest : place
}.

(** [exec] from a position: the first place where the expression matches. *)
Fixpoint exec (r : regexp) (b : option ascii) (l : str) : option found :=
  let s := mkPlace b l None in
  match matches r s with
  | s' :: _ => Some (mkFound [] (consumed s s') (captured s') s')
  | [] =>
      match l with
      | [] => None
      | c :: l' =>
          (λ f, mkFound (c :: skipped f) (matched f) (group f) (rest f)) <$> exec r (Some c) l'
      end
  end.

Definition test (r : regexp) (l : str) : bool := isSome (exec r None l).

(** The matches of a global expression, one after the other; one that is empty
    moves on by a code unit.  [n] bounds their number. *)
Fixpoint allMatches (r : regexp) (n : nat) (b : option ascii) (l : str) : list found :=
  match n with
  | O => []
  | S n =>
      match exec r b l with
      | None => []
      | Some f =>
          f :: match matched f, after (rest f) with
               | [], [] => []
               | [], c :: l' => allMatches r n (Some c) l'
               | _ :: _, l' => allMatches r n (before (rest f)) l'
               end
      end
  end.

Definition matchAll (r : regexp) (l : str) : list found := allMatches r (S (length l)) None l.

(** [l.replace(r, f)] for a global expression. *)
Fixpoint replaceFrom (r : regexp) (f : str → str) (n : nat) (b : option ascii) (l : str) : str :=
  match n with
  | O => l
  | S n =>
      match exec r b l with
      | None => l
      | Some m =>
          skipped m ++ f (matched m) ++
          match matched m, after (rest m) with
          | [], [] => []
          | [], c :: l' => c :: replaceFrom r f n (Some c) l'
          | _ :: _, l' => replaceFrom r f n (before (rest m)) l'
          end
      end
  end.

Definition replaceAll (r : regexp) (f : str → str) (l : str) : str :=
  replaceFrom r f (S (length l)) None l.
End matcher.

(** ** Notation of the source *)

Definition cls (s : string) (c : ascii) : bool := bool_decide (c ∈ chars s).
Definition range (a b : ascii) (c : ascii) : bool := ((code a <=? code c) && (code c <=? code b))%N.
Definition orc (p q : ascii → bool) (c : ascii) : bool := p c || q c.
Definition notc (p : ascii → bool) (c : ascii) : bool := negb (p c).

(** Under the [i] flag a class contains a code unit when it contains it in
    either case. *)
Definition upperChar (c : ascii) : ascii :=
  let n := code c in
  if (((97 <=? n) && (n <=? 122)) || ((224 <=? n) && (n <=? 254) && negb (n =? 247)))%N
  then ascii_of_N (n - 32) else c.
Definition anyCase (p : ascii → bool) (c : ascii) : bool := p (lowerChar c) || p (upperChar c).

Fixpoint ignoreCase (r : regexp) : regexp :=
  match r with
  | RClass p => RClass (anyCase p)
  | RSeq r1 r2 => RSeq (ignoreCase r1) (ignoreCase r2)
  | RAlt r1 r2 => RAlt (ignoreCase r1) (ignoreCase r2)
  | RRep g r => RRep g (ignoreCase r)
  | RCapture r => RCapture (ignoreCase r)
  | REmpty | RWordBoundary | RStart | REnd => r
  end.

Fixpoint litChars (l : str) : regexp :=
  match l with
  | [] => REmpty
  | c :: l => RSeq (RClass (λ x, bool_decide (x = c))) (litChars l)
  end.
Definition lit (s : string) : regexp := litChars (chars s).

Definition ROpt (r : regexp) : regexp := RAlt r REmpty.
Definition RPlus (r : regexp) : regexp := RSeq r (RStar r).
Fixpoint RTimes (n : nat) (r : regexp) : regexp :=
  match n with O => REmpty | S n => RSeq r (RTimes n r) end.
Fixpoint oneOf (rs : list regexp) : regexp :=
  match rs with
  | [] => RClass (λ _, false)
  | [r] => r
  | r :: rs => RAlt r (oneOf rs)
  end.
Fixpoint seqOf (rs : list regexp) : regexp :=
  match rs with
  | [] => REmpty
  | [r] => r
  | r :: rs => RSeq r (seqOf rs)
  end.

Definition RBetween (n m : nat) (r : regexp) : regexp :=
  RSeq (RTimes n r) ((fix upTo (k : nat) : regexp := match k with O => REmpty | S k => ROpt (RSeq r (upTo k)) end) (m - n)%nat).
Definition RAtLeast (n : nat) (r : regexp) : regexp := RSeq (RTimes n r) (RStar r).

(** [\s], [\d] and [.]. *)
Definition RSpace : regexp := RClass isWs.
Definition RDigit : regexp := RClass isDigit.
Definition RDot : regexp := RClass (notc (λ c, (code c =? 10)%N || (code c =? 13)%N)).

(** [s.includes(t)]. *)
Definition includes (t : string) (s : str) : bool := test (lit t) s.

(** ** Meaning *)

Inductive Matches : regexp → place → place → Prop :=
| M_class p c l b k : p c = true → Matches (RClass p) (mkPlace b (c :: l) k) (mkPlace (Some c) l k)
| M_seq r1 r2 s s' s'' : Matches r1 s s' → Matches r2 s' s'' → Matches (RSeq r1 r2) s s''
| M_left r1 r2 s s' : Matches r1 s s' → Matches (RAlt r1 r2) s s'
| M_right r1 r2 s s' : Matches r2 s s' → Matches (RAlt r1 r2) s s'
| M_empty s : Matches REmpty s s
| M_stop g r s : Matches (RRep g r) s s
| M_more g r s s' s'' :
    Matches r s s' → (length (after s') < length (after s))%nat →
    Matches (RRep g r) s' s'' → Matches (RRep g r) s s''
| M_boundary s : atWordBoundary s = true → Matches RWordBoundary s s
| M_start l k : Matches RStart (mkPlace None l k) (mkPlace None l k)
| M_end b k : Matches REnd (mkPlace b [] k) (mkPlace b [] k)
| M_capture r s s' :
    Matches r s s' →
    Matches (RCapture r) s (mkPlace (before s') (after s') (Some (consumed s s'))).

Create HintDb regexp.
#[export] Hint Constructors Matches : regexp.

Lemma elem_of_repeat g m n s s' :
  s' ∈ repeat g m (S n) s ↔
    s' = s ∨ ∃ x, x ∈ m s ∧ (length (after x) < length (after s))%nat ∧ s' ∈ repeat g m n x.
Proof.
  assert (H : s' ∈ repeat g m (S n) s ↔
    s' = s ∨ s' ∈ (m s ≫= λ x, if Nat.ltb (length (after x)) (length (after s)) then repeat g m n x else [])).
  { simpl. destruct g; [|by rewrite elem_of_cons].
    rewrite elem_of_app, list_elem_of_singleton. tauto. }
  rewrite H, list_elem_of_bind. clear H. split; (intros [?|H]; [by left|right]).
  - destruct H as (x & H & Hx). exists x. destruct (Nat.ltb_spec (length (after x)) (length (after s))); [done|].
    by apply not_elem_of_nil in H.
  - destruct H as (x & Hx & Hl & H). exists x. split; [|done].
    by rewrite (proj2 (Nat.ltb_lt _ _) Hl).
Qed.

Lemma repeat_sound g m r n : (∀ s s', s' ∈ m s → Matches r s s') →
  ∀ s s', s' ∈ repeat g m n s → Matches (RRep g r) s s'.
Proof.
  intros Hm. induction n as [|n IH]; intros s s'.
  - simpl. rewrite list_elem_of_singleton. intros ->. constructor.
  - rewrite elem_of_repeat. intros [->|(x & Hx & Hl & H)]; [constructor|].
    eapply M_more; eauto.
Qed.

Lemma repeat_complete g m r n s s' :
  Matches (RRep g r) s s' → (∀ s s', Matches r s s' → s' ∈ m s) →
  (length (after s) ≤ n)%nat → s' ∈ repeat g m n s.
Proof.
  intros H Hm. remember (RRep g r) as R eqn:HR. revert n.
  induction H; simplify_eq; intros n Hn.
  - destruct n; [by left|]. apply elem_of_repeat. by left.
  - destruct n as [|n]; [lia|]. apply elem_of_repeat. right.
    exists s'. split_and!; [by apply Hm|done|]. apply IHMatches2; [done|lia].
Qed.

(** The matcher finds exactly the matches. *)
Theorem matches_iff r : ∀ s s', s' ∈ matches r s ↔ Matches r s s'.
Proof.
  induction r as [p|r1 IH1 r2 IH2|r1 IH1 r2 IH2| |g r IH| | | |r IH]; intros s s'; simpl.
  - destruct s as [b [|c l] k]; simpl.
    + split; [by intros ?%not_elem_of_nil|by inversion 1].
    + destruct (p c) eqn:E; [rewrite list_elem_of_singleton|].
      * split; [by intros ->; constructor|by inversion 1].
      * split; [by intros ?%not_elem_of_nil|inversion 1; congruence].
  - rewrite list_elem_of_bind. split.
    + intros (x & H2 & H1). econstructor; [by apply IH1|by apply IH2].
    + inversion 1; subst. eexists. by split; [apply IH2|apply IH1].
  - rewrite elem_of_app, IH1, IH2. split; [intros []; eauto with regexp|inversion 1; auto].
  - rewrite list_elem_of_singleton. split; [intros ->; constructor|by inversion 1].
  - split; [apply repeat_sound; intros; by apply IH|].
    intros H. eapply repeat_complete; [done|intros; by apply IH|done].
  - destruct (atWordBoundary s) eqn:E; [rewrite list_elem_of_singleton|].
    + split; [intros ->; by constructor|by inversion 1].
    + split; [by intros ?%not_elem_of_nil|inversion 1; congruence].
  - destruct s as [[c|] l k]; simpl.
    + split; [by intros ?%not_elem_of_nil|by inversion 1].
    + rewrite list_elem_of_singleton. split; [intros ->; constructor|by inversion 1].
  - destruct s as [b [|c l] k]; simpl.
    + rewrite list_elem_of_singleton. split; [intros ->; constructor|by inversion 1].
    + split; [by intros ?%not_elem_of_nil|by inversion 1].
  - rewrite list_elem_of_fmap. split.
    + intros (x & -> & H). constructor. by apply IH.
    + inversion 1; subst. eexists. split; [done|]. by apply IH.
Qed.

(** ** What a match consumes *)

(** A match only moves forward. *)
Lemma Matches_suffix r s s' : Matches r s s' → after s' `suffix_of` after s.
Proof.
  induction 1; simpl in *; try done; [by apply suffix_cons_r|by etrans|by etrans].
Qed.

Lemma consumed_after s s' : after s' `suffix_of` after s → after s = consumed s s' ++ after s'.
Proof.
  intros [k Hk]. unfold consumed. rewrite Hk, length_app.
  replace (length k + length (after s') - length (after s'))%nat with (length k) by lia.
  by rewrite take_app_length.
Qed.

Lemma matches_nil_iff r s : matches r s = [] ↔ ∀ s', ¬ Matches r s s'.
Proof.
  setoid_rewrite <- matches_iff. split.
  - intros -> s' H. by apply not_elem_of_nil in H.
  - intros H. destruct (matches r s) as [|x l]; [done|]. exfalso. apply (H x). by left.
Qed.

(** The text is what is before the match, the match and what is after. *)
Lemma exec_split r : ∀ b l f,
  exec r b l = Some f → l = skipped f ++ matched f ++ after (rest f).
Proof.
  intros b l. revert b. induction l as [|c l IH]; intros b f; simpl;
    destruct (matches r _) as [|s' ms] eqn:E; try done.
  - intros [= <-]. simpl. assert (H : Matches r (mkPlace b [] None) s') by (apply matches_iff; rewrite E; by left).
    apply (consumed_after (mkPlace b [] None)), (Matches_suffix _ _ _ H).
  - destruct (exec r (Some c) l) as [g|] eqn:Eg; [|done]. intros [= <-]. simpl. f_equal. by apply (IH (Some c)).
  - intros [= <-]. simpl.
    assert (H : Matches r (mkPlace b (c :: l) None) s') by (apply matches_iff; rewrite E; by left).
    apply (consumed_after (mkPlace b (c :: l) None)), (Matches_suffix _ _ _ H).
Qed.

(** The position [l2] in the text, after [l1]. *)
Definition placeIn (b : option ascii) (l1 l2 : str) : place := mkPlace (last (option_list b ++ l1)) l2 None.

Lemma placeIn_nil b l : placeIn b [] l = mkPlace b l None.
Proof. by destruct b. Qed.

Lemma placeIn_cons b c l1 l2 : placeIn b (c :: l1) l2 = placeIn (Some c) l1 l2.
Proof. destruct b as [b|]; unfold placeIn; simpl; [|done]. by destruct l1. Qed.

(** [exec] fails when the expression matches nowhere. *)
Lemma exec_None r : ∀ b l,
  exec r b l = None ↔ ∀ l1 l2, l = l1 ++ l2 → ∀ s', ¬ Matches r (placeIn b l1 l2) s'.
Proof.
  intros b l. revert b. induction l as [|c l IH]; intros b; simpl;
    destruct (matches r _) as [|s' ms] eqn:E.
  - split; [|done]. intros _ l1 l2 [-> ->]%symmetry%app_nil. rewrite placeIn_nil. by apply matches_nil_iff.
  - split; [done|]. intros H. exfalso. apply (H [] [] eq_refl s').
    rewrite placeIn_nil. apply matches_iff. rewrite E. by left.
  - rewrite fmap_None, IH. split.
    + intros H l1 l2 Hl. destruct l1 as [|c' l1]; simplify_list_eq.
      * rewrite placeIn_nil. by apply matches_nil_iff.
      * rewrite placeIn_cons. by apply H.
    + intros H l1 l2 ->. rewrite <- (placeIn_cons b). by apply H.
  - split; [done|]. intros H. exfalso. apply (H [] (c :: l) eq_refl s').
    rewrite placeIn_nil. apply matches_iff. rewrite E. by left.
Qed.

(** It finds the first place, and the first alternative there. *)
Lemma exec_Some r : ∀ b l f,
  exec r b l = Some f →
  ∃ l2 ms, l = skipped f ++ l2 ∧ matches r (placeIn b (skipped f) l2) = rest f :: ms
    ∧ matched f = consumed (placeIn b (skipped f) l2) (rest f) ∧ group f = captured (rest f).
Proof.
  intros b l. revert b. induction l as [|c l IH]; intros b f; simpl;
    destruct (matches r _) as [|s' ms] eqn:E; try done.
  - intros [= <-]. exists [], ms. by rewrite placeIn_nil.
  - destruct (exec r (Some c) l) as [g|] eqn:Eg; [|done]. intros [= <-]. simpl.
    destruct (IH _ _ Eg) as (l2 & ms & -> & Hm & Hc & Hg). exists l2, ms. by rewrite placeIn_cons.
  - intros [= <-]. exists (c :: l), ms. by rewrite placeIn_nil.
Qed.

(** [test] succeeds exactly when the expression matches somewhere in the text. *)
Lemma test_true r l :
  test r l = true ↔ ∃ l1 l2 s', l = l1 ++ l2 ∧ Matches r (placeIn None l1 l2) s'.
Proof.
  unfold test. destruct (exec r None l) as [f|] eqn:E; simpl.
  - split; [|done]. intros _. destruct (exec_Some _ _ _ _ E) as (l2 & ms & -> & Hm & _).
    exists (skipped f), l2, (rest f). split; [done|]. apply matches_iff. rewrite Hm. by left.
  - split; [done|]. intros (l1 & l2 & s' & -> & H). rewrite exec_None in E. by destruct (E l1 l2 eq_refl s').
Qed.

(** A literal matches itself. *)
Lemma Matches_lit t s s' : Matches (litChars t) s s' → after s = t ++ after s'.
Proof.
  revert s. induction t as [|c t IH]; intros s; simpl; inversion 1; subst; [done|].
  match goal with H : Matches (RClass _) _ _ |- _ => inversion H; subst end.
  case_bool_decide; [subst|done]. simpl. f_equal. by apply (IH (mkPlace (Some c) l k)).
Qed.

Lemma Matches_lit_here t : ∀ b l k, ∃ b', Matches (litChars t) (mkPlace b (t ++ l) k) (mkPlace b' l k).
Proof.
  induction t as [|c t IH]; intros b l k; simpl; [eexists; constructor|].
  destruct (IH (Some c) l k) as [b' H]. exists b'. econstructor; [|exact H].
  constructor. by case_bool_decide.
Qed.

(** [includes] is containment. *)
Lemma includes_true t l : includes t l = true ↔ ∃ l1 l2, l = l1 ++ chars t ++ l2.
Proof.
  unfold includes, lit. rewrite test_true. split.
  - intros (l1 & l2 & s' & -> & H). apply Matches_lit in H. unfold placeIn in H. simpl in H. subst.
    by exists l1, (after s').
  - intros (l1 & l2 & ->). destruct (Matches_lit_here (chars t) (last (option_list None ++ l1)) l2 None) as [b' H].
    by exists l1, (chars t ++ l2), (mkPlace b' l2 None).
Qed.

(** A replacement leaves a text without a match alone. *)
Lemma replaceAll_none r f l : test r l = false → replaceAll r f l = l.
Proof. unfold test, replaceAll. simpl. by destruct (exec r None l). Qed.

(** ** Expressions that do not look around *)

(** Without boundaries the place does not matter: [suffixes] lists what may be left of
    the text, in the order of the matcher. *)
Fixpoint plain (r : regexp) : bool :=
  match r with
  | RClass _ | REmpty => true
  | RSeq r1 r2 | RAlt r1 r2 => plain r1 && plain r2
  | RRep _ r => plain r
  | RWordBoundary | RStart | REnd | RCapture _ => false
  end.

Fixpoint repeatSuffixes (greedy : bool) (m : str → list str) (n : nat) (l : str) : list str :=
  match n with
  | O => [l]
  | S n =>
      let more := m l ≫= λ l', if Nat.ltb (length l') (length l) then repeatSuffixes greedy m n l' else [] in
      if greedy then more ++ [l] else l :: more
  end.

Fixpoint suffixes (r : regexp) (l : str) : list str :=
  match r with
  | RClass p => match l with c :: l' => if p c then [l'] else [] | [] => [] end
  | RSeq r1 r2 => suffixes r1 l ≫= suffixes r2
  | RAlt r1 r2 => suffixes r1 l ++ suffixes r2 l
  | RRep g r => repeatSuffixes g (suffixes r) (length l) l
  | REmpty | RWordBoundary | RStart | REnd | RCapture _ => [l]
  end.

Lemma bind_after (f : place → list place) (g : str → list str) (l : list place) :
  (∀ x, after <$> f x = g (after x)) → after <$> (l ≫= f) = (after <$> l) ≫= g.
Proof.
  intros H. induction l as [|x l IH]; [done|]. by rewrite bind_cons, fmap_app, H, IH.
Qed.

Lemma repeat_suffixes g m m' n : (∀ s, after <$> m s = m' (after s)) →
  ∀ s, after <$> repeat g m n s = repeatSuffixes g m' n (after s).
Proof.
  intros Hm. induction n as [|n IH]; intros s; [done|]. cbn [repeat repeatSuffixes].
  rewrite <- Hm, <- (bind_after (λ x, if Nat.ltb (length (after x)) (length (after s)) then repeat g m n x else [])).
  - destruct g; [by rewrite fmap_app|done].
  - intros x. by destruct (Nat.ltb _ _).
Qed.

Lemma matches_suffixes r : plain r = true → ∀ s, after <$> matches r s = suffixes r (after s).
Proof.
  induction r as [p|r1 IH1 r2 IH2|r1 IH1 r2 IH2| |g r IH| | | |r IH]; intros Hp s; try done; simpl in Hp |- *.
  - destruct (after s) as [|c l]; [done|]. by destruct (p c).
  - apply andb_prop in Hp as [H1 H2]. rewrite <- IH1 by done. apply bind_after. auto.
  - apply andb_prop in Hp as [H1 H2]. rewrite fmap_app, IH1, IH2 by done. done.
  - apply repeat_suffixes. auto.
Qed.

(** What is left after a literal. *)
Fixpoint stripPrefix (t l : str) : option str :=
  match t, l with
  | [], _ => Some l
  | c :: t, x :: l => if decide (x = c) then stripPrefix t l else None
  | _ :: _, [] => None
  end.

Lemma plain_lit t : plain (litChars t) = true.
Proof. by induction t. Qed.

Lemma suffixes_lit t : ∀ l, suffixes (litChars t) l = option_list (stripPrefix t l).
Proof.
  induction t as [|c t IH]; intros l; [done|]. destruct l as [|x l]; [done|]. simpl.
  case_bool_decide; case_decide; try done. by rewrite bind_cons, app_nil_r, IH.
Qed.

Lemma stripPrefix_Some t l l' : stripPrefix t l = Some l' ↔ l = t ++ l'.
Proof.
  revert l. induction t as [|c t IH]; intros [|x l]; simpl; [naive_solver..|].
  case_decide; [rewrite IH|]; naive_solver.
Qed.

(** A greedy run of a class leaves the text at its end first; before it, the class
    goes on. *)
Lemma suffixes_run p l : ∃ more,
  suffixes (RStar (RClass p)) l = dropWhile p l :: more ∧
  Forall (λ l', ∃ c k, l' = c :: k ∧ p c = true) more.
Proof.
  assert (H : ∀ m, (∀ k, m k = match k with c :: k' => if p c then [k'] else [] | [] => [] end) →
    ∀ n, (length l ≤ n)%nat → ∃ more, repeatSuffixes true m n l = dropWhile p l :: more ∧
      Forall (λ l', ∃ c k, l' = c :: k ∧ p c = true) more); [|by apply H].
  intros m Hm. induction l as [|c l IH]; intros n Hn; destruct n as [|n]; simpl in Hn; try lia; cbn [repeatSuffixes].
  - by exists [].
  - rewrite Hm. by exists [].
  - rewrite Hm. cbn [dropWhile]. destruct (p c) eqn:E; [|by exists []]. rewrite bind_cons, app_nil_r.
    rewrite (proj2 (Nat.ltb_lt _ _)) by (simpl; lia).
    destruct (IH n) as (more & -> & Hf); [lia|]. exists (more ++ [c :: l]). split; [done|].
    apply Forall_app. split; [done|]. apply Forall_singleton. eauto.
Qed.

(** The suffixes of a text, the longest first. *)
Fixpoint tails (l : str) : list str := l :: match l with [] => [] | _ :: l' => tails l' end.

Lemma suffixes_lazy l : suffixes (RLazy (RClass (λ _, true))) l = tails l.
Proof.
  assert (H : ∀ m, (∀ k, m k = match k with _ :: k' => [k'] | [] => [] end) →
    ∀ n, (length l ≤ n)%nat → repeatSuffixes false m n l = tails l); [|by apply H].
  intros m Hm. induction l as [|c l IH]; intros n Hn; destruct n as [|n]; simpl in Hn; try lia;
    cbn [repeatSuffixes tails]; [done|by rewrite Hm|]. rewrite Hm, bind_cons, app_nil_r.
  rewrite (proj2 (Nat.ltb_lt _ _)) by (simpl; lia). f_equal. apply IH. lia.
Qed.

(** ** Examples *)

Example regexp_greedy :
  (λ f, (unchars (skipped f), unchars (matched f))) <$>
    exec (seqOf [lit "a"; RStar RDot; lit "b"]) None (chars "xaabab-") = Some ("x", "aabab").
Proof. by vm_compute. Qed.

Example regexp_boundary :
  map (λ s, test (ignoreCase (seqOf [RWordBoundary; lit "gh"; RPlus RSpace; lit "pr"; RWordBoundary])) (chars s))
    ["gh pr merge"; "GH  PR"; "xgh pr"; "gh print"] = [true; true; false; false].
Proof. by vm_compute. Qed.

Example regexp_replace :
  unchars (replaceAll (seqOf [RWordBoundary; RPlus RDigit; RWordBoundary]) (λ _, chars "<num>")
             (chars "at 12:345 in f12")) = "at <num>:<num> in f12".
Proof. by vm_compute. Qed.
