(* ===== verification/JsJson.v ===== *)
(** * JSON values

    A parsed JSON value, and [JSON.stringify] of it.  A number is carried as the
    text it prints; the fields of an object are in the order of [Object.values],
    without repetition, as [JSON.parse] builds them. *)

From S2P Require Import Prelude JsMap JsString.
Local Open Scope Z_scope.

Inductive jvalue :=
| JNull
| JBool (b : bool)
| JNumber (text : string)
| JString (s : string)
| JArray (l : list jvalue)
| JObject (fields : jmap string jvalue).

(** ** [JSON.stringify] *)

Definition hexDigit (n : N) : ascii := ascii_of_N (if n <? 10 then n + 48 else n + 87)%N.

(** A quotation mark, and a backslash. *)
Definition quoteChar : ascii := ascii_of_N 34.
Definition backslash : ascii := ascii_of_N 92.

Definition escapeChar (c : ascii) : str :=
  let n := code c in
  if (n =? 34)%N || (n =? 92)%N then [backslash; c]
  else if (n =? 8)%N then [backslash; "b"%char]
  else if (n =? 9)%N then [backslash; "t"%char]
  else if (n =? 10)%N then [backslash; "n"%char]
  else if (n =? 12)%N then [backslash; "f"%char]
  else if (n =? 13)%N then [backslash; "r"%char]
  else if (n <? 32)%N then backslash :: chars "u00" ++ [hexDigit (n / 16); hexDigit (n mod 16)]
  else [c].

Definition quote (s : string) : str := quoteChar :: (chars s ≫= escapeChar) ++ [quoteChar].

(** [parts.join(',')] on character lists. *)
Fixpoint commas (parts : list str) : str :=
  match parts with
  | [] => []
  | [p] => p
  | p :: ps => p ++ ","%char :: commas ps
  end.

Fixpoint stringify (v : jvalue) : str :=
  match v with
  | JNull => chars "null"
  | JBool b => chars (if b then "true" else "false")
  | JNumber t => chars t
  | JString s => quote s
  | JArray l => "["%char :: commas (map stringify l) ++ ["]"%char]
  | JObject fs =>
      "{"%char :: commas (map (λ '(k, v), quote k ++ ":"%char :: stringify v) fs) ++ ["}"%char]
  end.

(** ** Reading a field *)

(** [typeof v === 'string'], with the string. *)
Definition asString (v : option jvalue) : option string :=
  match v with Some (JString s) => Some s | _ => None end.

(** [v.k] of an object that is not an array. *)
Definition field (k : string) (v : jvalue) : option jvalue :=
  match v with JObject fs => mget k fs | _ => None end.

(** [a ?? b]: [undefined] and [null] give way. *)
Definition nullish (a b : option jvalue) : option jvalue :=
  match a with None | Some JNull => b | Some _ => a end.

Example stringify_example :
  unchars (stringify (JObject [("stdout", JString "CONFLICT"); ("code", JNumber "1"); ("ok", JArray [JNull; JBool true])]))
  = unchars ("{"%char :: quote "stdout" ++ ":"%char :: quote "CONFLICT" ++ ","%char :: quote "code" ++ chars ":1,"
      ++ quote "ok" ++ chars ":[null,true]}").
Proof. by vm_compute. Qed.
