(* ===== verification/RedactSecrets.v ===== *)
(** * Secret scrubbing

    [src/core/redact-secrets.ts]: the token patterns one after the other, then the PEM
    blocks, found by index scans. *)

From S2P Require Import Prelude JsString JsRegExp JsJson.

Module Redact.
#[local] Open Scope nat_scope.

Definition REDACTED : str := chars "[REDACTED]".

Definition alnum (c : ascii) : bool := range "A" "Z" c || range "a" "z" c || range "0" "9" c.
Definition upperDigit (c : ascii) : bool := range "A" "Z" c || range "0" "9" c.
Definition tok (extra : string) : regexp := RClass (orc alnum (cls extra)).
Definition notIn (p : ascii → bool) : regexp := RClass (notc p).
Definition isLineEnd (c : ascii) : bool := (code c =? 10)%N || (code c =? 13)%N.

(** [\b<prefix><class>{n,}\b]. *)
Definition prefixed (prefix : string) (r : regexp) (n : nat) : regexp :=
  seqOf [RWordBoundary; lit prefix; RAtLeast n r; RWordBoundary].

(** [<name>\s*[:=]\s*<value>+] under the [i] flag. *)
Definition assigned (name value : regexp) : regexp :=
  ignoreCase (seqOf [RWordBoundary; name; RStar RSpace; RClass (cls ":="); RStar RSpace; RPlus value]).

Definition credentialName : regexp :=
  oneOf [seqOf [lit "api"; ROpt (RClass (cls "_-")); lit "key"]; lit "token"; lit "secret"; lit "password"].

Definition SECRET_PATTERNS : list regexp :=
  [ prefixed "sk-" (tok "_-") 16;
    seqOf [RWordBoundary; lit "AKIA"; RTimes 16 (RClass upperDigit); RWordBoundary];
    prefixed "github_pat_" (tok "_") 22;
    seqOf [RWordBoundary; lit "gh"; RClass (cls "pousr"); lit "_"; RAtLeast 16 (tok "_"); RWordBoundary];
    seqOf [RWordBoundary; lit "eyJ"; RPlus (tok "_-"); lit "."; RPlus (tok "_-"); lit "."; RPlus (tok "_-");
           RWordBoundary];
    seqOf [RWordBoundary; lit "xox"; RClass (cls "bpa"); lit "-"; RAtLeast 16 (tok "-"); RWordBoundary];
    prefixed "xapp-" (tok "-") 16;
    prefixed "AIza" (tok "_-") 20;
    seqOf [RWordBoundary; RBetween 8 10 RDigit; lit ":"; RTimes 35 (tok "_-"); RWordBoundary];
    prefixed "glpat-" (tok "_-") 16;
    prefixed "hf_" (tok "") 16;
    prefixed "npm_" (tok "") 16;
    prefixed "pypi-" (tok "_-") 16;
    prefixed "dckr_pat_" (tok "_-") 16;
    prefixed "ya29." (tok "_-") 1;
    assigned (RSeq (RStar (tok "_-")) credentialName) (notIn (orc isWs (cls "&")));
    assigned (lit "Authorization") (notIn isLineEnd);
    ignoreCase (seqOf [RWordBoundary; lit "Bearer"; RPlus RSpace;
      RPlus (notIn (λ c, isWs c || (code c =? 34)%N || (code c =? 39)%N || (code c =? 92)%N))]);
    assigned (RSeq (ROpt (lit "Set-")) (lit "Cookie")) (notIn isLineEnd) ].

(** ** PEM blocks *)

Definition PEM_BEGIN : str := chars "-----BEGIN ".
Definition PEM_END : str := chars "-----END ".
Definition PEM_DASHES : str := chars "-----".

(** [s.indexOf(t, from)], [None] for -1. *)
Fixpoint findText (t s : str) : option nat :=
  if isSome (stripPrefix t s) then Some O
  else match s with [] => None | _ :: s => S <$> findText t s end.

Definition indexOf (t s : str) (from : nat) : option nat := (λ k, from + k) <$> findText t (drop from s).

(** [s.startsWith(t, at)]. *)
Definition startsAt (t s : str) (at_ : nat) : bool := isSome (stripPrefix t (drop at_ s)).

Definition isLabel (c : ascii) : bool := range "A" "Z" c || bool_decide (c = " "%char).

Definition skipPemLabel (s : str) (from : nat) : nat :=
  from + (length (drop from s) - length (dropWhile isLabel (drop from s))).

(** The inner loop: the end of the first well-formed terminator. *)
Fixpoint findEnd (s : str) (n search : nat) : option nat :=
  match n with
  | O => None
  | S n =>
      match indexOf PEM_END s search with
      | None => None
      | Some e =>
          let eLabelStart := e + length PEM_END in
          let eLabelEnd := skipPemLabel s eLabelStart in
          if Nat.ltb eLabelStart eLabelEnd && startsAt PEM_DASHES s eLabelEnd
          then Some (eLabelEnd + length PEM_DASHES)
          else findEnd s n (e + 1)
      end
  end.

Definition slice (s : str) (a b : nat) : str := drop a (take b s).

(** The outer loop: the text so far, the end of the last block, where to look. *)
Fixpoint redactLoop (s : str) (n : nat) (out : str) (last from : nat) : str * nat :=
  match n with
  | O => (out, last)
  | S n =>
      match indexOf PEM_BEGIN s from with
      | None => (out, last)
      | Some begin_ =>
          let labelStart := begin_ + length PEM_BEGIN in
          let labelEnd := skipPemLabel s labelStart in
          if (labelEnd =? labelStart) || negb (startsAt PEM_DASHES s labelEnd)
          then redactLoop s n out last (begin_ + 1)
          else
            let bodyStart := labelEnd + length PEM_DASHES in
            match findEnd s (length s) (bodyStart + 1) with
            | None => (out, last)
            | Some end_ => redactLoop s n (out ++ slice s last begin_ ++ REDACTED) end_ end_
            end
      end
  end.

Definition redactPemBlocks (s : str) : str :=
  let '(out, last) := redactLoop s (S (length s)) [] 0 0 in
  if last =? 0 then s else out ++ drop last s.

Definition redactSecrets (s : string) : string :=
  unchars (redactPemBlocks (fold_left (λ out re, replaceAll re (λ _, REDACTED) out) SECRET_PATTERNS (chars s))).

Definition isSecretFieldName (name : string) : bool := test (ignoreCase credentialName) (chars name).

(** ** The expression the scans replaced *)

(** [/-----BEGIN [A-Z ]+-----[\s\S]+?-----END [A-Z ]+-----/g]. *)
Definition PEM_RE : regexp :=
  RSeq (litChars PEM_BEGIN) (RSeq (RPlus (RClass isLabel)) (RSeq (litChars PEM_DASHES)
    (RSeq (RSeq (RClass (λ _, true)) (RLazy (RClass (λ _, true))))
      (RSeq (litChars PEM_END) (RSeq (RPlus (RClass isLabel)) (litChars PEM_DASHES)))))).

Example redact_examples :
  map redactSecrets ["use sk-abcdefghijklmnop1234 here"; "run with api_key=abc123 now"; "sk-short ok";
                     "auth eyJhbGciOi.eyJzdWIiOi.SflKxwRJSM"; "id 123456789:AAHdqTcvCH1vGWJxfSeofSAs0K5PALDsawX"]
  = ["use [REDACTED] here"; "run with [REDACTED] now"; "sk-short ok"; "auth [REDACTED]"; "id [REDACTED]"].
Proof. by vm_compute. Qed.
Example redact_pem :
  map redactSecrets ["k -----BEGIN A B-----x-----END ----END----- y-----END C-----!"; "-----BEGIN A-----x-----END "]
  = ["k [REDACTED]!"; "-----BEGIN A-----x-----END "].
Proof. by vm_compute. Qed.

(** ** What the expression matches *)

(** A label and its dashes, a terminator, a block: what is left after them. *)
Definition afterLabel (l : str) : option str :=
  match l with
  | c :: _ => if isLabel c then stripPrefix PEM_DASHES (dropWhile isLabel l) else None
  | [] => None
  end.

Definition endAt (l : str) : option str := stripPrefix PEM_END l ≫= afterLabel.

Fixpoint firstTail (f : str → option str) (l : str) : option str :=
  match f l with
  | Some r => Some r
  | None => match l with [] => None | _ :: l => firstTail f l end
  end.

Definition pemAt (l : str) : option str :=
  l1 ← stripPrefix PEM_BEGIN l; body ← afterLabel l1;
  match body with [] => None | _ :: b => firstTail endAt b end.

Lemma bind_option {A B} (f : A → list B) (o : option A) :
  option_list o ≫= f = match o with Some x => f x | None => [] end.
Proof. destruct o; simpl; [by rewrite app_nil_r|done]. Qed.

Lemma bind_bind {A B C} (f : A → list B) (g : B → list C) (l : list A) :
  (l ≫= f) ≫= g = l ≫= λ x, f x ≫= g.
Proof. induction l as [|x l IH]; [done|]. by rewrite !bind_cons, bind_app, IH. Qed.

Lemma strip_label l c k : l = c :: k → isLabel c = true → stripPrefix PEM_DASHES l = None.
Proof. intros -> H. simpl. case_decide; [subst; by vm_compute in H|done]. Qed.

Lemma suffixes_label l :
  suffixes (RSeq (RPlus (RClass isLabel)) (litChars PEM_DASHES)) l = option_list (afterLabel l).
Proof.
  destruct l as [|c l]; [done|]. unfold RPlus. cbn [suffixes]. unfold afterLabel. cbn [dropWhile].
  destruct (isLabel c) eqn:E; [|done]. rewrite bind_cons, app_nil_r.
  change (repeatSuffixes true _ (length l) l) with (suffixes (RStar (RClass isLabel)) l).
  destruct (suffixes_run isLabel l) as (more & -> & Hm). rewrite bind_cons, suffixes_lit.
  assert (Hn : (more ≫= suffixes (litChars PEM_DASHES)) = []); [|by rewrite Hn, app_nil_r].
  induction more as [|x more IH]; [done|]. apply Forall_cons in Hm as [(c' & k & Hx & Hc) Hm].
  rewrite bind_cons, suffixes_lit, (strip_label x c' k Hx Hc). by apply IH.
Qed.

Lemma suffixes_end l :
  suffixes (RSeq (litChars PEM_END) (RSeq (RPlus (RClass isLabel)) (litChars PEM_DASHES))) l
  = option_list (endAt l).
Proof.
  change (suffixes (litChars PEM_END) l ≫= suffixes (RSeq (RPlus (RClass isLabel)) (litChars PEM_DASHES))
          = option_list (endAt l)).
  rewrite suffixes_lit, bind_option. unfold endAt. destruct (stripPrefix PEM_END l); [|done].
  apply suffixes_label.
Qed.

Lemma head_app {A} (l k : list A) : head (l ++ k) = match head l with Some x => Some x | None => head k end.
Proof. by destruct l. Qed.

Lemma head_tails (f : str → list str) (g : str → option str) l :
  (∀ k, f k = option_list (g k)) → head (tails l ≫= f) = firstTail g l.
Proof.
  intros H. induction l as [|c l IH]; cbn [tails firstTail]; rewrite bind_cons, head_app, H;
    destruct (g _); simpl; done.
Qed.

Lemma suffixes_pem l : head (suffixes PEM_RE l) = pemAt l.
Proof.
  unfold PEM_RE. set (tl := RSeq (litChars PEM_END) _). set (lb := RPlus (RClass isLabel)).
  set (body := RSeq (RClass (λ _, true)) _).
  change (head (suffixes (litChars PEM_BEGIN) l ≫= λ l, suffixes lb l ≫= λ l,
    suffixes (litChars PEM_DASHES) l ≫= suffixes (RSeq body tl)) = pemAt l).
  rewrite suffixes_lit, bind_option. unfold pemAt.
  destruct (stripPrefix PEM_BEGIN l) as [l1|]; [|done]. cbn [mbind option_bind].
  assert (Hb : ∀ m : str → list str, suffixes lb l1 ≫= (λ l, suffixes (litChars PEM_DASHES) l ≫= m)
                    = suffixes (RSeq lb (litChars PEM_DASHES)) l1 ≫= m).
  { intros m. cbn [suffixes]. by rewrite bind_bind. }
  rewrite Hb. unfold lb. rewrite suffixes_label, bind_option. destruct (afterLabel l1) as [b|]; [|done].
  change (head (suffixes body b ≫= suffixes tl) = match b with [] => None | _ :: b => firstTail endAt b end).
  destruct b as [|c b]; [done|].
  change (suffixes body (c :: b)) with ([b] ≫= suffixes (RLazy (RClass (λ _, true)))).
  rewrite bind_cons, app_nil_r, suffixes_lazy. apply head_tails. intros k. apply suffixes_end.
Qed.

Lemma matches_pem b l :
  match matches PEM_RE (mkPlace b l None) with
  | [] => pemAt l = None
  | s' :: _ => pemAt l = Some (after s')
  end.
Proof.
  pose proof (matches_suffixes PEM_RE eq_refl (mkPlace b l None)) as H. cbn [after] in H.
  pose proof (suffixes_pem l) as Hs. rewrite <- H in Hs.
  by destruct (matches PEM_RE (mkPlace b l None)).
Qed.

(** ** The text with its blocks replaced *)

Fixpoint pemRef (n : nat) (l : str) : str :=
  match n with
  | O => l
  | S n =>
      match pemAt l with
      | Some r => REDACTED ++ pemRef n r
      | None => match l with [] => [] | c :: l => c :: pemRef n l end
      end
  end.

Lemma stripPrefix_length t l r : stripPrefix t l = Some r → length l = length t + length r.
Proof. intros H%stripPrefix_Some. by rewrite H, length_app. Qed.

Lemma dropWhile_length p (l : str) : length (dropWhile p l) ≤ length l.
Proof. destruct (dropWhile_sublist p l) as [k Hk]. rewrite Hk at 2. rewrite length_app. lia. Qed.

Lemma afterLabel_length l r : afterLabel l = Some r → length r + 6 ≤ length l.
Proof.
  destruct l as [|c l]; [done|]. unfold afterLabel. cbn [dropWhile].
  destruct (isLabel c); [|done]. intros H%stripPrefix_length.
  pose proof (dropWhile_length isLabel l). simpl in *. lia.
Qed.

Lemma endAt_length l r : endAt l = Some r → length r + 15 ≤ length l.
Proof.
  unfold endAt. destruct (stripPrefix PEM_END l) as [l1|] eqn:E; [|done]. intros H%afterLabel_length.
  apply stripPrefix_length in E. simpl in E. lia.
Qed.

Lemma firstTail_length f n : (∀ k r, f k = Some r → length r + n ≤ length k) →
  ∀ l r, firstTail f l = Some r → length r + n ≤ length l.
Proof.
  intros Hf l. induction l as [|c l IH]; intros r; simpl; destruct (f _) as [x|] eqn:E; intros H; simplify_eq.
  - apply (Hf _ _ E).
  - apply (Hf _ _ E).
  - apply IH in H. lia.
Qed.

Lemma pemAt_length l r : pemAt l = Some r → length r < length l.
Proof.
  unfold pemAt. destruct (stripPrefix PEM_BEGIN l) as [l1|] eqn:E1; [|done]. cbn [mbind option_bind].
  destruct (afterLabel l1) as [[|c b]|] eqn:E2; [done| |done]. cbn [option_bind].
  intros H%(firstTail_length _ 15 endAt_length). apply stripPrefix_length in E1. apply afterLabel_length in E2.
  simpl in *. lia.
Qed.

Lemma pemRef_fuel n : ∀ m l, length l ≤ n → length l ≤ m → pemRef n l = pemRef m l.
Proof.
  induction n as [|n IH]; intros m l Hn Hm.
  - destruct l; [|simpl in Hn; lia]. by destruct m.
  - destruct m as [|m]; [by destruct l; [|simpl in Hm; lia]|]. cbn [pemRef].
    destruct (pemAt l) as [r|] eqn:E.
    + apply pemAt_length in E. f_equal. apply IH; lia.
    + destruct l as [|c l]; [done|]. simpl in *. f_equal. apply IH; lia.
Qed.

Definition pemText (l : str) : str := pemRef (length l) l.

Lemma pemText_block l r : pemAt l = Some r → pemText l = REDACTED ++ pemText r.
Proof.
  intros E. pose proof (pemAt_length _ _ E). unfold pemText. destruct l as [|c l]; [simpl in *; lia|].
  cbn [length pemRef]. rewrite E. f_equal. simpl in *. apply pemRef_fuel; lia.
Qed.

Lemma pemText_cons c l : pemAt (c :: l) = None → pemText (c :: l) = c :: pemText l.
Proof. intros E. unfold pemText. cbn [length pemRef]. by rewrite E. Qed.

Lemma pemText_skip l1 l2 :
  (∀ k1 k2, l1 = k1 ++ k2 → k2 ≠ [] → pemAt (k2 ++ l2) = None) → pemText (l1 ++ l2) = l1 ++ pemText l2.
Proof.
  induction l1 as [|c l1 IH]; intros H; [done|]. simpl. rewrite pemText_cons.
  - f_equal. apply IH. intros k1 k2 ->. apply (H (c :: k1)). done.
  - by apply (H [] (c :: l1)).
Qed.

(** ** Replacing by the expression *)

Lemma exec_pem l : ∀ b,
  match exec PEM_RE b l with
  | None => pemText l = l
  | Some f => ∃ l2, l = skipped f ++ l2 ∧ pemAt l2 = Some (after (rest f)) ∧ matched f ≠ [] ∧
                    pemText l = skipped f ++ pemText l2
  end.
Proof.
  induction l as [|c l IH]; intros b; cbn [exec].
  - pose proof (matches_pem b []) as H. destruct (matches PEM_RE _) as [|s' ms]; [done|].
    apply pemAt_length in H. simpl in H. lia.
  - pose proof (matches_pem b (c :: l)) as H. destruct (matches PEM_RE _) as [|s' ms].
    + specialize (IH (Some c)). destruct (exec PEM_RE (Some c) l) as [f|]; cbn [fmap option_fmap option_map].
      * destruct IH as (l2 & -> & Hp & Hm & Ht). exists l2. cbn [skipped matched rest].
        split_and!; [done..|]. rewrite pemText_cons by done. by rewrite Ht.
      * rewrite pemText_cons by done. by rewrite IH.
    + exists (c :: l). cbn [skipped matched rest]. split_and!; [done|done| |done].
      pose proof (pemAt_length _ _ H) as Hl. intros Hc. apply (f_equal length) in Hc. revert Hc.
      unfold consumed. cbn [after]. rewrite length_take. simpl in *. lia.
Qed.

Lemma replaceFrom_pem n : ∀ b l, length l < n → replaceFrom PEM_RE (λ _, REDACTED) n b l = pemText l.
Proof.
  induction n as [|n IH]; intros b l Hn; [lia|]. cbn [replaceFrom].
  pose proof (exec_pem l b) as H. destruct (exec PEM_RE b l) as [f|]; [|done].
  destruct H as (l2 & -> & Hp & Hm & ->). rewrite (pemText_block _ _ Hp).
  destruct (matched f); [done|]. rewrite IH; [done|].
  apply pemAt_length in Hp. rewrite length_app in Hn. lia.
Qed.

(** ** The scans *)

Lemma pemText_drop k l : k ≤ length l → (∀ j, j < k → pemAt (drop j l) = None) →
  pemText l = take k l ++ pemText (drop k l).
Proof.
  revert l. induction k as [|k IH]; intros l Hk H; [by rewrite drop_0, take_0|].
  destruct l as [|c l]; [simpl in Hk; lia|]. simpl. rewrite pemText_cons.
  - f_equal. apply IH; [simpl in Hk; lia|]. intros j Hj. apply (H (S j)). lia.
  - apply (H 0). lia.
Qed.

Lemma pemText_id l : (∀ j, pemAt (drop j l) = None) → pemText l = l.
Proof.
  intros H. rewrite (pemText_drop (length l)) by auto. rewrite drop_all, firstn_all. change (pemText []) with ([] : str).
  apply app_nil_r.
Qed.

Lemma findText_spec t l :
  match findText t l with
  | Some k => k ≤ length l ∧ stripPrefix t (drop k l) ≠ None ∧ ∀ j, j < k → stripPrefix t (drop j l) = None
  | None => ∀ j, stripPrefix t (drop j l) = None
  end.
Proof.
  induction l as [|c l IH]; simpl; destruct (stripPrefix t _) as [r|] eqn:E; simpl.
  - split_and!; [lia|by rewrite E|lia].
  - intros j. by rewrite drop_nil.
  - split_and!; [lia|by rewrite E|lia].
  - destruct (findText t l) as [k|]; simpl.
    + destruct IH as (H1 & H2 & H3). split_and!; [lia|done|]. intros [|j] Hj; [done|]. apply H3. lia.
    + intros [|j]; [done|]. apply IH.
Qed.

Lemma drop_suffix (k l : str) : k `suffix_of` l → k = drop (length l - length k) l.
Proof.
  intros [h ->]. rewrite length_app. replace (length h + length k - length k) with (length h) by lia.
  by rewrite drop_app_length.
Qed.

(** A label at [a] and the dashes after it. *)
Lemma label_at s a :
  a ≤ length s →
  let e := skipPemLabel s a in
  a ≤ e ∧ afterLabel (drop a s) =
    (if negb (e =? a) && startsAt PEM_DASHES s e then Some (drop (e + length PEM_DASHES) s) else None) ∧
  (startsAt PEM_DASHES s e = true → e + length PEM_DASHES ≤ length s) ∧
  drop e s = dropWhile isLabel (drop a s) ∧ e ≤ length s.
Proof.
  intros Ha e. unfold skipPemLabel in e. set (l := drop a s) in *.
  pose proof (dropWhile_sublist isLabel l) as Hs. pose proof (dropWhile_length isLabel l) as Hl.
  assert (Hlen : length l = length s - a) by (unfold l; by rewrite length_drop).
  assert (He : drop e s = dropWhile isLabel l).
  { rewrite (drop_suffix _ _ Hs) at 1. unfold l, e. by rewrite drop_drop. }
  assert (Hd : ∀ r, stripPrefix PEM_DASHES (drop e s) = Some r →
    r = drop (e + length PEM_DASHES) s ∧ e + length PEM_DASHES ≤ length s).
  { intros r Hr. pose proof (stripPrefix_length _ _ _ Hr) as Hx. apply stripPrefix_Some in Hr.
    rewrite length_drop in Hx. split; [|lia]. rewrite <- drop_drop, Hr. by rewrite drop_app_length. }
  split_and!; [lia| | |done|lia].
  - unfold startsAt, afterLabel. destruct l as [|c l'] eqn:El.
    + simpl in e. replace (e =? a) with true; [done|]. symmetry. apply Nat.eqb_eq. unfold e. lia.
    + destruct (isLabel c) eqn:Ec.
      * assert (Hne : (e =? a) = false).
        { apply Nat.eqb_neq. unfold e. cbn [dropWhile]. rewrite Ec.
          pose proof (dropWhile_length isLabel l'). simpl. lia. }
        rewrite Hne, <- He. cbn [negb andb].
        destruct (stripPrefix PEM_DASHES (drop e s)) as [r|] eqn:Er; [|done].
        by destruct (Hd r eq_refl) as [-> _].
      * replace (e =? a) with true; [done|]. symmetry. apply Nat.eqb_eq. unfold e. cbn [dropWhile]. rewrite Ec. lia.
  - unfold startsAt. destruct (stripPrefix PEM_DASHES (drop e s)) as [r|] eqn:Er; [|done]. intros _.
    by destruct (Hd r eq_refl).
Qed.

Lemma firstTail_skip k : ∀ l, k ≤ length l → (∀ j, j < k → endAt (drop j l) = None) →
  firstTail endAt l = firstTail endAt (drop k l).
Proof.
  induction k as [|k IH]; intros l Hk H; [by rewrite drop_0|].
  destruct l as [|c l]; [simpl in Hk; lia|]. cbn [firstTail drop].
  rewrite (H 0 ltac:(lia) : endAt (c :: l) = None).
  apply IH; [simpl in Hk; lia|]. intros j Hj. apply (H (S j)). lia.
Qed.

Lemma firstTail_none l : (∀ j, endAt (drop j l) = None) → firstTail endAt l = None.
Proof.
  induction l as [|c l IH]; intros H; cbn [firstTail].
  - by rewrite (H 0 : endAt [] = None).
  - rewrite (H 0 : endAt (c :: l) = None). apply IH. intros j. apply (H (S j)).
Qed.

Lemma firstTail_None_inv l j : firstTail endAt l = None → firstTail endAt (drop j l) = None.
Proof.
  revert l. induction j as [|j IH]; intros l H; [by rewrite drop_0|].
  destruct l as [|c l]; [by rewrite drop_nil|]. simpl. apply IH. cbn [firstTail] in H. by destruct (endAt (c :: l)).
Qed.

Lemma endAt_None l : stripPrefix PEM_END l = None → endAt l = None.
Proof. unfold endAt. by intros ->. Qed.

Lemma indexOf_spec t s from :
  from ≤ length s →
  match indexOf t s from with
  | Some i => from ≤ i ∧ i + length t ≤ length s ∧ stripPrefix t (drop i s) = Some (drop (i + length t) s) ∧
              ∀ j, j < i - from → stripPrefix t (drop j (drop from s)) = None
  | None => ∀ j, stripPrefix t (drop j (drop from s)) = None
  end.
Proof.
  intros Hf. pose proof (findText_spec t (drop from s)) as H. unfold indexOf.
  destruct (findText t (drop from s)) as [k|]; cbn [fmap option_fmap option_map]; [|done].
  destruct H as (Hk & Hs & Hj). rewrite drop_drop in Hs. rewrite length_drop in Hk.
  destruct (stripPrefix t (drop (from + k) s)) as [r|] eqn:E; [|done].
  pose proof (stripPrefix_length _ _ _ E) as Hl. rewrite length_drop in Hl.
  apply stripPrefix_Some in E. split_and!; [lia|lia| |].
  - rewrite <- drop_drop, E, drop_app_length. done.
  - intros j Hlt. apply Hj. lia.
Qed.

Lemma findEnd_spec s n : ∀ search,
  length s - search < n → search ≤ length s →
  match findEnd s n search with
  | Some e => firstTail endAt (drop search s) = Some (drop e s) ∧ search < e ≤ length s
  | None => firstTail endAt (drop search s) = None
  end.
Proof.
  induction n as [|n IH]; intros search Hn Hs; [lia|]. cbn [findEnd].
  pose proof (indexOf_spec PEM_END s search Hs) as H. destruct (indexOf PEM_END s search) as [e|].
  2: { apply firstTail_none. intros j. by apply endAt_None. }
  destruct H as (H1 & H2 & H3 & H4).
  assert (Hskip : firstTail endAt (drop search s) = firstTail endAt (drop e s)).
  { rewrite (firstTail_skip (e - search)); [|rewrite length_drop; lia|].
    - rewrite drop_drop. do 2 f_equal. lia.
    - intros j Hj. by apply endAt_None, H4. }
  destruct (label_at s (e + length PEM_END) H2) as (L1 & L2 & L3 & _).
  set (le := skipPemLabel s (e + length PEM_END)) in *.
  assert (Hat : endAt (drop e s) = afterLabel (drop (e + length PEM_END) s)) by (unfold endAt; by rewrite H3).
  replace (Nat.ltb (e + length PEM_END) le) with (negb (le =? e + length PEM_END)).
  2: { destruct (Nat.eqb_spec le (e + length PEM_END)), (Nat.ltb_spec (e + length PEM_END) le); simpl; (done || lia). }
  destruct (drop e s) as [|c l] eqn:El.
  { apply (f_equal length) in El. rewrite length_drop in El. simpl in *. lia. }
  rewrite Hskip. cbn [firstTail]. rewrite Hat, L2.
  destruct (negb (le =? e + length PEM_END) && startsAt PEM_DASHES s le) eqn:Ec.
  - apply andb_prop in Ec as [_ Hd]. specialize (L3 Hd). simpl in *. split; [done|lia].
  - assert (Hd1 : l = drop (e + 1) s) by (rewrite <- drop_drop, El; done).
    rewrite Hd1. simpl in H2. specialize (IH (e + 1)). destruct (findEnd s n (e + 1)).
    + destruct IH as [A B]; [lia..|]. split; [done|lia].
    + apply IH; lia.
Qed.

Lemma dropWhile_take p (l : str) k :
  k ≤ length l → dropWhile p l = drop k l → ∀ i, i < k → ∃ c, l !! i = Some c ∧ p c = true.
Proof.
  revert k. induction l as [|c l IH]; intros k Hk Hd i Hi; [simpl in Hk; lia|].
  destruct k as [|k]; [lia|]. cbn [dropWhile drop] in Hd. destruct (p c) eqn:E.
  - destruct i as [|i]; [by exists c|]. apply (IH k); [simpl in Hk; lia|done|lia].
  - exfalso. apply (f_equal length) in Hd. rewrite length_drop in Hd. simpl in Hd. lia.
Qed.

Lemma pemAt_None l : stripPrefix PEM_BEGIN l = None → pemAt l = None.
Proof. unfold pemAt. by intros ->. Qed.

(** A block begins with five dashes, and ends in the text past its header. *)
Lemma pemAt_shape l r :
  pemAt l = Some r → l !! 0 = Some "-"%char ∧ l !! 4 = Some "-"%char ∧
  ∃ j, 18 ≤ j ∧ firstTail endAt (drop j l) ≠ None.
Proof.
  unfold pemAt. destruct (stripPrefix PEM_BEGIN l) as [l1|] eqn:E1; [|done]. cbn [mbind option_bind].
  destruct (afterLabel l1) as [[|c b]|] eqn:E2; [done| |done]. cbn [option_bind]. intros H.
  apply stripPrefix_Some in E1 as ->. split_and!; [done|done|].
  assert (Hs : b `suffix_of` (PEM_BEGIN ++ l1)).
  { destruct l1 as [|x l1]; [done|]. unfold afterLabel in E2. destruct (isLabel x); [|done].
    apply stripPrefix_Some in E2. etrans; [|by apply suffix_app_r, (dropWhile_sublist isLabel)].
    rewrite E2. exists (PEM_DASHES ++ [c]). by rewrite <- app_assoc. }
  apply afterLabel_length in E2. exists (length (PEM_BEGIN ++ l1) - length b).
  rewrite <- (drop_suffix _ _ Hs), length_app. simpl in *. split; [lia|by rewrite H].
Qed.

(** Past a header with no terminator after it there is no block. *)
Lemma header_rest s b e :
  b + length PEM_BEGIN ≤ length s → stripPrefix PEM_BEGIN (drop b s) = Some (drop (b + length PEM_BEGIN) s) →
  e = skipPemLabel s (b + length PEM_BEGIN) → firstTail endAt (drop (e + length PEM_DASHES + 1) s) = None →
  pemAt (drop b s) = None → pemText (drop b s) = drop b s.
Proof.
  intros Hb Hp He Hn H0. apply pemText_id. intros [|k]; [done|].
  destruct (pemAt (drop (S k) (drop b s))) as [r|] eqn:E; [|done]. exfalso.
  destruct (pemAt_shape _ _ E) as (D0 & D4 & j & Hj & Ht).
  rewrite drop_drop in D0, D4. rewrite !drop_drop in Ht. rewrite lookup_drop in D0, D4.
  destruct (decide (e + length PEM_DASHES + 1 ≤ b + (S k + j))) as [Hd|Hd].
  - apply Ht. replace (b + (S k + j)) with (e + length PEM_DASHES + 1 + (b + (S k + j) - (e + length PEM_DASHES + 1))) by lia.
    rewrite <- (drop_drop _ _ (e + length PEM_DASHES + 1)). by apply firstTail_None_inv.
  - assert (Hlab : ∀ i, 5 ≤ i → b + i < e → ∃ c, s !! (b + i) = Some c ∧ isLabel c = true).
    { intros i Hi Hlt. apply stripPrefix_Some in Hp.
      destruct (decide (i < 11)) as [Hi'|Hi'].
      - rewrite <- lookup_drop, Hp. exists (default " "%char (PEM_BEGIN !! i)).
        do 11 (destruct i as [|i]; [lia || by split|]). lia.
      - destruct (label_at s (b + length PEM_BEGIN) Hb) as (L1 & _ & _ & L4 & _). rewrite <- He in L1, L4.
        assert (Hw : dropWhile isLabel (drop (b + length PEM_BEGIN) s) = drop (e - (b + length PEM_BEGIN)) (drop (b + length PEM_BEGIN) s)).
        { rewrite drop_drop. rewrite <- L4. f_equal. lia. }
        set (l := drop (b + length PEM_BEGIN) s) in *.
        assert (Hll : e - (b + length PEM_BEGIN) ≤ length l).
        { destruct (label_at s (b + length PEM_BEGIN) Hb) as (_ & _ & _ & _ & L5). rewrite <- He in L5.
          unfold l. rewrite length_drop. simpl in *. lia. }
        destruct (dropWhile_take isLabel l (e - (b + length PEM_BEGIN)) Hll Hw (i - 11)) as (c & Hc & Hc'); [simpl; lia|].
        exists c. split; [|done]. unfold l in Hc. rewrite lookup_drop in Hc. rewrite <- Hc. f_equal. simpl. lia. }
    simpl in Hd. destruct (decide (S k ≤ 4)) as [Hk|Hk].
    + destruct (Hlab (S k + 4)) as (c & Hc & Hl); [lia..|].
      replace (b + S k + 4) with (b + (S k + 4)) in D4 by lia. rewrite D4 in Hc. injection Hc as <-. by vm_compute in Hl.
    + destruct (Hlab (S k)) as (c & Hc & Hl); [lia..|].
      rewrite Nat.add_0_r in D0. rewrite D0 in Hc. injection Hc as <-. by vm_compute in Hl.
Qed.

Lemma drop_slice s a b : a ≤ b → drop a s = slice s a b ++ drop b s.
Proof.
  intros H. unfold slice. rewrite <- (take_drop b s) at 1.
  destruct (decide (b ≤ length s)).
  - by rewrite drop_app_le by (rewrite length_take; lia).
  - rewrite !(drop_ge s b), !app_nil_r by lia. done.
Qed.

Lemma slice_app s a b c : a ≤ b → b ≤ c → slice s a c = slice s a b ++ take (c - b) (drop b s).
Proof.
  intros H1 H2. unfold slice. rewrite !skipn_firstn_comm.
  replace (drop b s) with (drop (b - a) (drop a s)) by (rewrite drop_drop; f_equal; lia).
  rewrite take_take_drop. f_equal. lia.
Qed.

Lemma redactLoop_spec s n : ∀ out last from,
  length s - from < n → last ≤ from → from ≤ length s →
  let '(out', last') := redactLoop s n out last from in
  out' ++ drop last' s = out ++ slice s last from ++ pemText (drop from s) ∧
  (last' = 0 → out' = out ∧ last = 0).
Proof.
  induction n as [|n IH]; intros out last from Hn Hl Hf; [lia|]. cbn [redactLoop].
  assert (Hstop : pemText (drop from s) = drop from s →
    out ++ drop last s = out ++ slice s last from ++ pemText (drop from s) ∧ (last = 0 → out = out ∧ last = 0)).
  { intros ->. by rewrite <- drop_slice. }
  pose proof (indexOf_spec PEM_BEGIN s from Hf) as H. destruct (indexOf PEM_BEGIN s from) as [b|].
  2: { apply Hstop, pemText_id. intros j. by apply pemAt_None. }
  destruct H as (H1 & H2 & H3 & H4).
  assert (Hup : ∀ k, k ≤ b - from → pemText (drop from s) = take k (drop from s) ++ pemText (drop (from + k) s)).
  { intros k Hk. rewrite (pemText_drop k), drop_drop; [done|rewrite length_drop; lia|].
    intros j Hj. apply pemAt_None, H4. lia. }
  destruct (label_at s (b + length PEM_BEGIN) H2) as (L1 & L2 & L3 & L4 & L5).
  set (le := skipPemLabel s (b + length PEM_BEGIN)) in *.
  assert (Hat : pemAt (drop b s) = body ← afterLabel (drop (b + length PEM_BEGIN) s);
                                   match body with [] => None | _ :: b => firstTail endAt b end)
    by (unfold pemAt; by rewrite H3).
  replace ((le =? b + length PEM_BEGIN) || negb (startsAt PEM_DASHES s le))
    with (negb (negb (le =? b + length PEM_BEGIN) && startsAt PEM_DASHES s le))
    by (by rewrite negb_andb, negb_involutive).
  destruct (negb (le =? b + length PEM_BEGIN) && startsAt PEM_DASHES s le) eqn:Ec; cbn [negb];
    rewrite L2 in Hat; cbn [mbind option_bind] in Hat.
  - apply andb_prop in Ec as [Ene Hd]. specialize (L3 Hd).
    assert (Hbody : pemAt (drop b s) = firstTail endAt (drop (le + length PEM_DASHES + 1) s)).
    { rewrite Hat. rewrite <- (drop_drop _ _ (le + length PEM_DASHES)).
      by destruct (drop (le + length PEM_DASHES) s). }
    assert (Hend : match findEnd s (length s) (le + length PEM_DASHES + 1) with
                   | Some e => firstTail endAt (drop (le + length PEM_DASHES + 1) s) = Some (drop e s)
                               ∧ le + length PEM_DASHES + 1 < e ≤ length s
                   | None => firstTail endAt (drop (le + length PEM_DASHES + 1) s) = None
                   end).
    { destruct (decide (le + length PEM_DASHES + 1 ≤ length s)) as [Hle|Hle]; [apply findEnd_spec; simpl in *; lia|].
      rewrite (drop_ge s) by lia. assert (Hno : findEnd s (length s) (le + length PEM_DASHES + 1) = None); [|by rewrite Hno].
      destruct (length s) as [|m] eqn:Em; [done|]. cbn [findEnd]. unfold indexOf. rewrite drop_ge by lia. done. }
    destruct (findEnd s (length s) (le + length PEM_DASHES + 1)) as [e|].
    + destruct Hend as [He [He1 He2]]. rewrite He in Hbody.
      specialize (IH (out ++ slice s last b ++ REDACTED) e e). simpl in *.
      destruct (redactLoop s n (out ++ slice s last b ++ REDACTED) e e) as [o la].
      destruct IH as [IH1 IH2]; [lia..|]. split; [|intros ->; destruct (IH2 eq_refl); lia].
      rewrite IH1, (Hup (b - from)) by lia. replace (from + (b - from)) with b by lia.
      rewrite (pemText_block _ _ Hbody), (slice_app s last from b) by lia.
      assert (Hs : slice s e e = []).
      { unfold slice. apply drop_ge. rewrite length_take. lia. }
      rewrite Hs. by rewrite <- !app_assoc.
    + apply Hstop. rewrite (Hup (b - from)) by lia. replace (from + (b - from)) with b by lia.
      rewrite (header_rest s b le) by (done || lia || congruence).
      replace b with (from + (b - from)) at 2 by lia. by rewrite <- drop_drop, take_drop.
  - specialize (IH out last (b + 1)). simpl in H2. destruct (redactLoop s n out last (b + 1)) as [o la].
    destruct IH as [IH1 IH2]; [lia..|]. split; [|done]. rewrite IH1, (Hup (b - from)) by lia.
    replace (from + (b - from)) with b by lia.
    rewrite (pemText_drop 1 (drop b s)), drop_drop; [|rewrite length_drop; lia|].
    2: { intros j Hj. replace j with 0 by lia. by rewrite drop_0, Hat. }
    rewrite (slice_app s last from (b + 1)) by lia. rewrite <- !app_assoc. do 2 f_equal.
    replace (b + 1 - from) with ((b - from) + 1) by lia.
    rewrite <- (take_take_drop (drop from s)), drop_drop. replace (from + (b - from)) with b by lia.
    by rewrite <- app_assoc.
Qed.

(** ** Properties *)

(** C36: the index scans redact exactly what the expression does that they replaced, as the
    comment of the scan gives it: for every text, the linear loop and the replacement of [/-----BEGIN [A-Z ]+-----[\s\S]+?-----END
    [A-Z ]+-----/g] agree; stopping the search at the first header without a terminator loses
    no block. *)
Theorem pem_scan_exact s : redactPemBlocks s = replaceAll PEM_RE (λ _, REDACTED) s.
Proof.
  unfold replaceAll. rewrite replaceFrom_pem by lia. unfold redactPemBlocks.
  pose proof (redactLoop_spec s (S (length s)) [] 0 0) as H.
  destruct (redactLoop s (S (length s)) [] 0 0) as [o la]. destruct H as [H1 H2]; [lia..|].
  change (slice s 0 0) with (drop 0 (take 0 s)) in H1. rewrite take_0, !drop_0 in H1. simpl in H1.
  rewrite <- H1. destruct (Nat.eqb_spec la 0) as [E|E]; [|done].
  destruct (H2 E) as [-> _]. by rewrite E, drop_0.
Qed.
End Redact.
