(* ===== verification/AgentEvents.v ===== *)
(** * Normalized agent events and the turn state derived from them

    [AgentEvent] is the tagged union of [src/core/agent-events.ts];
    [deriveTurnStateDetails] is [src/core/turn-state.ts].  [jnum] is a
    JavaScript number of which the code only asks whether it is a safe
    integer. *)

From S2P Require Import Prelude JsString JsJson.
Local Open Scope Z_scope.

(** An unparsed JSON value an event carries: its serialised text. *)
Abbreviation json := string.

Inductive jnum : Type :=
| JInt (z : Z)
| JNonInteger.

(** [Number.isSafeInteger], giving the integer. *)
Definition safeInteger (n : jnum) : option Z :=
  match n with
  | JInt z => if Z.abs z <=? 2 ^ 53 - 1 then Some z else None
  | JNonInteger => None
  end.

Record StopEvent := mkStop {
  stop_lastMessage : string;
  stop_transcriptPath : option string;
  stop_hookLineId : option string;
  stop_activeBackgroundTaskCount : option Z;
  stop_activeSessionCronCount : option Z;
  stop_stopReason : option string
}.

Inductive EventBody : Type :=
| session_start (transcriptPath model : option string) (codexHookCapabilities : option json)
| tool_use (toolName : string) (toolInput : option jvalue) (toolUseId : option string)
| tool_result (toolName : string) (toolResponse : option jvalue) (toolUseId : option string)
| tool_error (toolName : string) (toolInput : option jvalue) (toolUseId : option string)
    (error : string) (isInterrupt : bool)
| subagent_start (agentId agentType : string)
| subagent_stop (agentId agentType lastMessage : string)
    (agentTranscriptPath : option string)
| stop (s : StopEvent)
| permission_request (toolName : string) (toolInput : option jvalue)
    (suggestions : option (list json))
| notification (notificationType message : string) (observedAtMs : option jnum)
| user_prompt (prompt : string) (hookLineId : option string)
| stop_failure (error lastMessage : string) (transcriptPath hookLineId : option string)
| session_end (reason : string)
| error_event (message : string)
| input_received.

Record AgentEvent := mkEvent {
  ev_body : EventBody;
  ev_sessionId : string;
  ev_cwd : option string;
  ev_turnId : option string;
  ev_eventSeq : option Z
}.

(** The discriminant, as the code prints it. *)
Definition ev_type (e : AgentEvent) : string :=
  match ev_body e with
  | session_start _ _ _ => "session_start"
  | tool_use _ _ _ => "tool_use"
  | tool_result _ _ _ => "tool_result"
  | tool_error _ _ _ _ _ => "tool_error"
  | subagent_start _ _ => "subagent_start"
  | subagent_stop _ _ _ _ => "subagent_stop"
  | stop _ => "stop"
  | permission_request _ _ _ => "permission_request"
  | notification _ _ _ => "notification"
  | user_prompt _ _ => "user_prompt"
  | stop_failure _ _ _ _ => "stop_failure"
  | session_end _ => "session_end"
  | error_event _ => "error"
  | input_received => "input_received"
  end.

(** ** Turn state *)

Inductive TurnState := running | waiting_for_input | completed_turn | blocked | unknown.
#[export] Instance TurnState_eq_dec : EqDecision TurnState.
Proof. solve_decision. Defined.

Definition isTrailingStateOverlay (e : AgentEvent) : bool :=
  match ev_body e with
  | notification _ _ _ | subagent_stop _ _ _ _ => true
  | _ => false
  end.

Record DerivedTurnState := mkDerived {
  turnState : TurnState;
  effectiveEvent : option AgentEvent;
  effectiveEventIndex : Z
}.

(** The [while] loop that walks back over trailing overlays: [n] is one more
    than the index under inspection. *)
Fixpoint effectiveIndex (events : list AgentEvent) (n : nat) : option (nat * AgentEvent) :=
  match n with
  | O => None
  | S i =>
      match events !! i with
      | Some e => if isTrailingStateOverlay e then effectiveIndex events i else Some (i, e)
      | None => None
      end
  end.

(** The [switch] on the effective event. *)
Definition turnStateOf (e : AgentEvent) : TurnState :=
  match ev_body e with
  | stop s =>
      if (0 <? orElse (stop_activeBackgroundTaskCount s) 0)
         || (0 <? orElse (stop_activeSessionCronCount s) 0)
      then running else completed_turn
  | stop_failure _ _ _ _ => blocked
  | permission_request tool _ _ =>
      if String.eqb tool "AskUserQuestion" then waiting_for_input else blocked
  | session_end _ => unknown
  | tool_use tool _ _ =>
      if String.eqb tool "AskUserQuestion" then waiting_for_input else running
  | _ => running
  end.

Definition deriveTurnStateDetails (events : list AgentEvent) : DerivedTurnState :=
  match effectiveIndex events (length events) with
  | None => mkDerived unknown None (-1)
  | Some (i, e) => mkDerived (turnStateOf e) (Some e) (Z.of_nat i)
  end.

Definition deriveTurnState (events : list AgentEvent) : TurnState :=
  turnState (deriveTurnStateDetails events).

(** ** Lemmas *)

(** The effective event is the last one that is not an overlay. *)
Lemma effectiveIndex_spec events n i e :
  (n ≤ length events)%nat →
  effectiveIndex events n = Some (i, e) ↔
    (i < n)%nat ∧ events !! i = Some e ∧ isTrailingStateOverlay e = false ∧
    ∀ j e', (i < j < n)%nat → events !! j = Some e' → isTrailingStateOverlay e' = true.
Proof.
  induction n as [|n IH]; intros Hn; simpl; [naive_solver lia|].
  destruct (lookup_lt_is_Some_2 events n) as [x Hx]; [lia|]. rewrite Hx.
  destruct (isTrailingStateOverlay x) eqn:Eo.
  - rewrite IH by lia. split.
    + intros (Hi & He & Hf & Hall). split_and!; [lia|done|done|].
      intros j e' Hj Hl. destruct (decide (j = n)) as [->|]; [congruence|].
      apply (Hall j); [lia|done].
    + intros (Hi & He & Hf & Hall). assert (i ≠ n) by (intros ->; congruence).
      split_and!; [lia|done|done|]. intros j e' Hj. apply Hall. lia.
  - split.
    + intros [= <- <-]. split_and!; [lia|done|done|]. intros; lia.
    + intros (Hi & He & Hf & Hall). destruct (decide (i = n)) as [->|Hne]; [congruence|].
      exfalso. assert (isTrailingStateOverlay x = true) by (apply (Hall n); [lia|done]).
      congruence.
Qed.

Lemma effectiveIndex_app events more n :
  (n ≤ length events)%nat → effectiveIndex (events ++ more) n = effectiveIndex events n.
Proof.
  induction n as [|n IH]; intros Hn; simpl; [done|].
  rewrite lookup_app_l by lia. destruct (events !! n); [|done].
  rewrite IH by lia. done.
Qed.

Lemma effectiveIndex_snoc_overlay events e :
  isTrailingStateOverlay e = true →
  effectiveIndex (events ++ [e]) (length (events ++ [e])) =
  effectiveIndex events (length events).
Proof.
  intros He. rewrite length_app, Nat.add_1_r. simpl.
  rewrite lookup_app_r, Nat.sub_diag by lia. simpl. rewrite He.
  by apply effectiveIndex_app.
Qed.

Lemma effectiveIndex_snoc events e :
  isTrailingStateOverlay e = false →
  effectiveIndex (events ++ [e]) (length (events ++ [e])) = Some (length events, e).
Proof.
  intros He. rewrite length_app, Nat.add_1_r. simpl.
  rewrite lookup_app_r, Nat.sub_diag by lia. simpl. by rewrite He.
Qed.

Lemma deriveTurnStateDetails_event events d :
  deriveTurnStateDetails events = d → turnState d ≠ unknown →
  ∃ e, effectiveEvent d = Some e ∧ turnState d = turnStateOf e ∧
       events !! Z.to_nat (effectiveEventIndex d) = Some e.
Proof.
  unfold deriveTurnStateDetails. intros <-.
  destruct (effectiveIndex events (length events)) as [[i e]|] eqn:E; simpl; [|done].
  intros _. apply (effectiveIndex_spec _ _ _ _ (le_n _)) in E as (_ & He & _).
  exists e. by rewrite Nat2Z.id.
Qed.
