(* ===== verification/Anomalies.v ===== *)
(** * Anomalies and their fingerprints

    The finding record of [src/core/anomaly-types.ts], the queue's
    deduplication key of [src/core/anomaly-fingerprint.ts], and the durable
    finding identity of [src/core/finding-fingerprint.ts]. *)

From S2P Require Import Prelude JsString.
Local Open Scope Z_scope.

Inductive AnomalyType :=
| needs_input | permission_blocked | repeated_error | merge_conflict | stale_agent
| hook_disconnected | hook_missing | hook_parse_degraded | backend_unreachable
| api_error | budget_exceeded.

Inductive AnomalySeverity := info | warning | critical.
Inductive AnomalySubType := sub_stop | sub_ask_user_question.
Inductive AnomalyConfidence := conf_high | conf_medium | conf_low.

Inductive ReconciliationClassification :=
| connector_failure_but_publishable | pr_green_mergeable | real_blocker.

Inductive PublishMergeReconciliationReasonCode :=
| pr_green_mergeable_auto_merge_authorized
| connector_failed_local_credentials_ok
| connector_failed_local_credentials_unavailable
| no_reconciling_evidence.

Record PublishMergeReconciliationEvidence := mkEvidence {
  connectorFailureDetected : bool;
  connectorFailureText : option string;
  localCredentialsCanPublish : bool;
  prGreenAndMergeable : bool;
  mergeAfterImplementation : bool
}.

Record AnomalyReconciliation := mkReconciliation {
  classification : ReconciliationClassification;
  reasonCode : PublishMergeReconciliationReasonCode;
  evidence : PublishMergeReconciliationEvidence
}.

Record FindingTranscriptExcerpt := mkExcerpt {
  excerpt : string;
  truncated : bool;
  readAtOffset : Z
}.

#[export] Instance AnomalyType_eq_dec : EqDecision AnomalyType.
Proof. solve_decision. Defined.
#[export] Instance AnomalySeverity_eq_dec : EqDecision AnomalySeverity.
Proof. solve_decision. Defined.
#[export] Instance AnomalySubType_eq_dec : EqDecision AnomalySubType.
Proof. solve_decision. Defined.

(** A JavaScript [Date]: its time value, [None] for an invalid date. *)
Abbreviation jdate := (option Z).

Record Anomaly := mkAnomaly {
  agentId : string;
  type : AnomalyType;
  severity : AnomalySeverity;
  explanation : string;
  detectedAt : jdate;
  count : option Z;
  subType : option AnomalySubType;
  confidence : option AnomalyConfidence;
  eventId : option string;
  relatedFindingIds : option (list string);
  rootCauseFindingId : option string;
  likelyRootCause : option bool;
  causalityReason : option string;
  transcriptContext : option FindingTranscriptExcerpt;
  reconciliation : option AnomalyReconciliation
}.

(** A finding with only the required fields. *)
Definition basicAnomaly (agent : string) (t : AnomalyType) (sev : AnomalySeverity)
    (text : string) (at_ : jdate) : Anomaly :=
  {| agentId := agent; type := t; severity := sev; explanation := text;
     detectedAt := at_; count := None; subType := None; confidence := None;
     eventId := None; relatedFindingIds := None; rootCauseFindingId := None;
     likelyRootCause := None; causalityReason := None; transcriptContext := None;
     reconciliation := None |}.

(** [SEVERITY_ORDER]. *)
Definition SEVERITY_ORDER (s : AnomalySeverity) : Z :=
  match s with critical => 0 | warning => 1 | info => 2 end.

Definition typeName (t : AnomalyType) : string :=
  match t with
  | needs_input => "needs_input"
  | permission_blocked => "permission_blocked"
  | repeated_error => "repeated_error"
  | merge_conflict => "merge_conflict"
  | stale_agent => "stale_agent"
  | hook_disconnected => "hook_disconnected"
  | hook_missing => "hook_missing"
  | hook_parse_degraded => "hook_parse_degraded"
  | backend_unreachable => "backend_unreachable"
  | api_error => "api_error"
  | budget_exceeded => "budget_exceeded"
  end.

Definition subTypeName (s : option AnomalySubType) : string :=
  match s with
  | None => ""
  | Some sub_stop => "stop"
  | Some sub_ask_user_question => "ask_user_question"
  end.

(** ** Fingerprints *)

(** [.replace(/^Same error repeated \d+ times:/, 'Same error repeated:')]: the
    prefix must be followed by at least one digit and then [" times:"]. *)
Definition stripRepeatCount (s : string) : string :=
  let l := chars s in
  let p := chars "Same error repeated " in
  let q := chars " times:" in
  if bool_decide (take (length p) l = p) then
    let rest := drop (length p) l in
    let after := skipDigits rest in
    if bool_decide (length after < length rest)%nat
       && bool_decide (take (length q) after = q)
    then unchars (chars "Same error repeated:" ++ drop (length q) after)
    else s
  else s.

Definition stableAnomalyExplanation (a : Anomaly) : string :=
  match type a with
  | stale_agent | hook_disconnected => ""
  | repeated_error => stripRepeatCount (explanation a)
  | _ => explanation a
  end.

Definition anomalyFingerprint (a : Anomaly) : string :=
  typeName (type a) +:+ ":" +:+ subTypeName (subType a) +:+ ":" +:+ stableAnomalyExplanation a.

(** [hasSameFingerprint] of the attention queue. *)
Definition hasSameFingerprint (previous : option Anomaly) (next : Anomaly) : bool :=
  match previous with
  | Some p => String.eqb (anomalyFingerprint p) (anomalyFingerprint next)
  | None => false
  end.

Record FindingFingerprintInput := mkFindingInput {
  fi_taskId : option string;
  fi_stateVersion : option string
}.

Definition noFindingInput : FindingFingerprintInput := mkFindingInput None None.

Definition UNIT : string := "␟".

(** The Latin-1 members of the quote class: the double quote, the apostrophe and
    the backquote. *)
Definition isQuote (c : ascii) : bool :=
  let n := code c in ((n =? 34) || (n =? 39) || (n =? 96))%N.

(** The class [[.!?,;:]]. *)
Definition isTrailingPunct (c : ascii) : bool :=
  let n := code c in
  ((n =? 46) || (n =? 33) || (n =? 63) || (n =? 44) || (n =? 59) || (n =? 58))%N.

Definition normalizeFindingChars (l : str) : str :=
  trimChars (dropWhileEnd isTrailingPunct
    (trimChars (collapseWs (removeChars isQuote (map lowerChar l))))).

Definition normalizeFindingContext (text : string) : string :=
  unchars (normalizeFindingChars (chars text)).

Definition findingIdentity (a : Anomaly) (input : FindingFingerprintInput) : string :=
  orElse (truthyStr (trim <$> fi_taskId input)) (agentId a).

Definition findingLineageKey (a : Anomaly) (input : FindingFingerprintInput) : string :=
  findingIdentity a input +:+ UNIT +:+ typeName (type a).

Definition findingFingerprint (a : Anomaly) (input : FindingFingerprintInput) : string :=
  joinWith UNIT
    [findingLineageKey a input; subTypeName (subType a);
     normalizeFindingContext (stableAnomalyExplanation a);
     orElse (fi_stateVersion input) ""].

Definition findingsAreEquivalent (a b : string) : bool := String.eqb a b.
Definition isMaterialChange (previous next : string) : bool := negb (String.eqb previous next).

(** ** Lemmas *)

Lemma SEVERITY_ORDER_inj s t : SEVERITY_ORDER s = SEVERITY_ORDER t → s = t.
Proof. by destruct s, t. Qed.

Lemma typeName_no_sep t c :
  c = ":"%char ∨ c = ascii_of_N 226 → c ∉ chars (typeName t).
Proof.
  intros Hc Hin. destruct t; vm_compute in Hin; destruct Hc as [-> | ->];
    vm_compute in Hin; repeat (apply elem_of_cons in Hin as [Hin|Hin]; [discriminate Hin|]);
    by apply elem_of_nil in Hin.
Qed.

Lemma subTypeName_no_colon s : ":"%char ∉ chars (subTypeName s).
Proof.
  intros Hin. destruct s as [[]|]; vm_compute in Hin;
    repeat (apply elem_of_cons in Hin as [Hin|Hin]; [discriminate Hin|]);
    by apply elem_of_nil in Hin.
Qed.

Lemma typeName_inj t u : typeName t = typeName u → t = u.
Proof. by destruct t, u. Qed.

Lemma subTypeName_inj s u : subTypeName s = subTypeName u → s = u.
Proof. by destruct s as [[]|], u as [[]|]. Qed.

(** The fingerprint determines the type, the sub-type and the stable text. *)
Lemma anomalyFingerprint_inv a b :
  anomalyFingerprint a = anomalyFingerprint b ↔
  type a = type b ∧ subType a = subType b ∧
  stableAnomalyExplanation a = stableAnomalyExplanation b.
Proof.
  unfold anomalyFingerprint. split.
  - intros H. apply (f_equal chars) in H. rewrite !chars_app in H. simpl in H.
    apply app_sep_inj in H as [H1 H]; [|apply typeName_no_sep; by left..].
    apply app_sep_inj in H as [H2 H3]; [|apply subTypeName_no_colon..].
    split_and!; [apply typeName_inj|apply subTypeName_inj|]; by apply chars_inj.
  - intros (-> & -> & ->). done.
Qed.

Lemma hasSameFingerprint_refl a : hasSameFingerprint (Some a) a = true.
Proof. apply String.eqb_refl. Qed.

(** Case and quoting do not change the normalised context. *)
Lemma normalizeFindingChars_lower l :
  normalizeFindingChars (map lowerChar l) = normalizeFindingChars l.
Proof.
  unfold normalizeFindingChars. rewrite map_map.
  by rewrite (map_ext _ lowerChar) by apply lowerChar_idem.
Qed.

Lemma lowerChar_quote q : isQuote q = true → lowerChar q = q.
Proof. by destruct q as [[] [] [] [] [] [] [] []]. Qed.

Lemma normalizeFindingChars_quote l1 q l2 :
  isQuote q = true →
  normalizeFindingChars (l1 ++ q :: l2) = normalizeFindingChars (l1 ++ l2).
Proof.
  intros Hq. unfold normalizeFindingChars. do 4 f_equal.
  rewrite !map_app. simpl. rewrite (lowerChar_quote q) by done.
  rewrite !removeChars_app. simpl. unfold removeChars at 2. simpl. by rewrite Hq.
Qed.

Lemma ws_not_quote w : isWs w = true → isQuote w = false ∧ lowerChar w = w.
Proof. destruct w as [[] [] [] [] [] [] [] []]; vm_compute; (done || by split). Qed.

Lemma normalizeFindingChars_ws l1 w1 w2 l2 :
  isWs w1 = true → isWs w2 = true →
  normalizeFindingChars (l1 ++ w1 :: w2 :: l2) = normalizeFindingChars (l1 ++ w2 :: l2).
Proof.
  intros H1 H2. unfold normalizeFindingChars. do 3 f_equal.
  destruct (ws_not_quote w1 H1) as [Hq1 Hl1], (ws_not_quote w2 H2) as [Hq2 Hl2].
  rewrite !map_app, !removeChars_app. simpl. rewrite Hl1, Hl2.
  unfold removeChars at 2 4. simpl. rewrite Hq1, Hq2. simpl.
  by apply collapseWs_run.
Qed.

(** The lineage key determines the identity and the anomaly type. *)
Lemma findingLineageKey_inv a b i j :
  ascii_of_N 226 ∉ chars (findingIdentity a i) →
  ascii_of_N 226 ∉ chars (findingIdentity b j) →
  findingLineageKey a i = findingLineageKey b j ↔
  findingIdentity a i = findingIdentity b j ∧ type a = type b.
Proof.
  intros Ha Hb. unfold findingLineageKey. split.
  - intros H. apply (f_equal chars) in H. rewrite !chars_app in H. simpl in H.
    apply app_sep_inj in H as [H1 H2]; [|done..]. simplify_eq.
    split; [by apply chars_inj|]. apply typeName_inj. by apply chars_inj.
  - by intros [-> ->].
Qed.
