(* ===== verification/AnomalyDetector.v ===== *)
(** * The anomaly detector

    [src/core/anomaly-detector.ts]: the finding, if any, that a window of agent events
    shows.  [now] is the clock; Unicode normalisation is a parameter.  A log line that a
    suppressed finding writes is left out. *)

From S2P Require Import Prelude JsMap JsArray JsString JsRegExp JsJson AgentEvents Anomalies.

Module Detector.
#[local] Open Scope Z_scope.

Record AnomalyDetectorConfig := mkConfig {
  repeatedErrorThreshold : Z;
  windowSize : Z
}.

Definition DEFAULT_CONFIG : AnomalyDetectorConfig := mkConfig 3 50.

(** [l.slice(-n)]. *)
Definition sliceLast {A} (n : Z) (l : list A) : list A :=
  if n =? 0 then l
  else if 0 <? n then drop (length l - Z.to_nat n) l
  else drop (Z.to_nat (- n)) l.

(** The loop that drops the trailing overlays. *)
Fixpoint dropOverlays (l : list AgentEvent) : list AgentEvent :=
  match l with
  | e :: l' => if isTrailingStateOverlay e then dropOverlays l' else l
  | [] => []
  end.
Definition trimOverlays (l : list AgentEvent) : list AgentEvent := rev (dropOverlays (rev l)).

(** Text between quotation marks. *)
Definition quoted (s : string) : string := unchars (quoteChar :: chars s ++ [quoteChar]).

(** ** Findings of the last event *)

Definition CRITICAL_API_ERRORS : list string := ["billing_error"; "authentication_failed"].

Definition detectApiError (now : Z) (error lastMessage agent : string) : Anomaly :=
  basicAnomaly agent api_error
    (if existsb (String.eqb error) CRITICAL_API_ERRORS then critical else warning)
    ("API error: " +:+ error +:+ ". Last message: " +:+ quoted (sliceTo 100 lastMessage)) (Some now).

(** The scan back to an unanswered question. *)
Fixpoint unansweredIn (backwards : list AgentEvent) : option (option jvalue) :=
  match backwards with
  | [] => None
  | e :: l =>
      match ev_body e with
      | tool_result _ _ _ | input_received => None
      | tool_use name input _ => if String.eqb name "AskUserQuestion" then Some input else unansweredIn l
      | _ => unansweredIn l
      end
  end.

Definition withSubType (s : AnomalySubType) (a : Anomaly) : Anomaly := {| a with subType := Some s |}.

Definition detectAskUserQuestion (now : Z) (events : list AgentEvent) (agent : string) : option Anomaly :=
  match unansweredIn (rev events) with
  | Some _ =>
      Some (withSubType sub_ask_user_question
              (basicAnomaly agent needs_input warning
                 "Agent is asking a question via AskUserQuestion tool" (Some now)))
  | None => None
  end.

(** The text of a tool value: a string, or the text of an object. *)
Definition extractToolResponseText (v : option jvalue) : string :=
  match v with
  | Some (JString s) => s
  | Some (JArray _ as o) | Some (JObject _ as o) => unchars (stringify o)
  | _ => ""
  end.

Definition extractAskUserQuestionText (events : list AgentEvent) : string :=
  match unansweredIn (rev events) with Some input => extractToolResponseText input | None => "" end.

Definition detectNeedsInput (now : Z) (s : StopEvent) (agent : string) : Anomaly :=
  withSubType sub_stop
    (basicAnomaly agent needs_input info
       ("Agent is waiting for input. Last message: " +:+ quoted (sliceTo 100 (stop_lastMessage s))) (Some now)).

Definition detectPermissionBlocked (now : Z) (last : AgentEvent) (agent : string) : option Anomaly :=
  match ev_body last with
  | permission_request toolName _ _ =>
      if String.eqb toolName "AskUserQuestion" then None
      else Some (basicAnomaly agent permission_blocked warning
                   ("Agent is blocked on permission for tool: " +:+ toolName) (Some now))
  | _ => None
  end.

(** ** Publish and merge *)

Definition i_lit (s : string) : regexp := ignoreCase (lit s).

Definition CONNECTOR_PUBLISH_FAILURE_PATTERNS : list regexp :=
  [ ignoreCase (seqOf [lit "create"; ROpt (RClass (cls "_ -")); lit "branch"]);
    i_lit "git data api"; i_lit "reference already exists";
    ignoreCase (seqOf [RWordBoundary; ROpt (lit "github "); lit "connector ";
      oneOf [lit "error"; lit "failure"; lit "failed"; lit "unavailable"]; RWordBoundary]);
    i_lit "mcp__github"; i_lit "502 bad gateway" ].

Definition the_or_this : regexp := ROpt (oneOf [lit "this "; lit "the "]).

Definition OPERATOR_MERGE_ASK_PATTERNS : list regexp :=
  [ ignoreCase (seqOf [RWordBoundary; lit "is mergeable"; RWordBoundary]);
    ignoreCase (seqOf [lit "all required "; ROpt (lit "status "); lit "check"; ROpt (lit "s"); lit " ";
      oneOf [lit "are"; lit "is"]; lit " green"]);
    ignoreCase (seqOf [RWordBoundary; lit "ready to merge"; RWordBoundary]);
    i_lit "should i merge";
    ignoreCase (seqOf [ROpt (lit "please "); lit "merge "; the_or_this; oneOf [lit "pr"; lit "pull request"];
      RWordBoundary]);
    ignoreCase (seqOf [RWordBoundary; lit "publish "; ROpt (oneOf [lit "the "; lit "this "]);
      oneOf [lit "branch"; lit "pr"; lit "pull request"; RSeq (lit "change") (ROpt (lit "s"))]; RWordBoundary]);
    ignoreCase (seqOf [RWordBoundary; lit "could not publish"; RWordBoundary]) ].

Definition anyMatch (patterns : list regexp) (text : string) : bool := existsb (λ r, test r (chars text)) patterns.

(** The scan back to the nearest result or the user's turn. *)
Fixpoint connectorFailureIn (backwards : list AgentEvent) : option string :=
  match backwards with
  | [] => None
  | e :: l =>
      match ev_body e with
      | input_received => None
      | tool_result _ response _ =>
          let text := extractToolResponseText response in
          if negb (bool_decide (text = "")) && anyMatch CONNECTOR_PUBLISH_FAILURE_PATTERNS text
          then Some text else None
      | _ => connectorFailureIn l
      end
  end.

Definition findRecentConnectorFailure (events : list AgentEvent) : option string := connectorFailureIn (rev events).

Definition isPublishMergeAskText (text : string) : bool := anyMatch OPERATOR_MERGE_ASK_PATTERNS text.

Definition classifyPublishMergeReconciliation (e : PublishMergeReconciliationEvidence) :
    ReconciliationClassification * PublishMergeReconciliationReasonCode :=
  if prGreenAndMergeable e && mergeAfterImplementation e then
    (pr_green_mergeable, pr_green_mergeable_auto_merge_authorized)
  else if connectorFailureDetected e && localCredentialsCanPublish e then
    (connector_failure_but_publishable, connector_failed_local_credentials_ok)
  else if connectorFailureDetected e then (real_blocker, connector_failed_local_credentials_unavailable)
  else (real_blocker, no_reconciling_evidence).

Definition mergeReady : string :=
  "PR is green and mergeable, and merge-after-implementation is authorized. "
  +:+ "Merge-ready signal " +:+ unchars [ascii_of_N 151] +:+ " no operator input needed.".

Definition connectorNote : string :=
  " (Reconciled: a GitHub connector/integration failure was observed, but local git/gh credentials "
  +:+ "could not publish either " +:+ unchars [ascii_of_N 151]
  +:+ " this is a real repository blocker, not a connector outage.)".

Definition withReconciliation (r : AnomalyReconciliation) (a : Anomaly) : Anomaly :=
  {| a with reconciliation := Some r |}.

Definition reconcilePublishMergeBlocker (now : Z) (events : list AgentEvent) (agent candidateText : string)
    (candidate : option Anomaly) (evidence : option PublishMergeReconciliationEvidence) : option Anomaly :=
  match evidence, candidate with
  | Some ev, Some cand =>
      if negb (isPublishMergeAskText candidateText) then candidate
      else
        let connectorFailure := findRecentConnectorFailure events in
        let merged :=
          {| ev with connectorFailureDetected := connectorFailureDetected ev || isSome connectorFailure;
                     connectorFailureText := orOpt (connectorFailureText ev) connectorFailure |} in
        let '(cl, rc) := classifyPublishMergeReconciliation merged in
        let context := mkReconciliation cl rc merged in
        match cl with
        | connector_failure_but_publishable => None
        | pr_green_mergeable =>
            Some (withReconciliation context (basicAnomaly agent needs_input info mergeReady (Some now)))
        | real_blocker =>
            Some (withReconciliation context
              {| cand with explanation :=
                   if connectorFailureDetected merged then explanation cand +:+ connectorNote
                   else explanation cand |})
        end
  | _, _ => candidate
  end.

(** ** Repeated errors *)

Definition hex : ascii → bool := orc (range "0" "9") (range "a" "f").
Definition digits (n : nat) : regexp := RTimes n RDigit.
Definition upTo5 : regexp := RSeq (RClass (range "0" "5")) RDigit.

Definition timestampRe : regexp :=
  seqOf [RWordBoundary; digits 4; lit "-"; digits 2; lit "-"; digits 2; RClass (cls "T ");
    RClass (range "0" "2"); RDigit; lit ":"; upTo5; lit ":"; upTo5; ROpt (RSeq (lit ".") (RPlus RDigit));
    ROpt (RAlt (lit "Z") (seqOf [RClass (cls "+-"); RClass (range "0" "2"); RDigit; ROpt (lit ":"); upTo5]));
    RWordBoundary].

Definition uuidRe : regexp :=
  ignoreCase (seqOf [RWordBoundary; RTimes 8 (RClass hex); lit "-"; RTimes 4 (RClass hex); lit "-";
    RClass (range "1" "5"); RTimes 3 (RClass hex); lit "-"; RClass (cls "89ab"); RTimes 3 (RClass hex); lit "-";
    RTimes 12 (RClass hex); RWordBoundary]).

Definition hexLiteralRe : regexp := ignoreCase (seqOf [RWordBoundary; lit "0x"; RPlus (RClass hex); RWordBoundary]).
Definition hexRunRe : regexp := ignoreCase (seqOf [RWordBoundary; RAtLeast 12 (RClass hex); RWordBoundary]).

(** A white space, a quotation mark, or one of the given. *)
Definition delimiter (extra : string) (c : ascii) : bool := isWs c || (code c =? 34)%N || cls extra c.

Definition windowsPathRe : regexp :=
  let part := RPlus (RClass (notc (delimiter "'<>|"))) in
  let bs := RClass (λ c, (code c =? 92)%N) in
  seqOf [RWordBoundary; RClass (orc (range "A" "Z") (range "a" "z")); lit ":"; bs; RPlus (RSeq part bs); part].

Definition unixPathRe : regexp :=
  let part := RPlus (RClass (notc (delimiter "'<>:),]}"))) in
  seqOf [RAlt RStart (RClass (delimiter "([{'=")); lit "/"; RPlus (RSeq part (lit "/")); part].

Definition numberRe : regexp := seqOf [RWordBoundary; RPlus RDigit; RWordBoundary].

Section fingerprint.
(** [normalize('NFKC')]. *)
Variable nfkc : str → str.

Definition repeatedErrorFingerprint (message : string) : string :=
  let m := nfkc (chars message) in
  let m := replaceAll timestampRe (λ _, chars "<timestamp>") m in
  let m := replaceAll uuidRe (λ _, chars "<uuid>") m in
  let m := replaceAll hexLiteralRe (λ _, chars "<hex>") m in
  let m := replaceAll hexRunRe (λ _, chars "<hex>") m in
  let m := replaceAll windowsPathRe (λ _, chars "<path>") m in
  let m := replaceAll unixPathRe (λ matched,
    match matched with
    | "/"%char :: _ | [] => chars "<path>"
    | c :: _ => c :: chars "<path>"
    end) m in
  let m := replaceAll numberRe (λ _, chars "<num>") m in
  unchars (map lowerChar (trimChars (collapseWs m))).

Definition errorMessages (events : list AgentEvent) : list string :=
  omap (λ e, match ev_body e with error_event m => Some m | _ => None end) events.

(** The counting loop, which stops at the threshold. *)
Fixpoint countErrors (threshold : Z) (messages : list string) (counts : jmap string Z) : option (string * Z) :=
  match messages with
  | [] => None
  | m :: ms =>
      let fp := repeatedErrorFingerprint m in
      let c := orElse (mget fp counts) 0 + 1 in
      if threshold <=? c then Some (m, c) else countErrors threshold ms (mset fp c counts)
  end.

Definition detectRepeatedError (now : Z) (events : list AgentEvent) (agent : string) (threshold : Z) :
    option Anomaly :=
  let errors := errorMessages events in
  if Z.of_nat (length errors) <? threshold then None
  else
    (λ '(m, c),
       let a := basicAnomaly agent repeated_error warning
                  ("Same error repeated " +:+ showZ c +:+ " times: " +:+ quoted (sliceTo 100 m)) (Some now) in
       {| a with count := Some c |}) <$> countErrors threshold errors [].

(** ** Merge conflicts *)

Definition rest_of_line : regexp := RCapture (RPlus RDot).

Definition MERGE_CONFLICT_PATTERNS : list regexp :=
  [ RSeq (lit "CONFLICT (content): Merge conflict in ") rest_of_line;
    RSeq (lit "CONFLICT (modify/delete): ") rest_of_line;
    RSeq (lit "CONFLICT (rename/delete): ") rest_of_line;
    RSeq (lit "CONFLICT (add/add): Merge conflict in ") rest_of_line;
    lit "Automatic merge failed; fix conflicts and then commit";
    lit "Failed to merge in the changes";
    lit "You need to resolve your current index first";
    lit "fix conflicts and then commit the result";
    lit "Unmerged paths:" ].

Definition extractCommand (toolInput : option jvalue) : option string :=
  match toolInput with
  | Some (JString s) => Some s
  | Some (JObject fs) => asString (mget "command" fs)
  | _ => None
  end.

(** The scan back to the call a result answers. *)
Fixpoint commandIn (toolName : string) (toolUseId : option string) (backwards : list AgentEvent) : option string :=
  match backwards with
  | [] => None
  | e :: l =>
      match ev_body e with
      | tool_use name input id =>
          if negb (String.eqb name toolName) then commandIn toolName toolUseId l
          else if isSome (truthyStr toolUseId) && negb (bool_decide (id = toolUseId))
          then commandIn toolName toolUseId l
          else extractCommand input
      | _ => commandIn toolName toolUseId l
      end
  end.

Definition findCommandForResult (events : list AgentEvent) (toolName : string) (toolUseId : option string) :
    option string := commandIn toolName toolUseId (rev events).

Definition sameCommand : regexp := RStar (RClass (notc (λ c, (code c =? 10)%N || cls ";&|" c))).

Definition isGitConflictCommand (command : option string) : bool :=
  match truthyStr command with
  | None => false
  | Some c =>
      let c := chars c in
      test (ignoreCase (seqOf [RWordBoundary; lit "gh"; RPlus RSpace; lit "pr"; RPlus RSpace; lit "checkout";
              RWordBoundary])) c
      || test (ignoreCase (seqOf [RWordBoundary; lit "git"; RWordBoundary; sameCommand; RWordBoundary;
              oneOf [lit "merge"; lit "rebase"; lit "pull"; lit "cherry-pick"; lit "status"; lit "diff";
                     lit "checkout"; lit "switch"; lit "apply"; lit "am"]; RWordBoundary])) c
      || test (ignoreCase (seqOf [RWordBoundary; lit "git"; RWordBoundary; sameCommand; RWordBoundary; lit "stash";
              RPlus RSpace; oneOf [lit "pop"; lit "apply"]; RWordBoundary])) c
  end.

(** One pattern on one line: [foundConflict] and the files so far. *)
Definition conflictMatch (line : str) (acc : bool * list string) (r : regexp) : bool * list string :=
  match exec r None line with
  | None => acc
  | Some f =>
      match truthyStr (unchars <$> group f) with
      | Some g => let file := trim g in
                  (true, if bool_decide (file ∈ acc.2) then acc.2 else acc.2 ++ [file])
      | None => (true, acc.2)
      end
  end.

Definition conflictScan (text : string) : bool * list string :=
  fold_left (λ acc line, fold_left (conflictMatch line) MERGE_CONFLICT_PATTERNS acc)
    (splitOn (ascii_of_N 10) (chars text)) (false, []).

Definition detectMergeConflict (now : Z) (events : list AgentEvent) (agent : string) : option Anomaly :=
  match last events with
  | Some e =>
      match ev_body e with
      | tool_result toolName response id =>
          if negb (String.eqb toolName "Bash") then None
          else if negb (isGitConflictCommand (findCommandForResult events toolName id)) then None
          else
            let text := extractToolResponseText response in
            if bool_decide (text = "") then None
            else
              let '(foundConflict, files) := conflictScan text in
              if negb foundConflict then None
              else
                let fileList := match files with [] => "" | _ => " Files: " +:+ joinWith ", " files end in
                Some (basicAnomaly agent merge_conflict warning
                        ("Agent hit a git merge conflict." +:+ fileList) (Some now))
      | _ => None
      end
  | None => None
  end.

(** ** The evaluation *)

Definition evaluateAnomalies (now : Z) (events : list AgentEvent) (agent : string) (cfg : AnomalyDetectorConfig)
    (evidence : option PublishMergeReconciliationEvidence) : option Anomaly * list AnomalyType :=
  let window := trimOverlays (sliceLast (windowSize cfg) events) in
  match last window with
  | None => (None, [])
  | Some e =>
      match ev_body e with
      | user_prompt _ _ | session_end _ => (None, [])
      | stop_failure error lastMessage _ _ => (Some (detectApiError now error lastMessage agent), [api_error])
      | stop s =>
          (reconcilePublishMergeBlocker now window agent (stop_lastMessage s)
             (Some (detectNeedsInput now s agent)) evidence, [needs_input])
      | _ =>
          match detectPermissionBlocked now e agent with
          | Some a => (Some a, [permission_blocked])
          | None =>
              match detectMergeConflict now window agent with
              | Some a => (Some a, [permission_blocked; merge_conflict])
              | None =>
                  match detectRepeatedError now window agent (repeatedErrorThreshold cfg) with
                  | Some a => (Some a, [permission_blocked; merge_conflict; repeated_error])
                  | None =>
                      (match detectAskUserQuestion now window agent with
                       | Some a => reconcilePublishMergeBlocker now window agent
                                     (extractAskUserQuestionText window) (Some a) evidence
                       | None => None
                       end, [permission_blocked; merge_conflict; repeated_error; needs_input])
                  end
              end
          end
      end
  end.

Definition detectAnomalies (now : Z) (events : list AgentEvent) (agent : string) (cfg : AnomalyDetectorConfig)
    (evidence : option PublishMergeReconciliationEvidence) : option Anomaly :=
  (evaluateAnomalies now events agent cfg evidence).1.
End fingerprint.

Definition prioritizeAnomalies (l : list Anomaly) : list Anomaly :=
  sort_by (λ a b, SEVERITY_ORDER (severity a) - SEVERITY_ORDER (severity b)) l.

Example fingerprint_example :
  map (repeatedErrorFingerprint (λ l, l))
    ["Request 12 failed at 2026-01-02T03:04:05.678Z"; "request  77 failed at 2025-11-30 13:14:15 ";
     "ENOENT (/home/a/b.txt) id 123e4567-e89b-12d3-a456-426614174000"; "x=/tmp/q0/z 0xDEADbeef abcdefabcdef01"]
  = ["request <num> failed at <timestamp>"; "request <num> failed at <timestamp>";
     "enoent (<path>) id <uuid>"; "x=<path> <hex> <hex>"].
Proof. by vm_compute. Qed.

(** ** Lemmas *)

Lemma sliceLast_all {A} n (l : list A) : 0 < n → Z.of_nat (length l) ≤ n → sliceLast n l = l.
Proof.
  intros Hn Hl. unfold sliceLast. rewrite (proj2 (Z.eqb_neq _ _)), (proj2 (Z.ltb_lt _ _)) by lia.
  replace (length l - Z.to_nat n)%nat with 0%nat by lia. apply drop_0.
Qed.

Lemma trimOverlays_snoc_overlay l e : isTrailingStateOverlay e = true → trimOverlays (l ++ [e]) = trimOverlays l.
Proof. intros H. unfold trimOverlays. rewrite rev_unit. simpl. by rewrite H. Qed.

Lemma trimOverlays_snoc l e : isTrailingStateOverlay e = false → trimOverlays (l ++ [e]) = l ++ [e].
Proof. intros H. unfold trimOverlays. rewrite rev_unit. simpl. rewrite H. simpl. by rewrite rev_involutive. Qed.

Lemma trimOverlays_app l k : Forall (λ e, isTrailingStateOverlay e = true) k → trimOverlays (l ++ k) = trimOverlays l.
Proof.
  induction k as [|e k IH] using rev_ind; intros H; [by rewrite app_nil_r|].
  apply Forall_app in H as [H He]. rewrite Forall_singleton in He.
  rewrite app_assoc, trimOverlays_snoc_overlay by exact He. by apply IH.
Qed.

(** What is left ends with the effective event of the turn state. *)
Lemma last_trim l : last (trimOverlays l) = effectiveEvent (deriveTurnStateDetails l).
Proof.
  unfold deriveTurnStateDetails. induction l as [|e l IH] using rev_ind; [done|].
  destruct (isTrailingStateOverlay e) eqn:E.
  - rewrite trimOverlays_snoc_overlay, effectiveIndex_snoc_overlay by done. exact IH.
  - rewrite trimOverlays_snoc, effectiveIndex_snoc by done. simpl. by rewrite last_snoc.
Qed.

Lemma trim_split l e : last (trimOverlays l) = Some e → ∃ k, trimOverlays l = k ++ [e].
Proof. intros H. by apply last_Some in H. Qed.

Section counting.
Variable nfkc : str → str.
Abbreviation fp := (repeatedErrorFingerprint nfkc).

(** How many of the messages have a fingerprint. *)
Definition occurrences (k : string) (ms : list string) : Z :=
  Z.of_nat (countb (λ m, String.eqb (fp m) k) ms).

Lemma countErrors_spec threshold ms : ∀ counts seen,
  1 ≤ threshold →
  (∀ k, orElse (mget k counts) 0 = occurrences k seen) → (∀ k, occurrences k seen < threshold) →
  match countErrors nfkc threshold ms counts with
  | Some (m, c) => c = threshold ∧ m ∈ ms ∧ threshold ≤ occurrences (fp m) (seen ++ ms)
  | None => ∀ k, occurrences k (seen ++ ms) < threshold
  end.
Proof.
  induction ms as [|m ms IH]; intros counts seen Ht Hc Hl; cbn [countErrors].
  - intros k. by rewrite app_nil_r.
  - assert (Hone : ∀ k, occurrences k (seen ++ [m]) = occurrences k seen + if String.eqb (fp m) k then 1 else 0).
    { intros k. unfold occurrences. rewrite countb_app, countb_cons, countb_nil. destruct (String.eqb _ _); lia. }
    rewrite Hc. destruct (Z.leb_spec threshold (occurrences (fp m) seen + 1)) as [H|H].
    + specialize (Hl (fp m)). split_and!; [lia|by left|].
      unfold occurrences in *. rewrite countb_app, countb_cons, String.eqb_refl. lia.
    + specialize (IH (mset (fp m) (occurrences (fp m) seen + 1) counts) (seen ++ [m]) Ht).
      rewrite <- app_assoc in IH. simpl in IH.
      assert (IH' : match countErrors nfkc threshold ms (mset (fp m) (occurrences (fp m) seen + 1) counts) with
        | Some (m0, c) => c = threshold ∧ m0 ∈ ms ∧ threshold ≤ occurrences (fp m0) (seen ++ m :: ms)
        | None => ∀ k, occurrences k (seen ++ m :: ms) < threshold
        end).
      { apply IH; intros k; rewrite Hone; destruct (String.eqb_spec (fp m) k) as [<-|Hne].
        - by rewrite mget_mset_eq.
        - rewrite mget_mset_ne by done. rewrite Hc. lia.
        - lia.
        - specialize (Hl k). lia. }
      destruct (countErrors _ _ _ _) as [[m0 c]|]; [|done]. destruct IH' as (-> & Hin & Ho).
      split_and!; [done|by right|done].
Qed.
End counting.

(** ** Conflict files *)

Definition conflictLine (line : str) (r : regexp) : Prop := ∃ f, exec r None line = Some f.

(** The file a pattern names on a line. *)
Definition namesFile (line : str) (r : regexp) (file : string) : Prop :=
  ∃ f g, exec r None line = Some f ∧ truthyStr (unchars <$> group f) = Some g ∧ file = trim g.

Lemma conflictMatch_spec line acc r :
  NoDup acc.2 →
  let acc' := conflictMatch line acc r in
  NoDup acc'.2 ∧ (acc'.1 = true ↔ acc.1 = true ∨ conflictLine line r) ∧
  ∀ file, file ∈ acc'.2 ↔ file ∈ acc.2 ∨ namesFile line r file.
Proof.
  intros Hn. unfold conflictMatch, conflictLine, namesFile. destruct (exec r None line) as [f|].
  2: { split_and!; [done|naive_solver|naive_solver]. }
  destruct (truthyStr (unchars <$> group f)) as [g|] eqn:Eg; cbn [fst snd].
  - case_bool_decide as Hin; split_and!; try done; [naive_solver| |apply NoDup_app; split_and!| |].
    + intros file. split; [by left|]. intros [?|(f' & g' & [= <-] & Hg & ->)]; [done|].
      assert (g' = g) as -> by congruence. done.
    + done.
    + intros x Hx ->%list_elem_of_singleton. done.
    + apply NoDup_singleton.
    + naive_solver.
    + intros file. rewrite elem_of_app, list_elem_of_singleton. split.
      * intros [?| ->]; [by left|right]. by exists f, g.
      * intros [?|(f' & g' & [= <-] & Hg & ->)]; [by left|right]. congruence.
  - split_and!; [done|naive_solver|]. intros file. split; [by left|].
    intros [?|(f' & g' & [= <-] & Hg & ->)]; [done|congruence].
Qed.

Lemma conflictPatterns_spec line rs : ∀ acc,
  NoDup acc.2 →
  let acc' := fold_left (conflictMatch line) rs acc in
  NoDup acc'.2 ∧ (acc'.1 = true ↔ acc.1 = true ∨ ∃ r, r ∈ rs ∧ conflictLine line r) ∧
  ∀ file, file ∈ acc'.2 ↔ file ∈ acc.2 ∨ ∃ r, r ∈ rs ∧ namesFile line r file.
Proof.
  induction rs as [|r rs IH]; intros acc Hn; cbn [fold_left].
  - split_and!; [done| |]; [|intros file]; split; first [by left|by intros [?|(r & Hr & _)]; [|set_solver]].
  - destruct (conflictMatch_spec line acc r Hn) as (A & B & C).
    destruct (IH (conflictMatch line acc r) A) as (D & E & F). split_and!; [done| |].
    + rewrite E, B. setoid_rewrite elem_of_cons. naive_solver.
    + intros file. rewrite F, C. setoid_rewrite elem_of_cons. naive_solver.
Qed.

(** A hit on the first line or on a later one. *)
Lemma hit_cons {A B} (H : Prop) (P : A → B → Prop) (rs : list B) a (l : list A) :
  ((H ∨ ∃ r, r ∈ rs ∧ P a r) ∨ ∃ x r, x ∈ l ∧ r ∈ rs ∧ P x r) ↔ H ∨ ∃ x r, x ∈ a :: l ∧ r ∈ rs ∧ P x r.
Proof.
  split.
  - intros [[?|(r & ? & ?)]|(x & r & ? & ? & ?)]; [by left|right|right].
    + exists a, r. split_and!; [left|done|done].
    + exists x, r. split_and!; [by right|done|done].
  - intros [?|(x & r & [->|?]%elem_of_cons & ? & ?)]; [by left; left|left; right|right]; eauto.
Qed.

Lemma conflictLines_spec lines : ∀ acc,
  NoDup acc.2 →
  let acc' := fold_left (λ acc line, fold_left (conflictMatch line) MERGE_CONFLICT_PATTERNS acc) lines acc in
  NoDup acc'.2 ∧
  (acc'.1 = true ↔ acc.1 = true ∨ ∃ line r, line ∈ lines ∧ r ∈ MERGE_CONFLICT_PATTERNS ∧ conflictLine line r) ∧
  ∀ file, file ∈ acc'.2 ↔ file ∈ acc.2 ∨
    ∃ line r, line ∈ lines ∧ r ∈ MERGE_CONFLICT_PATTERNS ∧ namesFile line r file.
Proof.
  generalize MERGE_CONFLICT_PATTERNS as rs. intros rs.
  induction lines as [|line lines IH]; intros acc Hn; cbn [fold_left].
  - split_and!; [done| |]; [|intros file]; split; first [by left|by intros [?|(l & r & Hl & _)]; [|set_solver]].
  - destruct (conflictPatterns_spec line rs acc Hn) as (A & B & C).
    destruct (IH (fold_left (conflictMatch line) rs acc) A) as (D & E & F). split_and!; [done| |].
    + rewrite E, B. apply hit_cons.
    + intros file. rewrite F, C. apply (hit_cons _ (λ line r, namesFile line r file)).
Qed.

(** ** Kinds of finding *)

Lemma mergeConflict_kind now l agent a :
  detectMergeConflict now l agent = Some a →
  type a = merge_conflict ∧ ∃ e r id, last l = Some e ∧ ev_body e = tool_result "Bash" r id.
Proof.
  unfold detectMergeConflict. intros H. destruct (last l) as [e|]; [|done]. destruct (ev_body e) eqn:Eb; try done.
  destruct (String.eqb_spec toolName "Bash") as [->|]; simpl in H; [|done].
  destruct (negb _); [done|]. case_bool_decide; [done|]. destruct (conflictScan _) as [found files].
  destruct (negb found); [done|]. injection H as <-. split; [done|]. by repeat eexists.
Qed.

Lemma repeatedError_kind nfkc now l agent t a :
  detectRepeatedError nfkc now l agent t = Some a → type a = repeated_error.
Proof.
  unfold detectRepeatedError. destruct (_ <? _); [done|].
  destruct (countErrors _ _ _ _) as [[m c]|]; [|done]. by intros [= <-].
Qed.

Lemma askUser_kind now l agent a :
  detectAskUserQuestion now l agent = Some a → type a = needs_input ∧ subType a = Some sub_ask_user_question.
Proof. unfold detectAskUserQuestion. destruct (unansweredIn _); [|done]. by intros [= <-]. Qed.

Lemma permission_kind now e agent a :
  detectPermissionBlocked now e agent = Some a → type a = permission_blocked ∧ turnStateOf e = blocked.
Proof.
  unfold detectPermissionBlocked, turnStateOf. destruct (ev_body e); try done.
  destruct (String.eqb toolName "AskUserQuestion"); [done|]. by intros [= <-].
Qed.

Lemma askUser_last now l e name input id agent :
  last l = Some e → ev_body e = tool_use name input id → name = "AskUserQuestion" →
  detectAskUserQuestion now l agent ≠ None.
Proof.
  intros [k ->]%last_Some He ->. unfold detectAskUserQuestion. rewrite rev_unit. simpl. by rewrite He.
Qed.

(** The window of a history that is not cut. *)
Lemma window_uncut cfg events :
  0 < windowSize cfg → Z.of_nat (length events) ≤ windowSize cfg →
  trimOverlays (sliceLast (windowSize cfg) events) = trimOverlays events.
Proof. intros. by rewrite sliceLast_all. Qed.

Section evaluation.
Variable nfkc : str → str.
Variable now : Z.
Variable agent : string.

(** What the detector says of a turn state. *)
Definition findingFits (st : TurnState) (r : option Anomaly) : Prop :=
  match st with
  | blocked => ∃ a, r = Some a ∧ (type a = api_error ∨ type a = permission_blocked)
  | completed_turn => ∃ a, r = Some a ∧ type a = needs_input ∧ subType a = Some sub_stop
  | waiting_for_input => ∀ a, r = Some a → type a = repeated_error ∨
                              type a = needs_input ∧ subType a = Some sub_ask_user_question
  | running => ∀ a, r = Some a → type a ≠ api_error ∧ type a ≠ permission_blocked
  | unknown => r = None
  end.

(** The findings that come after the event is not a stop, without evidence. *)
Lemma ordinary_finding (t : Z) w e :
  last w = Some e →
  match detectPermissionBlocked now e agent with
  | Some a => type a = permission_blocked ∧ turnStateOf e = blocked
  | None =>
      match detectMergeConflict now w agent with
      | Some a => type a = merge_conflict ∧ turnStateOf e = running
      | None =>
          match detectRepeatedError nfkc now w agent t with
          | Some a => type a = repeated_error
          | None => ∀ a, detectAskUserQuestion now w agent = Some a →
                         type a = needs_input ∧ subType a = Some sub_ask_user_question
          end
      end
  end.
Proof.
  intros Hw. destruct (detectPermissionBlocked _ _ _) as [a|] eqn:Ep; [by eapply permission_kind|].
  destruct (detectMergeConflict _ _ _) as [a|] eqn:Em.
  - apply mergeConflict_kind in Em as (Ht & e' & r & id & He & Hb). split; [done|].
    assert (e' = e) as -> by congruence. unfold turnStateOf. by rewrite Hb.
  - destruct (detectRepeatedError _ _ _ _ _) as [a|] eqn:Er; [by eapply repeatedError_kind|].
    intros a. apply askUser_kind.
Qed.

(** C13: on a window that holds the whole history and without publish evidence, the detector
    and [deriveTurnState] agree: a blocked turn has a finding of an API error or of a
    permission, a completed turn the stop's [needs_input], a finished session none; a turn
    that waits for an answer has no finding but the question or a repeated error, and a
    running turn none of the two that block. *)
Theorem turn_state_agrees cfg events :
  0 < windowSize cfg → Z.of_nat (length events) ≤ windowSize cfg →
  findingFits (deriveTurnState events) (detectAnomalies nfkc now events agent cfg None).
Proof.
  intros Hw Hl. unfold detectAnomalies, evaluateAnomalies, deriveTurnState.
  rewrite window_uncut by done. pose proof (last_trim events) as Hlast. unfold deriveTurnStateDetails in *.
  destruct (effectiveIndex events (length events)) as [[i e]|]; cbn [effectiveEvent turnState] in *; rewrite Hlast; [|done].
  pose proof (ordinary_finding (repeatedErrorThreshold cfg) _ e Hlast) as Ho. unfold turnStateOf in *.
  destruct (ev_body e) as [| | | | | |s| | | | | | |] eqn:Eb; try done.
  7: { destruct (_ || _); simpl; [intros a [= <-]; done|by eexists]. }
  7: { unfold detectPermissionBlocked in *. rewrite Eb in *. destruct (String.eqb _ _); [|by eexists; eauto].
       destruct (detectMergeConflict _ _ _); [by destruct Ho|].
       destruct (detectRepeatedError _ _ _ _ _); simpl; [by intros ? [= <-]; left|].
       destruct (detectAskUserQuestion _ _ _); naive_solver. }
  8: { simpl. eexists. split; [done|by left]. }
  all: unfold detectPermissionBlocked in *; rewrite Eb in *; try destruct (String.eqb _ _).
  all: destruct (detectMergeConflict _ _ _); [destruct Ho as [Ht Hs]; simpl; try done; intros ? [= <-]; by rewrite Ht|].
  all: destruct (detectRepeatedError _ _ _ _ _); simpl; [intros ? [= <-]; rewrite Ho; by try left|].
  all: destruct (detectAskUserQuestion _ _ _) as [q|]; [|done].
  all: destruct (Ho q eq_refl) as [Ht ?]; intros ? [= <-]; rewrite Ht; by try right.
Qed.

(** For a threshold of at least one, a repeated-error finding is raised exactly when some
    fingerprint is that of as many error messages of the window; it then counts just the
    threshold and quotes a message whose fingerprint is so common. *)
Theorem repeated_error_exact events t :
  1 ≤ t →
  let messages := errorMessages events in
  match detectRepeatedError nfkc now events agent t with
  | Some a => type a = repeated_error ∧ count a = Some t ∧
      ∃ m, m ∈ messages ∧ t ≤ occurrences nfkc (repeatedErrorFingerprint nfkc m) messages ∧
           explanation a = "Same error repeated " +:+ showZ t +:+ " times: " +:+ quoted (sliceTo 100 m)
  | None => ∀ k, occurrences nfkc k messages < t
  end.
Proof.
  intros Ht messages. unfold detectRepeatedError. fold messages. clearbody messages.
  destruct (Z.ltb_spec (Z.of_nat (length messages)) t) as [Hlt|_].
  - intros k. unfold occurrences. pose proof (countb_length (λ m, String.eqb (repeatedErrorFingerprint nfkc m) k) messages). lia.
  - assert (Hs := countErrors_spec nfkc t messages [] [] Ht). cbn [app] in Hs.
    destruct (countErrors nfkc t messages []) as [[m c]|].
    + destruct Hs as (-> & Hin & Ho); [done|intros; unfold occurrences; rewrite countb_nil; lia|].
      split_and!; [done|done|]. by exists m.
    + simpl. apply Hs; [done|]. intros. unfold occurrences. rewrite countb_nil. lia.
Qed.

(** ** Publish evidence *)

(** The text that decides whether a finding is about publishing or merging. *)
Definition askText (w : list AgentEvent) : string :=
  match last w with
  | Some (mkEvent (stop s) _ _ _ _) => stop_lastMessage s
  | _ => extractAskUserQuestionText w
  end.

Definition publishable (ev : PublishMergeReconciliationEvidence) (w : list AgentEvent) : Prop :=
  localCredentialsCanPublish ev = true ∧ (connectorFailureDetected ev = true ∨ findRecentConnectorFailure w ≠ None).
Definition mergeAuthorised (ev : PublishMergeReconciliationEvidence) : Prop :=
  prGreenAndMergeable ev = true ∧ mergeAfterImplementation ev = true.

(** What evidence makes of a finding [a]. *)
Definition reconciledTo (ev : PublishMergeReconciliationEvidence) (w : list AgentEvent) (a : Anomaly)
    (r : option Anomaly) : Prop :=
  match r with
  | None => publishable ev w ∧ ¬ mergeAuthorised ev
  | Some b =>
      agentId b = agentId a ∧ type b = needs_input ∧
      ((mergeAuthorised ev ∧ explanation b = mergeReady ∧ severity b = info ∧ subType b = None) ∨
       (¬ mergeAuthorised ev ∧ ¬ publishable ev w ∧ severity b = severity a ∧ subType b = subType a ∧
        (explanation b = explanation a ∨ explanation b = explanation a +:+ connectorNote)))
  end.

Lemma reconcile_spec w text a ev :
  type a = needs_input → agentId a = agent →
  let r := reconcilePublishMergeBlocker now w agent text (Some a) (Some ev) in
  r = Some a ∨ isPublishMergeAskText text = true ∧ reconciledTo ev w a r.
Proof.
  intros Ht Ha. unfold reconcilePublishMergeBlocker. destruct (isPublishMergeAskText text); [right|by left]. split; [done|].
  assert (Hf : isSome (findRecentConnectorFailure w) = true ↔ findRecentConnectorFailure w ≠ None)
    by (by destruct (findRecentConnectorFailure w)).
  unfold classifyPublishMergeReconciliation. cbn [prGreenAndMergeable mergeAfterImplementation
    connectorFailureDetected localCredentialsCanPublish].
  destruct (prGreenAndMergeable ev && mergeAfterImplementation ev) eqn:Em.
  { apply andb_true_iff in Em. simpl. split_and!; [done|done|]. left. by split_and!. }
  assert (Hm : ¬ mergeAuthorised ev) by (unfold mergeAuthorised; intros [E1 E2]; by rewrite E1, E2 in Em).
  destruct (connectorFailureDetected ev || isSome (findRecentConnectorFailure w)) eqn:Ec; simpl.
  - destruct (localCredentialsCanPublish ev) eqn:El; simpl.
    + split; [|done]. split; [done|]. apply orb_true_iff in Ec. by rewrite Hf in Ec.
    + split_and!; [done|done|]. right. unfold publishable. rewrite El.
      split_and!; [done|by intros [? _]|done|done|by right].
  - split_and!; [done|done|]. right. apply orb_false_iff in Ec as [E1 E2].
    split_and!; [done| |done|done|by left].
    intros [_ [E|E%Hf]]; congruence.
Qed.

(** Publish and merge evidence never creates a finding and changes one only where it is an
    input request whose own text is about publishing or merging: it is then dropped only if
    a connector failed, local credentials can publish and the merge is not authorised; it
    becomes the merge-ready signal only if the request is green and the merge authorised; it
    otherwise keeps its kind and severity. *)
Theorem evidence_scoped events cfg ev :
  let w := trimOverlays (sliceLast (windowSize cfg) events) in
  let r := detectAnomalies nfkc now events agent cfg (Some ev) in
  match detectAnomalies nfkc now events agent cfg None with
  | None => r = None
  | Some a => r = Some a ∨ (type a = needs_input ∧ isPublishMergeAskText (askText w) = true ∧ reconciledTo ev w a r)
  end.
Proof.
  unfold detectAnomalies, evaluateAnomalies. set (w := trimOverlays _). cbn zeta. clearbody w.
  unfold askText. destruct (last w) as [[b ? ? ? ?]|] eqn:El; [|done]. cbn [ev_body].
  assert (Hask : match detectAskUserQuestion now w agent with
    | Some a => let r := reconcilePublishMergeBlocker now w agent (extractAskUserQuestionText w) (Some a) (Some ev) in
        r = Some a ∨ (type a = needs_input ∧ isPublishMergeAskText (extractAskUserQuestionText w) = true ∧ reconciledTo ev w a r)
    | None => True
    end).
  { destruct (detectAskUserQuestion now w agent) as [a|] eqn:Ea; [|done].
    assert (Hg : agentId a = agent) by (revert Ea; unfold detectAskUserQuestion; destruct (unansweredIn _); [by intros [= <-]|done]).
    apply askUser_kind in Ea as [Ht _]. destruct (reconcile_spec w (extractAskUserQuestionText w) a ev Ht Hg); auto. }
  destruct b; try done.
  7: { destruct (reconcile_spec w (stop_lastMessage s) (detectNeedsInput now s agent) ev eq_refl eq_refl) as [H|[H1 H2]]; [by left|right]. done. }
  all: try solve [by left].
  all: destruct (detectPermissionBlocked _ _ _); [by left|].
  all: destruct (detectMergeConflict _ _ _); [by left|].
  all: destruct (detectRepeatedError _ _ _ _ _); [by left|].
  all: destruct (detectAskUserQuestion _ _ _); [exact Hask|done].
Qed.

(** ** Merge conflicts *)

(** The lines of a tool response. *)
Definition responseLines (response : option jvalue) : list str :=
  splitOn (ascii_of_N 10) (chars (extractToolResponseText response)).

(** The Bash result of a git command at the end of the window. *)
Definition gitResult (w : list AgentEvent) (response : option jvalue) : Prop :=
  ∃ e id, last w = Some e ∧ ev_body e = tool_result "Bash" response id ∧
          isGitConflictCommand (findCommandForResult w "Bash" id) = true.

Lemma empty_line_no_conflict r : r ∈ MERGE_CONFLICT_PATTERNS → ¬ conflictLine [] r.
Proof. intros Hr [f Hf]. set_unfold in Hr. by destruct_or! Hr; subst r. Qed.

Lemma conflictScan_spec text :
  let r := conflictScan text in
  let lines := splitOn (ascii_of_N 10) (chars text) in
  NoDup r.2 ∧ (r.1 = true ↔ ∃ line p, line ∈ lines ∧ p ∈ MERGE_CONFLICT_PATTERNS ∧ conflictLine line p) ∧
  ∀ f, f ∈ r.2 ↔ ∃ line p, line ∈ lines ∧ p ∈ MERGE_CONFLICT_PATTERNS ∧ namesFile line p f.
Proof.
  destruct (conflictLines_spec (splitOn (ascii_of_N 10) (chars text)) (false, []) NoDup_nil_2) as (A & B & C).
  split_and!; [exact A| |intros f]; unfold conflictScan; [rewrite B|rewrite C]; split; try by right.
  - by intros [?|?].
  - by intros [[]%not_elem_of_nil|?].
Qed.

(** A merge conflict is found exactly when the window ends with the Bash result of a git
    command some line of which one of the patterns matches; the finding lists, without
    repetition, just the files that a matching pattern names. *)
Theorem conflict_exact w :
  match detectMergeConflict now w agent with
  | Some a =>
      ∃ response files, gitResult w response ∧ NoDup files ∧
        (∀ f, f ∈ files ↔ ∃ line r, line ∈ responseLines response ∧ r ∈ MERGE_CONFLICT_PATTERNS ∧ namesFile line r f) ∧
        (∃ line r, line ∈ responseLines response ∧ r ∈ MERGE_CONFLICT_PATTERNS ∧ conflictLine line r) ∧
        explanation a = "Agent hit a git merge conflict."
          +:+ match files with [] => "" | _ => " Files: " +:+ joinWith ", " files end
  | None => ∀ response line r, gitResult w response → line ∈ responseLines response →
              r ∈ MERGE_CONFLICT_PATTERNS → ¬ conflictLine line r
  end.
Proof.
  unfold detectMergeConflict, gitResult, responseLines. destruct (last w) as [e|]; [|by intros ??? (? & ? & ? & _)].
  destruct (ev_body e) as [| |name response id| | | | | | | | | | |] eqn:Eb;
    try by intros ??? (e' & ? & [= <-] & Hb & _); congruence.
  destruct (String.eqb_spec name "Bash") as [->|Hn]; [|by intros ??? (e' & ? & [= <-] & Hb & _); congruence].
  destruct (isGitConflictCommand _) eqn:Eg; cbn [negb].
  2: { intros ??? (e' & ? & [= <-] & Hb & ?). assert (Some id = Some x) by congruence. congruence. }
  assert (Hr : ∀ response', (∃ e' id', Some e = Some e' ∧ ev_body e' = tool_result "Bash" response' id' ∧
    isGitConflictCommand (findCommandForResult w "Bash" id') = true) → response' = response)
    by (intros ? (? & ? & [= <-] & ? & _); congruence).
  case_bool_decide as Et.
  { intros ? line r ->%Hr Hl Hp. rewrite Et in Hl. apply list_elem_of_singleton in Hl as ->. by apply empty_line_no_conflict. }
  pose proof (conflictScan_spec (extractToolResponseText response)) as (A & B & C).
  destruct (conflictScan _) as [[] files]; cbn [negb fst snd] in *.
  - exists response, files. split_and!; [by exists e, id|done|done|by apply B|done].
  - intros ? line r ->%Hr Hl Hp Hc. assert (false = true) by (apply B; by exists line, r). done.
Qed.

(** ** Limits of the code *)

(** The window is cut before the overlays are dropped: enough of them hide the stop, and
    every other finding, that [deriveTurnState] still sees. *)
Theorem overlay_flood events flood cfg :
  0 < windowSize cfg → windowSize cfg ≤ Z.of_nat (length flood) →
  Forall (λ e, isTrailingStateOverlay e = true) flood →
  detectAnomalies nfkc now (events ++ flood) agent cfg None = None ∧
  deriveTurnState (events ++ flood) = deriveTurnState events.
Proof.
  intros Hw Hl Hf. split.
  - assert (He : ∃ k, sliceLast (windowSize cfg) (events ++ flood) = drop k flood).
    { unfold sliceLast. rewrite (proj2 (Z.eqb_neq _ _)), (proj2 (Z.ltb_lt _ _)), length_app by lia.
      exists (length flood - Z.to_nat (windowSize cfg))%nat.
      replace (length events + length flood - Z.to_nat (windowSize cfg))%nat
        with (length events + (length flood - Z.to_nat (windowSize cfg)))%nat by lia.
      rewrite <- drop_drop. by rewrite drop_app_length. }
    destruct He as [k He]. unfold detectAnomalies, evaluateAnomalies. rewrite He.
    pose proof (trimOverlays_app [] (drop k flood) (Forall_drop _ _ _ Hf)) as Ht. cbn [app] in Ht. by rewrite Ht.
  - clear Hw Hl. induction flood as [|e flood IH] using rev_ind; [by rewrite app_nil_r|].
    apply Forall_app in Hf as [Hf He]. rewrite Forall_singleton in He. specialize (IH Hf).
    rewrite app_assoc. unfold deriveTurnState, deriveTurnStateDetails in *.
    by rewrite effectiveIndex_snoc_overlay.
Qed.
End evaluation.

Definition on (b : EventBody) : AgentEvent := mkEvent b "s" None None None.

(** The result of another call ends the scan: the question that is still open, whose
    permission prompt is the last event, has no finding. *)
Theorem foreign_result_answers :
  let events := [on (tool_use "AskUserQuestion" (Some (JString "Which?")) (Some "q"));
                 on (tool_use "Bash" (Some (JString "ls")) (Some "b"));
                 on (tool_result "Bash" (Some (JString "a.txt")) (Some "b"));
                 on (permission_request "AskUserQuestion" None None)] in
  detectAnomalies id 0 events "a" DEFAULT_CONFIG None = None ∧ deriveTurnState events = waiting_for_input.
Proof. by vm_compute. Qed.

(** A Bash response is an object: its text is one line of JSON, and what follows the first
    conflict is read as part of the file's name. *)
Theorem object_response_one_line :
  let nl := unchars [ascii_of_N 10] in
  let out := "CONFLICT (content): Merge conflict in a.ts" +:+ nl +:+ "CONFLICT (content): Merge conflict in b.ts" in
  let events response := [on (tool_use "Bash" (Some (JString "git merge main")) (Some "b"));
                          on (tool_result "Bash" (Some response) (Some "b"))] in
  let files response := explanation <$> detectAnomalies id 0 (events response) "a" DEFAULT_CONFIG None in
  files (JString out) = Some "Agent hit a git merge conflict. Files: a.ts, b.ts" ∧
  ∃ rest, files (JObject [("stdout", JString out)]) = Some ("Agent hit a git merge conflict. Files: a.ts\n" +:+ rest).
Proof. split; [by vm_compute|]. eexists. vm_compute. reflexivity. Qed.

(** ** Witnesses *)

Definition stopped : list AgentEvent :=
  [on (user_prompt "go" None); on (stop (mkStop "PR is ready to merge" None None None None None));
   on (notification "idle_prompt" "" None)].

Lemma turn_state_agrees_witness :
  0 < windowSize DEFAULT_CONFIG ∧ Z.of_nat (length stopped) ≤ windowSize DEFAULT_CONFIG ∧
  findingFits completed_turn (detectAnomalies id 0 stopped "a" DEFAULT_CONFIG None).
Proof. split; [done|split; [done|]]. exact (turn_state_agrees id 0 "a" DEFAULT_CONFIG stopped eq_refl ltac:(done)). Defined.

Lemma repeated_error_exact_witness :
  let events := [on (error_event "Failed 1"); on (error_event "failed 22")] in
  1 ≤ 2 ∧ count <$> detectRepeatedError id 0 events "a" 2 = Some (Some 2).
Proof.
  intros events. split; [done|]. pose proof (repeated_error_exact id 0 "a" events 2 ltac:(done)) as H. cbn zeta in H.
  destruct (detectRepeatedError id 0 events "a" 2) as [a|]; [destruct H as (_ & H & _); simpl; by rewrite H|].
  specialize (H (repeatedErrorFingerprint id "Failed 1")). revert H. vm_compute. done.
Defined.

Lemma overlay_flood_witness :
  detectAnomalies id 0 (stopped ++ [on (notification "auth_success" "" None)]) "a" (mkConfig 3 1) None = None.
Proof. apply (overlay_flood id 0 "a" stopped [on (notification "auth_success" "" None)] (mkConfig 3 1)); [done|done|by repeat constructor]. Defined.
End Detector.
