(* ===== verification/AttentionQueue.v ===== *)
(** * The attention queue ([src/core/attention-queue.ts])

    The queue holds the findings that wait for the developer, the snoozed ones
    and a bounded memory of resolved ones.  Every method of the class
    [AttentionQueue] is a function on the record [queue]; a method that reads
    the clock takes the reading, and one that reads it twice takes both.  The
    callbacks of the registered observers are the log [emitted]. *)

From S2P Require Import Prelude JsMap JsArray JsString Anomalies.
Local Open Scope Z_scope.

Module Queue.

(** ** Data *)

Record QueueEntry := mkEntry {
  qe_agentId : string;
  qe_anomaly : Anomaly;
  qe_skipped : bool
}.

Inductive SnoozeKind := kind_finding | kind_task.

Record SnoozeEntry := mkSnooze {
  se_agentId : string;
  se_key : string;
  se_kind : SnoozeKind;
  se_anomaly : option Anomaly;
  se_expiresAt : Z;
  se_createdAt : Z;
  se_expiredPendingRestore : option bool;
  se_reason : option string;
  se_wakeOnChange : option bool
}.

(** The entries [importSnoozed] accepts, with their optional fields. *)
Record SnoozeImport := mkSnoozeImport {
  si_agentId : string;
  si_key : string;
  si_kind : option SnoozeKind;
  si_anomaly : option Anomaly;
  si_expiresAt : Z;
  si_createdAt : option Z;
  si_expiredPendingRestore : option bool;
  si_reason : option string;
  si_wakeOnChange : option bool
}.

Inductive SuppressionReason := queue_dedupe | queue_snoozed.

(** One observer callback. *)
Inductive Notification :=
| admitted (agent : string) (a : Anomaly) (fingerprint : string)
| resolved (agent : string) (a : Anomaly) (fingerprint : string)
| suppressed (agent : string) (a : Anomaly) (fingerprint : string) (r : SuppressionReason).

Record queue := mkQueue {
  entries : jmap string QueueEntry;
  snoozed : jmap string SnoozeEntry;
  lastRemoved : jmap string Anomaly;
  maxLastRemoved : Z;
  observers : list nat;
  emitted : list (nat * Notification);
  count_dedupe : Z;
  count_snoozed : Z
}.

Definition DEFAULT_LAST_REMOVED_MAX : Z := 512.
Definition SNOOZE_UNTIL_NEXT_CHANGE_DURATION_MS : Z := 100 * 365 * 24 * 60 * 60 * 1000.

(** The constructor; an option below zero disables retention. *)
Definition newQueue (maxLastRemovedOpt : option Z) : queue :=
  mkQueue [] [] [] (max0 (orElse maxLastRemovedOpt DEFAULT_LAST_REMOVED_MAX)) [] [] 0 0.

(** ** Observers *)

Definition addObserver (o : nat) (q : queue) : queue :=
  {| q with observers :=
       if bool_decide (o ∈ observers q) then observers q else observers q ++ [o] |}.

Definition removeObserver (o : nat) (q : queue) : queue :=
  {| q with observers := List.filter (λ x, negb (Nat.eqb x o)) (observers q) |}.

Definition notify (n : Notification) (q : queue) : queue :=
  {| q with emitted := emitted q ++ ((λ o, (o, n)) <$> observers q) |}.

Definition notifyAdmitted (agent : string) (a : Anomaly) (q : queue) : queue :=
  notify (admitted agent a (anomalyFingerprint a)) q.

Definition notifyResolved (agent : string) (a : Anomaly) (q : queue) : queue :=
  notify (resolved agent a (anomalyFingerprint a)) q.

Definition notifySuppressed (agent : string) (a : Anomaly) (r : SuppressionReason)
    (q : queue) : queue :=
  let q :=
    match r with
    | queue_dedupe => {| q with count_dedupe := count_dedupe q + 1 |}
    | queue_snoozed => {| q with count_snoozed := count_snoozed q + 1 |}
    end in
  notify (suppressed agent a (anomalyFingerprint a) r) q.

(** ** Ordering *)

(** The comparator of [getSorted]. *)
Definition entryCmp (a b : QueueEntry) : Z :=
  if negb (Bool.eqb (qe_skipped a) (qe_skipped b))
  then (if qe_skipped a then 1 else -1)
  else SEVERITY_ORDER (severity (qe_anomaly a)) - SEVERITY_ORDER (severity (qe_anomaly b)).

Definition getSorted (q : queue) : list QueueEntry := sort_by entryCmp (mvals (entries q)).

(** ** Snooze bookkeeping *)

Definition dropExpiredForKey (now : Z) (key : string) (q : queue) : queue :=
  match mget key (snoozed q) with
  | None => q
  | Some s => if now <? se_expiresAt s then q
              else {| q with snoozed := mdel key (snoozed q) |}
  end.

(** One round of the [for] loop of [restoreExpiredSnoozes]. *)
Definition restoreOne (now : Z) (q : queue) (p : string * SnoozeEntry) : queue :=
  let '(key, s) := p in
  if now <? se_expiresAt s then q
  else match se_anomaly s with
       | None => {| q with snoozed := mdel key (snoozed q) |}
       | Some a =>
           if String.eqb (se_key s) (se_agentId s)
           then {| q with
                   entries := mset (se_agentId s) (mkEntry (se_agentId s) a false) (entries q);
                   snoozed := mdel key (snoozed q) |}
           else q
       end.

Definition restoreExpiredSnoozes (now : Z) (q : queue) : queue :=
  foldl (restoreOne now) q (snoozed q).

Definition shouldWakeSnooze (s : SnoozeEntry) (a : Anomaly) : bool :=
  match se_anomaly s with
  | None => orElse (se_wakeOnChange s) false
  | Some prev =>
      let sameFingerprint := hasSameFingerprint (Some prev) a in
      let severityEscalated := SEVERITY_ORDER (severity a) <? SEVERITY_ORDER (severity prev) in
      if orElse (se_wakeOnChange s) false
      then negb sameFingerprint || severityEscalated
      else severityEscalated
           || (bool_decide (severity a = critical) && negb sameFingerprint)
  end.

(** The anomaly [enqueue] stores behind a snooze or an active entry: the same
    finding keeps its first detection time. *)
Definition keepDetectedAt (previous : option Anomaly) (a : Anomaly) : Anomaly :=
  match previous with
  | Some p => if hasSameFingerprint (Some p) a
              then {| a with detectedAt := detectedAt p |} else a
  | None => a
  end.

(** The [while] loop of [rememberRemoved]: the oldest keys go first. *)
Fixpoint evictOldest (max : Z) (m : jmap string Anomaly) : jmap string Anomaly :=
  match m with
  | [] => []
  | _ :: m' => if max <? Z.of_nat (msize m) then evictOldest max m' else m
  end.

Definition rememberRemoved (agent : string) (a : Anomaly) (q : queue) : queue :=
  if maxLastRemoved q =? 0 then {| q with lastRemoved := mdel agent (lastRemoved q) |}
  else {| q with lastRemoved :=
            evictOldest (maxLastRemoved q)
              (mset agent a (mdel agent (lastRemoved q))) |}.

(** A snooze is in force at [now]. *)
Definition unexpired (now : Z) (s : SnoozeEntry) : bool := now <? se_expiresAt s.

Section Resolver.
(** The resolver the constructor receives: the task that owns a session. *)
Variable taskIdFor : string → option string.

Definition snoozeKey (agent : string) : string := orElse (taskIdFor agent) agent.

(** ** The public methods *)

(** The tail of [enqueue], when no snooze hides the finding: the same finding
    updates its entry in place, another one replaces it. *)
Definition enqueueActive (agent : string) (a : Anomaly) (q : queue) : queue :=
  match mget agent (entries q) with
  | Some existing =>
      if hasSameFingerprint (Some (qe_anomaly existing)) a then
        let a' := {| a with detectedAt := detectedAt (qe_anomaly existing) |} in
        notifySuppressed agent a' queue_dedupe
          {| q with entries := mupd (λ e, {| e with qe_anomaly := a' |}) agent (entries q) |}
      else notifyAdmitted agent a
             {| q with entries := mset agent (mkEntry agent a false) (entries q) |}
  | None => notifyAdmitted agent a
              {| q with entries := mset agent (mkEntry agent a false) (entries q) |}
  end.

(** [now1] is read by [dropExpiredForKey], [now2] by the test that follows. *)
Definition enqueue (now1 now2 : Z) (agent : string) (a : Anomaly) (q : queue) : queue :=
  let q := {| q with lastRemoved := mdel agent (lastRemoved q) |} in
  let key := snoozeKey agent in
  let q := dropExpiredForKey now1 key q in
  match mget key (snoozed q) with
  | Some s =>
      if now2 <? se_expiresAt s then
        if shouldWakeSnooze s a then
          notifyAdmitted agent a
            {| q with snoozed := mdel key (snoozed q);
                      entries := mset agent (mkEntry agent a false) (entries q) |}
        else
          let a' := keepDetectedAt (se_anomaly s) a in
          notifySuppressed agent a' queue_snoozed
            {| q with snoozed :=
                 mupd (λ s, {| s with se_anomaly := Some a' |}) key (snoozed q) |}
      else enqueueActive agent a q
  | None => enqueueActive agent a q
  end.

Definition next (now : Z) (q : queue) : queue * option (string * Anomaly) :=
  let q := restoreExpiredSnoozes now q in
  (q, match getSorted q with
      | [] => None
      | e :: _ => Some (qe_agentId e, qe_anomaly e)
      end).

Definition skip (agent : string) (q : queue) : queue :=
  {| q with entries := mupd (λ e, {| e with qe_skipped := true |}) agent (entries q) |}.

Definition snooze (now : Z) (agent : string) (durationMs : Z) (reason : option string)
    (fallback : option Anomaly) (q : queue) : queue * option SnoozeEntry :=
  let anomaly := orOpt (qe_anomaly <$> mget agent (entries q)) fallback in
  let key := snoozeKey agent in
  let isTaskKeyed := negb (String.eqb key agent) in
  if negb (isSome anomaly) && negb isTaskKeyed then (q, None)
  else
    let s := {| se_agentId := agent; se_key := key;
                se_kind := if isSome anomaly then kind_finding else kind_task;
                se_anomaly := anomaly;
                se_expiresAt := now + durationMs; se_createdAt := now;
                se_expiredPendingRestore := None; se_reason := reason;
                se_wakeOnChange :=
                  Some (SNOOZE_UNTIL_NEXT_CHANGE_DURATION_MS <=? durationMs) |} in
    ({| q with snoozed := mset key s (snoozed q);
               entries := mdel agent (entries q);
               lastRemoved := mdel agent (lastRemoved q) |}, Some s).

Definition cancelSnooze (agent restoreAgent : string) (q : queue) : queue * bool :=
  match mget (snoozeKey agent) (snoozed q) with
  | None => (q, false)
  | Some s =>
      let q :=
        match se_anomaly s with
        | Some a =>
            {| q with entries :=
                 mset restoreAgent
                   (mkEntry restoreAgent {| a with agentId := restoreAgent |} false)
                   (entries q) |}
        | None => q
        end in
      ({| q with snoozed := mdel (se_key s) (snoozed q) |}, true)
  end.

Definition remove (agent : string) (q : queue) : queue :=
  let q :=
    match mget agent (entries q) with
    | Some e => notifyResolved agent (qe_anomaly e) (rememberRemoved agent (qe_anomaly e) q)
    | None => q
    end in
  {| q with entries := mdel agent (entries q) |}.

Definition purge (agent : string) (q : queue) : queue :=
  {| q with entries := mdel agent (entries q); lastRemoved := mdel agent (lastRemoved q) |}.

Definition purgeTask (key : string) (q : queue) : queue :=
  {| q with snoozed := mdel key (snoozed q) |}.

Definition getSnoozed (q : queue) : list SnoozeEntry := mvals (snoozed q).

Definition importEntry (now : Z) (i : SnoozeImport) : SnoozeEntry :=
  let createdAt := orElse (si_createdAt i) now in
  {| se_agentId := si_agentId i; se_key := si_key i;
     se_kind := orElse (si_kind i) (if isSome (si_anomaly i) then kind_finding else kind_task);
     se_anomaly := si_anomaly i; se_expiresAt := si_expiresAt i;
     se_createdAt := createdAt;
     se_expiredPendingRestore := si_expiredPendingRestore i;
     se_reason := si_reason i;
     se_wakeOnChange :=
       Some (orElse (si_wakeOnChange i)
               (SNOOZE_UNTIL_NEXT_CHANGE_DURATION_MS <=? si_expiresAt i - createdAt)) |}.

(** One round of the import loop, with the clock reading of that round. *)
Definition importOne (q : queue) (p : Z * SnoozeImport) : queue :=
  let '(now, i) := p in
  {| q with snoozed := mset (si_key i) (importEntry now i) (snoozed q);
            entries := mdel (si_agentId i) (entries q) |}.

Definition importSnoozed (es : list (Z * SnoozeImport)) (q : queue) : queue :=
  foldl importOne q es.

Definition getSnoozedUntil (now : Z) (agent : string) (q : queue) : option Z :=
  match mget (snoozeKey agent) (snoozed q) with
  | None => None
  | Some s => if se_expiresAt s <=? now then None else Some (se_expiresAt s)
  end.

(** The anomaly hidden by a snooze in force. *)
Definition hiddenAnomaly (now : Z) (agent : string) (q : queue) : option Anomaly :=
  match mget (snoozeKey agent) (snoozed q) with
  | Some s => if now <? se_expiresAt s then se_anomaly s else None
  | None => None
  end.

Definition peek (now : Z) (agent : string) (q : queue) : option Anomaly :=
  orOpt (qe_anomaly <$> mget agent (entries q)) (hiddenAnomaly now agent q).

Definition getAnomaly (now : Z) (agent : string) (q : queue) : option Anomaly :=
  orOpt (peek now agent q) (mget agent (lastRemoved q)).

Definition getActiveAnomaly (now : Z) (agent : string) (q : queue) :
    queue * option Anomaly :=
  let q := restoreExpiredSnoozes now q in
  (q, qe_anomaly <$> mget agent (entries q)).

Definition setDetectedAt (at_ : jdate) (a : Anomaly) : Anomaly :=
  {| a with detectedAt := at_ |}.

Definition backdateAnomaly (agent : string) (at_ : jdate) (q : queue) : queue * bool :=
  match mget agent (entries q) with
  | Some _ =>
      ({| q with entries :=
            mupd (λ e, {| e with qe_anomaly := setDetectedAt at_ (qe_anomaly e) |})
              agent (entries q) |}, true)
  | None => (q, false)
  end.

Definition respondAndAdvance (now : Z) (agent : string) (q : queue) :
    queue * option (string * Anomaly) :=
  let q :=
    match mget agent (entries q) with
    | Some e => notifyResolved agent (qe_anomaly e) q
    | None => q
    end in
  next now {| q with entries := mdel agent (entries q) |}.

Definition inspectActive (q : queue) : list (string * Anomaly) :=
  (λ e, (qe_agentId e, qe_anomaly e)) <$> getSorted q.

Definition getAll (now : Z) (q : queue) : queue * list (string * Anomaly) :=
  let q := restoreExpiredSnoozes now q in (q, inspectActive q).

Definition clear (q : queue) : queue :=
  {| q with entries := []; snoozed := []; lastRemoved := [] |}.

Definition getDepth (now : Z) (q : queue) : queue * nat :=
  let q := restoreExpiredSnoozes now q in (q, msize (entries q)).

(** The loop of [getOldestFindingAgeMs]; an invalid date is skipped. *)
Definition oldestDetectedAt (es : list QueueEntry) : option Z :=
  foldl (λ oldest e,
      match detectedAt (qe_anomaly e), oldest with
      | None, _ => oldest
      | Some t, None => Some t
      | Some t, Some o => if t <? o then Some t else oldest
      end) None es.

Definition getOldestFindingAgeMs (now : Z) (q : queue) : queue * Z :=
  let q := restoreExpiredSnoozes now q in
  (q, match oldestDetectedAt (mvals (entries q)) with
      | None => 0
      | Some t => max0 (now - t)
      end).

Definition getSuppressionCounts (q : queue) : Z * Z := (count_dedupe q, count_snoozed q).

Definition isAllClear (now : Z) (q : queue) : queue * bool :=
  let q := restoreExpiredSnoozes now q in (q, Nat.eqb (msize (entries q)) 0).

(** Deleting the current entry while iterating a [Map] keeps the others. *)
Definition expireDue (now : Z) (q : queue) : queue * list SnoozeEntry :=
  foldl (λ acc p,
      let '(q, out) := acc in
      if now <? se_expiresAt p.2 then (q, out)
      else ({| q with snoozed := mdel p.1 (snoozed q) |}, out ++ [p.2]))
    (q, []) (snoozed q).

End Resolver.

(** ** Runs: every public operation as a step *)

Inductive op :=
| op_enqueue (now1 now2 : Z) (agent : string) (a : Anomaly)
| op_next (now : Z)
| op_skip (agent : string)
| op_snooze (now : Z) (agent : string) (durationMs : Z) (reason : option string)
    (fallback : option Anomaly)
| op_cancelSnooze (agent restoreAgent : string)
| op_remove (agent : string)
| op_purge (agent : string)
| op_purgeTask (key : string)
| op_import (es : list (Z * SnoozeImport))
| op_backdate (agent : string) (at_ : jdate)
| op_respond (now : Z) (agent : string)
| op_clear
| op_expireDue (now : Z)
| op_addObserver (o : nat)
| op_removeObserver (o : nat).

(** [op_next] stands for every accessor that restores expired snoozes first. *)
Definition exec (taskIdFor : string → option string) (o : op) (q : queue) : queue :=
  match o with
  | op_enqueue now1 now2 agent a => enqueue taskIdFor now1 now2 agent a q
  | op_next now => (next now q).1
  | op_skip agent => skip agent q
  | op_snooze now agent d r f => (snooze taskIdFor now agent d r f q).1
  | op_cancelSnooze agent r => (cancelSnooze taskIdFor agent r q).1
  | op_remove agent => remove agent q
  | op_purge agent => purge agent q
  | op_purgeTask key => purgeTask key q
  | op_import es => importSnoozed es q
  | op_backdate agent at_ => (backdateAnomaly agent at_ q).1
  | op_respond now agent => (respondAndAdvance now agent q).1
  | op_clear => clear q
  | op_expireDue now => (expireDue now q).1
  | op_addObserver o => addObserver o q
  | op_removeObserver o => removeObserver o q
  end.

(** The states a queue goes through.  The resolver reads the task store, so it
    may change between two calls. *)
Inductive reachable : queue → Prop :=
| reachable_new m : reachable (newQueue m)
| reachable_step taskIdFor o q : reachable q → reachable (exec taskIdFor o q).

(** ** The representation invariant *)

Record wf (q : queue) : Prop := {
  wf_entries : mwf (entries q);
  wf_snoozed : mwf (snoozed q);
  wf_lastRemoved : mwf (lastRemoved q);
  wf_entry_key : Forall (λ p, qe_agentId p.2 = p.1) (entries q);
  wf_snooze_key : Forall (λ p, se_key p.2 = p.1) (snoozed q);
  wf_snooze_wake : Forall (λ p, is_Some (se_wakeOnChange p.2)) (snoozed q);
  wf_bound : Z.of_nat (msize (lastRemoved q)) <= maxLastRemoved q
}.

Lemma Forall_mupd_key {V} (P : string → V → Prop) f k (m : jmap string V) :
  (∀ v, P k v → P k (f v)) →
  Forall (λ p, P p.1 p.2) m → Forall (λ p, P p.1 p.2) (mupd f k m).
Proof.
  intros Hf. induction 1 as [|[k' v'] m Hp Hm IH]; simpl; [constructor|].
  case_decide; simplify_eq; constructor; simpl in *; auto.
Qed.

Lemma evictOldest_suffix max m : ∃ m0, m = m0 ++ evictOldest max m.
Proof.
  induction m as [|p m [m0 IH]]; [by exists []|]. cbn [evictOldest].
  case_match; [exists (p :: m0); simpl; by f_equal | by exists []].
Qed.

Lemma evictOldest_size max m :
  0 ≤ max → Z.of_nat (msize (evictOldest max m)) ≤ max.
Proof.
  intros. induction m as [|p m IH]; [done|]. cbn [evictOldest]. case_match; zbool; lia.
Qed.

Lemma mwf_evictOldest max m : mwf m → mwf (evictOldest max m).
Proof.
  destruct (evictOldest_suffix max m) as [m0 Heq]. rewrite Heq at 1.
  unfold mwf, mkeys. rewrite fmap_app, NoDup_app. naive_solver.
Qed.

(** Steps that only touch the observers or the counters keep it. *)
Lemma wf_same q q' :
  entries q' = entries q → snoozed q' = snoozed q → lastRemoved q' = lastRemoved q →
  maxLastRemoved q' = maxLastRemoved q → wf q → wf q'.
Proof. intros H1 H2 H3 H4 []. split; congruence. Qed.

Lemma wf_entries_mset q agent a sk :
  wf q → wf {| q with entries := mset agent (mkEntry agent a sk) (entries q) |}.
Proof. intros []; split; simpl; auto using Forall_mset with kookr. Qed.

Lemma wf_entries_mupd q agent f :
  (∀ e, qe_agentId (f e) = qe_agentId e) →
  wf q → wf {| q with entries := mupd f agent (entries q) |}.
Proof.
  intros Hf []; split; simpl; auto with kookr.
  apply (Forall_mupd_key (λ k e, qe_agentId e = k)); [|done]. intros; by rewrite Hf.
Qed.

Lemma wf_entries_mdel q agent :
  wf q → wf {| q with entries := mdel agent (entries q) |}.
Proof. intros []; split; simpl; auto using Forall_mdel with kookr. Qed.

Lemma wf_snoozed_mdel q k : wf q → wf {| q with snoozed := mdel k (snoozed q) |}.
Proof. intros []; split; simpl; auto using Forall_mdel with kookr. Qed.

Lemma wf_snoozed_mupd q k f :
  (∀ s, se_key (f s) = se_key s ∧ se_wakeOnChange (f s) = se_wakeOnChange s) →
  wf q → wf {| q with snoozed := mupd f k (snoozed q) |}.
Proof.
  intros Hf []; split; simpl; auto with kookr.
  - apply (Forall_mupd_key (λ k s, se_key s = k)); [|done]. intros s. by destruct (Hf s) as [-> _].
  - apply (Forall_mupd_key (λ k s, is_Some (se_wakeOnChange s))); [|done].
    intros s. by destruct (Hf s) as [_ ->].
Qed.

Lemma wf_lastRemoved_mdel q k :
  wf q → wf {| q with lastRemoved := mdel k (lastRemoved q) |}.
Proof.
  intros []; split; simpl; auto with kookr.
  pose proof (msize_mdel_le k (lastRemoved q)). lia.
Qed.

(** An anomaly leaves a snooze for the active entries. *)
Lemma wf_wake q agent a sk key :
  wf q →
  wf {| q with entries := mset agent (mkEntry agent a sk) (entries q);
               snoozed := mdel key (snoozed q) |}.
Proof. intros []; split; simpl; auto using Forall_mset, Forall_mdel with kookr. Qed.

(** A snooze takes over, and the agent's entry goes. *)
Lemma wf_hide q s key agent :
  wf q → se_key s = key → is_Some (se_wakeOnChange s) →
  wf {| q with entries := mdel agent (entries q);
               snoozed := mset key s (snoozed q) |}.
Proof. intros [] <- ?; split; simpl; auto using Forall_mset, Forall_mdel with kookr. Qed.

#[export] Hint Resolve wf_wake wf_hide wf_entries_mset wf_entries_mupd wf_entries_mdel wf_snoozed_mdel
  wf_snoozed_mupd wf_lastRemoved_mdel : kookr.

Lemma wf_notify n q : wf q → wf (notify n q).
Proof. by apply wf_same. Qed.

Lemma wf_notifySuppressed agent a r q : wf q → wf (notifySuppressed agent a r q).
Proof. intros H. unfold notifySuppressed. apply wf_notify. by destruct r; apply (wf_same q). Qed.

#[export] Hint Resolve wf_notify wf_notifySuppressed : kookr.

Lemma wf_dropExpired now key q : wf q → wf (dropExpiredForKey now key q).
Proof. intros. unfold dropExpiredForKey. repeat case_match; auto with kookr. Qed.

Lemma wf_restoreOne now q p : wf q → wf (restoreOne now q p).
Proof.
  intros. unfold restoreOne. repeat case_match; auto with kookr.
Qed.

Lemma foldl_invariant {A B} (P : A → Prop) (f : A → B → A) l a :
  (∀ a b, P a → P (f a b)) → P a → P (foldl f a l).
Proof. intros Hf. revert a. induction l; simpl; auto. Qed.

Lemma wf_restore now q : wf q → wf (restoreExpiredSnoozes now q).
Proof. apply (foldl_invariant wf). intros; by apply wf_restoreOne. Qed.

Lemma wf_enqueueActive agent a q : wf q → wf (enqueueActive agent a q).
Proof.
  intros. unfold enqueueActive, notifyAdmitted. repeat case_match; auto with kookr.
Qed.

Lemma wf_rememberRemoved agent a q : wf q → wf (rememberRemoved agent a q).
Proof.
  intros Hq. unfold rememberRemoved. case_match; [auto with kookr|]. zbool.
  destruct Hq; split; simpl; auto.
  - apply mwf_evictOldest. auto with kookr.
  - apply evictOldest_size. lia.
Qed.

#[export] Hint Resolve wf_dropExpired wf_restore wf_enqueueActive wf_rememberRemoved : kookr.

Lemma wf_enqueue tf now1 now2 agent a q : wf q → wf (enqueue tf now1 now2 agent a q).
Proof.
  intros Hq. unfold enqueue, notifyAdmitted.
  set (q1 := dropExpiredForKey _ _ _).
  assert (wf q1) by (unfold q1; auto with kookr).
  repeat case_match; auto with kookr.
Qed.

Lemma wf_importOne p q : wf q → wf (importOne q p).
Proof.
  intros. destruct p as [now i]. by apply wf_hide.
Qed.

Lemma wf_expireDue now q : wf q → wf (expireDue now q).1.
Proof.
  intros Hq. unfold expireDue. generalize (snoozed q) at 1 as l.
  assert (∀ l acc, wf acc.1 →
    wf (foldl (λ acc p, let '(q, out) := acc in
      if now <? se_expiresAt p.2 then (q, out)
      else ({| q with snoozed := mdel p.1 (snoozed q) |}, out ++ [p.2])) acc l).1) as HH;
    [|intros l; by apply HH].
  intros l acc. apply (foldl_invariant (λ acc, wf acc.1)).
  intros [q' out] p ?. case_match; simpl in *; auto with kookr.
Qed.

Lemma wf_exec tf o q : wf q → wf (exec tf o q).
Proof.
  intros Hq. destruct o; simpl.
  - by apply wf_enqueue.
  - auto with kookr.
  - unfold skip. auto with kookr.
  - unfold snooze. case_match; [done|]; simpl.
    apply (wf_lastRemoved_mdel {| q with entries := mdel agent (entries q);
                                         snoozed := mset (snoozeKey tf agent) _ (snoozed q) |}).
    by apply wf_hide.
  - unfold cancelSnooze. repeat case_match; simpl; auto with kookr.
  - unfold remove, notifyResolved. case_match; auto with kookr.
  - unfold purge. by apply (wf_lastRemoved_mdel {| q with entries := mdel agent (entries q) |}),
      wf_entries_mdel.
  - unfold purgeTask. auto with kookr.
  - apply (foldl_invariant wf); [|done]. intros; by apply wf_importOne.
  - unfold backdateAnomaly. case_match; simpl; auto with kookr.
  - unfold respondAndAdvance, next, notifyResolved. simpl. apply wf_restore.
    case_match; auto with kookr.
  - destruct Hq; split; simpl; auto with kookr; try done. unfold msize in *; simpl; lia.
  - by apply wf_expireDue.
  - by apply (wf_same q).
  - by apply (wf_same q).
Qed.

(** Whatever sequence of operations is run, under whatever task resolver at
    each call, the queue's three maps stay dictionaries, every active entry is
    filed under its own agent, every snooze under its own key, and the memory of
    resolved findings never exceeds its bound. *)
Theorem reachable_wf q : reachable q → wf q.
Proof.
  induction 1 as [m|tf o q _ IH]; [|by apply wf_exec].
  split; simpl; auto with kookr; try done. unfold msize; simpl. apply max0_nonneg.
Qed.

Definition sampleFinding (agent : string) (sev : AnomalySeverity) (text : string) : Anomaly :=
  basicAnomaly agent needs_input sev text (Some 5).

Lemma reachable_wf_witness :
  wf (exec (λ _, None) (op_remove "a")
       (exec (λ _, None) (op_enqueue 0 0 "a" (sampleFinding "a" info "x")) (newQueue (Some 1)))).
Proof.
  apply reachable_wf. apply reachable_step, reachable_step, reachable_new.
Defined.

(** ** Ordering *)

(** What the queue promises: unskipped before skipped, then by severity. *)
Definition rank (e : QueueEntry) : Z :=
  (if qe_skipped e then 3 else 0) + SEVERITY_ORDER (severity (qe_anomaly e)).

Lemma entryCmp_rank a b :
  (entryCmp a b ≤ 0 ↔ rank a ≤ rank b) ∧ (0 < entryCmp a b ↔ rank b < rank a).
Proof.
  unfold entryCmp, rank.
  destruct (qe_skipped a), (qe_skipped b), (severity (qe_anomaly a)),
    (severity (qe_anomaly b)); simpl; lia.
Qed.

#[export] Instance entryCmp_order : CmpOrder entryCmp.
Proof.
  split; intros.
  - destruct (entryCmp_rank x y), (entryCmp_rank y x). lia.
  - destruct (entryCmp_rank x y), (entryCmp_rank y z), (entryCmp_rank x z). lia.
Qed.

(** [next] restores the expired snoozes and offers the first entry, in
    arrival order, of least rank: no skipped finding is offered while an
    unskipped one waits, and none of lesser severity before a more severe one;
    it offers nothing exactly when no active entry is left. *)
Theorem next_first now q :
  let '(q', offer) := next now q in
  q' = restoreExpiredSnoozes now q ∧
  match offer with
  | None => entries q' = []
  | Some (agent, a) =>
      ∃ before e after,
        mvals (entries q') = before ++ e :: after ∧
        qe_agentId e = agent ∧ qe_anomaly e = a ∧
        (∀ x, x ∈ before → rank e < rank x) ∧ (∀ x, x ∈ after → rank e ≤ rank x)
  end.
Proof.
  unfold next. set (q' := restoreExpiredSnoozes now q).
  destruct (getSorted q') as [|e es] eqn:Hs; (split; [done|]).
  - apply sort_by_nil in Hs. by apply fmap_nil_inv in Hs.
  - destruct (sort_by_first _ _ _ _ Hs) as (b & a & Heq & Hb & Ha).
    exists b, e, a. split_and!; [done..| |].
    + intros x Hx. by apply entryCmp_rank, Hb.
    + intros x Hx. by apply entryCmp_rank, Ha.
Qed.

(** The listing of the queue is a stable sort of the active entries: the same
    entries, in order of rank, and arrival order within each rank. *)
Theorem getSorted_stable q :
  getSorted q ≡ₚ mvals (entries q) ∧
  StronglySorted (λ a b, rank a ≤ rank b) (getSorted q) ∧
  ∀ r, List.filter (λ e, rank e =? r) (getSorted q) =
       List.filter (λ e, rank e =? r) (mvals (entries q)).
Proof.
  unfold getSorted. split_and!.
  - apply sort_by_perm.
  - eapply StronglySorted_impl; [|apply sort_by_sorted, _].
    intros a b H. by apply entryCmp_rank.
  - intros r. apply sort_by_stable. intros x y Hx Hy. zbool.
    apply entryCmp_rank. lia.
Qed.

(** ** Admission *)

Lemma same_setDetected p a t :
  hasSameFingerprint p {| a with detectedAt := t |} = hasSameFingerprint p a.
Proof. by destruct p. Qed.

Lemma same_detected t a :
  hasSameFingerprint (Some {| a with detectedAt := t |}) a = true.
Proof. apply String.eqb_refl. Qed.

Lemma same_keepDetectedAt p a : hasSameFingerprint (Some (keepDetectedAt p a)) a = true.
Proof.
  unfold keepDetectedAt. destruct p; [|apply hasSameFingerprint_refl].
  case_match; [apply same_detected|apply hasSameFingerprint_refl].
Qed.

Lemma dropExpired_entries now key q : entries (dropExpiredForKey now key q) = entries q.
Proof. unfold dropExpiredForKey. by repeat case_match. Qed.

Lemma dropExpired_other now key q k :
  k ≠ key → mget k (snoozed (dropExpiredForKey now key q)) = mget k (snoozed q).
Proof. intros. unfold dropExpiredForKey. repeat case_match; simpl; simp_map; done. Qed.

Lemma dropExpired_live now key q s :
  mget key (snoozed q) = Some s → now < se_expiresAt s → dropExpiredForKey now key q = q.
Proof.
  intros H ?. unfold dropExpiredForKey. rewrite H.
  by destruct (Z.ltb_spec now (se_expiresAt s)); [|lia].
Qed.

Lemma notify_entries n q : entries (notify n q) = entries q.
Proof. done. Qed.

Lemma enqueueActive_entry agent a q :
  ∃ e, mget agent (entries (enqueueActive agent a q)) = Some e ∧
    hasSameFingerprint (Some (qe_anomaly e)) a = true.
Proof.
  unfold enqueueActive. repeat case_match; simpl; rewrite ?mget_mset_eq.
  - rewrite mget_mupd, decide_True by done. rewrite H. simpl.
    eexists; split; [done|]. apply same_detected.
  - eexists; split; [done|]. apply hasSameFingerprint_refl.
  - eexists; split; [done|]. apply hasSameFingerprint_refl.
Qed.

Lemma enqueueActive_frame agent a q :
  snoozed (enqueueActive agent a q) = snoozed q ∧
  ∀ k, k ≠ agent → mget k (entries (enqueueActive agent a q)) = mget k (entries q).
Proof.
  unfold enqueueActive. repeat case_match; (split; [done|]); intros; simpl; by simp_map.
Qed.

(** [enqueue] never loses a finding and disturbs no other: afterwards the
    agent has an active entry with this fingerprint, or a snooze still in force
    hides an anomaly with this fingerprint; the entries of the other agents and
    the snoozes under other keys are as before. *)
Theorem enqueue_not_lost tf now1 now2 agent a q :
  let q' := enqueue tf now1 now2 agent a q in
  let key := snoozeKey tf agent in
  ((∃ e, mget agent (entries q') = Some e ∧
         hasSameFingerprint (Some (qe_anomaly e)) a = true) ∨
   (∃ s, mget key (snoozed q') = Some s ∧ now2 < se_expiresAt s ∧
         hasSameFingerprint (se_anomaly s) a = true)) ∧
  (∀ k, k ≠ agent → mget k (entries q') = mget k (entries q)) ∧
  (∀ k, k ≠ key → mget k (snoozed q') = mget k (snoozed q)).
Proof.
  simpl. unfold enqueue. set (q0 := {| q with lastRemoved := _ |}).
  set (key := snoozeKey tf agent). set (q1 := dropExpiredForKey now1 key q0).
  assert (entries q1 = entries q) as He by exact (dropExpired_entries now1 key q0).
  assert (∀ k, k ≠ key → mget k (snoozed q1) = mget k (snoozed q)) as Hs
    by (intros; by apply (dropExpired_other _ _ q0)).
  pose proof (enqueueActive_entry agent a q1) as Hact.
  destruct (enqueueActive_frame agent a q1) as [Hf1 Hf2].
  assert (∀ k, k ≠ agent → mget k (entries (enqueueActive agent a q1)) = mget k (entries q))
    by (intros; by rewrite Hf2, He).
  assert (∀ k, k ≠ key → mget k (snoozed (enqueueActive agent a q1)) = mget k (snoozed q))
    by (intros; rewrite Hf1; auto).
  destruct (mget key (snoozed q1)) as [s|] eqn:Hk; [|by split_and!; [left| |]].
  destruct (now2 <? se_expiresAt s) eqn:Hx; [|by split_and!; [left| |]]. zbool.
  destruct (shouldWakeSnooze s a); simpl.
  - split_and!; [left|intros; by rewrite mget_mset_ne, He|intros; rewrite mget_mdel_ne; auto].
    rewrite mget_mset_eq. eexists; split; [done|]. apply hasSameFingerprint_refl.
  - split_and!; [right|intros; by rewrite He|intros; rewrite mget_mupd_ne; auto].
    rewrite mget_mupd, decide_True, Hk by done. simpl.
    eexists; split_and!; [done|done|]. simpl. apply same_keepDetectedAt.
Qed.

(** While a snooze is in force and the new finding does not wake it, the
    active entries are untouched, no finding is announced as admitted, the
    suppression is counted and reported, and the hidden anomaly is replaced; the
    same finding keeps the time it was first detected. *)
Theorem enqueue_hidden tf now1 now2 agent a q s :
  mget (snoozeKey tf agent) (snoozed q) = Some s →
  now1 <= now2 → now2 < se_expiresAt s → shouldWakeSnooze s a = false →
  let q' := enqueue tf now1 now2 agent a q in
  ∃ h, hasSameFingerprint (Some h) a = true ∧
    detectedAt h = (if se_anomaly s is Some p then
                      if hasSameFingerprint (Some p) a then detectedAt p else detectedAt a
                    else detectedAt a) ∧
    entries q' = entries q ∧
    mget (snoozeKey tf agent) (snoozed q') = Some {| s with se_anomaly := Some h |} ∧
    count_snoozed q' = count_snoozed q + 1 ∧ count_dedupe q' = count_dedupe q ∧
    emitted q' = emitted q ++
      ((λ o, (o, suppressed agent h (anomalyFingerprint a) queue_snoozed)) <$> observers q).
Proof.
  intros Hs H12 H2 Hw. simpl. unfold enqueue.
  rewrite (dropExpired_live _ _ _ s) by first [exact Hs|lia]. cbn [snoozed]. rewrite Hs.
  destruct (Z.ltb_spec now2 (se_expiresAt s)) as [_|]; [|lia]. rewrite Hw. simpl.
  exists (keepDetectedAt (se_anomaly s) a). split_and!.
  - apply same_keepDetectedAt.
  - unfold keepDetectedAt, hasSameFingerprint.
    destruct (se_anomaly s); [by destruct (String.eqb _ _)|done].
  - done.
  - by rewrite mget_mupd, decide_True, Hs.
  - done.
  - done.
  - replace (anomalyFingerprint (keepDetectedAt (se_anomaly s) a))
      with (anomalyFingerprint a); [done|].
    symmetry. by apply String.eqb_eq, same_keepDetectedAt.
Qed.

Definition sampleSnooze (agent : string) (a : option Anomaly) (till : Z) : SnoozeEntry :=
  mkSnooze agent agent kind_finding a till 0 None None (Some false).

Lemma enqueue_hidden_witness :
  let f := sampleFinding "a" warning "x" in
  let q0 := newQueue None in
  let q := {| q0 with snoozed := [("a", sampleSnooze "a" (Some f) 100)] |} in
  entries (enqueue (λ _, None) 1 2 "a" f q) = [].
Proof.
  intros f q0 q.
  destruct (enqueue_hidden (λ _, None) 1 2 "a" f q (sampleSnooze "a" (Some f) 100))
    as (h & _ & _ & H & _); [reflexivity|lia|reflexivity|reflexivity|exact H].
Defined.

Lemma dropExpired_rest now key q :
  entries (dropExpiredForKey now key q) = entries q ∧
  emitted (dropExpiredForKey now key q) = emitted q ∧
  count_dedupe (dropExpiredForKey now key q) = count_dedupe q ∧
  count_snoozed (dropExpiredForKey now key q) = count_snoozed q.
Proof. unfold dropExpiredForKey. by repeat case_match. Qed.

(** With no snooze in force, [enqueue] is its tail. *)
Lemma enqueue_unsnoozed tf now1 now2 agent a q :
  (∀ s, mget (snoozeKey tf agent) (snoozed q) = Some s → se_expiresAt s <= now2) →
  enqueue tf now1 now2 agent a q =
    enqueueActive agent a (dropExpiredForKey now1 (snoozeKey tf agent)
      {| q with lastRemoved := mdel agent (lastRemoved q) |}).
Proof.
  intros Hs. unfold enqueue. set (q0 := {| q with lastRemoved := _ |}).
  destruct (mget _ (snoozed (dropExpiredForKey _ _ _))) as [s|] eqn:Hk; [|done].
  destruct (Z.ltb_spec now2 (se_expiresAt s)) as [Hlt|]; [|done].
  enough (se_expiresAt s <= now2) by lia. apply Hs.
  revert Hk. unfold dropExpiredForKey. repeat case_match; simpl; [done| |done].
  by rewrite mget_mdel_eq.
Qed.

Lemma enqueueActive_same agent a q e :
  mget agent (entries q) = Some e → hasSameFingerprint (Some (qe_anomaly e)) a = true →
  enqueueActive agent a q =
    let a' := setDetectedAt (detectedAt (qe_anomaly e)) a in
    notifySuppressed agent a' queue_dedupe
      {| q with entries := mupd (λ e, {| e with qe_anomaly := a' |}) agent (entries q) |}.
Proof. intros He Hf. unfold enqueueActive. by rewrite He, Hf. Qed.

(** Raising the same finding again, with no snooze in force, announces
    nothing: the entry keeps its place in the queue, its skip mark and the time
    of first detection, and only the suppression counter moves. *)
Theorem enqueue_dedupe tf now1 now2 agent a q e :
  (∀ s, mget (snoozeKey tf agent) (snoozed q) = Some s → se_expiresAt s <= now2) →
  mget agent (entries q) = Some e → hasSameFingerprint (Some (qe_anomaly e)) a = true →
  let q' := enqueue tf now1 now2 agent a q in
  mkeys (entries q') = mkeys (entries q) ∧
  mget agent (entries q') =
    Some {| e with qe_anomaly := setDetectedAt (detectedAt (qe_anomaly e)) a |} ∧
  count_dedupe q' = count_dedupe q + 1 ∧ count_snoozed q' = count_snoozed q ∧
  ∀ o n, (o, n) ∈ emitted q' → (o, n) ∉ emitted q →
    n = suppressed agent (setDetectedAt (detectedAt (qe_anomaly e)) a)
          (anomalyFingerprint a) queue_dedupe.
Proof.
  intros Hs He Hfp. rewrite enqueue_unsnoozed by done. cbv zeta.
  set (q0 := {| q with lastRemoved := _ |}). set (key := snoozeKey tf agent).
  destruct (dropExpired_rest now1 key q0) as (E1 & E2 & E3 & E4).
  rewrite (enqueueActive_same agent a _ e) by (rewrite ?E1; done). simpl.
  rewrite E1, E2, E3, E4, mkeys_mupd, mget_mupd, decide_True by done. simpl.
  rewrite He. split_and!; [done..|].
  intros o n Hin Hn. apply elem_of_app in Hin as [?|Hin]; [done|].
  by apply list_elem_of_fmap in Hin as (? & [= -> ->] & _).
Qed.

Lemma enqueue_dedupe_witness :
  let f := sampleFinding "a" warning "x" in
  let q0 := newQueue None in
  let q := {| q0 with entries := [("a", mkEntry "a" f true)] |} in
  count_dedupe (enqueue (λ _, None) 1 2 "a" (setDetectedAt (Some 9) f) q) = 1.
Proof.
  intros f q0 q.
  destruct (enqueue_dedupe (λ _, None) 1 2 "a" (setDetectedAt (Some 9) f) q (mkEntry "a" f true))
    as (_ & _ & H & _); [intros s Hs; discriminate Hs|reflexivity|reflexivity|exact H].
Defined.

(** ** Snoozing *)

(** What a persisted snooze is read back as. *)
Definition toImport (s : SnoozeEntry) : SnoozeImport :=
  mkSnoozeImport (se_agentId s) (se_key s) (Some (se_kind s)) (se_anomaly s)
    (se_expiresAt s) (Some (se_createdAt s)) (se_expiredPendingRestore s)
    (se_reason s) (se_wakeOnChange s).

Lemma importEntry_toImport now s :
  is_Some (se_wakeOnChange s) → importEntry now (toImport s) = s.
Proof. destruct s; simpl. by intros [? ->]. Qed.

Lemma importSnoozed_snoozed es q :
  snoozed (importSnoozed es q) =
    mimport ((λ p, (si_key p.2, importEntry p.1 p.2)) <$> es) (snoozed q).
Proof.
  unfold importSnoozed, mimport. revert q.
  induction es as [|[now i] es IH]; intros q; csimpl; [done|]. by rewrite IH.
Qed.

(** Saving the snoozes of a queue that has run and importing them into a new
    one restores every snooze, in order and under its own key, whatever the
    clock reads during the import. *)
Theorem snapshot_roundtrip q m now :
  reachable q →
  snoozed (importSnoozed ((λ s, (now s, toImport s)) <$> getSnoozed q) (newQueue m))
    = snoozed q.
Proof.
  intros Hr%reachable_wf. destruct Hr. rewrite importSnoozed_snoozed. simpl.
  transitivity (mimport (snoozed q) []); [|by apply mimport_roundtrip]. f_equal.
  unfold getSnoozed, mvals. rewrite <- !list_fmap_compose.
  revert wf_snooze_key0 wf_snooze_wake0. clear.
  induction (snoozed q) as [|[k s] l IH]; csimpl; [done|].
  rewrite !Forall_cons. intros [Hk ?] [Hw ?]. rewrite IH by done.
  rewrite importEntry_toImport by done. by simpl in Hk; subst.
Qed.

Lemma snapshot_roundtrip_witness :
  let q := exec (λ _, Some "t") (op_snooze 3 "a" 10 None None) (newQueue None) in
  snoozed (importSnoozed ((λ s, (0, toImport s)) <$> getSnoozed q) (newQueue None)) = snoozed q.
Proof.
  apply (snapshot_roundtrip _ None (λ _, 0)). apply reachable_step, reachable_new.
Defined.

(** The body of the loop of [expireDue], over any list of snoozes. *)
Definition expireStep (now : Z) (acc : queue * list SnoozeEntry)
    (p : string * SnoozeEntry) : queue * list SnoozeEntry :=
  let '(q, out) := acc in
  if now <? se_expiresAt p.2 then (q, out)
  else ({| q with snoozed := mdel p.1 (snoozed q) |}, out ++ [p.2]).

Lemma expireLoop_out now l q out :
  (foldl (expireStep now) (q, out) l).2 =
    out ++ (List.filter (λ p, negb (now <? se_expiresAt p.2)) l).*2.
Proof.
  revert q out. induction l as [|p l IH]; intros q out; csimpl; [by rewrite app_nil_r|].
  destruct (now <? se_expiresAt p.2); simpl; rewrite IH; [done|]. by rewrite <- app_assoc.
Qed.

Lemma expireLoop_get now l q out k :
  mget k (snoozed (foldl (expireStep now) (q, out) l).1) =
    if bool_decide (k ∈ (List.filter (λ p, negb (now <? se_expiresAt p.2)) l).*1)
    then None else mget k (snoozed q).
Proof.
  revert q out. induction l as [|p l IH]; intros q out; csimpl; [done|].
  destruct (now <? se_expiresAt p.2) eqn:E; simpl; rewrite IH; [done|]. simpl.
  rewrite mget_mdel. destruct (decide (k = p.1)) as [->|Hne].
  - by rewrite (bool_decide_true (p.1 ∈ p.1 :: _)) by left; case_match.
  - repeat case_bool_decide; try done; set_solver.
Qed.

Lemma expireLoop_rest now l q out :
  entries (foldl (expireStep now) (q, out) l).1 = entries q.
Proof.
  revert q out. induction l as [|p l IH]; intros q out; csimpl; [done|].
  destruct (now <? se_expiresAt p.2); simpl; by rewrite IH.
Qed.

(** [expireDue] hands over exactly the snoozes whose time has come, in the
    order they were made, keeps exactly the others, and leaves the active
    entries to the caller. *)
Theorem expireDue_split now q :
  reachable q →
  let '(q', expired) := expireDue now q in
  expired = List.filter (λ s, se_expiresAt s <=? now) (getSnoozed q) ∧
  entries q' = entries q ∧
  ∀ key, mget key (snoozed q') =
    match mget key (snoozed q) with
    | Some s => if se_expiresAt s <=? now then None else Some s
    | None => None
    end.
Proof.
  intros Hr%reachable_wf.
  change (expireDue now q) with (foldl (expireStep now) (q, []) (snoozed q)).
  pose proof (expireLoop_out now (snoozed q) q []) as H1.
  pose proof (expireLoop_rest now (snoozed q) q []) as H2.
  pose proof (expireLoop_get now (snoozed q) q []) as H3.
  destruct (foldl _ _ _) as [q' out]; simpl in *. split_and!; [|done|].
  - rewrite H1. clear. unfold getSnoozed, mvals.
    induction (snoozed q) as [|[k s] l IH]; csimpl; [done|].
    rewrite Z.ltb_antisym, negb_involutive. case_match; csimpl; by rewrite IH.
  - intros key. rewrite H3. destruct (mget key (snoozed q)) as [s|] eqn:Hk.
    + case_bool_decide as Hin; [|destruct (Z.leb_spec (se_expiresAt s) now) as [Hle|]; [|done]].
      * apply list_elem_of_fmap in Hin as ([k s'] & -> & Hin).
        rewrite list_elem_of_In, filter_In, <- list_elem_of_In in Hin.
        destruct Hin as [Hin Hx]. apply elem_of_mget in Hin; [|apply Hr].
        simpl in *. simplify_eq. zbool. by rewrite (proj2 (Z.leb_le _ _)).
      * exfalso. apply Hin, list_elem_of_fmap. exists (key, s). split; [done|].
        rewrite list_elem_of_In, filter_In, <- list_elem_of_In.
        split; [by apply mget_elem_of|]. simpl. apply negb_true_iff, Z.ltb_ge. lia.
    + by case_bool_decide.
Qed.

Lemma expireDue_split_witness :
  let q := exec (λ _, Some "t") (op_snooze 3 "a" 10 None None) (newQueue None) in
  (expireDue 13 q).2 = List.filter (λ s, se_expiresAt s <=? 13) (getSnoozed q).
Proof.
  intros q. pose proof (expireDue_split 13 q) as H.
  destruct (expireDue 13 q). apply H. apply reachable_step, reachable_new.
Defined.

(** Snoozing a finding and cancelling the snooze puts the finding back,
    under the agent it is restored for and no longer skipped, leaves no snooze
    under the key, and leaves the entries of all other agents alone. *)
Theorem snooze_cancel tf now agent d reason q e :
  mget agent (entries q) = Some e →
  let '(q1, stored) := snooze tf now agent d reason None q in
  let '(q2, ok) := cancelSnooze tf agent agent q1 in
  is_Some stored ∧ mget agent (entries q1) = None ∧ ok = true ∧
  qe_skipped <$> mget agent (entries q2) = Some false ∧
  (anomalyFingerprint ∘ qe_anomaly) <$> mget agent (entries q2) =
    Some (anomalyFingerprint (qe_anomaly e)) ∧
  mget (snoozeKey tf agent) (snoozed q2) = None ∧
  ∀ k, k ≠ agent → mget k (entries q2) = mget k (entries q).
Proof.
  intros He. unfold snooze, cancelSnooze. rewrite He. simpl.
  rewrite mget_mset_eq. simpl. rewrite mget_mdel_eq, mget_mset_eq, mget_mdel_eq.
  split_and!; [by eexists|done..|]. intros k Hk. by rewrite mget_mset_ne, mget_mdel_ne.
Qed.

Lemma snooze_cancel_witness :
  let f := sampleFinding "a" warning "x" in
  let q0 := newQueue None in
  let q := {| q0 with entries := [("a", mkEntry "a" f true)] |} in
  (cancelSnooze (λ _, None) "a" "a" (snooze (λ _, None) 1 "a" 5 None None q).1).2 = true.
Proof.
  intros f q0 q.
  pose proof (snooze_cancel (λ _, None) 1 "a" 5 None q (mkEntry "a" f true) eq_refl) as H.
  vm_compute in H. apply H.
Defined.

(** ** Exclusivity *)

(** The operations of a queue without a task resolver, run between two readings
    [t <= t'] of a clock that does not go back; a cancelled snooze is restored
    under its own agent, and imported snoozes are filed under their agents. *)
Inductive timed (t t' : Z) : op → Prop :=
| timed_enqueue now1 now2 ag a :
    t ≤ now1 → now1 ≤ now2 → now2 ≤ t' → timed t t' (op_enqueue now1 now2 ag a)
| timed_next now : t ≤ now → now ≤ t' → timed t t' (op_next now)
| timed_skip ag : timed t t' (op_skip ag)
| timed_snooze now ag d r f : t ≤ now → now ≤ t' → timed t t' (op_snooze now ag d r f)
| timed_cancel ag : timed t t' (op_cancelSnooze ag ag)
| timed_remove ag : timed t t' (op_remove ag)
| timed_purge ag : timed t t' (op_purge ag)
| timed_purgeTask k : timed t t' (op_purgeTask k)
| timed_import es :
    Forall (λ p : Z * SnoozeImport, si_key p.2 = si_agentId p.2) es → timed t t' (op_import es)
| timed_backdate ag at_ : timed t t' (op_backdate ag at_)
| timed_respond now ag : t ≤ now → now ≤ t' → timed t t' (op_respond now ag)
| timed_clear : timed t t' op_clear
| timed_expireDue now : timed t t' (op_expireDue now)
| timed_addObserver o : timed t t' (op_addObserver o)
| timed_removeObserver o : timed t t' (op_removeObserver o).

Inductive solo : Z → queue → Prop :=
| solo_new m t : solo t (newQueue m)
| solo_step o t t' q : t ≤ t' → timed t t' o → solo t q → solo t' (exec (λ _, None) o q).

(** No agent is active while a snooze of its own is in force. *)
Definition selfKeyed (p : string * SnoozeEntry) : Prop :=
  se_agentId p.2 = p.1 ∧ se_key p.2 = p.1.

Definition exclusiveAt (t : Z) (q : queue) : Prop :=
  Forall selfKeyed (snoozed q) ∧
  ∀ ag s, mget ag (snoozed q) = Some s → t < se_expiresAt s → mget ag (entries q) = None.

Lemma exclusive_later t t' q : t ≤ t' → exclusiveAt t q → exclusiveAt t' q.
Proof. intros ? [H1 H2]; split; [done|]. intros ag s Hs ?. apply (H2 ag s Hs). lia. Qed.

(** A step that adds no entry and no snooze. *)
Lemma exclusive_less t q q' :
  (∀ p, p ∈ snoozed q' → p ∈ snoozed q) →
  (∀ ag s, mget ag (snoozed q') = Some s → mget ag (snoozed q) = Some s) →
  (∀ ag, mget ag (entries q) = None → mget ag (entries q') = None) →
  exclusiveAt t q → exclusiveAt t q'.
Proof.
  intros Hp Hs He [H1 H2]. rewrite Forall_forall in H1.
  split; [apply Forall_forall; auto|]. intros ag s Hg ?. eauto.
Qed.

Lemma exclusive_mdel_snooze t q key ents :
  (∀ ag, ag ≠ key → mget ag (entries q) = None → mget ag ents = None) →
  exclusiveAt t q → exclusiveAt t {| q with snoozed := mdel key (snoozed q); entries := ents |}.
Proof.
  intros He [H1 H2]. split; simpl; [by apply Forall_mdel|].
  intros ag s. rewrite mget_mdel. case_decide; [done|]. intros ??. apply He; eauto.
Qed.

Lemma exclusive_hide t q key s ents :
  se_agentId s = key → se_key s = key → mget key ents = None →
  (∀ ag, mget ag (entries q) = None → mget ag ents = None) →
  exclusiveAt t q → exclusiveAt t {| q with snoozed := mset key s (snoozed q); entries := ents |}.
Proof.
  intros Hk Hk' Hn He [H1 H2]. split; simpl; [by apply Forall_mset|].
  intros ag s'. rewrite mget_mset. case_decide as Hag; [by subst|]. eauto.
Qed.

(** Setting an entry is safe when the agent's snooze, if any, is over. *)
Lemma exclusive_admit t q ag ents :
  (∀ s, mget ag (snoozed q) = Some s → se_expiresAt s <= t) →
  (∀ ag', ag' ≠ ag → mget ag' (entries q) = None → mget ag' ents = None) →
  exclusiveAt t q → exclusiveAt t {| q with entries := ents |}.
Proof.
  intros Hs He [H1 H2]. split; [done|]. simpl. intros ag' s Hg Hlt.
  destruct (decide (ag' = ag)) as [->|Hne]; [specialize (Hs s Hg); lia|eauto].
Qed.

Lemma mset_keeps_none {V} (k k' : string) (v : V) m :
  k' ≠ k → mget k' m = None → mget k' (mset k v m) = None.
Proof. intros. by rewrite mget_mset_ne. Qed.

Lemma mdel_keeps_none {V} (k k' : string) (m : jmap string V) :
  mget k' m = None → mget k' (mdel k m) = None.
Proof. intros. rewrite mget_mdel. by case_decide. Qed.

Lemma mupd_keeps_none {V} (k k' : string) f (m : jmap string V) :
  mget k' m = None → mget k' (mupd f k m) = None.
Proof. intros H. rewrite mget_mupd, H. by case_decide. Qed.

#[local] Hint Resolve mset_keeps_none mdel_keeps_none mupd_keeps_none : core.

Lemma exclusive_restore now t q :
  now ≤ t → exclusiveAt t q → exclusiveAt t (restoreExpiredSnoozes now q).
Proof.
  intros Hnow Hq. unfold restoreExpiredSnoozes.
  assert (Forall selfKeyed (snoozed q)) as Hl by apply Hq.
  revert Hl Hq. generalize (snoozed q) at 1 2 as l. intros l Hl. revert q.
  induction Hl as [|[k s] l Hk Hl IH]; intros q Hq; simpl; [done|]. apply IH.
  destruct Hk as [Hk _]. simpl in Hk. subst k. unfold restoreOne. repeat case_match; [done| |done|].
  - apply (exclusive_mdel_snooze t q (se_agentId s)); auto.
  - apply (exclusive_mdel_snooze t q (se_agentId s) (entries q)); auto.
Qed.

Lemma exclusive_enqueueActive t ag a q :
  (∀ s, mget ag (snoozed q) = Some s → se_expiresAt s <= t) →
  exclusiveAt t q → exclusiveAt t (enqueueActive ag a q).
Proof.
  intros. unfold enqueueActive, notifySuppressed, notifyAdmitted, notify.
  repeat case_match; eapply (exclusive_admit t q ag); eauto.
Qed.

Lemma exclusive_drop now t key q :
  exclusiveAt t q → exclusiveAt t (dropExpiredForKey now key q).
Proof.
  intros. unfold dropExpiredForKey. repeat case_match; try done.
  apply (exclusive_mdel_snooze t q key (entries q)); auto.
Qed.

Lemma exclusive_enqueue now1 now2 t ag a q :
  now2 ≤ t → exclusiveAt t q → exclusiveAt t (enqueue (λ _, None) now1 now2 ag a q).
Proof.
  intros Hnow Hq. unfold enqueue, snoozeKey. simpl.
  set (q1 := dropExpiredForKey now1 ag _).
  assert (exclusiveAt t q1) as Hq1 by (apply exclusive_drop; exact Hq).
  destruct (mget ag (snoozed q1)) as [s|] eqn:Hs;
    [|apply exclusive_enqueueActive; [by intros s; rewrite Hs|done]].
  destruct (now2 <? se_expiresAt s) eqn:Hx; zbool.
  - destruct (shouldWakeSnooze s a).
    + by apply (exclusive_mdel_snooze t q1 ag); auto.
    + destruct Hq1 as [H1 H2]. split; simpl.
      * by apply (Forall_mupd_key (λ k s, selfKeyed (k, s))); [|eapply Forall_impl; [exact H1|]; intros [??]].
      * intros ag' s'. rewrite mget_mupd. case_decide as Hag; [|eauto]. subst ag'.
        rewrite Hs. simpl. intros [= <-]. simpl. by apply H2.
  - apply exclusive_enqueueActive; [|done]. intros s'. rewrite Hs. intros [= <-]. lia.
Qed.

Lemma exclusive_import t es q :
  Forall (λ p : Z * SnoozeImport, si_key p.2 = si_agentId p.2) es →
  exclusiveAt t q → exclusiveAt t (importSnoozed es q).
Proof.
  unfold importSnoozed. intros Hes. revert q.
  induction Hes as [|[now i] es Hi _ IH]; intros q Hq; simpl; [done|]. apply IH.
  simpl in Hi. apply (exclusive_hide t q); simpl; auto. by rewrite Hi, mget_mdel_eq.
Qed.

Lemma exclusive_expireDue now t q : exclusiveAt t q → exclusiveAt t (expireDue now q).1.
Proof.
  intros. change (expireDue now q) with (foldl (expireStep now) (q, []) (snoozed q)).
  apply (foldl_invariant (λ acc, exclusiveAt t acc.1)); [|done].
  intros [q' out] p ?. simpl. case_match; [done|]. simpl.
  apply (exclusive_mdel_snooze t q' p.1 (entries q')); auto.
Qed.

Lemma exclusive_cancel t ag q :
  exclusiveAt t q → exclusiveAt t (cancelSnooze (λ _, None) ag ag q).1.
Proof.
  intros Hq. unfold cancelSnooze, snoozeKey. simpl.
  destruct (mget ag (snoozed q)) as [s|] eqn:Hs; [|done].
  assert (se_key s = ag) as ->.
  { destruct Hq as [H1 _]. rewrite Forall_forall in H1.
    apply (H1 (ag, s)), mget_elem_of, Hs. }
  case_match; simpl.
  - apply (exclusive_mdel_snooze t q ag); auto.
  - apply (exclusive_mdel_snooze t q ag (entries q)); auto.
Qed.

Lemma exclusive_exec o t t' q :
  t ≤ t' → timed t t' o → exclusiveAt t' q → exclusiveAt t' (exec (λ _, None) o q).
Proof.
  intros Ht Ho Hq. destruct Ho; simpl; try exact Hq.
  - by apply exclusive_enqueue.
  - by apply exclusive_restore.
  - apply (exclusive_less t' q); simpl; auto.
  - unfold snooze, snoozeKey. case_match; [done|]. simpl.
    apply (exclusive_hide t' q); simpl; auto. apply mget_mdel_eq.
  - by apply exclusive_cancel.
  - unfold remove, rememberRemoved. apply (exclusive_less t' q); simpl; auto;
      repeat case_match; simpl; auto.
  - apply (exclusive_less t' q); simpl; auto.
  - apply (exclusive_mdel_snooze t' q _ (entries q)); auto.
  - by apply exclusive_import.
  - unfold backdateAnomaly. case_match; [|done]. apply (exclusive_less t' q); simpl; auto.
  - apply exclusive_restore; [done|]. apply (exclusive_less t' q); simpl; auto;
      case_match; simpl; auto.
  - split; [constructor|done].
  - by apply exclusive_expireDue.
Qed.

(** In a queue without a task resolver, under a clock that does not go back,
    no agent is ever both in the active queue and hidden by a snooze that is
    still in force. *)
Theorem active_xor_snoozed t q ag until :
  solo t q → getSnoozedUntil (λ _, None) t ag q = Some until → mget ag (entries q) = None.
Proof.
  intros Hsolo Hu. enough (exclusiveAt t q) as [_ H].
  { unfold getSnoozedUntil, snoozeKey in Hu. simpl in Hu. repeat case_match; simplify_eq.
    zbool. by eapply H. }
  clear Hu. induction Hsolo as [m t|o t t' q Ht Ho _ IH]; [split; [constructor|done]|].
  eapply exclusive_exec; [exact Ht|exact Ho|]. by eapply exclusive_later.
Qed.

Lemma active_xor_snoozed_witness :
  let f := sampleFinding "a" warning "x" in
  let q1 := exec (λ _, None) (op_enqueue 1 1 "a" f) (newQueue None) in
  let q2 := exec (λ _, None) (op_snooze 2 "a" 50 None None) q1 in
  let q3 := exec (λ _, None) (op_enqueue 3 3 "a" f) q2 in
  mget "a" (entries q3) = None.
Proof.
  intros f q1 q2 q3. apply (active_xor_snoozed 3 q3 "a" 52); [|reflexivity].
  apply (solo_step _ 2); [lia|constructor; lia|].
  apply (solo_step _ 1); [lia|constructor; lia|].
  apply (solo_step _ 0); [lia|constructor; lia|]. constructor.
Defined.
End Queue.
