(* ===== verification/SnoozeSuppression.v ===== *)
(** * Snooze suppression and finding deduplication
    ([src/core/snooze-suppression.ts])

    [Module Suppression] models [SnoozeSuppressionTracker]: liveness findings an
    operator keeps snoozing are muted.  [Module Dedup] models
    [FindingDeduplicator]: one live record per lineage, with its audit trail.
    The snapshots the code clones are immutable values here. *)

From S2P Require Import Prelude JsMap JsString Anomalies.
Local Open Scope Z_scope.

(** [LIVENESS_ANOMALY_TYPES.has]. *)
Definition isLivenessAnomaly (t : AnomalyType) : bool :=
  match t with stale_agent | hook_disconnected => true | _ => false end.

Module Suppression.

Definition SUPPRESSION_THRESHOLD : Z := 3.

Record SuppressionState := mkState {
  consecutiveCount : Z;
  suppressed : bool;
  lastAnomalyType : AnomalyType
}.

Abbreviation tracker := (jmap string SuppressionState).

Definition isSuppressed (agent : string) (m : tracker) : bool :=
  orElse (suppressed <$> mget agent m) false.

Definition recordSnooze (agent : string) (t : AnomalyType) (m : tracker) : tracker * bool :=
  if negb (isLivenessAnomaly t) then (m, false)
  else
    let existing := mget agent m in
    let count := orElse (consecutiveCount <$> existing) 0 + 1 in
    let wasSuppressed := orElse (suppressed <$> existing) false in
    let nowSuppressed := SUPPRESSION_THRESHOLD <=? count in
    (mset agent (mkState count nowSuppressed t) m, nowSuppressed && negb wasSuppressed).

Definition recordFalsePositive (agent : string) (t : AnomalyType) (m : tracker) :
    tracker * bool :=
  if negb (isLivenessAnomaly t) then (m, false)
  else
    let wasSuppressed := orElse (suppressed <$> mget agent m) false in
    (mset agent (mkState SUPPRESSION_THRESHOLD true t) m, negb wasSuppressed).

Definition shouldSuppress (agent : string) (t : AnomalyType) (m : tracker) : bool :=
  if negb (isLivenessAnomaly t) then false else orElse (suppressed <$> mget agent m) false.

Definition reset (agent : string) (m : tracker) : tracker := mdel agent m.

Definition getSuppressedAgents (m : tracker) : list string :=
  (List.filter (λ p, suppressed p.2) m).*1.

(** The persisted form: the agent id beside the three fields. *)
Definition export (m : tracker) : list (string * SuppressionState) := m.

Definition import (es : list (string * SuppressionState)) (m : tracker) : tracker :=
  mimport es m.

(** ** Histories *)

Inductive op :=
| op_snooze (agent : string) (t : AnomalyType)
| op_falsePositive (agent : string) (t : AnomalyType)
| op_reset (agent : string).

Definition exec (o : op) (m : tracker) : tracker * bool :=
  match o with
  | op_snooze ag t => recordSnooze ag t m
  | op_falsePositive ag t => recordFalsePositive ag t m
  | op_reset ag => (reset ag m, false)
  end.

Definition run (os : list op) : tracker := foldl (λ m o, (exec o m).1) [] os.

(** The evidence one agent has accumulated since its last reset: a liveness
    snooze counts once, a false-positive flag sets the count to the
    threshold. *)
Definition score (agent : string) (n : Z) (o : op) : Z :=
  match o with
  | op_snooze ag t => if String.eqb ag agent && isLivenessAnomaly t then n + 1 else n
  | op_falsePositive ag t =>
      if String.eqb ag agent && isLivenessAnomaly t then SUPPRESSION_THRESHOLD else n
  | op_reset ag => if String.eqb ag agent then 0 else n
  end.

Definition evidence (agent : string) (os : list op) : Z := foldl (score agent) 0 os.

(** The tracker's entry for an agent against its evidence [n]. *)
Definition tracks (agent : string) (n : Z) (m : tracker) : Prop :=
  0 ≤ n ∧
  match mget agent m with
  | None => n = 0
  | Some s => consecutiveCount s = n ∧ suppressed s = (SUPPRESSION_THRESHOLD <=? n)
  end.

Lemma tracks_exec agent n m o :
  tracks agent n m → tracks agent (score agent n o) (exec o m).1.
Proof.
  unfold tracks. intros [Hn Hm].
  destruct o as [ag t|ag t|ag]; simpl;
    [unfold recordSnooze|unfold recordFalsePositive|unfold reset].
  all: destruct (String.eqb_spec ag agent) as [->|Hne]; simpl;
    try destruct (isLivenessAnomaly t); simpl; simp_map; unfold SUPPRESSION_THRESHOLD in *;
    try done.
  destruct (mget agent m) as [s|]; simpl in *; destruct_and?; subst; split_and!; lia || done.
Qed.

Lemma tracks_run agent os : tracks agent (evidence agent os) (run os).
Proof.
  unfold run, evidence. induction os as [|o os IH] using rev_ind; [done|].
  rewrite !foldl_app. simpl. by apply tracks_exec.
Qed.

Lemma tracks_isSuppressed agent n m :
  tracks agent n m → isSuppressed agent m = (SUPPRESSION_THRESHOLD <=? n).
Proof.
  unfold tracks, isSuppressed. intros [? H]. destruct (mget agent m); simpl.
  - by destruct H as [_ ->].
  - by subst.
Qed.

(** After any history, a liveness finding of an agent is muted exactly when,
    since the agent's last reset, the operator has snoozed three liveness
    findings or flagged one as a false positive; a finding of another type is
    never muted. *)
Theorem shouldSuppress_history agent t os :
  shouldSuppress agent t (run os) =
    isLivenessAnomaly t && (SUPPRESSION_THRESHOLD <=? evidence agent os).
Proof.
  unfold shouldSuppress. destruct (isLivenessAnomaly t); [|done]. simpl.
  apply (tracks_isSuppressed agent), tracks_run.
Qed.

(** An operation reports a new suppression exactly when it is the one that
    mutes its agent, so the notice is given once per suppression; and no
    operation on one agent changes what another is muted for. *)
Theorem exec_reports_transition o os :
  let agent := match o with op_snooze ag _ | op_falsePositive ag _ | op_reset ag => ag end in
  let '(m', newly) := exec o (run os) in
  (newly = true ↔ isSuppressed agent (run os) = false ∧ isSuppressed agent m' = true) ∧
  ∀ other, other ≠ agent → isSuppressed other m' = isSuppressed other (run os).
Proof.
  intros agent. unfold agent. clear agent. generalize (run os) as m. intros m.
  destruct o as [ag t|ag t|ag]; simpl; unfold recordSnooze, recordFalsePositive, reset, isSuppressed;
    try destruct (isLivenessAnomaly t); simpl.
  all: split; [|by intros other Hne; rewrite ?mget_mset_ne, ?mget_mdel_ne].
  all: rewrite ?mget_mset_eq, ?mget_mdel_eq; simpl.
  all: destruct (orElse (suppressed <$> mget ag m) false);
    repeat match goal with |- context [?a <=? ?b] => destruct (a <=? b) end; simpl; intuition congruence.
Qed.

(** Exporting the tracker and importing it into an empty one gives back the
    same tracker. *)
Theorem export_import_roundtrip os : import (export (run os)) [] = run os.
Proof.
  apply mimport_roundtrip. unfold run.
  induction os as [|o os IH] using rev_ind; [apply mwf_nil|]. rewrite foldl_app. simpl.
  destruct o; simpl; unfold recordSnooze, recordFalsePositive, reset; try case_match;
    simpl; auto with kookr.
Qed.

End Suppression.

Module Dedup.

Inductive FindingHistoryReason := superseded_reason | resolved_reason.

Record FindingHistoryEntry := mkHistory {
  fh_fingerprint : string;
  fh_context : string;
  fh_occurrences : Z;
  fh_firstSeenAt : Z;
  fh_lastSeenAt : Z;
  fh_snoozeUntil : option Z;
  fh_reason : FindingHistoryReason;
  fh_endedAt : Z
}.

Record FindingRecord := mkRecord {
  fr_findingId : string;
  fr_taskId : string;
  fr_type : AnomalyType;
  fr_subType : option AnomalySubType;
  fr_fingerprint : string;
  fr_context : string;
  fr_firstSeenAt : Z;
  fr_lastSeenAt : Z;
  fr_occurrences : Z;
  fr_snoozeUntil : option Z;
  fr_history : list FindingHistoryEntry
}.

Inductive FindingDisposition := created | deduplicated | superseded.

Abbreviation dedup := (jmap string FindingRecord).

(** The entry that retires the current state of a record. *)
Definition retire (r : FindingRecord) (reason : FindingHistoryReason) (now : Z) :
    FindingHistoryEntry :=
  mkHistory (fr_fingerprint r) (fr_context r) (fr_occurrences r) (fr_firstSeenAt r)
    (fr_lastSeenAt r) (fr_snoozeUntil r) reason now.

Definition record (a : Anomaly) (input : FindingFingerprintInput) (now : Z) (m : dedup) :
    dedup * (FindingDisposition * FindingRecord) :=
  let findingId := findingLineageKey a input in
  let fingerprint := findingFingerprint a input in
  let context := normalizeFindingContext (stableAnomalyExplanation a) in
  match mget findingId m with
  | None =>
      let r := {| fr_findingId := findingId;
                  fr_taskId := orElse (fi_taskId input) (agentId a);
                  fr_type := type a; fr_subType := subType a;
                  fr_fingerprint := fingerprint; fr_context := context;
                  fr_firstSeenAt := now; fr_lastSeenAt := now; fr_occurrences := 1;
                  fr_snoozeUntil := None; fr_history := [] |} in
      (mset findingId r m, (created, r))
  | Some existing =>
      if String.eqb (fr_fingerprint existing) fingerprint then
        let r := {| existing with fr_occurrences := fr_occurrences existing + 1;
                                  fr_lastSeenAt := now |} in
        (mset findingId r m, (deduplicated, r))
      else
        let r := {| existing with
                    fr_history := fr_history existing ++ [retire existing superseded_reason now];
                    fr_fingerprint := fingerprint; fr_context := context;
                    fr_subType := subType a; fr_lastSeenAt := now; fr_occurrences := 1;
                    fr_snoozeUntil := None |} in
        (mset findingId r m, (superseded, r))
  end.

Definition snooze (a : Anomaly) (input : FindingFingerprintInput) (until now : Z) (m : dedup) :
    dedup * option FindingRecord :=
  let findingId := findingLineageKey a input in
  match mget findingId m with
  | None => (m, None)
  | Some existing =>
      let r := {| existing with fr_snoozeUntil := Some until; fr_lastSeenAt := now |} in
      (mset findingId r m, Some r)
  end.

Definition isSnoozed (a : Anomaly) (input : FindingFingerprintInput) (now : Z) (m : dedup) : bool :=
  match mget (findingLineageKey a input) m with
  | Some r => match fr_snoozeUntil r with Some t => now <? t | None => false end
  | None => false
  end.

Definition resolve (a : Anomaly) (input : FindingFingerprintInput) (now : Z) (m : dedup) :
    dedup * option FindingRecord :=
  let findingId := findingLineageKey a input in
  match mget findingId m with
  | None => (m, None)
  | Some existing =>
      (mdel findingId m,
       Some {| existing with
               fr_history := fr_history existing ++ [retire existing resolved_reason now] |})
  end.

Definition get (a : Anomaly) (input : FindingFingerprintInput) (m : dedup) : option FindingRecord :=
  mget (findingLineageKey a input) m.
Definition getByFindingId (findingId : string) (m : dedup) : option FindingRecord :=
  mget findingId m.
Definition snapshot (m : dedup) : list FindingRecord := mvals m.
Definition forget (findingId : string) (m : dedup) : dedup := mdel findingId m.
Definition clear (m : dedup) : dedup := [].

(** ** Histories *)

Inductive op :=
| op_record (a : Anomaly) (input : FindingFingerprintInput) (now : Z)
| op_snooze (a : Anomaly) (input : FindingFingerprintInput) (until now : Z)
| op_resolve (a : Anomaly) (input : FindingFingerprintInput) (now : Z)
| op_forget (findingId : string)
| op_clear.

Definition exec (o : op) (m : dedup) : dedup :=
  match o with
  | op_record a i now => (record a i now m).1
  | op_snooze a i u now => (snooze a i u now m).1
  | op_resolve a i now => (resolve a i now m).1
  | op_forget k => forget k m
  | op_clear => clear m
  end.

Definition run (os : list op) : dedup := foldl (λ m o, exec o m) [] os.

(** How many detections a lineage has had since it was last closed. *)
Definition tally (key : string) (n : Z) (o : op) : Z :=
  match o with
  | op_record a i _ => if String.eqb (findingLineageKey a i) key then n + 1 else n
  | op_snooze _ _ _ _ => n
  | op_resolve a i _ => if String.eqb (findingLineageKey a i) key then 0 else n
  | op_forget k => if String.eqb k key then 0 else n
  | op_clear => 0
  end.

Definition detections (key : string) (os : list op) : Z := foldl (tally key) 0 os.

Definition totalOccurrences (r : FindingRecord) : Z :=
  fr_occurrences r + foldr (λ h n, fh_occurrences h + n) 0 (fr_history r).

Lemma sum_snoc (l : list FindingHistoryEntry) h :
  foldr (λ h n, fh_occurrences h + n) 0 (l ++ [h]) =
    foldr (λ h n, fh_occurrences h + n) 0 l + fh_occurrences h.
Proof. induction l; simpl; lia. Qed.

Definition accounts (key : string) (n : Z) (m : dedup) : Prop :=
  match mget key m with
  | None => n = 0
  | Some r => totalOccurrences r = n ∧ fr_findingId r = key ∧ 1 ≤ fr_occurrences r
  end.

Lemma accounts_exec key n m o : accounts key n m → accounts key (tally key n o) (exec o m).
Proof.
  unfold accounts.
  destruct o as [a i now|a i u now|a i now|k|]; simpl; [| | | |done].
  all: unfold record, snooze, resolve, forget.
  all: try (set (k := findingLineageKey a i)).
  all: destruct (String.eqb_spec k key) as [<-|Hne].
  all: try (destruct (mget k m) as [r|] eqn:Hk); simpl; repeat case_match; simpl.
  all: repeat (rewrite ?mget_mset_eq, ?mget_mdel_eq in *; simplify_eq/=).
  all: rewrite ?mget_mset_ne, ?mget_mdel_ne in * by congruence; simplify_eq/=; try done.
  all: intros; destruct_and?; split_and?; unfold totalOccurrences in *; simpl;
    rewrite ?sum_snoc; simpl; try lia; try done.
Qed.

(** No detection is lost or counted twice.  After any history, a lineage has
    a live record exactly when it was detected since it was last closed, and the
    occurrences of the live state and of its audit trail add up to the number of
    those detections. *)
Theorem detections_conserved os key :
  match mget key (run os) with
  | None => detections key os = 0
  | Some r => totalOccurrences r = detections key os ∧ fr_findingId r = key ∧
              1 ≤ fr_occurrences r
  end.
Proof.
  change (accounts key (detections key os) (run os)). unfold run, detections.
  induction os as [|o os IH] using rev_ind; [done|].
  rewrite !foldl_app. simpl. by apply accounts_exec.
Qed.

(** Recording a detection opens a record, folds into it or supersedes it.
    Folding leaves the snooze in force as it was; superseding lifts it and
    appends the retired state, with its snooze, to the audit trail; the records
    of the other lineages are untouched. *)
Theorem record_disposition a i now m :
  let key := findingLineageKey a i in
  let '(m', (d, r)) := record a i now m in
  mget key m' = Some r ∧ fr_fingerprint r = findingFingerprint a i ∧
  (∀ k, k ≠ key → mget k m' = mget k m) ∧
  match d with
  | created => mget key m = None ∧ ∀ t, isSnoozed a i t m' = false
  | deduplicated =>
      ∃ old, mget key m = Some old ∧ fr_fingerprint old = findingFingerprint a i ∧
        fr_history r = fr_history old ∧ fr_occurrences r = fr_occurrences old + 1 ∧
        ∀ t, isSnoozed a i t m' = isSnoozed a i t m
  | superseded =>
      ∃ old, mget key m = Some old ∧ fr_fingerprint old ≠ findingFingerprint a i ∧
        fr_history r = fr_history old ++ [retire old superseded_reason now] ∧
        ∀ t, isSnoozed a i t m' = false
  end.
Proof.
  unfold record, isSnoozed. cbv zeta.
  destruct (mget (findingLineageKey a i) m) as [old|] eqn:Hk.
  - destruct (String.eqb_spec (fr_fingerprint old) (findingFingerprint a i));
      split_and!; try (exists old; split_and!); try done; simpl;
      rewrite ?mget_mset_eq; simpl; try done; intros; by rewrite ?mget_mset_ne, ?mget_mset_eq.
  - split_and!; simpl; rewrite ?mget_mset_eq; try done; intros;
      by rewrite ?mget_mset_ne, ?mget_mset_eq.
Qed.

Lemma record_fingerprint a i now m :
  ∃ r, mget (findingLineageKey a i) (record a i now m).1 = Some r ∧
    fr_fingerprint r = findingFingerprint a i.
Proof.
  unfold record. destruct (mget _ m) as [old|]; [|simpl; rewrite mget_mset_eq; by eexists].
  destruct (String.eqb_spec (fr_fingerprint old) (findingFingerprint a i)); simpl;
    rewrite mget_mset_eq; by eexists.
Qed.

End Dedup.

(** ** What counts as the same question *)

(** Wording changes that do not make a new question. *)
Inductive cosmetic : str → str → Prop :=
| cosmetic_case l : cosmetic (map lowerChar l) l
| cosmetic_quote l1 q l2 : isQuote q = true → cosmetic (l1 ++ q :: l2) (l1 ++ l2)
| cosmetic_space l1 w1 w2 l2 :
    isWs w1 = true → isWs w2 = true → cosmetic (l1 ++ w1 :: w2 :: l2) (l1 ++ w2 :: l2)
| cosmetic_refl l : cosmetic l l
| cosmetic_sym l1 l2 : cosmetic l1 l2 → cosmetic l2 l1
| cosmetic_trans l1 l2 l3 : cosmetic l1 l2 → cosmetic l2 l3 → cosmetic l1 l3.

Lemma cosmetic_normal l1 l2 : cosmetic l1 l2 → normalizeFindingChars l1 = normalizeFindingChars l2.
Proof.
  induction 1 as [l|l1 q l2 Hq|l1 w1 w2 l2 H1 H2|l|l1 l2 _ IH|l1 l2 l3 _ IH1 _ IH2].
  - apply normalizeFindingChars_lower.
  - by apply normalizeFindingChars_quote.
  - by apply normalizeFindingChars_ws.
  - done.
  - done.
  - by rewrite IH1.
Qed.

Definition setExplanation (text : string) (a : Anomaly) : Anomaly :=
  {| a with explanation := text |}.

(** Rewording a finding by letter case, quotation marks or runs of white
    space neither opens a new finding nor lifts its snooze: after the reworded
    finding is recorded, the snooze taken before holds until its own time.
    (The text of a repeated error is left out: its counter is cut before
    normalisation.) *)
Theorem reworded_stays_snoozed a i now until t0 t1 t text m :
  type a ≠ repeated_error → cosmetic (chars text) (chars (explanation a)) →
  let m1 := (Dedup.record a i t0 m).1 in
  let m2 := (Dedup.snooze a i until t1 m1).1 in
  let m3 := (Dedup.record (setExplanation text a) i now m2).1 in
  Dedup.isSnoozed a i t m3 = (t <? until) ∧
  Dedup.fr_fingerprint <$> mget (findingLineageKey a i) m3 = Some (findingFingerprint a i).
Proof.
  intros Ht Hc m1 m2 m3.
  assert (findingFingerprint (setExplanation text a) i = findingFingerprint a i) as Hf.
  { unfold findingFingerprint, findingLineageKey, stableAnomalyExplanation, normalizeFindingContext.
    simpl. destruct (type a); simpl; by rewrite ?(cosmetic_normal _ _ Hc). }
  destruct (Dedup.record_fingerprint a i t0 m) as (r1 & H1 & Hf1). fold m1 in H1.
  assert (∃ r2, mget (findingLineageKey a i) m2 = Some r2 ∧
    Dedup.fr_fingerprint r2 = findingFingerprint a i ∧
    Dedup.fr_snoozeUntil r2 = Some until) as (r2 & H2 & Hf2 & Hs2).
  { unfold m2, Dedup.snooze. rewrite H1. simpl. rewrite mget_mset_eq.
    eexists; split_and!; [done|exact Hf1|done]. }
  unfold m3, Dedup.isSnoozed, Dedup.record.
  change (findingLineageKey (setExplanation text a) i) with (findingLineageKey a i).
  rewrite H2, Hf, Hf2, String.eqb_refl. simpl. rewrite mget_mset_eq. simpl.
  rewrite Hs2. split; [done|]. by rewrite <- Hf2.
Qed.

Lemma reworded_stays_snoozed_witness :
  let a := basicAnomaly "s1" needs_input info "Deploy  to `prod`?" (Some 0) in
  let i := mkFindingInput (Some "t1") None in
  Dedup.isSnoozed a i 50
    (Dedup.record (setExplanation "deploy  to `prod`?" a) i 7
      (Dedup.snooze a i 100 1 (Dedup.record a i 0 []).1).1).1 = (50 <? 100).
Proof.
  intros a i.
  apply (reworded_stays_snoozed a i 7 100 0 1 50 "deploy  to `prod`?" []);
    [discriminate|exact (cosmetic_case (chars "Deploy  to `prod`?"))].
Defined.
