(* ===== verification/CircuitBreaker.v ===== *)
(** * The circuit breaker ([src/core/circuit-breaker.ts])

    [Module Breaker] models the class [CircuitBreaker]: one function per method,
    each clock reading an argument, the [setTimeout] handle the field
    [resetTimer] (the time it is due), listener callbacks the log [emitted].
    An awaited [call] is two steps, so that other work interleaves with it:
    [callBegin] and, once [fn] has settled, [callEnd].  [Module Registry] models
    [CircuitBreakerRegistry] over a store of shared breaker objects. *)

From S2P Require Import Prelude JsMap.
Local Open Scope Z_scope.

Module Breaker.

Inductive CircuitBreakerState := closed | open | half_open.

#[export] Instance CircuitBreakerState_eq_dec : EqDecision CircuitBreakerState.
Proof. solve_decision. Defined.

Record CircuitBreakerConfig := mkConfig {
  cfg_name : string;
  cfg_failureThreshold : option Z;
  cfg_failureWindowMs : option Z;
  cfg_resetTimeoutMs : option Z;
  cfg_halfOpenSuccessThreshold : option Z
}.

Record CircuitBreakerSnapshot := mkSnapshot {
  snap_name : string;
  snap_state : CircuitBreakerState;
  snap_failureCount : Z;
  snap_successCount : Z;
  snap_rejectedCalls : Z;
  snap_tripCount : Z;
  snap_lastFailureTime : option Z;
  snap_lastStateChange : Z;
  snap_resetTimeoutMs : Z
}.

(** A listener: one of the application's, or the forwarder a registry adds. *)
Inductive listener := user_listener (id : nat) | registry_listener.

#[export] Instance listener_eq_dec : EqDecision listener.
Proof. solve_decision. Defined.

Record breaker := mkBreaker {
  name : string;
  state : CircuitBreakerState;
  failureThreshold : Z;
  failureWindowMs : Z;
  resetTimeoutMs : Z;
  halfOpenSuccessThreshold : Z;
  failureTimestamps : list Z;
  halfOpenSuccesses : Z;
  rejectedCalls : Z;
  tripCount : Z;
  lastFailureTime : option Z;
  lastStateChange : Z;
  resetTimer : option Z;
  listeners : list listener;
  emitted : list (listener * CircuitBreakerSnapshot)
}.

(** [CircuitBreakerOpenError]. *)
Inductive call_error := CircuitBreakerOpenError (breakerName : string).

Definition newBreaker (now : Z) (c : CircuitBreakerConfig) : breaker :=
  {| name := cfg_name c; state := closed;
     failureThreshold := orElse (cfg_failureThreshold c) 5;
     failureWindowMs := orElse (cfg_failureWindowMs c) 60000;
     resetTimeoutMs := orElse (cfg_resetTimeoutMs c) 30000;
     halfOpenSuccessThreshold := orElse (cfg_halfOpenSuccessThreshold c) 2;
     failureTimestamps := []; halfOpenSuccesses := 0; rejectedCalls := 0;
     tripCount := 0; lastFailureTime := None; lastStateChange := now;
     resetTimer := None; listeners := []; emitted := [] |}.

Definition onChange (l : listener) (b : breaker) : breaker :=
  {| b with listeners := listeners b ++ [l] |}.

(** The unsubscribe function [onChange] returns. *)
Definition unsubscribe (l : listener) (b : breaker) : breaker :=
  {| b with listeners := List.filter (λ x, negb (bool_decide (x = l))) (listeners b) |}.

(** [recentFailureCount]: prunes the window in place. *)
Definition recentFailureCount (now : Z) (b : breaker) : breaker * Z :=
  let ts := List.filter (λ t, now - failureWindowMs b <? t) (failureTimestamps b) in
  ({| b with failureTimestamps := ts |}, Z.of_nat (length ts)).

Definition getSnapshot (now : Z) (b : breaker) : breaker * CircuitBreakerSnapshot :=
  let '(b, n) := recentFailureCount now b in
  (b, mkSnapshot (name b) (state b) n (halfOpenSuccesses b) (rejectedCalls b)
        (tripCount b) (lastFailureTime b) (lastStateChange b) (resetTimeoutMs b)).

(** [transition]; [now1] is read for [lastStateChange] and the timer, [now2] by
    the snapshot. *)
Definition transition (now1 now2 : Z) (newState : CircuitBreakerState) (b : breaker) : breaker :=
  if bool_decide (state b = newState) then b
  else
    let b := {| b with resetTimer := None; state := newState; lastStateChange := now1 |} in
    let b :=
      match newState with
      | open => {| b with tripCount := tripCount b + 1;
                          resetTimer := Some (now1 + resetTimeoutMs b) |}
      | half_open => {| b with halfOpenSuccesses := 0 |}
      | closed => {| b with failureTimestamps := []; halfOpenSuccesses := 0 |}
      end in
    let '(b, snapshot) := getSnapshot now2 b in
    {| b with emitted := emitted b ++ ((λ l, (l, snapshot)) <$> listeners b) |}.

Definition recordSuccess (now1 now2 : Z) (b : breaker) : breaker :=
  if bool_decide (state b = half_open) then
    let b := {| b with halfOpenSuccesses := halfOpenSuccesses b + 1 |} in
    if halfOpenSuccessThreshold b <=? halfOpenSuccesses b
    then transition now1 now2 closed b else b
  else b.

(** [now] stamps the failure, [now0] is read by [recentFailureCount]. *)
Definition recordFailure (now now0 now1 now2 : Z) (b : breaker) : breaker :=
  let b := {| b with lastFailureTime := Some now;
                     failureTimestamps := failureTimestamps b ++ [now] |} in
  match state b with
  | half_open => transition now1 now2 open b
  | closed =>
      let '(b, n) := recentFailureCount now0 b in
      if failureThreshold b <=? n then transition now1 now2 open b else b
  | open => b
  end.

Definition recordRejectedCall (b : breaker) : breaker :=
  {| b with rejectedCalls := rejectedCalls b + 1 |}.

(** [call] up to the [await]: [Ok] when [fn] is invoked. *)
Definition callBegin (b : breaker) : breaker * result call_error unit :=
  if bool_decide (state b = open)
  then ({| b with rejectedCalls := rejectedCalls b + 1 |}, Err (CircuitBreakerOpenError (name b)))
  else (b, Ok tt).

(** [call] after [fn] has settled; the result or error of [fn] is passed on. *)
Definition callEnd {E A} (now now0 now1 now2 : Z) (settled : result E A) (b : breaker) :
    breaker * result E A :=
  match settled with
  | Ok _ => (recordSuccess now1 now2 b, settled)
  | Err _ => (recordFailure now now0 now1 now2 b, settled)
  end.

Definition rearm (now1 now2 : Z) (b : breaker) : breaker :=
  if bool_decide (state b = closed) then b else transition now1 now2 closed b.

Definition dispose (b : breaker) : breaker := {| b with resetTimer := None; listeners := [] |}.

Definition getState (b : breaker) : CircuitBreakerState := state b.

(** The [setTimeout] callback, run by the event loop when the timer is due. *)
Definition timerFires (now1 now2 : Z) (b : breaker) : breaker :=
  transition now1 now2 half_open {| b with resetTimer := None |}.

(** ** The breaker under concurrent calls *)

(** [sys]: the breaker with the number of calls awaiting [fn]. *)
Record sys := mkSys { brk : breaker; inflight : nat; disposed : bool }.

Inductive step : sys → sys → Prop :=
| step_begin_ok b n d b' :
    callBegin b = (b', Ok tt) → step (mkSys b n d) (mkSys b' (S n) d)
| step_begin_rejected b n d b' e :
    callBegin b = (b', Err e) → step (mkSys b n d) (mkSys b' n d)
| step_end b n d now now0 now1 now2 (settled : result unit unit) :
    step (mkSys b (S n) d) (mkSys (callEnd now now0 now1 now2 settled b).1 n d)
| step_success b n d now1 now2 : step (mkSys b n d) (mkSys (recordSuccess now1 now2 b) n d)
| step_failure b n d now now0 now1 now2 :
    step (mkSys b n d) (mkSys (recordFailure now now0 now1 now2 b) n d)
| step_reject b n d : step (mkSys b n d) (mkSys (recordRejectedCall b) n d)
| step_timer b n d due now1 now2 :
    resetTimer b = Some due → due ≤ now1 →
    step (mkSys b n d) (mkSys (timerFires now1 now2 b) n d)
| step_rearm b n d now1 now2 : step (mkSys b n d) (mkSys (rearm now1 now2 b) n d)
| step_snapshot b n d now : step (mkSys b n d) (mkSys (getSnapshot now b).1 n d)
| step_onChange b n d l : step (mkSys b n d) (mkSys (onChange l b) n d)
| step_unsubscribe b n d l : step (mkSys b n d) (mkSys (unsubscribe l b) n d)
| step_dispose b n d : step (mkSys b n d) (mkSys (dispose b) n true).

Inductive reachable (c : CircuitBreakerConfig) : sys → Prop :=
| reachable_new now : reachable c (mkSys (newBreaker now c) 0 false)
| reachable_step s s' : reachable c s → step s s' → reachable c s'.

(** The configuration is sensible. *)
Definition goodConfig (c : CircuitBreakerConfig) : Prop :=
  1 ≤ orElse (cfg_failureThreshold c) 5 ∧ 1 ≤ orElse (cfg_halfOpenSuccessThreshold c) 2.

(** What holds of a breaker whatever its state: the settings of its
    configuration. *)
Definition configured (c : CircuitBreakerConfig) (b : breaker) : Prop :=
  failureThreshold b = orElse (cfg_failureThreshold c) 5 ∧
  halfOpenSuccessThreshold b = orElse (cfg_halfOpenSuccessThreshold c) 2 ∧
  failureWindowMs b = orElse (cfg_failureWindowMs c) 60000.

Record inv (c : CircuitBreakerConfig) (b : breaker) (d : bool) : Prop := {
  inv_config : configured c b;
  inv_open_timer : state b = open → d = false → is_Some (resetTimer b);
  inv_timer_open : is_Some (resetTimer b) → state b = open;
  inv_closed : state b = closed →
    Z.of_nat (length (failureTimestamps b)) < failureThreshold b ∧ halfOpenSuccesses b = 0;
  inv_half_open : state b = half_open →
    0 ≤ halfOpenSuccesses b ∧ halfOpenSuccesses b < halfOpenSuccessThreshold b
}.

Lemma filter_length_le {A} (p : A → bool) l : (length (List.filter p l) ≤ length l)%nat.
Proof. induction l; simpl; [done|]. case_match; simpl; lia. Qed.

Lemma transition_inv c n1 n2 s b d :
  goodConfig c → configured c b → state b ≠ s → inv c (transition n1 n2 s b) d.
Proof.
  intros [Hf Hh] (C1 & C2 & C3) Hne. unfold transition.
  rewrite bool_decide_false by done.
  split; destruct s; unfold configured; simpl; try discriminate.
  all: try (by split_and!).
  all: try (intros; by apply is_Some_None in H || done).
  all: try (intros; by apply mk_is_Some).
  all: intros; split; lia.
Qed.

Lemma transition_state n1 n2 s b : state (transition n1 n2 s b) = s.
Proof. unfold transition. case_bool_decide; [done|]. by destruct s. Qed.

Lemma recordFailure_inv c now now0 n1 n2 b d :
  goodConfig c → inv c b d → inv c (recordFailure now now0 n1 n2 b) d.
Proof.
  intros Hg [H1 H2 H3 H4 H5]. unfold recordFailure. destruct (state b) eqn:Hs; simpl.
  - case_if; zbool.
    + apply transition_inv; [done|exact H1|]. simpl. congruence.
    + split; simpl; rewrite ?Hs; try done; try exact H1. intros _. split; [lia|]. by apply H4.
  - split; simpl; try done; rewrite ?Hs in *; done.
  - apply transition_inv; [done|exact H1|]. simpl. congruence.
Qed.

Lemma recordSuccess_inv c n1 n2 b d :
  goodConfig c → inv c b d → inv c (recordSuccess n1 n2 b) d.
Proof.
  intros Hg Hi. pose proof Hi as [H1 H2 H3 H4 H5]. unfold recordSuccess.
  case_bool_decide as Hs; [|done]. simpl. case_if; zbool.
  - apply transition_inv; [done|exact H1|]. simpl. congruence.
  - split; simpl; rewrite ?Hs; try done; try (by rewrite Hs in H3).
    intros _. destruct (H5 Hs). lia.
Qed.

Lemma getSnapshot_inv c now b d : inv c b d → inv c (getSnapshot now b).1 d.
Proof.
  intros [H1 H2 H3 H4 H5]. split; simpl; try done. intros Hs. destruct (H4 Hs) as [Hl ?].
  split; [|done]. pose proof (filter_length_le (λ t, now - failureWindowMs b <? t) (failureTimestamps b)).
  lia.
Qed.

Lemma step_inv c s s' :
  goodConfig c → step s s' → inv c (brk s) (disposed s) → inv c (brk s') (disposed s').
Proof.
  intros Hg Hst Hi. pose proof Hi as [H1 H2 H3 H4 H5]. destruct Hst; simpl in *.
  - unfold callBegin in *. case_bool_decide; by simplify_eq.
  - unfold callBegin in *. case_bool_decide; simplify_eq. by split.
  - destruct settled; simpl; [by apply recordSuccess_inv|by apply recordFailure_inv].
  - by apply recordSuccess_inv.
  - by apply recordFailure_inv.
  - by split.
  - assert (state b = open) as Ho by (apply H3; by eexists).
    apply transition_inv; [done|exact H1|]. simpl. congruence.
  - unfold rearm. case_bool_decide; [done|]. by apply transition_inv.
  - by apply getSnapshot_inv.
  - by split.
  - by split.
  - split; simpl; done.
Qed.

(** In every run, with calls and other callers interleaved in any order: the
    cooldown timer is pending exactly while the breaker is open (until it is
    disposed), so an open breaker always has its way out; a closed breaker has
    fewer failures on record than would trip it; and a half-open one has fewer
    successes than would close it. *)
Theorem reachable_inv c s : goodConfig c → reachable c s → inv c (brk s) (disposed s).
Proof.
  intros Hg. induction 1 as [now|s s' _ IH Hst]; [|by eapply step_inv].
  destruct Hg. split; simpl; try done. intros _. split; [lia|done].
Qed.

Definition defaultConfig : CircuitBreakerConfig := mkConfig "llm" None None None None.

Lemma reachable_inv_witness :
  inv defaultConfig (recordFailure 1 1 1 1 (newBreaker 0 defaultConfig)) false.
Proof.
  apply (reachable_inv defaultConfig
    (mkSys (recordFailure 1 1 1 1 (newBreaker 0 defaultConfig)) 0 false)).
  - split; simpl; lia.
  - eapply reachable_step; [apply (reachable_new _ 0)|apply step_failure].
Defined.

(** The edges of the breaker's state machine. *)
Inductive edge : CircuitBreakerState → CircuitBreakerState → Prop :=
| edge_trip : edge closed open
| edge_cooldown : edge open half_open
| edge_reopen : edge half_open open
| edge_recover : edge half_open closed
| edge_rearm : edge open closed.

(** C39: every step of the concurrent system keeps the breaker's state or follows
    an edge of the three-state machine, and the way from open to half-open is
    the cooldown timer alone; for thresholds of at least one. *)
Theorem step_refines_machine c s s' :
  goodConfig c → reachable c s → step s s' →
  state (brk s') = state (brk s) ∨
  (edge (state (brk s)) (state (brk s')) ∧
   (state (brk s') = half_open → ∃ due n1 n2, resetTimer (brk s) = Some due ∧ due ≤ n1 ∧
      brk s' = timerFires n1 n2 (brk s))).
Proof.
  intros Hg Hr Hst. pose proof (reachable_inv c s Hg Hr) as [H1 H2 H3 H4 H5].
  assert (∀ b now now0 n1 n2, state (recordFailure now now0 n1 n2 b) = state b ∨
    (edge (state b) open ∧ state (recordFailure now now0 n1 n2 b) = open)) as Hfail.
  { intros b now now0 n1 n2. unfold recordFailure.
    destruct (state b) eqn:Hs; simpl; rewrite ?transition_state; eauto using edge.
    case_if; simpl; rewrite ?transition_state; eauto using edge. }
  assert (∀ b n1 n2, state (recordSuccess n1 n2 b) = state b ∨
    (edge (state b) closed ∧ state (recordSuccess n1 n2 b) = closed)) as Hsucc.
  { intros b n1 n2. unfold recordSuccess. case_bool_decide as Hs; [|by left].
    case_if; rewrite ?transition_state; rewrite ?Hs; eauto using edge. }
  destruct Hst; simpl in *.
  - unfold callBegin in *. case_bool_decide; simplify_eq; auto.
  - unfold callBegin in *. case_bool_decide; simplify_eq; auto.
  - destruct settled; simpl.
    + destruct (Hsucc b now1 now2) as [|[? ->]]; [by left|right; split; [done|discriminate]].
    + destruct (Hfail b now now0 now1 now2) as [|[? ->]];
        [by left|right; split; [done|discriminate]].
  - destruct (Hsucc b now1 now2) as [|[? ->]]; [by left|right; split; [done|discriminate]].
  - destruct (Hfail b now now0 now1 now2) as [|[? ->]];
      [by left|right; split; [done|discriminate]].
  - by left.
  - assert (state b = open) as Ho by (apply H3; by eexists). right.
    unfold timerFires. rewrite transition_state, Ho.
    split; [constructor|]. intros _. eauto 7.
  - unfold rearm. case_bool_decide; [by left|]. rewrite transition_state. right.
    destruct (state b); [done|split; [constructor|discriminate]..].
  - by left.
  - by left.
  - by left.
  - by left.
Qed.

Lemma step_refines_machine_witness :
  let b := newBreaker 0 defaultConfig in
  let s' := mkSys (recordFailure 1 1 1 1 b) 0 false in
  state (brk s') = closed ∨ (edge closed (state (brk s')) ∧
    (state (brk s') = half_open → ∃ due n1 n2, resetTimer b = Some due ∧ due ≤ n1 ∧
      brk s' = timerFires n1 n2 b)).
Proof.
  intros b s'.
  apply (step_refines_machine defaultConfig (mkSys b 0 false) s').
  - split; simpl; lia.
  - apply reachable_new.
  - apply step_failure.
Defined.

(** The sliding window.  A failure of a closed breaker trips it exactly when
    the failures recorded within the window, this one included, reach the
    threshold; the trip is counted once, arms the cooldown timer, and from then
    on a call is rejected without running. *)
Theorem trip_exact now now0 now1 now2 b :
  state b = closed →
  let b' := recordFailure now now0 now1 now2 b in
  let inWindow := countb (λ t, now0 - failureWindowMs b <? t) (failureTimestamps b ++ [now]) in
  if failureThreshold b <=? Z.of_nat inWindow
  then state b' = open ∧ tripCount b' = tripCount b + 1 ∧
       resetTimer b' = Some (now1 + resetTimeoutMs b) ∧
       (callBegin b').2 = Err (CircuitBreakerOpenError (name b)) ∧
       rejectedCalls (callBegin b').1 = rejectedCalls b + 1
  else state b' = closed ∧ tripCount b' = tripCount b ∧ callBegin b' = (b', Ok tt).
Proof.
  intros Hs. unfold recordFailure. simpl. rewrite Hs. simpl. unfold countb.
  case_if; [|by unfold callBegin; simpl; rewrite ?Hs].
  unfold transition. simpl. by rewrite ?Hs.
Qed.

Lemma trip_exact_witness :
  let b := recordFailure 2 2 2 2 (newBreaker 0 (mkConfig "gh" (Some 2) None None None)) in
  state (recordFailure 3 3 3 3 b) = open.
Proof.
  intros b. pose proof (trip_exact 3 3 3 3 b eq_refl) as H. vm_compute in H. apply H.
Defined.

(** Successes reported one after the other, with their clock readings. *)
Definition successes (cs : list (Z * Z)) (b : breaker) : breaker :=
  foldl (λ b c, recordSuccess c.1 c.2 b) b cs.

Lemma successes_half_open cs b :
  state b = half_open →
  halfOpenSuccesses b + Z.of_nat (length cs) < halfOpenSuccessThreshold b →
  state (successes cs b) = half_open ∧
  halfOpenSuccesses (successes cs b) = halfOpenSuccesses b + Z.of_nat (length cs) ∧
  halfOpenSuccessThreshold (successes cs b) = halfOpenSuccessThreshold b.
Proof.
  revert b. induction cs as [|c cs IH]; intros b Hs Hlt; cbn [length] in *.
  - split_and!; [done|simpl; lia|done].
  - unfold successes. cbn [foldl]. unfold recordSuccess at 2 4 6.
    rewrite Hs, bool_decide_true by done. cbn [halfOpenSuccesses halfOpenSuccessThreshold].
    destruct (Z.leb_spec (halfOpenSuccessThreshold b) (halfOpenSuccesses b + 1)); [lia|].
    edestruct IH as (E1 & E2 & E3); [| |split_and!; [exact E1| |exact E3]]; simpl; [done|lia|].
    etransitivity; [exact E2|]. simpl. lia.
Qed.

(** Recovery.  Once the cooldown timer of an open breaker has fired, the
    breaker stays half-open through any [k] successes short of the threshold and
    closes on the one that reaches it, with a clean record. *)
Theorem recovery n1 n2 b cs c :
  state b = open → 1 ≤ halfOpenSuccessThreshold b →
  Z.of_nat (length cs) + 1 = halfOpenSuccessThreshold b →
  let b1 := timerFires n1 n2 b in
  state b1 = half_open ∧
  (∀ k, (k ≤ length cs)%nat → state (successes (take k cs) b1) = half_open) ∧
  let b2 := recordSuccess c.1 c.2 (successes cs b1) in
  state b2 = closed ∧ failureTimestamps b2 = [] ∧ halfOpenSuccesses b2 = 0.
Proof.
  intros Hs Ht Hk b1.
  assert (state b1 = half_open) as H1 by apply transition_state.
  assert (halfOpenSuccesses b1 = 0 ∧ halfOpenSuccessThreshold b1 = halfOpenSuccessThreshold b)
    as [H2 H3].
  { unfold b1, timerFires, transition. by rewrite bool_decide_false by (simpl; congruence). }
  split; [done|]. split.
  - intros k Hle. apply successes_half_open; [done|].
    pose proof (length_take_le cs k Hle). lia.
  - destruct (successes_half_open cs b1) as (E1 & E2 & E3); [done|lia|].
    revert E1 E2 E3. generalize (successes cs b1) as b2. intros b2 E1 E2 E3. cbv zeta.
    unfold recordSuccess. rewrite E1, bool_decide_true by done. simpl.
    destruct (Z.leb_spec (halfOpenSuccessThreshold b2) (halfOpenSuccesses b2 + 1)); [|lia].
    unfold transition. simpl. by rewrite ?E1.
Qed.

Lemma recovery_witness :
  let b := recordFailure 3 3 3 3 (newBreaker 0 (mkConfig "gh" (Some 1) None None None)) in
  state (recordSuccess 8 8 (recordSuccess 7 7 (timerFires 5 5 b))) = closed.
Proof.
  intros b. destruct (recovery 5 5 b [(7, 7)] (8, 8)) as (_ & _ & H & _);
    [reflexivity|apply Z.leb_le; reflexivity|reflexivity|exact H].
Defined.

(** A half-open breaker admits every call that arrives: for any [n], [n]
    trial calls can be awaiting their result at once. *)
Theorem half_open_admits_all n b d :
  state b = half_open → rtc step (mkSys b 0 d) (mkSys b n d).
Proof.
  intros Hs. induction n as [|n IH]; [done|]. eapply rtc_r; [exact IH|].
  apply step_begin_ok. unfold callBegin. by rewrite Hs.
Qed.

Lemma half_open_admits_all_witness :
  let b := timerFires 5 5 (recordFailure 3 3 3 3
    (newBreaker 0 (mkConfig "gh" (Some 1) None None None))) in
  rtc step (mkSys b 0 false) (mkSys b 3 false).
Proof. intros b. apply (half_open_admits_all 3 b false). reflexivity. Defined.
End Breaker.

Module Registry.
Import Breaker.

(** The breakers are shared objects: the registry maps names to references into
    the store [objects] of the program. *)
Record registry := mkRegistry {
  objects : jmap nat breaker;
  breakers : jmap string nat;
  registryListeners : list nat;
  delivered : list (nat * CircuitBreakerSnapshot)
}.

(** The forwarder: each callback a breaker makes to the registry reaches the
    registry listeners of that moment. *)
Definition forward (before after : breaker) (r : registry) : registry :=
  let fresh := drop (length (emitted before)) (emitted after) in
  let snaps := (List.filter (λ p, bool_decide (p.1 = registry_listener)) fresh).*2 in
  {| r with delivered := delivered r ++
       concat ((λ s, (λ l, (l, s)) <$> registryListeners r) <$> snaps) |}.

(** Run a method of the breaker at [ref]. *)
Definition runOn (ref : nat) (f : breaker → breaker) (r : registry) : registry :=
  match mget ref (objects r) with
  | None => r
  | Some b => forward b (f b) {| r with objects := mset ref (f b) (objects r) |}
  end.

Definition register (ref : nat) (r : registry) : registry :=
  match mget ref (objects r) with
  | None => r
  | Some b =>
      {| r with breakers := mset (name b) ref (breakers r);
                objects := mset ref (onChange registry_listener b) (objects r) |}
  end.

Definition get (n : string) (r : registry) : option nat := mget n (breakers r).

(** [getAllSnapshots]: reading a snapshot prunes the breaker it is taken of. *)
Definition getAllSnapshots (now : Z) (r : registry) : registry * list CircuitBreakerSnapshot :=
  foldl (λ acc ref,
      let '(r, out) := acc in
      match mget ref (objects r) with
      | None => (r, out)
      | Some b => let '(b', s) := getSnapshot now b in
                  ({| r with objects := mset ref b' (objects r) |}, out ++ [s])
      end) (r, []) (mvals (breakers r)).

Definition rearm (now1 now2 : Z) (n : string) (r : registry) : registry * bool :=
  match mget n (breakers r) with
  | None => (r, false)
  | Some ref => (runOn ref (Breaker.rearm now1 now2) r, true)
  end.

Definition onChange (l : nat) (r : registry) : registry :=
  {| r with registryListeners := registryListeners r ++ [l] |}.

Definition unsubscribe (l : nat) (r : registry) : registry :=
  {| r with registryListeners := List.filter (λ x, negb (Nat.eqb x l)) (registryListeners r) |}.

Definition dispose (r : registry) : registry :=
  let r := foldl (λ r ref, runOn ref Breaker.dispose r) r (mvals (breakers r)) in
  {| r with breakers := []; registryListeners := [] |}.

Lemma transition_emitted n1 n2 s b :
  state b ≠ s →
  ∃ snap, snap_state snap = s ∧ snap_name snap = name b ∧
    emitted (transition n1 n2 s b) = emitted b ++ ((λ l, (l, snap)) <$> listeners b).
Proof.
  intros. unfold transition. rewrite bool_decide_false by done.
  destruct s; (eexists; split_and!; [| |reflexivity]; done).
Qed.

(** Rearming by name.  Rearming a registered breaker that is not closed closes
    that very object, keeps every other one, and tells each registry listener
    once for each registration of the breaker, with a snapshot of the closed
    state. *)
Theorem rearm_registered now1 now2 n ref b r :
  mget n (breakers r) = Some ref → mget ref (objects r) = Some b → state b ≠ closed →
  let '(r', found) := rearm now1 now2 n r in
  found = true ∧
  (∃ b', mget ref (objects r') = Some b' ∧ state b' = closed ∧ failureTimestamps b' = []) ∧
  (∀ other, other ≠ ref → mget other (objects r') = mget other (objects r)) ∧
  ∃ snap, snap_state snap = closed ∧
    delivered r' = delivered r ++
      concat (replicate (countb (λ l, bool_decide (l = registry_listener)) (listeners b))
                ((λ l, (l, snap)) <$> registryListeners r)).
Proof.
  intros Hn Hb Hs. unfold rearm, runOn. rewrite Hn, Hb. cbn [fst snd].
  split; [done|]. unfold Breaker.rearm. rewrite bool_decide_false by done.
  destruct (transition_emitted now1 now2 closed b Hs) as (snap & H1 & _ & H3).
  unfold forward. simpl. rewrite H3, drop_app_length. split_and!.
  - rewrite mget_mset_eq. eexists; split_and!; [done|apply transition_state|].
    unfold transition. by rewrite bool_decide_false by done.
  - intros. by rewrite mget_mset_ne.
  - exists snap. split; [done|]. do 2 f_equal. clear H1 H3. unfold countb.
    induction (listeners b) as [|l ls IH]; csimpl; [done|].
    case_bool_decide; csimpl; by rewrite IH.
Qed.

Lemma rearm_registered_witness :
  let b := recordFailure 3 3 3 3 (newBreaker 0 (mkConfig "gh" (Some 1) None None None)) in
  let r := register 7 (mkRegistry [(7%nat, b)] [] [1%nat] []) in
  (rearm 9 9 "gh" r).2 = true.
Proof.
  intros b r.
  pose proof (rearm_registered 9 9 "gh" 7 (Breaker.onChange registry_listener b) r
    eq_refl eq_refl) as H.
  destruct (rearm 9 9 "gh" r). apply H. discriminate.
Defined.

End Registry.
