(* ===== verification/SpawnRateLimiter.v ===== *)
(** * The per-source spawn budget ([src/core/spawn-rate-limiter.ts])

    [Module Limiter] models the sliding-window limiter.  The live getters
    [getLimit] and [getWindowMs] and the clock are arguments of the call, so a
    run may change them between calls. *)

From S2P Require Import Prelude JsMap JsString.
Local Open Scope Z_scope.

Module Limiter.

Record SpawnRateVerdict := mkVerdict {
  allowed : bool;
  source : string;
  count : Z;
  limit : Z;
  windowMs : Z;
  retryAfterMs : Z
}.

(** [bucket![0]] of an absent bucket. *)
Inductive limiter_error := TypeError.

Definition spawnBudgetKey (source : string) (actorId : option string) : string :=
  match truthyStr (trim <$> actorId) with
  | Some trimmed => source +:+ ":actor:" +:+ trimmed
  | None => source
  end.

Abbreviation buckets := (jmap string (list Z)).

Definition clear (m : buckets) : buckets := [].

(** [findIndex] of the first live entry, then [splice]. *)
Fixpoint dropStale (cutoff : Z) (b : list Z) : list Z :=
  match b with
  | [] => []
  | t :: b' => if cutoff <? t then b else dropStale cutoff b'
  end.

Definition pruneBucket (cutoff : Z) (key : string) (m : buckets) : buckets :=
  match mget key m with
  | None => m
  | Some b => match dropStale cutoff b with
              | [] => mdel key m
              | live => mset key live m
              end
  end.

Definition tryAcquire (now lim win : Z) (key : string) (m : buckets) :
    buckets * result limiter_error SpawnRateVerdict :=
  let m := pruneBucket (now - win) key m in
  let bucket := mget key m in
  let n := Z.of_nat (length (orElse bucket [])) in
  if lim <=? n then
    match bucket with
    | Some (oldest :: _) =>
        (m, Ok (mkVerdict false key n lim win (max0 (oldest + win - now))))
    | _ => (m, Err TypeError)
    end
  else (mset key (orElse bucket [] ++ [now]) m, Ok (mkVerdict true key n lim win 0)).

(** ** Runs under one setting *)

Section Run.
Variables (L W : Z).
Hypothesis HL : 1 ≤ L.

(** The attempts [(now, key)] in order, with the accepted ones. *)
Definition attempt (s : buckets * list (string * Z)) (e : Z * string) :
    buckets * list (string * Z) :=
  let '(m, acc) := s in
  let '(now, key) := e in
  match tryAcquire now L W key m with
  | (m', Ok v) => (m', if allowed v then acc ++ [(key, now)] else acc)
  | (m', Err _) => (m', acc)
  end.

Definition run (es : list (Z * string)) : buckets * list (string * Z) :=
  foldl attempt ([], []) es.

Definition acceptedOf (key : string) (acc : list (string * Z)) : list Z :=
  (List.filter (λ p, String.eqb p.1 key) acc).*2.

Definition bucketOf (key : string) (m : buckets) : list Z := orElse (mget key m) [].

(** Any [L + 1] successive acceptances span at least the window. *)
Definition spaced (ts : list Z) : Prop :=
  ∀ i a b, ts !! i = Some a → ts !! (i + Z.to_nat L)%nat = Some b → a + W ≤ b.

(** A bucket against the acceptances of its key, at time [T]. *)
Definition tracks (T : Z) (ts bucket : list Z) : Prop :=
  (∃ old, ts = old ++ bucket ∧ Forall (λ t, t ≤ T - W) old) ∧
  Z.of_nat (length bucket) ≤ L ∧ spaced ts.

Lemma dropStale_split cutoff b :
  ∃ dropped, b = dropped ++ dropStale cutoff b ∧ Forall (λ t, t ≤ cutoff) dropped.
Proof.
  induction b as [|t b (d & Heq & Hd)]; simpl; [by exists []|].
  case_if; zbool; [by exists []|]. exists (t :: d). split; [simpl; by f_equal|by constructor].
Qed.

Lemma pruneBucket_bucketOf cutoff key key' m :
  bucketOf key' (pruneBucket cutoff key m) =
    if decide (key' = key) then dropStale cutoff (bucketOf key' m) else bucketOf key' m.
Proof.
  unfold pruneBucket, bucketOf. destruct (mget key m) as [b|] eqn:Hk; simpl.
  - destruct (dropStale cutoff b) eqn:Hd; rewrite ?mget_mdel, ?mget_mset;
      case_decide; subst; rewrite ?Hk; simpl; try done; by rewrite Hd.
  - case_decide; subst; [by rewrite Hk|done].
Qed.

Lemma tracks_prune T now ts b :
  T ≤ now → tracks T ts b → tracks now ts (dropStale (now - W) b).
Proof.
  intros HT ((old & -> & Hold) & Hlen & Hsp).
  destruct (dropStale_split (now - W) b) as (d & Heq & Hd).
  split_and!; [exists (old ++ d); split|..].
  - by rewrite <- app_assoc, <- Heq.
  - apply Forall_app; split; [|done]. eapply Forall_impl; [exact Hold|]. simpl. lia.
  - assert (length b = (length d + length (dropStale (now - W) b))%nat)
      by (rewrite Heq at 1; apply length_app). lia.
  - done.
Qed.

Lemma tracks_accept now ts b :
  tracks now ts b → Z.of_nat (length b) < L → tracks now (ts ++ [now]) (b ++ [now]).
Proof.
  intros ((old & -> & Hold) & _ & Hsp) Hlt. split_and!.
  - exists old. by rewrite <- app_assoc.
  - rewrite length_app. simpl. lia.
  - intros i x y Hx Hy. rewrite lookup_app in Hx, Hy.
    destruct ((old ++ b) !! (i + Z.to_nat L)%nat) as [y'|] eqn:Ey.
    + destruct ((old ++ b) !! i) as [x'|] eqn:Ex; simplify_eq; [by eapply Hsp|].
      apply lookup_ge_None in Ex. apply lookup_lt_Some in Ey. lia.
    + apply lookup_ge_None in Ey. apply list_lookup_singleton_Some in Hy as [Hi <-].
      rewrite length_app in Ey, Hi.
      destruct ((old ++ b) !! i) as [x'|] eqn:Ex; simplify_eq.
      * rewrite lookup_app_l in Ex by lia. rewrite Forall_lookup in Hold.
        specialize (Hold _ _ Ex). simpl in Hold. lia.
      * apply lookup_ge_None in Ex. rewrite length_app in Ex. lia.
Qed.

Lemma acceptedOf_snoc key key' now acc :
  acceptedOf key (acc ++ [(key', now)]) =
    if decide (key = key') then acceptedOf key acc ++ [now] else acceptedOf key acc.
Proof.
  unfold acceptedOf. rewrite List.filter_app, fmap_app. simpl.
  destruct (String.eqb_spec key' key); case_decide; subst; try done. by rewrite app_nil_r.
Qed.

Lemma tracks_attempt T m acc now key key' :
  T ≤ now → (∀ k, tracks T (acceptedOf k acc) (bucketOf k m)) →
  tracks now (acceptedOf key' (attempt (m, acc) (now, key)).2)
    (bucketOf key' (attempt (m, acc) (now, key)).1).
Proof.
  intros HT Hall. unfold attempt, tryAcquire.
  set (m1 := pruneBucket (now - W) key m).
  assert (∀ k, tracks now (acceptedOf k acc) (bucketOf k m1)) as Hm1.
  { intros k. unfold m1. rewrite pruneBucket_bucketOf. pose proof (Hall k) as Hk.
    case_decide; [by eapply tracks_prune|].
    destruct Hk as ((old & -> & Hold) & ? & ?). split_and!; [exists old; split|..]; try done.
    eapply Forall_impl; [exact Hold|]. simpl. lia. }
  fold (bucketOf key m1). destruct (Z.leb_spec L (Z.of_nat (length (bucketOf key m1)))).
  - destruct (mget key m1) as [[|o b]|]; apply Hm1.
  - simpl. rewrite acceptedOf_snoc. unfold bucketOf at 1. rewrite mget_mset.
    case_decide; subst; simpl; [by apply tracks_accept|apply Hm1].
Qed.

(** Attempts in the order of the clock. *)
Inductive ordered : Z → list (Z * string) → Prop :=
| ordered_nil T : ordered T []
| ordered_snoc T now key es : ordered T es → T ≤ now → ordered now (es ++ [(now, key)]).

Lemma limiter_tracks_run T es key :
  ordered T es → tracks T (acceptedOf key (run es).2) (bucketOf key (run es).1).
Proof.
  intros Ho. revert key. unfold run. induction Ho as [T|T now k es _ IH HT]; intros key.
  - split_and!; [by exists []|simpl; lia|by intros i a b Ha].
  - rewrite foldl_app. cbn [foldl]. destruct (foldl attempt _ es) as [m acc].
    by eapply tracks_attempt.
Qed.

(** C40: no launch source outruns its budget.  With a limit [L] and a window [W],
    however the attempts of all sources are interleaved, any [L + 1] successive
    accepted creations of one source span at least [W] milliseconds, and a bucket
    never holds more than [L] entries. *)
Theorem budget_respected T es key :
  ordered T es →
  (∀ i a b, acceptedOf key (run es).2 !! i = Some a →
     acceptedOf key (run es).2 !! (i + Z.to_nat L)%nat = Some b → a + W ≤ b) ∧
  Z.of_nat (length (bucketOf key (run es).1)) ≤ L.
Proof. intros Ho. by destruct (limiter_tracks_run T es key Ho) as (_ & ? & ?). Qed.

(** The retry hint is exact.  When an attempt is rejected, a retry of the same
    source before [retryAfterMs] has passed is rejected again, and one made when
    it has passed is accepted. *)
Theorem retryAfter_exact T es now key v later :
  ordered T es → T ≤ now →
  (tryAcquire now L W key (run es).1).2 = Ok v → allowed v = false → now ≤ later →
  ∃ v', (tryAcquire later L W key (tryAcquire now L W key (run es).1).1).2 = Ok v' ∧
    (later < now + retryAfterMs v → allowed v' = false) ∧
    (later = now + retryAfterMs v → allowed v' = true).
Proof.
  intros Ho HT Hv Hrej Hlater.
  pose proof (tracks_prune T now _ _ HT (limiter_tracks_run T es key Ho)) as (_ & Hlen & _).
  revert Hv. unfold tryAcquire. set (m1 := pruneBucket (now - W) key (run es).1).
  assert (bucketOf key m1 = dropStale (now - W) (bucketOf key (run es).1)) as Hb.
  { unfold m1. by rewrite pruneBucket_bucketOf, decide_True. }
  fold (bucketOf key m1). rewrite <- Hb in Hlen.
  destruct (Z.leb_spec L (Z.of_nat (length (bucketOf key m1)))) as [Hge|];
    [|intros [= <-]; discriminate Hrej].
  destruct (mget key m1) as [[|oldest b]|] eqn:Hm; simpl; [discriminate| |discriminate].
  intros [= <-]. simpl. fold (bucketOf key (pruneBucket (later - W) key m1)).
  rewrite pruneBucket_bucketOf, decide_True by done.
  assert (bucketOf key m1 = oldest :: b) as Hbo by (unfold bucketOf; by rewrite Hm).
  rewrite Hbo in Hge, Hlen |- *. cbn [length] in *.
  assert (now - W < oldest) as Hlive.
  { rewrite Hbo in Hb. clear -Hb. induction (bucketOf key (run es).1) as [|t l IH]; simpl in Hb;
      [done|]. case_if_in Hb; [zbool; by simplify_eq|auto]. }
  assert (max0 (oldest + W - now) = oldest + W - now) as -> by (unfold max0; lia).
  cbn [dropStale]. destruct (Z.ltb_spec (later - W) oldest) as [Hl|Hl].
  - cbn [length]. destruct (Z.leb_spec L (Z.of_nat (S (length b)))); [|lia].
    assert (mget key (pruneBucket (later - W) key m1) = Some (oldest :: b)) as ->.
    { unfold pruneBucket. rewrite Hm. cbn [dropStale].
      destruct (Z.ltb_spec (later - W) oldest); [|lia]. apply mget_mset_eq. }
    eexists; split_and!; [done|done|simpl; lia].
  - destruct (dropStale_split (later - W) b) as (d & Hd & _).
    assert (length b = (length d + length (dropStale (later - W) b))%nat)
      by (rewrite Hd at 1; apply length_app).
    destruct (Z.leb_spec L (Z.of_nat (length (dropStale (later - W) b)))); [lia|].
    eexists; split_and!; [done|simpl; lia|done].
Qed.
End Run.

Lemma sampleOrdered : ordered 5 [(0, "cli"); (5, "cli")].
Proof.
  apply (ordered_snoc 0 5 "cli" [(0, "cli")]); [|lia].
  apply (ordered_snoc 0 0 "cli" []); [constructor|lia].
Qed.

Lemma budget_respected_witness :
  Z.of_nat (length (bucketOf "cli" (run 2 10 [(0, "cli"); (5, "cli")]).1)) ≤ 2.
Proof. apply (budget_respected 2 10 ltac:(lia) 5 [(0, "cli"); (5, "cli")] "cli"), sampleOrdered. Defined.

Lemma retryAfter_exact_witness :
  ∃ v', (tryAcquire 10 2 10 "cli" (tryAcquire 6 2 10 "cli" (run 2 10 [(0, "cli"); (5, "cli")]).1).1).2
    = Ok v' ∧ (10 < 6 + 4 → allowed v' = false) ∧ (10 = 6 + 4 → allowed v' = true).
Proof.
  apply (retryAfter_exact 2 10 ltac:(lia) 5 [(0, "cli"); (5, "cli")] 6 "cli"
    (mkVerdict false "cli" 2 2 10 4) 10 sampleOrdered);
    [lia|reflexivity|reflexivity|lia].
Defined.

End Limiter.
