(* ===== verification/TaskTypes.v ===== *)
(** * The task record and its parts

    The data types of [src/core/task-read-model.ts], [src/core/task-status.ts],
    [src/core/session-read-model.ts], [src/core/usage-types.ts] and of the
    contracts in [src/shared/contracts].  A [Date] and an ISO timestamp are the
    time value they denote; a nested value the modelled code only stores and
    copies is its JSON text; an amount of money is an exact integer, with
    [None] for a value that is not finite. *)

From Stdlib Require QArith.
From S2P Require Import Prelude JsMap AgentEvents.
Local Open Scope Z_scope.

Abbreviation iso := (option Z).

(** ** Status *)

Inductive TaskStatus :=
| ts_open | ts_pending | ts_inProgress | ts_completed | ts_terminated | ts_cancelled.

#[export] Instance TaskStatus_eq_dec : EqDecision TaskStatus.
Proof. solve_decision. Defined.

Definition isTerminalStatus (s : TaskStatus) : bool :=
  match s with
  | ts_completed | ts_terminated | ts_cancelled => true
  | ts_open | ts_pending | ts_inProgress => false
  end.

Definition isActiveStatus (s : TaskStatus) : bool := negb (isTerminalStatus s).

Inductive TerminationReason :=
| tr_server_restart | tr_oom | tr_timeout | tr_manual | tr_supervisor
| tr_provider_transient | tr_unknown.

Record TerminationCause := mkCause {
  tc_reason : TerminationReason;
  tc_signal : option string;
  tc_detail : option string
}.

Definition isRecoverableTermination (reason : option TerminationReason) : bool :=
  match reason with
  | Some tr_server_restart | Some tr_oom | Some tr_timeout | Some tr_unknown | None => true
  | Some tr_manual | Some tr_supervisor | Some tr_provider_transient => false
  end.

(** ** Sessions *)

Record GitInfo := mkGitInfo {
  gi_branch : option string;
  gi_commit : option string;
  gi_gitDir : option string;
  gi_isWorktree : bool;
  gi_isDetached : bool;
  gi_worktreeRoot : option string
}.

Inductive WorktreeHealth := wh_ok | wh_stale | wh_missing | wh_missing_unexpectedly | wh_cleaned_up.

Inductive ChildSessionReason := cr_subagent_hook | cr_inherited_settings | cr_unknown.

Record ChildSessionInfo := mkChild {
  ch_firstSeenAt : iso;
  ch_transcriptPath : option string;
  ch_reason : ChildSessionReason
}.

Inductive PromptDeliveryStatus := pd_open_loop | pd_confirmed | pd_assumed_submitted | pd_unconfirmed.
Inductive PromptDeliveryFailureReason := pf_assumed_after_timeout | pf_not_confirmed.

Record PromptDeliveryHealth := mkPromptDelivery {
  pd_status : PromptDeliveryStatus;
  pd_confirmationAttempts : Z;
  pd_enterWrites : Z;
  pd_observedAt : iso;
  pd_failureReason : option PromptDeliveryFailureReason
}.

(** [AgentStatus | 'completed' | 'aborted']. *)
Inductive SessionStatus :=
| ss_starting | ss_running | ss_stuck | ss_errored | ss_completed | ss_snoozed | ss_aborted.

#[export] Instance SessionStatus_eq_dec : EqDecision SessionStatus.
Proof. solve_decision. Defined.

Record SessionInfo := mkSession {
  tmuxSession : string;
  s_agentType : string;
  s_cwd : string;
  s_createdAt : Z;
  claudeSessionId : option string;
  transcriptPath : option string;
  childSessionIds : option (jmap string ChildSessionInfo);
  codexHookCapabilities : option json;
  lastStatus : option SessionStatus;
  lastTurnState : option TurnState;
  lastEventAt : option Z;
  gitBranch : option string;
  gitCommit : option string;
  gitDir : option string;
  gitIsWorktree : option bool;
  gitIsDetached : option bool;
  worktreeHealth : option WorktreeHealth;
  worktreeHealthObservedAt : iso;
  worktreeRegistryStale : option bool;
  crashRecovered : option bool;
  promptDelivery : option PromptDeliveryHealth;
  relaunchCount : option Z;
  lastRelaunchedAt : option Z;
  resumedFromCrash : option bool
}.

Definition newSession (tmux agent cwd : string) (createdAt : Z) : SessionInfo :=
  mkSession tmux agent cwd createdAt None None None None None None None None None None
    None None None None None None None None None None.

(** ** Usage, signals, provenance *)

Inductive UsageProvider := openai | anthropic.
Inductive PricingQuality := pq_exact | pq_fallback.

#[export] Instance UsageProvider_eq_dec : EqDecision UsageProvider.
Proof. solve_decision. Defined.
#[export] Instance PricingQuality_eq_dec : EqDecision PricingQuality.
Proof. solve_decision. Defined.

Record TokenUsage := mkUsage {
  inputTokens : Z;
  outputTokens : Z;
  cacheReadTokens : Z;
  cacheWriteTokens : Z;
  costUsd : option Z;
  provider : option UsageProvider;
  model : option string;
  pricingQuality : option PricingQuality
}.

Inductive AgentSignalKind := completion_ready.
Inductive SignalSource := via_http | via_outbox.

#[export] Instance AgentSignalKind_eq_dec : EqDecision AgentSignalKind.
Proof. solve_decision. Defined.

Record PendingAgentSignal := mkSignal {
  sig_kind : AgentSignalKind;
  sig_note : option string;
  sig_raisedAt : iso;
  sig_signalId : option string;
  sig_source : option SignalSource
}.

Inductive TaskLaunchSource :=
| src_cli | src_ui | src_api | src_websocket | src_schedule | src_idle_refinery
| src_post_recovery | src_resource_watchdog | src_remote_chat_telegram | src_remote_relay.

#[export] Instance TaskLaunchSource_eq_dec : EqDecision TaskLaunchSource.
Proof. solve_decision. Defined.

Definition launchSourceName (s : TaskLaunchSource) : string :=
  match s with
  | src_cli => "cli" | src_ui => "ui" | src_api => "api" | src_websocket => "websocket"
  | src_schedule => "schedule" | src_idle_refinery => "idle-refinery"
  | src_post_recovery => "post-recovery" | src_resource_watchdog => "resource-watchdog"
  | src_remote_chat_telegram => "remote-chat-telegram" | src_remote_relay => "remote-relay"
  end.

Inductive TaskProvenanceKind := by_schedule | by_manual | by_parent | by_unknown.

Record TaskProvenance := mkProvenance {
  kind : TaskProvenanceKind;
  sourceId : option string
}.

Inductive DeliveryAuthorization := da_pre_authorized | da_ask_first | da_self_advancing.

#[export] Instance DeliveryAuthorization_eq_dec : EqDecision DeliveryAuthorization.
Proof. solve_decision. Defined.

Record TaskLaunchPermissionPosture := mkPosture { capturedAt : iso }.

Inductive AgentSubstitutionReason := schedule_sub | quota_rotate | task_migrate | boot_backoff.

Record AgentSubstitutionHop := mkHop {
  hop_reason : AgentSubstitutionReason;
  hop_from : string;
  hop_to : string
}.

Record TaskMetadata := mkMetadata {
  dictationSubmissionIds : option (list string);
  md_intent_keep_as_duplicate : bool;
  userInitiatedRelaunch : bool;
  launchPermissionPosture : option TaskLaunchPermissionPosture;
  md_launchSource : option TaskLaunchSource;
  agentSubstitutionChain : option (list AgentSubstitutionHop)
}.

Definition emptyMetadata : TaskMetadata := mkMetadata None false false None None None.

(** ** Launch intent and admission *)

Record TaskLaunchIntent := mkIntent {
  li_prompt : option string;
  li_cwd : option string;
  li_projectId : option string;
  li_agentType : string;
  li_modelTier : option string;
  li_effort : option string;
  li_model : option string;
  li_ralphVerdictEnv : option bool;
  li_dependencies : option (list string);
  li_idempotencyKey : option string
}.

(** The intent a creation without one records: the schema and the agent. *)
Definition unpinnedIntent (agentType : string) : TaskLaunchIntent :=
  mkIntent None None None agentType None None None None None None.

Inductive LaunchDependencyState := ld_healthy | ld_degraded | ld_unknown | ld_half_open.

#[export] Instance LaunchDependencyState_eq_dec : EqDecision LaunchDependencyState.
Proof. solve_decision. Defined.

Record TaskLaunchAdmissionDependency := mkAdmissionDep {
  dep_dependency : string;
  dep_state : LaunchDependencyState;
  dep_reason : option string
}.

Inductive ParkReason := dependency_degraded | half_open_probe_busy | half_open_waiting_for_capacity.

#[export] Instance ParkReason_eq_dec : EqDecision ParkReason.
Proof. solve_decision. Defined.

Inductive TaskLaunchAdmission :=
| parked (reason : ParkReason) (dependencies : list TaskLaunchAdmissionDependency) (parkedAt : iso)
| probing (dependencies : list TaskLaunchAdmissionDependency) (startedAt : iso)
    (sessionId : option string).

Definition isProbing (a : option TaskLaunchAdmission) : bool :=
  match a with Some (probing _ _ _) => true | _ => false end.

(** ** Dispositions and terminal receipts *)

Inductive TaskDispositionReason :=
| launch_timeout | launch_error | stale_open_launch | hung_reap | hung_suspect_ttl
| first_hook_miss | provider_paused_ttl.

Inductive TaskReapOutcome := outcome_terminated | delivered_then_hung.

Record DeliveredPr := mkDeliveredPr { pr_number : Z; pr_url : option string }.

Record TaskDisposition := mkDisposition {
  disp_reason : TaskDispositionReason;
  disp_at : iso;
  disp_source : string;
  disp_detail : option string;
  disp_outcome : option TaskReapOutcome;
  disp_deliveredPr : option DeliveredPr
}.

Definition PRE_SESSION_DISPOSITION_REASONS (r : TaskDispositionReason) : bool :=
  match r with launch_timeout | launch_error | stale_open_launch => true | _ => false end.

Definition isTerminatedAtLaunch (d : option TaskDisposition) : bool :=
  match d with
  | None => false
  | Some d => PRE_SESSION_DISPOSITION_REASONS (disp_reason d)
  end.

Inductive TerminalReasonCategory :=
| completed_normal | completed_recovery | rc_server_restart | rc_timeout | rc_oom
| provider_failure | launch_failure | rc_manual | rc_supervisor | rc_unknown
| rc_unknown_legacy.

Inductive TerminalTransitionSource :=
| by_user | by_watchdog | by_restart_recovery | by_provider_admission | by_schedule_runner
| by_task_self | by_supervisor | by_unknown_source | by_unknown_legacy.

Inductive TerminalWorkDisposition :=
| wd_completed | wd_relaunched | wd_recovered | wd_superseded | wd_abandoned | wd_unknown.

#[export] Instance TerminalReasonCategory_eq_dec : EqDecision TerminalReasonCategory.
Proof. solve_decision. Defined.
#[export] Instance TerminalTransitionSource_eq_dec : EqDecision TerminalTransitionSource.
Proof. solve_decision. Defined.
#[export] Instance TerminalWorkDisposition_eq_dec : EqDecision TerminalWorkDisposition.
Proof. solve_decision. Defined.

Record TaskTerminalReceipt := mkReceipt {
  rc_status : TaskStatus;
  rc_reason : TerminalReasonCategory;
  rc_source : TerminalTransitionSource;
  rc_at : iso;
  rc_priorState : option TaskStatus;
  rc_recoveryCorrelationId : option string;
  rc_workDisposition : TerminalWorkDisposition;
  rc_detail : option string;
  rc_bookkeepingError : option string
}.

Record TerminalTransitionContext := mkContext {
  cx_source : option TerminalTransitionSource;
  cx_reason : option TerminalReasonCategory;
  cx_recoveryCorrelationId : option string;
  cx_workDisposition : option TerminalWorkDisposition;
  cx_detail : option string
}.

Definition noContext : TerminalTransitionContext := mkContext None None None None None.

Inductive CompletionPath :=
| cp_normal | cp_outbox_drained | cp_recovery | cp_api_complete | cp_ui_complete
| cp_other | cp_unknown.

(** ** Digest, feedback, loop *)

Record CompletionDigest := mkDigest {
  bullets : list string;
  filesChanged : list string;
  testSummary : option string;
  cd_branch : option string;
  commits : option (list string);
  prUrls : option (list string);
  mergeCommit : option string;
  verificationCommands : option (list string);
  cd_tokenUsage : option json;
  criteriaVerdict : option json
}.

Inductive FeedbackRating := up | down.
Inductive DownReason := agent_behavior | my_prompt.

#[export] Instance FeedbackRating_eq_dec : EqDecision FeedbackRating.
Proof. solve_decision. Defined.
#[export] Instance DownReason_eq_dec : EqDecision DownReason.
Proof. solve_decision. Defined.

Record TaskCompletionFeedback := mkFeedback {
  rating : FeedbackRating;
  fb_note : option string;
  downReason : option DownReason
}.

(** The Ralph loop state, its configuration and the targets it has given up; a cost is
    an exact number of the unit [costUsd] has. *)
Inductive RalphLoopStatus := rl_running | rl_paused | rl_completed | rl_failed | rl_cancelled.

#[export] Instance RalphLoopStatus_eq_dec : EqDecision RalphLoopStatus.
Proof. solve_decision. Defined.

Inductive RalphIterationExitReason :=
| xr_predicate_satisfied | xr_predicate_timeout | xr_iteration_cap | xr_zero_diff_convergence
| xr_cost_cap | xr_cancelled | xr_paused | xr_kookr_crash | xr_session_dead
| xr_predicate_error | xr_continued | xr_target_stalled | xr_all_targets_stalled
| xr_iteration_cost_cap | xr_replaced_by_user | xr_first_hook_miss | xr_unknown.

#[export] Instance RalphIterationExitReason_eq_dec : EqDecision RalphIterationExitReason.
Proof. solve_decision. Defined.

Inductive RalphNeedsHumanReason := budget_exhausted | relaunch_exhausted.

Record RalphLoopNeedsHuman := mkNeedsHuman {
  nh_reason : RalphNeedsHumanReason;
  nh_exitReason : RalphIterationExitReason;
  nh_since : Z;
  nh_detail : string
}.

Inductive LoopShape := single_target | multi_target.

#[export] Instance LoopShape_eq_dec : EqDecision LoopShape.
Proof. solve_decision. Defined.

Record RalphStallConfig := mkStallConfig {
  consecutiveStallsPerTarget : option Z;
  loopShape : option LoopShape;
  consecutiveStallsForSingleTargetTermination : option Z;
  declaredTargets : option (list string);
  burnedTargetDecayIterations : option Z;
  iterationCostCapUsd : option Z;
  consecutiveIterationCostCapHits : option Z
}.

(** [permanent] is only ever stored as [true], or deleted. *)
Record BurnedOutTarget := mkBurned {
  bt_target : string;
  consecutiveStallCount : Z;
  totalStallCount : Z;
  firstStalledAtIteration : Z;
  lastStallReason : string;
  lastStallBlockers : list string;
  bt_burned : bool;
  bt_permanent : bool;
  lastAttemptedIteration : Z
}.

(** [zeroDiffConvergence] holds the one field of its configuration record. *)
Record RalphLoopState := mkRalph {
  rl_prompt : string;
  iterationCap : Z;
  stopPredicate : option string;
  stallPredicate : option string;
  zeroDiffConvergence : option Z;
  costCapUsd : option Z;
  zeroDiffStreak : option Z;
  currentIteration : Z;
  rl_status : RalphLoopStatus;
  lastIterationStartedAt : Z;
  lastHandledStopFingerprint : option string;
  handlingStopFingerprint : option string;
  ownerSessionId : option string;
  cumulativeIterations : Z;
  stallConfig : option RalphStallConfig;
  burnedOutTargets : option (list BurnedOutTarget);
  consecutiveIterationCostCapStreak : option Z;
  lastCumulativeCostUsd : option Z;
  verdictWarningCount : option Z;
  iterationCostWarningCount : option Z;
  lastVerdictWarningReason : option string;
  needsHuman : option RalphLoopNeedsHuman;
  terminalRelaunchCount : option Z
}.

(** The claim a task holds on an issue ([issue-claim-types.ts]); an issue number is a
    whole number. *)
Record IssueClaim := mkIssueClaim {
  ic_repo : string;
  ic_number : Z;
  ic_sessionId : option string;
  ic_claimedAt : Z;
  ic_takeoverOf : option string
}.

(** ** The task *)

Module Task.

Record Task := mkTask {
  id : string;
  name : option string;
  autoNamed : bool;
  userPrompt : option string;
  prompt : string;
  cwd : string;
  criteria : option string;
  agentType : string;
  launchIntent : option TaskLaunchIntent;
  launchAdmission : option TaskLaunchAdmission;
  playbookId : option string;
  playbookSource : option json;
  playbookParameterValues : option (jmap string string);
  loadout : option json;
  configEpochAtStart : option Z;
  launchHealthSummary : option json;
  launchNote : option string;
  parentTaskId : option string;
  provenance : option TaskProvenance;
  childTaskIds : option (list string);
  migratedFromTaskId : option string;
  migratedToTaskId : option string;
  blocks : option (list string);
  blocked_by : option (list string);
  projectId : option string;
  issueClaim : option IssueClaim;
  metadata : option TaskMetadata;
  highPriority : bool;
  deliveryAuthorization : option DeliveryAuthorization;
  autoCloseOnSignal : bool;
  status : TaskStatus;
  sessions : list SessionInfo;
  tokenUsage : option TokenUsage;
  completionDigest : option CompletionDigest;
  completionFeedback : option TaskCompletionFeedback;
  reflectMeta : option json;
  pendingSignal : option PendingAgentSignal;
  completionPath : option CompletionPath;
  lessonGateExempt : option string;
  unattended : bool;
  operatorNeeded : option json;
  createdAt : Z;
  updatedAt : Z;
  finishedAt : option Z;
  terminatedAt : option Z;
  terminationReason : option TerminationReason;
  terminalReceipt : option TaskTerminalReceipt;
  terminationSignal : option string;
  terminationDetail : option string;
  retryOf : option string;
  retryAttempt : option Z;
  disposition : option TaskDisposition;
  relaunchDisposition : option json;
  launchPhaseTimings : option json;
  ralphLoop : option RalphLoopState
}.

End Task.
Abbreviation Task := Task.Task.

(** [CreateTaskOptions]. *)
Record CreateTaskOptions := mkCreate {
  co_prompt : string;
  co_userPrompt : option string;
  co_cwd : string;
  co_criteria : option string;
  co_parentTaskId : option string;
  co_launchSource : option TaskLaunchSource;
  co_scheduleId : option string;
  co_agentType : option string;
  co_launchIntent : option TaskLaunchIntent;
  co_launchAdmission : option TaskLaunchAdmission;
  co_name : option string;
  co_playbookId : option string;
  co_playbookSource : option json;
  co_playbookParameterValues : option (jmap string string);
  co_launchHealthSummary : option json;
  co_launchNote : option string;
  co_projectId : option string;
  co_metadata : option TaskMetadata;
  co_highPriority : bool;
  co_deliveryAuthorization : option DeliveryAuthorization;
  co_autoCloseOnSignal : option bool;
  co_unattended : option bool;
  co_migratedFromTaskId : option string
}.

(** The overload [createTask(prompt, cwd)]. *)
Definition createOptions (prompt cwd : string) (criteria parent : option string) :
    CreateTaskOptions :=
  mkCreate prompt None cwd criteria parent None None None None None None None None None None
    None None None false None None None None.

(** ** Relations *)

Inductive TaskRelationType :=
| spawned_by | successor_of | supervises | same_chain | depends_on | rel_blocks | related_to.
Inductive TaskRelationSource :=
| rs_api | rs_kookr_spawn | rs_hook_log | rs_playbook_state | rs_transcript
| rs_llm_inference | rs_manual.
Inductive TaskRelationLifecycle := rl_active | rl_superseded | rl_rejected.

#[export] Instance TaskRelationType_eq_dec : EqDecision TaskRelationType.
Proof. solve_decision. Defined.

Record TaskRelationEvidence := mkRelEvidence {
  ev_snippet : option string;
  ev_path : option string;
  ev_observedAt : iso
}.

(** A confidence is a rational; [None] is a value that is not finite. *)
Abbreviation confidence := (option QArith_base.Q).

Record TaskRelation := mkRelation {
  rel_id : string;
  rel_sourceTaskId : string;
  rel_targetTaskId : string;
  rel_type : TaskRelationType;
  rel_confidence : confidence;
  rel_source : TaskRelationSource;
  rel_evidence : list TaskRelationEvidence;
  rel_createdAt : iso;
  rel_updatedAt : iso;
  rel_lifecycle : TaskRelationLifecycle
}.

Record TaskRelationInput := mkRelationInput {
  ri_sourceTaskId : string;
  ri_targetTaskId : string;
  ri_type : TaskRelationType;
  ri_confidence : confidence;
  ri_source : TaskRelationSource;
  ri_evidence : option (list TaskRelationEvidence);
  ri_lifecycle : option TaskRelationLifecycle
}.

Definition DETERMINISTIC_RELATION_CONFIDENCE : confidence :=
  Some (QArith_base.Qmake 1 1).

(** [taskRelationKey]: the JSON text of a tuple is injective, so the key is the
    tuple itself. *)
Abbreviation relationKey := (string * string * TaskRelationType)%type.
Definition taskRelationKey (s t : string) (ty : TaskRelationType) : relationKey := (s, t, ty).

(** ** Provenance ([src/core/task-provenance.ts]) *)

Definition deriveTaskProvenance (parentTaskId : option string)
    (launchSource : option TaskLaunchSource) (scheduleId : option string) : TaskProvenance :=
  match parentTaskId with
  | Some p => mkProvenance by_parent (Some p)
  | None =>
      match launchSource with
      | Some src_schedule => mkProvenance by_schedule scheduleId
      | Some s => mkProvenance by_manual (Some (launchSourceName s))
      | None => mkProvenance by_unknown None
      end
  end.
