(* ===== verification/CompletionDigest.v ===== *)
(** * The storage cap of completion digests ([src/core/completion-digest.ts])

    A digest stores its bullets and changed files within a UTF-8 byte budget.  A
    string is its UTF-8 bytes, so [Buffer.byteLength] is the length; the
    truncation of a bullet backs up to the start of a character, and its result
    is again valid text when the bullet is. *)

From S2P Require Import Prelude JsString TaskTypes.
Local Open Scope Z_scope.

Module Digest.

Definition COMPLETION_DIGEST_STORAGE_MAX_BYTES : Z := 32 * 1024.

Definition utf8Bytes (s : string) : Z := Z.of_nat (String.length s).
Definition listUtf8Bytes (l : list string) : Z := foldl (λ total v, total + utf8Bytes v) 0 l.

Definition omittedMarker (count : nat) : string := "…+" +:+ showZ (Z.of_nat count) +:+ " more".

(** The first loop of [capStringListToBytes]: the items kept, last first, and
    their bytes. *)
Fixpoint keepLoop (maxBytes : Z) (items kept : list string) (used : Z) : list string * Z :=
  match items with
  | [] => (kept, used)
  | item :: rest =>
      let markerBudget :=
        if 0 <? Z.of_nat (length rest) then utf8Bytes (omittedMarker (length rest)) else 0 in
      if used + utf8Bytes item + markerBudget <=? maxBytes
      then keepLoop maxBytes rest (item :: kept) (used + utf8Bytes item)
      else (kept, used)
  end.

(** The second one: drop kept items until the marker fits. *)
Fixpoint popLoop (maxBytes : Z) (n : nat) (kept : list string) (used : Z) : list string :=
  match kept with
  | [] => []
  | item :: kept' =>
      if maxBytes <? used + utf8Bytes (omittedMarker (n - length kept))
      then popLoop maxBytes n kept' (used - utf8Bytes item)
      else kept
  end.

Definition capStringListToBytes (items : list string) (maxBytes : Z) : list string :=
  if maxBytes <=? 0 then
    match items with [] => [] | _ => [omittedMarker (length items)] end
  else if listUtf8Bytes items <=? maxBytes then items
  else
    let '(kept, used) := keepLoop maxBytes items [] 0 in
    if (length items - length kept =? 0)%nat then rev kept
    else
      let kept := popLoop maxBytes (length items) kept used in
      rev kept ++ [omittedMarker (length items - length kept)].

(** Is the byte a UTF-8 continuation byte, [(b & 0xc0) === 0x80]? *)
Definition isContinuation (c : option ascii) : bool :=
  match c with Some c => Z.land (charCodeAt c) 192 =? 128 | None => false end.

Fixpoint backUp (buf : str) (end_ : nat) : nat :=
  match end_ with
  | O => O
  | S e => if isContinuation (buf !! end_) then backUp buf e else end_
  end.

Definition truncateBulletToBytes (bullet : string) (maxBytes : Z) : string :=
  if maxBytes <=? 0 then "…"
  else if utf8Bytes bullet <=? maxBytes then bullet
  else if maxBytes <=? utf8Bytes "…" then "…"
  else
    let budget := maxBytes - utf8Bytes "…" in
    unchars (take (backUp (chars bullet) (Z.to_nat budget)) (chars bullet)) +:+ "…".

Definition capBulletsToBytes (bullets : list string) (maxBytes : Z) : list string :=
  if listUtf8Bytes bullets <=? maxBytes then bullets
  else
    let shrunk := (λ b, if maxBytes <? utf8Bytes b then truncateBulletToBytes b maxBytes else b)
                    <$> bullets in
    capStringListToBytes shrunk maxBytes.

(** The digest the code returns unchanged when both lists are the same objects is
    equal to the one it would build. *)
Definition capToBytes (maxBytes : Z) (d : CompletionDigest) : CompletionDigest :=
  let payloadBytes := listUtf8Bytes (bullets d) + listUtf8Bytes (filesChanged d) in
  if payloadBytes <=? maxBytes then d
  else
    let cappedBullets := capBulletsToBytes (bullets d) maxBytes in
    let bulletBytes := listUtf8Bytes cappedBullets in
    let fileBudget := max0 (maxBytes - bulletBytes) in
    {| d with bullets := cappedBullets;
              filesChanged := capStringListToBytes (filesChanged d) fileBudget |}.

Definition capCompletionDigestForStorage (d : CompletionDigest) : CompletionDigest :=
  capToBytes COMPLETION_DIGEST_STORAGE_MAX_BYTES d.

(** ** Byte counts *)

Lemma listUtf8Bytes_from l n : foldl (λ total v, total + utf8Bytes v) n l = n + listUtf8Bytes l.
Proof.
  unfold listUtf8Bytes. revert n. induction l as [|v l IH]; intros n; cbn [foldl]; [lia|].
  rewrite IH, (IH (0 + utf8Bytes v)). lia.
Qed.

Lemma listUtf8Bytes_cons v l : listUtf8Bytes (v :: l) = utf8Bytes v + listUtf8Bytes l.
Proof. unfold listUtf8Bytes at 1. cbn [foldl]. rewrite listUtf8Bytes_from. lia. Qed.

Lemma listUtf8Bytes_app l1 l2 : listUtf8Bytes (l1 ++ l2) = listUtf8Bytes l1 + listUtf8Bytes l2.
Proof. unfold listUtf8Bytes at 1. by rewrite foldl_app, listUtf8Bytes_from. Qed.

Lemma listUtf8Bytes_nonneg l : 0 ≤ listUtf8Bytes l.
Proof.
  induction l as [|v l IH]; [done|]. rewrite listUtf8Bytes_cons. unfold utf8Bytes. lia.
Qed.

Lemma listUtf8Bytes_rev l : listUtf8Bytes (rev l) = listUtf8Bytes l.
Proof.
  induction l as [|v l IH]; [done|]. simpl. rewrite listUtf8Bytes_app, !listUtf8Bytes_cons, IH.
  unfold listUtf8Bytes at 2. simpl. lia.
Qed.

Lemma marker_pos n : 0 < utf8Bytes (omittedMarker n).
Proof. unfold omittedMarker, utf8Bytes. simpl. lia. Qed.

(** ** What the list cap keeps *)

Lemma keepLoop_spec maxBytes items kept used :
  listUtf8Bytes kept = used → used ≤ maxBytes →
  let '(kept', used') := keepLoop maxBytes items kept used in
  ∃ k, (k ≤ length items)%nat ∧ rev kept' = rev kept ++ take k items ∧
    listUtf8Bytes kept' = used' ∧ length kept' = (length kept + k)%nat ∧ used' ≤ maxBytes.
Proof.
  revert kept used. induction items as [|item rest IH]; intros kept used Hu Hm; cbn [keepLoop].
  { exists O. rewrite app_nil_r. split_and!; [simpl; lia|done|done|lia|done]. }
  destruct (_ <=? maxBytes) eqn:E; zbool.
  - specialize (IH (item :: kept) (used + utf8Bytes item)).
    destruct (keepLoop maxBytes rest (item :: kept) (used + utf8Bytes item)) as [kept' used'].
    destruct IH as (k & Hk & Hr & Hb & Hl & Hx).
    { rewrite listUtf8Bytes_cons. lia. }
    { case_if_in E; [|lia]. pose proof (marker_pos (length rest)). lia. }
    exists (S k). simpl in *. split_and!; [lia| |done|lia|done]. rewrite Hr, <- app_assoc. done.
  - exists O. rewrite app_nil_r. split_and!; [lia|done|done|lia|done].
Qed.

Lemma popLoop_spec maxBytes n kept used :
  listUtf8Bytes kept = used →
  let kept' := popLoop maxBytes n kept used in
  ∃ k, rev kept' = take k (rev kept) ∧ length kept' = k ∧ (k ≤ length kept)%nat ∧
    (k = O ∨ listUtf8Bytes kept' + utf8Bytes (omittedMarker (n - k)) ≤ maxBytes).
Proof.
  revert used. induction kept as [|item kept IH]; intros used Hu; cbn [popLoop].
  { exists O. split_and!; [done|done|lia|by left]. }
  rewrite listUtf8Bytes_cons in Hu. case_if; zbool.
  - destruct (IH (used - utf8Bytes item)) as (k & Hr & Hl & Hle & Hb); [lia|].
    exists k. cbn [length]. split_and!; [|done|lia|done]. rewrite Hr. simpl.
    rewrite take_app_le by (rewrite length_rev; lia). done.
  - exists (length (item :: kept)). split_and!; [|done|lia|].
    + by rewrite take_ge by (rewrite length_rev; lia).
    + right. rewrite listUtf8Bytes_cons. cbn [length] in *. lia.
Qed.

(** [capped l maxBytes l']: all of [l] when it fits, else a prefix and the marker
    that counts exactly what is missing; the budget is respected unless the marker
    alone exceeds it. *)
Definition capped (l : list string) (maxBytes : Z) (l' : list string) : Prop :=
  (l' = l ∧ (l = [] ∨ listUtf8Bytes l ≤ maxBytes)) ∨
  ∃ k, (k < length l)%nat ∧ l' = take k l ++ [omittedMarker (length l - k)] ∧
    (k = O ∨ listUtf8Bytes l' ≤ maxBytes).

Lemma capStringList_capped l maxBytes : capped l maxBytes (capStringListToBytes l maxBytes).
Proof.
  unfold capStringListToBytes. case_if; zbool.
  { destruct l as [|x l]; [left; auto|]. right. exists O. simpl. split_and!; [lia|done|by left]. }
  case_if; zbool; [left; auto|].
  pose proof (keepLoop_spec maxBytes l [] 0 eq_refl) as H.
  destruct (keepLoop maxBytes l [] 0) as [kept used].
  destruct H as (k & Hk & Hr & Hu & Hl & Hx); [lia|]. simpl in Hr, Hl.
  destruct (Nat.eqb_spec (length l - length kept) 0) as [Hz|Hz].
  { rewrite take_ge in Hr by lia. rewrite <- Hr, listUtf8Bytes_rev in E0. lia. }
  destruct (popLoop_spec maxBytes (length l) kept used Hu) as (j & Hj & Hlj & Hle & Hb).
  set (kept' := popLoop maxBytes (length l) kept used) in *.
  assert (take j l = rev kept') as Ht by by rewrite Hj, Hr, take_take, Nat.min_l by lia.
  right. exists j. rewrite Hlj, <- Ht. split_and!; [lia|done|].
  destruct Hb as [|Hb]; [by left|right].
  rewrite listUtf8Bytes_app, listUtf8Bytes_cons, Ht, listUtf8Bytes_rev.
  unfold listUtf8Bytes at 2. simpl foldl. lia.
Qed.

(** ** What is stored *)

(** The cap of the bullets, as of any list, after the oversize ones are cut. *)
Definition shrinkBullets (maxBytes : Z) (l : list string) : list string :=
  (λ b, if maxBytes <? utf8Bytes b then truncateBulletToBytes b maxBytes else b) <$> l.

Definition payload (d : CompletionDigest) : Z :=
  listUtf8Bytes (bullets d) + listUtf8Bytes (filesChanged d).

Lemma capped_bytes l M l' :
  0 ≤ M → capped l M l' → listUtf8Bytes l' ≤ M ∨ l' = [omittedMarker (length l)].
Proof.
  intros HM [[-> [->|Hb]]|(k & Hk & -> & [->|Hb])]; [by left|by left| |by left].
  right. by rewrite Nat.sub_0_r.
Qed.

Lemma marker_bytes n : listUtf8Bytes [omittedMarker n] = utf8Bytes (omittedMarker n).
Proof. rewrite listUtf8Bytes_cons. unfold listUtf8Bytes. simpl foldl. lia. Qed.

(** What is kept of a digest, for any positive budget.  A digest within it is
    stored as it is.  Otherwise each list is kept whole, or as a prefix followed by
    a marker that counts exactly the items dropped, with the bullets served
    first; and the stored bytes exceed the budget by no more than the marker of
    the bullets and the marker of the files. *)
Theorem storage_cap M d :
  0 < M →
  let d' := capToBytes M d in
  (payload d ≤ M → d' = d) ∧
  (M < payload d →
     (bullets d' = bullets d ∨ capped (shrinkBullets M (bullets d)) M (bullets d')) ∧
     capped (filesChanged d) (max0 (M - listUtf8Bytes (bullets d'))) (filesChanged d') ∧
     payload d' ≤ M + utf8Bytes (omittedMarker (length (bullets d)))
                    + utf8Bytes (omittedMarker (length (filesChanged d)))).
Proof.
  intros HM d'. subst d'. unfold capToBytes. fold (payload d). split; intros Hp.
  { by rewrite (proj2 (Z.leb_le _ _) Hp). }
  rewrite (proj2 (Z.leb_gt _ _) Hp). cbn [bullets filesChanged payload].
  set (b := capBulletsToBytes (bullets d) M). set (fb := max0 (M - listUtf8Bytes b)).
  pose proof (capStringList_capped (filesChanged d) fb) as Hf.
  pose proof (capped_bytes _ _ _ (max0_nonneg _) Hf) as Hfb.
  pose proof (marker_pos (length (bullets d))). pose proof (marker_pos (length (filesChanged d))).
  assert ((b = bullets d ∧ listUtf8Bytes b ≤ M) ∨ capped (shrinkBullets M (bullets d)) M b) as Hb.
  { unfold b, capBulletsToBytes. case_if; zbool; [by left|right]. apply capStringList_capped. }
  split_and!; [naive_solver|done|]. unfold payload. cbn [bullets filesChanged].
  assert (listUtf8Bytes b ≤ M ∨ b = [omittedMarker (length (bullets d))]) as Hbb.
  { destruct Hb as [[_ ?]|Hb]; [by left|]. apply capped_bytes in Hb; [|lia].
    unfold shrinkBullets in Hb. by rewrite length_fmap in Hb. }
  assert (listUtf8Bytes b ≤ M + utf8Bytes (omittedMarker (length (bullets d)))) as Hbm.
  { destruct Hbb as [Hbb| ->]; [lia|rewrite marker_bytes; lia]. }
  assert (fb = Z.max 0 (M - listUtf8Bytes b)) as He by done. clearbody fb b.
  unfold max0 in Hfb.
  destruct Hfb as [Hfb| ->]; [|rewrite marker_bytes]; lia.
Qed.

(** The count of dropped files does not survive a reload.  When the bullets
    leave no room for the marker of the files, the digest stored has the marker
    alone in place of the files, over the budget; the cap applied again when the
    store is loaded then takes that marker for one file, and says that one file is
    missing, however many there were. *)
Theorem reload_miscounts M d :
  0 < M → M < payload d →
  let d' := capToBytes M d in
  filesChanged d' = [omittedMarker (length (filesChanged d))] →
  listUtf8Bytes (bullets d') ≤ M → M < payload d' →
  bullets (capToBytes M d') = bullets d' ∧ filesChanged (capToBytes M d') = [omittedMarker 1].
Proof.
  intros HM Hp d' Hf Hb Hp'. unfold capToBytes. fold (payload d').
  rewrite (proj2 (Z.leb_gt _ _) Hp'). cbn [bullets filesChanged].
  assert (capBulletsToBytes (bullets d') M = bullets d') as ->.
  { unfold capBulletsToBytes. by rewrite (proj2 (Z.leb_le _ _) Hb). }
  split; [done|]. unfold payload in Hp'. rewrite Hf, marker_bytes in *.
  unfold capStringListToBytes, max0. case_if; zbool; [done|].
  rewrite marker_bytes, (proj2 (Z.leb_gt _ _)) by lia. cbn [keepLoop length].
  rewrite (proj2 (Z.leb_gt _ _)); [done|]. simpl. lia.
Qed.

(** A budget of twenty bytes, filled by the bullets; three files. *)
Definition sampleDigest : CompletionDigest :=
  mkDigest ["fixed the flaky test"] ["a.ts"; "b.ts"; "c.ts"] None None None None None None None None.

Lemma storage_cap_witness :
  payload (capToBytes 20 sampleDigest) ≤ 20 + utf8Bytes (omittedMarker 1) + utf8Bytes (omittedMarker 3).
Proof.
  destruct (storage_cap 20 sampleDigest) as [_ H]; [lia|].
  destruct H as (_ & _ & H); [vm_compute; reflexivity|exact H].
Defined.

Lemma reload_miscounts_witness :
  filesChanged (capToBytes 20 sampleDigest) = [omittedMarker 3] ∧
  filesChanged (capToBytes 20 (capToBytes 20 sampleDigest)) = [omittedMarker 1].
Proof.
  split; [vm_compute; reflexivity|]. apply (reload_miscounts 20 sampleDigest); [lia| | | |].
  - vm_compute. reflexivity.
  - vm_compute. reflexivity.
  - vm_compute. discriminate.
  - vm_compute. reflexivity.
Defined.
End Digest.
