(* ===== verification/TerminalReceipt.v ===== *)
(** * Terminal receipts and the hung-task verdicts
    ([src/core/terminal-receipt.ts], [src/core/hung-task-reaper.ts]) *)

From S2P Require Import Prelude JsMap AgentEvents TaskTypes.
Local Open Scope Z_scope.

Module Receipt.

Definition reasonCategoryFromTermination (r : TerminationReason) : TerminalReasonCategory :=
  match r with
  | tr_server_restart => rc_server_restart
  | tr_oom => rc_oom
  | tr_timeout => rc_timeout
  | tr_manual => rc_manual
  | tr_supervisor => rc_supervisor
  | tr_provider_transient => provider_failure
  | tr_unknown => rc_unknown
  end.

Definition sourceFromTermination (r : TerminationReason) : TerminalTransitionSource :=
  match r with
  | tr_server_restart => by_restart_recovery
  | tr_oom | tr_timeout => by_watchdog
  | tr_manual => by_user
  | tr_supervisor => by_supervisor
  | tr_provider_transient => by_task_self
  | tr_unknown => by_unknown_source
  end.

Definition terminalContextFromCompletionPath (p : option CompletionPath) :
    TerminalTransitionContext :=
  match p with
  | Some cp_recovery =>
      mkContext (Some by_restart_recovery) (Some completed_recovery) None None None
  | Some cp_api_complete | Some cp_ui_complete =>
      mkContext (Some by_user) (Some completed_normal) None None None
  | Some cp_normal | Some cp_outbox_drained =>
      mkContext (Some by_task_self) (Some completed_normal) None None None
  | Some cp_other | Some cp_unknown | None =>
      mkContext None (Some completed_normal) None None None
  end.

Definition defaultsForStatus (s : TaskStatus) : TerminalReasonCategory * TerminalWorkDisposition :=
  match s with
  | ts_completed => (completed_normal, wd_completed)
  | ts_cancelled => (rc_manual, wd_abandoned)
  | ts_terminated => (rc_unknown, wd_abandoned)
  | _ => (rc_unknown, wd_unknown)
  end.

Definition buildTerminalReceipt (status priorState : TaskStatus) (at_ : iso)
    (context : option TerminalTransitionContext) : TaskTerminalReceipt :=
  let cx := orElse context noContext in
  let '(reason, work) := defaultsForStatus status in
  {| rc_status := status;
     rc_reason := orElse (cx_reason cx) reason;
     rc_source := orElse (cx_source cx) by_unknown_source;
     rc_at := at_;
     rc_priorState := Some priorState;
     rc_recoveryCorrelationId := cx_recoveryCorrelationId cx;
     rc_workDisposition := orElse (cx_workDisposition cx) work;
     rc_detail := cx_detail cx;
     rc_bookkeepingError := None |}.

(** The object spread [{ ...a, ...b }] of two contexts, [b] with the fields its
    caller set. *)
Definition spreadContext (a : TerminalTransitionContext) (b : option TerminalTransitionContext) :
    TerminalTransitionContext :=
  let b := orElse b noContext in
  {| cx_source := orOpt (cx_source b) (cx_source a);
     cx_reason := orOpt (cx_reason b) (cx_reason a);
     cx_recoveryCorrelationId := orOpt (cx_recoveryCorrelationId b) (cx_recoveryCorrelationId a);
     cx_workDisposition := orOpt (cx_workDisposition b) (cx_workDisposition a);
     cx_detail := orOpt (cx_detail b) (cx_detail a) |}.

Definition projectTerminalReceipt (t : Task) : option TaskTerminalReceipt :=
  if negb (isTerminalStatus (Task.status t)) then None
  else match Task.terminalReceipt t with
       | Some r => Some r
       | None =>
           let at_ := orElse (orOpt (Task.finishedAt t) (Task.terminatedAt t)) (Task.updatedAt t) in
           Some {| rc_status := Task.status t; rc_reason := rc_unknown_legacy;
                   rc_source := by_unknown_legacy; rc_at := Some at_; rc_priorState := None;
                   rc_recoveryCorrelationId := None; rc_workDisposition := wd_unknown;
                   rc_detail := None; rc_bookkeepingError := None |}
       end.

Record TerminalOutcomeAggregate := mkAggregate {
  ag_windowMs : Z;
  ag_generatedAt : Z;
  ag_total : Z;
  byReason : jmap TerminalReasonCategory Z;
  bySource : jmap TerminalTransitionSource Z;
  byStatus : jmap TaskStatus Z;
  byWorkDisposition : jmap TerminalWorkDisposition Z
}.

(** [h[k] = (h[k] ?? 0) + 1]. *)
Definition bump {K} `{EqDecision K} (k : K) (h : jmap K Z) : jmap K Z :=
  mset k (orElse (mget k h) 0 + 1) h.

(** One round of the aggregation loop. *)
Definition aggregateOne (cutoff : Z) (g : TerminalOutcomeAggregate) (t : Task) :
    TerminalOutcomeAggregate :=
  match projectTerminalReceipt t with
  | None => g
  | Some r =>
      match rc_at r with
      | None => g
      | Some atMs =>
          if atMs <? cutoff then g
          else {| g with ag_total := ag_total g + 1;
                         byReason := bump (rc_reason r) (byReason g);
                         bySource := bump (rc_source r) (bySource g);
                         byStatus := bump (rc_status r) (byStatus g);
                         byWorkDisposition := bump (rc_workDisposition r) (byWorkDisposition g) |}
      end
  end.

Definition aggregateTerminalOutcomes (tasks : list Task) (nowMs windowMs : Z) :
    TerminalOutcomeAggregate :=
  foldl (aggregateOne (nowMs - windowMs)) (mkAggregate windowMs nowMs 0 [] [] [] []) tasks.

(** ** Lemmas *)

(** The receipt an aggregation counts a task under. *)
Definition countedReceipt (cutoff : Z) (t : Task) : option TaskTerminalReceipt :=
  match projectTerminalReceipt t with
  | Some r => match rc_at r with
              | Some atMs => if atMs <? cutoff then None else Some r
              | None => None
              end
  | None => None
  end.

Definition total {K} (h : jmap K Z) : Z := foldr Z.add 0 (mvals h).

Lemma total_mset {K} `{EqDecision K} (k : K) v h :
  total (mset k v h) = total h - orElse (mget k h) 0 + v.
Proof.
  unfold total, mvals, orElse. induction h as [|[k' n] h IH]; [simpl; lia|].
  unfold mget, mset. fold (mget k h) (mset k v h).
  destruct (decide (k = k')) as [->|Hne]; csimpl; [simpl; lia|]. rewrite IH. lia.
Qed.

Lemma total_bump {K} `{EqDecision K} (k : K) h : total (bump k h) = total h + 1.
Proof. unfold bump. rewrite total_mset. lia. Qed.

Lemma mget_bump {K} `{EqDecision K} (k k' : K) h :
  orElse (mget k' (bump k h)) 0 = orElse (mget k' h) 0 + (if decide (k' = k) then 1 else 0).
Proof. unfold bump. rewrite mget_mset. case_decide; subst; simpl; lia. Qed.

(** What the loop has established after the tasks [ts]. *)
Definition aggregates (cutoff : Z) (ts : list Task) (g : TerminalOutcomeAggregate) : Prop :=
  let n p := Z.of_nat (countb (λ t, if countedReceipt cutoff t is Some r then p r else false) ts) in
  ag_total g = n (λ _, true) ∧
  total (byReason g) = ag_total g ∧ total (bySource g) = ag_total g ∧
  total (byStatus g) = ag_total g ∧ total (byWorkDisposition g) = ag_total g ∧
  (∀ k, orElse (mget k (byReason g)) 0 = n (λ r, bool_decide (rc_reason r = k))) ∧
  (∀ k, orElse (mget k (byStatus g)) 0 = n (λ r, bool_decide (rc_status r = k))).

Lemma aggregateOne_counted cutoff g t :
  aggregateOne cutoff g t =
    match countedReceipt cutoff t with
    | None => g
    | Some r => {| g with ag_total := ag_total g + 1;
                          byReason := bump (rc_reason r) (byReason g);
                          bySource := bump (rc_source r) (bySource g);
                          byStatus := bump (rc_status r) (byStatus g);
                          byWorkDisposition := bump (rc_workDisposition r) (byWorkDisposition g) |}
    end.
Proof. unfold aggregateOne, countedReceipt. by repeat case_match. Qed.

Lemma aggregates_snoc cutoff ts g t :
  aggregates cutoff ts g → aggregates cutoff (ts ++ [t]) (aggregateOne cutoff g t).
Proof.
  unfold aggregates. intros (H1 & H2 & H3 & H4 & H5 & H6 & H7).
  rewrite aggregateOne_counted. destruct (countedReceipt cutoff t) as [r|] eqn:Hr; simpl.
  - split_and!; intros; rewrite ?total_bump, ?mget_bump, ?countb_app, ?countb_cons, ?Hr;
      rewrite ?countb_nil; simpl; try lia.
    + rewrite H6. repeat case_match; repeat case_decide; repeat case_bool_decide; subst;
        simpl; try done; lia.
    + rewrite H7. repeat case_match; repeat case_decide; repeat case_bool_decide; subst;
        simpl; try done; lia.
  - split_and!; intros; rewrite ?countb_app, ?countb_cons, ?Hr, ?countb_nil, ?H6, ?H7; simpl; lia.
Qed.

(** The outcome report loses no terminal task and counts none twice.  Its
    total is the number of tasks with a dated terminal receipt inside the
    window, each of the four histograms adds up to that total, and the reason
    and status counts are the numbers of such receipts. *)
Theorem aggregate_exact tasks nowMs windowMs :
  aggregates (nowMs - windowMs) tasks (aggregateTerminalOutcomes tasks nowMs windowMs).
Proof.
  unfold aggregateTerminalOutcomes.
  induction tasks as [|t ts IH] using rev_ind; [by split_and!|].
  rewrite foldl_app. by apply aggregates_snoc.
Qed.

(** A receipt built without a declared cause is still typed, and never marked
    legacy. *)
Lemma buildTerminalReceipt_typed status prior at_ cx :
  (∀ c, cx = Some c → cx_reason c ≠ Some rc_unknown_legacy) →
  rc_reason (buildTerminalReceipt status prior at_ cx) ≠ rc_unknown_legacy.
Proof.
  intros Hcx. unfold buildTerminalReceipt.
  destruct cx as [c|]; [specialize (Hcx c eq_refl)|]; destruct status; simpl; try done;
    destruct (cx_reason c); simpl in *; congruence.
Qed.

End Receipt.

Module HungTask.

Definition DEFAULT_HUNG_TASK_REAP_MS : Z := 180 * 60 * 1000.

(** The fields of [MergedPrAttribution] the reaper reads. *)
Record MergedPrAttribution := mkMerged { prNumber : Z; prUrl : option string }.

Definition classifyReapOutcome (merged : option MergedPrAttribution) : TaskReapOutcome :=
  if merged is Some _ then delivered_then_hung else outcome_terminated.

(** [showNumber] prints the number, as a template literal does. *)
Definition buildReapDisposition (showNumber : Z → string) (merged : option MergedPrAttribution)
    (at_ : iso) : TaskDisposition :=
  let d := mkDisposition hung_reap at_ "hung-task-reaper" None
             (Some (classifyReapOutcome merged)) None in
  match merged with
  | None => d
  | Some m =>
      {| d with
         disp_deliveredPr := Some (mkDeliveredPr (prNumber m) (truthyStr (prUrl m)));
         disp_detail := Some ("Delivered PR #" +:+ showNumber (prNumber m)
           +:+ " before hanging; reaped after prolonged silence.") |}
  end.

Record HungTaskLivenessEvidence := mkLiveness {
  lv_lastHookEventAt : Z;
  lv_lastPaneChangeAt : Z;
  lv_lastTokenActivityAt : Z
}.

Definition lastActivityAt (l : HungTaskLivenessEvidence) : Z :=
  Z.max (Z.max (lv_lastHookEventAt l) (lv_lastPaneChangeAt l)) (lv_lastTokenActivityAt l).

Definition hasRecentLiveness (l : HungTaskLivenessEvidence) (now withinMs : Z) : bool :=
  now - lastActivityAt l <? withinMs.

Inductive HungTaskReapIneligibleReason := has_pending_signal | not_in_progress | not_silent_enough.

Inductive HungTaskReapVerdict :=
| eligible (silentForMs : Z)
| ineligible (reason : HungTaskReapIneligibleReason).

Definition evaluateHungTaskReap (status : TaskStatus) (pendingSignal : option PendingAgentSignal)
    (l : HungTaskLivenessEvidence) (now : Z) (thresholdMs : option Z) : HungTaskReapVerdict :=
  if isSome pendingSignal then ineligible has_pending_signal
  else if negb (bool_decide (status = ts_inProgress)) then ineligible not_in_progress
  else
    let thresholdMs := orElse thresholdMs DEFAULT_HUNG_TASK_REAP_MS in
    let silentForMs := now - lastActivityAt l in
    if silentForMs <? thresholdMs then ineligible not_silent_enough
    else eligible silentForMs.

Record HungSuspectEvidence := mkSuspect {
  queuedAnomalyIsStale : bool;
  liveness : option HungTaskLivenessEvidence;
  toolInProgress : bool;
  unconditionalStaleThresholdMs : Z
}.

Definition isEligible (v : HungTaskReapVerdict) : bool :=
  match v with eligible _ => true | ineligible _ => false end.

Definition isTaskHungSuspect (status : TaskStatus) (pendingSignal : option PendingAgentSignal)
    (e : HungSuspectEvidence) (now : Z) : bool :=
  if queuedAnomalyIsStale e then true
  else if toolInProgress e then false
  else match liveness e with
       | None => false
       | Some l => isEligible (evaluateHungTaskReap status pendingSignal l now
                                 (Some (unconditionalStaleThresholdMs e)))
       end.

(** The reaper takes only tasks that are in progress, have raised no signal
    and have been silent on all three channels for the threshold, and it takes every
    such task. *)
Theorem reap_only_silent status sig l now thr :
  (∃ silent, evaluateHungTaskReap status sig l now thr = eligible silent) ↔
  sig = None ∧ status = ts_inProgress ∧
  (∀ t, t ∈ [lv_lastHookEventAt l; lv_lastPaneChangeAt l; lv_lastTokenActivityAt l] →
     orElse thr DEFAULT_HUNG_TASK_REAP_MS ≤ now - t).
Proof.
  unfold evaluateHungTaskReap. set (T := orElse thr DEFAULT_HUNG_TASK_REAP_MS).
  assert ((∀ t, t ∈ [lv_lastHookEventAt l; lv_lastPaneChangeAt l; lv_lastTokenActivityAt l] →
     T ≤ now - t) ↔ T ≤ now - lastActivityAt l) as ->.
  { unfold lastActivityAt. split.
    - intros H. apply Z.max_case_strong; intros _; [apply Z.max_case_strong; intros _|];
        apply H; set_solver.
    - intros H t. rewrite !elem_of_cons, elem_of_nil. intros [->|[->|[->|[]]]]; lia. }
  destruct sig; simpl; [split; [by intros [? ?]|by intros [? _]]|].
  case_bool_decide; simpl; [|split; [by intros [? ?]|by intros (_ & ? & _)]].
  destruct (Z.ltb_spec (now - lastActivityAt l) T); split; try done; try lia.
  - by intros [? ?].
  - intros _. by eexists.
Qed.

(** The hung-suspect projection is an early warning for the reaper: with no
    tool in progress and a stale threshold no larger than the reap threshold,
    every task the reaper would take is already shown as suspect. *)
Theorem suspect_before_reap status sig e l now thr :
  liveness e = Some l → toolInProgress e = false →
  unconditionalStaleThresholdMs e ≤ orElse thr DEFAULT_HUNG_TASK_REAP_MS →
  isEligible (evaluateHungTaskReap status sig l now thr) = true →
  isTaskHungSuspect status sig e now = true.
Proof.
  intros Hl Ht Hle. unfold isTaskHungSuspect, evaluateHungTaskReap. rewrite Hl, Ht.
  destruct (queuedAnomalyIsStale e), sig; try done; simpl.
  case_bool_decide; simpl; [|done].
  destruct (Z.ltb_spec (now - lastActivityAt l) (orElse thr DEFAULT_HUNG_TASK_REAP_MS)); [done|].
  destruct (Z.ltb_spec (now - lastActivityAt l) (unconditionalStaleThresholdMs e)); [lia|done].
Qed.

Lemma suspect_before_reap_witness :
  isTaskHungSuspect ts_inProgress None (mkSuspect false (Some (mkLiveness 1 2 3)) false 1500000)
    20000000 = true.
Proof.
  apply (suspect_before_reap ts_inProgress None
    (mkSuspect false (Some (mkLiveness 1 2 3)) false 1500000) (mkLiveness 1 2 3) 20000000 None);
    [reflexivity|reflexivity|vm_compute; discriminate|reflexivity].
Defined.

End HungTask.
