(* ===== verification/SessionRegistry.v ===== *)
(** * The session registry ([src/core/session-registry.ts])

    The facet of the task store that attaches and patches sessions.  The source
    writes it against the port [SessionRegistryHost]; here that port is the class
    [SessionHost], with the laws a host must satisfy in [SessionHostLaws].  The
    operations and their theorems are stated for any host; [TaskStore.v] gives
    the instance. *)

From S2P Require Import Prelude JsMap JsString AgentEvents TaskTypes.
Local Open Scope Z_scope.

(** The port.  The registry reads the live record with [getTask] and writes its
    fields through that reference, marking the task dirty: [writeTask]. *)
Class SessionHost (H : Type) := {
  hostGet : string → H → option Task;
  hostWrite : string → Task → H → H;
  onSessionAttached : string → H → H
}.

Class SessionHostLaws (H : Type) `{SessionHost H} := {
  hostGet_write i t h : hostGet i (hostWrite i t h) = Some t;
  hostGet_write_ne i j t h : i ≠ j → hostGet i (hostWrite j t h) = hostGet i h;
  hostGet_attached i j h : hostGet i (onSessionAttached j h) = hostGet i h
}.

Module Registry.
Import Task.

Inductive registry_error :=
| NoSuchTask (id : string)
| NoSuchSession (tmux : string)
| CannotAttachTerminal (id : string) (s : TaskStatus)
| CannotAttachParked (id : string)
| CannotAttachAborted (tmux id : string)
| AlreadyAttached (tmux id : string).

Definition hasSession (tmux : string) (t : Task) : bool :=
  existsb (λ s, String.eqb (tmuxSession s) tmux) (sessions t).

Definition findSession (tmux : string) (t : Task) : option SessionInfo :=
  List.find (λ s, String.eqb (tmuxSession s) tmux) (sessions t).

(** A write through the reference [sessions.find] returned. *)
Fixpoint updSession (tmux : string) (f : SessionInfo → SessionInfo) (l : list SessionInfo) :
    list SessionInfo :=
  match l with
  | [] => []
  | s :: l' => if String.eqb (tmuxSession s) tmux then f s :: l' else s :: updSession tmux f l'
  end.

(** [collectDurablyAdoptedSessionIds]; the [Set] keeps first occurrences. *)
Definition collectDurablyAdoptedSessionIds (ts : list Task) : jmap string unit :=
  foldl (λ ids t,
      if isTerminalStatus (status t) then ids
      else foldl (λ ids s, if bool_decide (lastStatus s = Some ss_aborted) then ids
                           else mset (tmuxSession s) tt ids) ids (sessions t)) [] ts.

(** Sessions of a task that are not known dead. *)
Definition liveSiblings (t : Task) : list SessionInfo :=
  List.filter (λ s, negb (bool_decide (lastStatus s = Some ss_completed))
                    && negb (bool_decide (lastStatus s = Some ss_aborted))
                    && negb (orElse (crashRecovered s) false)) (sessions t).

(** The guards of [addSession], in order. *)
Definition attachGuard (i : string) (session : SessionInfo) (t : Task) :
    result registry_error unit :=
  if isTerminalStatus (status t) then Err (CannotAttachTerminal i (status t))
  else if bool_decide (status t = ts_pending)
          && (if launchAdmission t is Some (parked reason _ _)
              then negb (bool_decide (reason = half_open_waiting_for_capacity)) else false)
  then Err (CannotAttachParked i)
  else match findSession (tmuxSession session) t with
       | Some existing =>
           if bool_decide (lastStatus existing = Some ss_aborted)
           then Err (CannotAttachAborted (tmuxSession session) i)
           else Err (AlreadyAttached (tmuxSession session) i)
       | None => Ok tt
       end.

(** The record after the attach: the first session starts the task. *)
Definition attachTo (now : Z) (session : SessionInfo) (t : Task) : Task :=
  {| t with sessions := sessions t ++ [session];
            updatedAt := now;
            status := match status t with
                      | ts_open | ts_pending => ts_inProgress
                      | st => st
                      end |}.

Section Ops.
Context {H : Type} `{SessionHost H}.

(** [addSession], with the sessions its duplicate warning names. *)
Definition addSession (now : Z) (i : string) (session : SessionInfo) (h : H) :
    result registry_error (H * Task * list string) :=
  match hostGet i h with
  | None => Err (NoSuchTask i)
  | Some t =>
      let! _ := attachGuard i session t in
      let h := onSessionAttached i h in
      let warned := if isSome (ralphLoop t) then [] else tmuxSession <$> liveSiblings t in
      let t' := attachTo now session t in
      Ok (hostWrite i t' h, t', warned)
  end.

Definition recordAbandonedLaunchSession (now : Z) (i : string) (session : SessionInfo) (h : H) : H :=
  match hostGet i h with
  | None => h
  | Some t =>
      if hasSession (tmuxSession session) t then h
      else
        let s := {| session with lastStatus := Some ss_aborted |} in
        hostWrite i {| t with sessions := sessions t ++ [s]; updatedAt := now |} h
  end.

(** [patch] is [Object.assign(session, patch)]. *)
Definition updateSession (now : Z) (i tmux : string) (patch : SessionInfo → SessionInfo) (h : H) :
    result registry_error (H * Task) :=
  match hostGet i h with
  | None => Err (NoSuchTask i)
  | Some t =>
      match findSession tmux t with
      | None => Err (NoSuchSession tmux)
      | Some _ =>
          let t' := {| t with sessions := updSession tmux patch (sessions t); updatedAt := now |} in
          Ok (hostWrite i t' h, t')
      end
  end.

(** The shape of the mutators that do nothing without the task or session, or
    where [f] finds nothing to write. *)
Definition patchSession (now : Z) (i tmux : string) (f : SessionInfo → option SessionInfo) (h : H) :
    H :=
  match hostGet i h with
  | None => h
  | Some t =>
      match findSession tmux t with
      | None => h
      | Some s =>
          match f s with
          | None => h
          | Some s' =>
              hostWrite i {| t with sessions := updSession tmux (λ _, s') (sessions t);
                                    updatedAt := now |} h
          end
      end
  end.

Definition recordChildSession (now : Z) (i tmux child : string) (info : ChildSessionInfo) (h : H) :
    H :=
  patchSession now i tmux (λ s,
    let existing := orElse (childSessionIds s) [] in
    if mhas child existing then None
    else Some {| s with childSessionIds := Some (mset child info existing) |}) h.

(** [x || undefined] on a boolean. *)
Definition trueOrAbsent (b : bool) : option bool := if b then Some true else None.

Definition updateSessionGitInfo (now : Z) (i tmux : string) (g : GitInfo) (h : H) : H :=
  patchSession now i tmux (λ s,
    Some {| s with gitBranch := gi_branch g; gitCommit := gi_commit g; gitDir := gi_gitDir g;
                   gitIsWorktree := trueOrAbsent (gi_isWorktree g);
                   gitIsDetached := trueOrAbsent (gi_isDetached g) |}) h.

(** [now1] is the observation time, [now2] stamps the task. *)
Definition updateSessionWorktreeHealth (now1 now2 : Z) (i tmux : string) (health : WorktreeHealth)
    (registryStale : bool) (h : H) : H :=
  patchSession now2 i tmux (λ s,
    Some {| s with worktreeHealth := Some health; worktreeHealthObservedAt := Some now1;
                   worktreeRegistryStale := trueOrAbsent registryStale |}) h.

Definition updateSessionCwd (now : Z) (i tmux dir : string) (h : H) : H :=
  patchSession now i tmux (λ s, Some {| s with s_cwd := dir |}) h.
End Ops.

(** ** Lemmas *)

Lemma findSession_has tmux t : isSome (findSession tmux t) = hasSession tmux t.
Proof.
  unfold findSession, hasSession. induction (sessions t) as [|s l IH]; simpl; [done|].
  by destruct (String.eqb (tmuxSession s) tmux).
Qed.

Lemma attachGuard_Ok i session t :
  attachGuard i session t = Ok tt ↔
  isTerminalStatus (status t) = false ∧ hasSession (tmuxSession session) t = false ∧
  (∀ reason deps at_, status t = ts_pending →
     launchAdmission t = Some (parked reason deps at_) → reason = half_open_waiting_for_capacity).
Proof.
  unfold attachGuard. rewrite <- findSession_has.
  destruct (isTerminalStatus (status t)); [by split; [|intros [? _]]|].
  destruct (findSession _ t) as [e|];
    [destruct (bool_decide (lastStatus e = Some ss_aborted))|];
    case_bool_decide; destruct (launchAdmission t) as [[]|]; simpl; try case_bool_decide; simpl;
    split; naive_solver.
Qed.

(** The session ids of a task are distinct. *)
Definition distinctSessions (t : Task) : Prop := NoDup (tmuxSession <$> sessions t).

Lemma hasSession_elem tmux t : hasSession tmux t = true ↔ tmux ∈ tmuxSession <$> sessions t.
Proof.
  unfold hasSession. rewrite existsb_exists, list_elem_of_fmap. split.
  - intros (s & Hin & Heq). zbool. exists s. by rewrite list_elem_of_In.
  - intros (s & -> & Hin). exists s. by rewrite <- list_elem_of_In, String.eqb_refl.
Qed.

Lemma distinct_snoc t s :
  distinctSessions t → hasSession (tmuxSession s) t = false →
  NoDup (tmuxSession <$> (sessions t ++ [s])).
Proof.
  intros Hd Hn. rewrite fmap_app, NoDup_app. split_and!; [done| |apply NoDup_singleton].
  intros x Hx Hin. apply list_elem_of_singleton in Hin. simpl in Hin. subst x.
  apply hasSession_elem in Hx. congruence.
Qed.

Lemma updSession_ids tmux f l :
  (∀ s, tmuxSession (f s) = tmuxSession s) →
  tmuxSession <$> updSession tmux f l = tmuxSession <$> l.
Proof.
  intros Hf. induction l as [|s l IH]; csimpl; [done|]. case_if; csimpl; by rewrite ?Hf, ?IH.
Qed.

(** Attaching a session, for any host of the registry.  It succeeds exactly
    when the task exists, is not terminal, does not hold the session already and
    is not parked on a dependency; the session is then attached once, last,
    the task is in progress, and the host is told.  A refused attach changes
    nothing, since it returns no host. *)
Theorem addSession_spec {H} `{SessionHostLaws H} now i session (h : H) :
  match addSession now i session h with
  | Err _ =>
      match hostGet i h with
      | None => True
      | Some t => isTerminalStatus (status t) = true ∨ hasSession (tmuxSession session) t = true ∨
                  (status t = ts_pending ∧ ∃ r d a, launchAdmission t = Some (parked r d a) ∧
                     r ≠ half_open_waiting_for_capacity)
      end
  | Ok (h', t', _) =>
      ∃ t, hostGet i h = Some t ∧ isTerminalStatus (status t) = false ∧
        hostGet i h' = Some t' ∧ status t' = ts_inProgress ∧
        sessions t' = sessions t ++ [session] ∧ (distinctSessions t → distinctSessions t') ∧
        ∀ j, j ≠ i → hostGet j h' = hostGet j h
  end.
Proof.
  unfold addSession. destruct (hostGet i h) as [t|] eqn:Ht; [|done].
  destruct (attachGuard i session t) as [[]|e] eqn:Hg; simpl.
  - apply attachGuard_Ok in Hg as (Hst & Hns & _).
    exists t. split_and!; try done.
    + apply hostGet_write.
    + by destruct (status t).
    + intros Hd. by apply distinct_snoc.
    + intros j Hj. by rewrite hostGet_write_ne, hostGet_attached.
  - destruct (isTerminalStatus (status t)) eqn:Hst; [by left|].
    destruct (hasSession (tmuxSession session) t) eqn:Hs; [by right; left|]. right; right.
    revert Hg. unfold attachGuard. rewrite Hst.
    case_bool_decide as Hp; simpl.
    + rewrite <- findSession_has in Hs. destruct (findSession _ t); [done|].
      destruct (launchAdmission t) as [[r d a|]|]; simpl; try done.
      case_bool_decide; simpl; [done|]. intros _. split; [done|]. eauto.
    + rewrite <- findSession_has in Hs. by destruct (findSession _ t).
Qed.

End Registry.
