(* ===== verification/CompletionSignal.v ===== *)
(** * The Stop-hook completion policy ([src/core/completion-signal.ts])

    [evaluateCompletionSignal] decides whether a task that ended a turn is
    signalled ready, reminded once, or left alone.  SHA-256 is the parameter
    [sha256hex] of the section, of which nothing is assumed. *)

From S2P Require Import Prelude JsString AgentEvents TaskTypes.
Local Open Scope Z_scope.

Definition statusName (s : TaskStatus) : string :=
  match s with
  | ts_open => "open" | ts_pending => "pending" | ts_inProgress => "inProgress"
  | ts_completed => "completed" | ts_terminated => "terminated" | ts_cancelled => "cancelled"
  end.

Module Completion.

Inductive CompletionSignalAction := auto_signal | remediate | skip.

Inductive CompletionSignalReason :=
| already_signaled | delivery_blocked | merge_required | terminal_status | not_in_progress
| unknown_task | turn_incomplete | auto_signal_authorized | remediation_needed
| remediation_already_delivered.

Record CompletionSignalEvaluationInput := mkInput {
  taskId : string;
  agentId : string;
  status : option TaskStatus;
  pendingSignalKind : option AgentSignalKind;
  deliveryAuthorization : option DeliveryAuthorization;
  deliverySatisfied : option bool;
  mergeRequired : option bool;
  mergeSatisfied : option bool;
  events : list AgentEvent;
  lastRemediationFingerprint : option string
}.

Record CompletionSignalDecision := mkDecision {
  action : CompletionSignalAction;
  reason : CompletionSignalReason;
  detail : string;
  signalId : option string;
  stateFingerprint : option string
}.

Definition isTrue (b : option bool) : bool := orElse b false.

Definition isDeliveryBlocked (i : CompletionSignalEvaluationInput) : bool :=
  bool_decide (deliveryAuthorization i = Some da_ask_first) && negb (isTrue (deliverySatisfied i)).

Definition isMergeBlocked (i : CompletionSignalEvaluationInput) : bool :=
  isTrue (mergeRequired i) && negb (isTrue (mergeSatisfied i)).

Definition isAutoSignalAuthorized (i : CompletionSignalEvaluationInput) : bool :=
  if isDeliveryBlocked i then false
  else if isMergeBlocked i then false
  else bool_decide (deliveryAuthorization i = Some da_pre_authorized)
       || isTrue (deliverySatisfied i).

Definition normalizeFinalMessage (m : string) : string :=
  unchars (trimChars (collapseWs (chars m))).

(** [event.eventSeq ?? index], printed. *)
Definition seqOrIndex (e : AgentEvent) (index : nat) : string :=
  showZ (orElse (ev_eventSeq e) (Z.of_nat index)).

(** The loop of [findTurnBoundaryId]; [n] is one more than the index under
    inspection. *)
Fixpoint findTurnBoundaryId (events : list AgentEvent) (n : nat) : string :=
  match n with
  | O => "initial-turn"
  | S index =>
      match events !! index with
      | Some e =>
          match ev_body e with
          | user_prompt _ _ | input_received | session_start _ _ _ =>
              ev_type e +:+ ":" +:+ seqOrIndex e index
          | _ => findTurnBoundaryId events index
          end
      | None => findTurnBoundaryId events index
      end
  end.

Definition SEP : string := String (ascii_of_N 31) EmptyString.

Definition authorizationName (d : option DeliveryAuthorization) : string :=
  match d with
  | None => "none"
  | Some da_pre_authorized => "pre-authorized"
  | Some da_ask_first => "ask-first"
  | Some da_self_advancing => "self-advancing"
  end.

Section Hash.
Variable sha256hex : string → string.

Definition sha256Short (v : string) : string := sliceTo 16 (sha256hex v).

(** [deriveLatestCompletionSignal]: the id of the completion evidence. *)
Definition deriveLatestCompletionSignal (taskId agentId : string) (taskStatus : option TaskStatus)
    (events : list AgentEvent) : option string :=
  if negb (bool_decide (taskStatus = Some ts_inProgress)) then None
  else
    let details := deriveTurnStateDetails events in
    if negb (bool_decide (turnState details = completed_turn)) then None
    else
      match effectiveEvent details with
      | Some e =>
          match ev_body e with
          | stop s =>
              let normalizedMessage := normalizeFinalMessage (stop_lastMessage s) in
              if String.eqb normalizedMessage "" then None
              else
                let index := Z.to_nat (effectiveEventIndex details) in
                let turnBoundaryId := orElse (ev_turnId e) (findTurnBoundaryId events index) in
                let stopEventId := "stop:" +:+ seqOrIndex e index in
                Some (sha256Short (joinWith SEP
                  [taskId; agentId; turnBoundaryId; stopEventId; sha256Short normalizedMessage]))
          | _ => None
          end
      | None => None
      end.

Definition remediationFingerprint (i : CompletionSignalEvaluationInput) (signalId : string) : string :=
  sha256Short (joinWith SEP
    [taskId i; signalId; authorizationName (deliveryAuthorization i);
     (if isTrue (deliverySatisfied i) then "delivered" else "undelivered");
     (if isTrue (mergeRequired i)
      then (if isTrue (mergeSatisfied i) then "merged" else "unmerged")
      else "merge-n/a")]).

Definition evaluateCompletionSignal (i : CompletionSignalEvaluationInput) : CompletionSignalDecision :=
  if bool_decide (pendingSignalKind i = Some completion_ready) then
    mkDecision skip already_signaled
      "Task already has a pending completion-ready signal; signaling is idempotent." None None
  else
    match deriveLatestCompletionSignal (taskId i) (agentId i) (status i) (events i) with
    | None =>
        match status i with
        | Some st =>
            if isTerminalStatus st then
              mkDecision skip terminal_status
                ("Task is " +:+ statusName st +:+ "; nothing to signal.") None None
            else if negb (bool_decide (st = ts_inProgress)) then
              mkDecision skip not_in_progress
                ("Task is " +:+ statusName st +:+ "; not a completion candidate.") None None
            else
              mkDecision skip turn_incomplete
                "No clean completed turn observed (still running, waiting, or no final message)."
                None None
        | None =>
            mkDecision skip turn_incomplete
              "No clean completed turn observed (still running, waiting, or no final message)."
              None None
        end
    | Some completion =>
        if isDeliveryBlocked i then
          mkDecision skip delivery_blocked
            "Delivery-gated task: authorized delivery not yet satisfied; refusing to signal completion."
            (Some completion) None
        else if isMergeBlocked i then
          mkDecision skip merge_required
            "Merge-authority task: PR merge not yet verified (and no PR-BLOCKER); refusing to auto-raise completion-ready."
            (Some completion) None
        else if isAutoSignalAuthorized i then
          mkDecision auto_signal auto_signal_authorized
            (if bool_decide (deliveryAuthorization i = Some da_pre_authorized)
             then "Delivery pre-authorized and turn completed cleanly; auto-raising completion-ready."
             else "Authorized delivery satisfied and turn completed cleanly; auto-raising completion-ready.")
            (Some completion) None
        else
          let fp := remediationFingerprint i completion in
          if bool_decide (lastRemediationFingerprint i = Some fp) then
            mkDecision skip remediation_already_delivered
              "Completion reminder already delivered for this task state; suppressing repeat."
              (Some completion) (Some fp)
          else
            mkDecision remediate remediation_needed
              "Turn completed cleanly but completion is not unambiguous; injecting a one-time reminder."
              (Some completion) (Some fp)
    end.

(** ** Lemmas *)

(** Completion evidence: what a turn must show to count as cleanly ended. *)
Lemma deriveLatest_evidence t a st evs c :
  deriveLatestCompletionSignal t a st evs = Some c →
  st = Some ts_inProgress ∧ deriveTurnState evs = completed_turn ∧
  ∃ e s, effectiveEvent (deriveTurnStateDetails evs) = Some e ∧ ev_body e = stop s ∧
         normalizeFinalMessage (stop_lastMessage s) ≠ "".
Proof.
  unfold deriveLatestCompletionSignal, deriveTurnState.
  case_bool_decide as H1; simpl; [|done]. case_bool_decide as H2; simpl; [|done].
  destruct (effectiveEvent _) as [e|] eqn:He; [|done].
  destruct (ev_body e) as [| | | | | |s| | | | | | |] eqn:Hb; try done.
  destruct (String.eqb_spec (normalizeFinalMessage (stop_lastMessage s)) ""); [done|].
  intros _. split_and!; [done..|]. by exists e, s.
Qed.

(** Completion is signalled on the agent's behalf only on proof: the task is
    in progress with no signal pending, its last turn ended cleanly with a
    final message, delivery is pre-authorised or satisfied, and no required
    merge is outstanding.  A task that must ask first and has not delivered is
    neither signalled nor reminded. *)
Theorem auto_signal_sound i :
  let d := evaluateCompletionSignal i in
  (action d = auto_signal →
     pendingSignalKind i ≠ Some completion_ready ∧ status i = Some ts_inProgress ∧
     deriveTurnState (events i) = completed_turn ∧
     (deliveryAuthorization i = Some da_pre_authorized ∨ deliverySatisfied i = Some true) ∧
     (mergeRequired i = Some true → mergeSatisfied i = Some true)) ∧
  (deliveryAuthorization i = Some da_ask_first → deliverySatisfied i ≠ Some true →
     action d = skip).
Proof.
  unfold evaluateCompletionSignal. case_bool_decide as Hp; [by split|].
  destruct (deriveLatestCompletionSignal _ _ _ _) as [c|] eqn:Hc.
  - apply deriveLatest_evidence in Hc as (H1 & H2 & _).
    unfold isAutoSignalAuthorized, isDeliveryBlocked, isMergeBlocked, isTrue.
    destruct (deliveryAuthorization i) as [[]|], (deliverySatisfied i) as [[]|],
      (mergeRequired i) as [[]|], (mergeSatisfied i) as [[]|]; simpl;
      repeat case_bool_decide; simpl; naive_solver.
  - destruct (status i) as [[]|]; simpl; repeat case_bool_decide; by split.
Qed.

(** Feeding a decision's fingerprint back silences the reminder. *)
Lemma remediate_once i fp :
  action (evaluateCompletionSignal i) = remediate →
  stateFingerprint (evaluateCompletionSignal i) = Some fp →
  action (evaluateCompletionSignal {| i with lastRemediationFingerprint := Some fp |}) = skip.
Proof.
  unfold evaluateCompletionSignal. simpl. case_bool_decide; [done|].
  destruct (deriveLatestCompletionSignal _ _ _ _) as [c|];
    [|destruct (status i) as [[]|]; simpl; repeat case_bool_decide; done].
  change (isDeliveryBlocked {| i with lastRemediationFingerprint := Some fp |})
    with (isDeliveryBlocked i).
  change (isMergeBlocked {| i with lastRemediationFingerprint := Some fp |})
    with (isMergeBlocked i).
  change (isAutoSignalAuthorized {| i with lastRemediationFingerprint := Some fp |})
    with (isAutoSignalAuthorized i).
  change (remediationFingerprint {| i with lastRemediationFingerprint := Some fp |} c)
    with (remediationFingerprint i c).
  generalize (remediationFingerprint i c) as fp0. intros fp0.
  repeat case_if; cbn [action stateFingerprint]; try done. intros _ [= ->].
  zbool. congruence.
Qed.
End Hash.

End Completion.
