(* ===== verification/TaskStore.v ===== *)
(** * The task store ([src/core/tasks.ts])

    [store] is the state of the class [TaskStore]; each method is a function on
    it, with its clock readings as arguments and a thrown error as [Err].  No
    method throws after its first write, so an error leaves the store as it was.
    The copies the code hands out with [structuredClone] are the immutable
    records themselves.  [randomUUID] is an argument, and so is [deterministicName],
    the placeholder naming of [task-naming.ts], of which nothing is assumed. *)

From S2P Require Import Prelude JsMap JsArray JsString AgentEvents TaskTypes TerminalReceipt.
From S2P Require Import CompletionDigest SessionRegistry CompletionSignal.
From Stdlib Require QArith.
Local Open Scope Z_scope.

Module Store.
Import Task Receipt Digest.

Inductive store_error :=
| TaskNotFound (id : string)
| ParentTaskNotFound (id : string)
| InvalidTransitionError (from to : TaskStatus)
| TaskCleanupInProgressError (id : string) (reopened : bool)
| SessionError (e : Registry.registry_error)
| CorpusSubmissionConflict
| CorpusTaskNotFound
| CorpusTaskReceiptLimit
| InvalidConfidence.

(** [VALID_TRANSITIONS]. *)
Definition VALID_TRANSITIONS (from to : TaskStatus) : bool :=
  match from, to with
  | ts_open, (ts_pending | ts_inProgress | ts_terminated | ts_cancelled) => true
  | ts_pending, (ts_inProgress | ts_cancelled) => true
  | ts_inProgress, (ts_open | ts_completed | ts_terminated | ts_cancelled) => true
  | ts_completed, ts_open => true
  | ts_terminated, (ts_open | ts_completed | ts_cancelled) => true
  | ts_cancelled, ts_open => true
  | _, _ => false
  end.

Definition claimRalphLoopOwner (session : option SessionInfo) (allowTransfer : bool) (t : Task) :
    Task :=
  match ralphLoop t, session with
  | Some loop, Some s =>
      let isTransfer :=
        match truthyStr (ownerSessionId loop) with
        | Some o => negb (String.eqb o (tmuxSession s))
        | None => false
        end in
      if isTransfer && negb allowTransfer then t
      else if negb (isSome (truthyStr (ownerSessionId loop))) || isTransfer
      then let loop' := {| loop with ownerSessionId := Some (tmuxSession s) |} in
           {| t with ralphLoop := Some loop' |}
      else t
  | _, _ => t
  end.

Definition taskSnapshotRecencyMs (t : Task) : Z :=
  Z.max (Z.max (updatedAt t) (orElse (finishedAt t) 0)) (orElse (terminatedAt t) 0).

Definition isAgedTerminalTask (cutoffMs : Z) (t : Task) : bool :=
  isTerminalStatus (status t) && (taskSnapshotRecencyMs t <? cutoffMs).

Definition LAUNCH_RESERVATION_MARGIN_MS : Z := 2 * 60 * 1000.
Definition MAX_LAUNCH_TIMEOUT_SEC : Z := 900.
Definition LAUNCH_RESERVATION_TTL_MS : Z :=
  MAX_LAUNCH_TIMEOUT_SEC * 1000 + LAUNCH_RESERVATION_MARGIN_MS.

(** The token [launch-reservation-<n>] is its sequence number. *)
Record LaunchReservation := mkReservation {
  reservedAt : Z;
  token : Z;
  countsAsActive : bool
}.

Record ProcessedSignal := mkProcessed {
  ps_taskId : string;
  ps_kind : AgentSignalKind;
  ps_atMs : Z
}.

(** A JavaScript [Set] of ids is a [Map] to the unit. *)
Abbreviation idset := (jmap string unit).

Record store := mkStore {
  tasks : jmap string Task;
  launchReservations : jmap string LaunchReservation;
  launchReservationSequence : Z;
  resumeOnNextLaunch : idset;
  relations : jmap relationKey TaskRelation;
  completionRemediation : jmap string string;
  processedSignalIds : jmap string ProcessedSignal;
  lifetimeSpendUsd : Z;
  dirtyTaskIds : idset;
  deletedTaskIds : idset;
  relationsDirty : bool;
  metaDirty : bool
}.

Definition newStore : store := mkStore [] [] 0 [] [] [] [] 0 [] [] false false.

(** ** Dirty tracking *)

Definition markTaskDirty (i : string) (s : store) : store :=
  {| s with dirtyTaskIds := mset i tt (dirtyTaskIds s);
            deletedTaskIds := mdel i (deletedTaskIds s) |}.

Definition markTaskDeleted (i : string) (s : store) : store :=
  {| s with dirtyTaskIds := mdel i (dirtyTaskIds s);
            deletedTaskIds := mset i tt (deletedTaskIds s) |}.

Definition markRelationsDirty (s : store) : store := {| s with relationsDirty := true |}.
Definition markMetaDirty (s : store) : store := {| s with metaDirty := true |}.

Record DirtyState := mkDirty {
  ds_dirtyTaskIds : list string;
  ds_deletedTaskIds : list string;
  ds_relationsDirty : bool;
  ds_metaDirty : bool
}.

Definition clearDirtyPersistence (s : store) : store :=
  {| s with dirtyTaskIds := []; deletedTaskIds := []; relationsDirty := false;
            metaDirty := false |}.

Definition drainDirtyState (s : store) : store * DirtyState :=
  (clearDirtyPersistence s,
   mkDirty (mkeys (dirtyTaskIds s)) (mkeys (deletedTaskIds s)) (relationsDirty s) (metaDirty s)).

Definition hasDirtyPersistence (s : store) : bool :=
  (0 <? Z.of_nat (msize (dirtyTaskIds s))) || (0 <? Z.of_nat (msize (deletedTaskIds s)))
  || relationsDirty s || metaDirty s.

Definition markAllDirtyForPersistence (s : store) : store :=
  {| s with dirtyTaskIds := foldl (λ d i, mset i tt d) (dirtyTaskIds s) (mkeys (tasks s));
            deletedTaskIds := []; relationsDirty := true; metaDirty := true |}.

(** The pattern of the mutators: write the record of a known task and mark it
    dirty. *)
Definition putTask (i : string) (t : Task) (s : store) : store :=
  markTaskDirty i {| s with tasks := mset i t (tasks s) |}.

(** A mutator that does nothing for an unknown task ([if (!task) return]); [f]
    returns [None] where the method returns before its first write. *)
Definition patchTask (i : string) (f : Task → option Task) (s : store) : store :=
  match mget i (tasks s) with
  | None => s
  | Some t => match f t with None => s | Some t' => putTask i t' s end
  end.

(** A mutator that throws for an unknown task and returns the new record. *)
Definition patchOrThrow (i : string) (f : Task → Task) (s : store) :
    result store_error (store * Task) :=
  match mget i (tasks s) with
  | None => Err (TaskNotFound i)
  | Some t => Ok (putTask i (f t) s, f t)
  end.

Definition touch (now : Z) (t : Task) : Task := {| t with updatedAt := now |}.

(** ** Relations *)

Definition evidenceKey (e : TaskRelationEvidence) : option string * option string :=
  (ev_snippet e, ev_path e).

(** The loop that extends [existing.evidence]; [seen] is the set of keys. *)
Definition addEvidence (existing new : list TaskRelationEvidence) : list TaskRelationEvidence :=
  foldl (λ acc ev,
      if bool_decide (evidenceKey ev ∈ evidenceKey <$> acc) then acc else acc ++ [ev])
    existing new.

Definition validConfidence (c : confidence) : bool :=
  match c with
  | None => false
  | Some q => QArith_base.Qle_bool (QArith_base.Qmake 0 1) q
              && QArith_base.Qle_bool q (QArith_base.Qmake 1 1)
  end.

Definition upsertRelation (newId : string) (now : Z) (input : TaskRelationInput) (s : store) :
    result store_error (store * TaskRelation) :=
  if negb (validConfidence (ri_confidence input)) then Err InvalidConfidence
  else
    let key := taskRelationKey (ri_sourceTaskId input) (ri_targetTaskId input) (ri_type input) in
    let inputEvidence := orElse (ri_evidence input) [] in
    let record :=
      match mget key (relations s) with
      | Some existing =>
          {| existing with rel_confidence := ri_confidence input;
                           rel_source := ri_source input;
                           rel_lifecycle := orElse (ri_lifecycle input) (rel_lifecycle existing);
                           rel_updatedAt := Some now;
                           rel_evidence := addEvidence (rel_evidence existing) inputEvidence |}
      | None =>
          {| rel_id := newId; rel_sourceTaskId := ri_sourceTaskId input;
             rel_targetTaskId := ri_targetTaskId input; rel_type := ri_type input;
             rel_confidence := ri_confidence input; rel_source := ri_source input;
             rel_evidence := inputEvidence; rel_createdAt := Some now;
             rel_updatedAt := Some now;
             rel_lifecycle := orElse (ri_lifecycle input) rl_active |}
      end in
    Ok (markRelationsDirty {| s with relations := mset key record (relations s) |}, record).

Record RelationFilter := mkRelationFilter {
  rf_sourceTaskId : option string;
  rf_targetTaskId : option string;
  rf_type : option TaskRelationType;
  rf_taskId : option string
}.

Definition matchesFilter (f : RelationFilter) (r : TaskRelation) : bool :=
  (if truthyStr (rf_sourceTaskId f) is Some x then String.eqb (rel_sourceTaskId r) x else true)
  && (if truthyStr (rf_targetTaskId f) is Some x then String.eqb (rel_targetTaskId r) x else true)
  && (if rf_type f is Some x then bool_decide (rel_type r = x) else true)
  && (if truthyStr (rf_taskId f) is Some x
      then String.eqb (rel_sourceTaskId r) x || String.eqb (rel_targetTaskId r) x else true).

Definition listRelations (f : RelationFilter) (s : store) : list TaskRelation :=
  List.filter (matchesFilter f) (mvals (relations s)).

Definition loadRelations (rs : list TaskRelation) (s : store) : store :=
  {| s with
     relations := foldl (λ m r,
         mset (taskRelationKey (rel_sourceTaskId r) (rel_targetTaskId r) (rel_type r)) r m) [] rs;
     relationsDirty := false |}.

(** ** Creation *)

Definition DEFAULT_AGENT_TYPE : string := "claude-code".

Section Operations.
(** The placeholder name of a display prompt in a directory. *)
Variable deterministicName : CreateTaskOptions → string.

(** An explicit policy wins; otherwise an autonomous child inherits the
    parent's. *)
Definition inheritPolicy (explicit : option bool) (parent : option Task) (field : Task → bool) :
    bool :=
  match explicit with
  | Some b => b
  | None => orElse (field <$> parent) false
  end.

(** The record [createTask] builds, before it is stored. *)
Definition buildTask (newId : string) (now : Z) (o : CreateTaskOptions) (s : store) : Task :=
  let inheritsParentPolicy :=
    negb (orElse (userInitiatedRelaunch <$> co_metadata o) false) in
  let parentForInherit :=
    if inheritsParentPolicy then p ← co_parentTaskId o; mget p (tasks s) else None in
  let effectiveAgentType := orElse (co_agentType o) DEFAULT_AGENT_TYPE in
  let explicitName := truthyStr (trim <$> co_name o) in
  {| id := newId;
     name := Some (orElse explicitName (deterministicName o));
     autoNamed := negb (isSome explicitName);
     userPrompt := co_userPrompt o; prompt := co_prompt o; cwd := co_cwd o;
     criteria := co_criteria o; agentType := effectiveAgentType;
     launchIntent := Some (orElse (co_launchIntent o) (unpinnedIntent effectiveAgentType));
     launchAdmission := co_launchAdmission o;
     playbookId := truthyStr (co_playbookId o); playbookSource := co_playbookSource o;
     playbookParameterValues := co_playbookParameterValues o;
     loadout := None; configEpochAtStart := None;
     launchHealthSummary := co_launchHealthSummary o;
     launchNote := truthyStr (co_launchNote o);
     parentTaskId := co_parentTaskId o;
     provenance := Some (deriveTaskProvenance (co_parentTaskId o) (co_launchSource o)
                           (co_scheduleId o));
     childTaskIds := None;
     migratedFromTaskId := truthyStr (co_migratedFromTaskId o); migratedToTaskId := None;
     blocks := None; blocked_by := None;
     projectId := truthyStr (co_projectId o); issueClaim := None;
     metadata := co_metadata o; highPriority := co_highPriority o;
     deliveryAuthorization := co_deliveryAuthorization o;
     autoCloseOnSignal := inheritPolicy (co_autoCloseOnSignal o) parentForInherit autoCloseOnSignal;
     status := ts_open; sessions := []; tokenUsage := None; completionDigest := None;
     completionFeedback := None; reflectMeta := None; pendingSignal := None;
     completionPath := None; lessonGateExempt := None;
     unattended := inheritPolicy (co_unattended o) parentForInherit unattended;
     operatorNeeded := None; createdAt := now; updatedAt := now; finishedAt := None;
     terminatedAt := None; terminationReason := None; terminalReceipt := None;
     terminationSignal := None; terminationDetail := None; retryOf := None;
     retryAttempt := None; disposition := None; relaunchDisposition := None;
     launchPhaseTimings := None; ralphLoop := None |}.

Definition appendChild (child : string) (now : Z) (p : Task) : Task :=
  {| p with childTaskIds := Some (orElse (childTaskIds p) [] ++ [child]); updatedAt := now |}.

Definition spawnedByInput (child parent : string) (now : Z) : TaskRelationInput :=
  mkRelationInput child parent spawned_by DETERMINISTIC_RELATION_CONFIDENCE rs_api
    (Some [mkRelEvidence (Some ("parentTaskId set on createTask for " +:+ child)) None (Some now)])
    None.

(** [newId] and [newRelId] are the uuids; [now2] stamps the parent and [now3] the
    relation. *)
Definition createTask (newId newRelId : string) (now now2 now3 : Z) (o : CreateTaskOptions)
    (s : store) : result store_error (store * Task) :=
  let task := buildTask newId now o s in
  match co_parentTaskId o with
  | None => Ok (putTask newId task s, task)
  | Some p =>
      if negb (mhas p (tasks s)) then Err (ParentTaskNotFound p)
      else
        let s := putTask newId task s in
        let s := patchTask p (λ t, Some (appendChild newId now2 t)) s in
        let! (s, _) := upsertRelation newRelId now3 (spawnedByInput newId p now) s in
        Ok (s, task)
  end.

Definition hasReceipt (submissionId : string) (t : Task) : bool :=
  match metadata t with
  | Some m => existsb (String.eqb submissionId) (orElse (dictationSubmissionIds m) [])
  | None => false
  end.

Definition findTaskByDictationSubmission (submissionId : string) (s : store) : option Task :=
  List.find (hasReceipt submissionId) (mvals (tasks s)).

Definition recordDictationSubmission (taskId submissionId : string) (s : store) :
    result store_error store :=
  match findTaskByDictationSubmission submissionId s with
  | Some existing =>
      if String.eqb (id existing) taskId then Ok s else Err CorpusSubmissionConflict
  | None =>
      match mget taskId (tasks s) with
      | None => Err CorpusTaskNotFound
      | Some t =>
          let m := orElse (metadata t) emptyMetadata in
          let receipts := orElse (dictationSubmissionIds m) [] in
          if 128 <=? Z.of_nat (length receipts) then Err CorpusTaskReceiptLimit
          else
            let m' := {| m with dictationSubmissionIds := Some (receipts ++ [submissionId]) |} in
            Ok (putTask taskId {| t with metadata := Some m' |} s)
      end
  end.

Definition getTask (i : string) (s : store) : option Task := mget i (tasks s).

Definition setMigrationLink (now : Z) (source continuation : string) (s : store) : store :=
  patchTask source (λ t, Some {| t with migratedToTaskId := Some continuation; updatedAt := now |}) s.

(** [getTaskForMutation] marks the record and hands out the live one. *)
Definition getTaskForMutation (i : string) (s : store) : store * option Task :=
  match mget i (tasks s) with
  | Some t => (markTaskDirty i s, Some t)
  | None => (s, None)
  end.

(** [runRalphMutation] marks the record and runs a synchronous mutator on the live one; a mutator
    that only returns it hands it out as well. *)
Definition runRalphMutation (i : string) (mutator : Task → Task) (s : store) : store :=
  patchTask i (λ t, Some (mutator t)) s.

(** A write through a reference that was handed out, perhaps several [await]s earlier: nothing is
    marked, and a record that was deleted since is not in the store any more. *)
Definition writeLive (i : string) (f : Task → Task) (s : store) : store :=
  match mget i (tasks s) with
  | Some t => {| s with tasks := mset i (f t) (tasks s) |}
  | None => s
  end.

(** ** Signals *)

Definition getPendingSignal (i : string) (s : store) : option PendingAgentSignal :=
  t ← mget i (tasks s); pendingSignal t.

(** The loop of [compactProcessedSignalIds] that drops expired entries. *)
Definition SIGNAL_TTL_MS : Z := 24 * 60 * 60 * 1000.
Definition SIGNAL_MAX_ENTRIES : Z := 2000.

Definition compactProcessedSignalIds (now : Z) (s : store) : store :=
  let live := List.filter (λ p, negb (SIGNAL_TTL_MS <? now - ps_atMs p.2)) (processedSignalIds s) in
  let m :=
    if Z.of_nat (msize live) <=? SIGNAL_MAX_ENTRIES then live
    else
      let ordered := sort_by (λ a b, ps_atMs a.2 - ps_atMs b.2) live in
      let drop := Z.to_nat (Z.of_nat (msize live) - SIGNAL_MAX_ENTRIES) in
      foldl (λ m p, mdel p.1 m) live (take drop ordered) in
  {| s with processedSignalIds := m |}.

Definition recordProcessedSignal (now : Z) (signalId taskId : string) (k : AgentSignalKind)
    (s : store) : store :=
  compactProcessedSignalIds now
    {| s with processedSignalIds :=
         mset signalId (mkProcessed taskId k now) (processedSignalIds s) |}.

Definition getProcessedSignal (now : Z) (signalId : string) (s : store) :
    store * option (string * AgentSignalKind) :=
  let s := compactProcessedSignalIds now s in
  (s, (λ e, (ps_taskId e, ps_kind e)) <$> mget signalId (processedSignalIds s)).

(** The signal a raise leaves pending. *)
Definition mergeSignal (existing : option PendingAgentSignal) (signal : PendingAgentSignal) :
    PendingAgentSignal :=
  match existing with
  | Some e =>
      if bool_decide (sig_kind e = sig_kind signal) then
        {| e with
           sig_note := orOpt (sig_note signal) (sig_note e);
           sig_signalId := if truthyStr (sig_signalId e) is Some _ then sig_signalId e
                           else orOpt (truthyStr (sig_signalId signal)) (sig_signalId e);
           sig_source := orOpt (sig_source e) (sig_source signal) |}
      else signal
  | None => signal
  end.

(** [now1] stamps the processed id, [now2] the task. *)
Definition setPendingSignal (now1 now2 : Z) (i : string) (signal : PendingAgentSignal) (s : store) :
    store * bool :=
  match mget i (tasks s) with
  | None => (s, false)
  | Some t =>
      let t' := {| t with pendingSignal := Some (mergeSignal (pendingSignal t) signal);
                          updatedAt := now2 |} in
      let s := putTask i t' s in
      (match truthyStr (sig_signalId signal) with
       | Some sid => recordProcessedSignal now1 sid i (sig_kind signal) s
       | None => s
       end, true)
  end.

Definition getCompletionRemediationFingerprint (i : string) (s : store) : option string :=
  mget i (completionRemediation s).

Definition recordCompletionRemediation (i fingerprint : string) (s : store) : store :=
  {| s with completionRemediation := mset i fingerprint (completionRemediation s) |}.

Definition clearPendingSignal (now : Z) (i : string) (s : store) : store * bool :=
  match getPendingSignal i s with
  | None => (s, false)
  | Some _ => (patchTask i (λ t, Some {| t with pendingSignal := None; updatedAt := now |}) s, true)
  end.

Definition setOperatorNeeded (now : Z) (i : string) (flag : json) (s : store) : store * bool :=
  match mget i (tasks s) with
  | None => (s, false)
  | Some t =>
      if isSome (operatorNeeded t) then (s, false)
      else (putTask i {| t with operatorNeeded := Some flag; updatedAt := now |} s, true)
  end.

(** ** Views *)

Definition listTasks (st : option TaskStatus) (s : store) : list Task :=
  match st with
  | Some x => List.filter (λ t, bool_decide (status t = x)) (mvals (tasks s))
  | None => mvals (tasks s)
  end.

Definition viewTasks (s : store) : list Task := mvals (tasks s).

Definition viewLiveTasks (s : store) : list Task :=
  List.filter (λ t, negb (isTerminalStatus (status t))) (mvals (tasks s)).

Definition countTasks (st : option TaskStatus) (liveOnly : bool) (s : store) : nat :=
  countb (λ t, (if st is Some x then bool_decide (status t = x) else true)
               && negb (liveOnly && isTerminalStatus (status t))) (mvals (tasks s)).

Definition sessionIds (ts : list Task) : list string := ts ≫= (λ t, tmuxSession <$> sessions t).

(** The tasks to send, with the session ids of the terminal tasks left out
    ([droppedTerminalSessions]).  [maxTerminal] is the cap, an absent or invalid
    one being [None]. *)
Definition listTasksForSnapshot (cutoff maxTerminal : option Z) (s : store) :
    list Task * list string :=
  let all := mvals (tasks s) in
  let aged t := if cutoff is Some c then isAgedTerminalTask c t else false in
  match maxTerminal with
  | None => (List.filter (λ t, negb (aged t)) all, sessionIds (List.filter aged all))
  | Some cap =>
      let always := List.filter (λ t, negb (isTerminalStatus (status t))) all in
      let candidates := List.filter (λ t, isTerminalStatus (status t) && negb (aged t)) all in
      let agedOut := List.filter (λ t, isTerminalStatus (status t) && aged t) all in
      if cap <? Z.of_nat (length candidates) then
        let sorted := sort_by (λ a b, taskSnapshotRecencyMs b - taskSnapshotRecencyMs a) candidates in
        (always ++ take (Z.to_nat cap) sorted,
         sessionIds agedOut ++ sessionIds (drop (Z.to_nat cap) sorted))
      else (always ++ candidates, sessionIds agedOut)
  end.

(** ** Lifecycle *)

(** What [transition] does to the record. *)
Definition moveTask (now : Z) (to : TaskStatus) (cx : option TerminalTransitionContext) (t : Task) :
    Task :=
  let priorState := status t in
  let dependencyAdmission := isSome (launchAdmission t) in
  let dependencyCleanupFence := isProbing (launchAdmission t) in
  let t := {| t with status := to; updatedAt := now |} in
  let t :=
    if isTerminalStatus to then
      let effectiveContext :=
        if bool_decide (to = ts_completed)
        then Some (spreadContext (terminalContextFromCompletionPath (completionPath t)) cx)
        else cx in
      {| t with finishedAt := Some (orElse (finishedAt t) now);
                terminalReceipt :=
                  Some (buildTerminalReceipt to priorState (Some now) effectiveContext) |}
    else {| t with finishedAt := None |} in
  if dependencyAdmission && isTerminalStatus to && negb dependencyCleanupFence
  then {| t with launchAdmission := None; launchHealthSummary := None |}
  else t.

Definition transition (now : Z) (i : string) (to : TaskStatus)
    (cx : option TerminalTransitionContext) (s : store) : result store_error (store * Task) :=
  match mget i (tasks s) with
  | None => Err (TaskNotFound i)
  | Some t =>
      if negb (VALID_TRANSITIONS (status t) to) then Err (InvalidTransitionError (status t) to)
      else
        let t' := moveTask now to cx t in
        let s := if isTerminalStatus to
                 then {| s with resumeOnNextLaunch := mdel i (resumeOnNextLaunch s) |} else s in
        Ok (putTask i t' s, t')
  end.

Definition startTask (now : Z) (i : string) (s : store) := transition now i ts_inProgress None s.
Definition completeTask (now : Z) (i : string) (cx : option TerminalTransitionContext) (s : store) :=
  transition now i ts_completed cx s.
Definition cancelTask (now : Z) (i : string) (cx : option TerminalTransitionContext) (s : store) :=
  transition now i ts_cancelled cx s.
Definition pendTask (now : Z) (i : string) (s : store) := transition now i ts_pending None s.

(** The fields [terminateTask] writes after the transition. *)
Definition stampTermination (now : Z) (reason : TerminationReason) (cause : option TerminationCause)
    (t : Task) : Task :=
  {| t with terminatedAt := Some now; terminationReason := Some reason;
            terminationSignal :=
              orOpt (truthyStr (c ← cause; tc_signal c)) (terminationSignal t);
            terminationDetail :=
              orOpt (truthyStr (c ← cause; tc_detail c)) (terminationDetail t) |}.

(** [now1] is read by the transition, [now2] stamps [terminatedAt]; the task is
    already marked dirty when the last fields are written. *)
Definition terminateTask (now1 now2 : Z) (i : string) (cause : option TerminationCause)
    (cx : option TerminalTransitionContext) (s : store) : result store_error (store * Task) :=
  let reason := orElse (tc_reason <$> cause) tr_unknown in
  let derived :=
    spreadContext
      (mkContext (Some (sourceFromTermination reason)) (Some (reasonCategoryFromTermination reason))
         None None (c ← cause; tc_detail c)) cx in
  let! (s, t) := transition now1 i ts_terminated (Some derived) s in
  let t' := stampTermination now2 reason cause t in
  Ok ({| s with tasks := mset i t' (tasks s) |}, t').

Definition setDisposition (now : Z) (i : string) (d : TaskDisposition) (s : store) : store :=
  patchTask i (λ t,
    if isSome (disposition t) then None
    else Some {| t with disposition := Some d; updatedAt := now |}) s.

Definition setRelaunchDisposition (now : Z) (i : string) (d : json) (s : store) : store :=
  patchTask i (λ t,
    if isSome (relaunchDisposition t) then None
    else Some {| t with relaunchDisposition := Some d; updatedAt := now |}) s.

Definition recordRecoveryDisposition (now : Z) (i : string) (work : TerminalWorkDisposition)
    (correlation : option string) (s : store) : store :=
  patchTask i (λ t,
    match terminalReceipt t with
    | None => None
    | Some r =>
        let r' := {| r with rc_workDisposition := work;
                            rc_recoveryCorrelationId :=
                              orOpt correlation (rc_recoveryCorrelationId r) |} in
        Some {| t with terminalReceipt := Some r'; updatedAt := now |}
    end) s.

Definition recordTerminalBookkeepingError (now : Z) (i message : string) (s : store) : store :=
  patchTask i (λ t,
    match terminalReceipt t with
    | None => None
    | Some r =>
        if truthyStr (rc_bookkeepingError r) is Some _ then None
        else let r' := {| r with rc_bookkeepingError := Some message |} in
             Some {| t with terminalReceipt := Some r'; updatedAt := now |}
    end) s.

Definition setLaunchPhaseTimings (i : string) (timings : json) (s : store) : store :=
  patchTask i (λ t, Some {| t with launchPhaseTimings := Some timings |}) s.

Definition setLaunchAdmission (now : Z) (i : string) (a : option TaskLaunchAdmission) (s : store) :=
  patchOrThrow i (λ t, {| t with launchAdmission := a; updatedAt := now |}) s.

Definition setLaunchHealthSummary (now : Z) (i : string) (x : option json) (s : store) :=
  patchOrThrow i (λ t, {| t with launchHealthSummary := x; updatedAt := now |}) s.

Definition setLoadout (now : Z) (i : string) (x : option json) (s : store) :=
  patchOrThrow i (λ t, {| t with loadout := x; updatedAt := now |}) s.

Definition setConfigEpochAtStart (now : Z) (i : string) (epoch : Z) (s : store) :=
  patchOrThrow i (λ t, {| t with configEpochAtStart := Some epoch; updatedAt := now |}) s.

Definition setLaunchNote (now : Z) (i : string) (note : option string) (s : store) :=
  patchOrThrow i (λ t, {| t with launchNote := note; updatedAt := now |}) s.

Definition reopenTask (now : Z) (i : string) (s : store) : result store_error (store * Task) :=
  match mget i (tasks s) with
  | None => Err (TaskNotFound i)
  | Some t =>
      if isProbing (launchAdmission t) then Err (TaskCleanupInProgressError i true)
      else transition now i ts_open None s
  end.

Definition requestResumeOnNextLaunch (i : string) (s : store) : store :=
  {| s with resumeOnNextLaunch := mset i tt (resumeOnNextLaunch s) |}.
Definition wantsResumeOnNextLaunch (i : string) (s : store) : bool := mhas i (resumeOnNextLaunch s).
Definition takeResumeOnNextLaunch (i : string) (s : store) : store * bool :=
  ({| s with resumeOnNextLaunch := mdel i (resumeOnNextLaunch s) |}, mhas i (resumeOnNextLaunch s)).

(** Unlink a child from its parent. *)
Definition unlinkChild (now : Z) (child : string) (p : Task) : option Task :=
  match childTaskIds p with
  | None => None
  | Some cs => Some {| p with childTaskIds :=
                         Some (List.filter (λ c, negb (String.eqb c child)) cs);
                       updatedAt := now |}
  end.

Definition mentions (i : string) (r : TaskRelation) : bool :=
  String.eqb (rel_sourceTaskId r) i || String.eqb (rel_targetTaskId r) i.

Definition deleteTask (now : Z) (i : string) (s : store) : result store_error store :=
  match mget i (tasks s) with
  | None => Err (TaskNotFound i)
  | Some t =>
      if isProbing (launchAdmission t) then Err (TaskCleanupInProgressError i false)
      else
        let s := {| s with launchReservations := mdel i (launchReservations s);
                           resumeOnNextLaunch := mdel i (resumeOnNextLaunch s);
                           completionRemediation := mdel i (completionRemediation s) |} in
        let s := match truthyStr (parentTaskId t) with
                 | Some p => patchTask p (unlinkChild now i) s
                 | None => s
                 end in
        let s := markTaskDeleted i {| s with tasks := mdel i (tasks s) |} in
        let kept := List.filter (λ p, negb (mentions i p.2)) (relations s) in
        let droppedRelation := existsb (λ p, mentions i p.2) (relations s) in
        let s := {| s with relations := kept |} in
        Ok (if droppedRelation then markRelationsDirty s else s)
  end.

(** ** Launch reservations *)

(** [hasFreshLaunchReservation] drops a reservation it finds stale. *)
Definition hasFreshLaunchReservation (now : Z) (i : string) (s : store) : store * bool :=
  match mget i (launchReservations s) with
  | None => (s, false)
  | Some r =>
      if LAUNCH_RESERVATION_TTL_MS <=? now - reservedAt r
      then ({| s with launchReservations := mdel i (launchReservations s) |}, false)
      else (s, true)
  end.

(** [now1] is read by the freshness test, [now2] stamps the reservation. *)
Definition beginReservationWithToken (now1 now2 : Z) (i : string) (active : bool) (s : store) :
    store * option Z :=
  match mget i (tasks s) with
  | None => (s, None)
  | Some t =>
      if negb (bool_decide (status t = ts_open)) && negb (bool_decide (status t = ts_pending))
      then (s, None)
      else
        let '(s, fresh) := hasFreshLaunchReservation now1 i s in
        if fresh then (s, None)
        else
          let n := launchReservationSequence s + 1 in
          ({| s with launchReservationSequence := n;
                     launchReservations := mset i (mkReservation now2 n active)
                                             (launchReservations s) |}, Some n)
  end.

Definition beginLaunchWithToken (now1 now2 : Z) (i : string) (s : store) :=
  beginReservationWithToken now1 now2 i true s.
Definition beginLaunchPersistenceWithToken (now1 now2 : Z) (i : string) (s : store) :=
  beginReservationWithToken now1 now2 i false s.

Definition tokenOf (i : string) (s : store) : option Z := token <$> mget i (launchReservations s).

Definition endLaunch (i : string) (tok : Z) (s : store) : store :=
  if bool_decide (tokenOf i s = Some tok)
  then {| s with launchReservations := mdel i (launchReservations s) |} else s.

Definition ownsLaunchReservation (now : Z) (i : string) (tok : Z) (s : store) : store * bool :=
  let '(s, fresh) := hasFreshLaunchReservation now i s in
  (s, fresh && bool_decide (tokenOf i s = Some tok)).

Definition hasForeignFreshLaunchReservation (now : Z) (i : string) (tok : Z) (s : store) :
    store * bool :=
  let '(s, fresh) := hasFreshLaunchReservation now i s in
  (s, fresh && negb (bool_decide (tokenOf i s = Some tok))).

Definition hasFreshActiveLaunchReservation (now : Z) (i : string) (s : store) : store * bool :=
  let '(s, fresh) := hasFreshLaunchReservation now i s in
  (s, fresh && orElse (countsAsActive <$> mget i (launchReservations s)) false).

(** The scans read the clock once for each reservation they test: [clock i] is
    the reading for task [i]. *)
Definition getActiveCount (clock : string → Z) (s : store) : store * nat :=
  foldl (λ acc t,
      let '(s, n) := acc in
      if bool_decide (status t = ts_inProgress) then (s, S n)
      else if bool_decide (status t = ts_open) || bool_decide (status t = ts_pending) then
        let '(s, active) := hasFreshActiveLaunchReservation (clock (id t)) (id t) s in
        (s, if active then S n else n)
      else (s, n)) (s, O) (mvals (tasks s)).

Definition getNextPending (clock : string → Z) (s : store) : store * option Task :=
  foldl (λ acc t,
      let '(s, oldest) := acc in
      if bool_decide (status t = ts_pending) then
        let '(s, fresh) := hasFreshLaunchReservation (clock (id t)) (id t) s in
        (s, if fresh then oldest
            else match oldest with
                 | None => Some t
                 | Some o => if createdAt t <? createdAt o then Some t else oldest
                 end)
      else (s, oldest)) (s, None) (mvals (tasks s)).

Definition getPendingCount (s : store) : nat :=
  countb (λ t, bool_decide (status t = ts_pending)
               && (if launchAdmission t is Some (parked r _ _)
                   then bool_decide (r = half_open_waiting_for_capacity) else true))
    (mvals (tasks s)).

(** ** Field updates *)

Definition renameTask (now : Z) (i newName : string) (s : store) :=
  patchOrThrow i (λ t, {| t with name := truthyStr (Some (trim newName)); autoNamed := false;
                                 updatedAt := now |}) s.

Definition setTaskPriority (now : Z) (i : string) (high : bool) (s : store) :=
  patchOrThrow i (λ t, {| t with highPriority := high; updatedAt := now |}) s.

Definition setTaskEdges (now : Z) (i : string) (newBlocks newBlockedBy : option (list string))
    (s : store) :=
  patchOrThrow i (λ t, {| t with blocks := orOpt newBlocks (blocks t);
                                 blocked_by := orOpt newBlockedBy (blocked_by t);
                                 updatedAt := now |}) s.

Definition setCompletionDigest (now : Z) (i : string) (digest : CompletionDigest) (s : store) : store :=
  patchTask i (λ t,
    let capped := capCompletionDigestForStorage digest in
    let verdict := orOpt (criteriaVerdict capped) (d ← completionDigest t; criteriaVerdict d) in
    let d := match verdict with
             | Some v => {| capped with criteriaVerdict := Some v |}
             | None => capped
             end in
    Some {| t with completionDigest := Some d; updatedAt := now |}) s.

Definition setCriteriaVerdict (now : Z) (i : string) (verdict : json) (s : store) : store :=
  patchTask i (λ t,
    let d := orElse (completionDigest t) (mkDigest ["Task completed"] [] None None None None None None None None) in
    let d' := {| d with criteriaVerdict := Some verdict |} in
    Some {| t with completionDigest := Some d'; updatedAt := now |}) s.

Definition setRetryLineage (now : Z) (i root : string) (attempt : Z) (s : store) : store :=
  patchTask i (λ t, Some {| t with retryOf := Some root; retryAttempt := Some attempt;
                                   updatedAt := now |}) s.

Definition sameFeedback (a b : TaskCompletionFeedback) : bool :=
  bool_decide (rating a = rating b)
  && String.eqb (orElse (fb_note a) "") (orElse (fb_note b) "")
  && bool_decide (downReason a = downReason b).

Definition setCompletionFeedback (now : Z) (i : string) (fb : TaskCompletionFeedback) (s : store) :
    store * bool :=
  match mget i (tasks s) with
  | None => (s, false)
  | Some t =>
      if (if completionFeedback t is Some e then sameFeedback e fb else false) then (s, false)
      else (putTask i {| t with completionFeedback := Some fb; updatedAt := now |} s, true)
  end.

Definition setReflectMeta (now : Z) (i : string) (meta : json) (s : store) : store :=
  patchTask i (λ t, Some {| t with reflectMeta := Some meta; updatedAt := now |}) s.

(** [Object.keys(metadata).length > 0]. *)
Definition metadataEmpty (m : TaskMetadata) : bool :=
  negb (isSome (dictationSubmissionIds m)) && negb (md_intent_keep_as_duplicate m)
  && negb (userInitiatedRelaunch m) && negb (isSome (launchPermissionPosture m))
  && negb (isSome (md_launchSource m)) && negb (isSome (agentSubstitutionChain m)).

Definition withPosture (posture : option TaskLaunchPermissionPosture) (m : option TaskMetadata) :
    option TaskMetadata :=
  match posture, m with
  | Some p, _ => let m := orElse m emptyMetadata in
                 Some {| m with launchPermissionPosture := Some p |}
  | None, Some m =>
      if isSome (launchPermissionPosture m) then
        let m' := {| m with launchPermissionPosture := None |} in
        if metadataEmpty m' then None else Some m'
      else Some m
  | None, None => None
  end.

Definition setLaunchPermissionPosture (now : Z) (i : string)
    (posture : option TaskLaunchPermissionPosture) (s : store) :=
  patchOrThrow i (λ t, {| t with metadata := withPosture posture (metadata t); updatedAt := now |}) s.

(** The cost a task already accounts for: [task.tokenUsage?.costUsd ?? 0]. *)
Definition accountedCost (t : Task) : option Z :=
  match tokenUsage t with None => Some 0 | Some u => costUsd u end.

Definition updateTokenUsage (now : Z) (i : string) (usage : TokenUsage) (s : store) :
    result store_error (store * Task) :=
  match mget i (tasks s) with
  | None => Err (TaskNotFound i)
  | Some t =>
      let s := match costUsd usage, accountedCost t with
               | Some c, Some previousCost =>
                   if 0 <=? c
                   then markMetaDirty
                          {| s with lifetimeSpendUsd := lifetimeSpendUsd s + (c - previousCost) |}
                   else s
               | _, _ => s
               end in
      let t' := {| t with tokenUsage := Some usage; updatedAt := now |} in
      Ok (putTask i t' s, t')
  end.

Definition setProjectId (now : Z) (i project : string) (s : store) : store :=
  patchTask i (λ t, Some {| t with projectId := Some project; updatedAt := now |}) s.

Definition setIssueClaim (now : Z) (i : string) (claim : IssueClaim) (s : store) : store :=
  patchTask i (λ t, Some {| t with issueClaim := Some claim; updatedAt := now |}) s.

Definition clearIssueClaim (now : Z) (i : string) (s : store) : store :=
  patchTask i (λ t, if isSome (issueClaim t)
                    then Some {| t with issueClaim := None; updatedAt := now |} else None) s.

Definition setAgentType (now : Z) (i agent : string) (s : store) : store :=
  patchTask i (λ t, Some {| t with agentType := agent; updatedAt := now |}) s.

(** ** Usage roll-up *)

Record Rollup := mkRollup {
  ru_input : Z; ru_output : Z; ru_cacheRead : Z; ru_cacheWrite : Z; ru_cost : Z;
  ru_saw : bool;
  ru_provider : option UsageProvider; ru_model : option string;
  ru_quality : option PricingQuality; ru_qualityComplete : bool;
  ru_providerUniform : bool; ru_modelUniform : bool
}.

Definition emptyRollup : Rollup := mkRollup 0 0 0 0 0 false None None None true true true.

Definition addUsage (r : Rollup) (u : TokenUsage) : Rollup :=
  {| ru_input := ru_input r + inputTokens u;
     ru_output := ru_output r + outputTokens u;
     ru_cacheRead := ru_cacheRead r + cacheReadTokens u;
     ru_cacheWrite := ru_cacheWrite r + cacheWriteTokens u;
     ru_cost := ru_cost r + orElse (costUsd u) 0;
     ru_saw := true;
     ru_provider := if ru_saw r then ru_provider r else provider u;
     ru_model := if ru_saw r then ru_model r else model u;
     ru_quality := match pricingQuality u with
                   | None => ru_quality r
                   | Some pq_fallback => Some pq_fallback
                   | Some pq_exact => if bool_decide (ru_quality r = Some pq_fallback)
                                      then ru_quality r else Some pq_exact
                   end;
     ru_qualityComplete := ru_qualityComplete r && isSome (pricingQuality u);
     ru_providerUniform := ru_providerUniform r
       && (negb (ru_saw r) || bool_decide (provider u = ru_provider r));
     ru_modelUniform := ru_modelUniform r
       && (negb (ru_saw r) || bool_decide (model u = ru_model r)) |}.

Definition childrenOf (i : string) (s : store) : list string :=
  match mget i (tasks s) with Some t => orElse (childTaskIds t) [] | None => [] end.

(** The [while (stack.length > 0)] loop; the top of the stack is its head, and
    [None] means the fuel ran out. *)
Fixpoint rollupLoop (fuel : nat) (s : store) (stack : list string) (visited : idset) (r : Rollup) :
    option (idset * Rollup) :=
  match stack with
  | [] => Some (visited, r)
  | i :: stack =>
      match fuel with
      | O => None
      | S fuel =>
          if mhas i visited then rollupLoop fuel s stack visited r
          else
            let visited := mset i tt visited in
            match mget i (tasks s) with
            | None => rollupLoop fuel s stack visited r
            | Some t =>
                let r := if tokenUsage t is Some u then addUsage r u else r in
                rollupLoop fuel s (rev (orElse (childTaskIds t) []) ++ stack) visited r
            end
      end
  end.

(** Each round pops the stack, and a task pushes its children once. *)
Definition rollupFuel (s : store) : nat :=
  S (foldr (λ t n, length (orElse (childTaskIds t) []) + n)%nat O (mvals (tasks s))).

Definition rollupResult (r : Rollup) : option TokenUsage :=
  if negb (ru_saw r) then None
  else Some {| inputTokens := ru_input r; outputTokens := ru_output r;
               cacheReadTokens := ru_cacheRead r; cacheWriteTokens := ru_cacheWrite r;
               costUsd := Some (ru_cost r);
               provider := if ru_providerUniform r then ru_provider r else None;
               model := if ru_modelUniform r then truthyStr (ru_model r) else None;
               pricingQuality := if ru_qualityComplete r then ru_quality r else None |}.

Definition getAggregateTokenUsage (i : string) (s : store) : option TokenUsage :=
  if negb (mhas i (tasks s)) then None
  else p ← rollupLoop (rollupFuel s) s [i] [] emptyRollup; rollupResult p.2.

(** ** Sessions *)

Definition getActiveSessions (s : store) : list (string * SessionInfo) :=
  mvals (tasks s) ≫= (λ t, (λ x, (id t, x)) <$>
    List.filter (λ x, negb (bool_decide (lastStatus x = Some ss_completed))
                      && negb (bool_decide (lastStatus x = Some ss_aborted))) (sessions t)).

Definition getProjectIds (s : store) : list string :=
  mkeys (foldl (λ (ids : idset) t,
           match truthyStr (projectId t) with Some p => mset p tt ids | None => ids end)
         [] (mvals (tasks s))).

Definition listTasksByProject (project : string) (s : store) : list Task :=
  List.filter (λ t, bool_decide (projectId t = Some project)) (mvals (tasks s)).

Definition viewTaskBySession (tmux : string) (s : store) : option Task :=
  List.find (Registry.hasSession tmux) (mvals (tasks s)).
Definition findTaskBySession (tmux : string) (s : store) : option Task := viewTaskBySession tmux s.
Definition findTaskIdBySession (tmux : string) (s : store) : option string :=
  id <$> viewTaskBySession tmux s.

Record SessionHealthRef := mkHealthRef {
  hr_sessionId : string;
  hr_taskStatus : TaskStatus;
  hr_turnState : option TurnState;
  hr_transcriptPath : option string
}.

Definition listSessionHealthRefs (includeTerminal : bool) (s : store) : list SessionHealthRef :=
  List.filter (λ t, includeTerminal || negb (isTerminalStatus (status t))) (mvals (tasks s))
    ≫= (λ t, (λ x, mkHealthRef (tmuxSession x) (status t) (lastTurnState x)
                     (truthyStr (transcriptPath x))) <$> sessions t).

Definition getAllTasks (s : store) : list Task := mvals (tasks s).

(** ** Loading *)

Definition capDigest (t : Task) : Task :=
  {| t with completionDigest := capCompletionDigestForStorage <$> completionDigest t |}.

(** [savedLifetimeSpendUsd] is [None] when absent or not finite. *)
Definition loadTasks (ts : list Task) (savedLifetimeSpendUsd : option Z) (s : store) : store :=
  let spend :=
    match savedLifetimeSpendUsd with
    | Some x => if 0 <? x then Some x else None
    | None => None
    end in
  let bootstrap :=
    foldl (λ n t, let c := orElse (accountedCost t) 0 in if 0 <? c then n + c else n) 0 ts in
  clearDirtyPersistence
    {| s with tasks := mimport ((λ t, (id t, capDigest t)) <$> ts) [];
              lifetimeSpendUsd := orElse spend bootstrap |}.

Definition getLifetimeSpendUsd (s : store) : Z := lifetimeSpendUsd s.
End Operations.

(** ** The store as the host of the session registry *)

#[export] Instance store_host : SessionHost store := {
  hostGet i s := mget i (tasks s);
  hostWrite := putTask;
  onSessionAttached i s := {| s with launchReservations := mdel i (launchReservations s) |}
}.

#[export] Instance store_host_laws : SessionHostLaws store.
Proof.
  split; simpl; intros; [apply mget_mset_eq|by apply mget_mset_ne|done].
Qed.

(** The delegating methods. *)
Definition addSession (now : Z) (i : string) (x : SessionInfo) (s : store) :
    result store_error (store * Task) :=
  match Registry.addSession now i x s with
  | Ok (s, t, _) => Ok (s, t)
  | Err e => Err (SessionError e)
  end.

Definition updateSession (now : Z) (i tmux : string) (patch : SessionInfo → SessionInfo) (s : store) :
    result store_error (store * Task) :=
  match Registry.updateSession now i tmux patch s with
  | Ok r => Ok r
  | Err e => Err (SessionError e)
  end.

Definition recordAbandonedLaunchSession (now : Z) (i : string) (x : SessionInfo) (s : store) : store :=
  Registry.recordAbandonedLaunchSession now i x s.
Definition recordChildSession (now : Z) (i tmux child : string) (info : ChildSessionInfo) (s : store) :
    store := Registry.recordChildSession now i tmux child info s.
Definition updateSessionGitInfo (now : Z) (i tmux : string) (g : GitInfo) (s : store) : store :=
  Registry.updateSessionGitInfo now i tmux g s.
Definition updateSessionWorktreeHealth (now1 now2 : Z) (i tmux : string) (h : WorktreeHealth)
    (stale : bool) (s : store) : store :=
  Registry.updateSessionWorktreeHealth now1 now2 i tmux h stale s.
Definition updateSessionCwd (now : Z) (i tmux dir : string) (s : store) : store :=
  Registry.updateSessionCwd now i tmux dir s.

(** ** The completion policy on stored tasks *)

Definition evaluateCompletionSignal (sha256hex : string → string) (i : string)
    (events : list AgentEvent) (agentId : option string) (deliverySatisfied : option bool)
    (s : store) : store * Completion.CompletionSignalDecision :=
  match mget i (tasks s) with
  | None =>
      (s, Completion.mkDecision Completion.skip Completion.unknown_task
            ("Unknown task: " +:+ i +:+ ".") None None)
  | Some t =>
      let decision := Completion.evaluateCompletionSignal sha256hex
        {| Completion.taskId := i;
           Completion.agentId := orElse agentId i;
           Completion.status := Some (status t);
           Completion.pendingSignalKind := sig_kind <$> pendingSignal t;
           Completion.deliveryAuthorization := deliveryAuthorization t;
           Completion.deliverySatisfied := deliverySatisfied;
           Completion.mergeRequired := None;
           Completion.mergeSatisfied := None;
           Completion.events := events;
           Completion.lastRemediationFingerprint := getCompletionRemediationFingerprint i s |} in
      (match Completion.action decision, truthyStr (Completion.stateFingerprint decision) with
       | Completion.remediate, Some fp => recordCompletionRemediation i fp s
       | _, _ => s
       end, decision)
  end.
End Store.
