(* ===== verification/TaskRuns.v ===== *)
(** * Runs of the task store: lifecycle and ownership

    Every method of [TaskStore] that writes is a constructor of [op], run by
    [exec]; a method that throws leaves the store as it was.  The theorems here
    hold after any sequence of them. *)

From S2P Require Import Prelude JsMap JsArray JsString AgentEvents TaskTypes TerminalReceipt.
From S2P Require Import SessionRegistry CompletionSignal TaskStore.
Local Open Scope Z_scope.

Module Runs.
Import Task Receipt Store.

Inductive op :=
| op_createTask (newId newRelId : string) (now now2 now3 : Z) (o : CreateTaskOptions)
| op_recordDictation (i submissionId : string)
| op_setMigrationLink (now : Z) (i j : string)
| op_getTaskForMutation (i : string)
| op_runRalphMutation (i : string) (f : Task → Task)
| op_writeLive (i : string) (f : Task → Task)
| op_setPendingSignal (now1 now2 : Z) (i : string) (sig : PendingAgentSignal)
| op_getProcessedSignal (now : Z) (sid : string)
| op_recordCompletionRemediation (i fp : string)
| op_clearPendingSignal (now : Z) (i : string)
| op_setOperatorNeeded (now : Z) (i : string) (flag : json)
| op_start (now : Z) (i : string)
| op_complete (now : Z) (i : string) (cx : option TerminalTransitionContext)
| op_cancel (now : Z) (i : string) (cx : option TerminalTransitionContext)
| op_pend (now : Z) (i : string)
| op_terminate (now1 now2 : Z) (i : string) (cause : option TerminationCause)
    (cx : option TerminalTransitionContext)
| op_setDisposition (now : Z) (i : string) (d : TaskDisposition)
| op_setRelaunchDisposition (now : Z) (i : string) (d : json)
| op_recordRecovery (now : Z) (i : string) (w : TerminalWorkDisposition) (c : option string)
| op_recordBookkeepingError (now : Z) (i msg : string)
| op_setLaunchPhaseTimings (i : string) (x : json)
| op_setLaunchAdmission (now : Z) (i : string) (a : option TaskLaunchAdmission)
| op_setLaunchHealthSummary (now : Z) (i : string) (x : option json)
| op_setLoadout (now : Z) (i : string) (x : option json)
| op_setConfigEpoch (now : Z) (i : string) (epoch : Z)
| op_setLaunchNote (now : Z) (i : string) (x : option string)
| op_reopen (now : Z) (i : string)
| op_requestResume (i : string)
| op_takeResume (i : string)
| op_delete (now : Z) (i : string)
| op_begin (now1 now2 : Z) (i : string) (active : bool)
| op_endLaunch (i : string) (tok : Z)
| op_testReservation (now : Z) (i : string)
| op_getActiveCount (clock : string → Z)
| op_getNextPending (clock : string → Z)
| op_rename (now : Z) (i n : string)
| op_setPriority (now : Z) (i : string) (high : bool)
| op_setEdges (now : Z) (i : string) (a b : option (list string))
| op_addSession (now : Z) (i : string) (x : SessionInfo)
| op_recordAbandoned (now : Z) (i : string) (x : SessionInfo)
| op_updateSession (now : Z) (i tmux : string) (f : SessionInfo → SessionInfo)
| op_recordChild (now : Z) (i tmux child : string) (info : ChildSessionInfo)
| op_gitInfo (now : Z) (i tmux : string) (g : GitInfo)
| op_worktreeHealth (now1 now2 : Z) (i tmux : string) (h : WorktreeHealth) (stale : bool)
| op_sessionCwd (now : Z) (i tmux dir : string)
| op_setCompletionDigest (now : Z) (i : string) (d : CompletionDigest)
| op_setCriteriaVerdict (now : Z) (i : string) (v : json)
| op_setRetryLineage (now : Z) (i root : string) (n : Z)
| op_setCompletionFeedback (now : Z) (i : string) (fb : TaskCompletionFeedback)
| op_setReflectMeta (now : Z) (i : string) (m : json)
| op_setPosture (now : Z) (i : string) (p : option TaskLaunchPermissionPosture)
| op_updateTokenUsage (now : Z) (i : string) (u : TokenUsage)
| op_setProjectId (now : Z) (i p : string)
| op_setIssueClaim (now : Z) (i : string) (c : IssueClaim)
| op_clearIssueClaim (now : Z) (i : string)
| op_setAgentType (now : Z) (i a : string)
| op_upsertRelation (newId : string) (now : Z) (input : TaskRelationInput)
| op_evaluateCompletion (sha256hex : string → string) (i : string) (evs : list AgentEvent)
    (agentId : option string) (satisfied : option bool).

(** The store after a method that may throw. *)
Definition orKeep {A} (s : store) (r : result store_error (store * A)) : store :=
  match r with Ok (s', _) => s' | Err _ => s end.
Definition orKeep1 (s : store) (r : result store_error store) : store :=
  match r with Ok s' => s' | Err _ => s end.

Section Exec.
Variable deterministicName : CreateTaskOptions → string.

Definition exec (o : op) (s : store) : store :=
  match o with
  | op_createTask n r t1 t2 t3 o => orKeep s (createTask deterministicName n r t1 t2 t3 o s)
  | op_recordDictation i x => orKeep1 s (recordDictationSubmission i x s)
  | op_setMigrationLink t i j => setMigrationLink t i j s
  | op_getTaskForMutation i => (getTaskForMutation i s).1
  | op_runRalphMutation i f => runRalphMutation i f s
  | op_writeLive i f => writeLive i f s
  | op_setPendingSignal t1 t2 i x => (setPendingSignal t1 t2 i x s).1
  | op_getProcessedSignal t x => (getProcessedSignal t x s).1
  | op_recordCompletionRemediation i x => recordCompletionRemediation i x s
  | op_clearPendingSignal t i => (clearPendingSignal t i s).1
  | op_setOperatorNeeded t i x => (setOperatorNeeded t i x s).1
  | op_start t i => orKeep s (startTask t i s)
  | op_complete t i c => orKeep s (completeTask t i c s)
  | op_cancel t i c => orKeep s (cancelTask t i c s)
  | op_pend t i => orKeep s (pendTask t i s)
  | op_terminate t1 t2 i c cx => orKeep s (terminateTask t1 t2 i c cx s)
  | op_setDisposition t i d => setDisposition t i d s
  | op_setRelaunchDisposition t i d => setRelaunchDisposition t i d s
  | op_recordRecovery t i w c => recordRecoveryDisposition t i w c s
  | op_recordBookkeepingError t i m => recordTerminalBookkeepingError t i m s
  | op_setLaunchPhaseTimings i x => setLaunchPhaseTimings i x s
  | op_setLaunchAdmission t i a => orKeep s (setLaunchAdmission t i a s)
  | op_setLaunchHealthSummary t i x => orKeep s (setLaunchHealthSummary t i x s)
  | op_setLoadout t i x => orKeep s (setLoadout t i x s)
  | op_setConfigEpoch t i x => orKeep s (setConfigEpochAtStart t i x s)
  | op_setLaunchNote t i x => orKeep s (setLaunchNote t i x s)
  | op_reopen t i => orKeep s (reopenTask t i s)
  | op_requestResume i => requestResumeOnNextLaunch i s
  | op_takeResume i => (takeResumeOnNextLaunch i s).1
  | op_delete t i => orKeep1 s (deleteTask t i s)
  | op_begin t1 t2 i a => (beginReservationWithToken t1 t2 i a s).1
  | op_endLaunch i k => endLaunch i k s
  | op_testReservation t i => (hasFreshLaunchReservation t i s).1
  | op_getActiveCount c => (getActiveCount c s).1
  | op_getNextPending c => (getNextPending c s).1
  | op_rename t i n => orKeep s (renameTask t i n s)
  | op_setPriority t i h => orKeep s (setTaskPriority t i h s)
  | op_setEdges t i a b => orKeep s (setTaskEdges t i a b s)
  | op_addSession t i x => orKeep s (addSession t i x s)
  | op_recordAbandoned t i x => recordAbandonedLaunchSession t i x s
  | op_updateSession t i x f => orKeep s (updateSession t i x f s)
  | op_recordChild t i x c n => recordChildSession t i x c n s
  | op_gitInfo t i x g => updateSessionGitInfo t i x g s
  | op_worktreeHealth t1 t2 i x h b => updateSessionWorktreeHealth t1 t2 i x h b s
  | op_sessionCwd t i x d => updateSessionCwd t i x d s
  | op_setCompletionDigest t i d => setCompletionDigest t i d s
  | op_setCriteriaVerdict t i v => setCriteriaVerdict t i v s
  | op_setRetryLineage t i r n => setRetryLineage t i r n s
  | op_setCompletionFeedback t i f => (setCompletionFeedback t i f s).1
  | op_setReflectMeta t i m => setReflectMeta t i m s
  | op_setPosture t i p => orKeep s (setLaunchPermissionPosture t i p s)
  | op_updateTokenUsage t i u => orKeep s (updateTokenUsage t i u s)
  | op_setProjectId t i p => setProjectId t i p s
  | op_setIssueClaim t i c => setIssueClaim t i c s
  | op_clearIssueClaim t i => clearIssueClaim t i s
  | op_setAgentType t i a => setAgentType t i a s
  | op_upsertRelation n t x => orKeep s (upsertRelation n t x s)
  | op_evaluateCompletion h i e a d => (evaluateCompletionSignal h i e a d s).1
  end.
End Exec.

(** ** How an operation changes the task records *)

(** The status and prior state of a record's receipt. *)
Definition ended (t : Task) : option (TaskStatus * option TaskStatus) :=
  (λ r, (rc_status r, rc_priorState r)) <$> terminalReceipt t.

(** The part of a record nothing but the lifecycle and the claim registry writes: its
    id, status, finish time, receipt and issue claim. *)
Definition core (t : Task) :=
  (id t, status t, finishedAt t, ended t, issueClaim t).

(** One step of it: nothing; a transition of [VALID_TRANSITIONS], stamped when it
    is terminal; the attach of a first session; or, by an operation that writes
    claims, another claim. *)
Inductive coreStep (claims : bool) (t t' : Task) : Prop :=
| core_same : core t' = core t → coreStep claims t t'
| core_move to fin :
    VALID_TRANSITIONS (status t) to = true →
    core t' = (if isTerminalStatus to
               then (id t, to, Some fin, Some (to, Some (status t)), issueClaim t)
               else (id t, to, None, ended t, issueClaim t)) →
    coreStep claims t t'
| core_attach :
    status t = ts_open ∨ status t = ts_pending →
    core t' = (id t, ts_inProgress, finishedAt t, ended t, issueClaim t) →
    coreStep claims t t'
| core_claim c :
    claims = true → core t' = (id t, status t, finishedAt t, ended t, c) → coreStep claims t t'.
Arguments core_same {claims t t'}.

Definition tasksStep (claims : bool) (s s' : store) : Prop :=
  (mwf (tasks s) → mwf (tasks s')) ∧
  ∀ i t', mget i (tasks s') = Some t' →
    (∃ t, mget i (tasks s) = Some t ∧ coreStep claims t t') ∨
    (mget i (tasks s) = None ∧ core t' = (i, ts_open, None, None, None)).

Definition writesClaim (o : op) : bool :=
  match o with op_setIssueClaim _ _ _ | op_clearIssueClaim _ _ => true | _ => false end.

(** The side conditions of a step: a new uuid is new, and code that writes
    through a live reference leaves the lifecycle fields and the claim alone. *)
Definition opOK (o : op) (s : store) : Prop :=
  match o with
  | op_createTask newId _ _ _ _ _ => mget newId (tasks s) = None
  | op_runRalphMutation _ f | op_writeLive _ f => ∀ t, core (f t) = core t
  | _ => True
  end.

Lemma tasksStep_eq b s s' : tasks s' = tasks s → tasksStep b s s'.
Proof.
  intros H. split; [by rewrite H|]. intros i t' Ht. left. exists t'. rewrite <- H.
  split; [done|]. by apply core_same.
Qed.

Lemma tasksStep_put b s i t t' :
  mget i (tasks s) = Some t → coreStep b t t' → tasksStep b s (putTask i t' s).
Proof.
  intros Ht Hc. split; [by apply mwf_mset|]. intros j t'' Hj. simpl in Hj. rewrite mget_mset in Hj.
  case_decide; simplify_eq; [left; eauto|]. left. exists t''. split; [done|by apply core_same].
Qed.

Lemma tasksStep_patch b s i f :
  (∀ t t', f t = Some t' → core t' = core t) → tasksStep b s (patchTask i f s).
Proof.
  intros Hf. unfold patchTask. destruct (mget i (tasks s)) as [t|] eqn:Ht; [|by apply tasksStep_eq].
  destruct (f t) as [t'|] eqn:Hft; [|by apply tasksStep_eq].
  eapply tasksStep_put; [done|]. apply core_same. eauto.
Qed.

Lemma tasksStep_patchOrThrow b s i f :
  (∀ t, core (f t) = core t) → tasksStep b s (orKeep s (patchOrThrow i f s)).
Proof.
  intros Hf. unfold patchOrThrow. destruct (mget i (tasks s)) as [t|] eqn:Ht; simpl;
    [|by apply tasksStep_eq].
  eapply tasksStep_put; [done|]. by apply core_same.
Qed.

(** A further step that changes no record, or only removes one. *)
Lemma tasksStep_after b s s1 s2 :
  tasksStep b s s1 → (mwf (tasks s1) → mwf (tasks s2)) →
  (∀ i t, mget i (tasks s2) = Some t → mget i (tasks s1) = Some t) →
  tasksStep b s s2.
Proof. intros [W1 H1] W2 H2. split; [auto|]. intros i t' Ht. by apply H1, H2. Qed.

Lemma tasksStep_tasks b s s1 s2 : tasks s2 = tasks s1 → tasksStep b s s1 → tasksStep b s s2.
Proof. intros E H. eapply tasksStep_after; [exact H| |]; rewrite E; auto. Qed.

Lemma moveTask_core b now to cx t :
  VALID_TRANSITIONS (status t) to = true → coreStep b t (moveTask now to cx t).
Proof.
  intros Hv. apply (core_move _ _ _ to (orElse (finishedAt t) now)); [done|].
  unfold moveTask, core. destruct (isTerminalStatus to) eqn:Hto; simpl;
    repeat case_match; simpl; try done; unfold buildTerminalReceipt;
    by destruct to; simpl in *.
Qed.

Lemma transition_step b now i to cx s :
  tasksStep b s (orKeep s (transition now i to cx s)) ∧
  ∀ s' t', transition now i to cx s = Ok (s', t') → mget i (tasks s') = Some t'.
Proof.
  unfold transition. destruct (mget i (tasks s)) as [t|] eqn:Ht; [|split; [by apply tasksStep_eq|done]].
  destruct (VALID_TRANSITIONS (status t) to) eqn:Hv; simpl; [|split; [by apply tasksStep_eq|done]].
  split.
  - eapply tasksStep_tasks; [|apply (tasksStep_put b s i t (moveTask now to cx t));
      [done|by apply moveTask_core]]. by destruct (isTerminalStatus to).
  - intros s' t' [= <- <-]. apply mget_mset_eq.
Qed.

Lemma coreStep_core b t t' t'' : coreStep b t t' → core t'' = core t' → coreStep b t t''.
Proof.
  intros Hc He. destruct Hc as [H|to fin Hv H|Hs H|c Hb H].
  - apply core_same. by rewrite He.
  - apply (core_move _ _ _ to fin); [done|]. by rewrite He.
  - apply core_attach; [done|]. by rewrite He.
  - apply (core_claim _ _ _ c); [done|]. by rewrite He.
Qed.

Lemma terminate_step b now1 now2 i cause cx s :
  tasksStep b s (orKeep s (terminateTask now1 now2 i cause cx s)).
Proof.
  unfold terminateTask. set (cx' := Some _).
  destruct (transition_step b now1 i ts_terminated cx' s) as [H1 H2].
  destruct (transition now1 i ts_terminated cx' s) as [[s1 t1]|e]; simpl in *; [|by apply tasksStep_eq].
  destruct H1 as [W H1]. split; [intros; by apply mwf_mset, W|].
  intros j t' Hj. simpl in Hj. rewrite mget_mset in Hj. case_decide; [|by apply H1].
  simplify_eq. specialize (H2 s1 t1 eq_refl).
  destruct (H1 _ _ H2) as [(t & Ht & Hc)|[Hn Hc]].
  - left. exists t. split; [done|]. eapply coreStep_core; [exact Hc|]. done.
  - right. by split.
Qed.

Lemma upsertRelation_tasks n now input s s' r :
  upsertRelation n now input s = Ok (s', r) → tasks s' = tasks s.
Proof. unfold upsertRelation. case_if; [done|]. by intros [= <- _]. Qed.

Lemma buildTask_core dn newId now o s : core (buildTask dn newId now o s) = (newId, ts_open, None, None, None).
Proof. done. Qed.

Lemma create_step b dn n r t1 t2 t3 o s :
  mget n (tasks s) = None → tasksStep b s (orKeep s (createTask dn n r t1 t2 t3 o s)).
Proof.
  intros Hn. unfold createTask. set (task := buildTask dn n t1 o s).
  set (s1 := {| s with tasks := mset n task (tasks s) |}).
  assert (tasksStep b s s1) as Hnew.
  { split; [by apply mwf_mset|]. intros j t'. simpl. rewrite mget_mset. case_decide; intros; simplify_eq; [by right|].
    left. exists t'. split; [done|by apply core_same]. }
  destruct (co_parentTaskId o) as [p|]; [|by eapply tasksStep_tasks].
  destruct (mhas p (tasks s)) eqn:Hp; cbn [negb]; [|by apply tasksStep_eq].
  assert (p ≠ n) by (intros ->; unfold mhas in Hp; by rewrite Hn in Hp).
  match goal with |- context [upsertRelation r t3 ?a ?b] =>
    destruct (upsertRelation r t3 a b) as [[s' rr]|e] eqn:Hu end; cbn [res_bind orKeep]; [|by apply tasksStep_eq].
  eapply tasksStep_tasks; [by eapply upsertRelation_tasks|]. unfold patchTask. simpl.
  rewrite mget_mset_ne by done. unfold mhas in Hp.
  destruct (mget p (tasks s)) as [tp|] eqn:Htp; [|done]. simpl. destruct Hnew as [W Hnew].
  split; [intros; by apply mwf_mset, W|]. intros j t'. simpl.
  rewrite mget_mset. case_decide; [|apply Hnew]. intros; simplify_eq.
  left. exists tp. split; [done|by apply core_same].
Qed.

Lemma delete_step b now i s : tasksStep b s (orKeep1 s (deleteTask now i s)).
Proof.
  unfold deleteTask. destruct (mget i (tasks s)) as [t|] eqn:Ht; [|by apply tasksStep_eq].
  destruct (isProbing (launchAdmission t)); simpl; [by apply tasksStep_eq|].
  set (s0 := {| s with launchReservations := _; resumeOnNextLaunch := _; completionRemediation := _ |}).
  set (s1 := if truthyStr (parentTaskId t) is Some p then _ else _).
  assert (tasksStep b s s1) as H1.
  { unfold s1. destruct (truthyStr (parentTaskId t)) as [p|]; [|by apply tasksStep_eq].
    apply (tasksStep_patch b s0). unfold unlinkChild. intros t0 t'. case_match; [|done].
    by intros [= <-]. }
  eapply tasksStep_after; [exact H1| |].
  - intros W. case_if; simpl; by apply mwf_mdel.
  - intros j t'. case_if; simpl; rewrite mget_mdel; case_decide; done.
Qed.

Lemma addSession_step b now i x s : tasksStep b s (orKeep s (addSession now i x s)).
Proof.
  unfold addSession, Registry.addSession. simpl.
  destruct (mget i (tasks s)) as [t|] eqn:Ht; simpl; [|by apply tasksStep_eq].
  destruct (Registry.attachGuard i x t) as [[]|e] eqn:Hg; simpl; [|by apply tasksStep_eq].
  apply (tasksStep_put b {| s with launchReservations := mdel i (launchReservations s) |} i t);
    [done|].
  apply Registry.attachGuard_Ok in Hg as [Hst _].
  destruct (status t) eqn:Hs; try done.
  - apply core_attach; [by left|]. unfold core. simpl. by rewrite Hs.
  - apply core_attach; [by right|]. unfold core. simpl. by rewrite Hs.
  - apply core_same. unfold core. simpl. by rewrite Hs.
Qed.

Lemma patchSession_step b now i tmux f s : tasksStep b s (Registry.patchSession now i tmux f s).
Proof.
  unfold Registry.patchSession. simpl. destruct (mget i (tasks s)) as [t|] eqn:Ht; [|by apply tasksStep_eq].
  repeat case_match; try by apply tasksStep_eq.
  eapply tasksStep_put; [done|]. by apply core_same.
Qed.

(** The reservation tests change no record. *)
Lemma hasFresh_tasks now i s : tasks (hasFreshLaunchReservation now i s).1 = tasks s.
Proof. unfold hasFreshLaunchReservation. by repeat case_match. Qed.

Lemma scan_tasks {B} (f : store * B → Task → store * B) l s b :
  (∀ acc t, tasks (f acc t).1 = tasks acc.1) → tasks (foldl f (s, b) l).1 = tasks s.
Proof.
  intros Hf. change (tasks s) with (tasks (s, b).1). generalize (s, b) as acc.
  induction l as [|t l IH]; intros acc; simpl; [done|]. by rewrite IH, Hf.
Qed.

Lemma getActiveCount_tasks c s : tasks (getActiveCount c s).1 = tasks s.
Proof.
  unfold getActiveCount. apply scan_tasks. intros [s' n] t. simpl.
  unfold hasFreshActiveLaunchReservation. pose proof (hasFresh_tasks (c (id t)) (id t) s').
  repeat case_match; simplify_eq/=; done.
Qed.

Lemma getNextPending_tasks c s : tasks (getNextPending c s).1 = tasks s.
Proof.
  unfold getNextPending. apply scan_tasks. intros [s' n] t. simpl.
  pose proof (hasFresh_tasks (c (id t)) (id t) s').
  repeat case_match; simplify_eq/=; done.
Qed.

Lemma tasksStep_claim s i f :
  (∀ t t', f t = Some t' → ∃ c, core t' = (id t, status t, finishedAt t, ended t, c)) →
  tasksStep true s (patchTask i f s).
Proof.
  intros Hf. unfold patchTask. destruct (mget i (tasks s)) as [t|] eqn:Ht; [|by apply tasksStep_eq].
  destruct (f t) as [t'|] eqn:Hft; [|by apply tasksStep_eq].
  eapply tasksStep_put; [done|]. destruct (Hf _ _ Hft) as [c Hc]. by eapply core_claim.
Qed.

Lemma exec_step dn o s : opOK o s → tasksStep (writesClaim o) s (exec dn o s).
Proof.
  intros Hok. set (b := writesClaim o). destruct o; simpl in *;
    try (by apply tasksStep_eq);
    try (apply tasksStep_patch; intros ??; repeat case_match; try discriminate;
         intros [= <-]; first [done|apply Hok|unfold core, ended; simpl; by simplify_option_eq]);
    try (by apply tasksStep_patchOrThrow);
    try apply patchSession_step;
    try apply transition_step;
    try (apply tasksStep_claim; intros t t'; repeat case_match; try discriminate;
         intros [= <-]; by eexists).
  - by apply create_step.
  - unfold recordDictationSubmission. repeat case_match; simpl; try by apply tasksStep_eq.
    by eapply tasksStep_put; [|apply core_same].
  - unfold getTaskForMutation. case_match; by apply tasksStep_eq.
  - unfold writeLive. destruct (mget i (tasks s)) as [t|] eqn:Ht; [|by apply tasksStep_eq].
    eapply tasksStep_tasks; [|apply (tasksStep_put b s i t (f t)); [done|apply core_same, Hok]]. done.
  - unfold setPendingSignal. destruct (mget i (tasks s)) as [t|] eqn:Ht; [|by apply tasksStep_eq].
    eapply tasksStep_tasks;
      [|apply (tasksStep_put b s i t {| t with
                pendingSignal := Some (mergeSignal (pendingSignal t) sig); updatedAt := now2 |});
        [done|by apply core_same]].
    by destruct (truthyStr (sig_signalId sig)).
  - unfold clearPendingSignal. case_match; [|by apply tasksStep_eq].
    apply tasksStep_patch. by intros t t' [= <-].
  - unfold setOperatorNeeded. repeat case_match; try by apply tasksStep_eq.
    by eapply tasksStep_put; [|apply core_same].
  - apply terminate_step.
  - unfold reopenTask. repeat case_match; try by apply tasksStep_eq. apply transition_step.
  - apply delete_step.
  - unfold beginReservationWithToken. repeat case_match; try by apply tasksStep_eq.
    all: apply tasksStep_eq; simpl.
    all: pose proof (hasFresh_tasks now1 i s) as Hf; simplify_eq/=; by rewrite ?H1 in Hf.
  - unfold endLaunch. case_match; by apply tasksStep_eq.
  - apply tasksStep_eq, hasFresh_tasks.
  - apply tasksStep_eq, getActiveCount_tasks.
  - apply tasksStep_eq, getNextPending_tasks.
  - apply addSession_step.
  - unfold recordAbandonedLaunchSession, Registry.recordAbandonedLaunchSession. simpl.
    repeat case_match; try by apply tasksStep_eq.
    by eapply tasksStep_put; [|apply core_same].
  - unfold updateSession, Registry.updateSession. simpl.
    destruct (mget i (tasks s)) as [t|] eqn:Ht; simpl; [|by apply tasksStep_eq].
    destruct (Registry.findSession tmux t); simpl; [|by apply tasksStep_eq].
    by eapply tasksStep_put; [|apply core_same].
  - unfold setCompletionFeedback. repeat case_match; try by apply tasksStep_eq.
    all: by eapply tasksStep_put; [|apply core_same].
  - unfold updateTokenUsage. destruct (mget i (tasks s)) as [t|] eqn:Ht; simpl; [|by apply tasksStep_eq].
    eapply tasksStep_tasks;
      [|apply (tasksStep_put b s i t {| t with tokenUsage := Some u; updatedAt := now |});
        [done|by apply core_same]].
    simpl. by repeat case_match.
  - unfold upsertRelation. case_if; by apply tasksStep_eq.
  - unfold evaluateCompletionSignal. repeat case_match; by apply tasksStep_eq.
Qed.

(** Every record is filed under its id. *)
Definition keyed (s : store) : Prop := ∀ i t, mget i (tasks s) = Some t → id t = i.

Lemma keyed_exec dn o s : opOK o s → keyed s → keyed (exec dn o s).
Proof.
  intros Hok Hk i t' Ht'. destruct (proj2 (exec_step dn o s Hok) i t' Ht') as [(t & Ht & Hc)|[_ Hc]].
  - rewrite <- (Hk _ _ Ht). destruct Hc as [H|to fin _ H|_ H|c _ H]; unfold core in H.
    + by injection H.
    + by destruct (isTerminalStatus to); injection H.
    + by injection H.
    + by injection H.
  - unfold core in Hc. by injection Hc.
Qed.

(** ** Runs *)

Inductive run (dn : CreateTaskOptions → string) :
    store → store → Prop :=
| run_nil s : run dn s s
| run_step s s' o : run dn s s' → opOK o s' → run dn s (exec dn o s').

(** What the lifecycle promises of every record: filed under its id; a terminal
    one carries its finish time and a receipt of the transition that ended it;
    a live one carries no finish time. *)
Definition lifecycleOK (i : string) (t : Task) : Prop :=
  id t = i ∧
  if isTerminalStatus (status t) then
    is_Some (finishedAt t) ∧
    ∃ r prior, terminalReceipt t = Some r ∧ rc_status r = status t ∧
      rc_priorState r = Some prior ∧ VALID_TRANSITIONS prior (status t) = true
  else finishedAt t = None.

Definition lifecycleInv (s : store) : Prop :=
  ∀ i t, mget i (tasks s) = Some t → lifecycleOK i t.

Lemma lifecycleOK_core i t t' c :
  core t' = (id t, status t, finishedAt t, ended t, c) → lifecycleOK i t → lifecycleOK i t'.
Proof.
  unfold core, ended, lifecycleOK. intros [= -> -> -> Hr _] [H1 H2]. split; [done|].
  destruct (isTerminalStatus (status t)); [|done].
  destruct H2 as (H3 & r & prior & Hrr & E1 & E2 & E3). split; [done|].
  rewrite Hrr in Hr. destruct (terminalReceipt t') as [r'|]; [|done]. simpl in Hr.
  injection Hr as Ha Hb. exists r', prior. split_and!; congruence.
Qed.

Lemma lifecycleOK_step b i t t' : lifecycleOK i t → coreStep b t t' → lifecycleOK i t'.
Proof.
  intros Hok Hc. destruct Hc as [H|to fin Hv H|Hs H|c _ H].
  - by eapply lifecycleOK_core.
  - destruct Hok as [Hid _]. unfold core, ended, lifecycleOK in *.
    destruct (isTerminalStatus to) eqn:Hto; injection H as -> -> -> Hr _; (split; [done|]);
      rewrite Hto; [|done].
    split; [by eexists|]. destruct (terminalReceipt t') as [r|]; [|done]. simpl in Hr.
    injection Hr as Ha Hb. exists r, (status t). by split_and!.
  - destruct Hok as [Hid Hok]. unfold core, lifecycleOK in *. injection H as -> -> -> _ _.
    split; [done|]. simpl. by destruct Hs as [Hs|Hs]; rewrite Hs in Hok.
  - by eapply lifecycleOK_core.
Qed.

Lemma lifecycleInv_exec dn o s : opOK o s → lifecycleInv s → lifecycleInv (exec dn o s).
Proof.
  intros Hok Hinv i t' Ht'. destruct (proj2 (exec_step dn o s Hok) i t' Ht') as [(t & Ht & Hc)|[Hn Hc]].
  - eapply lifecycleOK_step; [by apply Hinv|done].
  - unfold core in Hc. injection Hc as Hid Hst Hf _ _. unfold lifecycleOK. by rewrite Hst.
Qed.

(** C1: after any sequence of operations on an empty store, every task is filed
    under its id; every terminal task carries its finish time and a receipt
    naming its status and the state it came from, by an allowed transition; and
    no live task carries a finish time. *)
Theorem lifecycle_invariant dn s : run dn newStore s → lifecycleInv s.
Proof.
  intros Hr. remember newStore as s0 eqn:H0.
  induction Hr as [s|s s' o _ IH Hok]; [subst; by intros i t Ht|].
  apply lifecycleInv_exec; auto.
Qed.

Definition sampleName (_ : CreateTaskOptions) : string := "placeholder".
Definition sampleOptions : CreateTaskOptions := createOptions "fix it" "/repo" None None.

Definition sampleStore : store :=
  exec sampleName (op_createTask "t1" "r1" 1 1 1 sampleOptions) newStore.

Lemma sampleRun : run sampleName newStore sampleStore.
Proof. apply run_step; [constructor|done]. Qed.

Lemma lifecycle_invariant_witness :
  lifecycleInv (exec sampleName (op_cancel 7 "t1" None) sampleStore).
Proof.
  apply (lifecycle_invariant sampleName). apply run_step; [apply sampleRun|done].
Defined.

(** A single operation of the store moves the status of a stored task only
    along the transition table, attaches included; a task it creates starts
    [open]. *)
Theorem status_follows_table dn o s i t' :
  opOK o s → mget i (tasks (exec dn o s)) = Some t' →
  match mget i (tasks s) with
  | Some t => status t' = status t ∨ VALID_TRANSITIONS (status t) (status t') = true
  | None => status t' = ts_open
  end.
Proof.
  intros Hok Ht'. destruct (proj2 (exec_step dn o s Hok) i t' Ht') as [(t & -> & Hc)|[-> Hc]].
  - destruct Hc as [H|to fin Hv H|Hs H|c _ H]; unfold core in H.
    + injection H as _ -> _ _ _. by left.
    + right. by destruct (isTerminalStatus to); injection H as _ -> _ _ _.
    + right. injection H as _ -> _ _ _. by destruct Hs as [-> | ->].
    + injection H as _ -> _ _ _. by left.
  - unfold core in Hc. by injection Hc as _ -> _ _ _.
Qed.

Lemma status_follows_table_witness :
  let s := exec sampleName (op_cancel 7 "t1" None) sampleStore in
  match mget "t1" (tasks s) with Some t' => status t' = ts_cancelled | None => False end ∧
  VALID_TRANSITIONS ts_open ts_cancelled = true.
Proof.
  intros s. split; [reflexivity|].
  destruct (mget "t1" (tasks s)) as [t'|] eqn:Ht'; [|discriminate Ht'].
  pose proof (status_follows_table sampleName (op_cancel 7 "t1" None) sampleStore "t1" t'
    I Ht') as H.
  vm_compute in Ht'. injection Ht' as <-. vm_compute in H. destruct H; [discriminate|assumption].
Defined.

(** ** Launch ownership *)

(** What an operation may do while a launch of [i] under token [k] is in flight,
    up to time [T]: not end that launch, attach to or delete the task; and test
    the reservation only before [T]. *)
Definition calm (i : string) (k T : Z) (o : op) : Prop :=
  match o with
  | op_endLaunch j k' => j = i → k' ≠ k
  | op_addSession _ j _ | op_delete _ j => j ≠ i
  | op_begin t _ j _ | op_testReservation t j => j = i → t < T
  | op_getActiveCount c | op_getNextPending c => c i < T
  | _ => True
  end.

Lemma patchTask_res i f s : launchReservations (patchTask i f s) = launchReservations s.
Proof. unfold patchTask. by repeat case_match. Qed.

Lemma patchOrThrow_res i f s :
  launchReservations (orKeep s (patchOrThrow i f s)) = launchReservations s.
Proof. unfold patchOrThrow. by case_match. Qed.

Lemma transition_res now i to cx s :
  launchReservations (orKeep s (transition now i to cx s)) = launchReservations s.
Proof. unfold transition. repeat case_match; simpl; by repeat case_match. Qed.

Lemma terminate_res t1 t2 i c cx s :
  launchReservations (orKeep s (terminateTask t1 t2 i c cx s)) = launchReservations s.
Proof.
  unfold terminateTask. set (cx' := Some _). pose proof (transition_res t1 i ts_terminated cx' s) as H.
  by destruct (transition t1 i ts_terminated cx' s) as [[? ?]|].
Qed.

Lemma createTask_res dn n r t1 t2 t3 o s :
  launchReservations (orKeep s (createTask dn n r t1 t2 t3 o s)) = launchReservations s.
Proof.
  unfold createTask. destruct (co_parentTaskId o) as [p|]; [|done].
  destruct (negb (mhas p (tasks s))); [done|].
  unfold upsertRelation. case_if; [done|]. cbn [res_bind orKeep]. simpl. by rewrite patchTask_res.
Qed.

Lemma patchSession_res now i tmux f s :
  launchReservations (Registry.patchSession now i tmux f s) = launchReservations s.
Proof. unfold Registry.patchSession. by repeat case_match. Qed.

Lemma hasFresh_res now j s i r :
  mget i (launchReservations s) = Some r → (j = i → now < reservedAt r + LAUNCH_RESERVATION_TTL_MS) →
  mget i (launchReservations (hasFreshLaunchReservation now j s).1) = Some r ∧
  (j = i → (hasFreshLaunchReservation now j s).2 = true).
Proof.
  intros Hr Hj. unfold hasFreshLaunchReservation.
  destruct (mget j (launchReservations s)) as [r'|] eqn:Hr'.
  - destruct (Z.leb_spec LAUNCH_RESERVATION_TTL_MS (now - reservedAt r')); simpl; [|done].
    destruct (decide (j = i)) as [->|Hne]; [|by rewrite mget_mdel_ne].
    simplify_eq. specialize (Hj eq_refl). lia.
  - split; [done|]. intros ->. congruence.
Qed.

(** The scans keep it as well, provided each task is filed under its id. *)
Lemma scan_res {B} (f : store * B → Task → store * B) i r l s b :
  (∀ acc t, mget i (launchReservations acc.1) = Some r →
     mget i (launchReservations (f acc t).1) = Some r) →
  mget i (launchReservations s) = Some r → mget i (launchReservations (foldl f (s, b) l).1) = Some r.
Proof.
  intros Hf. change s with (s, b).1 at 1. generalize (s, b) as acc.
  induction l as [|t l IH]; intros acc Hr; simpl; [done|]. by apply IH, Hf.
Qed.

Lemma res_via i r (s s' : store) :
  launchReservations s' = launchReservations s →
  mget i (launchReservations s) = Some r → mget i (launchReservations s') = Some r.
Proof. by intros ->. Qed.

Lemma exec_res dn o s i r :
  calm i (token r) (reservedAt r + LAUNCH_RESERVATION_TTL_MS) o →
  mget i (launchReservations s) = Some r →
  mget i (launchReservations (exec dn o s)) = Some r.
Proof.
  intros Hc Hr. destruct o; simpl in *; try exact Hr;
    try (by eapply res_via; [apply patchTask_res|]);
    try (by eapply res_via; [apply patchOrThrow_res|]);
    try (by eapply res_via; [apply patchSession_res|]);
    try (by eapply res_via; [apply transition_res|]).
  - by rewrite createTask_res.
  - unfold recordDictationSubmission. by repeat case_match.
  - unfold getTaskForMutation. by case_match.
  - unfold writeLive. by case_match.
  - unfold setPendingSignal. destruct (mget i0 (tasks s)); simpl; [|exact Hr].
    by destruct (sig_signalId sig) as [[]|]; simpl.
  - unfold clearPendingSignal. destruct (getPendingSignal i0 s); [|done]. cbn [fst].
    by rewrite patchTask_res.
  - unfold setOperatorNeeded. by repeat case_match.
  - by rewrite terminate_res.
  - unfold reopenTask. repeat case_match; try done. by rewrite transition_res.
  - unfold deleteTask. destruct (mget i0 (tasks s)); [|done]. case_if; [done|]. cbn [orKeep1].
    case_if; simpl; case_match; rewrite ?patchTask_res; simpl; by rewrite mget_mdel_ne.
  - unfold beginReservationWithToken. case_match; [|done]. case_if; [done|].
    destruct (hasFresh_res now1 i0 s i r Hr Hc) as [H1 H2].
    destruct (hasFreshLaunchReservation now1 i0 s) as [s1 fresh]; simpl in *.
    destruct fresh; [done|]. simpl. rewrite mget_mset_ne; [done|]. intros ->.
    by specialize (H2 eq_refl).
  - unfold endLaunch. case_bool_decide as Ht; [|done]. simpl.
    rewrite mget_mdel_ne; [done|]. intros <-. unfold tokenOf in Ht. rewrite Hr in Ht.
    simpl in Ht. injection Ht as Ht. by apply (Hc eq_refl).
  - by apply hasFresh_res.
  - apply scan_res; [|done]. intros [s' n] t Hr'. simpl in *.
    unfold hasFreshActiveLaunchReservation.
    destruct (hasFresh_res (clock (id t)) (id t) s' i r Hr') as [H1 _]; [by intros ->|].
    destruct (hasFreshLaunchReservation (clock (id t)) (id t) s'); simpl in *.
    repeat case_match; by simplify_eq/=.
  - apply scan_res; [|done]. intros [s' n] t Hr'. simpl in *.
    destruct (hasFresh_res (clock (id t)) (id t) s' i r Hr') as [H1 _]; [by intros ->|].
    destruct (hasFreshLaunchReservation (clock (id t)) (id t) s'); simpl in *.
    repeat case_match; by simplify_eq/=.
  - unfold addSession, Registry.addSession. simpl. destruct (mget i0 (tasks s)) as [t|]; [|done].
    destruct (Registry.attachGuard i0 x t) as [[]|]; simpl; [|done]. by rewrite mget_mdel_ne.
  - unfold recordAbandonedLaunchSession, Registry.recordAbandonedLaunchSession.
    by repeat case_match.
  - unfold updateSession, Registry.updateSession. simpl.
    destruct (mget i0 (tasks s)); simpl; [|done]. by destruct (Registry.findSession tmux _).
  - unfold setCompletionFeedback. by repeat case_match.
  - unfold updateTokenUsage. destruct (mget i0 (tasks s)); simpl; [|done]. by repeat case_match.
  - unfold upsertRelation. by case_if.
  - unfold evaluateCompletionSignal. by repeat case_match.
Qed.

(** Runs whose every operation is calm. *)
Inductive calmRun (dn : CreateTaskOptions → string)
    (i : string) (k T : Z) : store → store → Prop :=
| calm_nil s : calmRun dn i k T s s
| calm_step s s' o :
    calmRun dn i k T s s' → calm i k T o → calmRun dn i k T s (exec dn o s').

(** C2: one launcher at a time.  Once a launcher holds the reservation of a task,
    then whatever else happens to the store, short of this launch ending, the
    task being deleted or the reservation outliving its time, every other
    launcher is refused, and the holder can prove its ownership. *)
Theorem launch_exclusive dn i k s0 s1 s2 now1 now2 active t1 t2 other :
  beginReservationWithToken now1 now2 i active s0 = (s1, Some k) →
  calmRun dn i k (now2 + LAUNCH_RESERVATION_TTL_MS) s1 s2 →
  t1 < now2 + LAUNCH_RESERVATION_TTL_MS →
  (beginReservationWithToken t1 t2 i other s2).2 = None ∧
  (ownsLaunchReservation t1 i k s2).2 = true ∧
  (∀ k', k' ≠ k → (ownsLaunchReservation t1 i k' s2).2 = false) ∧
  (hasForeignFreshLaunchReservation t1 i k s2).2 = false.
Proof.
  intros Hb Hrun Ht.
  assert (mget i (launchReservations s1) = Some (mkReservation now2 k active)) as H1.
  { revert Hb. unfold beginReservationWithToken. case_match; [|done]. case_if; [done|].
    destruct (hasFreshLaunchReservation now1 i s0) as [s f]. case_if; [done|].
    intros [= <- <-]. simpl. apply mget_mset_eq. }
  assert (mget i (launchReservations s2) = Some (mkReservation now2 k active)) as H2.
  { clear Hb Ht. induction Hrun as [|s s' o _ IH Hc]; [done|].
    eapply exec_res; [exact Hc|auto]. }
  destruct (hasFresh_res t1 i s2 i _ H2 (λ _, Ht)) as [H3 H4]. specialize (H4 eq_refl).
  unfold ownsLaunchReservation, hasForeignFreshLaunchReservation, beginReservationWithToken.
  destruct (hasFreshLaunchReservation t1 i s2) as [s3 f]; simpl in *; subst f.
  unfold tokenOf. rewrite H3. simpl. split_and!.
  - by repeat case_match.
  - by rewrite bool_decide_true.
  - intros k' Hne. rewrite bool_decide_false; [done|]. congruence.
  - by rewrite bool_decide_true.
Qed.

Lemma launch_exclusive_witness :
  let s1 := (beginReservationWithToken 10 10 "t1" true sampleStore).1 in
  let s2 := exec sampleName (op_rename 12 "t1" "new name") s1 in
  (beginReservationWithToken 20 20 "t1" true s2).2 = None.
Proof.
  intros s1 s2.
  refine (proj1 (launch_exclusive sampleName "t1" 1 sampleStore s1 s2 10 10 true 20 20 true
    eq_refl _ _)); [|vm_compute; reflexivity].
  apply calm_step; [apply calm_nil|done].
Defined.

(** The store is a host of the registry: attaching to its open task succeeds. *)
Lemma addSession_spec_witness :
  let r := Registry.addSession 5 "t1" (newSession "kookr-1" "claude-code" "/repo" 5) sampleStore in
  match r with
  | Ok (s', t', _) => status t' = ts_inProgress
  | Err _ => False
  end.
Proof.
  intros r.
  pose proof (Registry.addSession_spec 5 "t1" (newSession "kookr-1" "claude-code" "/repo" 5) sampleStore)
    as H.
  fold r in H. destruct r as [[[s' t'] w]|e] eqn:Hr; [|discriminate Hr].
  destruct H as (t & _ & _ & _ & H & _). exact H.
Defined.
End Runs.
