(* ===== verification/CompletionGates.v ===== *)
(** * The gates of a completion signal

    [src/core/lesson-decision.ts] with [kb-lesson-classifier.ts]: the signal waits for
    a post-task lesson decision in the session's hook log; and
    [src/core/merge-required.ts]: a task launched to merge waits for its pull request.

    A hook log is the list of its lines: the parsed value, [None] for a line that is
    empty or is not JSON.  [logs] gives the log of a session name, [None] when there is
    no file; [gh] answers a query for a pull request ([None] for the current branch):
    [None] when the command fails, and otherwise the merge time if there is one.
    Reading a property of [null] throws: a scan is an [option]. *)

From S2P Require Import Prelude JsMap JsString JsRegExp JsJson TaskTypes TaskStore TaskRuns.

Module Gates.
Import Task.
#[local] Open Scope Z_scope.

(** ** Lines of a hook log *)

Definition SHELL_TOOL_NAMES : list string := ["Bash"; "run_terminal_command"; "shell"].
Definition PRE_TOOL_EVENTS : list string := ["PreToolUse"; "pre_tool_use"].
Definition POST_TOOL_EVENTS : list string := ["PostToolUse"; "post_tool_use"].

Definition hasStr (x : string) (l : list string) : bool := existsb (String.eqb x) l.

(** [command] of a tool input that is an object. *)
Definition commandOf (toolInput : option jvalue) : option string :=
  match toolInput with
  | Some (JObject fs) => asString (mget "command" fs)
  | _ => None
  end.

Definition extractShellCommandFromHookLine (evt : jvalue) : option string :=
  match asString (nullish (field "hook_event_name" evt) (field "hookEventName" evt)),
        asString (nullish (field "tool_name" evt) (field "toolName" evt)) with
  | Some hookEvent, Some toolName =>
      if hasStr hookEvent PRE_TOOL_EVENTS && hasStr toolName SHELL_TOOL_NAMES
      then commandOf (nullish (field "tool_input" evt) (field "toolInput" evt))
      else None
  | _, _ => None
  end.

Inductive Phase := pre | post.

Record ShellHookLine := mkLine {
  phase : Phase;
  command : string;
  output : string
}.

Definition MAX_TOOL_RESPONSE_STRINGS : nat := 64.
Definition MAX_TOOL_RESPONSE_DEPTH : nat := 6.

(** The recursive walk over the string leaves; [parts] is the array it fills. *)
Fixpoint walk (value : jvalue) (depth : nat) (parts : list string) : list string :=
  if Nat.leb MAX_TOOL_RESPONSE_STRINGS (length parts) || Nat.ltb MAX_TOOL_RESPONSE_DEPTH depth
  then parts
  else
    match value with
    | JString s => parts ++ [s]
    | JArray l =>
        (fix go (l : list jvalue) (parts : list string) : list string :=
           match l with [] => parts | v :: l => go l (walk v (S depth) parts) end) l parts
    | JObject fs =>
        (fix go (l : jmap string jvalue) (parts : list string) : list string :=
           match l with [] => parts | (_, v) :: l => go l (walk v (S depth) parts) end) fs parts
    | JNull | JBool _ | JNumber _ => parts
    end.

Definition lineFeed : string := unchars [ascii_of_N 10].

Definition extractToolResponseText (toolResponse : option jvalue) : string :=
  match toolResponse with
  | Some (JString s) => s
  | Some v => joinWith lineFeed (walk v 0 [])
  | None => ""
  end.

Definition extractShellHookLine (evt : jvalue) : option ShellHookLine :=
  match asString (nullish (field "hook_event_name" evt) (field "hookEventName" evt)),
        asString (nullish (field "tool_name" evt) (field "toolName" evt)) with
  | Some hookEvent, Some toolName =>
      let isPre := hasStr hookEvent PRE_TOOL_EVENTS in
      let isPost := hasStr hookEvent POST_TOOL_EVENTS in
      if negb (hasStr toolName SHELL_TOOL_NAMES) then None
      else if negb isPre && negb isPost then None
      else
        match commandOf (nullish (field "tool_input" evt) (field "toolInput" evt)) with
        | None => None
        | Some command =>
            if isPre then Some (mkLine pre command "")
            else
              let rawResponse :=
                nullish (nullish (nullish (field "tool_response" evt) (field "toolResponse" evt))
                           (field "toolResult" evt)) (field "tool_result" evt) in
              Some (mkLine post command (extractToolResponseText rawResponse))
        end
  | _, _ => None
  end.

(** ** The lesson decision *)

Definition KB_LESSON_SKIP_MARKER : string := "No generic KB lesson:".
Definition KB_LESSON_WRITE_RECORDED_MARKER : string := "KOOKR_LESSON_WRITE: recorded".

Inductive KbLineKind := lesson_write | lesson_write_attempt | lesson_skip | kb_search | kb_none.
Inductive LessonDecisionState := wrote_lesson | explicit_skip | search_only | no_kb_activity.

#[export] Instance KbLineKind_eq_dec : EqDecision KbLineKind.
Proof. solve_decision. Defined.
#[export] Instance LessonDecisionState_eq_dec : EqDecision LessonDecisionState.
Proof. solve_decision. Defined.

Definition classifyKbCommand (command : string) : KbLineKind :=
  let c := chars command in
  if includes "kookr lesson remember" c then lesson_write
  else if includes "kb remember" c then lesson_write_attempt
  else if includes KB_LESSON_SKIP_MARKER c then lesson_skip
  else if includes "kb " c then kb_search
  else kb_none.

Definition writePerformed : regexp :=
  seqOf [litChars (quote "write_performed"); RStar RSpace; lit ":"; RStar RSpace; lit "true"].

Definition isGenuineKbWriteOutput (output : string) : bool :=
  if bool_decide (output = "") then false
  else if includes KB_LESSON_WRITE_RECORDED_MARKER (chars output) then true
  else test writePerformed (chars output).

Record LessonDecisionCounts := mkCounts {
  lessonWrites : Z;
  lessonSkips : Z;
  kbSearches : Z
}.

Definition aggregateLessonDecision (c : LessonDecisionCounts) : LessonDecisionState :=
  if 0 <? lessonWrites c then wrote_lesson
  else if 0 <? lessonSkips c then explicit_skip
  else if 0 <? kbSearches c then search_only
  else no_kb_activity.

Record HookLogLessonStats := mkStats {
  kbCalls : Z;
  bashCalls : Z;
  hl_counts : LessonDecisionCounts;
  hl_exists : bool
}.

Definition emptyHookLogLessonStats : HookLogLessonStats := mkStats 0 0 (mkCounts 0 0 0) false.

(** The body of the loop for one shell line. *)
Definition countLine (shell : ShellHookLine) (s : HookLogLessonStats) : HookLogLessonStats :=
  let kind := classifyKbCommand (command shell) in
  let c := hl_counts s in
  match phase shell with
  | pre =>
      let c :=
        match kind with
        | lesson_write => {| c with lessonWrites := lessonWrites c + 1 |}
        | lesson_skip => {| c with lessonSkips := lessonSkips c + 1 |}
        | kb_search => {| c with kbSearches := kbSearches c + 1 |}
        | lesson_write_attempt | kb_none => c
        end in
      {| s with bashCalls := bashCalls s + 1;
                kbCalls := kbCalls s + (if includes "kb " (chars (command shell)) then 1 else 0);
                hl_counts := c |}
  | post =>
      if bool_decide (kind = lesson_write_attempt) && isGenuineKbWriteOutput (output shell)
      then {| s with hl_counts := {| c with lessonWrites := lessonWrites c + 1 |} |}
      else s
  end.

Abbreviation hookLog := (list (option jvalue)).

(** The loop over the lines, which ends at the first write. *)
Fixpoint scanLines (lines : hookLog) (s : HookLogLessonStats) : option HookLogLessonStats :=
  match lines with
  | [] => Some s
  | None :: lines => scanLines lines s
  | Some JNull :: _ => None
  | Some evt :: lines =>
      match extractShellHookLine evt with
      | None => scanLines lines s
      | Some shell =>
          let s := countLine shell s in
          if 0 <? lessonWrites (hl_counts s) then Some s else scanLines lines s
      end
  end.

Definition scanHookLogForLessonDecision (log : option hookLog) : option HookLogLessonStats :=
  match log with
  | None => Some emptyHookLogLessonStats
  | Some lines => scanLines lines {| emptyHookLogLessonStats with hl_exists := true |}
  end.

Definition safeIdChar (c : ascii) : bool :=
  range "A" "Z" c || range "a" "z" c || range "0" "9" c || cls "_-" c.

Definition isSafeHookSessionId (name : string) : bool :=
  let l := chars name in
  Nat.leb 1 (length l) && Nat.leb (length l) 128 && forallb safeIdChar l.

(** The log the scan reads: none for an unsafe name. *)
Definition hookLogPath (logs : string → option hookLog) (name : string) : option hookLog :=
  if isSafeHookSessionId name then logs name else None.

(** The names of the sessions a scan considers. *)
Definition sessionNames (sessions : list SessionInfo) : list string :=
  omap (λ s, truthyStr (Some (trim (tmuxSession s)))) sessions.

Record TaskLessonDecisionResult := mkDecision {
  ld_decision : LessonDecisionState;
  ld_counts : LessonDecisionCounts;
  missingLogs : Z;
  sessionsScanned : Z
}.

Definition addCounts (a b : LessonDecisionCounts) : LessonDecisionCounts :=
  mkCounts (lessonWrites a + lessonWrites b) (lessonSkips a + lessonSkips b) (kbSearches a + kbSearches b).

(** The loop over the sessions: counts, missing logs, sessions scanned. *)
Fixpoint sumSessions (logs : string → option hookLog) (names : list string)
    (acc : LessonDecisionCounts * Z * Z) : option (LessonDecisionCounts * Z * Z) :=
  match names with
  | [] => Some acc
  | n :: names =>
      let '(c, missing, scanned) := acc in
      match scanHookLogForLessonDecision (hookLogPath logs n) with
      | None => None
      | Some stats =>
          sumSessions logs names
            (addCounts c (hl_counts stats), if hl_exists stats then missing else missing + 1, scanned + 1)
      end
  end.

Definition resolveTaskLessonDecision (logs : string → option hookLog) (sessions : list SessionInfo) :
    option TaskLessonDecisionResult :=
  match sumSessions logs (sessionNames sessions) (mkCounts 0 0 0, 0, 0) with
  | None => None
  | Some (c, missing, scanned) => Some (mkDecision (aggregateLessonDecision c) c missing scanned)
  end.

Definition isLessonDecisionSatisfied (d : LessonDecisionState) : bool :=
  match d with wrote_lesson | explicit_skip => true | search_only | no_kb_activity => false end.

Inductive LessonDecisionGateCode := lesson_decision_required | lesson_decision_hooks_missing.

(** [None] lets the signal through; a refusal has its code (the reason and the hint
    are texts that go with it). *)
Definition evaluateLessonDecisionGate (r : TaskLessonDecisionResult) : option LessonDecisionGateCode :=
  if sessionsScanned r =? 0 then None
  else if isLessonDecisionSatisfied (ld_decision r) then None
  else if (missingLogs r =? sessionsScanned r) && (0 <? missingLogs r)
       then Some lesson_decision_hooks_missing
  else Some lesson_decision_required.

(** The environment switch of a gate: on unless it says otherwise. *)
Definition gateEnabled (raw : option string) : bool :=
  match raw with
  | None => true
  | Some s =>
      if bool_decide (s = "") then true
      else negb (hasStr (unchars (map lowerChar (trimChars (chars s)))) ["0"; "false"; "off"; "no"])
  end.

(** ** How a task completed *)

#[export] Instance CompletionPath_eq_dec : EqDecision CompletionPath.
Proof. solve_decision. Defined.

Definition resolveCompletionPath (explicit : option CompletionPath) (hadPendingCompletionReady : bool)
    (signalSource : option SignalSource) (actorSource : option string) : CompletionPath :=
  match explicit with
  | Some p => p
  | None =>
      if hadPendingCompletionReady then
        match signalSource with Some via_outbox => cp_outbox_drained | _ => cp_normal end
      else
        let src := unchars (map lowerChar (chars (orElse actorSource ""))) in
        if String.eqb src "ui" || String.eqb src "websocket" || startsWith "ws" src then cp_ui_complete
        else if startsWith "system:" src || String.eqb src "recovery" || String.eqb src "reaper" then cp_recovery
        else if String.eqb src "api" || startsWith "api:" src then cp_api_complete
        else if String.eqb src "" then cp_unknown
        else cp_other
  end.

Definition defaultLessonGateExempt (path : CompletionPath) : string :=
  match path with
  | cp_ui_complete => "human_complete"
  | cp_recovery => "recovery_reap"
  | cp_api_complete => "api_complete_ungated"
  | cp_outbox_drained => "outbox_drained_undecided"
  | cp_normal => "signal_auto_close_undecided"
  | cp_other => "other_ungated"
  | cp_unknown => "unspecified"
  end.

Definition stampTaskCompletionProvenance (explicitPath : option CompletionPath)
    (actorSource : option string) (decisionSatisfied : bool) (gateExempt : option string)
    (task : Task) : Task :=
  let hadReady := isSome (pendingSignal task) in
  let path := resolveCompletionPath explicitPath hadReady (pendingSignal task ≫= sig_source) actorSource in
  if hadReady || decisionSatisfied
  then {| task with completionPath := Some path; lessonGateExempt := None |}
  else {| task with completionPath := Some path;
                    lessonGateExempt :=
                      Some (orElse (truthyStr (trim <$> gateExempt)) (defaultLessonGateExempt path)) |}.

(** ** The lesson yield of a window *)

Record LessonYieldBucket := mkBucket {
  wroteLesson : Z;
  explicitSkip : Z;
  searchOnly : Z;
  noKbActivity : Z
}.

Record LessonYieldPathBucket := mkPathBucket {
  pb_bucket : LessonYieldBucket;
  pb_completed : Z;
  pb_decided : Z;
  pb_gateExempt : Z
}.

Definition emptyLessonYieldBucket : LessonYieldBucket := mkBucket 0 0 0 0.
Definition emptyLessonYieldPathBucket : LessonYieldPathBucket := mkPathBucket emptyLessonYieldBucket 0 0 0.

(** The three rates are [decided], [decided] and [decided + explainedExceptions] over
    [completedInWindow], [completedWithLogs] and [completedInWindow], 0 over none. *)
Record LessonYieldSnapshot := mkYield {
  tasksInWindow : Z;
  completedInWindow : Z;
  completedWithLogs : Z;
  buckets : LessonYieldBucket;
  decided : Z;
  byCompletionPath : jmap CompletionPath LessonYieldPathBucket;
  gateExemptReasons : jmap string Z;
  explainedExceptions : Z
}.

Definition emptyYield : LessonYieldSnapshot := mkYield 0 0 0 emptyLessonYieldBucket 0 [] [] 0.

Definition DEFAULT_COMPLETED (s : TaskStatus) : bool := bool_decide (s = ts_completed).

Definition addToBucket (d : LessonDecisionState) (b : LessonYieldBucket) : LessonYieldBucket :=
  match d with
  | wrote_lesson => {| b with wroteLesson := wroteLesson b + 1 |}
  | explicit_skip => {| b with explicitSkip := explicitSkip b + 1 |}
  | search_only => {| b with searchOnly := searchOnly b + 1 |}
  | no_kb_activity => {| b with noKbActivity := noKbActivity b + 1 |}
  end.

(** The body of the loop for one completed task. *)
Definition yieldTask (task : Task) (r : TaskLessonDecisionResult) (y : LessonYieldSnapshot) :
    LessonYieldSnapshot :=
  let taskDecided := isLessonDecisionSatisfied (ld_decision r) in
  let one (b : bool) : Z := if b then 1 else 0 in
  let pathKey := orElse (completionPath task) cp_unknown in
  let pathBucket := orElse (mget pathKey (byCompletionPath y)) emptyLessonYieldPathBucket in
  let exempt := if taskDecided then None else truthyStr (trim <$> lessonGateExempt task) in
  {| tasksInWindow := tasksInWindow y + 1;
     completedInWindow := completedInWindow y + 1;
     completedWithLogs :=
       completedWithLogs y + one ((0 <? sessionsScanned r) && (missingLogs r <? sessionsScanned r));
     buckets := addToBucket (ld_decision r) (buckets y);
     decided := decided y + one taskDecided;
     byCompletionPath :=
       mset pathKey
         {| pb_bucket := addToBucket (ld_decision r) (pb_bucket pathBucket);
            pb_completed := pb_completed pathBucket + 1;
            pb_decided := pb_decided pathBucket + one taskDecided;
            pb_gateExempt := pb_gateExempt pathBucket + one (isSome exempt) |} (byCompletionPath y);
     gateExemptReasons :=
       match exempt with
       | Some e => mset e (orElse (mget e (gateExemptReasons y)) 0 + 1) (gateExemptReasons y)
       | None => gateExemptReasons y
       end;
     explainedExceptions := explainedExceptions y + one (isSome exempt) |}.

Fixpoint yieldLoop (logs : string → option hookLog) (windowStartMs : Z) (tasks : list Task)
    (y : LessonYieldSnapshot) : option LessonYieldSnapshot :=
  match tasks with
  | [] => Some y
  | task :: tasks =>
      if updatedAt task <? windowStartMs then yieldLoop logs windowStartMs tasks y
      else if negb (DEFAULT_COMPLETED (status task)) then
        yieldLoop logs windowStartMs tasks {| y with tasksInWindow := tasksInWindow y + 1 |}
      else
        match resolveTaskLessonDecision logs (sessions task) with
        | None => None
        | Some r => yieldLoop logs windowStartMs tasks (yieldTask task r y)
        end
  end.

Definition computeLessonYield (logs : string → option hookLog) (days nowMs : Z) (tasks : list Task) :
    option LessonYieldSnapshot :=
  yieldLoop logs (nowMs - Z.max 1 days * 86400000) tasks emptyYield.

(** ** The merge gate *)

Definition PR_BLOCKER_MARKER : string := "PR-BLOCKER:".

(** What the gate reads of a task; [mr_mergeParam] is the launch parameter
    [mergeAfterImplementation], the last two are of the metadata. *)
Record TaskLikeForMergeRequired := mkMergeTask {
  mr_prompt : option string;
  mr_userPrompt : option string;
  mr_mergeRequired : bool;
  mr_terminalState : option string;
  mr_mergeParam : option string;
  mr_metaMergeRequired : bool;
  mr_metaTerminalState : option string;
  mr_sessions : list SessionInfo
}.

(** A task of the store has none of the explicit stamps. *)
Definition mergeTask (t : Task) : TaskLikeForMergeRequired :=
  mkMergeTask (Some (prompt t)) (userPrompt t) false None
    (playbookParameterValues t ≫= mget "mergeAfterImplementation") false None (sessions t).

Definition contractHeader : regexp :=
  ignoreCase (seqOf [lit "TERMINAL-STATE"; RPlus RSpace; lit "CONTRACT"; RStar RSpace; lit "("; RStar RSpace;
    lit "mergeAfterImplementation"; RStar RSpace; lit "="; RStar RSpace; lit "true"; RStar RSpace; lit ")"]).

Definition mergePolicy : regexp :=
  ignoreCase (seqOf [lit "mergeAfterImplementation"; RStar RSpace; RClass (cls ":="); RStar RSpace;
    lit "true"; RWordBoundary]).

Definition mergeHolder : regexp :=
  ignoreCase (oneOf [lit "merge authority"; lit "must continue through the merge"; lit "mergedAt"]).

Definition promptDeclaresMergeAuthority (prompt : str) : bool :=
  if bool_decide (prompt = []) then false
  else if test contractHeader prompt then true
  else test mergePolicy prompt && test mergeHolder prompt.

Definition taskHasMergeAuthority (t : TaskLikeForMergeRequired) : bool :=
  if mr_mergeRequired t then true
  else if bool_decide (mr_terminalState t = Some "merged-pr") then true
  else if mr_metaMergeRequired t then true
  else if bool_decide (mr_metaTerminalState t = Some "merged-pr") then true
  else if bool_decide (mr_mergeParam t = Some "true") || bool_decide (mr_mergeParam t = Some "1") then true
  else promptDeclaresMergeAuthority
         (chars (orElse (mr_prompt t) "") ++ ascii_of_N 10 :: chars (orElse (mr_userPrompt t) "")).

Inductive MergeTrailSignal := pr_create | pr_merge | pr_blocker | pr_none.
#[export] Instance MergeTrailSignal_eq_dec : EqDecision MergeTrailSignal.
Proof. solve_decision. Defined.

Definition words (ws : list string) : regexp :=
  ignoreCase (seqOf (RWordBoundary ::
    (fix go (ws : list string) : list regexp :=
       match ws with
       | [] => [RWordBoundary]
       | [w] => [lit w; RWordBoundary]
       | w :: ws => lit w :: RPlus RSpace :: go ws
       end) ws)).

Definition classifyMergeTrailCommand (command : string) : MergeTrailSignal :=
  let c := chars command in
  if includes PR_BLOCKER_MARKER c then pr_blocker
  else if test (words ["gh"; "pr"; "merge"]) c then pr_merge
  else if test (words ["pnpm"; "merge"]) c then pr_merge
  else if test (words ["kookr-merge.sh"]) c then pr_merge
  else if test (words ["gh"; "pr"; "create"]) c then pr_create
  else pr_none.

Definition urlPart : regexp := RPlus (RClass (notc (orc (cls "/") isWs))).

Definition PR_URL_RE : regexp :=
  ignoreCase (seqOf [lit "http"; ROpt (lit "s"); lit "://"; urlPart; lit "/"; urlPart; lit "/"; urlPart; lit "/";
    ROpt (lit "-/"); oneOf [lit "pull"; lit "merge_requests"]; lit "/"; RCapture (RPlus RDigit)]).

Definition PR_NUMBER_EXPLICIT_RE : regexp :=
  ignoreCase (seqOf [RWordBoundary; oneOf [lit "PR"; lit "pull request"]; RStar RSpace; ROpt (lit "#");
    RCapture (RPlus RDigit); RWordBoundary]).

Definition mergeNumber (ws : list string) : regexp :=
  ignoreCase (seqOf (RWordBoundary :: (ws ≫= λ w, [lit w; RPlus RSpace]) ++ [RCapture (RPlus RDigit); RWordBoundary])).

(** [nums.add(n)] for the number of a group, when it is one. *)
Definition addNumber (nums : list Z) (f : found) : list Z :=
  match group f ≫= readDigits with
  | Some n => if (0 <? n) && negb (bool_decide (n ∈ nums)) then nums ++ [n] else nums
  | None => nums
  end.

Definition extractPrNumbersFromCommand (command : string) : list Z :=
  let c := chars command in
  let first r := option_list (exec r None c) in
  fold_left addNumber
    (matchAll PR_URL_RE c ++ matchAll PR_NUMBER_EXPLICIT_RE c
     ++ first (mergeNumber ["gh"; "pr"; "merge"]) ++ first (mergeNumber ["pnpm"; "merge"])) [].

Record MergeTrailEvidence := mkTrail {
  prCreateCommands : Z;
  prMergeCommands : Z;
  prBlockerCommands : Z;
  prNumbers : list Z;
  hasLogs : bool;
  mt_sessionsScanned : Z;
  mt_missingLogs : Z
}.

Definition emptyMergeTrailEvidence : MergeTrailEvidence := mkTrail 0 0 0 [] false 0 0.

(** Set union in insertion order. *)
Definition addNumbers (nums more : list Z) : list Z :=
  fold_left (λ ns n, if bool_decide (n ∈ ns) then ns else ns ++ [n]) more nums.

Definition countCommand (cmd : string) (e : MergeTrailEvidence) : MergeTrailEvidence :=
  let e := {| e with prNumbers := addNumbers (prNumbers e) (extractPrNumbersFromCommand cmd) |} in
  match classifyMergeTrailCommand cmd with
  | pr_blocker => {| e with prBlockerCommands := prBlockerCommands e + 1 |}
  | pr_merge => {| e with prMergeCommands := prMergeCommands e + 1 |}
  | pr_create => {| e with prCreateCommands := prCreateCommands e + 1 |}
  | pr_none => e
  end.

(** The loop over the lines, which ends at a blocker. *)
Fixpoint mergeLines (lines : hookLog) (e : MergeTrailEvidence) : option MergeTrailEvidence :=
  match lines with
  | [] => Some e
  | None :: lines => mergeLines lines e
  | Some JNull :: _ => None
  | Some evt :: lines =>
      match extractShellCommandFromHookLine evt with
      | None => mergeLines lines e
      | Some cmd =>
          let e := countCommand cmd e in
          if 0 <? prBlockerCommands e then Some e else mergeLines lines e
      end
  end.

Definition scanHookLogForMergeEvidence (log : option hookLog) : option MergeTrailEvidence :=
  match log with
  | None => Some emptyMergeTrailEvidence
  | Some lines => mergeLines lines {| emptyMergeTrailEvidence with hasLogs := true |}
  end.

(** The loop over the sessions, which ends at a blocker. *)
Fixpoint mergeSessions (logs : string → option hookLog) (names : list string) (e : MergeTrailEvidence) :
    option MergeTrailEvidence :=
  match names with
  | [] => Some e
  | n :: names =>
      let e := {| e with mt_sessionsScanned := mt_sessionsScanned e + 1 |} in
      match scanHookLogForMergeEvidence (hookLogPath logs n) with
      | None => None
      | Some stats =>
          if negb (hasLogs stats) then
            mergeSessions logs names {| e with mt_missingLogs := mt_missingLogs e + 1 |}
          else
            let e := {| prCreateCommands := prCreateCommands e + prCreateCommands stats;
                        prMergeCommands := prMergeCommands e + prMergeCommands stats;
                        prBlockerCommands := prBlockerCommands e + prBlockerCommands stats;
                        prNumbers := addNumbers (prNumbers e) (prNumbers stats);
                        hasLogs := true;
                        mt_sessionsScanned := mt_sessionsScanned e;
                        mt_missingLogs := mt_missingLogs e |} in
            if 0 <? prBlockerCommands e then Some e else mergeSessions logs names e
      end
  end.

Definition resolveTaskMergeEvidence (logs : string → option hookLog) (t : TaskLikeForMergeRequired) :
    option MergeTrailEvidence :=
  mergeSessions logs (sessionNames (mr_sessions t)) emptyMergeTrailEvidence.

Record MergeEvidence := mkMergeEvidence {
  prOpened : bool;
  mergedVerified : bool;
  blockerRecorded : bool
}.

Record LiveMerged := mkLive {
  allMerged : bool;
  checked : Z
}.

Definition evidenceFromTrail (trail : MergeTrailEvidence) (live : option LiveMerged) : MergeEvidence :=
  mkMergeEvidence (0 <? prCreateCommands trail)
    (match live with
     | Some l => if 0 <? checked l then allMerged l else 0 <? prMergeCommands trail
     | None => 0 <? prMergeCommands trail
     end)
    (0 <? prBlockerCommands trail).

(** An answer of [gh]: the command failed, or the merge time it prints. *)
Definition isMerged (mergedAt : option string) : bool := isSome (truthyStr mergedAt).

Definition createGhMergedAtVerifier (gh : option Z → option (option string)) (prNumbers : list Z) :
    LiveMerged :=
  let numbers := List.filter (λ n, 0 <? n) prNumbers in
  match numbers with
  | [] => match gh None with Some at_ => mkLive (isMerged at_) 1 | None => mkLive true 0 end
  | _ :: _ =>
      let l := fold_left (λ l n,
        match gh (Some n) with
        | Some at_ => mkLive (allMerged l && isMerged at_) (checked l + 1)
        | None => l
        end) numbers (mkLive true 0) in
      if checked l =? 0 then mkLive false 0 else l
  end.

(** [true] is a refusal with the code [merge_required]. *)
Definition evaluateMergeRequiredGate (mergeAuthority : bool) (e : MergeEvidence) : bool :=
  if negb mergeAuthority then false
  else if blockerRecorded e then false
  else if negb (prOpened e) then false
  else negb (mergedVerified e).

(** The gate on a task: whether it refuses, [None] when the scan throws. *)
Definition resolveMergeRequiredGate (enabled hooksDir : bool) (verify : option (option Z → option (option string)))
    (logs : string → option hookLog) (t : TaskLikeForMergeRequired) : option bool :=
  if negb enabled then Some false
  else if negb (taskHasMergeAuthority t) then Some false
  else if negb hooksDir then Some false
  else
    match resolveTaskMergeEvidence logs t with
    | None => None
    | Some trail =>
        let needsLive := (prBlockerCommands trail =? 0) &&
          ((0 <? prCreateCommands trail) || (0 <? prMergeCommands trail)
           || Nat.ltb 0 (length (prNumbers trail))) in
        let live := match verify with
                    | Some gh => if needsLive then Some (createGhMergedAtVerifier gh (prNumbers trail)) else None
                    | None => None
                    end in
        Some (evaluateMergeRequiredGate true (evidenceFromTrail trail live))
    end.

(** ** The decision of a hook log, without the early exit *)

(** A scan of this line does not throw. *)
Definition readable (line : option jvalue) : Prop := line ≠ Some JNull.

(** The shell lines of a log. *)
Definition shellLines (lines : hookLog) : list ShellHookLine :=
  omap (λ line, line ≫= extractShellHookLine) lines.

Definition isWrite (l : ShellHookLine) : bool :=
  match phase l with
  | pre => bool_decide (classifyKbCommand (command l) = lesson_write)
  | post => bool_decide (classifyKbCommand (command l) = lesson_write_attempt)
            && isGenuineKbWriteOutput (output l)
  end.

Definition isPreKind (k : KbLineKind) (l : ShellHookLine) : bool :=
  match phase l with pre => bool_decide (classifyKbCommand (command l) = k) | post => false end.

(** The counts of all the lines. *)
Definition fullCounts (ls : list ShellHookLine) : LessonDecisionCounts :=
  mkCounts (Z.of_nat (countb isWrite ls)) (Z.of_nat (countb (isPreKind lesson_skip) ls))
    (Z.of_nat (countb (isPreKind kb_search) ls)).

Definition taskLog (logs : string → option hookLog) (sessions : list SessionInfo) : list ShellHookLine :=
  sessionNames sessions ≫= λ n, shellLines (default [] (hookLogPath logs n)).

Definition logsReadable (logs : string → option hookLog) (sessions : list SessionInfo) : Prop :=
  ∀ n lines, n ∈ sessionNames sessions → hookLogPath logs n = Some lines → Forall readable lines.

(** The lessons a scan sees: all of them when there is no write, one of them when there is. *)
Definition sees (c full : LessonDecisionCounts) : Prop :=
  0 ≤ lessonSkips c ∧ 0 ≤ kbSearches c ∧ (0 < lessonWrites full → 0 < lessonWrites c) ∧
  (lessonWrites full = 0 → c = full).

Lemma addCounts_0_r c : addCounts c (mkCounts 0 0 0) = c.
Proof. destruct c. unfold addCounts. simpl. f_equal; lia. Qed.

Lemma addCounts_assoc a b c : addCounts (addCounts a b) c = addCounts a (addCounts b c).
Proof. unfold addCounts. simpl. f_equal; lia. Qed.

Lemma fullCounts_app l1 l2 : fullCounts (l1 ++ l2) = addCounts (fullCounts l1) (fullCounts l2).
Proof. unfold fullCounts, addCounts. simpl. rewrite !countb_app. f_equal; lia. Qed.

Lemma countLine_counts l s : hl_counts (countLine l s) = addCounts (hl_counts s) (fullCounts [l]).
Proof.
  destruct s as [k b [w sk se] e]. unfold countLine, fullCounts, addCounts, isWrite, isPreKind, countb. simpl.
  destruct (phase l), (classifyKbCommand (command l)); simpl; try (f_equal; lia).
  destruct (isGenuineKbWriteOutput (output l)); simpl; f_equal; lia.
Qed.

Lemma countLine_exists l s : hl_exists (countLine l s) = hl_exists s.
Proof. unfold countLine. by destruct (phase l), (classifyKbCommand (command l)), (isGenuineKbWriteOutput (output l)). Qed.

Lemma sees_full c l : sees c (fullCounts l) → 0 ≤ lessonWrites c →
  aggregateLessonDecision c = aggregateLessonDecision (fullCounts l).
Proof.
  intros (Hs & Hk & Hw & He) H0. destruct (decide (lessonWrites (fullCounts l) = 0)) as [E|E]; [by rewrite He|].
  unfold aggregateLessonDecision.
  assert (0 < lessonWrites (fullCounts l)) by (unfold fullCounts in *; simpl in *; lia).
  specialize (Hw H). by apply Z.ltb_lt in H as ->, Hw as ->.
Qed.

(** The scan of a readable log: all the counts, or a write. *)
Lemma scanLines_sees lines s :
  Forall readable lines → lessonWrites (hl_counts s) = 0 →
  ∃ s', scanLines lines s = Some s' ∧ hl_exists s' = hl_exists s ∧
    ∃ c, hl_counts s' = addCounts (hl_counts s) c ∧ 0 ≤ lessonWrites c ∧ sees c (fullCounts (shellLines lines)).
Proof.
  revert s. induction lines as [|line lines IH]; intros s Hr H0; cbn [scanLines].
  { exists s. split_and!; [done..|]. exists (mkCounts 0 0 0). rewrite addCounts_0_r.
    change (fullCounts (shellLines [])) with (mkCounts 0 0 0). by split_and!. }
  apply Forall_cons in Hr as [Hl Hr].
  destruct line as [evt|]; [|by apply IH].
  assert (Hne : evt ≠ JNull) by (intros ->; by apply Hl).
  assert (Hskip : extractShellHookLine evt = None → shellLines (Some evt :: lines) = shellLines lines)
    by (intros E; unfold shellLines; simpl; by rewrite E).
  assert (Hone : ∀ l, extractShellHookLine evt = Some l → shellLines (Some evt :: lines) = l :: shellLines lines)
    by (intros l E; unfold shellLines; simpl; by rewrite E).
  replace (match evt with JNull => None | _ => _ end) with
    (match extractShellHookLine evt with
     | None => scanLines lines s
     | Some shell => if 0 <? lessonWrites (hl_counts (countLine shell s)) then Some (countLine shell s)
                     else scanLines lines (countLine shell s)
     end) by (by destruct evt).
  destruct (extractShellHookLine evt) as [l|] eqn:El.
  2: { rewrite (Hskip eq_refl). by apply IH. }
  rewrite (Hone l eq_refl).
  change (l :: shellLines lines) with ([l] ++ shellLines lines). rewrite fullCounts_app.
  pose proof (countLine_counts l s) as Hc. assert (Hpos : 0 ≤ lessonWrites (fullCounts [l]) ∧
    0 ≤ lessonSkips (fullCounts [l]) ∧ 0 ≤ kbSearches (fullCounts [l])) by (unfold fullCounts; simpl; lia).
  destruct (0 <? lessonWrites (hl_counts (countLine l s))) eqn:Ew; zbool.
  - exists (countLine l s). split_and!; [done|apply countLine_exists|]. exists (fullCounts [l]).
    rewrite Hc in Ew. split_and!; [done|lia|].
    unfold sees, addCounts in *; simpl in *. split_and!; [lia|lia|lia|]. intros. lia.
  - assert (Hw0 : lessonWrites (fullCounts [l]) = 0) by (rewrite Hc in Ew; unfold addCounts in Ew; simpl in *; lia).
    destruct (IH (countLine l s) Hr) as (s' & E & Hx & c & Hc' & Hcw & Hs1 & Hs2 & Hs3 & Hs4).
    { rewrite Hc. unfold addCounts. simpl in *. lia. }
    exists s'. split_and!; [done|by rewrite Hx, countLine_exists|]. exists (addCounts (fullCounts [l]) c).
    rewrite Hc', Hc, addCounts_assoc. split_and!; [done|unfold addCounts; simpl; lia|].
    unfold sees, addCounts in *; simpl in *. split_and!; [lia|lia|lia|].
    intros H. rewrite Hs4 by lia. done.
Qed.

Definition noLog (logs : string → option hookLog) (n : string) : bool := negb (isSome (hookLogPath logs n)).

Lemma sees_add c1 f1 c2 f2 :
  sees c1 f1 → sees c2 f2 → 0 ≤ lessonWrites c1 → 0 ≤ lessonWrites c2 →
  0 ≤ lessonWrites f1 → 0 ≤ lessonWrites f2 → sees (addCounts c1 c2) (addCounts f1 f2).
Proof.
  intros (A1 & A2 & A3 & A4) (B1 & B2 & B3 & B4) ? ? ? ?. unfold sees, addCounts in *; simpl in *.
  split_and!; [lia|lia|lia|]. intros Hz. by rewrite A4, B4 by lia.
Qed.

Lemma scanHook_sees log :
  (∀ lines, log = Some lines → Forall readable lines) →
  ∃ s, scanHookLogForLessonDecision log = Some s ∧ hl_exists s = isSome log ∧
    0 ≤ lessonWrites (hl_counts s) ∧ sees (hl_counts s) (fullCounts (shellLines (default [] log))).
Proof.
  destruct log as [lines|]; simpl; intros Hr.
  - destruct (scanLines_sees lines {| emptyHookLogLessonStats with hl_exists := true |} (Hr _ eq_refl) eq_refl)
      as (s & E & Hx & c & Hc & Hw & Hs).
    exists s. rewrite Hc. destruct c as [w sk se]. by split_and!.
  - eexists. split; [done|]. change (fullCounts (shellLines [])) with (mkCounts 0 0 0). by split_and!.
Qed.

Lemma sumSessions_sees logs names c0 m0 k0 :
  (∀ n lines, n ∈ names → hookLogPath logs n = Some lines → Forall readable lines) →
  ∃ c, sumSessions logs names (c0, m0, k0) =
         Some (addCounts c0 c, m0 + Z.of_nat (countb (noLog logs) names), k0 + Z.of_nat (length names)) ∧
    0 ≤ lessonWrites c ∧ sees c (fullCounts (names ≫= λ n, shellLines (default [] (hookLogPath logs n)))).
Proof.
  revert c0 m0 k0. induction names as [|n names IH]; intros c0 m0 k0 Hr; cbn [sumSessions].
  { exists (mkCounts 0 0 0). rewrite addCounts_0_r, countb_nil. simpl. rewrite !Z.add_0_r.
    change (fullCounts []) with (mkCounts 0 0 0). by split_and!. }
  destruct (scanHook_sees (hookLogPath logs n)) as (s & E & Hx & Hw & Hs).
  { intros lines. apply Hr. by left. }
  rewrite E. destruct (IH (addCounts c0 (hl_counts s)) (if hl_exists s then m0 else m0 + 1) (k0 + 1))
    as (c & -> & Hcw & Hcs); [intros; apply (Hr n0); [by right|done]|].
  exists (addCounts (hl_counts s) c). rewrite addCounts_assoc, countb_cons, Hx.
  unfold noLog at 2. simpl length. rewrite bind_cons, fullCounts_app. split_and!.
  - do 2 f_equal; [f_equal|lia]. destruct (isSome (hookLogPath logs n)); simpl; lia.
  - unfold addCounts; simpl; lia.
  - apply sees_add; try done; unfold fullCounts; simpl; lia.
Qed.

(** A line that settles the decision of a task. *)
Definition decisive (l : ShellHookLine) : bool := isWrite l || isPreKind lesson_skip l.

Lemma countb_pos {A} (p : A → bool) l : (0 < countb p l)%nat ↔ ∃ x, x ∈ l ∧ p x = true.
Proof.
  unfold countb. split.
  - destruct (List.filter p l) as [|x k] eqn:E; simpl; [lia|]. intros _. exists x.
    rewrite list_elem_of_In. apply filter_In. rewrite E. by left.
  - intros (x & Hx & Hp). assert (H : In x (List.filter p l)) by (apply filter_In; by rewrite <- list_elem_of_In).
    destruct (List.filter p l); [done|simpl; lia].
Qed.

Lemma satisfied_decisive ls :
  isLessonDecisionSatisfied (aggregateLessonDecision (fullCounts ls)) = true ↔
  ∃ l, l ∈ ls ∧ decisive l = true.
Proof.
  unfold aggregateLessonDecision, fullCounts, decisive. simpl.
  pose proof (countb_pos isWrite ls) as Hw. pose proof (countb_pos (isPreKind lesson_skip) ls) as Hs.
  setoid_rewrite orb_true_iff. split.
  - intros H. destruct (decide (0 < countb isWrite ls)%nat) as [E|E].
    + apply Hw in E as (l & ? & ?). eauto.
    + destruct (decide (0 < countb (isPreKind lesson_skip) ls)%nat) as [E'|E'].
      * apply Hs in E' as (l & ? & ?). eauto.
      * rewrite !(proj2 (Z.ltb_ge _ _)) in H by lia. by destruct (0 <? _).
  - intros (l & Hl & [H|H]).
    + assert (0 < countb isWrite ls)%nat by (apply Hw; eauto).
      by rewrite (proj2 (Z.ltb_lt _ _)) by lia.
    + assert (0 < countb (isPreKind lesson_skip) ls)%nat by (apply Hs; eauto).
      destruct (0 <? Z.of_nat (countb isWrite ls)); [done|]. by rewrite (proj2 (Z.ltb_lt _ _)) by lia.
Qed.

(** What a scan of readable logs resolves to. *)
Lemma resolve_readable logs sessions :
  logsReadable logs sessions →
  ∃ r, resolveTaskLessonDecision logs sessions = Some r ∧
    ld_decision r = aggregateLessonDecision (fullCounts (taskLog logs sessions)) ∧
    sessionsScanned r = Z.of_nat (length (sessionNames sessions)) ∧
    missingLogs r = Z.of_nat (countb (noLog logs) (sessionNames sessions)).
Proof.
  intros Hr. unfold resolveTaskLessonDecision.
  destruct (sumSessions_sees logs (sessionNames sessions) (mkCounts 0 0 0) 0 0 Hr) as (c & -> & Hw & Hs).
  eexists. split; [done|]. simpl. split_and!; try done.
  replace (addCounts (mkCounts 0 0 0) c) with c by (destruct c; done).
  by apply sees_full.
Qed.

(** ** The trail of a merge task *)

Definition mergeCommands (lines : hookLog) : list string :=
  omap (λ line, line ≫= extractShellCommandFromHookLine) lines.

Definition taskCommands (logs : string → option hookLog) (sessions : list SessionInfo) : list string :=
  sessionNames sessions ≫= λ n, mergeCommands (default [] (hookLogPath logs n)).

Definition isSignal (k : MergeTrailSignal) (cmd : string) : bool :=
  bool_decide (classifyMergeTrailCommand cmd = k).

Definition numberIn (cmds : list string) (n : Z) : Prop :=
  ∃ cmd, cmd ∈ cmds ∧ n ∈ extractPrNumbersFromCommand cmd.

Definition occurs (k : MergeTrailSignal) (cmds : list string) : Prop :=
  ∃ cmd, cmd ∈ cmds ∧ isSignal k cmd = true.

(** The evidence [e'] is that of [e] with these commands, as far as it decides. *)
Definition trailOf (e : MergeTrailEvidence) (cmds : list string) (e' : MergeTrailEvidence) : Prop :=
  0 ≤ prBlockerCommands e' ∧ (0 < prBlockerCommands e' ↔ occurs pr_blocker cmds) ∧
  (prBlockerCommands e' = 0 →
     prCreateCommands e' = prCreateCommands e + Z.of_nat (countb (isSignal pr_create) cmds) ∧
     prMergeCommands e' = prMergeCommands e + Z.of_nat (countb (isSignal pr_merge) cmds) ∧
     ∀ n, n ∈ prNumbers e' ↔ n ∈ prNumbers e ∨ numberIn cmds n).

Lemma elem_of_addNumbers more n : ∀ nums, n ∈ addNumbers nums more ↔ n ∈ nums ∨ n ∈ more.
Proof.
  unfold addNumbers. induction more as [|m more IH]; intros nums; simpl; [pose proof (not_elem_of_nil n); naive_solver|].
  rewrite IH, elem_of_cons. case_bool_decide; [naive_solver|].
  rewrite elem_of_app, list_elem_of_singleton. naive_solver.
Qed.

Lemma addNumber_pos fs : ∀ nums, Forall (Z.lt 0) nums → Forall (Z.lt 0) (fold_left addNumber fs nums).
Proof.
  induction fs as [|f fs IH]; intros nums H; simpl; [done|]. apply IH. unfold addNumber.
  destruct (group f ≫= readDigits) as [n|]; [|done].
  destruct ((0 <? n) && negb (bool_decide (n ∈ nums))) eqn:E; [|done].
  apply andb_prop in E as [E%Z.ltb_lt _]. apply Forall_app. split; [done|]. by repeat constructor.
Qed.

Lemma numberIn_pos cmds n : numberIn cmds n → 0 < n.
Proof.
  intros (cmd & _ & H). unfold extractPrNumbersFromCommand in H. revert n H.
  apply Forall_forall. apply addNumber_pos. constructor.
Qed.

Lemma countCommand_blockers cmd e :
  prBlockerCommands (countCommand cmd e) = prBlockerCommands e + if isSignal pr_blocker cmd then 1 else 0.
Proof. unfold countCommand, isSignal. destruct (classifyMergeTrailCommand cmd); simpl; lia. Qed.

Lemma countCommand_rest cmd e :
  hasLogs (countCommand cmd e) = hasLogs e ∧
  prCreateCommands (countCommand cmd e) =
    prCreateCommands e + Z.of_nat (countb (isSignal pr_create) [cmd]) ∧
  prMergeCommands (countCommand cmd e) =
    prMergeCommands e + Z.of_nat (countb (isSignal pr_merge) [cmd]) ∧
  ∀ n, n ∈ prNumbers (countCommand cmd e) ↔ n ∈ prNumbers e ∨ n ∈ extractPrNumbersFromCommand cmd.
Proof.
  unfold countCommand, isSignal, countb. cbn [List.filter].
  destruct (classifyMergeTrailCommand cmd); simpl; setoid_rewrite elem_of_addNumbers; split_and!; (done || lia).
Qed.

Lemma occurs_cons k cmd cmds : occurs k (cmd :: cmds) ↔ isSignal k cmd = true ∨ occurs k cmds.
Proof. unfold occurs. setoid_rewrite elem_of_cons. naive_solver. Qed.

Lemma occurs_app k l1 l2 : occurs k (l1 ++ l2) ↔ occurs k l1 ∨ occurs k l2.
Proof. unfold occurs. setoid_rewrite elem_of_app. naive_solver. Qed.

Lemma numberIn_app l1 l2 n : numberIn (l1 ++ l2) n ↔ numberIn l1 n ∨ numberIn l2 n.
Proof. unfold numberIn. setoid_rewrite elem_of_app. naive_solver. Qed.

Lemma not_occurs_nil k : ¬ occurs k [].
Proof. intros (x & H & _). by apply not_elem_of_nil in H. Qed.

Lemma not_numberIn_nil n : ¬ numberIn [] n.
Proof. intros (x & H & _). by apply not_elem_of_nil in H. Qed.

Lemma trailOf_nil e : prBlockerCommands e = 0 → trailOf e [] e.
Proof.
  intros H. unfold trailOf. rewrite H, !countb_nil. simpl. split_and!; [lia| |].
  - split; [lia|by intros ?%not_occurs_nil].
  - intros _. split_and!; [lia..|]. intros n. pose proof (not_numberIn_nil n). naive_solver.
Qed.

Lemma mergeLines_trail lines e :
  Forall readable lines → prBlockerCommands e = 0 →
  ∃ e', mergeLines lines e = Some e' ∧ hasLogs e' = hasLogs e ∧ trailOf e (mergeCommands lines) e'.
Proof.
  revert e. induction lines as [|line lines IH]; intros e Hr H0; cbn [mergeLines].
  { exists e. by split_and!; [..|apply trailOf_nil]. }
  apply Forall_cons in Hr as [Hl Hr].
  destruct line as [evt|]; [|by apply IH].
  assert (Hne : evt ≠ JNull) by (intros ->; by apply Hl).
  replace (match evt with JNull => None | _ => _ end) with
    (match extractShellCommandFromHookLine evt with
     | None => mergeLines lines e
     | Some cmd => if 0 <? prBlockerCommands (countCommand cmd e) then Some (countCommand cmd e)
                   else mergeLines lines (countCommand cmd e)
     end) by (by destruct evt).
  destruct (extractShellCommandFromHookLine evt) as [cmd|] eqn:Ec.
  2: { replace (mergeCommands (Some evt :: lines)) with (mergeCommands lines)
         by (unfold mergeCommands; simpl; by rewrite Ec). by apply IH. }
  replace (mergeCommands (Some evt :: lines)) with (cmd :: mergeCommands lines)
    by (unfold mergeCommands; simpl; by rewrite Ec).
  pose proof (countCommand_blockers cmd e) as Hb. pose proof (countCommand_rest cmd e) as (Hl' & Hc & Hm & Hn).
  destruct (isSignal pr_blocker cmd) eqn:Ek.
  - rewrite (proj2 (Z.ltb_lt _ _)) by lia. exists (countCommand cmd e). split_and!; [done..|].
    unfold trailOf. rewrite occurs_cons, Ek. split_and!; [lia|split; [by left|lia]|lia].
  - rewrite (proj2 (Z.ltb_ge _ _)) by lia.
    destruct (IH (countCommand cmd e) Hr) as (e' & -> & Hx & T1 & T2 & T3); [lia|].
    exists e'. split_and!; [done|congruence|]. unfold trailOf. rewrite occurs_cons, Ek.
    split_and!; [done|rewrite T2; naive_solver|]. intros Hz. destruct (T3 Hz) as (U1 & U2 & U3).
    change (cmd :: mergeCommands lines) with ([cmd] ++ mergeCommands lines). rewrite !countb_app.
    split_and!; [lia|lia|]. intros n. rewrite U3, Hn, numberIn_app.
    assert (Hone : numberIn [cmd] n ↔ n ∈ extractPrNumbersFromCommand cmd).
    { unfold numberIn. setoid_rewrite list_elem_of_singleton. naive_solver. }
    rewrite Hone. tauto.
Qed.

Lemma scanMerge_trail log :
  (∀ lines, log = Some lines → Forall readable lines) →
  ∃ e, scanHookLogForMergeEvidence log = Some e ∧ hasLogs e = isSome log ∧
    trailOf emptyMergeTrailEvidence (mergeCommands (default [] log)) e.
Proof.
  destruct log as [lines|]; cbn [scanHookLogForMergeEvidence default isSome]; intros Hr.
  - destruct (mergeLines_trail lines {| emptyMergeTrailEvidence with hasLogs := true |} (Hr _ eq_refl) eq_refl)
      as (e & E & Hx & T). by exists e.
  - eexists. split; [done|]. split; [done|]. by apply trailOf_nil.
Qed.

Lemma trailOf_log e e1 e2 cmds1 cmds2 :
  prBlockerCommands e = 0 →
  trailOf emptyMergeTrailEvidence cmds1 e1 → prBlockerCommands e1 = 0 →
  trailOf {| prCreateCommands := prCreateCommands e + prCreateCommands e1;
             prMergeCommands := prMergeCommands e + prMergeCommands e1;
             prBlockerCommands := prBlockerCommands e + prBlockerCommands e1;
             prNumbers := addNumbers (prNumbers e) (prNumbers e1); hasLogs := true;
             mt_sessionsScanned := mt_sessionsScanned e; mt_missingLogs := mt_missingLogs e |} cmds2 e2 →
  trailOf e (cmds1 ++ cmds2) e2.
Proof.
  intros H0 (_ & S2 & S3) Hz (T1 & T2 & T3). destruct (S3 Hz) as (A & B & C). simpl in *.
  assert (¬ occurs pr_blocker cmds1) by (rewrite <- S2; lia).
  unfold trailOf. rewrite occurs_app, T2, !countb_app. split_and!; [done|tauto|].
  intros Hz'. destruct (T3 Hz') as (U1 & U2 & U3). split_and!; [lia|lia|].
  intros n. rewrite U3, elem_of_addNumbers, C, numberIn_app. pose proof (not_elem_of_nil n). naive_solver.
Qed.

Lemma trailOf_same e e0 cmds e' :
  prCreateCommands e = prCreateCommands e0 → prMergeCommands e = prMergeCommands e0 →
  prNumbers e = prNumbers e0 → trailOf e cmds e' → trailOf e0 cmds e'.
Proof. unfold trailOf. by intros -> -> ->. Qed.

Lemma mergeSessions_trail logs names e :
  (∀ n lines, n ∈ names → hookLogPath logs n = Some lines → Forall readable lines) →
  prBlockerCommands e = 0 →
  ∃ e', mergeSessions logs names e = Some e' ∧
    trailOf e (names ≫= λ n, mergeCommands (default [] (hookLogPath logs n))) e'.
Proof.
  revert e. induction names as [|n names IH]; intros e Hr H0; cbn [mergeSessions].
  { exists e. split; [done|]. by apply trailOf_nil. }
  destruct (scanMerge_trail (hookLogPath logs n)) as (e1 & -> & Hx & T).
  { intros lines. apply Hr. by left. }
  assert (Hr' : ∀ m lines, m ∈ names → hookLogPath logs m = Some lines → Forall readable lines)
    by (intros m lines Hm; apply Hr; by right).
  rewrite Hx, bind_cons. destruct (hookLogPath logs n) as [lines|] eqn:El; cbn [isSome negb].
  - set (e2 := {| prCreateCommands := _ |}).
    destruct (decide (0 < prBlockerCommands e1)) as [Hp|Hp].
    + rewrite (proj2 (Z.ltb_lt _ _)) by (unfold e2; simpl; lia). exists e2. split; [done|].
      destruct T as (T1 & T2 & T3). unfold trailOf. rewrite occurs_app, <- T2.
      unfold e2; simpl. split_and!; [lia|split; [by left|lia]|lia].
    + assert (Hz : prBlockerCommands e1 = 0) by (destruct T; lia).
      rewrite (proj2 (Z.ltb_ge _ _)) by (unfold e2; simpl; lia).
      destruct (IH e2 Hr') as (e' & -> & T'); [unfold e2; simpl; lia|]. exists e'. split; [done|].
      eapply trailOf_log; [exact H0|exact T|exact Hz|].
      eapply trailOf_same; [..|exact T']; done.
  - destruct (IH {| {| e with mt_sessionsScanned := mt_sessionsScanned e + 1 |}
                    with mt_missingLogs := mt_missingLogs e + 1 |} Hr' H0) as (e' & Hm & T').
    exists e'. split; [exact Hm|]. simpl. eapply trailOf_same; [..|exact T']; done.
Qed.

Lemma occurs_pos k cmds : occurs k cmds ↔ (0 < countb (isSignal k) cmds)%nat.
Proof. unfold occurs. by rewrite countb_pos. Qed.

(** ** A live check *)

Definition answeredOpen (gh : option Z → option (option string)) (n : option Z) : Prop :=
  ∃ at_, gh n = Some at_ ∧ isMerged at_ = false.

Lemma verifier_fold gh ns : ∀ l,
  let l' := fold_left (λ l n, match gh (Some n) with
                              | Some at_ => mkLive (allMerged l && isMerged at_) (checked l + 1)
                              | None => l
                              end) ns l in
  checked l ≤ checked l' ∧
  (checked l' = checked l ↔ ∀ n, n ∈ ns → gh (Some n) = None) ∧
  (allMerged l' = false ↔ allMerged l = false ∨ ∃ n, n ∈ ns ∧ answeredOpen gh (Some n)).
Proof.
  induction ns as [|n ns IH]; intros l; cbn [fold_left].
  - split_and!; [done|split; [by intros _ n ?%not_elem_of_nil|done]|].
    split; [by left|]. intros [|(n & ?%not_elem_of_nil & _)]; done.
  - unfold answeredOpen in *. setoid_rewrite elem_of_cons. destruct (gh (Some n)) as [at_|] eqn:E.
    + destruct (IH (mkLive (allMerged l && isMerged at_) (checked l + 1))) as (A & B & C).
      cbn [checked allMerged] in *. split_and!; [lia| |].
      * split; [lia|]. intros H. rewrite (H n (or_introl eq_refl)) in E. done.
      * rewrite C, andb_false_iff. split.
        -- intros [[]|(m & ? & ?)]; eauto 10.
        -- intros [|(m & [->|] & at' & H1 & H2)]; [by left; left| |right; eauto 10].
           left; right. congruence.
    + destruct (IH l) as (A & B & C). split_and!; [done| |].
      * rewrite B. split; [intros H m [->|]; auto|auto].
      * rewrite C. split; [intros [|(m & ? & ?)]; eauto 10|].
        intros [|(m & [->|] & at' & H1 & H2)]; [by left|congruence|right; eauto 10].
Qed.

(** The pull requests the commands name, and the branch when they name none. *)
Definition queried (cmds : list string) (n : option Z) : Prop :=
  match n with Some n => numberIn cmds n | None => ∀ n, ¬ numberIn cmds n end.

(** Nothing shows that the pull request was merged. *)
Definition unverified (verify : option (option Z → option (option string))) (cmds : list string) : Prop :=
  (∃ gh n, verify = Some gh ∧ queried cmds n ∧ answeredOpen gh n) ∨
  (¬ occurs pr_merge cmds ∧ ∀ gh n, verify = Some gh → queried cmds n → gh n = None).

Lemma verifier_spec gh cmds nums :
  (∀ n, n ∈ nums ↔ numberIn cmds n) →
  let l := createGhMergedAtVerifier gh nums in
  (0 < checked l ↔ ¬ ∀ n, queried cmds n → gh n = None) ∧
  (0 < checked l → (allMerged l = false ↔ ∃ n, queried cmds n ∧ answeredOpen gh n)) ∧ 0 ≤ checked l.
Proof.
  intros Hn. unfold createGhMergedAtVerifier.
  assert (Hf : List.filter (λ n, 0 <? n) nums = nums).
  { apply filter_countb_all, countb_Forall_not, Forall_forall. intros n H%Hn%numberIn_pos.
    apply negb_false_iff. by apply Z.ltb_lt. }
  rewrite Hf. destruct nums as [|n0 nums].
  - assert (Hq : ∀ n, queried cmds n ↔ n = None).
    { intros [n|]; simpl; [|split; [done|]; intros _ n H%Hn; by apply not_elem_of_nil in H].
      rewrite <- Hn. split; [by intros ?%not_elem_of_nil|done]. }
    setoid_rewrite Hq. unfold answeredOpen. destruct (gh None) as [at_|] eqn:E; cbn [checked allMerged].
    + split_and!; [split; [|lia]|intros _|lia].
      * intros _ H. by rewrite (H None eq_refl) in E.
      * split; [intros H; exists None; eauto|]. intros (n & -> & at' & H1 & H2). congruence.
    + split_and!; [split; [lia|]|lia|lia]. intros H. exfalso. apply H. by intros n ->.
  - assert (Hq : ∀ n, queried cmds n ↔ ∃ m, n = Some m ∧ m ∈ n0 :: nums).
    { intros [n|]; simpl.
      - rewrite <- Hn. split; [eauto|]. by intros (m & [= ->] & H).
      - split; [|by intros (m & ? & _)]. intros H. exfalso. apply (H n0). apply Hn. by left. }
    setoid_rewrite Hq. cbn zeta. destruct (verifier_fold gh (n0 :: nums) (mkLive true 0)) as (A & B & C).
    set (l := fold_left _ _ _) in *. cbn [checked allMerged] in *.
    assert (HB : checked l = 0 ↔ ∀ n, (∃ m, n = Some m ∧ m ∈ n0 :: nums) → gh n = None).
    { rewrite B. split; [by intros H n (m & -> & Hm); apply H|]. intros H n Hm. apply H. eauto. }
    destruct (checked l =? 0) eqn:E; zbool; cbn [checked allMerged].
    + rewrite <- HB. split_and!; lia.
    + rewrite <- HB. split_and!; [lia| |lia]. intros _. rewrite C. split.
      * intros [|(n & Hm & Ha)]; [done|]. exists (Some n). eauto.
      * intros (n & (m & -> & Hm) & Ha). eauto.
Qed.

(** ** The yield *)

Definition bucketTotal (b : LessonYieldBucket) : Z :=
  wroteLesson b + explicitSkip b + searchOnly b + noKbActivity b.

Definition bucketDecided (b : LessonYieldBucket) : Z := wroteLesson b + explicitSkip b.

(** The total of a count over the entries of a map. *)
Fixpoint sumVals {K V} (f : V → Z) (m : jmap K V) : Z :=
  match m with [] => 0 | (_, v) :: m => f v + sumVals f m end.

Lemma sumVals_mset {K V} `{EqDecision K} (f : V → Z) k v (m : jmap K V) :
  sumVals f (mset k v m) = sumVals f m + f v - match mget k m with Some w => f w | None => 0 end.
Proof.
  induction m as [|[k' v'] m IH]; cbn [mset sumVals]; [cbn; lia|].
  destruct (decide (k = k')) as [->|Hne]; cbn [sumVals].
  - rewrite mget_here. lia.
  - rewrite mget_there, IH by done. lia.
Qed.

Record yieldOK (y : LessonYieldSnapshot) (inWindow : Z) : Prop := {
  yo_window : tasksInWindow y = inWindow;
  yo_completed : 0 ≤ completedInWindow y ≤ tasksInWindow y;
  yo_buckets : completedInWindow y = bucketTotal (buckets y);
  yo_decided : decided y = bucketDecided (buckets y);
  yo_logged : 0 ≤ decided y ≤ completedWithLogs y ∧ completedWithLogs y ≤ completedInWindow y;
  yo_explained : 0 ≤ explainedExceptions y ∧ decided y + explainedExceptions y ≤ completedInWindow y;
  yo_paths : completedInWindow y = sumVals pb_completed (byCompletionPath y) ∧
             decided y = sumVals pb_decided (byCompletionPath y) ∧
             explainedExceptions y = sumVals pb_gateExempt (byCompletionPath y);
  yo_reasons : explainedExceptions y = sumVals (λ n, n) (gateExemptReasons y)
}.

Lemma bucketTotal_add d b : bucketTotal (addToBucket d b) = bucketTotal b + 1.
Proof. unfold bucketTotal. destruct d; simpl; lia. Qed.

Lemma bucketDecided_add d b :
  bucketDecided (addToBucket d b) = bucketDecided b + if isLessonDecisionSatisfied d then 1 else 0.
Proof. unfold bucketDecided. destruct d; simpl; lia. Qed.

Lemma countb_full {A} (p : A → bool) l x : x ∈ l → p x = false → (countb p l < length l)%nat.
Proof.
  intros Hx Hp. apply list_elem_of_split in Hx as (l1 & l2 & ->).
  rewrite countb_app, countb_cons, Hp, length_app. simpl.
  pose proof (countb_length p l1). pose proof (countb_length p l2). lia.
Qed.

(** A decision comes from a log. *)
Lemma satisfied_logged logs sessions r :
  logsReadable logs sessions → resolveTaskLessonDecision logs sessions = Some r →
  isLessonDecisionSatisfied (ld_decision r) = true →
  (0 <? sessionsScanned r) && (missingLogs r <? sessionsScanned r) = true.
Proof.
  intros Hr E Hs. destruct (resolve_readable logs sessions Hr) as (r' & E' & Hd & Hk & Hm).
  rewrite E in E'. injection E' as <-. rewrite Hd in Hs.
  apply satisfied_decisive in Hs as (l & Hl & _). unfold taskLog in Hl.
  apply list_elem_of_bind in Hl as (n & Hl & Hn).
  assert (Hf : noLog logs n = false).
  { unfold noLog. destruct (hookLogPath logs n); [done|]. by apply not_elem_of_nil in Hl. }
  pose proof (countb_full _ _ _ Hn Hf). rewrite Hk, Hm. apply andb_true_intro.
  split; apply Z.ltb_lt; lia.
Qed.

Lemma yieldTask_ok task r y n :
  yieldOK y n →
  (isLessonDecisionSatisfied (ld_decision r) = true →
   (0 <? sessionsScanned r) && (missingLogs r <? sessionsScanned r) = true) →
  yieldOK (yieldTask task r y) (n + 1).
Proof.
  intros [A B C D [E E'] [F F'] (G1 & G2 & G3) H] Hs.
  set (d := isLessonDecisionSatisfied (ld_decision r)) in *.
  set (lg := (0 <? sessionsScanned r) && (missingLogs r <? sessionsScanned r)) in *.
  assert (Hx : (if d then 1 else 0) ≤ if lg then 1 else 0) by (destruct d, lg; try lia; by discriminate (Hs eq_refl)).
  constructor; unfold yieldTask; cbn [tasksInWindow completedInWindow completedWithLogs buckets decided
    byCompletionPath gateExemptReasons explainedExceptions]; fold d; fold lg;
    rewrite ?bucketTotal_add, ?bucketDecided_add, ?sumVals_mset; fold d;
    cbn [pb_completed pb_decided pb_gateExempt].
  - lia.
  - lia.
  - lia.
  - lia.
  - destruct d, lg; lia.
  - destruct d; simpl; [lia|]. destruct (truthyStr _); simpl; lia.
  - unfold orElse. destruct (mget _ (byCompletionPath y)) as [b|]; cbn; split_and!; lia.
  - destruct d; cbn [isSome]; [lia|]. destruct (truthyStr _) as [e|]; cbn [isSome]; [|lia].
    rewrite sumVals_mset. unfold orElse. destruct (mget e _); cbn; lia.
Qed.

(** The tasks of a window. *)
Definition inWindow (windowStartMs : Z) (t : Task) : bool := negb (updatedAt t <? windowStartMs).

Lemma yieldLoop_ok logs ws tasks : ∀ y n y',
  Forall (λ t, logsReadable logs (sessions t)) tasks →
  yieldOK y n → yieldLoop logs ws tasks y = Some y' →
  yieldOK y' (n + Z.of_nat (countb (inWindow ws) tasks)).
Proof.
  induction tasks as [|t tasks IH]; intros y n y' Hr Hy; cbn [yieldLoop].
  { intros [= <-]. rewrite countb_nil. simpl. by rewrite Z.add_0_r. }
  apply Forall_cons in Hr as [Ht Hr]. rewrite countb_cons. unfold inWindow at 1.
  destruct (updatedAt t <? ws); cbn [negb]; [by apply IH|].
  rewrite Nat2Z.inj_add, Z.add_assoc. destruct (DEFAULT_COMPLETED (status t)); cbn [negb].
  - destruct (resolveTaskLessonDecision logs (sessions t)) as [r|] eqn:Er; [|done].
    apply IH; [done|]. apply yieldTask_ok; [done|]. by apply (satisfied_logged logs (sessions t)).
  - apply IH; [done|]. destruct Hy. constructor; simpl; try done; lia.
Qed.

(** A completion that is not a silent bypass: its exemption is on record. *)
Definition explained (t : Task) : Prop := truthyStr (trim <$> lessonGateExempt t) ≠ None.

Lemma dropWhile_nil p (l : str) : dropWhile p l = [] ↔ Forall (λ c, p c = true) l.
Proof.
  induction l as [|c l IH]; simpl; [by split|]. rewrite Forall_cons. destruct (p c); [rewrite IH|]; naive_solver.
Qed.

Lemma trimChars_nil l : trimChars l = [] ↔ Forall (λ c, isWs c = true) l.
Proof.
  unfold trimChars, dropWhileEnd. split.
  - intros H. assert (Hr : dropWhile isWs (rev (dropWhile isWs l)) = []).
    { rewrite <- (rev_involutive (dropWhile isWs (rev (dropWhile isWs l)))), H. done. }
    apply dropWhile_nil in Hr. rewrite Forall_forall in Hr.
    destruct (dropWhile isWs l) as [|c k] eqn:E; [by apply dropWhile_nil|].
    pose proof (dropWhile_head _ _ _ _ E) as Hc. rewrite (Hr c) in Hc; [done|].
    rewrite list_elem_of_In, <- in_rev. by left.
  - intros H. apply dropWhile_nil in H. by rewrite H.
Qed.

(** Trimming a text that is trimmed already leaves it as it was empty or not. *)
Lemma trim_trim_nil s : trim (trim s) = "" → trim s = "".
Proof.
  unfold trim. rewrite chars_unchars. intros H.
  assert (Hn : trimChars (trimChars (chars s)) = []) by (apply unchars_inj; exact H).
  apply trimChars_nil in Hn. set (l := trimChars (chars s)) in *.
  destruct l as [|c l0] eqn:El; [done|]. exfalso. unfold l, trimChars, dropWhileEnd in El.
  assert (Hd : dropWhile isWs (rev (dropWhile isWs (chars s))) = rev (c :: l0)).
  { by rewrite <- (rev_involutive (dropWhile _ (rev _))), El. }
  destruct (rev (c :: l0)) as [|x k] eqn:Er.
  - by apply (f_equal (@length _)) in Er; rewrite length_rev in Er.
  - apply dropWhile_head in Hd. rewrite Forall_forall in Hn.
    rewrite (Hn x) in Hd; [done|]. rewrite list_elem_of_In, in_rev, Er. by left.
Qed.

Lemma truthyStr_None x : truthyStr x = None ↔ x = None ∨ x = Some "".
Proof. unfold truthyStr. destruct x as [s|]; [|naive_solver]. destruct (String.eqb_spec s ""); naive_solver. Qed.

Lemma yieldTask_total task r y :
  decided y + explainedExceptions y = completedInWindow y →
  isLessonDecisionSatisfied (ld_decision r) = true ∨ explained task →
  decided (yieldTask task r y) + explainedExceptions (yieldTask task r y) = completedInWindow (yieldTask task r y).
Proof.
  unfold explained, yieldTask. cbn [decided explainedExceptions completedInWindow]. intros H.
  destruct (isLessonDecisionSatisfied _); cbn [isSome]; [lia|].
  destruct (truthyStr _); cbn [isSome]; [lia|naive_solver].
Qed.

Lemma yieldLoop_total logs ws tasks : ∀ y y',
  Forall (λ t, logsReadable logs (sessions t)) tasks →
  Forall (λ t, inWindow ws t = true → status t = ts_completed →
               explained t ∨ ∃ l, l ∈ taskLog logs (sessions t) ∧ decisive l = true) tasks →
  decided y + explainedExceptions y = completedInWindow y →
  yieldLoop logs ws tasks y = Some y' →
  decided y' + explainedExceptions y' = completedInWindow y'.
Proof.
  induction tasks as [|t tasks IH]; intros y y' Hr He Hy; cbn [yieldLoop]; [by intros [= <-]|].
  apply Forall_cons in Hr as [Ht Hr], He as [Hx He]. unfold inWindow in Hx.
  destruct (updatedAt t <? ws); [by apply IH|]. cbn [negb] in Hx.
  unfold DEFAULT_COMPLETED. case_bool_decide as Hc; cbn [negb]; [|by apply IH].
  destruct (resolve_readable logs (sessions t) Ht) as (r & -> & Hd & _).
  apply IH; [done..|]. apply yieldTask_total; [done|]. rewrite Hd, satisfied_decisive.
  destruct (Hx eq_refl Hc); auto.
Qed.

(** ** Properties *)

(** C32: when no line of the logs is the JSON value null, on which the scan throws
    ([null_line_throws]), the lesson gate lets a task through exactly when no session of it has a name,
    or a line of their logs is decisive the way the classifier reads it: a command that runs
    [kookr lesson remember], the output of a [kb remember] that says a lesson was stored, or a
    command with the skip marker and without either of those.  A command that has both
    [kb remember] and the marker is classed as an attempt, so its marker does not count
    ([chained_skip_unseen]).  Leaving a log at its first write does not change the decision.  A
    refusal blames missing logs exactly when there are sessions and every log is missing. *)
Theorem lesson_gate_exact logs sessions :
  logsReadable logs sessions →
  ∃ r, resolveTaskLessonDecision logs sessions = Some r ∧
    ld_decision r = aggregateLessonDecision (fullCounts (taskLog logs sessions)) ∧
    (evaluateLessonDecisionGate r = None ↔
       sessionNames sessions = [] ∨ ∃ l, l ∈ taskLog logs sessions ∧ decisive l = true) ∧
    (evaluateLessonDecisionGate r = Some lesson_decision_hooks_missing ↔
       sessionNames sessions ≠ [] ∧ ∀ n, n ∈ sessionNames sessions → hookLogPath logs n = None).
Proof.
  intros Hr. destruct (resolve_readable logs sessions Hr) as (r & E & Hd & Hk & Hm).
  exists r. rewrite <- satisfied_decisive, <- Hd. split_and!; [done..| |]; unfold evaluateLessonDecisionGate.
  - rewrite Hk. destruct (sessionNames sessions) as [|n ns]; simpl; [naive_solver|].
    destruct (isLessonDecisionSatisfied _); [naive_solver|]. case_match; naive_solver.
  - assert (Hall : missingLogs r = sessionsScanned r ↔ ∀ n, n ∈ sessionNames sessions → hookLogPath logs n = None).
    { rewrite Hk, Hm. split.
      - intros H n Hn. destruct (hookLogPath logs n) eqn:El; [|done].
        assert (Hf : noLog logs n = false) by (unfold noLog; by rewrite El).
        pose proof (countb_full _ _ _ Hn Hf). lia.
      - intros H. f_equal. apply countb_Forall, Forall_forall. intros n Hn. unfold noLog. by rewrite H. }
    rewrite <- Hall. destruct (Z.eqb_spec (sessionsScanned r) 0) as [E0|E0].
    + rewrite Hk in E0. destruct (sessionNames sessions); [naive_solver|simpl in E0; lia].
    + assert (sessionNames sessions ≠ []) by (intros H; rewrite H in Hk; simpl in Hk; lia).
      destruct (isLessonDecisionSatisfied (ld_decision r)) eqn:Es.
      * pose proof (satisfied_logged logs sessions r Hr E Es) as Hx. apply andb_prop in Hx as [_ Hx%Z.ltb_lt].
        split; [done|lia].
      * destruct (Z.eqb_spec (missingLogs r) (sessionsScanned r)) as [Em|Em]; simpl.
        -- rewrite (proj2 (Z.ltb_lt _ _)) by lia. naive_solver.
        -- naive_solver.
Qed.

(** C23: with the gate on, a hooks directory, and no line of the logs that is the JSON value null
    (the scan throws on one), the merge gate refuses exactly the tasks that hold merge
    authority, have no command classed as a blocker and one classed as opening a pull request,
    and whose merge nothing shows: the live check answers that a pull request the commands name
    (or that of the branch, when they name none) is open, or it answers nothing and no command is
    classed as a merge.  The classes are those of the code, one for each command, in the order
    blocker, merge, create: a command that both opens and merges counts as a merge only, so
    that its pull request does not count as opened ([chained_create_unseen]), and a query
    that fails leaves its pull request out ([unchecked_passes]). *)
Theorem merge_gate_exact verify logs t :
  logsReadable logs (mr_sessions t) →
  ∃ refuses, resolveMergeRequiredGate true true verify logs t = Some refuses ∧
    (refuses = true ↔
       taskHasMergeAuthority t = true ∧
       ¬ occurs pr_blocker (taskCommands logs (mr_sessions t)) ∧
       occurs pr_create (taskCommands logs (mr_sessions t)) ∧
       unverified verify (taskCommands logs (mr_sessions t))).
Proof.
  intros Hr. unfold resolveMergeRequiredGate. cbn [negb].
  destruct (taskHasMergeAuthority t); cbn [negb]; [|exists false; naive_solver].
  destruct (mergeSessions_trail logs (sessionNames (mr_sessions t)) emptyMergeTrailEvidence Hr eq_refl)
    as (e & E & T1 & T2 & T3).
  fold (taskCommands logs (mr_sessions t)) in T2, T3. unfold resolveTaskMergeEvidence. rewrite E.
  eexists. split; [done|]. set (cmds := taskCommands logs (mr_sessions t)) in *.
  unfold evaluateMergeRequiredGate, evidenceFromTrail. cbn [negb prOpened mergedVerified blockerRecorded].
  destruct (Z.ltb_spec 0 (prBlockerCommands e)) as [Hb|Hb]; [rewrite <- T2; naive_solver|].
  destruct T3 as (Hc & Hm & Hn); [lia|].
  assert (Hno : ¬ occurs pr_blocker cmds) by (rewrite <- T2; lia).
  assert (Hco : occurs pr_create cmds ↔ 0 < prCreateCommands e).
  { rewrite Hc. unfold occurs. rewrite <- countb_pos. simpl. lia. }
  assert (Hmo : occurs pr_merge cmds ↔ 0 < prMergeCommands e).
  { rewrite Hm. unfold occurs. rewrite <- countb_pos. simpl. lia. }
  assert (Hn' : ∀ n, n ∈ prNumbers e ↔ numberIn cmds n).
  { intros n. rewrite Hn. pose proof (not_elem_of_nil n). simpl. naive_solver. }
  rewrite Hco. destruct (Z.ltb_spec 0 (prCreateCommands e)) as [Hp|Hp]; cbn [negb]; [|split; [done|intros; lia]].
  assert (Hgoal : ∀ b, (b = false ↔ unverified verify cmds) →
    negb b = true ↔ true = true ∧ ¬ occurs pr_blocker cmds ∧ 0 < prCreateCommands e ∧ unverified verify cmds).
  { intros b <-. rewrite negb_true_iff. naive_solver. }
  apply Hgoal. assert (Hfall : (0 <? prMergeCommands e) = false ↔ ¬ occurs pr_merge cmds).
  { rewrite Hmo, Z.ltb_ge. lia. }
  rewrite (proj2 (Z.eqb_eq _ _)) by lia. rewrite ?(proj2 (Z.ltb_lt 0 (prCreateCommands e))) by lia. cbn [andb orb].
  unfold unverified. destruct verify as [gh|].
  - destruct (verifier_spec gh cmds (prNumbers e) Hn') as (V1 & V2 & V3).
    set (l := createGhMergedAtVerifier gh (prNumbers e)) in *.
    destruct (Z.ltb_spec 0 (checked l)) as [Hl|Hl].
    + rewrite (V2 Hl). split.
      * intros (n & ? & ?). left. eauto.
      * intros [(g & n & [= <-] & ? & ?)|[_ H]]; [eauto|]. exfalso. apply V1 in Hl. apply Hl. eauto.
    + rewrite Hfall. assert (Hnone : ∀ n, queried cmds n → gh n = None).
      { intros n Hq. destruct (gh n) eqn:Eg; [|done]. exfalso. assert (0 < checked l); [|lia].
        apply V1. intros H. by rewrite (H n Hq) in Eg. }
      split; [intros H; right; split; [done|]; by intros g n [= <-]; apply Hnone|].
      intros [(g & n & [= <-] & Hq & at_ & Ha & _)|[H _]]; [|done]. by rewrite (Hnone n Hq) in Ha.
  - rewrite Hfall. split; [right; split; [done|]; by intros gh n|].
    intros [(gh & n & H & _)|[H _]]; done.
Qed.

(** The yield of a window counts consistently: the completed tasks are those of the
    four buckets and of the path buckets, every decided one had a log, and the decided ones
    with the explained exceptions are at most the completed ones, which are at most the
    tasks of the window.  So the three rates are between 0 and 1. *)
Theorem yield_consistent logs days nowMs tasks y :
  Forall (λ t, logsReadable logs (sessions t)) tasks →
  computeLessonYield logs days nowMs tasks = Some y →
  yieldOK y (Z.of_nat (countb (inWindow (nowMs - Z.max 1 days * 86400000)) tasks)).
Proof.
  intros Hr Hy. apply (yieldLoop_ok logs _ tasks emptyYield 0 y Hr); [|exact Hy].
  by constructor; split_and?.
Qed.

(** Every completion is accounted for.  Stamping a completion that no signal announced
    and no decision covers records a reason; and when each completed task of the window
    carries a reason or made its decision, the decided ones and the explained ones are all
    of the completed ones, a contract rate of 1. *)
Theorem contract_met logs days nowMs tasks y :
  Forall (λ t, logsReadable logs (sessions t)) tasks →
  Forall (λ t, inWindow (nowMs - Z.max 1 days * 86400000) t = true → status t = ts_completed →
     (∃ explicit actor exempt t0, pendingSignal t0 = None ∧
        lessonGateExempt t =
          lessonGateExempt (stampTaskCompletionProvenance explicit actor false exempt t0)) ∨
     ∃ l, l ∈ taskLog logs (sessions t) ∧ decisive l = true) tasks →
  computeLessonYield logs days nowMs tasks = Some y →
  decided y + explainedExceptions y = completedInWindow y.
Proof.
  intros Hr He. apply yieldLoop_total; [done| |done].
  eapply Forall_impl; [exact He|]. cbn. intros t H Hw Hc.
  destruct (H Hw Hc) as [(ex & ac & ge & t0 & Hp & Hg)|]; [left|by right].
  unfold explained. rewrite Hg, truthyStr_None. unfold stampTaskCompletionProvenance. rewrite Hp. cbn.
  intros [?|[= E]]; [done|].
  destruct (truthyStr (trim <$> ge)) as [e|] eqn:Ee; cbn in E.
  - apply truthyStr_Some in Ee as [Ee Hne]. destruct ge as [g|]; [|done]. injection Ee as <-.
    by apply Hne, trim_trim_nil.
  - revert E. by destruct (resolveCompletionPath ex false None ac).
Qed.

(** ** Witnesses and findings *)

Definition toolLine (event : string) (cmd : string) (more : jmap string jvalue) : option jvalue :=
  Some (JObject ([("hook_event_name", JString event); ("tool_name", JString "Bash");
                  ("tool_input", JObject [("command", JString cmd)])] ++ more)).

Definition oneLog (lines : hookLog) (n : string) : option hookLog := if String.eqb n "s1" then Some lines else None.

Definition oneSession : list SessionInfo := [newSession "s1" "claude" "/repo" 0].

Lemma oneLog_readable lines : Forall readable lines → logsReadable (oneLog lines) oneSession.
Proof.
  intros H n ls Hn. unfold hookLogPath, oneLog. destruct (isSafeHookSessionId n); [|done].
  destruct (String.eqb n "s1"); [|done]. by intros [= <-].
Qed.

Definition suppressed : hookLog :=
  [toolLine "PreToolUse" "kb remember --stdin" [];
   toolLine "PostToolUse" "kb remember --stdin" [("tool_response", JString "duplicate")];
   None; toolLine "PreToolUse" "echo No generic KB lesson: none" []].

Lemma suppressed_readable : Forall readable suppressed.
Proof. repeat constructor; done. Qed.

Lemma lesson_gate_exact_witness :
  ∃ r, resolveTaskLessonDecision (oneLog suppressed) oneSession = Some r ∧
    evaluateLessonDecisionGate r = None.
Proof.
  destruct (lesson_gate_exact (oneLog suppressed) oneSession (oneLog_readable _ suppressed_readable))
    as (r & Hr & _ & Hg & _).
  exists r. split; [exact Hr|]. apply Hg. right.
  exists (mkLine pre "echo No generic KB lesson: none" "").
  split; [apply list_elem_of_In; vm_compute; tauto|by vm_compute].
Defined.

(** A task that completed with a decision, and one completed by hand with a stamp. *)
Definition finished (s : list SessionInfo) : Task :=
  let t := Store.buildTask Runs.sampleName "t1" 100 Runs.sampleOptions Store.newStore in
  {| t with status := ts_completed; sessions := s |}.

Definition stampedTask : Task :=
  let t := finished [] in
  {| t with lessonGateExempt :=
       lessonGateExempt (stampTaskCompletionProvenance None (Some "ui") false None t) |}.

Lemma yield_consistent_witness :
  ∃ y, computeLessonYield (oneLog suppressed) 1 100 [finished oneSession; stampedTask] = Some y ∧
    yieldOK y 2.
Proof.
  eexists. split; [by vm_compute|].
  apply (yield_consistent (oneLog suppressed) 1 100 [finished oneSession; stampedTask]); [|by vm_compute].
  repeat constructor; [apply (oneLog_readable _ suppressed_readable)|].
  by intros n lines ?%not_elem_of_nil.
Defined.

Lemma contract_met_witness :
  ∃ y, computeLessonYield (oneLog suppressed) 1 100 [finished oneSession; stampedTask] = Some y ∧
    completedInWindow y = 2 ∧ decided y + explainedExceptions y = 2.
Proof.
  eexists. split; [by vm_compute|]. split; [done|].
  apply (contract_met (oneLog suppressed) 1 100 [finished oneSession; stampedTask]); [| |by vm_compute].
  - repeat constructor; [apply (oneLog_readable _ suppressed_readable)|].
    by intros n lines ?%not_elem_of_nil.
  - apply Forall_cons. split; [intros _ _|apply Forall_singleton; intros _ _].
    + right. exists (mkLine pre "echo No generic KB lesson: none" "").
      split; [apply list_elem_of_In; vm_compute; tauto|by vm_compute].
    + left. by exists None, (Some "ui"), None, (finished []).
Defined.

(** Two pull requests opened; the query for the second one fails. *)
Definition twoCreated : hookLog :=
  [toolLine "PreToolUse" "gh pr create --fill # PR #7" []; toolLine "PreToolUse" "gh pr create --fill # PR #8" []].

Definition authorised : TaskLikeForMergeRequired :=
  mkMergeTask (Some "merge it") None false None (Some "true") false None oneSession.

Definition ghOne (merged : bool) (n : option Z) : option (option string) :=
  match n with Some 7 => Some (if merged then Some "2026-01-01T00:00:00Z" else None) | _ => None end.

Lemma merge_gate_exact_witness :
  resolveMergeRequiredGate true true (Some (ghOne false)) (oneLog twoCreated) authorised = Some true.
Proof.
  destruct (merge_gate_exact (Some (ghOne false)) (oneLog twoCreated) authorised) as (b & -> & Hb).
  { apply oneLog_readable. repeat constructor; done. }
  f_equal. apply Hb. split_and!; [by vm_compute| | |].
  - rewrite occurs_pos. intros Hn. vm_compute in Hn. lia.
  - rewrite occurs_pos. vm_compute. lia.
  - left. exists (ghOne false), (Some 7). split_and!; [done| |by exists None].
    exists "gh pr create --fill # PR #7". split; apply list_elem_of_In; vm_compute; tauto.
Defined.

(** A pull request whose query fails is not looked at again: with one of two merged and
    the other one unknown, the gate lets the signal through. *)
Theorem unchecked_passes :
  resolveMergeRequiredGate true true (Some (ghOne true)) (oneLog twoCreated) authorised = Some false.
Proof. by vm_compute. Qed.

(** A command that opens the pull request and tries to merge it counts as the merge
    only: without a live check the gate lets an unmerged pull request through, and with one
    that answers that it is open as well. *)
Theorem chained_create_unseen :
  let logs := oneLog [toolLine "PreToolUse" "gh pr create --fill && gh pr merge --squash" []] in
  resolveMergeRequiredGate true true (Some (λ _, Some None)) logs authorised = Some false ∧
  resolveMergeRequiredGate true true None logs authorised = Some false.
Proof. by vm_compute. Qed.

(** The skip marker in the same command as an attempt that stored nothing is not
    seen. *)
Theorem chained_skip_unseen :
  ∃ r, resolveTaskLessonDecision
      (oneLog [toolLine "PreToolUse" "kb remember --stdin || echo No generic KB lesson: duplicate" []]) oneSession
      = Some r ∧ evaluateLessonDecisionGate r = Some lesson_decision_required.
Proof. eexists. by vm_compute. Qed.

(** A line that is the JSON value [null] makes the scan throw. *)
Theorem null_line_throws :
  resolveTaskLessonDecision (oneLog [Some JNull; toolLine "PreToolUse" "kookr lesson remember x" []]) oneSession = None.
Proof. by vm_compute. Qed.
End Gates.
