(* ===== verification/TaskQueries.v ===== *)
(** * What the task store answers

    The queries of [TaskStore] that fold the whole store: the usage roll-up over
    a task's descendants, and the choice of the next pending task.  The methods
    are those of [TaskStore.v]. *)

From S2P Require Import Prelude JsMap JsArray JsString TaskTypes TaskStore TaskRuns.
Local Open Scope Z_scope.

Module Queries.
Import Task Store Runs.

(** ** The usage roll-up *)

Definition childOf (s : store) (i j : string) : Prop := j ∈ childrenOf i s.

(** Children the unvisited tasks can still push. *)
Definition unpushed (s : store) (visited : idset) : nat :=
  foldr (λ p n, (if mhas p.1 visited then 0 else length (orElse (childTaskIds p.2) [])) + n)%nat O
    (tasks s).

Lemma unpushed_le m (visited : idset) i :
  (foldr (λ p n, (if mhas p.1 (mset i tt visited) then 0
                  else length (orElse (childTaskIds p.2) [])) + n)%nat O m ≤
   foldr (λ p n, (if mhas p.1 visited then 0
                  else length (orElse (childTaskIds p.2) [])) + n)%nat O m)%nat.
Proof.
  induction m as [|[k t] m IH]; simpl; [lia|]. unfold mhas at 1. rewrite mget_mset.
  destruct (decide (k = i)); simpl; [lia|]. fold (mhas k visited). destruct (mhas k visited); simpl; lia.
Qed.

Lemma unpushed_visit s visited i t :
  mhas i visited = false → mget i (tasks s) = Some t →
  (length (orElse (childTaskIds t) []) + unpushed s (mset i tt visited) ≤ unpushed s visited)%nat.
Proof.
  unfold unpushed. intros Hv. induction (tasks s) as [|[k t'] m IH]; simpl; [done|].
  change (mget i ((k, t') :: m)) with (if decide (i = k) then Some t' else mget i m).
  destruct (decide (i = k)) as [<-|Hne].
  - intros [= ->]. rewrite Hv. unfold mhas at 1. rewrite mget_mset_eq. simpl.
    pose proof (unpushed_le m visited i). lia.
  - intros Hi. specialize (IH Hi). unfold mhas at 1. rewrite mget_mset_ne by done.
    fold (mhas k visited). lia.
Qed.

Lemma unpushed_nil s :
  unpushed s [] = foldr (λ t n, length (orElse (childTaskIds t) []) + n)%nat O (mvals (tasks s)).
Proof. unfold unpushed. induction (tasks s) as [|[k t] m IH]; [done|].
  cbn [foldr mvals]. rewrite IH. done. Qed.

(** The usages of a list of tasks, in order. *)
Definition usages (s : store) (vs : list string) : list TokenUsage :=
  omap (λ j, mget j (tasks s) ≫= tokenUsage) vs.

(** What a run of the loop has done: it visited, once each, the known tasks
    [vs]. *)
Record explored (s : store) (stack : list string) (visited visited' : idset) (vs : list string) :
    Prop := {
  ex_nodup : NoDup vs;
  ex_new j : j ∈ vs ↔ mhas j visited' = true ∧ mhas j visited = false ∧ is_Some (mget j (tasks s));
  ex_mono j : mhas j visited = true → mhas j visited' = true;
  ex_stack j : j ∈ stack → mhas j visited' = true;
  ex_closed j c : j ∈ vs → childOf s j c → mhas c visited' = true;
  ex_from j : mhas j visited' = true →
    mhas j visited = true ∨ ∃ k, k ∈ stack ∧ rtc (childOf s) k j
}.

Lemma mhas_mset i j (m : idset) : mhas j (mset i tt m) = bool_decide (j = i) || mhas j m.
Proof. unfold mhas. rewrite mget_mset. by destruct (decide (j = i)) as [->|];
  [rewrite bool_decide_true|rewrite bool_decide_false]. Qed.

Lemma rollupLoop_nil s fuel visited r :
  ∃ visited' vs, rollupLoop fuel s [] visited r = Some (visited', foldl addUsage r (usages s vs)) ∧
    explored s [] visited visited' vs.
Proof.
  exists visited, []. split; [by destruct fuel|]. split; try done.
  - constructor.
  - intros j. split; [by intros ?%elem_of_nil|intros (? & ? & _); congruence].
  - by intros j ?%elem_of_nil.
  - by intros j c ?%elem_of_nil.
  - by left.
Qed.

Lemma rollupLoop_spec s fuel stack visited r :
  (length stack + unpushed s visited ≤ fuel)%nat →
  ∃ visited' vs, rollupLoop fuel s stack visited r = Some (visited', foldl addUsage r (usages s vs)) ∧
    explored s stack visited visited' vs.
Proof.
  revert stack visited r. induction fuel as [|fuel IH]; intros [|i stack] visited r Hf;
    [apply rollupLoop_nil|simpl in Hf; lia|apply rollupLoop_nil|]. simpl in *.
  destruct (mhas i visited) eqn:Hv.
  { destruct (IH stack visited r) as (v' & vs & Hr & []); [lia|].
    exists v', vs. split; [done|]. split; try done.
    - intros j [->|]%elem_of_cons; auto.
    - intros j [|(k & ? & ?)]%ex_from0; [by left|]. right. exists k. split; [by right|done]. }
  destruct (mget i (tasks s)) as [t|] eqn:Ht.
  - pose proof (unpushed_visit s visited i t Hv Ht).
    destruct (IH (rev (orElse (childTaskIds t) []) ++ stack) (mset i tt visited)
      (if tokenUsage t is Some u then addUsage r u else r)) as (v' & vs & Hr & []).
    { rewrite length_app, length_rev. lia. }
    exists v', (i :: vs). rewrite Hr. split.
    { unfold usages. simpl. rewrite Ht. simpl. by destruct (tokenUsage t). }
    assert (mhas i v' = true) as Hi.
    { apply ex_mono0. rewrite mhas_mset. by rewrite bool_decide_true. }
    split.
    + constructor; [|done]. rewrite ex_new0, mhas_mset, bool_decide_true; naive_solver.
    + intros j. rewrite elem_of_cons, ex_new0, mhas_mset. destruct (decide (j = i)) as [->|].
      * rewrite bool_decide_true by done. rewrite Ht. naive_solver.
      * rewrite bool_decide_false by done. naive_solver.
    + intros j Hj. apply ex_mono0. by rewrite mhas_mset, Hj, orb_true_r.
    + intros j [->|]%elem_of_cons; [done|]. apply ex_stack0. set_solver.
    + intros j c [->|]%elem_of_cons Hc; [|by eapply ex_closed0]. apply ex_stack0.
      unfold childOf, childrenOf in Hc. rewrite Ht in Hc. apply elem_of_app. left.
      apply list_elem_of_In, in_rev. rewrite rev_involutive. by apply list_elem_of_In.
    + intros j [Hj|(k & Hk & Hkj)]%ex_from0.
      * rewrite mhas_mset in Hj. apply orb_true_iff in Hj as [->%bool_decide_eq_true|]; [|by left].
        right. exists i. split; [by left|done].
      * right. apply elem_of_app in Hk as [Hk|]; [|exists k; split; [by right|done]].
        exists i. split; [by left|]. eapply rtc_l; [|done]. unfold childOf, childrenOf. rewrite Ht.
        apply list_elem_of_In. apply in_rev. by apply list_elem_of_In.
  - destruct (IH stack (mset i tt visited) r) as (v' & vs & Hr & []).
    { pose proof (unpushed_le (tasks s) visited i). unfold unpushed in *. lia. }
    exists v', vs. rewrite Hr. split; [done|]. split; try done.
    + intros j. rewrite ex_new0, mhas_mset. destruct (decide (j = i)) as [->|].
      * rewrite Ht. naive_solver.
      * by rewrite bool_decide_false.
    + intros j Hj. apply ex_mono0. by rewrite mhas_mset, Hj, orb_true_r.
    + intros j [->|]%elem_of_cons; [|auto]. apply ex_mono0. by rewrite mhas_mset, bool_decide_true.
    + intros j [Hj|(k & Hk & Hkj)]%ex_from0; [|right; exists k; split; [by right|done]].
      rewrite mhas_mset in Hj. apply orb_true_iff in Hj as [->%bool_decide_eq_true|]; [|by left].
      right. exists i. split; [by left|done].
Qed.

(** C37: the usage roll-up terminates whatever the child links are, cycles and
    shared children included, and adds up the task and every task reachable
    from it by child links exactly once each. *)
Theorem rollup_exact s i :
  is_Some (mget i (tasks s)) →
  ∃ vs, NoDup vs ∧
    (∀ j, j ∈ vs ↔ rtc (childOf s) i j ∧ is_Some (mget j (tasks s))) ∧
    getAggregateTokenUsage i s = rollupResult (foldl addUsage emptyRollup (usages s vs)).
Proof.
  intros [t Ht]. destruct (rollupLoop_spec s (rollupFuel s) [i] [] emptyRollup) as (v' & vs & Hr & []).
  { unfold rollupFuel. rewrite unpushed_nil. simpl. lia. }
  exists vs. split; [done|]. split.
  - intros j. rewrite ex_new0. split.
    + intros (Hj & _ & Hs). split; [|done]. apply ex_from0 in Hj as [|(k & ->%list_elem_of_singleton & Hk)]; done.
    + intros [Hj Hs]. split_and!; [|done|done]. clear Hs.
      revert j Hj. apply (rtc_ind_r (λ j, mhas j v' = true)); [apply ex_stack0; by left|].
      intros j k Hj Hc IH.
      assert (is_Some (mget j (tasks s))).
      { unfold childOf, childrenOf in Hc. destruct (mget j (tasks s)); [done|set_solver]. }
      eapply ex_closed0; [|done]. by apply ex_new0.
  - unfold getAggregateTokenUsage. unfold mhas. rewrite Ht. cbn [isSome negb]. rewrite Hr. done.
Qed.

(** A parent and its child: both are counted. *)
Definition familyStore : store :=
  exec sampleName
    (op_createTask "t2" "r2" 2 2 2 (createOptions "sub-task" "/repo" None (Some "t1"))) sampleStore.

Lemma rollup_exact_witness :
  ∃ vs, NoDup vs ∧ ("t2" ∈ vs ↔ rtc (childOf familyStore) "t1" "t2" ∧
                              is_Some (mget "t2" (tasks familyStore))) ∧
    getAggregateTokenUsage "t1" familyStore =
      rollupResult (foldl addUsage emptyRollup (usages familyStore vs)).
Proof.
  assert (is_Some (mget "t1" (tasks familyStore))) as H by (vm_compute; eexists; reflexivity).
  destruct (rollup_exact familyStore "t1" H) as (vs & H1 & H2 & H3).
  exists vs. split; [exact H1|]. split; [exact (H2 "t2")|exact H3].
Defined.

(** ** The next pending task *)

(** Is the launch of [i] reserved, at the time the scan reads for it? *)
Definition freshAt (clock : string → Z) (s : store) (i : string) : bool :=
  (hasFreshLaunchReservation (clock i) i s).2.

(** A task the scan may pick. *)
Definition waiting (clock : string → Z) (s : store) (t : Task) : bool :=
  bool_decide (status t = ts_pending) && negb (freshAt clock s (id t)).

(** Dropping the stale reservations met on the way answers no later test
    differently. *)
Lemma freshAt_scan clock s j i :
  freshAt clock (hasFreshLaunchReservation (clock j) j s).1 i = freshAt clock s i.
Proof.
  unfold freshAt, hasFreshLaunchReservation.
  destruct (mget j (launchReservations s)) as [r|] eqn:Hr; [|done].
  destruct (LAUNCH_RESERVATION_TTL_MS <=? clock j - reservedAt r) eqn:E; [|done].
  cbn [fst launchReservations]. rewrite mget_mdel. destruct (decide (i = j)) as [->|].
  - by rewrite Hr, E.
  - destruct (mget i (launchReservations s)); [|done]. by case_if.
Qed.

(** [o] is the oldest waiting task of [l], the first of them on a tie. *)
Definition oldestOf (clock : string → Z) (s : store) (l : list Task) (o : option Task) : Prop :=
  match o with
  | None => ∀ t, t ∈ l → waiting clock s t = false
  | Some t => ∃ l1 l2, l = l1 ++ t :: l2 ∧ waiting clock s t = true ∧
      (∀ t', t' ∈ l1 → waiting clock s t' = true → createdAt t < createdAt t') ∧
      (∀ t', t' ∈ l2 → waiting clock s t' = true → createdAt t ≤ createdAt t')
  end.

Lemma oldestOf_skip clock s l o t :
  oldestOf clock s l o → waiting clock s t = false → oldestOf clock s (l ++ [t]) o.
Proof.
  intros Ho Hw. destruct o as [x|]; simpl in *.
  - destruct Ho as (l1 & l2 & -> & Hx & H1 & H2). exists l1, (l2 ++ [t]).
    rewrite <- app_assoc. split_and!; [done|done|done|]. intros t' Ht'.
    apply elem_of_app in Ht' as [Hin| ->%list_elem_of_singleton]; [auto|congruence].
  - intros t' [Hin| ->%list_elem_of_singleton]%elem_of_app; auto.
Qed.

Lemma oldestOf_take clock s l o t :
  oldestOf clock s l o → waiting clock s t = true →
  oldestOf clock s (l ++ [t])
    (match o with
     | None => Some t
     | Some x => if createdAt t <? createdAt x then Some t else o
     end).
Proof.
  intros Ho Hw. destruct o as [x|]; simpl in *.
  - destruct Ho as (l1 & l2 & -> & Hx & H1 & H2). case_if; zbool.
    + exists (l1 ++ x :: l2), []. split_and!; [done|done| |by intros ? ?%elem_of_nil].
      intros t' [Ht'|[->|Ht']%elem_of_cons]%elem_of_app Hw'; [|lia|].
      * specialize (H1 t' Ht' Hw'). lia.
      * specialize (H2 t' Ht' Hw'). lia.
    + exists l1, (l2 ++ [t]). rewrite <- app_assoc. split_and!; [done|done|done|].
      intros t' [Ht'| ->%list_elem_of_singleton]%elem_of_app Hw'; [auto|lia].
  - exists l, []. split_and!; [done|done| |by intros ? ?%elem_of_nil].
    intros t' Ht' Hw'. rewrite Ho in Hw' by done. done.
Qed.

(** The body of the scan. *)
Definition pendingStep (clock : string → Z) (acc : store * option Task) (t : Task) :
    store * option Task :=
  let '(s, oldest) := acc in
  if bool_decide (status t = ts_pending) then
    let '(s, fresh) := hasFreshLaunchReservation (clock (id t)) (id t) s in
    (s, if fresh then oldest
        else match oldest with
             | None => Some t
             | Some o => if createdAt t <? createdAt o then Some t else oldest
             end)
  else (s, oldest).

Lemma pending_scan clock s l s0 pre best :
  oldestOf clock s pre best → (∀ i, freshAt clock s0 i = freshAt clock s i) →
  oldestOf clock s (pre ++ l) (foldl (pendingStep clock) (s0, best) l).2.
Proof.
  revert s0 pre best. induction l as [|t l IH]; intros s0 pre best Ho Hs; cbn [foldl].
  { by rewrite app_nil_r. }
  replace (pre ++ t :: l) with ((pre ++ [t]) ++ l) by by rewrite <- app_assoc.
  unfold pendingStep at 2. destruct (decide (status t = ts_pending)) as [Hp|Hp].
  - rewrite bool_decide_true by done. pose proof (freshAt_scan clock s0 (id t)) as Hf.
    assert ((hasFreshLaunchReservation (clock (id t)) (id t) s0).2 = freshAt clock s (id t)) as Hb
      by (by rewrite <- Hs).
    destruct (hasFreshLaunchReservation (clock (id t)) (id t) s0) as [s1 b]. simpl in *.
    apply IH; [|intros i; by rewrite Hf].
    assert (waiting clock s t = negb b) as Hw by (unfold waiting; by rewrite bool_decide_true, <- Hb).
    destruct b; [by apply oldestOf_skip|by apply oldestOf_take].
  - rewrite bool_decide_false by done. apply IH; [|done]. apply oldestOf_skip; [done|].
    unfold waiting. by rewrite bool_decide_false.
Qed.

(** Pending tasks are promoted first in, first out.  The scan answers the
    oldest pending task whose launch nobody holds, the first stored on a tie; it
    answers nothing only when there is no such task; and it changes no task. *)
Theorem next_pending_fifo clock s :
  let (s', o) := getNextPending clock s in
  tasks s' = tasks s ∧ oldestOf clock s (mvals (tasks s)) o.
Proof.
  pose proof (getNextPending_tasks clock s) as Ht.
  pose proof (pending_scan clock s (mvals (tasks s)) s [] None) as Hp.
  change (foldl (pendingStep clock) (s, None) (mvals (tasks s))) with (getNextPending clock s) in Hp.
  destruct (getNextPending clock s) as [s' o]. split; [done|]. apply Hp; [|done].
  by intros ? ?%elem_of_nil.
Qed.
End Queries.
