(* ===== verification/Persistence.v ===== *)
(** * Durable task state ([src/core/task-sqlite-store.ts],
    [persistTaskState] of [src/core/task-persistence.ts])

    The database is a record of its tables: a table with a primary key is the
    map from that key, an upsert [mset], a delete [mdel].  The [data] column of a
    row holds the serialised record, that is its value when it was written.  A
    transaction that fails leaves the tables alone; whether it fails is the
    argument [ok].  Timings, metrics and the JSON recovery export, which keep no
    state the database reads, are left out. *)

From S2P Require Import Prelude JsMap JsArray JsString AgentEvents TaskTypes SessionRegistry.
From S2P Require Import CompletionSignal TaskStore TaskRuns.
Local Open Scope Z_scope.

Module Persist.
Import Task Store Runs.

Record TaskRow := mkRow {
  row_status : TaskStatus;
  row_parent : option string;
  row_project : option string;
  row_agent : string;
  row_created : Z;
  row_updated : Z;
  row_finished : option Z;
  row_terminal : bool;
  row_data : Task
}.

Definition rowOf (t : Task) : TaskRow :=
  mkRow (status t) (parentTaskId t) (projectId t) (agentType t) (createdAt t) (updatedAt t)
    (finishedAt t) (isTerminalStatus (status t)) t.

(** [tbl_meta] is the [lifetime_spend_usd] row of [store_meta]. *)
Record database := mkDb {
  tbl_tasks : jmap string TaskRow;
  tbl_sessions : jmap string (string * option SessionStatus);
  tbl_relations : jmap relationKey TaskRelation;
  tbl_snoozes : list json;
  tbl_suppression : list json;
  tbl_meta : option Z
}.

(** The tables [migrate] creates. *)
Definition emptyDb : database := mkDb [] [] [] [] [] None.

(** ** The statements of a flush *)

Definition deleteSessionsForTask (i : string) (m : jmap string (string * option SessionStatus)) :=
  List.filter (λ p, negb (String.eqb p.2.1 i)) m.

Definition deleteTaskRow (d : database) (i : string) : database :=
  {| d with tbl_sessions := deleteSessionsForTask i (tbl_sessions d);
            tbl_tasks := mdel i (tbl_tasks d) |}.

Definition upsertTaskRow (d : database) (t : Task) : database :=
  {| d with tbl_tasks := mset (id t) (rowOf t) (tbl_tasks d);
            tbl_sessions :=
              foldl (λ m x, if String.eqb (tmuxSession x) "" then m
                            else mset (tmuxSession x) (id t, lastStatus x) m)
                (deleteSessionsForTask (id t) (tbl_sessions d)) (sessions t) |}.

Definition upsertRelationRow (m : jmap relationKey TaskRelation) (r : TaskRelation) :=
  mset (taskRelationKey (rel_sourceTaskId r) (rel_targetTaskId r) (rel_type r)) r m.

Record TaskSqliteFlushInput := mkFlush {
  fl_tasks : list Task;
  fl_deletedTaskIds : list string;
  fl_relations : option (list TaskRelation);
  fl_lifetimeSpendUsd : option Z;
  fl_snoozes : option (list json);
  fl_suppressionState : option (list json);
  fl_replaceRelations : bool
}.

Definition flush (input : TaskSqliteFlushInput) (d : database) : database :=
  let d := foldl deleteTaskRow d (fl_deletedTaskIds input) in
  let d := foldl upsertTaskRow d (fl_tasks input) in
  let relations := if fl_replaceRelations input then fl_relations input else None in
  {| d with
     tbl_relations := match relations with
                      | Some rs => foldl upsertRelationRow [] rs
                      | None => tbl_relations d
                      end;
     tbl_meta := orOpt (fl_lifetimeSpendUsd input) (tbl_meta d);
     tbl_snoozes := orElse (fl_snoozes input) (tbl_snoozes d);
     tbl_suppression := orElse (fl_suppressionState input) (tbl_suppression d) |}.

(** The one-shot import: every table cleared, then filled. *)
Definition importSnapshot (ts : list Task) (spend : option Z) (snoozes suppression : option (list json))
    (relations : option (list TaskRelation)) (d : database) : database :=
  let d := {| d with tbl_sessions := []; tbl_tasks := [] |} in
  let d := foldl upsertTaskRow d ts in
  {| d with
     tbl_relations := foldl upsertRelationRow [] (orElse relations []);
     tbl_snoozes := orElse snoozes [];
     tbl_suppression := orElse suppression [];
     tbl_meta := Some (orElse spend 0) |}.

Definition countTasks (d : database) : nat := msize (tbl_tasks d).
Definition countRelations (d : database) : nat := msize (tbl_relations d).

(** ** [persistTaskState], SQLite mode *)

Record PersistTaskStateOptions := mkOpts {
  po_snoozes : option (list json);
  po_suppressionState : option (list json);
  po_forceFull : bool
}.

(** The live tasks of the drained ids, through an index by task id. *)
Definition dirtyTasks (ids : list string) (s : store) : list Task :=
  let liveById := mimport ((λ t, (id t, t)) <$> viewTasks s) [] in
  omap (λ i, mget i liveById) ids.

Definition flushInput (opts : PersistTaskStateOptions) (dirty : DirtyState) (s : store) :
    TaskSqliteFlushInput :=
  let replaceRelations := ds_relationsDirty dirty || po_forceFull opts in
  mkFlush (dirtyTasks (ds_dirtyTaskIds dirty) s) (ds_deletedTaskIds dirty)
    (if replaceRelations then Some (listRelations (mkRelationFilter None None None None) s) else None)
    (if ds_metaDirty dirty || po_forceFull opts then Some (getLifetimeSpendUsd s) else None)
    (po_snoozes opts) (po_suppressionState opts) replaceRelations.

Definition hasWork (opts : PersistTaskStateOptions) (dirty : DirtyState) (s : store) : bool :=
  (0 <? Z.of_nat (length (dirtyTasks (ds_dirtyTaskIds dirty) s)))
  || (0 <? Z.of_nat (length (ds_deletedTaskIds dirty)))
  || ds_relationsDirty dirty || ds_metaDirty dirty
  || isSome (po_snoozes opts) || isSome (po_suppressionState opts) || po_forceFull opts.

(** The store and database after the call, and whether it returned normally. *)
Definition persistTaskState (opts : PersistTaskStateOptions) (ok : bool) (s : store) (d : database) :
    store * database * bool :=
  let s := if po_forceFull opts then markAllDirtyForPersistence s else s in
  let (s', dirty) := drainDirtyState s in
  if hasWork opts dirty s' then
    if ok then (s', flush (flushInput opts dirty s') d, true)
    else (markAllDirtyForPersistence s', d, false)
  else (s', d, true).

(** ** How far the database lags behind the store *)

(** Whatever is not marked dirty or deleted is in the database as it is in the
    store.  [exact] adds that a task that is gone from the store, and not marked
    deleted, is gone from the database. *)
Record behind (exact : bool) (d : database) (s : store) : Prop := {
  bh_wf : mwf (tasks s);
  bh_live i t : mget i (tasks s) = Some t → mhas i (dirtyTaskIds s) = false →
    mget i (tbl_tasks d) = Some (rowOf t);
  bh_gone i : exact = true → mget i (tasks s) = None → mhas i (deletedTaskIds s) = false →
    mget i (tbl_tasks d) = None;
  bh_del i : mhas i (deletedTaskIds s) = true → mget i (tasks s) = None;
  bh_rel : relationsDirty s = false →
    tbl_relations d = foldl upsertRelationRow [] (mvals (relations s));
  bh_spend : metaDirty s = false → orElse (tbl_meta d) 0 = lifetimeSpendUsd s
}.

Section Lag.
Context {exact : bool} {d : database}.

Lemma behind_frame s s' :
  tasks s' = tasks s → relations s' = relations s → lifetimeSpendUsd s' = lifetimeSpendUsd s →
  dirtyTaskIds s' = dirtyTaskIds s → deletedTaskIds s' = deletedTaskIds s →
  relationsDirty s' = relationsDirty s → metaDirty s' = metaDirty s →
  behind exact d s → behind exact d s'.
Proof. intros H1 H2 H3 H4 H5 H6 H7 []. split; rewrite ?H1, ?H2, ?H3, ?H4, ?H5, ?H6, ?H7; auto. Qed.

Lemma behind_put i t s : behind exact d s → behind exact d (putTask i t s).
Proof.
  intros []. split; simpl; auto.
  - by apply mwf_mset.
  - intros j t'. unfold mhas. rewrite !mget_mset. case_decide; [done|]. apply bh_live0.
  - intros j He. rewrite mget_mset. unfold mhas. rewrite mget_mdel. case_decide; [done|].
    by apply bh_gone0.
  - intros j. unfold mhas. rewrite mget_mdel, mget_mset. case_decide; [done|]. apply bh_del0.
Qed.

Lemma behind_patch i f s : behind exact d s → behind exact d (patchTask i f s).
Proof.
  intros H. unfold patchTask. destruct (mget i (tasks s)) as [t|]; [|done].
  destruct (f t); [by apply behind_put|done].
Qed.

Lemma behind_patchOrThrow i f s : behind exact d s → behind exact d (orKeep s (patchOrThrow i f s)).
Proof. intros H. unfold patchOrThrow. destruct (mget i (tasks s)); [by apply behind_put|done]. Qed.

Lemma behind_patchSession now i tmux f s :
  behind exact d s → behind exact d (Registry.patchSession now i tmux f s).
Proof.
  intros H. unfold Registry.patchSession. simpl. destruct (mget i (tasks s)) as [t|]; [|done].
  destruct (Registry.findSession tmux t) as [x|]; [|done]. destruct (f x); [by apply behind_put|done].
Qed.

Lemma behind_transition now i to cx s :
  behind exact d s → behind exact d (orKeep s (transition now i to cx s)).
Proof.
  intros H. unfold transition. destruct (mget i (tasks s)) as [t|]; [|done].
  destruct (VALID_TRANSITIONS (status t) to); cbn [negb]; [|done]. cbn [orKeep]. apply behind_put.
  destruct (isTerminalStatus to); [|done]. by eapply behind_frame, H.
Qed.

(** A write through a live reference to a record already marked. *)
Lemma behind_write i t s :
  mhas i (dirtyTaskIds s) = true → mhas i (deletedTaskIds s) = false →
  behind exact d s → behind exact d {| s with tasks := mset i t (tasks s) |}.
Proof.
  intros Hd Hx []. split; simpl; auto.
  - by apply mwf_mset.
  - intros j t'. rewrite mget_mset. case_decide as E; [intros _; by rewrite E, Hd|]. apply bh_live0.
  - intros j He. rewrite mget_mset. case_decide; [done|]. by apply bh_gone0.
  - intros j. rewrite mget_mset. case_decide as E; [by rewrite E, Hx|]. apply bh_del0.
Qed.

Lemma transition_marked now i to cx s s' t :
  transition now i to cx s = Ok (s', t) →
  mhas i (dirtyTaskIds s') = true ∧ mhas i (deletedTaskIds s') = false.
Proof.
  unfold transition. destruct (mget i (tasks s)) as [t0|]; [|done].
  destruct (VALID_TRANSITIONS (status t0) to); cbn [negb]; [|done]. intros [= <- _].
  unfold mhas. simpl. by rewrite mget_mset_eq, mget_mdel_eq.
Qed.

Lemma behind_terminate t1 t2 i c cx s :
  behind exact d s → behind exact d (orKeep s (terminateTask t1 t2 i c cx s)).
Proof.
  intros H. unfold terminateTask. set (cx' := Some _).
  pose proof (behind_transition t1 i ts_terminated cx' s H) as H1.
  destruct (transition t1 i ts_terminated cx' s) as [[s1 t]|] eqn:Ht; [|done].
  apply transition_marked in Ht as []. by apply behind_write.
Qed.

Lemma behind_upsertRelation n now x s :
  behind exact d s → behind exact d (orKeep s (upsertRelation n now x s)).
Proof.
  intros H. unfold upsertRelation. case_if; [done|]. destruct H. by split.
Qed.

Lemma behind_create dn n r t1 t2 t3 o s :
  behind exact d s → behind exact d (orKeep s (createTask dn n r t1 t2 t3 o s)).
Proof.
  intros H. unfold createTask. set (task := buildTask dn n t1 o s).
  destruct (co_parentTaskId o) as [p|]; [|by apply behind_put].
  destruct (mhas p (tasks s)); cbn [negb]; [|done].
  match goal with |- context [upsertRelation r t3 ?x ?y] =>
    assert (behind exact d y) as Hy by (by apply behind_patch, behind_put);
    pose proof (behind_upsertRelation r t3 x y Hy) as Hu;
    destruct (upsertRelation r t3 x y) as [[s' rr]|e] end; done.
Qed.

Lemma filter_all {A} (p : A → bool) l : (∀ x, x ∈ l → p x = true) → List.filter p l = l.
Proof.
  induction l as [|x l IH]; intros H; simpl; [done|].
  rewrite (H x) by set_solver. f_equal. apply IH. set_solver.
Qed.

Lemma behind_deleted i s :
  behind exact d s →
  behind exact d (markTaskDeleted i {| s with tasks := mdel i (tasks s) |}).
Proof.
  intros []. split; simpl; auto.
  - by apply mwf_mdel.
  - intros j t. unfold mhas. rewrite !mget_mdel. case_decide; [done|]. apply bh_live0.
  - intros j He. unfold mhas. rewrite mget_mdel, mget_mset. case_decide; [done|]. by apply bh_gone0.
  - intros j. unfold mhas. rewrite mget_mset, mget_mdel. case_decide; [done|]. apply bh_del0.
Qed.

Lemma behind_delete now i s : behind exact d s → behind exact d (orKeep1 s (deleteTask now i s)).
Proof.
  intros H. unfold deleteTask. destruct (mget i (tasks s)) as [t|]; [|done].
  destruct (isProbing (launchAdmission t)); [done|]. cbn [orKeep1].
  set (s0 := {| s with launchReservations := _; resumeOnNextLaunch := _; completionRemediation := _ |}).
  assert (behind exact d s0) as H0 by (by eapply behind_frame, H).
  set (s1 := if truthyStr (parentTaskId t) is Some p then _ else _).
  assert (behind exact d s1) as H1.
  { unfold s1. destruct (truthyStr (parentTaskId t)); [by apply behind_patch|done]. }
  clearbody s1. apply (behind_deleted i) in H1.
  destruct (existsb _ _) eqn:Hx; [by destruct H1; split|].
  rewrite filter_all; [by eapply behind_frame, H1|]. intros p Hp. apply negb_true_iff, not_true_iff_false. intros Hm.
  apply not_true_iff_false in Hx. apply Hx. apply existsb_exists. exists p.
  split; [by apply list_elem_of_In|done].
Qed.

Lemma behind_addSession now i x s : behind exact d s → behind exact d (orKeep s (addSession now i x s)).
Proof.
  intros H. unfold addSession, Registry.addSession. simpl.
  destruct (mget i (tasks s)) as [t|]; [|done].
  destruct (Registry.attachGuard i x t) as [[]|e]; [|done].
  apply (behind_put i). by eapply behind_frame, H.
Qed.

(** Everything the reservation operations change is kept in memory only. *)
Definition sameDurable (s s' : store) : Prop :=
  tasks s' = tasks s ∧ relations s' = relations s ∧ lifetimeSpendUsd s' = lifetimeSpendUsd s ∧
  dirtyTaskIds s' = dirtyTaskIds s ∧ deletedTaskIds s' = deletedTaskIds s ∧
  relationsDirty s' = relationsDirty s ∧ metaDirty s' = metaDirty s.

Lemma behind_same s s' : sameDurable s s' → behind exact d s → behind exact d s'.
Proof. intros (?&?&?&?&?&?&?). by apply behind_frame. Qed.

Lemma same_refl s : sameDurable s s.
Proof. done. Qed.

Lemma same_hasFresh now i s : sameDurable s (hasFreshLaunchReservation now i s).1.
Proof. unfold hasFreshLaunchReservation. by repeat case_match. Qed.

Lemma same_scan {B} (f : store * B → Task → store * B) l s b :
  (∀ acc t, sameDurable acc.1 (f acc t).1) → sameDurable s (foldl f (s, b) l).1.
Proof.
  intros Hf. change s with (s, b).1 at 1. generalize (s, b) as acc.
  induction l as [|t l IH]; intros acc; simpl; [done|].
  specialize (Hf acc t). specialize (IH (f acc t)). unfold sameDurable in *.
  destruct Hf as (?&?&?&?&?&?&?), IH as (?&?&?&?&?&?&?). split_and!; congruence.
Qed.

Lemma same_begin t1 t2 i a s : sameDurable s (beginReservationWithToken t1 t2 i a s).1.
Proof.
  unfold beginReservationWithToken. destruct (mget i (tasks s)) as [t|]; [|done]. case_if; [done|].
  pose proof (same_hasFresh t1 i s) as H.
  destruct (hasFreshLaunchReservation t1 i s) as [s1 []]; done.
Qed.
End Lag.

(** A write through a live reference finds its record marked still: no save has drained the mark
    since the reference was handed out. *)
Definition marked (o : op) (s : store) : Prop :=
  match o with
  | op_writeLive i _ => mget i (tasks s) = None ∨ mhas i (dirtyTaskIds s) = true
  | _ => True
  end.

Lemma behind_mark exact d i t s : mget i (tasks s) = Some t → behind exact d s → behind exact d (markTaskDirty i s).
Proof.
  intros Ht []. split; simpl; try done.
  - intros j t'. unfold mhas. rewrite mget_mset. case_decide; [done|]. apply bh_live0.
  - intros j He Hj. unfold mhas. rewrite mget_mdel. case_decide; [congruence|]. by apply bh_gone0.
  - intros j. unfold mhas. rewrite mget_mdel. case_decide; [done|]. apply bh_del0.
Qed.

Lemma behind_writeLive exact d i f s : marked (op_writeLive i f) s → behind exact d s → behind exact d (writeLive i f s).
Proof.
  intros Hm H. unfold writeLive. destruct (mget i (tasks s)) as [t|] eqn:Ht; [|done].
  destruct Hm as [Hm|Hm]; [congruence|]. destruct H. split; simpl; try done.
  - by apply mwf_mset.
  - intros j t'. rewrite mget_mset. case_decide as Hj; [subst; congruence|]. apply bh_live0.
  - intros j He. rewrite mget_mset. case_decide; [done|]. by apply bh_gone0.
  - intros j Hj. rewrite mget_mset. case_decide as Hji; [subst; by rewrite (bh_del0 _ Hj) in Ht|]. by apply bh_del0.
Qed.

Lemma exec_behind exact d dn o s : marked o s → behind exact d s → behind exact d (exec dn o s).
Proof.
  intros Hm H. destruct o; simpl; try exact H;
    try (by apply behind_patch); try (by apply behind_patchOrThrow);
    try (by apply behind_patchSession); try (by apply behind_transition).
  - by apply behind_create.
  - unfold recordDictationSubmission. destruct (findTaskByDictationSubmission submissionId s); [by case_if|].
    destruct (mget i (tasks s)); [|done]. case_if; [done|]. by apply behind_put.
  - unfold getTaskForMutation. destruct (mget i (tasks s)) as [t|] eqn:Ht; [|done]. by apply (behind_mark exact d i t).
  - by apply behind_writeLive.
  - unfold setPendingSignal. destruct (mget i (tasks s)); [|done].
    destruct (truthyStr (sig_signalId sig)); simpl.
    + eapply behind_same; [|by apply (behind_put i)]. done.
    + by apply behind_put.
  - by eapply behind_same, H.
  - by eapply behind_same, H.
  - unfold clearPendingSignal. destruct (getPendingSignal i s); [by apply behind_patch|done].
  - unfold setOperatorNeeded. destruct (mget i (tasks s)); [|done]. case_if; [done|]. by apply behind_put.
  - by apply behind_terminate.
  - unfold reopenTask. repeat case_match; try done. by apply behind_transition.
  - by eapply behind_same, H.
  - by eapply behind_same, H.
  - by apply behind_delete.
  - eapply behind_same, H. apply same_begin.
  - unfold endLaunch. by case_if; [eapply behind_same, H|].
  - eapply behind_same, H. apply same_hasFresh.
  - eapply behind_same, H. apply same_scan. intros [s1 n] t. simpl. case_if; [done|].
    case_if; [|done]. unfold hasFreshActiveLaunchReservation.
    pose proof (same_hasFresh (clock (id t)) (id t) s1).
    by destruct (hasFreshLaunchReservation (clock (id t)) (id t) s1).
  - eapply behind_same, H. apply same_scan. intros [s1 n] t. simpl. case_if; [|done].
    pose proof (same_hasFresh (clock (id t)) (id t) s1).
    by destruct (hasFreshLaunchReservation (clock (id t)) (id t) s1).
  - by apply behind_addSession.
  - unfold recordAbandonedLaunchSession, Registry.recordAbandonedLaunchSession. simpl.
    destruct (mget i (tasks s)); [|done]. case_match; [done|]. by apply behind_put.
  - unfold updateSession, Registry.updateSession. simpl. destruct (mget i (tasks s)); [|done].
    destruct (Registry.findSession tmux _); [by apply (behind_put i)|done].
  - unfold setCompletionFeedback. destruct (mget i (tasks s)); [|done]. repeat case_match; try done.
    all: by apply behind_put.
  - unfold updateTokenUsage. destruct (mget i (tasks s)); [|done]. cbn [orKeep].
    apply (behind_put i). repeat case_match; try done; by destruct H; split.
  - by apply behind_upsertRelation.
  - unfold evaluateCompletionSignal. destruct (mget i (tasks s)); [|done]. repeat case_match; try done.
    all: by eapply behind_same, H.
Qed.

(** ** What a flush writes *)

Lemma liveById_tasks s :
  mwf (tasks s) → keyed s → mimport ((λ t, (id t, t)) <$> viewTasks s) [] = tasks s.
Proof.
  intros Hwf Hk.
  assert ((λ t, (id t, t)) <$> viewTasks s = tasks s) as ->; [|by apply mimport_roundtrip].
  unfold viewTasks, mvals. rewrite <- list_fmap_compose. rewrite <- (list_fmap_id (tasks s)) at 2.
  apply list_fmap_ext. intros n [i t] Hn. simpl. f_equal. apply Hk.
  apply elem_of_mget; [done|]. by apply list_elem_of_lookup_2 in Hn.
Qed.

Lemma dirtyTasks_spec ids s :
  mwf (tasks s) → keyed s → dirtyTasks ids s = omap (λ i, mget i (tasks s)) ids.
Proof. intros. unfold dirtyTasks. by rewrite liveById_tasks. Qed.

Lemma deleteRows_get i ids d :
  mget i (tbl_tasks (foldl deleteTaskRow d ids)) =
  if decide (i ∈ ids) then None else mget i (tbl_tasks d).
Proof.
  revert d. induction ids as [|j ids IH]; intros d; cbn [foldl];
    [by rewrite decide_False by set_solver|].
  rewrite IH. simpl. rewrite mget_mdel.
  destruct (decide (i ∈ ids)), (decide (i = j)), (decide (i ∈ j :: ids)); try done; set_solver.
Qed.

Lemma upsertRows_get i (m : jmap string Task) ts d :
  (∀ t, t ∈ ts → mget (id t) m = Some t) →
  mget i (tbl_tasks (foldl upsertTaskRow d ts)) =
  if decide (i ∈ id <$> ts) then rowOf <$> mget i m else mget i (tbl_tasks d).
Proof.
  revert d. induction ts as [|t ts IH]; intros d Hm; cbn [foldl];
    [by rewrite decide_False by set_solver|].
  rewrite IH by set_solver. cbn [tbl_tasks upsertTaskRow]. rewrite mget_mset, fmap_cons.
  destruct (decide (i ∈ id <$> ts)), (decide (i = id t)) as [Hi|], (decide (i ∈ id t :: (id <$> ts)));
    try done; try set_solver. by rewrite Hi, (Hm t) by set_solver.
Qed.

(** The row of a task after a flush of the drained sets. *)
Lemma flush_get opts dirty s d i :
  mwf (tasks s) → keyed s →
  mget i (tbl_tasks (flush (flushInput opts dirty s) d)) =
  match mget i (tasks s) with
  | Some t => if decide (i ∈ ds_dirtyTaskIds dirty) then Some (rowOf t)
              else if decide (i ∈ ds_deletedTaskIds dirty) then None else mget i (tbl_tasks d)
  | None => if decide (i ∈ ds_deletedTaskIds dirty) then None else mget i (tbl_tasks d)
  end.
Proof.
  intros Hwf Hk. unfold flush, flushInput. simpl. rewrite dirtyTasks_spec by done.
  assert (∀ t, t ∈ omap (λ i, mget i (tasks s)) (ds_dirtyTaskIds dirty) →
    mget (id t) (tasks s) = Some t) as Hm.
  { intros t (j & _ & Hj)%list_elem_of_omap. by rewrite (Hk _ _ Hj). }
  rewrite (upsertRows_get i (tasks s)) by done. rewrite deleteRows_get.
  destruct (mget i (tasks s)) as [t|] eqn:Ht.
  - destruct (decide (i ∈ ds_dirtyTaskIds dirty)) as [Hi|Hi].
    + rewrite decide_True; [done|]. apply list_elem_of_fmap. exists t. split; [by rewrite (Hk _ _ Ht)|].
      apply list_elem_of_omap. eauto.
    + rewrite decide_False; [done|]. intros (t' & -> & Hin)%list_elem_of_fmap.
      pose proof (Hm _ Hin). apply list_elem_of_omap in Hin as (j & Hj & Hjt).
      by rewrite (Hk _ _ Hjt) in Hi.
  - rewrite decide_False; [done|]. intros (t' & -> & Hin)%list_elem_of_fmap.
    specialize (Hm _ Hin). congruence.
Qed.

Lemma mhas_keys {V} i (m : jmap string V) : mhas i m = true ↔ i ∈ mkeys m.
Proof.
  rewrite elem_of_mkeys. unfold mhas. destruct (mget i m); simpl; [by split|].
  split; [done|by intros []].
Qed.

Lemma mhas_keys_false {V} i (m : jmap string V) : mhas i m = false ↔ i ∉ mkeys m.
Proof. by rewrite <- mhas_keys, not_true_iff_false. Qed.

Lemma foldl_mset_has ids (m : idset) i :
  mhas i (foldl (λ d j, mset j tt d) m ids) = mhas i m || bool_decide (i ∈ ids).
Proof.
  revert m. induction ids as [|j ids IH]; intros m; cbn [foldl].
  - by rewrite (bool_decide_false (i ∈ [])), orb_false_r by set_solver.
  - rewrite IH. unfold mhas at 1. rewrite mget_mset.
    destruct (decide (i = j)) as [->|].
    + rewrite (bool_decide_true (j ∈ j :: ids)) by set_solver. by rewrite orb_true_r.
    + f_equal. apply bool_decide_ext. set_solver.
Qed.

(** Marking everything dirty keeps the live tasks covered, and forgets which
    tasks were deleted. *)
Lemma behind_markAll d s : mwf (tasks s) → behind false d (markAllDirtyForPersistence s).
Proof.
  intros Hwf. split; simpl; try done.
  intros i t Ht. rewrite foldl_mset_has. intros [_ Hn]%orb_false_iff.
  apply bool_decide_eq_false in Hn. destruct Hn. by apply elem_of_mkeys; rewrite Ht.
Qed.

Lemma listRelations_all s : listRelations (mkRelationFilter None None None None) s = mvals (relations s).
Proof. by apply filter_all. Qed.

Lemma flush_relations input d :
  tbl_relations (flush input d) =
  match (if fl_replaceRelations input then fl_relations input else None) with
  | Some rs => foldl upsertRelationRow [] rs
  | None => tbl_relations d
  end.
Proof.
  unfold flush. cbn [tbl_relations]. destruct (if fl_replaceRelations input then _ else _); [done|].
  generalize (fl_tasks input), (fl_deletedTaskIds input). intros ts ids.
  transitivity (tbl_relations (foldl deleteTaskRow d ids)).
  - generalize (foldl deleteTaskRow d ids). induction ts as [|t ts IH]; intros d'; [done|].
    cbn [foldl]. by rewrite IH.
  - revert d. induction ids as [|i ids IH]; intros d'; [done|]. cbn [foldl]. by rewrite IH.
Qed.

Lemma flush_meta input d : tbl_meta (flush input d) = orOpt (fl_lifetimeSpendUsd input) (tbl_meta d).
Proof.
  unfold flush. cbn [tbl_meta]. f_equal.
  generalize (fl_tasks input), (fl_deletedTaskIds input). intros ts ids.
  transitivity (tbl_meta (foldl deleteTaskRow d ids)).
  - generalize (foldl deleteTaskRow d ids). induction ts as [|t ts IH]; intros d'; [done|].
    cbn [foldl]. by rewrite IH.
  - revert d. induction ids as [|i ids IH]; intros d'; [done|]. cbn [foldl]. by rewrite IH.
Qed.

Lemma behind_flush exact opts s d :
  keyed s → behind exact d s →
  behind exact (flush (flushInput opts (drainDirtyState s).2 (clearDirtyPersistence s)) d)
    (clearDirtyPersistence s).
Proof.
  intros Hk []. set (dirty := (drainDirtyState s).2). set (s' := clearDirtyPersistence s).
  assert (keyed s') as Hk' by exact Hk. assert (mwf (tasks s')) as Hwf' by exact bh_wf0.
  split; try done.
  - intros i t Ht _. rewrite flush_get, Ht by done. unfold dirty. cbn [drainDirtyState snd].
    cbn [ds_dirtyTaskIds ds_deletedTaskIds].
    destruct (decide (i ∈ mkeys (dirtyTaskIds s))) as [|Hn]; [done|].
    destruct (decide (i ∈ mkeys (deletedTaskIds s))) as [Hd|]; [|by apply bh_live0, mhas_keys_false].
    apply mhas_keys, bh_del0 in Hd. simpl in Ht. congruence.
  - intros i He Hi _. rewrite flush_get, Hi by done. unfold dirty. cbn [drainDirtyState snd].
    cbn [ds_deletedTaskIds]. case_decide; [done|]. by apply bh_gone0, mhas_keys_false.
  - intros _. rewrite flush_relations. unfold flushInput. cbn [fl_replaceRelations fl_relations].
    rewrite listRelations_all. unfold dirty. cbn [drainDirtyState snd ds_relationsDirty].
    destruct (relationsDirty s) eqn:Hr, (po_forceFull opts); simpl; auto.
  - intros _. rewrite flush_meta. unfold flushInput. cbn [fl_lifetimeSpendUsd].
    unfold dirty. cbn [drainDirtyState snd ds_metaDirty].
    destruct (metaDirty s) eqn:Hr, (po_forceFull opts); simpl; auto.
Qed.

(** With nothing to write the database is already up to date. *)
Lemma behind_noWork exact opts s d :
  keyed s → behind exact d s →
  hasWork opts (drainDirtyState s).2 (clearDirtyPersistence s) = false →
  behind exact d (clearDirtyPersistence s).
Proof.
  intros Hk [] Hw. unfold hasWork in Hw. rewrite dirtyTasks_spec in Hw by done.
  cbn [drainDirtyState snd ds_dirtyTaskIds ds_deletedTaskIds ds_relationsDirty ds_metaDirty] in Hw.
  repeat match goal with H : (_ || _) = false |- _ => apply orb_false_iff in H as [? ?] end.
  zbool. split; try done.
  - intros i t Ht _. apply bh_live0; [done|]. apply mhas_keys_false. intros Hi.
    assert (t ∈ omap (λ i, mget i (tasks s)) (mkeys (dirtyTaskIds s))) as Hin
      by (apply list_elem_of_omap; eauto).
    destruct (omap _ _) eqn:Ho in Hin; [by apply not_elem_of_nil in Hin|].
    cbn [tasks clearDirtyPersistence] in *. rewrite Ho in *. simpl in *. lia.
  - intros i He Hi _. apply bh_gone0; [done|done|]. apply mhas_keys_false.
    destruct (mkeys (deletedTaskIds s)); simpl in *; [set_solver|lia].
  - intros _. by apply bh_rel0.
  - intros _. by apply bh_spend0.
Qed.

(** [persistTaskState] keeps the lag invariant; a call that returns leaves nothing
    marked. *)
Definition nothingDirty (s : store) : Prop :=
  dirtyTaskIds s = [] ∧ deletedTaskIds s = [] ∧ relationsDirty s = false ∧ metaDirty s = false.

Lemma persist_behind exact opts ok s d s' d' r :
  keyed s → behind exact d s → (exact = true → ok = true ∧ po_forceFull opts = false) →
  persistTaskState opts ok s d = (s', d', r) →
  behind exact d' s' ∧ keyed s' ∧ (r = true → nothingDirty s').
Proof.
  intros Hk Hb Hx. unfold persistTaskState.
  set (s1 := if po_forceFull opts then _ else s).
  assert (behind exact d s1) as Hb1.
  { unfold s1. destruct (po_forceFull opts) eqn:Hf; [|done].
    destruct exact; [by destruct (Hx eq_refl)|]. by eapply behind_markAll, bh_wf. }
  assert (keyed s1) as Hk1 by (unfold s1; by destruct (po_forceFull opts)).
  clearbody s1. rewrite (surjective_pairing (drainDirtyState s1)).
  cbn [drainDirtyState fst]. change (mkDirty _ _ _ _) with (drainDirtyState s1).2.
  destruct (hasWork _ _ _) eqn:Hw; [destruct ok|]; intros [= <- <- <-].
  - split_and!; [by apply behind_flush|done|done].
  - destruct exact; [by destruct (Hx eq_refl)|]. split_and!; [|done|done].
    apply behind_markAll. by destruct Hb1.
  - split_and!; [by eapply behind_noWork|done|done].
Qed.

(** ** The store and its database over time *)

(** Operations and saves in any order; every write through a live reference comes before the next
    save after the reference was handed out ([late_write_stale] shows what happens otherwise).
    [careful] lives never force a full write and never see a flush fail. *)
Inductive life (dn : CreateTaskOptions → string)
    (careful : bool) : store → database → Prop :=
| life_new : life dn careful newStore emptyDb
| life_op o s d : life dn careful s d → opOK o s → marked o s → life dn careful (exec dn o s) d
| life_persist opts ok s d s' d' r :
    life dn careful s d → (careful = true → ok = true ∧ po_forceFull opts = false) →
    persistTaskState opts ok s d = (s', d', r) → life dn careful s' d'.

Lemma life_behind dn careful s d : life dn careful s d → behind careful d s ∧ keyed s.
Proof.
  induction 1 as [|o s d _ [IH1 IH2] Hok Hm|opts ok s d s' d' r _ [IH1 IH2] Hc Hp].
  - split; [|done]. split; try done. apply mwf_nil.
  - split; [by apply exec_behind|by apply keyed_exec].
  - by destruct (persist_behind _ _ _ _ _ _ _ _ IH2 IH1 Hc Hp) as (?&?&_).
Qed.

(** C8: no mutator forgets to mark what it changed.  Whatever sequence of store operations and
    saves has run, provided no flush failed, no full write was forced, and no code wrote through a
    live reference after a save had drained the mark it was handed out with, the next save
    leaves exactly the live tasks, the relations and the spend of the store in the database, and
    nothing marked.  (Ids of new tasks are new, and writes through a reference leave the lifecycle
    fields alone.) *)
Theorem persist_exact dn opts s d s' d' r :
  life dn true s d → po_forceFull opts = false →
  persistTaskState opts true s d = (s', d', r) →
  r = true ∧ nothingDirty s' ∧ tasks s' = tasks s ∧
  (∀ i, mget i (tbl_tasks d') = rowOf <$> mget i (tasks s)) ∧
  tbl_relations d' = foldl upsertRelationRow [] (mvals (relations s)) ∧
  orElse (tbl_meta d') 0 = getLifetimeSpendUsd s.
Proof.
  intros Hl Hf Hp. destruct (life_behind _ _ _ _ Hl) as [Hb Hk].
  destruct (persist_behind true _ _ _ _ _ _ _ Hk Hb (λ _, conj eq_refl Hf) Hp) as ([] & _ & Hn).
  assert (r = true ∧ tasks s' = tasks s ∧ relations s' = relations s ∧
          lifetimeSpendUsd s' = lifetimeSpendUsd s) as (-> & Ht & Hr & Hs).
  { revert Hp. unfold persistTaskState. rewrite Hf. cbn [drainDirtyState].
    destruct (hasWork _ _ _); by intros [= <- <- <-]. }
  specialize (Hn eq_refl). pose proof Hn as (H1 & H2 & H3 & H4).
  split_and!; [done|done|done| | |].
  - intros i. rewrite <- Ht. destruct (mget i (tasks s')) as [t|] eqn:Hi.
    + apply bh_live0; [done|by rewrite H1].
    + apply bh_gone0; [done|done|by rewrite H2].
  - rewrite bh_rel0 by done. by rewrite Hr.
  - rewrite bh_spend0 by done. by rewrite Hs.
Qed.

(** A task that is still in the store is never lost or stale on disk, with the same proviso on live
    references: even when earlier flushes failed or full writes were forced, after a save that
    returns the row of every live task is its current record. *)
Theorem persist_live dn opts ok s d s' d' i t :
  life dn false s d → persistTaskState opts ok s d = (s', d', true) →
  mget i (tasks s) = Some t → mget i (tbl_tasks d') = Some (rowOf t).
Proof.
  intros Hl Hp Hi. destruct (life_behind _ _ _ _ Hl) as [Hb Hk].
  assert (false = true → ok = true ∧ po_forceFull opts = false) as Hx by done.
  destruct (persist_behind false _ _ _ _ _ _ _ Hk Hb Hx Hp) as ([] & _ & Hn).
  destruct (Hn eq_refl) as (H1 & _). apply bh_live0; [|by rewrite H1]. rewrite <- Hi.
  revert Hp. unfold persistTaskState. cbn [drainDirtyState].
  destruct (po_forceFull opts), (hasWork _ _ _), ok; by intros [= <- <-].
Qed.

(** The retry after a failed flush does not retry deletions.  When the flush
    that would have deleted a task's row fails, the re-marking forgets the
    deletion: the next save succeeds, leaves nothing marked, and the row of the
    deleted task is still in the database. *)
Theorem failed_flush_loses_deletion dn careful opts1 opts2 s d s1 d1 r1 s2 d2 r2 i :
  life dn careful s d → mhas i (deletedTaskIds s) = true →
  persistTaskState opts1 false s d = (s1, d1, r1) →
  persistTaskState opts2 true s1 d1 = (s2, d2, r2) →
  r1 = false ∧ r2 = true ∧ nothingDirty s2 ∧ mget i (tasks s2) = None ∧
  mget i (tbl_tasks d2) = mget i (tbl_tasks d).
Proof.
  intros Hl Hdel Hp1 Hp2. destruct (life_behind _ _ _ _ Hl) as [Hb Hk].
  assert (mget i (tasks s) = None) as Hi by by destruct Hb; auto.
  assert (mwf (tasks s)) as Hwf by by destruct Hb.
  assert (s1 = markAllDirtyForPersistence (clearDirtyPersistence s) ∧ d1 = d ∧ r1 = false) as (-> & -> & ->).
  { revert Hp1. unfold persistTaskState. destruct (po_forceFull opts1) eqn:Hf; cbn [drainDirtyState].
    - assert (∀ dirty s, hasWork opts1 dirty s = true) as ->
        by (intros; unfold hasWork; by rewrite Hf, !orb_true_r).
      by intros [= <- <- <-].
    - unfold hasWork at 1. cbn [ds_deletedTaskIds].
      apply mhas_keys in Hdel. destruct (mkeys (deletedTaskIds s)); [set_solver|].
      rewrite orb_true_r. simpl. by intros [= <- <- <-]. }
  clear Hp1. set (s1 := markAllDirtyForPersistence (clearDirtyPersistence s)) in *.
  assert (∀ o dirty, ds_deletedTaskIds dirty = [] →
    mget i (tbl_tasks (flush (flushInput o dirty (clearDirtyPersistence s1)) d)) =
    mget i (tbl_tasks d)) as Hrow.
  { intros o dirty Hnil. rewrite flush_get; [|exact Hwf|exact Hk]. cbn. rewrite Hi, Hnil.
    by rewrite decide_False by set_solver. }
  revert Hp2. unfold persistTaskState. cbn [drainDirtyState].
  destruct (po_forceFull opts2), (hasWork _ _ _); intros [= <- <- <-]; split_and!; try done;
    by apply Hrow.
Qed.

(** A task created, saved, deleted; the save of the deletion fails; the next one
    succeeds, and the row is still there. *)
Definition noOpts : PersistTaskStateOptions := mkOpts None None false.
Definition savedSample : store * database := (persistTaskState noOpts true sampleStore emptyDb).1.
Definition deletedSample : store := exec sampleName (op_delete 5 "t1") savedSample.1.

Lemma sampleLife : life sampleName true savedSample.1 savedSample.2.
Proof.
  eapply (life_persist _ _ noOpts true sampleStore emptyDb); [|by intros _|reflexivity].
  unfold sampleStore. by apply life_op; [apply life_new|..].
Qed.

Lemma deletedLife : life sampleName true deletedSample savedSample.2.
Proof. by apply life_op; [apply sampleLife|..]. Qed.

Lemma triple {A B C} (p : A * B * C) : p = (p.1.1, p.1.2, p.2).
Proof. by destruct p as [[]]. Qed.

Lemma failed_flush_loses_deletion_witness :
  let p1 := persistTaskState noOpts false deletedSample savedSample.2 in
  let p2 := persistTaskState noOpts true p1.1.1 p1.1.2 in
  mget "t1" (tasks p2.1.1) = None ∧
  mget "t1" (tbl_tasks p2.1.2) = mget "t1" (tbl_tasks savedSample.2) ∧
  isSome (mget "t1" (tbl_tasks savedSample.2)) = true.
Proof.
  intros p1 p2. split; [|split; [|vm_compute; reflexivity]].
  all: apply (failed_flush_loses_deletion sampleName true noOpts noOpts deletedSample
    savedSample.2 p1.1.1 p1.1.2 p1.2 p2.1.1 p2.1.2 p2.2 "t1");
    [exact deletedLife|vm_compute; reflexivity|exact (triple p1)|exact (triple p2)].
Defined.

(** A reference that is held over a save: the save drains its mark and writes the record as it is,
    the write that follows marks nothing, and the next save, which leaves nothing marked, does
    not write it.  [resumeLoop], [reconcileOrphanedLoops] and [RalphCycler.handleStop] hold one over
    their awaits. *)
Theorem late_write_stale :
  let held := (getTaskForMutation "t1" savedSample.1).1 in
  let p1 := persistTaskState noOpts true held savedSample.2 in
  let late := writeLive "t1" (λ t, {| t with updatedAt := 99 |}) p1.1.1 in
  let p2 := persistTaskState noOpts true late p1.1.2 in
  p1.2 = true ∧ p2.2 = true ∧ nothingDirty p2.1.1 ∧
  mget "t1" (tbl_tasks p2.1.2) = mget "t1" (tbl_tasks savedSample.2) ∧
  mget "t1" (tbl_tasks p2.1.2) ≠ rowOf <$> mget "t1" (tasks p2.1.1).
Proof. vm_compute. split_and!; done. Qed.

Lemma persist_exact_witness :
  let p := persistTaskState noOpts true deletedSample savedSample.2 in
  mget "t1" (tbl_tasks p.1.2) = rowOf <$> mget "t1" (tasks deletedSample).
Proof.
  intros p.
  destruct (persist_exact sampleName noOpts deletedSample savedSample.2 p.1.1 p.1.2 p.2)
    as (_ & _ & _ & H & _); [exact deletedLife|reflexivity|exact (triple p)|].
  exact (H "t1").
Defined.

Lemma persist_live_witness :
  is_Some (mget "t1" (tbl_tasks (persistTaskState noOpts true sampleStore emptyDb).1.2)).
Proof.
  pose (p := persistTaskState noOpts true sampleStore emptyDb).
  assert (∃ t, mget "t1" (tasks sampleStore) = Some t) as [t Ht]
    by (vm_compute; eexists; reflexivity).
  eexists. apply (persist_live sampleName noOpts true sampleStore emptyDb p.1.1 p.1.2 "t1" t).
  - unfold sampleStore. by apply life_op; [apply life_new|..].
  - reflexivity.
  - exact Ht.
Defined.
End Persist.
