(* ===== verification/LaunchDependencyAdmission.v ===== *)
(** * Launch admission by dependency health
    ([src/core/launch-dependency-admission.ts])

    A circuit per external service: a confirmed failure closes the gate, and it
    opens again only through one recovery probe.  [now d] is the clock as a call
    reads it for dependency [d]. *)

From S2P Require Import Prelude JsMap JsArray JsString TaskTypes.
Local Open Scope Z_scope.

Module Admission.

Abbreviation idset := (jmap string ()).
Abbreviation Deps := (list TaskLaunchAdmissionDependency).

Record CircuitSnapshot := mkCircuitSnapshot {
  cs_dependency : string;
  cs_state : LaunchDependencyState;
  cs_lastChangedAt : Z;
  cs_reason : option string
}.

Record LaunchDependencyProbe := mkProbe {
  pb_token : string;
  pb_dependencies : list string
}.

Inductive Decision :=
| admitLaunch (probe : option LaunchDependencyProbe)
| refuse (reason : ParkReason) (dependencies : list TaskLaunchAdmissionDependency).

Record CircuitEntry := mkCircuit {
  state : LaunchDependencyState;
  lastChangedAt : Z;
  reason : option string;
  probeToken : option string;
  probeInvalidated : option bool;
  startupRecoveryOwners : option idset
}.

Record Finding := mkDepFinding {
  f_dependency : string;
  f_category : string;
  f_summary : option string
}.

Record admission := mkAdmission {
  entries : jmap string CircuitEntry;
  probeSequence : Z
}.

Definition newAdmission : admission := mkAdmission [] 0.

Definition ownersSize (e : CircuitEntry) : Z :=
  Z.of_nat (msize (orElse (startupRecoveryOwners e) [])).

Definition transition (now : Z) (s : LaunchDependencyState) (e : CircuitEntry) : CircuitEntry :=
  if bool_decide (state e = s) then e else {| e with state := s; lastChangedAt := now |}.

Section Operations.
Variable now : string → Z.

(** [entry] creates a healthy entry for a dependency it does not know. *)
Definition entryOf (d : string) (a : admission) : CircuitEntry :=
  orElse (mget d (entries a)) (mkCircuit ld_healthy (now d) None None None None).

(** Mutation through the reference [entry] returns, or [entries.get] for a
    known dependency. *)
Definition onEntry (d : string) (f : CircuitEntry → CircuitEntry) (a : admission) : admission :=
  {| a with entries := mset d (f (entryOf d a)) (entries a) |}.
Definition onKnown (d : string) (f : CircuitEntry → CircuitEntry) (a : admission) : admission :=
  match mget d (entries a) with
  | Some _ => onEntry d f a
  | None => a
  end.

(** [[...new Set(dependencies ?? [])]]. *)
Definition uniqueDependencies (ds : option (list string)) : list string :=
  mkeys (foldl (λ (m : idset) d, mset d tt m) [] (orElse ds [])).

Definition confirmedOf (relevant : list Finding) : option Finding :=
  List.find (λ f, negb (String.eqb (f_category f) "unknown")) relevant.

(** One round of the loop of [observe]. *)
Definition observeOne (findings : list Finding) (a : admission) (d : string) : admission :=
  let relevant := List.filter (λ f, String.eqb (f_dependency f) d) findings in
  let confirmed := confirmedOf relevant in
  onEntry d (λ e,
    if 0 <? ownersSize e then
      match confirmed with
      | Some c => {| e with probeInvalidated := Some true; reason := f_summary c |}
      | None => e
      end
    else match relevant with
    | [] =>
        let e := if bool_decide (state e = ld_degraded) then transition (now d) ld_half_open e
                 else if bool_decide (state e = ld_half_open) then e
                 else transition (now d) ld_healthy e in
        {| e with reason := None |}
    | first :: _ =>
        match confirmed with
        | Some c =>
            let e := {| e with reason := f_summary c;
                               probeInvalidated := if isSome (probeToken e) then Some true
                                                   else probeInvalidated e |} in
            transition (now d) ld_degraded e
        | None =>
            let e := {| e with reason := f_summary first |} in
            if bool_decide (state e = ld_healthy) || bool_decide (state e = ld_unknown)
            then transition (now d) ld_unknown e else e
        end
    end) a.

Definition observe (ds : option (list string)) (findings : list Finding) (a : admission) : admission :=
  foldl (observeOne findings) a (uniqueDependencies ds).

(** [snapshotEntry] on an entry that [entry] has already created. *)
Definition snapshotOf (d : string) (a : admission) : CircuitSnapshot :=
  let e := entryOf d a in mkCircuitSnapshot d (state e) (lastChangedAt e) (truthyStr (reason e)).

Definition toAdmissionDependency (s : CircuitSnapshot) : TaskLaunchAdmissionDependency :=
  mkAdmissionDep (cs_dependency s) (cs_state s) (truthyStr (cs_reason s)).

Definition isBusy (e : CircuitEntry) : bool := isSome (probeToken e) || (0 <? ownersSize e).

Definition probeTokenOf (n : Z) : string := "launch-dependency-probe-" +:+ showZ n.

Definition inState (s : LaunchDependencyState) (x : CircuitSnapshot) : bool :=
  bool_decide (cs_state x = s).

Definition evaluate (ds : option (list string)) (a : admission) : admission * Decision :=
  let a := foldl (λ a d, onEntry d (λ e, e) a) a (uniqueDependencies ds) in
  let states := (λ d, snapshotOf d a) <$> uniqueDependencies ds in
  let degraded := List.filter (inState ld_degraded) states in
  if 0 <? Z.of_nat (length degraded)
  then (a, refuse dependency_degraded (toAdmissionDependency <$> degraded))
  else
    let halfOpen := List.filter (inState ld_half_open) states in
    let busy := List.filter (λ s, isBusy (entryOf (cs_dependency s) a)) halfOpen in
    if 0 <? Z.of_nat (length busy)
    then (a, refuse half_open_probe_busy
               ((λ s, let x := toAdmissionDependency s in
                      {| x with dep_reason := Some "A recovery probe is already in flight" |}) <$> busy))
    else match halfOpen with
    | [] => (a, admitLaunch None)
    | _ =>
        let n := probeSequence a + 1 in
        let token := probeTokenOf n in
        let a := foldl (λ a s, onEntry (cs_dependency s)
                     (λ e, {| e with probeToken := Some token; probeInvalidated := Some false |}) a)
                   {| a with probeSequence := n |} halfOpen in
        (a, admitLaunch (Some (mkProbe token (cs_dependency <$> halfOpen))))
    end.

Definition isInvalidated (e : CircuitEntry) : bool := bool_decide (probeInvalidated e = Some true).

(** Does this probe own the entry? *)
Definition ownedBy (p : LaunchDependencyProbe) (e : CircuitEntry) : bool :=
  bool_decide (probeToken e = Some (pb_token p)).

Definition completeOne (p : LaunchDependencyProbe) (healthy : bool) (a : admission) (d : string) :
    admission :=
  onKnown d (λ e,
    if negb (ownedBy p e) then e
    else
      let good := healthy && negb (isInvalidated e) in
      let e := {| e with probeToken := None; probeInvalidated := None;
                         reason := if good then None
                                   else Some (orElse (reason e) "Recovery probe failed") |} in
      transition (now d) (if good then ld_healthy else ld_degraded) e) a.

Definition completeProbe (probe : option LaunchDependencyProbe) (healthy : bool) (a : admission) :
    admission :=
  match probe with
  | None => a
  | Some p => foldl (completeOne p healthy) a (pb_dependencies p)
  end.

Definition isProbeActive (probe : option LaunchDependencyProbe) (a : admission) : bool :=
  match probe with
  | None => false
  | Some p =>
      negb (bool_decide (pb_dependencies p = [])) &&
      forallb (λ d, match mget d (entries a) with
                    | Some e => bool_decide (state e = ld_half_open) && ownedBy p e
                                && negb (isInvalidated e)
                    | None => false
                    end) (pb_dependencies p)
  end.

Definition releaseOne (p : LaunchDependencyProbe) (a : admission) (d : string) : admission :=
  onKnown d (λ e,
    if negb (ownedBy p e) then e
    else
      let invalidated := isInvalidated e in
      let e := {| e with probeToken := None; probeInvalidated := None |} in
      if invalidated then transition (now d) ld_degraded e else e) a.

Definition releaseProbe (probe : option LaunchDependencyProbe) (a : admission) : admission :=
  match probe with
  | None => a
  | Some p => foldl (releaseOne p) a (pb_dependencies p)
  end.

(** ** Restart and cleanup *)

Definition eachDep (f : TaskLaunchAdmissionDependency → CircuitEntry → CircuitEntry) (ds : Deps)
    (a : admission) : admission :=
  foldl (λ a x, onEntry (dep_dependency x) (f x) a) a ds.

Definition restoreParked (ds : Deps) : admission → admission :=
  eachDep (λ x e,
    let restored := if bool_decide (dep_state x = ld_half_open) then ld_half_open else ld_degraded in
    let take := negb (bool_decide (state e = ld_degraded)) || bool_decide (restored = ld_degraded) in
    {| state := if take then restored else state e;
       reason := if take then Some (orElse (dep_reason x) "Dependency was parked before restart")
                 else reason e;
       lastChangedAt := now (dep_dependency x);
       probeToken := None; probeInvalidated := None; startupRecoveryOwners := None |}) ds.

Definition addOwner (owner : string) (e : CircuitEntry) : option idset :=
  Some (mset owner tt (orElse (startupRecoveryOwners e) [])).

Definition restoreInterruptedProbe (ds : Deps) (owner : string) : admission → admission :=
  eachDep (λ x e,
    let invalidated := bool_decide (state e = ld_degraded) || isInvalidated e in
    {| state := ld_half_open;
       lastChangedAt := now (dep_dependency x);
       reason := if invalidated then reason e
                 else Some "Interrupted recovery probe cleanup is in progress";
       probeToken := None;
       probeInvalidated := if invalidated then Some true else None;
       startupRecoveryOwners := addOwner owner e |}) ds.

Definition retainProbeCleanup (ds : Deps) (owner : string) : admission → admission :=
  eachDep (λ x e,
    {| state := ld_half_open;
       lastChangedAt := now (dep_dependency x);
       reason := Some (orElse (reason e) "Interrupted recovery probe cleanup is in progress");
       probeToken := None;
       probeInvalidated := probeInvalidated e;
       startupRecoveryOwners := addOwner owner e |}) ds.

Definition releaseInterruptedProbe (ds : Deps) : admission → admission :=
  eachDep (λ x e,
    {| state := if isInvalidated e then ld_degraded else ld_half_open;
       lastChangedAt := now (dep_dependency x);
       reason := if isInvalidated e then reason e else None;
       probeToken := None; probeInvalidated := None; startupRecoveryOwners := None |}) ds.

Inductive Outcome := outcome_parked | outcome_released.
#[export] Instance Outcome_eq_dec : EqDecision Outcome.
Proof. solve_decision. Defined.

Definition settleReconciledProbe (ds : Deps) (outcome : Outcome) : admission → admission :=
  eachDep (λ x e,
    let invalidated := isInvalidated e in
    let e := {| e with probeToken := None; probeInvalidated := None;
                       startupRecoveryOwners := None |} in
    if bool_decide (outcome = outcome_parked) || invalidated then
      transition (now (dep_dependency x)) ld_degraded
        {| e with reason := Some (orElse (reason e)
                      "Recovery probe ended before successful admission") |}
    else transition (now (dep_dependency x)) ld_half_open {| e with reason := None |}) ds.

(** A confirmation at or after the start of the probe supersedes its success. *)
Definition superseded (probeStartedAt : Z) (latestConfirmedAt : string → option Z) (d : string) : bool :=
  match latestConfirmedAt d with Some t => probeStartedAt <=? t | None => false end.

Definition restoreSuccessfulProbe (ds : list string) (probeStartedAt : Z)
    (latestConfirmedAt : string → option Z) (a : admission) : admission :=
  foldl (λ a d,
      if superseded probeStartedAt latestConfirmedAt d then a
      else onEntry d (λ _, mkCircuit ld_healthy (now d) None None None None) a)
    a (uniqueDependencies (Some ds)).

Definition snapshot (a : admission) : list CircuitSnapshot :=
  (λ d, snapshotOf d a)
    <$> sort_by (λ x y, if String.leb x y then -1 else 1) (mkeys (entries a)).
End Operations.

(** ** Operations as a sequence *)

Inductive op :=
| op_observe (ds : option (list string)) (findings : list Finding)
| op_evaluate (ds : option (list string))
| op_complete (probe : option LaunchDependencyProbe) (healthy : bool)
| op_release (probe : option LaunchDependencyProbe)
| op_restoreParked (ds : Deps)
| op_restoreInterrupted (ds : Deps) (owner : string)
| op_retain (ds : Deps) (owner : string)
| op_releaseInterrupted (ds : Deps)
| op_settle (ds : Deps) (outcome : Outcome)
| op_restoreSuccessful (ds : list string) (t : Z) (confirmedAt : string → option Z).

Definition exec (now : string → Z) (o : op) (a : admission) : admission :=
  match o with
  | op_observe ds fs => observe now ds fs a
  | op_evaluate ds => (evaluate now ds a).1
  | op_complete p h => completeProbe now p h a
  | op_release p => releaseProbe now p a
  | op_restoreParked ds => restoreParked now ds a
  | op_restoreInterrupted ds o => restoreInterruptedProbe now ds o a
  | op_retain ds o => retainProbeCleanup now ds o a
  | op_releaseInterrupted ds => releaseInterruptedProbe now ds a
  | op_settle ds r => settleReconciledProbe now ds r a
  | op_restoreSuccessful ds t f => restoreSuccessfulProbe now ds t f a
  end.

(** ** Facts about the entry of one dependency *)

Definition holds (d : string) (P : CircuitEntry → Prop) (a : admission) : Prop :=
  ∃ e, mget d (entries a) = Some e ∧ P e.

Lemma holds_entryOf now d P a : holds d P a → P (entryOf now d a).
Proof. intros (e & He & Hp). unfold entryOf. by rewrite He. Qed.

Lemma holds_onEntry now d d' f (P Q : CircuitEntry → Prop) a :
  holds d P a → (d' = d → ∀ e, P e → Q (f e)) → (d' ≠ d → ∀ e, P e → Q e) →
  holds d Q (onEntry now d' f a).
Proof.
  intros Hh Hf Hq. pose proof (holds_entryOf now d P a Hh) as Hp. destruct Hh as (e & He & Hpe).
  unfold holds, onEntry. simpl. rewrite mget_mset.
  destruct (decide (d = d')) as [->|]; [exists (f (entryOf now d' a)); auto|exists e; auto].
Qed.

Lemma holds_onKnown now d d' f (P Q : CircuitEntry → Prop) a :
  holds d P a → (d' = d → ∀ e, P e → Q (f e)) → (d' ≠ d → ∀ e, P e → Q e) →
  holds d Q (onKnown now d' f a).
Proof.
  intros Hh Hf Hq. unfold onKnown. destruct (mget d' (entries a)) eqn:Hd'; [by eapply holds_onEntry|].
  destruct Hh as (e & He & Hp). exists e. split; [done|]. apply Hq; [|done]. congruence.
Qed.

Lemma holds_fold {X} d (P : CircuitEntry → Prop) (g : admission → X → admission) l a :
  (∀ a x, x ∈ l → holds d P a → holds d P (g a x)) → holds d P a → holds d P (foldl g a l).
Proof.
  revert a. induction l as [|x l IH]; intros a Hg Ha; simpl; [done|].
  apply IH; [|apply Hg; set_solver]. intros; apply Hg; set_solver.
Qed.

(** Reaching [x] in the list establishes [Q], which the rest keeps. *)
Lemma holds_fold_at {X} d (P Q : CircuitEntry → Prop) (g : admission → X → admission) l a x :
  x ∈ l → (∀ a y, y ∈ l → holds d P a → holds d P (g a y)) →
  (∀ a, holds d P a → holds d Q (g a x)) →
  (∀ a y, y ∈ l → holds d Q a → holds d Q (g a y)) →
  holds d P a → holds d Q (foldl g a l).
Proof.
  intros (l1 & l2 & ->)%list_elem_of_split Hp Hx Hq Ha. rewrite foldl_app. simpl.
  apply holds_fold; [intros; apply Hq; set_solver|]. apply Hx.
  apply holds_fold; [intros; apply Hp; set_solver|done].
Qed.

Lemma elem_of_unique d ds : d ∈ uniqueDependencies ds ↔ d ∈ orElse ds [].
Proof.
  unfold uniqueDependencies. generalize (orElse ds []) as l. intros l.
  assert (∀ (m : idset), d ∈ mkeys (foldl (λ m d, mset d tt m) m l) ↔ d ∈ mkeys m ∨ d ∈ l) as H.
  { induction l as [|x l IH]; intros m; cbn [foldl]; [set_solver|]. rewrite IH, !elem_of_mkeys, mget_mset.
    destruct (decide (d = x)) as [->|]; [|set_solver].
    split; [intros _; right; by left|intros _; left; by eexists]. }
  rewrite H. set_solver.
Qed.

(** [evaluate] first makes sure of the entries. *)
Definition ensured (now : string → Z) (ds : option (list string)) (a : admission) : admission :=
  foldl (λ a d, onEntry now d (λ e, e) a) a (uniqueDependencies ds).

Lemma holds_ensured now ds d P a : holds d P a → holds d P (ensured now ds a).
Proof. apply holds_fold. intros a' x _ Hh. by eapply holds_onEntry. Qed.

(** A dependency that is degraded, or half-open and busy, refuses every launch
    that needs it; and the refusal claims nothing. *)
Definition blocked (e : CircuitEntry) : Prop :=
  state e = ld_degraded ∨ state e = ld_half_open ∧ isBusy e = true.

Lemma evaluate_blocked now ds d a :
  holds d blocked a → d ∈ orElse ds [] →
  (evaluate now ds a).1 = ensured now ds a ∧ ∃ r l, (evaluate now ds a).2 = refuse r l.
Proof.
  intros Hh Hd. unfold evaluate. fold (ensured now ds a). set (a1 := ensured now ds a).
  assert (blocked (entryOf now d a1)) as Hb by (by apply holds_entryOf, holds_ensured).
  set (states := _ <$> uniqueDependencies ds).
  assert (snapshotOf now d a1 ∈ states) as Hin
    by (apply list_elem_of_fmap; exists d; split; [done|by apply elem_of_unique]).
  destruct (List.filter (inState ld_degraded) states) as [|x l] eqn:Hdeg; [|split; [done|by eexists _, _]].
  simpl. set (ho := List.filter (inState ld_half_open) states).
  destruct Hb as [Hb|[Hb Hbusy]].
  { exfalso. assert (snapshotOf now d a1 ∈ List.filter (inState ld_degraded) states) as Hx.
    { apply list_elem_of_In, filter_In. split; [by apply list_elem_of_In|].
      unfold inState. simpl. by apply bool_decide_eq_true. }
    rewrite Hdeg in Hx. by apply not_elem_of_nil in Hx. }
  assert (snapshotOf now d a1 ∈
    List.filter (λ s, isBusy (entryOf now (cs_dependency s) a1)) ho) as Hx.
  { apply list_elem_of_In, filter_In. split; [|done]. apply filter_In. split; [by apply list_elem_of_In|].
    unfold inState. simpl. by apply bool_decide_eq_true. }
  destruct (List.filter _ ho) as [|y l]; [by apply not_elem_of_nil in Hx|]. simpl.
  split; [done|by eexists _, _].
Qed.

(** A property that blocks launches survives every [evaluate]: refused ones
    touch nothing, and the others do not mention the dependency. *)
Lemma holds_evaluate now ds d P a :
  (∀ e, P e → blocked e) → holds d P a → holds d P (evaluate now ds a).1.
Proof.
  intros Hb Hh. destruct (decide (d ∈ orElse ds [])) as [Hd|Hd].
  - destruct (evaluate_blocked now ds d a) as [-> _]; [|done|by apply holds_ensured].
    destruct Hh as (e & ? & ?). exists e. auto.
  - unfold evaluate. fold (ensured now ds a). pose proof (holds_ensured now ds d P a Hh) as H1.
    set (a1 := ensured now ds a) in *. set (states := _ <$> uniqueDependencies ds).
    case_if; [done|]. case_if; [done|].
    assert (∀ s, s ∈ List.filter (inState ld_half_open) states → cs_dependency s ≠ d) as Hne.
    { intros s Hs Heq. apply list_elem_of_In, filter_In in Hs as [Hs _]. apply list_elem_of_In in Hs.
      apply list_elem_of_fmap in Hs as (x & -> & Hx). simpl in Heq. subst x.
      by apply elem_of_unique in Hx. }
    destruct (List.filter (inState ld_half_open) states) as [|s0 l]; [done|]. cbn [fst].
    apply holds_fold; [|exact H1]. intros a' s Hs Ha'. eapply holds_onEntry; [done| |done].
    by intros ?%(Hne s Hs).
Qed.

(** ** The single recovery probe *)

(** A run of operations that satisfy [R], each with its own clock. *)
Inductive runOf (R : op → Prop) : admission → admission → Prop :=
| runOf_nil a : runOf R a a
| runOf_step a a' now o : runOf R a a' → R o → runOf R a (exec now o a').

Definition token_at (k : string) (e : CircuitEntry) : Prop :=
  probeToken e = Some k ∧ (state e = ld_degraded ∨ state e = ld_half_open).

(** The claim [k] on an entry, and what is known of its validity. *)
Definition claimed (k : string) (invalid : bool) (e : CircuitEntry) : Prop :=
  token_at k e ∧ (invalid = true → probeInvalidated e = Some true).

Lemma claimed_blocked k b e : claimed k b e → blocked e.
Proof.
  intros [[Ht [Hs|Hs]] _]; [by left|right]. split; [done|]. unfold isBusy. by rewrite Ht.
Qed.

(** The operation does not settle the claim [k] on [d]. *)
Definition sparesClaim (k d : string) (o : op) : Prop :=
  match o with
  | op_complete (Some p) _ | op_release (Some p) => pb_token p = k → d ∉ pb_dependencies p
  | op_restoreParked ds | op_restoreInterrupted ds _ | op_retain ds _ | op_releaseInterrupted ds
  | op_settle ds _ => d ∉ dep_dependency <$> ds
  | op_restoreSuccessful ds _ _ => d ∉ ds
  | _ => True
  end.

Lemma holds_eachDep now d P f ds a :
  d ∉ dep_dependency <$> ds → holds d P a → holds d P (eachDep now f ds a).
Proof.
  intros Hd. apply holds_fold. intros a' x Hx Ha'. eapply holds_onEntry; [done| |done].
  intros <-. destruct Hd. by apply list_elem_of_fmap_2.
Qed.

Lemma circuit_transition_state now s e : state (transition now s e) = s.
Proof. unfold transition. case_bool_decide; [done|]. done. Qed.

Lemma circuit_transition_rest now s e :
  probeToken (transition now s e) = probeToken e ∧
  probeInvalidated (transition now s e) = probeInvalidated e ∧
  startupRecoveryOwners (transition now s e) = startupRecoveryOwners e ∧
  reason (transition now s e) = reason e.
Proof. unfold transition. by case_bool_decide. Qed.

Lemma observeOne_claimed now fs k b d d' a :
  holds d (claimed k b) a → holds d (claimed k b) (observeOne now fs a d').
Proof.
  intros Hh. eapply holds_onEntry; [done| |done]. intros -> e [[Ht Hs] Hb].
  case_if; [case_match; by repeat split|]. case_match.
  - destruct (circuit_transition_rest (now d) ld_half_open e) as (H1 & H2 & _).
    destruct Hs as [Hs|Hs]; rewrite Hs; simpl.
    + split; [|simpl; by rewrite H2]. split; simpl; [by rewrite H1|right; apply circuit_transition_state].
    + repeat split; auto.
  - case_match.
    + set (e1 := {| state := state e |}). destruct (circuit_transition_rest (now d) ld_degraded e1) as (H1 & H2 & _).
      unfold claimed, token_at. rewrite H1, H2, circuit_transition_state. simpl. rewrite Ht. simpl. auto.
    + cbn [state]. destruct Hs as [Hs|Hs]; rewrite Hs; simpl; repeat split; auto.
Qed.

Lemma exec_claimed now o k b d a :
  sparesClaim k d o → holds d (claimed k b) a → holds d (claimed k b) (exec now o a).
Proof.
  intros Ho Hh. destruct o; simpl in *; try (by apply holds_eachDep).
  - apply holds_fold; [|done]. intros a' x _ Ha'. by apply observeOne_claimed.
  - apply holds_evaluate; [|done]. intros e. apply claimed_blocked.
  - destruct probe as [p|]; [|done]. apply holds_fold; [|done]. intros a' x Hx Ha'.
    eapply holds_onKnown; [done| |done]. intros -> e [[Ht Hs] Hb]. unfold ownedBy. rewrite Ht.
    rewrite bool_decide_false; [by repeat split|]. intros [= ->]. by apply Ho.
  - destruct probe as [p|]; [|done]. apply holds_fold; [|done]. intros a' x Hx Ha'.
    eapply holds_onKnown; [done| |done]. intros -> e [[Ht Hs] Hb]. unfold ownedBy. rewrite Ht.
    rewrite bool_decide_false; [by repeat split|]. intros [= ->]. by apply Ho.
  - apply holds_fold; [|done]. intros a' x Hx Ha'. case_if; [done|].
    eapply holds_onEntry; [done| |done]. intros ->. apply elem_of_unique in Hx. done.
Qed.

Lemma run_claimed k b d a a' :
  runOf (sparesClaim k d) a a' → holds d (claimed k b) a → holds d (claimed k b) a'.
Proof. induction 1; [done|]. intros. apply exec_claimed; auto. Qed.

Lemma ensured_known now ds d a : d ∈ orElse ds [] → is_Some (mget d (entries (ensured now ds a))).
Proof.
  intros Hd%elem_of_unique. unfold ensured. revert a. induction (uniqueDependencies ds) as [|x l IH];
    intros a; [by apply not_elem_of_nil in Hd|]. apply elem_of_cons in Hd as [->|Hd]; [|by apply IH].
  cbn [foldl]. destruct (holds_fold x (λ _, True) (λ a d, onEntry now d (λ e, e) a) l
    (onEntry now x (λ e, e) a)) as (e & He & _).
  - intros a' y _ H. by eapply holds_onEntry.
  - exists (entryOf now x a). split; [|done]. apply mget_mset_eq.
  - by eexists.
Qed.

(** What a launch that is admitted as a probe has claimed. *)
Lemma evaluate_claims now ds a a' p d :
  evaluate now ds a = (a', admitLaunch (Some p)) → d ∈ pb_dependencies p →
  holds d (claimed (pb_token p) false) a' ∧ d ∈ orElse ds [].
Proof.
  unfold evaluate. fold (ensured now ds a). set (a1 := ensured now ds a).
  set (states := _ <$> uniqueDependencies ds). case_if; [done|]. case_if; [done|].
  set (ho := List.filter (inState ld_half_open) states).
  assert (∀ s, s ∈ ho → s ∈ states ∧ cs_state s = ld_half_open) as Hho.
  { intros s Hs. apply list_elem_of_In, filter_In in Hs as [Hs Hb]. split; [by apply list_elem_of_In|].
    by apply bool_decide_eq_true in Hb. }
  clearbody ho. intros Heq Hd. assert (∃ s, s ∈ ho ∧ d = cs_dependency s) as (s & Hs & ->).
  { destruct ho; [done|]. injection Heq as _ <-. simpl in Hd.
    by apply (list_elem_of_fmap cs_dependency (_ :: ho)) in Hd as (s & -> & Hs); exists s. }
  destruct (Hho s Hs) as [Hst Hhalf]. apply list_elem_of_fmap in Hst as (x & -> & Hx). simpl in *.
  apply elem_of_unique in Hx. split; [|done].
  destruct (ensured_known now ds x a Hx) as [e He]. fold a1 in He.
  assert (holds x (λ e, state e = ld_half_open) a1) as H0.
  { exists e. split; [done|]. unfold entryOf in Hhalf. by rewrite He in Hhalf. }
  destruct ho as [|s0 l]; [done|]. injection Heq as <- <-. simpl pb_token.
  change (holds x (claimed (probeTokenOf (probeSequence a1 + 1)) false)
    (foldl (λ a s, onEntry now (cs_dependency s)
       (λ e, {| e with probeToken := Some (probeTokenOf (probeSequence a1 + 1));
                       probeInvalidated := Some false |}) a)
     {| a1 with probeSequence := probeSequence a1 + 1 |} (s0 :: l))).
  eapply (holds_fold_at x (λ e, state e = ld_half_open)); [exact Hs| | | |].
  - intros a2 y _ H2. by eapply holds_onEntry.
  - intros a2 H2. eapply holds_onEntry; [exact H2| |by intros []].
    intros _ e' He'. repeat split; [by right|done].
  - intros a2 y _ H2. eapply holds_onEntry; [exact H2| |done].
    intros _ e' [[Ht He'] _]. by repeat split.
  - destruct H0 as (e0 & He0 & Hp0). by exists e0.
Qed.

(** C9: one recovery probe at a time.  From the moment a launch is admitted as
    the probe of a half-open dependency until that claim is settled (this probe
    completed or released, or the circuit of the dependency reset by a restart
    or cleanup), every launch that needs the dependency is refused, whatever is
    observed meanwhile. *)
Theorem single_probe now now' ds0 ds a0 a1 a2 p d :
  evaluate now ds0 a0 = (a1, admitLaunch (Some p)) → d ∈ pb_dependencies p →
  runOf (sparesClaim (pb_token p) d) a1 a2 → d ∈ orElse ds [] →
  ∃ r l, (evaluate now' ds a2).2 = refuse r l.
Proof.
  intros He Hd Hrun Hds. destruct (evaluate_claims _ _ _ _ _ _ He Hd) as [Hc _].
  apply (run_claimed _ _ _ _ _ Hrun) in Hc. apply (evaluate_blocked now' ds d); [|done].
  destruct Hc as (e & Hget & Hc). exists e. split; [done|]. by eapply claimed_blocked.
Qed.

(** A finding of [fs] that confirms a failure of [d]. *)
Definition confirms (d : string) (fs : list Finding) : Prop :=
  ∃ f, f ∈ fs ∧ f_dependency f = d ∧ f_category f ≠ "unknown".

Lemma confirmed_found d fs :
  confirms d fs → ∃ f, confirmedOf (List.filter (λ f, String.eqb (f_dependency f) d) fs) = Some f.
Proof.
  intros (f & Hf & <- & Hc). unfold confirmedOf.
  destruct (List.find _ _) as [g|] eqn:Hg; [by exists g|].
  pose proof (find_none _ _ Hg f) as Hn. simpl in Hn. apply negb_false_iff, String.eqb_eq in Hn; [done|].
  apply filter_In. split; [by apply list_elem_of_In|by apply String.eqb_eq].
Qed.

Lemma observe_confirmed now ds fs k b d a :
  confirms d fs → d ∈ orElse ds [] → holds d (claimed k b) a →
  holds d (claimed k true) (observe now ds fs a).
Proof.
  intros Hf Hd Hh. destruct (confirmed_found d fs Hf) as [c Hc].
  eapply (holds_fold_at d (claimed k b)); [by apply elem_of_unique| | | |exact Hh].
  - intros a' y _ H. by apply observeOne_claimed.
  - intros a' H. eapply holds_onEntry; [exact H| |done]. intros _ e [[Ht Hs] _]. rewrite Hc.
    case_if; [by repeat split|]. destruct (List.filter _ fs); [done|].
    set (e1 := {| state := state e |}). destruct (circuit_transition_rest (now d) ld_degraded e1) as (H1 & H2 & _).
    unfold claimed, token_at. rewrite H1, H2, circuit_transition_state. simpl. rewrite Ht. simpl. auto.
  - intros a' y _ H. by apply observeOne_claimed.
Qed.

(** A probe cannot report a service healthy over newer evidence.  When a
    failure of the dependency is confirmed while its probe is in flight, the
    completion of that probe, even as healthy, leaves the circuit degraded and
    unclaimed. *)
Theorem stale_success_refused now1 now2 now3 ds0 ds fs a0 a1 a2 a3 p d healthy :
  evaluate now1 ds0 a0 = (a1, admitLaunch (Some p)) → d ∈ pb_dependencies p →
  runOf (sparesClaim (pb_token p) d) a1 a2 →
  confirms d fs → d ∈ orElse ds [] →
  runOf (sparesClaim (pb_token p) d) (observe now2 ds fs a2) a3 →
  holds d (λ e, state e = ld_degraded ∧ probeToken e = None)
    (completeProbe now3 (Some p) healthy a3).
Proof.
  intros He Hd Hrun1 Hf Hds Hrun2. destruct (evaluate_claims _ _ _ _ _ _ He Hd) as [Hc _].
  apply (run_claimed _ _ _ _ _ Hrun1) in Hc.
  apply (observe_confirmed now2 ds fs _ _ _ _ Hf Hds), (run_claimed _ _ _ _ _ Hrun2) in Hc.
  set (Q := λ e, state e = ld_degraded ∧ probeToken e = None).
  assert (∀ b d' P, d' = d → (∀ e, P e → Q e ∨ claimed (pb_token p) true e) → holds d P b →
    holds d Q (completeOne now3 p healthy b d')) as Hone.
  { intros b d' P -> HP Hh. eapply holds_onKnown; [exact Hh| |done]. intros _ e He'.
    unfold ownedBy. destruct (HP e He') as [[HQ1 HQ2]|[[Ht _] Hi]].
    - by rewrite HQ2.
    - rewrite Ht, bool_decide_true by done. cbn [negb]. unfold isInvalidated.
      rewrite Hi, bool_decide_true, andb_false_r by done. set (e1 := {| state := state e |}).
      destruct (circuit_transition_rest (now3 d) ld_degraded e1) as (H1 & _).
      split; [apply circuit_transition_state|by rewrite H1]. }
  assert (∀ b d' P, d' ≠ d → holds d P b → holds d P (completeOne now3 p healthy b d')) as Hother.
  { intros b d' P Hne Hh. by eapply holds_onKnown. }
  apply (holds_fold_at d (λ e, Q e ∨ claimed (pb_token p) true e) Q) with (x := d); [done| | | |].
  - intros b d' _ Hh. destruct (decide (d' = d)) as [->|Hne]; [|by apply Hother].
    eapply (Hone _ _ _ eq_refl (λ e H, H)) in Hh. destruct Hh as (e & ? & ?). exists e. auto.
  - intros b Hh. eapply Hone; [done| |exact Hh]. auto.
  - intros b d' _ Hh. destruct (decide (d' = d)) as [->|Hne]; [|by apply Hother].
    eapply Hone; [done| |exact Hh]. auto.
  - destruct Hc as (e & ? & ?). exists e. auto.
Qed.

(** ** The way back to healthy *)

(** The operation may legitimately declare [d] healthy, its entry being [e]. *)
Definition restoresHealth (d : string) (e : CircuitEntry) (o : op) : Prop :=
  match o with
  | op_complete (Some p) true =>
      d ∈ pb_dependencies p ∧ ownedBy p e = true ∧ isInvalidated e = false
  | op_restoreSuccessful ds t f => d ∈ ds ∧ superseded t f d = false
  | _ => False
  end.

Definition failing (e : CircuitEntry) : Prop := state e = ld_degraded ∨ state e = ld_half_open.

Lemma holds_eachDep_any now d (P : CircuitEntry → Prop) f ds a :
  (∀ x e, P e → P (f x e)) → holds d P a → holds d P (eachDep now f ds a).
Proof. intros Hf. apply holds_fold. intros a' x _ Ha'. 
  eapply holds_onEntry; [exact Ha'| |done]. auto. Qed.

Lemma observeOne_failing now fs d d' a :
  holds d failing a → holds d failing (observeOne now fs a d').
Proof.
  intros Hh. eapply holds_onEntry; [exact Hh| |done]. intros -> e Hs.
  case_if; [by case_match|]. case_match.
  - destruct Hs as [Hs|Hs]; rewrite Hs; simpl; [right; apply circuit_transition_state|by right].
  - case_match; [left; apply circuit_transition_state|].
    cbn [state]. destruct Hs as [Hs|Hs]; rewrite Hs; simpl; [left|right]; done.
Qed.

Lemma evaluate_failing now ds d a : holds d failing a → holds d failing (evaluate now ds a).1.
Proof.
  intros Hh. unfold evaluate. fold (ensured now ds a). pose proof (holds_ensured now ds d _ a Hh) as H1.
  case_if; [done|]. case_if; [done|].
  destruct (List.filter (inState ld_half_open) _) as [|s0 l]; [done|]. cbn [fst].
  apply holds_fold; [|exact H1]. intros a' s _ Ha'. by eapply holds_onEntry.
Qed.

Lemma complete_failing now p healthy d a e :
  mget d (entries a) = Some e → failing e →
  (healthy && ownedBy p e && negb (isInvalidated e)) && bool_decide (d ∈ pb_dependencies p) = false →
  holds d failing (completeProbe now (Some p) healthy a).
Proof.
  intros He Hs Hno.
  set (P := λ e, failing e ∧ (healthy && ownedBy p e && negb (isInvalidated e))
                               && bool_decide (d ∈ pb_dependencies p) = false).
  assert (holds d P (completeProbe now (Some p) healthy a)) as (e' & ? & [? _]); [|by exists e'].
  apply holds_fold; [|by exists e]. intros b d' Hd' Hh. eapply holds_onKnown; [exact Hh| |done].
  intros -> e0 [Hs0 Hno0].
  destruct (ownedBy p e0) eqn:Ho; cbn [negb]; [|split; [done|by rewrite Ho]].
  rewrite bool_decide_true, !andb_true_r in Hno0 by done. cbv zeta. rewrite Hno0.
  set (e1 := {| state := state e0 |}). destruct (circuit_transition_rest (now d) ld_degraded e1) as (H1 & _).
  split; [left; apply circuit_transition_state|]. unfold ownedBy. by rewrite H1, andb_false_r.
Qed.

Lemma release_failing now p d a :
  holds d failing a → holds d failing (releaseProbe now p a).
Proof.
  intros Hh. destruct p as [p|]; [|done]. apply holds_fold; [|done]. intros b d' _ Hb.
  eapply holds_onKnown; [exact Hb| |done]. intros -> e Hs. case_if; [done|]. cbv zeta.
  case_if; [left; apply circuit_transition_state|done].
Qed.

Lemma settle_failing now ds r d a :
  holds d failing a → holds d failing (settleReconciledProbe now ds r a).
Proof.
  apply holds_eachDep_any. intros x e _. cbv zeta.
  case_if; [left|right]; apply circuit_transition_state.
Qed.

(** A failing service is declared healthy only on evidence.  From degraded
    or half-open the circuit of a dependency stays degraded or half-open under
    every operation, except the healthy completion of the probe that owns it with
    no failure confirmed since, and the restart's replay of a success that no
    later confirmation supersedes. *)
Theorem healthy_only_on_evidence now o d a e :
  mget d (entries a) = Some e → failing e → ¬ restoresHealth d e o →
  ∃ e', mget d (entries (exec now o a)) = Some e' ∧ failing e'.
Proof.
  intros He Hs Hno. assert (holds d failing a) as Hh by by exists e.
  change (holds d failing (exec now o a)). destruct o; simpl in *.
  - apply holds_fold; [|done]. intros a' x _. apply observeOne_failing.
  - by apply evaluate_failing.
  - destruct probe as [p|]; [|done]. eapply complete_failing; [done..|].
    apply not_true_iff_false. intros [[[-> ?]%andb_true_iff ?%negb_true_iff]%andb_true_iff
      ?%bool_decide_eq_true]%andb_true_iff. naive_solver.
  - by apply release_failing.
  - apply holds_eachDep_any; [|done]. intros x e' Hs'. unfold failing. cbv zeta. cbn [state].
    repeat case_if; auto.
  - apply holds_eachDep_any; [|done]. intros x e' _. by right.
  - apply holds_eachDep_any; [|done]. intros x e' _. by right.
  - apply holds_eachDep_any; [|done]. intros x e' _. unfold failing. cbn [state]. case_if; auto.
  - by apply settle_failing.
  - apply holds_fold; [|done]. intros a' x Hx%elem_of_unique Ha'.
    destruct (superseded t confirmedAt x) eqn:Hsup; [done|].
    eapply holds_onEntry; [done| |done]. intros ->. by destruct Hno.
Qed.

(** ** The cleanup fence *)

(** A physical worker of an interrupted probe may still be alive. *)
Definition fenced (invalid : bool) (e : CircuitEntry) : Prop :=
  state e = ld_half_open ∧ 0 < ownersSize e ∧ probeToken e = None ∧
  (invalid = true → probeInvalidated e = Some true).

(** The operation does not settle the cleanup of [d]. *)
Definition sparesFence (d : string) (o : op) : Prop :=
  match o with
  | op_restoreParked ds | op_releaseInterrupted ds | op_settle ds _ => d ∉ dep_dependency <$> ds
  | op_restoreSuccessful ds _ _ => d ∉ ds
  | _ => True
  end.

Lemma fenced_blocked b e : fenced b e → blocked e.
Proof.
  intros (Hs & Ho & _). right. split; [done|]. unfold isBusy.
  apply Z.ltb_lt in Ho. by rewrite Ho, orb_true_r.
Qed.

Lemma addOwner_size owner e x :
  startupRecoveryOwners x = addOwner owner e → 0 < ownersSize x.
Proof.
  intros H. unfold ownersSize, addOwner in *. rewrite H. unfold orElse. simpl.
  rewrite msize_mset. destruct (mget owner _) eqn:Hg; [|lia].
  destruct (default [] (startupRecoveryOwners e)); [done|]. unfold msize. simpl. lia.
Qed.

Lemma observeOne_fenced now fs b d d' a :
  holds d (fenced b) a → holds d (fenced b) (observeOne now fs a d').
Proof.
  intros Hh. eapply holds_onEntry; [exact Hh| |done]. intros -> e (Hs & Ho & Ht & Hi).
  apply Z.ltb_lt in Ho as Ho'. rewrite Ho'. by case_match.
Qed.

Lemma exec_fenced now o b d a :
  sparesFence d o → holds d (fenced b) a → holds d (fenced b) (exec now o a).
Proof.
  intros Hsp Hh. destruct o; simpl in *; try (by apply holds_eachDep).
  - apply holds_fold; [|done]. intros a' x _. apply observeOne_fenced.
  - apply holds_evaluate; [|done]. intros e. apply fenced_blocked.
  - destruct probe as [p|]; [|done]. apply holds_fold; [|done]. intros a' x _ Ha'.
    eapply holds_onKnown; [exact Ha'| |done]. intros -> e (Hs & Ho & Ht & Hi).
    unfold ownedBy. by rewrite Ht.
  - destruct probe as [p|]; [|done]. apply holds_fold; [|done]. intros a' x _ Ha'.
    eapply holds_onKnown; [exact Ha'| |done]. intros -> e (Hs & Ho & Ht & Hi).
    unfold ownedBy. by rewrite Ht.
  - apply holds_eachDep_any; [|done]. intros x e (Hs & Ho & Ht & Hi).
    split_and!; [done|by eapply (addOwner_size owner e)|done|].
    intros Hb. cbn [probeInvalidated].
    assert (isInvalidated e = true) as -> by by apply bool_decide_eq_true, Hi.
    by rewrite orb_true_r.
  - apply holds_eachDep_any; [|done]. intros x e (Hs & Ho & Ht & Hi).
    split_and!; [done|by eapply (addOwner_size owner e)|done|done].
  - apply holds_fold; [|done]. intros a' x Hx%elem_of_unique Ha'. case_if; [done|].
    eapply holds_onEntry; [done| |done]. by intros ->.
Qed.

Lemma run_fenced b d a a' :
  runOf (sparesFence d) a a' → holds d (fenced b) a → holds d (fenced b) a'.
Proof. induction 1; [done|]. intros. apply exec_fenced; auto. Qed.

Lemma eachDep_at now d f (Q : CircuitEntry → Prop) ds a :
  d ∈ dep_dependency <$> ds → (∀ x e, Q (f x e)) → holds d Q (eachDep now f ds a).
Proof.
  intros (x & -> & Hx)%list_elem_of_fmap Hf.
  apply list_elem_of_split in Hx as (l1 & l2 & ->). unfold eachDep. rewrite foldl_app. cbn [foldl].
  apply holds_fold.
  - intros a' y _ Ha'. eapply holds_onEntry; [exact Ha'| |done]. auto.
  - eexists. split; [apply mget_mset_eq|]. apply Hf.
Qed.

(** The operations that raise the fence. *)
Definition raisesFence (d : string) (o : op) : Prop :=
  match o with
  | op_restoreInterrupted ds _ | op_retain ds _ => d ∈ dep_dependency <$> ds
  | _ => False
  end.

Lemma raise_fenced now o d a : raisesFence d o → holds d (fenced false) (exec now o a).
Proof.
  destruct o; simpl; try done; intros Hd; apply eachDep_at; try done; intros x e.
  all: split_and!; [done|by eapply (addOwner_size owner e)|done|done].
Qed.

Lemma observe_fenced now ds fs b d a :
  confirms d fs → d ∈ orElse ds [] → holds d (fenced b) a →
  holds d (fenced true) (observe now ds fs a).
Proof.
  intros Hf Hd Hh. destruct (confirmed_found d fs Hf) as [c Hc].
  eapply (holds_fold_at d (fenced b)); [by apply elem_of_unique| | | |exact Hh].
  - intros a' y _. apply observeOne_fenced.
  - intros a' H. eapply holds_onEntry; [exact H| |done]. intros _ e (Hs & Ho & Ht & _).
    apply Z.ltb_lt in Ho as Ho'. by rewrite Ho', Hc.
  - intros a' y _. apply observeOne_fenced.
Qed.

(** While a worker of an interrupted probe may still be alive, no launch that
    needs its dependency is admitted, clean health evidence included; and a
    failure confirmed meanwhile is not forgotten: releasing the fence leaves the
    dependency degraded. *)
Theorem cleanup_fence now1 o d a0 a1 :
  raisesFence d o → runOf (sparesFence d) (exec now1 o a0) a1 →
  (∀ now ds, d ∈ orElse ds [] → ∃ r l, (evaluate now ds a1).2 = refuse r l) ∧
  (∀ now2 now3 ds fs a2 ds', confirms d fs → d ∈ orElse ds [] →
     runOf (sparesFence d) (observe now2 ds fs a1) a2 →
     NoDup (dep_dependency <$> ds') → d ∈ dep_dependency <$> ds' →
     holds d (λ e, state e = ld_degraded) (releaseInterruptedProbe now3 ds' a2)).
Proof.
  intros Ho Hrun. pose proof (run_fenced _ _ _ _ Hrun (raise_fenced now1 o d a0 Ho)) as Hf. split.
  - intros now ds Hds. apply (evaluate_blocked now ds d); [|done].
    destruct Hf as (e & He & Hfe). exists e. split; [done|by eapply fenced_blocked].
  - intros now2 now3 ds fs a2 ds' Hc Hds Hrun2 Hnd Hd.
    apply (observe_fenced now2 ds fs) in Hf; [|done..]. apply (run_fenced _ _ _ _ Hrun2) in Hf.
    apply list_elem_of_fmap in Hd as (x & -> & Hx). apply list_elem_of_split in Hx as (l1 & l2 & ->).
    rewrite fmap_app, fmap_cons in Hnd. apply NoDup_app in Hnd as (_ & Hl1 & Hl2).
    apply NoDup_cons in Hl2 as [Hl2 _].
    unfold releaseInterruptedProbe, eachDep. rewrite foldl_app. cbn [foldl].
    apply holds_eachDep; [done|]. eapply (holds_onEntry _ _ _ _ (fenced true)).
    + apply holds_eachDep; [|done]. intros Hin. destruct (Hl1 _ Hin). by left.
    + intros _ e (_ & _ & _ & Hi). unfold isInvalidated. simpl. by rewrite Hi, bool_decide_true.
    + done.
Qed.

(** ** A service that fails, recovers and fails again *)

Definition at_ (t : Z) (_ : string) : Z := t.
Definition down : list Finding := [mkDepFinding "github" "auth" (Some "token expired")].
Definition needsGithub : option (list string) := Some ["github"].

(** Degraded, then seen clean: half-open. *)
Definition halfOpenSample : admission :=
  observe (at_ 2) needsGithub [] (observe (at_ 1) needsGithub down newAdmission).
Definition sampleProbe : LaunchDependencyProbe := mkProbe "launch-dependency-probe-1" ["github"].
Definition probedSample : admission := (evaluate (at_ 3) needsGithub halfOpenSample).1.

Lemma single_probe_witness :
  let a2 := exec (at_ 4) (op_observe needsGithub []) probedSample in
  ∃ r l, (evaluate (at_ 5) needsGithub a2).2 = refuse r l.
Proof.
  intros a2. apply (single_probe (at_ 3) (at_ 5) needsGithub needsGithub halfOpenSample probedSample
    a2 sampleProbe "github").
  - reflexivity.
  - by left.
  - apply runOf_step; [apply runOf_nil|done].
  - by left.
Defined.

Lemma stale_success_refused_witness :
  holds "github" (λ e, state e = ld_degraded ∧ probeToken e = None)
    (completeProbe (at_ 6) (Some sampleProbe) true (observe (at_ 4) needsGithub down probedSample)).
Proof.
  apply (stale_success_refused (at_ 3) (at_ 4) (at_ 6) needsGithub needsGithub down halfOpenSample
    probedSample probedSample (observe (at_ 4) needsGithub down probedSample) sampleProbe "github").
  - reflexivity.
  - by left.
  - apply runOf_nil.
  - eexists. split; [by left|]. split; [reflexivity|discriminate].
  - by left.
  - apply runOf_nil.
Defined.

Lemma healthy_only_on_evidence_witness :
  ∃ e', mget "github" (entries (exec (at_ 7) (op_observe needsGithub []) halfOpenSample)) = Some e' ∧
        failing e'.
Proof.
  assert (∃ e, mget "github" (entries halfOpenSample) = Some e ∧ state e = ld_half_open)
    as (e & He & Hs) by (eexists; split; reflexivity).
  apply (healthy_only_on_evidence (at_ 7) (op_observe needsGithub []) "github" halfOpenSample e He).
  - by right.
  - exact (λ H, H).
Defined.

Lemma cleanup_fence_witness :
  let dep := mkAdmissionDep "github" ld_half_open None in
  let a1 := exec (at_ 8) (op_retain [dep] "task-1") probedSample in
  ∃ r l, (evaluate (at_ 9) needsGithub a1).2 = refuse r l.
Proof.
  intros dep a1.
  apply (cleanup_fence (at_ 8) (op_retain [dep] "task-1") "github" probedSample a1).
  - by left.
  - apply runOf_nil.
  - by left.
Defined.
End Admission.
