(* ===== verification/ControllerLease.v ===== *)
(** * Remote control leases

    [src/remote/controller-lease.ts]: which remote client may type into a
    session.  [ControllerLeaseManager] keeps one lease record per session, grants
    and revokes leases, degrades them on missed heartbeats and on the loss of
    the relay, and sweeps the stale ones with one timer.

    A method is a state-passing function over [Mgr].  The clock is the sequence
    [clock] of the values [now()] returns, one per reading, and [reads] counts
    the readings; [nextServerRevision] is treated likewise.  A timer is the
    reading it was armed from and its delay; the two callbacks of [setTimer] are
    the operations [fireSweep] and [firePresumedLost]. *)

From S2P Require Import Prelude JsMap.
Local Open Scope Z_scope.

Module Lease.

(** ** Data *)

(** [ControllerLeaseState]: the states a client sees, and ['releasing']. *)
Inductive LeaseState :=
| none | acquiring | held_local | held_remote | held_uncertain
| held_presumed_lost | revoked | releasing.
#[export] Instance LeaseState_eq_dec : EqDecision LeaseState.
Proof. solve_decision. Defined.

Inductive LeaseRevocationReason :=
| owner_override | heartbeat_timeout | node_disconnect | policy_revoke
| session_epoch_bump | released.

Record ControllerLease := mkLease {
  leaseId : string;
  sessionId : string;
  sessionEpoch : string;
  state : LeaseState;
  actorId : option string;
  clientId : option string;
  heartbeatMisses : Z;
  updatedAtMs : Z
}.

Record LeaseChangedPayload := mkPayload {
  lp_sessionId : string;
  lp_sessionEpoch : string;
  lp_leaseId : string;
  lp_previousState : LeaseState;
  lp_newState : LeaseState;
  lp_actorId : option string;
  lp_clientId : option string;
  lp_reason : option LeaseRevocationReason
}.

Record LeaseChangedEvent := mkLeaseEvent {
  le_nodeId : string;
  le_nodeEpoch : string;
  le_serverRevision : Z;
  le_ts : Z;
  le_payload : LeaseChangedPayload
}.

(** A pending [presumedLostTimer]: what its callback has captured. *)
Record PresumedLostTimer := mkTimer {
  tm_lease : ControllerLease;
  tm_reason : LeaseRevocationReason;
  tm_fired : bool
}.

Record SessionLeaseRecord := mkRecord {
  lease : option ControllerLease;
  presumedLostTimer : option PresumedLostTimer
}.

(** [sweepTimer] is the clock value the delay was computed from, and the delay. *)
Record Mgr := mkMgr {
  sessions : jmap string SessionLeaseRecord;
  sweepTimer : option (Z * Z);
  reads : nat;
  revisions : nat;
  published : list LeaseChangedEvent
}.

Definition init : Mgr := mkMgr [] None 0 0 [].

Inductive LeaseError :=
| leaseMissing | leaseRevoked | leaseMismatch | staleSessionEpoch.

Abbreviation LeaseValidationResult := (result LeaseError ControllerLease).

Definition terminalState (st : LeaseState) : bool :=
  match st with none | revoked => true | _ => false end.

Definition isClientVisibleState (st : LeaseState) : bool :=
  negb (bool_decide (st = releasing)).

(** [{ ...lease, state }] and the other assignments to a lease object. *)
Definition setState (st : LeaseState) (l : ControllerLease) : ControllerLease :=
  mkLease (leaseId l) (sessionId l) (sessionEpoch l) st (actorId l) (clientId l)
    (heartbeatMisses l) (updatedAtMs l).
Definition setUpdated (t : Z) (l : ControllerLease) : ControllerLease :=
  mkLease (leaseId l) (sessionId l) (sessionEpoch l) (state l) (actorId l) (clientId l)
    (heartbeatMisses l) t.
Definition setMisses (n : Z) (l : ControllerLease) : ControllerLease :=
  mkLease (leaseId l) (sessionId l) (sessionEpoch l) (state l) (actorId l) (clientId l)
    n (updatedAtMs l).

(** The identity of a lease, which no method changes. *)
Definition ids (l : ControllerLease) := (leaseId l, sessionId l, sessionEpoch l, actorId l, clientId l).

Section manager.
(** The options the manager is built with. *)
Context (nodeId nodeEpoch : string) (heartbeatIntervalMs presumedLostGraceMs : Z).
Context (clock : nat → Z) (nextServerRevision : nat → Z).

Definition presumedLostDelayMs : Z := 2 * heartbeatIntervalMs + presumedLostGraceMs.

(** ** Readings and writes *)

Definition now (m : Mgr) : Z * Mgr :=
  (clock (reads m), mkMgr (sessions m) (sweepTimer m) (S (reads m)) (revisions m) (published m)).

Definition withSessions (ss : jmap string SessionLeaseRecord) (m : Mgr) : Mgr :=
  mkMgr ss (sweepTimer m) (reads m) (revisions m) (published m).

Definition withSweep (t : option (Z * Z)) (m : Mgr) : Mgr :=
  mkMgr (sessions m) t (reads m) (revisions m) (published m).

(** [record]: the record of a session, created empty. *)
Definition record (sid : string) (m : Mgr) : SessionLeaseRecord * Mgr :=
  match mget sid (sessions m) with
  | Some r => (r, m)
  | None => let r := mkRecord None None in (r, withSessions (mset sid r (sessions m)) m)
  end.

(** Assignment to the lease object, or to the timer, of a session's record. *)
Definition setLease (l : ControllerLease) (r : SessionLeaseRecord) : SessionLeaseRecord :=
  mkRecord (Some l) (presumedLostTimer r).
Definition clearTimer (r : SessionLeaseRecord) : SessionLeaseRecord := mkRecord (lease r) None.

Definition putLease (sid : string) (l : ControllerLease) (m : Mgr) : Mgr :=
  withSessions (mupd (setLease l) sid (sessions m)) m.

Definition cancelPresumedLost (sid : string) (m : Mgr) : Mgr :=
  withSessions (mupd clearTimer sid (sessions m)) m.

Definition emit (l : ControllerLease) (previousState newState : LeaseState)
    (reason : option LeaseRevocationReason) (m : Mgr) : Mgr :=
  let payload :=
    mkPayload (sessionId l) (sessionEpoch l) (leaseId l) previousState newState
      (truthyStr (actorId l)) (truthyStr (clientId l)) reason in
  let revision := nextServerRevision (revisions m) in
  let ts := clock (reads m) in
  mkMgr (sessions m) (sweepTimer m) (S (reads m)) (S (revisions m))
    (published m ++ [mkLeaseEvent nodeId nodeEpoch revision ts payload]).

(** ** The sweep timer *)

Definition leaseOf (r : SessionLeaseRecord) : option ControllerLease := lease r.

(** [Math.max(0, Math.min(heartbeatIntervalMs, expiry - now))]. *)
Definition sweepDelayOf (t : Z) (l : ControllerLease) : Z :=
  Z.max 0 (Z.min heartbeatIntervalMs (updatedAtMs l + presumedLostDelayMs - t)).

Definition isHeldRemote (r : SessionLeaseRecord) : bool :=
  match lease r with Some l => bool_decide (state l = held_remote) | None => false end.

Definition nextSweepStep (t : Z) (nextDelayMs : option Z) (r : SessionLeaseRecord) : option Z :=
  match lease r with
  | Some l =>
      if bool_decide (state l = held_remote) then
        let delayMs := sweepDelayOf t l in
        Some (match nextDelayMs with None => delayMs | Some d => Z.min d delayMs end)
      else nextDelayMs
  | None => nextDelayMs
  end.

Definition nextSweepDelayMs (m : Mgr) : option Z * Z * Mgr :=
  let '(t, m) := now m in
  (foldl (nextSweepStep t) None (mvals (sessions m)), t, m).

Definition scheduleSweep (m : Mgr) : Mgr :=
  match sweepTimer m with
  | Some _ => m
  | None =>
      match nextSweepDelayMs m with
      | (None, _, m') => m'
      | (Some delayMs, t, m') => withSweep (Some (t, delayMs)) m'
      end
  end.

(** ** The methods *)

Definition revoke (sid : string) (reason : LeaseRevocationReason) (m : Mgr) : Mgr :=
  match mget sid (sessions m) with
  | None => m
  | Some r =>
      match lease r with
      | None => m
      | Some l =>
          if bool_decide (state l = revoked) then m else
          let previous := if isClientVisibleState (state l) then state l else held_remote in
          let '(t, m) := now m in
          let l' := setUpdated t (setState revoked l) in
          emit l' previous revoked (Some reason) (cancelPresumedLost sid (putLease sid l' m))
      end
  end.

Definition transitionClientVisible (sid : string) (l : ControllerLease) (next : LeaseState)
    (m : Mgr) : Mgr :=
  let previous := if isClientVisibleState (state l) then state l else held_remote in
  let l' := setState next l in
  emit l' previous next None (putLease sid l' m).

Definition previousOf (current : option ControllerLease) : LeaseState :=
  match current with
  | Some c => if isClientVisibleState (state c) then state c else none
  | None => none
  end.

(** [uuid] is the [randomUUID()] the code draws when no lease id is supplied. *)
Definition acquireRemote (sid epoch actor client : string) (id : option string) (uuid : string)
    (m : Mgr) : LeaseValidationResult * Mgr :=
  let '(r, m) := record sid m in
  let fresh (m : Mgr) :=
    let '(t, m) := now m in
    let l := mkLease (orElse id ("lease-" +:+ uuid)) sid epoch held_remote (Some actor)
               (Some client) 0 t in
    let m := scheduleSweep (cancelPresumedLost sid (putLease sid l m)) in
    (Ok l, emit l (previousOf (lease r)) held_remote None m) in
  match lease r with
  | Some current =>
      if terminalState (state current) then fresh m
      else if bool_decide (state current = held_remote)
           && bool_decide (actorId current = Some actor)
           && bool_decide (clientId current = Some client)
           && String.eqb (sessionEpoch current) epoch
      then
        let '(t, m) := now m in
        let l := setMisses 0 (setUpdated t current) in
        (Ok l, scheduleSweep (putLease sid l m))
      else (Err leaseMismatch, m)
  | None => fresh m
  end.

Definition acquireLocal (sid epoch uuid : string) (m : Mgr) : Mgr :=
  let '(r, m) := record sid m in
  let take (current : option ControllerLease) (m : Mgr) :=
    let '(t, m) := now m in
    let l := mkLease ("local-" +:+ uuid) sid epoch held_local None None 0 t in
    emit l (previousOf current) held_local None (putLease sid l m) in
  match lease r with
  | Some current =>
      if bool_decide (state current = held_local) && String.eqb (sessionEpoch current) epoch then
        let '(t, m) := now m in putLease sid (setUpdated t current) m
      else if bool_decide (state current = held_remote) then
        let m := revoke sid owner_override m in
        take (orOpt (mget sid (sessions m) ≫= lease) (Some current)) m
      else take (Some current) m
  | None => take None m
  end.

Definition currentLease (sid : string) (m : Mgr) : option ControllerLease :=
  mget sid (sessions m) ≫= lease.

Definition validateRemoteSubmit (sid epoch actor client id : string) (m : Mgr)
    : LeaseValidationResult * Mgr :=
  match currentLease sid m with
  | None => (Err leaseMissing, m)
  | Some l =>
      if negb (String.eqb (sessionEpoch l) epoch) then (Err staleSessionEpoch, m)
      else if terminalState (state l) then (Err leaseRevoked, m)
      else if bool_decide (state l = held_local) then (Err leaseRevoked, m)
      else if negb (bool_decide (state l = held_remote))
           || negb (String.eqb (leaseId l) id)
           || negb (bool_decide (actorId l = Some actor))
           || negb (bool_decide (clientId l = Some client))
      then (Err leaseMismatch, m)
      else
        let '(t, m) := now m in
        let l' := setUpdated t l in
        (Ok l', scheduleSweep (putLease sid l' m))
  end.

(** The refusals [recordHeartbeatAck] and [recordHeartbeatMiss] share. *)
Definition checkHolder (id actor client : string) (current : option ControllerLease)
    : LeaseValidationResult :=
  match current with
  | None => Err leaseMissing
  | Some l =>
      if negb (String.eqb (leaseId l) id) then Err leaseMissing
      else if negb (bool_decide (actorId l = Some actor))
           || negb (bool_decide (clientId l = Some client)) then Err leaseMismatch
      else if terminalState (state l) then Err leaseRevoked
      else Ok l
  end.

Definition recordHeartbeatAck (sid id actor client : string) (m : Mgr)
    : LeaseValidationResult * Mgr :=
  match checkHolder id actor client (currentLease sid m) with
  | Err e => (Err e, m)
  | Ok l =>
      let '(t, m) := now m in
      let l := setUpdated t (setMisses 0 l) in
      let m := cancelPresumedLost sid (putLease sid l m) in
      let '(l, m) :=
        if bool_decide (state l = held_uncertain) || bool_decide (state l = held_presumed_lost)
        then let l' := setState held_remote l in
             (l', emit l' (state l) held_remote None (putLease sid l' m))
        else (l, m) in
      (Ok l, if bool_decide (state l = held_remote) then scheduleSweep m else m)
  end.

Definition recordHeartbeatMiss (sid id actor client : string) (m : Mgr)
    : LeaseValidationResult * Mgr :=
  match checkHolder id actor client (currentLease sid m) with
  | Err e => (Err e, m)
  | Ok l =>
      let '(t, m) := now m in
      let l := setUpdated t (setMisses (heartbeatMisses l + 1) l) in
      let m := putLease sid l m in
      if heartbeatMisses l =? 1 then
        (Ok (setState held_uncertain l), transitionClientVisible sid l held_uncertain m)
      else (Err leaseRevoked, revoke sid heartbeat_timeout m)
  end.

(** [schedulePresumedLost]: the callback keeps the lease and the reason. *)
Definition schedulePresumedLost (sid : string) (l : ControllerLease)
    (reason : LeaseRevocationReason) (m : Mgr) : Mgr :=
  withSessions
    (mupd (λ r, mkRecord (lease r) (Some (mkTimer l reason false))) sid
       (sessions (cancelPresumedLost sid m)))
    (cancelPresumedLost sid m).

Definition disconnectOne (reason : LeaseRevocationReason) (m : Mgr) (sid : string) : Mgr :=
  match currentLease sid m with
  | Some l =>
      if bool_decide (state l = held_remote) then
        let m := transitionClientVisible sid l held_uncertain m in
        let '(t, m) := now m in
        let l' := setUpdated t (setState revoked l) in
        schedulePresumedLost sid l' reason (putLease sid l' m)
      else m
  | None => m
  end.

Definition handleRelayDisconnect (reason : LeaseRevocationReason) (m : Mgr) : Mgr :=
  foldl (disconnectOne reason) m (mkeys (sessions m)).

Definition reconnectOne (m : Mgr) (sid : string) : Mgr :=
  match currentLease sid m with
  | Some l =>
      if bool_decide (state l = revoked) then
        emit l held_presumed_lost revoked (Some node_disconnect) (cancelPresumedLost sid m)
      else m
  | None => m
  end.

Definition handleRelayReconnect (m : Mgr) : Mgr :=
  foldl reconnectOne m (mkeys (sessions m)).

(** The body of the sweep's loop, for the record stored under [sid]. *)
Definition sweepOne (t : Z) (m : Mgr) (sid : string) : Mgr :=
  match currentLease sid m with
  | Some l =>
      if bool_decide (state l = held_remote) && (presumedLostDelayMs <=? t - updatedAtMs l)
      then revoke (sessionId l) heartbeat_timeout m
      else m
  | None => m
  end.

Definition sweepStaleRemoteLeases (m : Mgr) : Mgr :=
  let '(t, m) := now (withSweep None m) in
  scheduleSweep (foldl (sweepOne t) m (mkeys (sessions m))).

(** The callback of [schedulePresumedLost], when its timer is still pending. *)
Definition firePresumedLost (sid : string) (m : Mgr) : Mgr :=
  match mget sid (sessions m) ≫= presumedLostTimer with
  | Some tm =>
      if tm_fired tm then m else
      emit (tm_lease tm) held_uncertain held_presumed_lost (Some (tm_reason tm))
        (withSessions
          (mupd (λ r, mkRecord (lease r) (Some (mkTimer (tm_lease tm) (tm_reason tm) true))) sid
             (sessions m)) m)
  | None => m
  end.

(** The callback of [scheduleSweep]. *)
Definition fireSweep (m : Mgr) : Mgr :=
  match sweepTimer m with Some _ => sweepStaleRemoteLeases m | None => m end.

Definition dispose (m : Mgr) : Mgr :=
  foldl (λ m sid, cancelPresumedLost sid m) (withSweep None m) (mkeys (sessions m)).

(** ** Runs *)

Inductive op :=
| OpAcquireRemote (sid epoch actor client : string) (id : option string) (uuid : string)
| OpAcquireLocal (sid epoch uuid : string)
| OpSubmit (sid epoch actor client id : string)
| OpAck (sid id actor client : string)
| OpMiss (sid id actor client : string)
| OpDisconnect (reason : LeaseRevocationReason)
| OpReconnect
| OpRevoke (sid : string) (reason : LeaseRevocationReason)
| OpFireSweep
| OpFirePresumedLost (sid : string).

Definition exec (o : op) (m : Mgr) : Mgr :=
  match o with
  | OpAcquireRemote sid epoch actor client id uuid =>
      snd (acquireRemote sid epoch actor client id uuid m)
  | OpAcquireLocal sid epoch uuid => acquireLocal sid epoch uuid m
  | OpSubmit sid epoch actor client id => snd (validateRemoteSubmit sid epoch actor client id m)
  | OpAck sid id actor client => snd (recordHeartbeatAck sid id actor client m)
  | OpMiss sid id actor client => snd (recordHeartbeatMiss sid id actor client m)
  | OpDisconnect reason => handleRelayDisconnect reason m
  | OpReconnect => handleRelayReconnect m
  | OpRevoke sid reason => revoke sid reason m
  | OpFireSweep => fireSweep m
  | OpFirePresumedLost sid => firePresumedLost sid m
  end.

Definition run (ops : list op) (m : Mgr) : Mgr := foldl (λ m o, exec o m) m ops.


(** ** Frame lemmas *)

Lemma currentLease_Some sid m l :
  currentLease sid m = Some l ↔ ∃ r, mget sid (sessions m) = Some r ∧ lease r = Some l.
Proof.
  unfold currentLease. destruct (mget sid (sessions m)) as [r|]; simpl; naive_solver.
Qed.

Lemma currentLease_mupd f sid sid' m m' :
  sessions m' = mupd f sid (sessions m) →
  currentLease sid' m' =
    if decide (sid' = sid) then mget sid (sessions m) ≫= (λ r, lease (f r))
    else currentLease sid' m.
Proof.
  intros Hs. unfold currentLease. rewrite Hs, mget_mupd.
  case_decide; subst; [|done]. by destruct (mget sid (sessions m)).
Qed.

Lemma sessions_scheduleSweep m : sessions (scheduleSweep m) = sessions m.
Proof. unfold scheduleSweep. destruct (sweepTimer m); [done|]. simpl. by case_match. Qed.

Lemma published_scheduleSweep m : published (scheduleSweep m) = published m.
Proof. unfold scheduleSweep. destruct (sweepTimer m); [done|]. simpl. by case_match. Qed.

Lemma record_spec sid m :
  ∃ r, fst (record sid m) = r ∧ mget sid (sessions (snd (record sid m))) = Some r ∧
    sweepTimer (snd (record sid m)) = sweepTimer m ∧ reads (snd (record sid m)) = reads m ∧
    published (snd (record sid m)) = published m ∧
    (∀ sid', currentLease sid' (snd (record sid m)) = currentLease sid' m) ∧
    lease r = currentLease sid m.
Proof.
  unfold record, currentLease. destruct (mget sid (sessions m)) as [r|] eqn:E; simpl.
  - exists r. by rewrite E.
  - exists (mkRecord None None). rewrite mget_mset_eq. split_and!; try done.
    intros sid'. rewrite mget_mset. case_decide; subst; [by rewrite E|done].
Qed.

(** ** The invariant *)

(** The states that are ever stored, and what a lease in each of them holds. *)
Definition leaseOk (sid : string) (l : ControllerLease) : Prop :=
  sessionId l = sid ∧
  match state l with
  | held_remote => heartbeatMisses l = 0 ∧ isSome (actorId l) = true ∧ isSome (clientId l) = true
  | held_uncertain =>
      heartbeatMisses l = 1 ∧ isSome (actorId l) = true ∧ isSome (clientId l) = true
  | held_local => actorId l = None ∧ clientId l = None
  | revoked => True
  | _ => False
  end.

Definition quietState (st : LeaseState) : bool :=
  match st with revoked | held_local => true | _ => false end.

Definition recordOk (sid : string) (r : SessionLeaseRecord) : Prop :=
  (∀ l, lease r = Some l → leaseOk sid l) ∧
  (∀ tm, presumedLostTimer r = Some tm → tm_fired tm = false →
     sessionId (tm_lease tm) = sid ∧ ∃ l, lease r = Some l ∧ quietState (state l) = true).

(** The reading [t] is not before the arming of the sweep timer. *)
Definition notBefore (m : Mgr) (t : Z) : Prop :=
  ∀ t0 d, sweepTimer m = Some (t0, d) → t0 ≤ t.

Definition expiry (l : ControllerLease) : Z := updatedAtMs l + presumedLostDelayMs.

Record inv (m : Mgr) : Prop := {
  inv_wf : mwf (sessions m);
  inv_records sid r : mget sid (sessions m) = Some r → recordOk sid r;
  inv_clock : notBefore m (clock (reads m));
  inv_delay t0 d : sweepTimer m = Some (t0, d) → 0 ≤ d ≤ heartbeatIntervalMs;
  inv_due sid l t0 d :
    currentLease sid m = Some l → state l = held_remote → sweepTimer m = Some (t0, d) →
    t0 + d ≤ Z.max t0 (expiry l)
}.

(** A remote holder is always watched by an armed sweep. *)
Definition watched (m : Mgr) : Prop :=
  ∀ sid l, currentLease sid m = Some l → state l = held_remote → is_Some (sweepTimer m).

(** What a client may observe between two states of the manager: every lease
    that could submit still can, or its loss was published in between. *)
Definition announces (l : ControllerLease) (e : LeaseChangedEvent) : Prop :=
  lp_sessionId (le_payload e) = sessionId l ∧ lp_leaseId (le_payload e) = leaseId l ∧
  lp_previousState (le_payload e) = held_remote ∧
  (lp_newState (le_payload e) = revoked ∨ lp_newState (le_payload e) = held_uncertain).

Definition holds (i : string * string * string * option string * option string)
    (sid : string) (m : Mgr) : Prop :=
  ∃ l, currentLease sid m = Some l ∧ state l = held_remote ∧ ids l = i.

Definition accounts (m m' : Mgr) : Prop :=
  ∃ news, published m' = published m ++ news ∧
    ∀ sid l, currentLease sid m = Some l → sessionId l = sid → state l = held_remote →
      holds (ids l) sid m' ∨ Exists (announces l) news.


Context (clock_mono : ∀ i j, (i ≤ j)%nat → clock i ≤ clock j).
Context (intervals_ok : 0 ≤ heartbeatIntervalMs ∧ 0 ≤ presumedLostGraceMs).

(** ** Preservation by the primitives *)

Lemma notBefore_le m t t' : notBefore m t → t ≤ t' → notBefore m t'.
Proof. intros H Ht t0 d E. specialize (H t0 d E). lia. Qed.

(** Time passing, publication and readings keep the invariant. *)
Lemma inv_same m m' :
  inv m → sessions m' = sessions m → sweepTimer m' = sweepTimer m → (reads m ≤ reads m')%nat →
  inv m'.
Proof.
  intros [H1 H2 H3 H4 H5] Hs Ht Hr.
  assert (Hc : ∀ sid, currentLease sid m' = currentLease sid m)
    by (intros; unfold currentLease; by rewrite Hs).
  constructor.
  - by rewrite Hs.
  - intros sid r. rewrite Hs. apply H2.
  - intros t0 d. rewrite Ht. intros E. specialize (H3 t0 d E).
    pose proof (clock_mono _ _ Hr). lia.
  - intros t0 d. rewrite Ht. apply H4.
  - intros sid l t0 d. rewrite Hc, Ht. apply H5.
Qed.

(** One record changes. *)
Lemma inv_upd m m' f sid :
  inv m → sessions m' = mupd f sid (sessions m) → sweepTimer m' = sweepTimer m →
  (reads m ≤ reads m')%nat →
  (∀ r, mget sid (sessions m) = Some r → recordOk sid r →
     recordOk sid (f r) ∧
     ∀ l, lease (f r) = Some l → state l = held_remote →
       notBefore m (updatedAtMs l) ∨
       ∃ l0, lease r = Some l0 ∧ state l0 = held_remote ∧ updatedAtMs l0 ≤ updatedAtMs l) →
  inv m'.
Proof.
  intros Hinv Hs Ht Hr Hf. pose proof Hinv as [H1 H2 H3 H4 H5]. constructor.
  - rewrite Hs. unfold mwf. by rewrite mkeys_mupd.
  - intros sid' r. rewrite Hs, mget_mupd. case_decide as Hd; [subst|apply H2].
    destruct (mget sid (sessions m)) as [r0|] eqn:E; [|done]. intros [= <-].
    apply Hf; [done|by apply H2].
  - intros t0 d. rewrite Ht. intros E. specialize (H3 t0 d E).
    pose proof (clock_mono _ _ Hr). lia.
  - intros t0 d. rewrite Ht. apply H4.
  - intros sid' l t0 d. rewrite (currentLease_mupd f sid sid' m m' Hs), Ht.
    case_decide as Hd; [subst|apply H5].
    destruct (mget sid (sessions m)) as [r0|] eqn:E; [|done]. simpl. intros Hl Hh E'.
    destruct (Hf r0 eq_refl (H2 _ _ E)) as [_ Hnew].
    destruct (Hnew l Hl Hh) as [Hnb | (l0 & Hl0 & Hh0 & Hle)].
    + specialize (Hnb _ _ E'). specialize (H4 _ _ E').
      unfold expiry, presumedLostDelayMs. lia.
    + assert (Hc : currentLease sid m = Some l0) by (apply currentLease_Some; eauto).
      specialize (H5 _ _ _ _ Hc Hh0 E'). unfold expiry in *. lia.
Qed.

Lemma inv_record_create sid m : inv m → inv (snd (record sid m)).
Proof.
  intros Hinv. destruct Hinv as [H1 H2 H3 H4 H5].
  destruct (record_spec sid m) as (r & Hr & Hg & Ht & Hrd & _ & Hc & Hl).
  constructor.
  - unfold record. case_match; [done|]. simpl. by apply mwf_mset.
  - intros sid' r'. unfold record. destruct (mget sid (sessions m)) eqn:E; simpl; [apply H2|].
    rewrite mget_mset. case_decide; subst; [|apply H2]. intros [= <-]. by split.
  - unfold notBefore. by rewrite Ht, Hrd.
  - by rewrite Ht.
  - intros sid' l t0 d. rewrite Hc, Ht. apply H5.
Qed.

(** *** The sweep timer *)

Lemma foldl_nextSweep t rs acc :
  match foldl (nextSweepStep t) acc rs with
  | None => acc = None ∧ ∀ r, r ∈ rs → isHeldRemote r = false
  | Some d =>
      (∀ d0, acc = Some d0 → d ≤ d0) ∧
      (∀ r l, r ∈ rs → lease r = Some l → state l = held_remote → d ≤ sweepDelayOf t l) ∧
      (acc = Some d ∨ ∃ r l, r ∈ rs ∧ lease r = Some l ∧ state l = held_remote ∧
         d = sweepDelayOf t l)
  end.
Proof.
  revert acc. induction rs as [|r rs IH]; intros acc; cbn [foldl].
  - destruct acc as [a|]; [|split; [done|intros ? ?%elem_of_nil; done]].
    split_and!; [by intros ? [= <-]|intros ? ? ?%elem_of_nil; done|by left].
  - specialize (IH (nextSweepStep t acc r)).
    assert (Hstep : (isHeldRemote r = false ∧ nextSweepStep t acc r = acc) ∨
      ∃ l, lease r = Some l ∧ state l = held_remote ∧
        nextSweepStep t acc r =
          Some (match acc with None => sweepDelayOf t l | Some d => Z.min d (sweepDelayOf t l) end)).
    { unfold isHeldRemote, nextSweepStep. destruct (lease r) as [l|]; [|by left].
      destruct (bool_decide_reflect (state l = held_remote)); [right; by exists l|by left]. }
    destruct Hstep as [[Hn Hs] | (l & Hl & Hh & Hs)]; rewrite Hs in *.
    + destruct (foldl _ acc rs).
      * destruct IH as (Ha & Hall & Hex). split_and!; [done| |].
        -- intros r' l' [->|Hin]%elem_of_cons Hl' Hh'; [|by eauto].
           unfold isHeldRemote in Hn. rewrite Hl' in Hn. zbool. done.
        -- destruct Hex as [?|(r' & l' & ? & ?)]; [by left|right; exists r', l'; set_solver].
      * destruct IH as [? Hall]. split; [done|]. intros r' [->|Hin]%elem_of_cons; auto.
    + destruct (foldl _ _ rs) as [d|] eqn:Ef; [|by destruct IH].
      destruct IH as (Ha & Hall & Hex). specialize (Ha _ eq_refl). split_and!.
      * intros d0 ->. lia.
      * intros r' l' [->|Hin]%elem_of_cons; [|by eauto].
        rewrite Hl. intros [= <-] _. destruct acc; lia.
      * destruct Hex as [[= Hd]|(r' & l' & ? & ?)]; [|right; exists r', l'; set_solver].
        destruct acc as [a|]; [|right; exists r, l; set_solver].
        destruct (Z.min_spec a (sweepDelayOf t l)) as [[? E]|[? E]]; rewrite E in Hd;
          [left; congruence|right; exists r, l; set_solver].
Qed.

Lemma currentLease_mvals sid l m :
  currentLease sid m = Some l → ∃ r, r ∈ mvals (sessions m) ∧ lease r = Some l.
Proof.
  intros (r & Hr & Hl)%currentLease_Some. exists r. split; [|done].
  apply mget_elem_of in Hr. unfold mvals. apply list_elem_of_fmap. by exists (sid, r).
Qed.

Lemma scheduleSweep_watched m : watched (scheduleSweep m).
Proof.
  intros sid l. unfold currentLease. rewrite sessions_scheduleSweep.
  intros Hc Hh. unfold scheduleSweep. destruct (sweepTimer m) eqn:E; [by rewrite E|].
  simpl. pose proof (foldl_nextSweep (clock (reads m)) (mvals (sessions m)) None) as Hf.
  destruct (foldl _ None _); [done|]. destruct Hf as [_ Hall].
  destruct (currentLease_mvals _ _ _ Hc) as (r & Hr & Hl).
  specialize (Hall r Hr). unfold isHeldRemote in Hall. rewrite Hl in Hall. zbool. done.
Qed.

Lemma scheduleSweep_inv m : inv m → inv (scheduleSweep m).
Proof.
  intros Hinv. unfold scheduleSweep. destruct (sweepTimer m) eqn:E; [done|]. simpl.
  pose proof (foldl_nextSweep (clock (reads m)) (mvals (sessions m)) None) as Hf.
  destruct (foldl _ None _) as [d|] eqn:Ef.
  2:{ eapply inv_same; [done|done|by rewrite E|simpl; lia]. }
  destruct Hf as (_ & Hall & Hex). destruct Hinv as [H1 H2 H3 H4 H5].
  pose proof (clock_mono (reads m) (S (reads m)) ltac:(lia)) as Hle.
  constructor; simpl; [done|done| | |].
  - intros t0 d0 [= <- <-]. exact Hle.
  - intros t0 d0 [= <- <-]. destruct Hex as [?|(r & l & _ & _ & _ & ->)]; [done|].
    unfold sweepDelayOf. lia.
  - intros sid l t0 d0 Hc Hh [= <- <-].
    destruct (currentLease_mvals _ _ _ Hc) as (r & Hr & Hl).
    specialize (Hall r l Hr Hl Hh). unfold sweepDelayOf, expiry in *. lia.
Qed.

(** ** Steps *)

Lemma accounts_refl m : accounts m m.
Proof.
  exists []. rewrite app_nil_r. split; [done|]. intros sid l Hc _ Hh. left. by exists l.
Qed.

Lemma accounts_trans m1 m2 m3 : accounts m1 m2 → accounts m2 m3 → accounts m1 m3.
Proof.
  intros (n1 & P1 & A1) (n2 & P2 & A2). exists (n1 ++ n2).
  split; [by rewrite P2, P1, app_assoc|]. intros sid l Hc Hid Hh.
  destruct (A1 sid l Hc Hid Hh) as [(l' & Hc' & Hh' & Hi)|Ha].
  - assert (Hsid : sessionId l' = sid) by (unfold ids in Hi; simplify_eq; congruence).
    destruct (A2 sid l' Hc' Hsid Hh') as [Hk|Ha2]; [left; by rewrite <- Hi|right].
    apply Exists_app. right. eapply Exists_impl; [exact Ha2|].
    unfold announces, ids in *. simplify_eq. intros e. intuition congruence.
  - right. apply Exists_app. by left.
Qed.

(** A step that keeps the invariant and accounts for every lost lease. *)
Definition good (m m' : Mgr) : Prop := inv m → inv m' ∧ accounts m m'.

Lemma good_refl m : good m m.
Proof. intros H. split; [done|apply accounts_refl]. Qed.

Lemma good_trans m1 m2 m3 : good m1 m2 → good m2 m3 → good m1 m3.
Proof.
  intros H1 H2 Hi. destruct (H1 Hi) as [Hi2 A1]. destruct (H2 Hi2) as [Hi3 A2].
  split; [done|by eapply accounts_trans].
Qed.

Lemma good_foldl {A} (f : Mgr → A → Mgr) (xs : list A) m :
  (∀ m x, good m (f m x)) → good m (foldl f m xs).
Proof.
  intros Hf. revert m. induction xs as [|x xs IH]; intros m; simpl; [apply good_refl|].
  eapply good_trans; [apply Hf|apply IH].
Qed.

Lemma good_record sid m : good m (snd (record sid m)).
Proof.
  intros Hi. split; [by apply inv_record_create|].
  destruct (record_spec sid m) as (r & _ & _ & _ & _ & Hp & Hc & _).
  exists []. rewrite app_nil_r. split; [done|]. intros sid' l Hl _ Hh. left.
  exists l. by rewrite Hc.
Qed.

Lemma good_scheduleSweep m : good m (scheduleSweep m).
Proof.
  intros Hi. split; [by apply scheduleSweep_inv|].
  exists []. rewrite app_nil_r. split; [apply published_scheduleSweep|].
  intros sid l Hl _ Hh. left. exists l. split; [|done].
  unfold currentLease in *. by rewrite sessions_scheduleSweep.
Qed.

(** Only the clock, the revisions and the log move. *)
Lemma good_same m m' news :
  sessions m' = sessions m → sweepTimer m' = sweepTimer m → (reads m ≤ reads m')%nat →
  published m' = published m ++ news → good m m'.
Proof.
  intros Hs Ht Hr Hp Hi. split; [by eapply inv_same|]. exists news. split; [done|].
  intros sid l Hl _ Hh. left. exists l. split; [|done]. unfold currentLease in *. by rewrite Hs.
Qed.

(** One record changes. *)
Lemma good_upd m m' f sid r news :
  mget sid (sessions m) = Some r →
  sessions m' = mupd f sid (sessions m) → sweepTimer m' = sweepTimer m →
  (reads m ≤ reads m')%nat → published m' = published m ++ news →
  (recordOk sid r → recordOk sid (f r)) →
  (∀ l, lease (f r) = Some l → state l = held_remote →
     updatedAtMs l = clock (reads m) ∨ lease r = Some l) →
  (∀ l, lease r = Some l → sessionId l = sid → state l = held_remote →
     (∃ l', lease (f r) = Some l' ∧ state l' = held_remote ∧ ids l' = ids l) ∨
     Exists (announces l) news) →
  good m m'.
Proof.
  intros Hg Hs Ht Hr Hp Hok Hup Hacc Hi. split.
  - eapply inv_upd; [done..|]. intros r' Hr' Ho. rewrite Hg in Hr'. simplify_eq.
    split; [by apply Hok|]. intros l Hl Hh. destruct (Hup l Hl Hh) as [->|Hl0].
    + left. apply inv_clock, Hi.
    + right. exists l. by split_and!.
  - exists news. split; [done|]. intros sid' l Hc Hid Hh.
    unfold holds. rewrite (currentLease_mupd f sid sid' m m' Hs). case_decide as Hd; subst.
    + rewrite Hg. simpl. apply currentLease_Some in Hc as (r' & Hr' & Hl).
      rewrite Hg in Hr'. simplify_eq. destruct (Hacc l Hl eq_refl Hh); [by left|by right].
    + left. by exists l.
Qed.

(** The sweep stays armed where no session gains a remote holder. *)
Lemma watched_upd m m' f sid :
  watched m → sessions m' = mupd f sid (sessions m) → sweepTimer m' = sweepTimer m →
  (∀ r l, mget sid (sessions m) = Some r → lease (f r) = Some l → state l = held_remote →
     isHeldRemote r = true) →
  watched m'.
Proof.
  intros Hw Hs Ht Hn sid' l. rewrite (currentLease_mupd f sid sid' m m' Hs), Ht.
  case_decide; subst; [|apply Hw]. destruct (mget sid (sessions m)) as [r|] eqn:E; [|done].
  simpl. intros Hl Hh. specialize (Hn r l eq_refl Hl Hh). unfold isHeldRemote in Hn.
  destruct (lease r) as [l0|] eqn:El; [|done]. zbool.
  apply (Hw sid l0); [apply currentLease_Some; eauto|done].
Qed.

Lemma watched_same m m' :
  watched m → sessions m' = sessions m → sweepTimer m' = sweepTimer m → watched m'.
Proof. unfold watched, currentLease. intros Hw -> ->. exact Hw. Qed.

Lemma announces_now l e :
  lp_sessionId (le_payload e) = sessionId l → lp_leaseId (le_payload e) = leaseId l →
  lp_previousState (le_payload e) = held_remote →
  lp_newState (le_payload e) = revoked ∨ lp_newState (le_payload e) = held_uncertain →
  Exists (announces l) [e].
Proof. intros. constructor. by split_and!. Qed.

(** ** The methods preserve the invariant and account for the holders *)

Definition revokedAt (t : Z) (l : ControllerLease) : ControllerLease := setUpdated t (setState revoked l).

(** What [revoke] does to the sessions. *)
Lemma revoke_cases sid reason m :
  (revoke sid reason m = m ∧ (∀ l, currentLease sid m = Some l → state l = revoked)) ∨
  ∃ r l, mget sid (sessions m) = Some r ∧ lease r = Some l ∧ state l ≠ revoked ∧
    let m' := revoke sid reason m in
    sessions m' =
      mupd (λ v, clearTimer (setLease (revokedAt (clock (reads m)) l) v)) sid (sessions m) ∧
    sweepTimer m' = sweepTimer m ∧ (reads m ≤ reads m')%nat ∧
    ∃ e, published m' = published m ++ [e] ∧
      lp_sessionId (le_payload e) = sessionId l ∧ lp_leaseId (le_payload e) = leaseId l ∧
      lp_previousState (le_payload e) =
        (if isClientVisibleState (state l) then state l else held_remote) ∧
      lp_newState (le_payload e) = revoked ∧ lp_reason (le_payload e) = Some reason.
Proof.
  unfold revoke, currentLease. destruct (mget sid (sessions m)) as [r|] eqn:E; simpl; [|by left].
  destruct (lease r) as [l|] eqn:El; [|by left].
  destruct (bool_decide_reflect (state l = revoked)); [left; naive_solver|].
  right. exists r, l. split_and!; [done..| |done|simpl; lia|].
  - simpl. by rewrite mupd_mupd.
  - eexists. by split_and!.
Qed.

Lemma revokedAt_ok sid t l r :
  sessionId l = sid → recordOk sid (clearTimer (setLease (revokedAt t l) r)).
Proof. intros <-. split; simpl; [intros ? [= <-]; by split|done]. Qed.

Lemma recordOk_session sid r l : recordOk sid r → lease r = Some l → sessionId l = sid.
Proof. intros [Hl _] H. apply (Hl _ H). Qed.

Lemma revoke_good sid reason m : good m (revoke sid reason m).
Proof.
  destruct (revoke_cases sid reason m) as [[-> _]|(r & l & Hr & Hl & Hne & H)];
    [apply good_refl|].
  destruct H as (Hs & Ht & Hrd & e & Hp & H1 & H2 & H3 & H4 & _).
  eapply good_upd; [exact Hr|exact Hs|exact Ht|exact Hrd|exact Hp| | |].
  - intros Ho. apply revokedAt_ok. by eapply recordOk_session.
  - intros l'. simpl. intros [= <-]. done.
  - intros l' Hl'. rewrite Hl in Hl'. injection Hl' as <-. intros _ Hh. right.
    apply announces_now; [done|done| |by left]. rewrite H3, Hh. done.
Qed.

Lemma revoke_watched sid reason m : watched m → watched (revoke sid reason m).
Proof.
  intros Hw. destruct (revoke_cases sid reason m) as [[-> _]|(r & l & Hr & Hl & Hne & H)]; [done|].
  destruct H as (Hs & Ht & _). eapply watched_upd; [done|exact Hs|exact Ht|].
  intros r' l' _. simpl. intros [= <-]. done.
Qed.

(** The state of a fresh remote lease. *)
Lemma fresh_ok sid id epoch actor client t r :
  recordOk sid (clearTimer (setLease (mkLease id sid epoch held_remote (Some actor) (Some client) 0 t) r)).
Proof. split; simpl; [intros ? [= <-]; by split|done]. Qed.

Lemma quiet_timer sid r l :
  recordOk sid r → lease r = Some l → quietState (state l) = false →
  ∀ tm, presumedLostTimer r = Some tm → tm_fired tm = true.
Proof.
  intros [_ Ht] Hl Hq tm Htm. destruct (tm_fired tm) eqn:E; [done|].
  destruct (Ht tm Htm E) as (_ & l0 & Hl0 & Hq0). congruence.
Qed.

(** Replacing a lease that is not quiet: no pending timer can become wrong. *)
Lemma setLease_ok sid r l l' :
  recordOk sid r → lease r = Some l → quietState (state l) = false → leaseOk sid l' →
  recordOk sid (setLease l' r).
Proof.
  intros Ho Hl Hq Hl'. pose proof (quiet_timer _ _ _ Ho Hl Hq) as Hf.
  split; simpl; [by intros ? [= <-]|]. intros tm Htm E. rewrite (Hf tm Htm) in E. done.
Qed.

(** A grant to [actor] over a lease that is not held: both branches of
    [acquireRemote]. *)
Lemma acquireRemote_good sid epoch actor client id uuid m :
  good m (snd (acquireRemote sid epoch actor client id uuid m)).
Proof.
  unfold acquireRemote. destruct (record_spec sid m) as (r & Hr & Hg & _).
  destruct (record sid m) as [r' m1] eqn:Erec. simpl in Hr. subst r'.
  eapply (good_trans _ m1); [change m1 with (snd (r, m1)); rewrite <- Erec; apply good_record|].
  simpl in Hg. clear Erec m.
  assert (Hfresh : ∀ l0, (∀ l, lease r = Some l → state l ≠ held_remote) →
    good m1 (emit (mkLease l0 sid epoch held_remote (Some actor) (Some client) 0 (clock (reads m1)))
      (previousOf (lease r)) held_remote None
      (scheduleSweep (cancelPresumedLost sid (putLease sid
         (mkLease l0 sid epoch held_remote (Some actor) (Some client) 0 (clock (reads m1)))
         (snd (now m1))))))).
  { intros l0 Hnot. set (l := mkLease _ _ _ _ _ _ _ _).
    eapply (good_trans _ (scheduleSweep (cancelPresumedLost sid (putLease sid l (snd (now m1)))))).
    - eapply good_trans; [|apply good_scheduleSweep].
      eapply (good_upd _ _ (λ v, clearTimer (setLease l v)) sid r []);
        [done|simpl; by rewrite mupd_mupd|done|simpl; lia|simpl; by rewrite app_nil_r| | |].
      + intros _. apply fresh_ok.
      + intros l'. simpl. intros [= <-]. by left.
      + intros l' Hl' _ Hh. by destruct (Hnot l' Hl').
    - eapply (good_same _ _ [_]); [done|done|simpl; lia|done]. }
  destruct (lease r) as [current|] eqn:El.
  - destruct (terminalState (state current)) eqn:Et; simpl.
    + apply (Hfresh (orElse id _)). intros l [= <-]. by destruct (state current).
    + destruct (bool_decide (state current = held_remote)) eqn:E1; simpl; [|apply good_refl].
      destruct (_ && _) eqn:E2; simpl; [|apply good_refl]. zbool.
      eapply good_trans; [|apply good_scheduleSweep].
      set (l := setMisses 0 (setUpdated (clock (reads m1)) current)).
      eapply (good_upd _ _ (setLease l) sid r []);
        [done|done|done|simpl; lia|simpl; by rewrite app_nil_r| | |].
      * intros Ho. apply (setLease_ok sid r current l Ho El); [by rewrite E1|].
        destruct Ho as [Hlo _]. specialize (Hlo _ El). unfold leaseOk in *. simpl.
        rewrite E1 in *. naive_solver.
      * intros l'. simpl. intros [= <-]. by left.
      * intros l' Hl' _ Hh. rewrite El in Hl'. injection Hl' as <-. left. by exists l.
  - simpl. apply (Hfresh (orElse id _)). done.
Qed.

Lemma acquireRemote_watched sid epoch actor client id uuid m :
  watched m → watched (snd (acquireRemote sid epoch actor client id uuid m)).
Proof.
  intros Hw. unfold acquireRemote. destruct (record_spec sid m) as (r & Hr & Hg & Ht & _ & _ & Hc & _).
  destruct (record sid m) as [r' m1]. simpl in *. subst r'.
  assert (Hw1 : watched m1) by (intros sid' l; rewrite Hc, Ht; apply Hw).
  assert (Hafter : ∀ m2 l a b c, watched (emit l a b c (scheduleSweep m2))).
  { intros. eapply watched_same; [apply scheduleSweep_watched|done|done]. }
  repeat case_match; simplify_eq/=; auto using scheduleSweep_watched.
Qed.

(** [acquireLocal] after its record exists and no remote holds the lease. *)
Lemma local_take_good sid epoch uuid r previous m :
  mget sid (sessions m) = Some r → (∀ l, lease r = Some l → state l ≠ held_remote) →
  let l := mkLease ("local-" +:+ uuid) sid epoch held_local None None 0 (clock (reads m)) in
  good m (emit l previous held_local None (putLease sid l (snd (now m)))).
Proof.
  intros Hg Hnot l. eapply (good_upd _ _ (setLease l) sid r [_]);
    [done|done|done|simpl; lia|done| | |].
  - intros [Ho Ht]. split; simpl; [by intros ? [= <-]|].
    intros tm Htm Hf. destruct (Ht tm Htm Hf) as [? _]. split; [done|]. by exists l.
  - intros l'. simpl. intros [= <-]. done.
  - intros l' Hl' _ Hh. by destruct (Hnot l' Hl').
Qed.

Lemma acquireLocal_good sid epoch uuid m : good m (acquireLocal sid epoch uuid m).
Proof.
  unfold acquireLocal. destruct (record_spec sid m) as (r & Hr & Hg & _).
  destruct (record sid m) as [r' m1] eqn:Erec. simpl in Hr. subst r'.
  eapply (good_trans _ m1); [change m1 with (snd (r, m1)); rewrite <- Erec; apply good_record|].
  simpl in Hg. clear Erec m. destruct (lease r) as [current|] eqn:El.
  2:{ apply (local_take_good sid epoch uuid r none); [done|]. by rewrite El. }
  destruct (_ && _) eqn:E1; zbool.
  { simpl. eapply (good_upd _ _ (setLease _) sid r []);
      [done|done|done|simpl; lia|simpl; by rewrite app_nil_r| | |].
    - intros [Ho Ht]. split; simpl.
      + intros ? [= <-]. specialize (Ho _ El). unfold leaseOk in *. simpl. naive_solver.
      + intros tm Htm Hf. destruct (Ht tm Htm Hf) as [? _]. split; [done|].
        eexists. split; [done|]. simpl. by rewrite H.
    - intros l'. simpl. intros [= <-]. simpl. by left.
    - intros l' Hl' _ Hh. congruence. }
  destruct (bool_decide_reflect (state current = held_remote)) as [Eh|Hne].
  - eapply good_trans; [apply (revoke_good sid owner_override)|].
    destruct (revoke_cases sid owner_override m1) as [[_ Hall]|(r0 & l0 & Hr0 & Hl0 & _ & Hs & _)].
    { assert (currentLease sid m1 = Some current) as Hc by (apply currentLease_Some; eauto).
      specialize (Hall _ Hc). congruence. }
    eapply local_take_good.
    + rewrite Hs, mget_mupd, decide_True, Hr0 by done. done.
    + simpl. intros l [= <-]. done.
  - eapply local_take_good; [done|]. rewrite El. by intros l [= <-].
Qed.

Lemma acquireLocal_watched sid epoch uuid m :
  watched m → watched (acquireLocal sid epoch uuid m).
Proof.
  intros Hw. unfold acquireLocal.
  destruct (record_spec sid m) as (r & Hr & Hg & Ht & _ & _ & Hc & _).
  destruct (record sid m) as [r' m1]. simpl in *. subst r'.
  assert (Hw1 : watched m1) by (intros sid' l; rewrite Hc, Ht; apply Hw).
  assert (Htake : ∀ m2 p (l : ControllerLease), watched m2 → state l = held_local →
    watched (emit l p held_local None (putLease sid l (snd (now m2))))).
  { intros m2 p l Hw2 Hl. eapply (watched_upd m2 _ (setLease l) sid); [done|done|done|].
    intros ? ? _. simpl. intros [= <-]. congruence. }
  destruct (lease r) as [current|] eqn:El; [|by apply Htake].
  destruct (_ && _) eqn:E1; zbool.
  - eapply (watched_upd m1 _ (setLease _) sid); [done|done|done|].
    intros ? ? _. simpl. intros [= <-]. simpl. congruence.
  - destruct (bool_decide (state current = held_remote)); apply Htake; auto using revoke_watched.
Qed.

(** A guarded update of a held lease: [validateRemoteSubmit], a refresh. *)
Lemma refresh_good sid r l m :
  mget sid (sessions m) = Some r → lease r = Some l → state l = held_remote →
  good m (putLease sid (setUpdated (clock (reads m)) l) (snd (now m))).
Proof.
  intros Hg El Eh. eapply (good_upd _ _ (setLease _) sid r []);
    [done|done|done|simpl; lia|simpl; by rewrite app_nil_r| | |].
  - intros Ho. apply (setLease_ok sid r l _ Ho El); [by rewrite Eh|].
    destruct Ho as [Hlo _]. specialize (Hlo _ El). unfold leaseOk in *. simpl.
    rewrite Eh in *. naive_solver.
  - intros l'. simpl. intros [= <-]. by left.
  - intros l' Hl' _ Hh. rewrite El in Hl'. injection Hl' as <-. left. by eexists.
Qed.

(** The result of [validateRemoteSubmit]. *)
Lemma validateRemoteSubmit_spec sid epoch actor client id m :
  (∃ e, validateRemoteSubmit sid epoch actor client id m = (Err e, m)) ∨
  ∃ r l, mget sid (sessions m) = Some r ∧ lease r = Some l ∧ state l = held_remote ∧
    leaseId l = id ∧ sessionEpoch l = epoch ∧ actorId l = Some actor ∧ clientId l = Some client ∧
    let l' := setUpdated (clock (reads m)) l in
    validateRemoteSubmit sid epoch actor client id m =
      (Ok l', scheduleSweep (putLease sid l' (snd (now m)))).
Proof.
  unfold validateRemoteSubmit. destruct (currentLease sid m) as [l|] eqn:Ec; [|eauto].
  apply currentLease_Some in Ec as (r & Hr & Hl).
  destruct (negb _) eqn:E1; [eauto|]. destruct (terminalState _) eqn:E2; [eauto|].
  destruct (bool_decide (state l = held_local)) eqn:E3; [eauto|].
  destruct (negb (bool_decide (state l = held_remote)) || _ || _ || _) eqn:E4; [eauto|].
  right. exists r, l. zbool. by split_and!.
Qed.

Lemma validateRemoteSubmit_accept sid epoch actor client id m l :
  currentLease sid m = Some l → state l = held_remote → leaseId l = id → sessionEpoch l = epoch →
  actorId l = Some actor → clientId l = Some client →
  fst (validateRemoteSubmit sid epoch actor client id m) = Ok (setUpdated (clock (reads m)) l).
Proof.
  intros Hc Hh <- <- Ha Hcl. unfold validateRemoteSubmit. rewrite Hc, Hh, Ha, Hcl.
  rewrite !String.eqb_refl. simpl.
  rewrite (bool_decide_true (Some actor = Some actor)), (bool_decide_true (Some client = Some client))
    by done. done.
Qed.

Lemma validateRemoteSubmit_good sid epoch actor client id m :
  good m (snd (validateRemoteSubmit sid epoch actor client id m)).
Proof.
  destruct (validateRemoteSubmit_spec sid epoch actor client id m)
    as [[e ->]|(r & l & Hg & El & Eh & _ & _ & _ & _ & ->)]; [apply good_refl|].
  eapply good_trans; [|apply good_scheduleSweep]. by eapply refresh_good.
Qed.

Lemma validateRemoteSubmit_watched sid epoch actor client id m :
  watched m → watched (snd (validateRemoteSubmit sid epoch actor client id m)).
Proof.
  intros Hw. destruct (validateRemoteSubmit_spec sid epoch actor client id m)
    as [[e ->]|(r & l & _ & _ & _ & _ & _ & _ & _ & ->)]; [done|apply scheduleSweep_watched].
Qed.

Lemma checkHolder_ok id actor client sid m l :
  inv m → checkHolder id actor client (currentLease sid m) = Ok l →
  ∃ r, mget sid (sessions m) = Some r ∧ lease r = Some l ∧ leaseId l = id ∧
    actorId l = Some actor ∧ clientId l = Some client ∧ sessionId l = sid ∧
    ((state l = held_remote ∧ heartbeatMisses l = 0) ∨
     (state l = held_uncertain ∧ heartbeatMisses l = 1)).
Proof.
  intros Hi. destruct (currentLease sid m) as [l0|] eqn:Ec; simpl; [|done].
  apply currentLease_Some in Ec as (r & Hr & Hl).
  destruct (negb (String.eqb _ _)) eqn:E1; [done|]. destruct (_ || _) eqn:E2; [done|].
  destruct (terminalState _) eqn:E3; [done|]. intros [= <-]. zbool.
  destruct (inv_records _ Hi _ _ Hr) as [Ho _]. specialize (Ho _ Hl).
  exists r. unfold leaseOk in Ho. destruct (state l0) eqn:Es; naive_solver.
Qed.

Lemma recordHeartbeatAck_spec sid id actor client m :
  inv m →
  (∃ e, recordHeartbeatAck sid id actor client m = (Err e, m)) ∨
  ∃ r l m2, mget sid (sessions m) = Some r ∧ lease r = Some l ∧ leaseId l = id ∧
    actorId l = Some actor ∧ clientId l = Some client ∧
    (state l = held_remote ∨ state l = held_uncertain) ∧
    let l' := setState held_remote (setUpdated (clock (reads m)) (setMisses 0 l)) in
    recordHeartbeatAck sid id actor client m = (Ok l', scheduleSweep m2) ∧
    sessions m2 = mupd (λ v, clearTimer (setLease l' v)) sid (sessions m) ∧
    sweepTimer m2 = sweepTimer m ∧ (reads m ≤ reads m2)%nat ∧
    ∃ news, published m2 = published m ++ news.
Proof.
  intros Hi. unfold recordHeartbeatAck.
  destruct (checkHolder _ _ _ _) as [l|e] eqn:Ec; [right|eauto].
  destruct (checkHolder_ok _ _ _ _ _ _ Hi Ec) as (r & Hr & Hl & Hid & Ha & Hc & _ & Hst).
  destruct l as [i s ep st a c h u]; simpl in *. exists r. eexists. subst.
  destruct Hst as [[-> ->]|[-> ->]]; simpl; eexists; split_and!;
    try done; try (by left); try (by right); try (simpl; lia).
  - simpl. by rewrite mupd_mupd.
  - exists []. simpl. by rewrite app_nil_r.
  - simpl. rewrite !mupd_mupd. done.
  - simpl. by eexists.
Qed.

Lemma recordHeartbeatAck_good sid id actor client m :
  good m (snd (recordHeartbeatAck sid id actor client m)).
Proof.
  intros Hi. destruct (recordHeartbeatAck_spec sid id actor client m Hi)
    as [[e ->]|(r & l & m2 & Hr & Hl & _ & Ha & Hc & Hst & -> & Hs & Ht & Hrd & news & Hp)];
    [by apply good_refl|].
  revert Hi. change (good m (scheduleSweep m2)).
  eapply good_trans; [|apply good_scheduleSweep].
  eapply (good_upd _ _ _ sid r news); [done..| | |].
  - intros [Ho _]. split; simpl; [|done]. intros ? [= <-]. specialize (Ho _ Hl).
    unfold leaseOk in *. simpl. rewrite Ha, Hc. naive_solver.
  - intros l'. simpl. intros [= <-]. by left.
  - intros l' Hl' _ Hh. rewrite Hl in Hl'. injection Hl' as <-. left. by eexists.
Qed.

Lemma recordHeartbeatAck_watched sid id actor client m :
  inv m → watched m → watched (snd (recordHeartbeatAck sid id actor client m)).
Proof.
  intros Hi Hw. destruct (recordHeartbeatAck_spec sid id actor client m Hi)
    as [[e ->]|(r & l & m2 & _ & _ & _ & _ & _ & _ & -> & _)]; [done|].
  apply scheduleSweep_watched.
Qed.

(** One miss makes the lease uncertain, the second one revokes it. *)
Lemma recordHeartbeatMiss_spec sid id actor client m :
  inv m →
  (∃ e, recordHeartbeatMiss sid id actor client m = (Err e, m)) ∨
  ∃ r l, mget sid (sessions m) = Some r ∧ lease r = Some l ∧ leaseId l = id ∧
    actorId l = Some actor ∧ clientId l = Some client ∧ sessionId l = sid ∧
    let m' := snd (recordHeartbeatMiss sid id actor client m) in
    sweepTimer m' = sweepTimer m ∧ (reads m ≤ reads m')%nat ∧
    ∃ e, published m' = published m ++ [e] ∧
      lp_sessionId (le_payload e) = sid ∧ lp_leaseId (le_payload e) = leaseId l ∧
      lp_previousState (le_payload e) = state l ∧
      ((state l = held_remote ∧ lp_newState (le_payload e) = held_uncertain ∧
        sessions m' = mupd (setLease (setState held_uncertain
          (setUpdated (clock (reads m)) (setMisses 1 l)))) sid (sessions m)) ∨
       (state l = held_uncertain ∧ lp_newState (le_payload e) = revoked ∧
        fst (recordHeartbeatMiss sid id actor client m) = Err leaseRevoked ∧
        ∃ t, sessions m' = mupd (λ v, clearTimer (setLease
          (setUpdated t (setState revoked (setMisses 2 l))) v)) sid (sessions m))).
Proof.
  intros Hi. unfold recordHeartbeatMiss.
  destruct (checkHolder _ _ _ _) as [l|e] eqn:Ec; [right|eauto].
  destruct (checkHolder_ok _ _ _ _ _ _ Hi Ec) as (r & Hr & Hl & Hid & Ha & Hc & Hsid & Hst).
  exists r, l. split_and!; try done.
  - simpl. destruct Hst as [[E1 E2]|[E1 E2]]; rewrite E2; simpl; [done|].
    unfold revoke. simpl. rewrite mget_mupd, decide_True, Hr by done. simpl. rewrite E1. done.
  - simpl. destruct Hst as [[E1 E2]|[E1 E2]]; rewrite E2; simpl; [lia|].
    unfold revoke. simpl. rewrite mget_mupd, decide_True, Hr by done. simpl. rewrite E1. simpl. lia.
  - simpl. destruct Hst as [[E1 E2]|[E1 E2]]; rewrite E2; simpl.
    + eexists. split_and!; [done|done|done|simpl; by rewrite E1|].
      left. split_and!; [done|done|]. by rewrite mupd_mupd.
    + unfold revoke. simpl. rewrite mget_mupd, decide_True, Hr by done. simpl. rewrite E1. simpl.
      eexists. split_and!; [done|done|done|done|]. right. split_and!; [done..|].
      eexists. by rewrite !mupd_mupd.
Qed.

Lemma recordHeartbeatMiss_good sid id actor client m :
  good m (snd (recordHeartbeatMiss sid id actor client m)).
Proof.
  intros Hi. destruct (recordHeartbeatMiss_spec sid id actor client m Hi)
    as [[e ->]|(r & l & Hr & Hl & _ & Ha & Hc & Hsid & H)]; [by apply good_refl|].
  destruct H as (Ht & Hrd & e & Hp & H1 & H2 & H3 & [(Hst & Hn & Hs)|(Hst & Hn & _ & t & Hs)]);
    revert Hi; change (good m (snd (recordHeartbeatMiss sid id actor client m)));
    (eapply (good_upd _ _ _ sid r [e]); [exact Hr|exact Hs|exact Ht|exact Hrd|exact Hp| | |]).
  - intros Ho. apply (setLease_ok sid r l _ Ho Hl); [by rewrite Hst|].
    split; [done|]. simpl. by rewrite Ha, Hc.
  - intros l'. simpl. by intros [= <-].
  - intros l' Hl' Hs' Hh. rewrite Hl in Hl'. injection Hl' as <-. right.
    apply announces_now; [congruence|done|congruence|by right].
  - intros _. apply (revokedAt_ok sid t (setMisses 2 l) r). done.
  - intros l'. simpl. by intros [= <-].
  - intros l' Hl' _ Hh. congruence.
Qed.

Lemma recordHeartbeatMiss_watched sid id actor client m :
  inv m → watched m → watched (snd (recordHeartbeatMiss sid id actor client m)).
Proof.
  intros Hi Hw. destruct (recordHeartbeatMiss_spec sid id actor client m Hi)
    as [[e ->]|(r & l & Hr & Hl & _ & Ha & Hc & Hsid & H)]; [done|].
  destruct H as (Ht & Hrd & e & Hp & H1 & H2 & H3 & [(Hst & Hn & Hs)|(Hst & Hn & _ & t & Hs)]);
    (eapply watched_upd; [exact Hw|exact Hs|exact Ht|]; intros ? ? _; simpl; by intros [= <-]).
Qed.

Lemma disconnectOne_spec reason m sid :
  (disconnectOne reason m sid = m ∧
   ∀ l, currentLease sid m = Some l → state l ≠ held_remote) ∨
  ∃ r l t e, mget sid (sessions m) = Some r ∧ lease r = Some l ∧ state l = held_remote ∧
    let m' := disconnectOne reason m sid in
    sessions m' = mupd (λ _, mkRecord (Some (revokedAt t l))
                    (Some (mkTimer (revokedAt t l) reason false))) sid (sessions m) ∧
    sweepTimer m' = sweepTimer m ∧ (reads m ≤ reads m')%nat ∧
    published m' = published m ++ [e] ∧
    lp_sessionId (le_payload e) = sessionId l ∧ lp_leaseId (le_payload e) = leaseId l ∧
    lp_previousState (le_payload e) = held_remote ∧
    lp_newState (le_payload e) = held_uncertain.
Proof.
  clear clock_mono intervals_ok.
  unfold disconnectOne. destruct (currentLease sid m) as [l|] eqn:Ec; [|by left].
  apply currentLease_Some in Ec as (r & Hr & Hl).
  destruct (bool_decide_reflect (state l = held_remote)) as [Eh|]; [right|left; naive_solver].
  exists r, l, (clock (S (reads m))). eexists. split_and!; simpl.
  - done.
  - done.
  - done.
  - by rewrite !mupd_mupd.
  - done.
  - clear. lia.
  - done.
  - done.
  - done.
  - simpl. by rewrite Eh.
  - done.
Qed.

Lemma disconnectOne_good reason m sid : good m (disconnectOne reason m sid).
Proof.
  destruct (disconnectOne_spec reason m sid) as [[-> _]|(r & l & t & e & Hr & Hl & Hh & H)];
    [apply good_refl|]. destruct H as (Hs & Ht & Hrd & Hp & H1 & H2 & H3 & H4).
  eapply good_upd; [exact Hr|exact Hs|exact Ht|exact Hrd|exact Hp| | |].
  - intros Ho. pose proof (recordOk_session _ _ _ Ho Hl) as Hsid.
    split; simpl; [intros ? [= <-]; by split|]. intros tm [= <-] _. simpl.
    split; [done|]. by eexists.
  - intros l'. simpl. by intros [= <-].
  - intros l' Hl' _ _. rewrite Hl in Hl'. injection Hl' as <-. right.
    apply announces_now; [done..|by right].
Qed.

Lemma watched_foldl {A} (f : Mgr → A → Mgr) (xs : list A) m :
  (∀ m x, watched m → watched (f m x)) → watched m → watched (foldl f m xs).
Proof. intros Hf. revert m. induction xs as [|x xs IH]; intros m Hw; simpl; auto. Qed.

Lemma disconnectOne_watched reason m sid : watched m → watched (disconnectOne reason m sid).
Proof.
  intros Hw. destruct (disconnectOne_spec reason m sid) as [[-> _]|(r & l & t & e & Hr & Hl & Hh & H)];
    [done|]. destruct H as (Hs & Ht & _).
  eapply watched_upd; [exact Hw|exact Hs|exact Ht|]. intros ? ? _. simpl. by intros [= <-].
Qed.

(** [cancelPresumedLost] and the publication of a reconnect. *)
Lemma clearTimer_good sid m :
  good m (cancelPresumedLost sid m).
Proof.
  destruct (mget sid (sessions m)) as [r|] eqn:Hr.
  - eapply (good_upd _ _ clearTimer sid r []); [done|done|done|simpl; lia|simpl; by rewrite app_nil_r| | |].
    + intros [Ho _]. by split.
    + intros l Hl _. by right.
    + intros l Hl _ Hh. left. by exists l.
  - eapply (good_same _ _ []); [|done|simpl; lia|simpl; by rewrite app_nil_r].
    simpl. by apply mupd_absent.
Qed.

Lemma clearTimer_watched sid m : watched m → watched (cancelPresumedLost sid m).
Proof.
  intros Hw. eapply (watched_upd m _ clearTimer sid); [done|done|done|].
  intros r l _. simpl. intros Hl Hh. unfold isHeldRemote. rewrite Hl. by apply bool_decide_eq_true.
Qed.

Lemma reconnectOne_good m sid : good m (reconnectOne m sid).
Proof.
  unfold reconnectOne. destruct (currentLease sid m) as [l|]; [|apply good_refl].
  destruct (bool_decide (state l = revoked)); [|apply good_refl].
  eapply good_trans; [apply (clearTimer_good sid)|]. eapply (good_same _ _ [_]); [done|done|simpl; lia|done].
Qed.

Lemma reconnectOne_watched m sid : watched m → watched (reconnectOne m sid).
Proof.
  intros Hw. unfold reconnectOne. destruct (currentLease sid m) as [l|]; [|done].
  destruct (bool_decide (state l = revoked)); [|done].
  eapply watched_same; [apply (clearTimer_watched sid), Hw|done|done].
Qed.

Lemma sweepOne_good t m sid : good m (sweepOne t m sid).
Proof.
  unfold sweepOne. destruct (currentLease sid m) as [l|]; [|apply good_refl].
  destruct (bool_decide (state l = held_remote) && _); [apply revoke_good|apply good_refl].
Qed.

Lemma disarm_good m : good m (withSweep None m).
Proof.
  intros Hi. pose proof Hi as [H1 H2 H3 H4 H5]. split.
  - by constructor.
  - exists []. rewrite app_nil_r. split; [done|]. intros sid l Hl _ Hh. left. by exists l.
Qed.

Lemma fireSweep_good m : good m (fireSweep m).
Proof.
  unfold fireSweep, sweepStaleRemoteLeases. case_match; [|apply good_refl]. simpl.
  eapply good_trans; [apply disarm_good|].
  eapply good_trans; [|apply good_scheduleSweep].
  eapply good_trans; [|apply good_foldl; intros; apply sweepOne_good].
  eapply (good_same _ _ []); [done|done|simpl; lia|simpl; by rewrite app_nil_r].
Qed.

Lemma firePresumedLost_good sid m : good m (firePresumedLost sid m).
Proof.
  unfold firePresumedLost. destruct (mget sid (sessions m)) as [r|] eqn:Hr; simpl; [|apply good_refl].
  destruct (presumedLostTimer r) as [tm|] eqn:Htm; [|apply good_refl].
  destruct (tm_fired tm); [apply good_refl|].
  eapply (good_upd _ _ (λ r, mkRecord (lease r) (Some (mkTimer (tm_lease tm) (tm_reason tm) true)))
            sid r [_]); [done|done|done|simpl; lia|done| | |].
  - intros [Ho _]. split; simpl; [done|]. by intros ? [= <-].
  - intros l. simpl. intros Hl _. by right.
  - intros l Hl _ Hh. left. by exists l.
Qed.

Lemma firePresumedLost_watched sid m : watched m → watched (firePresumedLost sid m).
Proof.
  intros Hw. unfold firePresumedLost.
  destruct (mget sid (sessions m) ≫= presumedLostTimer) as [tm|]; [|done].
  destruct (tm_fired tm); [done|].
  eapply (watched_upd m _ (λ r, mkRecord (lease r) (Some (mkTimer (tm_lease tm) (tm_reason tm) true))) sid);
    [done|done|done|].
  intros r l _. simpl. intros Hl Hh. unfold isHeldRemote. rewrite Hl. by apply bool_decide_eq_true.
Qed.

Lemma exec_good o m : good m (exec o m).
Proof.
  destruct o; simpl;
    eauto using acquireRemote_good, acquireLocal_good, validateRemoteSubmit_good,
      recordHeartbeatAck_good, recordHeartbeatMiss_good, revoke_good, fireSweep_good,
      firePresumedLost_good, good_foldl, disconnectOne_good, reconnectOne_good.
Qed.

Lemma exec_watched o m : inv m → watched m → watched (exec o m).
Proof.
  intros Hi Hw. destruct o; simpl;
    eauto using acquireRemote_watched, acquireLocal_watched, validateRemoteSubmit_watched,
      recordHeartbeatAck_watched, recordHeartbeatMiss_watched, revoke_watched,
      firePresumedLost_watched.
  - apply watched_foldl; [|done]. intros. by apply disconnectOne_watched.
  - apply watched_foldl; [|done]. intros. by apply reconnectOne_watched.
  - unfold fireSweep, sweepStaleRemoteLeases. case_match; [apply scheduleSweep_watched|done].
Qed.

Lemma init_inv : inv init ∧ watched init.
Proof. split; [constructor; (done || apply mwf_nil)|done]. Qed.

Lemma run_inv ops m : inv m → watched m → inv (run ops m) ∧ watched (run ops m).
Proof.
  unfold run. revert m. induction ops as [|o ops IH]; intros m Hi Hw; simpl; [done|].
  apply IH; [apply (exec_good o m Hi)|by apply exec_watched].
Qed.

Lemma run_good ops m : good m (run ops m).
Proof. apply good_foldl. intros. apply exec_good. Qed.

(** ** What only the named session's own operations can change *)

(** A lease no remote client may use now: held by the owner, or uncertain. *)
Definition parked (l : ControllerLease) : Prop :=
  state l = held_local ∨ state l = held_uncertain.

(** The operations that name [sid] and act on a parked lease. *)
Definition touches (sid : string) (o : op) : bool :=
  match o with
  | OpAcquireLocal sid' _ _ | OpAck sid' _ _ _ | OpMiss sid' _ _ _ | OpRevoke sid' _ =>
      String.eqb sid sid'
  | _ => false
  end.

Lemma revoke_other sid sid' reason m :
  sid ≠ sid' → currentLease sid (revoke sid' reason m) = currentLease sid m.
Proof.
  intros Hne. destruct (revoke_cases sid' reason m) as [[-> _]|(r & l & _ & _ & _ & Hs & _)]; [done|].
  rewrite (currentLease_mupd _ _ sid _ _ Hs), decide_False by done. done.
Qed.

Lemma currentLease_putLease_ne sid sid' l m :
  sid ≠ sid' → currentLease sid (putLease sid' l m) = currentLease sid m.
Proof.
  intros Hne. by rewrite (currentLease_mupd (setLease l) sid' sid m (putLease sid' l m) eq_refl),
    decide_False.
Qed.

Lemma currentLease_cancel sid sid' m :
  currentLease sid (cancelPresumedLost sid' m) = currentLease sid m.
Proof.
  rewrite (currentLease_mupd clearTimer sid' sid m (cancelPresumedLost sid' m) eq_refl).
  case_decide; subst; [|done]. done.
Qed.

Lemma currentLease_scheduleSweep sid m : currentLease sid (scheduleSweep m) = currentLease sid m.
Proof. unfold currentLease. by rewrite sessions_scheduleSweep. Qed.

Lemma currentLease_emit sid l a b c m : currentLease sid (emit l a b c m) = currentLease sid m.
Proof. done. Qed.

Lemma currentLease_now sid m : currentLease sid (snd (now m)) = currentLease sid m.
Proof. done. Qed.

(** A loop whose body leaves the lease of [sid] alone does, too. *)
Lemma foldl_keeps (f : Mgr → string → Mgr) sid l xs m :
  (∀ m x, inv m → inv (f m x)) →
  (∀ m x, inv m → currentLease sid m = Some l → currentLease sid (f m x) = Some l) →
  inv m → currentLease sid m = Some l → currentLease sid (foldl f m xs) = Some l.
Proof.
  intros Hinv Hk. revert m. induction xs as [|x xs IH]; intros m Hi Hc; simpl; [done|].
  apply IH; auto.
Qed.

Lemma acquireRemote_parked sid sid' epoch actor client id uuid m l :
  currentLease sid m = Some l → parked l →
  currentLease sid (snd (acquireRemote sid' epoch actor client id uuid m)) = Some l ∧
  (sid = sid' → fst (acquireRemote sid' epoch actor client id uuid m) = Err leaseMismatch).
Proof.
  intros Hc Hp. unfold acquireRemote.
  destruct (record_spec sid' m) as (r & Hr & _ & _ & _ & _ & Hcs & Hl).
  destruct (record sid' m) as [r' m1]. simpl in *. subst r'.
  destruct (decide (sid = sid')) as [->|Hne].
  - rewrite Hl, Hc. destruct Hp as [E|E]; rewrite E; simpl; by rewrite Hcs.
  - split; [|done].
    repeat case_match; simplify_eq/=;
      rewrite ?currentLease_emit, ?currentLease_scheduleSweep, ?currentLease_cancel,
        ?currentLease_putLease_ne by done;
      change (currentLease sid (snd (now m1))) with (currentLease sid m1) || idtac;
      by rewrite <- Hc, <- Hcs.
Qed.

Lemma disconnectOne_parked reason sid l m sid' :
  currentLease sid m = Some l → parked l →
  currentLease sid (disconnectOne reason m sid') = Some l.
Proof.
  intros Hc Hp. destruct (disconnectOne_spec reason m sid')
    as [[-> _]|(r & l' & t & e & Hr & Hl & Hh & Hs & _)]; [done|].
  rewrite (currentLease_mupd _ _ sid _ _ Hs). case_decide; subst; [|done].
  apply currentLease_Some in Hc as (r' & Hr' & Hl'). destruct Hp; congruence.
Qed.

Lemma reconnectOne_parked sid l m sid' :
  currentLease sid m = Some l → currentLease sid (reconnectOne m sid') = Some l.
Proof.
  intros Hc. unfold reconnectOne. destruct (currentLease sid' m) as [l'|]; [|done].
  destruct (bool_decide _); [|done]. by rewrite currentLease_emit, currentLease_cancel.
Qed.

Lemma sweepOne_parked t sid l m sid' :
  inv m → currentLease sid m = Some l → parked l → currentLease sid (sweepOne t m sid') = Some l.
Proof.
  intros Hi Hc Hp. unfold sweepOne. destruct (currentLease sid' m) as [l'|] eqn:Ec; [|done].
  destruct (bool_decide (state l' = held_remote)) eqn:Eh; simpl; [|done].
  destruct (_ <=? _); [|done]. zbool. rewrite revoke_other; [done|].
  apply currentLease_Some in Ec as (r' & Hr' & Hl').
  rewrite (recordOk_session _ _ _ (inv_records _ Hi _ _ Hr') Hl'). intros ->.
  apply currentLease_Some in Hc as (r & Hr & Hl). destruct Hp; congruence.
Qed.

(** [disconnect], [reconnect], the sweep, the timers, and whatever other clients
    or other sessions do, leave a parked lease as it is. *)
Lemma parked_untouched o m sid l :
  inv m → currentLease sid m = Some l → parked l → touches sid o = false →
  currentLease sid (exec o m) = Some l.
Proof.
  intros Hi Hc Hp Ht. destruct o as [sid' ? ? ? ? ?|sid' ? ?|sid' ? ? ? ?|sid' ? ? ?|sid' ? ? ?|
    reason| |sid' ?| |sid']; simpl in *; zbool.
  - by eapply acquireRemote_parked.
  - unfold acquireLocal. destruct (record_spec sid' m) as (r & Hr & _ & _ & _ & _ & Hcs & _).
    destruct (record sid' m) as [r' m1]. simpl in *. subst r'.
    repeat case_match; simplify_eq/=;
      rewrite ?currentLease_emit, ?currentLease_putLease_ne by done;
      first [change (currentLease sid m1 = Some l)
            |change (currentLease sid (revoke sid' owner_override m1) = Some l);
             rewrite revoke_other by done]; by rewrite Hcs.
  - destruct (validateRemoteSubmit_spec sid' epoch actor client id m)
      as [[e ->]|(r & l' & Hr & Hl & Hh & _ & _ & _ & _ & ->)]; [done|].
    simpl. rewrite currentLease_scheduleSweep, currentLease_putLease_ne; [done|].
    intros ->. apply currentLease_Some in Hc as (r' & Hr' & Hl'). destruct Hp; congruence.
  - destruct (recordHeartbeatAck_spec sid' id actor client m Hi)
      as [[e ->]|(r & l' & m2 & Hr & Hl & _ & _ & _ & _ & -> & Hs & _)]; [done|].
    simpl. rewrite currentLease_scheduleSweep, (currentLease_mupd _ _ sid _ _ Hs).
    by rewrite decide_False.
  - destruct (recordHeartbeatMiss_spec sid' id actor client m Hi)
      as [[e ->]|(r & l' & Hr & Hl & _ & _ & _ & _ & _ & _ & e & _ & _ & _ & _ & H)]; [done|].
    destruct H as [(_ & _ & Hs)|(_ & _ & _ & t & Hs)];
      by rewrite (currentLease_mupd _ _ sid _ _ Hs), decide_False.
  - apply foldl_keeps; [intros; by apply disconnectOne_good|auto using disconnectOne_parked|done|done].
  - apply foldl_keeps; [intros; by apply reconnectOne_good|auto using reconnectOne_parked|done|done].
  - by rewrite revoke_other.
  - unfold fireSweep, sweepStaleRemoteLeases. destruct (sweepTimer m); [|done]. simpl.
    rewrite currentLease_scheduleSweep.
    apply foldl_keeps; [intros; by apply sweepOne_good|auto using sweepOne_parked| |done].
    eapply inv_same; [apply (disarm_good m Hi)|done|done|simpl; lia].
  - unfold firePresumedLost. destruct (mget sid' (sessions m)) as [r'|] eqn:E; simpl; [|done].
    destruct (presumedLostTimer r') as [tm|]; [|done]. destruct (tm_fired tm); [done|].
    rewrite currentLease_emit.
    match goal with |- currentLease _ ?m' = _ =>
      rewrite (currentLease_mupd
        (λ r, mkRecord (lease r) (Some (mkTimer (tm_lease tm) (tm_reason tm) true)))
        sid' sid m m' eq_refl) end.
    case_decide as Hd; [subst|done].
    rewrite E. simpl. apply currentLease_Some in Hc as (r & Hr & Hl). congruence.
Qed.

(** The owner's terminal holds the session. *)
Definition localHeld (sid : string) (m : Mgr) : Prop :=
  ∃ l, currentLease sid m = Some l ∧ state l = held_local.

Lemma acquireLocal_local sid epoch uuid m : localHeld sid (acquireLocal sid epoch uuid m).
Proof.
  unfold acquireLocal. destruct (record_spec sid m) as (r & Hr & Hg & _).
  destruct (record sid m) as [r' m1]. simpl in *. subst r'.
  assert (Hput : ∀ m2 l, is_Some (mget sid (sessions m2)) → state l = held_local →
    localHeld sid (putLease sid l m2)).
  { intros m2 l [r2 Hr2] Hl. exists l. split; [|done].
    rewrite (currentLease_mupd (setLease l) sid sid m2 (putLease sid l m2) eq_refl), decide_True
      by done.
    simpl. by rewrite Hr2. }
  destruct (lease r) as [c|] eqn:El; [|by apply (Hput (snd (now m1)))].
  destruct (_ && _) eqn:E1; zbool; [by apply (Hput (snd (now m1)))|].
  destruct (bool_decide (state c = held_remote)); [|by apply (Hput (snd (now m1)))].
  apply (Hput (snd (now (revoke sid owner_override m1)))); [|done]. simpl.
  destruct (revoke_cases sid owner_override m1) as [[-> _]|(r2 & l2 & Hr2 & _ & _ & Hs & _)];
    [by eexists|]. rewrite Hs, mget_mupd, decide_True, Hr2 by done. by eexists.
Qed.

(** No heartbeat is accepted for a local lease: it has no holder. *)
Lemma local_heartbeats sid id actor client m :
  inv m → localHeld sid m → ∃ e, checkHolder id actor client (currentLease sid m) = Err e.
Proof.
  intros Hi (l & Hc & Hs). destruct (checkHolder _ _ _ _) as [l'|e] eqn:Ec; [|by exists e].
  destruct (checkHolder_ok _ _ _ _ _ _ Hi Ec) as (r & Hr & Hl & _ & _ & _ & _ & Hst).
  apply currentLease_Some in Hc as (r' & Hr' & Hl').
  assert (l' = l) as -> by congruence. destruct Hst as [[? _]|[? _]]; congruence.
Qed.

Definition isRevokeOf (sid : string) (o : op) : bool :=
  match o with OpRevoke sid' _ => String.eqb sid sid' | _ => false end.

Lemma local_stays o m sid :
  inv m → localHeld sid m → isRevokeOf sid o = false → localHeld sid (exec o m).
Proof.
  intros Hi Hl Ho. destruct (touches sid o) eqn:Et.
  - destruct o; simpl in *; try done; zbool; subst.
    + apply acquireLocal_local.
    + unfold recordHeartbeatAck. by destruct (local_heartbeats _ id actor client m Hi Hl) as [e ->].
    + unfold recordHeartbeatMiss. by destruct (local_heartbeats _ id actor client m Hi Hl) as [e ->].
    + done.
  - destruct Hl as (l & Hc & Hs). exists l. split; [|done].
    apply parked_untouched; [done|done|by left|done].
Qed.

Lemma local_stays_run ops m sid :
  inv m → localHeld sid m → Forall (λ o, isRevokeOf sid o = false) ops → localHeld sid (run ops m).
Proof.
  intros Hi Hl Hall. revert m Hi Hl. unfold run.
  induction Hall as [|o ops Ho _ IH]; intros m Hi Hl; simpl; [done|].
  apply IH; [by apply exec_good|by apply local_stays].
Qed.

Lemma parked_run ops m sid l :
  inv m → currentLease sid m = Some l → parked l → Forall (λ o, touches sid o = false) ops →
  currentLease sid (run ops m) = Some l.
Proof.
  intros Hi Hc Hp Hall. revert m Hi Hc. unfold run.
  induction Hall as [|o ops Ho _ IH]; intros m Hi Hc; simpl; [done|].
  apply IH; [by apply exec_good|by apply parked_untouched].
Qed.

Lemma lease_reachable ops : inv (run ops init) ∧ watched (run ops init).
Proof. apply run_inv; apply init_inv. Qed.

(** ** The sweep *)

Definition stale (t : Z) (l : ControllerLease) : bool :=
  bool_decide (state l = held_remote) && (presumedLostDelayMs <=? t - updatedAtMs l).

Lemma sweepOne_fresh t sid l m x :
  inv m → currentLease sid m = Some l → stale t l = false →
  currentLease sid (sweepOne t m x) = Some l.
Proof.
  intros Hi Hc Hst. unfold sweepOne. destruct (currentLease x m) as [l'|] eqn:Ec; [|done].
  fold (stale t l'). destruct (stale t l') eqn:E; [|done].
  rewrite revoke_other; [done|]. apply currentLease_Some in Ec as (r' & Hr' & Hl').
  rewrite (recordOk_session _ _ _ (inv_records _ Hi _ _ Hr') Hl'). intros ->.
  apply currentLease_Some in Hc as (r & Hr & Hl). congruence.
Qed.

Lemma sweepOne_stale t sid l m :
  inv m → currentLease sid m = Some l → stale t l = true →
  ∃ t', currentLease sid (sweepOne t m sid) = Some (revokedAt t' l).
Proof.
  intros Hi Hc Hst. unfold sweepOne. rewrite Hc. fold (stale t l). rewrite Hst.
  apply currentLease_Some in Hc as (r & Hr & Hl).
  rewrite (recordOk_session _ _ _ (inv_records _ Hi _ _ Hr) Hl).
  unfold stale in Hst. zbool.
  destruct (revoke_cases sid heartbeat_timeout m) as [[_ Hall]|(r2 & l2 & Hr2 & Hl2 & _ & Hs & _)].
  - specialize (Hall l ltac:(apply currentLease_Some; eauto)). congruence.
  - eexists. rewrite (currentLease_mupd _ _ sid _ _ Hs), decide_True, Hr2 by done. simpl.
    assert (l2 = l) as -> by congruence. done.
Qed.

Lemma sweep_loop t sid l xs m :
  inv m → currentLease sid m = Some l →
  (stale t l = false → currentLease sid (foldl (sweepOne t) m xs) = Some l) ∧
  (stale t l = true → sid ∈ xs →
     ∃ t', currentLease sid (foldl (sweepOne t) m xs) = Some (revokedAt t' l)).
Proof.
  revert m. induction xs as [|x xs IH]; intros m Hi Hc; cbn [foldl].
  - split; [done|]. by intros _ ?%elem_of_nil.
  - assert (Hi' : inv (sweepOne t m x)) by by apply sweepOne_good.
    split.
    + intros Hst. apply IH; [done|by apply sweepOne_fresh|done].
    + intros Hst Hin. destruct (decide (x = sid)) as [->|Hne].
      * destruct (sweepOne_stale t sid l m Hi Hc Hst) as [t' Ht'].
        exists t'. apply foldl_keeps; [intros; by apply sweepOne_good| |done|done].
        intros. by apply sweepOne_fresh.
      * apply IH; [done| |done|set_solver].
        unfold sweepOne. destruct (currentLease x m) as [l'|] eqn:Ec; [|done].
        destruct (_ && _); [|done]. rewrite revoke_other; [done|].
        apply currentLease_Some in Ec as (r' & Hr' & Hl').
        by rewrite (recordOk_session _ _ _ (inv_records _ Hi _ _ Hr') Hl').
Qed.

(** ** The theorems *)

(** In every reachable state the manager's records are consistent, a
    stored lease is local, remote, uncertain or revoked with the matching holder
    and miss count, a presumed-lost timer is pending only over a lease nobody
    remote holds, and while any lease is held remotely the sweep is armed for a
    moment no later than the earliest expiry. *)
Theorem lease_invariant ops : inv (run ops init) ∧ watched (run ops init).
Proof. apply lease_reachable. Qed.

(** C5: after the owner types locally, whatever other operations follow,
    as long as none of them is an explicit revocation of the session, no remote
    submission and no heartbeat for it is accepted, and no remote client can
    acquire its lease.  (The clock does not run backwards and the two intervals of the manager are
    not negative.) *)
Theorem takeover_fences before sid epoch uuid after :
  Forall (λ o, isRevokeOf sid o = false) after →
  let m := run after (acquireLocal sid epoch uuid (run before init)) in
  ∀ epoch' actor client id o u,
    (∃ e, fst (validateRemoteSubmit sid epoch' actor client id m) = Err e) ∧
    (∃ e, fst (recordHeartbeatAck sid id actor client m) = Err e) ∧
    (∃ e, fst (recordHeartbeatMiss sid id actor client m) = Err e) ∧
    fst (acquireRemote sid epoch' actor client o u m) = Err leaseMismatch.
Proof.
  intros Hall m epoch' actor client id o u. destruct (lease_reachable before) as [Hi0 _].
  assert (Hi : inv (acquireLocal sid epoch uuid (run before init)))
    by apply (acquireLocal_good sid epoch uuid _ Hi0).
  assert (Hl : localHeld sid m) by (apply local_stays_run; auto using acquireLocal_local).
  assert (Him : inv m) by apply (run_good after _ Hi).
  destruct (local_heartbeats sid id actor client m Him Hl) as [e He].
  destruct Hl as (l & Hc & Hs). split_and!.
  - unfold validateRemoteSubmit. rewrite Hc. destruct (negb _); [by eexists|].
    rewrite Hs. by eexists.
  - unfold recordHeartbeatAck. rewrite He. by eexists.
  - unfold recordHeartbeatMiss. rewrite He. by eexists.
  - by eapply acquireRemote_parked; [| |reflexivity]; [|left].
Qed.

(** When a submission that the manager accepted is refused later, the
    loss of that lease has been published in between: an event with its session,
    its lease id, the previous state [held-remote] and the new state [revoked] or
    [held-uncertain]. *)
Theorem handover_announced before after sid epoch actor client id l e :
  let m := run before init in
  let m' := run after m in
  fst (validateRemoteSubmit sid epoch actor client id m) = Ok l →
  fst (validateRemoteSubmit sid epoch actor client id m') = Err e →
  ∃ news, published m' = published m ++ news ∧
    Exists (λ ev, lp_sessionId (le_payload ev) = sid ∧ lp_leaseId (le_payload ev) = id ∧
      lp_previousState (le_payload ev) = held_remote ∧
      (lp_newState (le_payload ev) = revoked ∨ lp_newState (le_payload ev) = held_uncertain)) news.
Proof.
  intros m m' Hok Herr. destruct (lease_reachable before) as [Hi _]. fold m in Hi.
  destruct (validateRemoteSubmit_spec sid epoch actor client id m)
    as [[e' He']|(r & l0 & Hr & Hl & Hh & Hid & Hep & Ha & Hcl & _)];
    [by rewrite He' in Hok|].
  destruct (run_good after m Hi) as [_ (news & Hp & Hacc)]. exists news. split; [exact Hp|].
  assert (Hc : currentLease sid m = Some l0) by (apply currentLease_Some; eauto).
  pose proof (recordOk_session _ _ _ (inv_records _ Hi _ _ Hr) Hl) as Hsid.
  destruct (Hacc sid l0 Hc Hsid Hh) as [(l1 & Hc1 & Hh1 & Hids)|Hex].
  - exfalso. unfold ids in Hids. destruct l1, l0; simplify_eq/=.
    erewrite validateRemoteSubmit_accept in Herr; [done|exact Hc1|done..].
  - eapply Exists_impl; [exact Hex|]. unfold announces. intros ev. by rewrite Hsid, Hid.
Qed.

(** Until the manager is disposed, while a lease is held remotely the sweep is armed, to fire no
    later than the lease's expiry or at once; and a sweep that fires at the reading [t] revokes
    exactly the leases in held-remote whose last renewal is at least [presumedLostDelayMs] old and
    leaves every other lease as it was, a lease that a missed heartbeat moved to held-uncertain
    included ([uncertain_never_swept]). The clock does not run backwards and the intervals are not
    negative. *)
Theorem sweep_exact ops sid l :
  let m := run ops init in
  let t := clock (reads m) in
  currentLease sid m = Some l →
  (state l = held_remote →
     ∃ t0 d, sweepTimer m = Some (t0, d) ∧ d ≤ heartbeatIntervalMs ∧
       t0 + d ≤ Z.max t0 (updatedAtMs l + presumedLostDelayMs)) ∧
  (is_Some (sweepTimer m) →
     (stale t l = true → ∃ t', currentLease sid (fireSweep m) = Some (revokedAt t' l)) ∧
     (stale t l = false → currentLease sid (fireSweep m) = Some l)).
Proof.
  intros m t Hc. destruct (lease_reachable ops) as [Hi Hw]. fold m in Hi, Hw. split.
  - intros Hh. destruct (Hw _ _ Hc Hh) as [[t0 d] Htm]. exists t0, d. split_and!; [done| |].
    + apply (inv_delay _ Hi _ _ Htm).
    + apply (inv_due _ Hi _ _ _ _ Hc Hh Htm).
  - intros [tm Htm]. unfold fireSweep, sweepStaleRemoteLeases. rewrite Htm. simpl.
    rewrite currentLease_scheduleSweep.
    set (m1 := mkMgr _ _ _ _ _). assert (Hi1 : inv m1).
    { eapply inv_same; [apply (disarm_good m Hi)|done|done|simpl; lia]. }
    destruct (sweep_loop t sid l (mkeys (sessions m)) m1 Hi1 Hc) as [H1 H2].
    split; [|done]. intros Hst. apply H2; [done|]. apply elem_of_mkeys.
    apply currentLease_Some in Hc as (r & Hr & _). by eexists.
Qed.

(** A lease that missed one heartbeat is out of the sweep's reach: whatever
    time passes, no sweep, relay disconnect or reconnect, presumed-lost timer or
    operation of another client changes it, and every other acquisition of the
    session is refused; only its own holder's heartbeats, the local owner or an
    explicit revocation end it. *)
Theorem uncertain_never_swept before after sid l :
  let m := run before init in
  currentLease sid m = Some l → state l = held_uncertain →
  Forall (λ o, touches sid o = false) after →
  currentLease sid (run after m) = Some l ∧
  ∀ epoch actor client o u,
    fst (acquireRemote sid epoch actor client o u (run after m)) = Err leaseMismatch.
Proof.
  intros m Hc Hs Hall. destruct (lease_reachable before) as [Hi _].
  assert (Hl : currentLease sid (run after m) = Some l) by (apply parked_run; auto; by right).
  split; [done|]. intros. by eapply acquireRemote_parked; [| |reflexivity]; [|right].
Qed.

(** The timer armed by a relay disconnect survives the owner's takeover:
    after a remote acquisition, a disconnect and a local takeover, the timer still
    fires and publishes [held-presumed-lost] for a session the owner holds. *)
Theorem takeover_then_presumed_lost sid epoch actor client id uuid epoch' uuid' reason :
  let m := run [OpAcquireRemote sid epoch actor client (Some id) uuid; OpDisconnect reason;
                OpAcquireLocal sid epoch' uuid'; OpFirePresumedLost sid] init in
  localHeld sid m ∧
  ∃ e, last (published m) = Some e ∧ lp_sessionId (le_payload e) = sid ∧
    lp_leaseId (le_payload e) = id ∧ lp_newState (le_payload e) = held_presumed_lost.
Proof.
  unfold run. cbn [foldl exec].
  set (l := mkLease id sid epoch held_remote (Some actor) (Some client) 0 (clock 0)).
  set (m1 := snd (acquireRemote sid epoch actor client (Some id) uuid init)).
  assert (Hs1 : sessions m1 = [(sid, mkRecord (Some l) None)]).
  { change (sessions m1) with (sessions (scheduleSweep (cancelPresumedLost sid (putLease sid l
      (mkMgr [(sid, mkRecord None None)] None 1 0 []))))).
    rewrite sessions_scheduleSweep. cbn [cancelPresumedLost putLease withSessions sessions].
    by rewrite !mupd_here. }
  set (m2 := handleRelayDisconnect reason m1).
  assert (Hs2 : ∃ t, sessions m2 = [(sid, mkRecord (Some (revokedAt t l))
                                      (Some (mkTimer (revokedAt t l) reason false)))]).
  { unfold m2, handleRelayDisconnect. rewrite Hs1. cbn [mkeys fmap list_fmap fst foldl].
    destruct (disconnectOne_spec reason m1 sid) as [[_ Hno]|(r & l' & t & e & Hr & Hl & _ & Hs & _)].
    - exfalso. apply (Hno l); [|done]. apply currentLease_Some. exists (mkRecord (Some l) None).
      by rewrite Hs1, mget_here.
    - exists t. rewrite Hs1, mget_here in Hr. rewrite Hs1, mupd_here in Hs.
      injection Hr as <-. injection Hl as <-. done. }
  destruct Hs2 as [t Hs2].
  set (m3 := acquireLocal sid epoch' uuid' m2).
  assert (Hs3 : ∃ l3, state l3 = held_local ∧
    sessions m3 = [(sid, mkRecord (Some l3) (Some (mkTimer (revokedAt t l) reason false)))]).
  { eexists (mkLease ("local-" +:+ uuid') sid epoch' held_local None None 0 (clock (reads m2))).
    split; [done|].
    unfold m3, acquireLocal, record. rewrite Hs2, mget_here. cbn [lease revokedAt setUpdated setState state].
    change (mupd (setLease (mkLease ("local-" +:+ uuid') sid epoch' held_local None None 0
              (clock (reads m2)))) sid (sessions m2)
            = [(sid, setLease (mkLease ("local-" +:+ uuid') sid epoch' held_local None None 0
              (clock (reads m2))) (mkRecord (Some (revokedAt t l))
              (Some (mkTimer (revokedAt t l) reason false))))]).
    rewrite Hs2. apply mupd_here. }
  destruct Hs3 as (l3 & Hl3 & Hs3). unfold firePresumedLost. rewrite Hs3, mget_here.
  cbn [mbind option_bind presumedLostTimer tm_fired tm_lease tm_reason]. split.
  - exists l3. split; [|done]. rewrite currentLease_emit. apply currentLease_Some.
    eexists. cbn [withSessions sessions]. by rewrite mupd_here, mget_here.
  - eexists. cbn [emit withSessions published]. rewrite last_snoc. by split_and!.
Qed.

End manager.

(** ** Witnesses: a clock of one second per reading, the default intervals *)

Definition sampleClock (n : nat) : Z := 1000 * Z.of_nat n.
Definition sampleRevision (n : nat) : Z := Z.of_nat n + 1.

Lemma sampleClock_mono i j : (i ≤ j)%nat → sampleClock i ≤ sampleClock j.
Proof. unfold sampleClock. lia. Qed.

Lemma sampleIntervals : 0 ≤ 15000 ∧ 0 ≤ 5000.
Proof. lia. Qed.

Abbreviation sampleRun ops m := (run "n" "e" 15000 5000 sampleClock sampleRevision ops m).

Lemma lease_invariant_witness :
  inv 15000 5000 sampleClock (sampleRun [OpAcquireRemote "s" "1" "a" "c" None "u"; OpFireSweep] init) ∧
  watched (sampleRun [OpAcquireRemote "s" "1" "a" "c" None "u"; OpFireSweep] init).
Proof. apply lease_invariant; [apply sampleClock_mono|apply sampleIntervals]. Defined.

Lemma takeover_fences_witness :
  fst (acquireRemote "n" "e" 15000 5000 sampleClock sampleRevision "s" "1" "a" "c" None "v"
    (sampleRun [OpReconnect; OpFireSweep]
      (acquireLocal "n" "e" sampleClock sampleRevision "s" "1" "u"
        (sampleRun [OpAcquireRemote "s" "1" "a" "c" None "u"] init)))) = Err leaseMismatch.
Proof.
  apply (takeover_fences "n" "e" 15000 5000 sampleClock sampleRevision sampleClock_mono
    sampleIntervals [OpAcquireRemote "s" "1" "a" "c" None "u"] "s" "1" "u" [OpReconnect; OpFireSweep]
    ltac:(repeat constructor) "1" "a" "c" "x").
Defined.

Lemma handover_announced_witness :
  ∃ news,
    published (sampleRun [OpAcquireLocal "s" "1" "w"]
      (sampleRun [OpAcquireRemote "s" "1" "a" "c" (Some "L") "u"] init)) =
    published (sampleRun [OpAcquireRemote "s" "1" "a" "c" (Some "L") "u"] init) ++ news ∧
    Exists (λ ev, lp_sessionId (le_payload ev) = "s" ∧ lp_leaseId (le_payload ev) = "L" ∧
      lp_previousState (le_payload ev) = held_remote ∧
      (lp_newState (le_payload ev) = revoked ∨ lp_newState (le_payload ev) = held_uncertain)) news.
Proof.
  apply (handover_announced "n" "e" 15000 5000 sampleClock sampleRevision sampleClock_mono
    sampleIntervals [OpAcquireRemote "s" "1" "a" "c" (Some "L") "u"] [OpAcquireLocal "s" "1" "w"]
    "s" "1" "a" "c" "L" (mkLease "L" "s" "1" held_remote (Some "a") (Some "c") 0 3000) leaseRevoked);
    reflexivity.
Defined.

Lemma sweep_exact_witness :
  currentLease "s" (fireSweep "n" "e" 15000 5000 sampleClock sampleRevision
    (sampleRun [OpAcquireRemote "s" "1" "a" "c" (Some "L") "u"] init)) =
  Some (mkLease "L" "s" "1" held_remote (Some "a") (Some "c") 0 0).
Proof.
  apply (sweep_exact "n" "e" 15000 5000 sampleClock sampleRevision sampleClock_mono
    sampleIntervals [OpAcquireRemote "s" "1" "a" "c" (Some "L") "u"] "s"
    (mkLease "L" "s" "1" held_remote (Some "a") (Some "c") 0 0));
    [reflexivity|by eexists|reflexivity].
Defined.

Lemma uncertain_never_swept_witness :
  currentLease "s" (sampleRun [OpFireSweep; OpDisconnect node_disconnect; OpFireSweep]
    (sampleRun [OpAcquireRemote "s" "1" "a" "c" (Some "L") "u"; OpMiss "s" "L" "a" "c"] init)) =
  Some (mkLease "L" "s" "1" held_uncertain (Some "a") (Some "c") 1 3000).
Proof.
  apply (uncertain_never_swept "n" "e" 15000 5000 sampleClock sampleRevision sampleClock_mono
    sampleIntervals [OpAcquireRemote "s" "1" "a" "c" (Some "L") "u"; OpMiss "s" "L" "a" "c"]
    [OpFireSweep; OpDisconnect node_disconnect; OpFireSweep] "s"
    (mkLease "L" "s" "1" held_uncertain (Some "a") (Some "c") 1 3000));
    [reflexivity|reflexivity|repeat constructor].
Defined.

End Lease.
