(* ===== verification/CommandJournal.v ===== *)
(** * The journal of remote commands

    [src/remote/command-journal.ts] and [src/remote/command-pipeline.ts]: the
    write-ahead log behind remote control.  Every command is written as an intent
    before it runs and as a result afterwards; a retry of the same idempotency
    tuple replays the stored answer; revoked grants leave tombstones.  The log is
    compacted into a snapshot, and a restart rebuilds the journal from the
    snapshot and the tail of the log.

    A row is an element of the inductive [CommandAuditRow]; that a row
    survives [JSON.stringify] and [JSON.parse] is taken from JavaScript.  The audit
    file is its list of lines and what follows the last newline, so that a write
    cut short by a crash is expressible.  A method that appends to the file is the
    pair of its effect on the memory and the row it hands to [appendFile]. *)

From S2P Require Import Prelude JsMap JsArray JsString AgentEvents.
Local Open Scope Z_scope.

Module Journal.

(** ** Data *)

Inductive RemoteCommandAction :=
| presetReply | permissionApprove | skip | snooze | mark_done | launch
| leaseAcquire | leaseHeartbeat | leaseOverride | submitMessage.
#[export] Instance RemoteCommandAction_eq_dec : EqDecision RemoteCommandAction.
Proof. solve_decision. Defined.

Inductive CommandOutcome :=
| accepted | rejected | rejected_pre_audit | unknown_intent_only | unknown_never_seen
| node_offline.
#[export] Instance CommandOutcome_eq_dec : EqDecision CommandOutcome.
Proof. solve_decision. Defined.

(** [CommandEnvelope], whose first six fields are the [IdempotencyTuple]. *)
Record CommandEnvelope := mkEnvelope {
  nodeId : string;
  nodeEpoch : string;
  sessionId : string;
  sessionEpoch : string;
  grantId : string;
  idempotencyKey : string;
  commandId : string;
  actorId : string;
  clientId : string;
  action : RemoteCommandAction;
  baseRevision : option Z;
  leaseId : option string;
  lastSeenSeq : option Z;
  payload : option json
}.

Record CommandResult := mkResult {
  outcome : CommandOutcome;
  res_commandId : string;
  res_action : RemoteCommandAction;
  res_result : option json;
  res_reason : option string
}.

(** The timestamps are ISO texts of a time; the row keeps the time. *)
Inductive CommandAuditRow :=
| command_intent (env : CommandEnvelope) (timestamp : Z)
| command_result (env : CommandEnvelope) (out : CommandOutcome) (reason : option string)
    (result : option json) (timestamp : Z)
| pre_audit_reject (id : string) (act : RemoteCommandAction) (reason : string) (timestamp : Z)
| grant_revoke (grant : string) (node epoch : string) (policyVersion : option Z) (timestamp : Z).

#[export] Instance CommandEnvelope_eq_dec : EqDecision CommandEnvelope.
Proof. solve_decision. Defined.
#[export] Instance CommandAuditRow_eq_dec : EqDecision CommandAuditRow.
Proof. solve_decision. Defined.

Record IdempotencyEntry := mkIdem {
  ie_tupleKey : string;
  ie_lastUsedAt : Z;
  ie_createdAt : Z;
  ie_commandId : string;
  ie_result : option CommandResult
}.

Record CommandJournalSnapshot := mkSnapshot {
  auditSizeBytes : Z;
  createdAt : Z;
  snap_intents : list (CommandEnvelope * Z);
  snap_results : list (string * CommandResult * Z);
  snap_idempotency : list IdempotencyEntry;
  snap_tombstones : list string
}.

(** The fields of [CommandJournal] that change. *)
Record CommandJournal := mkJournal {
  intents : jmap string (CommandEnvelope * Z);
  results : jmap string CommandResult;
  idempotency : jmap string IdempotencyEntry;
  tombstones : jmap string unit;
  commandLastSeenAt : jmap string Z
}.

Definition emptyJournal : CommandJournal := mkJournal [] [] [] [] [].

Definition DAY_MS : Z := 24 * 60 * 60 * 1000.
Definition MAX_IDEMPOTENCY_ENTRIES : nat := Z.to_nat 100000.
Definition MAX_COMMAND_STATE_ENTRIES : nat := MAX_IDEMPOTENCY_ENTRIES.

Definition NUL : ascii := "000"%char.

Definition tupleKey (c : CommandEnvelope) : string :=
  joinWith (String NUL "")
    [nodeId c; nodeEpoch c; sessionId c; sessionEpoch c; grantId c; idempotencyKey c].

(** [key.split('\0', 3)[1]]. *)
Definition epochField (key : string) : option string := unchars <$> splitOn NUL (chars key) !! 1%nat.

(** ** Pruning *)

Definition setLastUsed (t : Z) (e : IdempotencyEntry) : IdempotencyEntry :=
  mkIdem (ie_tupleKey e) t (ie_createdAt e) (ie_commandId e) (ie_result e).

Definition setResult (r : CommandResult) (t : Z) (e : IdempotencyEntry) : IdempotencyEntry :=
  mkIdem (ie_tupleKey e) t (ie_createdAt e) (ie_commandId e) (Some r).

(** The ids a [Set] of the two key sequences holds, in insertion order. *)
Definition commandStateIds (j : CommandJournal) : list string :=
  mkeys (foldl (λ m k, mset k tt m) [] (mkeys (intents j) ++ mkeys (results j))).

(** The [for ... break] loop that fills [keep]. *)
Fixpoint fillKeep (keep : jmap string unit) (ids : list string) : jmap string unit :=
  match ids with
  | [] => keep
  | id :: ids' =>
      if bool_decide (MAX_COMMAND_STATE_ENTRIES ≤ msize keep)%nat then keep
      else fillKeep (mset id tt keep) ids'
  end.

Definition keepIds (j : CommandJournal) : jmap string unit :=
  fillKeep (foldl (λ m e, mset (ie_commandId e) tt m) [] (mvals (idempotency j)))
    (sort_by (λ a b, snd b - snd a) (commandLastSeenAt j)).*1.

Definition restrict {V} (keep : jmap string unit) (m : jmap string V) : jmap string V :=
  List.filter (λ '(k, _), mhas k keep) m.

Definition pruneCommandState (j : CommandJournal) : CommandJournal :=
  if bool_decide (length (commandStateIds j) ≤ MAX_COMMAND_STATE_ENTRIES)%nat then j else
  let keep := keepIds j in
  mkJournal (restrict keep (intents j)) (restrict keep (results j)) (idempotency j)
    (tombstones j) (restrict keep (commandLastSeenAt j)).

Definition withIdempotency (m : jmap string IdempotencyEntry) (j : CommandJournal) : CommandJournal :=
  mkJournal (intents j) (results j) m (tombstones j) (commandLastSeenAt j).

(** The entry is dropped by [prune] at time [t] in a journal of this epoch. *)
Definition prunable (epoch : string) (t : Z) (key : string) (e : IdempotencyEntry) : bool :=
  (ie_createdAt e <? t - DAY_MS) || negb (bool_decide (epochField key = Some epoch)).

Definition prune (epoch : string) (t : Z) (j : CommandJournal) : CommandJournal :=
  let live := List.filter (λ '(k, e), negb (prunable epoch t k e)) (idempotency j) in
  let j := withIdempotency live j in
  if bool_decide (msize live ≤ MAX_IDEMPOTENCY_ENTRIES)%nat then j else
  let lru := sort_by (λ a b, ie_lastUsedAt a - ie_lastUsedAt b) (mvals live) in
  let victims := take (msize live - MAX_IDEMPOTENCY_ENTRIES) lru in
  pruneCommandState (withIdempotency (foldl (λ m e, mdel (ie_tupleKey e) m) live victims) j).

(** ** The methods *)

Definition hasTombstone (g : string) (j : CommandJournal) : bool := mhas g (tombstones j).

(** [begin], at the reading [t] of the clock in [prune] and [t'] afterwards. *)
Definition begin (epoch : string) (t t' : Z) (c : CommandEnvelope) (j : CommandJournal)
    : option CommandResult * CommandJournal :=
  let j := prune epoch t j in
  match mget (tupleKey c) (idempotency j) with
  | Some e =>
      let j' := withIdempotency (mset (tupleKey c) (setLastUsed t' e) (idempotency j)) j in
      (Some match ie_result e with
            | Some r => mkResult (outcome r) (commandId c) (res_action r) (res_result r) (res_reason r)
            | None => mkResult unknown_intent_only (commandId c) (action c) None
                        (Some "matching command intent has no result yet")
            end, j')
  | None => (None, j)
  end.

Definition appendIntent (c : CommandEnvelope) (t : Z) (j : CommandJournal)
    : CommandJournal * CommandAuditRow :=
  (mkJournal (mset (commandId c) (c, t) (intents j)) (results j)
     (mset (tupleKey c) (mkIdem (tupleKey c) t t (commandId c) None) (idempotency j))
     (tombstones j) (mset (commandId c) t (commandLastSeenAt j)),
   command_intent c t).

Definition appendResult (c : CommandEnvelope) (r : CommandResult) (t : Z) (j : CommandJournal)
    : CommandJournal * CommandAuditRow :=
  (mkJournal (mdel (commandId c) (intents j)) (mset (commandId c) r (results j))
     (mupd (setResult r t) (tupleKey c) (idempotency j))
     (tombstones j) (mset (commandId c) t (commandLastSeenAt j)),
   command_result c (outcome r) (res_reason r) (res_result r) t).

Definition rejectResult (id : string) (act : RemoteCommandAction) (reason : string) : CommandResult :=
  mkResult rejected_pre_audit id act None (Some reason).

Definition appendPreAuditReject (id : string) (act : RemoteCommandAction) (reason : string) (t : Z)
    (j : CommandJournal) : CommandResult * CommandJournal * CommandAuditRow :=
  (rejectResult id act reason,
   mkJournal (intents j) (mset id (rejectResult id act reason) (results j)) (idempotency j)
     (tombstones j) (mset id t (commandLastSeenAt j)),
   pre_audit_reject id act reason t).

Definition revokeGrant (node epoch grant : string) (policyVersion : option Z) (t : Z)
    (j : CommandJournal) : CommandJournal * CommandAuditRow :=
  (mkJournal (intents j) (results j) (idempotency j) (mset grant tt (tombstones j))
     (commandLastSeenAt j),
   grant_revoke grant node epoch policyVersion t).

(** The method [outcome]. *)
Definition commandOutcome (id : string) (j : CommandJournal) : CommandResult :=
  match mget id (results j) with
  | Some r => r
  | None =>
      match mget id (intents j) with
      | Some (c, _) => mkResult unknown_intent_only id (action c) None None
      | None => mkResult unknown_never_seen id presetReply None None
      end
  end.

(** ** Recovery *)

Definition applyAuditRow (epoch : string) (j : CommandJournal) (row : CommandAuditRow)
    : CommandJournal :=
  match row with
  | grant_revoke g _ _ _ _ =>
      mkJournal (intents j) (results j) (idempotency j) (mset g tt (tombstones j))
        (commandLastSeenAt j)
  | command_intent c t =>
      mkJournal (mset (commandId c) (c, t) (intents j)) (results j)
        (if String.eqb (nodeEpoch c) epoch
         then mset (tupleKey c) (mkIdem (tupleKey c) t t (commandId c) None) (idempotency j)
         else idempotency j)
        (tombstones j) (mset (commandId c) t (commandLastSeenAt j))
  | command_result c out reason result t =>
      let r := mkResult out (commandId c) (action c) result reason in
      mkJournal (mdel (commandId c) (intents j)) (mset (commandId c) r (results j))
        (if String.eqb (nodeEpoch c) epoch
         then mset (tupleKey c) (mkIdem (tupleKey c) t t (commandId c) (Some r)) (idempotency j)
         else idempotency j)
        (tombstones j) (mset (commandId c) t (commandLastSeenAt j))
  | pre_audit_reject id act reason t =>
      mkJournal (mdel id (intents j)) (mset id (rejectResult id act reason) (results j))
        (idempotency j) (tombstones j) (mset id t (commandLastSeenAt j))
  end.

Definition applyRows (epoch : string) (j : CommandJournal) (rows : list CommandAuditRow)
    : CommandJournal := foldl (applyAuditRow epoch) j rows.

Definition applySnapshot (s : CommandJournalSnapshot) : CommandJournal :=
  let seen1 := foldl (λ m i, mset (commandId (fst i)) (snd i) m) [] (snap_intents s) in
  let seen2 := foldl (λ m '(id, _, t), mset id t m) seen1 (snap_results s) in
  let seen3 := foldl (λ m e, mset (ie_commandId e)
                 (Z.max (orElse (mget (ie_commandId e) m) 0) (ie_lastUsedAt e)) m)
                 seen2 (snap_idempotency s) in
  mkJournal
    (foldl (λ m i, mset (commandId (fst i)) i m) [] (snap_intents s))
    (mimport (map fst (snap_results s)) [])
    (foldl (λ m e, mset (ie_tupleKey e) e m) [] (snap_idempotency s))
    (foldl (λ m g, mset g tt m) [] (snap_tombstones s))
    seen3.

(** [writeSnapshot]: the projection it stores, at clock reading [t]. *)
Definition takeSnapshot (size t : Z) (j : CommandJournal) : CommandJournal * CommandJournalSnapshot :=
  let j := pruneCommandState j in
  (j, mkSnapshot size t
        (List.filter (λ i, negb (mhas (commandId (fst i)) (results j))) (mvals (intents j)))
        (map (λ '(id, r), (id, r, orElse (mget id (commandLastSeenAt j)) t)) (results j))
        (mvals (idempotency j)) (mkeys (tombstones j))).

(** ** The files *)

(** The audit file: its complete lines, [None] for one that is not a row, and
    the text after the last newline: absent, a fragment, or a whole row. *)
Record AuditFile := mkFile {
  lines : list (option CommandAuditRow);
  tail : option (option CommandAuditRow)
}.

Definition emptyFile : AuditFile := mkFile [] None.

(** [appendFile(path, row + '\n')]: after unterminated text the new row
    completes that line, which is then no row. *)
Definition appendFile (r : CommandAuditRow) (f : AuditFile) : AuditFile :=
  match tail f with
  | None => mkFile (lines f ++ [Some r]) None
  | Some _ => mkFile (lines f ++ [None]) None
  end.

(** The same call cut short by a crash, before the closing brace or before the
    newline. *)
Definition tornAppend (whole : bool) (r : CommandAuditRow) (f : AuditFile) : AuditFile :=
  match tail f with
  | None => mkFile (lines f) (Some (if whole then Some r else None))
  | Some _ => mkFile (lines f) (Some None)
  end.

(** The rows [applyAuditLines] finds in the text. *)
Definition rowsOf (f : AuditFile) : list CommandAuditRow :=
  omap id (lines f) ++ match tail f with Some (Some r) => [r] | _ => [] end.

Record Disk := mkDisk {
  audit : AuditFile;
  snapshot : option CommandJournalSnapshot;
  archives : list AuditFile
}.

Definition emptyDisk : Disk := mkDisk emptyFile None [].

(** [load].  [writeSnapshot] is only called with the offset 0, so the offset of
    a snapshot never exceeds the size of the audit file, and the whole file is
    replayed. *)
Definition replayed (epoch : string) (d : Disk) : CommandJournal :=
  applyRows epoch (match snapshot d with Some s => applySnapshot s | None => emptyJournal end)
    (rowsOf (audit d)).

Definition load (epoch : string) (d : Disk) : CommandJournal :=
  pruneCommandState (pruneCommandState (replayed epoch d)).

(** [rotateActiveAudit], in its two halves: the snapshot is installed, then the
    active audit is archived and started afresh. *)
Definition installSnapshot (s : CommandJournalSnapshot) (d : Disk) : Disk :=
  mkDisk (audit d) (Some s) (archives d).

Definition rotate (d : Disk) : Disk := mkDisk emptyFile (snapshot d) (archives d ++ [audit d]).

(** ** The pipeline of [command-pipeline.ts] *)

Definition actionName (a : RemoteCommandAction) : string :=
  match a with
  | presetReply => "presetReply" | permissionApprove => "permissionApprove" | skip => "skip"
  | snooze => "snooze" | mark_done => "mark-done" | launch => "launch"
  | leaseAcquire => "leaseAcquire" | leaseHeartbeat => "leaseHeartbeat"
  | leaseOverride => "leaseOverride" | submitMessage => "submitMessage"
  end.

(** A request runs from one [await] to the next: it waits for the answer of [authorize], for the
    one of [validate], for the append of its intent, or for its handler. *)
Inductive Phase :=
| authorizing
| validating
| logging (row : CommandAuditRow)
| executing.

(** What it does at such a step: it is answered or it waits again, with the journal and the row
    that is handed to [appendFile]. *)
Inductive Advance :=
| Replied (r : CommandResult) (j : CommandJournal) (row : option CommandAuditRow)
| Waiting (p : Phase) (j : CommandJournal) (row : option CommandAuditRow).

Definition reject (reason : string) (t : Z) (c : CommandEnvelope) (j : CommandJournal) : Advance :=
  let '(r, j, row) := appendPreAuditReject (commandId c) (action c) reason t j in Replied r j (Some row).

(** Up to the call of [authorize]. *)
Definition pipelineReceive (handlerAction : RemoteCommandAction) (t : Z) (c : CommandEnvelope)
    (j : CommandJournal) : Advance :=
  if negb (bool_decide (action c = handlerAction)) then
    reject ("handler mismatch for action " +:+ actionName (action c)) t c j
  else if hasTombstone (grantId c) j then reject "grant revoked" t c j
  else Waiting authorizing j None.

(** From its answer to the call of [validate]; [Some reason] is a refusal. *)
Definition pipelineAuthorized (auth : option string) (t : Z) (c : CommandEnvelope) (j : CommandJournal) : Advance :=
  match auth with Some reason => reject reason t c j | None => Waiting validating j None end.

(** From that answer to the append of the intent: [begin] and [appendIntent] have no [await]
    between them. *)
Definition pipelineValidated (epoch : string) (valid : option string) (t t' t'' : Z) (c : CommandEnvelope)
    (j : CommandJournal) : Advance :=
  match valid with
  | Some reason => reject reason t'' c j
  | None =>
      match begin epoch t t' c j with
      | (Some r, j) => Replied r j None
      | (None, j) => let '(j, row) := appendIntent c t'' j in Waiting (logging row) j (Some row)
      end
  end.

Definition pipelineFinish (c : CommandEnvelope) (executed : result string json) (t : Z)
    (j : CommandJournal) : CommandResult * CommandJournal * CommandAuditRow :=
  let r := match executed with
           | Ok v => mkResult accepted (commandId c) (action c) (Some v) None
           | Err reason => mkResult rejected (commandId c) (action c) None (Some reason)
           end in
  let '(j, row) := appendResult c r t j in (r, j, row).

(** [executeWithPipeline] with nothing else at its [await]s; the flag says that the handler ran. *)
Definition executeWithPipeline (epoch : string) (handlerAction : RemoteCommandAction)
    (auth valid : option string) (execute : CommandEnvelope → result string json)
    (t t' t'' t3 : Z) (c : CommandEnvelope) (j : CommandJournal)
    : CommandResult * CommandJournal * list CommandAuditRow * bool :=
  match pipelineReceive handlerAction t'' c j with
  | Replied r j row => (r, j, option_list row, false)
  | Waiting _ j _ =>
      match pipelineAuthorized auth t'' c j with
      | Replied r j row => (r, j, option_list row, false)
      | Waiting _ j _ =>
          match pipelineValidated epoch valid t t' t'' c j with
          | Replied r j row => (r, j, option_list row, false)
          | Waiting _ j row =>
              let '(r, j, row') := pipelineFinish c (execute c) t3 j in (r, j, option_list row ++ [row'], true)
          end
      end
  end.

(** ** The node over time *)

Record Request := mkRequest { rq_command : CommandEnvelope; rq_phase : Phase }.

(** A compaction that is under way: the projection was taken, it was written as the snapshot, or
    the audit was moved to the archives. *)
Inductive Compaction :=
| Captured (snap : CommandJournalSnapshot)
| Installed
| Renamed.

(** The journal in memory, the rows handed to [appendFile] and not yet written, the disk, whether
    the active audit is absent, what is under way, and, as a record of what was done, the tuples
    whose handlers were called. *)
Record Sys := mkSys {
  mem : CommandJournal;
  pending : list CommandAuditRow;
  disk : Disk;
  missing : bool;
  requests : jmap nat Request;
  compactions : jmap nat Compaction;
  ran : list string
}.

(** A process that starts on this disk. *)
Definition restart (epoch : string) (d : Disk) (absent : bool) (done_ : list string) : Sys :=
  mkSys (load epoch d) [] d absent [] [] done_.

Definition boot : Sys := mkSys emptyJournal [] emptyDisk true [] [] [].

(** One event.  A request arrives, is authorized, is validated, finds its intent written and calls
    its handler, or finds the handler done; a grant is revoked; the oldest pending append
    reaches the file (appends are written in the order in which they were issued); a compaction
    takes its projection or makes its next step; or the process dies, perhaps while it writes
    the oldest pending row, and starts again. *)
Inductive op :=
| Receive (n : nat) (handlerAction : RemoteCommandAction) (t : Z) (c : CommandEnvelope)
| Authorized (n : nat) (auth : option string) (t : Z)
| Validated (n : nat) (valid : option string) (t t' t'' : Z)
| Execute (n : nat)
| Finish (n : nat) (executed : result string json) (t : Z)
| Revoke (grant node : string) (policyVersion : option Z) (t : Z)
| Flush
| Compact (n : nat) (t : Z)
| CompactStep (n : nat)
| Crash (torn : option bool).

Definition onDisk (d : Disk) (s : Sys) : Sys := {| s with disk := d |}.
Definition onMem (j : CommandJournal) (row : option CommandAuditRow) (s : Sys) : Sys :=
  {| s with mem := j; pending := pending s ++ option_list row |}.
Definition onAudit (f : AuditFile) (s : Sys) : Sys :=
  {| s with disk := mkDisk f (snapshot (disk s)) (archives (disk s)) |}.

Definition onRequests (q : jmap nat Request) (s : Sys) : Sys := {| s with requests := q |}.
Definition onCompactions (m : jmap nat Compaction) (s : Sys) : Sys := {| s with compactions := m |}.
Definition onPending (rows : list CommandAuditRow) (s : Sys) : Sys := {| s with pending := rows |}.
Definition setMissing (b : bool) (s : Sys) : Sys := {| s with missing := b |}.

(** A request makes a step. *)
Definition advance (n : nat) (c : CommandEnvelope) (a : Advance) (s : Sys) : Sys :=
  match a with
  | Replied _ j row => onRequests (mdel n (requests s)) (onMem j row s)
  | Waiting p j row => onRequests (mset n (mkRequest c p) (requests s)) (onMem j row s)
  end.

(** [rotateActiveAudit] from one [await] to the next: the rename of the snapshot, the rename of
    the audit, which throws when there is none, and the write of an empty one. *)
Definition compactStep (n : nat) (p : Compaction) (s : Sys) : Sys :=
  match p with
  | Captured snap => onCompactions (mset n Installed (compactions s)) (onDisk (installSnapshot snap (disk s)) s)
  | Installed =>
      if missing s then onCompactions (mdel n (compactions s)) s
      else onCompactions (mset n Renamed (compactions s)) (setMissing true (onDisk (rotate (disk s)) s))
  | Renamed => onCompactions (mdel n (compactions s)) (setMissing false (onAudit emptyFile s))
  end.

Definition exec (epoch : string) (s : Sys) (o : op) : Sys :=
  match o with
  | Receive n h t c => if mhas n (requests s) then s else advance n c (pipelineReceive h t c (mem s)) s
  | Authorized n auth t =>
      match mget n (requests s) with
      | Some (mkRequest c authorizing) => advance n c (pipelineAuthorized auth t c (mem s)) s
      | _ => s
      end
  | Validated n valid t t' t'' =>
      match mget n (requests s) with
      | Some (mkRequest c validating) => advance n c (pipelineValidated epoch valid t t' t'' c (mem s)) s
      | _ => s
      end
  | Execute n =>
      match mget n (requests s) with
      | Some (mkRequest c (logging row)) =>
          if bool_decide (row ∈ pending s) then s
          else {| s with requests := mset n (mkRequest c executing) (requests s); ran := ran s ++ [tupleKey c] |}
      | _ => s
      end
  | Finish n executed t =>
      match mget n (requests s) with
      | Some (mkRequest c executing) =>
          let '(r, j, row) := pipelineFinish c executed t (mem s) in advance n c (Replied r j (Some row)) s
      | _ => s
      end
  | Revoke g node pv t => let '(j, row) := revokeGrant node epoch g pv t (mem s) in onMem j (Some row) s
  | Flush =>
      match pending s with
      | [] => s
      | r :: rows => onPending rows (setMissing false (onAudit (appendFile r (audit (disk s))) s))
      end
  | Compact n t =>
      if mhas n (compactions s) then s
      else
        let '(j, snap) := takeSnapshot 0 t (mem s) in
        onCompactions (mset n (Captured snap) (compactions s)) (onMem j None s)
  | CompactStep n => match mget n (compactions s) with Some p => compactStep n p s | None => s end
  | Crash torn =>
      match torn, pending s with
      | Some whole, r :: _ => restart epoch (disk (onAudit (tornAppend whole r (audit (disk s))) s)) false (ran s)
      | _, _ => restart epoch (disk s) (missing s) (ran s)
      end
  end.

Definition run (epoch : string) (ops : list op) (s : Sys) : Sys := foldl (exec epoch) s ops.

(** What the journal needs of the disk: no row is appended to a line that a crash cut short, and
    none reaches the file inside a compaction.  [torn_append_swallows] and [compaction_race]
    show what happens otherwise; the code does nothing to prevent either. *)
Definition calm (s : Sys) (o : op) : Prop :=
  match o with
  | Flush => pending s ≠ [] → tail (audit (disk s)) = None ∧ compactions s = []
  | Crash (Some _) => pending s ≠ [] → tail (audit (disk s)) = None
  | _ => True
  end.

Fixpoint calmRun (epoch : string) (ops : list op) (s : Sys) : Prop :=
  match ops with
  | [] => True
  | o :: ops => calm s o ∧ calmRun epoch ops (exec epoch s o)
  end.

(** The rows that have reached the disk, and all rows not lost. *)
Definition written (s : Sys) : list CommandAuditRow :=
  concat (map rowsOf (archives (disk s))) ++ rowsOf (audit (disk s)).
Definition log (s : Sys) : list CommandAuditRow := written s ++ pending s.

(** ** Agreement of two journals

    [covers m r]: the journal [r], rebuilt from the disk, answers every query as
    [m] does.  An intent is only visible while its command has no result, and [m]
    may have dropped expired idempotency entries. *)

Record covers (m r : CommandJournal) : Prop := {
  cov_tomb g : mget g (tombstones m) = mget g (tombstones r);
  cov_res i : mget i (results m) = mget i (results r);
  cov_int i : mget i (results m) = None → mget i (intents m) = mget i (intents r);
  cov_idem k e : mget k (idempotency m) = Some e →
    ∃ e', mget k (idempotency r) = Some e' ∧ ie_result e' = ie_result e
}.

#[export] Instance covers_preorder : PreOrder covers.
Proof.
  split; [by intros m; split; eauto|].
  intros a b c [T1 R1 I1 D1] [T2 R2 I2 D2]. split.
  - intros g. by rewrite T1.
  - intros i. by rewrite R1.
  - intros i Hn. rewrite I1 by done. apply I2. by rewrite <- R1.
  - intros k e He. destruct (D1 k e He) as (e1 & H1 & <-).
    destruct (D2 k e1 H1) as (e2 & H2 & <-). eauto.
Qed.

Lemma covers_outcome m r i : covers m r → commandOutcome i m = commandOutcome i r.
Proof.
  intros [_ R I _]. unfold commandOutcome. rewrite <- R.
  destruct (mget i (results m)) eqn:E; [done|]. by rewrite I.
Qed.

Section epoch.
Context (epoch : string).
Implicit Types (j m r : CommandJournal) (row : CommandAuditRow) (rows : list CommandAuditRow).

Lemma applyAuditRow_covers row m r :
  covers m r → covers (applyAuditRow epoch m row) (applyAuditRow epoch r row).
Proof.
  intros [T R I D]. destruct row as [c t|c out reason result t|i act reason t|g node ep pv t];
    simpl; split; simpl; intros; try (by auto).
  - rewrite !mget_mset. case_decide; [done|]. by apply I.
  - destruct (String.eqb _ _); [|by apply D].
    rewrite mget_mset in *. case_decide; [simplify_eq; eauto|by apply D].
  - rewrite !mget_mset. case_decide; [done|]. apply R.
  - rewrite mget_mset in *. rewrite !mget_mdel. case_decide; [done|]. by apply I.
  - destruct (String.eqb _ _); [|by apply D].
    rewrite mget_mset in *. case_decide; [simplify_eq; eauto|by apply D].
  - rewrite !mget_mset. case_decide; [done|]. apply R.
  - rewrite mget_mset in *. rewrite !mget_mdel. case_decide; [done|]. by apply I.
  - rewrite !mget_mset. case_decide; [done|]. apply T.
Qed.

Lemma applyRows_app m rows1 rows2 :
  applyRows epoch m (rows1 ++ rows2) = applyRows epoch (applyRows epoch m rows1) rows2.
Proof. apply foldl_app. Qed.

(** *** Replaying rows that are already contained changes nothing

    A row writes a constant to some of the cells of the journal and leaves the
    others alone; so does a sequence of rows. *)

Definition settled {A} (look : CommandJournal → A) (f : CommandJournal → CommandJournal) : Prop :=
  (∃ v, ∀ m, look (f m) = v) ∨ (∀ m, look (f m) = look m).

Lemma settled_rows {A} (look : CommandJournal → A) :
  (∀ row, settled look (λ m, applyAuditRow epoch m row)) →
  ∀ rows, settled look (λ m, applyRows epoch m rows).
Proof.
  intros Hrow rows. induction rows as [|row rows IH]; simpl; [by right|].
  destruct IH as [[v Hv]|Ht]; [left; exists v; intros; apply Hv|].
  destruct (Hrow row) as [[v Hv]|Hr].
  - left. exists v. intros m. by rewrite (Ht (applyAuditRow epoch m row)).
  - right. intros m. by rewrite (Ht (applyAuditRow epoch m row)).
Qed.

Lemma settled_tomb g rows : settled (λ m, mget g (tombstones m)) (λ m, applyRows epoch m rows).
Proof.
  apply settled_rows. intros [c t|c out reason result t|i act reason t|g' node ep pv t];
    try (by right).
  destruct (decide (g = g')) as [->|Hne]; [left; eexists|right]; intros; simpl;
    [by rewrite mget_mset_eq|by rewrite mget_mset_ne].
Qed.

Lemma settled_res i rows : settled (λ m, mget i (results m)) (λ m, applyRows epoch m rows).
Proof.
  apply settled_rows. intros [c t|c out reason result t|i' act reason t|g' node ep pv t];
    try (by right).
  - destruct (decide (i = commandId c)) as [->|Hne]; [left; eexists|right]; intros; simpl;
      [by rewrite mget_mset_eq|by rewrite mget_mset_ne].
  - destruct (decide (i = i')) as [->|Hne]; [left; eexists|right]; intros; simpl;
      [by rewrite mget_mset_eq|by rewrite mget_mset_ne].
Qed.

Lemma settled_int i rows : settled (λ m, mget i (intents m)) (λ m, applyRows epoch m rows).
Proof.
  apply settled_rows. intros [c t|c out reason result t|i' act reason t|g' node ep pv t];
    try (by right).
  - destruct (decide (i = commandId c)) as [->|Hne]; [left; eexists|right]; intros; simpl;
      [by rewrite mget_mset_eq|by rewrite mget_mset_ne].
  - destruct (decide (i = commandId c)) as [->|Hne]; [left; eexists|right]; intros; simpl;
      [by rewrite mget_mdel_eq|by rewrite mget_mdel_ne].
  - destruct (decide (i = i')) as [->|Hne]; [left; eexists|right]; intros; simpl;
      [by rewrite mget_mdel_eq|by rewrite mget_mdel_ne].
Qed.

Lemma settled_idem k rows : settled (λ m, mget k (idempotency m)) (λ m, applyRows epoch m rows).
Proof.
  apply settled_rows. intros [c t|c out reason result t|i' act reason t|g' node ep pv t];
    try (by right); simpl; destruct (String.eqb _ _); try (by right);
    (destruct (decide (k = tupleKey c)) as [->|Hne]; [left; eexists|right]; intros; simpl;
      [by rewrite mget_mset_eq|by rewrite mget_mset_ne]).
Qed.

Lemma settled_same {A} (look : CommandJournal → A) f m r :
  settled look f → look m = look (f r) → look (f m) = look m.
Proof. intros [[v Hv]|Ht] Hl; [by rewrite Hl, !Hv|apply Ht]. Qed.

(** A snapshot may be taken while rows are pending: replaying them on top of it
    is harmless. *)
Lemma reapply_covers m r rows :
  covers m (applyRows epoch r rows) → covers m (applyRows epoch m rows).
Proof.
  intros [T R I D]. split.
  - intros g. symmetry. by apply (settled_same _ _ m r (settled_tomb g rows)).
  - intros i. symmetry. by apply (settled_same _ _ m r (settled_res i rows)).
  - intros i Hn. symmetry. apply (settled_same _ _ m r (settled_int i rows)). by apply I.
  - intros k e He. destruct (D k e He) as (e' & He' & H1).
    destruct (settled_idem k rows) as [[v Hv]|Ht].
    + exists e'. split; [|done]. cbn in Hv. rewrite Hv. by rewrite <- He', Hv.
    + exists e. cbn in Ht. by rewrite Ht.
Qed.

(** ** Well-formed journals *)

Record wfJ (j : CommandJournal) : Prop := {
  wf_intents : mwf (intents j);
  wf_results : mwf (results j);
  wf_idem : mwf (idempotency j);
  wf_tomb : mwf (tombstones j);
  wf_intent_id i c t : mget i (intents j) = Some (c, t) → commandId c = i;
  wf_idem_key k e : mget k (idempotency j) = Some e → ie_tupleKey e = k
}.

Lemma wfJ_empty : wfJ emptyJournal.
Proof. split; simpl; (apply mwf_nil || done). Qed.

Lemma applyAuditRow_wf row j : wfJ j → wfJ (applyAuditRow epoch j row).
Proof.
  intros [A B C D E F]. destruct row as [c t|c out reason result t|i act reason t|g node ep pv t];
    simpl; split; simpl; auto with kookr.
  - destruct (String.eqb _ _); auto with kookr.
  - intros i c' t'. rewrite mget_mset. case_decide; [by intros [= -> ->]|apply E].
  - intros k e. destruct (String.eqb _ _); [|apply F].
    rewrite mget_mset. case_decide; [by intros [= <-]|apply F].
  - destruct (String.eqb _ _); auto with kookr.
  - intros i c' t'. rewrite mget_mdel. case_decide; [done|apply E].
  - intros k e. destruct (String.eqb _ _); [|apply F].
    rewrite mget_mset. case_decide; [by intros [= <-]|apply F].
  - intros i' c' t'. rewrite mget_mdel. case_decide; [done|apply E].
Qed.

Lemma applyRows_wf rows j : wfJ j → wfJ (applyRows epoch j rows).
Proof.
  unfold applyRows. revert j. induction rows as [|row rows IH]; intros j Hj; simpl; [done|].
  by apply IH, applyAuditRow_wf.
Qed.

(** Values restored under the key each of them carries. *)
Lemma restore_vals {V} (f : V → string) (m : jmap string V) :
  mwf m → (∀ k v, mget k m = Some v → f v = k) →
  foldl (λ acc v, mset (f v) v acc) [] (mvals m) = m.
Proof.
  intros Hwf Hf. rewrite <- (mimport_roundtrip m Hwf) at 2. unfold mimport, mvals.
  assert (Hall : ∀ k v, (k, v) ∈ m → f v = k) by (intros; apply Hf; by apply elem_of_mget).
  clear Hf Hwf. generalize (@nil (string * V)) as acc.
  induction m as [|[k v] m IH]; intros acc; simpl; [done|].
  rewrite (Hall k v) by set_solver. apply IH. set_solver.
Qed.

(** The part of the intents a snapshot keeps. *)
Definition openIntents (j : CommandJournal) : jmap string (CommandEnvelope * Z) :=
  List.filter (λ p, negb (mhas (fst p) (results j))) (intents j).

Lemma openIntents_vals j :
  wfJ j →
  mvals (openIntents j) =
  List.filter (λ i, negb (mhas (commandId (fst i)) (results j))) (mvals (intents j)).
Proof.
  intros [A _ _ _ E _]. unfold openIntents, mvals.
  assert (Hall : ∀ i x, (i, x) ∈ intents j → commandId (fst x) = i).
  { intros i [c t] Hin. simpl. eapply E. by apply elem_of_mget. }
  clear A E. induction (intents j) as [|[i x] m IH]; csimpl; [done|].
  rewrite (Hall i x) by set_solver. destruct (negb _); csimpl; rewrite IH; set_solver.
Qed.

Lemma mget_filter_key {V} (p : string → bool) (m : jmap string V) k :
  mget k (List.filter (λ q, p (fst q)) m) = if p k then mget k m else None.
Proof.
  induction m as [|[k' v] m IH]; cbn [List.filter fst]; [by destruct (p k)|].
  destruct (decide (k = k')) as [->|Hne].
  - rewrite (mget_here k' v m). destruct (p k') eqn:E; [by rewrite mget_here|]. by rewrite IH, ?E.
  - rewrite (mget_there k k' v m) by done. destruct (p k'); [by rewrite mget_there|done].
Qed.

Lemma mget_openIntents j k :
  mget k (openIntents j) = if mhas k (results j) then None else mget k (intents j).
Proof.
  unfold openIntents. rewrite (mget_filter_key (λ x, negb (mhas x (results j)))).
  by destruct (mhas k (results j)).
Qed.

(** Taking a snapshot and restoring it. *)
Lemma snapshot_restores size t j :
  wfJ j → pruneCommandState j = j →
  let snap := snd (takeSnapshot size t j) in
  intents (applySnapshot snap) = openIntents j ∧ results (applySnapshot snap) = results j ∧
  idempotency (applySnapshot snap) = idempotency j ∧
  tombstones (applySnapshot snap) = tombstones j.
Proof.
  intros Hwf Hp. pose proof Hwf as [A B C D E F]. unfold takeSnapshot. rewrite Hp. simpl.
  split_and!.
  - rewrite <- openIntents_vals by done.
    apply (restore_vals (λ i, commandId (fst i))); [by apply mwf_filter|].
    intros k [c u] Hk. simpl. rewrite mget_openIntents in Hk.
    destruct (mhas k _); [done|]. by eapply E.
  - rewrite map_map. rewrite <- (mimport_roundtrip (results j)) at 2 by done. f_equal.
    rewrite <- (map_id (results j)) at 2. apply map_ext. by intros [i r].
  - by apply restore_vals.
  - rewrite <- (mimport_roundtrip (tombstones j)) at 2 by done. unfold mimport, mkeys.
    clear A B C D E F Hwf Hp. generalize (@nil (string * unit)) as acc.
    induction (tombstones j) as [|[g []] m IH]; intros acc; simpl; auto.
Qed.

Lemma snapshot_covers size t j :
  wfJ j → pruneCommandState j = j →
  let j' := applySnapshot (snd (takeSnapshot size t j)) in
  covers j j' ∧ wfJ j'.
Proof.
  intros Hwf Hp. destruct (snapshot_restores size t j Hwf Hp) as (I & R & D & T).
  cbv zeta in *. set (j' := applySnapshot _) in *. clearbody j'. split; split.
  - intros g. by rewrite T.
  - intros i. by rewrite R.
  - intros i Hn. rewrite I, mget_openIntents. unfold mhas. by rewrite Hn.
  - intros k e. rewrite D. eauto.
  - rewrite I. apply mwf_filter, Hwf.
  - rewrite R. apply Hwf.
  - rewrite D. apply Hwf.
  - rewrite T. apply Hwf.
  - intros i c u. rewrite I, mget_openIntents. destruct (mhas i _); [done|]. apply Hwf.
  - intros k e. rewrite D. apply Hwf.
Qed.

(** ** Sizes: nothing is evicted below the caps *)

Definition rowId (row : CommandAuditRow) : option string :=
  match row with
  | command_intent c _ | command_result c _ _ _ _ => Some (commandId c)
  | pre_audit_reject i _ _ _ => Some i
  | grant_revoke _ _ _ _ _ => None
  end.

Definition rowKey (row : CommandAuditRow) : option string :=
  match row with
  | command_intent c _ | command_result c _ _ _ _ => Some (tupleKey c)
  | _ => None
  end.

(** Every id and key of the journal comes from one of these rows. *)
Record known (rows : list CommandAuditRow) (j : CommandJournal) : Prop := {
  known_int i : is_Some (mget i (intents j)) → Some i ∈ map rowId rows;
  known_res i : is_Some (mget i (results j)) → Some i ∈ map rowId rows;
  known_idem k : is_Some (mget k (idempotency j)) → Some k ∈ map rowKey rows
}.

Lemma is_Some_mset {V} (k k' : string) (v : V) (m : jmap string V) :
  is_Some (mget k (mset k' v m)) ↔ k = k' ∨ is_Some (mget k m).
Proof.
  rewrite mget_mset. case_decide; [split; [by left|by eexists]|].
  split; [by right|by intros [?|?]].
Qed.

Lemma is_Some_mdel {V} (k k' : string) (m : jmap string V) : is_Some (mget k (mdel k' m)) → is_Some (mget k m).
Proof. rewrite mget_mdel. case_decide; [by intros [? ?]|done]. Qed.

Lemma known_weaken rows rows' j :
  (∀ row, row ∈ rows → row ∈ rows') → known rows j → known rows' j.
Proof.
  intros Hs [A B C]. assert (H : ∀ (f : CommandAuditRow → option string) x,
    x ∈ map f rows → x ∈ map f rows').
  { intros f x. rewrite !list_elem_of_fmap. intros (r & -> & Hr). eauto. }
  split; eauto.
Qed.

Lemma known_row rows row j : known rows j → row ∈ rows → known rows (applyAuditRow epoch j row).
Proof.
  intros [A B C] Hin.
  assert (Hid : ∀ i, rowId row = Some i → Some i ∈ map rowId rows)
    by (intros i <-; by apply list_elem_of_fmap_2).
  assert (Hkey : ∀ k, rowKey row = Some k → Some k ∈ map rowKey rows)
    by (intros k <-; by apply list_elem_of_fmap_2).
  destruct row as [c t|c out reason result t|i act reason t|g node ep pv t]; simpl in *;
    split; simpl; auto; intros x.
  - rewrite is_Some_mset. intros [->|?]; auto.
  - destruct (String.eqb _ _); [|auto]. rewrite is_Some_mset. intros [->|?]; auto.
  - intros Hx%is_Some_mdel. auto.
  - rewrite is_Some_mset. intros [->|?]; auto.
  - destruct (String.eqb _ _); [|auto]. rewrite is_Some_mset. intros [->|?]; auto.
  - intros Hx%is_Some_mdel. auto.
  - rewrite is_Some_mset. intros [->|?]; auto.
Qed.

Lemma NoDup_map_bound {B} (f : CommandAuditRow → option B) (l : list B) rows :
  NoDup l → (∀ x, x ∈ l → Some x ∈ map f rows) → (length l ≤ length rows)%nat.
Proof.
  intros Hnd Hin. rewrite <- (length_map f rows), <- (length_map Some l).
  apply NoDup_incl_length.
  - apply NoDup_ListNoDup. apply NoDup_fmap_2; [|done]. by intros ?? [=].
  - intros x Hx. apply list_elem_of_In in Hx. apply list_elem_of_fmap in Hx as (y & -> & Hy).
    apply list_elem_of_In. auto.
Qed.

Lemma commandStateIds_spec j :
  NoDup (commandStateIds j) ∧
  ∀ i, i ∈ commandStateIds j → i ∈ mkeys (intents j) ++ mkeys (results j).
Proof.
  unfold commandStateIds. generalize (mkeys (intents j) ++ mkeys (results j)) as l.
  intros l. assert (H : ∀ s : jmap string unit, mwf s →
    let s' := foldl (λ s k, mset k tt s) s l in
    mwf s' ∧ ∀ i, i ∈ mkeys s' → i ∈ mkeys s ∨ i ∈ l).
  { induction l as [|k l IH]; intros s Hm; simpl; [by split; [|left]|].
    destruct (IH (mset k tt s)) as [H1 H2]; [by apply mwf_mset|].
    split; [done|]. intros i Hi. destruct (H2 i Hi) as [Hk|?]; [|set_solver].
    rewrite elem_of_mkeys, is_Some_mset in Hk. rewrite <- elem_of_mkeys in Hk. set_solver. }
  destruct (H [] mwf_nil) as [H1 H2]. split; [exact H1|].
  intros i Hi. destruct (H2 i Hi) as [Hn|?]; [|done]. by apply elem_of_nil in Hn.
Qed.

Lemma known_small rows j :
  wfJ j → known rows j → (length rows ≤ MAX_IDEMPOTENCY_ENTRIES)%nat →
  pruneCommandState j = j ∧ (msize (idempotency j) ≤ MAX_IDEMPOTENCY_ENTRIES)%nat.
Proof.
  intros Hwf [A B C] Hlen. split.
  - unfold pruneCommandState, MAX_COMMAND_STATE_ENTRIES.
    rewrite bool_decide_true; [done|]. destruct (commandStateIds_spec j) as [Hnd Hin].
    etrans; [|exact Hlen]. apply (NoDup_map_bound rowId); [done|].
    intros i Hi. specialize (Hin i Hi). apply elem_of_app in Hin as [Hi'|Hi'];
      rewrite elem_of_mkeys in Hi'; auto.
  - etrans; [|exact Hlen]. unfold msize. rewrite <- (length_map fst (idempotency j)).
    apply (NoDup_map_bound rowKey); [apply Hwf|].
    intros k Hk. apply C. by apply elem_of_mkeys.
Qed.

(** ** The live operations against the rows they write *)

(** The journal [j] that an operation leaves in memory is answered for by the row
    it logs, replayed on the journal it started from. *)
Record logs (m j : CommandJournal) (row : CommandAuditRow) : Prop := {
  lg_cov : covers j (applyAuditRow epoch m row);
  lg_wf : wfJ m → wfJ j;
  lg_known rows : known rows m → row ∈ rows → known rows j
}.

Lemma appendIntent_logs c t m :
  nodeEpoch c = epoch → logs m (fst (appendIntent c t m)) (snd (appendIntent c t m)).
Proof.
  intros He.
  assert (Heq : fst (appendIntent c t m) = applyAuditRow epoch m (command_intent c t)).
  { simpl. by rewrite He, String.eqb_refl. }
  split.
  - by rewrite Heq.
  - intros. rewrite Heq. by apply applyAuditRow_wf.
  - intros. rewrite Heq. by apply known_row.
Qed.

Lemma appendResult_logs c out v reason t m :
  nodeEpoch c = epoch →
  let r := mkResult out (commandId c) (action c) v reason in
  logs m (fst (appendResult c r t m)) (snd (appendResult c r t m)).
Proof.
  intros He r. split; simpl.
  - rewrite He, String.eqb_refl. split; simpl; try done.
    intros k e. rewrite mget_mupd, mget_mset. case_decide; [|by eauto].
    destruct (mget k (idempotency m)) as [e0|]; [|done]. simpl. intros [= <-]. by eexists.
  - intros [A B C D E F]. split; simpl; auto with kookr.
    + intros i c' t'. rewrite mget_mdel. case_decide; [done|apply E].
    + intros k e. rewrite mget_mupd. case_decide; [|apply F]. subst.
      destruct (mget _ (idempotency m)) as [e0|] eqn:E0; [|done]. intros [= <-]. simpl. by apply F.
  - intros rows Hk Hrow. pose proof (known_row rows _ m Hk Hrow) as [A B C]. simpl in *.
    rewrite He, String.eqb_refl in C. destruct Hk as [_ _ C0]. split; simpl; [auto|auto|].
    intros k. rewrite mget_mupd. case_decide; [|apply C0]. intros ?%fmap_is_Some. auto.
Qed.

Lemma appendPreAuditReject_logs i act reason t m :
  logs m (snd (fst (appendPreAuditReject i act reason t m)))
    (snd (appendPreAuditReject i act reason t m)).
Proof.
  split; simpl.
  - split; simpl; try done; [|by eauto].
    intros x. rewrite mget_mset, mget_mdel. by case_decide.
  - intros [A B C D E F]. split; simpl; auto with kookr.
  - intros rows Hk Hrow. pose proof (known_row rows _ m Hk Hrow) as [A B C]. simpl in *.
    destruct Hk as [A0 _ _]. split; simpl; auto.
Qed.

Lemma revokeGrant_logs node g pv t m :
  logs m (fst (revokeGrant node epoch g pv t m)) (snd (revokeGrant node epoch g pv t m)).
Proof.
  split; simpl.
  - split; simpl; try done. by eauto.
  - intros [A B C D E F]. split; simpl; auto with kookr.
  - intros rows [A B C] _. by split.
Qed.

(** *** [begin] only forgets *)

Lemma mget_filter_Some {V} (p : string * V → bool) (m : jmap string V) k v :
  mwf m → mget k (List.filter p m) = Some v → mget k m = Some v.
Proof.
  intros Hwf Hg. apply elem_of_mget; [done|]. apply mget_elem_of in Hg.
  apply list_elem_of_In, filter_In in Hg as [Hin _]. by apply list_elem_of_In.
Qed.

Lemma prune_shrinks t j :
  wfJ j → (msize (idempotency j) ≤ MAX_IDEMPOTENCY_ENTRIES)%nat →
  prune epoch t j = withIdempotency
    (List.filter (λ '(k, e), negb (prunable epoch t k e)) (idempotency j)) j.
Proof.
  intros Hwf Hs. unfold prune. rewrite bool_decide_true; [done|].
  etrans; [|exact Hs]. unfold msize. apply List.filter_length_le.
Qed.

Lemma prune_tombstones t j : tombstones (prune epoch t j) = tombstones j.
Proof.
  unfold prune, pruneCommandState. by repeat match goal with |- context [bool_decide ?P] => destruct (bool_decide P) end.
Qed.

Lemma begin_forgets t t' c j rows :
  wfJ j → (msize (idempotency j) ≤ MAX_IDEMPOTENCY_ENTRIES)%nat →
  let j' := snd (begin epoch t t' c j) in
  covers j' j ∧ wfJ j' ∧ (known rows j → known rows j').
Proof.
  intros Hwf Hs. unfold begin. rewrite (prune_shrinks t j Hwf Hs).
  set (live := List.filter _ _). pose proof Hwf as [A B C D E F].
  assert (Hl : ∀ k e, mget k live = Some e → mget k (idempotency j) = Some e)
    by (intros k e; by apply mget_filter_Some).
  assert (Hlw : mwf live) by by apply mwf_filter.
  destruct (mget (tupleKey c) (idempotency (withIdempotency live j))) as [e0|] eqn:E0; simpl in *.
  - assert (Hk : ∀ k e, mget k (mset (tupleKey c) (setLastUsed t' e0) live) = Some e →
      ∃ e', mget k (idempotency j) = Some e' ∧ ie_result e' = ie_result e ∧ ie_tupleKey e' = ie_tupleKey e).
    { intros k e. rewrite mget_mset. case_decide; [|by eauto]. intros [= <-]. subst. eauto. }
    split_and!.
    + split; simpl; try done. intros k e He. destruct (Hk k e He) as (e' & ? & ? & _). eauto.
    + split; simpl; auto with kookr. intros k e He. destruct (Hk k e He) as (e' & ? & _ & <-). eauto.
    + intros [K1 K2 K3]. split; simpl; auto.
      intros k [e He]. destruct (Hk k e He) as (e' & ? & _). eauto.
  - split_and!.
    + split; simpl; try done. eauto.
    + split; simpl; auto with kookr.
    + intros [K1 K2 K3]. split; simpl; auto. intros k [e He]. eauto.
Qed.

Lemma begin_size t t' c j :
  wfJ j → (msize (idempotency j) ≤ MAX_IDEMPOTENCY_ENTRIES)%nat →
  (msize (idempotency (snd (begin epoch t t' c j))) ≤ msize (idempotency j))%nat.
Proof.
  intros Hwf Hs. unfold begin. rewrite prune_shrinks by done. set (live := List.filter _ _).
  assert (Hle : (msize live ≤ msize (idempotency j))%nat) by apply List.filter_length_le.
  destruct (mget _ (idempotency (withIdempotency live j))) as [e|] eqn:E; simpl in *; [|done].
  by rewrite msize_mset, E.
Qed.

(** ** The invariant of the node *)

Lemma applyRows_covers rows m r :
  covers m r → covers (applyRows epoch m rows) (applyRows epoch r rows).
Proof.
  unfold applyRows. revert m r. induction rows as [|row rows IH]; intros m r H; simpl; [done|].
  by apply IH, applyAuditRow_covers.
Qed.

(** Rows [A] that a journal [S] need not contain may be replayed between it and later rows [P],
    when they were replayed below the same later rows elsewhere. *)
Lemma between_covers m j r A P :
  covers m (applyRows epoch j P) → covers m (applyRows epoch (applyRows epoch r A) P) →
  covers m (applyRows epoch (applyRows epoch j A) P).
Proof.
  intros [T1 R1 I1 D1] [T2 R2 I2 D2].
  assert (Hlook : ∀ B (look : CommandJournal → B), (∀ rows, settled look (λ m, applyRows epoch m rows)) →
    ∀ x, look (applyRows epoch j P) = x → look (applyRows epoch (applyRows epoch r A) P) = x →
    look (applyRows epoch (applyRows epoch j A) P) = x).
  { intros B look Hs x H1 H2. destruct (Hs P) as [[v Hv]|HP]; [by rewrite Hv in *|].
    rewrite !HP in *. destruct (Hs A) as [[v Hv]|HA]; [by rewrite Hv in *|]. by rewrite HA. }
  split.
  - intros g. symmetry. apply (Hlook _ (λ m, mget g (tombstones m))); [apply settled_tomb|done..].
  - intros i. symmetry. apply (Hlook _ (λ m, mget i (results m))); [apply settled_res|done..].
  - intros i Hn. symmetry. apply (Hlook _ (λ m, mget i (intents m))); [apply settled_int|symmetry; auto..].
  - intros k e He. destruct (D1 k e He) as (e1 & H1 & E1). destruct (D2 k e He) as (e2 & H2 & E2).
    assert (H : ∃ e', mget k (idempotency (applyRows epoch (applyRows epoch j A) P)) = Some e' ∧ (e' = e1 ∨ e' = e2)).
    { destruct (settled_idem k P) as [[v Hv]|HP]; cbn in *; [exists e1; split; [by rewrite Hv in *|by left]|].
      rewrite !HP in *. destruct (settled_idem k A) as [[v Hv]|HA]; cbn in *;
        [exists e2; split; [by rewrite Hv in *|by right]|exists e1; split; [by rewrite HA|by left]]. }
    destruct H as (e' & He' & [-> | ->]); eauto.
Qed.

(** The snapshots that are on the disk or on their way to it. *)
Definition snaps (s : Sys) (snap : CommandJournalSnapshot) : Prop :=
  snapshot (disk s) = Some snap ∨ ∃ k, mget k (compactions s) = Some (Captured snap).

(** The memory is what this projection becomes by the rows still pending. *)
Definition recent_ (s : Sys) (snap : CommandJournalSnapshot) : Prop :=
  covers (mem s) (applyRows epoch (applySnapshot snap) (pending s)).

(** The requests carry the epoch of this process: [node-client.ts] drops the others. *)
Definition requestsOK (R : jmap nat Request) : Prop :=
  ∀ k q, mget k R = Some q → nodeEpoch (rq_command q) = epoch.

(** [n] bounds the number of rows ever logged. *)
Record Inv (n : nat) (s : Sys) : Prop := {
  iv_rows : ∃ G, (length G ≤ n)%nat ∧ known G (mem s) ∧
    (∀ row, row ∈ rowsOf (audit (disk s)) ++ pending s → row ∈ G) ∧
    (∀ snap, snaps s snap → known G (applySnapshot snap));
  iv_wfm : wfJ (mem s);
  iv_wfb : wfJ (replayed epoch (disk s));
  iv_wfs snap : snaps s snap → wfJ (applySnapshot snap);
  iv_cov : covers (mem s) (applyRows epoch (replayed epoch (disk s)) (pending s));
  iv_captured k snap : mget k (compactions s) = Some (Captured snap) → recent_ s snap;
  iv_installed k : mget k (compactions s) = Some Installed →
    ∃ snap, snapshot (disk s) = Some snap ∧ recent_ s snap;
  iv_renamed k : mget k (compactions s) = Some Renamed → rowsOf (audit (disk s)) = [];
  iv_requests : requestsOK (requests s)
}.

Lemma known_empty G : known G emptyJournal.
Proof. split; by intros ? [? ?]. Qed.

Lemma snapshot_known size t j G :
  wfJ j → pruneCommandState j = j → known G j → known G (applySnapshot (snd (takeSnapshot size t j))).
Proof.
  intros Hwf Hp [K1 K2 K3]. destruct (snapshot_restores size t j Hwf Hp) as (I & R & D & _).
  cbv zeta in *. split.
  - intros i. rewrite I, mget_openIntents. destruct (mhas i _); [by intros [? ?]|apply K1].
  - intros i. rewrite R. apply K2.
  - intros k. rewrite D. apply K3.
Qed.

Lemma Inv_boot : Inv 0 boot.
Proof.
  split; simpl; try (by apply wfJ_empty); try done.
  - exists []. split_and!; [done|apply known_empty|set_solver|]. intros snap [?|[k ?]]; done.
  - by intros snap [?|[k ?]].
Qed.

Lemma known_rows G rows j : (∀ row, row ∈ rows → row ∈ G) → known G j → known G (applyRows epoch j rows).
Proof.
  unfold applyRows. revert j. induction rows as [|row rows IH]; intros j Hr Hj; simpl; [done|].
  apply IH; [set_solver|]. apply known_row; [done|set_solver].
Qed.

Lemma known_replayed G d :
  (∀ row, row ∈ rowsOf (audit d) → row ∈ G) → (∀ snap, snapshot d = Some snap → known G (applySnapshot snap)) →
  known G (replayed epoch d).
Proof.
  intros Hr Hs. apply known_rows; [done|]. destruct (snapshot d); [by apply Hs|apply known_empty].
Qed.

Lemma Inv_small n s :
  Inv n s → (n ≤ MAX_IDEMPOTENCY_ENTRIES)%nat →
  pruneCommandState (mem s) = mem s ∧ (msize (idempotency (mem s)) ≤ MAX_IDEMPOTENCY_ENTRIES)%nat ∧
  load epoch (disk s) = replayed epoch (disk s).
Proof.
  intros Hi Hn. destruct (iv_rows _ _ Hi) as (G & Hlen & Hm & Hp & Hs).
  destruct (known_small G (mem s) (iv_wfm _ _ Hi) Hm) as [H1 H2]; [lia|].
  destruct (known_small G _ (iv_wfb _ _ Hi)) as [H3 _]; [|lia|].
  { apply known_replayed; [set_solver|]. intros snap H. apply Hs. by left. }
  split_and!; [done|done|]. unfold load. by rewrite !H3.
Qed.

(** What a step of the memory may do: forget, and log at most one row. *)
Definition fits (j0 j : CommandJournal) (row : option CommandAuditRow) : Prop :=
  ∃ m, covers m j0 ∧ wfJ m ∧ (∀ rows, known rows j0 → known rows m) ∧
    match row with Some r => logs m j r | None => j = m end.

Lemma fits_covers j0 j (row : option CommandAuditRow) base rows :
  fits j0 j row → covers j0 (applyRows epoch base rows) →
  covers j (applyRows epoch base (rows ++ option_list row)).
Proof.
  intros (m & Hc & _ & _ & Hl) H. destruct row as [r|]; cbn [option_list].
  - rewrite applyRows_app. etrans; [apply (lg_cov _ _ _ Hl)|]. apply applyAuditRow_covers. by etrans.
  - rewrite app_nil_r. subst j. by etrans.
Qed.

Lemma fits_known j0 j (row : option CommandAuditRow) G :
  fits j0 j row → known G j0 → known (option_list row ++ G) j.
Proof.
  intros (m & _ & _ & Hk & Hl) H. apply Hk in H. destruct row as [r|]; cbn [option_list app]; [|by subst].
  apply (lg_known _ _ _ Hl); [|set_solver]. eapply known_weaken; [|exact H]. set_solver.
Qed.

Lemma fits_wf j0 j (row : option CommandAuditRow) : fits j0 j row → wfJ j.
Proof. intros (m & _ & Hw & _ & Hl). destruct row as [r|]; [by apply (lg_wf _ _ _ Hl)|by subst]. Qed.

Lemma fits_same j : wfJ j → fits j j None.
Proof. intros H. exists j. by split_and!. Qed.

Lemma fits_logs j0 j row : wfJ j0 → logs j0 j row → fits j0 j (Some row).
Proof. intros H ?. exists j0. by split_and!. Qed.

(** A step of the memory, with the requests it leaves. *)
Lemma Inv_step n s j (row : option CommandAuditRow) R :
  Inv n s → fits (mem s) j row → requestsOK R → Inv (S n) (onRequests R (onMem j row s)).
Proof.
  intros Hi Hf HR. destruct (iv_rows _ _ Hi) as (G & Hlen & Hm & Hp & Hs).
  assert (Hsub : ∀ x, x ∈ G → x ∈ option_list row ++ G) by set_solver.
  split; simpl; try apply Hi; auto.
  - exists (option_list row ++ G). split_and!.
    + rewrite length_app. destruct row; simpl; lia.
    + by eapply fits_known.
    + set_solver.
    + intros snap Hsn. eapply known_weaken; [exact Hsub|by apply Hs].
  - by eapply fits_wf.
  - eapply fits_covers; [done|apply Hi].
  - intros k snap Hk. eapply fits_covers; [done|by eapply iv_captured].
  - intros k Hk. destruct (iv_installed _ _ Hi k Hk) as (snap & H1 & H2). exists snap. split; [done|].
    by eapply fits_covers.
Qed.

Lemma requestsOK_mdel k R : requestsOK R → requestsOK (mdel k R).
Proof. intros H i q. rewrite mget_mdel. case_decide; [done|apply H]. Qed.

Lemma requestsOK_mset k c p R : nodeEpoch c = epoch → requestsOK R → requestsOK (mset k (mkRequest c p) R).
Proof. intros Hc H i q. rewrite mget_mset. case_decide; [by intros [= <-]|apply H]. Qed.

Definition fitsA (j : CommandJournal) (a : Advance) : Prop :=
  match a with Replied _ j' row | Waiting _ j' row => fits j j' row end.

Lemma Inv_advance n s k c a :
  Inv n s → nodeEpoch c = epoch → fitsA (mem s) a → Inv (S n) (advance k c a s).
Proof.
  intros Hi Hc Ha. destruct a as [r j row|p j row]; (apply Inv_step; [done|done|]).
  - apply requestsOK_mdel, Hi.
  - apply requestsOK_mset; [done|apply Hi].
Qed.

Lemma Inv_weaken n s : Inv n s → Inv (S n) s.
Proof.
  intros Hi. destruct (iv_rows _ _ Hi) as (G & Hlen & H). split; try apply Hi. exists G. split; [lia|exact H].
Qed.

Lemma reject_fits reason t c j : wfJ j → fitsA j (reject reason t c j).
Proof. intros H. apply fits_logs; [done|]. apply appendPreAuditReject_logs. Qed.

Lemma receive_fits h t c j : wfJ j → fitsA j (pipelineReceive h t c j).
Proof.
  intros H. unfold pipelineReceive. destruct (negb _); [by apply reject_fits|].
  destruct (hasTombstone _ _); [by apply reject_fits|]. by apply fits_same.
Qed.

Lemma authorized_fits auth t c j : wfJ j → fitsA j (pipelineAuthorized auth t c j).
Proof. intros H. destruct auth; [by apply reject_fits|by apply fits_same]. Qed.

Lemma validated_fits valid t t' t'' c j :
  wfJ j → (msize (idempotency j) ≤ MAX_IDEMPOTENCY_ENTRIES)%nat → nodeEpoch c = epoch →
  fitsA j (pipelineValidated epoch valid t t' t'' c j).
Proof.
  intros Hwf Hs Hc. unfold pipelineValidated. destruct valid; [by apply reject_fits|].
  pose proof (λ rows, begin_forgets t t' c j rows Hwf Hs) as Hb.
  destruct (begin epoch t t' c j) as [[r|] m]; simpl in Hb; destruct (Hb []) as (Hcov & Hw & _);
    exists m; (split_and!; [done|done|intros rows; apply Hb|]); [done|].
  by apply appendIntent_logs.
Qed.

Lemma finish_fits c executed t j :
  wfJ j → nodeEpoch c = epoch →
  let '(r, j', row) := pipelineFinish c executed t j in fits j j' (Some row).
Proof. intros Hw Hc. destruct executed; (apply fits_logs; [done|by apply appendResult_logs]). Qed.

Definition opOK (o : op) : Prop :=
  match o with Receive _ _ _ c => nodeEpoch c = epoch | _ => True end.

(** *** The disk *)

Lemma rowsOf_append row f : tail f = None → rowsOf (appendFile row f) = rowsOf f ++ [row].
Proof.
  intros Ht. unfold rowsOf, appendFile. rewrite Ht. simpl. by rewrite omap_app, !app_nil_r.
Qed.

Lemma rowsOf_torn whole row f :
  tail f = None → rowsOf (tornAppend whole row f) = rowsOf f ++ (if whole then [row] else []).
Proof.
  intros Ht. unfold rowsOf, tornAppend. rewrite Ht. simpl. rewrite !app_nil_r. by destruct whole.
Qed.

Lemma replayed_rows f d rows :
  rowsOf f = rowsOf (audit d) ++ rows →
  replayed epoch (mkDisk f (snapshot d) (archives d)) = applyRows epoch (replayed epoch d) rows.
Proof. intros H. unfold replayed. simpl. by rewrite H, applyRows_app. Qed.

Lemma Inv_flush n s : Inv n s → calm s Flush → Inv (S n) (exec epoch s Flush).
Proof.
  intros Hi Hcalm. unfold exec. destruct (pending s) as [|row rows] eqn:Ep; [by apply Inv_weaken|].
  destruct (Hcalm ltac:(by rewrite Ep)) as [Ht Hc].
  destruct (iv_rows _ _ Hi) as (G & Hlen & Hm & Hp & Hs). pose proof (iv_cov _ _ Hi) as Hcov. rewrite Ep in Hcov, Hp.
  assert (Hr : replayed epoch (disk (onAudit (appendFile row (audit (disk s))) s)) = applyAuditRow epoch (replayed epoch (disk s)) row)
    by (apply (replayed_rows _ _ [row]), rowsOf_append, Ht).
  cbn [onAudit disk] in Hr. split; cbn [mem pending disk missing requests compactions ran onAudit setMissing onPending]; rewrite ?Hr;
    try apply Hi; try done; try (by intros k; rewrite Hc).
  - exists G. split_and!; [lia|done|cbn [audit]; rewrite rowsOf_append by done; set_solver|exact Hs].
  - by apply applyAuditRow_wf, Hi.
Qed.

Lemma restart_Inv n d b l :
  wfJ (replayed epoch d) → (∃ G, (length G ≤ n)%nat ∧ (∀ row, row ∈ rowsOf (audit d) → row ∈ G) ∧
    ∀ snap, snapshot d = Some snap → known G (applySnapshot snap)) →
  (∀ snap, snapshot d = Some snap → wfJ (applySnapshot snap)) → (n ≤ MAX_IDEMPOTENCY_ENTRIES)%nat →
  Inv n (restart epoch d b l).
Proof.
  intros Hw (G & Hlen & Hr & Hs) Hws Hn. pose proof (known_replayed G d Hr Hs) as Hk. destruct (known_small G _ Hw Hk) as [Hp _]; [lia|].
  assert (Hl : load epoch d = replayed epoch d) by (unfold load; by rewrite !Hp).
  assert (Hone : ∀ snap, snaps (restart epoch d b l) snap → snapshot d = Some snap) by (by intros snap [?|[k ?]]).
  split; simpl; rewrite ?Hl; auto; try done.
  exists G. split_and!; [done|done|rewrite app_nil_r; done|auto].
Qed.

Lemma Inv_crash n s torn :
  Inv n s → calm s (Crash torn) → (n ≤ MAX_IDEMPOTENCY_ENTRIES)%nat → Inv n (exec epoch s (Crash torn)).
Proof.
  intros Hi Hcalm Hn. destruct (iv_rows _ _ Hi) as (G & Hlen & Hm & Hp & Hs).
  assert (Hsnap : ∀ snap, snapshot (disk s) = Some snap → known G (applySnapshot snap) ∧ wfJ (applySnapshot snap)).
  { intros snap H. split; [apply Hs|apply (iv_wfs _ _ Hi)]; by left. }
  assert (Hstay : Inv n (restart epoch (disk s) (missing s) (ran s))).
  { apply restart_Inv; [apply Hi| |apply Hsnap|done]. exists G. split_and!; [done|set_solver|apply Hsnap]. }
  unfold exec. destruct torn as [whole|]; [|done]. destruct (pending s) as [|row rows] eqn:Ep; [done|].
  specialize (Hcalm ltac:(by rewrite Ep)).
  pose proof (replayed_rows _ _ _ (rowsOf_torn whole row _ Hcalm)) as Hr.
  apply restart_Inv; [| |apply Hsnap|done]; cbn [disk onAudit audit snapshot].
  - rewrite Hr. apply applyRows_wf, Hi.
  - exists G. split_and!; [done| |apply Hsnap]. rewrite rowsOf_torn by done. destruct whole; set_solver.
Qed.

(** *** Compaction *)

Lemma snapshot_recent n s t :
  Inv n s → (n ≤ MAX_IDEMPOTENCY_ENTRIES)%nat → recent_ s (snd (takeSnapshot 0 t (mem s))).
Proof.
  intros Hi Hn. destruct (Inv_small n s Hi Hn) as (Hpr & _ & _).
  destruct (snapshot_covers 0 t (mem s) (iv_wfm _ _ Hi) Hpr) as [Hcov _].
  unfold recent_. etrans; [eapply reapply_covers, (iv_cov _ _ Hi)|]. by apply applyRows_covers.
Qed.

Lemma takeSnapshot_mem n s t :
  Inv n s → (n ≤ MAX_IDEMPOTENCY_ENTRIES)%nat → fst (takeSnapshot 0 t (mem s)) = mem s.
Proof. intros Hi Hn. destruct (Inv_small n s Hi Hn) as (Hpr & _ & _). unfold takeSnapshot. by rewrite Hpr. Qed.

Lemma Inv_compact n s k t :
  Inv n s → (n ≤ MAX_IDEMPOTENCY_ENTRIES)%nat → Inv (S n) (exec epoch s (Compact k t)).
Proof.
  intros Hi Hn. unfold exec. destruct (mhas k (compactions s)); [by apply Inv_weaken|].
  destruct (Inv_small n s Hi Hn) as (Hpr & _ & _). pose proof (snapshot_recent n s t Hi Hn) as Hrec.
  pose proof (takeSnapshot_mem n s t Hi Hn) as Hmem.
  destruct (iv_rows _ _ Hi) as (G & Hlen & Hm & Hp & Hs).
  pose proof (snapshot_known 0 t (mem s) G (iv_wfm _ _ Hi) Hpr Hm) as Hkn.
  destruct (snapshot_covers 0 t (mem s) (iv_wfm _ _ Hi) Hpr) as [_ Hwf].
  destruct (takeSnapshot 0 t (mem s)) as [j snap]. cbn [fst snd] in *. subst j.
  set (s' := onCompactions _ _).
  assert (Hsnaps : ∀ x, snaps s' x → x = snap ∨ snaps s x).
  { intros x [H|[i H]]; [by right; left|]. cbn in H. rewrite mget_mset in H. case_decide; [left; congruence|].
    right. right. by exists i. }
  assert (Hpend : pending s' = pending s) by (apply app_nil_r).
  assert (Hnew : ∀ i p, mget i (compactions s') = Some p → p = Captured snap ∨ mget i (compactions s) = Some p).
  { intros i p H. cbn in H. rewrite mget_mset in H. case_decide; [left; congruence|by right]. }
  split; try apply Hi; unfold recent_; rewrite ?Hpend; try apply Hi.
  - exists G. split_and!; [lia|done|done|]. intros x [->|Hx]%Hsnaps; auto.
  - intros x [->|Hx]%Hsnaps; [done|by apply Hi].
  - intros i x [H|Hx]%Hnew; [injection H as ->; exact Hrec|by eapply (iv_captured _ _ Hi)].
  - intros i [H|Hx]%Hnew; [done|by eapply (iv_installed _ _ Hi)].
  - intros i [H|Hx]%Hnew; [done|by eapply (iv_renamed _ _ Hi)].
Qed.

(** A compaction whose [k]th state is replaced by [p], or dropped. *)
Lemma mget_replaced (k i : nat) (p : option Compaction) (l : jmap nat Compaction) q :
  mget i (match p with Some p => mset k p l | None => mdel k l end) = Some q →
  (i = k ∧ p = Some q) ∨ mget i l = Some q.
Proof. destruct p; rewrite ?mget_mset, ?mget_mdel; case_decide; naive_solver. Qed.

Lemma Inv_install n s k snap :
  Inv n s → mget k (compactions s) = Some (Captured snap) → Inv (S n) (compactStep k (Captured snap) s).
Proof.
  intros Hi Hk. destruct (iv_rows _ _ Hi) as (G & Hlen & Hm & Hp & Hs).
  assert (Hin : snaps s snap) by (right; by exists k).
  set (s' := compactStep _ _ _).
  assert (Hnew : ∀ i p, mget i (compactions s') = Some p → (i = k ∧ p = Installed) ∨ mget i (compactions s) = Some p).
  { intros i p H. apply (mget_replaced k i (Some Installed)) in H as [[-> [= <-]]|H]; auto. }
  assert (Hsnaps : ∀ x, snaps s' x → snaps s x).
  { intros x [[= <-]|[i H]]; [done|]. apply Hnew in H as [[_ ?]|H]; [done|]. right. by exists i. }
  assert (Hbase : replayed epoch (disk s') = applyRows epoch (applySnapshot snap) (rowsOf (audit (disk s)))) by done.
  split; rewrite ?Hbase; try apply Hi.
  - exists G. split_and!; [lia|done|done|auto].
  - by apply applyRows_wf, (iv_wfs _ _ Hi).
  - intros x Hx%Hsnaps. by apply (iv_wfs _ _ Hi).
  - apply (between_covers (mem s) _ (match snapshot (disk s) with Some x => applySnapshot x | None => emptyJournal end)).
    + by eapply (iv_captured _ _ Hi).
    + apply (iv_cov _ _ Hi).
  - intros i x [[_ ?]|H]%Hnew; [done|by eapply (iv_captured _ _ Hi)].
  - intros i H. exists snap. split; [done|]. by eapply (iv_captured _ _ Hi).
  - intros i [[_ ?]|H]%Hnew; [done|by eapply (iv_renamed _ _ Hi)].
Qed.

Lemma Inv_rename n s k :
  Inv n s → mget k (compactions s) = Some Installed → Inv (S n) (compactStep k Installed s).
Proof.
  intros Hi Hk. destruct (iv_rows _ _ Hi) as (G & Hlen & Hm & Hp & Hs).
  destruct (iv_installed _ _ Hi k Hk) as (snap & Hsnap & Hrec). set (s' := compactStep _ _ _).
  assert (Hnew : ∀ i p, mget i (compactions s') = Some p → (p = Renamed ∧ missing s = false) ∨ mget i (compactions s) = Some p).
  { intros i p. unfold s', compactStep. destruct (missing s) eqn:Em; intros H.
    - apply (mget_replaced k i None) in H as [[_ [=]]|H]. by right.
    - apply (mget_replaced k i (Some Renamed)) in H as [[_ [= <-]]|H]; auto. }
  assert (Hsnaps : ∀ x, snaps s' x → snaps s x).
  { intros x [H|[i H]]; [left; revert H; unfold s', compactStep; by destruct (missing s)|].
    apply Hnew in H as [[? _]|H]; [done|]. right. by exists i. }
  assert (Hsame : mem s' = mem s ∧ pending s' = pending s ∧ requests s' = requests s ∧ snapshot (disk s') = snapshot (disk s))
    by (unfold s', compactStep; by destruct (missing s)).
  destruct Hsame as (E1 & E2 & E3 & E4).
  assert (Haudit : audit (disk s') = audit (disk s) ∨ audit (disk s') = emptyFile) by (unfold s', compactStep; destruct (missing s); [by left|by right]).
  assert (Hrows : ∀ row, row ∈ rowsOf (audit (disk s')) → row ∈ rowsOf (audit (disk s))) by (destruct Haudit as [-> | ->]; [done|set_solver]).
  assert (Hrep : replayed epoch (disk s') = replayed epoch (disk s) ∨ replayed epoch (disk s') = applySnapshot snap).
  { unfold replayed. rewrite E4, Hsnap. destruct Haudit as [-> | ->]; [by left|by right]. }
  split; unfold recent_; rewrite ?E1, ?E2, ?E3, ?E4; try apply Hi.
  - exists G. split_and!; [lia|done|set_solver|auto].
  - destruct Hrep as [-> | ->]; [apply Hi|apply (iv_wfs _ _ Hi); by left].
  - intros x Hx%Hsnaps. by apply (iv_wfs _ _ Hi).
  - destruct Hrep as [-> | ->]; [apply Hi|exact Hrec].
  - intros i x [[? _]|H]%Hnew; [done|by eapply (iv_captured _ _ Hi)].
  - intros i _. by exists snap.
  - intros i [[_ Em]|H]%Hnew; [unfold s', compactStep; by rewrite Em|].
    pose proof (iv_renamed _ _ Hi i H) as Hr. by destruct Haudit as [-> | ->].
Qed.

Lemma Inv_truncate n s k :
  Inv n s → mget k (compactions s) = Some Renamed → Inv (S n) (compactStep k Renamed s).
Proof.
  intros Hi Hk. destruct (iv_rows _ _ Hi) as (G & Hlen & Hm & Hp & Hs).
  pose proof (iv_renamed _ _ Hi k Hk) as Hr. set (s' := compactStep _ _ _).
  assert (Hnew : ∀ i p, mget i (compactions s') = Some p → mget i (compactions s) = Some p).
  { intros i p H. apply (mget_replaced k i None) in H as [[_ [=]]|H]. done. }
  assert (Hsnaps : ∀ x, snaps s' x → snaps s x).
  { intros x [H|[i H]]; [by left|]. right. exists i. by apply Hnew. }
  assert (Hrep : replayed epoch (disk s') = replayed epoch (disk s)) by (unfold replayed; by rewrite Hr).
  split; unfold recent_; rewrite ?Hrep; try apply Hi.
  - exists G. split_and!; [lia|done|intros row Hrow; apply Hp; by apply elem_of_app; right|auto].
  - intros x Hx%Hsnaps. by apply (iv_wfs _ _ Hi).
  - intros i x H%Hnew. by eapply (iv_captured _ _ Hi).
  - intros i H%Hnew. by eapply (iv_installed _ _ Hi).
  - done.
Qed.

Lemma Inv_exec n s o :
  Inv n s → calm s o → opOK o → (S n ≤ MAX_IDEMPOTENCY_ENTRIES)%nat → Inv (S n) (exec epoch s o).
Proof.
  intros Hi Hc Ho Hn. destruct (Inv_small n s Hi) as (_ & Hs & _); [lia|].
  assert (Hq : ∀ k q, mget k (requests s) = Some q → nodeEpoch (rq_command q) = epoch) by (intros k; apply (iv_requests _ _ Hi)).
  destruct o as [k h t c|k auth t|k valid t t' t''|k|k executed t|g node pv t| |k t|k|torn].
  - simpl. destruct (mhas k _); [by apply Inv_weaken|]. apply Inv_advance; [done|done|]. apply receive_fits, Hi.
  - simpl. destruct (mget k (requests s)) as [[c []]|] eqn:Ek; try (by apply Inv_weaken).
    apply Inv_advance; [done|by apply (Hq k _ Ek)|]. apply authorized_fits, Hi.
  - simpl. destruct (mget k (requests s)) as [[c []]|] eqn:Ek; try (by apply Inv_weaken).
    apply Inv_advance; [done|by apply (Hq k _ Ek)|]. apply validated_fits; [apply Hi|done|by apply (Hq k _ Ek)].
  - simpl. destruct (mget k (requests s)) as [[c []]|] eqn:Ek; try (by apply Inv_weaken).
    destruct (bool_decide _); [by apply Inv_weaken|]. apply Inv_weaken in Hi.
    split; try apply Hi. cbn. apply requestsOK_mset; [by apply (Hq k _ Ek)|apply Hi].
  - simpl. destruct (mget k (requests s)) as [[c []]|] eqn:Ek; try (by apply Inv_weaken).
    apply (Inv_step n s _ (Some _) (mdel k (requests s))); [done| |apply requestsOK_mdel, Hi].
    exact (finish_fits c executed t (mem s) (iv_wfm _ _ Hi) (Hq k _ Ek)).
  - apply (Inv_step n s _ (Some _) (requests s)); [done| |apply Hi]. apply fits_logs; [apply Hi|apply revokeGrant_logs].
  - by apply Inv_flush.
  - apply Inv_compact; [done|lia].
  - simpl. destruct (mget k (compactions s)) as [[snap| |]|] eqn:Ek; [|..|by apply Inv_weaken].
    + by apply Inv_install.
    + by apply Inv_rename.
    + by apply Inv_truncate.
  - apply Inv_weaken, Inv_crash; [done|done|lia].
Qed.

Lemma Inv_run ops n s :
  Inv n s → calmRun epoch ops s → Forall opOK ops → (n + length ops ≤ MAX_IDEMPOTENCY_ENTRIES)%nat →
  Inv (n + length ops) (run epoch ops s).
Proof.
  intros Hi Hc Hall. revert n s Hi Hc. unfold run.
  induction Hall as [|o ops Ho _ IH]; intros n s Hi Hc Hn; simpl in *; [by rewrite Nat.add_0_r|].
  replace (n + S (length ops))%nat with (S n + length ops)%nat by lia. destruct Hc as [H1 H2].
  apply IH; [apply Inv_exec; [done|done|done|lia]|done|lia].
Qed.

(** *** What a written row leaves

    A property [P] of journals that the rows of a kind [K] establish and no row destroys, such as
    a tombstone: once a row of the kind is written, the journal a restart would rebuild has it,
    and so has every projection that may replace it. *)

Section kept.
Context (K : CommandAuditRow → Prop) (P : CommandJournal → Prop) (ok : CommandAuditRow → Prop).
Context (P_row : ∀ row j, P j → P (applyAuditRow epoch j row)).
Context (P_est : ∀ row j, ok row → K row → P (applyAuditRow epoch j row)).
Context (P_fields : ∀ j j', idempotency j' = idempotency j → tombstones j' = tombstones j → P j → P j').
Context (K_reject : ∀ i act reason t, ¬ K (pre_audit_reject i act reason t)).
Context (ok_plain : ∀ i act reason t, ok (pre_audit_reject i act reason t)).
Context (ok_revoke : ∀ g node ep pv t, ok (grant_revoke g node ep pv t)).

Definition has (rows : list CommandAuditRow) : Prop := ∃ row, row ∈ rows ∧ K row.

Record Kept (s : Sys) : Prop := {
  kp_mem : has (log s) → P (mem s);
  kp_disk : has (written s) → P (replayed epoch (disk s));
  kp_captured k snap : has (written s) → mget k (compactions s) = Some (Captured snap) → P (applySnapshot snap);
  kp_installed k : has (written s) → mget k (compactions s) = Some Installed →
    ∃ snap, snapshot (disk s) = Some snap ∧ P (applySnapshot snap);
  kp_ok row : row ∈ pending s → ok row
}.

Definition keeps (j0 j : CommandJournal) (row : option CommandAuditRow) : Prop :=
  (P j0 → P j) ∧ ∀ x, row = Some x → ok x ∧ (K x → P j).

Definition keepsA (j : CommandJournal) (a : Advance) : Prop :=
  match a with Replied _ j' row | Waiting _ j' row => keeps j j' row end.

Lemma has_app rows rows' : has (rows ++ rows') ↔ has rows ∨ has rows'.
Proof. unfold has. split; [intros (r & [?|?]%elem_of_app & ?); [left|right]; eauto|]. intros [(r & ? & ?)|(r & ? & ?)]; exists r; rewrite elem_of_app; auto. Qed.

Lemma has_written s : has (written s) → has (log s).
Proof. intros H. apply has_app. by left. Qed.

Lemma P_rows rows j : P j → P (applyRows epoch j rows).
Proof. unfold applyRows. revert j. induction rows as [|row rows IH]; intros j H; simpl; [done|]. by apply IH, P_row. Qed.

Lemma Kept_step s j (row : option CommandAuditRow) R :
  Kept s → keeps (mem s) j row → Kept (onRequests R (onMem j row s)).
Proof.
  intros [A B C D E] [H1 H2]. split; try done.
  - unfold log. cbn [onRequests onMem mem pending]. change (written (onRequests R (onMem j row s))) with (written s).
    rewrite app_assoc, has_app. intros [H|H]; [by apply H1, A|]. destruct row as [r|]; destruct H as (x & Hx & HK); [|by apply elem_of_nil in Hx].
    apply list_elem_of_singleton in Hx as ->. by apply (H2 r).
  - cbn. intros x [Hx|Hx]%elem_of_app; [by apply E|]. destruct row as [r|]; [|by apply elem_of_nil in Hx].
    apply list_elem_of_singleton in Hx as ->. by apply H2.
Qed.

Lemma Kept_advance s k c a : Kept s → keepsA (mem s) a → Kept (advance k c a s).
Proof. intros Hs Ha. destruct a as [r j row|p j row]; by apply Kept_step. Qed.

Lemma keeps_same j : keeps j j None.
Proof. by split. Qed.

Lemma reject_keeps reason t c j : keepsA j (reject reason t c j).
Proof. split; [by apply P_fields|]. intros r [= <-]. split; [apply ok_plain|]. by intros ?%K_reject. Qed.

Lemma Kept_flush n s : Inv n s → calm s Flush → Kept s → Kept (exec epoch s Flush).
Proof.
  intros Hi Hcalm Hk. unfold exec. destruct (pending s) as [|row rows] eqn:Ep; [done|].
  destruct (Hcalm ltac:(by rewrite Ep)) as [Ht Hc]. destruct Hk as [A B C D E]. set (s' := onPending _ _).
  assert (Hw : written s' = written s ++ [row]) by (unfold written; simpl; by rewrite rowsOf_append, app_assoc).
  assert (Hl : log s' = log s) by (unfold log; rewrite Hw, Ep; cbn [pending s']; by rewrite <- app_assoc).
  split; rewrite ?Hw, ?Hl; try done; try (intros k; change (compactions s') with (compactions s); by rewrite Hc).
  - change (disk s') with (disk (onAudit (appendFile row (audit (disk s))) s)).
    cbn [onAudit disk]. rewrite (replayed_rows _ _ [row]) by (by apply rowsOf_append). intros [H|H]%has_app; [by apply P_row, B|].
    destruct H as (x & ->%list_elem_of_singleton & HK). apply P_est; [|done]. apply E. rewrite Ep. set_solver.
  - intros x Hx. apply E. rewrite Ep. cbn in Hx. set_solver.
Qed.

Lemma Kept_restart d b l :
  load epoch d = replayed epoch d →
  (has (written (restart epoch d b l)) → P (replayed epoch d)) → Kept (restart epoch d b l).
Proof.
  intros Hl H. split; cbn [restart mem disk pending]; rewrite ?Hl; try done; [|set_solver].
  unfold log. cbn [restart pending]. by rewrite app_nil_r.
Qed.

Lemma Kept_crash n s torn :
  Inv n s → calm s (Crash torn) → (n ≤ MAX_IDEMPOTENCY_ENTRIES)%nat → Kept s → Kept (exec epoch s (Crash torn)).
Proof.
  intros Hi Hc Hn Hk. pose proof (Inv_crash n s torn Hi Hc Hn) as Hi'.
  destruct (Inv_small _ _ Hi' Hn) as (_ & _ & Hl). unfold exec in *.
  assert (Hstay : load epoch (disk s) = replayed epoch (disk s) → Kept (restart epoch (disk s) (missing s) (ran s))).
  { intros H. apply Kept_restart; [done|apply Hk]. }
  destruct torn as [whole|]; [|by apply Hstay]. destruct (pending s) as [|row rows] eqn:Ep; [by apply Hstay|].
  specialize (Hc ltac:(by rewrite Ep)). apply Kept_restart; [exact Hl|].
  unfold written. cbn [restart disk onAudit audit archives]. rewrite rowsOf_torn, app_assoc by done.
  rewrite (replayed_rows _ _ _ (rowsOf_torn whole row _ Hc)). intros [H|H]%has_app; [by apply P_rows, Hk|].
  destruct whole; destruct H as (x & Hx & HK); [|by apply elem_of_nil in Hx]. apply list_elem_of_singleton in Hx as ->.
  apply P_est; [|done]. apply Hk. rewrite Ep. set_solver.
Qed.

Lemma Kept_compact n s k t :
  Inv n s → (n ≤ MAX_IDEMPOTENCY_ENTRIES)%nat → Kept s → Kept (exec epoch s (Compact k t)).
Proof.
  intros Hi Hn Hk. unfold exec. destruct (mhas k (compactions s)); [done|].
  destruct (Inv_small n s Hi Hn) as (Hpr & _ & _).
  destruct (snapshot_restores 0 t (mem s) (iv_wfm _ _ Hi) Hpr) as (_ & _ & D0 & T0). cbv zeta in D0, T0.
  pose proof (takeSnapshot_mem n s t Hi Hn) as Hmem. destruct (takeSnapshot 0 t (mem s)) as [j snap]. cbn [fst snd] in *. subst j.
  destruct Hk as [A B C D E]. set (s' := onCompactions _ _).
  assert (Hw : written s' = written s) by done.
  assert (Hl : log s' = log s) by (unfold log; rewrite Hw; cbn; by rewrite app_nil_r).
  split; rewrite ?Hw, ?Hl; try done.
  - intros i x H. cbn. rewrite mget_mset. case_decide; [intros [= <-]|by apply C]. by apply (P_fields (mem s)), A, has_written.
  - intros i H. cbn. rewrite mget_mset. case_decide; [done|by apply D].
  - intros x. cbn. rewrite app_nil_r. apply E.
Qed.

Lemma Kept_compactStep n s k : Inv n s → Kept s → Kept (exec epoch s (CompactStep k)).
Proof.
  intros Hi Hk. unfold exec. destruct (mget k (compactions s)) as [p|] eqn:Ek; [|done].
  destruct Hk as [A B C D E]. destruct p as [snap| |]; cbn [compactStep].
  - split; try done.
    + intros H. apply P_rows. by eapply C.
    + intros i x H. cbn. rewrite mget_mset. case_decide; [done|by apply C].
    + intros i H. cbn. rewrite mget_mset. case_decide; [|intros _]; exists snap; (split; [done|by eapply C]).
  - destruct (missing s).
    + split; try done; intros i; cbn; rewrite mget_mdel; case_decide; try done; [apply C|apply D].
    + set (s' := onCompactions _ _).
      assert (Hw : written s' = written s) by (unfold written; cbn; by rewrite map_app, concat_app; cbn; rewrite !app_nil_r).
      assert (Hl : log s' = log s) by (unfold log; by rewrite Hw).
      split; rewrite ?Hw, ?Hl; try done.
      * intros H. destruct (D k H Ek) as (snap & Hs & HP). unfold replayed. cbn. by rewrite Hs.
      * intros i x H. cbn. rewrite mget_mset. case_decide; [done|by apply C].
      * intros i H. cbn. rewrite mget_mset. case_decide; [done|by apply D].
  - pose proof (iv_renamed _ _ Hi k Ek) as Hr. set (s' := onCompactions _ _).
    assert (Hw : written s' = written s) by (unfold written; cbn; by rewrite Hr).
    assert (Hl : log s' = log s) by (unfold log; by rewrite Hw).
    split; rewrite ?Hw, ?Hl; try done.
    + intros H. specialize (B H). unfold replayed in *. cbn. by rewrite Hr in B.
    + intros i x H. cbn. rewrite mget_mdel. case_decide; [done|by apply C].
    + intros i H. cbn. rewrite mget_mdel. case_decide; [done|by apply D].
Qed.

(** Only the steps that look at the idempotency entries are left to the property. *)
Lemma Kept_exec n s o :
  Inv n s → calm s o → (n ≤ MAX_IDEMPOTENCY_ENTRIES)%nat → Kept s →
  (∀ k c t t' t'', o = Validated k None t t' t'' → mget k (requests s) = Some (mkRequest c validating) →
     keepsA (mem s) (pipelineValidated epoch None t t' t'' c (mem s))) →
  (∀ k c executed t, o = Finish k executed t → mget k (requests s) = Some (mkRequest c executing) →
     let '(r, j, row) := pipelineFinish c executed t (mem s) in keeps (mem s) j (Some row)) →
  Kept (exec epoch s o).
Proof.
  intros Hi Hc Hn Hk Hval Hfin.
  destruct o as [k h t c|k auth t|k valid t t' t''|k|k executed t|g node pv t| |k t|k|torn].
  - simpl. destruct (mhas k _); [done|]. apply Kept_advance; [done|]. unfold pipelineReceive.
    destruct (negb _); [apply reject_keeps|]. destruct (hasTombstone _ _); [apply reject_keeps|apply keeps_same].
  - simpl. destruct (mget k (requests s)) as [[c []]|]; try done. apply Kept_advance; [done|].
    destruct auth; [apply reject_keeps|apply keeps_same].
  - simpl. destruct (mget k (requests s)) as [[c []]|] eqn:Ek; try done. apply Kept_advance; [done|].
    destruct valid; [apply reject_keeps|by eapply Hval].
  - simpl. destruct (mget k (requests s)) as [[c []]|] eqn:Ek; try done. destruct (bool_decide _); [done|].
    destruct Hk as [A B C D E]. by split.
  - simpl. destruct (mget k (requests s)) as [[c []]|] eqn:Ek; try done.
    apply (Kept_step s _ (Some _) (mdel k (requests s))); [done|]. exact (Hfin k c executed t eq_refl Ek).
  - apply (Kept_step s _ (Some _) (requests s)); [done|]. split; [apply (P_row (grant_revoke g node epoch pv t))|].
    intros r [= <-]. split; [apply ok_revoke|]. apply (P_est (grant_revoke g node epoch pv t)), ok_revoke.
  - by apply (Kept_flush n).
  - by apply (Kept_compact n).
  - by apply (Kept_compactStep n).
  - by apply (Kept_crash n).
Qed.

Lemma Kept_boot : Kept boot.
Proof. split; cbn; try done; try (by intros (? & ?%elem_of_nil & _)); try (by intros ? (? & ?%elem_of_nil & _)). by intros ? ?%elem_of_nil. Qed.
End kept.

(** *** Tombstones *)

Definition revokes (g : string) (row : CommandAuditRow) : Prop := ∃ node ep pv t, row = grant_revoke g node ep pv t.
Definition tombed (g : string) (j : CommandJournal) : Prop := is_Some (mget g (tombstones j)).
Definition KeptTomb (g : string) : Sys → Prop := Kept (revokes g) (tombed g) (λ _, True).

Lemma KeptTomb_exec n s o g :
  Inv n s → calm s o → (n ≤ MAX_IDEMPOTENCY_ENTRIES)%nat → KeptTomb g s → KeptTomb g (exec epoch s o).
Proof.
  intros Hi Hc Hn Hk. apply (Kept_exec (revokes g) (tombed g) (λ _, True)) with (n := n); try done.
  - intros row j H. unfold tombed in *. destruct row; simpl; auto. apply is_Some_mset. by right.
  - intros row j _ (node & ep & pv & t & ->). unfold tombed. simpl. rewrite mget_mset_eq. by eexists.
  - intros j j' _ E. unfold tombed. by rewrite E.
  - intros i act reason t (node & ep & pv & t' & [=]).
  - intros k c t t' t'' _ _. unfold pipelineValidated, begin.
    destruct (mget _ _); split; try done; try (unfold tombed; cbn; by rewrite prune_tombstones).
    intros r [= <-]. split; [done|]. by intros (? & ? & ? & ? & [=]).
  - intros k c executed t _ _. destruct executed; (split; [done|]; intros r [= <-]; split; [done|by intros (? & ? & ? & ? & [=])]).
Qed.

Lemma KeptTomb_run ops n s g :
  Inv n s → calmRun epoch ops s → Forall opOK ops → (n + length ops ≤ MAX_IDEMPOTENCY_ENTRIES)%nat →
  KeptTomb g s → KeptTomb g (run epoch ops s).
Proof.
  intros Hi Hc Hall. revert n s Hi Hc. unfold run.
  induction Hall as [|o ops Ho _ IH]; intros n s Hi Hc Hn Hk; simpl in *; [done|]. destruct Hc as [H1 H2].
  apply (IH (S n)); [apply Inv_exec; [done|done|done|lia]|done|lia|]. apply (KeptTomb_exec n); [done|done|lia|done].
Qed.

(** What was written stays written. *)
Lemma written_exec s o row n :
  Inv n s → calm s o → row ∈ written s → row ∈ written (exec epoch s o).
Proof.
  intros Hi Hc Hin.
  assert (Hap : ∀ f, (∀ x, x ∈ rowsOf (audit (disk s)) → x ∈ rowsOf f) → row ∈ written (onAudit f s)).
  { intros f Hf. unfold written in *. cbn. apply elem_of_app in Hin as [?|?]; apply elem_of_app; auto. }
  destruct o as [k h t c|k auth t|k valid t t' t''|k|k executed t|g node pv t| |k t|k|torn]; simpl.
  - destruct (mhas k _); [done|]. by destruct (pipelineReceive h t c (mem s)).
  - destruct (mget k _) as [[c []]|]; try done. by destruct (pipelineAuthorized auth t c (mem s)).
  - destruct (mget k _) as [[c []]|]; try done. by destruct (pipelineValidated epoch valid t t' t'' c (mem s)).
  - destruct (mget k _) as [[c []]|]; try done. by destruct (bool_decide _).
  - by destruct (mget k _) as [[c []]|].
  - done.
  - destruct (pending s) as [|x rows] eqn:Ep; [done|]. destruct (Hc ltac:(by rewrite Ep)) as [Ht _].
    apply (Hap (appendFile x (audit (disk s)))). intros y Hy. rewrite rowsOf_append by done. set_solver.
  - by destruct (mhas k _).
  - destruct (mget k _) as [[snap| |]|] eqn:Ek; [done| | |done]; cbn [compactStep].
    + destruct (missing s); [done|]. unfold written in *. cbn. rewrite map_app, concat_app. cbn. rewrite !app_nil_r. done.
    + apply (Hap emptyFile). by rewrite (iv_renamed _ _ Hi k Ek).
  - destruct torn as [whole|]; [|done]. destruct (pending s) as [|x rows] eqn:Ep; [done|]. specialize (Hc ltac:(by rewrite Ep)).
    apply (Hap (tornAppend whole x (audit (disk s)))). intros y Hy. rewrite rowsOf_torn by done. set_solver.
Qed.

Lemma written_run ops n s row :
  Inv n s → calmRun epoch ops s → Forall opOK ops → (n + length ops ≤ MAX_IDEMPOTENCY_ENTRIES)%nat →
  row ∈ written s → row ∈ written (run epoch ops s).
Proof.
  intros Hi Hc Hall. revert n s Hi Hc. unfold run.
  induction Hall as [|o ops Ho _ IH]; intros n s Hi Hc Hn Hk; simpl in *; [done|]. destruct Hc as [H1 H2].
  apply (IH (S n)); [apply Inv_exec; [done|done|done|lia]|done|lia|]. by apply (written_exec _ _ _ n).
Qed.
End epoch.

(** ** At most one execution per tuple *)

Section window.
Context (epoch : string) (T0 : Z).

Definition intentKey (row : CommandAuditRow) : option string :=
  match row with command_intent c _ => Some (tupleKey c) | _ => None end.
Definition intentKeys (rows : list CommandAuditRow) : list string := omap intentKey rows.

(** The tuple's ids hold no separator, and the request is of this epoch. *)
Definition wellFormed (c : CommandEnvelope) : Prop :=
  nodeEpoch c = epoch ∧ (NUL ∉ chars (nodeId c)) ∧ (NUL ∉ chars epoch).

Lemma epochField_key c : wellFormed c → epochField (tupleKey c) = Some epoch.
Proof.
  intros (He & Hn & Hep). unfold epochField, tupleKey, joinWith.
  cbn [String.concat]. rewrite He.
  repeat rewrite chars_app. change (chars (String NUL "")) with [NUL].
  cbn [app]. rewrite splitOn_app by done. rewrite splitOn_app by done. simpl.
  by rewrite unchars_chars.
Qed.

(** Every reading of the clock lies within the day that starts at [T0]. *)
Definition inDay (t : Z) : Prop := T0 ≤ t ≤ T0 + DAY_MS.

Definition timely (o : op) : Prop :=
  match o with
  | Receive _ _ _ c => wellFormed c
  | Validated _ _ t t' t'' => inDay t ∧ inDay t' ∧ inDay t''
  | Finish _ _ t => inDay t
  | _ => True
  end.

(** The entries are recent and of this epoch: no prune drops them. *)
Definition recent (j : CommandJournal) : Prop :=
  ∀ k e, mget k (idempotency j) = Some e → T0 ≤ ie_createdAt e ∧ epochField k = Some epoch.

Definition recentRow (row : CommandAuditRow) : Prop :=
  match row with
  | command_intent c t | command_result c _ _ _ t => T0 ≤ t ∧ wellFormed c
  | _ => True
  end.

Lemma prune_recent t j :
  wfJ j → (msize (idempotency j) ≤ MAX_IDEMPOTENCY_ENTRIES)%nat → recent j → inDay t →
  prune epoch t j = j.
Proof.
  intros Hwf Hs Hr [_ Ht]. rewrite prune_shrinks by done.
  assert (Hf : List.filter (λ '(k, e), negb (prunable epoch t k e)) (idempotency j) = idempotency j).
  { assert (Hall : ∀ k e, (k, e) ∈ idempotency j → negb (prunable epoch t k e) = true).
    { intros k e Hin. destruct (Hr k e) as [H1 H2]; [apply elem_of_mget; [apply Hwf|done]|].
      unfold prunable. simpl. rewrite H2, bool_decide_true by done. simpl.
      rewrite orb_false_r. apply negb_true_iff, Z.ltb_ge. lia. }
    clear Hwf Hs Hr. induction (idempotency j) as [|[k e] m IH]; simpl; [done|].
    rewrite (Hall k e) by set_solver. f_equal. apply IH. set_solver. }
  rewrite Hf. by destruct j.
Qed.

Lemma begin_recent t t' c j :
  wfJ j → (msize (idempotency j) ≤ MAX_IDEMPOTENCY_ENTRIES)%nat → recent j → inDay t →
  match begin epoch t t' c j with
  | (Some _, j') => (∀ k, is_Some (mget k (idempotency j')) ↔ is_Some (mget k (idempotency j))) ∧ recent j'
  | (None, j') => j' = j ∧ mget (tupleKey c) (idempotency j) = None
  end.
Proof.
  intros Hwf Hs Hr Ht. unfold begin. rewrite prune_recent by done.
  destruct (mget (tupleKey c) (idempotency j)) as [e|] eqn:E; [|done]. split.
  - intros k. simpl. rewrite is_Some_mset. split; [intros [->|?]; eauto|by right].
  - intros k e'. simpl. rewrite mget_mset. case_decide; [|apply Hr].
    intros [= <-]. subst. simpl. by apply Hr.
Qed.

Lemma recent_row row j : recent j → recentRow row → recent (applyAuditRow epoch j row).
Proof.
  intros Hj Hr k e. destruct row as [c t|c out reason result t|i act reason t|g node ep pv t];
    simpl in *; try apply Hj; destruct Hr as [Ht Hc];
    (destruct (String.eqb _ _); [|apply Hj]); rewrite mget_mset; (case_decide; [|apply Hj]);
    intros [= <-]; subst; simpl; (split; [done|by apply epochField_key]).
Qed.

Lemma idem_row k row j :
  is_Some (mget k (idempotency j)) → is_Some (mget k (idempotency (applyAuditRow epoch j row))).
Proof.
  intros Hk. destruct row; simpl; try done; destruct (String.eqb _ _); try done;
    apply is_Some_mset; by right.
Qed.

(** *** The idempotency entry of a written intent *)

Definition KeptIdem (k : string) : Sys → Prop :=
  Kept epoch (λ row, intentKey row = Some k) (λ j, is_Some (mget k (idempotency j))) recentRow.

Definition wellRequests (R : jmap nat Request) : Prop := ∀ n q, mget n R = Some q → wellFormed (rq_command q).

Record Recent (s : Sys) : Prop := {
  rc_kept k : KeptIdem k s;
  rc_mem : recent (mem s);
  rc_snaps snap : snaps s snap → recent (applySnapshot snap);
  rc_rows row : row ∈ rowsOf (audit (disk s)) ++ pending s → recentRow row;
  rc_requests : wellRequests (requests s)
}.

Lemma timely_OK o : timely o → opOK epoch o.
Proof. destruct o; simpl; try done; unfold wellFormed; naive_solver. Qed.

Lemma recent_rows rows j : recent j → (∀ row, row ∈ rows → recentRow row) → recent (applyRows epoch j rows).
Proof.
  unfold applyRows. revert j. induction rows as [|row rows IH]; intros j Hj Hr; simpl; [done|].
  apply IH; [|set_solver]. apply recent_row; [done|]. set_solver.
Qed.

Lemma recent_replayed s : Recent s → recent (replayed epoch (disk s)).
Proof.
  intros Hr. apply recent_rows; [|intros row Hin; apply (rc_rows _ Hr); set_solver].
  destruct (snapshot (disk s)) eqn:E; [apply (rc_snaps _ Hr); by left|]. by intros k e.
Qed.

(** A step of the memory that keeps every entry recent, and logs a recent row. *)
Lemma Recent_step s j (row : option CommandAuditRow) R :
  Recent s → recent j → (∀ x, row = Some x → recentRow x) → wellRequests R →
  (∀ k, KeptIdem k (onRequests R (onMem j row s))) → Recent (onRequests R (onMem j row s)).
Proof.
  intros [A B C D E] Hj Hrow HR Hk. split; try done. cbn. intros x. rewrite app_assoc, elem_of_app. intros [Hx|Hx]; [by apply D|].
  destruct row as [y|]; [|by apply elem_of_nil in Hx]. apply list_elem_of_singleton in Hx as ->. by apply Hrow.
Qed.

Lemma wellRequests_mdel k R : wellRequests R → wellRequests (mdel k R).
Proof. intros H i q. rewrite mget_mdel. case_decide; [done|apply H]. Qed.

Lemma wellRequests_mset k c p R : wellFormed c → wellRequests R → wellRequests (mset k (mkRequest c p) R).
Proof. intros Hc H i q. rewrite mget_mset. case_decide; [by intros [= <-]|apply H]. Qed.

(** What [pipelineValidated] does once the request is valid. *)
Lemma validated_recent t t' t'' c j :
  wfJ j → (msize (idempotency j) ≤ MAX_IDEMPOTENCY_ENTRIES)%nat → recent j → wellFormed c →
  inDay t → inDay t'' →
  match pipelineValidated epoch None t t' t'' c j with
  | Replied _ j' row =>
      row = None ∧ recent j' ∧ ∀ k, is_Some (mget k (idempotency j)) → is_Some (mget k (idempotency j'))
  | Waiting p j' row =>
      p = logging (command_intent c t'') ∧ row = Some (command_intent c t'') ∧ recent j' ∧
      mget (tupleKey c) (idempotency j) = None ∧
      ∀ k, is_Some (mget k (idempotency j')) ↔ k = tupleKey c ∨ is_Some (mget k (idempotency j))
  end.
Proof.
  intros Hwf Hs Hr Hc Ht Ht''. unfold pipelineValidated. pose proof (begin_recent t t' c j Hwf Hs Hr Ht) as Hb.
  destruct (begin epoch t t' c j) as [[r|] m].
  - destruct Hb as [H1 H2]. split_and!; [done|done|]. intros k. by apply H1.
  - destruct Hb as [-> Hnone]. cbn. split_and!; [done|done| |done|intros k; apply is_Some_mset].
    intros k e. cbn. rewrite mget_mset. case_decide; [|apply Hr]. intros [= <-]. subst. cbn.
    split; [apply Ht''|by apply epochField_key].
Qed.

Lemma finish_recent c executed t j :
  recent j → wellFormed c → inDay t →
  let '(r, j', row) := pipelineFinish c executed t j in
  recent j' ∧ recentRow row ∧ intentKey row = None ∧
  ∀ k, is_Some (mget k (idempotency j)) → is_Some (mget k (idempotency j')).
Proof.
  intros Hj Hc Ht. destruct executed; cbn; (split_and!; [|apply Ht|done|done|
    intros k; rewrite mget_mupd; case_decide; [by rewrite fmap_is_Some|done]]);
    intros k x; cbn; rewrite mget_mupd; (case_decide; [|apply Hj]); subst;
    (destruct (mget _ (idempotency j)) as [y|] eqn:E0; [|done]); intros [= <-]; simpl; by apply Hj.
Qed.

Lemma KeptIdem_exec n s o k :
  Inv epoch n s → calm s o → timely o → (n ≤ MAX_IDEMPOTENCY_ENTRIES)%nat → Recent s → KeptIdem k (exec epoch s o).
Proof.
  intros Hi Hc Hto Hn Hr. destruct (Inv_small epoch n s Hi Hn) as (_ & Hs & _).
  apply (Kept_exec epoch _ _ recentRow) with (n := n); try done.
  - intros row j. apply idem_row.
  - intros row j Hrow HK. destruct row as [c t|c out reason result t|i act reason t|g node ep pv t]; simpl in *; try done.
    destruct Hrow as [_ (He & _)]. injection HK as <-. rewrite He, String.eqb_refl, mget_mset_eq. by eexists.
  - intros j j' E _. by rewrite E.
  - apply Hr.
  - intros i c t t' t'' -> Ei. destruct Hto as (H1 & H2 & H3).
    pose proof (validated_recent t t' t'' c (mem s) (iv_wfm _ _ _ Hi) Hs (rc_mem _ Hr) (rc_requests _ Hr _ _ Ei) H1 H3) as H.
    destruct (pipelineValidated epoch None t t' t'' c (mem s)) as [r j row|p j row].
    + destruct H as (-> & _ & H). by split; [apply H|].
    + destruct H as (_ & -> & _ & _ & H). split; [intros Hk; apply H; by right|]. intros x [= <-].
      split; [split; [apply H3|apply (rc_requests _ Hr _ _ Ei)]|]. intros [= <-]. apply H. by left.
  - intros i c executed t -> Ei.
    pose proof (finish_recent c executed t (mem s) (rc_mem _ Hr) (rc_requests _ Hr _ _ Ei) Hto) as H.
    destruct (pipelineFinish c executed t (mem s)) as [[r j] row]. destruct H as (_ & H2 & H3 & H4).
    split; [apply H4|]. intros x [= <-]. split; [done|]. by rewrite H3.
Qed.

Lemma Recent_disk s s' :
  Recent s → (∀ k, KeptIdem k s') → recent (mem s') →
  (∀ snap, snaps s' snap → snaps s snap ∨ recent (applySnapshot snap)) →
  (∀ row, row ∈ rowsOf (audit (disk s')) ++ pending s' → row ∈ rowsOf (audit (disk s)) ++ pending s) →
  wellRequests (requests s') → Recent s'.
Proof. intros [A B C D E] Hk Hm Hs Hr HR. split; auto. intros snap [?|?]%Hs; auto. Qed.

Lemma Recent_exec n s o :
  Inv epoch n s → calm s o → timely o → (S n ≤ MAX_IDEMPOTENCY_ENTRIES)%nat → Recent s → Recent (exec epoch s o).
Proof.
  intros Hi Hc Hto Hn Hr. assert (Hn' : (n ≤ MAX_IDEMPOTENCY_ENTRIES)%nat) by lia.
  destruct (Inv_small epoch n s Hi Hn') as (Hpr & Hs & _).
  pose proof (λ k, KeptIdem_exec n s o k Hi Hc Hto Hn' Hr) as Hk.
  pose proof (Inv_exec epoch n s o Hi Hc (timely_OK o Hto) Hn) as Hi'.
  pose proof (rc_requests _ Hr) as HR. pose proof (rc_mem _ Hr) as Hm.
  destruct o as [k h t c|k auth t|k valid t t' t''|k|k executed t|g node pv t| |k t|k|torn]; cbn [exec timely calm] in *.
  - destruct (mhas k _); [done|]. unfold pipelineReceive in *. destruct (negb _); [|destruct (hasTombstone _ _)];
      (apply Recent_step; [done|done|by intros x [= <-]| |done]); [by apply wellRequests_mdel..|by apply wellRequests_mset].
  - destruct (mget k _) as [[c []]|] eqn:Ek; try done. pose proof (HR _ _ Ek) as Hw.
    destruct auth; (apply Recent_step; [done|done|by intros x [= <-]| |done]); [by apply wellRequests_mdel|by apply wellRequests_mset].
  - destruct (mget k _) as [[c []]|] eqn:Ek; try done. pose proof (HR _ _ Ek) as Hw. destruct Hto as (H1 & H2 & H3).
    destruct valid; [apply Recent_step; [done|done|by intros x [= <-]|by apply wellRequests_mdel|done]|].
    pose proof (validated_recent t t' t'' c (mem s) (iv_wfm _ _ _ Hi) Hs Hm Hw H1 H3) as H.
    destruct (pipelineValidated epoch None t t' t'' c (mem s)) as [r j row|p j row].
    + destruct H as (-> & H & _). by apply Recent_step; [| | |apply wellRequests_mdel|].
    + destruct H as (_ & -> & H & _). apply Recent_step; [done|done| |by apply wellRequests_mset|done].
      intros x [= <-]. split; [apply H3|done].
  - destruct (mget k _) as [[c []]|] eqn:Ek; try done. destruct (bool_decide _); [done|].
    apply (Recent_disk s); auto. cbn. apply wellRequests_mset; [apply (HR _ _ Ek)|done].
  - destruct (mget k _) as [[c []]|] eqn:Ek; try done.
    pose proof (finish_recent c executed t (mem s) Hm (HR _ _ Ek) Hto) as H.
    destruct executed; (apply (Recent_step s _ (Some _) (mdel k (requests s)));
      [done|apply H|intros x [= <-]; apply H|by apply wellRequests_mdel|done]).
  - apply (Recent_step s _ (Some _) (requests s)); [done|exact Hm|by intros x [= <-]|done|done].
  - destruct (pending s) as [|row rows] eqn:Ep; [done|]. destruct (Hc ltac:(done)) as [Ht _].
    apply (Recent_disk s); auto. intros x. cbn. rewrite rowsOf_append, Ep by done. set_solver.
  - destruct (mhas k _); [done|]. pose proof (takeSnapshot_mem epoch n s t Hi Hn') as Hmem.
    destruct (snapshot_restores 0 t (mem s) (iv_wfm _ _ _ Hi) Hpr) as (_ & _ & D0 & _). cbv zeta in D0.
    destruct (takeSnapshot 0 t (mem s)) as [j snap]. cbn [fst snd] in *. subst j.
    apply (Recent_disk s); [done|done|exact Hm| |cbn; set_solver|done].
    intros x [H|[i H]]; [left; by left|]. cbn in H. rewrite mget_mset in H. case_decide; [|left; right; by exists i].
    right. injection H as <-. unfold recent. rewrite D0. exact Hm.
  - destruct (mget k (compactions s)) as [p|] eqn:Ek; [|done].
    assert (Hsn : ∀ snap, snaps (compactStep k p s) snap → snaps s snap).
    { intros x. unfold snaps. destruct p as [snap| |]; cbn [compactStep]; [| destruct (missing s)|]; cbn.
      - intros [[= <-]|[i H]]; [right; by exists k|]. rewrite mget_mset in H. case_decide; [done|right; by exists i].
      - intros [H|[i H]]; [by left|]. rewrite mget_mdel in H. case_decide; [done|right; by exists i].
      - intros [H|[i H]]; [by left|]. rewrite mget_mset in H. case_decide; [done|right; by exists i].
      - intros [H|[i H]]; [by left|]. rewrite mget_mdel in H. case_decide; [done|right; by exists i]. }
    apply (Recent_disk s); [done|done| |by left; apply Hsn| |]; destruct p as [snap| |]; cbn [compactStep]; try destruct (missing s); try done; set_solver.
  - pose proof Hi' as Hi2. destruct (Inv_small epoch _ _ Hi' Hn) as (_ & _ & Hl).
    pose proof (recent_replayed s Hr) as Hrep.
    assert (Hstay : load epoch (disk s) = replayed epoch (disk s) → (∀ k, KeptIdem k (restart epoch (disk s) (missing s) (ran s))) →
      Recent (restart epoch (disk s) (missing s) (ran s))).
    { intros H Hk2. apply (Recent_disk s); [done|done|cbn; by rewrite H| |cbn; set_solver|done]. intros snap [H2|[i H2]]; [left; by left|done]. }
    destruct torn as [whole|]; [|by apply Hstay]. destruct (pending s) as [|row rows] eqn:Ep; [by apply Hstay|].
    specialize (Hc ltac:(done)). pose proof (replayed_rows epoch _ _ _ (rowsOf_torn whole row _ Hc)) as Hrow.
    assert (Hsub : ∀ x, x ∈ (if whole then [row] else []) → recentRow x).
    { intros x Hx. apply (rc_rows _ Hr). rewrite Ep. destruct whole; set_solver. }
    apply (Recent_disk s); [done|done| | |cbn; rewrite rowsOf_torn, Ep by done; destruct whole; set_solver|done].
    + cbn. cbn in Hl. rewrite Hl, Hrow. by apply recent_rows.
    + intros snap [H2|[i H2]]; [left; by left|done].
Qed.

(** *** One intent, one call of a handler *)

Record Once (s : Sys) : Prop := {
  on_nodup : NoDup (intentKeys (log s));
  on_ran : NoDup (ran s);
  on_written k : k ∈ ran s → k ∈ intentKeys (written s);
  on_logging n c row : mget n (requests s) = Some (mkRequest c (logging row)) →
    intentKey row = Some (tupleKey c) ∧ row ∈ log s ∧ tupleKey c ∉ ran s;
  on_one n n' c c' row row' :
    mget n (requests s) = Some (mkRequest c (logging row)) → mget n' (requests s) = Some (mkRequest c' (logging row')) →
    tupleKey c = tupleKey c' → n = n'
}.

Lemma intentKeys_app rows rows' : intentKeys (rows ++ rows') = intentKeys rows ++ intentKeys rows'.
Proof. apply omap_app. Qed.

Lemma elem_of_intentKeys k rows : k ∈ intentKeys rows ↔ ∃ row, row ∈ rows ∧ intentKey row = Some k.
Proof. unfold intentKeys. by rewrite list_elem_of_omap. Qed.

(** A step of the memory: a new intent is one whose tuple the memory does not know, and only the
    request that logged it waits for it. *)
Lemma Once_step s j (row : option CommandAuditRow) R n0 :
  Recent s → Once s →
  (∀ x k, row = Some x → intentKey x = Some k → mget k (idempotency (mem s)) = None) →
  (∀ n c x, mget n R = Some (mkRequest c (logging x)) →
     mget n (requests s) = Some (mkRequest c (logging x)) ∨ n = n0 ∧ row = Some x ∧ intentKey x = Some (tupleKey c)) →
  Once (onRequests R (onMem j row s)).
Proof.
  intros Hr [A B C D E] Hnew HR. set (s' := onRequests _ _).
  assert (Hl : log s' = log s ++ option_list row) by (unfold log; cbn; by rewrite app_assoc).
  assert (Hfresh : ∀ x k, row = Some x → intentKey x = Some k → k ∉ intentKeys (log s)).
  { intros x k H1 H2 Hin. apply elem_of_intentKeys in Hin as (y & Hy & Hk).
    destruct (kp_mem _ _ _ _ _ (rc_kept _ Hr k)) as [e He]; [by exists y|]. rewrite (Hnew x k H1 H2) in He. done. }
  assert (Hold : ∀ n c x, mget n (requests s) = Some (mkRequest c (logging x)) → tupleKey c ∈ intentKeys (log s)).
  { intros n c x H. destruct (D n c x H) as (H1 & H2 & _). apply elem_of_intentKeys. by exists x. }
  split.
  - rewrite Hl, intentKeys_app. apply NoDup_app. split_and!; [done| |].
    + intros k Hk Hin. destruct row as [x|]; [|by apply elem_of_nil in Hin]. cbn in Hin.
      destruct (intentKey x) as [k'|] eqn:Ex; [|by apply elem_of_nil in Hin]. apply list_elem_of_singleton in Hin as ->.
      by apply (Hfresh x k').
    + destruct row as [x|]; [|apply NoDup_nil_2]. cbn. destruct (intentKey x); [apply NoDup_singleton|apply NoDup_nil_2].
  - exact B.
  - exact C.
  - intros n c x [H|(-> & H1 & H2)]%HR.
    + destruct (D n c x H) as (H1 & H2 & H3). split_and!; [done| |done]. rewrite Hl. apply elem_of_app. by left.
    + split_and!; [done|rewrite Hl, H1; apply elem_of_app; right; by left|]. intros Hin%C. apply (Hfresh x (tupleKey c) H1 H2).
      unfold log. rewrite intentKeys_app. apply elem_of_app. by left.
  - intros n n' c c' x x' [H|(-> & H1 & H2)]%HR [H'|(-> & H1' & H2')]%HR Hkey; [by eapply E| | |done]; exfalso.
    + apply (Hfresh x' (tupleKey c') H1' H2'). rewrite <- Hkey. by eapply Hold.
    + apply (Hfresh x (tupleKey c) H1 H2). rewrite Hkey. by eapply Hold.
Qed.

(** A request that stops waiting for its intent, or never did. *)
Lemma Once_quiet s j (row : option CommandAuditRow) R :
  Recent s → Once s → (∀ x, row = Some x → intentKey x = None) →
  (∀ n c x, mget n R = Some (mkRequest c (logging x)) → mget n (requests s) = Some (mkRequest c (logging x))) →
  Once (onRequests R (onMem j row s)).
Proof.
  intros Hr Ho H1 H2. apply (Once_step s j row R 0); [done|done| |by intros n c x H%H2; left].
  intros x k Hx. by rewrite (H1 x Hx).
Qed.

Lemma logging_mdel (k : nat) R n c x :
  mget n (mdel k R) = Some (mkRequest c (logging x)) → mget n R = Some (mkRequest c (logging x)).
Proof. rewrite mget_mdel. by case_decide. Qed.

Lemma logging_mset (k : nat) p c0 R n c x :
  (∀ y, p ≠ logging y) → mget n (mset k (mkRequest c0 p) R) = Some (mkRequest c (logging x)) →
  mget n R = Some (mkRequest c (logging x)).
Proof. intros Hp. rewrite mget_mset. case_decide; [|done]. intros [= _ Hx]. by apply Hp in Hx. Qed.

Lemma Once_disk s s' :
  Once s → log s' = log s → requests s' = requests s → ran s' = ran s →
  (∀ row, row ∈ written s → row ∈ written s') → Once s'.
Proof.
  intros [A B C D E] Hl HR Hran Hw. split; rewrite ?Hl, ?HR, ?Hran; try done.
  intros k (row & H1 & H2)%C%elem_of_intentKeys. apply elem_of_intentKeys. exists row. auto.
Qed.

Lemma log_compactStep n s k : Inv epoch n s → log (exec epoch s (CompactStep k)) = log s.
Proof.
  intros Hi. unfold exec. destruct (mget k (compactions s)) as [[snap| |]|] eqn:Ek; try done; cbn [compactStep].
  - destruct (missing s); [done|]. unfold log, written. cbn. rewrite map_app, concat_app. cbn. by rewrite !app_nil_r.
  - unfold log, written. cbn. by rewrite (iv_renamed _ _ _ Hi k Ek).
Qed.

Lemma Once_crash n s torn : Inv epoch n s → calm s (Crash torn) → Once s → Once (exec epoch s (Crash torn)).
Proof.
  intros Hi Hc [A B C D E]. pose proof (λ row, written_exec epoch s (Crash torn) row n Hi Hc) as Hw. set (s' := exec epoch s (Crash torn)) in *.
  assert (Hs : ∃ rest, intentKeys (log s) = intentKeys (log s') ++ rest).
  { unfold s', exec in *. assert (Hstay : log (restart epoch (disk s) (missing s) (ran s)) = written s) by (unfold log; cbn; by rewrite app_nil_r).
    destruct torn as [whole|]; [|exists (intentKeys (pending s)); by rewrite Hstay, <- intentKeys_app].
    destruct (pending s) as [|row rows] eqn:Ep; [exists []; rewrite Hstay, app_nil_r; unfold log; by rewrite Ep, app_nil_r|].
    specialize (Hc ltac:(by rewrite Ep)). unfold log, written. cbn [restart disk onAudit audit archives pending].
    rewrite rowsOf_torn, app_nil_r, app_assoc, Ep by done. exists (intentKeys (if whole then rows else row :: rows)).
    rewrite <- intentKeys_app. f_equal. rewrite <- !app_assoc. by destruct whole. }
  destruct Hs as [rest Hs]. rewrite Hs in A. apply NoDup_app in A as (A & _ & _).
  assert (Hreq : requests s' = []) by (unfold s', exec; destruct torn; [destruct (pending s)|]; done).
  assert (Hran : ran s' = ran s) by (unfold s', exec; destruct torn; [destruct (pending s)|]; done).
  split; rewrite ?Hreq, ?Hran; try done.
  intros k (row & H1 & H2)%C%elem_of_intentKeys. apply elem_of_intentKeys. exists row. auto.
Qed.

Lemma Once_exec n s o :
  Inv epoch n s → calm s o → timely o → (n ≤ MAX_IDEMPOTENCY_ENTRIES)%nat → Recent s → Once s → Once (exec epoch s o).
Proof.
  intros Hi Hc Hto Hn Hr Ho. destruct (Inv_small epoch n s Hi Hn) as (_ & Hs & _).
  pose proof (λ row, written_exec epoch s o row n Hi Hc) as Hw. pose proof (rc_requests _ Hr) as HR.
  destruct o as [k h t c|k auth t|k valid t t' t''|k|k executed t|g node pv t| |k t|k|torn]; cbn [exec timely] in *.
  - destruct (mhas k _); [done|]. unfold pipelineReceive. destruct (negb _); [|destruct (hasTombstone _ _)];
      (apply Once_quiet; [done|done|by intros x [= <-]|]); [apply logging_mdel..|intros n1 c1 x; by apply logging_mset].
  - destruct (mget k _) as [[c []]|]; try done.
    destruct auth; (apply Once_quiet; [done|done|by intros x [= <-]|]); [apply logging_mdel|intros n1 c1 x; by apply logging_mset].
  - destruct (mget k _) as [[c []]|] eqn:Ek; try done. pose proof (HR _ _ Ek) as Hwf. destruct Hto as (H1 & H2 & H3).
    destruct valid; [apply Once_quiet; [done|done|by intros x [= <-]|apply logging_mdel]|].
    pose proof (validated_recent t t' t'' c (mem s) (iv_wfm _ _ _ Hi) Hs (rc_mem _ Hr) Hwf H1 H3) as H.
    destruct (pipelineValidated epoch None t t' t'' c (mem s)) as [r j row|p j row].
    + destruct H as (-> & _). apply Once_quiet; [done|done|by intros x [=]|apply logging_mdel].
    + destruct H as (-> & -> & _ & Hnone & _). apply (Once_step s j _ _ k); [done|done| |].
      * by intros x k' [= <-] [= <-].
      * intros n1 c1 x. rewrite mget_mset. case_decide; [|by left]. subst. intros [= <- <-]. by right.
  - destruct (mget k _) as [[c []]|] eqn:Ek; try done. case_bool_decide as Hp; [done|]. destruct Ho as [A B C D E].
    destruct (D k c row Ek) as (H1 & H2 & H3).
    assert (Hrow : tupleKey c ∈ intentKeys (written s)).
    { apply elem_of_intentKeys. exists row. split; [|done]. unfold log in H2. apply elem_of_app in H2 as [?|?]; done. }
    split; try done; cbn [requests ran].
    + apply NoDup_app. split_and!; [done| |apply NoDup_singleton]. by intros x Hx ->%list_elem_of_singleton.
    + intros x [Hx|Hx]%elem_of_app; [by apply C|]. by apply list_elem_of_singleton in Hx as ->.
    + intros n1 c1 x Hx. pose proof Hx as Hx2. rewrite mget_mset in Hx. case_decide as Hn1; [done|].
      destruct (D n1 c1 x Hx) as (G1 & G2 & G3). split_and!; [done|done|]. intros [?|Hin]%elem_of_app; [done|].
      apply list_elem_of_singleton in Hin. apply Hn1. by apply (E _ _ _ _ _ _ Hx Ek).
    + intros n1 n2 c1 c2 x1 x2 Hx1 Hx2. rewrite mget_mset in Hx1, Hx2. do 2 case_decide; try done. by eapply E.
  - destruct (mget k _) as [[c []]|] eqn:Ek; try done.
    destruct executed; (apply (Once_quiet s _ (Some _) (mdel k (requests s))); [done|done|by intros x [= <-]|apply logging_mdel]).
  - apply (Once_quiet s _ (Some _) (requests s)); [done|done|by intros x [= <-]|done].
  - apply (Once_disk s); [done| | | |exact Hw]; destruct (pending s) as [|row rows] eqn:Ep; try done.
    destruct (Hc ltac:(by rewrite Ep)) as [Ht _]. unfold log, written. cbn. rewrite rowsOf_append, Ep by done. by rewrite <- !app_assoc.
  - apply (Once_disk s); [done| | | |exact Hw]; destruct (mhas k _); try done. unfold log, written. cbn. by rewrite app_nil_r.
  - apply (Once_disk s); [done|by apply (log_compactStep n)| | |exact Hw]; destruct (mget k _) as [[snap| |]|]; try done;
      cbn [compactStep]; by destruct (missing s).
  - by apply (Once_crash n).
Qed.

Lemma Once_run ops n s :
  Inv epoch n s → Recent s → Once s → calmRun epoch ops s → Forall timely ops →
  (n + length ops ≤ MAX_IDEMPOTENCY_ENTRIES)%nat → Once (run epoch ops s).
Proof.
  intros Hi Hr Ho Hc Hall. revert n s Hi Hr Ho Hc. unfold run.
  induction Hall as [|o ops Hto _ IH]; intros n s Hi Hr Ho Hc Hn; simpl in *; [done|]. destruct Hc as [H1 H2].
  apply (IH (S n)); [apply Inv_exec; [done|done|by apply timely_OK|lia]| | |done|lia].
  - apply (Recent_exec n); [done|done|done|lia|done].
  - apply (Once_exec n); [done|done|done|lia|done|done].
Qed.

Lemma Recent_boot : Recent boot.
Proof.
  split; cbn; try done; [intros k; apply Kept_boot|by intros snap [?|[i ?]]|by intros row ?%elem_of_nil].
Qed.

Lemma Once_boot : Once boot.
Proof. split; cbn; try done; try apply NoDup_nil_2. Qed.

End window.

(** ** The theorems *)

(** C6: a journal rebuilt after a restart, when every append has reached the file, agrees with the
    one in memory: the same grants are revoked, every command has the same outcome, and every
    idempotency tuple the memory still holds is there with the same stored answer. This holds for
    requests of this process' epoch, below the caps of the journal (100000 events), and whatever
    requests, failures, revocations, compactions and crashes came before, at any of their awaits,
    as long as no row was appended to a line that a crash had cut short and none reached the file
    inside a compaction: either loses the row ([torn_append_swallows], [compaction_race]). Appends
    do not fail and are written in the order in which they were issued. *)
Theorem recovery_exact epoch ops :
  Forall (opOK epoch) ops → (length ops ≤ MAX_IDEMPOTENCY_ENTRIES)%nat → calmRun epoch ops boot →
  let s := run epoch ops boot in
  pending s = [] →
  let j := load epoch (disk s) in
  (∀ g, hasTombstone g j = hasTombstone g (mem s)) ∧
  (∀ i, commandOutcome i j = commandOutcome i (mem s)) ∧
  (∀ k e, mget k (idempotency (mem s)) = Some e →
     ∃ e', mget k (idempotency j) = Some e' ∧ ie_result e' = ie_result e).
Proof.
  intros Hall Hlen Hcalm s Hp j.
  pose proof (Inv_run epoch ops 0 boot (Inv_boot epoch) Hcalm Hall Hlen) as Hi. fold s in Hi. simpl in Hi.
  destruct (Inv_small epoch _ s Hi Hlen) as (_ & _ & Hl).
  pose proof (iv_cov _ _ _ Hi) as Hc. rewrite Hp in Hc. simpl in Hc. rewrite <- Hl in Hc. fold j in Hc.
  split_and!.
  - intros g. unfold hasTombstone, mhas. by rewrite (cov_tomb _ _ Hc).
  - intros i. symmetry. by apply covers_outcome.
  - apply (cov_idem _ _ Hc).
Qed.

Lemma calmRun_app epoch ops1 ops2 s :
  calmRun epoch (ops1 ++ ops2) s ↔ calmRun epoch ops1 s ∧ calmRun epoch ops2 (run epoch ops1 s).
Proof.
  revert s. induction ops1 as [|o ops1 IH]; intros s; simpl; [naive_solver|]. rewrite IH. naive_solver.
Qed.

(** A revocation that has reached the file holds for ever, under the same conditions: after any
    further requests, compactions, crashes and restarts the grant is still refused. *)
Theorem revocation_durable epoch before after g node ep pv t :
  Forall (opOK epoch) (before ++ after) → calmRun epoch (before ++ after) boot →
  (length (before ++ after) ≤ MAX_IDEMPOTENCY_ENTRIES)%nat →
  grant_revoke g node ep pv t ∈ written (run epoch before boot) →
  hasTombstone g (mem (run epoch (before ++ after) boot)) = true.
Proof.
  intros Hall Hcalm Hlen Hw.
  pose proof (KeptTomb_run epoch (before ++ after) 0 boot g (Inv_boot epoch) Hcalm Hall Hlen (Kept_boot _ _ _ _)) as Hk.
  apply Forall_app in Hall as [H1 H2]. apply calmRun_app in Hcalm as [C1 C2]. rewrite length_app in Hlen.
  assert (Hi : Inv epoch (length before) (run epoch before boot)) by (apply (Inv_run epoch before 0); [apply Inv_boot|done|done|lia]).
  pose proof (written_run epoch after _ _ _ Hi C2 H2 Hlen Hw) as Hrow.
  destruct (kp_mem _ _ _ _ _ Hk) as [u Hu].
  - exists (grant_revoke g node ep pv t). unfold run in *. rewrite foldl_app. split; [|by eexists _, _, _, _].
    apply elem_of_app. by left.
  - unfold hasTombstone, mhas. by rewrite Hu.
Qed.

(** A crash in the middle of an append leaves text without a newline, which a
    restart does not repair: the next row is joined to it and unreadable.  A grant
    revoked after such a restart, its row written in full, is honoured again after
    the following restart. *)
Theorem torn_append_swallows epoch d whole row g node pv t :
  tail (audit d) = None →
  let d1 := mkDisk (tornAppend whole row (audit d)) (snapshot d) (archives d) in
  let s := run epoch [Revoke g node pv t; Flush] (restart epoch d1 false []) in
  hasTombstone g (mem s) = true ∧ pending s = [] ∧ load epoch (disk s) = load epoch d.
Proof.
  intros Ht d1 s. split_and!.
  - unfold hasTombstone, mhas. cbn. by rewrite mget_mset_eq.
  - done.
  - assert (Hr : rowsOf (audit (disk s)) = rowsOf (audit d)).
    { unfold s, d1. simpl. unfold tornAppend. rewrite Ht. simpl. unfold appendFile, rowsOf. simpl.
      rewrite Ht, !app_nil_r, omap_app. simpl. by rewrite app_nil_r. }
    unfold load, replayed. by rewrite Hr.
Qed.

Lemma load_tombs epoch d : tombstones (load epoch d) = tombstones (replayed epoch d).
Proof.
  unfold load, pruneCommandState. by repeat match goal with |- context [bool_decide ?P] => destruct (bool_decide P) end.
Qed.

(** C38: the compaction reads the journal, writes the snapshot and only then archives the log.  A
    revocation that lands in between, in memory and in the file, is in neither the snapshot nor
    the new log: after a restart the grant is honoured again. *)
Theorem compaction_race epoch ops k g node pv t t0 :
  Forall (opOK epoch) ops → (length ops ≤ MAX_IDEMPOTENCY_ENTRIES)%nat → calmRun epoch ops boot →
  let s0 := run epoch ops boot in
  pending s0 = [] → mget k (compactions s0) = None → hasTombstone g (mem s0) = false →
  let s1 := run epoch [Compact k t0; Revoke g node pv t; Flush] s0 in
  let s2 := run epoch [CompactStep k; CompactStep k; CompactStep k] s1 in
  hasTombstone g (mem s2) = true ∧ (tail (audit (disk s0)) = None → grant_revoke g node epoch pv t ∈ written s1) ∧
  pending s2 = [] ∧ hasTombstone g (load epoch (disk s2)) = false.
Proof.
  intros Hall Hlen Hcalm s0 Hp Hk Hg s1 s2.
  pose proof (Inv_run epoch ops 0 boot (Inv_boot epoch) Hcalm Hall Hlen) as Hi. fold s0 in Hi. simpl in Hi.
  destruct (Inv_small epoch _ s0 Hi Hlen) as (Hpr & _ & _).
  destruct (snapshot_restores 0 t0 (mem s0) (iv_wfm _ _ _ Hi) Hpr) as (_ & _ & _ & T). cbv zeta in T.
  pose proof (takeSnapshot_mem epoch _ s0 t0 Hi Hlen) as Hmem.
  set (snap := snd (takeSnapshot 0 t0 (mem s0))) in *.
  assert (H1 : s1 = onCompactions (mset k (Captured snap) (compactions s0))
    (setMissing false (onAudit (appendFile (grant_revoke g node epoch pv t) (audit (disk s0)))
      (onPending [] (onMem (fst (revokeGrant node epoch g pv t (mem s0))) None s0))))).
  { unfold s1, run. cbn [foldl exec]. unfold mhas. rewrite Hk. cbn [isSome]. rewrite (surjective_pairing (takeSnapshot 0 t0 (mem s0))), Hmem.
    cbn. by rewrite Hp. }
  assert (H2 : disk s2 = mkDisk emptyFile (Some snap) (archives (disk s0) ++ [audit (disk s1)])
    ∧ mem s2 = mem s1 ∧ pending s2 = pending s1).
  { unfold s2. rewrite H1. unfold run. cbn [foldl exec compactions onCompactions]. rewrite mget_mset_eq. cbn. rewrite mget_mset_eq. cbn.
    rewrite mget_mset_eq. by cbn. }
  destruct H2 as (H2 & H3 & H4). split_and!.
  - rewrite H3, H1. unfold hasTombstone, mhas. cbn. by rewrite mget_mset_eq.
  - intros Ht. rewrite H1. unfold written. cbn. rewrite rowsOf_append by done.
    apply elem_of_app. right. apply elem_of_app. right. by apply list_elem_of_singleton.
  - by rewrite H4, H1.
  - unfold hasTombstone, mhas. rewrite load_tombs, H2.
    change (tombstones (replayed epoch _)) with (tombstones (applySnapshot snap)).
    unfold hasTombstone, mhas in Hg. by rewrite T.
Qed.

(** C28: within any day, no idempotency tuple gets a second intent and no handler is called a
    second time for it, whatever retries, failures, compactions, crashes and restarts happen, at
    any await of the requests: for well-formed requests of this process' epoch, below the caps of
    the journal (100000 events), when appends do not fail and are written in order, and as long as
    no row is appended to a line that a crash cut short and none reaches the file inside a
    compaction ([overlapped_intent_runs_twice] is what happens otherwise). *)
Theorem at_most_once epoch T0 ops :
  Forall (timely epoch T0) ops → (length ops ≤ MAX_IDEMPOTENCY_ENTRIES)%nat → calmRun epoch ops boot →
  let s := run epoch ops boot in NoDup (intentKeys (log s)) ∧ NoDup (ran s).
Proof.
  intros Hall Hlen Hcalm s. assert (H : Once s); [|by split; apply H].
  apply (Once_run epoch T0 ops 0); [apply Inv_boot|apply Recent_boot|apply Once_boot|done..].
Qed.

(** An intent that a compaction overlaps is forgotten by the next restart: a retry within the day
    calls the handler again.  A grant that is revoked while its request is being authorized does
    not stop it. *)
Theorem overlapped_intent_runs_twice :
  let c id := mkEnvelope "n" "1" "s" "1" "g" "k1" id "a" "c" presetReply None None None None in
  let request n id t := [Receive n presetReply t (c id); Authorized n None t; Validated n None t t t; Flush] in
  ran (run "1" ([Compact 0 4] ++ request 0%nat "c1" 5 ++ [CompactStep 0; CompactStep 0; CompactStep 0; Execute 0;
                 Finish 0 (Ok "null") 6; Crash None] ++ request 1%nat "c2" 7 ++ [Execute 1]) boot)
  = [tupleKey (c "c1"); tupleKey (c "c2")] ∧ tupleKey (c "c1") = tupleKey (c "c2").
Proof. split; vm_compute; reflexivity. Qed.

Theorem revoked_while_authorizing :
  let c := mkEnvelope "n" "1" "s" "1" "g" "k1" "c1" "a" "c" presetReply None None None None in
  let s := run "1" [Receive 0 presetReply 5 c; Revoke "g" "n" None 6; Flush; Authorized 0 None 7; Validated 0 None 8 8 8;
                    Flush; Execute 0] boot in
  hasTombstone "g" (mem s) = true ∧ ran s = [tupleKey c].
Proof. split; vm_compute; reflexivity. Qed.


(** ** Retries *)

(** What a completed run leaves behind for its tuple. *)
Lemma ran_entry epoch h execute t t' t'' t3 c j r j1 rows :
  wfJ j → (msize (idempotency j) ≤ MAX_IDEMPOTENCY_ENTRIES)%nat → nodeEpoch c = epoch →
  executeWithPipeline epoch h None None execute t t' t'' t3 c j = (r, j1, rows, true) →
  wfJ j1 ∧ (msize (idempotency j1) ≤ S (msize (idempotency j)))%nat ∧
  mget (tupleKey c) (idempotency j1) = Some (mkIdem (tupleKey c) t3 t'' (commandId c) (Some r)).
Proof.
  intros Hwf Hs Hc Hex. unfold executeWithPipeline, pipelineReceive in Hex.
  destruct (negb _); [done|]. destruct (hasTombstone (grantId c) j); [done|].
  unfold pipelineAuthorized, pipelineValidated in Hex.
  destruct (begin_forgets epoch t t' c j [] Hwf Hs) as (_ & Hwf0 & _).
  pose proof (begin_size epoch t t' c j Hwf Hs) as Hs0.
  destruct (begin epoch t t' c j) as [[r0|] j0]; [done|]. simpl in Hwf0, Hs0.
  destruct (appendIntent_logs epoch c t'' j0 Hc) as [_ Hw1 _].
  rewrite (surjective_pairing (appendIntent c t'' j0)) in Hex.
  unfold pipelineFinish in Hex. set (ji := fst (appendIntent c t'' j0)) in *.
  assert (Hsi : (msize (idempotency ji) ≤ S (msize (idempotency j)))%nat).
  { simpl. rewrite msize_mset. destruct (mget _ _); lia. }
  assert (Hgi : mget (tupleKey c) (idempotency ji) = Some (mkIdem (tupleKey c) t'' t'' (commandId c) None))
    by (simpl; by rewrite mget_mset_eq).
  assert (Hres : ∀ out v reason, let r1 := mkResult out (commandId c) (action c) v reason in
    let j' := fst (appendResult c r1 t3 ji) in
    wfJ j' ∧ (msize (idempotency j') ≤ S (msize (idempotency j)))%nat ∧
    mget (tupleKey c) (idempotency j') = Some (mkIdem (tupleKey c) t3 t'' (commandId c) (Some r1))).
  { intros out v reason r1 j'. split_and!.
    - apply (lg_wf _ _ _ _ (appendResult_logs epoch c out v reason t3 ji Hc)). by apply Hw1.
    - unfold j'. cbn [appendResult fst idempotency]. by rewrite msize_mupd.
    - unfold j'. cbn [appendResult fst idempotency]. by rewrite mget_mupd, decide_True, Hgi. }
  clearbody ji. destruct (execute c) as [v|reason]; simplify_eq/=; apply Hres.
Qed.

(** A retry of a tuple whose handler has run, within a day, is answered with
    the stored outcome under the retry's own command id, and the handler does not
    run again. *)
Theorem retry_replays epoch h h' execute execute' t t' t'' t3 u u' u'' u3 c c' j r j1 rows :
  wfJ j → (msize (idempotency j) < MAX_IDEMPOTENCY_ENTRIES)%nat → wellFormed epoch c →
  executeWithPipeline epoch h None None execute t t' t'' t3 c j = (r, j1, rows, true) →
  tupleKey c' = tupleKey c → action c' = h' → hasTombstone (grantId c') j1 = false →
  u - DAY_MS ≤ t'' →
  ∃ j2, executeWithPipeline epoch h' None None execute' u u' u'' u3 c' j1 =
    (mkResult (outcome r) (commandId c') (res_action r) (res_result r) (res_reason r), j2, [], false).
Proof.
  intros Hwf Hs Hc Hex Hk Hh Hg Hu.
  destruct (ran_entry epoch h execute t t' t'' t3 c j r j1 rows Hwf) as (Hwf1 & Hs1 & Hg1);
    [lia|apply Hc|done|].
  unfold executeWithPipeline, pipelineReceive, pipelineAuthorized, pipelineValidated.
  rewrite (bool_decide_true (action c' = h')), Hg by done. simpl.
  unfold begin. rewrite prune_shrinks by (done || lia). cbn [idempotency withIdempotency].
  rewrite Hk. set (live := List.filter _ _).
  assert (Hlive : mget (tupleKey c) live = Some (mkIdem (tupleKey c) t3 t'' (commandId c) (Some r))).
  { apply elem_of_mget; [by apply mwf_filter, Hwf1|].
    apply list_elem_of_In, filter_In. split; [by apply list_elem_of_In, mget_elem_of|].
    unfold prunable. simpl. rewrite (epochField_key epoch c Hc), bool_decide_true by done.
    rewrite orb_false_r. apply negb_true_iff, Z.ltb_ge. lia. }
  rewrite Hlive. simpl. by eexists.
Qed.

(** ** Witnesses *)

Lemma below_cap n : Z.of_nat n ≤ 100000 → (n ≤ MAX_IDEMPOTENCY_ENTRIES)%nat.
Proof. unfold MAX_IDEMPOTENCY_ENTRIES. lia. Qed.

Definition sampleCommand (id key : string) : CommandEnvelope :=
  mkEnvelope "n" "1" "s" "1" "g" key id "a" "c" presetReply None None None None.

(** A request that runs to its end, a compaction, a request that a crash cuts short with its intent in
    the file, and a crash in the middle of the append of a refusal. *)
Definition sampleOps : list op :=
  [Receive 0 presetReply 5 (sampleCommand "c1" "k1"); Authorized 0 None 5; Validated 0 None 5 5 5; Flush; Execute 0;
   Finish 0 (Ok "null") 6; Flush; Compact 0 7; CompactStep 0; CompactStep 0; CompactStep 0;
   Receive 1 presetReply 8 (sampleCommand "c2" "k2"); Authorized 1 None 8; Validated 1 None 8 8 8; Flush; Execute 1;
   Crash None; Receive 2 skip 9 (sampleCommand "c3" "k3"); Crash (Some true)].

Ltac not_in := let H := fresh in intros H;
  repeat (apply elem_of_cons in H as [H|H]; [discriminate H|]); by apply elem_of_nil in H.

Lemma recovery_exact_witness :
  commandOutcome "c1" (load "1" (disk (run "1" sampleOps boot))) =
  commandOutcome "c1" (mem (run "1" sampleOps boot)).
Proof.
  apply (recovery_exact "1" sampleOps); [repeat constructor|by apply below_cap| |reflexivity].
  cbn [calmRun sampleOps calm]. split_and!; try exact I; intros _; vm_compute; auto.
Defined.

Lemma revocation_durable_witness :
  hasTombstone "g" (mem (run "1" ([Revoke "g" "n" None 5; Flush] ++ [Compact 0 6; CompactStep 0; Crash None]) boot)) = true.
Proof.
  apply (revocation_durable "1" [Revoke "g" "n" None 5; Flush] [Compact 0 6; CompactStep 0; Crash None] "g" "n" "1" None 5);
    [repeat constructor| |by apply below_cap|apply list_elem_of_here].
  cbn [calmRun app calm]. split_and!; try exact I; intros _; vm_compute; auto.
Defined.

Lemma torn_append_swallows_witness :
  load "1" (disk (run "1" [Revoke "g" "n" None 5; Flush]
    (restart "1" (mkDisk (tornAppend true (pre_audit_reject "c" skip "r" 1) emptyFile) None []) false []))) =
  load "1" emptyDisk.
Proof.
  apply (torn_append_swallows "1" emptyDisk true (pre_audit_reject "c" skip "r" 1) "g" "n" None 5).
  reflexivity.
Defined.

Lemma compaction_race_witness :
  hasTombstone "g" (load "1" (disk (run "1" [CompactStep 0; CompactStep 0; CompactStep 0]
    (run "1" [Compact 0 4; Revoke "g" "n" None 5; Flush] (run "1" [] boot))))) = false.
Proof.
  apply (compaction_race "1" [] 0 "g" "n" None 5 4);
    [constructor|by apply below_cap|exact I|reflexivity|reflexivity|reflexivity].
Defined.

Lemma at_most_once_witness : NoDup (ran (run "1" sampleOps boot)).
Proof.
  apply (at_most_once "1" 0 sampleOps); [|by apply below_cap|].
  - repeat constructor; simpl; try discriminate; try reflexivity; not_in.
  - cbn [calmRun sampleOps calm]. split_and!; try exact I; intros _; vm_compute; auto.
Defined.

Lemma retry_replays_witness :
  ∃ j2, executeWithPipeline "1" presetReply None None (λ _, Err "second") 9 9 9 9
    (sampleCommand "c2" "k1")
    (snd (fst (fst (executeWithPipeline "1" presetReply None None (λ _, Ok "null") 5 5 5 6
      (sampleCommand "c1" "k1") emptyJournal)))) =
    (mkResult accepted "c2" presetReply (Some "null") None, j2, [], false).
Proof.
  apply (retry_replays "1" presetReply presetReply (λ _, Ok "null") (λ _, Err "second")
    5 5 5 6 9 9 9 9 (sampleCommand "c1" "k1") (sampleCommand "c2" "k1") emptyJournal
    (mkResult accepted "c1" presetReply (Some "null") None)
    _ [command_intent (sampleCommand "c1" "k1") 5;
       command_result (sampleCommand "c1" "k1") accepted None (Some "null") 6]).
  - apply wfJ_empty.
  - apply (below_cap 1). lia.
  - split; [reflexivity|]. split; not_in.
  - reflexivity.
  - reflexivity.
  - reflexivity.
  - reflexivity.
  - unfold DAY_MS. lia.
Defined.

End Journal.
