(* ===== verification/PaneScreen.v ===== *)
(** * The visible lines of a terminal pane

    [src/shared/pane-semantics.ts], the function [visibleLinesFromTerminalText]:
    a small terminal emulator that the watchdog runs on the raw bytes of an
    agent's pane at every tick.  The grid is the list of its rows, a row the list
    of its code units; [line], [col] and [screenTop] are the variables of the
    function.  The position of the loop is the suffix of the text still to be
    read.

    The classifiers of the same file work by regular expressions over Unicode
    text and are not modelled. *)

From S2P Require Import Prelude JsString.
Local Open Scope Z_scope.

Module Screen.

(** ** Characters *)

Definition ESC : ascii := "027"%char.
Definition BEL : ascii := "007"%char.
Definition BS : ascii := "008"%char.
Definition CR : ascii := "013"%char.
Definition LF : ascii := "010"%char.
Definition DEL_CHAR : ascii := "127"%char.
Definition SPACE : ascii := " "%char.

Definition MAX_INFERRED_SCREEN_HEIGHT : nat := 1000.
Definition MAX_COLUMNS : nat := 1000.
#[local] Opaque MAX_INFERRED_SCREEN_HEIGHT MAX_COLUMNS.

(** The code unit lies between two others. *)
Definition within (lo hi : N) (c : ascii) : bool := ((lo <=? code c) && (code c <=? hi))%N.

(** The classes [0-?], [ -/] and [@-~] of a CSI sequence, and [0-9;]. *)
Definition isParam : ascii → bool := within 48 63.
Definition isIntermediate : ascii → bool := within 32 47.
Definition isFinal : ascii → bool := within 64 126.
Definition isDigitOrSemi (c : ascii) : bool := isDigit c || bool_decide (c = ";"%char).
Definition isHfd (c : ascii) : bool :=
  bool_decide (c = "H"%char) || bool_decide (c = "f"%char) || bool_decide (c = "d"%char).

(** [ESC_CHARSET_INTRODUCERS]. *)
Definition isCharsetIntroducer (c : ascii) : bool :=
  bool_decide (c = "("%char) || bool_decide (c = ")"%char) || bool_decide (c = "*"%char)
  || bool_decide (c = "+"%char) || bool_decide (c = "#"%char).

(** The longest prefix of a class, and the rest. *)
Fixpoint spanChars (p : ascii → bool) (l : str) : str * str :=
  match l with
  | [] => ([], [])
  | c :: l' => if p c then let '(a, b) := spanChars p l' in (c :: a, b) else ([], l)
  end.

Fixpoint digitsValue (acc : Z) (l : str) : Z :=
  match l with
  | [] => acc
  | c :: l' => digitsValue (10 * acc + (charCodeAt c - 48)) l'
  end.

(** [parseInt(s, 10)] on a text of the parameter class, [None] for [NaN]. *)
Definition parseDecimal (l : str) : option Z :=
  match fst (spanChars isDigit l) with
  | [] => None
  | ds => Some (digitsValue 0 ds)
  end.

(** ** [inferScreenHeight] *)

(** The row a match of the expression addresses at the start of the text. *)
Definition addressedRow (l : str) : option Z :=
  match l with
  | c :: d :: rest =>
      if bool_decide (c = ESC) && bool_decide (d = "["%char) then
        let '(params, after) := spanChars isDigitOrSemi rest in
        match after with
        | f :: _ =>
            if isHfd f then parseDecimal (match params with [] => ["1"%char] | _ => params end)
            else None
        | [] => None
        end
      else None
  | _ => None
  end.

Fixpoint maxAddressedRow (m : Z) (l : str) : Z :=
  match l with
  | [] => m
  | _ :: l' => maxAddressedRow (match addressedRow l with Some r => Z.max m r | None => m end) l'
  end.

(** [None] is [Infinity]. *)
Definition inferScreenHeight (l : str) : option nat :=
  let m := maxAddressedRow 0 l in
  if 2 <=? m then Some (Nat.min (Z.to_nat m) MAX_INFERRED_SCREEN_HEIGHT) else None.

(** ** The grid *)

Record Grid := mkGrid {
  lines : list str;
  line : nat;
  col : nat;
  screenTop : nat
}.

Definition initGrid : Grid := mkGrid [[]] 0 0 0.

Section emulator.
(** The screen height: a finite one scrolls. *)
Context (screenHeight : option nat).

Definition ensureLine (idx : nat) (ls : list str) : list str :=
  ls ++ replicate (S idx - length ls) [].

Definition rowAt (g : Grid) : str := orElse (lines g !! line g) [].

Definition setRow (s : str) (g : Grid) : Grid :=
  mkGrid (<[line g := s]> (lines g)) (line g) (col g) (screenTop g).

(** [line = l; ensureLine(line)]. *)
Definition moveToLine (l : nat) (g : Grid) : Grid :=
  mkGrid (ensureLine l (lines g)) l (col g) (screenTop g).

Definition setCol (c : nat) (g : Grid) : Grid := mkGrid (lines g) (line g) c (screenTop g).

Definition scrollIntoView (g : Grid) : Grid :=
  match screenHeight with
  | Some h =>
      if bool_decide (screenTop g + (h - 1) < line g)%nat
      then mkGrid (lines g) (line g) (col g) (line g - (h - 1))
      else g
  | None => g
  end.

(** [clampRow] and [clampCol] of a number that may be negative. *)
Definition clampRow (row : Z) : nat :=
  let r := Z.to_nat (Z.max 0 row) in
  match screenHeight with Some h => Nat.min r (h - 1) | None => r end.

Definition clampCol (c : Z) : nat := Z.to_nat (Z.max 0 (Z.min c (Z.of_nat MAX_COLUMNS))).

Definition downRowLimit (g : Grid) : nat :=
  match screenHeight with Some h => (screenTop g + h - 1)%nat | None => length (lines g) end.

Definition writeText (text : str) (g : Grid) : Grid :=
  let ls := ensureLine (line g) (lines g) in
  let s := orElse (ls !! line g) [] in
  let s := s ++ replicate (col g - length s) SPACE in
  mkGrid (<[line g := take (col g) s ++ text ++ drop (col g + length text) s]> ls)
    (line g) (col g + length text) (screenTop g).

(** [lines.length = n]. *)
Definition truncateLines (n : nat) (g : Grid) : Grid :=
  mkGrid (take n (lines g)) (line g) (col g) (screenTop g).

Definition downTo (n : Z) (g : Grid) : nat :=
  Z.to_nat (Z.min (Z.of_nat (line g) + n) (Z.of_nat (downRowLimit g))).

Definition upTo (n : Z) (g : Grid) : nat :=
  Z.to_nat (Z.max (Z.of_nat (screenTop g)) (Z.of_nat (line g) - n)).

(** The [switch] on the final character; [n1] and [n2] are the parameters. *)
Definition applyCsi (final : ascii) (n1 n2 : option Z) (g : Grid) : Grid :=
  if bool_decide (final = "H"%char) || bool_decide (final = "f"%char) then
    setCol (clampCol (orElse n2 1 - 1))
      (moveToLine (screenTop g + clampRow (orElse n1 1 - 1)) g)
  else if bool_decide (final = "A"%char) then
    mkGrid (lines g) (upTo (orElse n1 1) g) (col g) (screenTop g)
  else if bool_decide (final = "B"%char) then moveToLine (downTo (orElse n1 1) g) g
  else if bool_decide (final = "C"%char) then
    setCol (clampCol (Z.of_nat (col g) + orElse n1 1)) g
  else if bool_decide (final = "D"%char) then
    setCol (Z.to_nat (Z.max 0 (Z.of_nat (col g) - orElse n1 1))) g
  else if bool_decide (final = "E"%char) then
    setCol 0 (moveToLine (downTo (orElse n1 1) g) g)
  else if bool_decide (final = "F"%char) then
    mkGrid (lines g) (upTo (orElse n1 1) g) 0 (screenTop g)
  else if bool_decide (final = "G"%char) then setCol (clampCol (orElse n1 1 - 1)) g
  else if bool_decide (final = "d"%char) then
    moveToLine (screenTop g + clampRow (orElse n1 1 - 1)) g
  else if bool_decide (final = "K"%char) then
    let g := moveToLine (line g) g in
    let mode := orElse n1 0 in
    if mode =? 0 then setRow (take (col g) (rowAt g)) g
    else if mode =? 1 then
      let clear := Nat.min (col g + 1) (length (rowAt g)) in
      setRow (replicate clear SPACE ++ drop clear (rowAt g)) g
    else if mode =? 2 then setRow [] g
    else g
  else if bool_decide (final = "J"%char) then
    let mode := orElse n1 0 in
    if mode =? 0 then
      let g := moveToLine (line g) g in
      truncateLines (line g + 1) (setRow (take (col g) (rowAt g)) g)
    else if (mode =? 2) || (mode =? 3) then
      match screenHeight with
      | Some _ =>
          mkGrid (take (screenTop g) (lines g)
                  ++ map (λ _, []) (drop (screenTop g) (lines g)))
            (screenTop g) 0 (screenTop g)
      | None => mkGrid [[]] 0 0 0
      end
    else g
  else g.

(** A complete CSI sequence after its introducer: parameters, final character,
    rest of the text. *)
Definition matchCsi (l : str) : option (str * ascii * str) :=
  let '(params, after) := spanChars isParam l in
  match snd (spanChars isIntermediate after) with
  | f :: rest => if isFinal f then Some (params, f, rest) else None
  | [] => None
  end.

(** [/^[?<=>]/]. *)
Definition isPrivate (params : str) : bool :=
  match params with c :: _ => within 60 63 c | [] => false end.

Definition handleCsi (params : str) (final : ascii) (g : Grid) : Grid :=
  if bool_decide (final = "m"%char) then g
  else if isPrivate params then g
  else
    let nums := map parseDecimal (splitOn ";"%char params) in
    applyCsi final (mjoin (nums !! 0%nat)) (mjoin (nums !! 1%nat)) g.

(** The text after an operating-system command. *)
Fixpoint skipOsc (l : str) : str :=
  match l with
  | [] => []
  | c :: l' =>
      if bool_decide (c = BEL) then l'
      else match l' with
           | d :: l'' =>
               if bool_decide (c = ESC) && bool_decide (d = "\"%char) then l'' else skipOsc l'
           | [] => []
           end
  end.

(** Carriage returns that end in a line feed. *)
Definition crBeforeLf (l : str) : bool :=
  match snd (spanChars (λ c, bool_decide (c = CR)) l) with
  | c :: _ => bool_decide (c = LF)
  | [] => false
  end.

Definition skipCrs (l : str) : str := snd (spanChars (λ c, bool_decide (c = CR)) l).

(** The characters that end a printable run. *)
Definition isControl (c : ascii) : bool :=
  bool_decide (c = ESC) || bool_decide (c = CR) || bool_decide (c = LF)
  || bool_decide (c = BS) || bool_decide (c = DEL_CHAR).

(** What follows [ESC]: the new grid and the rest of the text. *)
Definition stepEscape (rest : str) (g : Grid) : Grid * str :=
  match rest with
  | [] => (g, [])
  | d :: after =>
      if bool_decide (d = "]"%char) then (g, skipOsc after)
      else if bool_decide (d = "["%char) then
        match matchCsi after with
        | Some (params, final, rest') => (handleCsi params final g, rest')
        | None => (g, after)
        end
      else if isCharsetIntroducer d then (g, drop 1 after)
      else (g, after)
  end.

(** One iteration of the loop, on a text that starts with [c]. *)
Definition step (c : ascii) (rest : str) (g : Grid) : Grid * str :=
  if bool_decide (c = ESC) then stepEscape rest g
  else if bool_decide (c = CR) then
    if crBeforeLf rest then (setCol 0 g, skipCrs rest) else (setCol 0 (setRow [] g), rest)
  else if bool_decide (c = LF) then
    (scrollIntoView (setCol 0 (moveToLine (line g + 1) g)), rest)
  else if bool_decide (c = BS) || bool_decide (c = DEL_CHAR) then
    (setCol (col g - 1) (setRow (take (length (rowAt g) - 1) (rowAt g)) g), rest)
  else
    let '(run, rest') := spanChars (λ c, negb (isControl c)) (c :: rest) in
    (writeText run g, rest').

(** The loop: an iteration reads at least one character. *)
Fixpoint loop (fuel : nat) (l : str) (g : Grid) : option Grid :=
  match l with
  | [] => Some g
  | c :: rest =>
      match fuel with
      | O => None
      | S n => let '(g', rest') := step c rest g in loop n rest' g'
      end
  end.
End emulator.

Definition visibleGrid (l : str) : option Grid :=
  loop (inferScreenHeight l) (length l) l initGrid.

Definition visibleLinesFromTerminalText (text : string) : option (list string) :=
  g ← visibleGrid (chars text); Some (map unchars (lines g)).

(** ** The emulator's invariant

    [k] bounds the characters read so far and [n] the line feeds among them. *)

Record GInv (h : option nat) (k n : nat) (g : Grid) : Prop := {
  gi_line : (line g < length (lines g))%nat;
  gi_top : (screenTop g ≤ line g)%nat;
  gi_col : (col g ≤ MAX_COLUMNS + k)%nat;
  gi_rows : Forall (λ r, (length r ≤ MAX_COLUMNS + k)%nat) (lines g);
  gi_scroll : match h with
              | Some h => (2 ≤ h ∧ line g ≤ screenTop g + (h - 1) ∧ screenTop g ≤ n ∧
                           length (lines g) ≤ n + h)%nat
              | None => screenTop g = 0%nat
              end
}.

Section invariant.
Context (h : option nat).

Lemma GInv_mono k n k' n' g : (k ≤ k')%nat → (n ≤ n')%nat → GInv h k n g → GInv h k' n' g.
Proof.
  intros Hk Hn [A B C D E]. split; try lia.
  - eapply Forall_impl; [exact D|]. simpl. lia.
  - destruct h; lia.
Qed.

Lemma length_ensureLine l ls : length (ensureLine l ls) = Nat.max (length ls) (S l).
Proof. unfold ensureLine. rewrite length_app, length_replicate. lia. Qed.

Lemma Forall_ensureLine (P : str → Prop) l ls : P [] → Forall P ls → Forall P (ensureLine l ls).
Proof. intros. apply Forall_app. split; [done|by apply Forall_replicate]. Qed.

Lemma GInv_setCol k n c g : GInv h k n g → (c ≤ MAX_COLUMNS + k)%nat → GInv h k n (setCol c g).
Proof. intros [A B C D E] Hc. by split. Qed.

Lemma GInv_setRow k n s g :
  GInv h k n g → (length s ≤ MAX_COLUMNS + k)%nat → GInv h k n (setRow s g).
Proof.
  intros [A B C D E] Hs. split; simpl; rewrite ?length_insert; try done.
  by apply Forall_insert.
Qed.

Lemma GInv_rowAt k n g : GInv h k n g → (length (rowAt g) ≤ MAX_COLUMNS + k)%nat.
Proof.
  intros [A B C D E]. unfold rowAt. destruct (lines g !! line g) as [r|] eqn:Er; simpl; [|lia].
  rewrite Forall_lookup in D. by apply (D (line g)).
Qed.

(** Moving to a row of the screen. *)
Definition onScreen (l : nat) (g : Grid) : Prop :=
  (screenTop g ≤ l)%nat ∧ match h with Some h => (l ≤ screenTop g + (h - 1))%nat | None => True end.

Lemma GInv_line k n l g :
  GInv h k n g → onScreen l g → (l < length (lines g))%nat →
  GInv h k n (mkGrid (lines g) l (col g) (screenTop g)).
Proof.
  intros [A B C D E] [H1 H2] Hl. split; simpl; try done.
  destruct h; [lia|done].
Qed.

Lemma GInv_move k n l g : GInv h k n g → onScreen l g → GInv h k n (moveToLine l g).
Proof.
  intros [A B C D E] [H1 H2]. split; simpl; rewrite ?length_ensureLine; try done; try lia.
  - apply Forall_ensureLine; [simpl; lia|done].
  - destruct h; [lia|done].
Qed.

Lemma onScreen_self k n g : GInv h k n g → onScreen (line g) g.
Proof. intros [A B C D E]. split; [done|]. destruct h; lia. Qed.

Lemma onScreen_clamp k n r g : GInv h k n g → onScreen (screenTop g + clampRow h r) g.
Proof. intros [A B C D E]. unfold onScreen, clampRow. destruct h; lia. Qed.

Lemma onScreen_down k n m g : GInv h k n g → 0 ≤ m → onScreen (downTo h m g) g.
Proof.
  intros [A B C D E] Hm. unfold onScreen, downTo, downRowLimit. destruct h; lia.
Qed.

Lemma onScreen_up k n m g :
  GInv h k n g → 0 ≤ m → onScreen (upTo m g) g ∧ (upTo m g < length (lines g))%nat.
Proof.
  intros [A B C D E] Hm. unfold onScreen, upTo.
  destruct h; [destruct E as (? & ? & ? & ?)|]; split_and!; (done || lia).
Qed.

Lemma clampCol_le c k : (clampCol c ≤ MAX_COLUMNS + k)%nat.
Proof. unfold clampCol. lia. Qed.

Lemma digitsValue_nonneg acc l : 0 ≤ acc → Forall (λ c, isDigit c = true) l → 0 ≤ digitsValue acc l.
Proof.
  intros Ha Hall. revert acc Ha. induction Hall as [|c l Hc _ IH]; intros acc Ha; simpl; [done|].
  apply IH. unfold isDigit in Hc. apply andb_true_iff in Hc as [Hc%N.leb_le _].
  unfold charCodeAt. lia.
Qed.

Lemma spanChars_all p l : Forall (λ c, p c = true) (fst (spanChars p l)).
Proof.
  induction l as [|c l IH]; simpl; [constructor|]. destruct (p c) eqn:E; [|constructor].
  destruct (spanChars p l) as [a b]. by constructor.
Qed.

Lemma spanChars_app p l : fst (spanChars p l) ++ snd (spanChars p l) = l.
Proof.
  induction l as [|c l IH]; simpl; [done|]. destruct (p c); [|done].
  destruct (spanChars p l) as [a b]. simpl in *. by f_equal.
Qed.

Lemma parseDecimal_nonneg l v : parseDecimal l = Some v → 0 ≤ v.
Proof.
  unfold parseDecimal. pose proof (spanChars_all isDigit l) as Hall.
  destruct (fst (spanChars isDigit l)) as [|d ds]; [done|]. intros [= <-].
  by apply (digitsValue_nonneg 0 (d :: ds)).
Qed.

(** The parameters are never negative. *)
Definition natural (m : option Z) : Prop := ∀ v, m = Some v → 0 ≤ v.

Lemma orElse_natural m d : natural m → 0 ≤ d → 0 ≤ orElse m d.
Proof. intros Hm Hd. destruct m as [v|]; simpl; [by apply Hm|done]. Qed.

Lemma GInv_truncate k n g :
  GInv h k n g → GInv h k n (truncateLines (line g + 1) g).
Proof.
  intros [A B C D E]. split; simpl; rewrite ?length_take; try lia.
  - by apply Forall_take.
  - destruct h; lia.
Qed.

Lemma GInv_clear k n g :
  GInv h k n g → is_Some h →
  GInv h k n (mkGrid (take (screenTop g) (lines g) ++ map (λ _, []) (drop (screenTop g) (lines g)))
    (screenTop g) 0 (screenTop g)).
Proof.
  intros [A B C D E] [h' ->].
  assert (Hl : length (take (screenTop g) (lines g) ++ map (λ _, [] : str) (drop (screenTop g) (lines g)))
    = length (lines g)).
  { rewrite length_app, length_map, length_take, length_drop. lia. }
  split; simpl; rewrite ?Hl; try lia.
  apply Forall_app. split; [by apply Forall_take|].
  apply Forall_forall. intros r Hr. apply list_elem_of_fmap in Hr as (? & -> & _). simpl. lia.
Qed.

Lemma GInv_row k n s (g : Grid) : GInv h k n g → (length s ≤ length (rowAt g))%nat → GInv h k n (setRow s g).
Proof. intros Hg Hs. apply GInv_setRow; [done|]. pose proof (GInv_rowAt _ _ _ Hg). lia. Qed.

Lemma applyCsi_inv k n final n1 n2 g :
  GInv h k n g → natural n1 → GInv h k n (applyCsi h final n1 n2 g).
Proof.
  intros Hg H1. pose proof (orElse_natural n1 1 H1 ltac:(lia)) as Hn.
  pose proof (gi_col _ _ _ _ Hg) as Hcol. unfold applyCsi.
  destruct (_ || _).
  { apply GInv_setCol; [|apply clampCol_le]. by eapply GInv_move, onScreen_clamp. }
  destruct (bool_decide (final = "A"%char)).
  { by eapply GInv_line; [done|eapply onScreen_up..]. }
  destruct (bool_decide (final = "B"%char)); [by eapply GInv_move, onScreen_down|].
  destruct (bool_decide (final = "C"%char)); [apply GInv_setCol; [done|apply clampCol_le]|].
  destruct (bool_decide (final = "D"%char)); [apply GInv_setCol; [done|lia]|].
  destruct (bool_decide (final = "E"%char)).
  { apply GInv_setCol; [|lia]. by eapply GInv_move, onScreen_down. }
  destruct (bool_decide (final = "F"%char)).
  { apply (GInv_setCol k n 0 (mkGrid (lines g) (upTo (orElse n1 1) g) (col g) (screenTop g))); [|lia].
    by eapply GInv_line; [done|eapply onScreen_up..]. }
  destruct (bool_decide (final = "G"%char)); [apply GInv_setCol; [done|apply clampCol_le]|].
  destruct (bool_decide (final = "d"%char)); [by eapply GInv_move, onScreen_clamp|].
  assert (Hs : GInv h k n (moveToLine (line g) g)) by by eapply GInv_move, onScreen_self.
  destruct (bool_decide (final = "K"%char)).
  { destruct (_ =? 0); [|destruct (_ =? 1); [|destruct (_ =? 2); [|done]]].
    - apply GInv_row; [done|]. rewrite length_take. lia.
    - apply GInv_row; [done|]. rewrite length_app, length_replicate, length_drop. lia.
    - apply GInv_row; [done|simpl; lia]. }
  destruct (bool_decide (final = "J"%char)); [|done].
  destruct (_ =? 0).
  { set (g' := setRow _ _). apply (GInv_truncate k n g'). unfold g'.
    apply GInv_row; [done|]. rewrite length_take. lia. }
  destruct (_ || _); [|done]. destruct h as [h'|] eqn:Eh.
  - rewrite <- Eh in *. by apply GInv_clear; [|rewrite Eh].
  - destruct Hg as [A B C D E]. split; simpl; try lia. repeat constructor. simpl. lia.
Qed.

Lemma writeText_inv k n run g : GInv h k n g → GInv h (k + length run) n (writeText run g).
Proof.
  intros Hg. pose proof Hg as [A B C D E]. unfold writeText. cbv zeta.
  assert (He : ensureLine (line g) (lines g) = lines g).
  { unfold ensureLine. replace (S (line g) - length (lines g))%nat with 0%nat by lia.
    apply app_nil_r. }
  rewrite He. fold (rowAt g). pose proof (GInv_rowAt _ _ _ Hg) as Hr.
  split; simpl; rewrite ?length_insert; try lia.
  - apply Forall_insert.
    + eapply Forall_impl; [exact D|]. simpl. lia.
    + rewrite !length_app, length_take, length_drop, length_app, length_replicate. lia.
  - destruct h; lia.
Qed.

Definition isLf (c : ascii) : bool := bool_decide (c = LF).

(** One iteration: it reads at least one character and keeps the invariant. *)
Definition stepOk (l : str) (g : Grid) (out : Grid * str) : Prop :=
  ∃ used, l = used ++ snd out ∧ used ≠ [] ∧
    ∀ k n, GInv h k n g → GInv h (k + length used) (n + countb isLf used) (fst out).

(** A step that stays on the same rows. *)
Lemma stepOk_keep l g g' rest used :
  l = used ++ rest → used ≠ [] →
  (∀ k n, GInv h k n g → GInv h k n g') → stepOk l g (g', rest).
Proof.
  intros -> Hne Hg. exists used. split_and!; [done|done|].
  intros k n Hi. simpl. eapply GInv_mono; [| |by apply Hg]; lia.
Qed.

Lemma skipOsc_suffix l : ∃ used, l = used ++ skipOsc l.
Proof.
  induction l as [|c l IH]; simpl; [by exists []|].
  destruct (bool_decide (c = BEL)); [by exists [c]|].
  destruct l as [|d l']; [by exists [c]|].
  destruct (_ && _); [by exists [c; d]|]. destruct IH as [u Hu]. exists (c :: u).
  simpl. by f_equal.
Qed.

Lemma matchCsi_suffix l params f rest :
  matchCsi l = Some (params, f, rest) → ∃ used, l = used ++ rest.
Proof.
  unfold matchCsi. pose proof (spanChars_app isParam l) as H1.
  destruct (spanChars isParam l) as [ps after]. simpl in H1.
  pose proof (spanChars_app isIntermediate after) as H2.
  destruct (snd (spanChars isIntermediate after)) as [|c r] eqn:E; [done|].
  destruct (isFinal c); [|done]. intros [= <- <- <-].
  exists (ps ++ fst (spanChars isIntermediate after) ++ [c]).
  rewrite <- H1 at 1. rewrite <- H2 at 1. by rewrite <- !app_assoc.
Qed.

Lemma handleCsi_inv k n params f g : GInv h k n g → GInv h k n (handleCsi h params f g).
Proof.
  intros Hg. unfold handleCsi. destruct (bool_decide _); [done|].
  destruct (isPrivate params); [done|]. apply applyCsi_inv; [done|].
  intros v. rewrite list_lookup_fmap.
  destruct (splitOn _ params !! 0%nat) as [p|]; simpl; [apply parseDecimal_nonneg|done].
Qed.

Lemma stepEscape_ok c rest g : stepOk (c :: rest) g (stepEscape h rest g).
Proof.
  unfold stepEscape. destruct rest as [|d after].
  { by apply (stepOk_keep _ _ _ _ [c]). }
  destruct (bool_decide (d = "]"%char)).
  { destruct (skipOsc_suffix after) as [u Hu].
    apply (stepOk_keep _ _ _ _ (c :: d :: u)); [simpl; by rewrite <- Hu|done|done]. }
  destruct (bool_decide (d = "["%char)).
  { destruct (matchCsi after) as [[[params f] rest']|] eqn:E;
      [|by apply (stepOk_keep _ _ _ _ [c; d])].
    destruct (matchCsi_suffix _ _ _ _ E) as [u ->].
    apply (stepOk_keep _ _ _ _ (c :: d :: u)); [done|done|]. intros k n. apply handleCsi_inv. }
  destruct (isCharsetIntroducer d); [|by apply (stepOk_keep _ _ _ _ [c; d])].
  apply (stepOk_keep _ _ _ _ (c :: d :: take 1 after)); [|done|done].
  simpl. do 2 f_equal. symmetry. apply take_drop.
Qed.

Lemma lineFeed_inv k n g :
  GInv h k n g → GInv h k (S n) (scrollIntoView h (setCol 0 (moveToLine (line g + 1) g))).
Proof.
  intros [A B C D E].
  assert (Hl : length (ensureLine (line g + 1) (lines g)) = Nat.max (length (lines g)) (S (line g + 1)))
    by apply length_ensureLine.
  assert (Hrows : Forall (λ r, (length r ≤ MAX_COLUMNS + k)%nat) (ensureLine (line g + 1) (lines g)))
    by (apply Forall_ensureLine; [simpl; lia|done]).
  unfold scrollIntoView. destruct h as [h'|]; cbn [screenTop line col lines setCol moveToLine] in *.
  - destruct (bool_decide_reflect (screenTop g + (h' - 1) < line g + 1)%nat);
      split; cbn [screenTop line col lines setCol moveToLine]; rewrite ?Hl; try done; lia.
  - split; cbn [screenTop line col lines setCol moveToLine]; rewrite ?Hl; try done; lia.
Qed.

Lemma step_ok c rest g : stepOk (c :: rest) g (step h c rest g).
Proof.
  unfold step. destruct (bool_decide (c = ESC)) eqn:Eesc; [apply stepEscape_ok|].
  destruct (bool_decide (c = CR)) eqn:Ecr.
  { destruct (crBeforeLf rest).
    - apply (stepOk_keep _ _ _ _ (c :: fst (spanChars (λ c, bool_decide (c = CR)) rest))); [|done|].
      + simpl. f_equal. symmetry. apply spanChars_app.
      + intros k n Hg. apply GInv_setCol; [done|lia].
    - apply (stepOk_keep _ _ _ _ [c]); [done|done|]. intros k n Hg.
      apply GInv_setCol; [|lia]. apply GInv_row; [done|simpl; lia]. }
  destruct (bool_decide (c = LF)) eqn:Elf.
  { exists [c]. split_and!; [done|done|]. intros k n Hg. simpl fst.
    rewrite countb_cons. unfold isLf at 1. rewrite Elf, countb_nil. simpl length.
    eapply (GInv_mono k (S n)); [lia|lia|]. by apply lineFeed_inv. }
  destruct (bool_decide (c = BS) || bool_decide (c = DEL_CHAR)) eqn:Ebs.
  { apply (stepOk_keep _ _ _ _ [c]); [done|done|]. intros k n Hg.
    apply GInv_setCol; [|pose proof (gi_col _ _ _ _ Hg); simpl; lia].
    apply GInv_row; [done|]. rewrite length_take. lia. }
  assert (Hc : negb (isControl c) = true).
  { unfold isControl. apply orb_false_iff in Ebs as [Eb1 Eb2].
    by rewrite Eesc, Ecr, Elf, Eb1, Eb2. }
  pose proof (spanChars_app (λ c, negb (isControl c)) (c :: rest)) as Happ.
  destruct (spanChars (λ c, negb (isControl c)) (c :: rest)) as [run rest'] eqn:Er.
  simpl in Happ. exists run. split_and!; [by symmetry| |].
  - cbn [spanChars] in Er. rewrite Hc in Er.
    destruct (spanChars (λ c, negb (isControl c)) rest) as [a b]. by simplify_eq.
  - intros k n Hg. eapply (GInv_mono (k + length run) n); [lia|lia|]. by apply writeText_inv.
Qed.

(** The loop ends, having read everything. *)
Lemma loop_ok fuel l g :
  (length l ≤ fuel)%nat →
  ∃ g', loop h fuel l g = Some g' ∧
    ∀ k n, GInv h k n g → GInv h (k + length l) (n + countb isLf l) g'.
Proof.
  revert l g. induction fuel as [|fuel IH]; intros l g Hlen; simpl.
  - destruct l; simpl in Hlen; [|lia]. exists g. split; [done|]. intros k n.
    simpl. rewrite countb_nil, !Nat.add_0_r. done.
  - destruct l as [|c rest].
    { exists g. split; [done|]. intros k n. simpl. rewrite countb_nil, !Nat.add_0_r. done. }
    destruct (step_ok c rest g) as (used & Hused & Hne & Hstep).
    destruct (step h c rest g) as [g1 rest1]. simpl in Hused, Hstep.
    assert (Hlr : (length used + length rest1 = S (length rest))%nat)
      by (rewrite <- length_app, <- Hused; done).
    assert (0 < length used)%nat by (destruct used; [done|simpl; lia]).
    destruct (IH rest1 g1) as (g' & Hl & Hg'); [simpl in Hlen; lia|].
    exists g'. split; [done|]. intros k n Hg.
    rewrite Hused, length_app, countb_app, !Nat.add_assoc. by apply Hg', Hstep.
Qed.

End invariant.

Lemma GInv_init h : (∀ h', h = Some h' → (2 ≤ h')%nat) → GInv h 0 0 initGrid.
Proof.
  intros Hh. split; simpl; try lia.
  - repeat constructor.
  - destruct h as [h'|]; [|done]. specialize (Hh h' eq_refl). lia.
Qed.

Lemma inferScreenHeight_range l h :
  inferScreenHeight l = Some h → (2 ≤ h ≤ MAX_INFERRED_SCREEN_HEIGHT)%nat.
Proof.
  unfold inferScreenHeight. destruct (2 <=? _) eqn:E; [|done]. intros [= <-]. zbool.
  assert (2 ≤ MAX_INFERRED_SCREEN_HEIGHT)%nat by (apply Nat.leb_le; vm_compute; reflexivity).
  lia.
Qed.

Lemma visibleGrid_ok l :
  ∃ g, visibleGrid l = Some g ∧
    GInv (inferScreenHeight l) (length l) (countb isLf l) g.
Proof.
  destruct (loop_ok (inferScreenHeight l) (length l) l initGrid) as (g & Hl & Hg); [lia|].
  exists g. split; [done|]. apply (Hg 0%nat 0%nat). apply GInv_init.
  intros h' Hh. by apply inferScreenHeight_range in Hh as [? _].
Qed.

(** ** Text without escape sequences

    [plain] reads the text character by character with the finished rows and the
    current one; [renderRows] says the same of the rows between line feeds. *)

Definition isCr (c : ascii) : bool := bool_decide (c = CR).

Definition putChar (cur : str) (c : ascii) : str :=
  if isCr c then []
  else if bool_decide (c = BS) || bool_decide (c = DEL_CHAR) then take (length cur - 1) cur
  else cur ++ [c].

(** The current row after the characters of a row. *)
Definition renderRow (cur r : str) : str := fold_left putChar r cur.

(** Every row but the last ends in a line feed; the carriage returns before it
    are part of the line ending. *)
Fixpoint renderRows (cur : str) (rows : list str) : list str :=
  match rows with
  | [] => []
  | [r] => [renderRow cur r]
  | r :: rs => renderRow cur (dropWhileEnd isCr r) :: renderRows [] rs
  end.

(** The newline model of the pane. *)
Definition newlineModel (l : str) : list str := renderRows [] (splitOn LF l).

Fixpoint plain (acc : list str) (cur : str) (l : str) : list str :=
  match l with
  | [] => acc ++ [cur]
  | c :: rest =>
      if bool_decide (c = LF) then plain (acc ++ [cur]) [] rest
      else if isCr c && crBeforeLf rest then plain acc cur rest
      else plain acc (putChar cur c) rest
  end.

Definition noEsc (l : str) : Prop := Forall (λ c, c ≠ ESC) l.

Lemma noEsc_addressed m l : noEsc l → maxAddressedRow m l = m.
Proof.
  induction 1 as [|c l Hc _ IH]; [done|]. cbn [maxAddressedRow].
  assert (Ha : addressedRow (c :: l) = None); [|by rewrite Ha].
  unfold addressedRow. destruct l; [done|]. by rewrite bool_decide_false.
Qed.

Lemma noEsc_height l : noEsc l → inferScreenHeight l = None.
Proof. intros Hl. unfold inferScreenHeight. by rewrite noEsc_addressed. Qed.

Lemma plain_run acc cur run rest :
  Forall (λ c, isControl c = false) run → plain acc cur (run ++ rest) = plain acc (cur ++ run) rest.
Proof.
  intros Hr. revert cur. induction Hr as [|c run Hc _ IH]; intros cur; simpl; [by rewrite app_nil_r|].
  unfold isControl in Hc. apply orb_false_iff in Hc as [Hc Hd]. apply orb_false_iff in Hc as [Hc Hb].
  apply orb_false_iff in Hc as [Hc Hlf]. apply orb_false_iff in Hc as [_ Hcr].
  unfold putChar, isCr. rewrite Hlf, Hcr, Hb, Hd. simpl. by rewrite IH, <- app_assoc.
Qed.

Lemma plain_skipCrs acc cur rest :
  crBeforeLf rest = true →
  plain acc cur rest = plain acc cur (skipCrs rest) ∧ ∃ r, skipCrs rest = LF :: r.
Proof.
  unfold crBeforeLf, skipCrs. induction rest as [|c rest IH]; simpl; [done|].
  destruct (bool_decide (c = CR)) eqn:Ec.
  - apply bool_decide_eq_true in Ec as ->.
    destruct (spanChars (λ c, bool_decide (c = CR)) rest) as [a b] eqn:Es. simpl in *.
    intros Hb. destruct (IH Hb) as [Hp Hr]. split; [|done].
    assert (Hc : crBeforeLf rest = true) by (unfold crBeforeLf; by rewrite Es).
    by rewrite Hc.
  - simpl. destruct (bool_decide_reflect (c = LF)) as [->|]; [|done]. intros _.
    split; [done|by eexists].
Qed.

(** The grid of a text without escapes: the cursor is at the end of the last row,
    or about to leave it. *)
Definition plainGrid (acc : list str) (cur : str) (c : nat) : Grid :=
  mkGrid (acc ++ [cur]) (length acc) c 0.

Lemma plainGrid_row acc cur c : rowAt (plainGrid acc cur c) = cur.
Proof. unfold rowAt, plainGrid. simpl. by rewrite lookup_app_r, Nat.sub_diag. Qed.

Lemma plainGrid_setRow acc cur c s : setRow s (plainGrid acc cur c) = plainGrid acc s c.
Proof.
  unfold setRow, plainGrid. simpl. f_equal. rewrite insert_app_r_alt; [|lia].
  by rewrite Nat.sub_diag.
Qed.

Lemma ensureLine_id l ls : (l < length ls)%nat → ensureLine l ls = ls.
Proof.
  intros Hl. unfold ensureLine. replace (S l - length ls)%nat with 0%nat by lia. apply app_nil_r.
Qed.

Lemma plainGrid_write acc cur run :
  writeText run (plainGrid acc cur (length cur)) = plainGrid acc (cur ++ run) (length (cur ++ run)).
Proof.
  unfold writeText. cbv zeta. simpl lines. simpl line. rewrite ensureLine_id; [|rewrite length_app; simpl; lia].
  unfold plainGrid. simpl. rewrite lookup_app_r, Nat.sub_diag by lia. simpl.
  rewrite Nat.sub_diag. simpl. rewrite app_nil_r, firstn_all, length_app, drop_ge, app_nil_r by lia.
  f_equal. rewrite insert_app_r_alt by lia. by rewrite Nat.sub_diag.
Qed.

Lemma plainGrid_lf acc cur c :
  scrollIntoView None (setCol 0 (moveToLine (length acc + 1) (plainGrid acc cur c)))
  = plainGrid (acc ++ [cur]) [] 0.
Proof.
  unfold scrollIntoView, setCol, moveToLine, plainGrid. simpl.
  rewrite length_app. simpl. f_equal. unfold ensureLine. f_equal.
  rewrite length_app. simpl. by replace (S (length acc + 1) - (length acc + 1))%nat with 1%nat by lia.
Qed.

(** The loop on such a grid agrees with [plain]. *)
Lemma loop_plain fuel l acc cur c g :
  noEsc l → (c = length cur ∨ ∃ r, l = LF :: r) →
  loop None fuel l (plainGrid acc cur c) = Some g → lines g = plain acc cur l.
Proof.
  revert l acc cur c. induction fuel as [|fuel IH]; intros l acc cur c Hl Hc Hg.
  { destruct l; [|done]. by injection Hg as <-. }
  destruct l as [|x rest]; [by injection Hg as <-|]. simpl in Hg.
  inversion Hl as [|? ? Hx Hrest]; subst. unfold step in Hg. rewrite (bool_decide_false (x = ESC)) in Hg by done.
  destruct (bool_decide_reflect (x = LF)) as [->|Hlf].
  { change (bool_decide (LF = CR)) with false in Hg. change (bool_decide (LF = LF)) with true in Hg.
    cbn iota in Hg. change (line (plainGrid acc cur c)) with (length acc) in Hg. rewrite plainGrid_lf in Hg.
    simpl. by apply IH in Hg; [|done|left]. }
  assert (Hc' : c = length cur) by (destruct Hc as [?|[? [= ? ?]]]; done). subst c. clear Hc.
  simpl plain. rewrite (bool_decide_false (x = LF)) by done. cbn iota. unfold isCr at 1.
  destruct (bool_decide_reflect (x = CR)) as [->|Hcr]; simpl.
  { destruct (crBeforeLf rest) eqn:Ecr.
    - destruct (plain_skipCrs acc cur rest Ecr) as [-> Hr]. eapply IH; [|by right|exact Hg].
      unfold noEsc in *. rewrite <- (spanChars_app (λ c, bool_decide (c = CR)) rest) in Hrest.
      by apply Forall_app in Hrest as [_ ?].
    - rewrite plainGrid_setRow in Hg. eapply IH; [done|by left|exact Hg]. }
  unfold putChar, isCr. rewrite (bool_decide_false (x = CR)) by done. cbn iota.
  destruct (bool_decide (x = BS) || bool_decide (x = DEL_CHAR)) eqn:Ebs.
  { rewrite ?(bool_decide_false (x = LF)) in Hg by done. rewrite plainGrid_row, plainGrid_setRow in Hg.
    eapply IH; [done| |exact Hg]. left. rewrite length_take. simpl. lia. }
  rewrite ?(bool_decide_false (x = LF)) in Hg by done.
  pose proof (spanChars_app (λ c, negb (isControl c)) (x :: rest)) as Happ.
  pose proof (spanChars_all (λ c, negb (isControl c)) (x :: rest)) as Hall.
  destruct (spanChars (λ c, negb (isControl c)) (x :: rest)) as [run rest'] eqn:Er.
  simpl in Happ, Hall. rewrite plainGrid_write in Hg.
  assert (Hrun : Forall (λ c, isControl c = false) run).
  { eapply Forall_impl; [exact Hall|]. intros ?. apply negb_true_iff. }
  assert (Hsame : plain acc cur (x :: rest) = plain acc (cur ++ [x]) rest).
  { simpl. unfold isCr, putChar, isCr. rewrite Ebs.
    by rewrite (bool_decide_false (x = CR)), (bool_decide_false (x = LF)) by done. }
  rewrite <- Hsame, <- Happ, plain_run by done. eapply IH; [|by left|exact Hg].
  unfold noEsc in *. rewrite <- Happ in Hl. by apply Forall_app in Hl as [_ ?].
Qed.

Lemma splitOn_nonempty c l : splitOn c l ≠ [].
Proof. destruct l; simpl; [done|]. case_decide; [done|]. by destruct (splitOn c l). Qed.

Lemma stripCr_cons c r :
  dropWhileEnd isCr (c :: r) =
    if isCr c && forallb isCr r then [] else c :: dropWhileEnd isCr r.
Proof.
  unfold dropWhileEnd. simpl. assert (H : ∀ l, dropWhile isCr (l ++ [c])
    = if forallb isCr l then (if isCr c then [] else [c]) else dropWhile isCr l ++ [c]).
  { intros l. induction l as [|d l IH]; simpl; [by destruct (isCr c)|].
    destruct (isCr d); simpl; [apply IH|done]. }
  rewrite H. assert (Hr : forallb isCr (rev r) = forallb isCr r).
  { apply eq_true_iff_eq. rewrite !forallb_forall. by setoid_rewrite <- in_rev. }
  rewrite Hr. destruct (forallb isCr r) eqn:Er; [|by rewrite andb_false_r, rev_app_distr].
  rewrite andb_true_r. destruct (isCr c); [done|]. simpl.
  assert (Hd : dropWhile isCr (rev r) = []); [|by rewrite Hd].
  clear H. revert Hr. generalize (rev r). intros l Hl. induction l as [|d l IH]; simpl in *; [done|].
  apply andb_true_iff in Hl as [-> Hl]. by apply IH.
Qed.

Lemma crBeforeLf_cons c l :
  crBeforeLf (c :: l) = if isCr c then crBeforeLf l else bool_decide (c = LF).
Proof.
  unfold crBeforeLf. simpl. fold (isCr c). destruct (isCr c); [|done].
  by destruct (spanChars _ l).
Qed.

(** Carriage returns end in a line feed when the row has nothing else. *)
Lemma crBeforeLf_split l :
  crBeforeLf l = match splitOn LF l with r :: _ :: _ => forallb isCr r | _ => false end.
Proof.
  induction l as [|c l IH]; [done|]. rewrite crBeforeLf_cons. simpl.
  pose proof (splitOn_nonempty LF l) as Hne.
  destruct (decide (c = LF)) as [->|Hc].
  - destruct (splitOn LF l); done.
  - rewrite (bool_decide_false (c = LF)), IH by done.
    destruct (splitOn LF l) as [|r [|r' rs]]; [done| |]; simpl; by destruct (isCr c).
Qed.

Lemma renderRow_cons cur c r : renderRow cur (c :: r) = renderRow (putChar cur c) r.
Proof. done. Qed.

Lemma plain_rows acc cur l : plain acc cur l = acc ++ renderRows cur (splitOn LF l).
Proof.
  revert acc cur. induction l as [|c l IH]; intros acc cur; [done|]. cbn [plain splitOn].
  pose proof (splitOn_nonempty LF l) as Hne.
  destruct (decide (c = LF)) as [->|Hc].
  - rewrite bool_decide_true by done. rewrite IH, <- app_assoc. simpl.
    destruct (splitOn LF l); done.
  - rewrite bool_decide_false by done. rewrite crBeforeLf_split, !IH.
    destruct (splitOn LF l) as [|r [|r' rs]]; [done| |].
    + by rewrite andb_false_r.
    + cbn [renderRows]. rewrite stripCr_cons.
      destruct (isCr c && forallb isCr r) eqn:Er; [|by rewrite renderRow_cons].
      apply andb_true_iff in Er as [_ Er]. do 2 f_equal.
      assert (Hs : dropWhileEnd isCr r = []); [|by rewrite Hs].
      destruct r as [|d r]; [done|]. by rewrite stripCr_cons; simpl in Er; rewrite Er.
Qed.

(** The text [ESC [ n : H]: a row number followed by a sub-parameter. *)
Definition colonMove (ds : str) : str := ESC :: "["%char :: ds ++ [":"%char; "H"%char].

Lemma spanChars_stop p l c r :
  Forall (λ c, p c = true) l → p c = false → spanChars p (l ++ c :: r) = (l, c :: r).
Proof.
  intros Hl Hc. induction Hl as [|d l Hd _ IH]; simpl; [by rewrite Hc|]. by rewrite Hd, IH.
Qed.

Lemma digit_facts c :
  isDigit c = true →
  c ≠ ESC ∧ c ≠ ";"%char ∧ isDigitOrSemi c = true ∧ isParam c = true ∧ within 60 63 c = false.
Proof.
  unfold isDigitOrSemi. intros Hc. rewrite Hc. unfold isDigit in Hc. unfold isParam, within.
  apply andb_true_iff in Hc as [H1%N.leb_le H2%N.leb_le]. split_and!.
  - intros ->. vm_compute in H1. done.
  - intros ->. vm_compute in H2. done.
  - done.
  - apply andb_true_iff. split; apply N.leb_le; lia.
  - apply andb_false_iff. left. apply N.leb_gt. lia.
Qed.

Lemma splitOn_none c l : c ∉ l → splitOn c l = [l].
Proof.
  induction l as [|d l IH]; intros Hn; [done|]. simpl. apply not_elem_of_cons in Hn as [Hd Hn].
  destruct (decide (d = c)); [by subst|]. by rewrite IH.
Qed.

Lemma colonMove_height ds : Forall (λ c, isDigit c = true) ds → inferScreenHeight (colonMove ds) = None.
Proof.
  intros Hds. unfold inferScreenHeight, colonMove.
  assert (Ha : addressedRow (ESC :: "["%char :: ds ++ [":"%char; "H"%char]) = None).
  { unfold addressedRow. rewrite !bool_decide_true by done. simpl andb. cbn iota.
    rewrite spanChars_stop; [done| |done]. eapply Forall_impl; [exact Hds|].
    intros c Hc. by apply digit_facts in Hc as (_ & _ & ? & _). }
  change (maxAddressedRow 0 (ESC :: "["%char :: ds ++ [":"%char; "H"%char])) with
    (maxAddressedRow (match addressedRow (ESC :: "["%char :: ds ++ [":"%char; "H"%char]) with
                      | Some r => Z.max 0 r | None => 0 end) ("["%char :: ds ++ [":"%char; "H"%char])).
  rewrite Ha, noEsc_addressed; [done|]. constructor; [done|].
  apply Forall_app. split; [|by repeat constructor].
  eapply Forall_impl; [exact Hds|]. intros c Hc. by apply digit_facts in Hc as [? _].
Qed.

Lemma colonMove_csi ds :
  Forall (λ c, isDigit c = true) ds →
  matchCsi (ds ++ [":"%char; "H"%char]) = Some (ds ++ [":"%char], "H"%char, []).
Proof.
  intros Hds. unfold matchCsi.
  replace (ds ++ [":"%char; "H"%char]) with ((ds ++ [":"%char]) ++ ["H"%char]) by (by rewrite <- app_assoc).
  rewrite spanChars_stop; [done| |done]. apply Forall_app. split; [|by repeat constructor].
  eapply Forall_impl; [exact Hds|]. intros c Hc. by apply digit_facts in Hc as (_ & _ & _ & ? & _).
Qed.

Lemma colonMove_value ds :
  ds ≠ [] → Forall (λ c, isDigit c = true) ds →
  parseDecimal (ds ++ [":"%char]) = Some (digitsValue 0 ds).
Proof.
  intros Hne Hds. unfold parseDecimal. rewrite spanChars_stop by done. simpl. by destruct ds.
Qed.

(** ** The theorems *)

(** C29: the reconstruction ends on every text, with at least one row; the cursor is
    on a row of the grid, and no row is longer than 1000 columns plus the length of
    the text.  When the text addresses a row past the first, so that the screen
    scrolls, the number of rows is bounded by the line feeds plus 1000. *)
Theorem screen_bounded l :
  ∃ g, visibleGrid l = Some g ∧ (line g < length (lines g))%nat ∧
    Forall (λ r, (length r ≤ 1000 + length l)%nat) (lines g) ∧
    (is_Some (inferScreenHeight l) → (length (lines g) ≤ countb isLf l + 1000)%nat).
Proof.
  destruct (visibleGrid_ok l) as (g & Hg & [A B C D E]). exists g. split_and!; [done|done|exact D|].
  intros [h Hh]. rewrite Hh in E. apply inferScreenHeight_range in Hh as [_ Hh].
  change MAX_INFERRED_SCREEN_HEIGHT with 1000%nat in Hh. lia.
Qed.

(** A text without escape sequences reconstructs as the newline model: a row per
    line feed, in which a carriage return that does not end the line clears the
    row, and a backspace or delete removes its last character. *)
Theorem plain_is_newline_model l :
  noEsc l → ∃ g, visibleGrid l = Some g ∧ lines g = newlineModel l.
Proof.
  intros Hl. destruct (visibleGrid_ok l) as (g & Hg & _). exists g. split; [done|].
  unfold visibleGrid in Hg. rewrite (noEsc_height _ Hl) in Hg.
  rewrite (loop_plain _ _ [] [] 0 g Hl (or_introl eq_refl) Hg), plain_rows. done.
Qed.

Lemma plain_is_newline_model_witness :
  noEsc (chars "ab" ++ [CR; CR; LF] ++ chars "cd" ++ [CR] ++ chars "ef" ++ [BS]) ∧
  newlineModel (chars "ab" ++ [CR; CR; LF] ++ chars "cd" ++ [CR] ++ chars "ef" ++ [BS])
    = [chars "ab"; chars "e"] ∧
  ∃ g, visibleGrid (chars "ab" ++ [CR; CR; LF] ++ chars "cd" ++ [CR] ++ chars "ef" ++ [BS]) = Some g
    ∧ lines g = newlineModel (chars "ab" ++ [CR; CR; LF] ++ chars "cd" ++ [CR] ++ chars "ef" ++ [BS]).
Proof.
  assert (H : noEsc (chars "ab" ++ [CR; CR; LF] ++ chars "cd" ++ [CR] ++ chars "ef" ++ [BS]))
    by (repeat constructor; discriminate).
  split; [exact H|]. split; [vm_compute; reflexivity|]. apply (plain_is_newline_model _ H).
Defined.

(** The guard against bogus cursor moves is evaded by a sub-parameter: [ESC [ n : H]
    is a cursor move for the loop, but the expression that infers the screen
    height does not see it, so the height is infinite and nothing clamps the row.
    A text of a few bytes makes a grid of [n] rows, up to the largest array. *)
Theorem colon_move_unbounded ds :
  ds ≠ [] → Forall (λ c, isDigit c = true) ds → 1 ≤ digitsValue 0 ds ≤ 2 ^ 32 - 1 →
  ∃ g, visibleGrid (colonMove ds) = Some g ∧ Z.of_nat (length (lines g)) = digitsValue 0 ds.
Proof.
  intros Hne Hds [Hv _]. unfold visibleGrid. rewrite colonMove_height by done.
  assert (Hs : step None ESC ("["%char :: ds ++ [":"%char; "H"%char]) initGrid
    = (setCol 0 (moveToLine (Z.to_nat (digitsValue 0 ds - 1)) initGrid), [])).
  { unfold step. rewrite bool_decide_true by done. unfold stepEscape. cbn iota.
    rewrite colonMove_csi by done. change (bool_decide ("["%char = "]"%char)) with false.
    change (bool_decide ("["%char = "["%char)) with true. cbn iota. f_equal.
    unfold handleCsi. change (bool_decide ("H"%char = "m"%char)) with false. cbn iota.
    assert (Hp : isPrivate (ds ++ [":"%char]) = false).
    { destruct Hds as [|d ds Hd _]; [done|]. by apply digit_facts in Hd as (_ & _ & _ & _ & ?). }
    rewrite Hp, splitOn_none.
    - simpl. rewrite colonMove_value by done. unfold applyCsi. simpl.
      unfold clampRow, clampCol. rewrite (Z.max_r 0 (digitsValue 0 ds - 1)) by lia.
      by replace (Z.to_nat (Z.max 0 (Z.min (1 - 1) (Z.of_nat MAX_COLUMNS)))) with 0%nat by lia.
    - rewrite elem_of_app, list_elem_of_singleton. intros [Hin|[=]]. rewrite Forall_forall in Hds.
      by apply Hds, digit_facts in Hin as (_ & ? & _). }
  unfold colonMove. simpl length. cbn [loop]. rewrite Hs.
  cbn iota beta. eexists. split; [by destruct (length (ds ++ [":"%char; "H"%char]))|].
  cbn [lines setCol moveToLine]. rewrite length_ensureLine. simpl. lia.
Qed.

Lemma colon_move_unbounded_witness :
  (chars "4000000000" ≠ [] ∧ Forall (λ c, isDigit c = true) (chars "4000000000") ∧
   digitsValue 0 (chars "4000000000") = 4000000000 ∧ length (colonMove (chars "4000000000")) = 14%nat) ∧
  ∃ g, visibleGrid (colonMove (chars "4000000000")) = Some g ∧
    Z.of_nat (length (lines g)) = digitsValue 0 (chars "4000000000").
Proof.
  assert (H : Forall (λ c, isDigit c = true) (chars "4000000000")) by (repeat constructor).
  split; [split_and!; [discriminate|exact H|reflexivity|reflexivity]|].
  apply (colon_move_unbounded (chars "4000000000")); [discriminate|exact H|].
  change (digitsValue 0 (chars "4000000000")) with 4000000000. lia.
Defined.

End Screen.
