(* ===== verification/ToolLatency.v ===== *)
(** * Per-tool latency histograms

    [src/core/tool-latency-metrics.ts]: the class [ToolLatencyMetrics] keeps, per
    tool name, the count of the durations and a ring of the most recent ones, and
    reports percentiles of the ring.  Durations are whole milliseconds, as
    [Date.now()] gives them.  [String.prototype.localeCompare] is a parameter.

    The double [(rank / 100) * n] is below or equal to the exact product and less
    than [1/20] away from it, so its [Math.ceil] is the exact one used here. *)

From S2P Require Import Prelude JsMap JsArray JsString.
Local Open Scope Z_scope.

Module Latency.

Definition DEFAULT_MAX_TOOLS : nat := 64.
Definition DEFAULT_MAX_SAMPLES_PER_TOOL : nat := 256.

Record ToolLatencySample := mkSample {
  toolName : string;
  durationMs : Z
}.

(** [normalizeToolName]: at most 128 code units of the trimmed name. *)
Definition normalizeToolName (name : string) : string :=
  let normalized := trim name in
  if (128 <? Z.of_nat (String.length normalized)) then sliceTo 128 normalized else normalized.

(** [positiveInteger]. *)
Definition positiveInteger (value : option Z) (fallback : nat) : nat :=
  match value with
  | Some v => if 0 <? v then Z.to_nat v else fallback
  | None => fallback
  end.

(** ** [ToolDurationBucket] *)

Record ToolDurationBucket := mkBucket {
  count : nat;
  nextIndex : nat;
  samples : list Z
}.

Definition newBucket : ToolDurationBucket := mkBucket 0 0 [].

Definition bucketRecord (maxSamples : nat) (d : Z) (b : ToolDurationBucket) : ToolDurationBucket :=
  if (length (samples b) <? maxSamples)%nat
  then mkBucket (S (count b)) (nextIndex b) (samples b ++ [d])
  else mkBucket (S (count b)) ((nextIndex b + 1) mod maxSamples)%nat
         (<[nextIndex b := d]> (samples b)).

(** [Math.round(value * 100) / 100] on a whole number. *)
Definition roundMs (value : Z) : Z := value * 100 / 100.

Definition percentile (sortedSamples : list Z) (percentileRank : Z) : Z :=
  match sortedSamples with
  | [] => 0
  | _ =>
      let n := Z.of_nat (length sortedSamples) in
      let index := Z.min (n - 1) (Z.max 0 ((percentileRank * n + 99) / 100 - 1)) in
      roundMs (orElse (sortedSamples !! Z.to_nat index) 0)
  end.

Definition byNumber (a b : Z) : Z := a - b.

Record ToolLatencyMetric := mkMetric {
  metric_toolName : string;
  metric_count : nat;
  sampleCount : nat;
  p50Ms : Z;
  p95Ms : Z;
  p99Ms : Z
}.

Definition bucketSnapshot (name : string) (b : ToolDurationBucket) : ToolLatencyMetric :=
  let sorted := sort_by byNumber (samples b) in
  mkMetric name (count b) (length sorted)
    (percentile sorted 50) (percentile sorted 95) (percentile sorted 99).

(** ** [ToolLatencyMetrics] *)

Record Metrics := mkMetrics {
  maxTools : nat;
  maxSamplesPerTool : nat;
  tools : jmap string ToolDurationBucket;
  droppedToolCount : nat
}.

Definition newMetrics (tools_ samples_ : option Z) : Metrics :=
  mkMetrics (positiveInteger tools_ DEFAULT_MAX_TOOLS)
    (positiveInteger samples_ DEFAULT_MAX_SAMPLES_PER_TOOL) [] 0.

Definition record (s : ToolLatencySample) (m : Metrics) : Metrics :=
  if durationMs s <? 0 then m
  else
    let name := normalizeToolName (toolName s) in
    if String.eqb name "" then m
    else
      match mget name (tools m) with
      | Some _ =>
          mkMetrics (maxTools m) (maxSamplesPerTool m)
            (mupd (bucketRecord (maxSamplesPerTool m) (durationMs s)) name (tools m))
            (droppedToolCount m)
      | None =>
          if (maxTools m <=? msize (tools m))%nat
          then mkMetrics (maxTools m) (maxSamplesPerTool m) (tools m) (S (droppedToolCount m))
          else mkMetrics (maxTools m) (maxSamplesPerTool m)
                 (mset name (bucketRecord (maxSamplesPerTool m) (durationMs s) newBucket) (tools m))
                 (droppedToolCount m)
      end.

Section snapshot.
Context (localeCompare : string → string → Z).

Definition byCount (a b : ToolLatencyMetric) : Z :=
  let d := Z.of_nat (metric_count b) - Z.of_nat (metric_count a) in
  if d =? 0 then localeCompare (metric_toolName a) (metric_toolName b) else d.

Record ToolLatencyMetricsSnapshot := mkSnapshot {
  snap_maxTools : nat;
  snap_maxSamplesPerTool : nat;
  snap_toolCount : nat;
  snap_droppedToolCount : nat;
  snap_tools : list ToolLatencyMetric
}.

Definition snapshot (m : Metrics) : ToolLatencyMetricsSnapshot :=
  mkSnapshot (maxTools m) (maxSamplesPerTool m) (msize (tools m)) (droppedToolCount m)
    (sort_by byCount (map (λ '(name, b), bucketSnapshot name b) (tools m))).
End snapshot.

(** ** What the histogram should hold *)

Definition run (h : list ToolLatencySample) (m : Metrics) : Metrics :=
  fold_left (λ m s, record s m) h m.

Definition nameOf (s : ToolLatencySample) : string := normalizeToolName (toolName s).

(** The samples that are not discarded as malformed. *)
Definition accepted (s : ToolLatencySample) : bool :=
  (0 <=? durationMs s) && negb (String.eqb (nameOf s) "").

Definition isFor (name : string) (s : ToolLatencySample) : bool :=
  accepted s && String.eqb (nameOf s) name.

(** The durations of a tool, in order. *)
Definition durationsOf (name : string) (h : list ToolLatencySample) : list Z :=
  map durationMs (List.filter (isFor name) h).

(** The last [n] elements of a list. *)
Definition lastN {A} (n : nat) (l : list A) : list A := drop (length l - n) l.

(** The distinct names in order of first appearance. *)
Definition addName (acc : list string) (s : ToolLatencySample) : list string :=
  if accepted s then (if decide (nameOf s ∈ acc) then acc else acc ++ [nameOf s]) else acc.

Definition namesOf (h : list ToolLatencySample) : list string := fold_left addName h [].

(** ** The ring *)

(** The ring read from its oldest sample. *)
Definition chronological (b : ToolDurationBucket) : list Z :=
  drop (nextIndex b) (samples b) ++ take (nextIndex b) (samples b).

Record RingInv (max : nat) (ds : list Z) (b : ToolDurationBucket) : Prop := {
  ri_count : count b = length ds;
  ri_len : length (samples b) = Nat.min (length ds) max;
  ri_next : (nextIndex b < max)%nat ∧ ((length ds < max)%nat → nextIndex b = 0%nat);
  ri_chron : chronological b = lastN max ds
}.

Lemma ring_new max : (0 < max)%nat → RingInv max [] newBucket.
Proof. intros. by split. Qed.

Lemma lastN_snoc {A} n (l : list A) x :
  (0 < n)%nat →
  lastN n (l ++ [x]) = (if (length l <? n)%nat then l else drop 1 (lastN n l)) ++ [x].
Proof.
  intros Hn. unfold lastN. rewrite length_app. simpl.
  destruct (Nat.ltb_spec (length l) n).
  - replace (length l + 1 - n)%nat with 0%nat by lia. done.
  - rewrite drop_app_le by lia. rewrite drop_drop. do 2 f_equal. lia.
Qed.

Lemma ring_record max d ds b :
  RingInv max ds b → RingInv max (ds ++ [d]) (bucketRecord max d b).
Proof.
  intros [Hc Hl [Hn Hz] Hch]. assert (Hpos : (0 < max)%nat) by lia.
  unfold bucketRecord. destruct (Nat.ltb_spec (length (samples b)) max) as [Hlt|Hge].
  - assert (Hds : (length ds < max)%nat) by lia. split; simpl.
    + rewrite length_app. simpl. lia.
    + rewrite !length_app. simpl. lia.
    + split; [done|]. intros _. by apply Hz.
    + rewrite lastN_snoc by done. rewrite (proj2 (Nat.ltb_lt _ _) Hds).
      revert Hch. unfold chronological. simpl. rewrite (Hz Hds). simpl.
      rewrite !app_nil_r. unfold lastN. replace (length ds - max)%nat with 0%nat by lia.
      rewrite !drop_0. by intros ->.
  - assert (Hds : (max ≤ length ds)%nat) by lia.
    assert (Hs : length (samples b) = max) by lia. split; simpl.
    + rewrite length_app. simpl. lia.
    + rewrite length_insert, length_app. simpl. lia.
    + split; [apply Nat.mod_upper_bound; lia|]. rewrite length_app. simpl. lia.
    + rewrite lastN_snoc by done. destruct (Nat.ltb_spec (length ds) max); [lia|].
      rewrite <- Hch. unfold chronological. simpl.
      assert (Hdrop : drop (nextIndex b) (samples b)
        = orElse (samples b !! nextIndex b) 0 :: drop (nextIndex b + 1) (samples b)).
      { destruct (lookup_lt_is_Some_2 (samples b) (nextIndex b)) as [x Hx]; [lia|].
        rewrite Hx. simpl. rewrite Nat.add_1_r. by apply drop_S. }
      rewrite Hdrop. simpl. rewrite ?drop_0.
      destruct (decide (nextIndex b + 1 = max)%nat) as [He|He].
      * rewrite He, Nat.Div0.mod_same. simpl. rewrite app_nil_r.
        rewrite (drop_ge (samples b)) by lia. simpl.
        rewrite (insert_take_drop (samples b)) by lia.
        by rewrite (drop_ge (samples b)) by lia.
      * rewrite Nat.mod_small by lia. rewrite drop_insert_lt by lia.
        rewrite <- app_assoc. f_equal. rewrite (insert_take_drop (samples b)) by lia.
        rewrite take_app, length_take, Nat.min_l by lia.
        rewrite take_ge by (rewrite length_take; lia).
        by replace (nextIndex b + 1 - nextIndex b)%nat with 1%nat by lia.
Qed.

Lemma ring_perm max ds b : RingInv max ds b → samples b ≡ₚ lastN max ds.
Proof.
  intros [_ _ _ <-]. unfold chronological.
  rewrite Permutation_app_comm. by rewrite take_drop.
Qed.

(** ** The percentile *)

#[local] Instance byNumber_order : CmpOrder byNumber.
Proof. split; unfold byNumber; intros; lia. Qed.

(** In a sorted list the elements up to an index are at most the element there,
    those from it on at least. *)
Lemma sorted_split (l : list Z) i v :
  StronglySorted (cmp_le byNumber) l → l !! i = Some v →
  Forall (λ x, x <= v) (take (S i) l) ∧ Forall (λ x, v <= x) (drop i l).
Proof.
  intros Hs. revert i. induction Hs as [|x l Hs IH Hall]; intros i Hi; [done|].
  unfold cmp_le, byNumber in Hall. rewrite Forall_forall in Hall. destruct i as [|i]; simpl in Hi.
  - injection Hi as ->. split; [repeat constructor; lia|]. simpl. constructor; [lia|].
    apply Forall_forall. intros y Hy. specialize (Hall y Hy). lia.
  - destruct (IH i Hi) as [H1 H2]. split; [|done].
    change (take (S (S i)) (x :: l)) with (x :: take (S i) l). constructor; [|done].
    apply list_elem_of_lookup_2 in Hi. specialize (Hall v Hi). lia.
Qed.

Definition ceilRank (p n : Z) : Z := (p * n + 99) / 100.

Lemma ceilRank_spec p n : 100 * (ceilRank p n - 1) < p * n ≤ 100 * ceilRank p n.
Proof.
  unfold ceilRank. pose proof (Z.div_mod (p * n + 99) 100 ltac:(lia)).
  pose proof (Z.mod_pos_bound (p * n + 99) 100 ltac:(lia)). lia.
Qed.

Lemma percentile_index p (l : list Z) :
  1 ≤ p ≤ 100 → l ≠ [] →
  ∃ v, l !! Z.to_nat (ceilRank p (Z.of_nat (length l)) - 1) = Some v ∧ percentile l p = v ∧
    1 ≤ ceilRank p (Z.of_nat (length l)) ≤ Z.of_nat (length l).
Proof.
  intros Hp Hl. assert (0 < length l)%nat by (destruct l; [done|simpl; lia]).
  set (n := Z.of_nat (length l)). pose proof (ceilRank_spec p n) as Hc.
  assert (Hr : 1 ≤ ceilRank p n ≤ n) by nia.
  destruct (lookup_lt_is_Some_2 l (Z.to_nat (ceilRank p n - 1))) as [v Hv]; [lia|].
  exists v. split_and!; [done| |lia|lia].
  unfold percentile. destruct l as [|x l']; [done|]. fold n. fold (ceilRank p n).
  rewrite Z.min_r, Z.max_r by lia. rewrite Hv. unfold roundMs. simpl.
  by apply Z.div_mul.
Qed.

(** ** The map of buckets *)

Lemma durationsOf_snoc name h s :
  durationsOf name (h ++ [s]) =
    durationsOf name h ++ (if isFor name s then [durationMs s] else []).
Proof.
  unfold durationsOf. rewrite List.filter_app, map_app. simpl. by destruct (isFor name s).
Qed.

Lemma namesOf_snoc h s : namesOf (h ++ [s]) = addName (namesOf h) s.
Proof. unfold namesOf. by rewrite fold_left_app. Qed.

(** A sample nothing was kept of, because its tool was not admitted. *)
Definition isDropped (m : Metrics) (s : ToolLatencySample) : bool :=
  accepted s && negb (mhas (nameOf s) (tools m)).

Record MetricsInv (mt ms : nat) (h : list ToolLatencySample) (m : Metrics) : Prop := {
  mi_caps : maxTools m = mt ∧ maxSamplesPerTool m = ms;
  mi_keys : mkeys (tools m) = take mt (namesOf h);
  mi_nodup : NoDup (namesOf h);
  mi_names : ∀ s, s ∈ h → accepted s = true → nameOf s ∈ namesOf h;
  mi_dropped : droppedToolCount m = countb (isDropped m) h;
  mi_ring : ∀ name b, mget name (tools m) = Some b → RingInv ms (durationsOf name h) b
}.

Lemma namesOf_accepted h s :
  nameOf s ∉ namesOf h → (∀ s, s ∈ h → accepted s = true → nameOf s ∈ namesOf h) →
  accepted s = true → durationsOf (nameOf s) h = [].
Proof.
  intros Hn Hh _. unfold durationsOf. assert (Hf : List.filter (isFor (nameOf s)) h = []); [|by rewrite Hf].
  destruct (List.filter (isFor (nameOf s)) h) as [|x l] eqn:E; [done|]. exfalso.
  assert (Hx : In x (List.filter (isFor (nameOf s)) h)) by (rewrite E; by left).
  apply filter_In in Hx as [Hx Hf]. unfold isFor in Hf. zbool.
  apply Hn. replace (nameOf s) with (nameOf x) by done. apply Hh; [|done].
  by apply list_elem_of_In.
Qed.

Lemma isDropped_ext m m' :
  (∀ n, mhas n (tools m) = mhas n (tools m')) → ∀ l, countb (isDropped m) l = countb (isDropped m') l.
Proof.
  intros He l. induction l as [|s l IH]; [done|]. rewrite !countb_cons, IH. unfold isDropped. by rewrite He.
Qed.

Lemma mhas_elem n (m : jmap string ToolDurationBucket) : mhas n m = bool_decide (n ∈ mkeys m).
Proof.
  unfold mhas. destruct (mget n m) eqn:E; symmetry; [apply bool_decide_eq_true|apply bool_decide_eq_false].
  - apply elem_of_mkeys. by rewrite E.
  - by apply not_elem_of_mkeys.
Qed.

Lemma accepted_cases s :
  accepted s = true ↔ (durationMs s <? 0) = false ∧ String.eqb (nameOf s) "" = false.
Proof. unfold accepted. rewrite andb_true_iff, negb_true_iff, Z.leb_le, Z.ltb_ge. done. Qed.

(** What [record] does to an accepted sample. *)
Lemma record_accepted m s :
  accepted s = true →
  record s m =
    let name := nameOf s in
    let b' := bucketRecord (maxSamplesPerTool m) (durationMs s) in
    if mhas name (tools m)
    then mkMetrics (maxTools m) (maxSamplesPerTool m) (mupd b' name (tools m)) (droppedToolCount m)
    else if (maxTools m <=? msize (tools m))%nat
    then mkMetrics (maxTools m) (maxSamplesPerTool m) (tools m) (S (droppedToolCount m))
    else mkMetrics (maxTools m) (maxSamplesPerTool m) (tools m ++ [(name, b' newBucket)])
           (droppedToolCount m).
Proof.
  intros [Hd Hn]%accepted_cases. unfold record, mhas. fold (nameOf s). rewrite Hd, Hn. simpl.
  destruct (mget (nameOf s) (tools m)) eqn:E; simpl; [done|].
  by rewrite (mset_fresh _ _ _ E).
Qed.

Lemma record_rejected m s : accepted s = false → record s m = m.
Proof.
  unfold accepted, record. fold (nameOf s). intros [Ha|Ha]%andb_false_iff.
  - apply Z.leb_gt in Ha. by rewrite (proj2 (Z.ltb_lt _ _) Ha).
  - apply negb_false_iff in Ha. rewrite Ha. by destruct (_ <? 0).
Qed.

Lemma addName_old acc s : accepted s = false ∨ nameOf s ∈ acc → addName acc s = acc.
Proof. unfold addName. intros [->|Hn]; [done|]. destruct (accepted s); [|done]. by rewrite decide_True. Qed.

Lemma addName_new acc s : accepted s = true → nameOf s ∉ acc → addName acc s = acc ++ [nameOf s].
Proof. unfold addName. intros -> Hn. by rewrite decide_False. Qed.

Lemma addName_prefix acc s : ∃ l, addName acc s = acc ++ l.
Proof.
  unfold addName. destruct (accepted s); [|exists []; by rewrite app_nil_r].
  case_decide; [exists []; by rewrite app_nil_r|by eexists].
Qed.

Lemma addName_NoDup acc s : NoDup acc → NoDup (addName acc s).
Proof.
  intros Hn. unfold addName. destruct (accepted s); [|done]. case_decide as Hd; [done|].
  apply NoDup_app. split_and!; [done| |apply NoDup_singleton].
  intros x Hx ->%list_elem_of_singleton. done.
Qed.

Lemma names_snoc h s s' :
  (∀ s, s ∈ h → accepted s = true → nameOf s ∈ namesOf h) →
  s' ∈ h ++ [s] → accepted s' = true → nameOf s' ∈ addName (namesOf h) s.
Proof.
  intros Hh Hs' Ha. destruct (addName_prefix (namesOf h) s) as [l Hl].
  apply elem_of_app in Hs' as [Hs'| ->%list_elem_of_singleton].
  - rewrite Hl. apply elem_of_app. left. by apply Hh.
  - destruct (decide (nameOf s ∈ namesOf h)) as [Hin|Hn].
    + by rewrite addName_old by (by right).
    + rewrite addName_new by done. apply elem_of_app. right. by left.
Qed.

Lemma isFor_ne name s : (accepted s = false ∨ nameOf s ≠ name) → isFor name s = false.
Proof.
  unfold isFor. intros [->|Hn]; [done|]. apply andb_false_iff. right. by apply String.eqb_neq.
Qed.

Lemma isFor_eq s : accepted s = true → isFor (nameOf s) s = true.
Proof. intros Ha. unfold isFor. rewrite Ha. apply String.eqb_refl. Qed.

Section step.
Context (mt ms : nat) (h : list ToolLatencySample) (m : Metrics) (s : ToolLatencySample).
Context (Hm : MetricsInv mt ms h m) (Hms : (0 < ms)%nat).

(** The parts of the invariant that do not depend on the outcome. *)
Lemma metrics_step_inv m' :
  maxTools m' = mt ∧ maxSamplesPerTool m' = ms →
  mkeys (tools m') = take mt (addName (namesOf h) s) →
  droppedToolCount m' = countb (isDropped m') (h ++ [s]) →
  (∀ name b, mget name (tools m') = Some b → RingInv ms (durationsOf name (h ++ [s])) b) →
  MetricsInv mt ms (h ++ [s]) m'.
Proof.
  intros H1 H2 H3 H4. split; rewrite ?namesOf_snoc; try done.
  - apply addName_NoDup, (mi_nodup _ _ _ _ Hm).
  - intros s'. apply names_snoc, (mi_names _ _ _ _ Hm).
Qed.

Lemma ring_other name b :
  (accepted s = false ∨ nameOf s ≠ name) → mget name (tools m) = Some b →
  RingInv ms (durationsOf name (h ++ [s])) b.
Proof.
  intros Hn Hb. rewrite durationsOf_snoc, isFor_ne, app_nil_r by done.
  by apply (mi_ring _ _ _ _ Hm).
Qed.

Lemma size_names : msize (tools m) = Nat.min mt (length (namesOf h)).
Proof.
  rewrite <- length_take, <- (mi_keys _ _ _ _ Hm). unfold mkeys, msize. by rewrite length_fmap.
Qed.

Lemma record_inv_rejected : accepted s = false → MetricsInv mt ms (h ++ [s]) (record s m).
Proof.
  intros Ha. rewrite record_rejected by done. apply metrics_step_inv.
  - apply Hm.
  - rewrite addName_old by (by left). apply Hm.
  - rewrite countb_app, countb_cons, countb_nil. unfold isDropped at 2. rewrite Ha. simpl.
    rewrite !Nat.add_0_r. apply Hm.
  - intros name b. by apply ring_other; left.
Qed.

Lemma record_inv_known :
  accepted s = true → mhas (nameOf s) (tools m) = true → MetricsInv mt ms (h ++ [s]) (record s m).
Proof.
  intros Ha Hin. rewrite record_accepted by done. cbv zeta. rewrite Hin.
  pose proof (mi_caps _ _ _ _ Hm) as [Hc1 Hc2].
  assert (Hk : ∀ n f, mhas n (mupd f (nameOf s) (tools m)) = mhas n (tools m))
    by (intros; rewrite !mhas_elem, mkeys_mupd; done).
  apply metrics_step_inv; simpl.
  - done.
  - rewrite mkeys_mupd, addName_old; [apply Hm|]. right. rewrite mhas_elem in Hin. zbool.
    rewrite (mi_keys _ _ _ _ Hm) in Hin. rewrite <- (take_drop mt (namesOf h)).
    apply elem_of_app. by left.
  - rewrite countb_app, countb_cons, countb_nil. unfold isDropped at 2. simpl.
    rewrite Hk, Hin, andb_false_r. rewrite (mi_dropped _ _ _ _ Hm), !Nat.add_0_r.
    apply isDropped_ext. intros n. simpl. by rewrite Hk.
  - intros name b Hb. rewrite mget_mupd in Hb. destruct (decide (name = nameOf s)) as [->|Hne].
    + destruct (mget (nameOf s) (tools m)) as [b0|] eqn:E; [|done]. injection Hb as <-.
      rewrite durationsOf_snoc, isFor_eq, Hc2 by done. by apply ring_record, (mi_ring _ _ _ _ Hm).
    + by apply ring_other; [right|].
Qed.

Lemma record_inv_full :
  accepted s = true → mhas (nameOf s) (tools m) = false → (mt ≤ msize (tools m))%nat →
  MetricsInv mt ms (h ++ [s]) (record s m).
Proof.
  intros Ha Hout Hfull. rewrite record_accepted by done. cbv zeta. rewrite Hout.
  pose proof (mi_caps _ _ _ _ Hm) as [Hc1 Hc2]. rewrite Hc1, (proj2 (Nat.leb_le _ _) Hfull).
  pose proof size_names as Hsz. apply metrics_step_inv; simpl.
  - done.
  - destruct (addName_prefix (namesOf h) s) as [l ->]. rewrite take_app_le by lia. apply Hm.
  - rewrite countb_app, countb_cons, countb_nil. unfold isDropped at 2. simpl. rewrite Ha, Hout. simpl.
    rewrite (mi_dropped _ _ _ _ Hm), Nat.add_1_r. by f_equal.
  - intros name b Hb. apply ring_other; [|done]. right. intros <-.
    unfold mhas in Hout. by rewrite Hb in Hout.
Qed.

Lemma record_inv_new :
  accepted s = true → mhas (nameOf s) (tools m) = false → (msize (tools m) < mt)%nat →
  MetricsInv mt ms (h ++ [s]) (record s m).
Proof.
  intros Ha Hout Hroom. rewrite record_accepted by done. cbv zeta. rewrite Hout.
  pose proof (mi_caps _ _ _ _ Hm) as [Hc1 Hc2].
  rewrite Hc1, (proj2 (Nat.leb_gt _ _) Hroom). pose proof size_names as Hsz.
  assert (Hkeys : mkeys (tools m) = namesOf h).
  { rewrite (mi_keys _ _ _ _ Hm). apply take_ge. lia. }
  assert (Hn : nameOf s ∉ namesOf h) by (rewrite mhas_elem in Hout; zbool; by rewrite <- Hkeys).
  assert (Hfresh : mget (nameOf s) (tools m) = None) by (apply not_elem_of_mkeys; by rewrite Hkeys).
  rewrite <- (mset_fresh _ _ _ Hfresh). apply metrics_step_inv; simpl.
  - done.
  - rewrite mset_fresh, addName_new by done. unfold mkeys. rewrite fmap_app. simpl.
    fold (mkeys (tools m)). rewrite Hkeys, take_ge; [done|]. rewrite length_app. simpl. lia.
  - assert (H0 : ∀ l m', (∀ s', s' ∈ l → accepted s' = true → mhas (nameOf s') (tools m') = true) →
                 countb (isDropped m') l = 0%nat).
    { intros l m' Hl. apply countb_Forall_not, Forall_forall. intros s' Hs'. unfold isDropped.
      destruct (accepted s') eqn:E; [|done]. by rewrite (Hl s' Hs' E). }
    rewrite (mi_dropped _ _ _ _ Hm), !H0; [done| |].
    + intros s' Hs' Ha'. rewrite mhas_elem. apply bool_decide_eq_true. simpl.
      rewrite mset_fresh by done. unfold mkeys. rewrite fmap_app. simpl. fold (mkeys (tools m)).
      rewrite Hkeys. rewrite <- (addName_new (namesOf h)) by done.
      eapply names_snoc; [apply Hm|done..].
    + intros s' Hs' Ha'. rewrite mhas_elem, Hkeys. apply bool_decide_eq_true. by apply Hm.
  - intros name b Hb. rewrite mget_mset in Hb. destruct (decide (name = nameOf s)) as [->|Hne].
    + injection Hb as <-. rewrite durationsOf_snoc, isFor_eq by done.
      rewrite Hc2. apply ring_record. rewrite namesOf_accepted; [by apply ring_new|done|apply Hm|done].
    + by apply ring_other; [right|].
Qed.

Lemma record_inv : MetricsInv mt ms (h ++ [s]) (record s m).
Proof.
  destruct (accepted s) eqn:Ha; [|by apply record_inv_rejected].
  destruct (mhas (nameOf s) (tools m)) eqn:Hin; [by apply record_inv_known|].
  destruct (decide (mt ≤ msize (tools m))%nat).
  - by apply record_inv_full.
  - apply record_inv_new; [done|done|lia].
Qed.
End step.

Lemma metrics_run_inv mt ms h :
  (0 < ms)%nat → MetricsInv mt ms h (run h (mkMetrics mt ms [] 0)).
Proof.
  intros Hms. induction h as [|s h IH] using rev_ind.
  - split; try done.
    + by destruct mt.
    + constructor.
    + intros s Hs. by apply elem_of_nil in Hs.
  - unfold run. rewrite fold_left_app. by apply record_inv.
Qed.

(** ** The theorems *)

(** The histogram is exact: the tools kept are the first [maxTools] distinct names;
    a kept tool counts every accepted duration ever recorded for it and holds
    exactly the [maxSamplesPerTool] most recent ones; and the dropped count is the
    number of accepted samples of the other tools. *)
Theorem histogram_exact mt ms h :
  (0 < ms)%nat →
  let m := run h (mkMetrics mt ms [] 0) in
  mkeys (tools m) = take mt (namesOf h) ∧
  droppedToolCount m = countb (isDropped m) h ∧
  ∀ name b, mget name (tools m) = Some b →
    count b = length (durationsOf name h) ∧
    chronological b = lastN ms (durationsOf name h) ∧
    samples b ≡ₚ lastN ms (durationsOf name h).
Proof.
  intros Hms m. destruct (metrics_run_inv mt ms h Hms) as [_ Hk _ _ Hd Hr]. split_and!; [done|done|].
  intros name b Hb. specialize (Hr name b Hb). split_and!; [apply Hr|apply Hr|by apply ring_perm].
Qed.

Lemma histogram_exact_witness :
  let h := [mkSample "Bash" 5; mkSample "Read" 1; mkSample " Bash" 7; mkSample "Edit" 2;
            mkSample "Bash" 9] in
  let m := run h (mkMetrics 2 2 [] 0) in
  mget "Bash" (tools m) = Some (mkBucket 3 1 [9; 7]) ∧ droppedToolCount m = 1%nat ∧
  chronological (mkBucket 3 1 [9; 7]) = lastN 2 (durationsOf "Bash" h).
Proof.
  intros h m. split; [reflexivity|]. split; [reflexivity|].
  destruct (histogram_exact 2 2 h) as (_ & _ & Hb); [lia|].
  destruct (Hb "Bash" (mkBucket 3 1 [9; 7])) as (_ & Hc & _); [reflexivity|exact Hc].
Defined.

(** A reported percentile is the nearest rank: it is one of the samples, at least
    [p] percent of the samples are at most it, and fewer than [p] percent are less. *)
Theorem percentile_nearest_rank l p :
  l ≠ [] → 1 ≤ p ≤ 100 →
  let v := percentile (sort_by byNumber l) p in
  v ∈ l ∧
  p * Z.of_nat (length l) ≤ 100 * Z.of_nat (countb (λ x, x <=? v) l) ∧
  100 * Z.of_nat (countb (λ x, x <? v) l) < p * Z.of_nat (length l).
Proof.
  intros Hl Hp v. set (s := sort_by byNumber l) in *.
  assert (Hs : s ≡ₚ l) by apply sort_by_perm.
  assert (Hne : s ≠ []) by (unfold s; by rewrite sort_by_nil).
  destruct (percentile_index p s Hp Hne) as (v' & Hv & Heq & Hr). subst v. rewrite Heq. clear Heq.
  rewrite <- (countb_perm _ _ _ Hs), <- (countb_perm _ _ _ Hs), <- Hs.
  pose proof (ceilRank_spec p (Z.of_nat (length s))) as Hc.
  set (i := Z.to_nat (ceilRank p (Z.of_nat (length s)) - 1)) in *.
  destruct (sorted_split s i v' (sort_by_sorted byNumber l) Hv) as [H1 H2].
  split_and!; [by eapply list_elem_of_lookup_2| |].
  - rewrite <- (take_drop (S i) s), countb_app, countb_Forall.
    + rewrite take_drop, length_take. lia.
    + eapply Forall_impl; [exact H1|]. intros x. by rewrite Z.leb_le.
  - rewrite <- (take_drop i s) at 1. rewrite countb_app, (countb_Forall_not _ (drop i s)).
    + pose proof (countb_length (λ x, x <? v') (take i s)) as Hle. rewrite length_take in Hle. lia.
    + eapply Forall_impl; [exact H2|]. intros x. by rewrite Z.ltb_ge.
Qed.

Lemma percentile_nearest_rank_witness :
  percentile (sort_by byNumber [30; 10; 20; 40]) 50 = 20 ∧
  percentile (sort_by byNumber [30; 10; 20; 40]) 95 ∈ [30; 10; 20; 40].
Proof.
  split; [reflexivity|]. apply (percentile_nearest_rank [30; 10; 20; 40] 95); [discriminate|lia].
Defined.

End Latency.
