(* ===== verification/Watchdog.v ===== *)
(** * The heartbeat watchdog

    [src/core/watchdog.ts]: the class [Watchdog] combines three signals per agent,
    hook events, open tools and a changing pane, into a verdict at every tick.
    The watchdog is a [Map] of agent states, the configuration, and the shared
    latency histogram of [ToolLatency].  The pane is reconstructed by [PaneScreen];
    the two regular-expression classifiers of [src/shared/pane-semantics.ts] are
    section variables of which nothing is assumed. *)

From S2P Require Import Prelude JsMap JsArray JsString AgentEvents Anomalies PaneScreen ToolLatency.
Local Open Scope Z_scope.

Module Watch.

(** ** Data *)

Record OpenToolUse := mkOpen {
  ot_toolName : string;
  startedAt : Z
}.

Record WatchdogConfig := mkConfig {
  tickIntervalMs : Z;
  staleThresholdMs : Z;
  unconditionalStaleThresholdMs : Z;
  maxToolExecutionTimeMs : Z;
  gracePeriodMs : Z;
  tokenActivityThresholdMs : Z;
  mcpStartupGracePeriodMs : Z
}.

Definition DEFAULT_CONFIG : WatchdogConfig :=
  mkConfig 5000 30000 60000 600000 10000 60000 120000.

(** [Partial<WatchdogConfig>]. *)
Record PartialConfig := mkPartial {
  p_tickIntervalMs : option Z;
  p_staleThresholdMs : option Z;
  p_unconditionalStaleThresholdMs : option Z;
  p_maxToolExecutionTimeMs : option Z;
  p_gracePeriodMs : option Z;
  p_tokenActivityThresholdMs : option Z;
  p_mcpStartupGracePeriodMs : option Z
}.

(** [{ ...config, ...partial }]. *)
Definition mergeConfig (c : WatchdogConfig) (p : PartialConfig) : WatchdogConfig :=
  mkConfig (orElse (p_tickIntervalMs p) (tickIntervalMs c))
    (orElse (p_staleThresholdMs p) (staleThresholdMs c))
    (orElse (p_unconditionalStaleThresholdMs p) (unconditionalStaleThresholdMs c))
    (orElse (p_maxToolExecutionTimeMs p) (maxToolExecutionTimeMs c))
    (orElse (p_gracePeriodMs p) (gracePeriodMs c))
    (orElse (p_tokenActivityThresholdMs p) (tokenActivityThresholdMs c))
    (orElse (p_mcpStartupGracePeriodMs p) (mcpStartupGracePeriodMs c)).

Record PendingPermission := mkPending {
  pp_toolName : string;
  pp_detectedAt : Z
}.

Record AgentWatchdogState := mkState {
  lastEventAt : Z;
  lastPaneHash : string;
  lastPaneChangeAt : Z;
  registeredAt : Z;
  firstHookAt : Z;
  unmatchedToolUses : jmap string OpenToolUse;
  unmatchedToolCountFallback : Z;
  lastTokenActivityAt : Z;
  mcpStartupAt : Z;
  sessionEnded : bool;
  pendingPermissionRequest : option PendingPermission
}.

Record Watchdog := mkWatchdog {
  agents : jmap string AgentWatchdogState;
  config : WatchdogConfig;
  toolLatencyMetrics : Latency.Metrics
}.

Inductive EventParentage := parent | child | foreign | unknown_parentage.
Inductive EventOrigin := live | replay.
#[export] Instance EventParentage_eq_dec : EqDecision EventParentage.
Proof. solve_decision. Defined.
#[export] Instance EventOrigin_eq_dec : EqDecision EventOrigin.
Proof. solve_decision. Defined.

(** The fields of [EventMeta] the watchdog reads. *)
Record EventMeta := mkMeta {
  parentage : EventParentage;
  origin : option EventOrigin;
  rawSessionId : option string
}.

Inductive PaneState := input_prompt | permission_dialog | shell_prompt | streaming | unknown_pane.
Inductive PaneConfidence := high | low.
#[export] Instance PaneState_eq_dec : EqDecision PaneState.
Proof. solve_decision. Defined.
#[export] Instance PaneConfidence_eq_dec : EqDecision PaneConfidence.
Proof. solve_decision. Defined.

Record PaneSemantics := mkSemantics {
  pane_state : PaneState;
  pane_confidence : PaneConfidence;
  matchedText : option string
}.

Inductive WatchdogVerdict :=
| healthy
| grace_period
| v_needs_input (anomaly : Anomaly)
| v_permission_blocked (anomaly : Anomaly)
| tool_running
| quiet_working
| mcp_starting
| v_stale_agent (anomaly : Anomaly)
| v_hook_disconnected (anomaly : Anomaly).

(** ** Field updates *)

Definition setLastEventAt (v : Z) (s : AgentWatchdogState) : AgentWatchdogState :=
  mkState v (lastPaneHash s) (lastPaneChangeAt s) (registeredAt s) (firstHookAt s)
    (unmatchedToolUses s) (unmatchedToolCountFallback s) (lastTokenActivityAt s) (mcpStartupAt s)
    (sessionEnded s) (pendingPermissionRequest s).

Definition setFirstHookAt (v : Z) (s : AgentWatchdogState) : AgentWatchdogState :=
  mkState (lastEventAt s) (lastPaneHash s) (lastPaneChangeAt s) (registeredAt s) v
    (unmatchedToolUses s) (unmatchedToolCountFallback s) (lastTokenActivityAt s) (mcpStartupAt s)
    (sessionEnded s) (pendingPermissionRequest s).

Definition setPane (h : string) (at_ : Z) (s : AgentWatchdogState) : AgentWatchdogState :=
  mkState (lastEventAt s) h at_ (registeredAt s) (firstHookAt s)
    (unmatchedToolUses s) (unmatchedToolCountFallback s) (lastTokenActivityAt s) (mcpStartupAt s)
    (sessionEnded s) (pendingPermissionRequest s).

Definition setTools (u : jmap string OpenToolUse) (n : Z) (s : AgentWatchdogState)
    : AgentWatchdogState :=
  mkState (lastEventAt s) (lastPaneHash s) (lastPaneChangeAt s) (registeredAt s) (firstHookAt s)
    u n (lastTokenActivityAt s) (mcpStartupAt s) (sessionEnded s) (pendingPermissionRequest s).

Definition setTokenActivity (v : Z) (s : AgentWatchdogState) : AgentWatchdogState :=
  mkState (lastEventAt s) (lastPaneHash s) (lastPaneChangeAt s) (registeredAt s) (firstHookAt s)
    (unmatchedToolUses s) (unmatchedToolCountFallback s) v (mcpStartupAt s)
    (sessionEnded s) (pendingPermissionRequest s).

Definition setMcp (v : Z) (s : AgentWatchdogState) : AgentWatchdogState :=
  mkState (lastEventAt s) (lastPaneHash s) (lastPaneChangeAt s) (registeredAt s) (firstHookAt s)
    (unmatchedToolUses s) (unmatchedToolCountFallback s) (lastTokenActivityAt s) v
    (sessionEnded s) (pendingPermissionRequest s).

Definition setEnded (v : bool) (s : AgentWatchdogState) : AgentWatchdogState :=
  mkState (lastEventAt s) (lastPaneHash s) (lastPaneChangeAt s) (registeredAt s) (firstHookAt s)
    (unmatchedToolUses s) (unmatchedToolCountFallback s) (lastTokenActivityAt s) (mcpStartupAt s)
    v (pendingPermissionRequest s).

Definition setPending (v : option PendingPermission) (s : AgentWatchdogState)
    : AgentWatchdogState :=
  mkState (lastEventAt s) (lastPaneHash s) (lastPaneChangeAt s) (registeredAt s) (firstHookAt s)
    (unmatchedToolUses s) (unmatchedToolCountFallback s) (lastTokenActivityAt s) (mcpStartupAt s)
    (sessionEnded s) v.

Definition putAgent (a : string) (s : AgentWatchdogState) (w : Watchdog) : Watchdog :=
  mkWatchdog (mset a s (agents w)) (config w) (toolLatencyMetrics w).

(** ** The fingerprint of the pane *)

(** [x | 0]. *)
Definition toInt32 (x : Z) : Z := (x + 2 ^ 31) mod 2 ^ 32 - 2 ^ 31.

(** One round of [simpleHash]: [hash << 5] is itself a 32-bit operation. *)
Definition hashStep (hash : Z) (c : ascii) : Z :=
  toInt32 (toInt32 (Z.shiftl hash 5) - hash + charCodeAt c).

Definition hashCode (s : str) : Z := fold_left hashStep s 0.

Definition digit36 (d : Z) : ascii :=
  if d <? 10 then ascii_of_N (Z.to_N (48 + d)) else ascii_of_N (Z.to_N (87 + d)).

(** The digits of a number below [36 ^ fuel], most significant first. *)
Fixpoint digits36 (fuel : nat) (n : Z) : str :=
  match fuel with
  | O => []
  | S f => if n <? 36 then [digit36 n] else digits36 f (n / 36) ++ [digit36 (n mod 36)]
  end.

(** [Number.prototype.toString(36)] on a 32-bit integer: six digits are enough. *)
Definition toString36 (n : Z) : string :=
  unchars (if n <? 0 then "-"%char :: digits36 6 (- n) else digits36 6 n).

Definition simpleHash (s : string) : string := toString36 (hashCode (chars s)).

(** ** Explanations *)

Definition formatActivityGap (ms : Z) : string :=
  let totalSeconds := (ms + 500) / 1000 in
  if totalSeconds <? 90 then showZ totalSeconds +:+ "s"
  else
    let mins := totalSeconds / 60 in
    if mins <? 60 then showZ mins +:+ " min"
    else
      let h := mins / 60 in
      let m := mins mod 60 in
      if 0 <? m then showZ h +:+ "h " +:+ showZ m +:+ "m" else showZ h +:+ "h".

(** ** Registration *)

Definition freshState (lastEvent : option Z) (regAt : Z) : AgentWatchdogState :=
  mkState (orElse lastEvent regAt) "" regAt regAt
    (match lastEvent with Some t => if 0 <? t then t else 0 | None => 0 end)
    [] 0 0 0 false None.

(** [registeredAt ?? Date.now()] is the argument [regAt]. *)
Definition registerAgent (a : string) (lastEvent : option Z) (regAt : Z) (w : Watchdog) : Watchdog :=
  putAgent a (freshState lastEvent regAt) w.

Definition unregisterAgent (a : string) (w : Watchdog) : Watchdog :=
  mkWatchdog (mdel a (agents w)) (config w) (toolLatencyMetrics w).

Definition clear (w : Watchdog) : Watchdog := mkWatchdog [] (config w) (toolLatencyMetrics w).

Definition reconfigure (p : PartialConfig) (w : Watchdog) : Watchdog :=
  mkWatchdog (agents w) (mergeConfig (config w) p) (toolLatencyMetrics w).

Definition newWatchdog (p : PartialConfig) (m : Latency.Metrics) : Watchdog :=
  mkWatchdog [] (mergeConfig DEFAULT_CONFIG p) m.

Definition getTrackedAgents (w : Watchdog) : list string := mkeys (agents w).

(** ** Events *)

Definition isProviderProgress (e : AgentEvent) : bool :=
  match ev_body e with
  | notification t _ _ => String.eqb t "provider_progress"
  | _ => false
  end.

Definition isInputReceived (e : AgentEvent) : bool :=
  match ev_body e with input_received => true | _ => false end.

Definition closesPendingPermission (e : AgentEvent) : bool :=
  match ev_body e with
  | tool_use _ _ _ | tool_result _ _ _ | tool_error _ _ _ _ _ | input_received
  | user_prompt _ _ | stop _ | stop_failure _ _ _ _ | session_start _ _ _ | session_end _ => true
  | _ => false
  end.

(** The first [if]: the end of the session. *)
Definition trackEnd (e : AgentEvent) (s : AgentWatchdogState) : AgentWatchdogState :=
  match ev_body e with
  | session_start _ _ _ => setEnded false s
  | session_end _ => setEnded true s
  | _ => s
  end.

Definition openTool (name : string) (id : option string) (now : Z) (s : AgentWatchdogState)
    : AgentWatchdogState :=
  match truthyStr id with
  | Some i =>
      setTools (mset i (mkOpen name now) (unmatchedToolUses s)) (unmatchedToolCountFallback s) s
  | None => setTools (unmatchedToolUses s) (unmatchedToolCountFallback s + 1) s
  end.

(** [open.toolName || event.toolName]. *)
Definition preferName (openName name : string) : string :=
  if String.eqb openName "" then name else openName.

Definition closeTool (name : string) (id : option string) (now : Z)
    (sm : AgentWatchdogState * Latency.Metrics) : AgentWatchdogState * Latency.Metrics :=
  let '(s, m) := sm in
  match truthyStr id with
  | Some i =>
      match mget i (unmatchedToolUses s) with
      | Some o =>
          (setTools (mdel i (unmatchedToolUses s)) (unmatchedToolCountFallback s) s,
           Latency.record
             (Latency.mkSample (preferName (ot_toolName o) name) (max0 (now - startedAt o))) m)
      | None => (s, m)
      end
  | None =>
      (if 0 <? unmatchedToolCountFallback s
       then setTools (unmatchedToolUses s) (unmatchedToolCountFallback s - 1) s else s, m)
  end.

(** The second [if]: tools and MCP startup. *)
Definition trackTool (upd : bool) (now : Z) (e : AgentEvent)
    (sm : AgentWatchdogState * Latency.Metrics) : AgentWatchdogState * Latency.Metrics :=
  let '(s, m) := sm in
  match ev_body e with
  | tool_use name _ id => (setMcp 0 (openTool name id now s), m)
  | tool_result name _ id => let '(s, m) := closeTool name id now (s, m) in (setMcp 0 s, m)
  | tool_error name _ id _ _ => let '(s, m) := closeTool name id now (s, m) in (setMcp 0 s, m)
  | stop _ | session_end _ => (setMcp 0 s, m)
  | notification t _ _ =>
      (if upd && String.eqb t "mcp_startup_starting" then setMcp now s else s, m)
  | _ => (s, m)
  end.

(** The third [if]: the structured permission request. *)
Definition trackPermission (now : Z) (e : AgentEvent) (s : AgentWatchdogState)
    : AgentWatchdogState :=
  match ev_body e with
  | permission_request name _ _ => setPending (Some (mkPending name now)) s
  | _ => if closesPendingPermission e then setPending None s else s
  end.

(** The body of the loop over the events. *)
Definition recordOne (upd : bool) (now : Z) (sm : AgentWatchdogState * Latency.Metrics)
    (e : AgentEvent) : AgentWatchdogState * Latency.Metrics :=
  let '(s, m) := sm in
  let '(s, m) := trackTool upd now e (trackEnd e s, m) in
  (trackPermission now e s, m).

(** [upd] is [options.updateLastEventAt !== false]. *)
Definition recordEvents (a : string) (events : list AgentEvent) (now : Z) (upd : bool)
    (w : Watchdog) : Watchdog :=
  match mget a (agents w) with
  | None => w
  | Some s =>
      match List.filter (λ e, negb (isProviderProgress e)) events with
      | [] => w
      | events =>
          let s := if upd then setLastEventAt now s else s in
          let s :=
            if (firstHookAt s =? 0) && existsb (λ e, negb (isInputReceived e)) events
            then setFirstHookAt now s else s in
          let '(s, m) := fold_left (recordOne upd now) events (s, toolLatencyMetrics w) in
          mkWatchdog (mset a s (agents w)) (config w) m
      end
  end.

(** A session or turn id of at most 256 characters. *)
Definition boundedId (s : string) : bool :=
  negb (String.eqb s "") && (Z.of_nat (String.length s) <=? 256).

(** [event] is a notification: [t] and [observed] are its type and observation
    time. *)
Definition acceptsProgress (t : string) (observed : option jnum) (e : AgentEvent)
    (meta : EventMeta) (now : Z) (c : WatchdogConfig) (s : AgentWatchdogState) : option Z :=
  if sessionEnded s || bool_decide (origin meta = Some replay)
     || negb (bool_decide (parentage meta = parent))
     || negb (String.eqb t "provider_progress")
     || negb (boundedId (ev_sessionId e))
     || negb (bool_decide (Some (ev_sessionId e) = rawSessionId meta))
     || negb (match ev_turnId e with Some i => boundedId i | None => false end)
  then None
  else
    at_ ← observed ≫= safeInteger;
    if (at_ <=? 0) || (now <? at_) || (staleThresholdMs c <=? now - at_) || (at_ <=? lastEventAt s)
    then None else Some at_.

Definition recordProviderProgress (a : string) (e : AgentEvent) (meta : EventMeta) (now : Z)
    (w : Watchdog) : bool * Watchdog :=
  match mget a (agents w), ev_body e with
  | Some s, notification t _ observed =>
      match acceptsProgress t observed e meta now (config w) s with
      | Some at_ => (true, putAgent a (setLastEventAt at_ s) w)
      | None => (false, w)
      end
  | _, _ => (false, w)
  end.

Definition toolInProgress (s : AgentWatchdogState) : bool :=
  (0 <? Z.of_nat (msize (unmatchedToolUses s))) || (0 <? unmatchedToolCountFallback s).

Definition hasToolInProgress (a : string) (w : Watchdog) : bool :=
  match mget a (agents w) with Some s => toolInProgress s | None => false end.

Definition recordTokenActivity (a : string) (now : Z) (w : Watchdog) : Watchdog :=
  match mget a (agents w) with
  | Some s => putAgent a (setTokenActivity now s) w
  | None => w
  end.

Definition recordInputReceived (a : string) (now : Z) (w : Watchdog) : Watchdog :=
  recordEvents a [mkEvent input_received a None None None] now true w.

(** ** The fingerprint, abstractly

    The hash is the polynomial of the code units in base 31, modulo [2 ^ 32]. *)

Definition polynomial (s : str) : Z := fold_left (λ h c, 31 * h + charCodeAt c) s 0.

Lemma toInt32_mod x y : toInt32 x = toInt32 y ↔ x mod 2 ^ 32 = y mod 2 ^ 32.
Proof.
  unfold toInt32. split; intros H.
  - assert (He : (x + 2 ^ 31) mod 2 ^ 32 = (y + 2 ^ 31) mod 2 ^ 32) by lia.
    replace x with (x + 2 ^ 31 - 2 ^ 31) by lia. replace y with (y + 2 ^ 31 - 2 ^ 31) by lia.
    by rewrite Zminus_mod, He, <- Zminus_mod.
  - by rewrite (Zplus_mod x), (Zplus_mod y), H.
Qed.

Lemma toInt32_range x : - 2 ^ 31 ≤ toInt32 x < 2 ^ 31.
Proof. unfold toInt32. pose proof (Z.mod_pos_bound (x + 2 ^ 31) (2 ^ 32) ltac:(lia)). lia. Qed.

Lemma toInt32_eq x : ∃ k, toInt32 x = x + k * 2 ^ 32.
Proof.
  unfold toInt32. exists (- ((x + 2 ^ 31) / 2 ^ 32)).
  pose proof (Z.div_mod (x + 2 ^ 31) (2 ^ 32) ltac:(lia)). lia.
Qed.

Lemma toInt32_shift x k : toInt32 (x + k * 2 ^ 32) = toInt32 x.
Proof. apply toInt32_mod. by rewrite Z_mod_plus_full. Qed.

Lemma hashStep_eq p c : hashStep (toInt32 p) c = toInt32 (31 * p + charCodeAt c).
Proof.
  unfold hashStep. rewrite Z.shiftl_mul_pow2 by lia. change (2 ^ 5) with 32.
  destruct (toInt32_eq p) as [k ->]. destruct (toInt32_eq ((p + k * 2 ^ 32) * 32)) as [k' ->].
  replace ((p + k * 2 ^ 32) * 32 + k' * 2 ^ 32 - (p + k * 2 ^ 32) + charCodeAt c)
    with (31 * p + charCodeAt c + (31 * k + k') * 2 ^ 32) by ring.
  apply toInt32_shift.
Qed.

Lemma hashCode_polynomial s : hashCode s = toInt32 (polynomial s).
Proof.
  assert (H : ∀ p, fold_left hashStep s (toInt32 p)
    = toInt32 (fold_left (λ h c, 31 * h + charCodeAt c) s p)); [|apply (H 0)].
  induction s as [|c s IH]; intros p; cbn [fold_left]; [done|]. by rewrite hashStep_eq, IH.
Qed.

(** Reading the digits back. *)
Definition undigit36 (c : ascii) : Z :=
  let n := charCodeAt c in if n <? 58 then n - 48 else n - 87.

Definition read36 (l : str) : Z := fold_left (λ v c, 36 * v + undigit36 c) l 0.

Lemma digit36_read d : 0 ≤ d < 36 → undigit36 (digit36 d) = d ∧ digit36 d ≠ "-"%char.
Proof.
  intros Hd. assert (Hs : ∃ n : nat, d = Z.of_nat n ∧ (n < 36)%nat) by (exists (Z.to_nat d); lia).
  destruct Hs as (n & -> & Hn).
  do 36 (destruct n as [|n]; [split; [reflexivity|discriminate]|]). lia.
Qed.

Lemma digits36_read f n :
  0 ≤ n < 36 ^ Z.of_nat f → (0 < f)%nat →
  read36 (digits36 f n) = n ∧ Forall (λ c, c ≠ "-"%char) (digits36 f n) ∧ digits36 f n ≠ [].
Proof.
  revert n. induction f as [|f IH]; intros n Hn Hf; [lia|]. simpl.
  destruct (n <? 36) eqn:E; zbool.
  - destruct (digit36_read n ltac:(lia)) as [Hr Hd]. split_and!; [|by constructor|done].
    unfold read36. simpl. rewrite Hr. lia.
  - assert (Hf' : (0 < f)%nat) by (destruct f; simpl in *; lia).
    destruct (IH (n / 36)) as (Hr & Hd & _); [|done|].
    { split; [apply Z.div_pos; lia|]. apply Z.div_lt_upper_bound; [lia|].
      replace (36 * 36 ^ Z.of_nat f) with (36 ^ Z.of_nat (S f)); [lia|].
      rewrite Nat2Z.inj_succ, Z.pow_succ_r; lia. }
    destruct (digit36_read (n mod 36)) as [Hr' Hd']; [by apply Z.mod_pos_bound|].
    split_and!.
    + unfold read36 in *. rewrite fold_left_app, Hr. simpl. rewrite Hr'.
      symmetry. apply Z.div_mod. lia.
    + apply Forall_app. split; [done|by constructor].
    + by destruct (digits36 f (n / 36)).
Qed.

Lemma toString36_inj x y :
  - 2 ^ 31 ≤ x < 2 ^ 31 → - 2 ^ 31 ≤ y < 2 ^ 31 → toString36 x = toString36 y → x = y.
Proof.
  intros Hx Hy He. unfold toString36 in He. apply unchars_inj in He.
  assert (H36 : 2 ^ 31 < 36 ^ Z.of_nat 6) by reflexivity.
  assert (Hneg : ∀ a b, 0 ≤ a < 36 ^ Z.of_nat 6 → "-"%char :: b = digits36 6 a → False).
  { intros a b Ha Hb. destruct (digits36_read 6 a Ha) as (_ & Hd & _); [lia|].
    rewrite <- Hb in Hd. inversion Hd; done. }
  destruct (x <? 0) eqn:Ex, (y <? 0) eqn:Ey; zbool.
  - apply (f_equal tail) in He. cbn [tail] in He. destruct (digits36_read 6 (- x)) as [H1 _]; [lia..|].
    destruct (digits36_read 6 (- y)) as [H2 _]; [lia..|]. rewrite He, H2 in H1. lia.
  - exfalso. eapply Hneg; [|exact He]. lia.
  - exfalso. eapply Hneg; [|symmetry; exact He]. lia.
  - destruct (digits36_read 6 x) as [H1 _]; [lia..|].
    destruct (digits36_read 6 y) as [H2 _]; [lia..|]. by rewrite <- H1, He.
Qed.

Lemma simpleHash_eq s t :
  simpleHash s = simpleHash t ↔
    polynomial (chars s) mod 2 ^ 32 = polynomial (chars t) mod 2 ^ 32.
Proof.
  unfold simpleHash. rewrite !hashCode_polynomial, <- toInt32_mod. split; [|by intros ->].
  apply toString36_inj; apply toInt32_range.
Qed.

Lemma simpleHash_nonempty s : simpleHash s ≠ "".
Proof.
  unfold simpleHash, toString36. rewrite hashCode_polynomial.
  pose proof (toInt32_range (polynomial (chars s))) as Hr. set (x := toInt32 _) in *.
  assert (H36 : 2 ^ 31 < 36 ^ Z.of_nat 6) by reflexivity.
  destruct (x <? 0) eqn:E; [done|]. zbool.
  destruct (digits36_read 6 x) as (_ & _ & Hn); [lia..|].
  by destruct (digits36 6 x).
Qed.

(** ** The tick *)

Section tick.
Context (normalizeVisiblePaneLines : list string → string).
Context (analyzeVisiblePaneLines : list string → PaneSemantics).

Definition visibleLines (pane : string) : list string :=
  orElse (Screen.visibleLinesFromTerminalText pane) [].

Definition paneHash (pane : string) : string :=
  simpleHash (normalizeVisiblePaneLines (visibleLines pane)).

Definition paneChanged (hash : string) (s : AgentWatchdogState) : bool :=
  negb (String.eqb (lastPaneHash s) "") && negb (String.eqb hash (lastPaneHash s)).

(** Every tick refreshes the fingerprint, also those that return early. *)
Definition observePane (hash : string) (now : Z) (s : AgentWatchdogState) : AgentWatchdogState :=
  setPane hash (if paneChanged hash s then now else lastPaneChangeAt s) s.

Definition quote (s : string) : string :=
  String "034"%char (s +:+ String "034"%char EmptyString).

(** The verdict from the state after the events of the tick; [changed] says that
    the pane did. *)
Definition verdict (a : string) (c : WatchdogConfig) (now : Z) (changed : bool)
    (sem : PaneSemantics) (s : AgentWatchdogState) : WatchdogVerdict :=
  let timeSinceLastEvent := now - lastEventAt s in
  if now - registeredAt s <? gracePeriodMs c then grace_period
  else if (0 <? mcpStartupAt s) && (now - mcpStartupAt s <? mcpStartupGracePeriodMs c)
  then mcp_starting
  else
    match pendingPermissionRequest s with
    | Some p =>
        v_permission_blocked (basicAnomaly a permission_blocked warning
          ("Permission request pending for tool: " +:+ pp_toolName p) (Some (pp_detectedAt p)))
    | None =>
        if bool_decide (pane_confidence sem = high)
           && bool_decide (pane_state sem = permission_dialog) then
          v_permission_blocked (basicAnomaly a permission_blocked warning
            ("Pane shows permission dialog: " +:+ quote (orElse (matchedText sem) "approval prompt"))
            (Some now))
        else if timeSinceLastEvent <? staleThresholdMs c then healthy
        else if toolInProgress s then
          if maxToolExecutionTimeMs c <=? timeSinceLastEvent then
            v_stale_agent (basicAnomaly a stale_agent warning
              ("Tool running for " +:+ formatActivityGap timeSinceLastEvent
               +:+ " with no response " +:+ "— may be hung") (Some now))
          else tool_running
        else if bool_decide (pane_confidence sem = high)
                && bool_decide (pane_state sem = input_prompt) then
          v_needs_input
            {| agentId := a; type := needs_input; severity := info;
               explanation :=
                 "Pane shows input prompt: " +:+ quote (orElse (matchedText sem) "input prompt");
               detectedAt := Some now; count := None; subType := Some sub_stop;
               confidence := None; eventId := None; relatedFindingIds := None;
               rootCauseFindingId := None; likelyRootCause := None; causalityReason := None;
               transcriptContext := None; reconciliation := None |}
        else if changed then
          if unconditionalStaleThresholdMs c <=? timeSinceLastEvent then
            v_hook_disconnected (basicAnomaly a hook_disconnected warning
              ("No hook events for " +:+ formatActivityGap timeSinceLastEvent
               +:+ " but agent is visibly active — hook pipeline may be broken") (Some now))
          else healthy
        else if (0 <? lastTokenActivityAt s)
                && (now - lastTokenActivityAt s <? tokenActivityThresholdMs c)
        then quiet_working
        else
          v_stale_agent (basicAnomaly a stale_agent warning
            ("No activity for " +:+ formatActivityGap timeSinceLastEvent
             +:+ " — agent may be stuck or disconnected") (Some now))
    end.

Definition tick (a : string) (pane : string) (hookFileEvents : list AgentEvent) (now : Z)
    (w : Watchdog) : WatchdogVerdict * Watchdog :=
  match mget a (agents w) with
  | None => (healthy, w)
  | Some _ =>
      let w := match hookFileEvents with
               | [] => w
               | _ => recordEvents a hookFileEvents now true w
               end in
      match mget a (agents w) with
      | None => (healthy, w)
      | Some s =>
          let hash := paneHash pane in
          (verdict a (config w) now (paneChanged hash s)
             (analyzeVisiblePaneLines (visibleLines pane)) s,
           putAgent a (observePane hash now s) w)
      end
  end.

(** ** Runs *)

Inductive op : Type :=
| ORegister (a : string) (lastEvent : option Z) (regAt : Z)
| OUnregister (a : string)
| OClear
| OReconfigure (p : PartialConfig)
| OEvents (a : string) (evs : list AgentEvent) (now : Z) (upd : bool)
| OProgress (a : string) (e : AgentEvent) (meta : EventMeta) (now : Z)
| OToken (a : string) (now : Z)
| OTick (a : string) (pane : string) (evs : list AgentEvent) (now : Z).

Definition exec (w : Watchdog) (o : op) : Watchdog :=
  match o with
  | ORegister a l r => registerAgent a l r w
  | OUnregister a => unregisterAgent a w
  | OClear => clear w
  | OReconfigure p => reconfigure p w
  | OEvents a evs now upd => recordEvents a evs now upd w
  | OProgress a e meta now => snd (recordProviderProgress a e meta now w)
  | OToken a now => recordTokenActivity a now w
  | OTick a pane evs now => snd (tick a pane evs now w)
  end.

Definition run (w : Watchdog) (ops : list op) : Watchdog := fold_left exec ops w.

Definition opTime (o : op) : option Z :=
  match o with
  | ORegister _ _ r => Some r
  | OUnregister _ | OClear | OReconfigure _ => None
  | OEvents _ _ now _ | OProgress _ _ _ now | OToken _ now | OTick _ _ _ now => Some now
  end.

(** ** The log of an agent: what happened since it was registered *)

Record Entry := mkEntry {
  at_ : Z;
  counted : bool;
  event : AgentEvent
}.

Record Log := mkLog {
  entries : list Entry;
  tokens : list Z;
  panes : list string
}.

Definition logEvents (upd : bool) (now : Z) (evs : list AgentEvent) (l : Log) : Log :=
  mkLog (entries l ++ map (mkEntry now upd) (List.filter (λ e, negb (isProviderProgress e)) evs))
    (tokens l) (panes l).

Definition logStep (a : string) (l : option Log) (o : op) : option Log :=
  match o with
  | ORegister b _ _ => if decide (a = b) then Some (mkLog [] [] []) else l
  | OUnregister b => if decide (a = b) then None else l
  | OClear => None
  | OReconfigure _ | OProgress _ _ _ _ => l
  | OEvents b evs now upd => if decide (a = b) then option_map (logEvents upd now evs) l else l
  | OToken b now =>
      if decide (a = b) then option_map (λ l, mkLog (entries l) (tokens l ++ [now]) (panes l)) l
      else l
  | OTick b pane evs now =>
      if decide (a = b)
      then option_map (λ l, let l := logEvents true now evs l in
                            mkLog (entries l) (tokens l) (panes l ++ [pane])) l
      else l
  end.

Definition logOf (a : string) (ops : list op) : option Log := fold_left (logStep a) ops None.

(** The last entry with a property decides. *)
Definition lastOf (p : AgentEvent → bool) (l : list Entry) : option Entry :=
  last (List.filter (λ x, p (event x)) l).

Definition isRequest (e : AgentEvent) : bool :=
  match ev_body e with permission_request _ _ _ => true | _ => false end.

Definition pendingOf (l : list Entry) : option PendingPermission :=
  x ← lastOf (λ e, isRequest e || closesPendingPermission e) l;
  match ev_body (event x) with
  | permission_request name _ _ => Some (mkPending name (at_ x))
  | _ => None
  end.

Definition startsOrEnds (e : AgentEvent) : bool :=
  match ev_body e with session_start _ _ _ | session_end _ => true | _ => false end.

Definition endedOf (l : list Entry) : bool :=
  match lastOf startsOrEnds l with
  | Some x => match ev_body (event x) with session_end _ => true | _ => false end
  | None => false
  end.

(** The tool call an event opens or closes. *)
Definition toolId (e : AgentEvent) : option string :=
  match ev_body e with
  | tool_use _ _ id | tool_result _ _ id | tool_error _ _ id _ _ => truthyStr id
  | _ => None
  end.

Definition openOf (i : string) (l : list Entry) : option OpenToolUse :=
  x ← lastOf (λ e, bool_decide (toolId e = Some i)) l;
  match ev_body (event x) with
  | tool_use name _ _ => Some (mkOpen name (at_ x))
  | _ => None
  end.

(** Calls without an id are counted, never below zero. *)
Definition anonymousStep (n : Z) (x : Entry) : Z :=
  match ev_body (event x), toolId (event x) with
  | tool_use _ _ _, None => n + 1
  | tool_result _ _ _, None | tool_error _ _ _ _ _, None => Z.max 0 (n - 1)
  | _, _ => n
  end.

Definition anonymousOf (l : list Entry) : Z := fold_left anonymousStep l 0.

Definition lastHash (l : Log) : string :=
  match last (panes l) with Some p => paneHash p | None => "" end.

(** The state agrees with the log. *)
Record Agrees (l : Log) (s : AgentWatchdogState) : Prop := {
  ag_pending : pendingPermissionRequest s = pendingOf (entries l);
  ag_ended : sessionEnded s = endedOf (entries l);
  ag_open : mwf (unmatchedToolUses s) ∧ ∀ i, mget i (unmatchedToolUses s) = openOf i (entries l);
  ag_anonymous : unmatchedToolCountFallback s = anonymousOf (entries l);
  ag_tokens : lastTokenActivityAt s = orElse (last (tokens l)) 0;
  ag_pane : lastPaneHash s = lastHash l
}.

Definition agrees (w : Watchdog) (a : string) (l : option Log) : Prop :=
  match mget a (agents w), l with
  | Some s, Some l => Agrees l s
  | None, None => True
  | _, _ => False
  end.

Lemma lastOf_snoc p l x : lastOf p (l ++ [x]) = if p (event x) then Some x else lastOf p l.
Proof.
  unfold lastOf. rewrite List.filter_app. simpl. destruct (p (event x)).
  - apply last_snoc.
  - by rewrite app_nil_r.
Qed.

Lemma anonymous_nonneg l : 0 <= anonymousOf l.
Proof.
  induction l as [|x l IH] using rev_ind; [unfold anonymousOf; simpl; lia|].
  unfold anonymousOf in *. rewrite fold_left_app. simpl. unfold anonymousStep at 1.
  destruct (ev_body (event x)); destruct (toolId (event x)); lia.
Qed.

(** *** Adding an entry *)

Lemma pendingOf_snoc l x :
  pendingOf (l ++ [x]) =
    match ev_body (event x) with
    | permission_request name _ _ => Some (mkPending name (at_ x))
    | _ => if closesPendingPermission (event x) then None else pendingOf l
    end.
Proof.
  unfold pendingOf at 1. rewrite lastOf_snoc. unfold isRequest, closesPendingPermission.
  by destruct (ev_body (event x)) eqn:E; simpl; rewrite ?E.
Qed.

Lemma endedOf_snoc l x :
  endedOf (l ++ [x]) =
    match ev_body (event x) with
    | session_start _ _ _ => false | session_end _ => true | _ => endedOf l
    end.
Proof.
  unfold endedOf at 1. rewrite lastOf_snoc. unfold startsOrEnds.
  by destruct (ev_body (event x)) eqn:E; rewrite ?E.
Qed.

Lemma openOf_snoc i l x :
  openOf i (l ++ [x]) =
    if bool_decide (toolId (event x) = Some i)
    then match ev_body (event x) with tool_use name _ _ => Some (mkOpen name (at_ x)) | _ => None end
    else openOf i l.
Proof. unfold openOf at 1. rewrite lastOf_snoc. by destruct (bool_decide _). Qed.

Lemma anonymousOf_snoc l x : anonymousOf (l ++ [x]) = anonymousStep (anonymousOf l) x.
Proof. unfold anonymousOf. by rewrite fold_left_app. Qed.

(** *** One event *)

Lemma recordOne_pending upd now s m e :
  pendingPermissionRequest (fst (recordOne upd now (s, m) e)) =
    match ev_body e with
    | permission_request name _ _ => Some (mkPending name now)
    | _ => if closesPendingPermission e then None else pendingPermissionRequest s
    end.
Proof.
  unfold recordOne, trackTool, trackEnd, trackPermission, closesPendingPermission.
  destruct (ev_body e); simpl; try done; repeat (case_match; simplify_eq/=); done.
Qed.

Lemma recordOne_ended upd now s m e :
  sessionEnded (fst (recordOne upd now (s, m) e)) =
    match ev_body e with
    | session_start _ _ _ => false | session_end _ => true | _ => sessionEnded s
    end.
Proof.
  unfold recordOne, trackTool, trackEnd, trackPermission, closesPendingPermission, openTool, closeTool.
  destruct (ev_body e); simpl; try done; repeat (case_match; simplify_eq/=); done.
Qed.

Lemma recordOne_tools upd now s m e :
  unmatchedToolUses (fst (recordOne upd now (s, m) e)) =
    match ev_body e, toolId e with
    | tool_use name _ _, Some i => mset i (mkOpen name now) (unmatchedToolUses s)
    | tool_result _ _ _, Some i | tool_error _ _ _ _ _, Some i => mdel i (unmatchedToolUses s)
    | _, _ => unmatchedToolUses s
    end.
Proof.
  unfold recordOne, trackTool, trackEnd, trackPermission, closesPendingPermission, openTool, closeTool, toolId.
  destruct (ev_body e); simpl; try done; repeat (case_match; simplify_eq/=); try done;
    by rewrite mdel_absent.
Qed.

Lemma recordOne_anonymous upd now s m e :
  unmatchedToolCountFallback (fst (recordOne upd now (s, m) e)) =
    match ev_body e, toolId e with
    | tool_use _ _ _, None => unmatchedToolCountFallback s + 1
    | tool_result _ _ _, None | tool_error _ _ _ _ _, None =>
        if 0 <? unmatchedToolCountFallback s then unmatchedToolCountFallback s - 1
        else unmatchedToolCountFallback s
    | _, _ => unmatchedToolCountFallback s
    end.
Proof.
  unfold recordOne, trackTool, trackEnd, trackPermission, closesPendingPermission, openTool, closeTool, toolId.
  destruct (ev_body e); simpl; try done; repeat (case_match; simplify_eq/=); done.
Qed.

(** The fields an event does not touch, and the startup clock. *)
Lemma recordOne_frame upd now s m e :
  let s' := fst (recordOne upd now (s, m) e) in
  lastTokenActivityAt s' = lastTokenActivityAt s ∧ lastPaneHash s' = lastPaneHash s ∧
  lastEventAt s' = lastEventAt s ∧ registeredAt s' = registeredAt s ∧
  (mcpStartupAt s' = mcpStartupAt s ∨ mcpStartupAt s' = 0 ∨ mcpStartupAt s' = now).
Proof.
  unfold recordOne, trackTool, trackEnd, trackPermission, closesPendingPermission, openTool, closeTool.
  destruct (ev_body e); simpl; repeat (case_match; simplify_eq/=); split_and!; auto.
Qed.

Lemma recordOne_agrees upd now l s m e :
  Agrees l s →
  Agrees (mkLog (entries l ++ [mkEntry now upd e]) (tokens l) (panes l))
    (fst (recordOne upd now (s, m) e)).
Proof.
  intros [Hp He [Hwf Ho] Ha Ht Hh].
  destruct (recordOne_frame upd now s m e) as (Hf1 & Hf2 & _). split; cbn [entries tokens panes].
  - rewrite recordOne_pending, pendingOf_snoc, Hp. by destruct (ev_body e) eqn:E; simpl; rewrite E.
  - rewrite recordOne_ended, endedOf_snoc, He. by destruct (ev_body e) eqn:E; simpl; rewrite E.
  - rewrite recordOne_tools. split.
    + destruct (ev_body e); try done; destruct (toolId e); auto using mwf_mset, mwf_mdel.
    + intros i. rewrite openOf_snoc, <- Ho. simpl. unfold toolId.
      destruct (ev_body e) as [| name ? id| name ? id| name ? id| | | | | | | | | |]; try done;
        destruct (truthyStr id) as [j|]; try done.
      * rewrite mget_mset. destruct (decide (i = j)) as [->|Hn];
          [by rewrite bool_decide_true|by rewrite bool_decide_false by congruence].
      * rewrite mget_mdel. destruct (decide (i = j)) as [->|Hn];
          [by rewrite bool_decide_true|by rewrite bool_decide_false by congruence].
      * rewrite mget_mdel. destruct (decide (i = j)) as [->|Hn];
          [by rewrite bool_decide_true|by rewrite bool_decide_false by congruence].
  - rewrite recordOne_anonymous, anonymousOf_snoc, <- Ha.
    pose proof (anonymous_nonneg (entries l)) as Hnn. rewrite <- Ha in Hnn.
    unfold anonymousStep. simpl. destruct (ev_body e); try done; destruct (toolId e); try done;
      case_if; zbool; lia.
  - by rewrite Hf1.
  - rewrite Hf2, Hh. done.
Qed.

Lemma recordAll_agrees upd now l s m evs :
  Agrees l s →
  Agrees (mkLog (entries l ++ map (mkEntry now upd) evs) (tokens l) (panes l))
    (fst (fold_left (recordOne upd now) evs (s, m))).
Proof.
  revert l s m. induction evs as [|e evs IH]; intros l s m Hl; cbn [fold_left map].
  - rewrite app_nil_r. by destruct l.
  - pose proof (recordOne_agrees upd now l s m e Hl) as H1.
    destruct (recordOne upd now (s, m) e) as [s1 m1].
    specialize (IH _ s1 m1 H1). cbn [entries tokens panes] in IH. by rewrite <- app_assoc in IH.
Qed.

(** *** One operation *)

(** The state before the loop over the events. *)
Definition stamp (upd : bool) (now : Z) (evs : list AgentEvent) (s : AgentWatchdogState)
    : AgentWatchdogState :=
  let s := if upd then setLastEventAt now s else s in
  if (firstHookAt s =? 0) && existsb (λ e, negb (isInputReceived e)) evs
  then setFirstHookAt now s else s.

Definition realEvents (evs : list AgentEvent) : list AgentEvent :=
  List.filter (λ e, negb (isProviderProgress e)) evs.

Lemma recordEvents_get a evs now upd w b :
  mget b (agents (recordEvents a evs now upd w)) =
    if decide (b = a) then
      s ← mget a (agents w);
      Some (match realEvents evs with
            | [] => s
            | _ => fst (fold_left (recordOne upd now) (realEvents evs)
                          (stamp upd now (realEvents evs) s, toolLatencyMetrics w))
            end)
    else mget b (agents w).
Proof.
  unfold recordEvents, realEvents. destruct (mget a (agents w)) as [s|] eqn:Es; cbn [mbind option_bind].
  - destruct (List.filter _ evs) as [|e evs'] eqn:Ef.
    + destruct (decide (b = a)) as [->|]; [by rewrite Es|done].
    + cbv zeta. fold (stamp upd now (e :: evs') s).
      destruct (fold_left (recordOne upd now) (e :: evs') _) as [s' m'] eqn:Er. simpl agents.
      rewrite mget_mset. by destruct (decide (b = a)).
  - by destruct (decide (b = a)) as [->|].
Qed.

Lemma stamp_agrees l upd now evs s : Agrees l s → Agrees l (stamp upd now evs s).
Proof.
  intros [Hp He Ho Ha Ht Hh]. unfold stamp. cbv zeta.
  destruct upd; (case_if; split; assumption).
Qed.

Lemma recordEvents_agrees a evs now upd w b l :
  agrees w b l →
  agrees (recordEvents a evs now upd w) b
    (if decide (b = a) then option_map (logEvents upd now evs) l else l).
Proof.
  unfold agrees. rewrite recordEvents_get. destruct (decide (b = a)) as [->|]; [|done].
  destruct (mget a (agents w)) as [s|]; [|by destruct l]. destruct l as [l|]; [|done].
  intros Hl. cbn [mbind option_bind option_map]. unfold logEvents. fold (realEvents evs).
  destruct (realEvents evs) as [|e evs'] eqn:E.
  - simpl. rewrite app_nil_r. by destruct l.
  - by apply recordAll_agrees, stamp_agrees.
Qed.

Lemma acceptsProgress_le t observed e meta now c s v :
  acceptsProgress t observed e meta now c s = Some v → lastEventAt s < v ≤ now ∧ sessionEnded s = false.
Proof.
  unfold acceptsProgress. case_if; [done|]. destruct (observed ≫= safeInteger) as [x|]; simpl; [|done].
  destruct ((x <=? 0) || (now <? x) || (staleThresholdMs c <=? now - x) || (x <=? lastEventAt s)) eqn:E'; [done|].
  intros [= <-]. zbool. split; [lia|]. by repeat match goal with H : _ || _ = false |- _ => apply orb_false_iff in H as [? ?] end.
Qed.

(** A progress report changes the last event time of its agent, or nothing. *)
Lemma progress_get a e meta now w :
  (snd (recordProviderProgress a e meta now w) = w ∧ fst (recordProviderProgress a e meta now w) = false) ∨
  ∃ s v, mget a (agents w) = Some s ∧ lastEventAt s < v ≤ now ∧ sessionEnded s = false ∧
    recordProviderProgress a e meta now w = (true, putAgent a (setLastEventAt v s) w).
Proof.
  unfold recordProviderProgress. destruct (mget a (agents w)) as [s|]; [|by left].
  destruct (ev_body e) as [| | | | | | | |t msg obs| | | | |]; try by left.
  destruct (acceptsProgress t obs e meta now (config w) s) as [v|] eqn:E; [|by left].
  right. apply acceptsProgress_le in E as [? ?]. by exists s, v.
Qed.

Lemma agrees_put w a s b l :
  agrees w b l → (∀ l, mget a (agents w) ≠ None → Agrees l (orElse (mget a (agents w)) s) → Agrees l s) →
  mget a (agents w) ≠ None → agrees (putAgent a s w) b l.
Proof.
  unfold agrees. simpl. intros Hl Hs Hn. rewrite mget_mset. destruct (decide (b = a)) as [->|]; [|done].
  destruct (mget a (agents w)) as [s0|]; [|done]. destruct l as [l|]; [|done]. by apply Hs.
Qed.

Lemma tick_get a pane evs now w b :
  mget b (agents (snd (tick a pane evs now w))) =
    if decide (b = a) then
      s ← mget a (agents (recordEvents a evs now true w)); Some (observePane (paneHash pane) now s)
    else mget b (agents w).
Proof.
  unfold tick. destruct (mget a (agents w)) as [s|] eqn:Es.
  - assert (Hw : match evs with [] => w | _ => recordEvents a evs now true w end = recordEvents a evs now true w).
    { destruct evs; [|done]. unfold recordEvents. by rewrite Es. }
    rewrite Hw. destruct (mget a (agents (recordEvents a evs now true w))) as [s'|] eqn:Es'.
    + simpl. rewrite mget_mset. destruct (decide (b = a)); [done|]. by rewrite recordEvents_get, decide_False.
    + rewrite recordEvents_get, decide_True, Es in Es' by done. done.
  - destruct (decide (b = a)) as [->|]; simpl; [|done]. by rewrite recordEvents_get, decide_True, Es.
Qed.

Lemma exec_agrees w a l o : agrees w a l → agrees (exec w o) a (logStep a l o).
Proof.
  intros Hl. destruct o as [b last reg|b| |p|b evs now upd|b e meta now|b now|b pane evs now]; cbn [exec logStep].
  - unfold agrees. simpl. rewrite mget_mset. destruct (decide (a = b)); [|done].
    split; try done. split; [apply mwf_nil|done].
  - unfold agrees. simpl. rewrite mget_mdel. by destruct (decide (a = b)).
  - done.
  - done.
  - by apply recordEvents_agrees.
  - destruct (progress_get b e meta now w) as [[-> _]|(s & v & Hs & Hv & _ & ->)]; [done|].
    apply agrees_put; [done| |by rewrite Hs]. intros l' _. rewrite Hs. simpl. by intros [? ? ? ? ? ?].
  - unfold recordTokenActivity. destruct (mget b (agents w)) as [s|] eqn:Es.
    + unfold agrees in *. simpl. rewrite mget_mset. destruct (decide (a = b)) as [->|]; [|done].
      rewrite Es in Hl. destruct l as [l|]; [|done]. destruct Hl. split; try done.
      simpl. by rewrite last_snoc.
    + destruct (decide (a = b)) as [->|]; [|done]. unfold agrees in *. rewrite Es in *. by destruct l.
  - pose proof (recordEvents_agrees b evs now true w a l Hl) as Hr. unfold agrees in *.
    rewrite tick_get. destruct (decide (a = b)) as [->|]; [|done].
    destruct (mget b (agents (recordEvents b evs now true w))) as [s|]; [|by destruct l].
    destruct l as [l|]; [|done]. cbn [mbind option_bind option_map] in *. destruct Hr. split; try done.
    unfold lastHash. simpl. by rewrite last_snoc.
Qed.

Lemma run_agrees w ops a : agents w = [] → agrees (run w ops) a (logOf a ops).
Proof.
  intros Hw. induction ops as [|o ops IH] using rev_ind.
  - unfold agrees. simpl. by rewrite Hw.
  - unfold run, logOf in *. rewrite !fold_left_app. simpl. by apply exec_agrees.
Qed.

(** *** Clocks *)

(** The clock never goes back along the operations. *)
Fixpoint monotone (T : Z) (ops : list op) : Prop :=
  match ops with
  | [] => True
  | o :: ops => match opTime o with
                | Some t => T ≤ t ∧ monotone t ops
                | None => monotone T ops
                end
  end.

Definition stepTime (T : Z) (o : op) : Z := orElse (opTime o) T.

Lemma recordAll_frame upd now evs s m :
  let s' := fst (fold_left (recordOne upd now) evs (s, m)) in
  lastTokenActivityAt s' = lastTokenActivityAt s ∧ lastPaneHash s' = lastPaneHash s ∧
  lastEventAt s' = lastEventAt s ∧ registeredAt s' = registeredAt s ∧
  (mcpStartupAt s' = mcpStartupAt s ∨ mcpStartupAt s' = 0 ∨ mcpStartupAt s' = now).
Proof.
  revert s m. induction evs as [|e evs IH]; intros s m; cbn [fold_left]; [cbn; tauto|].
  destruct (recordOne upd now (s, m) e) as [s1 m1] eqn:E.
  pose proof (recordOne_frame upd now s m e) as H1. rewrite E in H1. cbn [fst] in H1.
  specialize (IH s1 m1). cbn zeta in *. destruct IH as (-> & -> & -> & -> & H2).
  destruct H1 as (-> & -> & -> & -> & H1). split_and!; try done.
  destruct H2 as [-> | [-> | ->]]; tauto.
Qed.

Lemma stamp_frame upd now evs s :
  lastEventAt (stamp upd now evs s) = (if upd then now else lastEventAt s) ∧
  registeredAt (stamp upd now evs s) = registeredAt s ∧
  mcpStartupAt (stamp upd now evs s) = mcpStartupAt s ∧
  lastTokenActivityAt (stamp upd now evs s) = lastTokenActivityAt s.
Proof. unfold stamp. cbv zeta. by destruct upd; case_if. Qed.

(** The time of the last event is never before a counted entry. *)
Definition covers (T : Z) (w : Watchdog) (a : string) (l : option Log) : Prop :=
  match mget a (agents w), l with
  | Some s, Some l =>
      (∀ x, x ∈ entries l → counted x = true → at_ x ≤ lastEventAt s) ∧
      (∀ x, x ∈ entries l → at_ x ≤ T)
  | _, _ => True
  end.

Lemma recordEvents_covers T a evs now upd w l :
  T ≤ now → covers T w a l →
  covers now (recordEvents a evs now upd w) a (option_map (logEvents upd now evs) l).
Proof.
  intros HT. unfold covers. rewrite recordEvents_get, decide_True by done.
  destruct (mget a (agents w)) as [s|]; [|done]. destruct l as [l|]; [|done].
  cbn [mbind option_bind option_map]. intros [H1 H2]. unfold logEvents. fold (realEvents evs).
  set (evs' := realEvents evs). destruct evs' as [|e r] eqn:E.
  { simpl. rewrite app_nil_r. split; [done|]. intros x Hx. specialize (H2 x Hx). lia. }
  rewrite <- E. destruct (recordAll_frame upd now evs' (stamp upd now evs' s) (toolLatencyMetrics w))
    as (_ & _ & Hlast & _). rewrite Hlast. destruct (stamp_frame upd now evs' s) as [-> _].
  cbn [entries]. split; intros x [Hx|Hx]%elem_of_app.
  - intros Hc. specialize (H1 x Hx Hc). specialize (H2 x Hx). destruct upd; lia.
  - apply list_elem_of_fmap in Hx as (e' & -> & _). simpl. intros ->. lia.
  - specialize (H2 x Hx). lia.
  - apply list_elem_of_fmap in Hx as (e' & -> & _). simpl. lia.
Qed.

Lemma covers_mono T T' w a l : T ≤ T' → covers T w a l → covers T' w a l.
Proof.
  intros HT. unfold covers. destruct (mget a (agents w)); [|done]. destruct l; [|done].
  intros [H1 H2]. split; [done|]. intros x Hx. specialize (H2 x Hx). lia.
Qed.

Lemma covers_ext T w w' a l :
  mget a (agents w') = mget a (agents w) → covers T w a l → covers T w' a l.
Proof. unfold covers. by intros ->. Qed.

Lemma exec_covers T w a l o :
  T ≤ stepTime T o → covers T w a l → covers (stepTime T o) (exec w o) a (logStep a l o).
Proof.
  intros HT Hl. unfold stepTime in *.
  destruct o as [b last reg|b| |p|b evs now upd|b e meta now|b now|b pane evs now];
    cbn [exec logStep opTime orElse default] in *; (simpl in HT || idtac).
  - destruct (decide (a = b)) as [->|Hn].
    + unfold covers. simpl. rewrite mget_mset_eq. split; intros x Hx; by apply elem_of_nil in Hx.
    + eapply covers_ext; [|by eapply covers_mono]. simpl. by apply mget_mset_ne.
  - unfold covers in *. simpl. rewrite mget_mdel. by destruct (decide (a = b)).
  - done.
  - done.
  - destruct (decide (a = b)) as [->|Hn]; [by eapply recordEvents_covers|].
    eapply covers_ext; [|by eapply covers_mono]. by rewrite recordEvents_get, decide_False.
  - destruct (progress_get b e meta now w) as [[-> _]|(s & v & Hs & Hv & _ & ->)];
      [by eapply covers_mono|]. apply (covers_mono T); [done|].
    unfold covers in *. simpl. rewrite mget_mset. destruct (decide (a = b)) as [->|]; [|done].
    rewrite Hs in Hl. destruct l as [l|]; [|done]. destruct Hl as [H1 H2]. split; [|done].
    intros x Hx Hc. specialize (H1 x Hx Hc). simpl. lia.
  - apply (covers_mono T); [done|]. unfold covers, recordTokenActivity in *.
    destruct (mget b (agents w)) as [s|] eqn:Es.
    + simpl. rewrite mget_mset. destruct (decide (a = b)) as [->|]; [|done]. rewrite Es in Hl. by destruct l.
    + destruct (decide (a = b)) as [->|]; [|done]. by rewrite Es.
  - pose proof (recordEvents_covers T b evs now true w) as Hr. unfold covers in *. rewrite tick_get.
    destruct (decide (a = b)) as [->|]; [|by eapply (covers_mono T now w a l)].
    specialize (Hr l HT Hl). destruct (mget b (agents (recordEvents b evs now true w))); [|done].
    by destruct l.
Qed.

Lemma run_covers T w a l ops :
  monotone T ops → covers T w a l →
  covers (fold_left stepTime ops T) (run w ops) a (fold_left (logStep a) ops l).
Proof.
  revert T w l. induction ops as [|o ops IH]; intros T w l Hm Hl; [done|].
  cbn [fold_left run]. cbn [monotone] in Hm. apply IH.
  - unfold stepTime. destruct (opTime o); simpl; [by destruct Hm|done].
  - apply exec_covers; [|done]. unfold stepTime. destruct (opTime o); simpl; [by destruct Hm|lia].
Qed.

(** *** Silence *)

(** The times at which an operation shows activity of the agent. *)
Definition activity (a : string) (o : op) : list Z :=
  match o with
  | ORegister b last reg => if decide (a = b) then [orElse last reg; reg] else []
  | OEvents b _ now _ | OProgress b _ _ now | OToken b now => if decide (a = b) then [now] else []
  | OTick b _ evs now =>
      if decide (a = b) then (match realEvents evs with [] => [] | _ => [now] end) else []
  | _ => []
  end.

(** Every clock of the state is at most [B]. *)
Definition bounded (B : Z) (s : AgentWatchdogState) : Prop :=
  lastEventAt s ≤ B ∧ registeredAt s ≤ B ∧
  (mcpStartupAt s ≤ 0 ∨ mcpStartupAt s ≤ B) ∧ (lastTokenActivityAt s ≤ 0 ∨ lastTokenActivityAt s ≤ B).

Lemma recordEvents_bounded B a evs now upd w :
  (realEvents evs = [] ∨ now ≤ B) →
  (∀ s, mget a (agents w) = Some s → bounded B s) →
  ∀ s, mget a (agents (recordEvents a evs now upd w)) = Some s → bounded B s.
Proof.
  intros Hq Hw s. rewrite recordEvents_get, decide_True by done.
  destruct (mget a (agents w)) as [s0|]; [|done]. cbn [mbind option_bind]. specialize (Hw s0 eq_refl).
  destruct (realEvents evs) as [|e r] eqn:E; intros Hs; apply (inj Some) in Hs as <-; [done|].
  destruct Hq as [?|Hq]; [done|]. rewrite <- E.
  destruct (recordAll_frame upd now (realEvents evs) (stamp upd now (realEvents evs) s0) (toolLatencyMetrics w))
    as (Ht & _ & Hl & Hr & Hm). destruct (stamp_frame upd now (realEvents evs) s0) as (Sl & Sr & Sm & St).
  destruct Hw as (W1 & W2 & W3 & W4). unfold bounded. rewrite Hl, Hr, Ht, Sl, Sr, St.
  split_and!; [destruct upd; lia|done| |done].
  destruct Hm as [->|[->| ->]]; rewrite ?Sm; lia.
Qed.

Lemma exec_bounded B w a o :
  (∀ t, t ∈ activity a o → t ≤ B) →
  (∀ s, mget a (agents w) = Some s → bounded B s) →
  ∀ s, mget a (agents (exec w o)) = Some s → bounded B s.
Proof.
  intros Ho Hw. destruct o as [b last reg|b| |p|b evs now upd|b e meta now|b now|b pane evs now];
    cbn [exec activity] in *; intros s.
  - simpl. rewrite mget_mset. destruct (decide (a = b)) as [->|]; [|apply Hw].
    intros [= <-]. unfold bounded. simpl. split_and!; try lia; apply Ho; set_solver.
  - simpl. rewrite mget_mdel. destruct (decide (a = b)); [done|apply Hw].
  - done.
  - apply Hw.
  - destruct (decide (a = b)) as [->|Hn].
    + apply recordEvents_bounded; [|done]. right. apply Ho. by left.
    + rewrite recordEvents_get, decide_False by done. apply Hw.
  - destruct (progress_get b e meta now w) as [[-> _]|(s0 & v & Hs & Hv & _ & ->)]; [apply Hw|].
    simpl. rewrite mget_mset. destruct (decide (a = b)) as [->|]; [|apply Hw].
    intros [= <-]. destruct (Hw s0 Hs) as (? & ? & ? & ?). unfold bounded. simpl.
    assert (now ≤ B) by (apply Ho; set_solver). split_and!; try done; lia.
  - unfold recordTokenActivity. destruct (mget b (agents w)) as [s0|] eqn:Es; [|apply Hw].
    simpl. rewrite mget_mset. destruct (decide (a = b)) as [->|]; [|apply Hw].
    intros [= <-]. destruct (Hw s0 Es) as (? & ? & ? & ?). unfold bounded. simpl.
    split_and!; try done. right. apply Ho. set_solver.
  - rewrite tick_get. destruct (decide (a = b)) as [->|]; [|apply Hw].
    destruct (mget b (agents (recordEvents b evs now true w))) as [s0|] eqn:Es; [|done].
    intros [= <-]. change (bounded B s0). apply (recordEvents_bounded B b evs now true w); [|done|done].
    destruct (realEvents evs); [by left|]. right. apply Ho. by left.
Qed.

Lemma run_bounded B w a ops :
  (∀ o, o ∈ ops → ∀ t, t ∈ activity a o → t ≤ B) →
  (∀ s, mget a (agents w) = Some s → bounded B s) →
  ∀ s, mget a (agents (run w ops)) = Some s → bounded B s.
Proof.
  revert w. induction ops as [|o ops IH]; intros w Ho Hw; [done|].
  cbn [run fold_left]. apply IH.
  - intros o' Ho'. apply Ho. by right.
  - apply exec_bounded; [|done]. apply Ho. by left.
Qed.

(** *** The verdict *)

Definition isAlarm (v : WatchdogVerdict) : bool :=
  match v with
  | v_needs_input _ | v_permission_blocked _ | v_stale_agent _ | v_hook_disconnected _ => true
  | _ => false
  end.

(** A finding that blames silence. *)
Definition isSilence (v : WatchdogVerdict) : bool :=
  match v with v_needs_input _ | v_stale_agent _ | v_hook_disconnected _ => true | _ => false end.

Lemma verdict_silence a c now changed sem s :
  isSilence (verdict a c now changed sem s) = true →
  gracePeriodMs c ≤ now - registeredAt s ∧ pendingPermissionRequest s = None ∧
  staleThresholdMs c ≤ now - lastEventAt s ∧
  (toolInProgress s = true → maxToolExecutionTimeMs c ≤ now - lastEventAt s ∧
     ∃ f, verdict a c now changed sem s = v_stale_agent f) ∧
  (toolInProgress s = false → ∀ f, verdict a c now changed sem s = v_stale_agent f →
     changed = false ∧
     (lastTokenActivityAt s ≤ 0 ∨ tokenActivityThresholdMs c ≤ now - lastTokenActivityAt s)).
Proof.
  unfold verdict. cbv zeta. destruct (now - registeredAt s <? gracePeriodMs c) eqn:Eg; [done|].
  case_if; [done|]. destruct (pendingPermissionRequest s) eqn:Ep; [done|]. case_if; [done|].
  destruct (now - lastEventAt s <? staleThresholdMs c) eqn:Es; [done|]. zbool.
  destruct (toolInProgress s).
  - case_if; [|done]. zbool. intros _. split_and!; try done; try lia. intros _. split; [lia|by eexists].
  - intros Hv. split_and!; try done. intros _ f. case_if; [done|]. destruct changed.
    + case_if; done.
    + intros Hf. split; [done|].
      destruct (Z.ltb_spec 0 (lastTokenActivityAt s)); [|by left]. right.
      destruct (Z.ltb_spec (now - lastTokenActivityAt s) (tokenActivityThresholdMs c)); [done|lia].
Qed.

Lemma verdict_silent a c now changed sem s B :
  bounded B s →
  B + gracePeriodMs c ≤ now → B + mcpStartupGracePeriodMs c ≤ now → B + staleThresholdMs c ≤ now →
  B + maxToolExecutionTimeMs c ≤ now → B + unconditionalStaleThresholdMs c ≤ now →
  B + tokenActivityThresholdMs c ≤ now →
  isAlarm (verdict a c now changed sem s) = true.
Proof.
  intros (H1 & H2 & H3 & H4) Hg Hm Hs Hx Hu Ht. unfold verdict. cbv zeta.
  rewrite (proj2 (Z.ltb_ge _ _)) by lia.
  assert (Hmcp : (0 <? mcpStartupAt s) && (now - mcpStartupAt s <? mcpStartupGracePeriodMs c) = false).
  { apply andb_false_iff. destruct (Z.ltb_spec 0 (mcpStartupAt s)); [right|by left]. apply Z.ltb_ge. lia. }
  rewrite Hmcp. destruct (pendingPermissionRequest s); [done|]. case_if; [done|].
  rewrite (proj2 (Z.ltb_ge (now - lastEventAt s) _)) by lia.
  destruct (toolInProgress s); [by rewrite (proj2 (Z.leb_le _ _)) by lia|].
  case_if; [done|]. destruct changed; [by rewrite (proj2 (Z.leb_le (unconditionalStaleThresholdMs c) (now - lastEventAt s))) by lia|].
  assert (Htok : (0 <? lastTokenActivityAt s) && (now - lastTokenActivityAt s <? tokenActivityThresholdMs c) = false).
  { apply andb_false_iff. destruct (Z.ltb_spec 0 (lastTokenActivityAt s)); [right|by left]. apply Z.ltb_ge. lia. }
  by rewrite Htok.
Qed.

(** Tools in progress, by the log. *)
Lemma toolInProgress_log l s :
  Agrees l s →
  toolInProgress s = true ↔ (∃ i, is_Some (openOf i (entries l))) ∨ 0 < anonymousOf (entries l).
Proof.
  intros [_ _ [_ Ho] Ha _ _]. unfold toolInProgress. rewrite orb_true_iff, !Z.ltb_lt, Ha.
  assert (Hs : 0 < Z.of_nat (msize (unmatchedToolUses s)) ↔ ∃ i, is_Some (openOf i (entries l))); [|by rewrite Hs].
  unfold msize. split.
  - destruct (unmatchedToolUses s) as [|[i o] r] eqn:E; simpl; [lia|]. intros _. exists i.
    rewrite <- Ho, mget_here. done.
  - intros [i Hi]. rewrite <- Ho in Hi. destruct (unmatchedToolUses s); [by destruct Hi|simpl; lia].
Qed.

Lemma recordEvents_config a evs now upd w : config (recordEvents a evs now upd w) = config w.
Proof.
  unfold recordEvents. destruct (mget a (agents w)); [|done]. destruct (List.filter _ evs); [done|].
  cbv zeta. by destruct (fold_left _ _ _).
Qed.

(** A tick of a registered agent, from the state after its events. *)
Lemma tick_verdict a pane evs now w s :
  mget a (agents (recordEvents a evs now true w)) = Some s →
  fst (tick a pane evs now w) =
    verdict a (config w) now (paneChanged (paneHash pane) s)
      (analyzeVisiblePaneLines (visibleLines pane)) s.
Proof.
  intros Hs. unfold tick. destruct (mget a (agents w)) as [s0|] eqn:E.
  - assert (Hw : match evs with [] => w | _ => recordEvents a evs now true w end = recordEvents a evs now true w).
    { destruct evs; [|done]. unfold recordEvents. by rewrite E. }
    rewrite Hw, Hs. simpl. by rewrite recordEvents_config.
  - by rewrite recordEvents_get, decide_True, E in Hs.
Qed.

(** *** Durations of matched calls *)

(** The sample an event contributes after the entries [l]. *)
Definition closing (now : Z) (l : list Entry) (e : AgentEvent) : list Latency.ToolLatencySample :=
  match ev_body e, toolId e with
  | tool_result name _ _, Some i | tool_error name _ _ _ _, Some i =>
      match openOf i l with
      | Some o => [Latency.mkSample (preferName (ot_toolName o) name) (max0 (now - startedAt o))]
      | None => []
      end
  | _, _ => []
  end.

Fixpoint matched (upd : bool) (now : Z) (l : list Entry) (evs : list AgentEvent)
    : list Latency.ToolLatencySample :=
  match evs with
  | [] => []
  | e :: r => closing now l e ++ matched upd now (l ++ [mkEntry now upd e]) r
  end.

Definition opSamples (pre : list op) (o : op) : list Latency.ToolLatencySample :=
  match o with
  | OEvents a evs now upd =>
      match logOf a pre with Some l => matched upd now (entries l) (realEvents evs) | None => [] end
  | OTick a _ evs now =>
      match logOf a pre with Some l => matched true now (entries l) (realEvents evs) | None => [] end
  | _ => []
  end.

(** The durations a run measures: one for each result whose call is open. *)
Fixpoint samplesFrom (pre ops : list op) : list Latency.ToolLatencySample :=
  match ops with
  | [] => []
  | o :: r => opSamples pre o ++ samplesFrom (pre ++ [o]) r
  end.

Lemma recordOne_metrics upd now l s m e :
  Agrees l s → snd (recordOne upd now (s, m) e) = Latency.run (closing now (entries l) e) m.
Proof.
  intros [_ _ [_ Ho] _ _ _].
  unfold recordOne, trackTool, closing, toolId, trackEnd, closeTool.
  destruct (ev_body e) as [| |name ? id|name ? id| | | | | | | | | |]; try done;
    destruct (truthyStr id) as [i|]; cbn [fst snd setMcp unmatchedToolUses]; try done;
    rewrite <- Ho; by destruct (mget i (unmatchedToolUses s)).
Qed.

Lemma recordAll_metrics upd now evs l s m :
  Agrees l s →
  snd (fold_left (recordOne upd now) evs (s, m)) = Latency.run (matched upd now (entries l) evs) m.
Proof.
  revert l s m. induction evs as [|e evs IH]; intros l s m Hl; cbn [fold_left matched]; [done|].
  pose proof (recordOne_agrees upd now l s m e Hl) as H1.
  pose proof (recordOne_metrics upd now l s m e Hl) as H2.
  destruct (recordOne upd now (s, m) e) as [s1 m1]. cbn [fst snd] in H1, H2. subst m1.
  rewrite (IH _ s1 _ H1). unfold Latency.run. by rewrite fold_left_app.
Qed.

Lemma recordEvents_metrics a evs now upd w l :
  agrees w a l →
  toolLatencyMetrics (recordEvents a evs now upd w) =
    Latency.run (match l with Some l => matched upd now (entries l) (realEvents evs) | None => [] end)
      (toolLatencyMetrics w).
Proof.
  unfold agrees, recordEvents. destruct (mget a (agents w)) as [s|]; [|by destruct l].
  destruct l as [l|]; [|done]. intros Hl. fold (realEvents evs).
  destruct (realEvents evs) as [|e r] eqn:E; [done|]. cbv zeta. fold (stamp upd now (e :: r) s).
  pose proof (recordAll_metrics upd now (e :: r) l (stamp upd now (e :: r) s) (toolLatencyMetrics w)
    (stamp_agrees _ _ _ _ _ Hl)) as Hm.
  by destruct (fold_left (recordOne upd now) (e :: r) _).
Qed.

Lemma tick_metrics a pane evs now w :
  toolLatencyMetrics (snd (tick a pane evs now w)) = toolLatencyMetrics (recordEvents a evs now true w).
Proof.
  unfold tick. destruct (mget a (agents w)) as [s|] eqn:E.
  - assert (Hw : match evs with [] => w | _ => recordEvents a evs now true w end = recordEvents a evs now true w).
    { destruct evs; [|done]. unfold recordEvents. by rewrite E. }
    rewrite Hw. by destruct (mget a (agents (recordEvents a evs now true w))).
  - unfold recordEvents. by rewrite E.
Qed.

Lemma exec_metrics pre w o :
  (∀ a, agrees w a (logOf a pre)) →
  toolLatencyMetrics (exec w o) = Latency.run (opSamples pre o) (toolLatencyMetrics w).
Proof.
  intros Hw. destruct o as [b last reg|b| |p|b evs now upd|b e meta now|b now|b pane evs now];
    cbn [exec opSamples]; try done.
  - by apply recordEvents_metrics.
  - by destruct (progress_get b e meta now w) as [[-> _]|(s & v & _ & _ & _ & ->)].
  - unfold recordTokenActivity. by destruct (mget b (agents w)).
  - rewrite tick_metrics. by apply recordEvents_metrics.
Qed.

Lemma samplesFrom_snoc pre ops o :
  samplesFrom pre (ops ++ [o]) = samplesFrom pre ops ++ opSamples (pre ++ ops) o.
Proof.
  revert pre. induction ops as [|x ops IH]; intros pre; simpl.
  - by rewrite app_nil_r, app_nil_r.
  - by rewrite IH, <- !app_assoc.
Qed.

(** ** The theorems *)

(** After any run, the state kept for an agent is what its log says: the pending
    permission is the last request, unless something answered it; the session has
    ended when its last boundary is an end; the open tool calls are those whose last
    event is the call; and the fingerprint is that of the last pane seen. *)
Theorem signals_exact p m0 ops a :
  agrees (run (newWatchdog p m0) ops) a (logOf a ops).
Proof. by apply run_agrees. Qed.

(** The latency histogram receives one sample for each result whose call is open,
    with the time between the two, and nothing else. *)
Theorem latency_exact p m0 ops :
  toolLatencyMetrics (run (newWatchdog p m0) ops) = Latency.run (samplesFrom [] ops) m0.
Proof.
  induction ops as [|o ops IH] using rev_ind; [done|].
  unfold run in *. rewrite fold_left_app, samplesFrom_snoc. cbn [fold_left app].
  rewrite (exec_metrics ops), IH by (intros; by apply run_agrees).
  unfold Latency.run. by rewrite fold_left_app.
Qed.

(** A tool is in progress, by the log. *)
Definition busy (l : Log) : Prop :=
  (∃ i, is_Some (openOf i (entries l))) ∨ 0 < anonymousOf (entries l).

(** C7: no alarm on an active agent.  When a tick blames silence (stale, waiting at the
    prompt, or disconnected hooks), no permission request is open and every counted
    event is at least the stale threshold old; while a tool is in progress the only
    such alarm is staleness, after the longer limit; and without a tool the agent is
    called stale only if the hash of its pane is that of the tick before and no token activity
    is recent.  The readings of the clock are in order. *)
Theorem alarm_sound p m0 ops a pane evs now T :
  monotone T (ops ++ [OTick a pane evs now]) →
  let w := run (newWatchdog p m0) ops in
  let v := fst (tick a pane evs now w) in
  isSilence v = true →
  ∃ l, logOf a (ops ++ [OTick a pane evs now]) = Some l ∧
    pendingOf (entries l) = None ∧
    (∀ x, x ∈ entries l → counted x = true → at_ x + staleThresholdMs (config w) ≤ now) ∧
    (busy l → (∀ x, x ∈ entries l → counted x = true → at_ x + maxToolExecutionTimeMs (config w) ≤ now)
              ∧ ∃ f, v = v_stale_agent f) ∧
    (¬ busy l → ∀ f, v = v_stale_agent f →
      (∀ ps q, panes l = ps ++ [q; pane] → paneHash q = paneHash pane) ∧
      (∀ t, last (tokens l) = Some t → 0 < t → t + tokenActivityThresholdMs (config w) ≤ now)).
Proof.
  intros Hm w v Hv.
  assert (Hcov : covers (fold_left stepTime ops T) w a (logOf a ops)).
  { apply run_covers; [|by unfold covers]. clear -Hm. revert T Hm.
    induction ops as [|o ops IH]; intros T Hm; simpl in *; [done|].
    destruct (opTime o); [destruct Hm; split; [done|]|]; by apply IH. }
  assert (HT : fold_left stepTime ops T ≤ now).
  { clear -Hm. revert T Hm. induction ops as [|o ops IH]; intros T Hm; simpl in *; [tauto|].
    apply IH. unfold stepTime. destruct (opTime o); simpl; [by destruct Hm|done]. }
  pose proof (recordEvents_covers _ a evs now true w _ HT Hcov) as Hc.
  pose proof (recordEvents_agrees a evs now true w a _ (run_agrees (newWatchdog p m0) ops a eq_refl)) as Ha.
  rewrite decide_True in Ha by done. fold w in Ha.
  unfold agrees in Ha. unfold covers in Hc.
  destruct (mget a (agents (recordEvents a evs now true w))) as [s|] eqn:Es.
  - destruct (logOf a ops) as [l|] eqn:El; [|done]. cbn [option_map] in *.
    set (l1 := logEvents true now evs l) in *.
    exists (mkLog (entries l1) (tokens l1) (panes l1 ++ [pane])).
    unfold v in *. rewrite (tick_verdict a pane evs now w s Es) in *.
    destruct (verdict_silence _ _ _ _ _ _ Hv) as (_ & Hp & Hst & Hbusy & Hidle).
    destruct Hc as [Hc _]. pose proof (toolInProgress_log l1 s Ha) as Htool. cbn [entries tokens panes].
    split_and!.
    + unfold logOf in *. rewrite fold_left_app. cbn [fold_left logStep]. rewrite El, decide_True by done. done.
    + by rewrite <- (ag_pending _ _ Ha).
    + intros x Hx Hx'. specialize (Hc x Hx Hx'). lia.
    + intros Hb. apply Htool in Hb. destruct (Hbusy Hb) as [Hmax Hf]. split; [|done].
      intros x Hx Hx'. specialize (Hc x Hx Hx'). lia.
    + intros Hb f Hf. assert (Hnt : toolInProgress s = false).
      { destruct (toolInProgress s); [|done]. exfalso. by apply Hb, Htool. }
      destruct (Hidle Hnt f Hf) as [Hch Htok]. split.
      * intros ps q Hps. change [q; pane] with ([q] ++ [pane]) in Hps. rewrite app_assoc in Hps.
        apply app_inj_2 in Hps as [Hps _]; [|done]. unfold paneChanged in Hch.
        rewrite (ag_pane _ _ Ha) in Hch. unfold lastHash in Hch. rewrite Hps, last_snoc in Hch.
        apply andb_false_iff in Hch as [Hch|Hch]; apply negb_false_iff, String.eqb_eq in Hch; [|done].
        by apply simpleHash_nonempty in Hch.
      * intros t Ht Hpos. rewrite (ag_tokens _ _ Ha), Ht in Htok. simpl in Htok. lia.
  - exfalso. rewrite recordEvents_get, decide_True in Es by done. unfold v, tick in Hv.
    by destruct (mget a (agents w)).
Qed.

(** C31: a silent agent is reported.  Once every threshold has passed since the last
    activity of a registered agent, a tick without new events raises an alarm,
    whatever the pane shows. *)
Theorem silence_reported p m0 ops a pane evs now B :
  let w := run (newWatchdog p m0) ops in
  logOf a ops ≠ None →
  (∀ o, o ∈ ops → ∀ t, t ∈ activity a o → t ≤ B) →
  realEvents evs = [] →
  (∀ d, d ∈ [gracePeriodMs; mcpStartupGracePeriodMs; staleThresholdMs; maxToolExecutionTimeMs;
             unconditionalStaleThresholdMs; tokenActivityThresholdMs] → B + d (config w) ≤ now) →
  isAlarm (fst (tick a pane evs now w)) = true.
Proof.
  intros w Hl Ho He Hd. pose proof (run_agrees (newWatchdog p m0) ops a eq_refl) as Ha.
  fold w in Ha. unfold agrees in Ha. destruct (mget a (agents w)) as [s|] eqn:Es; [|by destruct (logOf a ops)].
  assert (Hb : bounded B s) by by eapply (run_bounded B (newWatchdog p m0) a ops).
  rewrite (tick_verdict a pane evs now w s).
  - eapply verdict_silent; [exact Hb|apply Hd; set_solver..].
  - by rewrite recordEvents_get, decide_True, Es, He.
Qed.

(** The pane counts as changed exactly when its fingerprint polynomial differs, modulo
    [2 ^ 32], from that of the previous tick. *)
Theorem pane_change_exact p m0 ops a pane now l ps q s :
  let w := run (newWatchdog p m0) ops in
  logOf a ops = Some l → panes l = ps ++ [q] → mget a (agents w) = Some s →
  (paneChanged (paneHash pane) s = true ↔
   polynomial (chars (normalizeVisiblePaneLines (visibleLines pane))) mod 2 ^ 32 ≠
   polynomial (chars (normalizeVisiblePaneLines (visibleLines q))) mod 2 ^ 32) ∧
  lastPaneChangeAt (observePane (paneHash pane) now s) =
    (if paneChanged (paneHash pane) s then now else lastPaneChangeAt s).
Proof.
  intros w Hl Hps Hs. pose proof (run_agrees (newWatchdog p m0) ops a eq_refl) as Ha.
  fold w in Ha. unfold agrees in Ha. rewrite Hs, Hl in Ha. split; [|done].
  unfold paneChanged. rewrite (ag_pane _ _ Ha). unfold lastHash. rewrite Hps, last_snoc.
  rewrite andb_true_iff, !negb_true_iff, !String.eqb_neq. unfold paneHash at 2 3.
  rewrite simpleHash_eq. split; [tauto|]. intros H. split; [apply simpleHash_nonempty|done].
Qed.

(** Provider progress is accepted only from the parent of a live session, never after
    its end, and only moves the time of the last event forward, to a moment that
    is neither in the future nor stale. *)
Theorem progress_sound p m0 ops a e meta now :
  let w := run (newWatchdog p m0) ops in
  let '(ok, w') := recordProviderProgress a e meta now w in
  if ok then
    ∃ l s v, logOf a ops = Some l ∧ mget a (agents w) = Some s ∧
      endedOf (entries l) = false ∧ parentage meta = parent ∧ origin meta ≠ Some replay ∧
      lastEventAt s < v ≤ now ∧ now - v < staleThresholdMs (config w) ∧
      w' = putAgent a (setLastEventAt v s) w
  else w' = w.
Proof.
  intros w. pose proof (run_agrees (newWatchdog p m0) ops a eq_refl) as Ha. fold w in Ha.
  unfold agrees in Ha. unfold recordProviderProgress.
  destruct (mget a (agents w)) as [s|] eqn:Es; [|done].
  destruct (ev_body e) as [| | | | | | | |t msg obs| | | | |]; try done.
  destruct (acceptsProgress t obs e meta now (config w) s) as [v|] eqn:E; [|done].
  destruct (logOf a ops) as [l|]; [|done]. exists l, s, v.
  pose proof (acceptsProgress_le _ _ _ _ _ _ _ _ E) as [Hv Hend].
  rewrite <- (ag_ended _ _ Ha). unfold acceptsProgress in E.
  case_if_in E; [done|]. destruct (obs ≫= safeInteger) as [x|]; simpl in E; [|done].
  case_if_in E; [done|]. injection E as ->. zbool.
  split_and!; try done; try lia.
Qed.
End tick.

(** ** Witnesses: an agent registered at 1000 and silent since *)

Definition demoNormalize : list string → string := String.concat "".
Definition demoAnalyze : list string → PaneSemantics := λ _, mkSemantics unknown_pane low None.
Definition noChange : PartialConfig := mkPartial None None None None None None None.
Definition demoMetrics : Latency.Metrics := Latency.newMetrics None None.
Definition demoOps : list op := [ORegister "a" None 1000; OTick "a" "x" [] 20000].

Lemma alarm_sound_witness :
  isSilence (fst (tick demoNormalize demoAnalyze "a" "x" [] 100000 (run demoNormalize demoAnalyze (newWatchdog noChange demoMetrics) demoOps))) = true ∧
  ∃ l, logOf "a" (demoOps ++ [OTick "a" "x" [] 100000]) = Some l ∧ pendingOf (entries l) = None.
Proof.
  assert (Hs : isSilence (fst (tick demoNormalize demoAnalyze "a" "x" [] 100000
    (run demoNormalize demoAnalyze (newWatchdog noChange demoMetrics) demoOps))) = true) by reflexivity.
  split; [exact Hs|].
  destruct (alarm_sound demoNormalize demoAnalyze noChange demoMetrics demoOps "a" "x" [] 100000 0) as (l & Hl & Hp & _).
  - simpl. lia.
  - exact Hs.
  - exists l. split; [exact Hl|exact Hp].
Defined.

Lemma silence_reported_witness :
  isAlarm (fst (tick demoNormalize demoAnalyze "a" "y" [] 700000 (run demoNormalize demoAnalyze (newWatchdog noChange demoMetrics) demoOps))) = true.
Proof.
  apply (silence_reported demoNormalize demoAnalyze noChange demoMetrics demoOps "a" "y" [] 700000 1000).
  - discriminate.
  - intros o Ho t Ht. unfold demoOps in Ho. apply elem_of_cons in Ho as [-> | Ho].
    + simpl in Ht. apply elem_of_cons in Ht as [-> | Ht]; [lia|].
      apply list_elem_of_singleton in Ht as ->. lia.
    + apply list_elem_of_singleton in Ho as ->. by apply elem_of_nil in Ht.
  - reflexivity.
  - intros d Hd. repeat (apply elem_of_cons in Hd as [-> | Hd]; [by vm_compute|]).
    by apply elem_of_nil in Hd.
Defined.

Lemma pane_change_exact_witness :
  match mget "a" (agents (run demoNormalize demoAnalyze (newWatchdog noChange demoMetrics) demoOps)) with
  | Some s =>
      paneChanged (paneHash demoNormalize "y") s = true ↔
      polynomial (chars (demoNormalize (visibleLines "y"))) mod 2 ^ 32 ≠
      polynomial (chars (demoNormalize (visibleLines "x"))) mod 2 ^ 32
  | None => False
  end.
Proof.
  destruct (mget "a" (agents (run demoNormalize demoAnalyze (newWatchdog noChange demoMetrics) demoOps))) as [s|] eqn:Es;
    [|discriminate].
  apply (pane_change_exact demoNormalize demoAnalyze noChange demoMetrics demoOps "a" "y" 0 (mkLog [] [] ["x"]) [] "x" s);
    [reflexivity|reflexivity|exact Es].
Defined.

End Watch.
