(* ===== verification/IdempotencyLedger.v ===== *)
(** * Idempotent launches: the ledger and its protocol

    [src/core/idempotency-ledger.ts], the class [IdempotencyLedger], and
    [launchTaskIdempotent] of [src/server/launch-service.ts], which is the loop every
    request with an idempotency key runs.  A promise is a number; [settled] is the
    outcome it was resolved with.  A persist call queues behind the write lock,
    takes its snapshot when it gets it, and ends with the file replaced, kept, or
    replaced with an error reported all the same.

    [String.prototype.localeCompare] is a section variable of which nothing is
    assumed.  An entry object of the file is the list of its keys in the order of
    their assignment; JavaScript lists integer-like keys first, and nothing here
    depends on that order. *)

From S2P Require Import Prelude JsMap JsArray JsString TaskTypes.
Local Open Scope Z_scope.

Module Idempotency.
Import TaskTypes.Task.

(** ** Data *)

Definition SCHEMA_VERSION : Z := 1.
Definition IDEMPOTENCY_TTL_MS : Z := 24 * 60 * 60 * 1000.
Definition IDEMPOTENCY_MAX_ENTRIES : Z := 10000.

Definition promise := nat.

(** A row of the file, as [isValidEntry] sees it: [None] for a field that is not a
    string, or a date that does not parse. *)
Record FileEntry := mkFileEntry {
  fe_taskId : option string;
  fe_createdAt : option Z;
  fe_duplicate : option bool
}.

Record LedgerFile := mkFile {
  f_schemaVersion : Z;
  f_entries : jmap string FileEntry
}.

Inductive WaitOutcome :=
| wok (taskId : string) (duplicate : bool)
| wfailed.

Inductive LedgerState :=
| pending (createdAtMs : Z) (p : promise)
| finalized (createdAtMs : Z) (taskId : string) (duplicate : bool).

Record Ledger := mkLedger {
  ttlMs : Z;
  maxEntries : Z;
  state : jmap string LedgerState;
  expiredTotal : Z;
  evictedTotal : Z;
  settled : jmap promise WaitOutcome;
  nextPromise : promise;
  queued : nat;                        (** persist calls waiting for the lock *)
  writing : option (jmap string FileEntry);
  disk : option LedgerFile;            (** the file, if it is there *)
  lastWriteOk : bool
}.

Inductive Reservation :=
| own (createdAtMs : Z) (p : promise)
| wait (p : promise)
| replay (taskId : string) (duplicate : bool).

(** [normalizePositiveInteger] on whole numbers. *)
Definition normalizePositiveInteger (v : Z) : Z := if 0 <? v then Z.max 1 v else 1.

Definition newLedger (ttl max : option Z) (d : option LedgerFile) : Ledger :=
  mkLedger (normalizePositiveInteger (orElse ttl IDEMPOTENCY_TTL_MS))
    (normalizePositiveInteger (orElse max IDEMPOTENCY_MAX_ENTRIES))
    [] 0 0 [] 0%nat 0%nat None d true.

Definition isFinalized (e : LedgerState) : bool :=
  match e with finalized _ _ _ => true | pending _ _ => false end.

Definition createdAtOf (e : LedgerState) : Z :=
  match e with finalized t _ _ | pending t _ => t end.

Definition setState (st : jmap string LedgerState) (l : Ledger) : Ledger :=
  {| l with state := st |}.

Definition enqueueWrite (l : Ledger) : Ledger := {| l with queued := S (queued l) |}.

(** Resolving a promise a second time has no effect. *)
Definition resolve (p : promise) (o : WaitOutcome) (l : Ledger) : Ledger :=
  match mget p (settled l) with
  | Some _ => l
  | None => {| l with settled := mset p o (settled l) |}
  end.

(** ** The file *)

Definition isValidEntry (e : FileEntry) : option LedgerState :=
  match fe_taskId e, fe_createdAt e with
  | Some t, Some at_ =>
      if String.eqb t "" then None
      else match fe_duplicate e with
           | None => Some (finalized at_ t false)
           | Some true => Some (finalized at_ t true)
           | Some false => None
           end
  | _, _ => None
  end.

(** [entries[key] = v] on an object literal: the key [__proto__] sets the prototype
    and leaves no property. *)
Definition assignProperty (k : string) (v : FileEntry) (o : jmap string FileEntry) :
    jmap string FileEntry :=
  if String.eqb k "__proto__" then o else mset k v o.

Definition snapshot (st : jmap string LedgerState) : jmap string FileEntry :=
  fold_left (λ o '(k, e),
    match e with
    | finalized at_ t d =>
        assignProperty k (mkFileEntry (Some t) (Some at_) (if d then Some true else None)) o
    | pending _ _ => o
    end) st [].

Section ledger.
Context (localeCompare : string → string → Z).

(** ** Compaction *)

Definition expired (ttl now : Z) (e : LedgerState) : bool := isFinalized e && (ttl <? now - createdAtOf e).

Definition compactExpired (now : Z) (l : Ledger) : nat * Ledger :=
  let removed := countb (λ '(_, e), expired (ttlMs l) now e) (state l) in
  (removed,
   {| l with state := List.filter (λ '(_, e), negb (expired (ttlMs l) now e)) (state l);
             expiredTotal := expiredTotal l + Z.of_nat removed |}).

Definition byAge (a b : string * LedgerState) : Z :=
  if createdAtOf a.2 =? createdAtOf b.2 then localeCompare a.1 b.1
  else createdAtOf a.2 - createdAtOf b.2.

Definition finalizedEntries (l : Ledger) : list (string * LedgerState) :=
  List.filter (λ '(_, e), isFinalized e) (state l).

Definition compactBySize (l : Ledger) : nat * Ledger :=
  let sorted := sort_by byAge (finalizedEntries l) in
  if Z.of_nat (length (finalizedEntries l)) <=? maxEntries l then (O, l)
  else
    let excess := Z.to_nat (max0 (Z.of_nat (length sorted) - maxEntries l)) in
    let victims := map fst (take excess sorted) in
    (excess,
     {| l with state := mdels victims (state l);
               evictedTotal := evictedTotal l + Z.of_nat excess |}).

(** ** Operations *)

Definition loadEntry (now ttl : Z) (acc : jmap string LedgerState * Z * bool)
    (kv : string * FileEntry) : jmap string LedgerState * Z * bool :=
  let '(st, n, compacted) := acc in
  match isValidEntry kv.2 with
  | None => acc
  | Some e => if ttl <? now - createdAtOf e then (st, n + 1, true) else (mset kv.1 e st, n, compacted)
  end.

(** [load], in a fresh process: a missing or corrupt file is empty. *)
Definition load (now : Z) (l : Ledger) : Ledger :=
  match disk l with
  | None => setState [] l
  | Some f =>
      if negb (f_schemaVersion f =? SCHEMA_VERSION) then setState [] l
      else
        let '(st, n, compacted) :=
          fold_left (loadEntry now (ttlMs l)) (f_entries f) ([], expiredTotal l, false) in
        let l := {| l with state := st; expiredTotal := n |} in
        let '(evicted, l) := compactBySize l in
        if compacted || (0 <? evicted)%nat then enqueueWrite l else l
  end.

(** [now1] is read by the compaction, [now2] stamps the reservation. *)
Definition reserveOrWait (now1 now2 : Z) (key : string) (l : Ledger) : Reservation * Ledger :=
  let '(removed, l) := compactExpired now1 l in
  let l := if (0 <? removed)%nat then enqueueWrite l else l in
  match mget key (state l) with
  | Some (finalized _ t d) => (replay t d, l)
  | Some (pending _ p) => (wait p, l)
  | None =>
      let p := nextPromise l in
      (own now2 p,
       {| l with state := mset key (pending now2 p) (state l); nextPromise := S p |})
  end.

Definition finalize (key : string) (createdAt : Z) (p : promise) (taskId : string) (dup : bool)
    (l : Ledger) : Ledger :=
  let l := setState (mset key (finalized createdAt taskId dup) (state l)) l in
  let '(_, l) := compactBySize l in
  enqueueWrite (resolve p (wok taskId dup) l).

Definition release (key : string) (p : promise) (l : Ledger) : Ledger :=
  resolve p wfailed (setState (mdel key (state l)) l).

Definition clear (key : string) (l : Ledger) : Ledger :=
  if mhas key (state l) then enqueueWrite (setState (mdel key (state l)) l) else l.

Definition configure (ttl max : option Z) (now : Z) (l : Ledger) : Ledger :=
  let l := {| l with ttlMs := orElse (option_map normalizePositiveInteger ttl) (ttlMs l);
                     maxEntries := orElse (option_map normalizePositiveInteger max) (maxEntries l) |} in
  let '(expired, l) := compactExpired now l in
  let '(evicted, l) := compactBySize l in
  if (0 <? expired)%nat || (0 <? evicted)%nat then enqueueWrite l else l.

Record Metrics := mkMetrics {
  m_entryCount : nat;
  m_pendingCount : nat;
  m_maxEntries : Z;
  m_ttlMs : Z;
  m_expiredTotal : Z;
  m_evictedTotal : Z
}.

Definition getMetrics (l : Ledger) : Metrics :=
  mkMetrics (countb (λ '(_, e), isFinalized e) (state l))
    (countb (λ '(_, e), negb (isFinalized e)) (state l))
    (maxEntries l) (ttlMs l) (expiredTotal l) (evictedTotal l).

(** The two halves of [persist]: it takes the snapshot once it holds the lock. *)
Definition persistBegin (l : Ledger) : Ledger :=
  match writing l, queued l with
  | None, S n => {| l with queued := n; writing := Some (snapshot (state l)) |}
  | _, _ => l
  end.

Inductive WriteResult := written | failed_before_rename | failed_after_rename.

Definition persistEnd (r : WriteResult) (l : Ledger) : Ledger :=
  match writing l with
  | None => l
  | Some s =>
      {| l with writing := None;
                disk := (match r with
                         | failed_before_rename => disk l
                         | written | failed_after_rename => Some (mkFile SCHEMA_VERSION s)
                         end);
                lastWriteOk := (match r with written => true | _ => false end) |}
  end.

(** ** The launch loop *)

Definition isReplayableTask (t : Task) : bool :=
  negb (isTerminalStatus (status t)) || (0 <? Z.of_nat (length (sessions t)))
  || isSome (disposition t).

Inductive Reply :=
| launched (taskId : string) (duplicate : bool)
| replayed (taskId : string) (duplicate : bool)
| threw.

(** Where a request is in the loop of [launchTaskIdempotent]. *)
Inductive Client :=
| looping
| owning (createdAtMs : Z) (p : promise)
| waiting (p : promise)
| finished (r : Reply).

(** How [launchTaskCore] ends: with a task, with a disposed task left behind, or
    with nothing. *)
Inductive LaunchOutcome :=
| lo_task (taskId : string) (duplicate : bool)
| lo_disposed (taskId : string)
| lo_threw.

Record System := mkSystem {
  ledger : Ledger;
  clients : jmap nat (string * Client)
}.

Definition canReplay (getTask : string → option Task) (taskId : string) : bool :=
  match getTask taskId with Some t => isReplayableTask t | None => false end.

(** One iteration, up to its first suspension. *)
Definition iterate (now1 now2 : Z) (getTask : string → option Task) (key : string) (l : Ledger) :
    Client * Ledger :=
  let '(r, l) := reserveOrWait now1 now2 key l in
  match r with
  | own t p => (owning t p, l)
  | wait p => (waiting p, l)
  | replay taskId dup =>
      if canReplay getTask taskId then (finished (replayed taskId dup), l)
      else (looping, clear key l)
  end.

(** The owner's launch ends; [getTask] is asked for a disposed task. *)
Definition settle (getTask : string → option Task) (o : LaunchOutcome) (key : string)
    (createdAt : Z) (p : promise) (l : Ledger) : Client * Ledger :=
  match o with
  | lo_task t d => (finished (launched t d), finalize key createdAt p t d l)
  | lo_disposed t =>
      if isSome (getTask t) then (finished threw, finalize key createdAt p t false l)
      else (finished threw, release key p l)
  | lo_threw => (finished threw, release key p l)
  end.

(** A waiter resumes after its promise was resolved. *)
Definition wake (getTask : string → option Task) (o : WaitOutcome) : Client :=
  match o with
  | wok t d => if canReplay getTask t then finished (replayed t d) else looping
  | wfailed => looping
  end.

Inductive event :=
| EArrive (c : nat) (key : string)
| EIterate (c : nat) (now1 now2 : Z) (getTask : string → option Task)
| ESettle (c : nat) (o : LaunchOutcome) (getTask : string → option Task)
| EWake (c : nat) (getTask : string → option Task)
| EConfigure (ttl max : option Z) (now : Z)
| EPersistBegin
| EPersistEnd (r : WriteResult).

Definition putClient (c : nat) (key : string) (x : Client) (l : Ledger) (s : System) : System :=
  mkSystem l (mset c (key, x) (clients s)).

Definition exec (s : System) (e : event) : System :=
  match e with
  | EArrive c key =>
      if mhas c (clients s) then s else putClient c key looping (ledger s) s
  | EIterate c now1 now2 g =>
      match mget c (clients s) with
      | Some (key, looping) =>
          let '(x, l) := iterate now1 now2 g key (ledger s) in putClient c key x l s
      | _ => s
      end
  | ESettle c o g =>
      match mget c (clients s) with
      | Some (key, owning t p) =>
          let '(x, l) := settle g o key t p (ledger s) in putClient c key x l s
      | _ => s
      end
  | EWake c g =>
      match mget c (clients s) with
      | Some (key, waiting p) =>
          match mget p (settled (ledger s)) with
          | Some o => putClient c key (wake g o) (ledger s) s
          | None => s
          end
      | _ => s
      end
  | EConfigure ttl max now => mkSystem (configure ttl max now (ledger s)) (clients s)
  | EPersistBegin => mkSystem (persistBegin (ledger s)) (clients s)
  | EPersistEnd r => mkSystem (persistEnd r (ledger s)) (clients s)
  end.

Definition run (s : System) (es : list event) : System := fold_left exec es s.

Definition boot (l : Ledger) : System := mkSystem l [].

(** ** Compaction keeps what is pending *)

(** The same reservations are pending, and nothing else of the protocol changed. *)
Record Keeps (l l' : Ledger) : Prop := {
  kp_wf : mwf (state l) → mwf (state l');
  kp_pending k t p :
    mwf (state l) → mget k (state l') = Some (pending t p) ↔ mget k (state l) = Some (pending t p);
  kp_settled : settled l' = settled l;
  kp_next : nextPromise l' = nextPromise l
}.

Lemma Keeps_refl l : Keeps l l.
Proof. by split. Qed.

Lemma Keeps_trans l1 l2 l3 : Keeps l1 l2 → Keeps l2 l3 → Keeps l1 l3.
Proof.
  intros [A1 B1 C1 D1] [A2 B2 C2 D2]. split; [auto| |congruence|congruence].
  intros k t p Hwf. rewrite B2; auto.
Qed.

Lemma Keeps_enqueue l l' : Keeps l l' → Keeps l (enqueueWrite l').
Proof. intros [A B C D]. by split. Qed.

Lemma compactExpired_keeps now l : Keeps l (snd (compactExpired now l)).
Proof.
  unfold compactExpired. split; simpl; try done.
  - apply mwf_filter.
  - intros k t p Hwf. rewrite mget_filter by done.
    destruct (mget k (state l)) as [[t0 p0|t0 i d]|]; unfold expired; simpl; [done| |done].
    by destruct (ttlMs l <? now - t0).
Qed.

(** The entries size compaction removes. *)
Definition victims (l : Ledger) : list string :=
  map fst (take (length (finalizedEntries l) - Z.to_nat (maxEntries l))
             (sort_by byAge (finalizedEntries l))).

Lemma compactBySize_eq l :
  0 ≤ maxEntries l →
  state (snd (compactBySize l)) = mdels (victims l) (state l) ∧
  fst (compactBySize l) = (length (finalizedEntries l) - Z.to_nat (maxEntries l))%nat ∧
  evictedTotal (snd (compactBySize l)) = evictedTotal l + Z.of_nat (fst (compactBySize l)).
Proof.
  intros Hm. unfold compactBySize, victims. rewrite length_sort_by.
  destruct (Z.of_nat (length (finalizedEntries l)) <=? maxEntries l) eqn:E; zbool; simpl.
  - replace (length (finalizedEntries l) - Z.to_nat (maxEntries l))%nat with 0%nat by lia.
    rewrite take_0. split_and!; [done|done|lia].
  - replace (Z.to_nat (max0 (Z.of_nat (length (finalizedEntries l)) - maxEntries l)))
      with (length (finalizedEntries l) - Z.to_nat (maxEntries l))%nat; [done|]. unfold max0. lia.
Qed.

Lemma victims_finalized l k : mwf (state l) → k ∈ victims l → ∃ e, mget k (state l) = Some e ∧ isFinalized e = true.
Proof.
  intros Hwf Hk. unfold victims in Hk. apply list_elem_of_fmap in Hk as ([k' e] & -> & Hin).
  assert (Hs : (k', e) ∈ sort_by byAge (finalizedEntries l)).
  { rewrite <- (take_drop (length (finalizedEntries l) - Z.to_nat (maxEntries l))). apply elem_of_app. by left. }
  apply elem_of_sort_by, list_elem_of_In, filter_In in Hs as [Hin' Hf].
  exists e. split; [|done]. apply elem_of_mget; [done|]. by apply list_elem_of_In.
Qed.

Lemma compactBySize_frame l :
  let l' := snd (compactBySize l) in
  settled l' = settled l ∧ nextPromise l' = nextPromise l ∧ queued l' = queued l ∧
  writing l' = writing l ∧ disk l' = disk l ∧ lastWriteOk l' = lastWriteOk l ∧
  ttlMs l' = ttlMs l ∧ maxEntries l' = maxEntries l ∧ expiredTotal l' = expiredTotal l.
Proof. unfold compactBySize. case_if; simpl; tauto. Qed.

Lemma compactBySize_keeps l : 0 ≤ maxEntries l → Keeps l (snd (compactBySize l)).
Proof.
  intros Hm. destruct (compactBySize_eq l Hm) as (Hs & _ & _).
  destruct (compactBySize_frame l) as (Hf1 & Hf2 & _). split; try done; rewrite Hs.
  - apply mwf_mdels.
  - intros k t p Hwf. rewrite mget_mdels. destruct (decide (k ∈ victims l)) as [Hk|]; [|done].
    destruct (victims_finalized l k Hwf Hk) as (e & -> & He). split; [done|]. intros [= ->]. done.
Qed.

Lemma configure_keeps ttl max now l :
  0 ≤ maxEntries l → Keeps l (configure ttl max now l) ∧ 0 ≤ maxEntries (configure ttl max now l).
Proof.
  intros Hm. unfold configure. cbv zeta. set (l0 := mkLedger _ _ _ _ _ _ _ _ _ _ _).
  assert (Hm0 : 0 ≤ maxEntries l0).
  { unfold l0. simpl. destruct max; simpl; [|done]. unfold normalizePositiveInteger. case_if; lia. }
  assert (H0 : Keeps l l0) by by split.
  pose proof (compactExpired_keeps now l0) as H1. destruct (compactExpired now l0) as [n l1] eqn:E1.
  assert (Hm1 : maxEntries l1 = maxEntries l0) by (unfold compactExpired in E1; by injection E1 as <- <-).
  pose proof (compactBySize_keeps l1) as H2. destruct (compactBySize_frame l1) as (_ & _ & _ & _ & _ & _ & _ & Hm2 & _).
  destruct (compactBySize l1) as [m l2]. cbn [snd] in *. rewrite Hm1 in H2.
  assert (H : Keeps l l2) by (eapply Keeps_trans; [exact H0|]; eapply Keeps_trans; [exact H1|by apply H2]).
  case_if; [split; [by apply Keeps_enqueue|]|split; [done|]]; simpl; lia.
Qed.

(** ** The protocol *)

Lemma clear_keeps key l :
  (∀ t p, mget key (state l) ≠ Some (pending t p)) → Keeps l (clear key l).
Proof.
  intros Hk. unfold clear. case_if; [|apply Keeps_refl]. apply Keeps_enqueue. split; simpl; try done.
  - apply mwf_mdel.
  - intros k t p _. rewrite mget_mdel. destruct (decide (k = key)) as [->|]; [|done].
    split; [done|]. intros H. by apply Hk in H.
Qed.

(** What one iteration does: it joins the ledger as the owner of a free key, or
    leaves the reservations alone. *)
Lemma iterate_spec now1 now2 g key l :
  mwf (state l) →
  let '(x, l') := iterate now1 now2 g key l in
  maxEntries l' = maxEntries l ∧
  ((∃ l1, Keeps l l1 ∧ mget key (state l1) = None ∧ x = owning now2 (nextPromise l) ∧
     state l' = mset key (pending now2 (nextPromise l)) (state l1) ∧
     nextPromise l' = S (nextPromise l) ∧ settled l' = settled l) ∨
   (Keeps l l' ∧ ((∃ t p, x = waiting p ∧ mget key (state l) = Some (pending t p)) ∨
                  (∃ i d, x = finished (replayed i d)) ∨ x = looping))).
Proof.
  intros Hwf. unfold iterate, reserveOrWait. pose proof (compactExpired_keeps now1 l) as H1.
  destruct (compactExpired now1 l) as [n l0] eqn:E0. cbn [snd] in H1.
  assert (Hm0 : maxEntries l0 = maxEntries l) by (unfold compactExpired in E0; by injection E0 as <- <-).
  set (l1 := if (0 <? n)%nat then enqueueWrite l0 else l0).
  assert (Hk1 : Keeps l l1) by (unfold l1; case_if; [by apply Keeps_enqueue|done]).
  assert (Hm1 : maxEntries l1 = maxEntries l) by (unfold l1; case_if; done).
  destruct (mget key (state l1)) as [[t p|t i d]|] eqn:Eg.
  - split; [done|]. right. split; [done|]. left. exists t, p. split; [done|].
    by apply (kp_pending _ _ Hk1).
  - destruct (canReplay g i).
    + split; [done|]. right. split; [done|]. right. left. by eexists _, _.
    + split; [unfold clear; case_if; done|]. right. split; [|tauto].
      eapply Keeps_trans; [exact Hk1|]. apply clear_keeps. intros t' p'. by rewrite Eg.
  - split; [done|]. left. exists l1. rewrite (kp_next _ _ Hk1). simpl. rewrite (kp_settled _ _ Hk1).
    split_and!; done.
Qed.

Definition resolvedBy (p : promise) (l l' : Ledger) : Prop :=
  is_Some (mget p (settled l')) ∧ ∀ q, q ≠ p → mget q (settled l') = mget q (settled l).

Lemma resolve_spec p o l :
  state (resolve p o l) = state l ∧ nextPromise (resolve p o l) = nextPromise l ∧
  maxEntries (resolve p o l) = maxEntries l ∧ resolvedBy p l (resolve p o l).
Proof.
  unfold resolve, resolvedBy. destruct (mget p (settled l)) eqn:E; simpl.
  - split_and!; try done; by eexists.
  - split_and!; try done; [rewrite mget_mset_eq; by eexists|]. intros q Hq. by apply mget_mset_ne.
Qed.

(** The end of a launch resolves the owner's promise and frees the key. *)
Lemma settle_spec g o key t p l :
  mwf (state l) → 0 ≤ maxEntries l →
  let '(x, l') := settle g o key t p l in
  (∃ r, x = finished r) ∧ mwf (state l') ∧ maxEntries l' = maxEntries l ∧
  nextPromise l' = nextPromise l ∧ resolvedBy p l l' ∧
  ∀ k t' q, mget k (state l') = Some (pending t' q) ↔
            k ≠ key ∧ mget k (state l) = Some (pending t' q).
Proof.
  intros Hwf Hm.
  assert (Hfin : ∀ i d, let l' := finalize key t p i d l in
    mwf (state l') ∧ maxEntries l' = maxEntries l ∧ nextPromise l' = nextPromise l ∧ resolvedBy p l l' ∧
    ∀ k t' q, mget k (state l') = Some (pending t' q) ↔ k ≠ key ∧ mget k (state l) = Some (pending t' q)).
  { intros i d. unfold finalize. cbv zeta. set (l0 := setState _ l).
    assert (Hwf0 : mwf (state l0)) by (unfold l0; simpl; by apply mwf_mset).
    pose proof (compactBySize_keeps l0 Hm) as Hk.
    destruct (compactBySize_frame l0) as (Hf1 & Hf2 & _ & _ & _ & _ & _ & Hf3 & _).
    destruct (compactBySize l0) as [n l1]. cbn [snd] in *.
    destruct (resolve_spec p (wok i d) l1) as (R1 & R2 & R3 & R4 & R5). cbn [enqueueWrite state maxEntries nextPromise].
    unfold resolvedBy. cbn [settled enqueueWrite]. rewrite R1, R2, R3.
    split_and!; [by apply Hk|by rewrite Hf3|by rewrite Hf2|done|intros q Hq; rewrite R5, Hf1 by done; done|].
    intros k t' q. rewrite (kp_pending _ _ Hk k t' q Hwf0). unfold l0. simpl. rewrite mget_mset.
    destruct (decide (k = key)) as [->|]; [split; [done|by intros [? _]]|tauto]. }
  assert (Hrel : let l' := release key p l in
    mwf (state l') ∧ maxEntries l' = maxEntries l ∧ nextPromise l' = nextPromise l ∧ resolvedBy p l l' ∧
    ∀ k t' q, mget k (state l') = Some (pending t' q) ↔ k ≠ key ∧ mget k (state l) = Some (pending t' q)).
  { unfold release. cbv zeta. set (l0 := setState _ l).
    destruct (resolve_spec p wfailed l0) as (R1 & R2 & R3 & R4 & R5). unfold resolvedBy. rewrite R1, R2, R3.
    split_and!; [unfold l0; simpl; by apply mwf_mdel|done|done|done|done|].
    intros k t' q. unfold l0. simpl. rewrite mget_mdel.
    destruct (decide (k = key)) as [->|]; [split; [done|by intros [? _]]|tauto]. }
  unfold settle. destruct o as [i d|i|]; [|destruct (isSome (g i))|];
    (split; [by eexists|]); first [apply Hfin|apply Hrel].
Qed.

(** The invariant of the protocol. *)
Record Inv (s : System) : Prop := {
  inv_wf : mwf (state (ledger s)) ∧ 0 ≤ maxEntries (ledger s);
  inv_owner c key t p :
    mget c (clients s) = Some (key, owning t p) →
    mget key (state (ledger s)) = Some (pending t p) ∧ mget p (settled (ledger s)) = None;
  inv_pending key t p :
    mget key (state (ledger s)) = Some (pending t p) →
    (p < nextPromise (ledger s))%nat ∧ ∃ c, mget c (clients s) = Some (key, owning t p);
  inv_unique c1 c2 k1 k2 t1 t2 p :
    mget c1 (clients s) = Some (k1, owning t1 p) → mget c2 (clients s) = Some (k2, owning t2 p) →
    c1 = c2;
  inv_wait c key p :
    mget c (clients s) = Some (key, waiting p) →
    is_Some (mget p (settled (ledger s))) ∨ ∃ t, mget key (state (ledger s)) = Some (pending t p);
  inv_settled p : is_Some (mget p (settled (ledger s))) → (p < nextPromise (ledger s))%nat
}.

(** A step that keeps the reservations and makes no owner. *)
Lemma Inv_keeps s c key x l' :
  Inv s → Keeps (ledger s) l' → 0 ≤ maxEntries l' →
  (∀ t p, mget c (clients s) ≠ Some (key, owning t p)) →
  (∀ k t p, mget c (clients s) = Some (k, owning t p) → k = key) →
  (∀ t p, x ≠ owning t p) →
  (∀ p, x = waiting p → ∃ t, mget key (state (ledger s)) = Some (pending t p)) →
  Inv (putClient c key x l' s).
Proof.
  intros [[A A'] B C D E F] [K1 K2 K3 K4] Hm Hc Hc' Hx Hw.
  assert (Hput : ∀ c0 k t p, mget c0 (mset c (key, x) (clients s)) = Some (k, owning t p) →
            mget c0 (clients s) = Some (k, owning t p)).
  { intros c0 k t p. rewrite mget_mset. destruct (decide (c0 = c)); [|done]. intros [= -> ->]. by destruct (Hx t p). }
  split; simpl.
  - split; auto.
  - intros c0 k t p H%Hput. destruct (B _ _ _ _ H) as [B1 B2]. rewrite K3. split; [|done]. by apply K2.
  - intros k t p H%K2; [|done]. rewrite K4. destruct (C _ _ _ H) as [C1 [c0 C2]]. split; [done|].
    exists c0. rewrite mget_mset. destruct (decide (c0 = c)) as [->|]; [|done].
    exfalso. assert (k = key) as -> by by eapply Hc'. by eapply Hc.
  - intros c1 c2 k1 k2 t1 t2 p H1%Hput H2%Hput. by eapply D.
  - intros c0 k p. rewrite mget_mset, K3. destruct (decide (c0 = c)) as [->|].
    + intros [= -> ->]. right. destruct (Hw p eq_refl) as [t Ht]. exists t. by apply K2.
    + intros H. destruct (E _ _ _ H) as [?|[t Ht]]; [by left|right]. exists t. by apply K2.
  - intros p. rewrite K3, K4. apply F.
Qed.

Lemma Inv_iterate s c key now1 now2 g :
  Inv s → mget c (clients s) = Some (key, looping) →
  Inv (let '(x, l) := iterate now1 now2 g key (ledger s) in putClient c key x l s).
Proof.
  intros Hs Hc. pose proof Hs as [[A A'] B C D E F].
  pose proof (iterate_spec now1 now2 g key (ledger s) A) as Hi.
  destruct (iterate now1 now2 g key (ledger s)) as [x l']. destruct Hi as [Hm [Hi|[Hk Hx]]].
  - destruct Hi as (l1 & [K1 K2 K3 K4] & Hfree & -> & Hst & Hn & Hse).
    set (p := nextPromise (ledger s)) in *.
    assert (Hpend : ∀ k t q, mget k (state l') = Some (pending t q) ↔
      (k = key ∧ t = now2 ∧ q = p) ∨ (k ≠ key ∧ mget k (state (ledger s)) = Some (pending t q))).
    { intros k t q. rewrite Hst, mget_mset. destruct (decide (k = key)) as [->|Hn'].
      - split; [intros [= <- <-]; by left|]. intros [(_ & -> & ->)|[? _]]; done.
      - rewrite K2 by done. split; [by right|]. by intros [[? _]|[_ ?]]. }
    assert (Hnone : ∀ t q, mget key (state (ledger s)) ≠ Some (pending t q)).
    { intros t q Hq. apply K2 in Hq; [|done]. by rewrite Hfree in Hq. }
    assert (Hold : ∀ c0 k t q, mget c0 (clients s) = Some (k, owning t q) → q ≠ p ∧ k ≠ key).
    { intros c0 k t q H. destruct (B _ _ _ _ H) as [B1 _]. destruct (C _ _ _ B1) as [C1 _].
      split; [unfold p; lia|]. intros ->. by eapply Hnone. }
    split; simpl.
    + split; [rewrite Hst; by apply mwf_mset, K1|lia].
    + intros c0 k t q. rewrite mget_mset, Hse. destruct (decide (c0 = c)) as [->|].
      * intros [= <- <- <-]. split; [apply Hpend; by left|].
        destruct (mget p (settled (ledger s))) eqn:Eq; [|done].
        assert (p < nextPromise (ledger s))%nat by (apply F; by eexists). unfold p in *. lia.
      * intros H. destruct (Hold _ _ _ _ H) as [_ Hk]. destruct (B _ _ _ _ H) as [B1 B2].
        split; [|done]. apply Hpend. by right.
    + intros k t q Hq. apply Hpend in Hq as [(-> & -> & ->)|[Hk Hq]].
      * rewrite Hn. split; [lia|]. exists c. by rewrite mget_mset_eq.
      * destruct (C _ _ _ Hq) as [C1 [c0 C2]]. rewrite Hn. split; [unfold p; lia|].
        exists c0. rewrite mget_mset_ne; [done|]. intros ->. by rewrite Hc in C2.
    + intros c1 c2 k1 k2 t1 t2 q. rewrite !mget_mset.
      destruct (decide (c1 = c)) as [->|], (decide (c2 = c)) as [->|]; try done.
      * intros [= <- <- <-] H. by destruct (Hold _ _ _ _ H) as [? _].
      * intros H [= <- <- <-]. by destruct (Hold _ _ _ _ H) as [? _].
      * apply D.
    + intros c0 k q. rewrite mget_mset, Hse. destruct (decide (c0 = c)) as [->|]; [done|].
      intros H. destruct (E _ _ _ H) as [?|[t Ht]]; [by left|right]. exists t. apply Hpend. right.
      split; [|done]. intros ->. by eapply Hnone.
    + intros q. rewrite Hse, Hn. intros Hq. specialize (F q Hq). unfold p. lia.
  - apply Inv_keeps; try done; try lia.
    + intros t p. by rewrite Hc.
    + intros k t p. by rewrite Hc.
    + intros t p ->. destruct Hx as [(? & ? & [=] & _)|[(? & ? & [=])|[=]]].
    + intros p ->. destruct Hx as [(t & q & [= <-] & Hq)|[(? & ? & [=])|[=]]]. by exists t.
Qed.

Lemma Inv_settle s c key t p g o :
  Inv s → mget c (clients s) = Some (key, owning t p) →
  Inv (let '(x, l) := settle g o key t p (ledger s) in putClient c key x l s).
Proof.
  intros Hs Hc. pose proof Hs as [[A A'] B C D E F].
  pose proof (settle_spec g o key t p (ledger s) A A') as Hi.
  destruct (settle g o key t p (ledger s)) as [x l'].
  destruct Hi as ([r ->] & Hwf & Hm & Hn & [Hr1 Hr2] & Hp).
  assert (Hput : ∀ c0 k t' q, mget c0 (mset c (key, finished r) (clients s)) = Some (k, owning t' q) →
            mget c0 (clients s) = Some (k, owning t' q) ∧ q ≠ p ∧ k ≠ key).
  { intros c0 k t' q. rewrite mget_mset. destruct (decide (c0 = c)) as [->|Hne]; [done|]. intros H.
    split; [done|]. assert (Hq : q ≠ p) by (intros ->; apply Hne; by eapply D). split; [done|].
    intros ->. destruct (B _ _ _ _ H) as [B1 _], (B _ _ _ _ Hc) as [B1' _]. congruence. }
  split; simpl.
  - split; [done|lia].
  - intros c0 k t' q (H & Hq & Hk)%Hput. destruct (B _ _ _ _ H) as [B1 B2].
    split; [by apply Hp|]. by rewrite Hr2.
  - intros k t' q [Hk H]%Hp. destruct (C _ _ _ H) as [C1 [c0 C2]]. rewrite Hn. split; [done|].
    exists c0. rewrite mget_mset_ne; [done|]. intros ->. rewrite Hc in C2. by injection C2 as -> _ _.
  - intros c1 c2 k1 k2 t1 t2 q (H1 & _)%Hput (H2 & _)%Hput. by eapply D.
  - intros c0 k q. rewrite mget_mset. destruct (decide (c0 = c)) as [->|]; [done|]. intros H.
    destruct (decide (q = p)) as [->|Hq]; [by left|]. destruct (E _ _ _ H) as [?|[t' Ht]].
    + left. by rewrite Hr2.
    + destruct (decide (k = key)) as [->|Hk]; [|right; exists t'; by apply Hp].
      destruct (B _ _ _ _ Hc) as [B1 _]. rewrite B1 in Ht. by injection Ht as -> ->.
  - intros q Hq. rewrite Hn. destruct (decide (q = p)) as [->|Hne].
    + destruct (B _ _ _ _ Hc) as [B1 _]. by destruct (C _ _ _ B1).
    + rewrite Hr2 in Hq by done. by apply F.
Qed.

Lemma Inv_ledger s l' :
  Inv s → Keeps (ledger s) l' → 0 ≤ maxEntries l' → Inv (mkSystem l' (clients s)).
Proof.
  intros [[A A'] B C D E F] [K1 K2 K3 K4] Hm. split; simpl.
  - split; auto.
  - intros c0 k t p H. destruct (B _ _ _ _ H) as [B1 B2]. rewrite K3. split; [|done]. by apply K2.
  - intros k t p H%K2; [|done]. rewrite K4. by apply C.
  - done.
  - intros c0 k p H. rewrite K3. destruct (E _ _ _ H) as [?|[t Ht]]; [by left|right].
    exists t. by apply K2.
  - intros p. rewrite K3, K4. apply F.
Qed.

Lemma SysInv_exec s e : Inv s → Inv (exec s e).
Proof.
  intros Hs. pose proof Hs as [[A A'] _ _ _ _ _]. destruct e as [c key|c n1 n2 g|c o g|c g|ttl mx now| |r]; simpl.
  - unfold mhas. destruct (mget c (clients s)) eqn:E; simpl; [done|].
    apply Inv_keeps; try done; first [apply Keeps_refl|intros; congruence].
  - destruct (mget c (clients s)) as [[key [|t p|p|r]]|] eqn:E; try done. by apply Inv_iterate.
  - destruct (mget c (clients s)) as [[key [|t p|p|r]]|] eqn:E; try done. by apply Inv_settle.
  - destruct (mget c (clients s)) as [[key [|t p|p|r]]|] eqn:E; try done.
    destruct (mget p (settled (ledger s))) as [o|]; [|done].
    apply Inv_keeps; try done; 
      first [apply Keeps_refl|intros; congruence|unfold wake; intros; by repeat case_match].
  - destruct (configure_keeps ttl mx now (ledger s) A') as [Hk Hm]. by apply Inv_ledger.
  - apply Inv_ledger; [done| |]; unfold persistBegin; destruct (writing (ledger s)), (queued (ledger s));
      first [apply Keeps_refl|done|by split].
  - apply Inv_ledger; [done| |]; unfold persistEnd; destruct (writing (ledger s));
      first [apply Keeps_refl|done|by split].
Qed.

Lemma SysInv_run s es : Inv s → Inv (run s es).
Proof.
  revert s. induction es as [|e es IH]; intros s Hs; [done|]. cbn [run fold_left]. by apply IH, SysInv_exec.
Qed.

(** A process starts with no reservation. *)
Lemma loadEntry_finalized now ttl es acc :
  mwf acc.1.1 ∧ (∀ k e, mget k acc.1.1 = Some e → isFinalized e = true) →
  let r := fold_left (loadEntry now ttl) es acc in
  mwf r.1.1 ∧ (∀ k e, mget k r.1.1 = Some e → isFinalized e = true).
Proof.
  revert acc. induction es as [|[k v] es IH]; intros acc Ha; [done|]. cbn [fold_left].
  apply IH. destruct acc as [[st n] b], Ha as [H1 H2]. unfold loadEntry. simpl.
  destruct (isValidEntry v) as [e|] eqn:E; [|done]. destruct (ttl <? now - createdAtOf e); [done|].
  simpl. split; [by apply mwf_mset|]. intros k' e'. rewrite mget_mset.
  destruct (decide (k' = k)); [|apply H2]. intros [= <-]. unfold isValidEntry in E.
  by repeat (case_match; simplify_eq/=).
Qed.

Lemma newLedger_max ttl mx d : 0 ≤ maxEntries (newLedger ttl mx d).
Proof. unfold newLedger, normalizePositiveInteger. simpl. case_if; lia. Qed.

Lemma Inv_quiet l :
  mwf (state l) → 0 ≤ maxEntries l → (∀ k t p, mget k (state l) ≠ Some (pending t p)) →
  settled l = [] → Inv (boot l).
Proof.
  intros Hwf Hm Hn Hs. split; simpl; try done.
  - intros k t p H. by apply Hn in H.
  - rewrite Hs. intros p [? ?]. done.
Qed.

Lemma load_noPending now ttl mx d :
  let l := load now (newLedger ttl mx d) in
  mwf (state l) ∧ 0 ≤ maxEntries l ∧ (∀ k t p, mget k (state l) ≠ Some (pending t p)) ∧
  settled l = [] ∧ nextPromise l = 0%nat.
Proof.
  pose proof (newLedger_max ttl mx d) as Hm0. unfold load. set (l0 := newLedger ttl mx d) in *.
  assert (Hempty : let l := setState [] l0 in mwf (state l) ∧ 0 ≤ maxEntries l ∧
    (∀ k t p, mget k (state l) ≠ Some (pending t p)) ∧ settled l = [] ∧ nextPromise l = 0%nat)
    by (split_and!; simpl; try done; apply mwf_nil).
  destruct (disk l0) as [f|]; [|done]. case_if; [done|].
  pose proof (loadEntry_finalized now (ttlMs l0) (f_entries f) ([], expiredTotal l0, false)) as Hl.
  destruct (fold_left _ _ _) as [[st n] b]. simpl in Hl.
  destruct Hl as [H1 H2]; [split; [apply mwf_nil|done]|].
  set (l1 := mkLedger _ _ _ _ _ _ _ _ _ _ _).
  pose proof (compactBySize_keeps l1 Hm0) as Hk.
  destruct (compactBySize_frame l1) as (F1 & F2 & _ & _ & _ & _ & _ & F3 & _).
  destruct (compactBySize l1) as [ev l2]. cbn [snd] in *.
  assert (H : mwf (state l2) ∧ 0 ≤ maxEntries l2 ∧ (∀ k t p, mget k (state l2) ≠ Some (pending t p)) ∧
    settled l2 = [] ∧ nextPromise l2 = 0%nat).
  { split_and!; [by apply Hk|by rewrite F3| |by rewrite F1|by rewrite F2].
    intros k t p Hp. apply Hk in Hp; [|done]. simpl in Hp. by apply H2 in Hp. }
  case_if; [|done]. done.
Qed.

Lemma SysInv_boot now ttl mx d : Inv (boot (load now (newLedger ttl mx d))).
Proof.
  destruct (load_noPending now ttl mx d) as (H1 & H2 & H3 & H4 & _). by apply Inv_quiet.
Qed.

(** ** The bound *)

Definition bounded (l : Ledger) : Prop := Z.of_nat (length (finalizedEntries l)) ≤ maxEntries l.

Lemma finalized_keys l : mwf (state l) → NoDup (map fst (sort_by byAge (finalizedEntries l))).
Proof.
  intros Hwf. rewrite sort_by_perm. apply (mwf_filter (λ '(_, e), isFinalized e)) in Hwf. exact Hwf.
Qed.

Lemma finalized_mdels ks l :
  finalizedEntries (setState (mdels ks (state l)) l) =
    List.filter (λ q, negb (bool_decide (q.1 ∈ ks))) (finalizedEntries l).
Proof.
  unfold finalizedEntries. simpl. rewrite mdels_filter, !filter_filter. apply filter_ext.
  intros [k e]. apply andb_comm.
Qed.

(** What size compaction keeps is what comes after the victims in the order. *)
Lemma compactBySize_bounded l :
  mwf (state l) → 0 ≤ maxEntries l → bounded (snd (compactBySize l)).
Proof.
  intros Hwf Hm. destruct (compactBySize_eq l Hm) as (Hs & _ & _).
  destruct (compactBySize_frame l) as (_ & _ & _ & _ & _ & _ & _ & Hm' & _).
  unfold bounded. rewrite Hm'. unfold finalizedEntries at 1. rewrite Hs.
  change (List.filter _ (mdels (victims l) (state l)))
    with (finalizedEntries (setState (mdels (victims l) (state l)) l)).
  rewrite finalized_mdels.
  change (length (List.filter ?p ?x)) with (countb p x).
  rewrite <- (countb_perm _ _ _ (sort_by_perm byAge (finalizedEntries l))).
  unfold victims. set (e := (length (finalizedEntries l) - Z.to_nat (maxEntries l))%nat).
  set (srt := sort_by byAge (finalizedEntries l)).
  assert (Hlen : length srt = length (finalizedEntries l)) by apply length_sort_by.
  rewrite <- (take_drop e srt) at 1. rewrite countb_app, countb_Forall_not.
  - pose proof (countb_length (λ q, negb (bool_decide (q.1 ∈ map fst (take e srt)))) (drop e srt)) as Hc.
    rewrite length_drop in Hc. simpl. unfold e in *. lia.
  - apply Forall_forall. intros q Hq. apply negb_false_iff, bool_decide_eq_true.
    by apply list_elem_of_fmap_2.
Qed.

Lemma bounded_sub l l' :
  (length (finalizedEntries l') ≤ length (finalizedEntries l))%nat → maxEntries l' = maxEntries l →
  bounded l → bounded l'.
Proof. unfold bounded. lia. Qed.

Lemma length_filter_mono {A} (p q : A → bool) l :
  (length (List.filter p (List.filter q l)) ≤ length (List.filter p l))%nat.
Proof.
  rewrite filter_filter. apply (countb_le (λ x, q x && p x) p). intros x _ H.
  by apply andb_true_iff in H as [_ ?].
Qed.

Lemma finalized_mdel_le (key : string) (st : jmap string LedgerState) :
  (length (List.filter (λ '(_, e), isFinalized e) (mdel key st)) ≤
   length (List.filter (λ '(_, e), isFinalized e) st))%nat.
Proof. rewrite mdel_filter. apply length_filter_mono. Qed.

Lemma clear_bounded key l : bounded l → bounded (clear key l).
Proof.
  intros Hb. unfold clear. case_if; [|done]. apply (bounded_sub l); [|reflexivity|exact Hb].
  apply finalized_mdel_le.
Qed.

Lemma iterate_bounded now1 now2 g key l : bounded l → bounded (snd (iterate now1 now2 g key l)).
Proof.
  intros Hb. unfold iterate, reserveOrWait. destruct (compactExpired now1 l) as [n l0] eqn:E0.
  assert (H0 : bounded l0).
  { unfold compactExpired in E0. injection E0 as <- <-.
    apply (bounded_sub l); [|reflexivity|exact Hb]. apply length_filter_mono. }
  set (l1 := if (0 <? n)%nat then enqueueWrite l0 else l0).
  assert (H1 : bounded l1) by (unfold l1; case_if; done).
  destruct (mget key (state l1)) as [[t p|t i d]|] eqn:Eg; [done| |].
  - destruct (canReplay g i); [done|]. simpl. by apply clear_bounded.
  - simpl. unfold bounded, finalizedEntries in *. simpl.
    rewrite mset_fresh, List.filter_app by done. simpl. by rewrite app_nil_r.
Qed.

Lemma settle_bounded g o key t p l :
  mwf (state l) → 0 ≤ maxEntries l → bounded l → bounded (snd (settle g o key t p l)).
Proof.
  intros Hwf Hm Hb.
  assert (Hfin : ∀ i d, bounded (finalize key t p i d l)).
  { intros i d. unfold finalize. set (l0 := setState _ l).
    pose proof (compactBySize_bounded l0) as Hc. destruct (compactBySize l0) as [n l1]. cbn [snd] in Hc.
    assert (H1 : bounded l1) by (apply Hc; [unfold l0; simpl; by apply mwf_mset|done]).
    unfold resolve. destruct (mget p (settled l1)); exact H1. }
  assert (Hrel : bounded (release key p l)).
  { unfold release, resolve. apply (bounded_sub l); [| |exact Hb].
    - case_match; apply finalized_mdel_le.
    - case_match; done. }
  unfold settle. destruct o as [i d|i|]; [apply Hfin|destruct (isSome (g i)); [apply Hfin|]|]; exact Hrel.
Qed.

Lemma configure_bounded ttl mx now l :
  mwf (state l) → 0 ≤ maxEntries l → bounded (configure ttl mx now l).
Proof.
  intros Hwf Hm. unfold configure. cbv zeta. set (l0 := mkLedger _ _ _ _ _ _ _ _ _ _ _).
  assert (Hm0 : 0 ≤ maxEntries l0).
  { unfold l0. simpl. destruct mx; simpl; [|done]. unfold normalizePositiveInteger. case_if; lia. }
  destruct (compactExpired now l0) as [n l1] eqn:E1.
  assert (H1 : mwf (state l1) ∧ 0 ≤ maxEntries l1).
  { unfold compactExpired in E1. injection E1 as <- <-. simpl. split; [|done]. by apply mwf_filter. }
  pose proof (compactBySize_bounded l1 (proj1 H1) (proj2 H1)) as Hb.
  destruct (compactBySize l1) as [m l2]. cbn [snd] in Hb. case_if; exact Hb.
Qed.

Lemma exec_retention s e : Inv s → bounded (ledger s) → bounded (ledger (exec s e)).
Proof.
  intros Hs Hb. pose proof Hs as [[A A'] _ _ _ _ _]. destruct e as [c key|c n1 n2 g|c o g|c g|ttl mx now| |r]; simpl.
  - by destruct (mhas c (clients s)).
  - destruct (mget c (clients s)) as [[key [|t p|p|r]]|] eqn:E; try done.
    pose proof (iterate_bounded n1 n2 g key _ Hb) as H. by destruct (iterate n1 n2 g key (ledger s)).
  - destruct (mget c (clients s)) as [[key [|t p|p|r]]|] eqn:E; try done.
    pose proof (settle_bounded g o key t p _ A A' Hb) as H. by destruct (settle g o key t p (ledger s)).
  - destruct (mget c (clients s)) as [[key [|t p|p|r]]|] eqn:E; try done.
    by destruct (mget p (settled (ledger s))).
  - by apply configure_bounded.
  - unfold persistBegin. by destruct (writing (ledger s)), (queued (ledger s)).
  - unfold persistEnd. by destruct (writing (ledger s)).
Qed.

Lemma load_bounded now ttl mx d : bounded (load now (newLedger ttl mx d)).
Proof.
  pose proof (newLedger_max ttl mx d) as Hm0. unfold load. set (l0 := newLedger ttl mx d) in *.
  assert (Hempty : bounded (setState [] l0)) by (unfold bounded; simpl; done).
  destruct (disk l0) as [f|]; [|done]. case_if; [done|].
  pose proof (loadEntry_finalized now (ttlMs l0) (f_entries f) ([], expiredTotal l0, false)) as Hl.
  destruct (fold_left _ _ _) as [[st n] b]. simpl in Hl.
  destruct Hl as [H1 _]; [split; [apply mwf_nil|done]|].
  set (l1 := mkLedger _ _ _ _ _ _ _ _ _ _ _).
  pose proof (compactBySize_bounded l1 H1 Hm0) as Hb.
  destruct (compactBySize l1) as [ev l2]. cbn [snd] in Hb. case_if; exact Hb.
Qed.

Lemma run_retention s es : Inv s → bounded (ledger s) → bounded (ledger (run s es)).
Proof.
  revert s. induction es as [|e es IH]; intros s Hs Hb; [done|]. cbn [run fold_left].
  apply IH; [by apply SysInv_exec|by apply exec_retention].
Qed.

(** ** The file *)

Definition fileRow (kv : string * LedgerState) : string * FileEntry :=
  match kv.2 with
  | finalized t i d => (kv.1, mkFileEntry (Some i) (Some t) (if d then Some true else None))
  | pending _ _ => (kv.1, mkFileEntry None None None)
  end.

Definition persistable (kv : string * LedgerState) : bool :=
  isFinalized kv.2 && negb (String.eqb kv.1 "__proto__").

Lemma fileRow_keys l : mkeys (map fileRow l) = mkeys l.
Proof. unfold mkeys. induction l as [|[k [t p|t i d]] l IH]; [done| |]; cbn; by f_equal. Qed.

Lemma snapshot_rows st : mwf st → snapshot st = map fileRow (List.filter persistable st).
Proof.
  intros Hwf. assert (H : ∀ acc, fold_left (λ o '(k, e),
      match e with
      | finalized at_ t d =>
          assignProperty k (mkFileEntry (Some t) (Some at_) (if d then Some true else None)) o
      | pending _ _ => o
      end) st acc = mimport (map fileRow (List.filter persistable st)) acc).
  { clear Hwf. induction st as [|[k [t p|t i d]] st IH]; intros acc; [done| |].
    - apply IH.
    - cbn [fold_left]. rewrite IH. unfold persistable, assignProperty. cbn [List.filter isFinalized fst snd andb].
      by destruct (String.eqb k "__proto__"). }
  unfold snapshot. rewrite H. apply mimport_roundtrip. unfold mwf. rewrite fileRow_keys.
  by apply mwf_filter.
Qed.

(** What a reload at [now] keeps of a row. *)
Definition survives (ttl now : Z) (kv : string * LedgerState) : bool :=
  match kv.2 with
  | finalized t i _ => negb (String.eqb i "") && negb (ttl <? now - t)
  | pending _ _ => false
  end.

Lemma load_rows now ttl st acc :
  Forall (λ kv, isFinalized kv.2 = true) st →
  (fold_left (loadEntry now ttl) (map fileRow st) acc).1.1 =
    mimport (List.filter (survives ttl now) st) acc.1.1.
Proof.
  intros Hst. revert acc. induction Hst as [|[k [t p|t i d]] st He _ IH]; intros acc; [done|done|].
  cbn [map fold_left]. rewrite IH. destruct acc as [[m n] b]. unfold survives at 2.
  unfold loadEntry, fileRow. cbn [fst snd List.filter].
  unfold isValidEntry. cbn [fe_taskId fe_createdAt fe_duplicate].
  destruct (String.eqb i ""); [done|].
  assert (Hv : (match (if d then Some true else None) with
    | Some true => Some (finalized t i true) | Some false => None | None => Some (finalized t i false) end)
    = Some (finalized t i d)) by by destruct d.
  rewrite Hv. cbn [createdAtOf negb andb]. by destruct (ttl <? now - t).
Qed.

(** The file holds the finalized entries. *)
Definition durable (l : Ledger) : Prop :=
  match disk l with
  | Some f => f = mkFile SCHEMA_VERSION (snapshot (state l))
  | None => snapshot (state l) = []
  end.

(** Every change of the finalized entries has a write coming. *)
Record Writes (l : Ledger) : Prop := {
  wr_idle : writing l = None → queued l = 0%nat → lastWriteOk l = true → durable l;
  wr_busy s : writing l = Some s → queued l = 0%nat → s = snapshot (state l)
}.

Lemma Writes_queued l : queued l ≠ 0%nat → Writes l.
Proof. by split. Qed.

Lemma Writes_same l l' :
  snapshot (state l') = snapshot (state l) → writing l' = writing l → queued l' = queued l →
  disk l' = disk l → lastWriteOk l' = lastWriteOk l → Writes l → Writes l'.
Proof.
  intros Hs Hw Hq Hd Ho [W1 W2]. split.
  - rewrite Hw, Hq, Ho. unfold durable. rewrite Hd, Hs. exact W1.
  - rewrite Hw, Hq, Hs. exact W2.
Qed.

Lemma compactExpired_none now l :
  fst (compactExpired now l) = 0%nat → state (snd (compactExpired now l)) = state l.
Proof.
  unfold compactExpired. simpl. intros H. apply filter_countb_all. rewrite <- H. unfold countb.
  f_equal. apply filter_ext. intros [k e]. apply negb_involutive.
Qed.

Lemma compactBySize_none l :
  0 ≤ maxEntries l → fst (compactBySize l) = 0%nat → state (snd (compactBySize l)) = state l.
Proof.
  intros Hm H0. destruct (compactBySize_eq l Hm) as (Hs & He & _). rewrite Hs.
  unfold victims. rewrite <- He, H0, take_0. done.
Qed.

Lemma iterate_writes now1 now2 g key l : Writes l → Writes (snd (iterate now1 now2 g key l)).
Proof.
  intros Hw. unfold iterate, reserveOrWait. pose proof (compactExpired_none now1 l) as H0.
  destruct (compactExpired now1 l) as [n l0] eqn:E0. cbn [fst snd] in H0.
  assert (Hf : writing l0 = writing l ∧ queued l0 = queued l ∧ disk l0 = disk l ∧ lastWriteOk l0 = lastWriteOk l)
    by (unfold compactExpired in E0; by injection E0 as <- <-).
  set (l1 := if (0 <? n)%nat then enqueueWrite l0 else l0).
  assert (H1 : Writes l1).
  { unfold l1. destruct (Nat.ltb_spec 0 n); [by apply Writes_queued|].
    apply (Writes_same l); try tauto. rewrite H0; [done|lia]. }
  destruct (mget key (state l1)) as [[t p|t i d]|] eqn:Eg; [done| |].
  - destruct (canReplay g i); [done|]. simpl. unfold clear, mhas. rewrite Eg. by apply Writes_queued.
  - simpl. apply (Writes_same l1); try done. simpl. rewrite mset_fresh by done.
    unfold snapshot. by rewrite fold_left_app.
Qed.

Lemma snapshot_release key t p st :
  mwf st → mget key st = Some (pending t p) → snapshot (mdel key st) = snapshot st.
Proof.
  intros Hwf Hk. rewrite !snapshot_rows by auto with kookr. f_equal.
  rewrite mdel_filter, filter_filter. apply filter_ext_in. intros [k e] Hin.
  apply list_elem_of_In in Hin. apply elem_of_mget in Hin; [|done]. cbn [fst].
  destruct (bool_decide_reflect (k = key)) as [->|]; [|done]. rewrite Hk in Hin. by injection Hin as <-.
Qed.

Lemma settle_writes g o key t p l :
  mwf (state l) → mget key (state l) = Some (pending t p) → Writes l →
  Writes (snd (settle g o key t p l)).
Proof.
  intros Hwf Hk Hw.
  assert (Hfin : ∀ i d, Writes (finalize key t p i d l)).
  { intros i d. unfold finalize. destruct (compactBySize _) as [n l1]. by apply Writes_queued. }
  assert (Hrel : Writes (release key p l)).
  { apply (Writes_same l); try done; unfold release, resolve; case_match; try done;
      by eapply snapshot_release. }
  unfold settle. destruct o as [i d|i|]; [apply Hfin|destruct (isSome (g i)); [apply Hfin|]|]; exact Hrel.
Qed.

Lemma configure_writes ttl mx now l : 0 ≤ maxEntries l → Writes l → Writes (configure ttl mx now l).
Proof.
  intros Hm Hw. unfold configure. cbv zeta. set (l0 := mkLedger _ _ _ _ _ _ _ _ _ _ _).
  assert (Hm0 : 0 ≤ maxEntries l0).
  { unfold l0. simpl. destruct mx; simpl; [|done]. unfold normalizePositiveInteger. case_if; lia. }
  pose proof (compactExpired_none now l0) as H1. destruct (compactExpired now l0) as [n l1] eqn:E1.
  cbn [fst snd] in H1.
  assert (Hf : writing l1 = writing l ∧ queued l1 = queued l ∧ disk l1 = disk l ∧ lastWriteOk l1 = lastWriteOk l
    ∧ 0 ≤ maxEntries l1)
    by (unfold compactExpired in E1; by injection E1 as <- <-).
  destruct Hf as (F1 & F2 & F3 & F4 & F5).
  pose proof (compactBySize_none l1 F5) as H2.
  destruct (compactBySize_frame l1) as (_ & _ & G2 & G1 & G3 & G4 & _).
  destruct (compactBySize l1) as [m l2]. cbn [fst snd] in *.
  destruct (Nat.ltb_spec 0 n); [by apply Writes_queued|].
  destruct (Nat.ltb_spec 0 m); [by apply Writes_queued|]. simpl.
  apply (Writes_same l); try congruence. rewrite H2, H1 by lia. done.
Qed.

Lemma exec_writes s e : Inv s → Writes (ledger s) → Writes (ledger (exec s e)).
Proof.
  intros Hs Hw. pose proof Hs as [[A A'] B _ _ _ _]. destruct e as [c key|c n1 n2 g|c o g|c g|ttl mx now| |r]; simpl.
  - by destruct (mhas c (clients s)).
  - destruct (mget c (clients s)) as [[key [|t p|p|r]]|] eqn:E; try done.
    pose proof (iterate_writes n1 n2 g key _ Hw) as H. by destruct (iterate n1 n2 g key (ledger s)).
  - destruct (mget c (clients s)) as [[key [|t p|p|r]]|] eqn:E; try done.
    destruct (B _ _ _ _ E) as [Hp _].
    pose proof (settle_writes g o key t p _ A Hp Hw) as H. by destruct (settle g o key t p (ledger s)).
  - destruct (mget c (clients s)) as [[key [|t p|p|r]]|] eqn:E; try done.
    by destruct (mget p (settled (ledger s))).
  - by apply configure_writes.
  - unfold persistBegin. destruct (writing (ledger s)) eqn:Ew; [done|].
    destruct (queued (ledger s)) eqn:Eq; [done|]. split; simpl; [done|]. by intros s' [= <-].
  - unfold persistEnd. destruct (writing (ledger s)) as [s'|] eqn:Ew; [|done]. destruct Hw as [W1 W2].
    split; simpl; [|done]. intros _ Hq Ho. unfold durable. simpl. destruct r; try done.
    by rewrite (W2 s' Ew Hq).
Qed.

Lemma run_writes s es : Inv s → Writes (ledger s) → Writes (ledger (run s es)).
Proof.
  revert s. induction es as [|e es IH]; intros s Hs Hw; [done|]. cbn [run fold_left].
  apply IH; [by apply SysInv_exec|by apply exec_writes].
Qed.

(** A new process with the same settings. *)
Definition reboot (l : Ledger) : Ledger :=
  mkLedger (ttlMs l) (maxEntries l) [] 0 0 [] 0%nat 0%nat None (disk l) true.

(** ** The replay window of a finalized key *)

(** The events of the window: the clock stays within the entry's life, its task is
    still worth replaying, and the settings stay. *)
Definition calm (ct ttl : Z) (i : string) (e : event) : Prop :=
  match e with
  | EIterate _ now1 _ g => now1 - ct ≤ ttl ∧ canReplay g i = true
  | EConfigure _ _ _ => False
  | _ => True
  end.

Lemma iterate_frame now1 now2 g key l :
  let l' := snd (iterate now1 now2 g key l) in evictedTotal l' = evictedTotal l ∧ ttlMs l' = ttlMs l.
Proof.
  unfold iterate, reserveOrWait. destruct (compactExpired now1 l) as [n l0] eqn:E0.
  assert (H0 : evictedTotal l0 = evictedTotal l ∧ ttlMs l0 = ttlMs l)
    by (unfold compactExpired in E0; by injection E0 as <- <-).
  set (l1 := if (0 <? n)%nat then enqueueWrite l0 else l0).
  assert (H1 : evictedTotal l1 = evictedTotal l ∧ ttlMs l1 = ttlMs l) by (unfold l1; case_if; done).
  destruct (mget key (state l1)) as [[t p|t i d]|]; [done| |done].
  destruct (canReplay g i); [done|]. simpl. unfold clear. by case_if.
Qed.

Lemma settle_frame g o key t p l :
  0 ≤ maxEntries l →
  let l' := snd (settle g o key t p l) in
  evictedTotal l ≤ evictedTotal l' ∧ ttlMs l' = ttlMs l ∧
  (evictedTotal l' = evictedTotal l → ∀ k, k ≠ key → mget k (state l') = mget k (state l)).
Proof.
  intros Hm.
  assert (Hfin : ∀ i d, let l' := finalize key t p i d l in
    evictedTotal l ≤ evictedTotal l' ∧ ttlMs l' = ttlMs l ∧
    (evictedTotal l' = evictedTotal l → ∀ k, k ≠ key → mget k (state l') = mget k (state l))).
  { intros i d. unfold finalize. cbv zeta. set (l0 := setState _ l).
    destruct (compactBySize_eq l0 Hm) as (_ & _ & He). pose proof (compactBySize_none l0 Hm) as Hn.
    destruct (compactBySize_frame l0) as (_ & _ & _ & _ & _ & _ & Ht & _).
    destruct (compactBySize l0) as [n l1]. cbn [fst snd] in *.
    assert (Hr : ∀ o', evictedTotal (enqueueWrite (resolve p o' l1)) = evictedTotal l1 ∧
      ttlMs (enqueueWrite (resolve p o' l1)) = ttlMs l1 ∧ state (enqueueWrite (resolve p o' l1)) = state l1)
      by (intros o'; unfold resolve; by case_match).
    destruct (Hr (wok i d)) as (-> & -> & ->). rewrite Ht, He. simpl.
    split_and!; [lia|done|]. intros Hev k Hk. rewrite Hn by lia. simpl. by apply mget_mset_ne. }
  assert (Hrel : let l' := release key p l in
    evictedTotal l ≤ evictedTotal l' ∧ ttlMs l' = ttlMs l ∧
    (evictedTotal l' = evictedTotal l → ∀ k, k ≠ key → mget k (state l') = mget k (state l))).
  { unfold release, resolve. cbv zeta. case_match; simpl; (split_and!; [lia|done|]); intros _ k Hk;
      by apply mget_mdel_ne. }
  unfold settle. destruct o as [i d|i|]; [apply Hfin|destruct (isSome (g i)); [apply Hfin|]|]; exact Hrel.
Qed.

Lemma iterate_held now1 now2 g key' l key ct i d :
  mwf (state l) → mget key (state l) = Some (finalized ct i d) →
  now1 - ct ≤ ttlMs l → canReplay g i = true →
  mget key (state (snd (iterate now1 now2 g key' l))) = Some (finalized ct i d) ∧
  (key' = key → fst (iterate now1 now2 g key' l) = finished (replayed i d)).
Proof.
  intros Hwf Hk Ht Hg. unfold iterate, reserveOrWait.
  assert (H0 : mget key (state (snd (compactExpired now1 l))) = Some (finalized ct i d)).
  { unfold compactExpired. simpl. rewrite mget_filter, Hk by done. unfold expired. simpl.
    by rewrite (proj2 (Z.ltb_ge _ _)) by lia. }
  destruct (compactExpired now1 l) as [n l0]. cbn [snd] in H0.
  set (l1 := if (0 <? n)%nat then enqueueWrite l0 else l0).
  assert (H1 : mget key (state l1) = Some (finalized ct i d)) by (unfold l1; case_if; done).
  destruct (decide (key' = key)) as [->|Hne].
  - rewrite H1, Hg. done.
  - split; [|done]. destruct (mget key' (state l1)) as [[t p|t j e]|]; [done| |].
    + destruct (canReplay g j); [done|]. simpl. unfold clear. case_if; [|done]. simpl.
      by rewrite mget_mdel_ne by done.
    + simpl. by rewrite mget_mset_ne by done.
Qed.

(** One event of the window. *)
Lemma exec_held s e key ct i d :
  Inv s → mget key (state (ledger s)) = Some (finalized ct i d) → calm ct (ttlMs (ledger s)) i e →
  evictedTotal (ledger s) ≤ evictedTotal (ledger (exec s e)) ∧
  ttlMs (ledger (exec s e)) = ttlMs (ledger s) ∧
  (evictedTotal (ledger (exec s e)) = evictedTotal (ledger s) →
   mget key (state (ledger (exec s e))) = Some (finalized ct i d) ∧
   ∀ c i' d', mget c (clients (exec s e)) = Some (key, finished (launched i' d')) →
              mget c (clients s) = Some (key, finished (launched i' d'))).
Proof.
  intros Hs Hk Hc. pose proof Hs as [[A A'] B _ _ _ _].
  assert (Hput : ∀ c k x l i' d', (∀ i' d', x ≠ finished (launched i' d')) ∨ k ≠ key → ∀ c0,
    mget c0 (clients (putClient c k x l s)) = Some (key, finished (launched i' d')) →
    mget c0 (clients s) = Some (key, finished (launched i' d'))).
  { intros c k x l i' d' Hx c0. simpl. rewrite mget_mset. destruct (decide (c0 = c)); [|done].
    intros [= -> ->]. destruct Hx as [Hx|Hx]; [by destruct (Hx i' d')|done]. }
  destruct e as [c k|c n1 n2 g|c o g|c g|ttl mx now| |r]; simpl in Hc |- *.
  - destruct (mhas c (clients s)); [split_and!; (done || lia)|]. split_and!; [simpl; lia|done|].
    intros _. split; [done|]. intros c0 i' d'. apply (Hput c k looping (ledger s)). by left.
  - destruct (mget c (clients s)) as [[k [|t p|p|r]]|] eqn:E; try (split_and!; (done || lia)).
    destruct (iterate_frame n1 n2 g k (ledger s)) as [F1 F2].
    destruct Hc as [Hc1 Hc2]. destruct (iterate_held n1 n2 g k (ledger s) key ct i d A Hk Hc1 Hc2) as [H1 H2].
    pose proof (iterate_spec n1 n2 g k (ledger s) A) as Hsp.
    destruct (iterate n1 n2 g k (ledger s)) as [x l']. cbn [fst snd] in *. destruct Hsp as [_ Hsp]. simpl.
    split_and!; [lia|done|]. intros _. split; [done|]. intros c0 i' d'. apply (Hput c k x l'). left. intros i1 d1 ->.
    destruct Hsp as [(? & _ & _ & [=] & _)|[_ [(? & ? & [=] & _)|[(? & ? & [=])|[=]]]]].
  - destruct (mget c (clients s)) as [[k [|t p|p|r]]|] eqn:E; try (split_and!; (done || lia)).
    destruct (B _ _ _ _ E) as [Hp _]. assert (Hne : k ≠ key) by (intros ->; congruence).
    destruct (settle_frame g o k t p (ledger s) A') as (F1 & F2 & F3).
    destruct (settle g o k t p (ledger s)) as [x l']. cbn [fst snd] in *. simpl.
    split_and!; [lia|done|]. intros Hev. split; [rewrite F3; done|]. intros c0 i' d'. apply (Hput c k x l'). by right.
  - destruct (mget c (clients s)) as [[k [|t p|p|r]]|] eqn:E; try (split_and!; (done || lia)).
    destruct (mget p (settled (ledger s))) as [o|]; [|split_and!; (done || lia)].
    split_and!; [simpl; lia|done|]. intros _. split; [done|]. intros c0 i' d'. apply (Hput c k (wake g o) (ledger s)). left.
    intros i1 d1. unfold wake. by repeat case_match.
  - done.
  - unfold persistBegin. destruct (writing (ledger s)), (queued (ledger s)); split_and!; (done || simpl; lia).
  - unfold persistEnd. destruct (writing (ledger s)); split_and!; (done || simpl; lia).
Qed.

Lemma run_evicted s es key ct i d :
  Inv s → mget key (state (ledger s)) = Some (finalized ct i d) →
  Forall (calm ct (ttlMs (ledger s)) i) es →
  (evictedTotal (ledger (run s es)) = evictedTotal (ledger s) →
   mget key (state (ledger (run s es))) = Some (finalized ct i d) ∧
   ∀ c i' d', mget c (clients (run s es)) = Some (key, finished (launched i' d')) →
              mget c (clients s) = Some (key, finished (launched i' d'))).
Proof.
  (* The counter only grows, also outside the window. *)
  assert (Hmono : ∀ es s, Inv s → evictedTotal (ledger s) ≤ evictedTotal (ledger (run s es))).
  { clear. intros es. induction es as [|e es IH]; intros s Hs; [done|]. cbn [run fold_left].
    etrans; [|by apply IH, SysInv_exec]. pose proof Hs as [[A A'] _ _ _ _ _].
    destruct e as [c k|c n1 n2 g|c o g|c g|ttl mx now| |r]; simpl.
    - by destruct (mhas c (clients s)).
    - destruct (mget c (clients s)) as [[k [|t p|p|r]]|]; try done.
      destruct (iterate_frame n1 n2 g k (ledger s)) as [F1 _].
      destruct (iterate n1 n2 g k (ledger s)). simpl in *. lia.
    - destruct (mget c (clients s)) as [[k [|t p|p|r]]|]; try done.
      destruct (settle_frame g o k t p (ledger s) A') as (F1 & _).
      destruct (settle g o k t p (ledger s)). done.
    - destruct (mget c (clients s)) as [[k [|t p|p|r]]|]; try done. by destruct (mget p _).
    - unfold configure. cbv zeta. set (l0 := mkLedger _ _ _ _ _ _ _ _ _ _ _).
      destruct (compactExpired now l0) as [n l1] eqn:E1.
      assert (H1 : evictedTotal l1 = evictedTotal (ledger s))
        by (unfold compactExpired in E1; by injection E1 as <- <-).
      unfold compactBySize. repeat case_if; simpl in *; lia.
    - unfold persistBegin. by destruct (writing (ledger s)), (queued (ledger s)).
    - unfold persistEnd. by destruct (writing (ledger s)). }
  revert s. induction es as [|e es IH]; intros s Hs Hk Hes Hev; [done|]. cbn [run fold_left] in *.
  inversion Hes as [|? ? He Hes']; subst.
  destruct (exec_held s e key ct i d Hs Hk He) as (H1 & H2 & H3).
  pose proof (Hmono es (exec s e) (SysInv_exec s e Hs)) as H4. fold (run (exec s e) es) in *.
  assert (He1 : evictedTotal (ledger (exec s e)) = evictedTotal (ledger s)) by lia.
  destruct (H3 He1) as [Hk' Hcl]. rewrite <- H2 in Hes'.
  destruct (IH (exec s e)) as [G1 G2]; [by apply SysInv_exec|done|done|lia|]. split; [done|].
  intros c i' d' Hc. apply Hcl. exact (G2 c i' d' Hc).
Qed.

(** ** The theorems *)

(** C3: one launcher per key.  However requests interleave, at most one of them is
    launching for a key, and while it does the ledger holds its reservation. *)
Theorem single_owner now0 ttl mx d es c1 c2 key t1 p1 t2 p2 :
  let s := run (boot (load now0 (newLedger ttl mx d))) es in
  mget c1 (clients s) = Some (key, owning t1 p1) → mget c2 (clients s) = Some (key, owning t2 p2) →
  c1 = c2 ∧ mget key (state (ledger s)) = Some (pending t1 p1).
Proof.
  intros s H1 H2. assert (Hs : Inv s) by apply SysInv_run, SysInv_boot.
  destruct (inv_owner _ Hs _ _ _ _ H1) as [B1 _], (inv_owner _ Hs _ _ _ _ H2) as [B2 _].
  split; [|done]. assert (p1 = p2) as -> by congruence. by eapply (inv_unique _ Hs).
Qed.

(** C10: no request waits for nobody: a waiter's outcome is known already, or its owner is
    still launching, and then however that launch ends the waiter moves on. *)
Theorem waiter_progress now0 ttl mx d es c key p g o :
  let s := run (boot (load now0 (newLedger ttl mx d))) es in
  mget c (clients s) = Some (key, waiting p) →
  ∃ es', (length es' ≤ 2)%nat ∧
    (∀ e, e ∈ es' → e = EWake c g ∨ ∃ c', e = ESettle c' o g) ∧
    ∃ x, mget c (clients (run s es')) = Some (key, x) ∧ x ≠ waiting p.
Proof.
  intros s Hc. assert (Hs : Inv s) by apply SysInv_run, SysInv_boot.
  assert (Hwake : ∀ s', mget c (clients s') = Some (key, waiting p) →
    is_Some (mget p (settled (ledger s'))) →
    ∃ x, mget c (clients (exec s' (EWake c g))) = Some (key, x) ∧ x ≠ waiting p).
  { intros s' Hc' [out Ho]. simpl. rewrite Hc', Ho. exists (wake g out). simpl.
    rewrite mget_mset_eq. split; [done|]. unfold wake. by repeat case_match. }
  destruct (inv_wait _ Hs _ _ _ Hc) as [Hse|[t Ht]].
  - exists [EWake c g]. split; [simpl; lia|]. split; [|by apply Hwake].
    intros e ->%list_elem_of_singleton. by left.
  - destruct (inv_pending _ Hs _ _ _ Ht) as [_ [c' Hc']].
    exists [ESettle c' o g; EWake c g]. split; [simpl; lia|]. split.
    { intros e [->|[->|[]%elem_of_nil]%elem_of_cons]%elem_of_cons; [right; by eexists|by left]. }
    apply Hwake.
    + simpl. rewrite Hc'. destruct (settle g o key t p (ledger s)) as [x l']. simpl.
      rewrite mget_mset_ne; [done|]. intros ->. by rewrite Hc in Hc'.
    + pose proof Hs as [[A A'] _ _ _ _ _]. pose proof (settle_spec g o key t p (ledger s) A A') as Hsp.
      simpl. rewrite Hc'. destruct (settle g o key t p (ledger s)) as [x l'].
      destruct Hsp as (_ & _ & _ & _ & [Hr _] & _). exact Hr.
Qed.

(** At most one launch.  Once a key is finalized to a task, then as long as the entry
    is within its life, the task is worth replaying and nothing is evicted, no
    request launches for the key again, and the next request that asks gets that task. *)
Theorem replay_window now0 ttl mx d es0 key ct i dup es :
  let s := run (boot (load now0 (newLedger ttl mx d))) es0 in
  let s' := run s es in
  mget key (state (ledger s)) = Some (finalized ct i dup) →
  Forall (calm ct (ttlMs (ledger s)) i) es →
  evictedTotal (ledger s') = evictedTotal (ledger s) →
  (∀ c t p, mget c (clients s') ≠ Some (key, owning t p)) ∧
  (∀ c i' d', mget c (clients s') = Some (key, finished (launched i' d')) →
              mget c (clients s) = Some (key, finished (launched i' d'))) ∧
  (∀ c now1 now2 g, mget c (clients s') = Some (key, looping) → now1 - ct ≤ ttlMs (ledger s') →
     canReplay g i = true →
     mget c (clients (exec s' (EIterate c now1 now2 g))) = Some (key, finished (replayed i dup))).
Proof.
  intros s s' Hk Hes Hev. assert (Hs : Inv s) by apply SysInv_run, SysInv_boot.
  assert (Hs' : Inv s') by by apply SysInv_run.
  destruct (run_evicted s es key ct i dup Hs Hk Hes Hev) as [Hk' Hcl]. fold s' in Hk', Hcl.
  split_and!; [|exact Hcl|].
  - intros c t p Hc. destruct (inv_owner _ Hs' _ _ _ _ Hc) as [Hp _]. congruence.
  - intros c n1 n2 g Hc Ht Hg. simpl. rewrite Hc.
    destruct (iterate_held n1 n2 g key (ledger s') key ct i dup) as [_ Hr]; try done; [apply Hs'|].
    destruct (iterate n1 n2 g key (ledger s')) as [x l']. simpl in *. rewrite mget_mset_eq, Hr; done.
Qed.

(** The ledger is bounded: after every event it retains at most [maxEntries] finalized
    entries. *)
Theorem retention_bound now0 ttl mx d es :
  let l := ledger (run (boot (load now0 (newLedger ttl mx d))) es) in
  Z.of_nat (m_entryCount (getMetrics l)) ≤ maxEntries l.
Proof. apply (run_retention _ es (SysInv_boot now0 ttl mx d)), load_bounded. Qed.

(** Restart.  When the writes of a run that began with no file have settled and the
    last one succeeded, a new process recovers exactly the finalized entries that are
    unexpired, name a task, and are not under the key [__proto__]. *)
Theorem restart_exact now0 ttl mx es now :
  let l := ledger (run (boot (load now0 (newLedger ttl mx None))) es) in
  writing l = None → queued l = 0%nat → lastWriteOk l = true →
  ∀ k, mget k (state (load now (reboot l))) =
    match mget k (state l) with
    | Some (finalized t i dup) =>
        if (ttlMs l <? now - t) || String.eqb k "__proto__" || String.eqb i "" then None
        else Some (finalized t i dup)
    | _ => None
    end.
Proof.
  intros l Hw Hq Hok k.
  pose proof (SysInv_boot now0 ttl mx None) as Hb.
  assert (Hs : Inv (run (boot (load now0 (newLedger ttl mx None))) es)) by by apply SysInv_run.
  assert (Hwr : Writes l) by (apply run_writes; [done|by split]).
  assert (Hbd : bounded l) by (apply run_retention; [done|apply load_bounded]).
  destruct (inv_wf _ Hs) as [Hwf Hmx]. fold l in Hwf, Hmx.
  pose proof (wr_idle _ Hwr Hw Hq Hok) as Hd.
  set (keep := List.filter (survives (ttlMs l) now) (List.filter persistable (state l))).
  assert (Hkeep : mwf keep) by by do 2 apply mwf_filter.
  assert (Hload : state (load now (reboot l)) = keep).
  { unfold load, durable in *. simpl. destruct (disk l) as [f|].
    - subst f. simpl. rewrite snapshot_rows by done.
      pose proof (load_rows now (ttlMs l) (List.filter persistable (state l)) ([], 0, false)) as Hr.
      destruct (fold_left _ _ _) as [[st n] b]. simpl in Hr. fold keep in Hr.
      rewrite mimport_roundtrip in Hr by done.
      rewrite Hr by (apply Forall_forall; intros q Hq'; apply list_elem_of_In, filter_In in Hq' as [_ Hq'];
        unfold persistable in Hq'; by apply andb_true_iff in Hq' as [? _]).
      set (l1 := mkLedger _ _ _ _ _ _ _ _ _ _ _).
      assert (Hsm : (Z.of_nat (length (finalizedEntries l1)) <=? maxEntries l1) = true).
      { apply Z.leb_le. etrans; [|exact Hbd]. unfold l1, finalizedEntries, keep. simpl.
        rewrite !filter_filter. apply inj_le. apply (countb_le _ (λ '(_, e), isFinalized e)).
        intros [k0 e0] _ H. by repeat apply andb_true_iff in H as [? H]. }
      unfold compactBySize. rewrite Hsm. by case_if.
    - symmetry. unfold keep. rewrite snapshot_rows in Hd by done. by destruct (List.filter persistable (state l)). }
  rewrite Hload. unfold keep. rewrite !mget_filter by auto with kookr.
  destruct (mget k (state l)) as [[t p|t i dup]|]; [done| |done].
  unfold persistable, survives. simpl.
  destruct (String.eqb k "__proto__"); simpl; [by rewrite orb_true_r|].
  destruct (String.eqb i ""), (ttlMs l <? now - t); done.
Qed.

(** A key that the file forgets.  A request with the key [__proto__] launches a task and
    finalizes it; the write succeeds; and after a restart a retry with the same key
    does not get that task but launches again. *)
Theorem proto_key_forgotten now0 t1 t2 g task dup now :
  let s := run (boot (load now0 (newLedger None None None)))
             [EArrive 0 "__proto__"; EIterate 0 t1 t2 g; ESettle 0 (lo_task task dup) g;
              EPersistBegin; EPersistEnd written] in
  mget 0%nat (clients s) = Some ("__proto__", finished (launched task dup)) ∧
  mget "__proto__" (state (ledger s)) = Some (finalized t2 task dup) ∧
  writing (ledger s) = None ∧ queued (ledger s) = 0%nat ∧ lastWriteOk (ledger s) = true ∧
  mget 0%nat (clients (run (boot (load now (reboot (ledger s))))
                [EArrive 0 "__proto__"; EIterate 0 t1 t2 g])) = Some ("__proto__", owning t2 0%nat).
Proof. split_and!; reflexivity. Qed.
End ledger.

(** ** Witnesses *)

Definition demoTask (i : string) : option Task := None.
Definition byCode (a b : string) : Z := 0.

(** Two requests for one key: the second waits for the first. *)
Definition demoEvents : list event :=
  [EArrive 0 "k"; EArrive 1 "k"; EIterate 0 10 10 demoTask; EIterate 1 11 11 demoTask].

Definition demoStart : System := boot (load byCode 0 (newLedger None None None)).

Lemma single_owner_witness :
  mget 0%nat (clients (run byCode demoStart demoEvents)) = Some ("k", owning 10 0%nat) ∧
  mget "k" (state (ledger (run byCode demoStart demoEvents))) = Some (pending 10 0%nat).
Proof.
  split; [reflexivity|].
  destruct (single_owner byCode 0 None None None demoEvents 0 0 "k" 10 0%nat 10 0%nat) as [_ H];
    [reflexivity|reflexivity|exact H].
Defined.

Lemma waiter_progress_witness :
  mget 1%nat (clients (run byCode demoStart demoEvents)) = Some ("k", waiting 0%nat) ∧
  ∃ es' x, mget 1%nat (clients (run byCode (run byCode demoStart demoEvents) es')) = Some ("k", x) ∧
    x ≠ waiting 0%nat.
Proof.
  split; [reflexivity|].
  destruct (waiter_progress byCode 0 None None None demoEvents 1 "k" 0%nat demoTask lo_threw)
    as (es' & _ & _ & x & H); [reflexivity|]. by exists es', x.
Defined.

Lemma replay_window_witness :
  let s := run byCode demoStart (demoEvents ++ [ESettle 0 (lo_task "t" false) demoTask]) in
  mget "k" (state (ledger s)) = Some (finalized 10 "t" false) ∧
  (∀ c t p, mget c (clients (run byCode s [EWake 1 demoTask; EArrive 2 "k"])) ≠ Some ("k", owning t p)).
Proof.
  intros s. split; [reflexivity|].
  destruct (replay_window byCode 0 None None None (demoEvents ++ [ESettle 0 (lo_task "t" false) demoTask])
    "k" 10 "t" false [EWake 1 demoTask; EArrive 2 "k"]) as [H _]; [reflexivity| |reflexivity|exact H].
  repeat constructor.
Defined.

Lemma restart_exact_witness :
  let l := ledger (run byCode demoStart
    (demoEvents ++ [ESettle 0 (lo_task "t" false) demoTask; EPersistBegin; EPersistEnd written])) in
  mget "k" (state (load byCode 20 (reboot l))) = Some (finalized 10 "t" false).
Proof.
  intros l. unfold l.
  rewrite (restart_exact byCode 0 None None
    (demoEvents ++ [ESettle 0 (lo_task "t" false) demoTask; EPersistBegin; EPersistEnd written]) 20);
    reflexivity.
Defined.

End Idempotency.
