(* ===== verification/CapacityLedger.v ===== *)
(** * Occupied slots: the ledger, the sweep of finished tasks, the reclaim of hung ones

    [src/core/capacity-ledger.ts] classifies every task that holds a concurrency
    slot; [src/core/faa-root-cause.ts] says why a finished task is still waiting;
    [src/core/completion/completion-ready-cleanup.ts] selects the finished tasks to
    close, and [src/core/hung-suspect-ttl.ts] the silent ones to terminate.  All
    four are pure functions of the task list.  A timestamp is the time [Date.parse]
    gives, [None] when it does not parse; a percentage or ratio is an exact
    rational.  [String.prototype.localeCompare] is a section variable of which
    nothing is assumed; the default [sort] of strings is by code units. *)

From Stdlib Require Import QArith.
From S2P Require Import Prelude JsMap JsArray JsString TaskTypes TerminalReceipt TaskStore TaskRuns.
Local Open Scope Z_scope.

Module Capacity.
Import Task HungTask.

(** ** Finished tasks that may be closed *)

Definition DEFAULT_STALE_COMPLETION_READY_THRESHOLD_MS : Z := 60 * 60 * 1000.
Definition DEFAULT_COMPLETION_READY_TTL_MS : Z := 120 * 60 * 1000.

Inductive CompletionReadyManualActionReason := auto_close_not_enabled | delivery_authorization_required.
Inductive CompletionReadyCloseReason := auto_close_on_signal | ttl_escalation.

Inductive CompletionReadyClosePolicy :=
| closable (closeReason : CompletionReadyCloseReason)
| manual (reason : CompletionReadyManualActionReason).

Definition canAutoClose (p : CompletionReadyClosePolicy) : bool :=
  match p with closable _ => true | manual _ => false end.

Definition classifyCompletionReadyClosePolicy (t : Task) (age : option Z) (ttl : option Z) :
    CompletionReadyClosePolicy :=
  if autoCloseOnSignal t then closable auto_close_on_signal
  else if (match ttl with Some ttl => ttl <=? orElse age 0 | None => false end)
  then closable ttl_escalation
  else if bool_decide (deliveryAuthorization t = Some da_ask_first)
  then manual delivery_authorization_required
  else manual auto_close_not_enabled.

(** An in-progress task with a [completion_ready] signal. *)
Definition readySignal (t : Task) : option PendingAgentSignal :=
  if bool_decide (status t = ts_inProgress) then
    match pendingSignal t with
    | Some s => if bool_decide (sig_kind s = completion_ready) then Some s else None
    | None => None
    end
  else None.

(** The age below which a signal is left alone; both the sweep and the root-cause
    classifier compute it. *)
Definition applicableThresholdMs (t : Task) (threshold : Z) (ttl : option Z) : Z :=
  if autoCloseOnSignal t then threshold
  else match ttl with Some ttl => Z.min threshold ttl | None => threshold end.

Record StaleCompletionReadyTask := mkStale {
  st_task : Task;
  st_signal : PendingAgentSignal;
  st_ageMs : Z;
  st_policy : CompletionReadyClosePolicy
}.

(** [Math.max(...liveSessionStarts)]: [None] when there is no live session. *)
Definition latestLiveSession (t : Task) : option Z :=
  let live := List.filter (λ s, negb (bool_decide (lastStatus s = Some ss_completed))
                                && negb (bool_decide (lastStatus s = Some ss_aborted))) (sessions t) in
  match map s_createdAt live with
  | [] => None
  | x :: xs => Some (fold_left Z.max xs x)
  end.

(** The body of the loop of [listStaleCompletionReadyTasks]. *)
Definition staleEntry (now threshold : Z) (ttl : option Z) (isProviderPaused : Task → bool)
    (t : Task) : option StaleCompletionReadyTask :=
  s ← readySignal t;
  if isProviderPaused t then None
  else
    raisedAt ← sig_raisedAt s;
    start ← latestLiveSession t;
    if raisedAt <? start then None
    else if now <? raisedAt then None
    else
      let age := now - raisedAt in
      if age <? applicableThresholdMs t threshold ttl then None
      else Some (mkStale t s age (classifyCompletionReadyClosePolicy t (Some age) ttl)).

Definition byRaisedAt (a b : StaleCompletionReadyTask) : Z :=
  orElse (sig_raisedAt (st_signal a)) 0 - orElse (sig_raisedAt (st_signal b)) 0.

Definition listStaleCompletionReadyTasks (now : Z) (threshold ttl : option Z)
    (isProviderPaused : Task → bool) (tasks : list Task) : list StaleCompletionReadyTask :=
  sort_by byRaisedAt
    (omap (staleEntry now (orElse threshold DEFAULT_STALE_COMPLETION_READY_THRESHOLD_MS) ttl
             isProviderPaused) tasks).

Definition isActiveRalphLoop (t : Task) : bool :=
  match ralphLoop t with
  | Some l => match rl_status l with rl_running | rl_paused => true | _ => false end
  | None => false
  end.

Definition selectAutoClosableCompletionReadyTasks (now : Z) (threshold ttl : option Z)
    (isProviderPaused : Task → bool) (force excludeActiveRalph : bool) (limit : option nat)
    (tasks : list Task) : list StaleCompletionReadyTask :=
  let entries :=
    List.filter (λ e, (force || canAutoClose (st_policy e))
                      && (negb excludeActiveRalph || negb (isActiveRalphLoop (st_task e))))
      (listStaleCompletionReadyTasks now threshold ttl isProviderPaused tasks) in
  match limit with Some n => take n entries | None => entries end.

(** ** Why a finished task still waits *)

Inductive FaaRootCause := awaiting_poll | ack_sweep_backlog | manual_review_gate | auto_close_disabled.

#[export] Instance FaaRootCause_eq_dec : EqDecision FaaRootCause.
Proof. solve_decision. Defined.

Definition FAA_ROOT_CAUSES : list FaaRootCause :=
  [ack_sweep_backlog; auto_close_disabled; manual_review_gate; awaiting_poll].

Definition classifyFaaRootCause (now : Z) (threshold ttl : option Z) (t : Task) :
    option FaaRootCause :=
  s ← readySignal t;
  match sig_raisedAt s with
  | None => Some awaiting_poll
  | Some raisedAt =>
      if now <? raisedAt then Some awaiting_poll
      else
        let age := now - raisedAt in
        let threshold := orElse threshold DEFAULT_STALE_COMPLETION_READY_THRESHOLD_MS in
        if age <? applicableThresholdMs t threshold ttl then Some awaiting_poll
        else
          match classifyCompletionReadyClosePolicy t (Some age) ttl with
          | closable _ => Some ack_sweep_backlog
          | manual delivery_authorization_required => Some manual_review_gate
          | manual auto_close_not_enabled => Some auto_close_disabled
          end
  end.

(** [Record<FaaRootCause, number>]. *)
Definition Tally := FaaRootCause → nat.
Definition emptyFaaRootCauseTally : Tally := λ _, O.
Definition bump (c : FaaRootCause) (y : Tally) : Tally :=
  λ c', if decide (c' = c) then S (y c') else y c'.

Definition dominantFaaRootCause (y : Tally) : option FaaRootCause :=
  (fold_left (λ '(dominant, best) c,
     if (best <? y c)%nat then (Some c, y c) else (dominant, best)) FAA_ROOT_CAUSES (None, O)).1.

(** ** The capacity ledger *)

Inductive TaskCapacityClass := working | finishedAwaitingAck | hungSuspect | launching.

#[export] Instance TaskCapacityClass_eq_dec : EqDecision TaskCapacityClass.
Proof. solve_decision. Defined.

Definition classifyTaskCapacity (t : Task) (isHungSuspect isLaunching : bool) :
    option TaskCapacityClass :=
  if bool_decide (status t = ts_inProgress) then
    match pendingSignal t with
    | Some s => if bool_decide (sig_kind s = completion_ready) then Some finishedAwaitingAck
                else if isHungSuspect then Some hungSuspect else Some working
    | None => if isHungSuspect then Some hungSuspect else Some working
    end
  else if (bool_decide (status t = ts_open) || bool_decide (status t = ts_pending)) && isLaunching
  then Some launching
  else None.

Definition isReservedSlotLaunch (source actorId : option string) (reservedSlotSources : list string) :
    bool :=
  match reservedSlotSources with
  | [] => false
  | _ =>
      (match source with Some s => bool_decide (s ∈ reservedSlotSources) | None => false end)
      || (match truthyStr (option_map trim actorId) with
          | Some a => bool_decide (a ∈ reservedSlotSources)
          | None => false
          end)
  end.

(** Parked on a dependency, and not only waiting for a slot. *)
Definition dependencyParked (t : Task) : option (list TaskLaunchAdmissionDependency) :=
  if bool_decide (status t = ts_pending) then
    match launchAdmission t with
    | Some (parked r ds _) => if bool_decide (r = half_open_waiting_for_capacity) then None else Some ds
    | _ => None
    end
  else None.

Record ParkedDependency := mkParkedDep {
  pkd_dependency : string;
  pkd_taskCount : nat;
  pkd_taskIds : list string
}.

Record Parked := mkParked {
  pk_taskCount : nat;
  pk_taskIds : list string;
  pk_byDependency : list ParkedDependency
}.

Record Reservation := mkReservation {
  reservedActiveSlots : Z;
  reservedSlotSources : list string;
  freeForReservedSources : Z;
  freeForGeneralSources : Z
}.

Record CapacityLedger := mkLedger {
  maxActiveTasks : Z;
  active : Z;
  free : Z;
  byClass : TaskCapacityClass → nat;
  finishedAwaitingAckByCause : Tally;
  effectiveWorking : Z;
  phantomActive : Z;
  utilizationPct : Q;
  effectiveUtilizationPct : Q;
  pendingQueueDepth : nat;
  oldestPendingAgeMs : option Z;
  oldestFinishedAwaitingAckAgeMs : option Z;
  reservation : option Reservation;
  parkedBlock : option Parked
}.

(** The variables of the loop. *)
Record Scan := mkScan {
  sc_byClass : TaskCapacityClass → nat;
  sc_byCause : Tally;
  sc_pending : nat;
  sc_oldestPendingAt : option Z;
  sc_oldestFaaAt : option Z;
  sc_parkedIds : list string;
  sc_parkedBy : jmap string (jmap string unit)
}.

Definition bumpClass (c : TaskCapacityClass) (f : TaskCapacityClass → nat) :
    TaskCapacityClass → nat :=
  λ c', if decide (c' = c) then S (f c') else f c'.

(** [old === undefined || v < old]. *)
Definition earlier (old : option Z) (v : Z) : option Z :=
  match old with Some o => if v <? o then Some v else old | None => Some v end.

Definition emptyScan : Scan := mkScan (λ _, O) emptyFaaRootCauseTally O None None [] [].

Section ledger.
Context (localeCompare : string → string → Z).
Context (isHungSuspect isLaunching : Task → bool).
Context (now : Z) (faaStaleThresholdMs faaTtlMs : option Z).

Definition classOf (t : Task) : option TaskCapacityClass :=
  classifyTaskCapacity t (isHungSuspect t) (isLaunching t).

Definition scanClass (t : Task) (s : Scan) : Scan :=
  match classOf t with
  | None => s
  | Some c =>
      let s := mkScan (bumpClass c (sc_byClass s)) (sc_byCause s) (sc_pending s) (sc_oldestPendingAt s)
                 (sc_oldestFaaAt s) (sc_parkedIds s) (sc_parkedBy s) in
      match c, pendingSignal t with
      | finishedAwaitingAck, Some sig =>
          mkScan (sc_byClass s)
            (match classifyFaaRootCause now faaStaleThresholdMs faaTtlMs t with
             | Some cause => bump cause (sc_byCause s)
             | None => sc_byCause s
             end)
            (sc_pending s) (sc_oldestPendingAt s)
            (match sig_raisedAt sig with
             | Some r => earlier (sc_oldestFaaAt s) r
             | None => sc_oldestFaaAt s
             end)
            (sc_parkedIds s) (sc_parkedBy s)
      | _, _ => s
      end
  end.

Definition scanPending (t : Task) (s : Scan) : Scan :=
  if bool_decide (status t = ts_pending) && negb (isSome (dependencyParked t))
  then mkScan (sc_byClass s) (sc_byCause s) (S (sc_pending s))
         (earlier (sc_oldestPendingAt s) (createdAt t)) (sc_oldestFaaAt s) (sc_parkedIds s) (sc_parkedBy s)
  else s.

(** [ids.add(task.id)] on the set of a dependency, made when missing. *)
Definition addParked (i : string) (m : jmap string (jmap string unit))
    (d : TaskLaunchAdmissionDependency) : jmap string (jmap string unit) :=
  mset (dep_dependency d) (mset i tt (orElse (mget (dep_dependency d) m) [])) m.

Definition scanParked (t : Task) (s : Scan) : Scan :=
  match dependencyParked t with
  | None => s
  | Some ds =>
      mkScan (sc_byClass s) (sc_byCause s) (sc_pending s) (sc_oldestPendingAt s) (sc_oldestFaaAt s)
        (sc_parkedIds s ++ [id t]) (fold_left (addParked (id t)) ds (sc_parkedBy s))
  end.

Definition scanTask (s : Scan) (t : Task) : Scan := scanParked t (scanPending t (scanClass t s)).

Definition byCodeUnits (a b : string) : Z :=
  match String.compare a b with Lt => -1 | Eq => 0 | Gt => 1 end.

Definition percent (n max : Z) : Q :=
  if 0 <? max then (inject_Z n / inject_Z max * inject_Z 100)%Q else 0%Q.

Definition buildCapacityLedger (maxActive : Z) (reserved : option Z) (sources : option (list string))
    (tasks : list Task) : CapacityLedger :=
  let s := fold_left scanTask tasks emptyScan in
  let n c := Z.of_nat (sc_byClass s c) in
  let effective := n working + n launching in
  let phantom := n hungSuspect + n finishedAwaitingAck in
  let total := effective + phantom in
  let freeSlots := Z.max 0 (maxActive - total) in
  mkLedger maxActive total freeSlots (sc_byClass s) (sc_byCause s) effective phantom
    (percent total maxActive) (percent effective maxActive)
    (sc_pending s)
    (option_map (λ a, now - a) (sc_oldestPendingAt s))
    (option_map (λ a, now - a) (sc_oldestFaaAt s))
    (option_map (λ r,
       let slots := Z.max 0 (Z.min maxActive r) in
       mkReservation slots (orElse sources []) freeSlots (Z.max 0 (maxActive - slots - effective)))
       reserved)
    (match sc_parkedIds s with
     | [] => None
     | ids =>
         Some (mkParked (length ids) (sort_by byCodeUnits ids)
           (map (λ '(d, set), mkParkedDep d (msize set) (sort_by byCodeUnits (mkeys set)))
              (sort_by (λ a b, localeCompare a.1 b.1) (sc_parkedBy s))))
     end).
End ledger.

(** *** Findings on a ledger *)

Definition DEFAULT_HUNG_SUSPECT_CAPACITY_COUNT_BOUND : Z := 3.
Definition DEFAULT_HUNG_SUSPECT_CAPACITY_RATIO_BOUND : Q := (3 # 10)%Q.

Record HungSuspectCapacityFinding := mkHungFinding {
  hf_hungSuspect : Z;
  hf_active : Z;
  hf_ratio : Q;
  hf_effectiveWorking : Z;
  hf_phantomActive : Z
}.

Definition evaluateHungSuspectCapacityFinding (l : CapacityLedger) (countBound : option Z)
    (ratioBound : option Q) : option HungSuspectCapacityFinding :=
  let hung := Z.of_nat (byClass l hungSuspect) in
  let countBound := orElse countBound DEFAULT_HUNG_SUSPECT_CAPACITY_COUNT_BOUND in
  let ratioBound := orElse ratioBound DEFAULT_HUNG_SUSPECT_CAPACITY_RATIO_BOUND in
  if hung <=? 0 then None
  else
    let ratio := if 0 <? active l then (inject_Z hung / inject_Z (active l))%Q else 0%Q in
    if (hung <? countBound) && negb (Qle_bool ratioBound ratio) then None
    else Some (mkHungFinding hung (active l) ratio (effectiveWorking l) (phantomActive l)).

Definition idleEffectiveSlots (l : CapacityLedger) : Z :=
  match reservation l with
  | Some r => freeForGeneralSources r
  | None => Z.max 0 (maxActiveTasks l - effectiveWorking l)
  end.

Inductive CapacityThroughputVerdictCode := healthy_throughput | idle_capacity.

Definition evaluateCapacityThroughputVerdict (l : CapacityLedger) : CapacityThroughputVerdictCode :=
  if 0 <? idleEffectiveSlots l then idle_capacity else healthy_throughput.

Definition DEFAULT_RESIDUAL_PHANTOM_PRESSURE_BOUND : Z := 2.

Definition capacityHasResidualPhantomPressure (idle phantom : Z)
    (providerPausedCount pending occupancyBound : option Z) : bool :=
  if (match pending with Some p => 0 <? p | None => false end) then false
  else if idle <=? 0 then false
  else orElse occupancyBound DEFAULT_RESIDUAL_PHANTOM_PRESSURE_BOUND
       <=? Z.max 0 phantom + Z.max 0 (orElse providerPausedCount 0).

(** ** The reclaim of hung tasks *)

Definition DEFAULT_HUNG_SUSPECT_TTL_MS : Z := 25 * 60000.

Inductive HungSuspectReclaimSkipReason :=
| skipped_no_liveness | skipped_open_pr_confirmed | skipped_open_pr_unknown
| skipped_under_ttl | skipped_exempt_anomaly | skipped_provider_paused.

#[export] Instance SkipReason_eq_dec : EqDecision HungSuspectReclaimSkipReason.
Proof. solve_decision. Defined.

Definition HUNG_SUSPECT_RECLAIM_SKIP_REASONS : list HungSuspectReclaimSkipReason :=
  [skipped_no_liveness; skipped_open_pr_confirmed; skipped_open_pr_unknown; skipped_under_ttl;
   skipped_exempt_anomaly; skipped_provider_paused].

Definition SkipCounts := HungSuspectReclaimSkipReason → nat.
Definition emptyHungSuspectReclaimSkipCounts : SkipCounts := λ _, O.
Definition bumpSkip (r : HungSuspectReclaimSkipReason) (y : SkipCounts) : SkipCounts :=
  λ r', if decide (r' = r) then S (y r') else y r'.

Definition openPrFailsafeSkipTotal (y : SkipCounts) : nat :=
  (y skipped_open_pr_confirmed + y skipped_open_pr_unknown)%nat.

Inductive Outcome := selected | skipped (r : HungSuspectReclaimSkipReason).

Record CandidateOutcome := mkOutcome {
  co_taskId : string;
  co_outcome : Outcome;
  co_silentForMs : option Z
}.

Record ExpiredHungSuspectEntry := mkExpired {
  ex_task : Task;
  ex_silentForMs : Z
}.

Record HungSuspectReclaimSelection := mkSelection {
  expired : list ExpiredHungSuspectEntry;
  candidatesConsidered : nat;
  skips : SkipCounts;
  outcomes : list CandidateOutcome
}.

Section reclaim.
Context (nowMs ttlMs : Z).
Context (isHungSuspect : Task → bool) (getLiveness : Task → option HungTaskLivenessEvidence).
(** An option left out always answers as the absent predicate does. *)
Context (isProviderPaused : Task → bool) (isHoldingOpenPr : Task → option bool).

Definition isCandidate (t : Task) : bool :=
  bool_decide (status t = ts_inProgress)
  && negb (match pendingSignal t with
           | Some s => bool_decide (sig_kind s = completion_ready)
           | None => false
           end)
  && isHungSuspect t.

(** The fate of a candidate: its outcome, with the silence when it was computed. *)
Definition judge (t : Task) : Outcome * option Z :=
  if isProviderPaused t then (skipped skipped_provider_paused, None)
  else
    match getLiveness t with
    | None => (skipped skipped_no_liveness, None)
    | Some l =>
        let last := lastActivityAt l in
        if last <=? 0 then (skipped skipped_no_liveness, None)
        else
          let silent := nowMs - last in
          if silent <? ttlMs then (skipped skipped_under_ttl, Some silent)
          else
            match isHoldingOpenPr t with
            | Some true => (skipped skipped_open_pr_confirmed, Some silent)
            | None => (skipped skipped_open_pr_unknown, Some silent)
            | Some false => (selected, Some silent)
            end
    end.

Definition reclaimStep (a : HungSuspectReclaimSelection) (t : Task) : HungSuspectReclaimSelection :=
  if isCandidate t then
    let '(o, silent) := judge t in
    mkSelection
      (match o, silent with
       | selected, Some s => expired a ++ [mkExpired t s]
       | _, _ => expired a
       end)
      (S (candidatesConsidered a))
      (match o with selected => skips a | skipped r => bumpSkip r (skips a) end)
      (outcomes a ++ [mkOutcome (id t) o silent])
  else a.

Definition bySilence (a b : ExpiredHungSuspectEntry) : Z := ex_silentForMs b - ex_silentForMs a.

Definition selectExpiredHungSuspectTasks (tasks : list Task) : HungSuspectReclaimSelection :=
  let a := fold_left reclaimStep tasks (mkSelection [] O emptyHungSuspectReclaimSkipCounts []) in
  mkSelection (sort_by bySilence (expired a)) (candidatesConsidered a) (skips a) (outcomes a).

Definition listExpiredHungSuspectTasks (tasks : list Task) : list ExpiredHungSuspectEntry :=
  expired (selectExpiredHungSuspectTasks tasks).
End reclaim.

(** ** Lemmas *)

Definition allCauses (y : Tally) : nat :=
  (y awaiting_poll + y ack_sweep_backlog + y manual_review_gate + y auto_close_disabled)%nat.

Lemma allCauses_bump c y : allCauses (bump c y) = S (allCauses y).
Proof. unfold allCauses, bump. destruct c; simpl; lia. Qed.

Definition allClasses (f : TaskCapacityClass → nat) : nat :=
  (f working + f finishedAwaitingAck + f hungSuspect + f launching)%nat.

Definition allSkips (y : SkipCounts) : nat :=
  (y skipped_no_liveness + y skipped_open_pr_confirmed + y skipped_open_pr_unknown
   + y skipped_under_ttl + y skipped_exempt_anomaly + y skipped_provider_paused)%nat.

Lemma allSkips_bump r y : allSkips (bumpSkip r y) = S (allSkips y).
Proof. unfold allSkips, bumpSkip. destruct r; simpl; lia. Qed.

Lemma faa_ready t : readySignal t = None ↔
  ∀ h l, classifyTaskCapacity t h l ≠ Some finishedAwaitingAck.
Proof.
  unfold readySignal, classifyTaskCapacity. split.
  - intros H h l. repeat case_match; congruence.
  - intros H. specialize (H false false). repeat case_match; congruence.
Qed.

(** The class and the cause speak of the same tasks. *)
Lemma faa_cause now thr ttl t h l :
  classifyTaskCapacity t h l = Some finishedAwaitingAck ↔ is_Some (classifyFaaRootCause now thr ttl t).
Proof.
  unfold classifyTaskCapacity, classifyFaaRootCause, readySignal. split.
  - intros H. repeat (case_match; simplify_eq/=); by eexists.
  - intros [c H]. repeat (case_match; simplify_eq/=); done.
Qed.

Section scan.
Context (isHungSuspect isLaunching : Task → bool).
Context (now : Z) (thr ttl : option Z).
Abbreviation step := (scanTask isHungSuspect isLaunching now thr ttl).
Abbreviation class := (classOf isHungSuspect isLaunching).

Definition isClass (c : TaskCapacityClass) (t : Task) : bool := bool_decide (class t = Some c).

Definition isPending (t : Task) : bool := bool_decide (status t = ts_pending).

Record ScanInv (ts : list Task) (s : Scan) : Prop := {
  si_class c : sc_byClass s c = countb (isClass c) ts;
  si_cause : allCauses (sc_byCause s) = countb (isClass finishedAwaitingAck) ts;
  si_pending : sc_pending s = countb (λ t, isPending t && negb (isSome (dependencyParked t))) ts;
  si_parked : sc_parkedIds s = map id (List.filter (λ t, isSome (dependencyParked t)) ts)
}.

Lemma scanClass_fields t s :
  sc_pending (scanClass isHungSuspect isLaunching now thr ttl t s) = sc_pending s ∧
  sc_parkedIds (scanClass isHungSuspect isLaunching now thr ttl t s) = sc_parkedIds s ∧
  (∀ c, sc_byClass (scanClass isHungSuspect isLaunching now thr ttl t s) c =
        (sc_byClass s c + if isClass c t then 1 else 0)%nat) ∧
  allCauses (sc_byCause (scanClass isHungSuspect isLaunching now thr ttl t s)) =
    (allCauses (sc_byCause s) + if isClass finishedAwaitingAck t then 1 else 0)%nat.
Proof.
  unfold scanClass, isClass. destruct (class t) as [c|] eqn:Ec.
  - assert (Hc : ∀ c', bumpClass c (sc_byClass s) c'
      = (sc_byClass s c' + if bool_decide (Some c = Some c') then 1 else 0)%nat).
    { intros c'. unfold bumpClass. destruct (decide (c' = c)) as [->|Hn].
      - rewrite bool_decide_true by done. lia.
      - rewrite bool_decide_false by congruence. lia. }
    destruct (decide (c = finishedAwaitingAck)) as [->|Hn].
    + unfold classOf in Ec. pose proof (proj1 (faa_cause now thr ttl t _ _) Ec) as [cause Hca].
      unfold classifyTaskCapacity in Ec. destruct (pendingSignal t) as [sig|] eqn:Es.
      * cbn [sc_pending sc_parkedIds sc_byClass sc_byCause]. rewrite Hca, allCauses_bump.
        split_and!; [done|done|exact Hc|]. rewrite bool_decide_true by done. lia.
      * exfalso. repeat case_match; congruence.
    + assert (Hp : ∀ A (x y : A), (match c, pendingSignal t with finishedAwaitingAck, Some sig => x | _, _ => y end) = y)
        by (intros; by destruct c).
      assert (Hs : ∀ x, match c, pendingSignal t with
        | finishedAwaitingAck, Some sig => x sig | _, _ => mkScan (bumpClass c (sc_byClass s)) (sc_byCause s) (sc_pending s)
            (sc_oldestPendingAt s) (sc_oldestFaaAt s) (sc_parkedIds s) (sc_parkedBy s) end =
        mkScan (bumpClass c (sc_byClass s)) (sc_byCause s) (sc_pending s)
          (sc_oldestPendingAt s) (sc_oldestFaaAt s) (sc_parkedIds s) (sc_parkedBy s)) by (intros; by destruct c).
      cbv zeta. rewrite Hs. cbn [sc_pending sc_parkedIds sc_byClass sc_byCause].
      split_and!; [done|done|exact Hc|]. rewrite bool_decide_false by congruence. lia.
  - split_and!; [done|done|intros c; rewrite bool_decide_false by done; lia|].
    rewrite bool_decide_false by done. lia.
Qed.

Lemma scan_inv ts : ScanInv ts (fold_left step ts emptyScan).
Proof.
  induction ts as [|t ts [A B C D]] using rev_ind; [by split|].
  rewrite fold_left_app. cbn [fold_left]. set (s := fold_left step ts emptyScan) in *.
  unfold scanTask. destruct (scanClass_fields t s) as (F1 & F2 & F3 & F4).
  set (s1 := scanClass isHungSuspect isLaunching now thr ttl t s) in *.
  assert (Hp : sc_byClass (scanPending t s1) = sc_byClass s1 ∧ sc_byCause (scanPending t s1) = sc_byCause s1 ∧
    sc_parkedIds (scanPending t s1) = sc_parkedIds s1 ∧
    sc_pending (scanPending t s1) =
      (sc_pending s1 + if isPending t && negb (isSome (dependencyParked t)) then 1 else 0)%nat).
  { unfold scanPending, isPending. case_if; cbn; (split_and!; [done..|]); lia. }
  destruct Hp as (P1 & P2 & P3 & P4).
  assert (Hk : sc_byClass (scanParked t (scanPending t s1)) = sc_byClass (scanPending t s1) ∧
    sc_byCause (scanParked t (scanPending t s1)) = sc_byCause (scanPending t s1) ∧
    sc_pending (scanParked t (scanPending t s1)) = sc_pending (scanPending t s1) ∧
    sc_parkedIds (scanParked t (scanPending t s1)) =
      sc_parkedIds (scanPending t s1) ++ if isSome (dependencyParked t) then [id t] else []).
  { unfold scanParked. destruct (dependencyParked t); cbn; [done|]. by rewrite app_nil_r. }
  destruct Hk as (K1 & K2 & K3 & K4). split.
  - intros c. rewrite K1, P1, F3, A, countb_app, countb_cons, countb_nil. lia.
  - rewrite K2, P2, F4, B, countb_app, countb_cons, countb_nil. lia.
  - rewrite K3, P4, F1, C, countb_app, countb_cons, countb_nil. lia.
  - rewrite K4, P3, F2, D, List.filter_app, map_app. cbn. by destruct (isSome (dependencyParked t)).
Qed.

Lemma occupied_split ts :
  countb (λ t, isSome (class t)) ts = allClasses (λ c, countb (isClass c) ts).
Proof.
  unfold allClasses. induction ts as [|t ts IH]; [done|]. rewrite !countb_cons, IH. unfold isClass.
  destruct (class t) as [[]|]; simpl; repeat case_bool_decide; simplify_eq; lia.
Qed.
End scan.

(** *** The reservations of the store *)

Lemma hasFresh_other now i j s :
  i ≠ j →
  mget j (Store.launchReservations (Store.hasFreshLaunchReservation now i s).1) = mget j (Store.launchReservations s).
Proof.
  intros Hn. unfold Store.hasFreshLaunchReservation. repeat case_match; simpl; try done. by apply mget_mdel_ne.
Qed.

Lemma hasFreshActive_local now i s s' :
  mget i (Store.launchReservations s) = mget i (Store.launchReservations s') →
  (Store.hasFreshActiveLaunchReservation now i s).2 = (Store.hasFreshActiveLaunchReservation now i s').2.
Proof.
  intros He. unfold Store.hasFreshActiveLaunchReservation, Store.hasFreshLaunchReservation. rewrite He.
  destruct (mget i (Store.launchReservations s')) as [r|] eqn:E; [|by rewrite He, E].
  case_if; [done|]. by rewrite He, E.
Qed.

Definition holdsSlot (clock : string → Z) (s : Store.store) (t : Task) : bool :=
  bool_decide (status t = ts_inProgress)
  || ((bool_decide (status t = ts_open) || bool_decide (status t = ts_pending))
      && (Store.hasFreshActiveLaunchReservation (clock (id t)) (id t) s).2).

Lemma activeCount_scan clock s0 ts s n :
  NoDup (map id ts) →
  (∀ t, t ∈ ts → mget (id t) (Store.launchReservations s) = mget (id t) (Store.launchReservations s0)) →
  (foldl (λ acc t,
      let '(s, n) := acc in
      if bool_decide (status t = ts_inProgress) then (s, S n)
      else if bool_decide (status t = ts_open) || bool_decide (status t = ts_pending) then
        let '(s, active) := Store.hasFreshActiveLaunchReservation (clock (id t)) (id t) s in
        (s, if active then S n else n)
      else (s, n)) (s, n) ts).2 = (n + countb (holdsSlot clock s0) ts)%nat.
Proof.
  revert s n. induction ts as [|t ts IH]; intros s n Hnd Hs; cbn [foldl map] in *; [by rewrite Nat.add_0_r|].
  apply NoDup_cons in Hnd as [Hni Hnd]. rewrite countb_cons. unfold holdsSlot at 1.
  destruct (bool_decide (status t = ts_inProgress)); cbn [orb].
  { rewrite IH; [lia|done|]. intros t' Ht'. apply Hs. by right. }
  destruct (bool_decide (status t = ts_open) || bool_decide (status t = ts_pending)); cbn [andb].
  - rewrite <- (hasFreshActive_local (clock (id t)) (id t) s s0) by (apply Hs; by left).
    assert (Hst : (Store.hasFreshActiveLaunchReservation (clock (id t)) (id t) s).1
      = (Store.hasFreshLaunchReservation (clock (id t)) (id t) s).1).
    { unfold Store.hasFreshActiveLaunchReservation. by destruct (Store.hasFreshLaunchReservation _ _ _). }
    destruct (Store.hasFreshActiveLaunchReservation (clock (id t)) (id t) s) as [s1 b]. cbn [fst snd] in *.
    rewrite IH; [destruct b; lia|done|]. intros t' Ht'. rewrite Hst, hasFresh_other.
    + apply Hs. by right.
    + intros He. apply Hni. rewrite He. by apply list_elem_of_fmap_2.
  - rewrite IH; [lia|done|]. intros t' Ht'. apply Hs. by right.
Qed.

Lemma store_ids s : mwf (Store.tasks s) → Runs.lifecycleInv s → NoDup (map id (mvals (Store.tasks s))).
Proof.
  intros Hwf Hinv. assert (He : map id (mvals (Store.tasks s)) = mkeys (Store.tasks s)); [|by rewrite He].
  unfold mvals, mkeys. rewrite <- list_fmap_compose. apply list_fmap_ext. intros i [k t] Hi. cbn.
  apply list_elem_of_lookup_2 in Hi. apply elem_of_mget in Hi; [|done]. by destruct (Hinv k t Hi) as [? _].
Qed.

(** *** The sweep *)

Lemma elem_of_stale now thr ttl paused ts e :
  e ∈ listStaleCompletionReadyTasks now thr ttl paused ts ↔
  ∃ t, t ∈ ts ∧
    staleEntry now (orElse thr DEFAULT_STALE_COMPLETION_READY_THRESHOLD_MS) ttl paused t = Some e.
Proof. unfold listStaleCompletionReadyTasks. rewrite elem_of_sort_by, list_elem_of_omap. done. Qed.

Lemma staleEntry_spec now thr ttl paused t e :
  staleEntry now thr ttl paused t = Some e →
  ∃ raisedAt start, readySignal t = Some (st_signal e) ∧ sig_raisedAt (st_signal e) = Some raisedAt ∧
    latestLiveSession t = Some start ∧ st_task e = t ∧ paused t = false ∧
    start ≤ raisedAt ≤ now ∧ st_ageMs e = now - raisedAt ∧
    applicableThresholdMs t thr ttl ≤ now - raisedAt ∧
    st_policy e = classifyCompletionReadyClosePolicy t (Some (now - raisedAt)) ttl.
Proof.
  unfold staleEntry. destruct (readySignal t) as [sg|]; cbn; [|done]. destruct (paused t); [done|].
  destruct (sig_raisedAt sg) as [r|] eqn:Er; cbn; [|done].
  destruct (latestLiveSession t) as [st|]; cbn; [|done].
  destruct (r <? st) eqn:E1; [done|]. destruct (now <? r) eqn:E2; [done|].
  destruct (now - r <? applicableThresholdMs t thr ttl) eqn:E3; [done|]. intros [= <-]. zbool.
  exists r, st. cbn. split_and!; (done || lia).
Qed.

#[local] Instance byRaisedAt_order : CmpOrder byRaisedAt.
Proof. split; unfold byRaisedAt; intros; lia. Qed.

#[local] Instance bySilence_order : CmpOrder bySilence.
Proof. split; unfold bySilence; intros; lia. Qed.

Lemma StronglySorted_take {A} (R : A → A → Prop) n (l : list A) :
  StronglySorted R l → StronglySorted R (take n l).
Proof. intros Hs. rewrite <- (take_drop n l) in Hs. by eapply StronglySorted_app_1_l. Qed.

(** ** The theorems *)

(** The ledger is a partition.  Every class is the number of tasks in it, their sum is
    the number of tasks that hold a slot, the causes add up to the finished tasks, and
    the pending tasks are the launchable and the parked ones. *)
Theorem ledger_partition lc hung launch now thr ttl max reserved sources ts :
  let l := buildCapacityLedger lc hung launch now thr ttl max reserved sources ts in
  (∀ c, byClass l c = countb (λ t, bool_decide (classOf hung launch t = Some c)) ts) ∧
  active l = Z.of_nat (countb (λ t, isSome (classOf hung launch t)) ts) ∧
  active l = effectiveWorking l + phantomActive l ∧
  allCauses (finishedAwaitingAckByCause l) = byClass l finishedAwaitingAck ∧
  (pendingQueueDepth l + match parkedBlock l with Some p => pk_taskCount p | None => O end)%nat =
    countb (λ t, bool_decide (status t = ts_pending)) ts.
Proof.
  intros l. destruct (scan_inv hung launch now thr ttl ts) as [A B C D]. split_and!.
  - exact A.
  - rewrite occupied_split. unfold allClasses. rewrite <- !A. unfold l. simpl. lia.
  - done.
  - unfold l. simpl. by rewrite B, A.
  - assert (Hp : match parkedBlock l with Some p => pk_taskCount p | None => O end
      = countb (λ t, isSome (dependencyParked t)) ts).
    { unfold countb. rewrite <- (length_map id), <- D. unfold l, buildCapacityLedger. cbv zeta.
      cbn [parkedBlock]. by destruct (sc_parkedIds _). }
    assert (Hd : pendingQueueDepth l = countb (λ t, isPending t && negb (isSome (dependencyParked t))) ts) by exact C.
    rewrite Hd.
    rewrite Hp. clear. unfold isPending. induction ts as [|t ts IH]; [done|]. rewrite !countb_cons.
    unfold dependencyParked in *. destruct (bool_decide (status t = ts_pending)); cbn [andb isSome]; [|lia].
    destruct (launchAdmission t) as [[r ds w|ds w o]|]; cbn [isSome negb]; try lia.
    destruct (bool_decide (r = half_open_waiting_for_capacity)); cbn [isSome negb]; lia.
Qed.

(** The ledger and the launch path count the same slots: on the tasks of a store, with
    its reservations, [active] is what [getActiveCount] counts and [pendingQueueDepth]
    what [getPendingCount] does. *)
Theorem active_is_admission_count lc hung clock now thr ttl max reserved sources s :
  mwf (Store.tasks s) → Runs.lifecycleInv s →
  let launch t := (Store.hasFreshActiveLaunchReservation (clock (id t)) (id t) s).2 in
  let l := buildCapacityLedger lc hung launch now thr ttl max reserved sources (mvals (Store.tasks s)) in
  active l = Z.of_nat (Store.getActiveCount clock s).2 ∧
  pendingQueueDepth l = Store.getPendingCount s.
Proof.
  intros Hwf Hinv launch l. destruct (scan_inv hung launch now thr ttl (mvals (Store.tasks s))) as [A B C D].
  split.
  - unfold Store.getActiveCount. rewrite (activeCount_scan clock s); [|by apply store_ids|done]. cbn [Nat.add].
    assert (Hc : countb (holdsSlot clock s) (mvals (Store.tasks s))
      = countb (λ t, isSome (classOf hung launch t)) (mvals (Store.tasks s))).
    { unfold countb. f_equal. apply filter_ext. intros t. unfold holdsSlot, classOf, classifyTaskCapacity.
      fold (launch t). destruct (bool_decide (status t = ts_inProgress)); cbn [orb andb].
      - symmetry. by repeat case_match.
      - by destruct ((bool_decide (status t = ts_open) || bool_decide (status t = ts_pending)) && launch t). }
    rewrite Hc, occupied_split. unfold allClasses. rewrite <- !A.
    unfold l, buildCapacityLedger. cbv zeta beta. cbn [active]. lia.
  - change (pendingQueueDepth l) with (sc_pending (fold_left (scanTask hung launch now thr ttl) (mvals (Store.tasks s)) emptyScan)).
    rewrite C. unfold Store.getPendingCount, countb. f_equal. apply filter_ext. intros t.
    unfold isPending, dependencyParked. destruct (bool_decide (status t = ts_pending)); [|done]. cbn [andb].
    destruct (launchAdmission t) as [[r ds w|ds w o]|]; try done.
    by destruct (bool_decide (r = half_open_waiting_for_capacity)).
Qed.

(** Health and sweep agree.  A task the sweep lists is never reported as merely awaiting a
    poll, and it is reported as sweep backlog exactly when the sweep may close it;
    and a task reported as more than awaiting a poll is listed, unless its provider is
    paused or its signal predates its live session. *)
Theorem sweep_matches_health now thr ttl paused ts :
  (∀ e, e ∈ listStaleCompletionReadyTasks now thr ttl paused ts →
     ∃ c, classifyFaaRootCause now thr ttl (st_task e) = Some c ∧ c ≠ awaiting_poll ∧
       (canAutoClose (st_policy e) = true ↔ c = ack_sweep_backlog)) ∧
  (∀ t c, t ∈ ts → classifyFaaRootCause now thr ttl t = Some c → c ≠ awaiting_poll →
     paused t = false →
     (∃ s r start, readySignal t = Some s ∧ sig_raisedAt s = Some r ∧
        latestLiveSession t = Some start ∧ start ≤ r) →
     ∃ e, e ∈ listStaleCompletionReadyTasks now thr ttl paused ts ∧ st_task e = t).
Proof.
  split.
  - intros e (t & Ht & He)%elem_of_stale.
    destruct (staleEntry_spec _ _ _ _ _ _ He) as (r & st & Hr & Hat & _ & -> & _ & Hle & _ & Happ & Hpol).
    unfold classifyFaaRootCause. rewrite Hr. cbn. rewrite Hat.
    rewrite (proj2 (Z.ltb_ge _ _)), (proj2 (Z.ltb_ge _ _)) by lia. rewrite Hpol.
    destruct (classifyCompletionReadyClosePolicy t (Some (now - r)) ttl) as [why|[]]; eexists; split_and!; try done.
  - intros t c Ht Hc Hn Hp (s & r & st & Hr & Hat & Hst & Hle).
    unfold classifyFaaRootCause in Hc. rewrite Hr in Hc. cbn in Hc. rewrite Hat in Hc.
    destruct (now <? r) eqn:E1; [congruence|].
    destruct (now - r <? _) eqn:E2; [congruence|]. zbool.
    assert (He : ∃ e, staleEntry now (orElse thr DEFAULT_STALE_COMPLETION_READY_THRESHOLD_MS) ttl paused t = Some e).
    { unfold staleEntry. rewrite Hr. cbn. rewrite Hp, Hat. cbn. rewrite Hst. cbn.
      rewrite !(proj2 (Z.ltb_ge _ _)) by lia. by eexists. }
    destruct He as [e He]. exists e. split; [apply elem_of_stale; by exists t|].
    by destruct (staleEntry_spec _ _ _ _ _ _ He) as (_ & _ & _ & _ & _ & -> & _).
Qed.

(** The background sweep closes nothing early.  Every task it selects is in progress with
    a completion signal raised during its live session, is not paused and not in a
    running loop; an opted-in task has waited out its own review window whatever the
    TTL, any other the TTL; and the batch is oldest first, within the limit. *)
Theorem auto_close_sound now thr ttl paused limit ts :
  let batch := selectAutoClosableCompletionReadyTasks now thr ttl paused false true limit ts in
  (∀ e, e ∈ batch →
     ∃ r start, st_task e ∈ ts ∧ readySignal (st_task e) = Some (st_signal e) ∧
       sig_raisedAt (st_signal e) = Some r ∧ latestLiveSession (st_task e) = Some start ∧
       start ≤ r ≤ now ∧ paused (st_task e) = false ∧ isActiveRalphLoop (st_task e) = false ∧
       (if autoCloseOnSignal (st_task e)
        then orElse thr DEFAULT_STALE_COMPLETION_READY_THRESHOLD_MS ≤ now - r
        else ∃ T, ttl = Some T ∧ T ≤ now - r)) ∧
  StronglySorted (cmp_le byRaisedAt) batch ∧
  (∀ n, limit = Some n → (length batch ≤ n)%nat).
Proof.
  intros batch. set (all := List.filter (λ e, (false || canAutoClose (st_policy e))
    && (negb true || negb (isActiveRalphLoop (st_task e))))
    (listStaleCompletionReadyTasks now thr ttl paused ts)).
  assert (Hb : batch = match limit with Some n => take n all | None => all end) by done.
  assert (Hsub : ∀ e, e ∈ batch → e ∈ all).
  { intros e. rewrite Hb. destruct limit as [n|]; [|done]. intros He. rewrite <- (take_drop n all).
    apply elem_of_app. by left. }
  split_and!.
  - intros e He. apply Hsub, list_elem_of_In, filter_In in He as [He Hf]. apply list_elem_of_In in He.
    apply elem_of_stale in He as (t & Ht & He).
    destruct (staleEntry_spec _ _ _ _ _ _ He) as (r & st & Hr & Hat & Hst & Htk & Hp & Hle & _ & Happ & Hpol).
    simpl in Hf. rewrite Htk in *. apply andb_true_iff in Hf as [Hcan Hralph]. apply negb_true_iff in Hralph.
    exists r, st. split_and!; try done; [lia|lia|].
    rewrite Hpol in Hcan. unfold classifyCompletionReadyClosePolicy, applicableThresholdMs in *.
    destruct (autoCloseOnSignal t); [done|]. destruct ttl as [T|]; cbn in Hcan.
    + exists T. split; [done|]. case_if_in Hcan; [zbool; lia|]. case_if_in Hcan; done.
    + case_if_in Hcan; done.
  - rewrite Hb. assert (Hs : StronglySorted (cmp_le byRaisedAt) all) by apply StronglySorted_filter, sort_by_sorted, _.
    destruct limit; [by apply StronglySorted_take|done].
  - intros n ->. rewrite Hb, length_take. lia.
Qed.

(** C30: the reclaim is exact.  Every candidate is either selected or counted under one skip
    reason; a task is selected just when it is a candidate whose provider is not paused,
    which has been silent for the TTL on every channel that ever spoke, and for which it
    is known that no pull request is open; and the longest silent come first. *)
Theorem reclaim_exact now ttl hung lv paused pr ts :
  let r := selectExpiredHungSuspectTasks now ttl hung lv paused pr ts in
  candidatesConsidered r = countb (isCandidate hung) ts ∧
  candidatesConsidered r = (length (expired r) + allSkips (skips r))%nat ∧
  length (outcomes r) = candidatesConsidered r ∧
  (∀ e, e ∈ expired r ↔
     ex_task e ∈ ts ∧ isCandidate hung (ex_task e) = true ∧ paused (ex_task e) = false ∧
     pr (ex_task e) = Some false ∧
     ∃ l, lv (ex_task e) = Some l ∧ 0 < lastActivityAt l ∧ ttl ≤ ex_silentForMs e ∧
       ex_silentForMs e = now - lastActivityAt l) ∧
  StronglySorted (cmp_le bySilence) (expired r).
Proof.
  intros r. unfold r, selectExpiredHungSuspectTasks.
  set (a := fold_left _ ts _).
  assert (Ha : candidatesConsidered a = countb (isCandidate hung) ts ∧
    candidatesConsidered a = (length (expired a) + allSkips (skips a))%nat ∧
    length (outcomes a) = candidatesConsidered a ∧
    ∀ e, e ∈ expired a ↔ ex_task e ∈ ts ∧ isCandidate hung (ex_task e) = true ∧
      judge now ttl lv paused pr (ex_task e) = (selected, Some (ex_silentForMs e))).
  { unfold a. clear. induction ts as [|t ts (A & B & C & D)] using rev_ind.
    { split_and!; try done. intros e. cbn. split; [by intros ?%elem_of_nil|by intros [?%elem_of_nil _]]. }
    rewrite fold_left_app. cbn [fold_left]. set (b := fold_left _ ts _) in *. unfold reclaimStep.
    rewrite countb_app, countb_cons, countb_nil. destruct (isCandidate hung t) eqn:Ec.
    - destruct (judge now ttl lv paused pr t) as [o sil] eqn:Ej. cbn [candidatesConsidered expired skips outcomes].
      assert (Ho : (o = selected ∧ is_Some sil) ∨ ∃ k, o = skipped k).
      { unfold judge in Ej. repeat case_match; simplify_eq; eauto. }
      rewrite length_app. cbn [length]. destruct Ho as [[-> [x ->]]|[k ->]].
      + rewrite length_app. cbn [length]. split_and!; [lia|lia|lia|].
        intros e. rewrite elem_of_app, list_elem_of_singleton, D, elem_of_app, list_elem_of_singleton. split.
        * intros [(H1 & H2 & H3)| ->]; [tauto|]. cbn. rewrite Ej. tauto.
        * intros ([H1|H1] & H2 & H3); [tauto|]. right. destruct e as [et es]. cbn in *. subst et. congruence.
      + rewrite allSkips_bump. split_and!; [lia|lia|lia|].
        intros e. rewrite D, elem_of_app, list_elem_of_singleton. split; [tauto|].
        intros ([H1|H1] & H2 & H3); [tauto|]. rewrite H1, Ej in H3. done.
    - split_and!; [lia|done|done|]. intros e. rewrite D, elem_of_app, list_elem_of_singleton.
      split; [tauto|]. intros ([H1|H1] & H2 & H3); [tauto|]. rewrite H1, Ec in H2. done. }
  clearbody a. destruct Ha as (A & B & C & D). cbn [candidatesConsidered expired skips outcomes].
  split_and!; [done|by rewrite length_sort_by|done| |apply sort_by_sorted, _].
  intros e. rewrite elem_of_sort_by, D. unfold judge. split.
  - intros (H1 & H2 & H3). split_and!; [done|done|by repeat case_match|repeat case_match; congruence|].
    repeat (case_match; simplify_eq/=). zbool. eexists. split_and!; [done|lia|lia|done].
  - intros (H1 & H2 & H3 & H4 & l & H5 & H6 & H7 & H8). split_and!; [done|done|].
    rewrite H3, H5, H4, (proj2 (Z.leb_gt _ _)) by lia. cbv zeta.
    rewrite <- H8, (proj2 (Z.ltb_ge _ _)) by lia. done.
Qed.

(** A store with one launching task. *)
Definition demoStore : Store.store :=
  (Store.beginLaunchWithToken 5 5 "t1" Runs.sampleStore).1.

Lemma active_is_admission_count_witness :
  active (buildCapacityLedger (λ _ _, 0) (λ _, false)
    (λ t, (Store.hasFreshActiveLaunchReservation 6 (id t) demoStore).2) 6 None None 4 None None
    (mvals (Store.tasks demoStore))) = 1 ∧
  (Store.getActiveCount (λ _, 6) demoStore).2 = 1%nat.
Proof.
  split; [|reflexivity].
  refine (eq_trans (proj1 (active_is_admission_count (λ _ _, 0) (λ _, false) (λ _, 6) 6 None None 4 None None
    demoStore _ _)) _).
  - apply NoDup_singleton.
  - intros i t Ht. change (Store.tasks demoStore) with (Store.tasks Runs.sampleStore) in Ht.
    apply mget_elem_of in Ht. apply list_elem_of_singleton in Ht. injection Ht as -> ->. by split.
  - reflexivity.
Defined.

End Capacity.
