(* ===== verification/RalphCycler.v ===== *)
(** * The Ralph loop cycler

    [src/core/ralph-cycler.ts], [src/core/ralph-terminal-relaunch-policy.ts], and of
    [src/server/ralph-loop-service.ts] the operator's methods and what the service
    does with the cycler's action.

    [handleStop] awaits the predicates, the diff and the append of the log; what the
    operator does during each await is the argument [meanwhile].  The answers of the
    awaited calls are in [Answers].  An iteration number is a whole number, a cost an
    exact one.  Unicode normalisation is the parameter [nfc], of which nothing is
    assumed.  Only one Stop of a loop is handled at a time, on the loop object that
    was current when it began. *)

From S2P Require Import Prelude JsMap JsString TaskTypes.

Module Ralph.
#[local] Open Scope Z_scope.

(** ** Data *)

Inductive RalphIterationVerdict :=
| progress (iteration : Z) (target title reason : option string)
| complete (iteration : Z) (reason : option string)
| stalled (iteration : Z) (target : string) (title : option string) (reason : string)
    (blockers : option (list string)) (permanent : option bool).

Record RalphIterationDiffStats := mkDiff {
  filesChanged : Z;
  insertions : Z;
  deletions : Z
}.

Record RalphIterationRecord := mkIteration {
  iterationNumber : Z;
  startedAt : Z;
  endedAt : Z;
  exitReason : RalphIterationExitReason;
  cumulativeCostUsd : option Z;
  gitBaselineRef : option string;
  diffStats : option RalphIterationDiffStats;
  rec_verdict : option RalphIterationVerdict;
  costDeltaUsd : option Z
}.

Inductive UnburnVia := via_progress_verdict | via_patch_burned_targets | via_decay.

Inductive RalphCyclerEvent :=
| predicate_disagree (taskId : string) (iteration exitCode : Z)
| target_burned (taskId target : string) (iteration stallCount : Z) (reason : string)
| target_unburned (taskId target : string) (iteration : Z) (via : UnburnVia)
| iteration_cost_warning (taskId : string) (iteration costDelta cap streak : Z).

(** The events are in the state of the handler. *)
Inductive RalphCyclerAction :=
| launch_fresh (taskId text : string)
| terminate (reason : RalphIterationExitReason)
| noop.

Record PredicateResult := mkPredicate {
  satisfied : bool;
  exitCode : option Z;
  timedOut : bool;
  errored : bool
}.

Record HandleStopOptions := mkOptions {
  opt_taskId : string;
  opt_cost : option Z;
  opt_verdict : option RalphIterationVerdict;
  opt_now : Z
}.

(** What the awaited calls of one Stop answer: the predicates, the diff, and
    whether the record could be appended. *)
Record Answers := mkAnswers {
  ans_stop : PredicateResult;
  ans_stall : PredicateResult;
  ans_diff : option RalphIterationDiffStats;
  ans_append : bool
}.

Inductive AwaitPoint := aw_stopPredicate | aw_stallPredicate | aw_diff | aw_append.

(** The configuration with its defaults. *)
Record StallConfig := mkResolved {
  perTarget : Z;
  shape : LoopShape;
  forTermination : Z;
  declared : option (list string);
  decayIterations : option Z;
  iterationCostCap : option Z;
  costCapHits : Z
}.

Definition resolveStallConfig (cfg : option RalphStallConfig) : StallConfig :=
  mkResolved
    (orElse (cfg ≫= consecutiveStallsPerTarget) 2)
    (orElse (cfg ≫= loopShape) single_target)
    (orElse (cfg ≫= consecutiveStallsForSingleTargetTermination) 3)
    (cfg ≫= declaredTargets)
    (cfg ≫= burnedTargetDecayIterations)
    (cfg ≫= iterationCostCapUsd)
    (orElse (cfg ≫= consecutiveIterationCostCapHits) 2).

(** The live loop and task, the events so far, and the iteration log. *)
Record Live := mkLive {
  loop : RalphLoopState;
  taskUpdatedAt : Z;
  events : list RalphCyclerEvent;
  log : list RalphIterationRecord
}.

Definition withLoop (f : RalphLoopState → RalphLoopState) (v : Live) : Live :=
  mkLive (f (loop v)) (taskUpdatedAt v) (events v) (log v).

Definition pushEvent (e : RalphCyclerEvent) (v : Live) : Live :=
  mkLive (loop v) (taskUpdatedAt v) (events v ++ [e]) (log v).

(** ** The operator's methods *)

Definition isTerminalRalphStatus (s : RalphLoopStatus) : bool :=
  match s with rl_completed | rl_failed | rl_cancelled => true | _ => false end.

Definition setStatus (s : RalphLoopStatus) (l : RalphLoopState) : RalphLoopState :=
  {| l with rl_status := s |}.

Definition cancelLoop (l : RalphLoopState) : RalphLoopState :=
  match rl_status l with rl_running | rl_paused => setStatus rl_cancelled l | _ => l end.

Definition completeLoop (l : RalphLoopState) : RalphLoopState :=
  match rl_status l with rl_running | rl_paused => setStatus rl_completed l | _ => l end.

Definition pauseLoop (l : RalphLoopState) : RalphLoopState :=
  match rl_status l with rl_running => setStatus rl_paused l | _ => l end.

(** [resumeLoop], when a live session is found, up to its catch-up. *)
Definition resumeLoop (l : RalphLoopState) : RalphLoopState :=
  match rl_status l with rl_paused => setStatus rl_running l | _ => l end.

Section cycler.
Context (nfc : string → string).

(** [.replace(/^#/, '')]. *)
Definition stripHash (l : str) : str :=
  match l with c :: l' => if bool_decide (c = "#"%char) then l' else l | [] => [] end.

Definition canonicalizeTarget (raw : string) : string :=
  nfc (unchars (stripHash (map lowerChar (trimChars (chars raw))))).

Definition modifyBurnedTargets (remove : list string) (clear : bool) (l : RalphLoopState) :
    RalphLoopState :=
  if bool_decide (remove = []) && negb clear then l
  else if clear then {| l with burnedOutTargets := Some [] |}
  else
    let removeSet := map canonicalizeTarget remove in
    {| l with burnedOutTargets :=
         Some (List.filter (λ t, negb (existsb (String.eqb (bt_target t)) removeSet))
                 (orElse (burnedOutTargets l) [])) |}.

Inductive LoopOp :=
| OpPause | OpResume | OpCancel | OpComplete
| OpModifyBurned (remove : list string) (clear : bool).

Definition operate (l : RalphLoopState) (o : LoopOp) : RalphLoopState :=
  match o with
  | OpPause => pauseLoop l
  | OpResume => resumeLoop l
  | OpCancel => cancelLoop l
  | OpComplete => completeLoop l
  | OpModifyBurned r c => modifyBurnedTargets r c l
  end.

(** ** The rows of the given-up targets *)

(** Change the first row of a target. *)
Fixpoint updRow (target : string) (f : BurnedOutTarget → BurnedOutTarget)
    (rows : list BurnedOutTarget) : list BurnedOutTarget :=
  match rows with
  | [] => []
  | r :: rows' =>
      if String.eqb (bt_target r) target then f r :: rows' else r :: updRow target f rows'
  end.

Definition findRow (target : string) (rows : list BurnedOutTarget) : option BurnedOutTarget :=
  List.find (λ r, String.eqb (bt_target r) target) rows.

Definition rowsOf (l : RalphLoopState) : list BurnedOutTarget := orElse (burnedOutTargets l) [].

Definition setRows (rows : list BurnedOutTarget) (l : RalphLoopState) : RalphLoopState :=
  {| l with burnedOutTargets := Some rows |}.

Definition newRow (target reason : string) (blockers : list string) (iteration : Z) :
    BurnedOutTarget :=
  mkBurned target 0 0 iteration reason blockers false false iteration.

(** The row after one more stall, and whether that burned it. *)
Definition stallRow (cfg : StallConfig) (reason : string) (blockers : list string)
    (permanent : bool) (iteration : Z) (r : BurnedOutTarget) : BurnedOutTarget * bool :=
  let n := consecutiveStallCount r + 1 in
  let justBurned := negb (bt_burned r) && (permanent || (perTarget cfg <=? n)) in
  (mkBurned (bt_target r) n (totalStallCount r + 1) (firstStalledAtIteration r) reason blockers
     (bt_burned r || justBurned) (bt_permanent r || (justBurned && permanent)) iteration,
   justBurned).

Definition recordStall (cfg : StallConfig) (taskId target reason : string)
    (blockers : list string) (permanent : bool) (v : Live) : BurnedOutTarget * Live :=
  let l := loop v in
  let rows := match findRow target (rowsOf l) with
              | Some _ => rowsOf l
              | None => rowsOf l ++ [newRow target reason blockers (currentIteration l)]
              end in
  let row := orElse (findRow target rows) (newRow target reason blockers (currentIteration l)) in
  let '(row', justBurned) := stallRow cfg reason blockers permanent (currentIteration l) row in
  let v := withLoop (setRows (updRow target (λ _, row') rows)) v in
  (row',
   if justBurned
   then pushEvent (target_burned taskId target (currentIteration l) (consecutiveStallCount row') reason) v
   else v).

Definition resetRow (r : BurnedOutTarget) : BurnedOutTarget :=
  mkBurned (bt_target r) 0 (totalStallCount r) (firstStalledAtIteration r) (lastStallReason r)
    (lastStallBlockers r) false false (lastAttemptedIteration r).

Definition unburnTarget (target : string) (via : UnburnVia) (taskId : string) (v : Live) : Live :=
  match burnedOutTargets (loop v) with
  | None => v
  | Some rows =>
      match findRow target rows with
      | None => v
      | Some row =>
          let v := withLoop (setRows (updRow target resetRow rows)) v in
          if bt_burned row
          then pushEvent (target_unburned taskId target (currentIteration (loop v)) via) v
          else v
      end
  end.

Definition isStale (decay iteration : Z) (r : BurnedOutTarget) : bool :=
  negb (bt_permanent r) && (decay <=? iteration - lastAttemptedIteration r).

Definition applyDecay (cfg : StallConfig) (taskId : string) (v : Live) : Live :=
  match decayIterations cfg, burnedOutTargets (loop v) with
  | Some decay, Some rows =>
      fold_left (λ v r, unburnTarget (bt_target r) via_decay taskId v)
        (List.filter (isStale decay (currentIteration (loop v))) rows) v
  | _, _ => v
  end.

Definition allDeclaredBurned (targets : list string) (l : RalphLoopState) : bool :=
  let burnedSet := map bt_target (List.filter bt_burned (rowsOf l)) in
  forallb (λ d, existsb (String.eqb (canonicalizeTarget d)) burnedSet) targets.

(** ** One Stop in the cycler *)

Definition computeCostDelta (current prior : option Z) : option Z :=
  c ← current; p ← prior; Some (c - p).

Definition isZeroDiff (d : option RalphIterationDiffStats) : bool :=
  match d with
  | Some d => (filesChanged d =? 0) && (insertions d =? 0) && (deletions d =? 0)
  | None => false
  end.

Definition nextZeroDiffStreakFor (l : RalphLoopState) (d : option RalphIterationDiffStats) : Z :=
  if isZeroDiff d then orElse (zeroDiffStreak l) 0 + 1 else 0.

Definition isZeroDiffConverged (l : RalphLoopState) (streak : Z) : bool :=
  match zeroDiffConvergence l with Some threshold => threshold <=? streak | None => false end.

Definition isCostCapReached (l : RalphLoopState) (cost : option Z) : bool :=
  match costCapUsd l, cost with Some cap, Some c => cap <=? c | _, _ => false end.

(** A computation of the handler: it goes on with a value, or has its action. *)
Definition Flow (A : Type) : Type := Live → (A + RalphCyclerAction) * Live.

#[local] Instance flow_ret : MRet Flow := λ A a v, (inl a, v).
#[local] Instance flow_bind : MBind Flow := λ A B k m v,
  match m v with
  | (inl a, v') => k a v'
  | (inr act, v') => (inr act, v')
  end.

Definition modify (f : Live → Live) : Flow unit := λ v, (inl tt, f v).
Definition reads {A} (f : Live → A) : Flow A := λ v, (inl (f v), v).
Definition ret {A} (act : RalphCyclerAction) : Flow A := λ v, (inr act, v).

Section stop.
Context (o : HandleStopOptions) (a : Answers) (meanwhile : AwaitPoint → list LoopOp).

Definition await (p : AwaitPoint) : Flow unit :=
  modify (withLoop (λ l, fold_left operate (meanwhile p) l)).

(** What the handler computes before its first await. *)
Record Known := mkKnown {
  k_cfg : StallConfig;
  k_startedAt : Z;
  k_delta : option Z
}.

Definition known (l : RalphLoopState) : Known :=
  mkKnown (resolveStallConfig (stallConfig l))
    (if 0 <? lastIterationStartedAt l then lastIterationStartedAt l else opt_now o)
    (computeCostDelta (opt_cost o) (lastCumulativeCostUsd l)).

Definition computeIterationDiff : Flow (option string * option RalphIterationDiffStats) :=
  i ← reads (λ v, currentIteration (loop v));
  await aw_diff;;
  mret (match ans_diff a with
        | Some _ => Some ("ralph/iter-" +:+ showZ i +:+ "-start")
        | None => None
        end, ans_diff a).

Definition appendFinishedIteration (k : Known) (reason : RalphIterationExitReason)
    (diff : option string * option RalphIterationDiffStats) : Flow unit :=
  i ← reads (λ v, currentIteration (loop v));
  let record := mkIteration i (k_startedAt k) (opt_now o) reason (opt_cost o) (fst diff)
                  (snd diff) (opt_verdict o) (k_delta k) in
  await aw_append;;
  modify (λ v,
    let v := if ans_append a
             then mkLive (loop v) (taskUpdatedAt v) (events v) (log v ++ [record]) else v in
    match opt_cost o with
    | Some c => withLoop (λ l, {| l with lastCumulativeCostUsd := Some c |}) v
    | None => v
    end).

Definition setZeroDiffStreak (n : Z) (l : RalphLoopState) : RalphLoopState :=
  {| l with zeroDiffStreak := Some n |}.

Definition finishIteration (k : Known) (reason : RalphIterationExitReason) : Flow unit :=
  diff ← computeIterationDiff;
  modify (withLoop (λ l, setZeroDiffStreak (nextZeroDiffStreakFor l (snd diff)) l));;
  appendFinishedIteration k reason diff.

(** [terminate(task, loop, 'completed', now)] and the return after it. *)
Definition terminated {A} (reason : RalphIterationExitReason) : Flow A :=
  modify (λ v, mkLive (setStatus rl_completed (loop v)) (opt_now o) (events v) (log v));;
  ret (terminate reason).

Definition finish {A} (k : Known) (reason : RalphIterationExitReason) : Flow A :=
  finishIteration k reason;; terminated reason.

Definition checkPredicate : Flow (option PredicateResult) :=
  p ← reads (λ v, truthyStr (stopPredicate (loop v)));
  match p with
  | Some _ => await aw_stopPredicate;; mret (Some (ans_stop a))
  | None => mret None
  end.

(** The predicate ran and cleanly said no. *)
Definition disagrees (r : option PredicateResult) : bool :=
  match r with
  | Some r => negb (satisfied r) && negb (timedOut r) && negb (errored r)
  | None => false
  end.

Definition onComplete (k : Known) (outcome : option PredicateResult) : Flow unit :=
  match opt_verdict o with
  | Some (complete _ _) =>
      if disagrees outcome then
        modify (λ v, pushEvent (predicate_disagree (opt_taskId o) (currentIteration (loop v))
                                  (orElse (outcome ≫= exitCode) (-1))) v)
      else finish k xr_predicate_satisfied
  | _ => mret tt
  end.

Definition onProgress : Flow unit :=
  match opt_verdict o with
  | Some (progress _ target _ _) =>
      match truthyStr target with
      | Some t => modify (unburnTarget (canonicalizeTarget t) via_progress_verdict (opt_taskId o))
      | None => mret tt
      end
  | _ => mret tt
  end.

(** The stall of this iteration: its target, reason, blockers and [permanent]. *)
Definition stallSource : Flow (option (string * string * list string * bool)) :=
  match opt_verdict o with
  | Some (stalled _ target _ reason blockers permanent) =>
      mret (Some (canonicalizeTarget target, reason, orElse blockers [],
                  bool_decide (permanent = Some true)))
  | _ =>
      p ← reads (λ v, truthyStr (stallPredicate (loop v)));
      match p with
      | Some _ =>
          await aw_stallPredicate;;
          mret (if satisfied (ans_stall a)
                then Some ("__stall_predicate__", "stallPredicate exited 0", [], false)
                else None)
      | None => mret None
      end
  end.

Definition onStall (k : Known) (s : option (string * string * list string * bool)) : Flow unit :=
  let cfg := k_cfg k in
  match s with
  | None => mret tt
  | Some (target, reason, blockers, permanent) =>
      row ← (λ v, let '(r, v) := recordStall cfg (opt_taskId o) target reason blockers permanent v in
                  (inl r, v));
      if permanent && bool_decide (shape cfg = single_target) then finish k xr_target_stalled
      else if bool_decide (shape cfg = single_target)
              && (forTermination cfg <=? consecutiveStallCount row)
      then finish k xr_target_stalled
      else
        l ← reads loop;
        if bool_decide (shape cfg = multi_target)
           && match declared cfg with
              | Some ts => bool_decide (ts ≠ []) && allDeclaredBurned ts l
              | None => false
              end
        then finish k xr_all_targets_stalled
        else mret tt
  end.

Definition onIterationCost (k : Known) : Flow unit :=
  match iterationCostCap (k_cfg k), k_delta k with
  | Some cap, Some delta =>
      if cap <? delta then
        streak ← reads (λ v, orElse (consecutiveIterationCostCapStreak (loop v)) 0 + 1);
        modify (λ v, pushEvent (iteration_cost_warning (opt_taskId o) (currentIteration (loop v))
                                  delta cap streak)
          (withLoop (λ l, {| l with consecutiveIterationCostCapStreak := Some streak;
                             iterationCostWarningCount :=
                               Some (orElse (iterationCostWarningCount l) 0 + 1) |}) v));;
        if costCapHits (k_cfg k) <=? streak then finish k xr_iteration_cost_cap else mret tt
      else modify (withLoop (λ l, {| l with consecutiveIterationCostCapStreak := Some 0 |}))
  | _, _ => mret tt
  end.

Definition continueReason (s : option (string * string * list string * bool))
    (outcome : option PredicateResult) : RalphIterationExitReason :=
  match s, outcome with
  | Some _, _ => xr_target_stalled
  | None, Some r =>
      if timedOut r then xr_predicate_timeout
      else if errored r then xr_predicate_error else xr_continued
  | None, None => xr_continued
  end.

(** Steps 8 to 10: the cumulative cost, the convergence, or the next iteration. *)
Definition lastSteps (k : Known) (s : option (string * string * list string * bool))
    (outcome : option PredicateResult) : Flow unit :=
  diff ← computeIterationDiff;
  next ← reads (λ v, nextZeroDiffStreakFor (loop v) (snd diff));
  l ← reads loop;
  let close (reason : RalphIterationExitReason) : Flow unit :=
    modify (withLoop (setZeroDiffStreak next));;
    appendFinishedIteration k reason diff;;
    terminated reason in
  if isCostCapReached l (opt_cost o) then close xr_cost_cap
  else if isZeroDiffConverged l next then close xr_zero_diff_convergence
  else
    modify (withLoop (setZeroDiffStreak next));;
    appendFinishedIteration k (continueReason s outcome) diff;;
    modify (λ v,
      let l := loop v in
      mkLive {| l with currentIteration := currentIteration l + 1;
                       cumulativeIterations := cumulativeIterations l + 1;
                       lastIterationStartedAt := opt_now o |}
        (opt_now o) (events v) (log v));;
    text ← reads (λ v, rl_prompt (loop v));
    ret (launch_fresh (opt_taskId o) text).

(** The handler of a running loop. *)
Definition handleRunning : Flow unit :=
  k ← reads (λ v, known (loop v));
  capped ← reads (λ v, iterationCap (loop v) <=? currentIteration (loop v));
  if (capped : bool) then finish k xr_iteration_cap
  else
    modify (applyDecay (k_cfg k) (opt_taskId o));;
    outcome ← checkPredicate;
    if match outcome with Some r => satisfied r | None => false end
    then finish k xr_predicate_satisfied
    else
      onComplete k outcome;;
      onProgress;;
      s ← stallSource;
      onStall k s;;
      onIterationCost k;;
      lastSteps k s outcome.

(** [handleStop] on the loop of the task. *)
Definition handleStop (v : Live) : RalphCyclerAction * Live :=
  if bool_decide (rl_status (loop v) = rl_running) then
    match handleRunning v with
    | (inr act, v) => (act, v)
    | (inl _, v) => (noop, v)
    end
  else (noop, v).
End stop.

(** ** What the service does around it *)

Inductive TerminalRelaunchDisposition := relaunch | escalate | stop.

Definition classifyTerminalExit (reason : RalphIterationExitReason) : TerminalRelaunchDisposition :=
  match reason with
  | xr_cost_cap | xr_iteration_cost_cap => escalate
  | xr_iteration_cap | xr_target_stalled | xr_all_targets_stalled => relaunch
  | _ => stop
  end.

Definition exitReasonName (r : RalphIterationExitReason) : string :=
  match r with
  | xr_predicate_satisfied => "predicate_satisfied" | xr_predicate_timeout => "predicate_timeout"
  | xr_iteration_cap => "iteration_cap" | xr_zero_diff_convergence => "zero_diff_convergence"
  | xr_cost_cap => "cost_cap" | xr_cancelled => "cancelled" | xr_paused => "paused"
  | xr_kookr_crash => "kookr_crash" | xr_session_dead => "session_dead"
  | xr_predicate_error => "predicate_error" | xr_continued => "continued"
  | xr_target_stalled => "target_stalled" | xr_all_targets_stalled => "all_targets_stalled"
  | xr_iteration_cost_cap => "iteration_cost_cap" | xr_replaced_by_user => "replaced_by_user"
  | xr_first_hook_miss => "first_hook_miss" | xr_unknown => "unknown"
  end.

Definition escalationDetail (reason : RalphNeedsHumanReason) (exit : RalphIterationExitReason) :
    string :=
  match reason with
  | budget_exhausted =>
      match exit with
      | xr_iteration_cost_cap =>
          "Loop hit the per-iteration cost cap repeatedly; review spend, then raise the cap and start a fresh loop or close the work."
      | _ =>
          "Loop reached its cumulative cost cap; review spend, then raise the cap and start a fresh loop or close the work."
      end
  | relaunch_exhausted =>
      "Loop was relaunched to its cap without reaching a clean stop (last exit: "
      +:+ exitReasonName exit
      +:+ "); it is likely stuck — investigate, then start a fresh loop once unblocked."
  end.

Definition DEFAULT_TERMINAL_RELAUNCH_MAX : Z := 20.

(** A launch: what the operator does while it is under way, and how it ends. *)
Record LaunchEnv := mkLaunchEnv {
  ln_name : string;
  ln_during : list LoopOp;
  ln_ok : bool
}.

Inductive LaunchOutcome := launched | launch_failed | launch_interrupted.

Definition dropOwner (name : string) (l : RalphLoopState) : RalphLoopState :=
  if bool_decide (ownerSessionId l = Some name) then {| l with ownerSessionId := None |} else l.

Definition launchFreshRuntime (e : LaunchEnv) (l : RalphLoopState) : LaunchOutcome * RalphLoopState :=
  let l := {| l with ownerSessionId := Some (ln_name e) |} in
  let l := fold_left operate (ln_during e) l in
  if negb (ln_ok e) then (launch_failed, dropOwner (ln_name e) l)
  else if bool_decide (rl_status l = rl_running) then (launched, l)
  else (launch_interrupted, dropOwner (ln_name e) l).

(** The relaunch policy's surroundings: whether the actuator is wired and enabled,
    its cap, whether the task has an issue claim, and the arbiter's answer. *)
Record RelaunchEnv := mkRelaunchEnv {
  re_wired : bool;
  re_max : option Z;
  re_claim : bool;
  re_acquired : bool;
  re_launch : LaunchEnv;
  re_now : Z
}.

Definition escalateNeedsHuman (now : Z) (exit : RalphIterationExitReason)
    (reason : RalphNeedsHumanReason) (l : RalphLoopState) : RalphLoopState :=
  {| l with needsHuman := Some (mkNeedsHuman reason exit now (escalationDetail reason exit)) |}.

Definition rearm (fingerprint : string) (now : Z) (l : RalphLoopState) : RalphLoopState :=
  {| l with rl_status := rl_running; currentIteration := 0; zeroDiffStreak := Some 0;
     consecutiveIterationCostCapStreak := Some 0; burnedOutTargets := Some [];
     terminalRelaunchCount := Some (orElse (terminalRelaunchCount l) 0 + 1);
     needsHuman := None; handlingStopFingerprint := None;
     lastHandledStopFingerprint := Some fingerprint; lastIterationStartedAt := now |}.

(** The loop, and whether an agent was launched for it. *)
Definition tryTerminalRelaunch (e : RelaunchEnv) (reason : RalphIterationExitReason)
    (fingerprint : string) (l : RalphLoopState) : bool * RalphLoopState :=
  if negb (re_wired e) || negb (re_claim e) then (false, l)
  else
    let max := orElse (re_max e) DEFAULT_TERMINAL_RELAUNCH_MAX in
    if (0 <? max) && (max <=? orElse (terminalRelaunchCount l) 0)
    then (false, escalateNeedsHuman (re_now e) reason relaunch_exhausted l)
    else if negb (re_acquired e) then (false, l)
    else
      match launchFreshRuntime (re_launch e) (rearm fingerprint (re_now e) l) with
      | (launched, l) => (true, l)
      | (_, l) =>
          (false, if bool_decide (rl_status l = rl_running) then setStatus rl_failed l else l)
      end.

Definition handleTerminalExit (e : RelaunchEnv) (reason : RalphIterationExitReason)
    (fingerprint : string) (l : RalphLoopState) : bool * RalphLoopState :=
  match classifyTerminalExit reason with
  | stop => (false, l)
  | escalate => (false, escalateNeedsHuman (re_now e) reason budget_exhausted l)
  | relaunch => tryTerminalRelaunch e reason fingerprint l
  end.

(** The surroundings of one Stop: the operator before the cycler runs and after it,
    the cycler's own awaits, and the launches. *)
Record StopEnv := mkStopEnv {
  se_options : HandleStopOptions;
  se_answers : Answers;
  se_before : list LoopOp;
  se_meanwhile : AwaitPoint → list LoopOp;
  se_after : list LoopOp;
  se_launch : LaunchEnv;
  se_relaunch : RelaunchEnv
}.

Definition setHandling (f : option string) (l : RalphLoopState) : RalphLoopState :=
  {| l with handlingStopFingerprint := f |}.

(** The end of a launch, in the mutation that follows it. *)
Definition settleLaunch (fingerprint : string) (failed : bool) (l : RalphLoopState) :
    RalphLoopState :=
  if bool_decide (handlingStopFingerprint l = Some fingerprint) then
    let l := {| l with handlingStopFingerprint := None;
                       lastHandledStopFingerprint := Some fingerprint |} in
    if failed then setStatus rl_failed l else l
  else l.

(** The Stop is not taken up: the loop does not run, or it was handled or is being
    handled. *)
Definition ignored (fingerprint : string) (l : RalphLoopState) : bool :=
  negb (bool_decide (rl_status l = rl_running))
  || bool_decide (lastHandledStopFingerprint l = Some fingerprint)
  || bool_decide (handlingStopFingerprint l = Some fingerprint).

Definition setLoop (l : RalphLoopState) (v : Live) : Live := withLoop (λ _, l) v.

(** Whether an agent was launched, and the state after. *)
Definition handleStopFingerprint (e : StopEnv) (fingerprint : string) (v : Live) : bool * Live :=
  if ignored fingerprint (loop v) then (false, v)
  else
    let v := withLoop (setHandling (Some fingerprint)) v in
    let v := withLoop (λ l, fold_left operate (se_before e) l) v in
    let '(act, v) := handleStop (se_options e) (se_answers e) (se_meanwhile e) v in
    let v := withLoop (λ l, fold_left operate (se_after e) l) v in
    match act with
    | terminate reason =>
        let '(b, l) := handleTerminalExit (se_relaunch e) reason fingerprint (loop v) in
        (b, setLoop l v)
    | launch_fresh _ _ =>
        if bool_decide (rl_status (loop v) = rl_running)
           && bool_decide (handlingStopFingerprint (loop v) = Some fingerprint)
        then
          match launchFreshRuntime (se_launch e) (loop v) with
          | (launched, l) => (true, setLoop (settleLaunch fingerprint false l) v)
          | (launch_failed, l) => (false, setLoop (settleLaunch fingerprint true l) v)
          | (launch_interrupted, l) => (false, setLoop (settleLaunch fingerprint false l) v)
          end
        else (false, v)
    | noop =>
        if bool_decide (rl_status (loop v) = rl_running)
           && bool_decide (handlingStopFingerprint (loop v) = Some fingerprint)
        then (false, withLoop (setHandling None) v)
        else (false, v)
    end.

(** ** The loop over time *)

Inductive op :=
| OStop (fingerprint : string) (e : StopEnv)
| OOperate (o : LoopOp).

Definition exec (s : Live * nat) (p : op) : Live * nat :=
  let '(v, n) := s in
  match p with
  | OStop fp e => let '(b, v) := handleStopFingerprint e fp v in (v, if b then S n else n)
  | OOperate o => (withLoop (λ l, operate l o) v, n)
  end.

Definition run (ops : list op) (v : Live) : Live * nat := fold_left exec ops (v, O).

(** ** Reasoning about the handler *)

Definition wp {A} (m : Flow A) (Q : A → Live → Prop) (E : RalphCyclerAction → Live → Prop)
    (v : Live) : Prop :=
  match m v with (inl x, v') => Q x v' | (inr act, v') => E act v' end.

Lemma wp_bind {A B} (m : Flow A) (k : A → Flow B) Q E v :
  wp m (λ x, wp (k x) Q E) E v → wp (m ≫= k) Q E v.
Proof. unfold wp, mbind, flow_bind. by destruct (m v) as [[x|act] v']. Qed.

Lemma wp_mono {A} (m : Flow A) (Q Q' : A → Live → Prop) E v :
  wp m Q E v → (∀ x v', Q x v' → Q' x v') → wp m Q' E v.
Proof. unfold wp. destruct (m v) as [[x|act] v']; auto. Qed.

Lemma wp_seq {A B} (m : Flow A) (k : A → Flow B) (R : A → Live → Prop) Q E v :
  wp m R E v → (∀ x v', R x v' → wp (k x) Q E v') → wp (m ≫= k) Q E v.
Proof. intros H Hk. by eapply wp_bind, wp_mono. Qed.

(** One step that only reads or changes the state. *)
Ltac wp_step := apply wp_bind; unfold reads, modify, await, wp at 1; cbn beta iota.

(** Both branches of a condition. *)
Ltac wp_if := match goal with |- wp (if ?b then _ else _) _ _ _ => destruct b end.

(** What nothing inside the handler changes. *)
Definition fixed (l : RalphLoopState) :=
  (rl_prompt l, iterationCap l, stallConfig l, terminalRelaunchCount l,
   (handlingStopFingerprint l, lastHandledStopFingerprint l, ownerSessionId l)).

(** A row of a target: its counters, and that it is given up exactly when its stalls in
    a row reach the limit or one was permanent. *)
Record rowOk (limit now : Z) (r : BurnedOutTarget) : Prop := {
  ro_counts : 0 <= consecutiveStallCount r <= totalStallCount r;
  ro_total : 1 <= totalStallCount r;
  ro_burned : bt_burned r = bt_permanent r || (limit <=? consecutiveStallCount r);
  ro_first : firstStalledAtIteration r <= lastAttemptedIteration r;
  ro_last : lastAttemptedIteration r <= now
}.

Definition limitOf (l : RalphLoopState) : Z := perTarget (resolveStallConfig (stallConfig l)).

(** At most one row per target, and every row sound. *)
Definition rowsOk (l : RalphLoopState) : Prop :=
  NoDup (map bt_target (rowsOf l)) ∧ Forall (rowOk (limitOf l) (currentIteration l)) (rowsOf l).

Record Frame (v0 v : Live) : Prop := {
  fr_fixed : fixed (loop v) = fixed (loop v0);
  fr_current : currentIteration (loop v) = currentIteration (loop v0);
  fr_cumulative : cumulativeIterations (loop v) = cumulativeIterations (loop v0);
  fr_log : log v = log v0;
  fr_rows : 0 < limitOf (loop v0) → rowsOk (loop v0) → rowsOk (loop v)
}.

Lemma Frame_refl v : Frame v v.
Proof. by split. Qed.

Lemma fixed_limit l l' : fixed l = fixed l' → limitOf l = limitOf l'.
Proof. unfold fixed, limitOf. congruence. Qed.

Lemma Frame_trans v0 v1 v2 : Frame v0 v1 → Frame v1 v2 → Frame v0 v2.
Proof.
  intros [A1 A2 A3 A4 A5] [B1 B2 B3 B4 B5]. split; [congruence..|].
  intros Hl H. apply B5; [|by apply A5]. by rewrite (fixed_limit _ _ A1).
Qed.

(** Changes of the loop that touch neither the rows nor what [Frame] fixes. *)
Lemma Frame_withLoop v0 f v :
  (∀ l, fixed (f l) = fixed l ∧ currentIteration (f l) = currentIteration l ∧
        cumulativeIterations (f l) = cumulativeIterations l ∧ rowsOf (f l) = rowsOf l) →
  Frame v0 v → Frame v0 (withLoop f v).
Proof.
  intros Hf H. eapply Frame_trans; [done|]. destruct (Hf (loop v)) as (F1 & F2 & F3 & F4).
  split; simpl; try done. intros _ [N R]. unfold rowsOk. rewrite F4, F2, (fixed_limit _ _ F1). done.
Qed.

Lemma Frame_event v0 e v : Frame v0 v → Frame v0 (pushEvent e v).
Proof. intros H. eapply Frame_trans; [done|]. by split. Qed.

(** *** The rows *)

Lemma Forall_filter_list {A} (P : A → Prop) (p : A → bool) l : Forall P l → Forall P (List.filter p l).
Proof.
  rewrite !Forall_forall. intros H x Hx%list_elem_of_In. apply filter_In in Hx as [Hx _].
  by apply H, list_elem_of_In.
Qed.

Lemma NoDup_map_filter {A B} (f : A → B) (p : A → bool) l :
  NoDup (map f l) → NoDup (map f (List.filter p l)).
Proof.
  induction l as [|x l IH]; [done|]. simpl. rewrite NoDup_cons. intros [Hx Hl].
  destruct (p x); [|by apply IH]. simpl. apply NoDup_cons. split; [|by apply IH].
  rewrite list_elem_of_In, in_map_iff in Hx |- *. intros (y & Hy & Hin%filter_In). apply Hx. exists y. split; [done|apply Hin].
Qed.

Lemma updRow_targets t f rows :
  (∀ r, bt_target r = t → bt_target (f r) = t) → map bt_target (updRow t f rows) = map bt_target rows.
Proof.
  intros Hf. induction rows as [|r rows IH]; [done|]. simpl. destruct (String.eqb_spec (bt_target r) t) as [E|E].
  - simpl. by rewrite (Hf _ E), E.
  - simpl. by rewrite IH.
Qed.

Lemma updRow_Forall (P : BurnedOutTarget → Prop) t f rows :
  (∀ r, bt_target r = t → P r → P (f r)) → Forall P rows → Forall P (updRow t f rows).
Proof.
  intros Hf. induction 1 as [|r rows Hr H IH]; [done|]. simpl.
  destruct (String.eqb_spec (bt_target r) t); constructor; auto.
Qed.

Lemma findRow_Some t rows r : findRow t rows = Some r → r ∈ rows ∧ bt_target r = t.
Proof.
  intros H. apply find_some in H as [Hin He]. by rewrite list_elem_of_In, <- (proj1 (String.eqb_eq _ _) He).
Qed.

Lemma findRow_None t rows : findRow t rows = None → t ∉ map bt_target rows.
Proof.
  intros H. rewrite list_elem_of_In, in_map_iff. intros (r & Hr & Hin).
  pose proof (find_none _ _ H _ Hin) as He. simpl in He. by rewrite Hr, String.eqb_refl in He.
Qed.

Lemma findRow_upd t f rows r :
  findRow t rows = Some r → bt_target (f r) = t → findRow t (updRow t f rows) = Some (f r).
Proof.
  intros H Hf. induction rows as [|x rows IH]; [done|]. simpl in *.
  destruct (String.eqb (bt_target x) t) eqn:E; simpl.
  - injection H as ->. by rewrite Hf, String.eqb_refl.
  - rewrite E. by apply IH.
Qed.

Lemma findRow_app t rows r : findRow t rows = None → bt_target r = t → findRow t (rows ++ [r]) = Some r.
Proof.
  intros H Hr. induction rows as [|x rows IH]; simpl in *; [by rewrite Hr, String.eqb_refl|].
  destruct (String.eqb (bt_target x) t); [done|]. by apply IH.
Qed.

Lemma resetRow_ok limit now r : 0 < limit → rowOk limit now r → rowOk limit now (resetRow r).
Proof.
  intros Hl [A B C D E]. split; simpl; lia.
Qed.

Lemma rowsOk_setRows l rows :
  NoDup (map bt_target rows) → Forall (rowOk (limitOf l) (currentIteration l)) rows → rowsOk (setRows rows l).
Proof. done. Qed.

Lemma Frame_rows v0 v rows :
  Frame v0 v →
  (0 < limitOf (loop v) → rowsOk (loop v) →
   NoDup (map bt_target rows) ∧ Forall (rowOk (limitOf (loop v)) (currentIteration (loop v))) rows) →
  Frame v0 (withLoop (setRows rows) v).
Proof.
  intros H Hr. eapply Frame_trans; [done|]. by split.
Qed.

Lemma unburn_frame t via i v0 v : Frame v0 v → Frame v0 (unburnTarget t via i v).
Proof.
  intros H. unfold unburnTarget. destruct (burnedOutTargets (loop v)) as [rows|] eqn:Eb; [|done].
  destruct (findRow t rows) as [r|]; [|done].
  assert (Hf : Frame v0 (withLoop (setRows (updRow t resetRow rows)) v)).
  { apply Frame_rows; [done|]. unfold rowsOk, rowsOf. rewrite Eb. simpl. intros Hl [N F]. split.
    - by rewrite updRow_targets.
    - apply updRow_Forall; [|done]. intros; by apply resetRow_ok. }
  destruct (bt_burned r); [by apply Frame_event|done].
Qed.

Lemma decay_frame cfg i v0 v : Frame v0 v → Frame v0 (applyDecay cfg i v).
Proof.
  intros H. unfold applyDecay. destruct (decayIterations cfg), (burnedOutTargets (loop v)); try done.
  generalize (List.filter (isStale z (currentIteration (loop v))) l). intros rs.
  revert v H. induction rs as [|r rs IH]; intros v H; [done|]. simpl. apply IH. by apply unburn_frame.
Qed.

(** What a row must satisfy before it takes one more stall. *)
Record rowPre (limit now : Z) (r : BurnedOutTarget) : Prop := {
  rp_counts : 0 <= consecutiveStallCount r <= totalStallCount r;
  rp_burned : bt_burned r = bt_permanent r || (limit <=? consecutiveStallCount r);
  rp_first : firstStalledAtIteration r <= now
}.

Lemma rowOk_pre limit now r : rowOk limit now r → rowPre limit now r.
Proof. intros [A B C D E]. split; [done|done|lia]. Qed.

Lemma newRow_pre limit now t reason bl : 0 < limit → rowPre limit now (newRow t reason bl now).
Proof. intros H. split; simpl; lia. Qed.

Lemma stallRow_ok cfg reason bl perm now r :
  rowPre (perTarget cfg) now r → rowOk (perTarget cfg) now (fst (stallRow cfg reason bl perm now r)).
Proof.
  intros [A B C]. split; simpl; try lia. rewrite B.
  destruct (bt_permanent r), perm; simpl; try done;
    destruct (Z.leb_spec (perTarget cfg) (consecutiveStallCount r)),
             (Z.leb_spec (perTarget cfg) (consecutiveStallCount r + 1)); simpl; try done; lia.
Qed.

Lemma updRow_snoc (P : BurnedOutTarget → Prop) t r' r0 rows :
  findRow t rows = None → bt_target r0 = t → P r' → Forall P rows →
  Forall P (updRow t (λ _, r') (rows ++ [r0])).
Proof.
  intros E Ht Hr' F. induction F as [|r rs Hr F IH]; simpl in *.
  - rewrite Ht, String.eqb_refl. by constructor.
  - destruct (String.eqb (bt_target r) t); [done|]. constructor; auto.
Qed.

Lemma recordStall_frame cfg i t reason bl perm v0 v :
  perTarget cfg = limitOf (loop v0) → Frame v0 v →
  Frame v0 (snd (recordStall cfg i t reason bl perm v)).
Proof.
  intros Hc H. unfold recordStall.
  set (rows := match findRow t (rowsOf (loop v)) with Some _ => _ | None => _ end).
  set (row := orElse (findRow t rows) _). set (row' := fst (stallRow cfg reason bl perm (currentIteration (loop v)) row)).
  assert (Hf : Frame v0 (withLoop (setRows (updRow t (λ _, row') rows)) v)).
  { apply Frame_rows; [done|]. rewrite <- (fixed_limit _ _ (fr_fixed _ _ H)) in Hc. rewrite <- Hc.
    intros Hl [N F]. rewrite <- Hc in F.
    assert (Hrow : rowPre (perTarget cfg) (currentIteration (loop v)) row ∧ bt_target row = t).
    { subst row rows. destruct (findRow t (rowsOf (loop v))) as [r|] eqn:E.
      - rewrite E. apply findRow_Some in E as [Hin Ht]. split; [|done].
        by eapply rowOk_pre, (proj1 (Forall_forall _ _) F).
      - rewrite findRow_app by done. split; [by apply newRow_pre|done]. }
    destruct Hrow as [Hpre Ht].
    assert (Hok : rowOk (perTarget cfg) (currentIteration (loop v)) row') by by apply stallRow_ok.
    split.
    - rewrite updRow_targets by done. subst rows. destruct (findRow t (rowsOf (loop v))) eqn:E; [done|].
      rewrite map_app. apply NoDup_app. split; [done|]. split; [|apply NoDup_singleton].
      intros x Hx ->%list_elem_of_singleton. by apply findRow_None in E.
    - clearbody row'. subst rows. destruct (findRow t (rowsOf (loop v))) eqn:E.
      + by apply updRow_Forall.
      + by apply updRow_snoc. }
  unfold row' in Hf. destruct (stallRow cfg reason bl perm (currentIteration (loop v)) row) as [r' [|]]; simpl in *; [by apply Frame_event|done].
Qed.

Lemma operate_frame o v0 v : Frame v0 v → Frame v0 (withLoop (λ l, operate l o) v).
Proof.
  intros H. destruct o as [| | | |rm cl]; simpl.
  1-4: apply Frame_withLoop; [|done]; intros l; unfold pauseLoop, resumeLoop, cancelLoop, completeLoop; by destruct (rl_status l).
  unfold modifyBurnedTargets. eapply Frame_trans; [done|]. destruct (bool_decide (rm = []) && negb cl) eqn:E1.
  { split; simpl; rewrite ?E1; done. }
  destruct cl; split; simpl; rewrite ?E1; try done; intros _ [N F].
  - split; simpl; constructor.
  - split; simpl; [by apply NoDup_map_filter|by apply Forall_filter_list].
Qed.

Lemma operates_frame os v0 v : Frame v0 v → Frame v0 (withLoop (λ l, fold_left operate os l) v).
Proof.
  revert v. induction os as [|o os IH]; intros v H; simpl.
  - destruct v. done.
  - specialize (IH (withLoop (λ l, operate l o) v)). apply IH. by apply operate_frame.
Qed.

(** *** The stages *)

Definition continuing (r : RalphIterationExitReason) : Prop :=
  r ∈ [xr_target_stalled; xr_predicate_timeout; xr_predicate_error; xr_continued].

Section stages.
Context (o : HandleStopOptions) (a : Answers) (mw : AwaitPoint → list LoopOp) (v0 : Live).

(** The log has one more record, of this iteration, if the append succeeded. *)
Definition logged (reason : RalphIterationExitReason) (v : Live) : Prop :=
  ∃ rec, log v = log v0 ++ (if ans_append a then [rec] else []) ∧
    iterationNumber rec = currentIteration (loop v0) ∧ exitReason rec = reason.

(** What an action of the handler leaves behind. *)
Record Outcome (act : RalphCyclerAction) (v : Live) : Prop := {
  oc_fixed : fixed (loop v) = fixed (loop v0);
  oc_rows : 0 < limitOf (loop v0) → rowsOk (loop v0) → rowsOk (loop v);
  oc_act :
    match act with
    | terminate r =>
        rl_status (loop v) = rl_completed ∧ logged r v ∧
        currentIteration (loop v) = currentIteration (loop v0)
    | launch_fresh i text =>
        i = opt_taskId o ∧ text = rl_prompt (loop v0) ∧ (∃ r, continuing r ∧ logged r v) ∧
        currentIteration (loop v) = currentIteration (loop v0) + 1 ∧
        currentIteration (loop v0) < iterationCap (loop v0)
    | noop => False
    end
}.

Abbreviation keeps m v := (wp m (λ _ v', Frame v0 v') Outcome v).

Lemma await_frame p v : Frame v0 v → Frame v0 (withLoop (λ l, fold_left operate (mw p) l) v).
Proof. apply operates_frame. Qed.

Lemma diff_ok v : Frame v0 v → wp (computeIterationDiff a mw) (λ _ v', Frame v0 v') Outcome v.
Proof. intros H. unfold wp. simpl. by apply await_frame. Qed.

Lemma append_ok k r d v :
  Frame v0 v →
  wp (appendFinishedIteration o a mw k r d)
    (λ _ v', fixed (loop v') = fixed (loop v0) ∧
       currentIteration (loop v') = currentIteration (loop v0) ∧
       cumulativeIterations (loop v') = cumulativeIterations (loop v0) ∧ logged r v' ∧
       (0 < limitOf (loop v0) → rowsOk (loop v0) → rowsOk (loop v'))) Outcome v.
Proof.
  intros H. unfold wp. simpl. pose proof (await_frame aw_append v H) as [A B C D E]. simpl in *.
  match goal with |- context [mkIteration ?x1 ?x2 ?x3 ?x4 ?x5 ?x6 ?x7 ?x8 ?x9] =>
    set (rec := mkIteration x1 x2 x3 x4 x5 x6 x7 x8 x9) end.
  assert (Hrec : iterationNumber rec = currentIteration (loop v0) ∧ exitReason rec = r)
    by (split; [apply H|done]). clearbody rec. unfold logged. rewrite <- D.
  destruct (ans_append a), (opt_cost o); simpl; (split_and!; [done|done|done| |done]);
    exists rec; by rewrite ?app_nil_r.
Qed.

Lemma streak_frame n v : Frame v0 v → Frame v0 (withLoop (setZeroDiffStreak n) v).
Proof. by apply Frame_withLoop. Qed.

Lemma terminated_ok {A} k r d Q v :
  Frame v0 v → wp (appendFinishedIteration o a mw k r d;; terminated (A:=A) o r) Q Outcome v.
Proof.
  intros H. eapply wp_seq; [by apply append_ok|]. intros _ v' (A1 & A2 & A3 & A4 & A5).
  unfold wp. simpl. by split.
Qed.

Lemma finish_ok {A} k r (Q : A → Live → Prop) v : Frame v0 v → wp (finish o a mw k r) Q Outcome v.
Proof.
  intros H. unfold finish, finishIteration.
  eapply (wp_seq _ _ (λ _ v', fixed (loop v') = fixed (loop v0) ∧
       currentIteration (loop v') = currentIteration (loop v0) ∧
       cumulativeIterations (loop v') = cumulativeIterations (loop v0) ∧ logged r v' ∧
       (0 < limitOf (loop v0) → rowsOk (loop v0) → rowsOk (loop v')))).
  - eapply wp_seq; [by apply diff_ok|]. intros d v1 H1. cbn beta in H1. wp_step.
    by apply append_ok, Frame_withLoop.
  - intros _ v' (A1 & A2 & A3 & A4 & A5). unfold wp. simpl. by split.
Qed.

Lemma predicate_ok v : Frame v0 v → wp (checkPredicate a mw) (λ _ v', Frame v0 v') Outcome v.
Proof.
  intros H. unfold checkPredicate. wp_step. destruct (truthyStr (stopPredicate (loop v))); [|done].
  wp_step. unfold wp. simpl. by apply await_frame.
Qed.

Lemma complete_ok k r v : Frame v0 v → keeps (onComplete o a mw k r) v.
Proof.
  intros H. unfold onComplete. destruct (opt_verdict o) as [[| |]|]; try done.
  destruct (disagrees r); [|by apply finish_ok]. unfold wp. simpl. by apply Frame_event.
Qed.

Lemma progress_ok v : Frame v0 v → keeps (onProgress o) v.
Proof.
  intros H. unfold onProgress. destruct (opt_verdict o) as [[? t ? ?| |]|]; try done.
  destruct (truthyStr t); [|done]. unfold wp. simpl. by apply unburn_frame.
Qed.

Lemma source_ok v : Frame v0 v → wp (stallSource o a mw) (λ _ v', Frame v0 v') Outcome v.
Proof.
  intros H. unfold stallSource. destruct (opt_verdict o) as [[| |]|]; try done.
  all: wp_step; destruct (truthyStr (stallPredicate (loop v))); [|done].
  all: wp_step; unfold wp; simpl; by apply await_frame.
Qed.

Lemma stall_ok k s v :
  perTarget (k_cfg k) = limitOf (loop v0) → Frame v0 v → keeps (onStall o a mw k s) v.
Proof.
  intros Hk H. unfold onStall. destruct s as [[[[t reason] bl] perm]|]; [|done].
  apply (wp_seq _ _ (λ _ v', Frame v0 v')).
  - unfold wp. pose proof (recordStall_frame (k_cfg k) (opt_taskId o) t reason bl perm v0 v Hk H) as Hr.
    by destruct (recordStall _ _ _ _ _ _ _).
  - intros row v1 H1. cbn beta in H1.
    do 2 (wp_if; [by apply finish_ok|]). wp_step. wp_if; [by apply finish_ok|done].
Qed.

Lemma cost_ok k v : Frame v0 v → keeps (onIterationCost o a mw k) v.
Proof.
  intros H. unfold onIterationCost. destruct (iterationCostCap (k_cfg k)) as [cap|]; [|done].
  destruct (k_delta k) as [delta|]; [|done].
  destruct (cap <? delta); [|unfold wp; simpl; by apply Frame_withLoop].
  wp_step. wp_step.
  match goal with |- wp _ _ _ ?v1 => assert (H1 : Frame v0 v1) by by apply Frame_event, Frame_withLoop end.
  case_match; [by apply finish_ok|done].
Qed.

Lemma last_ok k s r v :
  currentIteration (loop v0) < iterationCap (loop v0) →
  Frame v0 v → wp (lastSteps o a mw k s r) (λ _ _, False) Outcome v.
Proof.
  intros Hc H. unfold lastSteps. eapply wp_seq; [by apply diff_ok|]. intros d v1 H1. cbn beta in H1.
  wp_step. wp_step.
  case_match; [wp_step; by apply terminated_ok, streak_frame|].
  case_match; [wp_step; by apply terminated_ok, streak_frame|].
  wp_step. eapply wp_seq; [by apply append_ok, streak_frame|].
  intros _ v2 (A1 & A2 & A3 & A4 & A5). unfold wp. simpl. split; simpl; [done| |].
  - intros Hl Hr. destruct (A5 Hl Hr) as [N F]. split; [done|]. eapply Forall_impl; [exact F|].
    intros x [B1 B2 B3 B4 B5]. simpl. split; try done. lia.
  - split_and!; [done|unfold fixed in A1; congruence| |lia|done].
    exists (continueReason s r). split; [|done].
    unfold continueReason, continuing. repeat case_match; set_solver.
Qed.
End stages.

Lemma handleStop_ok o a mw v act v' :
  handleStop o a mw v = (act, v') →
  (rl_status (loop v) ≠ rl_running ∧ act = noop ∧ v' = v) ∨
  (rl_status (loop v) = rl_running ∧ Outcome o a v act v').
Proof.
  unfold handleStop. case_bool_decide as Hr; [|intros [= <- <-]; by left]. intros E. right. split; [done|].
  assert (W : wp (handleRunning o a mw) (λ _ _, False) (Outcome o a v) v).
  { unfold handleRunning. wp_step. wp_step.
    destruct (iterationCap (loop v) <=? currentIteration (loop v)) eqn:Ec; [apply finish_ok, Frame_refl|]. apply Z.leb_gt in Ec.
    wp_step.
    eapply wp_seq; [by apply predicate_ok, decay_frame, Frame_refl|]. intros r v1 H1. cbn beta in H1.
    wp_if; [by apply finish_ok|].
    eapply wp_seq; [by apply complete_ok|]. intros ? v2 H2; cbn beta in H2. eapply wp_seq; [by apply progress_ok|]. intros ? v3 H3; cbn beta in H3.
    eapply wp_seq; [by apply source_ok|]. intros s v4 H4; cbn beta in H4. eapply wp_seq; [by apply stall_ok|]. intros ? v5 H5; cbn beta in H5.
    eapply wp_seq; [by apply cost_ok|]. intros ? v6 H6; cbn beta in H6. by apply last_ok. }
  unfold wp in W. destruct (handleRunning o a mw v) as [[x|act'] v1]; [done|]. by simplify_eq.
Qed.

(** *** The loop between the Stops *)

Definition alive (l : RalphLoopState) : Prop := rl_status l = rl_running ∨ rl_status l = rl_paused.

(** Nothing the run counts has changed, and no dead loop has come to life. *)
Record Quiet (l l' : RalphLoopState) : Prop := {
  q_cap : iterationCap l' = iterationCap l;
  q_current : currentIteration l' = currentIteration l;
  q_count : terminalRelaunchCount l' = terminalRelaunchCount l;
  q_config : stallConfig l' = stallConfig l;
  q_rows : 0 < limitOf l → rowsOk l → rowsOk l';
  q_alive : alive l' → alive l
}.

Lemma Quiet_trans l1 l2 l3 : Quiet l1 l2 → Quiet l2 l3 → Quiet l1 l3.
Proof.
  intros [A1 A2 A3 A4 A5 A6] [B1 B2 B3 B4 B5 B6]. split; try congruence; auto.
  intros Hl H. apply B5; [|by apply A5]. unfold limitOf. by rewrite A4.
Qed.

#[local] Instance Quiet_preorder : PreOrder Quiet.
Proof. split; [by split|exact Quiet_trans]. Qed.

Lemma operate_quiet l o : Quiet l (operate l o).
Proof.
  destruct (operate_frame o (mkLive l 0 [] []) (mkLive l 0 [] []) (Frame_refl _)) as [A B C D E]. simpl in *.
  unfold fixed in A. split; try congruence; [done|]. unfold alive. clear.
  destruct o as [| | | |rm cl]; simpl; unfold pauseLoop, resumeLoop, cancelLoop, completeLoop, modifyBurnedTargets.
  1-4: destruct (rl_status l) eqn:E; rewrite ?E; simpl; tauto.
  repeat case_match; done.
Qed.

Lemma operates_quiet os l : Quiet l (fold_left operate os l).
Proof.
  revert l. induction os as [|o os IH]; intros l; simpl; [done|]. etrans; [apply operate_quiet|apply IH].
Qed.

Lemma operates_completed os l : rl_status l = rl_completed → rl_status (fold_left operate os l) = rl_completed.
Proof.
  revert l. induction os as [|o os IH]; intros l H; simpl; [done|]. apply IH.
  destruct o as [| | | |rm cl]; simpl; unfold pauseLoop, resumeLoop, cancelLoop, completeLoop, modifyBurnedTargets;
    rewrite ?H; try done. by repeat case_match.
Qed.

Lemma dropOwner_quiet name l : Quiet l (dropOwner name l).
Proof. unfold dropOwner. case_match; [by split|done]. Qed.

Lemma launch_quiet e l res l' : launchFreshRuntime e l = (res, l') → Quiet l l'.
Proof.
  unfold launchFreshRuntime. intros H.
  pose proof (operates_quiet (ln_during e) {| l with ownerSessionId := Some (ln_name e) |}) as Q.
  assert (Q' : Quiet l (fold_left operate (ln_during e) {| l with ownerSessionId := Some (ln_name e) |})).
  { etrans; [|exact Q]. by split. }
  pose proof (dropOwner_quiet (ln_name e)) as D. revert H. destruct (negb (ln_ok e)); [|case_match];
    intros [= <- <-]; [|done|]; (etrans; [exact Q'|apply D]).
Qed.

Lemma settle_quiet fp l : Quiet l (settleLaunch fp false l).
Proof. unfold settleLaunch. case_match; [by split|done]. Qed.

Lemma settle_failed_quiet fp l : Quiet l (settleLaunch fp true l).
Proof. unfold settleLaunch. case_match; [|done]. split; try done. intros [|]; done. Qed.

(** What a relaunch does to the loop. *)
Record Rearmed (e : RelaunchEnv) (l l' : RalphLoopState) : Prop := {
  ra_cap : iterationCap l' = iterationCap l;
  ra_current : currentIteration l' = 0;
  ra_count : orElse (terminalRelaunchCount l') 0 = orElse (terminalRelaunchCount l) 0 + 1;
  ra_config : stallConfig l' = stallConfig l;
  ra_rows : 0 < limitOf l → rowsOk l';
  ra_wired : re_wired e = true;
  ra_max : 0 < orElse (re_max e) DEFAULT_TERMINAL_RELAUNCH_MAX →
           orElse (terminalRelaunchCount l) 0 < orElse (re_max e) DEFAULT_TERMINAL_RELAUNCH_MAX
}.

Lemma terminal_cases e reason fp l b l' :
  rl_status l = rl_completed → handleTerminalExit e reason fp l = (b, l') →
  (b = false ∧ Quiet l l' ∧ rl_status l' = rl_completed) ∨ Rearmed e l l'.
Proof.
  intros Hs. unfold handleTerminalExit, tryTerminalRelaunch.
  destruct (classifyTerminalExit reason); [| |intros [= <- <-]; by left].
  2: { intros [= <- <-]. left. split; [done|]. by split. }
  destruct (re_wired e) eqn:Ew; simpl; [|intros [= <- <-]; by left].
  destruct (re_claim e); simpl; [|intros [= <- <-]; by left].
  destruct ((0 <? _) && _) eqn:Em; [intros [= <- <-]; left; split; [done|]; by split|].
  destruct (re_acquired e); simpl; [|intros [= <- <-]; by left].
  destruct (launchFreshRuntime (re_launch e) (rearm fp (re_now e) l)) as [res l1] eqn:El.
  intros H. right. apply launch_quiet in El as [A1 A2 A3 A4 A5 A6].
  assert (R : Rearmed e l l1).
  { split; simpl in *; try congruence.
    - by rewrite A3.
    - intros Hl. apply A5; [done|]. split; simpl; constructor.
    - intros Hm. apply andb_false_iff in Em as [Em|Em]; lia. }
  destruct res; simplify_eq; [done|..];
    (case_match; [|done]; destruct R as [R1 R2 R3 R4 R5 R6 R7]; by split).
Qed.

(** The loop has gone on to its next iteration. *)
Record Advanced (l l' : RalphLoopState) : Prop := {
  ad_cap : iterationCap l' = iterationCap l;
  ad_current : currentIteration l' = currentIteration l + 1;
  ad_room : currentIteration l < iterationCap l;
  ad_count : terminalRelaunchCount l' = terminalRelaunchCount l;
  ad_config : stallConfig l' = stallConfig l;
  ad_rows : 0 < limitOf l → rowsOk l → rowsOk l';
  ad_alive : alive l
}.

(** What a Stop comes to. *)
Inductive Moved (e : StopEnv) (v : Live) (b : bool) (v' : Live) : Prop :=
| moved_not : log v' = log v → Quiet (loop v) (loop v') → b = false → Moved e v b v'
| moved_on r : continuing r → logged (se_answers e) v r v' → Advanced (loop v) (loop v') → Moved e v b v'
| moved_done r :
    logged (se_answers e) v r v' → Quiet (loop v) (loop v') → rl_status (loop v') = rl_completed →
    b = false → alive (loop v) → Moved e v b v'
| moved_again r :
    logged (se_answers e) v r v' → Rearmed (se_relaunch e) (loop v) (loop v') → alive (loop v) →
    Moved e v b v'.

Lemma Quiet_Advanced l1 l2 l3 l4 : Quiet l1 l2 → Advanced l2 l3 → Quiet l3 l4 → Advanced l1 l4.
Proof.
  intros [A1 A2 A3 A4 A5 A6] [B1 B2 B3 B4 B5 B6 B7] [C1 C2 C3 C4 C5 C6].
  unfold limitOf in *. rewrite A4 in *. rewrite B5 in *. split; first [congruence|lia|auto].
Qed.

Lemma logged_move a v1 v2 r v v' :
  log v1 = log v2 → currentIteration (loop v1) = currentIteration (loop v2) → log v = log v' →
  logged a v1 r v → logged a v2 r v'.
Proof. unfold logged. intros -> -> ->. done. Qed.

Lemma Outcome_quiet o a v reason v' :
  rl_status (loop v) = rl_running → Outcome o a v (terminate reason) v' → Quiet (loop v) (loop v').
Proof.
  intros Hr [F R (S & L & C)]. unfold fixed in F. split; try congruence; [done|]. intros _. by left.
Qed.

Lemma Outcome_advanced o a v i text v' :
  rl_status (loop v) = rl_running → Outcome o a v (launch_fresh i text) v' → Advanced (loop v) (loop v').
Proof.
  intros Hr [F R (_ & _ & L & C & C')]. unfold fixed in F. split; first [congruence|lia|done|by left].
Qed.

Lemma stop_moved e fp v b v' : handleStopFingerprint e fp v = (b, v') → Moved e v b v'.
Proof.
  unfold handleStopFingerprint. destruct (ignored fp (loop v)); [intros [= <- <-]; by apply moved_not|].
  set (l1 := fold_left operate (se_before e) (setHandling (Some fp) (loop v))).
  change (withLoop _ (withLoop _ v)) with (mkLive l1 (taskUpdatedAt v) (events v) (log v)).
  set (v1 := mkLive l1 (taskUpdatedAt v) (events v) (log v)).
  assert (Q1 : Quiet (loop v) (loop v1)).
  { etrans; [|apply operates_quiet]. by split. }
  destruct (handleStop (se_options e) (se_answers e) (se_meanwhile e) v1) as [act v2] eqn:Eh.
  pose proof (operates_quiet (se_after e) (loop v2)) as Q2. set (l3 := fold_left operate (se_after e) (loop v2)) in *.
  set (v3 := withLoop (λ l, fold_left operate (se_after e) l) v2).
  assert (Hlog : log v3 = log v2) by done. change (loop v3) with l3.
  apply handleStop_ok in Eh as [(Hr & -> & ->)|[Hr O]].
  - assert (Q : Quiet (loop v) l3) by by etrans.
    intros H. apply moved_not.
    + by repeat case_match; simplify_eq.
    + destruct (_ && _) in H; injection H as <- <-; [|done]. etrans; [exact Q|]. by split.
    + by destruct (_ && _) in H; simplify_eq.
  - destruct act as [i text|reason|]; [| |by destruct (oc_act _ _ _ _ _ O)].
    + pose proof (Outcome_advanced _ _ _ _ _ _ Hr O) as A.
      destruct (oc_act _ _ _ _ _ O) as (_ & _ & (r & Hc & L) & _).
      assert (K : ∀ v4, log v4 = log v3 → Quiet l3 (loop v4) → Moved e v b v4).
      { intros v4 E4 Q4. eapply (moved_on _ _ _ _ r); [done| |].
        - eapply logged_move; [| | |exact L]; [done|apply Q1|by rewrite E4].
        - eapply Quiet_Advanced; [exact Q1|exact A|]. by etrans. }
      destruct (_ && _); [|intros [= <- <-]; by apply K].
      destruct (launchFreshRuntime (se_launch e) l3) as [res l4] eqn:El. apply launch_quiet in El.
      destruct res; intros [= <- <-]; apply K; try done; (etrans; [exact El|]);
        first [apply settle_quiet|apply settle_failed_quiet].
    + pose proof (Outcome_quiet _ _ _ _ _ Hr O) as Q. destruct (oc_act _ _ _ _ _ O) as (S & L & _).
      destruct (handleTerminalExit (se_relaunch e) reason fp l3) as [b' l4] eqn:Et. intros [= <- <-].
      assert (L' : logged (se_answers e) v reason (setLoop l4 v3)).
      { eapply logged_move; [| | |exact L]; [done|apply Q1|done]. }
      assert (Q' : Quiet (loop v) l3) by (etrans; [exact Q1|]; by etrans).
      apply terminal_cases in Et as [(-> & Q4 & S4)|R]; [| |by apply operates_completed].
      * apply (moved_done _ _ _ _ reason); try done; [by etrans|apply Q1; by left].
      * apply (moved_again _ _ _ _ reason); [done| |apply Q1; by left].
        destruct Q' as [B1 B2 B3 B4 B5 B6], R as [R1 R2 R3 R4 R5 R6 R7]. unfold limitOf in *.
        split; simpl; rewrite <- ?B3; try congruence; rewrite <- ?B4; auto.
        intros Hl. apply R5. by rewrite B4.
Qed.

Lemma ignored_running fp l : ignored fp l = false → rl_status l = rl_running.
Proof.
  unfold ignored. intros [[H _]%orb_false_iff _]%orb_false_iff. by apply negb_false_iff, bool_decide_eq_true in H.
Qed.

(** *** Counting *)

(** How many launches the loop may still have, with a relaunch cap [mx]. *)
Definition budget (mx : Z) (l : RalphLoopState) : Z :=
  Z.max 0 (mx - orElse (terminalRelaunchCount l) 0) * (Z.max 0 (iterationCap l) + 1)
  + Z.max 0 (iterationCap l - currentIteration l).

Definition aliveZ (l : RalphLoopState) : Z :=
  match rl_status l with rl_running | rl_paused => 1 | _ => 0 end.

Lemma aliveZ_le l l' : (alive l' → alive l) → aliveZ l' <= aliveZ l.
Proof.
  unfold alive, aliveZ. intros H. destruct (rl_status l'), (rl_status l); try lia; exfalso; naive_solver.
Qed.

Lemma aliveZ_one l : alive l → aliveZ l = 1.
Proof. unfold aliveZ. by intros [-> | ->]. Qed.

Lemma aliveZ_range l : 0 <= aliveZ l <= 1.
Proof. unfold aliveZ. case_match; lia. Qed.

Lemma budget_quiet mx l l' : Quiet l l' → budget mx l' = budget mx l.
Proof. intros [A1 A2 A3 A4 A5 A6]. unfold budget. by rewrite A1, A2, A3. Qed.

Lemma budget_advanced mx l l' : Advanced l l' → budget mx l' = budget mx l - 1.
Proof. intros [A1 A2 A3 A4 A5 A6]. unfold budget. rewrite A1, A2, A4. lia. Qed.

Lemma budget_rearmed mx e l l' :
  0 < mx → orElse (re_max e) DEFAULT_TERMINAL_RELAUNCH_MAX = mx → Rearmed e l l' →
  budget mx l' <= budget mx l - 1.
Proof.
  intros Hm He [A1 A2 A3 A4 A5 A6 A7]. rewrite He in A7. specialize (A7 Hm). unfold budget.
  rewrite A1, A2, A3. rewrite !(Z.max_r 0 (mx - _)) by lia. nia.
Qed.

Lemma logged_length a v r v' : logged a v r v' → (length (log v') <= S (length (log v)))%nat.
Proof. intros (rec & -> & _). rewrite length_app. case_match; simpl; lia. Qed.

Definition cappedBy (mx : Z) (p : op) : Prop :=
  match p with
  | OStop _ e => orElse (re_max (se_relaunch e)) DEFAULT_TERMINAL_RELAUNCH_MAX = mx
  | OOperate _ => True
  end.

Lemma stop_counts mx fp e v b v' :
  0 < mx → cappedBy mx (OStop fp e) → handleStopFingerprint e fp v = (b, v') →
  (if b then 1 else 0) + budget mx (loop v') <= budget mx (loop v) ∧
  Z.of_nat (length (log v')) + budget mx (loop v') + aliveZ (loop v')
    <= Z.of_nat (length (log v)) + budget mx (loop v) + aliveZ (loop v).
Proof.
  intros Hm He H. pose proof (aliveZ_range (loop v')).
  apply stop_moved in H as [L Q ->|r Hc L A|r L Q S -> Al|r L A Al].
  - rewrite (budget_quiet _ _ _ Q), L. pose proof (aliveZ_le _ _ (q_alive _ _ Q)). lia.
  - rewrite (budget_advanced _ _ _ A). apply logged_length in L.
    rewrite (aliveZ_one (loop v)) by apply A. destruct b; lia.
  - rewrite (budget_quiet _ _ _ Q). apply logged_length in L.
    rewrite (aliveZ_one (loop v)) by done. unfold aliveZ. rewrite S. lia.
  - pose proof (budget_rearmed _ _ _ _ Hm He A). apply logged_length in L.
    rewrite (aliveZ_one (loop v)) by done. destruct b; lia.
Qed.

Lemma run_snoc ops p v : run (ops ++ [p]) v = exec (run ops v) p.
Proof. unfold run. by rewrite fold_left_app. Qed.

Lemma run_counts mx ops v :
  0 < mx → Forall (cappedBy mx) ops →
  let '(v', n) := run ops v in
  Z.of_nat n + budget mx (loop v') <= budget mx (loop v) ∧
  Z.of_nat (length (log v')) + budget mx (loop v') + aliveZ (loop v')
    <= Z.of_nat (length (log v)) + budget mx (loop v) + aliveZ (loop v).
Proof.
  intros Hm. induction ops as [|p ops IH] using rev_ind; intros H; [unfold run; simpl; lia|].
  apply Forall_app in H as [H Hp]. rewrite Forall_singleton in Hp. specialize (IH H). rewrite run_snoc.
  destruct (run ops v) as [v1 n]. unfold exec. destruct p as [fp e|o].
  - destruct (handleStopFingerprint e fp v1) as [b v2] eqn:E. apply (stop_counts mx) in E; [|done..].
    destruct b; lia.
  - simpl. pose proof (operate_quiet (loop v1) o) as Q. rewrite (budget_quiet _ _ _ Q).
    pose proof (aliveZ_le _ _ (q_alive _ _ Q)). lia.
Qed.

(** *** The log *)

(** A Stop whose record reaches the log, in a server that does not relaunch. *)
Definition plainStop (p : op) : Prop :=
  match p with
  | OStop _ e => ans_append (se_answers e) = true ∧ re_wired (se_relaunch e) = false
  | OOperate _ => True
  end.

(** The log of a loop that began at iteration [c] with an empty log. *)
Record Audited (c : Z) (v : Live) : Prop := {
  au_numbers : map iterationNumber (log v) = seqZ c (Z.of_nat (length (log v)));
  au_current : alive (loop v) → currentIteration (loop v) = c + Z.of_nat (length (log v));
  au_reasons : ∀ i r, log v !! i = Some r →
    continuing (exitReason r) ∨ (S i = length (log v) ∧ rl_status (loop v) = rl_completed);
  au_live : alive (loop v) → Forall (λ r, continuing (exitReason r)) (log v)
}.

Lemma seqZ_snoc c n : seqZ c (Z.of_nat (S n)) = seqZ c (Z.of_nat n) ++ [c + Z.of_nat n].
Proof. rewrite Nat2Z.inj_succ. rewrite <- Z.add_1_r, seqZ_app by lia. done. Qed.

Lemma Audited_snoc c v v' rec :
  Audited c v → alive (loop v) → log v' = log v ++ [rec] →
  iterationNumber rec = currentIteration (loop v) →
  (alive (loop v') → currentIteration (loop v') = currentIteration (loop v) + 1) →
  (continuing (exitReason rec) ∨ rl_status (loop v') = rl_completed) → Audited c v'.
Proof.
  intros [A B C D] Ha El En Ec Er. specialize (B Ha). specialize (D Ha).
  assert (Hlen : length (log v') = S (length (log v))) by (rewrite El, length_app; simpl; lia).
  split.
  - rewrite Hlen, seqZ_snoc, El, map_app, A. simpl. by rewrite En, B.
  - intros Hv. rewrite (Ec Hv), Hlen. lia.
  - intros i r Hi. rewrite Hlen. rewrite El in Hi. apply lookup_snoc_Some in Hi as [[Hi Hr]|[-> ->]].
    + left. exact (Forall_lookup_1 _ _ _ _ D Hr).
    + naive_solver.
  - intros Hv. rewrite El. apply Forall_app. split; [done|]. apply Forall_singleton.
    destruct Er as [Er|Er]; [done|]. unfold alive in Hv. rewrite Er in Hv. naive_solver.
Qed.

Lemma Audited_quiet c v v' :
  Audited c v → log v' = log v → Quiet (loop v) (loop v') →
  (rl_status (loop v) = rl_completed → rl_status (loop v') = rl_completed) → Audited c v'.
Proof.
  intros [A B C D] El [Q1 Q2 Q3 Q4 Q5 Q6] Hs. split; rewrite El; [done| | |by auto].
  - intros Hv. rewrite Q2. auto.
  - intros i r Hi. destruct (C i r Hi) as [?|[? ?]]; auto.
Qed.

Lemma ignored_completed e fp v b v' :
  rl_status (loop v) = rl_completed → handleStopFingerprint e fp v = (b, v') → v' = v.
Proof.
  intros H. unfold handleStopFingerprint, ignored. rewrite bool_decide_false by congruence. simpl. congruence.
Qed.

Lemma exec_audited c v n p :
  plainStop p → Audited c v → Audited c (fst (exec (v, n) p)).
Proof.
  intros Hp H. destruct p as [fp e|o]; unfold exec.
  - destruct Hp as [Ha Hw]. destruct (handleStopFingerprint e fp v) as [b v'] eqn:E. simpl.
    pose proof (λ H, ignored_completed _ _ _ _ _ H E) as Hi. apply stop_moved in E.
    assert (Hl : ∀ r, logged (se_answers e) v r v' → ∃ rec, log v' = log v ++ [rec] ∧
      iterationNumber rec = currentIteration (loop v) ∧ exitReason rec = r).
    { intros r (rec & L). rewrite Ha in L. by exists rec. }
    destruct E as [L Q ->|r Hc L A|r L Q S -> Al|r L A Al].
    + eapply Audited_quiet; [done..|]. intros Hs. by rewrite Hi.
    + apply Hl in L as (rec & L & Hn & Hr). eapply Audited_snoc; [done|apply A|done|done| |left; by rewrite Hr].
      intros _. apply A.
    + apply Hl in L as (rec & L & Hn & Hr). eapply Audited_snoc; [done..| |by right].
      unfold alive. rewrite S. naive_solver.
    + pose proof (ra_wired _ _ _ A). congruence.
  - simpl. eapply Audited_quiet; [done|done|apply operate_quiet|].
    intros Hs. by apply (operates_completed [o]).
Qed.

Lemma run_audited c ops v : Forall plainStop ops → Audited c v → Audited c (fst (run ops v)).
Proof.
  intros H Hv. induction ops as [|p ops IH] using rev_ind; [done|].
  apply Forall_app in H as [H Hp]. rewrite Forall_singleton in Hp. rewrite run_snoc.
  specialize (IH H). destruct (run ops v) as [v1 n]. by apply exec_audited.
Qed.

(** *** The rows *)

Lemma exec_rows v n p :
  0 < limitOf (loop v) → rowsOk (loop v) →
  let v' := fst (exec (v, n) p) in stallConfig (loop v') = stallConfig (loop v) ∧ rowsOk (loop v').
Proof.
  intros Hl H. destruct p as [fp e|o]; unfold exec.
  - destruct (handleStopFingerprint e fp v) as [b v'] eqn:E. apply stop_moved in E. simpl.
    destruct E as [L [] ->|r Hc L []|r L [] S -> Al|r L [] Al]; auto.
  - simpl. destruct (operate_quiet (loop v) o). auto.
Qed.

Lemma run_rows ops v :
  0 < limitOf (loop v) → rowsOk (loop v) →
  stallConfig (loop (fst (run ops v))) = stallConfig (loop v) ∧ rowsOk (loop (fst (run ops v))).
Proof.
  intros Hl H. induction ops as [|p ops IH] using rev_ind; [done|].
  rewrite run_snoc. destruct (run ops v) as [v1 n], IH as [E1 E2]. cbn [fst] in *.
  destruct (exec_rows v1 n p) as [F1 F2]; [unfold limitOf; by rewrite E1|done|]. by rewrite <- E1.
Qed.

(** ** The theorems *)

(** C24: the loop ends.  However Stops, operator commands and relaunches interleave, the
    launches are at most what the iteration cap leaves, plus one full round for each
    relaunch the policy still allows; and at most one iteration more is recorded. *)
Theorem launches_bounded mx ops v :
  0 < mx → Forall (cappedBy mx) ops →
  let '(v', n) := run ops v in
  Z.of_nat n <= budget mx (loop v) ∧
  Z.of_nat (length (log v')) <= Z.of_nat (length (log v)) + budget mx (loop v) + 1.
Proof.
  intros Hm H. pose proof (run_counts mx ops v Hm H) as C. destruct (run ops v) as [v' n].
  assert (0 <= budget mx (loop v')) by (unfold budget; nia).
  pose proof (aliveZ_range (loop v)). pose proof (aliveZ_range (loop v')). lia.
Qed.

(** The audit trail is complete when every append to it succeeds and the server does not relaunch:
    the log numbers the iterations without gap or repetition from the first one; the loop, while it
    lives, is at the next number; and a record with a final reason is the last one, of a loop that
    has completed. (The code goes on after an append that fails; the closing of orphaned loops at
    the start is not part of the run.) *)
Theorem iterations_audited ops v :
  Forall plainStop ops → log v = [] → alive (loop v) →
  let v' := fst (run ops v) in
  map iterationNumber (log v') = seqZ (currentIteration (loop v)) (Z.of_nat (length (log v'))) ∧
  (alive (loop v') → currentIteration (loop v') = currentIteration (loop v) + Z.of_nat (length (log v'))) ∧
  (∀ i r, log v' !! i = Some r →
     continuing (exitReason r) ∨ (S i = length (log v') ∧ rl_status (loop v') = rl_completed)).
Proof.
  intros H El Ha.
  destruct (run_audited (currentIteration (loop v)) ops v H) as [A B C D]; [|done].
  split; rewrite El; simpl; [done| |done|done]. intros _. lia.
Qed.

(** C35: the ledger of given-up targets stays sound under every run: one row per target, its
    counts ordered, its iterations in the past, and the target given up exactly when
    its stalls in a row reach the limit or the row has the flag of a permanent stall; for a
    positive limit and a ledger that is sound at the start. *)
Theorem ledger_sound ops v :
  0 < limitOf (loop v) → rowsOk (loop v) → rowsOk (loop (fst (run ops v))).
Proof. intros Hl H. by apply run_rows. Qed.

(** A cancellation is overwritten.  Whatever the operator commands while the last
    iteration is being closed, a cancellation included, the loop is marked completed and
    the relaunch policy starts it again. *)
Theorem cancelled_is_relaunched v fp e :
  ignored fp (loop v) = false → iterationCap (loop v) <= currentIteration (loop v) →
  se_before e = [] →
  re_wired (se_relaunch e) = true → re_claim (se_relaunch e) = true →
  re_acquired (se_relaunch e) = true →
  orElse (terminalRelaunchCount (loop v)) 0 < orElse (re_max (se_relaunch e)) DEFAULT_TERMINAL_RELAUNCH_MAX →
  ln_during (re_launch (se_relaunch e)) = [] → ln_ok (re_launch (se_relaunch e)) = true →
  let '(b, v') := handleStopFingerprint e fp v in b = true ∧ rl_status (loop v') = rl_running.
Proof.
  intros Hi Hc Hb Hw Hl Hq Hx Hn Hk. unfold handleStopFingerprint. rewrite Hi, Hb. cbn [fold_left].
  set (v1 := withLoop _ (withLoop _ v)).
  destruct (handleStop (se_options e) (se_answers e) (se_meanwhile e) v1) as [act v2] eqn:Eh.
  assert (act = terminate xr_iteration_cap) as ->.
  { unfold handleStop in Eh. rewrite (ignored_running fp (loop v) Hi : rl_status (loop v1) = rl_running) in Eh.
    simpl in Eh. apply Z.leb_le in Hc. unfold handleRunning, mbind, flow_bind, reads in Eh. simpl in Eh.
    rewrite Hc in Eh. by injection Eh. }
  apply handleStop_ok in Eh as [(_ & ? & _)|[_ [F _ _]]]; [done|].
  set (l3 := loop (withLoop _ v2)).
  assert (Hcount : terminalRelaunchCount l3 = terminalRelaunchCount (loop v)).
  { unfold l3. simpl. rewrite (q_count _ _ (operates_quiet _ _)). unfold fixed in F. simpl in F. congruence. }
  unfold handleTerminalExit, tryTerminalRelaunch. simpl. rewrite Hw, Hl, Hq. simpl.
  rewrite Hcount, (proj2 (Z.leb_gt _ _) Hx), andb_false_r. unfold launchFreshRuntime. rewrite Hn, Hk. done.
Qed.

(** A Stop is lost.  When a pause lands between the cycler's decision to go on and the
    launch, no agent is launched; and after the loop is resumed, the catch-up on the
    same Stop is ignored, because it is still marked as being handled. *)
Theorem paused_stop_is_lost v fp e i text v2 :
  ignored fp (loop v) = false →
  handleStop (se_options e) (se_answers e) (se_meanwhile e)
    (withLoop (λ l, fold_left operate (se_before e) (setHandling (Some fp) l)) v)
    = (launch_fresh i text, v2) →
  rl_status (loop v2) = rl_running → se_after e = [OpPause] →
  ∃ v', handleStopFingerprint e fp v = (false, v') ∧
    let w := withLoop resumeLoop v' in
    rl_status (loop w) = rl_running ∧ ∀ e', handleStopFingerprint e' fp w = (false, w).
Proof.
  intros Hi Hh Hr Ha. unfold handleStopFingerprint at 1. rewrite Hi.
  change (withLoop (λ l, fold_left operate (se_before e) l) (withLoop (setHandling (Some fp)) v))
    with (withLoop (λ l, fold_left operate (se_before e) (setHandling (Some fp) l)) v).
  assert (E : withLoop (λ l, fold_left operate [OpPause] l) v2 =
    mkLive (setStatus rl_paused (loop v2)) (taskUpdatedAt v2) (events v2) (log v2)).
  { unfold withLoop. simpl. unfold pauseLoop. by rewrite Hr. }
  rewrite Hh, Ha, E.
  apply handleStop_ok in Hh as [(_ & ? & _)|[_ [F _ _]]]; [done|].
  assert (Hf : handlingStopFingerprint (loop v2) = Some fp).
  { pose proof (operates_frame (se_before e) (withLoop (setHandling (Some fp)) v) _ (Frame_refl _)) as [G _ _ _ _].
    unfold fixed in *. simpl in *. congruence. }
  eexists. split; [reflexivity|]. cbn -[handleStopFingerprint]. split; [done|]. intros e'.
  unfold handleStopFingerprint, ignored. simpl. rewrite Hf.
  rewrite (bool_decide_true (Some fp = Some fp)) by done. by rewrite orb_true_r.
Qed.

(** A permanent stall of a target that is already given up by its count is not recorded
    as permanent: the target decays like any other. *)
Theorem permanent_claim_forgotten cfg i t reason bl v r decay :
  findRow t (rowsOf (loop v)) = Some r → bt_burned r = true → bt_permanent r = false →
  let '(row, v') := recordStall cfg i t reason bl true v in
  bt_burned row = true ∧ findRow t (rowsOf (loop v')) = Some row ∧
  isStale decay (currentIteration (loop v) + decay) row = true.
Proof.
  intros Hf Hb Hp. unfold recordStall, stallRow. rewrite Hf. cbn [orElse default]. rewrite !Hf. simpl.
  rewrite Hb, Hp. simpl. split; [done|]. split.
  - match goal with |- _ = Some ?row => apply (findRow_upd t (λ _, row) _ r Hf) end.
    simpl. by apply findRow_Some in Hf as [_ ?].
  - unfold isStale. simpl. apply Z.leb_le. lia.
Qed.

End cycler.

(** *** Witnesses, with no normalisation *)

(** A loop at iteration [c] of at most [cap], with one target stalled once. *)
Definition small (cap c : Z) (fp : option string) (relaunches : option Z) : Live :=
  mkLive (mkRalph "go" cap None None None None None c rl_running 1 None fp None c
            None (Some [mkBurned "7" 1 1 0 "r" [] false false 0]) None None None None None None
            relaunches) 0 [] [].

Definition smallStop (verdict : option RalphIterationVerdict) (mid after : list LoopOp) (wired : bool)
    : StopEnv :=
  mkStopEnv (mkOptions "t" None verdict 5)
    (mkAnswers (mkPredicate false (Some 1) false false) (mkPredicate false (Some 1) false false) None true)
    [] (λ p, match p with aw_append => mid | _ => [] end) after (mkLaunchEnv "n" [] true)
    (mkRelaunchEnv wired (Some 2) true true (mkLaunchEnv "m" [] true) 9).

Lemma launches_bounded_witness :
  let ops := [OStop "a" (smallStop None [] [] true); OStop "b" (smallStop None [] [] true)] in
  snd (run id ops (small 1 0 None None)) = 2%nat ∧
  let '(v', n) := run id ops (small 1 0 None None) in
  Z.of_nat n <= budget 2 (loop (small 1 0 None None)) ∧ Z.of_nat (length (log v')) <= 0 + 5 + 1.
Proof.
  split; [reflexivity|].
  apply (launches_bounded id 2); [lia|]. repeat constructor.
Defined.

Lemma iterations_audited_witness :
  let ops := [OStop "a" (smallStop None [] [] false); OOperate OpPause; OOperate OpResume;
              OStop "b" (smallStop None [] [] false)] in
  let v' := fst (run id ops (small 1 0 None None)) in
  map iterationNumber (log v') = seqZ 0 2 ∧ rl_status (loop v') = rl_completed.
Proof.
  pose proof (iterations_audited id
    [OStop "a" (smallStop None [] [] false); OOperate OpPause; OOperate OpResume;
     OStop "b" (smallStop None [] [] false)] (small 1 0 None None)) as H.
  cbv zeta. split; [apply H; [repeat constructor|reflexivity|by left]|reflexivity].
Defined.

Lemma ledger_sound_witness :
  rowsOk (loop (fst (run id [OStop "a" (smallStop (Some (stalled 0 "#8" None "x" None None)) [] [] true)]
                       (small 3 1 None None)))).
Proof.
  apply ledger_sound; [reflexivity|]. split; [repeat constructor; set_solver|].
  repeat constructor; done.
Defined.

Lemma cancelled_is_relaunched_witness :
  let '(b, v') := handleStopFingerprint id (smallStop None [OpCancel] [] true) "a" (small 1 1 None None) in
  b = true ∧ rl_status (loop v') = rl_running.
Proof. apply cancelled_is_relaunched; first [reflexivity | simpl; lia]. Defined.

Lemma paused_stop_is_lost_witness :
  ∃ v', handleStopFingerprint id (smallStop None [] [OpPause] true) "a" (small 3 1 None None) = (false, v') ∧
    let w := withLoop resumeLoop v' in
    rl_status (loop w) = rl_running ∧ ∀ e', handleStopFingerprint id e' "a" w = (false, w).
Proof.
  eapply (paused_stop_is_lost id _ _ _ "t" "go"); [reflexivity|reflexivity|reflexivity|reflexivity].
Defined.

Lemma permanent_claim_forgotten_witness :
  let v := withLoop (setRows [mkBurned "7" 2 2 0 "r" [] true false 1]) (small 3 1 None None) in
  let '(row, v') := recordStall (resolveStallConfig None) "t" "7" "x" [] true v in
  bt_burned row = true ∧ findRow "7" (rowsOf (loop v')) = Some row ∧
  isStale 4 (currentIteration (loop v) + 4) row = true.
Proof. eapply permanent_claim_forgotten; reflexivity. Defined.

End Ralph.
