(* ===== verification/IssueClaims.v ===== *)
(** * The issue claims

    [src/core/issue-claim-registry.ts], the class [IssueClaimRegistry], with its types
    ([issue-claim-types.ts]), the claim and release routes
    ([server/routes/issue-claim-routes.ts], once the repository is resolved) and the
    port of [server/issue-claim-wiring.ts].

    The registry is written against a port, the class [ClaimTaskPort]; its theorems
    hold for every port that satisfies [ClaimTaskPortLaws], and the task store is one.
    The audit sink keeps the events in order; it never throws, and neither do the
    writes of the store, so [safeReleaseAllFor] is [releaseAllFor]. *)

From S2P Require Import Prelude JsMap JsString TaskTypes SessionRegistry CompletionSignal TaskStore TaskRuns.

Module Claims.
#[local] Open Scope Z_scope.
Import Task.

(** ** Data *)

Record ClaimKey := mkKey { key_repo : string; key_number : Z }.

#[export] Instance ClaimKey_eq_dec : EqDecision ClaimKey.
Proof. solve_decision. Defined.

Definition tab : ascii := "009"%char.

(** The key of the map: the repository, a tab and the number. *)
Definition claimKeyString (k : ClaimKey) : string :=
  unchars (chars (key_repo k) ++ tab :: chars (showZ (key_number k))).

Inductive ClaimDecision :=
| cd_granted | cd_reentrant | cd_denied | cd_released | cd_dead_reclaim | cd_orphan_reclaim
| cd_force | cd_release_failed | cd_exhausted.

(** A number that is not one ([NaN]) is [None]. *)
Record ClaimEvent := mkClaimEvent {
  ce_decision : ClaimDecision;
  ce_repo : string;
  ce_number : option Z;
  requestingTaskId : option string;
  requestingSessionId : option string;
  priorOwnerTaskId : option string;
  ce_reason : option string
}.

(** The time of a claim that the view does not have is [None] for the empty text. *)
Record ClaimOwnerRecord := mkOwner {
  or_repo : string;
  or_number : Z;
  or_taskId : string;
  or_sessionId : option string;
  or_claimedAt : option Z;
  or_takeoverOf : option string;
  ownerStatus : TaskStatus;
  ownerName : option string;
  or_worktreePath : option string
}.

Inductive ClaimResult :=
| claimed (reentrant : bool) (tookOver : option ClaimOwnerRecord)
| refused (owner : ClaimOwnerRecord).

Record ClaimTaskView := mkView {
  cv_id : string;
  cv_status : TaskStatus;
  cv_name : option string;
  cv_claim : option IssueClaim;
  cv_worktreePath : option string
}.

(** The port; a write carries the reading of the clock it stores. *)
Class ClaimTaskPort (S : Type) := {
  activeTaskViews : S → list ClaimTaskView;
  getTaskView : string → S → option ClaimTaskView;
  portSetIssueClaim : Z → string → IssueClaim → S → S;
  portClearIssueClaim : Z → string → S → S
}.

Definition withClaim (c : option IssueClaim) (v : ClaimTaskView) : ClaimTaskView :=
  {| v with cv_claim := c |}.

(** What the registry relies on, in the states of the port that are [portOK]. *)
Class ClaimTaskPortLaws (S : Type) `{ClaimTaskPort S} := {
  portOK : S → Prop;
  portOK_set t i c s : portOK s → portOK (portSetIssueClaim t i c s);
  portOK_clear t i s : portOK s → portOK (portClearIssueClaim t i s);
  view_set t i c s j :
    getTaskView j (portSetIssueClaim t i c s)
    = if decide (j = i) then withClaim (Some c) <$> getTaskView j s else getTaskView j s;
  view_clear t i s j :
    getTaskView j (portClearIssueClaim t i s)
    = if decide (j = i) then withClaim None <$> getTaskView j s else getTaskView j s;
  view_id s i v : portOK s → getTaskView i s = Some v → cv_id v = i;
  views_nodup s : portOK s → NoDup (map cv_id (activeTaskViews s));
  views_get s v : portOK s → v ∈ activeTaskViews s ↔ getTaskView (cv_id v) s = Some v
}.

(** ** Reading a key back *)

(** [k.split('\t')] and its first two parts. *)
Definition parseKey (k : string) : string * option Z :=
  match splitOn tab (chars k) with
  | repo :: n :: _ => (unchars repo, readNumber n)
  | [repo] => (unchars repo, None)
  | [] => (""%string, None)
  end.

(** ** The registry *)

Section registry.
Context {S : Type} `{ClaimTaskPort S}.

(** The registry, its sink and the port it writes through. *)
Record sys := mkSys {
  owners : jmap string string;
  emitted : list ClaimEvent;
  host : S
}.

Definition emit (e : ClaimEvent) (s : sys) : sys := {| s with emitted := emitted s ++ [e] |}.
Definition setOwners (m : jmap string string) (s : sys) : sys := {| s with owners := m |}.
Definition onHost (f : S → S) (s : sys) : sys := {| s with host := f (host s) |}.

Definition keyEvent (d : ClaimDecision) (k : ClaimKey) (task session prior reason : option string) :
    ClaimEvent :=
  mkClaimEvent d (key_repo k) (Some (key_number k)) task session prior reason.

Definition isLive (v : ClaimTaskView) : bool := negb (isTerminalStatus (cv_status v)).

Definition keyOfClaim (c : IssueClaim) : ClaimKey := mkKey (ic_repo c) (ic_number c).

Definition toOwnerRecord (v : ClaimTaskView) : ClaimOwnerRecord :=
  let c := cv_claim v in
  mkOwner (orElse (ic_repo <$> c) ""%string) (orElse (ic_number <$> c) 0) (cv_id v)
    (c ≫= ic_sessionId) (ic_claimedAt <$> c) (c ≫= ic_takeoverOf)
    (cv_status v) (cv_name v) (cv_worktreePath v).

(** The owner of a claim that does not end, [holder] with [holderLive]. *)
Definition liveHolder (k : ClaimKey) (s : sys) : option ClaimTaskView :=
  i ← mget (claimKeyString k) (owners s);
  v ← getTaskView i (host s);
  if isLive v then Some v else None.

Definition ownerRecord (k : ClaimKey) (s : sys) : option ClaimOwnerRecord :=
  toOwnerRecord <$> liveHolder k s.

(** One view at boot: the owners and the terminal tasks left out. *)
Definition rebuildStep (acc : jmap string string * Z) (v : ClaimTaskView) :
    jmap string string * Z :=
  match cv_claim v with
  | None => acc
  | Some c =>
      if isTerminalStatus (cv_status v) then (fst acc, snd acc + 1)
      else
        let key := claimKeyString (keyOfClaim c) in
        if mhas key (fst acc) then acc else (mset key (cv_id v) (fst acc), snd acc)
  end.

(** The counts of owners, of views and of terminal fields ignored. *)
Definition rebuildFromTasks (s : sys) : (Z * Z * Z) * sys :=
  let views := activeTaskViews (host s) in
  let '(m, ignored) := fold_left rebuildStep views ([], 0) in
  ((Z.of_nat (msize m), Z.of_nat (length views), ignored), setOwners m s).

Definition releaseStep (taskId : string) (reason : ClaimDecision)
    (acc : list (string * option Z) * sys) (e : string * string) :
    list (string * option Z) * sys :=
  if String.eqb (snd e) taskId then
    let key := parseKey (fst e) in
    (fst acc ++ [key],
     emit (mkClaimEvent reason (fst key) (snd key) (Some taskId) None (Some taskId) None)
       (setOwners (mdel (fst e) (owners (snd acc))) (snd acc)))
  else acc.

Definition releaseAllFor (t : Z) (taskId : string) (reason : ClaimDecision) (s : sys) :
    list (string * option Z) * sys :=
  let '(released, s) := fold_left (releaseStep taskId reason) (owners s) ([], s) in
  (released, if bool_decide (released = []) then s else onHost (portClearIssueClaim t taskId) s).

(** [t1] clears the claimant's former claim, [t2] is the time of the claim, [t3] of
    its write. *)
Definition grant (t1 t2 t3 : Z) (k : ClaimKey) (taskId : string) (sessionId takeoverOf : option string)
    (s : sys) : sys :=
  let s := snd (releaseAllFor t1 taskId cd_released s) in
  onHost (portSetIssueClaim t3 taskId
            (mkIssueClaim (key_repo k) (key_number k) sessionId t2 takeoverOf))
    (setOwners (mset (claimKeyString k) taskId (owners s)) s).

(** The claim without a holder, or after its entry was dropped. *)
Definition claimFree (t1 t2 t3 : Z) (k : ClaimKey) (taskId : string) (sessionId : option string)
    (s : sys) : ClaimResult * sys :=
  (claimed false None,
   emit (keyEvent cd_granted k (Some taskId) sessionId None None)
     (grant t1 t2 t3 k taskId sessionId None s)).

(** [t0] is the first write of the port: the refresh of the session, or the clear of
    the former holder. *)
Definition claim (t0 t1 t2 t3 : Z) (k : ClaimKey) (taskId : string) (sessionId : option string)
    (force : bool) (s : sys) : ClaimResult * sys :=
  match mget (claimKeyString k) (owners s) with
  | None => claimFree t1 t2 t3 k taskId sessionId s
  | Some holderId =>
      let holder := getTaskView holderId (host s) in
      match liveHolder k s with
      | Some v =>
          if String.eqb holderId taskId then
            let s := match sessionId, cv_claim v with
                     | Some x, Some c =>
                         onHost (portSetIssueClaim t0 holderId {| c with ic_sessionId := Some x |}) s
                     | _, _ => s
                     end in
            (claimed true None, emit (keyEvent cd_reentrant k (Some taskId) sessionId None None) s)
          else if negb force then
            (refused (toOwnerRecord v),
             emit (keyEvent cd_denied k (Some taskId) sessionId (Some holderId) None) s)
          else
            let displaced := toOwnerRecord v in
            let s := setOwners (mdel (claimKeyString k) (owners s))
                       (onHost (portClearIssueClaim t0 holderId) s) in
            let s := grant t1 t2 t3 k taskId sessionId (Some holderId) s in
            (claimed false (Some displaced),
             emit (keyEvent cd_force k (Some taskId) sessionId (Some holderId)
                     (Some ("displaced owner status=" +:+ statusName (ownerStatus displaced))%string)) s)
      | None =>
          let s := setOwners (mdel (claimKeyString k) (owners s)) s in
          let s := match holder with
                   | Some _ => onHost (portClearIssueClaim t0 holderId) s
                   | None => s
                   end in
          claimFree t1 t2 t3 k taskId sessionId
            (emit (keyEvent cd_orphan_reclaim k (Some taskId) None (Some holderId) None) s)
      end
  end.

(** [releaseAllFor] does not throw. *)
Definition safeReleaseAllFor := releaseAllFor.

Definition matchesClaim (repo : option string) (number : option Z) (c : IssueClaim) : bool :=
  match repo with Some r => String.eqb (ic_repo c) r | None => true end
  && match number with Some n => ic_number c =? n | None => true end.

Definition listRecords (repo : option string) (number : option Z) (s : sys) : list ClaimOwnerRecord :=
  omap (λ i,
    v ← getTaskView i (host s);
    c ← cv_claim v;
    if isLive v && matchesClaim repo number c then Some (toOwnerRecord v) else None)
    (mvals (owners s)).

Definition recordExhausted (k : ClaimKey) (taskId reason : option string) (s : sys) : sys :=
  emit (keyEvent cd_exhausted k taskId None None reason) s.

(** *** The routes *)

(** The claim route: [None] when the claimant is unknown or has ended. *)
Definition postClaim (t0 t1 t2 t3 : Z) (k : ClaimKey) (taskId : string) (sessionId : option string)
    (force : bool) (s : sys) : option ClaimResult * sys :=
  match getTaskView taskId (host s) with
  | Some v =>
      if isLive v
      then let '(r, s) := claim t0 t1 t2 t3 k taskId sessionId force s in (Some r, s)
      else (None, s)
  | None => (None, s)
  end.

(** The release route: only the live owner releases. *)
Definition deleteClaim (t : Z) (k : ClaimKey) (taskId : string) (s : sys) : bool * sys :=
  match ownerRecord k s with
  | Some r =>
      if String.eqb (or_taskId r) taskId
      then (true, snd (releaseAllFor t taskId cd_released s)) else (false, s)
  | None => (false, s)
  end.
End registry.
Arguments sys S : clear implicits.

(** *** Keys *)

Lemma tab_not_shown n : tab ∉ chars (showZ n).
Proof.
  intros Hin. pose proof (showZ_chars n) as F. rewrite Forall_forall in F.
  by destruct (F _ Hin).
Qed.

Lemma claimKeyString_inj k k' : claimKeyString k = claimKeyString k' → k = k'.
Proof.
  intros E. apply unchars_inj, app_sep_inj_last in E as [E1 E2]; [|apply tab_not_shown..].
  apply chars_inj in E1. apply (f_equal readNumber) in E2. rewrite !readNumber_showZ in E2.
  destruct k, k'; simpl in *; congruence.
Qed.

Lemma parseKey_claimKeyString k :
  tab ∉ chars (key_repo k) → parseKey (claimKeyString k) = (key_repo k, Some (key_number k)).
Proof.
  intros Hr. unfold parseKey, claimKeyString. rewrite chars_unchars, splitOn_app by done.
  destruct (chars (showZ (key_number k))) as [|c l] eqn:E.
  - pose proof (readNumber_showZ (key_number k)) as R. rewrite E in R. simpl in *. by rewrite unchars_chars, R.
  - assert (splitOn tab (c :: l) = [c :: l]) as ->.
    { pose proof (tab_not_shown (key_number k)) as N. rewrite E in N. clear E.
      revert c N. induction l as [|d l IH]; intros c N.
      - simpl. by rewrite decide_False by set_solver.
      - change (splitOn tab (c :: d :: l)) with
          (if decide (c = tab) then [] :: splitOn tab (d :: l)
           else match splitOn tab (d :: l) with [] => [[c]] | h :: t => (c :: h) :: t end).
        rewrite decide_False by set_solver. by rewrite IH by set_solver. }
    by rewrite <- E, unchars_chars, readNumber_showZ.
Qed.

(** ** What can happen to the registry *)

Inductive action :=
| AForeign
| AClaim (k : ClaimKey) (taskId : string) (force : bool)
| ADelete (k : ClaimKey) (taskId : string)
| ARelease (taskId : string)
| AExhausted
| ARestart.

Section laws.
Context {S : Type} `{ClaimTaskPortLaws S}.
Implicit Types (s : sys S) (h : S) (v : ClaimTaskView).

(** What other code does to the tasks: it may change everything but the claims, and a
    new task has an id that no owner had. *)
Definition foreign (m : jmap string string) (h h' : S) : Prop :=
  (portOK h → portOK h') ∧
  ∀ i v', getTaskView i h' = Some v' →
    (∃ v, getTaskView i h = Some v ∧ cv_claim v' = cv_claim v) ∨
    (getTaskView i h = None ∧ cv_claim v' = None ∧ i ∉ mvals m).

Inductive step : action → sys S → sys S → Prop :=
| step_foreign h' s : foreign (owners s) (host s) h' → step AForeign s (onHost (λ _, h') s)
| step_claim t0 t1 t2 t3 k i session force s :
    step (AClaim k i force) s (snd (postClaim t0 t1 t2 t3 k i session force s))
| step_delete t k i s : step (ADelete k i) s (snd (deleteClaim t k i s))
| step_release t i reason s : step (ARelease i) s (snd (safeReleaseAllFor t i reason s))
| step_exhausted k i reason s : step AExhausted s (recordExhausted k i reason s)
| step_restart s : step ARestart s (snd (rebuildFromTasks s)).

(** A run with the states it goes through. *)
Inductive path : sys S → list (action * sys S) → sys S → Prop :=
| path_nil s : path s [] s
| path_snoc s l s1 a s2 : path s l s1 → step a s1 s2 → path s (l ++ [(a, s2)]) s2.

(** No task that has ended keeps a claim. *)
Definition endedUnclaimed (h : S) : Prop :=
  ∀ i v, getTaskView i h = Some v → isLive v = false → cv_claim v = None.

(** Every restart of the run finds the claims of ended tasks released. *)
Definition cleanRestarts (l : list (action * sys S)) : Prop :=
  Forall (λ p, fst p = ARestart → endedUnclaimed (host (snd p))) l.

(** The state of a server that starts on tasks without claims. *)
Definition blank (s : sys S) : Prop :=
  owners s = [] ∧ portOK (host s) ∧ ∀ i v, getTaskView i (host s) = Some v → cv_claim v = None.

Definition keyString (c : IssueClaim) : string := claimKeyString (keyOfClaim c).

(** The map holds a task once, and what it says the claims of the tasks say. *)
Record Inv (s : sys S) : Prop := {
  inv_wf : mwf (owners s);
  inv_ok : portOK (host s);
  inv_inj : ∀ k k' i, mget k (owners s) = Some i → mget k' (owners s) = Some i → k = k';
  inv_agree : ∀ k i v, mget k (owners s) = Some i → getTaskView i (host s) = Some v →
    ∃ c, cv_claim v = Some c ∧ keyString c = k
}.

(** Every claim of a task is in the map. *)
Definition Held (s : sys S) : Prop :=
  ∀ i v c, getTaskView i (host s) = Some v → cv_claim v = Some c →
    mget (keyString c) (owners s) = Some i.

(** *** Lookups after each piece *)

(** [h'] is [h] with the claim of a task set. *)
Definition reclaimed (i : string) (c : option IssueClaim) (h h' : S) : Prop :=
  (portOK h → portOK h') ∧
  ∀ j, getTaskView j h' = if decide (j = i) then withClaim c <$> getTaskView j h else getTaskView j h.

Lemma reclaimed_set t i c h : reclaimed i (Some c) h (portSetIssueClaim t i c h).
Proof. split; [apply portOK_set|]. intros j. apply view_set. Qed.

Lemma reclaimed_clear t i h : reclaimed i None h (portClearIssueClaim t i h).
Proof. split; [apply portOK_clear|]. intros j. apply view_clear. Qed.

Lemma reclaimed_missing i c h : getTaskView i h = None → reclaimed i c h h.
Proof. intros E. split; [done|]. intros j. case_decide; [|done]. subst. by rewrite E. Qed.

Lemma reclaimed_trans i c c' h1 h2 h3 :
  reclaimed i c h1 h2 → reclaimed i c' h2 h3 → reclaimed i c' h1 h3.
Proof.
  intros [A1 B1] [A2 B2]. split; [auto|]. intros j. rewrite B2, !B1.
  case_decide; [|done]. by destruct (getTaskView j h1).
Qed.

Lemma reclaimed_view i c h h' j v' :
  reclaimed i c h h' → getTaskView j h' = Some v' →
  ∃ v, getTaskView j h = Some v ∧ cv_status v' = cv_status v ∧
    cv_claim v' = if decide (j = i) then c else cv_claim v.
Proof.
  intros [_ E] G. rewrite E in G. case_decide.
  - destruct (getTaskView j h) as [v|]; [|done]. injection G as <-. by exists v.
  - by exists v'.
Qed.

(** The entries of a task dropped. *)
Definition without (i : string) (o : option string) : option string :=
  if bool_decide (o = Some i) then None else o.

Lemma without_Some i o j : without i o = Some j ↔ o = Some j ∧ j ≠ i.
Proof. unfold without. case_bool_decide; naive_solver. Qed.

Lemma without_live (f : string → bool) i o :
  (j ← without i o; if f j then Some j else None) = without i (j ← o; if f j then Some j else None).
Proof.
  unfold without. destruct o as [j|]; [|done]. destruct (decide (j = i)) as [->|Hj].
  - rewrite bool_decide_true by done. simpl. destruct (f i); [|done]. by rewrite bool_decide_true.
  - rewrite bool_decide_false by congruence. simpl. destruct (f j); [|done].
    by rewrite bool_decide_false by congruence.
Qed.

Lemma releaseStep_fold i reason l s : ∀ keys,
  let '(keys', s') := fold_left (releaseStep i reason) l (keys, s) in
  host s' = host s ∧
  owners s' = mdels (map fst (List.filter (λ p, String.eqb (snd p) i) l)) (owners s) ∧
  keys' = keys ++ map (λ p, parseKey (fst p)) (List.filter (λ p, String.eqb (snd p) i) l).
Proof.
  revert s. induction l as [|[k j] l IH]; intros s keys; simpl; [by rewrite app_nil_r|].
  unfold releaseStep at 2. simpl. destruct (String.eqb j i) eqn:E; [|apply IH].
  specialize (IH (emit (mkClaimEvent reason (fst (parseKey k)) (snd (parseKey k)) (Some i) None (Some i) None)
                    (setOwners (mdel k (owners s)) s)) (keys ++ [parseKey k])).
  destruct (fold_left _ _ _) as [keys' s']. destruct IH as (A & B & C). simpl in *.
  split_and!; [done|done|]. by rewrite C, <- app_assoc.
Qed.

(** A release: which keys, the map and the tasks after. *)
Lemma release_spec t i reason s :
  mwf (owners s) →
  let '(keys, s') := releaseAllFor t i reason s in
  keys = map (λ p, parseKey (fst p)) (List.filter (λ p, String.eqb (snd p) i) (owners s)) ∧
  (∀ k, mget k (owners s') = without i (mget k (owners s))) ∧ mwf (owners s') ∧
  ((host s' = host s ∧ ∀ k, mget k (owners s) ≠ Some i) ∨ reclaimed i None (host s) (host s')).
Proof.
  intros W. unfold releaseAllFor. pose proof (releaseStep_fold i reason (owners s) s []) as F.
  destruct (fold_left _ _ _) as [keys s']. destruct F as (A & B & ->). cbn [app].
  set (mine := List.filter _ (owners s)) in *.
  assert (Hm : ∀ k, k ∈ map fst mine ↔ mget k (owners s) = Some i).
  { intros k. rewrite list_elem_of_fmap. split.
    - intros ([k' j] & -> & Hin). apply list_elem_of_In, filter_In in Hin as [Hin E].
      apply String.eqb_eq in E. simpl in E. subst j. apply elem_of_mget; [done|by apply list_elem_of_In].
    - intros G. exists (k, i). split; [done|]. apply list_elem_of_In, filter_In.
      split; [by apply list_elem_of_In, mget_elem_of|apply String.eqb_refl]. }
  assert (Hk : ∀ k, mget k (owners s') = without i (mget k (owners s))).
  { intros k. rewrite B, mget_mdels. unfold without.
    rewrite (decide_ext (k ∈ map fst mine) (mget k (owners s) = Some i) _ _ (Hm k)).
    by rewrite decide_bool_decide. }
  assert (mwf (owners s')) as W' by (rewrite B; by apply mwf_mdels).
  case_bool_decide as E; (split; [done|]; split; [done|]; split; [done|]).
  - left. split; [done|]. intros k G. apply Hm in G. apply map_eq_nil in E. rewrite E in G. by apply not_elem_of_nil in G.
  - right. simpl. rewrite A. apply reclaimed_clear.
Qed.

(** A grant: the claimant holds the key and nothing else. *)
Lemma grant_spec t1 t2 t3 k i session prior s :
  mwf (owners s) →
  let s' := grant t1 t2 t3 k i session prior s in
  let c := mkIssueClaim (key_repo k) (key_number k) session t2 prior in
  mwf (owners s') ∧
  (∀ k', mget k' (owners s') = if decide (k' = claimKeyString k) then Some i
                               else without i (mget k' (owners s))) ∧
  reclaimed i (Some c) (host s) (host s').
Proof.
  intros W. unfold grant. pose proof (release_spec t1 i cd_released s W) as R.
  destruct (releaseAllFor t1 i cd_released s) as [keys s1]. destruct R as (_ & G & W1 & R). simpl.
  split; [by apply mwf_mset|]. split.
  - intros k'. rewrite mget_mset, G. done.
  - destruct R as [[-> _]|R]; [apply reclaimed_set|]. eapply reclaimed_trans; [exact R|apply reclaimed_set].
Qed.

(** *** The invariant *)

Lemma Inv_same s s' : owners s' = owners s → host s' = host s → Inv s → Inv s'.
Proof. intros E1 E2 [A B C D]. split; by rewrite ?E1, ?E2. Qed.

Lemma Held_same s s' : owners s' = owners s → host s' = host s → Held s → Held s'.
Proof. intros E1 E2 A. unfold Held. by rewrite E1, E2. Qed.

Lemma foreign_inv h' s : foreign (owners s) (host s) h' → Inv s → Inv (onHost (λ _, h') s).
Proof.
  intros [Hok F] [A B C D]. split; simpl; [done|auto|done|]. intros k i v G V.
  destruct (F _ _ V) as [(v0 & V0 & ->)|(_ & _ & Hn)]; [by eapply D|]. exfalso. apply Hn.
  apply mget_elem_of in G. apply list_elem_of_fmap. by exists (k, i).
Qed.

Lemma foreign_held h' s : foreign (owners s) (host s) h' → Held s → Held (onHost (λ _, h') s).
Proof.
  intros [_ F] A i v c V Hc. simpl in *.
  destruct (F _ _ V) as [(v0 & V0 & E)|(_ & E & _)]; [|congruence]. eapply A; [done|congruence].
Qed.

Lemma release_inv t i reason s :
  Inv s → let s' := snd (releaseAllFor t i reason s) in Inv s' ∧ (Held s → Held s').
Proof.
  intros [A B C D]. pose proof (release_spec t i reason s A) as R.
  destruct (releaseAllFor t i reason s) as [keys s']. destruct R as (_ & G & W & R). simpl.
  split; [split|].
  - done.
  - destruct R as [[-> _]|[Hok _]]; auto.
  - intros k k' j. rewrite !G, !without_Some. intros [? _] [? _]. by eapply C.
  - intros k j v. rewrite G, without_Some. intros [E Hj] V.
    destruct R as [[Eh _]|R]; [rewrite Eh in V; by eapply D|].
    destruct (reclaimed_view _ _ _ _ _ _ R V) as (v0 & V0 & _ & ->). rewrite decide_False by done.
    by eapply D.
  - intros Hd j v c V Hc. rewrite G. apply without_Some.
    destruct R as [[Eh Hno]|R].
    + rewrite Eh in V. pose proof (Hd _ _ _ V Hc) as E. split; [done|]. intros ->. by eapply Hno.
    + destruct (reclaimed_view _ _ _ _ _ _ R V) as (v0 & V0 & _ & E). rewrite E in Hc.
      case_decide; [done|]. split; [by eapply Hd|done].
Qed.

(** Drop the entry of a key whose holder's claim is gone. *)
Lemma drop_inv k i h' s :
  mget k (owners s) = Some i → reclaimed i None (host s) h' → Inv s →
  let s' := setOwners (mdel k (owners s)) (onHost (λ _, h') s) in Inv s' ∧ (Held s → Held s').
Proof.
  intros Hk R [A B C D]. split; [split|]; simpl.
  - by apply mwf_mdel.
  - by apply R.
  - intros k1 k2 j. rewrite !mget_mdel. repeat case_decide; [done..|]. apply C.
  - intros k1 j v. rewrite mget_mdel. case_decide; [done|]. intros G V.
    destruct (reclaimed_view _ _ _ _ _ _ R V) as (v0 & V0 & _ & ->). case_decide.
    + subst. exfalso. by pose proof (C _ _ _ Hk G).
    + by eapply D.
  - intros Hd j v c V Hc. simpl in *.
    destruct (reclaimed_view _ _ _ _ _ _ R V) as (v0 & V0 & _ & E). rewrite E in Hc.
    case_decide; [done|]. pose proof (Hd _ _ _ V0 Hc) as G. rewrite mget_mdel_ne; [done|].
    intros E'. rewrite E' in G. congruence.
Qed.

Lemma grant_inv t1 t2 t3 k i session prior s :
  mget (claimKeyString k) (owners s) = None → Inv s →
  let s' := grant t1 t2 t3 k i session prior s in Inv s' ∧ (Held s → Held s').
Proof.
  intros Hk [A B C D]. destruct (grant_spec t1 t2 t3 k i session prior s A) as (W & G & R).
  set (s' := grant _ _ _ _ _ _ _ _) in *. set (cl := mkIssueClaim _ _ _ _ _) in *. cbv zeta.
  assert (Ek : keyString cl = claimKeyString k) by by destruct k.
  split; [split|].
  - done.
  - by apply R.
  - intros k1 k2 j. rewrite !G. repeat case_decide; subst; rewrite ?without_Some; [done|..].
    + by intros [= ->] [].
    + by intros [] [= ->].
    + intros [] []. by eapply C.
  - intros k1 j v. rewrite G. intros E V.
    destruct (reclaimed_view _ _ _ _ _ _ R V) as (v0 & V0 & _ & ->). case_decide.
    + injection E as <-. rewrite decide_True by done. by exists cl; subst.
    + apply without_Some in E as [E Hj]. rewrite decide_False by done. by eapply D.
  - intros Hd j v c V Hc. rewrite G.
    destruct (reclaimed_view _ _ _ _ _ _ R V) as (v0 & V0 & _ & E). rewrite E in Hc.
    case_decide; [injection Hc as <-; by rewrite Ek, decide_True; subst|].
    pose proof (Hd _ _ _ V0 Hc) as E'. rewrite decide_False by congruence.
    by apply without_Some.
Qed.

(** A refresh of the session keeps the key of the claim. *)
Lemma refresh_inv t i v c x s :
  getTaskView i (host s) = Some v → cv_claim v = Some c → Inv s →
  let s' := onHost (portSetIssueClaim t i {| c with ic_sessionId := x |}) s in
  Inv s' ∧ (Held s → Held s').
Proof.
  intros Hv Hc [A B C D]. set (c' := {| c with ic_sessionId := x |}).
  pose proof (reclaimed_set t i c' (host s)) as R. split; [split|]; simpl; [done|by apply R|done| |].
  - intros k j w G V. destruct (reclaimed_view _ _ _ _ _ _ R V) as (v0 & V0 & _ & ->).
    destruct (D _ _ _ G V0) as (c0 & E0 & <-). case_decide; [|by exists c0]. subst.
    assert (c0 = c) as -> by congruence. by exists c'.
  - intros Hd j w c0 V E0. simpl in *. destruct (reclaimed_view _ _ _ _ _ _ R V) as (v0 & V0 & _ & E).
    rewrite E in E0. case_decide; [|by eapply Hd]. subst. injection E0 as <-. exact (Hd _ _ _ Hv Hc).
Qed.

Lemma liveHolder_Some k s v :
  liveHolder k s = Some v ↔
  ∃ i, mget (claimKeyString k) (owners s) = Some i ∧ getTaskView i (host s) = Some v ∧ isLive v = true.
Proof.
  unfold liveHolder. split.
  - intros E. apply bind_Some in E as (i & Ei & E). apply bind_Some in E as (w & Ew & E).
    exists i. destruct (isLive w) eqn:L; by simplify_eq.
  - intros (i & -> & V & L). simpl. rewrite V. simpl. by rewrite L.
Qed.

Lemma claimFree_inv t1 t2 t3 k i session s :
  mget (claimKeyString k) (owners s) = None → Inv s →
  let s' := snd (claimFree t1 t2 t3 k i session s) in Inv s' ∧ (Held s → Held s').
Proof.
  intros Hk Hi. destruct (grant_inv t1 t2 t3 k i session None s Hk Hi) as [A B].
  split; [by eapply Inv_same, A|]. intros Hd. by eapply Held_same, B.
Qed.

(** The state in which the key of a holder is free: its entry dropped, and its claim
    cleared when the task exists. *)
Lemma freed t k i s :
  mget (claimKeyString k) (owners s) = Some i → Inv s →
  ∀ h', h' = portClearIssueClaim t i (host s) ∨ (h' = host s ∧ getTaskView i (host s) = None) →
  let s' := setOwners (mdel (claimKeyString k) (owners s)) (onHost (λ _, h') s) in
  mget (claimKeyString k) (owners s') = None ∧ Inv s' ∧ (Held s → Held s').
Proof.
  intros Hk Hi h' Hh. split; [simpl; apply mget_mdel_eq|]. eapply drop_inv; [done| |done].
  destruct Hh as [->|[-> E]]; [apply reclaimed_clear|by apply reclaimed_missing].
Qed.

Lemma claim_inv t0 t1 t2 t3 k i session force s :
  Inv s → let s' := snd (claim t0 t1 t2 t3 k i session force s) in Inv s' ∧ (Held s → Held s').
Proof.
  intros Hi. unfold claim. destruct (mget (claimKeyString k) (owners s)) as [j|] eqn:Hk; [|by apply claimFree_inv].
  destruct (liveHolder k s) as [v|] eqn:L.
  - apply liveHolder_Some in L as (j' & Hk' & V & _). assert (j' = j) as -> by congruence.
    destruct (String.eqb j i); [|destruct (negb force)].
    + destruct session as [x|], (cv_claim v) as [c|] eqn:Hc; try (by split; [apply (Inv_same s)|apply (Held_same s)]).
      destruct (refresh_inv t0 j v c (Some x) s V Hc Hi) as [A B].
      split; [by eapply Inv_same, A|]. intros Hd. by eapply Held_same, B.
    + by split; [apply (Inv_same s)|apply (Held_same s)].
    + destruct (freed t0 k j s Hk Hi _ (or_introl eq_refl)) as (F1 & F2 & F3).
      destruct (grant_inv t1 t2 t3 k i session (Some j) _ F1 F2) as [A B].
      split; [by eapply Inv_same, A|]. intros Hd. by eapply Held_same, B, F3.
  - assert (∃ h', (h' = portClearIssueClaim t0 j (host s) ∨ (h' = host s ∧ getTaskView j (host s) = None)) ∧
      match getTaskView j (host s) with
      | Some _ => onHost (portClearIssueClaim t0 j) (setOwners (mdel (claimKeyString k) (owners s)) s)
      | None => setOwners (mdel (claimKeyString k) (owners s)) s
      end = setOwners (mdel (claimKeyString k) (owners s)) (onHost (λ _, h') s)) as (h' & Hh & ->).
    { destruct (getTaskView j (host s)); eexists; (split; [|reflexivity]); auto. }
    destruct (freed t0 k j s Hk Hi h' Hh) as (F1 & F2 & F3).
    destruct (claimFree_inv t1 t2 t3 k i session
      (emit (keyEvent cd_orphan_reclaim k (Some i) None (Some j) None)
        (setOwners (mdel (claimKeyString k) (owners s)) (onHost (λ _, h') s))) F1) as [A B];
      [by eapply Inv_same, F2|].
    split; [exact A|]. intros Hd. apply B. by eapply Held_same, F3.
Qed.

Lemma post_inv t0 t1 t2 t3 k i session force s :
  Inv s → let s' := snd (postClaim t0 t1 t2 t3 k i session force s) in Inv s' ∧ (Held s → Held s').
Proof.
  intros Hi. unfold postClaim. destruct (getTaskView i (host s)) as [v|]; [|done].
  destruct (isLive v); [|done]. pose proof (claim_inv t0 t1 t2 t3 k i session force s Hi) as P.
  by destruct (claim _ _ _ _ _ _ _ _ _).
Qed.

Lemma delete_inv t k i s :
  Inv s → let s' := snd (deleteClaim t k i s) in Inv s' ∧ (Held s → Held s').
Proof.
  intros Hi. unfold deleteClaim. destruct (ownerRecord k s) as [r|]; [|done].
  destruct (String.eqb _ _); [|done]. by apply release_inv.
Qed.

(** *** The rebuild at boot *)

(** A live task with a claim under the key. *)
Definition holds (k : string) (v : ClaimTaskView) : bool :=
  match cv_claim v with Some c => isLive v && String.eqb (keyString c) k | None => false end.

Lemma rebuild_fold views : ∀ m n,
  mwf m →
  mwf (fst (fold_left rebuildStep views (m, n))) ∧
  ∀ k, mget k (fst (fold_left rebuildStep views (m, n)))
       = match mget k m with Some i => Some i | None => cv_id <$> List.find (holds k) views end.
Proof.
  induction views as [|v views IH]; intros m n W; simpl; [by split; [|intros k; destruct (mget k m)]|].
  unfold rebuildStep at 2 4, holds at 1, isLive. simpl.
  destruct (cv_claim v) as [c|]; [|by apply IH].
  destruct (isTerminalStatus (cv_status v)); simpl; [by apply IH|].
  change (claimKeyString (keyOfClaim c)) with (keyString c). unfold mhas.
  destruct (mget (keyString c) m) as [j|] eqn:E; simpl.
  - destruct (IH m n W) as [A B]. split; [done|]. intros k. rewrite B.
    destruct (String.eqb (keyString c) k) eqn:Ek; [|done]. apply String.eqb_eq in Ek. subst. by rewrite E.
  - destruct (IH (mset (keyString c) (cv_id v) m) n (mwf_mset _ _ _ W)) as [A B]. split; [done|].
    intros k. rewrite B, mget_mset. destruct (String.eqb_spec (keyString c) k) as [<-|Ek].
    + by rewrite decide_True, E.
    + by rewrite decide_False.
Qed.

Lemma rebuild_get s k :
  mget k (owners (snd (rebuildFromTasks s))) = cv_id <$> List.find (holds k) (activeTaskViews (host s)).
Proof.
  unfold rebuildFromTasks. pose proof (rebuild_fold (activeTaskViews (host s)) [] 0 (mwf_nil)) as [_ B].
  destruct (fold_left _ _ _) as [m n]. exact (B k).
Qed.

(** What the rebuild found under a key. *)
Lemma rebuild_found s k i :
  portOK (host s) → mget k (owners (snd (rebuildFromTasks s))) = Some i →
  ∃ v c, getTaskView i (host s) = Some v ∧ isLive v = true ∧ cv_claim v = Some c ∧ keyString c = k.
Proof.
  intros Hok. rewrite rebuild_get. destruct (List.find _ _) as [v|] eqn:E; [|done]. intros [= <-].
  apply find_some in E as [Hin Hh]. apply list_elem_of_In, views_get in Hin; [|done].
  unfold holds in Hh. destruct (cv_claim v) as [c|] eqn:Hc; [|done].
  apply andb_true_iff in Hh as [L E]. apply String.eqb_eq in E. eauto 10.
Qed.

Lemma rebuild_host s : host (snd (rebuildFromTasks s)) = host s.
Proof. unfold rebuildFromTasks. by destruct (fold_left _ _ _). Qed.

Lemma rebuild_inv s : portOK (host s) → Inv (snd (rebuildFromTasks s)).
Proof.
  intros Hok. split; rewrite ?rebuild_host.
  - unfold rebuildFromTasks. pose proof (rebuild_fold (activeTaskViews (host s)) [] 0 mwf_nil) as [A _].
    by destruct (fold_left _ _ _).
  - done.
  - intros k k' i Hk Hk'. apply rebuild_found in Hk as (v & c & V & _ & Hc & <-); [|done].
    apply rebuild_found in Hk' as (v' & c' & V' & _ & Hc' & <-); [|done]. congruence.
  - intros k i v Hk V. apply rebuild_found in Hk as (v' & c & V' & _ & Hc & <-); [|done].
    assert (v' = v) as -> by congruence. by exists c.
Qed.

(** The live holder of a claim is the one the rebuild finds. *)
Lemma rebuild_live s i v c :
  Inv s → Held s → getTaskView i (host s) = Some v → cv_claim v = Some c → isLive v = true →
  mget (keyString c) (owners (snd (rebuildFromTasks s))) = Some i.
Proof.
  intros Hi Hd V Hc L. assert (Ei : cv_id v = i) by (eapply view_id; [apply Hi|done]). subst i.
  destruct (mget (keyString c) (owners (snd (rebuildFromTasks s)))) as [j|] eqn:E.
  - apply rebuild_found in E as (v' & c' & V' & _ & Hc' & Ek); [|apply Hi].
    pose proof (Hd _ _ _ V Hc) as E1. pose proof (Hd _ _ _ V' Hc') as E2. congruence.
  - rewrite rebuild_get in E. destruct (List.find _ _) eqn:F; [done|].
    assert (Hin : v ∈ activeTaskViews (host s)) by (apply views_get; [apply Hi|done]).
    apply list_elem_of_In in Hin. pose proof (find_none _ _ F _ Hin) as N. unfold holds in N.
    by rewrite Hc, L, String.eqb_refl in N.
Qed.

(** *** Runs *)

Lemma action_inv a s s' :
  step a s s' → Inv s →
  Inv s' ∧ ((a = ARestart → endedUnclaimed (host s')) → Held s → Held s').
Proof.
  intros St Hi. destruct St as [h' s F|t0 t1 t2 t3 k i x f s|t k i s|t i r s|k i r s|s].
  - split; [by apply foreign_inv|]. intros _. by apply foreign_held.
  - destruct (post_inv t0 t1 t2 t3 k i x f s Hi). auto.
  - destruct (delete_inv t k i s Hi). auto.
  - destruct (release_inv t i r s Hi). auto.
  - split; [by apply (Inv_same s)|]. intros _. by apply (Held_same s).
  - split; [apply rebuild_inv, Hi|]. intros Hc Hd i v c V E. specialize (Hc eq_refl).
    rewrite rebuild_host in *. destruct (isLive v) eqn:L; [by eapply rebuild_live|].
    by rewrite (Hc i v V L) in E.
Qed.

Lemma path_inv s l s' :
  path s l s' → Inv s → Inv s' ∧ (cleanRestarts l → Held s → Held s').
Proof.
  induction 1 as [s|s l s1 a s2 P IH St]; intros Hi; [done|].
  destruct (IH Hi) as [A B]. destruct (action_inv a s1 s2 St A) as [C D]. split; [done|].
  intros Hc Hd. apply Forall_app in Hc as [Hc Ha]. apply D; [|auto]. intros E.
  apply Forall_cons in Ha as [Ha _]. by apply Ha.
Qed.

Lemma blank_ok s : blank s → Inv s ∧ Held s.
Proof.
  intros (E & Hok & N). split; [split|].
  - rewrite E. apply mwf_nil.
  - done.
  - by rewrite E.
  - by rewrite E.
  - intros i v c V Hc. by rewrite (N i v V) in Hc.
Qed.

Lemma blank_path s l s' : blank s → path s l s' → cleanRestarts l → Inv s' ∧ Held s'.
Proof. intros Hb P Hc. destruct (blank_ok s Hb). destruct (path_inv s l s' P); auto. Qed.

(** Who owns an issue. *)
Definition ownerId (k : ClaimKey) (s : sys S) : option string := or_taskId <$> ownerRecord k s.

Lemma ownerId_Some k s i :
  Inv s → ownerId k s = Some i ↔
    mget (claimKeyString k) (owners s) = Some i ∧ ∃ v, getTaskView i (host s) = Some v ∧ isLive v = true.
Proof.
  intros Hi. unfold ownerId, ownerRecord. split.
  - intros E. apply fmap_Some in E as (r & E & ->). apply fmap_Some in E as (v & E & ->).
    apply liveHolder_Some in E as (j & G & V & L). simpl.
    rewrite (view_id _ _ _ (inv_ok s Hi) V). eauto.
  - intros (G & v & V & L). rewrite (proj2 (liveHolder_Some k s v)) by eauto. simpl.
    by rewrite (view_id _ _ _ (inv_ok s Hi) V).
Qed.

Lemma ownerId_held k s i :
  Inv s → Held s → ownerId k s = Some i ↔
    ∃ v c, getTaskView i (host s) = Some v ∧ isLive v = true ∧ cv_claim v = Some c ∧ keyOfClaim c = k.
Proof.
  intros Hi Hd. rewrite ownerId_Some by done. split.
  - intros (G & v & V & L). destruct (inv_agree s Hi _ _ _ G V) as (c & Hc & Ek).
    apply claimKeyString_inj in Ek. eauto 10.
  - intros (v & c & V & L & Hc & <-). split; [exact (Hd _ _ _ V Hc)|eauto].
Qed.

(** The task exists and has not ended. *)
Definition liveAt (b : string) (h : S) : bool :=
  match getTaskView b h with Some v => isLive v | None => false end.

Lemma ownerId_eq k s :
  Inv s → ownerId k s = (i ← mget (claimKeyString k) (owners s); if liveAt i (host s) then Some i else None).
Proof.
  intros Hi. apply option_eq. intros i. rewrite (ownerId_Some k s i Hi), bind_Some. unfold liveAt. split.
  - intros (G & v & V & L). exists i. by rewrite V, L.
  - intros (j & G & E). destruct (getTaskView j (host s)) as [v|] eqn:V; [|done].
    destruct (isLive v) eqn:L; [|done]. injection E as ->. eauto.
Qed.

Lemma reclaimed_live i c h h' j : reclaimed i c h h' → liveAt j h' = liveAt j h.
Proof.
  intros [_ E]. unfold liveAt. rewrite E. case_decide; [|done]. by destruct (getTaskView j h).
Qed.

Lemma restart_owner s k : Inv s → Held s → ownerRecord k (snd (rebuildFromTasks s)) = ownerRecord k s.
Proof.
  intros Hi Hd. unfold ownerRecord. f_equal. apply option_eq. intros v.
  rewrite !liveHolder_Some, rebuild_host. split; intros (i & G & V & L).
  - apply rebuild_found in G as (v' & c & V' & _ & Hv & <-); [|apply Hi].
    assert (v' = v) as -> by congruence. exists i. split; [exact (Hd _ _ _ V Hv)|done].
  - destruct (inv_agree s Hi _ _ _ G V) as (c & Hv & <-). exists i. split; [by eapply rebuild_live|done].
Qed.

Lemma release_owner t i reason s k :
  Inv s → ownerId k (snd (releaseAllFor t i reason s)) = without i (ownerId k s).
Proof.
  intros Hi. destruct (release_inv t i reason s Hi) as [Hi' _]. rewrite !ownerId_eq by done.
  pose proof (release_spec t i reason s (inv_wf s Hi)) as R.
  destruct (releaseAllFor t i reason s) as [keys s']. destruct R as (_ & G & _ & R). cbn [snd] in *.
  assert (L : ∀ j, liveAt j (host s') = liveAt j (host s)).
  { destruct R as [[-> _]|R]; [done|]. intros j. by eapply reclaimed_live. }
  rewrite G, <- without_live. destruct (without i _) as [j|]; [|done]. simpl. by rewrite L.
Qed.

(** The claimant owns the issue, and no other one any more; nothing else changed hands. *)
Definition taken (k : ClaimKey) (b : string) (s s' : sys S) : Prop :=
  ownerId k s' = Some b ∧ ∀ k', k' ≠ k → ownerId k' s' = without b (ownerId k' s).

Lemma taken_intro k b s s' :
  Inv s → Inv s' → liveAt b (host s) = true → (∀ j, liveAt j (host s') = liveAt j (host s)) →
  (∀ k', mget k' (owners s') = if decide (k' = claimKeyString k) then Some b
                               else without b (mget k' (owners s))) → taken k b s s'.
Proof.
  intros Hi Hi' Hb L G. split.
  - rewrite ownerId_eq, G, decide_True by done. simpl. by rewrite L, Hb.
  - intros k' Hk. rewrite !ownerId_eq by done. rewrite G.
    rewrite decide_False by (intros E; by apply Hk, claimKeyString_inj).
    rewrite <- without_live. destruct (without b _) as [j|]; [|done]. simpl. by rewrite L.
Qed.

(** A grant on a state in which only the key and the claim of its holder are gone. *)
Lemma grant_taken t1 t2 t3 k b session prior s s1 :
  Inv s → Inv s1 → liveAt b (host s) = true → mget (claimKeyString k) (owners s1) = None →
  (∀ j, liveAt j (host s1) = liveAt j (host s)) →
  (∀ k', k' ≠ claimKeyString k → mget k' (owners s1) = mget k' (owners s)) →
  taken k b s (grant t1 t2 t3 k b session prior s1).
Proof.
  intros Hi Hi1 Hb F L G. destruct (grant_spec t1 t2 t3 k b session prior s1 (inv_wf _ Hi1)) as (_ & E & R).
  apply taken_intro; [done|by apply grant_inv|done| |].
  - intros j. by rewrite (reclaimed_live _ _ _ _ j R).
  - intros k'. rewrite E. case_decide; [done|]. by rewrite G.
Qed.

Lemma taken_same k b s s1 s2 :
  Inv s1 → owners s2 = owners s1 → host s2 = host s1 → taken k b s s1 → taken k b s s2.
Proof.
  intros Hi E1 E2 [A B]. assert (Inv s2) as Hi2 by by apply (Inv_same s1).
  assert (E : ∀ k', ownerId k' s2 = ownerId k' s1) by (intros k'; by rewrite !ownerId_eq, E1, E2).
  split; [by rewrite E|]. intros k' Hk. rewrite E. by apply B.
Qed.

(** Every outcome of a claim. *)
Definition claimOutcome (k : ClaimKey) (b : string) (force : bool) (s : sys S) (r : ClaimResult)
    (s' : sys S) : Prop :=
  match liveHolder k s with
  | Some v =>
      if decide (cv_id v = b) then r = claimed true None ∧ ∀ k', ownerId k' s' = ownerId k' s
      else if force then r = claimed false (Some (toOwnerRecord v)) ∧ taken k b s s'
      else r = refused (toOwnerRecord v) ∧ host s' = host s ∧ owners s' = owners s
  | None => r = claimed false None ∧ taken k b s s'
  end.

Lemma claimFree_taken t1 t2 t3 k b session s s1 :
  Inv s → Inv s1 → liveAt b (host s) = true → mget (claimKeyString k) (owners s1) = None →
  (∀ j, liveAt j (host s1) = liveAt j (host s)) →
  (∀ k', k' ≠ claimKeyString k → mget k' (owners s1) = mget k' (owners s)) →
  let '(r, s') := claimFree t1 t2 t3 k b session s1 in r = claimed false None ∧ taken k b s s'.
Proof.
  intros Hi Hi1 Hb F L G. split; [done|].
  eapply taken_same; [apply (grant_inv t1 t2 t3 k b session None s1 F Hi1)|done|done|].
  by apply grant_taken.
Qed.

Lemma claim_outcome t0 t1 t2 t3 k b session force s :
  Inv s → liveAt b (host s) = true →
  let '(r, s') := claim t0 t1 t2 t3 k b session force s in claimOutcome k b force s r s'.
Proof.
  intros Hi Hb. unfold claim, claimOutcome.
  destruct (mget (claimKeyString k) (owners s)) as [j|] eqn:Hk.
  2: { unfold liveHolder. rewrite Hk. simpl. by apply claimFree_taken. }
  destruct (liveHolder k s) as [v|] eqn:L.
  - apply liveHolder_Some in L as (j' & Hk' & V & _). assert (j' = j) as -> by congruence.
    pose proof (view_id _ _ _ (inv_ok s Hi) V) as Ej. rewrite Ej.
    destruct (String.eqb_spec j b) as [Eb|Eb].
    + cbn beta iota zeta. rewrite decide_True by done. split; [done|]. intros k'. destruct session as [x|], (cv_claim v) as [c|] eqn:Hc;
        try (rewrite !ownerId_eq; [done|done|by apply (Inv_same s)]).
      destruct (refresh_inv t0 j v c (Some x) s V Hc Hi) as [A _].
      rewrite !ownerId_eq; [|done|by eapply (Inv_same _ _), A]. simpl.
      destruct (mget (claimKeyString k') (owners s)) as [i|]; [|done]. simpl.
      pose proof (reclaimed_live _ _ _ _ i
        (reclaimed_set t0 j {| c with ic_sessionId := Some x |} (host s))) as R.
      by rewrite R.
    + destruct force; cbn beta iota zeta delta [negb]; rewrite decide_False by done; [|done].
      split; [done|].
      destruct (freed t0 k j s Hk Hi _ (or_introl eq_refl)) as (F1 & F2 & _).
      eapply taken_same; [by apply (grant_inv t1 t2 t3 k b session (Some j) _ F1 F2)|done|done|].
      apply grant_taken; [done..| |].
      * intros i. exact (reclaimed_live _ _ _ _ i (reclaimed_clear t0 j (host s))).
      * intros k' Hk''. simpl. by apply mget_mdel_ne.
  - assert (∃ h', (h' = portClearIssueClaim t0 j (host s) ∨ (h' = host s ∧ getTaskView j (host s) = None)) ∧
      match getTaskView j (host s) with
      | Some _ => onHost (portClearIssueClaim t0 j) (setOwners (mdel (claimKeyString k) (owners s)) s)
      | None => setOwners (mdel (claimKeyString k) (owners s)) s
      end = setOwners (mdel (claimKeyString k) (owners s)) (onHost (λ _, h') s)) as (h' & Hh & ->).
    { destruct (getTaskView j (host s)); eexists; (split; [|reflexivity]); auto. }
    destruct (freed t0 k j s Hk Hi h' Hh) as (F1 & F2 & _).
    apply claimFree_taken; [done|by eapply Inv_same, F2|done|done| |].
    + intros i. simpl. destruct Hh as [->|[-> _]]; [|done].
      exact (reclaimed_live _ _ _ _ i (reclaimed_clear t0 j (host s))).
    + intros k' Hk''. simpl. by apply mget_mdel_ne.
Qed.

(** ** The theorems *)

(** C25: one owner per issue.  However claims, takeovers, releases, restarts and the rest of
    the server interleave, no two tasks hold the same issue, ended ones included, and
    the registry names as owner exactly the live task whose record has the claim;
    provided every restart finds the claims of ended tasks released. *)
Theorem claims_exclusive s0 l s :
  blank s0 → path s0 l s → cleanRestarts l →
  (∀ i j v w c d, getTaskView i (host s) = Some v → cv_claim v = Some c →
     getTaskView j (host s) = Some w → cv_claim w = Some d → keyOfClaim c = keyOfClaim d → i = j) ∧
  (∀ k i, ownerId k s = Some i ↔
     ∃ v c, getTaskView i (host s) = Some v ∧ isLive v = true ∧ cv_claim v = Some c ∧ keyOfClaim c = k).
Proof.
  intros Hb P Hc. destruct (blank_path s0 l s Hb P Hc) as [Hi Hd]. split.
  - intros i j v w c d V Hv W Hw E. pose proof (Hd _ _ _ V Hv) as E1. pose proof (Hd _ _ _ W Hw) as E2.
    unfold keyString in *. rewrite E in E1. congruence.
  - intros k i. by apply ownerId_held.
Qed.

(** A restart forgets no owner and invents none, whatever ended tasks still say. *)
Theorem restart_keeps_owners s0 l s k :
  blank s0 → path s0 l s → cleanRestarts l →
  ownerRecord k (snd (rebuildFromTasks s)) = ownerRecord k s.
Proof.
  intros Hb P Hc. destruct (blank_path s0 l s Hb P Hc) as [Hi Hd].
  by apply restart_owner.
Qed.

(** What can take an issue from its owner: a forced claim of it, the owner claiming
    another one, and a release for the owner. *)
Definition spares (k : ClaimKey) (b : string) (a : action) : Prop :=
  match a with
  | AClaim k' i force => if decide (i = b) then k' = k else k' = k → force = false
  | ADelete _ i | ARelease i => i ≠ b
  | AForeign | AExhausted | ARestart => True
  end.

Lemma step_spares k b a s s' :
  step a s s' → Inv s → Held s → spares k b a → liveAt b (host s') = true →
  ownerId k s = Some b → ownerId k s' = Some b.
Proof.
  intros St Hi Hd Hs Hl Ho. pose proof (proj1 (action_inv a s s' St Hi)) as Hi'.
  destruct St as [h' s F|t0 t1 t2 t3 k' i x f s|t k' i s|t i r s|k' i r s|s]; simpl in Hs.
  - rewrite ownerId_eq in Ho |- * by done. simpl in *. destruct (mget _ (owners s)) as [j|]; [|done].
    simpl in *. destruct (liveAt j (host s)); [|done]. injection Ho as ->. by rewrite Hl.
  - unfold postClaim in *. destruct (getTaskView i (host s)) as [w|] eqn:W; [|done].
    destruct (isLive w) eqn:Lw; [|done].
    assert (liveAt i (host s) = true) as Hw by (unfold liveAt; by rewrite W).
    pose proof (claim_outcome t0 t1 t2 t3 k' i x f s Hi Hw) as C.
    destruct (claim t0 t1 t2 t3 k' i x f s) as [r s']. cbn [snd] in *. unfold claimOutcome in C.
    assert (T : taken k' i s s' → (k' = k → i = b) → ownerId k s' = Some b).
    { intros [T1 T2] Hkb. destruct (decide (k' = k)) as [->|Hk]; [by rewrite <- (Hkb eq_refl)|].
      rewrite T2, Ho by done. apply without_Some. split; [done|]. intros <-.
      rewrite decide_True in Hs by done. congruence. }
    destruct (liveHolder k' s) as [v|] eqn:Lv.
    + destruct (decide (cv_id v = i)) as [Ev|Ev]; [destruct C as [_ C]; by rewrite C|].
      destruct f; [|destruct C as (_ & E1 & E2); by rewrite ownerId_eq, E1, E2, <- ownerId_eq by done].
      apply T; [apply C|]. intros ->. destruct (decide (i = b)); [done|]. by specialize (Hs eq_refl).
    + apply T; [apply C|]. intros ->. unfold ownerId, ownerRecord in Ho. by rewrite Lv in Ho.
  - unfold deleteClaim in *. destruct (ownerRecord k' s) as [r|]; [|done].
    destruct (String.eqb _ _); [|done]. cbn [snd]. rewrite release_owner, Ho by done. by apply without_Some.
  - unfold safeReleaseAllFor. rewrite release_owner, Ho by done. by apply without_Some.
  - by rewrite ownerId_eq in Ho |- *.
  - unfold ownerId in *. by rewrite restart_owner.
Qed.

(** An owner keeps its issue. Unforced claims by others, takeovers of other issues, the releases of
    tasks it displaced or that once held the issue, and restarts leave it the owner, as long as its
    task does not end and every restart finds no claim on an ended task ([ended_claim_steals] is a
    run in which one does). *)
Theorem owner_stable s0 l0 s l s' k b :
  blank s0 → path s0 l0 s → cleanRestarts (l0 ++ l) → path s l s' →
  Forall (λ p, spares k b (fst p) ∧ liveAt b (host (snd p)) = true) l →
  ownerId k s = Some b → ownerId k s' = Some b.
Proof.
  intros Hb P0 Hc P Hs Ho. apply Forall_app in Hc as [Hc0 Hc].
  destruct (blank_path s0 l0 s Hb P0 Hc0) as [Hi Hd]. clear P0 Hc0 Hb.
  induction P as [s|s l s1 a s2 P IH St]; [done|].
  apply Forall_app in Hs as [Hs Ha]. apply Forall_app in Hc as [Hc _].
  rewrite Forall_singleton in Ha. destruct Ha as [Ha Hl]. destruct (path_inv s l s1 P Hi) as [Hi1 Hd1].
  eapply step_spares; [exact St|done|by apply Hd1|done|done|]. by apply IH.
Qed.

(** A release: the task owns nothing any more, every other owner keeps what it has, and
    the answer names the issue that was released, if there was one. *)
Theorem release_exact t i reason s0 l s :
  blank s0 → path s0 l s →
  let '(keys, s') := releaseAllFor t i reason s in
  (∀ k, ownerId k s' = without i (ownerId k s)) ∧
  (∀ k, tab ∉ chars (key_repo k) → mget (claimKeyString k) (owners s) = Some i →
     keys = [(key_repo k, Some (key_number k))]) ∧
  ((∀ k, mget k (owners s) ≠ Some i) → keys = []).
Proof.
  intros Hb P. destruct (path_inv s0 l s P (proj1 (blank_ok s0 Hb))) as [Hi _].
  pose proof (λ k, release_owner t i reason s k Hi) as R.
  pose proof (release_spec t i reason s (inv_wf s Hi)) as Sp.
  destruct (releaseAllFor t i reason s) as [keys s']. destruct Sp as (-> & _). cbn [snd] in R.
  set (mine := List.filter _ (owners s)).
  assert (Hm : ∀ p, p ∈ mine → mget (fst p) (owners s) = Some i).
  { intros [k j] Hin. apply list_elem_of_In, filter_In in Hin as [Hin E]. apply String.eqb_eq in E.
    simpl in *. subst j. apply elem_of_mget; [apply Hi|by apply list_elem_of_In]. }
  assert (Hn : NoDup (map fst mine)) by (apply mwf_filter, Hi).
  split; [done|]. split.
  - intros k Ht G. assert (Hin : (claimKeyString k, i) ∈ mine).
    { apply list_elem_of_In, filter_In. split; [by apply list_elem_of_In, mget_elem_of|apply String.eqb_refl]. }
    destruct mine as [|p [|q mine']]; [by apply not_elem_of_nil in Hin| |].
    + apply list_elem_of_singleton in Hin. subst p. simpl. by rewrite parseKey_claimKeyString.
    + exfalso. simpl in Hn. apply NoDup_cons in Hn as [Hn _]. apply Hn, elem_of_cons. left.
      apply (inv_inj s Hi _ _ i); apply Hm; [by left|by right; left].
  - intros Hno. destruct mine as [|p mine']; [done|]. exfalso. apply (Hno (fst p)), Hm. by left.
Qed.

(** What a claim answers and does, in every case.  An unknown or ended claimant is
    turned away; the owner is confirmed and nothing changes hands; a live owner refuses
    another task and nothing changes, unless it is forced; otherwise the claimant owns
    the issue, gives up the one it had, and nobody else loses or gains anything. *)
Theorem claim_exact t0 t1 t2 t3 k b session force s0 l s :
  blank s0 → path s0 l s →
  let '(r, s') := postClaim t0 t1 t2 t3 k b session force s in
  match r with
  | None => liveAt b (host s) = false ∧ s' = s
  | Some r => liveAt b (host s) = true ∧
      match liveHolder k s with
      | Some v =>
          if decide (cv_id v = b) then r = claimed true None ∧ ∀ k', ownerId k' s' = ownerId k' s
          else if force then r = claimed false (Some (toOwnerRecord v)) ∧ taken k b s s'
          else r = refused (toOwnerRecord v) ∧ host s' = host s ∧ owners s' = owners s
      | None => r = claimed false None ∧ taken k b s s'
      end
  end.
Proof.
  intros Hb P. destruct (path_inv s0 l s P (proj1 (blank_ok s0 Hb))) as [Hi _].
  unfold postClaim, liveAt. destruct (getTaskView b (host s)) as [v|] eqn:V; [|done].
  destruct (isLive v) eqn:L; [|done].
  pose proof (claim_outcome t0 t1 t2 t3 k b session force s Hi) as C. unfold liveAt in C. rewrite V in C.
  destruct (claim t0 t1 t2 t3 k b session force s) as [r s']. split; [done|]. by apply C.
Qed.
End laws.
End Claims.

(** ** The task store as the port *)

Module Wiring.
#[local] Open Scope Z_scope.
Import Task Store Runs Claims.

(** The working directory of the last session that has one. *)
Definition lastSessionCwd (t : Task) : option string :=
  List.find (λ d, negb (String.eqb d "")) (map s_cwd (rev (sessions t))).

Definition toClaimTaskView (t : Task) : ClaimTaskView :=
  mkView (id t) (status t) (name t) (issueClaim t) (lastSessionCwd t).

#[export] Instance store_port : ClaimTaskPort store := {
  activeTaskViews s := map toClaimTaskView (getAllTasks s);
  getTaskView i s := toClaimTaskView <$> getTask i s;
  portSetIssueClaim := setIssueClaim;
  portClearIssueClaim := clearIssueClaim
}.

Lemma patch_view (f : Task → option Task) i c s j :
  (∀ t t', f t = Some t' → toClaimTaskView t' = withClaim c (toClaimTaskView t)) →
  (∀ t, f t = None → cv_claim (toClaimTaskView t) = c) →
  getTaskView j (patchTask i f s)
  = if decide (j = i) then withClaim c <$> getTaskView j s else getTaskView j s.
Proof.
  intros Hf Hn. simpl. unfold getTask, patchTask. destruct (mget i (tasks s)) as [t|] eqn:T.
  - destruct (f t) as [t'|] eqn:F; simpl; rewrite ?mget_mset; case_decide; try done; subst; rewrite T; simpl.
    + f_equal. by apply Hf.
    + specialize (Hn t F). f_equal. unfold withClaim, toClaimTaskView in *. simpl in *. by rewrite Hn.
  - case_decide; [|done]. subst. by rewrite T.
Qed.

Lemma patch_ok (f : Task → option Task) i s :
  (∀ t t', f t = Some t' → id t' = id t) →
  mwf (tasks s) ∧ keyed s → mwf (tasks (patchTask i f s)) ∧ keyed (patchTask i f s).
Proof.
  intros Hf [W K]. unfold patchTask. destruct (mget i (tasks s)) as [t|] eqn:T; [|done].
  destruct (f t) as [t'|] eqn:F; [|done]. split; [by apply mwf_mset|].
  intros j u. simpl. rewrite mget_mset. case_decide; [|apply K]. intros [= <-]. subst.
  rewrite (Hf _ _ F). by apply K.
Qed.

#[export] Instance store_port_laws : ClaimTaskPortLaws store.
Proof.
  refine {| portOK s := mwf (tasks s) ∧ keyed s |}.
  - intros t i c s. apply patch_ok. by intros u u' [= <-].
  - intros t i s. apply patch_ok. intros u u'. case_match; [|done]. by intros [= <-].
  - intros t i c s j. apply patch_view; [by intros u u' [= <-]|done].
  - intros t i s j. apply patch_view; intros u; simpl; destruct (issueClaim u) eqn:E; simpl; try done.
    by intros u' [= <-].
  - intros s i v [_ K] V. simpl in V. apply fmap_Some in V as (t & T & ->). by apply K.
  - intros s [W K]. simpl. rewrite map_map.
    replace (map (λ x, cv_id (toClaimTaskView x)) (getAllTasks s)) with (mkeys (tasks s)); [done|].
    unfold getAllTasks, mvals, mkeys. change list_fmap with (@fmap list list_fmap).
    rewrite <- list_fmap_compose. apply list_fmap_ext. intros n [i t] E. simpl. symmetry. apply K.
    apply elem_of_mget; [done|]. by eapply list_elem_of_lookup_2.
  - intros s v [W K]. simpl. unfold getAllTasks, mvals, getTask. rewrite list_elem_of_fmap. split.
    + intros (t & -> & Hin). apply list_elem_of_fmap in Hin as ([i t'] & -> & Hin). simpl.
      apply elem_of_mget in Hin; [|done]. rewrite (K _ _ Hin), Hin. done.
    + intros E. apply fmap_Some in E as (t & T & ->). exists t. split; [done|].
      apply list_elem_of_fmap. exists (id t, t). split; [done|]. by apply mget_elem_of.
Defined.

(** Every operation of the store that writes no claim is [foreign], when a task it adds
    has an id no owner had. *)
Lemma exec_foreign dn o s m :
  opOK o s → writesClaim o = false →
  (∀ i t, mget i (tasks s) = None → mget i (tasks (exec dn o s)) = Some t → i ∉ mvals m) →
  foreign m s (exec dn o s).
Proof.
  intros Hok Hw Hn. pose proof (exec_step dn o s Hok) as [W St]. rewrite Hw in St. split.
  - intros [W1 K]. split; [auto|by apply keyed_exec].
  - intros i v V. simpl in V. apply fmap_Some in V as (t' & T & ->).
    destruct (St i t' T) as [(t & T0 & C)|[T0 C]].
    + left. exists (toClaimTaskView t). simpl. unfold getTask. rewrite T0. split; [done|].
      destruct C as [E|to fin _ E|_ E|c ? E]; [..|done]; unfold core in E; simpl.
      * by injection E.
      * by destruct (isTerminalStatus to); injection E.
      * by injection E.
    + right. simpl. unfold getTask. rewrite T0. unfold core in C. injection C as _ _ _ _ E.
      split_and!; [done|done|]. by eapply Hn.
Qed.

Definition twoTasks : store := exec sampleName (op_createTask "t2" "r2" 2 2 2 sampleOptions) sampleStore.
Definition start : sys store := mkSys [] [] twoTasks.
Definition issue7 : ClaimKey := mkKey "github.com/o/r" 7.

Lemma start_tasks i t : mget i (tasks twoTasks) = Some t → id t = i ∧ issueClaim t = None.
Proof.
  unfold twoTasks, sampleStore. cbn -[buildTask]. cbv [mget]. repeat case_decide; intros E; by simplify_eq.
Qed.

Lemma start_blank : blank start.
Proof.
  split; [done|]. split.
  - split; [repeat constructor; set_solver|]. intros i t T. by apply start_tasks.
  - intros i v V. apply fmap_Some in V as (t & T & ->). by apply start_tasks in T as [_ ?].
Qed.

Lemma mkeys_prod_map {V} (f : V → V) (m : jmap string V) :
  mkeys (prod_map (λ i, i) f <$> m) = mkeys m.
Proof. unfold mkeys. induction m as [|[k v] m IH]; simpl; [done|]. by f_equal. Qed.

Lemma mget_prod_map {V} (f : V → V) i (m : jmap string V) :
  mget i (prod_map (λ i, i) f <$> m) = f <$> mget i m.
Proof.
  induction m as [|[k v] m IH]; [done|]. rewrite fmap_cons. cbn [mget prod_map fst snd].
  destruct (decide (i = k)) as [->|Hk]; [by rewrite !mget_here|by rewrite !mget_there].
Qed.

(** So is reading the tasks back at a restart. *)
Lemma reload_foreign s spend m :
  mwf (tasks s) → keyed s → foreign m s (loadTasks (getAllTasks s) spend newStore).
Proof.
  intros W K.
  assert (E : tasks (loadTasks (getAllTasks s) spend newStore) = prod_map (λ i, i) capDigest <$> tasks s).
  { simpl. replace ((λ t, (id t, capDigest t)) <$> getAllTasks s) with
      (prod_map (λ i : string, i) capDigest <$> tasks s).
    - apply mimport_roundtrip. unfold mwf. by rewrite mkeys_prod_map.
    - unfold getAllTasks, mvals. rewrite <- list_fmap_compose. apply list_fmap_ext. intros n [i t] Hin.
      simpl. f_equal. symmetry. apply K, elem_of_mget; [done|]. by eapply list_elem_of_lookup_2. }
  assert (G : ∀ i, mget i (tasks (loadTasks (getAllTasks s) spend newStore)) = capDigest <$> mget i (tasks s)).
  { intros i. by rewrite E, mget_prod_map. }
  split.
  - intros _. split.
    + rewrite E. unfold mwf. by rewrite mkeys_prod_map.
    + intros i t T. rewrite G in T. apply fmap_Some in T as (t0 & T & ->). by apply (K i t0).
  - intros i v V. simpl in V. unfold getTask in V. apply fmap_Some in V as (t & T & ->).
    rewrite G in T. apply fmap_Some in T as (t0 & T & ->). left. exists (toClaimTaskView t0).
    simpl. unfold getTask. by rewrite T.
Qed.

Definition claimed1 : sys store := snd (postClaim 3 3 3 3 issue7 "t1" None false start).
Definition afterTakeover : sys store := snd (postClaim 4 4 4 4 issue7 "t2" None true claimed1).
Definition takeover : list (action * sys store) :=
  [(AClaim issue7 "t1" false, claimed1); (AClaim issue7 "t2" true, afterTakeover)].

Lemma takeover_path : path start takeover afterTakeover.
Proof.
  apply (path_snoc start [(AClaim issue7 "t1" false, claimed1)] claimed1); [|constructor].
  apply (path_snoc start [] start); constructor.
Qed.

Lemma takeover_clean l : cleanRestarts l → cleanRestarts (takeover ++ l).
Proof. intros H. repeat constructor; done. Qed.

Lemma claims_exclusive_witness :
  ownerId issue7 afterTakeover = Some "t2"%string ∧
  ∃ v c, getTaskView "t2" (host afterTakeover) = Some v ∧ isLive v = true ∧
         cv_claim v = Some c ∧ keyOfClaim c = issue7.
Proof.
  split; [reflexivity|].
  apply (claims_exclusive start takeover afterTakeover start_blank takeover_path); [|reflexivity].
  apply (takeover_clean []). constructor.
Defined.

Lemma restart_keeps_owners_witness :
  ownerRecord issue7 (snd (rebuildFromTasks afterTakeover)) = ownerRecord issue7 afterTakeover.
Proof.
  apply (restart_keeps_owners start takeover); [exact start_blank|exact takeover_path|].
  apply (takeover_clean []). constructor.
Defined.

Lemma owner_stable_witness :
  ownerId issue7 (snd (safeReleaseAllFor 5 "t1" cd_released afterTakeover)) = Some "t2"%string.
Proof.
  apply (owner_stable start takeover afterTakeover
           [(ARelease "t1", snd (safeReleaseAllFor 5 "t1" cd_released afterTakeover))]);
    [exact start_blank|exact takeover_path|apply takeover_clean; repeat constructor; done| |
     repeat constructor; done|reflexivity].
  apply (path_snoc afterTakeover [] afterTakeover); constructor.
Defined.

Lemma release_exact_witness :
  fst (releaseAllFor 5 "t2" cd_released afterTakeover) = [("github.com/o/r"%string, Some 7)].
Proof.
  pose proof (release_exact 5 "t2" cd_released start takeover afterTakeover start_blank takeover_path) as R.
  destruct (releaseAllFor 5 "t2" cd_released afterTakeover) as [keys s']. destruct R as (_ & R & _).
  apply (R issue7); [|reflexivity]. vm_compute. intros Hin.
  repeat (apply elem_of_cons in Hin as [E|Hin]; [discriminate E|]). by apply not_elem_of_nil in Hin.
Defined.

Lemma claim_exact_witness :
  let '(r, s') := postClaim 6 6 6 6 issue7 "t1" None false afterTakeover in
  ∃ o, r = Some (refused o) ∧ or_taskId o = "t2"%string ∧ owners s' = owners afterTakeover.
Proof.
  pose proof (claim_exact 6 6 6 6 issue7 "t1" None false start takeover afterTakeover
                start_blank takeover_path) as C.
  assert (∃ v, liveHolder issue7 afterTakeover = Some v ∧ cv_id v = "t2"%string) as (v & L & Ev)
    by (eexists; split; reflexivity).
  rewrite L, Ev in C. destruct (postClaim _ _ _ _ _ _ _ _ _) as [[r|] s'].
  - destruct C as (_ & -> & _ & E). exists (toOwnerRecord v). by rewrite E.
  - by destruct C.
Defined.
(** ** A claim an ended task keeps *)

(** The task ends and the server stops before the release; after the restart another
    task claims the issue. *)
Definition ended : sys store :=
  onHost (λ _, exec sampleName (op_terminate 5 5 "t1" None None) (host claimed1)) claimed1.
Definition rebooted : sys store := snd (rebuildFromTasks ended).
Definition reclaimedBy2 : sys store := snd (postClaim 6 6 6 6 issue7 "t2" None false rebooted).

(** The ended task is reopened, and the server restarted once more. *)
Definition reopened : sys store :=
  onHost (λ _, exec sampleName (op_reopen 7 "t1") (host reclaimedBy2)) reclaimedBy2.
Definition rebootedAgain : sys store := snd (rebuildFromTasks reopened).

Lemma exec_foreign_old dn o s m :
  opOK o s → writesClaim o = false → mkeys (tasks (exec dn o s)) = mkeys (tasks s) →
  foreign m s (exec dn o s).
Proof.
  intros Hok Hw E. apply exec_foreign; [done|done|]. intros i t N T. exfalso.
  apply not_elem_of_mkeys in N. apply N. rewrite <- E. apply elem_of_mkeys. by exists t.
Qed.

(** A claim that an ended task keeps over a restart is not released by anybody: once the
    task is reopened, the next restart takes the issue from its live owner, which
    nothing was done to.  The hypothesis on restarts is needed. *)
Theorem ended_claim_steals :
  ∃ l0 l, path start l0 reclaimedBy2 ∧ path reclaimedBy2 l rebootedAgain ∧
    Forall (λ p, spares issue7 "t2" (fst p) ∧ liveAt "t2" (host (snd p)) = true) l ∧
    ownerId issue7 reclaimedBy2 = Some "t2"%string ∧
    ownerId issue7 rebootedAgain = Some "t1"%string.
Proof.
  pose proof (path_snoc _ [] _ _ _ (path_nil _)
                (step_claim 3 3 3 3 issue7 "t1" None false start)) as P1.
  assert (step AForeign claimed1 ended) as F.
  { apply step_foreign, exec_foreign_old; [exact I|done|]. by vm_compute. }
  pose proof (path_snoc _ _ _ _ _ P1 F) as P2.
  pose proof (path_snoc _ _ _ _ _ P2 (step_restart ended)) as P3.
  pose proof (path_snoc _ _ _ _ _ P3 (step_claim 6 6 6 6 issue7 "t2" None false rebooted)) as P4.
  assert (step AForeign reclaimedBy2 reopened) as F'.
  { apply step_foreign, exec_foreign_old; [exact I|done|]. by vm_compute. }
  pose proof (path_snoc _ _ _ _ _ (path_snoc _ [] _ _ _ (path_nil _) F') (step_restart reopened)) as P5.
  eexists _, _. split; [exact P4|]. split; [exact P5|].
  split; [|split; by vm_compute].
  cbn [app]. apply Forall_cons_2; [|apply Forall_cons_2; [|constructor]]; (split; [exact I|by vm_compute]).
Qed.
End Wiring.
