(* ===== verification/SignalOutbox.v ===== *)
(** * The signal outbox

    [src/core/signal-outbox.ts], the delivery of an entry to the task store by
    [src/server/signal-outbox-service.ts], the signal handler of
    [src/server/routes/task-routes.ts] and the raise of
    [src/server/delivered-task-completion-sweep.ts].

    An agent that signals writes the signal to a spool file before it calls the server;
    the server and every later signal drain the file.  The file is the list of its
    lines, [None] for one that cannot be parsed; a write replaces the whole file
    (a rename).  Every operation reads the file, works on what it read, and writes:
    [world] interleaves the processes that do so at those points.

    A creation time is an ISO text of one format, as every producer writes it, and is
    kept as its time.  A delivery reads the task, waits for the gates, and writes: the
    two halves are [deliverCheck] and [deliverApply]. *)

From S2P Require Import Prelude JsMap JsArray JsString JsRegExp RedactSecrets TaskTypes SessionRegistry TaskStore TaskRuns CompletionGates.

Module Outbox.
Import Task.
#[local] Open Scope Z_scope.

(** ** Data *)

Definition DEFAULT_SIGNAL_OUTBOX_MAX_ENTRIES : Z := 200.
Definition DEFAULT_SIGNAL_OUTBOX_MAX_AGE_MS : Z := 48 * 60 * 60 * 1000.

Record SignalOutboxEntry := mkEntry {
  e_signalId : string;
  e_taskId : string;
  e_kind : AgentSignalKind;
  e_note : option string;
  e_createdAt : Z;
  boundSessionId : option string;
  e_baseUrl : option string;
  e_lastError : option string;
  attemptCount : option Z
}.

Inductive DeliverSignalResult :=
| delivered
| permanent_fail (error : option string)
| transient_fail (error : option string).

Record AppendSignalResult := mkAppended {
  appended : bool;
  pruned : Z
}.

Record DrainSignalResult := mkDrained {
  attempted : Z;
  dr_delivered : Z;
  permanentFailed : Z;
  transientFailed : Z;
  dr_remaining : Z;
  deliveredIds : list string;
  failedIds : list string
}.

(** The time, the cap and the age of one call. *)
Record BoundOptions := mkBound {
  bo_now : Z;
  maxEntries : Z;
  maxAgeMs : Z
}.

Definition defaultBound (now : Z) : BoundOptions :=
  mkBound now DEFAULT_SIGNAL_OUTBOX_MAX_ENTRIES DEFAULT_SIGNAL_OUTBOX_MAX_AGE_MS.

(** [newId] is the random id; [None] is the throw for a missing task. *)
Definition buildSignalOutboxEntry (newId : string) (now : Z) (signalId : option string)
    (taskId : string) (kind : AgentSignalKind) (note : option string) (createdAt : option Z)
    (session baseUrl lastError : option string) (attempts : option Z) : option SignalOutboxEntry :=
  match truthyStr (Some (trim taskId)) with
  | None => None
  | Some t =>
      Some (mkEntry (orElse (truthyStr (trim <$> signalId)) newId) t kind (truthyStr (trim <$> note))
              (orElse createdAt now) (truthyStr (trim <$> session)) (truthyStr baseUrl)
              (sliceTo 500 <$> truthyStr lastError) attempts)
  end.

(** ** The file *)

(** The schema and the kind are in the type of an entry. *)
Definition isValidEntry (e : SignalOutboxEntry) : bool :=
  negb (String.eqb (e_signalId e) "") && negb (String.eqb (e_taskId e) "").

(** Optional texts that are empty are dropped when a line is read. *)
Definition normalizeEntry (e : SignalOutboxEntry) : SignalOutboxEntry :=
  {| e with e_note := truthyStr (e_note e); boundSessionId := truthyStr (boundSessionId e);
            e_baseUrl := truthyStr (e_baseUrl e) |}.

Definition rows : Type := list (option SignalOutboxEntry).

Definition byCreated (a b : SignalOutboxEntry) : Z := e_createdAt a - e_createdAt b.

(** The last line of an id wins, in the place of its first. *)
Definition readPendingSignals (f : rows) : list SignalOutboxEntry :=
  sort_by byCreated
    (mvals (mimport (map (λ e, (e_signalId e, normalizeEntry e))
                       (List.filter isValidEntry (omap (λ r, r) f))) [])).

Definition rewritePending (l : list SignalOutboxEntry) : rows := map Some l.

Definition isFresh (o : BoundOptions) (e : SignalOutboxEntry) : bool :=
  bo_now o - e_createdAt e <=? maxAgeMs o.

(** The entries kept and the number pruned. *)
Definition boundSignalOutbox (o : BoundOptions) (l : list SignalOutboxEntry) :
    list SignalOutboxEntry * Z :=
  let fresh := List.filter (isFresh o) l in
  let ageDropped := Z.of_nat (length l) - Z.of_nat (length fresh) in
  if maxEntries o <? Z.of_nat (length fresh) then
    let sizeDropped := Z.of_nat (length fresh) - maxEntries o in
    (drop (Z.to_nat sizeDropped) (sort_by byCreated fresh), ageDropped + sizeDropped)
  else (fresh, ageDropped).

Definition hasId (i : string) (l : list SignalOutboxEntry) : bool :=
  existsb (λ e, String.eqb (e_signalId e) i) l.

(** [appendSignalOutbox] on what it read: the write, if there is one, and the result. *)
Definition appendOn (o : BoundOptions) (e : SignalOutboxEntry) (existing : list SignalOutboxEntry) :
    option (list SignalOutboxEntry) * AppendSignalResult :=
  if hasId (e_signalId e) existing then (None, mkAppended false 0)
  else
    let '(kept, n) := boundSignalOutbox o (existing ++ [e]) in
    if hasId (e_signalId e) kept then (Some kept, mkAppended true n)
    else
      let o' := mkBound (bo_now o) (Z.max 0 (maxEntries o - 1)) (maxAgeMs o) in
      (Some (fst (boundSignalOutbox o' existing) ++ [e]), mkAppended true (n + 1)).

(** [removeSignalOutboxEntry] on what it read. *)
Definition removeOn (i : string) (pending : list SignalOutboxEntry) :
    option (list SignalOutboxEntry) :=
  let next := List.filter (λ e, negb (String.eqb (e_signalId e) i)) pending in
  if bool_decide (length next = length pending) then None else Some next.

(** The write before the deliveries, when the bounds dropped something. *)
Definition drainBegin (o : BoundOptions) (raw : list SignalOutboxEntry) :
    list SignalOutboxEntry * option (list SignalOutboxEntry) :=
  let pending := fst (boundSignalOutbox o raw) in
  (pending, if bool_decide (length pending = length raw) then None else Some pending).

(** The variables of the loop. *)
Record Progress := mkProgress {
  p_remaining : list SignalOutboxEntry;
  p_deliveredIds : list string;
  p_failedIds : list string;
  p_permanent : Z;
  p_transient : Z
}.

Definition noProgress : Progress := mkProgress [] [] [] 0 0.

(** An entry that failed for now, as it is written back. *)
Definition retried (error : option string) (e : SignalOutboxEntry) : SignalOutboxEntry :=
  {| e with attemptCount := Some (orElse (attemptCount e) 0 + 1);
            e_lastError := orOpt (sliceTo 500 <$> error) (e_lastError e) |}.

Definition settle (e : SignalOutboxEntry) (r : DeliverSignalResult) (p : Progress) : Progress :=
  match r with
  | delivered => {| p with p_deliveredIds := p_deliveredIds p ++ [e_signalId e] |}
  | permanent_fail _ =>
      {| p with p_permanent := p_permanent p + 1; p_failedIds := p_failedIds p ++ [e_signalId e] |}
  | transient_fail error =>
      {| p with p_transient := p_transient p + 1; p_failedIds := p_failedIds p ++ [e_signalId e];
                p_remaining := p_remaining p ++ [retried error e] |}
  end.

Definition drainResult (pending : list SignalOutboxEntry) (p : Progress) : DrainSignalResult :=
  mkDrained (Z.of_nat (length pending)) (Z.of_nat (length (p_deliveredIds p))) (p_permanent p)
    (p_transient p) (Z.of_nat (length (p_remaining p))) (p_deliveredIds p) (p_failedIds p).

(** ** One process at a time *)

Definition orRows (f : rows) (w : option (list SignalOutboxEntry)) : rows :=
  match w with Some l => rewritePending l | None => f end.

Definition appendSignalOutbox (o : BoundOptions) (e : SignalOutboxEntry) (f : rows) :
    AppendSignalResult * rows :=
  let '(w, r) := appendOn o e (readPendingSignals f) in (r, orRows f w).

Definition removeSignalOutboxEntry (i : string) (f : rows) : bool * rows :=
  let w := removeOn i (readPendingSignals f) in (isSome w, orRows f w).

(** A delivery, in the state [St] it works on; one that throws is [transient_fail]. *)
Definition drainLoop {St} (deliver : SignalOutboxEntry → St → DeliverSignalResult * St)
    (pending : list SignalOutboxEntry) (st : St) : Progress * St :=
  fold_left (λ '(p, st) e, let '(r, st) := deliver e st in (settle e r p, st)) pending (noProgress, st).

Definition drainSignalOutbox {St} (o : BoundOptions)
    (deliver : SignalOutboxEntry → St → DeliverSignalResult * St) (f : rows) (st : St) :
    DrainSignalResult * rows * St :=
  let '(pending, w) := drainBegin o (readPendingSignals f) in
  let f := orRows f w in
  match pending with
  | [] => (drainResult [] noProgress, f, st)
  | _ :: _ =>
      let '(p, st) := drainLoop deliver pending st in
      (drainResult pending p, rewritePending (p_remaining p), st)
  end.

(** ** Several processes *)

(** Where a process is: it has read the file and will write, or delivers. *)
Inductive proc :=
| pAppend (o : BoundOptions) (e : SignalOutboxEntry) (existing : list SignalOutboxEntry)
| pRemove (i : string) (pending : list SignalOutboxEntry)
| pBound (pending : list SignalOutboxEntry)
| pDrain (pending todo : list SignalOutboxEntry) (p : Progress).

Record world := mkWorld {
  file : rows;
  procs : jmap Z proc
}.

Inductive wop :=
| WAppend (pid : Z) (o : BoundOptions) (e : SignalOutboxEntry)
| WRemove (pid : Z) (i : string)
| WDrain (pid : Z) (o : BoundOptions)
| WDeliver (pid : Z) (r : DeliverSignalResult)
| WWrite (pid : Z)
| WCrash (pid : Z).

Definition setProc (pid : Z) (p : proc) (w : world) : world :=
  mkWorld (file w) (mset pid p (procs w)).

Definition endProc (pid : Z) (f : rows) (w : world) : world := mkWorld f (mdel pid (procs w)).

(** A read; a process does one operation at a time. *)
Definition start (pid : Z) (p : proc) (w : world) : world :=
  if mhas pid (procs w) then w else setProc pid p w.

(** The write a process is about to do, and its deliveries after it. *)
Definition write (pid : Z) (w : world) : world :=
  match mget pid (procs w) with
  | Some (pAppend o e existing) => endProc pid (orRows (file w) (fst (appendOn o e existing))) w
  | Some (pRemove i pending) => endProc pid (orRows (file w) (removeOn i pending)) w
  | Some (pBound pending) =>
      match pending with
      | [] => endProc pid (rewritePending []) w
      | _ :: _ => mkWorld (rewritePending pending) (mset pid (pDrain pending pending noProgress) (procs w))
      end
  | Some (pDrain _ [] p) => endProc pid (rewritePending (p_remaining p)) w
  | Some (pDrain _ (_ :: _) _) | None => w
  end.

Definition wstep (w : world) (o : wop) : world :=
  match o with
  | WAppend pid b e => start pid (pAppend b e (readPendingSignals (file w))) w
  | WRemove pid i => start pid (pRemove i (readPendingSignals (file w))) w
  | WDrain pid b =>
      let '(pending, r) := drainBegin b (readPendingSignals (file w)) in
      match r, pending with
      | Some _, _ => start pid (pBound pending) w
      | None, [] => w
      | None, _ :: _ => start pid (pDrain pending pending noProgress) w
      end
  | WDeliver pid r =>
      match mget pid (procs w) with
      | Some (pDrain pending (e :: todo) p) => setProc pid (pDrain pending todo (settle e r p)) w
      | _ => w
      end
  | WWrite pid => write pid w
  | WCrash pid => endProc pid (file w) w
  end.

Definition wrun (ops : list wop) (w : world) : world := fold_left wstep ops w.

(** ** Well-formed lists *)

Abbreviation ids l := (map e_signalId l).

(** An entry as a read gives it. *)
Definition okEntry (e : SignalOutboxEntry) : Prop := isValidEntry e = true ∧ normalizeEntry e = e.

Definition wfEntries (l : list SignalOutboxEntry) : Prop := NoDup (ids l) ∧ Forall okEntry l.

#[local] Instance byCreated_order : CmpOrder byCreated.
Proof. split; unfold byCreated; intros; lia. Qed.

Lemma truthyStr_idem x : truthyStr (truthyStr x) = truthyStr x.
Proof. destruct x as [s|]; [|done]. simpl. destruct (String.eqb s "") eqn:E; [done|]. simpl. by rewrite E. Qed.

Lemma normalize_ok e : isValidEntry e = true → okEntry (normalizeEntry e).
Proof.
  intros H. split; [done|]. destruct e. unfold normalizeEntry. simpl. by rewrite !truthyStr_idem.
Qed.

Lemma wfEntries_submseteq l k : l ⊆+ k → wfEntries k → wfEntries l.
Proof.
  intros [r Hr]%submseteq_Permutation [Hn Ho]. split.
  - rewrite Hr, map_app in Hn. by apply NoDup_app in Hn as [Hn _].
  - rewrite Hr in Ho. by apply Forall_app in Ho as [Ho _].
Qed.

Lemma wfEntries_perm l k : l ≡ₚ k → wfEntries k → wfEntries l.
Proof. intros H. apply wfEntries_submseteq. by rewrite H. Qed.

(** Whatever the file holds, a read is well-formed and sorted. *)
Lemma mimport_entries (l m : jmap string SignalOutboxEntry) (P : string * SignalOutboxEntry → Prop) :
  Forall P l → Forall P m → Forall P (mimport l m).
Proof.
  revert m. unfold mimport. induction l as [|[k v] l IH]; intros m Hl Hm; simpl; [done|].
  apply Forall_cons in Hl as [H Hl]. apply IH; [done|]. by apply Forall_mset.
Qed.

Lemma read_wf f : wfEntries (readPendingSignals f).
Proof.
  unfold readPendingSignals. eapply wfEntries_perm; [apply sort_by_perm|].
  set (es := map _ _). assert (He : Forall (λ q, e_signalId q.2 = q.1 ∧ okEntry q.2) (mimport es [])).
  { apply mimport_entries; [|constructor]. unfold es. apply Forall_map, Forall_forall. intros e.
    rewrite list_elem_of_In, filter_In. intros [_ Hv]. split; [done|by apply normalize_ok]. }
  assert (Hw : mwf (mimport es [])) by apply mwf_mimport, mwf_nil.
  split.
  - replace (ids (mvals (mimport es []))) with (mkeys (mimport es [])); [exact Hw|].
    unfold mkeys, mvals. rewrite map_map. apply map_ext_Forall.
    eapply Forall_impl; [exact He|]. by intros [k v] [<- _].
  - unfold mvals. apply Forall_fmap. eapply Forall_impl; [exact He|]. by intros [k v] [_ H].
Qed.

Lemma read_sorted f : StronglySorted (cmp_le byCreated) (readPendingSignals f).
Proof. apply sort_by_sorted, _. Qed.

Lemma insert_by_min (x : SignalOutboxEntry) l :
  Forall (cmp_le byCreated x) l → insert_by byCreated x l = x :: l.
Proof. destruct l as [|y l]; [done|]. intros [H _]%Forall_cons. simpl. unfold cmp_le in H. by rewrite (proj2 (Z.leb_le _ _) H). Qed.

Lemma sort_by_id l : StronglySorted (cmp_le byCreated) l → sort_by byCreated l = l.
Proof.
  induction 1 as [|x l Hs IH Hf]; [done|]. simpl. rewrite IH. by apply insert_by_min.
Qed.

(** Reading back a written list gives it sorted. *)
Lemma read_rewrite l : wfEntries l → readPendingSignals (rewritePending l) = sort_by byCreated l.
Proof.
  intros [Hn Ho]. unfold readPendingSignals, rewritePending. f_equal.
  replace (omap (λ r, r) (map Some l)) with l by (clear; induction l as [|x l IH]; [done|exact (f_equal (cons x) IH)]).
  assert (Hf : List.filter isValidEntry l = l).
  { clear Hn. induction Ho as [|e l [H _] _ IH]; [done|]. simpl. by rewrite H, IH. }
  rewrite Hf. replace (map (λ e, (e_signalId e, normalizeEntry e)) l) with (map (λ e, (e_signalId e, e)) l).
  - rewrite mimport_roundtrip.
    + unfold mvals. rewrite map_map. apply map_id.
    + unfold mwf, mkeys. by rewrite map_map.
  - apply map_ext_Forall. eapply Forall_impl; [exact Ho|]. intros e [_ H]. by rewrite H.
Qed.

Lemma filter_submseteq {A} (p : A → bool) (l : list A) : List.filter p l ⊆+ l.
Proof. induction l as [|x l IH]; simpl; [done|]. destruct (p x); [by apply submseteq_skip|by apply submseteq_cons]. Qed.

Lemma bound_submseteq o l : fst (boundSignalOutbox o l) ⊆+ l.
Proof.
  unfold boundSignalOutbox. destruct (_ <? _); simpl; [|apply filter_submseteq].
  transitivity (List.filter (isFresh o) l); [|apply filter_submseteq].
  transitivity (sort_by byCreated (List.filter (isFresh o) l)); [|by rewrite sort_by_perm].
  apply sublist_submseteq, sublist_drop.
Qed.

Lemma bound_length o l : 0 ≤ maxEntries o → Z.of_nat (length (fst (boundSignalOutbox o l))) ≤ maxEntries o.
Proof.
  intros H. unfold boundSignalOutbox. destruct (Z.ltb_spec (maxEntries o) (Z.of_nat (length (List.filter (isFresh o) l)))).
  - simpl. rewrite length_drop, length_sort_by. lia.
  - simpl. lia.
Qed.

Lemma bound_sorted o l : StronglySorted (cmp_le byCreated) l →
  StronglySorted (cmp_le byCreated) (fst (boundSignalOutbox o l)).
Proof.
  intros H. unfold boundSignalOutbox. pose proof (StronglySorted_filter _ (isFresh o) _ H) as Hf.
  destruct (_ <? _); simpl; [|done]. rewrite sort_by_id by done.
  clear -Hf. generalize (Z.to_nat (Z.of_nat (length (List.filter (isFresh o) l)) - maxEntries o)) as n.
  induction Hf as [|x k Hs IH Hx]; intros [|n]; simpl; [constructor..|by constructor|apply IH].
Qed.

Lemma hasId_elem i l : hasId i l = true ↔ i ∈ ids l.
Proof.
  unfold hasId. rewrite existsb_exists, list_elem_of_fmap. split.
  - intros (e & He & Hi%String.eqb_eq). exists e. by rewrite list_elem_of_In.
  - intros (e & -> & He). exists e. rewrite <- list_elem_of_In, String.eqb_refl. done.
Qed.

Lemma wf_snoc l e : wfEntries l → okEntry e → e_signalId e ∉ ids l → wfEntries (l ++ [e]).
Proof.
  intros [Hn Ho] He Hi. split.
  - rewrite map_app. apply NoDup_app. split_and!; [done| |by apply NoDup_singleton].
    intros i Hx ->%list_elem_of_singleton. by apply Hi.
  - apply Forall_app. split; [done|]. by apply Forall_singleton.
Qed.

(** ** One operation *)

Lemma append_wf o e l k r : wfEntries l → okEntry e → appendOn o e l = (Some k, r) → wfEntries k.
Proof.
  intros Hw He. unfold appendOn. destruct (hasId (e_signalId e) l) eqn:E; [done|].
  assert (Hn : e_signalId e ∉ ids l) by (rewrite <- hasId_elem; congruence).
  destruct (boundSignalOutbox o (l ++ [e])) as [kept n] eqn:Eb. pose proof (bound_submseteq o (l ++ [e])) as Hs.
  rewrite Eb in Hs. simpl in Hs. destruct (hasId (e_signalId e) kept); intros [= <- _].
  - eapply wfEntries_submseteq; [exact Hs|]. by apply wf_snoc.
  - pose proof (bound_submseteq (mkBound (bo_now o) (Z.max 0 (maxEntries o - 1)) (maxAgeMs o)) l) as Hs'.
    apply wf_snoc; [by eapply wfEntries_submseteq|done|]. intros Hi. apply Hn.
    apply (fmap_submseteq e_signalId) in Hs'. by eapply elem_of_submseteq.
Qed.

Lemma append_length o e l k r :
  0 ≤ maxEntries o → appendOn o e l = (Some k, r) → Z.of_nat (length k) ≤ Z.max 1 (maxEntries o).
Proof.
  intros Hm. unfold appendOn. destruct (hasId _ l); [done|].
  destruct (boundSignalOutbox o (l ++ [e])) as [kept n] eqn:Eb. pose proof (bound_length o (l ++ [e]) Hm) as Hl.
  rewrite Eb in Hl. simpl in Hl. destruct (hasId _ kept); intros [= <- _]; [lia|].
  set (o' := mkBound _ _ _). pose proof (bound_length o' l) as Hb. rewrite length_app. simpl in *. lia.
Qed.

Lemma append_elem o e l k r x : appendOn o e l = (Some k, r) → x ∈ k → x = e ∨ x ∈ l.
Proof.
  unfold appendOn. destruct (hasId _ l); [done|].
  destruct (boundSignalOutbox o (l ++ [e])) as [kept n] eqn:Eb. pose proof (bound_submseteq o (l ++ [e])) as Hs.
  rewrite Eb in Hs. simpl in Hs. destruct (hasId _ kept); intros [= <- _] Hx.
  - eapply elem_of_submseteq in Hx; [|exact Hs]. rewrite elem_of_app, list_elem_of_singleton in Hx. tauto.
  - rewrite elem_of_app, list_elem_of_singleton in Hx. destruct Hx as [Hx|]; [|by left]. right.
    eapply elem_of_submseteq; [exact Hx|apply bound_submseteq].
Qed.

Lemma remove_submseteq i l k : removeOn i l = Some k → k ⊆+ l.
Proof.
  unfold removeOn. case_bool_decide; [done|]. intros [= <-]. apply filter_submseteq.
Qed.

(** What a bound drops is expired or no younger than what it keeps. *)
Lemma bound_drops o l x :
  x ∈ l → x ∉ (boundSignalOutbox o l).1 →
  isFresh o x = false ∨ ∀ y, y ∈ (boundSignalOutbox o l).1 → e_createdAt x ≤ e_createdAt y.
Proof.
  intros Hx. unfold boundSignalOutbox. destruct (isFresh o x) eqn:Ef; [|by left].
  assert (Hf : x ∈ List.filter (isFresh o) l) by (rewrite list_elem_of_In, filter_In, <- list_elem_of_In; done).
  destruct (_ <? _); simpl; [|done]. set (n := Z.to_nat _). intros Hn. right. intros y Hy.
  pose proof (sort_by_sorted byCreated (List.filter (isFresh o) l)) as Hs.
  set (k := sort_by _ _) in *. assert (Hk : x ∈ take n k).
  { assert (Hin : x ∈ k) by (by apply elem_of_sort_by). rewrite <- (take_drop n k), elem_of_app in Hin. tauto. }
  rewrite <- (take_drop n k) in Hs. pose proof (StronglySorted_app_1_elem_of _ _ _ _ _ Hs Hk Hy) as H.
  unfold cmp_le, byCreated in H. lia.
Qed.

Lemma append_drops o e l k r :
  appendOn o e l = (Some k, r) →
  e ∈ k ∧ ∀ x, x ∈ l → x ∉ k → isFresh o x = false ∨ ∀ y, y ∈ k → y ≠ e → e_createdAt x ≤ e_createdAt y.
Proof.
  unfold appendOn. destruct (hasId _ l) eqn:El; [done|]. destruct (boundSignalOutbox o (l ++ [e])) as [kept n] eqn:Eb.
  pose proof (bound_submseteq o (l ++ [e])) as Hs. pose proof (bound_drops o (l ++ [e])) as Hd. rewrite Eb in Hs, Hd.
  simpl in Hs, Hd. destruct (hasId (e_signalId e) kept) eqn:Ek; intros [= <- _]; split.
  - apply hasId_elem, list_elem_of_fmap in Ek as (x & Hx & Hin).
    assert (Hin' : x ∈ l ++ [e]) by (by eapply elem_of_submseteq).
    apply elem_of_app in Hin' as [H|H%list_elem_of_singleton]; [|by subst].
    exfalso. assert (hasId (e_signalId e) l = true); [|congruence]. apply hasId_elem, list_elem_of_fmap. eauto.
  - intros x Hx Hn. destruct (Hd x) as [?|H]; [apply elem_of_app; by left|done|by left|right; auto].
  - apply elem_of_app. right. by apply list_elem_of_singleton.
  - intros x Hx Hn. set (o' := mkBound _ _ _) in *. rewrite elem_of_app in Hn.
    destruct (bound_drops o' l x Hx) as [?|H]; [tauto|by left|]. right.
    intros y Hy Hne. apply H. rewrite elem_of_app, list_elem_of_singleton in Hy. tauto.
Qed.

(** What a retry leaves of an entry: all but the attempts and the last error. *)
Definition signalOf (e : SignalOutboxEntry) : SignalOutboxEntry :=
  {| e with attemptCount := None; e_lastError := None |}.

Lemma retried_ok error e : okEntry e → okEntry (retried error e).
Proof.
  intros [H1 H2]. split; [done|]. destruct e. unfold normalizeEntry, retried in *. simpl in *.
  by injection H2 as -> -> ->.
Qed.

(** ** The invariant of the file *)

Section invariant.
Context (cap : Z) (sources : list SignalOutboxEntry).

Definition known (e : SignalOutboxEntry) : Prop := ∃ e0, e0 ∈ sources ∧ signalOf e = signalOf e0.

(** A list a process may hold or write. *)
Definition okList (l : list SignalOutboxEntry) : Prop :=
  wfEntries l ∧ Z.of_nat (length l) ≤ cap ∧ Forall known l.

Definition okProc (p : proc) : Prop :=
  match p with
  | pAppend o e existing => 0 ≤ maxEntries o ≤ cap ∧ okEntry e ∧ known e ∧ okList existing
  | pRemove _ pending | pBound pending => okList pending
  | pDrain _ todo p => okList (p_remaining p ++ todo)
  end.

Definition okWorld (w : world) : Prop :=
  (∃ l, file w = rewritePending l ∧ okList l) ∧ ∀ pid p, mget pid (procs w) = Some p → okProc p.

(** The operations have bounds within the cap and append well-formed entries. *)
Definition okOp (o : wop) : Prop :=
  match o with
  | WAppend _ b e => 0 ≤ maxEntries b ≤ cap ∧ okEntry e ∧ known e
  | WDrain _ b => 0 ≤ maxEntries b ≤ cap
  | _ => True
  end.

Lemma okList_submseteq l k : l ⊆+ k → okList k → okList l.
Proof.
  intros H (A & B & C). split_and!; [by eapply wfEntries_submseteq| |].
  - apply submseteq_length in H. lia.
  - rewrite Forall_forall in C |- *. intros e He. apply C. by eapply elem_of_submseteq.
Qed.

Lemma okWorld_read w : okWorld w → okList (readPendingSignals (file w)).
Proof.
  intros [(l & -> & H) _]. rewrite read_rewrite by apply H. eapply okList_submseteq; [|exact H].
  by rewrite sort_by_perm.
Qed.

Lemma okWorld_start pid p w : okWorld w → okProc p → okWorld (start pid p w).
Proof.
  intros [Hf Hp] H. unfold start. destruct (mhas pid (procs w)); [done|]. split; [exact Hf|].
  intros q x. simpl. rewrite mget_mset. destruct (decide _); [|apply Hp]. by intros [= <-].
Qed.

Lemma okWorld_end pid l w : okWorld w → okList l → okWorld (endProc pid (rewritePending l) w).
Proof.
  intros [_ Hp] Hl. split; [by exists l|]. intros q x. simpl. rewrite mget_mdel. destruct (decide _); [done|apply Hp].
Qed.

Lemma okWorld_end_same pid w : okWorld w → okWorld (endProc pid (file w) w).
Proof.
  intros [Hf Hp]. split; [exact Hf|]. intros q x. simpl. rewrite mget_mdel. destruct (decide _); [done|apply Hp].
Qed.

Lemma settle_ok e r p todo :
  okList (p_remaining p ++ e :: todo) → okList (p_remaining (settle e r p) ++ todo).
Proof.
  assert (Hdrop : p_remaining p ++ todo ⊆+ p_remaining p ++ e :: todo).
  { apply submseteq_skips_l, submseteq_cons. done. }
  destruct r as [|er|er]; simpl; [by apply okList_submseteq..|].
  intros ([Hn Ho] & Hl & Hk). rewrite map_app in Hn. rewrite length_app in Hl. simpl in Hn, Hl.
  apply Forall_app in Ho as [Ho1 Ho2]. apply Forall_cons in Ho2 as [Ho Ho2]. apply Forall_app in Hk as [Hk1 Hk2].
  apply Forall_cons in Hk2 as [Hk Hk2]. split_and!; [split| |].
  - rewrite !map_app. simpl. by rewrite <- app_assoc.
  - apply Forall_app; split; [|done]. apply Forall_app; split; [done|]. apply Forall_singleton. by apply retried_ok.
  - rewrite !length_app. simpl. lia.
  - apply Forall_app; split; [|done]. apply Forall_app; split; [done|]. apply Forall_singleton. exact Hk.
Qed.

Lemma okWorld_step (Hcap : 1 ≤ cap) w o : okWorld w → okOp o → okWorld (wstep w o).
Proof.
  intros Hw Ho. pose proof (okWorld_read w Hw) as Hr.
  destruct o as [pid b e|pid i|pid b|pid r|pid|pid]; cbn [wstep okOp] in *.
  - destruct Ho as (Hb & He & Hk). apply okWorld_start; [done|]. by split_and!; try apply Hb.
  - by apply okWorld_start.
  - pose proof (bound_submseteq b (readPendingSignals (file w))) as Hs.
    destruct (drainBegin b (readPendingSignals (file w))) as [pending wr] eqn:Eb.
    unfold drainBegin in Eb. injection Eb as Hp Hwr. rewrite Hp in *.
    assert (Hk : okList pending) by (by eapply okList_submseteq).
    destruct wr; [by apply okWorld_start|]. destruct pending; [done|]. by apply okWorld_start.
  - destruct (mget pid (procs w)) as [[| | |pending [|e todo] p]|] eqn:Ep; try done.
    split; [apply Hw|]. intros q x. simpl. rewrite mget_mset. destruct (decide _); [|apply Hw].
    intros [= <-]. apply settle_ok. exact (proj2 Hw pid _ Ep).
  - unfold write. destruct (mget pid (procs w)) as [[o e l|i l|l|pending [|e todo] p]|] eqn:Ep; try done;
      pose proof (proj2 Hw pid _ Ep) as Hp; cbn [okProc] in Hp.
    + destruct Hp as (Ho1 & He & Hk & Hl). destruct (appendOn o e l) as [[k|] r] eqn:Ea; simpl; [|by apply okWorld_end_same].
      apply okWorld_end; [done|]. split_and!.
      * by eapply append_wf; [apply Hl|exact He|].
      * pose proof (append_length _ _ _ _ _ (proj1 Ho1) Ea). lia.
      * apply Forall_forall. intros x Hx. destruct (append_elem _ _ _ _ _ _ Ea Hx) as [->|Hin]; [done|].
        destruct Hl as (_ & _ & Hl). rewrite Forall_forall in Hl. by apply Hl.
    + destruct (removeOn i l) as [k|] eqn:Er; simpl; [|by apply okWorld_end_same].
      apply okWorld_end; [done|]. eapply okList_submseteq; [by eapply remove_submseteq|done].
    + destruct l as [|e l]; [by apply okWorld_end|]. split; [by exists (e :: l)|].
      intros q x. simpl. rewrite mget_mset. destruct (decide _); [by intros [= <-]|apply Hw].
    + rewrite app_nil_r in Hp. by apply okWorld_end.
  - by apply okWorld_end_same.
Qed.

Lemma okWorld_run (Hcap : 1 ≤ cap) ops : ∀ w, okWorld w → Forall okOp ops → okWorld (wrun ops w).
Proof.
  induction ops as [|o ops IH]; intros w Hw Ho; [done|]. apply Forall_cons in Ho as [H Ho].
  simpl. apply IH; [by apply okWorld_step|done].
Qed.
End invariant.

(** ** The drain *)

(** The deliveries of a drain, in order, with their results. *)
Fixpoint deliveries {St} (deliver : SignalOutboxEntry → St → DeliverSignalResult * St)
    (l : list SignalOutboxEntry) (st : St) : list (SignalOutboxEntry * DeliverSignalResult) * St :=
  match l with
  | [] => ([], st)
  | e :: l =>
      let '(r, st) := deliver e st in
      let '(rs, st) := deliveries deliver l st in ((e, r) :: rs, st)
  end.

Definition isDelivered (q : SignalOutboxEntry * DeliverSignalResult) : bool :=
  match q.2 with delivered => true | _ => false end.
Definition isPermanent (q : SignalOutboxEntry * DeliverSignalResult) : bool :=
  match q.2 with permanent_fail _ => true | _ => false end.
Definition isTransient (q : SignalOutboxEntry * DeliverSignalResult) : bool :=
  match q.2 with transient_fail _ => true | _ => false end.

(** What goes back to the file. *)
Definition keptBack (q : SignalOutboxEntry * DeliverSignalResult) : option SignalOutboxEntry :=
  match q.2 with transient_fail error => Some (retried error q.1) | _ => None end.

Lemma drainLoop_deliveries {St} (deliver : SignalOutboxEntry → St → DeliverSignalResult * St) l : ∀ p st,
  fold_left (λ '(p, st) e, let '(r, st) := deliver e st in (settle e r p, st)) l (p, st) =
  let '(rs, st) := deliveries deliver l st in
  (mkProgress (p_remaining p ++ omap keptBack rs)
     (p_deliveredIds p ++ map (λ q, e_signalId q.1) (List.filter isDelivered rs))
     (p_failedIds p ++ map (λ q, e_signalId q.1) (List.filter (λ q, negb (isDelivered q)) rs))
     (p_permanent p + Z.of_nat (countb isPermanent rs)) (p_transient p + Z.of_nat (countb isTransient rs)), st).
Proof.
  induction l as [|e l IH]; intros p st; cbn [fold_left deliveries].
  - destruct p. simpl. by rewrite !app_nil_r, !Z.add_0_r.
  - destruct (deliver e st) as [r st1]. rewrite IH. destruct (deliveries deliver l st1) as [rs st2].
    f_equal. rewrite !countb_cons. destruct p, r; simpl; rewrite <- ?app_assoc; f_equal; lia.
Qed.

Lemma deliveries_fst {St} (deliver : SignalOutboxEntry → St → DeliverSignalResult * St) l : ∀ st,
  map fst (deliveries deliver l st).1 = l.
Proof.
  induction l as [|e l IH]; intros st; [done|]. cbn [deliveries]. destruct (deliver e st) as [r st1].
  specialize (IH st1). destruct (deliveries deliver l st1). simpl in *. by rewrite IH.
Qed.

Lemma keptBack_props rs :
  wfEntries (map fst rs) → StronglySorted (cmp_le byCreated) (map fst rs) →
  wfEntries (omap keptBack rs) ∧ StronglySorted (cmp_le byCreated) (omap keptBack rs) ∧
  length (omap keptBack rs) = countb isTransient rs ∧
  ∀ e, e ∈ omap keptBack rs → ∃ e0, e0 ∈ map fst rs ∧ e_signalId e = e_signalId e0 ∧ e_createdAt e = e_createdAt e0.
Proof.
  induction rs as [|[e r] rs IH]; intros [Hn Ho] Hs; [by split_and!; try (intros ? ?%not_elem_of_nil)|].
  simpl in Hn, Ho, Hs. apply NoDup_cons in Hn as [Hni Hn]. apply Forall_cons in Ho as [He Ho].
  apply StronglySorted_inv in Hs as [Hs Hf].
  destruct (IH (conj Hn Ho) Hs) as ([A1 A2] & B & C & D). rewrite countb_cons.
  assert (Hd : ∀ x, x ∈ omap keptBack rs → ∃ e0, e0 ∈ map fst ((e, r) :: rs) ∧
    e_signalId x = e_signalId e0 ∧ e_createdAt x = e_createdAt e0).
  { intros x (y & Hy & H)%D. exists y. split; [by right|done]. }
  destruct r as [|er|er]; cbn [omap list_omap keptBack snd isTransient]; [by split_and!..|].
  split_and!; [split| | |].
  - simpl. apply NoDup_cons. split; [|done]. intros H. apply Hni. apply list_elem_of_fmap in H as (x & Hx & Hin).
    apply D in Hin as (y & Hy & Hi & _). apply list_elem_of_fmap. exists y. split; [|done]. simpl in Hx. congruence.
  - apply Forall_cons. split; [by apply retried_ok|done].
  - constructor; [done|]. apply Forall_forall. intros x (y & Hy & _ & Hc)%D.
    rewrite Forall_forall in Hf. specialize (Hf y Hy). unfold cmp_le, byCreated in *. simpl. lia.
  - simpl. by rewrite C.
  - intros x [->|Hx]%elem_of_cons; [|by apply Hd]. exists e. split; [by left|done].
Qed.

Lemma countb_parts rs :
  (countb isDelivered rs + countb isPermanent rs + countb isTransient rs)%nat = length rs.
Proof.
  induction rs as [|[e r] rs IH]; [done|]. rewrite !countb_cons. unfold isDelivered at 1, isPermanent at 1, isTransient at 1.
  destruct r; simpl; lia.
Qed.

(** ** Properties *)

(** C11: however appends, removals, drains, deliveries and crashes of several processes
    interleave, the file is always one well-formed list: ids are unique, every entry is valid
    and normalised, the list is within the cap, and every entry is one of the initial or
    appended ones, up to its attempt count and last error. *)
Theorem outbox_sound cap l0 ops :
  1 ≤ cap → wfEntries l0 → Z.of_nat (length l0) ≤ cap →
  Forall (λ o, match o with
               | WAppend _ b e => 0 ≤ maxEntries b ≤ cap ∧ okEntry e
               | WDrain _ b => 0 ≤ maxEntries b ≤ cap
               | _ => True
               end) ops →
  ∃ l, file (wrun ops (mkWorld (rewritePending l0) [])) = rewritePending l ∧
    wfEntries l ∧ Z.of_nat (length l) ≤ cap ∧
    ∀ e, e ∈ l → ∃ e0, e0 ∈ l0 ++ omap (λ o, match o with WAppend _ _ e => Some e | _ => None end) ops ∧
                       signalOf e = signalOf e0.
Proof.
  intros Hcap Hw Hl Ho. set (src := l0 ++ _).
  assert (H : okWorld cap src (wrun ops (mkWorld (rewritePending l0) []))).
  { apply okWorld_run; [done| |].
    - split; [|done]. exists l0. split; [done|]. split_and!; [done|done|]. apply Forall_forall. intros e He.
      exists e. split; [|done]. unfold src. apply elem_of_app. by left.
    - rewrite Forall_forall in Ho |- *. intros o Hin. specialize (Ho o Hin). destruct o as [pid b e| | | | |]; try done.
      destruct Ho as [Hb He]. split_and!; [apply Hb..|done|]. exists e. split; [|done].
      unfold src. apply elem_of_app. right. apply list_elem_of_omap. by exists (WAppend pid b e). }
  destruct H as [(l & Hf & H1 & H2 & H3) _]. exists l. split_and!; [done..|].
  intros e He. rewrite Forall_forall in H3. by apply H3.
Qed.

(** A drain alone on the file does what its result says: it delivers the fresh entries
    within the cap, oldest first; the ids it reports are those delivered and those that failed,
    in that order; the counts add up to the attempts; and what a later read finds is exactly
    the entries that failed for now, with one more attempt each. *)
Theorem drain_exact {St} (o : BoundOptions) (deliver : SignalOutboxEntry → St → DeliverSignalResult * St) f st :
  let '(r, f', st') := drainSignalOutbox o deliver f st in
  let '(rs, st'') := deliveries deliver (boundSignalOutbox o (readPendingSignals f)).1 st in
  st' = st'' ∧ attempted r = Z.of_nat (length rs) ∧
  deliveredIds r = map (λ q, e_signalId q.1) (List.filter isDelivered rs) ∧
  failedIds r = map (λ q, e_signalId q.1) (List.filter (λ q, negb (isDelivered q)) rs) ∧
  dr_delivered r + permanentFailed r + transientFailed r = attempted r ∧
  dr_remaining r = transientFailed r ∧
  readPendingSignals f' = omap keptBack rs.
Proof.
  unfold drainSignalOutbox, drainBegin. set (raw := readPendingSignals f). set (pending := (boundSignalOutbox o raw).1).
  pose proof (deliveries_fst deliver pending st) as Hfst. pose proof (drainLoop_deliveries deliver pending noProgress st) as Hl.
  pose proof (bound_submseteq o raw) as Hsub. fold pending in Hsub.
  assert (Hw : wfEntries pending) by (eapply wfEntries_submseteq; [exact Hsub|apply read_wf]).
  assert (Hs : StronglySorted (cmp_le byCreated) pending) by (apply bound_sorted, read_sorted).
  destruct (deliveries deliver pending st) as [rs st2] eqn:Ed. simpl in Hfst.
  destruct pending as [|e0 pending0] eqn:Ep.
  - simpl in Ed. injection Ed as <- <-. split_and!; try done. simpl. case_bool_decide as Hz; simpl.
    + fold raw. symmetry in Hz. by apply nil_length_inv in Hz.
    + done.
  - rewrite <- Ep in *. unfold drainLoop. rewrite Hl. cbn [noProgress p_remaining p_deliveredIds p_failedIds p_permanent p_transient app].
    rewrite <- Hfst in Hw, Hs. destruct (keptBack_props rs Hw Hs) as (A & B & C & _).
    cbn [drainResult attempted deliveredIds failedIds dr_delivered permanentFailed transientFailed dr_remaining
         p_remaining p_deliveredIds p_failedIds p_permanent p_transient].
    assert (Hlen : length pending = length rs) by (by rewrite <- Hfst, length_map).
    split_and!; [done|by rewrite Hlen|done|done| |by rewrite C, Z.add_0_l|].
    + rewrite length_map. change (length (List.filter isDelivered rs)) with (countb isDelivered rs).
      pose proof (countb_parts rs). lia.
    + rewrite read_rewrite by done. by apply sort_by_id.
Qed.

(** An append alone on the file: a known id changes nothing; a new entry is in the file
    afterwards, however full the file and however old the entry, and the list is within the
    cap (at least one).  What is dropped is expired, or is no younger than everything that is
    kept besides the new entry. *)
Theorem append_keeps o e f :
  okEntry e → 0 ≤ maxEntries o →
  let old := readPendingSignals f in
  let '(r, f') := appendSignalOutbox o e f in
  let new := readPendingSignals f' in
  appended r = negb (hasId (e_signalId e) old) ∧
  (appended r = false → f' = f) ∧
  (appended r = true →
     e ∈ new ∧ wfEntries new ∧ Z.of_nat (length new) ≤ Z.max 1 (maxEntries o) ∧
     (∀ x, x ∈ new → x = e ∨ x ∈ old) ∧
     ∀ x, x ∈ old → x ∉ new → isFresh o x = false ∨
       ∀ y, y ∈ new → y ≠ e → e_createdAt x ≤ e_createdAt y).
Proof.
  intros He Hm old. unfold appendSignalOutbox. fold old. destruct (appendOn o e old) as [w r] eqn:Ea.
  assert (Hr : appended r = negb (hasId (e_signalId e) old) ∧ (w = None ↔ hasId (e_signalId e) old = true)).
  { unfold appendOn in Ea. destruct (hasId _ old); [by injection Ea as <- <-|].
    destruct (boundSignalOutbox o (old ++ [e])). destruct (hasId _ l); by injection Ea as <- <-. }
  destruct Hr as [Hr Hw]. rewrite Hr. destruct w as [k|]; cbn [orRows].
  2: { rewrite (proj1 Hw eq_refl). by split_and!. }
  destruct (hasId (e_signalId e) old) eqn:Eh; [by discriminate (proj2 Hw eq_refl)|].
  assert (Hwk : wfEntries k) by (eapply append_wf; [apply read_wf|exact He|exact Ea]).
  rewrite (read_rewrite k Hwk). split_and!; [done|done|]. intros _.
  setoid_rewrite elem_of_sort_by. rewrite length_sort_by.
  assert (Hdrop : e ∈ k ∧ ∀ x, x ∈ old → x ∉ k → isFresh o x = false ∨ ∀ y, y ∈ k → y ≠ e → e_createdAt x ≤ e_createdAt y).
  { by eapply append_drops. }
  split_and!; [apply Hdrop|eapply wfEntries_perm; [apply sort_by_perm|done]| | |apply Hdrop].
  - by eapply append_length.
  - intros x. by eapply append_elem.
Qed.

(** ** Witnesses and findings *)

Definition sampleEntry (i : string) (at_ : Z) : SignalOutboxEntry :=
  mkEntry i "t1" completion_ready None at_ (Some "s1") None None None.

Lemma sample_ok i at_ : i ≠ "" → okEntry (sampleEntry i at_).
Proof. intros H. split; [|done]. unfold isValidEntry. simpl. by destruct (String.eqb_spec i ""). Qed.

Lemma sample_wf : wfEntries [sampleEntry "a" 1].
Proof. split; [apply NoDup_singleton|]. apply Forall_singleton. by apply sample_ok. Qed.

Lemma outbox_sound_witness :
  ∃ l, file (wrun [WDrain 1 (mkBound 5 2 100); WAppend 2 (mkBound 5 2 100) (sampleEntry "b" 2); WWrite 2;
                   WDeliver 1 (transient_fail None); WWrite 1] (mkWorld (rewritePending [sampleEntry "a" 1]) []))
         = rewritePending l ∧ wfEntries l.
Proof.
  destruct (outbox_sound 2 [sampleEntry "a" 1]
    [WDrain 1 (mkBound 5 2 100); WAppend 2 (mkBound 5 2 100) (sampleEntry "b" 2); WWrite 2;
     WDeliver 1 (transient_fail None); WWrite 1]) as (l & Hf & Hw & _).
  - lia.
  - apply sample_wf.
  - simpl. lia.
  - repeat (apply Forall_cons; split); try done; simpl; split; (lia || by apply sample_ok).
  - exists l. split; [exact Hf|exact Hw].
Defined.

Lemma append_keeps_witness :
  let f := rewritePending [sampleEntry "a" 450] in
  (appendSignalOutbox (mkBound 500 1 100) (sampleEntry "old" 0) f).1 = mkAppended true 2 ∧
  sampleEntry "old" 0 ∈ readPendingSignals (appendSignalOutbox (mkBound 500 1 100) (sampleEntry "old" 0) f).2.
Proof.
  cbn zeta. split; [by vm_compute|].
  assert (He : okEntry (sampleEntry "old" 0)) by (by apply sample_ok).
  assert (Hm : 0 ≤ maxEntries (mkBound 500 1 100)) by (simpl; lia).
  pose proof (append_keeps (mkBound 500 1 100) (sampleEntry "old" 0) (rewritePending [sampleEntry "a" 450]) He Hm) as H.
  destruct (appendSignalOutbox (mkBound 500 1 100) (sampleEntry "old" 0) (rewritePending [sampleEntry "a" 450]))
    as [r f'] eqn:E.
  destruct H as (H1 & _ & H3). apply H3. rewrite H1. by vm_compute.
Defined.

(** The count of dropped entries is not the number dropped when the new entry is kept by
    force: here one entry was dropped, and the answer says two. *)
Theorem forced_append_overcounts :
  let f := rewritePending [sampleEntry "a" 450] in
  let '(r, f') := appendSignalOutbox (mkBound 500 1 100) (sampleEntry "old" 0) f in
  pruned r = 2 ∧ length (readPendingSignals f) = 1%nat ∧ length (readPendingSignals f') = 1%nat.
Proof. by vm_compute. Qed.

(** A drain writes back what it read: an append by another process between the two is
    erased, although it answered that the signal is stored, and no entry of its id was delivered
    or dropped. *)
Theorem overlapped_append_lost :
  let w0 := mkWorld (rewritePending [sampleEntry "a" 1]) [] in
  let w1 := wrun [WDrain 1 (mkBound 5 200 100); WAppend 2 (mkBound 5 200 100) (sampleEntry "b" 2); WWrite 2] w0 in
  readPendingSignals (file w1) = [sampleEntry "a" 1; sampleEntry "b" 2] ∧
  (appendSignalOutbox (mkBound 5 200 100) (sampleEntry "b" 2) (file w0)).1 = mkAppended true 0 ∧
  readPendingSignals (file (wrun [WDeliver 1 delivered; WWrite 1] w1)) = [].
Proof. by vm_compute. Qed.
End Outbox.

(** ** Delivery to the task store *)

Module Delivery.
Import Task Store Gates Outbox.
#[local] Open Scope Z_scope.

(** The switches, whether there is a hooks directory, the live check, and the logs as each of the
    two gates finds them. *)
Record GateEnv := mkGateEnv {
  lessonSwitch : option string;
  mergeSwitch : option string;
  hooksDir : bool;
  liveVerify : option (option Z → option (option string));
  lessonLogs : string → option hookLog;
  mergeLogs : string → option hookLog
}.

Inductive GateResult :=
| gates_pass
| lesson_refuses (code : LessonDecisionGateCode)
| merge_refuses
| gates_throw.

(** The two gates of a completion signal, one after the other.  They are awaited; the task they
    are given is the copy that [getTask] returned before. *)
Definition runGates (g : GateEnv) (kind : AgentSignalKind) (task : Task) : GateResult :=
  let lesson :=
    if bool_decide (kind = completion_ready) && gateEnabled (lessonSwitch g) && hooksDir g then
      match resolveTaskLessonDecision (lessonLogs g) (sessions task) with
      | None => gates_throw
      | Some r => match evaluateLessonDecisionGate r with Some code => lesson_refuses code | None => gates_pass end
      end
    else gates_pass in
  match lesson with
  | gates_pass =>
      if bool_decide (kind = completion_ready) && gateEnabled (mergeSwitch g) then
        match resolveMergeRequiredGate true (hooksDir g) (liveVerify g) (mergeLogs g) (mergeTask task) with
        | None => gates_throw
        | Some true => merge_refuses
        | Some false => gates_pass
        end
      else gates_pass
  | refused => refused
  end.

(** The live session of a task. *)
Definition currentSession (task : Task) : option string := tmuxSession <$> last (sessions task).

(** The fence: the entry is bound to a session that is not the live one. *)
Definition fenced (e : SignalOutboxEntry) (task : Task) : bool :=
  bool_decide (e_kind e = completion_ready) &&
  match truthyStr (boundSessionId e) with
  | Some b => negb (bool_decide (currentSession task = Some b))
  | None => false
  end.

(** The checks before the gates: a result that ends the delivery, or the task the gates
    look at, with whether the id was processed before. *)
Definition deliverCheck (now : Z) (e : SignalOutboxEntry) (s : store) :
    store * (DeliverSignalResult + Task * bool) :=
  let '(s, prior) := getProcessedSignal now (e_signalId e) s in
  if bool_decide (prior = Some (e_taskId e, e_kind e)) then (s, inl delivered)
  else
    match mget (e_taskId e) (tasks s) with
    | None => (s, inl (permanent_fail (Some "Task not found")))
    | Some task =>
        if isTerminalStatus (status task) then (s, inl (permanent_fail (Some "Cannot signal a task")))
        else if fenced e task then (s, inl (permanent_fail (Some "quarantined stale completion delivery")))
        else (s, inr (task, isSome prior))
    end.

(** The writes after the gates: the store, and whether [onTaskOutcome] is called. *)
Definition deliverApply (raisedAt now1 now2 : Z) (e : SignalOutboxEntry) (prior : bool) (s : store) :
    store * bool :=
  let isSameKindReplay := bool_decide ((sig_kind <$> getPendingSignal (e_taskId e) s) = Some (e_kind e)) in
  let signal := mkSignal (e_kind e) (truthyStr (e_note e)) (Some raisedAt) (Some (e_signalId e)) (Some via_outbox) in
  ((setPendingSignal now1 now2 (e_taskId e) signal s).1,
   bool_decide (e_kind e = completion_ready) && negb isSameKindReplay && negb prior).

(** What the service has done: the outcomes it announced, the last one last. *)
Record service := mkService {
  sv_store : store;
  outcomes : list (string * option string)
}.

(** What happens while one delivery waits for its gates: what they find, what the rest of the process does to the
    service, and the clock before and after. *)
Record Awaits := mkAwaits {
  gates : GateEnv;
  meanwhile : service → service;
  startedAt : Z;
  resumedAt : Z
}.

(** The delivery of one entry. *)
Definition deliverLocal (a : Awaits) (e : SignalOutboxEntry) (v : service) : DeliverSignalResult * service :=
  let '(s, c) := deliverCheck (startedAt a) e (sv_store v) in
  let v := mkService s (outcomes v) in
  match c with
  | inl r => (r, v)
  | inr (task, prior) =>
      let v := meanwhile a v in
      match runGates (gates a) (e_kind e) task with
      | gates_throw => (transient_fail None, v)
      | lesson_refuses _ => (permanent_fail (Some "lesson decision"), v)
      | merge_refuses => (permanent_fail (Some "merge required"), v)
      | gates_pass =>
          let t := resumedAt a in
          let '(s, fires) := deliverApply t t t e prior (sv_store v) in
          (delivered, mkService s (if fires then outcomes v ++ [(e_taskId e, truthyStr (e_note e))] else outcomes v))
      end
  end.

(** [runTick], alone on the file: the number of entries before, what the drain did, the file, the
    service.  The entries are delivered one after the other, each with its own awaits. *)
Definition runTick (a : SignalOutboxEntry → Awaits) (t : Z) (f : rows) (v : service) :
    Z * option DrainSignalResult * rows * service :=
  let pendingBefore := Z.of_nat (length (readPendingSignals f)) in
  if pendingBefore =? 0 then (0, None, f, v)
  else
    let '(r, f, v) := drainSignalOutbox (defaultBound t) (λ e, deliverLocal (a e) e) f v in
    (pendingBefore, Some r, f, v).

(** ** The signal request *)

Definition MAX_AGENT_SIGNAL_NOTE_LENGTH : nat := 2000.
Definition MAX_AGENT_SIGNAL_ID_LENGTH : nat := 200.

(** The ellipsis is not in Latin-1; code unit 133 stands for it. *)
Definition ellipsis : ascii := ascii_of_N 133.

Definition trimEnd (l : str) : str := dropWhileEnd isWs l.

Definition boundary : regexp :=
  seqOf [RPlus (RClass (orc isWs (cls ",.;:!?"))); RStar (RClass (notc (orc isWs (cls ",.;:!?")))); REnd].

Definition truncateAtWordBoundary (text : str) (maxLength : nat) : str :=
  let sliceLimit := (maxLength - 1)%nat in
  let prefix := trimEnd (take sliceLimit text) in
  let wordBoundaryPrefix :=
    match exec boundary None prefix with
    | Some f =>
        let index := length (skipped f) in
        if negb (Nat.eqb index 0) && Nat.leb (sliceLimit * 6 / 10) index then trimEnd (take index prefix) else prefix
    | None => prefix
    end in
  wordBoundaryPrefix ++ [ellipsis].

Definition normalizeSignalNote (raw : string) : option string * bool :=
  let redacted := trimChars (chars (Redact.redactSecrets raw)) in
  if Nat.eqb (length redacted) 0 then (None, false)
  else if Nat.leb (length redacted) MAX_AGENT_SIGNAL_NOTE_LENGTH then (Some (unchars redacted), false)
  else (Some (unchars (truncateAtWordBoundary redacted MAX_AGENT_SIGNAL_NOTE_LENGTH)), true).

(** The body of the request: [Some None] is a field that is not a string, [None] of
    [sb_kind] is not a kind. *)
Record SignalBody := mkBody {
  sb_kind : option AgentSignalKind;
  sb_note : option (option string);
  sb_signalId : option (option string)
}.

Inductive SignalResponse :=
| rs_shared | rs_not_found | rs_terminal | rs_bad_json | rs_bad_kind | rs_bad_id | rs_long_id | rs_bad_note
| rs_lesson (code : LessonDecisionGateCode)
| rs_merge
| rs_error
| rs_replay (signal : PendingAgentSignal)
| rs_ok (signal : PendingAgentSignal) (truncated : bool).

Definition SHARED_TASK_ID_PREFIX : string := "shared:".
Definition isSharedTaskId (taskId : string) : bool := startsWith SHARED_TASK_ID_PREFIX taskId.

(** The idempotency key: absent, refused, or trimmed. *)
Definition parseSignalId (x : option (option string)) : result SignalResponse (option string) :=
  match x with
  | None => Ok None
  | Some None => Err rs_bad_id
  | Some (Some i) =>
      if bool_decide (trim i = "") then Err rs_bad_id
      else if Nat.ltb MAX_AGENT_SIGNAL_ID_LENGTH (length (chars i)) then Err rs_long_id
      else Ok (Some (trim i))
  end.

(** The request runs in three parts: up to the [await] of its body, up to the [await]s of the
    gates, and after them.  The first: the copy of the task that the rest works with. *)
Definition signalOpen (i : string) (s : store) : SignalResponse + Task :=
  if isSharedTaskId i then inl rs_shared
  else
    match mget i (tasks s) with
    | None => inl rs_not_found
    | Some task => if isTerminalStatus (status task) then inl rs_terminal else inr task
    end.

(** What the request knows when it asks the gates. *)
Record Posted := mkPosted {
  po_taskId : string;
  po_kind : AgentSignalKind;
  po_signalId : option string;
  po_note : option string;
  po_truncated : bool
}.

(** The second part; [None] is a body that is not JSON. *)
Definition signalParse (t : Z) (i : string) (body : option SignalBody) (s : store) :
    store * (SignalResponse + Posted) :=
  match body with
  | None => (s, inl rs_bad_json)
  | Some b =>
  match sb_kind b with
  | None => (s, inl rs_bad_kind)
  | Some kind =>
  match parseSignalId (sb_signalId b) with
  | Err r => (s, inl r)
  | Ok signalId =>
  let '(s, prior) := match signalId with Some sid => getProcessedSignal t sid s | None => (s, None) end in
  if bool_decide (prior = Some (i, kind)) then
    let current := getPendingSignal i s in
    (s, inl (rs_replay (match current with
                        | Some c => if bool_decide (sig_kind c = kind) then c else mkSignal kind None (sig_raisedAt c) signalId None
                        | None => mkSignal kind None (Some t) signalId None
                        end)))
  else
  match sb_note b with
  | Some None => (s, inl rs_bad_note)
  | n =>
  let '(note, truncated) :=
    match n with Some (Some n) => normalizeSignalNote n | _ => (None, false) end in
  (s, inr (mkPosted i kind signalId note truncated))
  end end end end.

(** The third part: the response, the store, and whether [onTaskOutcome] is called.  The fields
    of the response that announce an automatic close are left out. *)
Definition signalRaise (t : Z) (p : Posted) (s : store) : SignalResponse * store * bool :=
  let signal := mkSignal (po_kind p) (po_note p) (Some t) (po_signalId p) (Some via_http) in
  let s := (setPendingSignal t t (po_taskId p) signal s).1 in
  (rs_ok (orElse (getPendingSignal (po_taskId p) s) signal) (po_truncated p), s,
   bool_decide (po_kind p = completion_ready)).

(** ** Deliveries and requests under way *)

(** What waits: a delivery for its gates, a request for its body, a request for its gates. *)
Inductive job :=
| draining (e : SignalOutboxEntry) (prior : bool) (task : Task)
| receiving (i : string) (body : option SignalBody) (task : Task)
| deciding (p : Posted) (task : Task).

Record machine := mkMachine {
  m_service : service;
  m_jobs : jmap nat job
}.

(** The delivery or the request [n] starts, the body of a request has come, the gates of [n] have answered;
    or other work of the process is done on the store.  At each of its waits a job is overtaken by
    any events of others. *)
Inductive event :=
| Drain (n : nat) (t : Z) (e : SignalOutboxEntry)
| Request (n : nat) (t : Z) (i : string) (body : option SignalBody)
| Body (n : nat) (t : Z)
| Answer (n : nat) (t : Z) (g : GateEnv)
| Other (t : Z) (f : store → store).

Definition withStore (s : store) (m : machine) : machine :=
  mkMachine (mkService s (outcomes (m_service m))) (m_jobs m).
Definition start (n : nat) (j : job) (m : machine) : machine := mkMachine (m_service m) (mset n j (m_jobs m)).
Definition finish (n : nat) (m : machine) : machine := mkMachine (m_service m) (mdel n (m_jobs m)).
Definition announce (fires : bool) (i : string) (note : option string) (m : machine) : machine :=
  if fires then mkMachine (mkService (sv_store (m_service m)) (outcomes (m_service m) ++ [(i, note)])) (m_jobs m) else m.

(** The gates of a job have answered. *)
Definition answer (t : Z) (g : GateEnv) (j : job) (m : machine) : machine :=
  let s := sv_store (m_service m) in
  match j with
  | draining e prior task =>
      match runGates g (e_kind e) task with
      | gates_pass =>
          let '(s, fires) := deliverApply t t t e prior s in announce fires (e_taskId e) (truthyStr (e_note e)) (withStore s m)
      | _ => m
      end
  | deciding p task =>
      match runGates g (po_kind p) task with
      | gates_pass => let '(_, s, fires) := signalRaise t p s in announce fires (po_taskId p) (po_note p) (withStore s m)
      | _ => m
      end
  | receiving _ _ _ => m
  end.

Definition handle (m : machine) (ev : event) : machine :=
  let s := sv_store (m_service m) in
  match ev with
  | Drain n t e =>
      if mhas n (m_jobs m) then m
      else
        let '(s, c) := deliverCheck t e s in
        match c with
        | inl _ => withStore s m
        | inr (task, prior) => start n (draining e prior task) (withStore s m)
        end
  | Request n _ i body =>
      if mhas n (m_jobs m) then m
      else match signalOpen i s with inl _ => m | inr task => start n (receiving i body task) m end
  | Body n t =>
      match mget n (m_jobs m) with
      | Some (receiving i body task) =>
          let '(s, c) := signalParse t i body s in
          match c with
          | inl _ => finish n (withStore s m)
          | inr p => start n (deciding p task) (withStore s m)
          end
      | _ => m
      end
  | Answer n t g =>
      match mget n (m_jobs m) with
      | Some (receiving _ _ _) | None => m
      | Some j => finish n (answer t g j m)
      end
  | Other _ f => withStore (f s) m
  end.

Definition handleAll (evs : list event) (m : machine) : machine := foldl handle m evs.

(** ** The raise of a delivered task *)

(** [None] for the session is one that is not set; [appending] and [removing] are what else happens
    while the spool is written. *)
Definition raiseCompletionReadyViaOutbox (newId : string) (t : Z) (spool : bool) (taskId note : string)
    (boundSession : option string) (appending removing : rows * service → rows * service) (f : rows) (v : service) :
    option (rows * service) :=
  match buildSignalOutboxEntry newId t None taskId completion_ready (Some note) (Some t) boundSession None None None with
  | None => None
  | Some entry =>
      let '(f, v) := if spool then appending (snd (appendSignalOutbox (defaultBound t) entry f), v) else (f, v) in
      let s := (setPendingSignal t t taskId
                  (mkSignal completion_ready (Some note) (Some t) (Some (e_signalId entry)) (Some via_outbox))
                  (sv_store v)).1 in
      let v := mkService s (outcomes v) in
      let '(f, v) := if spool then removing (snd (removeSignalOutboxEntry (e_signalId entry) f), v) else (f, v) in
      Some (f, mkService (sv_store v) (outcomes v ++ [(taskId, Some note)]))
  end.

(** ** The ledger of processed ids *)

Lemma compact_msize t s : (msize (processedSignalIds (compactProcessedSignalIds t s)) ≤ msize (processedSignalIds s))%nat.
Proof.
  unfold compactProcessedSignalIds. cbn [processedSignalIds]. set (live := List.filter _ _).
  assert (Hl : (msize live ≤ msize (processedSignalIds s))%nat) by (apply filter_length_le).
  destruct (_ <=? _); [done|]. etrans; [|exact Hl]. generalize (take (Z.to_nat (Z.of_nat (msize live) - SIGNAL_MAX_ENTRIES))
    (sort_by (λ a b, ps_atMs a.2 - ps_atMs b.2) live)) as ks. intros ks. generalize live as m.
  induction ks as [|k ks IH]; intros m; simpl; [done|]. etrans; [apply IH|]. apply msize_mdel_le.
Qed.

Lemma compact_mwf t s : mwf (processedSignalIds s) → mwf (processedSignalIds (compactProcessedSignalIds t s)).
Proof.
  intros H. unfold compactProcessedSignalIds. cbn [processedSignalIds]. set (live := List.filter _ _).
  assert (Hl : mwf live) by (by apply mwf_filter). destruct (_ <=? _); [done|]. revert Hl.
  generalize (take (Z.to_nat (Z.of_nat (msize live) - SIGNAL_MAX_ENTRIES))
    (sort_by (λ a b, ps_atMs a.2 - ps_atMs b.2) live)) as ks. intros ks. generalize live as m.
  induction ks as [|k ks IH]; intros m Hm; simpl; [done|]. by apply IH, mwf_mdel.
Qed.

(** Within the window and the cap an id stays. *)
Lemma compact_keeps t s i x :
  mwf (processedSignalIds s) → Z.of_nat (msize (processedSignalIds s)) ≤ SIGNAL_MAX_ENTRIES →
  mget i (processedSignalIds s) = Some x → t - ps_atMs x ≤ SIGNAL_TTL_MS →
  mget i (processedSignalIds (compactProcessedSignalIds t s)) = Some x.
Proof.
  intros Hw Hm Hi Ht. unfold compactProcessedSignalIds. cbn [processedSignalIds]. set (live := List.filter _ _).
  assert (Hl : (msize live ≤ msize (processedSignalIds s))%nat) by (apply filter_length_le).
  rewrite (proj2 (Z.leb_le _ _)) by lia. unfold live. rewrite mget_filter, Hi by done. cbn [snd].
  rewrite (proj2 (Z.ltb_ge _ _)) by lia. done.
Qed.

Lemma compact_tasks t s : tasks (compactProcessedSignalIds t s) = tasks s.
Proof. done. Qed.

Lemma setPending_processed t1 t2 i sig s :
  processedSignalIds (setPendingSignal t1 t2 i sig s).1 =
  match mget i (tasks s), truthyStr (sig_signalId sig) with
  | Some _, Some sid =>
      processedSignalIds (compactProcessedSignalIds t1
        {| s with processedSignalIds := mset sid (mkProcessed i (sig_kind sig) t1) (processedSignalIds s) |})
  | _, _ => processedSignalIds s
  end.
Proof.
  unfold setPendingSignal. destruct (mget i (tasks s)); [|done]. by destruct (truthyStr (sig_signalId sig)).
Qed.

Lemma setPending_tasks t1 t2 i sig s :
  tasks (setPendingSignal t1 t2 i sig s).1 =
  match mget i (tasks s) with
  | Some t => mset i {| t with pendingSignal := Some (mergeSignal (pendingSignal t) sig); updatedAt := t2 |} (tasks s)
  | None => tasks s
  end.
Proof.
  unfold setPendingSignal. destruct (mget i (tasks s)) as [t|]; [|done].
  by destruct (truthyStr (sig_signalId sig)).
Qed.

(** ** Properties of one delivery *)

Lemma deliverCheck_cases t e s :
  let s' := compactProcessedSignalIds t s in
  let prior := (λ p, (ps_taskId p, ps_kind p)) <$> mget (e_signalId e) (processedSignalIds s') in
  deliverCheck t e s =
  (s', if bool_decide (prior = Some (e_taskId e, e_kind e)) then inl delivered
       else match mget (e_taskId e) (tasks s) with
            | None => inl (permanent_fail (Some "Task not found"))
            | Some task =>
                if isTerminalStatus (status task) then inl (permanent_fail (Some "Cannot signal a task"))
                else if fenced e task then inl (permanent_fail (Some "quarantined stale completion delivery"))
                else inr (task, isSome prior)
            end).
Proof.
  cbn zeta. unfold deliverCheck, getProcessedSignal. destruct (bool_decide _); [done|].
  change (tasks (compactProcessedSignalIds t s)) with (tasks s).
  destruct (mget (e_taskId e) (tasks s)) as [task|]; [|done].
  destruct (isTerminalStatus _); [done|]. by destruct (fenced e task).
Qed.

(** C12: what one delivery does, whatever the rest of the process does while it waits for its gates.
    It ends before the gates, and changes nothing but expired ids of the ledger: as delivered
    when the id was processed for this task, and as a failure that settles the entry when the task
    does not exist, is terminal, or has another live session than the completion is bound to.
    Otherwise the gates decide, about the task as it was: if they refuse or throw, it does
    nothing, and only a throw leaves the entry for a retry; if they pass, it raises the signal on
    the task as it is by then, touches no other task, and announces the completion unless a
    signal was pending or the id was known.  The checks are not repeated: a task that is
    relaunched or ended while the gates run is signalled all the same ([fence_raced],
    [unchecked_after_gates]). *)
Theorem delivery_guarded a e v :
  let v0 := mkService (compactProcessedSignalIds (startedAt a) (sv_store v)) (outcomes v) in
  let v1 := meanwhile a v0 in
  let i := e_taskId e in
  let prior := (λ p, (ps_taskId p, ps_kind p)) <$> mget (e_signalId e) (processedSignalIds (sv_store v0)) in
  let '(r, v') := deliverLocal a e v in
  (v' = v0 ∧
   (r = delivered ∧ prior = Some (i, e_kind e) ∨
    (∃ error, r = permanent_fail error) ∧
    ∀ task, mget i (tasks (sv_store v)) = Some task →
      isTerminalStatus (status task) = true ∨ ∃ b, truthyStr (boundSessionId e) = Some b ∧ currentSession task ≠ Some b)) ∨
  ∃ task,
    mget i (tasks (sv_store v)) = Some task ∧ isTerminalStatus (status task) = false ∧
    (∀ b, truthyStr (boundSessionId e) = Some b → currentSession task = Some b) ∧ prior ≠ Some (i, e_kind e) ∧
    (runGates (gates a) (e_kind e) task ≠ gates_pass ∧ v' = v1 ∧ r ≠ delivered ∧
     ((∃ error, r = transient_fail error) ↔ runGates (gates a) (e_kind e) task = gates_throw) ∨
     runGates (gates a) (e_kind e) task = gates_pass ∧ r = delivered ∧
     let signal := mkSignal (e_kind e) (truthyStr (e_note e)) (Some (resumedAt a)) (Some (e_signalId e)) (Some via_outbox) in
     tasks (sv_store v') =
       match mget i (tasks (sv_store v1)) with
       | Some now => mset i {| now with pendingSignal := Some (mergeSignal (pendingSignal now) signal);
                                        updatedAt := resumedAt a |} (tasks (sv_store v1))
       | None => tasks (sv_store v1)
       end ∧
     outcomes v' = outcomes v1 ++
       (if isSome (getPendingSignal i (sv_store v1)) || isSome prior then [] else [(i, truthyStr (e_note e))])).
Proof.
  cbn zeta. unfold deliverLocal. rewrite deliverCheck_cases. cbn zeta beta iota. cbn [sv_store].
  set (v0 := mkService (compactProcessedSignalIds (startedAt a) (sv_store v)) (outcomes v)). set (prior := (_ <$> mget _ _)).
  case_bool_decide as Hp; [left; split; [done|by left]|].
  destruct (mget (e_taskId e) (tasks (sv_store v))) as [task|] eqn:Et; [|left; split; [done|right; split; [by eexists|done]]].
  destruct (isTerminalStatus (status task)) eqn:Es.
  { left. split; [done|]. right. split; [by eexists|]. intros ? [= <-]. by left. }
  destruct (fenced e task) eqn:Ef; unfold fenced in Ef.
  { left. split; [done|]. right. split; [by eexists|]. intros ? [= <-]. right.
    destruct (truthyStr (boundSessionId e)) as [b|]; [|by rewrite andb_false_r in Ef].
    exists b. split; [done|]. apply andb_true_iff in Ef as [_ Ef]. apply negb_true_iff in Ef. by case_bool_decide. }
  assert (Hb : ∀ b, truthyStr (boundSessionId e) = Some b → currentSession task = Some b).
  { intros b Hb. destruct (e_kind e). rewrite Hb in Ef. cbn in Ef. apply negb_false_iff in Ef. by case_bool_decide. }
  destruct (runGates (gates a) (e_kind e) task) eqn:Eg; cbn zeta beta iota;
    right; exists task; (split_and!; [done..|]); 
    [right|left; rewrite Eg; (split_and!; [done..|]); (split; [by intros [? ?]|intros H; first [discriminate H|by eexists]])..].
  cbn [deliverApply]. split_and!; [done..| |].
  - cbn [sv_store]. by rewrite setPending_tasks.
  - cbn [outcomes]. unfold getPendingSignal. destruct (mget (e_taskId e) (tasks (sv_store (meanwhile a v0)))) as [now|];
      destruct (e_kind e); cbn [mbind option_bind];
      [destruct (pendingSignal now) as [[[] ? ? ? ?]|]|]; destruct (isSome prior); cbn; by rewrite ?app_nil_r.
Qed.

(** ** Requests that overlap *)

(** The idempotency key of a body. *)
Definition bodyKey (body : option SignalBody) : option string :=
  match body with
  | Some b => match parseSignalId (sb_signalId b) with Ok i => i | Err _ => None end
  | None => None
  end.

Definition jobKey (j : job) : option string :=
  match j with
  | draining e _ _ => Some (e_signalId e)
  | receiving _ body _ => bodyKey body
  | deciding p _ => po_signalId p
  end.
Definition jobTask (j : job) : string :=
  match j with draining e _ _ => e_taskId e | receiving i _ _ => i | deciding p _ => po_taskId p end.

(** A job with this key is under way. *)
Definition carries (sid : string) (m : machine) : Prop :=
  ∃ n j, mget n (m_jobs m) = Some j ∧ jobKey j = Some sid.

(** No request with this key starts while another one is under way. *)
Definition apart (sid : string) (ev : event) (m : machine) : Prop :=
  match ev with
  | Drain _ _ e => e_signalId e = sid → ¬ carries sid m
  | Request _ _ _ body => bodyKey body = Some sid → ¬ carries sid m
  | _ => True
  end.

Fixpoint apartAll (sid : string) (evs : list event) (m : machine) : Prop :=
  match evs with [] => True | ev :: evs => apart sid ev m ∧ apartAll sid evs (handle m ev) end.

(** The event announces an outcome for a request with this key. *)
Definition announces (sid : string) (ev : event) (m : machine) : bool :=
  match ev with
  | Answer n _ _ => bool_decide (mget n (m_jobs m) ≫= jobKey = Some sid)
  | _ => false
  end && Nat.ltb (length (outcomes (m_service m))) (length (outcomes (m_service (handle m ev)))).

(** How often the requests with this key announce an outcome. *)
Fixpoint announced (sid : string) (evs : list event) (m : machine) : nat :=
  match evs with
  | [] => 0
  | ev :: evs => (if announces sid ev m then 1 else 0) + announced sid evs (handle m ev)
  end.

Definition eventTime (ev : event) : Z :=
  match ev with Drain _ t _ | Request _ t _ _ | Body _ t | Answer _ t _ | Other t _ => t end.

Definition ledger (m : machine) : jmap string ProcessedSignal := processedSignalIds (sv_store (m_service m)).

Definition compactMap (t : Z) (m : jmap string ProcessedSignal) : jmap string ProcessedSignal :=
  processedSignalIds (compactProcessedSignalIds t {| newStore with processedSignalIds := m |}).

Section window.
Context (sid i : string) (t0 : Z).

(** Other work on the store forgets no key and adds at most one, and a task that is gone stays
    gone. *)
Definition gentle (f : store → store) : Prop :=
  ∀ s, (mwf (processedSignalIds s) → mwf (processedSignalIds (f s))) ∧
    (msize (processedSignalIds (f s)) ≤ S (msize (processedSignalIds s)))%nat ∧
    (∀ x, mget sid (processedSignalIds s) = Some x → mget sid (processedSignalIds (f s)) = Some x) ∧
    (mget i (tasks s) = None → mget i (tasks (f s)) = None).

(** An event of the window: it comes within the time to live, and the key is its task's. *)
Definition inTime (ev : event) : Prop :=
  t0 ≤ eventTime ev ≤ t0 + SIGNAL_TTL_MS ∧
  match ev with
  | Drain _ _ e => e_signalId e = sid → e_taskId e = i
  | Request _ _ j body => bodyKey body = Some sid → j = i
  | Other _ f => gentle f
  | _ => True
  end.

Definition remembers (L : jmap string ProcessedSignal) : Prop :=
  ∃ a, mget sid L = Some (mkProcessed i completion_ready a) ∧ t0 ≤ a.

Definition room (n : nat) (L : jmap string ProcessedSignal) : Prop :=
  mwf L ∧ Z.of_nat (msize L + n) ≤ SIGNAL_MAX_ENTRIES.

Definition record_ (t : Z) (k j : string) (L : jmap string ProcessedSignal) : jmap string ProcessedSignal :=
  compactMap t (mset k (mkProcessed j completion_ready t) L).

Lemma room_le n n' L : (n' ≤ n)%nat → room n L → room n' L.
Proof. intros H [Hw Hm]. split; [done|lia]. Qed.

Lemma compact_room t n L : room n L → room n (compactMap t L).
Proof.
  intros [Hw Hm]. split; [apply (compact_mwf t {| newStore with processedSignalIds := L |}), Hw|].
  pose proof (compact_msize t {| newStore with processedSignalIds := L |} : (msize (compactMap t L) ≤ msize L)%nat). lia.
Qed.

Lemma compact_remembers t n L : t ≤ t0 + SIGNAL_TTL_MS → room n L → remembers L → remembers (compactMap t L).
Proof.
  intros Ht [Hw Hm] (a & Ha & Hle). exists a. split; [|done].
  apply (compact_keeps t {| newStore with processedSignalIds := L |}); [done|change (Z.of_nat (msize L) ≤ SIGNAL_MAX_ENTRIES); lia|done|change (t - a ≤ SIGNAL_TTL_MS); lia].
Qed.

Lemma mset_room t k j n L : room (S n) L → room n (mset k (mkProcessed j completion_ready t) L).
Proof. intros [Hw Hm]. split; [by apply mwf_mset|]. rewrite msize_mset. destruct (mget k L); lia. Qed.

Lemma record_room t k j n L : room (S n) L → room n (record_ t k j L).
Proof. intros H. by apply compact_room, mset_room. Qed.

Lemma record_remembers t k j n L :
  t0 ≤ t ≤ t0 + SIGNAL_TTL_MS → (k = sid → j = i) → room (S n) L → k = sid ∨ remembers L → remembers (record_ t k j L).
Proof.
  intros Ht Hk Hr H. apply (compact_remembers t n); [lia|by apply mset_room|].
  destruct (decide (k = sid)) as [->|Hne].
  - exists t. rewrite mget_mset_eq, (Hk eq_refl). split; [done|lia].
  - destruct H as [?|(a & Ha & Hle)]; [done|]. exists a. by rewrite mget_mset_ne.
Qed.

(** *** What the parts do to the ledger and to the tasks *)

Lemma check_ledger t e s : processedSignalIds (deliverCheck t e s).1 = compactMap t (processedSignalIds s).
Proof. by rewrite deliverCheck_cases. Qed.

Lemma check_tasks t e s : tasks (deliverCheck t e s).1 = tasks s.
Proof. by rewrite deliverCheck_cases. Qed.

Lemma parse_store t j body s : (signalParse t j body s).1 = s ∨ (signalParse t j body s).1 = compactProcessedSignalIds t s.
Proof.
  unfold signalParse. destruct body as [b|]; [|by left]. destruct (sb_kind b) as [kind|]; [|by left].
  destruct (parseSignalId _) as [[k|]|]; [right|left|by left]; cbn; (case_bool_decide; [done|]);
    destruct (sb_note b) as [[x|]|]; try done; by destruct (normalizeSignalNote x).
Qed.

Lemma parse_ok t j body s p :
  (signalParse t j body s).2 = inr p → po_taskId p = j ∧ po_signalId p = bodyKey body.
Proof.
  unfold signalParse, bodyKey. destruct body as [b|]; [|done]. destruct (sb_kind b) as [kind|]; [|done].
  destruct (parseSignalId _) as [k|]; [|done]. destruct k as [k|]; cbn; (case_bool_decide; [done|]);
    destruct (sb_note b) as [[x|]|]; try done; try (destruct (normalizeSignalNote x)); intros [= <-]; done.
Qed.

(** A request whose key is remembered ends at its body. *)
Lemma parse_replays t n body s :
  t ≤ t0 + SIGNAL_TTL_MS → room n (processedSignalIds s) → remembers (processedSignalIds s) → bodyKey body = Some sid →
  ∃ r, (signalParse t i body s).2 = inl r.
Proof.
  intros Ht Hr Hm Hk. unfold bodyKey, signalParse in *. destruct body as [b|]; [|done]. destruct (sb_kind b) as [kind|]; [|by eexists].
  destruct (parseSignalId _) as [k|r]; [|by eexists]. simplify_eq. unfold getProcessedSignal.
  destruct (compact_remembers t n _ Ht Hr Hm) as (a & Ha & _).
  change (processedSignalIds (compactProcessedSignalIds t s)) with (compactMap t (processedSignalIds s)). rewrite Ha.
  destruct kind. cbn [fmap option_fmap option_map]. rewrite bool_decide_true by done. by eexists.
Qed.

Lemma check_replays t n e s :
  t ≤ t0 + SIGNAL_TTL_MS → room n (processedSignalIds s) → remembers (processedSignalIds s) → e_signalId e = sid →
  e_taskId e = i → (deliverCheck t e s).2 = inl delivered.
Proof.
  intros Ht Hr Hm Hk Hi. destruct (compact_remembers t n _ Ht Hr Hm) as (a & Ha & _).
  rewrite deliverCheck_cases. cbn zeta beta iota. cbn [snd].
  change (processedSignalIds (compactProcessedSignalIds t s)) with (compactMap t (processedSignalIds s)). rewrite Hk, Ha, Hi.
  destruct (e_kind e). by rewrite bool_decide_true.
Qed.

(** *** The machine *)

(** The jobs of the key belong to its task, and there is at most one. *)
Definition jobsOK (m : machine) : Prop :=
  (∀ n j, mget n (m_jobs m) = Some j → jobKey j = Some sid → jobTask j = i) ∧
  (∀ n n' j j', mget n (m_jobs m) = Some j → mget n' (m_jobs m) = Some j' →
     jobKey j = Some sid → jobKey j' = Some sid → n = n').

(** The key is remembered and its jobs have not read the ledger yet, or the task is gone and
    the key has no job. *)
Definition settled (m : machine) : Prop :=
  (remembers (ledger m) ∧ ∀ n j, mget n (m_jobs m) = Some j → jobKey j = Some sid → ∃ k body task, j = receiving k body task) ∨
  (mget i (tasks (sv_store (m_service m))) = None ∧ ¬ carries sid m).

Lemma jobs_sub m m' :
  (∀ n j, mget n (m_jobs m') = Some j → mget n (m_jobs m) = Some j) → jobsOK m → jobsOK m'.
Proof. intros H [H1 H2]. split; [eauto|]. intros n n' j j' Hn Hn'. apply H in Hn, Hn'. eauto. Qed.

Lemma jobs_finish n m : jobsOK m → jobsOK (finish n m).
Proof. apply jobs_sub. intros k j. cbn. rewrite mget_mdel. by case_decide. Qed.

(** A job is added, or takes the place of one with its key. *)
Lemma jobs_start n j m :
  (jobKey j = Some sid → jobTask j = i) →
  (jobKey j = Some sid → carries sid m → ∃ j0, mget n (m_jobs m) = Some j0 ∧ jobKey j0 = Some sid) →
  jobsOK m → jobsOK (start n j m).
Proof.
  intros Hj Hc [H1 H2]. split.
  - intros k x. cbn. rewrite mget_mset. case_decide as Hk; [intros [= <-]; exact Hj|apply H1].
  - assert (Hu : ∀ k x, k ≠ n → mget k (m_jobs m) = Some x → jobKey x = Some sid → jobKey j = Some sid → False).
    { intros k x Hk Hx Hs Hjs. destruct (Hc Hjs) as (j0 & Hn & Hs0); [by exists k, x|]. apply Hk. by eapply H2. }
    intros k k' x x'. cbn. rewrite !mget_mset. repeat case_decide; subst; [done| | |by apply H2];
      intros; simplify_eq; exfalso; eauto.
Qed.

Lemma answer_jobs t g j m : m_jobs (answer t g j m) = m_jobs m.
Proof.
  unfold answer. destruct j as [e prior task|k body task|p task]; [|done|]; destruct (runGates _ _ _); try done.
  - unfold deliverApply, announce. by destruct (bool_decide _ && _ && _).
  - unfold signalRaise, announce. by destruct (bool_decide _).
Qed.

Lemma handle_jobs m ev : inTime ev → apart sid ev m → jobsOK m → jobsOK (handle m ev).
Proof.
  intros [_ Ht] Ha Hm. destruct ev as [n t e|n t k body|n t|n t g|t f]; cbn [handle].
  - destruct (mhas n (m_jobs m)) eqn:En; [done|]. destruct (deliverCheck t e _) as [s [r|[task prior]]]; [exact Hm|].
    apply jobs_start; [|intros [= H] Hc; by destruct (Ha H)|exact Hm]. intros [= H]. by apply Ht.
  - destruct (mhas n (m_jobs m)) eqn:En; [done|]. destruct (signalOpen k _) as [r|task]; [done|].
    apply jobs_start; [exact Ht|intros H Hc; by destruct (Ha H)|exact Hm].
  - destruct (mget n (m_jobs m)) as [[|k body task|]|] eqn:En; try done.
    pose proof (parse_ok t k body (sv_store (m_service m))) as Hp.
    destruct (signalParse t k body _) as [s [r|p]]; [by apply jobs_finish|].
    destruct (Hp p eq_refl) as [E1 E2]. apply jobs_start; [| |exact Hm]; cbn; rewrite ?E1, E2.
    + intros H. by apply (proj1 Hm n (receiving k body task)).
    + intros H _. exists (receiving k body task). split; [exact En|exact H].
  - destruct (mget n (m_jobs m)) as [j|] eqn:En; [|done]. destruct j; try done;
      apply jobs_finish; revert Hm; apply jobs_sub; intros ? ?; by rewrite answer_jobs.
  - exact Hm.
Qed.

(** What the answer of the gates does to the store: nothing, or the signal. *)
Definition raisedBy (t : Z) (j : job) (m : machine) : store :=
  match j with
  | draining e prior _ => (deliverApply t t t e prior (sv_store (m_service m))).1
  | deciding p _ => (signalRaise t p (sv_store (m_service m))).1.2
  | receiving _ _ _ => sv_store (m_service m)
  end.

Lemma answer_store t g j m :
  (sv_store (m_service (answer t g j m)) = sv_store (m_service m) ∧ outcomes (m_service (answer t g j m)) = outcomes (m_service m)) ∨
  sv_store (m_service (answer t g j m)) = raisedBy t j m.
Proof.
  unfold answer. destruct j as [e prior task|k body task|p task]; [|by left|]; destruct (runGates _ _ _); try (by left); right.
  - unfold raisedBy, deliverApply, announce. by destruct (bool_decide _ && _ && _).
  - unfold raisedBy, signalRaise, announce. by destruct (bool_decide _).
Qed.

Lemma raised_tasks t j m : ∃ f, tasks (raisedBy t j m) =
  match mget (jobTask j) (tasks (sv_store (m_service m))) with
  | Some x => mset (jobTask j) (f x) (tasks (sv_store (m_service m))) | None => tasks (sv_store (m_service m)) end ∨
  tasks (raisedBy t j m) = tasks (sv_store (m_service m)).
Proof.
  destruct j as [e prior task|k body task|p task]; [|by exists (λ x, x); right|]; cbn; eexists; left; apply setPending_tasks.
Qed.

Lemma receiving_dec j : (∃ i body task, j = receiving i body task) ∨ (∀ i body task, j ≠ receiving i body task).
Proof. destruct j as [|k body task|]; [by right|left; by exists k, body, task|by right]. Qed.

Lemma raised_ledger t j m :
  (∀ i body task, j ≠ receiving i body task) →
  processedSignalIds (raisedBy t j m) =
  match mget (jobTask j) (tasks (sv_store (m_service m))), truthyStr (jobKey j) with
  | Some _, Some k => record_ t k (jobTask j) (ledger m)
  | _, _ => ledger m
  end.
Proof.
  intros H. destruct j as [e prior task|k body task|p task]; [|by destruct (H k body task)|]; unfold raisedBy; cbn -[truthyStr setPendingSignal];
    rewrite setPending_processed; destruct (mget _ _); try done; cbn [sig_signalId sig_kind];
    destruct (truthyStr _); try done; [by destruct (e_kind e)|by destruct (po_kind p)].
Qed.

Lemma raised_gone t j m :
  mget i (tasks (sv_store (m_service m))) = None → mget i (tasks (raisedBy t j m)) = None.
Proof.
  intros H. destruct (raised_tasks t j m) as [f [->| ->]]; [|done].
  destruct (mget (jobTask j) _) eqn:E; [|done]. rewrite mget_mset. case_decide; [congruence|done].
Qed.

Lemma raised_room t j n m : room (S n) (ledger m) → room n (processedSignalIds (raisedBy t j m)).
Proof.
  intros H. assert (H' : room n (ledger m)) by (apply (room_le (S n)); [lia|done]).
  destruct (receiving_dec j) as [(x & y & z & ->)|Hj]; [exact H'|]. rewrite raised_ledger by done.
  destruct (mget _ _); [|done]. destruct (truthyStr _); [|done]. by apply record_room.
Qed.

Lemma raised_remembers t j n m :
  t0 ≤ t ≤ t0 + SIGNAL_TTL_MS → (jobKey j = Some sid → jobTask j = i) → room (S n) (ledger m) → remembers (ledger m) →
  remembers (processedSignalIds (raisedBy t j m)).
Proof.
  intros Ht Hj Hr Hm. destruct (receiving_dec j) as [(x & y & z & ->)|Hx]; [exact Hm|]. rewrite raised_ledger by done.
  assert (Hk : ∀ k, truthyStr (jobKey j) = Some k → remembers (record_ t k (jobTask j) (ledger m))).
  { intros k Hk. apply truthyStr_Some in Hk as [Hk _]. apply (record_remembers t k (jobTask j) n); [done| |done|by right].
    intros ->. by apply Hj. }
  destruct (mget _ _); [|done]. destruct (truthyStr _); [|done]. by apply Hk.
Qed.

Lemma handle_room n m ev : inTime ev → room (S n) (ledger m) → room n (ledger (handle m ev)).
Proof.
  intros [_ Ht] Hr. assert (Hr' : room n (ledger m)) by (apply (room_le (S n)); [lia|done]).
  destruct ev as [k t e|k t j body|k t|k t g|t f]; cbn [handle].
  - destruct (mhas k _); [done|]. pose proof (check_ledger t e (sv_store (m_service m))) as E.
    destruct (deliverCheck t e _) as [s [r|[task prior]]]; cbn in E |- *; unfold ledger; cbn; rewrite E; by apply compact_room.
  - destruct (mhas k _); [done|]. by destruct (signalOpen j _).
  - destruct (mget k (m_jobs m)) as [[|j body task|]|]; try done.
    pose proof (parse_store t j body (sv_store (m_service m))) as E.
    destruct (signalParse t j body _) as [s [r|p]]; cbn in E; unfold ledger; cbn; destruct E as [->| ->]; try done;
      by apply (compact_room t n (ledger m)).
  - destruct (mget k (m_jobs m)) as [j|]; [|done].
    assert (H : room n (ledger (answer t g j m))).
    { unfold ledger. destruct (answer_store t g j m) as [[-> _]| ->]; [done|by apply raised_room]. }
    by destruct j.
  - destruct (Ht (sv_store (m_service m))) as (Hw & Hs & _). destruct Hr as [Hrw Hrm]. split; [by apply Hw|].
    unfold ledger in *. cbn. lia.
Qed.

(** Once settled, the key announces nothing more. *)
Lemma settled_step n m ev :
  inTime ev → room (S n) (ledger m) → jobsOK m → settled m → settled (handle m ev) ∧ announces sid ev m = false.
Proof.
  intros [Ht Hev] Hr Hj Hs. assert (Hr' : room n (ledger m)) by (apply (room_le (S n)); [lia|done]).
  destruct ev as [k t e|k t j body|k t|k t g|t f]; unfold announces; cbn [handle]; cbn [eventTime] in Ht.
  - split; [|done]. destruct (mhas k _); [done|].
    pose proof (check_ledger t e (sv_store (m_service m))) as E. pose proof (check_tasks t e (sv_store (m_service m))) as E2.
    pose proof (check_replays t n e (sv_store (m_service m))) as Hrep.
    assert (Hno : mget (e_taskId e) (tasks (sv_store (m_service m))) = None → ∃ r, (deliverCheck t e (sv_store (m_service m))).2 = inl r).
    { intros H. rewrite deliverCheck_cases. cbn zeta beta iota. cbn [snd]. rewrite H. case_bool_decide; by eexists. }
    destruct (deliverCheck t e _) as [s c]. cbn [fst snd] in *. destruct Hs as [[Hm Hrec]|[Hnone Hc]].
    + left. destruct c as [r|[task prior]]; unfold ledger; cbn; rewrite E; (split; [apply (compact_remembers t n); [lia|done|done]|]);
        [exact Hrec|]. intros k' j'. rewrite mget_mset. case_decide; [|apply Hrec]. intros [= <-] [= Hk]. exfalso.
      specialize (Hrep ltac:(lia) Hr' Hm Hk (Hev Hk)). done.
    + right. destruct c as [r|[task prior]]; cbn; rewrite E2; (split; [done|]); [exact Hc|].
      intros (k' & j' & Hg & Hk). cbn in Hg. rewrite mget_mset in Hg. case_decide; [|apply Hc; by exists k', j'].
      injection Hg as <-. injection Hk as Hk. rewrite (Hev Hk) in Hno. by destruct (Hno Hnone).
  - split; [|done]. destruct (mhas k _); [done|].
    destruct (signalOpen j (sv_store (m_service m))) as [r|task] eqn:Eo; [done|]. destruct Hs as [[Hm Hrec]|[Hnone Hc]].
    + left. split; [exact Hm|]. intros k' j'. cbn. rewrite mget_mset. case_decide; [|apply Hrec]. intros [= <-] _. by eexists _, _, _.
    + right. split; [exact Hnone|]. intros (k' & j' & Hg & Hk). cbn in Hg. rewrite mget_mset in Hg.
      case_decide; [|apply Hc; by exists k', j']. injection Hg as <-. cbn in Hk. rewrite (Hev Hk) in Eo.
      unfold signalOpen in Eo. rewrite Hnone in Eo. by destruct (isSharedTaskId i).
  - split; [|done]. destruct (mget k (m_jobs m)) as [[|j body task|]|] eqn:Ek; try done.
    pose proof (parse_store t j body (sv_store (m_service m))) as E. pose proof (parse_ok t j body (sv_store (m_service m))) as Hp.
    pose proof (λ Hm, parse_replays t n body (sv_store (m_service m)) ltac:(lia) Hr' Hm) as Hrep.
    assert (Hji : bodyKey body = Some sid → j = i) by (intros H; by apply (proj1 Hj k (receiving j body task))).
    destruct (signalParse t j body (sv_store (m_service m))) as [s c] eqn:Es. cbn [fst snd] in *. destruct Hs as [[Hm Hrec]|[Hnone Hc]].
    + left. assert (Hm' : remembers (processedSignalIds s)).
      { destruct E as [->| ->]; [exact Hm|]. apply (compact_remembers t n); [lia|exact Hr'|exact Hm]. }
      destruct c as [r|p]; (split; [exact Hm'|]); intros k' j'; cbn.
      * rewrite mget_mdel. case_decide; [done|apply Hrec].
      * rewrite mget_mset. case_decide; [|apply Hrec]. intros [= <-] Hk. exfalso. cbn in Hk.
        destruct (Hp p eq_refl) as [_ Hb]. rewrite Hb in Hk. pose proof (Hji Hk) as ->.
        destruct (Hrep Hm Hk) as [r Hr2]. by rewrite Es in Hr2.
    + right. assert (Hn' : mget i (tasks s) = None) by (by destruct E as [->| ->]).
      destruct c as [r|p]; (split; [exact Hn'|]); intros (k' & j' & Hg & Hk); cbn in Hg.
      * rewrite mget_mdel in Hg. case_decide; [done|]. apply Hc. by exists k', j'.
      * rewrite mget_mset in Hg. case_decide; [|apply Hc; by exists k', j']. injection Hg as <-. cbn in Hk.
        destruct (Hp p eq_refl) as [_ Hb]. rewrite Hb in Hk. apply Hc. by exists k, (receiving j body task).
  - destruct (mget k (m_jobs m)) as [j|] eqn:Ek; [|split; [done|by rewrite Nat.ltb_irrefl, andb_false_r]].
    assert (Hst : settled (finish k (answer t g j m)) ∨ ∃ x y z, j = receiving x y z).
    { destruct Hs as [[Hm Hrec]|[Hnone Hc]].
      - left. left. split.
        + unfold ledger. cbn. destruct (answer_store t g j m) as [[-> _]| ->]; [exact Hm|].
          apply (raised_remembers t j n); [lia|by apply (proj1 Hj k)|done|done].
        + intros k' j'. cbn. rewrite answer_jobs, mget_mdel. case_decide; [done|apply Hrec].
      - left. right. split.
        + cbn. destruct (answer_store t g j m) as [[-> _]| ->]; [done|by apply raised_gone].
        + intros (k' & j' & Hg & Hk). cbn in Hg. rewrite answer_jobs, mget_mdel in Hg. case_decide; [done|]. apply Hc. by exists k', j'. }
    assert (Hkey : jobKey j = Some sid → ∃ x y z, j = receiving x y z).
    { intros Hk. destruct Hs as [[_ Hrec]|[_ Hc]]; [by eapply Hrec|]. destruct Hc. by exists k, j. }
    cbn [mbind option_bind]. split.
    + destruct j; try done; destruct Hst as [H|(? & ? & ? & H)]; done.
    + destruct (bool_decide (jobKey j = Some sid)) eqn:Eb; [|done]. apply bool_decide_eq_true in Eb.
      destruct (Hkey Eb) as (x & y & z & ->). apply Nat.ltb_irrefl.
  - split; [|done]. destruct (Hev (sv_store (m_service m))) as (_ & _ & Hk & Hg). destruct Hs as [[(a & Ha & Hle) Hrec]|[Hnone Hc]].
    + left. split; [|exact Hrec]. exists a. split; [by apply Hk|done].
    + right. split; [by apply Hg|exact Hc].
Qed.

(** An announcement for the key settles it. *)
Lemma announces_settles n m ev :
  sid ≠ "" → inTime ev → room (S n) (ledger m) → jobsOK m → announces sid ev m = true → settled (handle m ev).
Proof.
  intros Hne [Ht Hev] Hr Hj Ha. destruct ev as [| | |k t g|]; try done. unfold announces in Ha. cbn [handle eventTime] in *.
  destruct (mget k (m_jobs m)) as [j|] eqn:Ek; [|by rewrite Nat.ltb_irrefl, andb_false_r in Ha].
  cbn [mbind option_bind] in Ha. apply andb_true_iff in Ha as [Hk%bool_decide_eq_true Ho%Nat.ltb_lt].
  pose proof (proj1 Hj k j Ek Hk) as Hi.
  assert (Hrec : ∀ x y z, j ≠ receiving x y z) by (intros x y z ->; lia).
  assert (Ho' : (length (outcomes (m_service m)) < length (outcomes (m_service (answer t g j m))))%nat) by (by destruct j).
  assert (Hc : ¬ carries sid (finish k (answer t g j m))).
  { intros (k' & j' & Hg & Hk'). cbn in Hg. rewrite answer_jobs, mget_mdel in Hg. case_decide as Hd; [done|].
    by apply Hd, (proj2 Hj k' k j' j). }
  assert (H : settled (finish k (answer t g j m))).
  { destruct (answer_store t g j m) as [[_ E]|E]; [rewrite E in Ho'; lia|].
    destruct (mget i (tasks (sv_store (m_service m)))) as [x|] eqn:Ex.
    - left. split; [|intros k' j' Hg Hk'; destruct Hc; by exists k', j'].
      unfold ledger. cbn. rewrite E, raised_ledger, Hi, Ex, Hk by done. cbn [truthyStr].
      destruct (String.eqb_spec sid ""); [done|].
      apply (record_remembers t sid i n); [lia|done|done|by left].
    - right. split; [cbn; rewrite E; by apply raised_gone|exact Hc]. }
  destruct j; [exact H|by destruct (Hrec _ _ _ eq_refl)|exact H].
Qed.

Lemma announced_settled evs : ∀ m,
  Forall inTime evs → apartAll sid evs m → room (length evs) (ledger m) → jobsOK m → settled m → announced sid evs m = 0%nat.
Proof.
  induction evs as [|ev evs IH]; intros m Hq Ha Hr Hj Hm; [done|]. apply Forall_cons in Hq as [Hq Hqs].
  destruct Ha as [Ha Has]. cbn [announced length] in *. destruct (settled_step (length evs) m ev Hq Hr Hj Hm) as [Hm' ->].
  rewrite IH; [done|done|done|by apply handle_room|by apply handle_jobs|done].
Qed.
End window.

(** C33: within a day, and while the ledger has room, the deliveries and requests that carry one
    nonempty idempotency key announce the completion of their task at most once, retried and
    interleaved with others in any order, provided that no two of them overlap and that other
    work of the process forgets no id and does not bring a task back.  Those that overlap may each
    announce it ([overlap_announces_twice]). *)
Theorem announced_once sid i t0 evs m :
  sid ≠ "" → m_jobs m = [] → mwf (ledger m) → Z.of_nat (msize (ledger m) + length evs) ≤ SIGNAL_MAX_ENTRIES →
  Forall (inTime sid i t0) evs → apartAll sid evs m → (announced sid evs m ≤ 1)%nat.
Proof.
  intros Hne Hn Hw Hm Hq Ha. assert (Hr : room (length evs) (ledger m)) by done.
  assert (Hj : jobsOK sid i m) by (split; intros ? ?; rewrite Hn; done). clear Hw Hm Hn. revert m Ha Hr Hj.
  induction evs as [|ev evs IH]; intros m Ha Hr Hj; cbn [announced]; [lia|].
  apply Forall_cons in Hq as [H Hq]. destruct Ha as [Ha Has].
  pose proof (handle_room sid i t0 (length evs) m ev H Hr) as Hr'.
  pose proof (handle_jobs sid i t0 m ev H Ha Hj) as Hj'.
  destruct (announces sid ev m) eqn:Ea; [|by apply IH].
  rewrite (announced_settled sid i t0 evs); [lia|done..|]. by apply (announces_settles sid i t0 (length evs)).
Qed.

(** ** A tick *)

Lemma deliverLocal_settles a e v :
  (∀ k task, runGates (gates a) k task ≠ gates_throw) → ∀ error, (deliverLocal a e v).1 ≠ transient_fail error.
Proof.
  intros Hg error. unfold deliverLocal. rewrite deliverCheck_cases. cbn zeta.
  case_bool_decide; [done|]. destruct (mget (e_taskId e) (tasks (sv_store v))) as [task|]; [|done].
  destruct (isTerminalStatus _); [done|]. destruct (fenced e task); [done|].
  specialize (Hg (e_kind e) task). by destruct (runGates (gates a) (e_kind e) task).
Qed.

Lemma deliveries_settled {St} (deliver : SignalOutboxEntry → St → DeliverSignalResult * St) l :
  (∀ e st er, (deliver e st).1 ≠ transient_fail er) → ∀ st, omap keptBack (deliveries deliver l st).1 = [].
Proof.
  intros H. induction l as [|e l IH]; intros st; [done|]. cbn [deliveries]. pose proof (H e st) as He.
  destruct (deliver e st) as [r st1]. specialize (IH st1). destruct (deliveries deliver l st1) as [rs st2].
  simpl in *. destruct r as [|er|er]; simpl; [done..|]. by destruct (He er).
Qed.

(** A tick settles the spool: when no gate throws and nothing else writes the file meanwhile, then whatever
    the file held, and whatever the rest of the process does to the tasks at the awaits of the
    deliveries, nothing is left to deliver after it. *)
Theorem tick_settles a t f v :
  (∀ e k task, runGates (gates (a e)) k task ≠ gates_throw) → readPendingSignals (runTick a t f v).1.2 = [].
Proof.
  intros Hg. unfold runTick. destruct (Z.eqb_spec (Z.of_nat (length (readPendingSignals f))) 0) as [E|E]; simpl.
  { apply nil_length_inv. lia. }
  set (deliver := λ e, deliverLocal (a e) e). pose proof (drain_exact (defaultBound t) deliver f v) as H.
  destruct (drainSignalOutbox (defaultBound t) deliver f v) as [[r f'] v']. simpl.
  pose proof (deliveries_settled deliver (boundSignalOutbox (defaultBound t) (readPendingSignals f)).1
                (λ e st er, deliverLocal_settles (a e) e st (Hg e) er) v) as Hk.
  destruct (deliveries _ _ _) as [rs st]. by rewrite <- Hk; apply H.
Qed.

(** ** Witnesses and findings *)

Definition gatesOff : GateEnv := mkGateEnv (Some "off") (Some "0") true None (λ _, None) (λ _, None).

(** Nothing else happens while the gates are awaited. *)
Definition undisturbed (t : Z) : Awaits := mkAwaits gatesOff (λ v, v) t t.

(** A task with a live session, and the same task relaunched in another one. *)
Definition liveStore : store :=
  Runs.exec Runs.sampleName (Runs.op_addSession 2 "t1" (newSession "s1" "claude" "/repo" 2)) Runs.sampleStore.
Definition relaunch : store → store :=
  Runs.exec Runs.sampleName (Runs.op_addSession 9 "t1" (newSession "s2" "claude" "/repo" 9)).

Definition pendingOf (s : store) : option (option string * option SignalSource) :=
  (λ x, (sig_note x, sig_source x)) <$> getPendingSignal "t1" s.

Definition httpBody (e : SignalOutboxEntry) : option SignalBody :=
  Some (mkBody (Some (e_kind e)) (Some <$> e_note e) (Some (Some (e_signalId e)))).

(** A request [n] for the task that nothing overtakes. *)
Definition posting (n : nat) (t : Z) (e : SignalOutboxEntry) : list event :=
  [Request n t "t1" (httpBody e); Body n t; Answer n t gatesOff].

Definition idle (s : store) : machine := mkMachine (mkService s []) [].

(** Posted, delivered again from the spool while the task is relaunched, and posted once more. *)
Definition retries : list event :=
  posting 0 10 (sampleEntry "a" 1) ++
  [Drain 1 20 (sampleEntry "a" 1); Other 21 relaunch; Answer 1 22 gatesOff] ++ posting 0 30 (sampleEntry "a" 1).

Lemma relaunch_gentle : gentle "a" "t1" relaunch.
Proof.
  intros s. assert (H : processedSignalIds (relaunch s) = processedSignalIds s).
  { unfold relaunch. cbn [Runs.exec]. unfold addSession, Registry.addSession. cbn.
    destruct (mget "t1" (tasks s)); [|done]. destruct (Registry.attachGuard _ _ _); done. }
  rewrite H. split_and!; [done|lia|done|]. intros Hn. unfold relaunch. cbn [Runs.exec]. unfold addSession, Registry.addSession. cbn. by rewrite Hn.
Qed.

Lemma announced_once_witness :
  (announced "a" retries (idle liveStore) ≤ 1)%nat ∧ announced "a" (posting 0 10 (sampleEntry "a" 1)) (idle liveStore) = 1%nat.
Proof.
  split; [|by vm_compute]. apply (announced_once "a" "t1" 10 retries (idle liveStore)).
  - discriminate.
  - reflexivity.
  - apply NoDup_nil_2.
  - vm_compute. discriminate.
  - unfold retries, posting. repeat (apply Forall_cons; split); try done;
      (split; [vm_compute; split; discriminate|first [exact I|done|exact relaunch_gentle]]).
  - unfold retries, posting. cbn [apartAll app apart]. split_and!; try exact I; intros _ (n & j & Hn & _); vm_compute in Hn; discriminate Hn.
Defined.

Lemma tick_settles_witness :
  readPendingSignals (runTick (λ _, undisturbed 10) 10 (Outbox.rewritePending [sampleEntry "a" 1; sampleEntry "b" 2])
                        (mkService liveStore [])).1.2 = [].
Proof. apply tick_settles. intros e k task. unfold runGates. by destruct k. Defined.

(** Two requests with one key, the second of which arrives while the gates of the first are awaited,
    announce the completion twice. *)
Theorem overlap_announces_twice :
  let e := sampleEntry "a" 1 in
  let evs := [Request 0 10 "t1" (httpBody e); Body 0 10; Request 1 11 "t1" (httpBody e); Body 1 11;
              Answer 0 12 gatesOff; Answer 1 13 gatesOff] in
  announced "a" evs (idle liveStore) = 2%nat ∧
  outcomes (m_service (handleAll evs (idle liveStore))) = [("t1", None); ("t1", None)].
Proof. split; by vm_compute. Qed.

(** The fence looks at the task before the gates are awaited: a task that is relaunched
    meanwhile is signalled by the completion of its earlier session. *)
Theorem fence_raced :
  let e := sampleEntry "a" 1 in
  let other v := mkService (relaunch (sv_store v)) (outcomes v) in
  let '(r, v) := deliverLocal (mkAwaits gatesOff other 10 12) e (mkService liveStore []) in
  r = delivered ∧ (currentSession <$> mget "t1" (tasks (sv_store v))) = Some (Some "s2") ∧
  (deliverLocal (undisturbed 12) e (other (mkService liveStore []))).1 =
    permanent_fail (Some "quarantined stale completion delivery") ∧
  pendingOf (sv_store v) = Some (None, Some via_outbox).
Proof. by vm_compute. Qed.

(** Nor is the status looked at again: a task that is aborted while the gates run gets the signal of a
    live one, and one that is deleted has its completion announced. *)
Theorem unchecked_after_gates :
  let e := sampleEntry "a" 1 in
  let while f := [Request 0 10 "t1" (httpBody e); Body 0 10; Other 11 f; Answer 0 12 gatesOff] in
  let aborted := handleAll (while (Runs.exec Runs.sampleName (Runs.op_terminate 11 11 "t1" None None))) (idle liveStore) in
  let deleted := handleAll (while (Runs.exec Runs.sampleName (Runs.op_delete 11 "t1"))) (idle liveStore) in
  (isTerminalStatus ∘ status <$> mget "t1" (tasks (sv_store (m_service aborted)))) = Some true ∧
  pendingOf (sv_store (m_service aborted)) = Some (None, Some via_http) ∧
  mget "t1" (tasks (sv_store (m_service deleted))) = None ∧ outcomes (m_service deleted) = [("t1", None)].
Proof. split_and!; by vm_compute. Qed.

(** The same entry that the service quarantines is accepted when it is posted, as the command
    line's drain of the spool posts it: the request does not carry the bound session. *)
Theorem posted_entry_unfenced :
  let e := sampleEntry "a" 1 in
  let s := relaunch liveStore in
  (deliverLocal (undisturbed 10) e (mkService s [])).1 = permanent_fail (Some "quarantined stale completion delivery") ∧
  pendingOf (sv_store (m_service (handleAll (posting 0 10 e) (idle s)))) = Some (None, Some via_http).
Proof. split; by vm_compute. Qed.

(** A note that is drained from the outbox is stored as it is; posted, it is scrubbed. *)
Theorem drained_note_raw :
  let e := mkEntry "a" "t1" completion_ready (Some "token=abc123") 1 (Some "s1") None None None in
  pendingOf (sv_store (deliverLocal (undisturbed 10) e (mkService liveStore [])).2) = Some (Some "token=abc123", Some via_outbox) ∧
  pendingOf (sv_store (m_service (handleAll (posting 0 10 e) (idle liveStore)))) = Some (Some "[REDACTED]", Some via_http).
Proof. split; by vm_compute. Qed.
End Delivery.
