(* ===== verification/Monitor.v ===== *)
(** * The monitor

    [src/core/monitor.ts] with [outstanding-subagents.ts] and [systemic-hook-stall.ts]: it
    keeps the window of events of each agent, runs the detector on it, applies the verdicts
    of the watchdog, and keeps the attention queue in step.

    A method reads the clock several times without awaiting in between: they are one reading
    here.  The counters of [detection-stats.ts] and the calls of the evidence auditor are
    recorded as they are made. *)

From S2P Require Import Prelude JsMap JsArray JsString AgentEvents Anomalies AnomalyDetector AttentionQueue SnoozeSuppression TaskTypes CompletionSignal TaskStore Watchdog.

(** ** Outstanding subagents *)

Module Subagents.
#[local] Open Scope Z_scope.

(** Per parent, the start of each subagent that has not stopped. *)
Abbreviation tracker := (jmap string (jmap string Z)).

Definition SUBAGENT_TTL_MS : Z := 30 * 60 * 1000.

Definition SUBAGENT_SUPPRESSIBLE_TYPES (t : AnomalyType) : bool :=
  match t with needs_input | stale_agent | hook_disconnected => true | _ => false end.

Definition updateFromEvent (now : Z) (agent : string) (e : AgentEvent) (m : tracker) : tracker :=
  match ev_body e with
  | subagent_start i _ =>
      if String.eqb i "" then m else mset agent (mset i now (orElse (mget agent m) [])) m
  | subagent_stop i _ _ _ => if String.eqb i "" then m else mupd (mdel i) agent m
  | stop s =>
      if bool_decide (stop_activeBackgroundTaskCount s = Some 0)
         && bool_decide (stop_activeSessionCronCount s = Some 0)
      then mdel agent m else m
  | _ => m
  end.

Definition size (agent : string) (m : tracker) : nat := msize (orElse (mget agent m) []).

Definition flush (agent : string) (m : tracker) : tracker * nat := (mdel agent m, size agent m).

Definition parentCount (m : tracker) : nat := msize m.
Definition totalOutstanding (m : tracker) : nat := sum_list (msize <$> mvals m).

Definition fresh (now : Z) (p : string * Z) : bool := negb (SUBAGENT_TTL_MS <? now - p.2).

Record EvictStaleResult := mkEvicted {
  remaining : nat;
  evicted : nat
}.

Definition evictStale (now : Z) (agent : string) (m : tracker) : tracker * EvictStaleResult :=
  match mget agent m with
  | None => (m, mkEvicted 0 0)
  | Some s =>
      let kept := List.filter (fresh now) s in
      (mset agent kept m, mkEvicted (msize kept) (msize s - msize kept))
  end.

Definition suppressIfRunning (now : Z) (a : option Anomaly) (agent : string) (m : tracker) :
    tracker * (option Anomaly * EvictStaleResult) :=
  match a with
  | Some x =>
      if SUBAGENT_SUPPRESSIBLE_TYPES (type x) then
        let '(m, r) := evictStale now agent m in
        (m, (if Nat.ltb 0 (remaining r) then None else a, r))
      else (m, (a, mkEvicted (size agent m) 0))
  | None => (m, (a, mkEvicted (size agent m) 0))
  end.
End Subagents.

(** ** The systemic hook stall *)

Module HookStall.
#[local] Open Scope Z_scope.

Definition SYSTEMIC_HOOK_STALL_MIN_AGENTS : nat := 2.
Definition SYSTEMIC_HOOK_STALL_WINDOW_MS : Z := 60000.

(** The last [hook_disconnected] verdict of each agent. *)
Abbreviation tracker := (jmap string Z).

Definition recordVerdict (now : Z) (agent : string) (m : tracker) : tracker := mset agent now m.
Definition clear (agent : string) (m : tracker) : tracker := mdel agent m.

Definition recent (now : Z) (p : string * Z) : bool := negb (SYSTEMIC_HOOK_STALL_WINDOW_MS <? now - p.2).

Definition countRecent (now : Z) (m : tracker) : tracker * nat :=
  let kept := List.filter (recent now) m in (kept, msize kept).

Definition shouldSuppress (now : Z) (t : AnomalyType) (m : tracker) : tracker * bool :=
  if negb (bool_decide (t = hook_disconnected)) then (m, false)
  else
    let '(m, n) := countRecent now m in
    (m, Nat.leb SYSTEMIC_HOOK_STALL_MIN_AGENTS n).
End HookStall.

(** ** The monitor *)

Module Mon.
Import Detector.
#[local] Open Scope Z_scope.

Abbreviation idset := (jmap string unit).

Definition MONITOR_STOPPED_AGENTS_MAX : nat := Z.to_nat 4096.
Definition MAX_SUPPRESSED_COMPLETION_SIGNAL_IDS : nat := 128.
Definition UNOWNED_MONITOR_AGENT_SWEEP_GRACE_MS : Z := 60000.

(** Why a detection is suppressed. *)
Inductive StatReason := subagent_running | systemic_hook_stall | snooze_false_positive.

(** The calls of [detection-stats.ts]. *)
Inductive StatCall :=
| recordDetectionCheck (t : AnomalyType)
| recordDetectionFire (t : AnomalyType)
| recordSuppression (t : AnomalyType) (r : StatReason)
| recordSubagentOrphans (count sessions : nat)
| recordSubagentTtlEviction (count : nat).

(** The calls of the evidence auditor. *)
Inductive AuditSource := src_event | src_watchdog_tick.
Inductive AuditCall :=
| observe (agent : string) (a : option Anomaly) (events : list AgentEvent) (source : AuditSource)
    (paneText : option string) (reason : option StatReason)
| deleteAgent (agent : string).

(** The overrides of the detector's configuration. *)
Record PartialConfig := mkPartial {
  pc_repeatedErrorThreshold : option Z;
  pc_windowSize : option Z
}.

Record monitor := mkMonitor {
  agentEvents : jmap string (list AgentEvent);
  stoppedAgents : idset;
  agentFirstUnownedDeadAt : jmap string Z;
  windowSize : Z;
  anomalyConfig : PartialConfig;
  eventCounts : jmap string Z;
  lastRecordedAnomalyFingerprint : jmap string string;
  lastEventAnomaly : jmap string Anomaly;
  watchdogVerdictStreak : jmap string (AnomalyType * Z);
  agentTranscriptPaths : jmap string string;
  outstandingSubagents : Subagents.tracker;
  systemicHookStall : HookStall.tracker;
  suppressedCompletionSignalIds : jmap string idset;
  ttlEvictedSubagentEventCounts : jmap string Z;
  attentionQueue : Queue.queue;
  suppressionTracker : option Suppression.tracker;
  stats : list StatCall;
  audits : list AuditCall
}.

Definition newMonitor (q : Queue.queue) (c : PartialConfig) (window : option Z) (t : option Suppression.tracker) : monitor :=
  {| agentEvents := []; stoppedAgents := []; agentFirstUnownedDeadAt := []; windowSize := orElse window 50;
     anomalyConfig := c; eventCounts := []; lastRecordedAnomalyFingerprint := []; lastEventAnomaly := [];
     watchdogVerdictStreak := []; agentTranscriptPaths := []; outstandingSubagents := []; systemicHookStall := [];
     suppressedCompletionSignalIds := []; ttlEvictedSubagentEventCounts := []; attentionQueue := q;
     suppressionTracker := t; stats := []; audits := [] |}.

Definition stat (c : StatCall) (m : monitor) : monitor := {| m with stats := stats m ++ [c] |}.
Definition audit (c : AuditCall) (m : monitor) : monitor := {| m with audits := audits m ++ [c] |}.
Definition onQueue (f : Queue.queue → Queue.queue) (m : monitor) : monitor := {| m with attentionQueue := f (attentionQueue m) |}.

Definition setAnomalyConfig (c : PartialConfig) (m : monitor) : monitor :=
  {| m with anomalyConfig :=
       mkPartial (orOpt (pc_repeatedErrorThreshold c) (pc_repeatedErrorThreshold (anomalyConfig m)))
         (orOpt (pc_windowSize c) (pc_windowSize (anomalyConfig m))) |}.

(** [{ ...DEFAULT_CONFIG, ...config }]. *)
Definition mergedConfig (c : PartialConfig) : AnomalyDetectorConfig :=
  mkConfig (orElse (pc_repeatedErrorThreshold c) (repeatedErrorThreshold DEFAULT_CONFIG))
    (orElse (pc_windowSize c) (Detector.windowSize DEFAULT_CONFIG)).

Definition eventsOf (agent : string) (m : monitor) : list AgentEvent := orElse (mget agent (agentEvents m)) [].
Definition countOf (agent : string) (m : monitor) : Z := orElse (mget agent (eventCounts m)) 0.
Definition isStopped (agent : string) (m : monitor) : bool := mhas agent (stoppedAgents m).

(** ** Ageing sets *)

(** Drops the oldest entries over the bound. *)
Definition evictOver {V} (max : nat) (m : jmap string V) : jmap string V := drop (msize m - max) m.

Definition addStoppedAgent (agent : string) (m : monitor) : monitor :=
  {| m with stoppedAgents := evictOver MONITOR_STOPPED_AGENTS_MAX (mset agent tt (stoppedAgents m)) |}.

Definition rememberSuppressedCompletionSignal (agent signalId : string) (m : monitor) : monitor :=
  let ids := evictOver MAX_SUPPRESSED_COMPLETION_SIGNAL_IDS
               (mset signalId tt (orElse (mget agent (suppressedCompletionSignalIds m)) [])) in
  {| m with suppressedCompletionSignalIds := mset agent ids (suppressedCompletionSignalIds m) |}.

Definition isSuppressedCompletionSignal (agent signalId : string) (m : monitor) : bool :=
  mhas signalId (orElse (mget agent (suppressedCompletionSignalIds m)) []).

(** ** Subagents *)

Definition flushAndDeleteSubagents (agent : string) (m : monitor) : monitor :=
  let '(t, orphans) := Subagents.flush agent (outstandingSubagents m) in
  let m := {| m with outstandingSubagents := t |} in
  if Nat.ltb 0 orphans then stat (recordSubagentOrphans orphans 1) m else m.

Definition updateSubagentTracking (now : Z) (agent : string) (m : monitor) (e : AgentEvent) : monitor :=
  match ev_body e with
  | session_end _ => flushAndDeleteSubagents agent m
  | _ => {| m with outstandingSubagents := Subagents.updateFromEvent now agent e (outstandingSubagents m) |}
  end.

(** The telemetry of an eviction; [mark] is [markSnapshotTtlEviction]. *)
Definition evictionTelemetry (mark : bool) (agent : string) (evicted : nat) (m : monitor) : monitor :=
  if Nat.ltb 0 evicted then
    let m := stat (recordSubagentTtlEviction evicted) m in
    if mark then {| m with ttlEvictedSubagentEventCounts :=
                      mset agent (countOf agent m) (ttlEvictedSubagentEventCounts m) |}
    else m
  else m.

Definition evictStaleSubagents (now : Z) (agent : string) (m : monitor) : monitor * nat :=
  let '(t, r) := Subagents.evictStale now agent (outstandingSubagents m) in
  (evictionTelemetry true agent (Subagents.evicted r) {| m with outstandingSubagents := t |}, Subagents.remaining r).

Definition suppressIfSubagentsRunning (mark : bool) (now : Z) (a : option Anomaly) (agent : string) (m : monitor) :
    monitor * option Anomaly :=
  let '(t, (a, r)) := Subagents.suppressIfRunning now a agent (outstandingSubagents m) in
  (evictionTelemetry mark agent (Subagents.evicted r) {| m with outstandingSubagents := t |}, a).

(** ** Findings of the events *)

Definition rememberTranscriptPath (agent : string) (m : monitor) (e : AgentEvent) : monitor :=
  let path :=
    match ev_body e with
    | session_start p _ _ => p
    | stop s => stop_transcriptPath s
    | stop_failure _ _ p _ => p
    | _ => None
    end in
  match truthyStr path with
  | Some p => {| m with agentTranscriptPaths := mset agent p (agentTranscriptPaths m) |}
  | None => m
  end.

Definition withStableEventDetectedAt (agent : string) (m : monitor) (a : Anomaly) : Anomaly :=
  match mget agent (lastEventAnomaly m) with
  | Some previous =>
      if negb (String.eqb (anomalyFingerprint previous) (anomalyFingerprint a)) then a
      else {| a with detectedAt := detectedAt previous; eventId := orOpt (eventId previous) (eventId a) |}
  | None => a
  end.

Definition stabilizeEventAnomaly (agent : string) (a : option Anomaly) (eventId : option string) (m : monitor) :
    monitor * option Anomaly :=
  match a with
  | None => ({| m with lastEventAnomaly := mdel agent (lastEventAnomaly m) |}, None)
  | Some x =>
      let stamped := match eventId with Some i => {| x with eventId := Some i |} | None => x end in
      let stable := withStableEventDetectedAt agent m stamped in
      ({| m with lastEventAnomaly := mset agent stable (lastEventAnomaly m) |}, Some stable)
  end.

Definition recordDetectionTelemetry (agent : string) (checked : list AnomalyType) (a : option Anomaly) (m : monitor) :
    monitor :=
  let m := {| m with stats := stats m ++ (recordDetectionCheck <$> checked) |} in
  match a with
  | None => {| m with lastRecordedAnomalyFingerprint := mdel agent (lastRecordedAnomalyFingerprint m) |}
  | Some x =>
      let fp := anomalyFingerprint x in
      if bool_decide (mget agent (lastRecordedAnomalyFingerprint m) = Some fp) then m
      else
        let m := stat (recordDetectionFire (type x)) m in
        {| m with lastRecordedAnomalyFingerprint := mset agent fp (lastRecordedAnomalyFingerprint m) |}
  end.

Section environment.
(** [normalize('NFKC')], SHA-256, and the store's [findTaskIdBySession]. *)
Variable nfkc : str → str.
Variable sha256hex : string → string.
Variable taskIdFor : string → option string.
(** The flag of the transcript context, and the tail of a transcript file. *)
Variable contextEnabled : bool.
Variable lastAssistantMessage : string → option FindingTranscriptExcerpt.

Definition withTranscriptContext (a : option Anomaly) (agent : string) (m : monitor) : option Anomaly :=
  match a with
  | None => None
  | Some x =>
      if negb contextEnabled then a
      else if negb (bool_decide (type x = needs_input)) && negb (bool_decide (type x = stale_agent)) then a
      else if isSome (transcriptContext x) then a
      else
        match mget agent (agentTranscriptPaths m) with
        | None => a
        | Some path =>
            match lastAssistantMessage path with
            | None => a
            | Some message => Some {| x with transcriptContext := Some message |}
            end
        end
  end.

(** The events with their sequence numbers. *)
Definition sequenced (previousCount : Z) (events : list AgentEvent) : list AgentEvent :=
  imap (λ index e, {| e with ev_eventSeq := Some (previousCount + Z.of_nat index + 1) |}) events.

Definition capWindow (window : Z) (l : list AgentEvent) : list AgentEvent :=
  if window <? Z.of_nat (length l) then drop (Z.to_nat (Z.of_nat (length l) - window)) l else l.

(** The window and the trackers, before the detection. *)
Definition appendEvents (now : Z) (agent : string) (events : list AgentEvent) (m : monitor) : monitor :=
  let previousCount := countOf agent m in
  let sequencedEvents := sequenced previousCount events in
  let m := {| m with eventCounts := mset agent (previousCount + Z.of_nat (length events)) (eventCounts m) |} in
  let capped := capWindow (windowSize m) (eventsOf agent m ++ sequencedEvents) in
  let m := {| m with agentEvents := mset agent capped (agentEvents m) |} in
  let m := fold_left (rememberTranscriptPath agent) sequencedEvents m in
  fold_left (updateSubagentTracking now agent) sequencedEvents m.

Definition processEvents (now : Z) (agent : string) (events : list AgentEvent) (eventId : option string) (m : monitor) :
    monitor :=
  if isStopped agent m then m
  else
    let m := appendEvents now agent events m in
    let capped := eventsOf agent m in
    let '(rawAnomaly, checkedTypes) := evaluateAnomalies nfkc now capped agent (mergedConfig (anomalyConfig m)) None in
    let '(m, a) := suppressIfSubagentsRunning false now rawAnomaly agent m in
    let '(m, anomaly) := stabilizeEventAnomaly agent (withTranscriptContext a agent m) eventId m in
    let m := recordDetectionTelemetry agent checkedTypes anomaly m in
    let m := if bool_decide (type <$> rawAnomaly = Some needs_input) && negb (isSome anomaly)
             then stat (recordSuppression needs_input subagent_running) m else m in
    match anomaly with
    | Some x => audit (observe agent (Some x) capped src_event None None) (onQueue (Queue.enqueue taskIdFor now now agent x) m)
    | None => audit (observe agent None capped src_event None None) (onQueue (Queue.remove agent) m)
    end.

Definition getEventAnomaly (now : Z) (agent : string) (m : monitor) : monitor * option Anomaly :=
  let raw := detectAnomalies nfkc now (eventsOf agent m) agent (mergedConfig (anomalyConfig m)) None in
  let '(m, a) := suppressIfSubagentsRunning true now raw agent m in
  (m, withStableEventDetectedAt agent m <$> withTranscriptContext a agent m).

Definition peek (now : Z) (agent : string) (m : monitor) : option Anomaly :=
  Queue.peek taskIdFor now agent (attentionQueue m).

Definition getCurrentAnomaly (now : Z) (agent : string) (m : monitor) : monitor * option Anomaly :=
  let '(m, anomaly) := getEventAnomaly now agent m in
  let queued := peek now agent m in
  (m, match anomaly with
      | Some a =>
          match queued with
          | Some q => if String.eqb (anomalyFingerprint q) (anomalyFingerprint a)
                      then Some {| a with detectedAt := detectedAt q |} else anomaly
          | None => anomaly
          end
      | None => queued
      end).

Definition recordProviderProgress (now : Z) (agent : string) (m : monitor) : monitor :=
  if isStopped agent m then m
  else
    let '(m, a) := getEventAnomaly now agent m in
    if isSome a then m
    else
      let m := {| m with watchdogVerdictStreak := mdel agent (watchdogVerdictStreak m) |} in
      match type <$> peek now agent m with
      | Some stale_agent | Some hook_disconnected =>
          audit (observe agent None (eventsOf agent m) src_event None None) (onQueue (Queue.purge agent) m)
      | _ => m
      end.

Definition registerAgent (agent : string) (m : monitor) : monitor :=
  {| m with stoppedAgents := mdel agent (stoppedAgents m);
            lastRecordedAnomalyFingerprint := mdel agent (lastRecordedAnomalyFingerprint m);
            agentEvents := if mhas agent (agentEvents m) then agentEvents m else mset agent [] (agentEvents m) |}.

(** ** Verdicts of the watchdog *)

Definition WATCHDOG_OWNED_TYPES (t : AnomalyType) : bool :=
  match t with needs_input | permission_blocked | stale_agent | hook_disconnected => true | _ => false end.

Definition WATCHDOG_DEBOUNCE_TYPES (t : AnomalyType) : bool :=
  match t with stale_agent | hook_disconnected => true | _ => false end.
Definition WATCHDOG_DEBOUNCE_MIN_STREAK : Z := 2.

(** The finding of a verdict that asks for action. *)
Definition actionable (v : Watch.WatchdogVerdict) : option Anomaly :=
  match v with
  | Watch.v_needs_input a | Watch.v_permission_blocked a | Watch.v_stale_agent a | Watch.v_hook_disconnected a => Some a
  | _ => None
  end.

Definition bumpWatchdogStreak (agent : string) (t : AnomalyType) (m : monitor) : monitor * Z :=
  let count :=
    match mget agent (watchdogVerdictStreak m) with
    | Some (t', n) => if bool_decide (t' = t) then n + 1 else 1
    | None => 1
    end in
  ({| m with watchdogVerdictStreak := mset agent (t, count) (watchdogVerdictStreak m) |}, count).

Definition purgeOne (candidateAgentId : string) (pane : option string) (m : monitor) (p : string * Anomaly) : monitor :=
  let '(agent, a) := p in
  if negb (bool_decide (type a = hook_disconnected)) then m
  else
    let m := onQueue (Queue.purge agent) m in
    if String.eqb agent candidateAgentId then m
    else audit (observe agent None (eventsOf agent m) src_watchdog_tick pane (Some systemic_hook_stall)) m.

Definition purgeSystemicHookStallSiblings (candidateAgentId : string) (pane : option string) (m : monitor) : monitor :=
  fold_left (purgeOne candidateAgentId pane) (Queue.inspectActive (attentionQueue m)) m.

(** [getTime() !== getTime()]. *)
Definition timesDiffer (x y : jdate) : bool :=
  match x, y with Some a, Some b => negb (a =? b) | _, _ => true end.

(** A verdict that a running subagent explains. *)
Definition swallowVerdict (now : Z) (agent : string) (raw : Anomaly) (pane : option string) (m : monitor) : monitor :=
  let m := stat (recordSuppression (type raw) subagent_running) m in
  let m :=
    match peek now agent m with
    | Some queued =>
        if WATCHDOG_OWNED_TYPES (type queued) then
          let '(m, e) := getEventAnomaly now agent m in
          if isSome e then m else onQueue (Queue.purge agent) m
        else m
    | None => m
    end in
  let events := eventsOf agent m in
  audit (observe agent None events src_watchdog_tick pane (Some subagent_running))
    (audit (observe agent (Some raw) events src_watchdog_tick pane None) m).

(** A hook stall of several agents. *)
Definition suppressSystemic (agent : string) (anomaly : Anomaly) (pane : option string) (m : monitor) : monitor :=
  let m := stat (recordSuppression hook_disconnected systemic_hook_stall) m in
  let events := eventsOf agent m in
  purgeSystemicHookStallSiblings agent pane
    (audit (observe agent None events src_watchdog_tick pane (Some systemic_hook_stall))
       (audit (observe agent (Some anomaly) events src_watchdog_tick pane None) m)).

(** A verdict with no finding of the events in its way. *)
Definition queueVerdict (now : Z) (agent : string) (anomaly : Anomaly) (pane : option string) (m : monitor) : monitor * bool :=
  if orElse (Suppression.shouldSuppress agent (type anomaly) <$> suppressionTracker m) false then
    (stat (recordSuppression (type anomaly) snooze_false_positive) m, true)
  else
    let '(m, streak) := bumpWatchdogStreak agent (type anomaly) m in
    if WATCHDOG_DEBOUNCE_TYPES (type anomaly) && (streak <? WATCHDOG_DEBOUNCE_MIN_STREAK) then (m, false)
    else
      let '(t, systemic) := HookStall.shouldSuppress now (type anomaly) (systemicHookStall m) in
      let m := {| m with systemicHookStall := t |} in
      if systemic then (suppressSystemic agent anomaly pane m, true)
      else
        let queuedBefore := peek now agent m in
        let m := onQueue (Queue.enqueue taskIdFor now now agent anomaly) m in
        let m := if bool_decide (anomalyFingerprint <$> queuedBefore = Some (anomalyFingerprint anomaly)) then m
                 else stat (recordDetectionFire (type anomaly)) m in
        (audit (observe agent (Some anomaly) (eventsOf agent m) src_watchdog_tick pane None) m, true).

Definition applyWatchdogVerdict (now : Z) (agent : string) (v : Watch.WatchdogVerdict) (paneCaptureSucceeded : bool)
    (pane : option string) (m : monitor) : monitor * bool :=
  match actionable v with
  | Some va =>
      let rawAnomaly := orElse (withTranscriptContext (Some va) agent m) va in
      let m := stat (recordDetectionCheck (type rawAnomaly)) m in
      let m := if bool_decide (type rawAnomaly = hook_disconnected)
               then {| m with systemicHookStall := HookStall.recordVerdict now agent (systemicHookStall m) |} else m in
      let '(m, anomaly) := suppressIfSubagentsRunning true now (Some rawAnomaly) agent m in
      match anomaly with
      | None => (swallowVerdict now agent rawAnomaly pane m, true)
      | Some anomaly =>
          let '(m, eventAnomaly) := getEventAnomaly now agent m in
          match eventAnomaly with
          | Some e =>
              let queued := peek now agent m in
              (onQueue (Queue.enqueue taskIdFor now now agent e) m,
               match queued with
               | None => true
               | Some q => negb (String.eqb (anomalyFingerprint q) (anomalyFingerprint e))
                           || timesDiffer (detectedAt q) (detectedAt e)
               end)
          | None => queueVerdict now agent anomaly pane m
          end
      end
  | None =>
      let m := {| m with watchdogVerdictStreak := mdel agent (watchdogVerdictStreak m) |} in
      if negb paneCaptureSucceeded then (m, false)
      else
        match peek now agent m with
        | None => (m, false)
        | Some queued =>
            let '(m, eventAnomaly) := getEventAnomaly now agent m in
            if isSome eventAnomaly then (m, false)
            else if negb (WATCHDOG_OWNED_TYPES (type queued)) then (m, false)
            else (audit (observe agent None (eventsOf agent m) src_event None None) (onQueue (Queue.purge agent) m), true)
        end
  end.

Definition sampleFindingEvidence (now : Z) (agent : string) (pane : option string) (m : monitor) : monitor :=
  let '(m, a) := getCurrentAnomaly now agent m in
  audit (observe agent a (eventsOf agent m) src_watchdog_tick pane None) m.

(** ** Input and permissions *)

(** The last events after which a user may be answering. *)
Definition looksWaiting (e : AgentEvent) : bool :=
  match ev_body e with
  | stop _ | stop_failure _ _ _ _ | notification _ _ _ | permission_request _ _ _ => true
  | tool_use name _ _ => String.eqb name "AskUserQuestion"
  | _ => false
  end.

Definition markInputReceived (now : Z) (agent : string) (m : monitor) : monitor * bool :=
  if isStopped agent m then (m, false)
  else
    match mget agent (agentEvents m) with
    | None => (m, false)
    | Some events =>
        match last events with
        | None => (m, false)
        | Some e =>
            let '(m, currentAnomaly) := getCurrentAnomaly now agent m in
            let isWaiting := looksWaiting e
              || bool_decide (type <$> currentAnomaly = Some needs_input)
              || bool_decide (type <$> currentAnomaly = Some permission_blocked) in
            if negb isWaiting then (m, false)
            else (processEvents now agent [mkEvent input_received (ev_sessionId e) None None None] None m, true)
        end
    end.

Definition isPermissionBlocked (now : Z) (agent : string) (m : monitor) : monitor * bool :=
  let '(m, a) := getCurrentAnomaly now agent m in
  (m, bool_decide (type <$> a = Some permission_blocked)).

Definition blockedStep (now : Z) (acc : monitor * list string) (agent : string) : monitor * list string :=
  let '(m, found) := acc in
  if isStopped agent m then acc
  else
    let '(m, b) := isPermissionBlocked now agent m in
    (m, if b then found ++ [agent] else found).

Definition getPermissionBlockedAgents (now : Z) (m : monitor) : monitor * list string :=
  fold_left (blockedStep now) (mkeys (agentEvents m)) (m, []).

Definition getAgentEvents (agent : string) (m : monitor) : list AgentEvent := eventsOf agent m.
Definition getEventCounts (m : monitor) : jmap string Z := eventCounts m.

(** ** Removal *)

Definition unregisterAgent (agent : string) (m : monitor) : monitor :=
  let m :=
    {| m with agentEvents := mdel agent (agentEvents m);
              agentFirstUnownedDeadAt := mdel agent (agentFirstUnownedDeadAt m);
              eventCounts := mdel agent (eventCounts m);
              lastRecordedAnomalyFingerprint := mdel agent (lastRecordedAnomalyFingerprint m);
              lastEventAnomaly := mdel agent (lastEventAnomaly m);
              systemicHookStall := HookStall.clear agent (systemicHookStall m);
              watchdogVerdictStreak := mdel agent (watchdogVerdictStreak m);
              agentTranscriptPaths := mdel agent (agentTranscriptPaths m) |} in
  let m := flushAndDeleteSubagents agent (onQueue (Queue.purge agent) (audit (deleteAgent agent) m)) in
  addStoppedAgent agent
    {| m with suppressedCompletionSignalIds := mdel agent (suppressedCompletionSignalIds m);
              ttlEvictedSubagentEventCounts := mdel agent (ttlEvictedSubagentEventCounts m) |}.

(** The owner of each session: the last task that lists it. *)
Definition ownerBySession (tasks : list Task.Task) : jmap string Task.Task :=
  fold_left (λ acc t, fold_left (λ acc s, mset (tmuxSession s) t acc) (Task.sessions t) acc) tasks [].

Definition ownedSessionIds (tasks : list Task.Task) : list string :=
  flat_map (λ t, tmuxSession <$> Task.sessions t) tasks.

Definition agedStep (tasks : list Task.Task) (cutoffMs : Z) (skipSessionIds : list string) (acc : monitor * nat)
    (agent : string) : monitor * nat :=
  let '(m, swept) := acc in
  if bool_decide (agent ∈ skipSessionIds) then acc
  else
    match mget agent (ownerBySession tasks) with
    | Some owner => if Store.isAgedTerminalTask cutoffMs owner then (unregisterAgent agent m, S swept) else acc
    | None => acc
    end.

Definition sweepAgedTerminalAgents (tasks : list Task.Task) (cutoffMs : Z) (skipSessionIds : list string) (m : monitor) :
    monitor * nat :=
  fold_left (agedStep tasks cutoffMs skipSessionIds) (mkeys (agentEvents m)) (m, 0%nat).

Definition sweepable (tasks : list Task.Task) (liveSessionIds : list string) (agent : string) : bool :=
  negb (bool_decide (agent ∈ ownedSessionIds tasks)) && negb (bool_decide (agent ∈ liveSessionIds)).

Definition unownedStep (tasks : list Task.Task) (liveSessionIds : list string) (graceMs now : Z) (acc : monitor * nat)
    (agent : string) : monitor * nat :=
  let '(m, swept) := acc in
  if negb (sweepable tasks liveSessionIds agent) then
    ({| m with agentFirstUnownedDeadAt := mdel agent (agentFirstUnownedDeadAt m) |}, swept)
  else
    let firstUnownedDeadAt := orElse (mget agent (agentFirstUnownedDeadAt m)) now in
    let m := if mhas agent (agentFirstUnownedDeadAt m) then m
             else {| m with agentFirstUnownedDeadAt := mset agent now (agentFirstUnownedDeadAt m) |} in
    if graceMs <=? now - firstUnownedDeadAt then (unregisterAgent agent m, S swept) else (m, swept).

Definition sweepUnownedDeadAgents (tasks : list Task.Task) (liveSessionIds : list string) (graceMs now : Z) (m : monitor) :
    monitor * nat :=
  fold_left (unownedStep tasks liveSessionIds graceMs now) (mkeys (agentEvents m)) (m, 0%nat).

Definition sweepStaleAgents (tasks : list Task.Task) (liveSessionIds : list string) (cutoffMs graceMs now : Z) (m : monitor) :
    monitor * nat :=
  let '(m, a) := sweepAgedTerminalAgents tasks cutoffMs liveSessionIds m in
  let '(m, b) := sweepUnownedDeadAgents tasks liveSessionIds graceMs now m in
  (m, (a + b)%nat).

(** ** Snapshots *)

Definition deriveLatestCompletionSignalForAgent (agent : string) (events : list AgentEvent) : option string :=
  Completion.deriveLatestCompletionSignal sha256hex (orElse (taskIdFor agent) agent) agent (Some ts_inProgress) events.

Definition deriveTurnStateForSnapshot (now : Z) (agent : string) (events : list AgentEvent) (m : monitor) :
    monitor * TurnState :=
  let turnState := deriveTurnState events in
  let outstandingBeforeEviction := Subagents.size agent (outstandingSubagents m) in
  let '(m, remainingAfterEviction) := evictStaleSubagents now agent m in
  let completed := bool_decide (turnState = completed_turn) in
  if completed && Nat.ltb 0 remainingAfterEviction then (m, running)
  else
    let latest := if completed then deriveLatestCompletionSignalForAgent agent events else None in
    let ttlEvictedAt := mget agent (ttlEvictedSubagentEventCounts m) in
    let m := {| m with ttlEvictedSubagentEventCounts := mdel agent (ttlEvictedSubagentEventCounts m) |} in
    let ttlEvictedBeforeProjection := bool_decide (ttlEvictedAt = Some (countOf agent m)) in
    if completed && (Nat.ltb 0 outstandingBeforeEviction || ttlEvictedBeforeProjection)
       && Nat.eqb remainingAfterEviction 0 then
      (match latest with Some i => rememberSuppressedCompletionSignal agent i m | None => m end, running)
    else
      match latest with
      | Some i => if completed && isSuppressedCompletionSignal agent i m then (m, running) else (m, turnState)
      | None => (m, turnState)
      end.

Definition shouldSuppressSnapshotNeedsInput (agent : string) (events : list AgentEvent) (a : option Anomaly)
    (m : monitor) : bool :=
  if negb (bool_decide (type <$> a = Some needs_input)) then false
  else
    match deriveLatestCompletionSignalForAgent agent events with
    | Some i => isSuppressedCompletionSignal agent i m
    | None => false
    end.

(** The live state of an agent, without what the health provider and the auditor add. *)
Record MonitorAgentState := mkAgentState {
  st_agentId : string;
  st_events : list AgentEvent;
  st_anomaly : option Anomaly;
  st_turnState : TurnState;
  st_lastEventSeq : Z;
  st_snoozedUntil : option Z;
  st_suppressed : bool
}.

Definition buildAgentState (now : Z) (agent : string) (events : list AgentEvent) (m : monitor) :
    monitor * MonitorAgentState :=
  let '(m, turnState) := deriveTurnStateForSnapshot now agent events m in
  let '(m, currentAnomaly) := getCurrentAnomaly now agent m in
  let anomaly := if shouldSuppressSnapshotNeedsInput agent events currentAnomaly m then None else currentAnomaly in
  let hasActiveNonLiveness :=
    match type <$> anomaly with
    | None | Some stale_agent | Some hook_disconnected => false
    | _ => true
    end in
  (m, mkAgentState agent events anomaly turnState
        (orElse (match last events with Some e => ev_eventSeq e | None => None end) 0)
        (Queue.getSnoozedUntil taskIdFor now agent (attentionQueue m))
        (orElse (Suppression.isSuppressed agent <$> suppressionTracker m) false && negb hasActiveNonLiveness)).

Definition getAgentState (now : Z) (agent : string) (m : monitor) : monitor * option MonitorAgentState :=
  match mget agent (agentEvents m) with
  | None => (m, None)
  | Some events => let '(m, s) := buildAgentState now agent events m in (m, Some s)
  end.

Definition getLiveTurnState (now : Z) (agent : string) (m : monitor) : monitor * option TurnState :=
  match mget agent (agentEvents m) with
  | None => (m, None)
  | Some events => let '(m, s) := deriveTurnStateForSnapshot now agent events m in (m, Some s)
  end.

Definition getSnapshot (now : Z) (m : monitor) : monitor * list MonitorAgentState :=
  fold_left (λ acc p, let '(m, states) := acc in
               let '(m, s) := buildAgentState now p.1 p.2 m in (m, states ++ [s]))
    (agentEvents m) (m, []).

(** The retention counts, in the order of the code. *)
Definition getRetentionMetrics (m : monitor) : list nat :=
  [ msize (agentEvents m); sum_list (length <$> mvals (agentEvents m)); msize (stoppedAgents m);
    msize (agentTranscriptPaths m); msize (suppressedCompletionSignalIds m);
    sum_list (msize <$> mvals (suppressedCompletionSignalIds m));
    Subagents.parentCount (outstandingSubagents m); Subagents.totalOutstanding (outstandingSubagents m);
    msize (ttlEvictedSubagentEventCounts m); msize (agentFirstUnownedDeadAt m) ].

(** ** Runs *)

(** The methods, and what the operator does to the queue and the suppression tracker. *)
Inductive op :=
| OProcess (now : Z) (agent : string) (events : list AgentEvent) (eventId : option string)
| OVerdict (now : Z) (agent : string) (v : Watch.WatchdogVerdict) (paneOk : bool) (pane : option string)
| OProgress (now : Z) (agent : string)
| OInput (now : Z) (agent : string)
| ORegister (agent : string)
| OUnregister (agent : string)
| OAged (tasks : list Task.Task) (cutoffMs : Z) (skip : list string)
| OUnowned (tasks : list Task.Task) (live : list string) (graceMs now : Z)
| OSnapshot (now : Z)
| OAgentState (now : Z) (agent : string)
| OTurnState (now : Z) (agent : string)
| OCurrent (now : Z) (agent : string)
| OSample (now : Z) (agent : string) (pane : option string)
| OBlocked (now : Z)
| OConfig (c : PartialConfig)

| OQueue (o : Queue.op)
| OSuppression (o : Suppression.op).

Definition exec (m : monitor) (o : op) : monitor :=
  match o with
  | OProcess now a evs i => processEvents now a evs i m
  | OVerdict now a v ok pane => (applyWatchdogVerdict now a v ok pane m).1
  | OProgress now a => recordProviderProgress now a m
  | OInput now a => (markInputReceived now a m).1
  | ORegister a => registerAgent a m
  | OUnregister a => unregisterAgent a m
  | OAged tasks c skip => (sweepAgedTerminalAgents tasks c skip m).1
  | OUnowned tasks live g now => (sweepUnownedDeadAgents tasks live g now m).1
  | OSnapshot now => (getSnapshot now m).1
  | OAgentState now a => (getAgentState now a m).1
  | OTurnState now a => (getLiveTurnState now a m).1
  | OCurrent now a => (getCurrentAnomaly now a m).1
  | OSample now a pane => sampleFindingEvidence now a pane m
  | OBlocked now => (getPermissionBlockedAgents now m).1
  | OConfig c => setAnomalyConfig c m
  | OQueue o => onQueue (Queue.exec taskIdFor o) m
  | OSuppression o => {| m with suppressionTracker := (λ t, (Suppression.exec o t).1) <$> suppressionTracker m |}
  end.

Definition run (m : monitor) (ops : list op) : monitor := fold_left exec ops m.
End environment.

(** ** What the reading methods leave alone *)

(** The fields that only events, registration and removal change. *)
Definition core (m : monitor) :=
  (agentEvents m, stoppedAgents m, eventCounts m, windowSize m, agentFirstUnownedDeadAt m).

(** The same and the queue. *)
Definition coreq (m : monitor) := (core m, attentionQueue m, watchdogVerdictStreak m).

Ltac cases := repeat (case_match; simplify_eq/=); try done.

Lemma coreq_core m m' : coreq m' = coreq m → core m' = core m.
Proof. unfold coreq. congruence. Qed.

Lemma coreq_eviction mark agent n m : coreq (evictionTelemetry mark agent n m) = coreq m.
Proof. unfold evictionTelemetry. cases. Qed.

Lemma coreq_suppress mark now a agent m : coreq (suppressIfSubagentsRunning mark now a agent m).1 = coreq m.
Proof.
  unfold suppressIfSubagentsRunning. destruct (Subagents.suppressIfRunning _ _ _ _) as [t [b r]]. cbn [fst].
  by rewrite coreq_eviction.
Qed.

Lemma coreq_evict now agent m : coreq (evictStaleSubagents now agent m).1 = coreq m.
Proof.
  unfold evictStaleSubagents. destruct (Subagents.evictStale _ _ _) as [t r]. cbn [fst]. by rewrite coreq_eviction.
Qed.

Lemma coreq_flush agent m : coreq (flushAndDeleteSubagents agent m) = coreq m.
Proof. unfold flushAndDeleteSubagents. destruct (Subagents.flush _ _). cases. Qed.

Lemma coreq_tracking now agent m e : coreq (updateSubagentTracking now agent m e) = coreq m.
Proof. unfold updateSubagentTracking. destruct (ev_body e); try done. apply coreq_flush. Qed.

Lemma coreq_transcript agent m e : coreq (rememberTranscriptPath agent m e) = coreq m.
Proof. unfold rememberTranscriptPath. destruct (truthyStr _); done. Qed.

Lemma fold_coreq {A} (f : monitor → A → monitor) l : (∀ m x, coreq (f m x) = coreq m) → ∀ m, coreq (fold_left f l m) = coreq m.
Proof. intros Hf. induction l as [|x l IH]; intros m; [done|]. simpl. by rewrite IH, Hf. Qed.

(** A fold that carries a result beside the state. *)
Lemma fold_pair {A B} (R : monitor → monitor → Prop) (f : monitor * B → A → monitor * B) l :
  (∀ m, R m m) → (∀ m1 m2 m3, R m1 m2 → R m2 m3 → R m1 m3) → (∀ m b x, R m (f (m, b) x).1) →
  ∀ m b, R m (fold_left f l (m, b)).1.
Proof.
  intros Hr Ht Hf. induction l as [|x l IH]; intros m b; [apply Hr|]. simpl.
  specialize (Hf m b x). destruct (f (m, b) x) as [m' b']. eapply Ht; [exact Hf|apply IH].
Qed.

Lemma coreq_stabilize agent a i m : coreq (stabilizeEventAnomaly agent a i m).1 = coreq m.
Proof. unfold stabilizeEventAnomaly. by destruct a. Qed.

Lemma coreq_telemetry agent c a m : coreq (recordDetectionTelemetry agent c a m) = coreq m.
Proof. unfold recordDetectionTelemetry. cases. Qed.

Section laws.
Variable nfkc : str → str.
Variable sha256hex : string → string.
Variable taskIdFor : string → option string.
Variable contextEnabled : bool.
Variable lastAssistantMessage : string → option FindingTranscriptExcerpt.
Abbreviation getEventAnomaly := (getEventAnomaly nfkc contextEnabled lastAssistantMessage).
Abbreviation getCurrentAnomaly := (getCurrentAnomaly nfkc taskIdFor contextEnabled lastAssistantMessage).
Abbreviation processEvents := (processEvents nfkc taskIdFor contextEnabled lastAssistantMessage).
Abbreviation applyWatchdogVerdict := (applyWatchdogVerdict nfkc taskIdFor contextEnabled lastAssistantMessage).
Abbreviation exec := (exec nfkc sha256hex taskIdFor contextEnabled lastAssistantMessage).
Abbreviation run := (run nfkc sha256hex taskIdFor contextEnabled lastAssistantMessage).

Lemma coreq_event now agent m : coreq (getEventAnomaly now agent m).1 = coreq m.
Proof.
  unfold Mon.getEventAnomaly. pose proof (coreq_suppress true now
    (detectAnomalies nfkc now (eventsOf agent m) agent (mergedConfig (anomalyConfig m)) None) agent m) as H.
  destruct (suppressIfSubagentsRunning _ _ _ _ _) as [m' a]. exact H.
Qed.

Lemma coreq_current now agent m : coreq (getCurrentAnomaly now agent m).1 = coreq m.
Proof.
  unfold Mon.getCurrentAnomaly. pose proof (coreq_event now agent m) as H.
  destruct (Mon.getEventAnomaly _ _ _ _ _ _) as [m' a]. exact H.
Qed.

Lemma core_progress now agent m :
  core (recordProviderProgress nfkc taskIdFor contextEnabled lastAssistantMessage now agent m) = core m.
Proof.
  unfold recordProviderProgress. destruct (isStopped _ _); [done|].
  pose proof (coreq_event now agent m) as H%coreq_core. destruct (Mon.getEventAnomaly _ _ _ _ _ _) as [m' a]. cbn [fst] in H.
  rewrite <- H. cases.
Qed.

Lemma core_purge agent pane m : core (purgeSystemicHookStallSiblings agent pane m) = core m.
Proof.
  unfold purgeSystemicHookStallSiblings. generalize (Queue.inspectActive (attentionQueue m)). intros l. revert m.
  induction l as [|[b a] l IH]; intros m; [done|]. cbn [fold_left]. rewrite IH. unfold purgeOne. cases.
Qed.

Lemma core_swallow now agent raw pane m :
  core (swallowVerdict nfkc taskIdFor contextEnabled lastAssistantMessage now agent raw pane m) = core m.
Proof.
  unfold swallowVerdict. change (core m) with (core (stat (recordSuppression (type raw) subagent_running) m)).
  generalize (stat (recordSuppression (type raw) subagent_running) m). intros n.
  destruct (peek _ _ _ _) as [q|]; [|done]. destruct (WATCHDOG_OWNED_TYPES (type q)); [|done].
  pose proof (coreq_event now agent n) as H%coreq_core. destruct (Mon.getEventAnomaly _ _ _ _ _ _) as [n' a]. cbn [fst] in H.
  rewrite <- H. by destruct (isSome a).
Qed.

Lemma core_queueVerdict now agent a pane m : core (queueVerdict taskIdFor now agent a pane m).1 = core m.
Proof.
  unfold queueVerdict. destruct (orElse _ _); [done|]. destruct (bumpWatchdogStreak _ _ _) as [n c] eqn:E.
  assert (Hn : core n = core m) by (unfold bumpWatchdogStreak in E; by simplify_eq).
  destruct (_ && _); [done|]. destruct (HookStall.shouldSuppress _ _ _) as [t b]. rewrite <- Hn.
  destruct b; cbn [fst]; [unfold suppressSystemic; by rewrite core_purge|]. cases.
Qed.

Lemma core_verdict now agent v ok pane m : core (applyWatchdogVerdict now agent v ok pane m).1 = core m.
Proof.
  unfold Mon.applyWatchdogVerdict. destruct (actionable v) as [va|].
  - generalize (orElse (withTranscriptContext contextEnabled lastAssistantMessage (Some va) agent m) va). intros raw. cbn zeta.
    set (n := if bool_decide _ then _ else _). assert (Hn : core n = core m) by (subst n; by case_bool_decide).
    rewrite <- Hn. clearbody n. pose proof (coreq_suppress true now (Some raw) agent n) as H%coreq_core.
    destruct (suppressIfSubagentsRunning _ _ _ _ _) as [n1 [a|]]; cbn [fst] in *; [|by rewrite core_swallow].
    rewrite <- H. pose proof (coreq_event now agent n1) as H1%coreq_core.
    destruct (Mon.getEventAnomaly _ _ _ _ _ _) as [n2 [e|]]; cbn [fst] in *; [by rewrite <- H1|].
    by rewrite core_queueVerdict.
  - destruct ok; [|done]. cbn [negb]. destruct (peek _ _ _ _); [|done].
    set (n := {| agentEvents := _ |}). change (core m) with (core n).
    pose proof (coreq_event now agent n) as H%coreq_core. clearbody n.
    destruct (Mon.getEventAnomaly _ _ _ _ _ _) as [n' e]. cbn [fst] in H. rewrite <- H. cases.
Qed.

Lemma core_turnState now agent events m :
  coreq (deriveTurnStateForSnapshot sha256hex taskIdFor now agent events m).1 = coreq m.
Proof.
  unfold deriveTurnStateForSnapshot. pose proof (coreq_evict now agent m) as H.
  destruct (evictStaleSubagents _ _ _) as [n k]. cbn [fst] in H. rewrite <- H. cases.
Qed.

Lemma coreq_build now agent events m :
  coreq (buildAgentState nfkc sha256hex taskIdFor contextEnabled lastAssistantMessage now agent events m).1 = coreq m.
Proof.
  unfold buildAgentState. pose proof (core_turnState now agent events m) as H.
  destruct (deriveTurnStateForSnapshot _ _ _ _ _ _) as [n k]. cbn [fst] in H. rewrite <- H.
  pose proof (coreq_current now agent n) as H1. destruct (Mon.getCurrentAnomaly _ _ _ _ _ _ _) as [n1 a]. exact H1.
Qed.

(** The reading methods: they change no window, no queue, no streak. *)
Definition reading (o : op) : bool :=
  match o with OSnapshot _ | OAgentState _ _ | OTurnState _ _ | OCurrent _ _ | OSample _ _ _ | OBlocked _ => true | _ => false end.

Lemma coreq_reading m o : reading o = true → coreq (exec m o) = coreq m.
Proof.
  destruct o; try done; intros _; cbn [Mon.exec].
  - apply (fold_pair (λ m m', coreq m' = coreq m)); [done|congruence|].
    intros n acc [a evs]. cbn [fst snd]. pose proof (coreq_build now a evs n) as H.
    by destruct (buildAgentState _ _ _ _ _ _ _ _ _).
  - unfold getAgentState. destruct (mget _ _) as [evs|]; [|done].
    pose proof (coreq_build now agent evs m) as H. by destruct (buildAgentState _ _ _ _ _ _ _ _ _).
  - unfold getLiveTurnState. destruct (mget _ _) as [evs|]; [|done].
    pose proof (core_turnState now agent evs m) as H. by destruct (deriveTurnStateForSnapshot _ _ _ _ _ _).
  - apply coreq_current.
  - unfold sampleFindingEvidence. pose proof (coreq_current now agent m) as H. by destruct (Mon.getCurrentAnomaly _ _ _ _ _ _ _).
  - apply (fold_pair (λ m m', coreq m' = coreq m)); [done|congruence|].
    intros n acc a. unfold blockedStep. destruct (isStopped a n); [done|]. unfold isPermissionBlocked.
    pose proof (coreq_current now a n) as H. by destruct (Mon.getCurrentAnomaly _ _ _ _ _ _ _).
Qed.

(** ** Windows *)

Lemma imap_length {A B} (f : nat → A → B) l : length (imap f l) = length l.
Proof. apply length_imap. Qed.

Definition numbered (n : Z) (l : list AgentEvent) : Prop :=
  ∀ i e, l !! i = Some e → ev_eventSeq e = Some (n - Z.of_nat (length l) + Z.of_nat i + 1).

Lemma numbered_nil n : numbered n [].
Proof. intros i e He. by rewrite lookup_nil in He. Qed.

Record windows_ok (m : monitor) : Prop := {
  wo_size : ∀ a l, mget a (agentEvents m) = Some l → Z.of_nat (length l) = Z.min (windowSize m) (countOf a m);
  wo_numbered : ∀ a l, mget a (agentEvents m) = Some l → numbered (countOf a m) l;
  wo_count : ∀ a, mget a (agentEvents m) = None → mget a (eventCounts m) = None;
  wo_nonneg : ∀ a, 0 ≤ countOf a m;
  wo_stopped : ∀ a, isStopped a m = true → mget a (agentEvents m) = None;
  wo_tombstones : (msize (stoppedAgents m) ≤ MONITOR_STOPPED_AGENTS_MAX)%nat;
  wo_window : 0 ≤ windowSize m
}.


Definition appended (agent : string) (events : list AgentEvent) (m : monitor) : list AgentEvent :=
  capWindow (windowSize m) (eventsOf agent m ++ sequenced (countOf agent m) events).

Lemma coreq_append now agent events m :
  coreq (appendEvents now agent events m) =
  ((mset agent (appended agent events m) (agentEvents m), stoppedAgents m,
    mset agent (countOf agent m + Z.of_nat (length events)) (eventCounts m), windowSize m, agentFirstUnownedDeadAt m),
   attentionQueue m, watchdogVerdictStreak m).
Proof.
  unfold appendEvents. cbn zeta. rewrite (fold_coreq _ _ (λ m e, coreq_tracking now agent m e)).
  by rewrite (fold_coreq _ _ (λ m e, coreq_transcript agent m e)).
Qed.

(** What [processEvents] does after the window is known: the finding it reaches, and the
    queue. *)
Definition outcome (now : Z) (agent : string) (eventId : option string) (m : monitor) : monitor * option Anomaly :=
  let '(raw, _) := evaluateAnomalies nfkc now (eventsOf agent m) agent (mergedConfig (anomalyConfig m)) None in
  let '(m, a) := suppressIfSubagentsRunning false now raw agent m in
  stabilizeEventAnomaly agent (withTranscriptContext contextEnabled lastAssistantMessage a agent m) eventId m.

Lemma process_coreq now agent events i m :
  isStopped agent m = false →
  let m1 := appendEvents now agent events m in
  let r := (outcome now agent i m1).2 in
  coreq (processEvents now agent events i m) =
  (core m1, match r with
            | Some x => Queue.enqueue taskIdFor now now agent x (attentionQueue m)
            | None => Queue.remove agent (attentionQueue m)
            end, watchdogVerdictStreak m).
Proof.
  intros Hs m1. unfold Mon.processEvents, outcome. rewrite Hs. fold m1.
  assert (H1 : attentionQueue m1 = attentionQueue m ∧ watchdogVerdictStreak m1 = watchdogVerdictStreak m).
  { pose proof (coreq_append now agent events m) as E. fold m1 in E. unfold coreq in E. by simplify_eq/=. }
  destruct (evaluateAnomalies _ _ _ _ _ _) as [raw checked].
  pose proof (coreq_suppress false now raw agent m1) as E2. destruct (suppressIfSubagentsRunning _ _ _ _ _) as [m2 a]. cbn [fst] in E2.
  generalize (withTranscriptContext contextEnabled lastAssistantMessage a agent m2). intros c.
  pose proof (coreq_stabilize agent c i m2) as E3. destruct (stabilizeEventAnomaly _ _ _ _) as [m3 x]. cbn [fst snd] in *.
  pose proof (coreq_telemetry agent checked x m3) as E4. set (m4 := recordDetectionTelemetry _ _ _ _) in *. clearbody m4.
  set (m5 := if _ && _ then _ else _). assert (E5 : coreq m5 = coreq m4) by (subst m5; by destruct (_ && _)). clearbody m5.
  assert (E : coreq m5 = coreq m1) by congruence. clear E2 E3 E4 E5. unfold coreq, core in *. destruct H1 as [<- <-].
  destruct x; cbn; injection E; intros; f_equal; congruence.
Qed.

Lemma capWindow_length w l : 0 ≤ w → Z.of_nat (length (capWindow w l)) = Z.min w (Z.of_nat (length l)).
Proof. intros Hw. unfold capWindow. case_if; zbool; rewrite ?length_drop; lia. Qed.

Lemma numbered_capWindow n w l : numbered n l → numbered n (capWindow w l).
Proof.
  intros H. unfold capWindow. destruct (Z.ltb_spec w (Z.of_nat (length l))); [|done].
  intros i e He. rewrite lookup_drop in He. pose proof (lookup_lt_Some _ _ _ He). rewrite (H _ _ He), length_drop. f_equal. lia.
Qed.

Lemma numbered_app n l evs : numbered n l → numbered (n + Z.of_nat (length evs)) (l ++ sequenced n evs).
Proof.
  intros H i e He. unfold sequenced in *. rewrite length_app, length_imap.
  apply lookup_app_Some in He as [He|[Hi He]]; [rewrite (H _ _ He); f_equal; lia|].
  rewrite list_lookup_imap in He. destruct (evs !! (i - length l)%nat) as [x|]; [|done]. simpl in He. simplify_eq. simpl.
  f_equal. lia.
Qed.

(** The core of a state is that of the window, count and tombstone maps alone. *)
Lemma windows_append now agent events m :
  isStopped agent m = false → windows_ok m → windows_ok (appendEvents now agent events m).
Proof.
  intros Hs [A B C D E F G]. pose proof (coreq_append now agent events m) as Hq.
  revert Hq. generalize (appendEvents now agent events m). intros n Hq. unfold coreq, core in Hq. injection Hq as E1 E2 E3 E4 E5 _ _.
  assert (Hc : ∀ b, countOf b n = if decide (b = agent) then countOf agent m + Z.of_nat (length events) else countOf b m).
  { intros b. unfold countOf. rewrite E3, mget_mset. by case_decide. }
  assert (Ha : ∀ b, mget b (agentEvents n) = if decide (b = agent) then Some (appended agent events m) else mget b (agentEvents m)).
  { intros b. rewrite E1, mget_mset. by case_decide. }
  assert (Hn : numbered (countOf agent m) (eventsOf agent m) ∧ Z.of_nat (length (eventsOf agent m)) = Z.min (windowSize m) (countOf agent m)).
  { unfold eventsOf. destruct (mget agent (agentEvents m)) as [l|] eqn:El; simpl; [eauto|].
    split; [apply numbered_nil|]. unfold countOf. rewrite (C _ El). simpl. lia. }
  pose proof (D agent) as Hd. constructor; unfold isStopped; rewrite ?E2, ?E4; [..|done|done].
  - intros b l. rewrite Ha, Hc. case_decide; [intros [= <-]; subst|apply A].
    unfold appended. rewrite capWindow_length, length_app by done. unfold sequenced. rewrite length_imap. lia.
  - intros b l. rewrite Ha, Hc. case_decide; [intros [= <-]; subst|apply B]. apply numbered_capWindow, numbered_app, Hn.
  - intros b. rewrite Ha, E3. case_decide; [done|]. intros Hb. rewrite mget_mset_ne by done. auto.
  - intros b. rewrite Hc. specialize (D b). case_decide; lia.
  - intros b Hb. rewrite Ha. case_decide; [subst; unfold isStopped in Hs; congruence|]. by apply E.
Qed.

Lemma mhas_evictOver {V} n k (m : jmap string V) : mhas k (evictOver n m) = true → mhas k m = true.
Proof.
  unfold mhas, isSome, evictOver. destruct (mget k (drop (msize m - n) m)) as [v|] eqn:Ev; [|done]. intros _.
  assert (Hk : k ∈ mkeys m).
  { apply mget_elem_of, (list_elem_of_fmap_2 fst) in Ev. unfold mkeys. rewrite <- (take_drop (msize m - n) m).
    rewrite fmap_app, elem_of_app. by right. }
  apply elem_of_mkeys in Hk as [w ->]. done.
Qed.

Lemma msize_evictOver {V} n (m : jmap string V) : (msize (evictOver n m) ≤ n)%nat.
Proof. unfold evictOver, msize. rewrite length_drop. lia. Qed.

Lemma coreq_unregister agent m :
  coreq (unregisterAgent agent m) =
  ((mdel agent (agentEvents m), evictOver MONITOR_STOPPED_AGENTS_MAX (mset agent tt (stoppedAgents m)),
    mdel agent (eventCounts m), windowSize m, mdel agent (agentFirstUnownedDeadAt m)),
   Queue.purge agent (attentionQueue m), mdel agent (watchdogVerdictStreak m)).
Proof.
  unfold unregisterAgent, addStoppedAgent. cbn zeta.
  set (n := onQueue _ _). pose proof (coreq_flush agent n) as H. set (f := flushAndDeleteSubagents agent n) in *. clearbody f.
  unfold coreq, core in H |- *. cbn. injection H as -> -> -> -> -> -> ->. done.
Qed.

Lemma windows_unregister agent m : windows_ok m → windows_ok (unregisterAgent agent m).
Proof.
  intros [A B C D E F G]. pose proof (coreq_unregister agent m) as Hq.
  revert Hq. generalize (unregisterAgent agent m). intros n Hq. unfold coreq, core in Hq. injection Hq as E1 E2 E3 E4 _ _ _.
  assert (Hc : ∀ b, b ≠ agent → countOf b n = countOf b m) by (intros b Hb; unfold countOf; by rewrite E3, mget_mdel_ne).
  constructor; rewrite ?E4; try done.
  - intros b l. rewrite E1, mget_mdel. case_decide; [done|]. intros Hl. rewrite Hc by done. eauto.
  - intros b l. rewrite E1, mget_mdel. case_decide; [done|]. intros Hl. rewrite Hc by done. eauto.
  - intros b. rewrite E1, E3, !mget_mdel. case_decide; [done|]. auto.
  - intros b. destruct (decide (b = agent)) as [->|]; [unfold countOf; by rewrite E3, mget_mdel_eq|]. by rewrite Hc.
  - intros b. unfold isStopped. rewrite E1, E2, mget_mdel. case_decide as Hd; [done|].
    intros Hb%mhas_evictOver. apply E. unfold isStopped, mhas in *. by rewrite mget_mset_ne in Hb.
  - rewrite E2. apply msize_evictOver.
Qed.

Lemma windows_register agent m : windows_ok m → windows_ok (registerAgent agent m).
Proof.
  intros [A B C D E F G]. unfold registerAgent. destruct (mget agent (agentEvents m)) as [l0|] eqn:El;
    unfold mhas at 1; rewrite El; cbn [isSome]; constructor; try done; cbn [agentEvents eventCounts windowSize stoppedAgents]; unfold countOf in *; cbn [eventCounts].
  - intros b. unfold isStopped, mhas. cbn. rewrite mget_mdel. case_decide; [done|]. apply E.
  - etrans; [apply msize_mdel_le|done].
  - intros b l. rewrite mget_mset. case_decide; [|apply A]. intros [= <-]. subst. rewrite (C _ El). simpl. lia.
  - intros b l. rewrite mget_mset. case_decide; [|apply B]. intros [= <-]. apply numbered_nil.
  - intros b. rewrite mget_mset. case_decide; [done|]. apply C.
  - intros b. unfold isStopped, mhas. cbn. rewrite mget_mdel, mget_mset. case_decide; [done|]. apply E.
  - etrans; [apply msize_mdel_le|done].
Qed.

(** The windows, counts and tombstones. *)
Definition wcore (m : monitor) := (agentEvents m, stoppedAgents m, eventCounts m, windowSize m).

Lemma core_wcore m m' : core m' = core m → wcore m' = wcore m.
Proof. unfold core, wcore. congruence. Qed.

Lemma windows_wcore m m' : wcore m' = wcore m → windows_ok m → windows_ok m'.
Proof.
  unfold wcore. intros [= E1 E2 E3 E4] [A B C D E F G].
  assert (Hc : ∀ a, countOf a m' = countOf a m) by (intros; unfold countOf; by rewrite E3).
  constructor; unfold isStopped; try setoid_rewrite Hc; rewrite ?E1, ?E2, ?E3, ?E4; done.
Qed.

(** An invariant of the core is kept by every operation once it is kept by new events, by a
    registration, by a removal and by the sweep of the unowned. *)
Lemma exec_core (P : monitor → Prop) :
  (∀ m m', core m' = core m → P m → P m') →
  (∀ now a evs m, isStopped a m = false → P m → P (appendEvents now a evs m)) →
  (∀ a m, P m → P (unregisterAgent a m)) → (∀ a m, P m → P (registerAgent a m)) →
  ∀ o m, (∀ tasks live g now, o = OUnowned tasks live g now → P m → P (exec m o)) → P m → P (exec m o).
Proof.
  intros Hw Ha Hu Hr o m Ho Hm.
  assert (Hp : ∀ now a evs i m, P m → P (processEvents now a evs i m)).
  { intros now a evs i n Hn. destruct (isStopped a n) eqn:Es; [unfold Mon.processEvents; by rewrite Es|].
    apply (Hw (appendEvents now a evs n)); [|by apply Ha].
    pose proof (process_coreq now a evs i n Es) as H. unfold coreq at 1 in H. cbn zeta in H. congruence. }
  destruct (reading o) eqn:Er; [eapply Hw; [|exact Hm]; by apply coreq_core, coreq_reading|].
  destruct o; try done; cbn [Mon.exec].
  - by apply Hp.
  - eapply Hw; [|exact Hm]. apply core_verdict.
  - eapply Hw; [|exact Hm]. apply core_progress.
  - unfold markInputReceived. destruct (isStopped agent m); [done|]. destruct (mget _ _) as [evs|]; [|done].
    destruct (last evs) as [e|]; [|done]. pose proof (coreq_current now agent m) as H%coreq_core.
    destruct (Mon.getCurrentAnomaly _ _ _ _ _ _ _) as [n a]. cbn [fst] in H. apply (Hw _ _ H) in Hm.
    destruct (negb _); [done|]. by apply Hp.
  - by apply Hr.
  - by apply Hu.
  - revert Hm. apply (fold_pair (λ m m', P m → P m')); [done|auto|]. intros n k a. unfold agedStep.
    destruct (bool_decide _); [done|]. destruct (mget _ _); [|done]. destruct (Store.isAgedTerminalTask _ _); [apply Hu|done].
  - by eapply Ho.
  - by apply (Hw m).
  - by apply (Hw m).
  - by apply (Hw m).
Qed.

(** The same for the windows, counts and tombstones, which the sweep changes by removals only. *)
Lemma exec_invariant (P : monitor → Prop) :
  (∀ m m', wcore m' = wcore m → P m → P m') →
  (∀ now a evs m, isStopped a m = false → P m → P (appendEvents now a evs m)) →
  (∀ a m, P m → P (unregisterAgent a m)) → (∀ a m, P m → P (registerAgent a m)) →
  ∀ o m, P m → P (exec m o).
Proof.
  intros Hw Ha Hu Hr o m. apply exec_core; [intros; eapply Hw; [by apply core_wcore|done]|done..|].
  intros tasks live g now ->. cbn [Mon.exec].
  apply (fold_pair (λ m m', P m → P m')); [done|auto|]. intros n k a Hn. unfold unownedStep.
  destruct (negb _); [by apply (Hw n)|]. cbn zeta. set (n1 := if mhas _ _ then _ else _).
  assert (P n1) by (subst n1; destruct (mhas _ _); [done|by apply (Hw n)]). destruct (_ <=? _); [by apply Hu|done].
Qed.


(** ** The queue and the findings of the events *)

(** A subagent of the agent started within the time the suppression lasts. *)
Definition working (now : Z) (agent : string) (m : monitor) : Prop :=
  ∃ p, p ∈ orElse (mget agent (outstandingSubagents m)) [] ∧ now - p.2 ≤ Subagents.SUBAGENT_TTL_MS.

Lemma suppressIfRunning_spec now a agent t :
  (Subagents.suppressIfRunning now a agent t).2.1 =
  match a with
  | Some x =>
      if Subagents.SUBAGENT_SUPPRESSIBLE_TYPES (type x)
         && Nat.ltb 0 (countb (Subagents.fresh now) (orElse (mget agent t) []))
      then None else a
  | None => None
  end.
Proof.
  unfold Subagents.suppressIfRunning. destruct a as [x|]; [|done].
  destruct (Subagents.SUBAGENT_SUPPRESSIBLE_TYPES (type x)); [|done]. cbn [andb].
  unfold Subagents.evictStale, countb. by destruct (mget agent t).
Qed.

Lemma working_count now agent m :
  Nat.ltb 0 (countb (Subagents.fresh now) (orElse (mget agent (outstandingSubagents m)) [])) = true ↔ working now agent m.
Proof.
  rewrite Nat.ltb_lt. unfold working. generalize (orElse (mget agent (outstandingSubagents m)) []). intros l. split.
  - induction l as [|p l IH]; [rewrite countb_nil; lia|]. rewrite countb_cons. destruct (Subagents.fresh now p) eqn:E.
    + intros _. exists p. split; [by left|]. unfold Subagents.fresh in E. zbool. done.
    + intros H. destruct (IH H) as (x & ? & ?). exists x. split; [by right|done].
  - intros (p & Hp & Ht). induction Hp as [p l|p y l Hp IH]; rewrite countb_cons.
    + unfold Subagents.fresh. destruct (Z.ltb_spec Subagents.SUBAGENT_TTL_MS (now - p.2)); simpl; lia.
    + specialize (IH Ht). lia.
Qed.

Lemma withTranscript_None a agent m :
  withTranscriptContext contextEnabled lastAssistantMessage a agent m = None ↔ a = None.
Proof. unfold withTranscriptContext. destruct a; [|done]. cases. Qed.

(** The finding of an agent's events is withheld only while a subagent of it that started
    less than half an hour ago has not stopped, and only if it is an input request or an
    alarm of silence; whatever else the detector finds is given. *)
Theorem withheld_exact now agent m :
  (getEventAnomaly now agent m).2 = None ↔
  match detectAnomalies nfkc now (eventsOf agent m) agent (mergedConfig (anomalyConfig m)) None with
  | None => True
  | Some a => Subagents.SUBAGENT_SUPPRESSIBLE_TYPES (type a) = true ∧ working now agent m
  end.
Proof.
  unfold Mon.getEventAnomaly, suppressIfSubagentsRunning.
  set (raw := detectAnomalies _ _ _ _ _ _). clearbody raw.
  pose proof (suppressIfRunning_spec now raw agent (outstandingSubagents m)) as H.
  destruct (Subagents.suppressIfRunning _ _ _ _) as [t [a r]]. cbn [fst snd] in *. rewrite fmap_None, withTranscript_None, H.
  destruct raw as [x|]; [|done]. rewrite <- working_count.
  destruct (Subagents.SUBAGENT_SUPPRESSIBLE_TYPES (type x)), (Nat.ltb _ _); naive_solver.
Qed.

(** What the finding of the events depends on. *)
Definition view (m : monitor) :=
  (agentEvents m, anomalyConfig m, outstandingSubagents m, agentTranscriptPaths m, lastEventAnomaly m).

Lemma view_event now agent m m' :
  view m' = view m → (getEventAnomaly now agent m').2 = (getEventAnomaly now agent m).2.
Proof.
  unfold view, Mon.getEventAnomaly, eventsOf, suppressIfSubagentsRunning. intros [= E1 E2 E3 E4 E5]. rewrite E1, E2, E3.
  destruct (Subagents.suppressIfRunning _ _ _ _) as [t [a r]]. cbn [snd].
  unfold evictionTelemetry, withTranscriptContext, withStableEventDetectedAt.
  destruct (Nat.ltb _ _); cbn; by rewrite E4, E5.
Qed.

Lemma view_telemetry agent c a m : view (recordDetectionTelemetry agent c a m) = view m.
Proof. unfold recordDetectionTelemetry. cases. Qed.

Lemma view_eviction mark agent n m : view (evictionTelemetry mark agent n m) = view m.
Proof. unfold evictionTelemetry. cases. Qed.

Lemma view_process now agent events i m :
  isStopped agent m = false →
  view (processEvents now agent events i m) = view (outcome now agent i (appendEvents now agent events m)).1.
Proof.
  intros Hs. unfold Mon.processEvents, outcome. rewrite Hs. set (m1 := appendEvents _ _ _ _). clearbody m1.
  destruct (evaluateAnomalies _ _ _ _ _ _) as [raw checked]. destruct (suppressIfSubagentsRunning _ _ _ _ _) as [m2 a].
  destruct (stabilizeEventAnomaly _ _ _ _) as [m3 x]. cbn [fst]. rewrite <- (view_telemetry agent checked x m3).
  generalize (recordDetectionTelemetry agent checked x m3). intros m4. destruct (_ && _), x; done.
Qed.

Lemma evict_twice now agent t :
  let t' := (Subagents.evictStale now agent t).1 in
  Subagents.remaining (Subagents.evictStale now agent t').2 = Subagents.remaining (Subagents.evictStale now agent t).2.
Proof.
  unfold Subagents.evictStale. destruct (mget agent t) as [s|] eqn:E; cbn; [|by rewrite E].
  rewrite mget_mset_eq. cbn. rewrite filter_filter. unfold msize. f_equal. apply List.filter_ext. intros p. by destruct (Subagents.fresh _ _).
Qed.

Lemma suppress_twice now a agent t :
  (Subagents.suppressIfRunning now a agent (Subagents.suppressIfRunning now a agent t).1).2.1 =
  (Subagents.suppressIfRunning now a agent t).2.1.
Proof.
  unfold Subagents.suppressIfRunning. destruct a as [x|]; [|done].
  destruct (Subagents.SUBAGENT_SUPPRESSIBLE_TYPES (type x)); [|done].
  pose proof (evict_twice now agent t) as H. cbn zeta in H.
  destruct (Subagents.evictStale now agent t) as [t' r]. cbn [fst snd] in *.
  destruct (Subagents.evictStale now agent t') as [t'' r']. cbn [fst snd] in *. by rewrite H.
Qed.

Definition sameFinding (x y : Anomaly) : Prop := anomalyFingerprint x = anomalyFingerprint y.

Lemma stable_same agent m a : sameFinding (withStableEventDetectedAt agent m a) a.
Proof. unfold withStableEventDetectedAt. destruct (mget _ _); [|done]. by destruct (negb _). Qed.

Lemma transcript_same agent m a b :
  withTranscriptContext contextEnabled lastAssistantMessage (Some a) agent m = Some b → sameFinding b a.
Proof. unfold withTranscriptContext. intros H. repeat case_match; by simplify_eq/=. Qed.

Lemma event_form now agent m :
  (getEventAnomaly now agent m).2 =
  withStableEventDetectedAt agent m <$>
    withTranscriptContext contextEnabled lastAssistantMessage
      (Subagents.suppressIfRunning now
         (detectAnomalies nfkc now (eventsOf agent m) agent (mergedConfig (anomalyConfig m)) None)
         agent (outstandingSubagents m)).2.1 agent m.
Proof.
  unfold Mon.getEventAnomaly, suppressIfSubagentsRunning. destruct (Subagents.suppressIfRunning _ _ _ _) as [t [a r]]. cbn [fst snd].
  unfold evictionTelemetry, withTranscriptContext, withStableEventDetectedAt. by destruct (Nat.ltb _ _).
Qed.

Lemma transcript_paths a agent m m' :
  agentTranscriptPaths m' = agentTranscriptPaths m →
  withTranscriptContext contextEnabled lastAssistantMessage a agent m' =
  withTranscriptContext contextEnabled lastAssistantMessage a agent m.
Proof. intros E. unfold withTranscriptContext. by rewrite E. Qed.

Lemma stabilize_spec agent c i m :
  let r := stabilizeEventAnomaly agent c i m in
  agentEvents r.1 = agentEvents m ∧ anomalyConfig r.1 = anomalyConfig m ∧
  outstandingSubagents r.1 = outstandingSubagents m ∧ agentTranscriptPaths r.1 = agentTranscriptPaths m ∧
  mget agent (lastEventAnomaly r.1) = r.2 ∧
  match r.2, c with Some x, Some y => sameFinding x y | None, None => True | _, _ => False end.
Proof.
  unfold stabilizeEventAnomaly. destruct c as [x|]; cbn; split_and!; try done; [apply mget_mset_eq| |apply mget_mdel_eq].
  etrans; [apply stable_same|]. by destruct i.
Qed.

(** The finding reached by [processEvents] is the one read afterwards. *)
Lemma outcome_event now agent i m :
  let r := outcome now agent i m in
  match r.2, (getEventAnomaly now agent r.1).2 with
  | Some x, Some y => sameFinding x y
  | None, None => True
  | _, _ => False
  end.
Proof.
  cbn zeta. rewrite event_form. unfold outcome, detectAnomalies. destruct (evaluateAnomalies _ _ _ _ _ _) as [raw checked] eqn:Ee.
  unfold suppressIfSubagentsRunning at 1. pose proof (suppress_twice now raw agent (outstandingSubagents m)) as Ht.
  unfold suppressIfSubagentsRunning.
  destruct (Subagents.suppressIfRunning now raw agent (outstandingSubagents m)) as [t [a r]] eqn:Es. cbn [fst snd] in Ht.
  set (m2 := evictionTelemetry _ _ _ _).
  assert (Hv : view m2 = (agentEvents m, anomalyConfig m, t, agentTranscriptPaths m, lastEventAnomaly m))
    by (subst m2; by rewrite view_eviction).
  clearbody m2. unfold view in Hv. injection Hv as E1 E2 E3 E4 E5.
  pose proof (stabilize_spec agent (withTranscriptContext contextEnabled lastAssistantMessage a agent m2) i m2) as H.
  cbn zeta in H. destruct (stabilizeEventAnomaly _ _ _ _) as [m3 x]. cbn [fst snd] in *.
  destruct H as (F1 & F2 & F3 & F4 & F5 & F6). unfold eventsOf in *. rewrite F1, F2, F3, E1, E2, E3, Ee. cbn [fst]. rewrite Ht.
  rewrite (transcript_paths a agent m2 m3 F4).
  destruct x as [x|], (withTranscriptContext _ _ _ _ _) as [y|]; try done. cbn [fmap option_fmap option_map].
  unfold withStableEventDetectedAt. rewrite F5. unfold sameFinding in *. rewrite F6, String.eqb_refl. done.
Qed.

(** The queue shows a finding of the agent, or a snooze in force hides it. *)
Definition reported (now : Z) (agent : string) (a : Anomaly) (q : Queue.queue) : Prop :=
  (∃ e, mget agent (Queue.entries q) = Some e ∧ sameFinding (Queue.qe_anomaly e) a) ∨
  (∃ s b, mget (Queue.snoozeKey taskIdFor agent) (Queue.snoozed q) = Some s ∧ now < Queue.se_expiresAt s ∧
          Queue.se_anomaly s = Some b ∧ sameFinding b a).

Lemma enqueue_reported now agent a q :
  let q' := Queue.enqueue taskIdFor now now agent a q in
  reported now agent a q' ∧ ∀ k, k ≠ agent → mget k (Queue.entries q') = mget k (Queue.entries q).
Proof.
  cbn zeta. destruct (Queue.enqueue_not_lost taskIdFor now now agent a q) as ([(e & He & Hs)|(s & Hk & Ht & Hs)] & Hf & _).
  - split; [|exact Hf]. left. exists e. split; [done|]. by apply String.eqb_eq.
  - split; [|exact Hf]. right. unfold hasSameFingerprint in Hs. destruct (Queue.se_anomaly s) as [b|] eqn:Eb; [|done].
    exists s, b. split_and!; [done..|]. by apply String.eqb_eq.
Qed.

Lemma remove_entries agent q : Queue.entries (Queue.remove agent q) = mdel agent (Queue.entries q).
Proof. unfold Queue.remove, Queue.rememberRemoved, Queue.notifyResolved. destruct (mget agent (Queue.entries q)); [|done]. cbn. repeat case_match; done. Qed.

(** C14: after each delivery of events of an agent that is not stopped, the queue is in step with
    the detector: it shows the finding the agent's events give, or a snooze in force hides it, and
    when they give none the agent has no entry; the entries of the other agents are untouched. *)
Theorem queue_in_step now agent events i m :
  isStopped agent m = false →
  let m' := processEvents now agent events i m in
  match (getEventAnomaly now agent m').2 with
  | Some a => reported now agent a (attentionQueue m')
  | None => mget agent (Queue.entries (attentionQueue m')) = None
  end ∧ ∀ k, k ≠ agent → mget k (Queue.entries (attentionQueue m')) = mget k (Queue.entries (attentionQueue m)).
Proof.
  intros Hs m'. pose proof (process_coreq now agent events i m Hs) as Hq. cbn zeta in Hq. fold m' in Hq.
  pose proof (outcome_event now agent i (appendEvents now agent events m)) as Ho. cbn zeta in Ho.
  rewrite (view_event now agent _ m' (view_process now agent events i m Hs)).
  apply (f_equal (λ c, c.1.2)) in Hq. change (attentionQueue m' = match (outcome now agent i (appendEvents now agent events m)).2 with
    | Some x => Queue.enqueue taskIdFor now now agent x (attentionQueue m)
    | None => Queue.remove agent (attentionQueue m) end) in Hq. rewrite Hq. clear Hq. destruct (outcome _ _ _ _) as [m1 r]. cbn [fst snd] in *.
  destruct r as [x|], (Mon.getEventAnomaly _ _ _ _ _ _).2 as [y|]; try done.
  - destruct (enqueue_reported now agent x (attentionQueue m)) as [Hr Hf]. split; [|exact Hf].
    unfold reported, sameFinding in *. destruct Hr as [(e & ? & E)|(s & b & ? & ? & ? & E)]; [left; exists e|right; exists s, b];
      split_and!; congruence.
  - rewrite remove_entries. split; [apply mget_mdel_eq|]. intros k Hk. by rewrite mget_mdel_ne.
Qed.

(** ** The grace of the unowned *)

Definition hasWindow (a : string) (m : monitor) : bool := mhas a (agentEvents m).
Definition firstDead (a : string) (m : monitor) : option Z := mget a (agentFirstUnownedDeadAt m).

(** The removal and the clock of one agent concern that agent alone. *)
Lemma unregister_at a b m :
  hasWindow a (unregisterAgent b m) = (if decide (a = b) then false else hasWindow a m) ∧
  firstDead a (unregisterAgent b m) = (if decide (a = b) then None else firstDead a m).
Proof.
  pose proof (coreq_unregister b m) as Hq. revert Hq. generalize (unregisterAgent b m). intros n Hq.
  unfold coreq, core in Hq. injection Hq as E1 _ _ _ E5 _ _. unfold hasWindow, firstDead, mhas. rewrite E1, E5, !mget_mdel.
  by case_decide.
Qed.

(** What the sweep makes of an agent that has a window and the clock [first]. *)
Definition sweptTo (tasks : list Task.Task) (live : list string) (g now : Z) (a : string) (first : option Z)
    (m : monitor) : Prop :=
  if sweepable tasks live a then
    if g <=? now - orElse first now then hasWindow a m = false ∧ firstDead a m = None
    else hasWindow a m = true ∧ firstDead a m = Some (orElse first now)
  else hasWindow a m = true ∧ firstDead a m = None.

Lemma unownedStep_other tasks live g now a b m k :
  a ≠ b → let m' := (unownedStep tasks live g now (m, k) b).1 in
  hasWindow a m' = hasWindow a m ∧ firstDead a m' = firstDead a m.
Proof.
  intros Hab. unfold unownedStep. destruct (negb _); cbn zeta.
  { cbn [fst]. split; [done|]. unfold firstDead. cbn. by rewrite mget_mdel_ne. }
  set (n := if mhas _ _ then _ else _).
  assert (Hn : hasWindow a n = hasWindow a m ∧ firstDead a n = firstDead a m).
  { subst n. destruct (mhas _ _); [done|]. split; [done|]. unfold firstDead. cbn. by rewrite mget_mset_ne. }
  destruct Hn as [<- <-]. destruct (_ <=? _); cbn [fst]; [|done].
  destruct (unregister_at a b n) as [-> ->]. by rewrite !decide_False.
Qed.

Lemma unownedStep_self tasks live g now a m k :
  hasWindow a m = true → sweptTo tasks live g now a (firstDead a m) (unownedStep tasks live g now (m, k) a).1.
Proof.
  intros Hw. unfold unownedStep, sweptTo. destruct (sweepable tasks live a); cbn [negb].
  2: { cbn [fst]. split; [done|]. apply mget_mdel_eq. }
  cbn zeta. fold (firstDead a m). set (n := if mhas _ _ then _ else _).
  assert (Hn : hasWindow a n = true ∧ firstDead a n = Some (orElse (firstDead a m) now)).
  { subst n. unfold mhas. fold (firstDead a m). destruct (firstDead a m) eqn:Ef; simpl; [done|].
    split; [done|]. apply mget_mset_eq. }
  destruct (_ <=? _); cbn [fst]; [|done]. destruct (unregister_at a a n) as [-> ->]. by rewrite !decide_True.
Qed.

Lemma sweptTo_step tasks live g now a b first m k :
  a ≠ b → sweptTo tasks live g now a first m → sweptTo tasks live g now a first (unownedStep tasks live g now (m, k) b).1.
Proof. intros Hab. unfold sweptTo. by destruct (unownedStep_other tasks live g now a b m k Hab) as [-> ->]. Qed.

Lemma swept_spec tasks live g now a m :
  mwf (agentEvents m) →
  let m' := (sweepUnownedDeadAgents tasks live g now m).1 in
  if hasWindow a m then sweptTo tasks live g now a (firstDead a m) m'
  else hasWindow a m' = false ∧ firstDead a m' = firstDead a m.
Proof.
  intros Hwf. cbn zeta. unfold sweepUnownedDeadAgents.
  assert (Hin : if hasWindow a m then a ∈ mkeys (agentEvents m) else a ∉ mkeys (agentEvents m)).
  { unfold hasWindow, mhas. destruct (mget a (agentEvents m)) as [l|] eqn:E; simpl; [apply elem_of_mkeys; by eexists|by apply not_elem_of_mkeys]. }
  unfold mwf in Hwf. revert Hwf Hin. generalize (mkeys (agentEvents m)) as ks. intros ks.
  assert (Hrest : ∀ ks n k, a ∉ ks → sweptTo tasks live g now a (firstDead a m) n →
    sweptTo tasks live g now a (firstDead a m) (fold_left (unownedStep tasks live g now) ks (n, k)).1).
  { clear ks. induction ks as [|b ks IH]; intros n k Hn H; [done|]. cbn [fold_left].
    apply not_elem_of_cons in Hn as [Hab Hn].
    pose proof (sweptTo_step tasks live g now a b _ n k Hab H). destruct (unownedStep _ _ _ _ _ _) as [n' k']. by apply IH. }
  assert (Hgo : ∀ n k, hasWindow a n = hasWindow a m → firstDead a n = firstDead a m → NoDup ks →
    (if hasWindow a m then a ∈ ks else a ∉ ks) →
    let n' := (fold_left (unownedStep tasks live g now) ks (n, k)).1 in
    if hasWindow a m then sweptTo tasks live g now a (firstDead a m) n'
    else hasWindow a n' = false ∧ firstDead a n' = firstDead a m).
  { induction ks as [|b ks IH]; intros n k Hw Hf Hnd Hin; cbn [fold_left].
    - destruct (hasWindow a m); [by apply not_elem_of_nil in Hin|done].
    - apply NoDup_cons in Hnd as [Hb Hnd]. destruct (decide (a = b)) as [<-|Hab].
      + destruct (hasWindow a m) eqn:Ew; [|set_solver].
        pose proof (unownedStep_self tasks live g now a n k Hw) as H. rewrite Hf in H.
        destruct (unownedStep _ _ _ _ _ _) as [n' k']. by apply Hrest.
      + destruct (unownedStep_other tasks live g now a b n k Hab) as [H1 H2].
        destruct (unownedStep _ _ _ _ _ _) as [n' k']. cbn [fst] in *. apply IH; [congruence..|done|].
        destruct (hasWindow a m); set_solver. }
  intros Hnd Hin. by apply Hgo.
Qed.

(** A sweep of the history that found the agent unowned and dead. *)
Definition foundDead (a : string) (o : op) : Prop :=
  match o with OUnowned tasks live _ _ => sweepable tasks live a = true | _ => True end.

Definition deadSince (a : string) (t : Z) (ops : list op) : Prop :=
  ∃ p1 tasks live g p2, ops = p1 ++ OUnowned tasks live g t :: p2 ∧ sweepable tasks live a = true ∧ Forall (foundDead a) p2.

(** The clock of an agent started at such a sweep, and none since found it owned or alive. *)
Definition clockSound (a : string) (ops : list op) (m : monitor) : Prop :=
  mwf (agentEvents m) ∧
  match firstDead a m with Some t => hasWindow a m = true ∧ deadSince a t ops | None => True end.

Lemma deadSince_snoc a t ops o : foundDead a o → deadSince a t ops → deadSince a t (ops ++ [o]).
Proof.
  intros Ho (p1 & tasks & live & g & p2 & -> & Hs & Hf). exists p1, tasks, live, g, (p2 ++ [o]).
  split_and!; [by rewrite <- app_assoc|done|]. apply Forall_app. by rewrite Forall_singleton.
Qed.

Lemma clockSound_core a ops m m' : core m' = core m → clockSound a ops m → clockSound a ops m'.
Proof. unfold core, clockSound, firstDead, hasWindow. by intros [= -> _ _ _ ->]. Qed.

Lemma mwf_sweep tasks live g now m :
  mwf (agentEvents m) → mwf (agentEvents (sweepUnownedDeadAgents tasks live g now m).1).
Proof.
  apply (fold_pair (λ m m', mwf (agentEvents m) → mwf (agentEvents m'))); [done|auto|]. intros n k b Hn.
  unfold unownedStep. destruct (negb _); [done|]. cbn zeta. set (n1 := if mhas _ _ then _ else _).
  assert (mwf (agentEvents n1)) by (subst n1; by destruct (mhas _ _)). destruct (_ <=? _); [|done]. cbn [fst].
  pose proof (coreq_unregister b n1) as Hq. unfold coreq, core in Hq. apply (f_equal (λ c, c.1.1.1.1.1.1)) in Hq.
  cbn [fst] in Hq. rewrite Hq. by apply mwf_mdel.
Qed.

Lemma clockSound_sweep a ops tasks live g now m :
  clockSound a ops m →
  clockSound a (ops ++ [OUnowned tasks live g now]) (sweepUnownedDeadAgents tasks live g now m).1.
Proof.
  intros [Hwf Hm]. pose proof (swept_spec tasks live g now a m Hwf) as H. pose proof (mwf_sweep tasks live g now m Hwf) as Hwf'.
  cbn zeta in H. destruct (sweepUnownedDeadAgents _ _ _ _ _) as [m' k]. cbn [fst] in *. split; [done|].
  destruct (hasWindow a m) eqn:Ew.
  2: { destruct H as [_ ->]. destruct (firstDead a m); [by destruct Hm|done]. }
  unfold sweptTo in H. destruct (sweepable tasks live a) eqn:Es; [|by destruct H as [_ ->]].
  destruct (g <=? _); [by destruct H as [_ ->]|]. destruct H as [-> ->]. split; [done|].
  destruct (firstDead a m) as [t|]; simpl.
  - destruct Hm as [_ Hd]. by apply deadSince_snoc.
  - exists ops, tasks, live, g, []. by split_and!.
Qed.

Lemma clockSound_append a ops now b evs m :
  clockSound a ops m → clockSound a ops (appendEvents now b evs m).
Proof.
  intros [Hwf Hm]. pose proof (coreq_append now b evs m) as Hq. revert Hq. generalize (appendEvents now b evs m). intros n Hq.
  unfold coreq, core in Hq. injection Hq as E1 _ _ _ E5 _ _. unfold clockSound, firstDead, hasWindow in *. rewrite E1, E5.
  split; [by apply mwf_mset|]. destruct (mget a (agentFirstUnownedDeadAt m)); [|done]. destruct Hm as [Hw Hd]. split; [|done].
  unfold mhas in *. rewrite mget_mset. by case_decide.
Qed.

Lemma clockSound_unregister a ops b m : clockSound a ops m → clockSound a ops (unregisterAgent b m).
Proof.
  intros [Hwf Hm]. unfold clockSound. destruct (unregister_at a b m) as [-> ->].
  pose proof (coreq_unregister b m) as Hq. unfold coreq, core in Hq. apply (f_equal (λ c, c.1.1.1.1.1.1)) in Hq. cbn [fst] in Hq.
  rewrite Hq. split; [by apply mwf_mdel|]. by case_decide.
Qed.

Lemma clockSound_register a ops b m : clockSound a ops m → clockSound a ops (registerAgent b m).
Proof.
  intros [Hwf Hm]. unfold registerAgent, clockSound, firstDead, hasWindow in *. cbn. destruct (mhas b (agentEvents m)); [done|].
  split; [by apply mwf_mset|]. destruct (mget a (agentFirstUnownedDeadAt m)); [|done]. destruct Hm as [Hw Hd]. split; [|done].
  unfold mhas in *. rewrite mget_mset. by case_decide.
Qed.

Lemma clockSound_snoc a ops o m : clockSound a ops m → clockSound a (ops ++ [o]) (exec m o).
Proof.
  intros Hm. assert (Hgen : (∀ tasks live g now, o ≠ OUnowned tasks live g now) → clockSound a (ops ++ [o]) (exec m o)).
  { intros Ho. apply (exec_core (clockSound a (ops ++ [o]))).
    - intros n n'. apply clockSound_core.
    - intros. by apply clockSound_append.
    - intros. by apply clockSound_unregister.
    - intros. by apply clockSound_register.
    - intros tasks live g now ->. by destruct (Ho tasks live g now).
    - destruct Hm as [Hwf Hm]. split; [done|]. destruct (firstDead a m); [|done]. destruct Hm. split; [done|].
      apply deadSince_snoc; [|done]. destruct o as [| | | | | | |tasks live g now| | | | | | | | |]; try done. by destruct (Ho tasks live g now). }
  destruct o; try (by apply Hgen); by apply clockSound_sweep.
Qed.

Lemma monitor_run_snoc m ops o : run m (ops ++ [o]) = exec (run m ops) o.
Proof. unfold Mon.run. by rewrite fold_left_app. Qed.

Lemma clockSound_run a q c w t ops : clockSound a ops (run (newMonitor q c w t) ops).
Proof.
  induction ops as [|o ops IH] using rev_ind; [by split; [apply mwf_nil|]|]. rewrite monitor_run_snoc. by apply clockSound_snoc.
Qed.

(** In any history, the sweep of the unowned removes an agent only if no task lists its
    session and the session is not live, and, for a positive grace, only if an earlier sweep at
    least that long ago found the same and no sweep in between found otherwise. *)
Theorem sweep_respects_grace q c w t ops tasks live g now a :
  0 < g →
  let m := run (newMonitor q c w t) ops in
  hasWindow a m = true → hasWindow a (exec m (OUnowned tasks live g now)) = false →
  sweepable tasks live a = true ∧ ∃ t0, g ≤ now - t0 ∧ deadSince a t0 ops.
Proof.
  intros Hg m Hw Hl. destruct (clockSound_run a q c w t ops) as [Hwf Hc]. fold m in Hwf, Hc.
  pose proof (swept_spec tasks live g now a m Hwf) as H. cbn zeta in H. rewrite Hw in H. cbn [Mon.exec] in Hl. unfold sweptTo in H.
  destruct (sweepable tasks live a); [|destruct H; congruence]. split; [done|].
  destruct (Z.leb_spec g (now - orElse (firstDead a m) now)) as [Hle|]; [|destruct H; congruence].
  destruct (firstDead a m) as [t0|]; simpl in Hle; [|lia]. exists t0. by destruct Hc.
Qed.

(** ** The debounce *)

Definition streakOf (a : string) (m : monitor) : option (AnomalyType * Z) := mget a (watchdogVerdictStreak m).

(** No streak begins or changes; one may be forgotten. *)
Definition noBump (m m' : monitor) : Prop := ∀ a, streakOf a m' = streakOf a m ∨ streakOf a m' = None.

Lemma noBump_refl m : noBump m m.
Proof. by left. Qed.

Lemma noBump_trans m1 m2 m3 : noBump m1 m2 → noBump m2 m3 → noBump m1 m3.
Proof. intros H1 H2 a. destruct (H2 a) as [-> | ->]; [apply H1|by right]. Qed.

Lemma noBump_same m m' : watchdogVerdictStreak m' = watchdogVerdictStreak m → noBump m m'.
Proof. intros E a. left. unfold streakOf. by rewrite E. Qed.

Lemma noBump_del b m m' : watchdogVerdictStreak m' = mdel b (watchdogVerdictStreak m) → noBump m m'.
Proof. intros E a. unfold streakOf. rewrite E, mget_mdel. case_decide; [by right|by left]. Qed.

Lemma coreq_streak m m' : coreq m' = coreq m → watchdogVerdictStreak m' = watchdogVerdictStreak m.
Proof. unfold coreq. congruence. Qed.

Lemma noBump_unregister b m : noBump m (unregisterAgent b m).
Proof. apply (noBump_del b). pose proof (coreq_unregister b m) as H. by apply (f_equal snd) in H. Qed.

Lemma noBump_process now a evs i m : noBump m (processEvents now a evs i m).
Proof.
  destruct (isStopped a m) eqn:Es; [unfold Mon.processEvents; rewrite Es; apply noBump_refl|].
  apply noBump_same. pose proof (process_coreq now a evs i m Es) as H. by apply (f_equal snd) in H.
Qed.

Lemma noBump_step m o : (∀ now a v ok pane, o ≠ OVerdict now a v ok pane) → noBump m (exec m o).
Proof.
  intros Ho. destruct (reading o) eqn:Er; [by apply noBump_same, coreq_streak, coreq_reading|].
  destruct o as [now a evs i|now a v ok pane|now a|now a|a|a|tasks cut sk|tasks live g now| | | | | | |c|qo|so];
    try done; cbn [Mon.exec]; try (by apply noBump_same).
  - apply noBump_process.
  - by destruct (Ho now a v ok pane).
  - unfold recordProviderProgress. destruct (isStopped a m); [apply noBump_refl|].
    pose proof (coreq_event now a m) as H%coreq_streak. destruct (Mon.getEventAnomaly _ _ _ _ _ _) as [n x]. cbn [fst] in H.
    destruct (isSome x); [by apply noBump_same|]. apply (noBump_del a). rewrite <- H. cases.
  - unfold markInputReceived. destruct (isStopped a m); [apply noBump_refl|]. destruct (mget _ _) as [evs|]; [|apply noBump_refl].
    destruct (last evs) as [e|]; [|apply noBump_refl]. pose proof (coreq_current now a m) as H%coreq_streak.
    destruct (Mon.getCurrentAnomaly _ _ _ _ _ _ _) as [n x]. cbn [fst] in H. apply (noBump_trans m n); [by apply noBump_same|].
    destruct (negb _); [apply noBump_refl|apply noBump_process].
  - apply noBump_unregister.
  - apply (fold_pair noBump); [exact noBump_refl|exact noBump_trans|]. intros n k b. unfold agedStep.
    destruct (bool_decide _); [apply noBump_refl|]. destruct (mget _ _); [|apply noBump_refl].
    destruct (Store.isAgedTerminalTask _ _); [apply noBump_unregister|apply noBump_refl].
  - apply (fold_pair noBump); [exact noBump_refl|exact noBump_trans|]. intros n k b. unfold unownedStep.
    destruct (negb _); [by apply noBump_same|]. cbn zeta. set (n1 := if mhas _ _ then _ else _).
    assert (noBump n n1) by (subst n1; destruct (mhas _ _); by apply noBump_same).
    destruct (_ <=? _); cbn [fst]; [|done]. eapply noBump_trans; [done|apply noBump_unregister].
Qed.

Lemma streak_purge b pane m :
  watchdogVerdictStreak (purgeSystemicHookStallSiblings b pane m) = watchdogVerdictStreak m.
Proof.
  unfold purgeSystemicHookStallSiblings. generalize (Queue.inspectActive (attentionQueue m)). intros l. revert m.
  induction l as [|[c x] l IH]; intros m; [done|]. cbn [fold_left]. rewrite IH. unfold purgeOne. cases.
Qed.

Lemma streak_swallow now b raw pane m :
  watchdogVerdictStreak (swallowVerdict nfkc taskIdFor contextEnabled lastAssistantMessage now b raw pane m) = watchdogVerdictStreak m.
Proof.
  unfold swallowVerdict.
  change (watchdogVerdictStreak m) with (watchdogVerdictStreak (stat (recordSuppression (type raw) subagent_running) m)).
  generalize (stat (recordSuppression (type raw) subagent_running) m). intros n.
  destruct (peek _ _ _ _) as [q|]; [|done]. destruct (WATCHDOG_OWNED_TYPES (type q)); [|done].
  pose proof (coreq_event now b n) as H%coreq_streak. destruct (Mon.getEventAnomaly _ _ _ _ _ _) as [n' x]. cbn [fst] in H.
  rewrite <- H. by destruct (isSome x).
Qed.

Lemma streak_queueVerdict now b x pane m :
  watchdogVerdictStreak (queueVerdict taskIdFor now b x pane m).1 = watchdogVerdictStreak m ∨
  ∃ n, watchdogVerdictStreak (queueVerdict taskIdFor now b x pane m).1 = mset b (type x, n) (watchdogVerdictStreak m).
Proof.
  unfold queueVerdict. destruct (orElse _ _); [by left|]. destruct (bumpWatchdogStreak _ _ _) as [n c] eqn:E. right. exists c.
  assert (Hn : watchdogVerdictStreak n = mset b (type x, c) (watchdogVerdictStreak m)) by (unfold bumpWatchdogStreak in E; by simplify_eq).
  destruct (_ && _); [done|]. destruct (HookStall.shouldSuppress _ _ _) as [t s]. rewrite <- Hn.
  destruct s; cbn [fst]; [unfold suppressSystemic; by rewrite streak_purge|]. cases.
Qed.

Lemma raw_type a v m : type (orElse (withTranscriptContext contextEnabled lastAssistantMessage (Some v) a m) v) = type v.
Proof. unfold withTranscriptContext. cases. Qed.

Lemma streak_verdict now b v ok pane m :
  match actionable v with
  | None => noBump m (applyWatchdogVerdict now b v ok pane m).1 ∧ streakOf b (applyWatchdogVerdict now b v ok pane m).1 = None
  | Some x => let m' := (applyWatchdogVerdict now b v ok pane m).1 in
      watchdogVerdictStreak m' = watchdogVerdictStreak m ∨
      ∃ n, watchdogVerdictStreak m' = mset b (type x, n) (watchdogVerdictStreak m)
  end.
Proof.
  unfold Mon.applyWatchdogVerdict. destruct (actionable v) as [x|].
  - cbn zeta. rewrite <- (raw_type b x m).
    generalize (orElse (withTranscriptContext contextEnabled lastAssistantMessage (Some x) b m) x). intros raw.
    set (n := if bool_decide _ then _ else _).
    assert (Hn : watchdogVerdictStreak n = watchdogVerdictStreak m) by (subst n; by case_bool_decide).
    rewrite <- Hn. clearbody n. pose proof (coreq_suppress true now (Some raw) b n) as H%coreq_streak.
    destruct (suppressIfSubagentsRunning true now (Some raw) b n) as [n1 [a|]] eqn:Es; cbn [fst] in *; [|left; by rewrite streak_swallow].
    assert (a = raw) as ->.
    { unfold suppressIfSubagentsRunning in Es. pose proof (suppressIfRunning_spec now (Some raw) b (outstandingSubagents n)) as Hr.
      destruct (Subagents.suppressIfRunning _ _ _ _) as [t [y r]]. simplify_eq. cbn in Hr. by destruct (_ && _); simplify_eq. }
    rewrite <- H. pose proof (coreq_event now b n1) as H1%coreq_streak.
    destruct (Mon.getEventAnomaly _ _ _ _ _ _) as [n2 [e|]]; cbn [fst] in *; [left; by rewrite <- H1|].
    rewrite <- H1. apply streak_queueVerdict.
  - cbn zeta. set (n := {| agentEvents := _ |}). assert (Hn : watchdogVerdictStreak n = mdel b (watchdogVerdictStreak m)) by done.
    assert (Hk : ∀ n', watchdogVerdictStreak n' = watchdogVerdictStreak n → noBump m n' ∧ streakOf b n' = None).
    { intros n' E. split; [apply (noBump_del b); by rewrite E|]. unfold streakOf. rewrite E, Hn. apply mget_mdel_eq. }
    clearbody n. destruct ok; cbn [negb]; [|by apply Hk]. destruct (peek _ _ _ _); [|by apply Hk].
    pose proof (coreq_event now b n) as H%coreq_streak. destruct (Mon.getEventAnomaly _ _ _ _ _ _) as [n' e]. cbn [fst] in H.
    destruct (isSome e); [by apply Hk|]. destruct (negb _); by apply Hk.
Qed.

(** The types of the alarms the watchdog gave for an agent since the last verdict that asked
    for nothing, or since the agent was removed. *)
Definition alarmStep (a : string) (h : list AnomalyType) (o : op) : list AnomalyType :=
  match o with
  | OVerdict _ b v _ _ =>
      if String.eqb b a then match actionable v with Some x => h ++ [type x] | None => [] end else h
  | OUnregister b => if String.eqb b a then [] else h
  | _ => h
  end.
Definition alarmsSince (a : string) (ops : list op) : list AnomalyType := fold_left (alarmStep a) ops [].

Definition streakSound (a : string) (h : list AnomalyType) (m : monitor) : Prop :=
  ∀ t n, streakOf a m = Some (t, n) → t ∈ h.

Lemma streakSound_step a h o m : streakSound a h m → streakSound a (alarmStep a h o) (exec m o).
Proof.
  intros Hm.
  assert (Hk : ∀ m', noBump m m' → streakSound a h m').
  { intros m' Hb t n E. destruct (Hb a) as [E'|E']; [apply (Hm t n); congruence|congruence]. }
  destruct o as [|now b v ok pane| | | |b| | | | | | | | | | |]; try (apply Hk, noBump_step; done).
  - pose proof (streak_verdict now b v ok pane m) as H. cbn [Mon.exec alarmStep].
    destruct (actionable v) as [x|]; cbn zeta in H; destruct (String.eqb_spec b a) as [->|Hab].
    + intros t n E. rewrite elem_of_app, list_elem_of_singleton. unfold streakOf in *.
      destruct H as [H|[k H]]; rewrite H in E; [left; by apply (Hm t n)|]. rewrite mget_mset_eq in E. right. by simplify_eq.
    + intros t n E. apply (Hm t n). unfold streakOf in *. destruct H as [H|[k H]]; rewrite H in E; [done|].
      by rewrite mget_mset_ne in E.
    + destruct H as [_ H]. intros t n E. congruence.
    + destruct H as [H _]. by apply Hk.
  - cbn [Mon.exec alarmStep]. destruct (String.eqb_spec b a) as [->|]; [|apply Hk, noBump_unregister].
    intros t n E. unfold streakOf in E. pose proof (coreq_unregister a m) as H. apply (f_equal snd) in H. cbn [snd coreq] in H.
    rewrite H, mget_mdel_eq in E. done.
Qed.

Lemma streakSound_run a q c w t ops : streakSound a (alarmsSince a ops) (run (newMonitor q c w t) ops).
Proof.
  induction ops as [|o ops IH] using rev_ind; [done|]. rewrite monitor_run_snoc. unfold alarmsSince. rewrite fold_left_app.
  by apply streakSound_step.
Qed.

(** ** What a verdict puts in the queue *)

Definition entryOf (a : string) (m : monitor) : option Queue.QueueEntry := mget a (Queue.entries (attentionQueue m)).

Lemma sameFinding_type x y : sameFinding x y → type x = type y.
Proof. intros H. by apply anomalyFingerprint_inv in H as [? _]. Qed.

Lemma detector_types now l a c x :
  detectAnomalies nfkc now l a c None = Some x → WATCHDOG_DEBOUNCE_TYPES (type x) = false.
Proof.
  unfold detectAnomalies, evaluateAnomalies. destruct (last _) as [e|] eqn:El; [|done].
  pose proof (ordinary_finding nfkc now a (repeatedErrorThreshold c) _ e El) as Ho.
  destruct (ev_body e); try done; cbn [fst]; try (by intros [= <-]).
  all: destruct (detectPermissionBlocked _ _ _); [intros [= <-]; by destruct Ho as [-> _]|].
  all: destruct (detectMergeConflict _ _ _); [intros [= <-]; by destruct Ho as [-> _]|].
  all: destruct (detectRepeatedError _ _ _ _ _); [intros [= <-]; by rewrite Ho|].
  all: cbn; destruct (detectAskUserQuestion _ _ _) as [z|]; [|done]; intros [= <-]; by destruct (Ho z eq_refl) as [-> _].
Qed.

Lemma event_types now a m x : (getEventAnomaly now a m).2 = Some x → WATCHDOG_DEBOUNCE_TYPES (type x) = false.
Proof.
  rewrite event_form, fmap_Some. intros (y & Hy & ->). rewrite (sameFinding_type _ _ (stable_same a m y)).
  destruct (Subagents.suppressIfRunning _ _ _ _) as [t [r k]] eqn:Es. cbn [fst snd] in Hy. destruct r as [r|]; [|done].
  rewrite (sameFinding_type _ _ (transcript_same a m r y Hy)).
  pose proof (suppressIfRunning_spec now (detectAnomalies nfkc now (eventsOf a m) a (mergedConfig (anomalyConfig m)) None) a (outstandingSubagents m)) as H.
  rewrite Es in H. cbn [fst snd] in H. destruct (detectAnomalies _ _ _ _ _ _) as [z|] eqn:Ed; [|done].
  destruct (_ && _); [done|]. injection H as ->. by eapply detector_types.
Qed.

Lemma enqueue_entry now a x q :
  mget a (Queue.entries (Queue.enqueue taskIdFor now now a x q)) = mget a (Queue.entries q) ∨
  ∃ e, mget a (Queue.entries (Queue.enqueue taskIdFor now now a x q)) = Some e ∧ sameFinding (Queue.qe_anomaly e) x.
Proof.
  unfold Queue.enqueue. set (q0 := {| Queue.entries := _ |}). set (q1 := Queue.dropExpiredForKey _ _ _).
  assert (E1 : Queue.entries q1 = Queue.entries q) by (subst q1; by rewrite Queue.dropExpired_entries).
  assert (Hact : ∃ e, mget a (Queue.entries (Queue.enqueueActive a x q1)) = Some e ∧ sameFinding (Queue.qe_anomaly e) x).
  { destruct (Queue.enqueueActive_entry a x q1) as (e & He & Hs). exists e. split; [done|]. by apply String.eqb_eq. }
  destruct (mget (Queue.snoozeKey taskIdFor a) (Queue.snoozed q1)) as [s|]; [|by right].
  destruct (now <? Queue.se_expiresAt s); [|by right].
  destruct (Queue.shouldWakeSnooze s x); [|left; cbn; by rewrite E1].
  right. eexists. split; [cbn; apply mget_mset_eq|done].
Qed.

Lemma entry_purge b pane a m :
  entryOf a (purgeSystemicHookStallSiblings b pane m) = entryOf a m ∨ entryOf a (purgeSystemicHookStallSiblings b pane m) = None.
Proof.
  unfold purgeSystemicHookStallSiblings. generalize (Queue.inspectActive (attentionQueue m)). intros l. revert m.
  induction l as [|[c x] l IH]; intros m; [by left|]. cbn [fold_left].
  assert (Hp : entryOf a (purgeOne b pane m (c, x)) = entryOf a m ∨ entryOf a (purgeOne b pane m (c, x)) = None).
  { unfold purgeOne. destruct (negb _); [by left|]. unfold entryOf.
    destruct (String.eqb c b); cbn; rewrite mget_mdel; case_decide; auto. }
  destruct (IH (purgeOne b pane m (c, x))) as [H|H]; rewrite H; [exact Hp|by right].
Qed.

(** Two agents with a recent verdict are a systemic stall. *)
Lemma stall_two now a b t m :
  b ≠ a → mget b m = Some t → now - t ≤ HookStall.SYSTEMIC_HOOK_STALL_WINDOW_MS →
  (HookStall.shouldSuppress now hook_disconnected (HookStall.recordVerdict now a m)).2 = true.
Proof.
  intros Hab Hb Ht. unfold HookStall.shouldSuppress. rewrite bool_decide_true by done. cbn [negb].
  unfold HookStall.countRecent. cbn [snd]. apply Nat.leb_le. unfold HookStall.SYSTEMIC_HOOK_STALL_MIN_AGENTS, msize.
  assert (Ha : (a, now) ∈ List.filter (HookStall.recent now) (HookStall.recordVerdict now a m)).
  { apply list_elem_of_In, filter_In. split; [apply list_elem_of_In, mget_elem_of, mget_mset_eq|].
    unfold HookStall.recent, HookStall.SYSTEMIC_HOOK_STALL_WINDOW_MS. cbn. apply negb_true_iff, Z.ltb_ge. lia. }
  assert (Hbt : (b, t) ∈ List.filter (HookStall.recent now) (HookStall.recordVerdict now a m)).
  { apply list_elem_of_In, filter_In. split.
    - apply list_elem_of_In, mget_elem_of. unfold HookStall.recordVerdict. by rewrite mget_mset_ne.
    - unfold HookStall.recent. cbn. by apply negb_true_iff, Z.ltb_ge. }
  destruct (List.filter _ _) as [|x [|y l]]; simpl; [by apply not_elem_of_nil in Ha| |lia].
  apply list_elem_of_singleton in Ha, Hbt. congruence.
Qed.

(** The conditions under which an alarm of silence is shown. *)
Definition alarmShown (now : Z) (a : string) (t : AnomalyType) (m : monitor) : Prop :=
  (∃ n, streakOf a m = Some (t, n)) ∧
  orElse (Suppression.shouldSuppress a t <$> suppressionTracker m) false = false ∧
  (t = hook_disconnected → ∀ b at_, b ≠ a → mget b (systemicHookStall m) = Some at_ →
     HookStall.SYSTEMIC_HOOK_STALL_WINDOW_MS < now - at_).

Lemma queueVerdict_entry now a x pane stall m e :
  WATCHDOG_DEBOUNCE_TYPES (type (Queue.qe_anomaly e)) = true →
  systemicHookStall m = (if bool_decide (type x = hook_disconnected) then HookStall.recordVerdict now a stall else stall) →
  entryOf a (queueVerdict taskIdFor now a x pane m).1 = Some e → entryOf a m ≠ Some e →
  type x = type (Queue.qe_anomaly e) ∧ (∃ n, streakOf a m = Some (type x, n)) ∧
  orElse (Suppression.shouldSuppress a (type x) <$> suppressionTracker m) false = false ∧
  (type x = hook_disconnected → ∀ b at_, b ≠ a → mget b stall = Some at_ →
     HookStall.SYSTEMIC_HOOK_STALL_WINDOW_MS < now - at_).
Proof.
  intros Hd Hst He Hne. unfold queueVerdict in He. destruct (orElse _ _) eqn:Em in He; [done|].
  destruct (bumpWatchdogStreak a (type x) m) as [n c] eqn:Eb. unfold bumpWatchdogStreak in Eb. injection Eb as <- Hc.
  destruct (WATCHDOG_DEBOUNCE_TYPES (type x) && (c <? WATCHDOG_DEBOUNCE_MIN_STREAK)) eqn:Ed; [done|].
  cbn [systemicHookStall] in He. rewrite Hst in He.
  destruct (HookStall.shouldSuppress _ _ _) as [tr sys] eqn:Es. destruct sys; cbn [fst] in He.
  { exfalso. unfold suppressSystemic in He. set (k := audit _ _) in He.
    destruct (entry_purge a pane a k) as [H|H]; rewrite H in He; [|done]. by apply Hne. }
  assert (Ht : type x = type (Queue.qe_anomaly e)).
  { set (k := onQueue _ _) in He.
    assert (Hk : entryOf a k = Some e) by (revert He; destruct (bool_decide (anomalyFingerprint <$> _ = _)); intros He; exact He).
    unfold entryOf in Hk, Hne. subst k. cbn in Hk.
    destruct (enqueue_entry now a x (attentionQueue m)) as [H|(e' & H & Hs)]; cbn in Hk, Hne; rewrite H in Hk; [done|].
    simplify_eq. symmetry. by apply sameFinding_type. }
  split_and!; [done| |done|].
  - rewrite Ht, Hd in Ed. cbn [andb] in Ed. zbool. unfold WATCHDOG_DEBOUNCE_MIN_STREAK in Ed. unfold streakOf.
    destruct (mget a (watchdogVerdictStreak m)) as [[t k]|]; [|lia].
    destruct (bool_decide (t = type x)) eqn:Hk; zbool; [exists k; by subst t|lia].
  - intros Hx b at_ Hb Hbt. destruct (Z.le_gt_cases (now - at_) HookStall.SYSTEMIC_HOOK_STALL_WINDOW_MS) as [Hle|]; [|lia].
    pose proof (stall_two now a b at_ stall Hb Hbt Hle) as H. rewrite Hx in Es. rewrite bool_decide_true in Es by done.
    by rewrite Es in H.
Qed.

Definition guards (m : monitor) := (systemicHookStall m, suppressionTracker m).

Lemma guards_suppress mark now x a m : guards (suppressIfSubagentsRunning mark now x a m).1 = guards m.
Proof.
  unfold suppressIfSubagentsRunning. destruct (Subagents.suppressIfRunning _ _ _ _) as [t [y r]]. cbn [fst].
  unfold evictionTelemetry. cases.
Qed.

Lemma guards_event now a m : guards (getEventAnomaly now a m).1 = guards m.
Proof.
  unfold Mon.getEventAnomaly. pose proof (guards_suppress true now
    (detectAnomalies nfkc now (eventsOf a m) a (mergedConfig (anomalyConfig m)) None) a m) as H.
  destruct (suppressIfSubagentsRunning _ _ _ _ _) as [m' x]. exact H.
Qed.

Lemma coreq_entry a m m' : coreq m' = coreq m → entryOf a m' = entryOf a m.
Proof. unfold coreq, entryOf. intros H. apply (f_equal (λ c, c.1.2)) in H. cbn in H. by rewrite H. Qed.

Lemma entry_swallow now a b raw pane m :
  let m' := swallowVerdict nfkc taskIdFor contextEnabled lastAssistantMessage now b raw pane m in
  entryOf a m' = entryOf a m ∨ entryOf a m' = None.
Proof.
  cbn zeta. unfold swallowVerdict. change (entryOf a m) with (entryOf a (stat (recordSuppression (type raw) subagent_running) m)).
  generalize (stat (recordSuppression (type raw) subagent_running) m). intros n.
  destruct (peek _ _ _ _) as [q|]; [|by left]. destruct (WATCHDOG_OWNED_TYPES (type q)); [|by left].
  pose proof (coreq_entry a _ _ (coreq_event now b n)) as H. destruct (Mon.getEventAnomaly _ _ _ _ _ _) as [n' x]. cbn [fst] in H.
  rewrite <- H. destruct (isSome x); [by left|]. unfold entryOf. cbn. rewrite mget_mdel. case_decide; auto.
Qed.

Lemma verdict_entry now a v ok pane m e :
  entryOf a (applyWatchdogVerdict now a v ok pane m).1 = Some e → entryOf a m ≠ Some e →
  WATCHDOG_DEBOUNCE_TYPES (type (Queue.qe_anomaly e)) = true →
  ∃ x, actionable v = Some x ∧ type x = type (Queue.qe_anomaly e) ∧ alarmShown now a (type x) m.
Proof.
  intros He Hne Hd. unfold Mon.applyWatchdogVerdict in He. destruct (actionable v) as [x|].
  - exists x. split; [done|]. cbn zeta in He. pose proof (raw_type a x m) as Hr. revert He Hr.
    generalize (orElse (withTranscriptContext contextEnabled lastAssistantMessage (Some x) a m) x). intros raw He Hr.
    set (n := if bool_decide _ then _ else _) in He.
    assert (Hn : coreq n = coreq m ∧ guards n = ((if bool_decide (type raw = hook_disconnected)
        then HookStall.recordVerdict now a (systemicHookStall m) else systemicHookStall m), suppressionTracker m))
      by (subst n; by case_bool_decide).
    destruct Hn as [Hc Hg]. clearbody n.
    pose proof (coreq_suppress true now (Some raw) a n) as H1. pose proof (guards_suppress true now (Some raw) a n) as G1.
    destruct (suppressIfSubagentsRunning true now (Some raw) a n) as [n1 [y|]] eqn:Es; cbn [fst] in *.
    2: { destruct (entry_swallow now a a raw pane n1) as [H|H]; cbn zeta in H; rewrite H in He; [|done].
         rewrite (coreq_entry a _ _ (eq_trans H1 Hc)) in He. congruence. }
    assert (y = raw) as ->.
    { unfold suppressIfSubagentsRunning in Es. pose proof (suppressIfRunning_spec now (Some raw) a (outstandingSubagents n)) as Hs.
      destruct (Subagents.suppressIfRunning _ _ _ _) as [t [z r]]. simplify_eq. cbn in Hs. by destruct (_ && _); simplify_eq. }
    pose proof (coreq_event now a n1) as H2. pose proof (guards_event now a n1) as G2. pose proof (event_types now a n1) as Ht.
    destruct (Mon.getEventAnomaly _ _ _ _ _ _) as [n2 [ev|]]; cbn [fst snd] in *.
    + exfalso. specialize (Ht ev eq_refl). pose proof (coreq_entry a _ _ (eq_trans H2 (eq_trans H1 Hc))) as E. unfold entryOf in *. cbn in He.
      destruct (enqueue_entry now a ev (attentionQueue n2)) as [H|(e' & H & Hs)]; rewrite H in He; [congruence|].
      simplify_eq. by rewrite (sameFinding_type _ _ Hs), Ht in Hd.
    + pose proof (coreq_entry a _ _ (eq_trans H2 (eq_trans H1 Hc))) as E.
      assert (Hg2 : guards n2 = guards n) by congruence. rewrite Hg in Hg2. unfold guards in Hg2. injection Hg2 as Gs Gt.
      assert (Hst : streakOf a n2 = streakOf a m) by (unfold streakOf; by rewrite (coreq_streak _ _ (eq_trans H2 (eq_trans H1 Hc)))).
      rewrite <- E in Hne.
      destruct (queueVerdict_entry now a raw pane (systemicHookStall m) n2 e Hd Gs He Hne) as (Hty & Hs1 & Hs2 & Hs3).
      split; [congruence|]. unfold alarmShown. rewrite <- Hr, <- Hst, <- Gt. by split_and!.
  - exfalso. cbn zeta in He. set (n := {| agentEvents := _ |}) in He. assert (Hn : entryOf a n = entryOf a m) by done. clearbody n.
    destruct ok; cbn [negb] in He; [|cbn [fst] in He; congruence]. destruct (peek _ _ _ _); [|cbn [fst] in He; congruence].
    pose proof (coreq_entry a _ _ (coreq_event now a n)) as H. destruct (Mon.getEventAnomaly _ _ _ _ _ _) as [n' ev]. cbn [fst] in H.
    destruct (isSome ev); [cbn in He; congruence|]. destruct (negb _); cbn [fst] in He; [congruence|].
    unfold entryOf in He. cbn in He. by rewrite mget_mdel_eq in He.
Qed.

End laws.

(** ** Limits of the code *)

Definition demoRun : monitor → list op → monitor := run (λ l, l) (λ s, s) (λ _, None) false (λ _, None).
Definition emptyMonitor : monitor := newMonitor (Queue.newQueue None) (mkPartial None None) (Some 50) None.
Definition ask : EventBody := permission_request "Read" None None.
Definition silent : Anomaly := basicAnomaly "a" stale_agent warning "no activity" (Some 0).
Definition waits : Anomaly := basicAnomaly "a" needs_input info "prompt" (Some 0).

(** A snooze hides the finding and keeps it: once the permission has been given in the terminal
    the events give no finding, yet [isPermissionBlocked], which the remote approval asks before
    it types the answer, still says that the agent waits for one. *)
Theorem snoozed_permission_lingers :
  let m := demoRun emptyMonitor
             [OProcess 1 "a" [on ask] None; OQueue (Queue.op_snooze 2 "a" 1000 None None);
              OProcess 3 "a" [on (tool_result "Read" None None)] None] in
  (getEventAnomaly (λ l, l) false (λ _, None) 4 "a" m).2 = None ∧
  (isPermissionBlocked (λ l, l) (λ _, None) false (λ _, None) 4 "a" m).2 = true.
Proof. by vm_compute. Qed.

(** A verdict of another type that a finding of the events answers neither restarts nor ends
    the streak: two alarms with a Stop, another verdict and a new prompt between them count as
    consecutive, and the second is shown at once. *)
Theorem streak_not_consecutive :
  let m := demoRun emptyMonitor
             [OProcess 1 "a" [on (user_prompt "go" None)] None;
              OVerdict 2 "a" (Watch.v_stale_agent silent) true None;
              OProcess 3 "a" [on (stop (mkStop "done" None None None None None))] None;
              OVerdict 4 "a" (Watch.v_needs_input waits) true None;
              OProcess 5 "a" [on (user_prompt "more" None)] None] in
  entryOf "a" m = None ∧
  Queue.qe_anomaly <$> entryOf "a" (demoRun m [OVerdict 6 "a" (Watch.v_stale_agent silent) true None]) = Some silent.
Proof. by vm_compute. Qed.

(** ** Witnesses *)

Definition threeInputs : list op := [OProcess 1 "a" [on input_received; on input_received; on input_received] None].


Lemma queue_in_step_witness :
  let m' := processEvents (λ l, l) (λ _, None) false (λ _, None) 1 "a" [on ask] None emptyMonitor in
  isStopped "a" emptyMonitor = false ∧
  match (getEventAnomaly (λ l, l) false (λ _, None) 1 "a" m').2 with
  | Some a => reported (λ _, None) 1 "a" a (attentionQueue m')
  | None => mget "a" (Queue.entries (attentionQueue m')) = None
  end.
Proof.
  split; [reflexivity|].
  pose proof (queue_in_step (λ l, l) (λ _, None) false (λ _, None) 1 "a" [on ask] None emptyMonitor eq_refl) as H.
  cbv zeta in H |- *. destruct H as [H _]. exact H.
Defined.

Lemma sweep_respects_grace_witness :
  let ops := [ORegister "a"; OUnowned [] [] 60 100] in
  0 < 60 ∧ sweepable [] [] "a" = true ∧ ∃ t0, 60 ≤ 170 - t0 ∧ deadSince "a" t0 ops.
Proof.
  intros ops. split; [done|].
  apply (sweep_respects_grace (λ l, l) (λ s, s) (λ _, None) false (λ _, None) (Queue.newQueue None) (mkPartial None None) None None
    ops [] [] 60 170 "a"); [done|reflexivity|reflexivity].
Defined.

End Mon.
