(* ===== verification/JsDate.v ===== *)
(** * Dates as text

    [Date.prototype.toISOString] on a time value, in the proleptic Gregorian calendar. *)

From S2P Require Import Prelude JsString.
Local Open Scope Z_scope.

Definition dayMs : Z := 24 * 60 * 60 * 1000.

(** Year, month and day of a day counted from 1 January 1970.  A year begins in March here,
    so that the leap day is its last; an era is 400 years. *)
Definition civilFromDays (days : Z) : Z * Z * Z :=
  let z := days + 719468 in
  let era := z / 146097 in
  let doe := z mod 146097 in
  let yoe := (doe - doe / 1460 + doe / 36524 - doe / 146096) / 365 in
  let doy := doe - (365 * yoe + yoe / 4 - yoe / 100) in
  let mp := (5 * doy + 2) / 153 in
  let d := doy - (153 * mp + 2) / 5 + 1 in
  let m := if mp <? 10 then mp + 3 else mp - 9 in
  (yoe + era * 400 + (if m <=? 2 then 1 else 0), m, d).

(** The decimal text of a natural number on [n] places. *)
Definition padded (n : nat) (z : Z) : string :=
  let t := showZ z in
  unchars (replicate (n - String.length t) "0"%char ++ chars t).

Definition yearText (y : Z) : string :=
  if (0 <=? y) && (y <=? 9999) then padded 4 y
  else if y <? 0 then ("-" +:+ padded 6 (- y))%string else ("+" +:+ padded 6 y)%string.

Definition toISOString (t : Z) : string :=
  let '(y, m, d) := civilFromDays (t / dayMs) in
  let r := t mod dayMs in
  (yearText y +:+ "-" +:+ padded 2 m +:+ "-" +:+ padded 2 d +:+ "T" +:+ padded 2 (r / 3600000) +:+ ":"
   +:+ padded 2 (r / 60000 mod 60) +:+ ":" +:+ padded 2 (r / 1000 mod 60) +:+ "."
   +:+ padded 3 (r mod 1000) +:+ "Z")%string.

Example iso_epoch : toISOString 0 = "1970-01-01T00:00:00.000Z".
Proof. by vm_compute. Qed.

Example iso_leap_day : toISOString 951868799999 = "2000-02-29T23:59:59.999Z".
Proof. by vm_compute. Qed.

Example iso_before : toISOString (-1) = "1969-12-31T23:59:59.999Z".
Proof. by vm_compute. Qed.
