(* ===== verification/Schedule.v ===== *)
(** * The schedules

    [src/core/schedule.ts], [src/core/schedule-rollup.ts], [src/core/critical-schedule-rearm.ts]
    and [src/core/schedule-terminal-reasons.ts]: the schedule record, its bounded execution
    ledger, its trigger budget, the memory of failed providers, the store with its materialised
    rollups, and the re-arm decisions.

    An ISO timestamp is its text here, because the code uses it as a key and compares it as
    text; [now] is the text [new Date().toISOString()] gave.  [Date.parse] and the cron library
    are parameters.  The decoding of the rows of the schedule file is not modelled. *)

From S2P Require Import Prelude JsMap JsArray JsString JsRegExp JsJson AgentEvents TaskTypes TerminalReceipt.

Module Sched.
#[local] Open Scope Z_scope.

(** ** Data *)

Record ScheduleLoopConfig := mkLoopConfig {
  lc_iterationCap : option Z;
  lc_zeroDiffConsecutiveIterations : option Z;
  lc_costCapUsd : option string;
  lc_stopPredicate : option string
}.

Record SchedulePlaybook := mkPlaybook {
  pb_path : string;
  pb_parameters : jmap string string;
  pb_scope : option string;
  pb_sourceCwd : option string
}.

Inductive ScheduleStopReason := trigger_limit_reached | consecutive_failures.
Inductive ScheduleLastRunStatus := run_completed | run_cancelled | run_failed | run_skipped.
Inductive ScheduleHoldSource := operator | daemon.
Inductive ScheduleExecutionTrigger := cron_trigger | manual_trigger.
Inductive ScheduleExecutionDecision :=
  cron_due | manual_run | catch_up | manual_catch_up | stale_catch_up.

Inductive ScheduleExecutionOutcome :=
| queued | queued_capacity | parked_dependency | running | completed | cancelled | deduplicated
| dispatch_failed | skipped_active | skipped_capacity | skipped_draining
| skipped_server_restarting | skipped_safe_mode | skipped_manual | skipped_stale
| skipped_coalesced | skipped_relaunch_locked | skipped_provider_paused | skipped_playbook_drift
| skipped_project_automation | unknown_after_restart.

Inductive ScheduleExecutionReasonCode :=
| why_none | why_capacity | why_dependency_degraded | why_draining | why_server_restarting
| why_safe_mode | why_previous_run_active | why_previous_run_pending
| why_manual_catch_up_required | why_missing_cwd | why_missing_playbook | why_validation
| why_deduplicated | why_launch_error | why_pending_queue_full | why_stale_catch_up
| why_relaunch_lease_held | why_agent_substituted | why_provider_backoff | why_provider_paused
| why_auth_expired | why_session_gone | why_reconciled_after_restart | why_unknown_after_restart
| why_probe_quiet | why_probe_blip | why_playbook_cwd_lag | why_project_automation.

#[export] Instance ScheduleStopReason_eq_dec : EqDecision ScheduleStopReason.
Proof. solve_decision. Defined.
#[export] Instance ScheduleLastRunStatus_eq_dec : EqDecision ScheduleLastRunStatus.
Proof. solve_decision. Defined.
#[export] Instance ScheduleHoldSource_eq_dec : EqDecision ScheduleHoldSource.
Proof. solve_decision. Defined.
#[export] Instance ScheduleExecutionTrigger_eq_dec : EqDecision ScheduleExecutionTrigger.
Proof. solve_decision. Defined.
#[export] Instance ScheduleExecutionOutcome_eq_dec : EqDecision ScheduleExecutionOutcome.
Proof. solve_decision. Defined.
#[export] Instance ScheduleExecutionReasonCode_eq_dec : EqDecision ScheduleExecutionReasonCode.
Proof. solve_decision. Defined.

(** The string an outcome is in the code. *)
Definition outcomeName (o : ScheduleExecutionOutcome) : string :=
  match o with
  | queued => "queued" | queued_capacity => "queued_capacity"
  | parked_dependency => "parked_dependency" | running => "running"
  | completed => "completed" | cancelled => "cancelled" | deduplicated => "deduplicated"
  | dispatch_failed => "dispatch_failed" | skipped_active => "skipped_active"
  | skipped_capacity => "skipped_capacity" | skipped_draining => "skipped_draining"
  | skipped_server_restarting => "skipped_server_restarting"
  | skipped_safe_mode => "skipped_safe_mode" | skipped_manual => "skipped_manual"
  | skipped_stale => "skipped_stale" | skipped_coalesced => "skipped_coalesced"
  | skipped_relaunch_locked => "skipped_relaunch_locked"
  | skipped_provider_paused => "skipped_provider_paused"
  | skipped_playbook_drift => "skipped_playbook_drift"
  | skipped_project_automation => "skipped_project_automation"
  | unknown_after_restart => "unknown_after_restart"
  end%string.

Record ScheduleProviderFailure := mkProviderFailure {
  pf_provider : string;
  pf_at : string;
  pf_reasonCode : option ScheduleExecutionReasonCode
}.

Record ScheduleTerminalReason := mkTerminalReason {
  tr_reasonCode : TerminalReasonCategory;
  tr_source : TerminalTransitionSource;
  tr_provider : option string;
  tr_at : iso
}.

Record SchedulePlaybookCheckoutSource := mkCheckout {
  pcs_ref : string;
  pcs_upstreamRef : option string;
  pcs_behindBy : Z;
  pcs_drifted : bool
}.

Record ScheduleExecutionLedgerEntry := mkEntry {
  le_id : string;
  le_scheduleId : string;
  le_receiptId : option string;
  le_executionToken : option string;
  le_trigger : ScheduleExecutionTrigger;
  le_decision : ScheduleExecutionDecision;
  le_scheduledFor : option string;
  le_evaluatedAt : string;
  le_completedAt : option string;
  le_taskId : option string;
  le_blockingTaskId : option string;
  le_outcome : ScheduleExecutionOutcome;
  le_reasonCode : option ScheduleExecutionReasonCode;
  le_message : option string;
  le_tokenUsage : option TokenUsage;
  le_artifacts : option (list string);
  le_launchPhaseTimings : option json;
  le_mergeCommit : option string;
  le_terminalReason : option ScheduleTerminalReason;
  le_playbookSource : option SchedulePlaybookCheckoutSource;
  le_requestedProvider : option string;
  le_attemptedProvider : option string
}.

Inductive ReceiptStatus := reserved | accepted | terminal | receipt_unknown.

#[export] Instance ReceiptStatus_eq_dec : EqDecision ReceiptStatus.
Proof. solve_decision. Defined.

Record ScheduleExecutionReceipt := mkExecution {
  rx_id : string;
  rx_scheduleId : string;
  rx_executionToken : string;
  rx_trigger : ScheduleExecutionTrigger;
  rx_decision : ScheduleExecutionDecision;
  rx_scheduledFor : option string;
  rx_evaluatedAt : string;
  rx_taskId : option string;
  rx_status : ReceiptStatus;
  rx_playbookSource : option SchedulePlaybookCheckoutSource
}.

Record ScheduleLatestExecutionStatus := mkLatest {
  lx_receiptId : option string;
  lx_executionToken : string;
  lx_scheduledFor : option string;
  lx_evaluatedAt : string;
  lx_triggeredAt : option string;
  lx_trigger : ScheduleExecutionTrigger;
  lx_taskId : option string;
  lx_outcome : ScheduleExecutionOutcome;
  lx_reasonCode : option ScheduleExecutionReasonCode;
  lx_message : option string;
  lx_terminalReason : option ScheduleTerminalReason;
  lx_playbookSource : option SchedulePlaybookCheckoutSource;
  lx_requestedProvider : option string;
  lx_attemptedProvider : option string
}.

Record Schedule := mkSchedule {
  id : string;
  name : string;
  enabled : bool;
  operatorHold : bool;
  holdSource : option ScheduleHoldSource;
  heldAt : option string;
  archived : bool;
  archivedAt : option string;
  archivedReason : option string;
  cron : string;
  maxTriggers : option Z;
  remainingTriggers : option Z;
  stopReason : option ScheduleStopReason;
  exhaustedAt : option string;
  playbook : SchedulePlaybook;
  cwd : string;
  agentType : option string;
  modelTier : option string;
  effort : option string;
  model : option string;
  loop : option ScheduleLoopConfig;
  failOnPlaybookDrift : bool;
  failurePolicy : option string;
  recentProviderFailures : option (list ScheduleProviderFailure);
  lastRunAt : option string;
  lastRunTaskId : option string;
  lastRunStatus : option ScheduleLastRunStatus;
  consecutiveFailures : option Z;
  lastScheduledFor : option string;
  lastCronEvaluatedAt : option string;
  latestExecution : option ScheduleLatestExecutionStatus;
  currentExecution : option ScheduleExecutionReceipt;
  executionLedger : list ScheduleExecutionLedgerEntry;
  createdAt : string;
  updatedAt : string
}.

(** The text order of [<] on strings. *)
Definition textLt (a b : string) : bool := String.ltb a b.

(** ** Loop configuration *)

Definition hasScheduleLoopConfig (s : Schedule) : bool := isSome (loop s).

(** A number whose text is an integer above zero. *)
Definition positiveInteger (v : option jvalue) : option Z :=
  match v with
  | Some (JNumber t) =>
      match readNumber (chars t) with Some n => if 0 <? n then Some n else None | None => None end
  | _ => None
  end.

(** A number above zero: its text is not [0] and has no sign. *)
Definition positiveNumber (v : option jvalue) : option string :=
  match v with
  | Some (JNumber t) => if startsWith "-" t || String.eqb t "0" then None else Some t
  | _ => None
  end.

Definition normalizeScheduleLoopConfig (raw : option jvalue) : option ScheduleLoopConfig :=
  match raw with
  | Some (JObject fs) =>
      Some {| lc_iterationCap := positiveInteger (mget "iterationCap" fs);
              lc_zeroDiffConsecutiveIterations :=
                positiveInteger (mget "zeroDiffConsecutiveIterations" fs);
              lc_costCapUsd := positiveNumber (mget "costCapUsd" fs);
              lc_stopPredicate := truthyStr (asString (mget "stopPredicate" fs)) |}
  | _ => None
  end.

(** The patch of the loop: absent leaves it, [Some None] clears it. *)
Definition resolveUpdatedLoopConfig (patchLoop nestedLoop : option jvalue) :
    option (option ScheduleLoopConfig) :=
  let empty := mkLoopConfig None None None None in
  match patchLoop with
  | Some JNull => Some None
  | Some v => Some (Some (orElse (normalizeScheduleLoopConfig (Some v)) empty))
  | None =>
      match nestedLoop with
      | Some v => Some (Some (orElse (normalizeScheduleLoopConfig (Some v)) empty))
      | None => None
      end
  end.

(** ** The execution ledger *)

Definition MAX_LEDGER_ENTRIES : Z := 500.

Definition PENDING_LEDGER_OUTCOMES (o : ScheduleExecutionOutcome) : bool :=
  match o with running | queued | queued_capacity | parked_dependency => true | _ => false end.

Definition isPendingLedgerEntry (e : ScheduleExecutionLedgerEntry) : bool :=
  PENDING_LEDGER_OUTCOMES (le_outcome e).

Definition pruneExecutionLedger (ledger : list ScheduleExecutionLedgerEntry) (cap : Z) :
    list ScheduleExecutionLedgerEntry :=
  let len := Z.of_nat (length ledger) in
  if (cap <? 0) || (len <=? cap) then ledger
  else
    let cutoff := Z.to_nat (len - cap) in
    let tail := drop cutoff ledger in
    let survivingPending := List.filter isPendingLedgerEntry (take cutoff ledger) in
    survivingPending ++ tail.

(** ** Providers that failed *)

Definition MAX_RECENT_PROVIDER_FAILURES : Z := 8.

Definition isProviderBootFailureReason (r : ScheduleExecutionReasonCode) : bool :=
  match r with why_launch_error | why_session_gone => true | _ => false end.

Definition recordProviderFailure (existing : option (list ScheduleProviderFailure))
    (provider at_ : string) (reasonCode : option ScheduleExecutionReasonCode) (cap : Z) :
    list ScheduleProviderFailure :=
  let withoutProvider :=
    List.filter (λ f, negb (String.eqb (pf_provider f) provider)) (orElse existing []) in
  let next := withoutProvider ++ [mkProviderFailure provider at_ reasonCode] in
  let len := Z.of_nat (length next) in
  if cap <? len then drop (Z.to_nat (len - cap)) next else next.

Definition clearProviderFailure (existing : option (list ScheduleProviderFailure))
    (provider : string) : option (list ScheduleProviderFailure) :=
  let next := List.filter (λ f, negb (String.eqb (pf_provider f) provider)) (orElse existing []) in
  match next with [] => None | _ => Some next end.

(** [out.includes(p)]. *)
Definition includes (p : string) (l : list string) : bool := existsb (String.eqb p) l.

Section clock.
(** [Date.parse], [None] for [NaN]. *)
Variable dateParse : string → option Z.

Definition avoidStep (cutoff : Z) (out : list string) (f : ScheduleProviderFailure) : list string :=
  match dateParse (pf_at f) with
  | Some atMs =>
      if (cutoff <=? atMs) && negb (includes (pf_provider f) out) then out ++ [pf_provider f] else out
  | None => out
  end.

Definition providersToAvoid (s : Schedule) (nowMs windowMs : Z) : list string :=
  match recentProviderFailures s with
  | None | Some [] => []
  | Some failures =>
      if negb (0 <? windowMs) then [] else foldl (avoidStep (nowMs - windowMs)) [] failures
  end.

(** *** Terminal reasons over a window *)

Record ScheduleTerminalReasonBucket := mkBucket { bk_count : Z; bk_occupiedMs : Z }.

Record ScheduleTerminalReasonAggregate := mkReasons {
  ta_windowMs : Z;
  ta_total : Z;
  ta_occupiedMs : Z;
  ta_byReason : jmap TerminalReasonCategory ScheduleTerminalReasonBucket;
  ta_byProvider : jmap string ScheduleTerminalReasonBucket
}.

Definition SUCCESS_TERMINAL_REASONS (r : TerminalReasonCategory) : bool :=
  match r with completed_normal | completed_recovery => true | _ => false end.

Definition occupiedMsForEntry (e : ScheduleExecutionLedgerEntry) : Z :=
  match truthyStr (le_completedAt e) with
  | None => 0
  | Some c =>
      match dateParse (le_evaluatedAt e), dateParse c with
      | Some start, Some fin => if 0 <? fin - start then fin - start else 0
      | _, _ => 0
      end
  end.

Definition addToBucket {K} `{EqDecision K} (key : K) (ms : Z)
    (buckets : jmap K ScheduleTerminalReasonBucket) : jmap K ScheduleTerminalReasonBucket :=
  let b := orElse (mget key buckets) (mkBucket 0 0) in
  mset key (mkBucket (bk_count b + 1) (bk_occupiedMs b + ms)) buckets.

Definition reasonStep (cutoff : Z) (g : ScheduleTerminalReasonAggregate)
    (e : ScheduleExecutionLedgerEntry) : ScheduleTerminalReasonAggregate :=
  match le_terminalReason e with
  | None => g
  | Some r =>
      if SUCCESS_TERMINAL_REASONS (tr_reasonCode r) then g
      else
        match tr_at r with
        | None => g
        | Some atMs =>
            if atMs <? cutoff then g
            else
              let ms := occupiedMsForEntry e in
              {| ta_windowMs := ta_windowMs g;
                 ta_total := ta_total g + 1;
                 ta_occupiedMs := ta_occupiedMs g + ms;
                 ta_byReason := addToBucket (tr_reasonCode r) ms (ta_byReason g);
                 ta_byProvider :=
                   match truthyStr (tr_provider r) with
                   | Some p => addToBucket p ms (ta_byProvider g)
                   | None => ta_byProvider g
                   end |}
        end
  end.

Definition aggregateScheduleTerminalReasons (schedules : list Schedule) (nowMs windowMs : Z) :
    ScheduleTerminalReasonAggregate :=
  foldl (λ g s, foldl (reasonStep (nowMs - windowMs)) g (executionLedger s))
    (mkReasons windowMs 0 0 [] []) schedules.
End clock.

(** ** The trigger budget *)

(** The value of a number the limit accepts. *)
Definition isValidMaxTriggers (v : jvalue) : option Z := positiveInteger (Some v).

Definition isTriggerLimitExhausted (s : Schedule) : bool :=
  match maxTriggers s with
  | None => false
  | Some m => orElse (remainingTriggers s) m <=? 0
  end.

Definition wasAutoExhausted (s : Schedule) : bool :=
  if bool_decide (stopReason s = Some consecutive_failures) then false
  else bool_decide (stopReason s = Some trigger_limit_reached) || isSome (exhaustedAt s).

(** The fields the trigger state replaces, and [enabled] when it says so. *)
Record TriggerState := mkTriggers {
  ts_maxTriggers : option Z;
  ts_remainingTriggers : option Z;
  ts_stopReason : option ScheduleStopReason;
  ts_exhaustedAt : option string;
  ts_enabled : option bool
}.

Definition computeUpdatedTriggerState (existing : Schedule) (nextMaxTriggers : option (option Z))
    (now : string) : TriggerState :=
  let failurePaused := bool_decide (stopReason existing = Some consecutive_failures) in
  let kept := if failurePaused then Some consecutive_failures else None in
  match nextMaxTriggers with
  | None =>
      mkTriggers (maxTriggers existing) (remainingTriggers existing) (stopReason existing)
        (exhaustedAt existing) None
  | Some None =>
      mkTriggers None None kept None (if wasAutoExhausted existing then Some true else None)
  | Some (Some n) =>
      let consumed :=
        match maxTriggers existing with
        | None => 0
        | Some m => Z.max (m - orElse (remainingTriggers existing) m) 0
        end in
      let remaining := Z.max (n - consumed) 0 in
      if remaining =? 0 then
        mkTriggers (Some n) (Some remaining)
          (Some (if failurePaused then consecutive_failures else trigger_limit_reached))
          (Some (orElse (exhaustedAt existing) now)) (Some false)
      else
        mkTriggers (Some n) (Some remaining) kept None
          (if wasAutoExhausted existing then Some true else None)
  end.

Definition withTriggers (t : TriggerState) (s : Schedule) : Schedule :=
  {| s with maxTriggers := ts_maxTriggers t; remainingTriggers := ts_remainingTriggers t;
            stopReason := ts_stopReason t; exhaustedAt := ts_exhaustedAt t;
            enabled := orElse (ts_enabled t) (enabled s) |}.

(** ** Rollups *)

Record ScheduleRollup := mkScheduleRollup {
  sr_scheduleId : string;
  sr_fires : Z;
  sr_outcomes : jmap ScheduleExecutionOutcome Z;
  sr_measuredFires : Z;
  sr_merged : Z;
  sr_liveVerified : Z;
  sr_costUsd : option Z;
  sr_tokens : Z;
  sr_artifacts : Z;
  sr_windowStart : option string;
  sr_windowEnd : option string;
  sr_updatedAt : string
}.

(** [a + b] on amounts, [None] when either is not finite. *)
Definition addCost (a b : option Z) : option Z :=
  match a, b with Some x, Some y => Some (x + y) | _, _ => None end.

Definition earliest (at_ : string) (start : option string) : option string :=
  if String.eqb at_ "" then start
  else match start with
       | None => Some at_
       | Some w => if textLt at_ w then Some at_ else start
       end.

Definition latest (at_ : string) (fin : option string) : option string :=
  if String.eqb at_ "" then fin
  else match fin with
       | None => Some at_
       | Some w => if textLt w at_ then Some at_ else fin
       end.

(** One round of the loop over the ledger. *)
Definition rollupEntry (live : jmap string unit) (r : ScheduleRollup) (e : ScheduleExecutionLedgerEntry) :
    ScheduleRollup :=
  let merge := truthyStr (le_mergeCommit e) in
  {| sr_scheduleId := sr_scheduleId r;
     sr_fires := sr_fires r;
     sr_outcomes := Receipt.bump (le_outcome e) (sr_outcomes r);
     sr_measuredFires := sr_measuredFires r + (if isSome (le_tokenUsage e) then 1 else 0);
     sr_merged := sr_merged r + (if isSome merge then 1 else 0);
     sr_liveVerified :=
       sr_liveVerified r + match merge with Some c => if mhas c live then 1 else 0 | None => 0 end;
     sr_costUsd :=
       match le_tokenUsage e with Some u => addCost (sr_costUsd r) (costUsd u) | None => sr_costUsd r end;
     sr_tokens :=
       sr_tokens r + match le_tokenUsage e with
                     | Some u => inputTokens u + outputTokens u + cacheReadTokens u + cacheWriteTokens u
                     | None => 0
                     end;
     sr_artifacts :=
       sr_artifacts r + match le_artifacts e with Some l => Z.of_nat (length l) | None => 0 end;
     sr_windowStart := earliest (le_evaluatedAt e) (sr_windowStart r);
     sr_windowEnd := latest (orElse (le_completedAt e) (le_evaluatedAt e)) (sr_windowEnd r);
     sr_updatedAt := sr_updatedAt r |}.

Definition computeScheduleRollup (s : Schedule) (now : string) (live : jmap string unit) : ScheduleRollup :=
  foldl (rollupEntry live)
    (mkScheduleRollup (id s) (Z.of_nat (length (executionLedger s))) [] 0 0 0 (Some 0) 0 0 None None now)
    (executionLedger s).

(** The same value under every key, with as many keys. *)
Definition sameOutcomes (a b : jmap ScheduleExecutionOutcome Z) : bool :=
  Nat.eqb (length a) (length b)
  && forallb (λ k, bool_decide (mget k a = mget k b)) (mkeys a).

Definition rollupsEqual (a b : ScheduleRollup) : bool :=
  String.eqb (sr_scheduleId a) (sr_scheduleId b) && (sr_fires a =? sr_fires b)
  && (sr_measuredFires a =? sr_measuredFires b) && (sr_merged a =? sr_merged b)
  && (sr_liveVerified a =? sr_liveVerified b)
  && match sr_costUsd a, sr_costUsd b with Some x, Some y => x =? y | _, _ => false end
  && (sr_tokens a =? sr_tokens b) && (sr_artifacts a =? sr_artifacts b)
  && bool_decide (sr_windowStart a = sr_windowStart b) && bool_decide (sr_windowEnd a = sr_windowEnd b)
  && sameOutcomes (sr_outcomes a) (sr_outcomes b).

Record rollupStore := mkRollups {
  rollups : jmap string ScheduleRollup;
  liveVerifiedCommits : jmap string unit;
  lastVerifiedSha : option string;
  recomputes : Z
}.

(** What [schedule-rollups.json] held. *)
Record PersistedRollups := mkPersisted {
  pr_rollups : jmap string ScheduleRollup;
  pr_liveVerifiedCommits : list string;
  pr_lastVerifiedSha : option string
}.

Definition setOf (l : list string) : jmap string unit := foldl (λ m c, mset c tt m) [] l.

Definition loadOne (live : jmap string unit) (now : string) (persisted : option PersistedRollups)
    (acc : jmap string ScheduleRollup * list string) (s : Schedule) :
    jmap string ScheduleRollup * list string :=
  let fresh := computeScheduleRollup s now live in
  match (p ← persisted; mget (id s) (pr_rollups p)) with
  | Some prior =>
      if rollupsEqual prior fresh then (mset (id s) prior acc.1, acc.2)
      else (mset (id s) fresh acc.1, acc.2 ++ [id s])
  | None => (mset (id s) fresh acc.1, acc.2 ++ [id s])
  end.

Definition loadRollups (now : string) (persisted : option PersistedRollups) (schedules : list Schedule)
    (r : rollupStore) : rollupStore * list string :=
  let live := setOf (orElse (pr_liveVerifiedCommits <$> persisted) []) in
  let '(m, reconciled) := foldl (loadOne live now persisted) ([], []) schedules in
  ({| rollups := m; liveVerifiedCommits := live;
      lastVerifiedSha := (p ← persisted; pr_lastVerifiedSha p); recomputes := recomputes r |}, reconciled).

Definition updateFromSchedule (now : string) (s : Schedule) (r : rollupStore) : rollupStore :=
  {| r with recomputes := recomputes r + 1;
            rollups := mset (id s) (computeScheduleRollup s now (liveVerifiedCommits r)) (rollups r) |}.

Definition applyDeployVerification (now : string) (schedules : list Schedule) (deployedSha : string)
    (verified : list string) (r : rollupStore) : rollupStore :=
  let live := foldl (λ m c, mset c tt m) (liveVerifiedCommits r) verified in
  {| r with liveVerifiedCommits := live; lastVerifiedSha := Some deployedSha;
            rollups := foldl (λ m s, mset (id s) (computeScheduleRollup s now live) m) (rollups r) schedules |}.

Definition removeRollup (i : string) (r : rollupStore) : rollupStore :=
  {| r with rollups := mdel i (rollups r) |}.

(** ** Re-arming *)

Definition toLowerCase (s : string) : string := unchars (map lowerChar (chars s)).

Definition playbookBasename (path : string) : string :=
  let normalized := map (λ c, if bool_decide (c = backslash) then "/"%char else c) (chars path) in
  trim (unchars (orElse (last (splitOn "/"%char normalized)) normalized)).

Definition BOOTSTRAP_CRITICAL_SCHEDULE_PLAYBOOK_BASENAMES : list string :=
  ["pr-merge-rebase-watchdog.md"; "pr-merge-rebase-watchdog"]%string.

Definition CRITICAL_SCHEDULE_PLAYBOOK_BASENAMES : list string :=
  ["lucy-orchestration-effectiveness.md"; "lucy-orchestration-effectiveness";
   "lucy-product-surface-journey.md"; "lucy-product-surface-journey";
   "kookr-deploy-convergence.md"; "kookr-deploy-convergence"]%string.

Definition BOOTSTRAP_CRITICAL_SCHEDULE_NAME_PATTERNS : list regexp :=
  [ignoreCase (seqOf [lit "merge"; RStar RSpace; ROpt (RClass (cls "/-")); RStar RSpace; lit "rebase";
     RPlus RSpace; lit "watchdog"])].

Definition CRITICAL_SCHEDULE_NAME_PATTERNS : list regexp :=
  [ignoreCase (seqOf [lit "orchestration"; RPlus RSpace; lit "effectiveness"]);
   ignoreCase (seqOf [lit "product"; RPlus RSpace; lit "surface"; RPlus RSpace; lit "journey"]);
   ignoreCase (seqOf [lit "kookr"; RPlus RSpace; lit "deploy"; RPlus RSpace; lit "convergence"])].

(** A playbook of the list, or a name that matches. *)
Definition namedBy (basenames : list string) (patterns : list regexp) (s : Schedule) : bool :=
  let base := toLowerCase (playbookBasename (pb_path (playbook s))) in
  existsb (λ b, String.eqb (toLowerCase b) base) basenames
  || existsb (λ r, test r (chars (name s))) patterns.

Definition isBootstrapCriticalSchedule (s : Schedule) : bool :=
  namedBy BOOTSTRAP_CRITICAL_SCHEDULE_PLAYBOOK_BASENAMES BOOTSTRAP_CRITICAL_SCHEDULE_NAME_PATTERNS s.

Definition isCriticalAllowlistedSchedule (s : Schedule) : bool :=
  isBootstrapCriticalSchedule s
  || namedBy CRITICAL_SCHEDULE_PLAYBOOK_BASENAMES CRITICAL_SCHEDULE_NAME_PATTERNS s.

Definition isRecoveryCriticalSchedule (s : Schedule) : bool :=
  bool_decide (failurePolicy s = Some "recovery_critical"%string) || isBootstrapCriticalSchedule s.

Inductive CriticalRearmSkipReason :=
  not_allowlisted | critical_already_enabled | held_by_operator | trigger_limit_exhausted.

(** [None] is a decision to re-arm. *)
Definition decideCriticalScheduleRearm (s : Schedule) : option CriticalRearmSkipReason :=
  if negb (isCriticalAllowlistedSchedule s) then Some not_allowlisted
  else if enabled s then Some critical_already_enabled
  else
    let bootstrapCascadeHold :=
      isBootstrapCriticalSchedule s && operatorHold s
      && negb (bool_decide (holdSource s = Some operator))
      && bool_decide (stopReason s = Some consecutive_failures) in
    if operatorHold s && negb bootstrapCascadeHold then Some held_by_operator
    else if bool_decide (stopReason s = Some trigger_limit_reached) || isTriggerLimitExhausted s
    then Some trigger_limit_exhausted
    else None.

Definition listCriticalSchedulesToRearm (localeCompare : string → string → Z) (l : list Schedule) :
    list Schedule :=
  sort_by (λ a b, localeCompare (id a) (id b))
    (List.filter (λ s, negb (isSome (decideCriticalScheduleRearm s))) l).

Definition isTransientFailureRearmReason (r : option ScheduleExecutionReasonCode) : bool :=
  match r with
  | Some (why_launch_error | why_session_gone | why_previous_run_active | why_previous_run_pending) => true
  | _ => false
  end.

Inductive TransientFailureRearmSkipReason :=
| health_not_ok | already_enabled | not_failure_pause | operator_hold | not_transient_reason
| failure_after_ready.

(** [None] is a decision to re-arm. *)
Definition decideTransientFailureRearm (s : Schedule) (healthOk : bool) (readyAt : option string) :
    option TransientFailureRearmSkipReason :=
  if negb healthOk then Some health_not_ok
  else if enabled s then Some already_enabled
  else if negb (bool_decide (stopReason s = Some consecutive_failures)) then Some not_failure_pause
  else if bool_decide (holdSource s = Some operator) then Some operator_hold
  else if negb (isTransientFailureRearmReason (x ← latestExecution s; lx_reasonCode x))
  then Some not_transient_reason
  else
    match truthyStr readyAt, truthyStr (lx_evaluatedAt <$> latestExecution s) with
    | Some r, Some e => if textLt e r then None else Some failure_after_ready
    | _, _ => Some failure_after_ready
    end.

(** ** The store *)

Record ScheduleValidationError := mkInvalid {
  message : string;
  fieldErrors : list (string * string)
}.

Record scheduleStore := mkStore {
  schedules : jmap string Schedule;
  revision : Z;
  loadError : option string;
  resolutionCache : jmap string (list string * bool);
  rollupState : rollupStore
}.

Definition bumpRevision (st : scheduleStore) : scheduleStore :=
  {| st with revision := revision st + 1 |}.

(** [list], [listAll] and [listArchived]. *)
Definition listAll (st : scheduleStore) : list Schedule := mvals (schedules st).
Definition list_ (st : scheduleStore) : list Schedule := List.filter (λ s, negb (archived s)) (listAll st).
Definition listArchived (st : scheduleStore) : list Schedule := List.filter archived (listAll st).
Definition get (i : string) (st : scheduleStore) : option Schedule := mget i (schedules st).

Definition syncRollup (now : string) (s : Schedule) (st : scheduleStore) : scheduleStore :=
  {| st with rollupState := if archived s then removeRollup (id s) (rollupState st)
                            else updateFromSchedule now s (rollupState st) |}.

(** [this.schedules.set(id, s); this.syncRollup(s); this.bumpRevision()]. *)
Definition putRow (now : string) (i : string) (s : Schedule) (st : scheduleStore) : scheduleStore :=
  bumpRevision (syncRollup now s {| st with schedules := mset i s (schedules st) |}).

Definition replace (now : string) (s : Schedule) (st : scheduleStore) : scheduleStore :=
  putRow now (id s) {| s with updatedAt := now |} st.

(** The parts the signature joins with a NUL. *)
Definition scheduleResolutionSignature (s : Schedule) : list string :=
  [pb_path (playbook s); orElse (pb_scope (playbook s)) "project";
   orElse (pb_sourceCwd (playbook s)) (cwd s)]%string.

Inductive PlaybookResolutionState := resolution_unknown | resolvable | unresolvable.

Definition setPlaybookResolution (i : string) (signature : list string) (ok : bool) (st : scheduleStore) :
    scheduleStore :=
  {| st with resolutionCache := mset i (signature, ok) (resolutionCache st) |}.

Definition resolutionStateFor (s : Schedule) (st : scheduleStore) : PlaybookResolutionState :=
  match mget (id s) (resolutionCache st) with
  | None => resolution_unknown
  | Some (signature, ok) =>
      if negb (bool_decide (signature = scheduleResolutionSignature s)) then resolution_unknown
      else if ok then resolvable else unresolvable
  end.

(** [ScheduleValidationError] with one field. *)
Definition invalid (m k e : string) : ScheduleValidationError := mkInvalid m [(k, e)].
Definition notFound (i : string) : ScheduleValidationError := mkInvalid ("Schedule not found: " +:+ i) [].

Definition isModelTier (t : string) : bool := String.eqb t "small".
Definition isScheduleFailurePolicy (t : string) : bool :=
  String.eqb t "default" || String.eqb t "recovery_critical".

Record CreateScheduleInput := mkCreateInput {
  in_name : string;
  in_cron : string;
  in_maxTriggers : option jvalue;
  in_playbook : SchedulePlaybook;
  in_playbookLoop : option jvalue;
  in_cwd : string;
  in_agentType : option string;
  in_modelTier : option string;
  in_effort : option string;
  in_model : option string;
  in_loop : option jvalue;
  in_enabled : option bool;
  in_failOnPlaybookDrift : bool;
  in_failurePolicy : option string
}.

(** A failure policy that is kept: the default one is dropped. *)
Definition keptPolicy (p : option string) : option string :=
  match truthyStr p with Some "default"%string => None | q => q end.

(** [{ ...pb, scope, sourceCwd }] with the empty ones left out. *)
Definition normalPlaybook (pb : SchedulePlaybook) (scope sourceCwd : option string) : SchedulePlaybook :=
  mkPlaybook (pb_path pb) (pb_parameters pb) (truthyStr scope) (truthyStr sourceCwd).

Section cron.
(** The cron library: whether it parses the expression. *)
Variable isValidCron : string → bool.

Definition createError (i : CreateScheduleInput) : option ScheduleValidationError :=
  if String.eqb (trim (in_name i)) "" then Some (invalid "name is required" "name" "Required")
  else if negb (isValidCron (in_cron i))
  then Some (invalid "Invalid cron expression" "cron" "Invalid cron expression")
  else if match in_maxTriggers i with Some v => negb (isSome (isValidMaxTriggers v)) | None => false end
  then Some (invalid "Invalid trigger limit" "maxTriggers" "Must be a positive integer")
  else if String.eqb (pb_path (in_playbook i)) ""
  then Some (invalid "playbook.path is required" "playbook" "Required")
  else if String.eqb (trim (in_cwd i)) "" then Some (invalid "cwd is required" "cwd" "Required")
  else if match in_modelTier i with Some t => negb (isModelTier t) | None => false end
  then Some (invalid "Invalid model tier" "modelTier" "Must be one of: small")
  else if isSome (in_modelTier i) && (isSome (in_model i) || isSome (in_effort i))
  then Some (invalid "Conflicting model policy" "modelTier" "Cannot be combined with model or effort pins")
  else if match in_failurePolicy i with Some p => negb (isScheduleFailurePolicy p) | None => false end
  then Some (invalid "Invalid failure policy" "failurePolicy" "Must be one of: default, recovery_critical")
  else None.

Definition newSchedule (now uuid : string) (i : CreateScheduleInput) : Schedule :=
  let limit := v ← in_maxTriggers i; isValidMaxTriggers v in
  {| id := uuid; name := trim (in_name i); enabled := orElse (in_enabled i) true;
     operatorHold := false; holdSource := None; heldAt := None;
     archived := false; archivedAt := None; archivedReason := None;
     cron := trim (in_cron i); maxTriggers := limit; remainingTriggers := limit;
     stopReason := None; exhaustedAt := None;
     playbook := normalPlaybook (in_playbook i) (pb_scope (in_playbook i)) (pb_sourceCwd (in_playbook i));
     cwd := in_cwd i; agentType := in_agentType i; modelTier := in_modelTier i;
     effort := in_effort i; model := in_model i;
     loop := normalizeScheduleLoopConfig (nullish (in_loop i) (in_playbookLoop i));
     failOnPlaybookDrift := in_failOnPlaybookDrift i;
     failurePolicy := keptPolicy (in_failurePolicy i);
     recentProviderFailures := None; lastRunAt := None; lastRunTaskId := None; lastRunStatus := None;
     consecutiveFailures := None; lastScheduledFor := None; lastCronEvaluatedAt := None;
     latestExecution := None; currentExecution := None; executionLedger := [];
     createdAt := now; updatedAt := now |}.

Definition create (now uuid : string) (i : CreateScheduleInput) (st : scheduleStore) :
    result ScheduleValidationError (scheduleStore * Schedule) :=
  match createError i with
  | Some e => Err e
  | None => let s := newSchedule now uuid i in Ok (putRow now (id s) s st, s)
  end.

(** An absent field leaves the value, [null] ([Some None]) clears it. *)
Record UpdateScheduleDefinitionInput := mkUpdate {
  up_name : option string;
  up_cron : option string;
  up_maxTriggers : option jvalue;
  up_playbook : option SchedulePlaybook;
  up_playbookLoop : option jvalue;
  up_cwd : option string;
  up_agentType : option (option string);
  up_modelTier : option (option string);
  up_effort : option string;
  up_model : option string;
  up_loop : option jvalue;
  up_failOnPlaybookDrift : option (option bool);
  up_failurePolicy : option (option string)
}.

(** [patch === null ? undefined : (patch ?? existing)]. *)
Definition patched {A} (patch : option (option A)) (existing : option A) : option A :=
  match patch with Some v => v | None => existing end.

(** The new limit: absent, [null], or a number. *)
Definition nextLimit (v : option jvalue) : option (option Z) :=
  match v with
  | None => None
  | Some JNull => Some None
  | Some v => match isValidMaxTriggers v with Some n => Some (Some n) | None => None end
  end.

Definition updateError (existing : Schedule) (p : UpdateScheduleDefinitionInput) :
    option ScheduleValidationError :=
  let nextModelTier := patched (up_modelTier p) (modelTier existing) in
  let nextEffort := orOpt (up_effort p) (effort existing) in
  let nextModel := orOpt (up_model p) (model existing) in
  if match up_cron p with Some c => negb (isValidCron c) | None => false end
  then Some (invalid "Invalid cron expression" "cron" "Invalid cron expression")
  else if match up_maxTriggers p with
          | None | Some JNull => false
          | Some v => negb (isSome (isValidMaxTriggers v))
          end
  then Some (invalid "Invalid trigger limit" "maxTriggers" "Must be a positive integer")
  else if match nextModelTier with Some t => negb (isModelTier t) | None => false end
  then Some (invalid "Invalid model tier" "modelTier" "Must be one of: small")
  else if isSome nextModelTier && (isSome nextModel || isSome nextEffort)
  then Some (invalid "Conflicting model policy" "modelTier" "Cannot be combined with model or effort pins")
  else if match up_failurePolicy p with Some (Some q) => negb (isScheduleFailurePolicy q) | _ => false end
  then Some (invalid "Invalid failure policy" "failurePolicy" "Must be one of: default, recovery_critical")
  else None.

Definition patchedPolicy (patch : option (option string)) (existing : option string) : option string :=
  match patch with
  | None => existing
  | Some None | Some (Some "default"%string) => None
  | Some (Some q) => orOpt (truthyStr (Some q)) existing
  end.

Definition updatedSchedule (now : string) (p : UpdateScheduleDefinitionInput) (existing : Schedule) : Schedule :=
  let s := withTriggers (computeUpdatedTriggerState existing (nextLimit (up_maxTriggers p)) now) existing in
  {| s with
     name := orElse (up_name p) (name existing);
     cron := orElse (up_cron p) (cron existing);
     cwd := orElse (up_cwd p) (cwd existing);
     effort := orOpt (up_effort p) (effort existing);
     model := orOpt (up_model p) (model existing);
     agentType := patched (up_agentType p) (agentType existing);
     modelTier := patched (up_modelTier p) (modelTier existing);
     playbook :=
       match up_playbook p with
       | None => playbook existing
       | Some pb =>
           normalPlaybook pb (orOpt (pb_scope pb) (pb_scope (playbook existing)))
             (orOpt (pb_sourceCwd pb) (pb_sourceCwd (playbook existing)))
       end;
     loop := orElse (resolveUpdatedLoopConfig (up_loop p) (up_playbookLoop p)) (loop existing);
     failOnPlaybookDrift :=
       match up_failOnPlaybookDrift p with
       | None => failOnPlaybookDrift existing
       | Some (Some true) => true
       | Some _ => false
       end;
     failurePolicy := patchedPolicy (up_failurePolicy p) (failurePolicy existing);
     updatedAt := now |}.

Definition updateDefinition (now i : string) (p : UpdateScheduleDefinitionInput) (st : scheduleStore) :
    result ScheduleValidationError (scheduleStore * Schedule) :=
  match get i st with
  | None => Err (notFound i)
  | Some existing =>
      match updateError existing p with
      | Some e => Err e
      | None => let s := updatedSchedule now p existing in Ok (putRow now i s st, s)
      end
  end.
End cron.

(** The hold of a row that is switched. *)
Definition setHold (now : string) (h : option ScheduleHoldSource) (s : Schedule) : Schedule :=
  {| s with operatorHold := isSome h; holdSource := h; heldAt := if h is Some _ then Some now else None |}.

Definition switched (now : string) (on : bool) (hold : option bool) (existing : Schedule) : Schedule :=
  let s := {| existing with enabled := on; updatedAt := now |} in
  if on then setHold now None s
  else match hold with
       | Some true => setHold now (Some operator) s
       | Some false => setHold now None s
       | None => if isCriticalAllowlistedSchedule existing then setHold now (Some operator) s else s
       end.

Definition setEnabledRow (now i : string) (on : bool) (hold : option bool) (st : scheduleStore) :
    result ScheduleValidationError scheduleStore :=
  match get i st with
  | None => Err (notFound i)
  | Some existing => Ok (putRow now i (switched now on hold existing) st)
  end.

Definition archivedRow (now : string) (reason : option string) (existing : Schedule) : Schedule :=
  {| existing with archived := true; archivedAt := Some now;
                   archivedReason := truthyStr (trim <$> reason); updatedAt := now |}.

Definition unarchivedRow (now : string) (existing : Schedule) : Schedule :=
  {| existing with archived := false; archivedAt := None; archivedReason := None; updatedAt := now |}.

Definition archive (now i : string) (reason : option string) (st : scheduleStore) :
    result ScheduleValidationError scheduleStore :=
  match get i st with
  | None => Err (notFound i)
  | Some existing =>
      Ok (putRow now i (archivedRow now reason existing) st)
  end.

Definition unarchive (now i : string) (st : scheduleStore) : result ScheduleValidationError scheduleStore :=
  match get i st with
  | None => Err (notFound i)
  | Some existing =>
      Ok (putRow now i (unarchivedRow now existing) st)
  end.

Definition delete (i : string) (st : scheduleStore) : scheduleStore * bool :=
  match get i st with
  | None => (st, false)
  | Some _ =>
      (bumpRevision {| st with schedules := mdel i (schedules st);
                               resolutionCache := mdel i (resolutionCache st);
                               rollupState := removeRollup i (rollupState st) |}, true)
  end.

(** [load] from the rows the file decodes to. *)
Definition load (now : string) (rows : list Schedule) (persisted : option PersistedRollups)
    (st : scheduleStore) : scheduleStore :=
  let st := bumpRevision {| st with schedules := foldl (λ m s, mset (id s) s m) (schedules st) rows |} in
  {| st with rollupState := (loadRollups now persisted (list_ st) (rollupState st)).1 |}.

Definition recordDeployVerification (now deployedSha : string) (isContained : string → bool)
    (st : scheduleStore) : scheduleStore :=
  let candidates :=
    mkeys (setOf (omap (λ e, truthyStr (le_mergeCommit e)) (listAll st ≫= executionLedger))) in
  bumpRevision {| st with rollupState :=
    applyDeployVerification now (list_ st) deployedSha (List.filter isContained candidates) (rollupState st) |}.

Definition newStore : scheduleStore := mkStore [] 0 None [] (mkRollups [] [] None 0).

(** ** Lemmas on the ledger *)

Lemma prune_tail l cap :
  0 ≤ cap → ∃ older, pruneExecutionLedger l cap = List.filter isPendingLedgerEntry older ++ drop (length l - Z.to_nat cap) l
    ∧ take (length l - Z.to_nat cap) l = older.
Proof.
  intros Hc. eexists. split; [|done]. unfold pruneExecutionLedger.
  destruct (Z.ltb_spec cap 0); [lia|]. cbn [orb].
  destruct (Z.leb_spec (Z.of_nat (length l)) cap).
  - replace (length l - Z.to_nat cap)%nat with 0%nat by lia. by rewrite drop_0.
  - by replace (Z.to_nat (Z.of_nat (length l) - cap)) with (length l - Z.to_nat cap)%nat by lia.
Qed.

Lemma prune_sublist l cap : pruneExecutionLedger l cap `sublist_of` l.
Proof.
  unfold pruneExecutionLedger. destruct (_ || _); [done|]. cbn zeta.
  set (n := Z.to_nat _). rewrite <- (take_drop n l) at 3. apply sublist_app; [|done].
  generalize (take n l). intros k. induction k as [|x k IH]; [done|]. simpl.
  destruct (isPendingLedgerEntry x); by constructor.
Qed.

Lemma prune_pending l cap e :
  e ∈ l → isPendingLedgerEntry e = true → e ∈ pruneExecutionLedger l cap.
Proof.
  intros He Hp. unfold pruneExecutionLedger. destruct (_ || _); [done|]. cbn zeta.
  set (n := Z.to_nat _). rewrite <- (take_drop n l) in He. apply elem_of_app in He as [He|He]; apply elem_of_app; [left|by right].
  by apply list_elem_of_In, filter_In; rewrite <- list_elem_of_In.
Qed.

Lemma prune_length l cap :
  0 ≤ cap → Z.of_nat (length (pruneExecutionLedger l cap)) ≤ cap + Z.of_nat (countb isPendingLedgerEntry l).
Proof.
  intros Hc. unfold pruneExecutionLedger. destruct (Z.ltb_spec cap 0); [lia|]. cbn [orb].
  destruct (Z.leb_spec (Z.of_nat (length l)) cap); [lia|]. rewrite length_app, length_drop.
  set (n := Z.to_nat _). pose proof (countb_app isPendingLedgerEntry (take n l) (drop n l)) as H1. rewrite take_drop in H1.
  unfold countb in *. lia.
Qed.

(** The newest entries stay. *)
Lemma prune_newest l e cap : 0 < cap → e ∈ pruneExecutionLedger (l ++ [e]) cap.
Proof.
  intros Hc. destruct (prune_tail (l ++ [e]) cap) as (o & -> & _); [lia|]. apply elem_of_app. right.
  rewrite length_app. simpl. rewrite drop_app_le by lia. apply elem_of_app. right. set_solver.
Qed.

(** ** Lemmas on the rollups *)

(** The same figures: the time it was made and the order of the outcomes do not count. *)
Definition sameRollup (a b : ScheduleRollup) : Prop :=
  {| a with sr_outcomes := []; sr_updatedAt := ""%string |} = {| b with sr_outcomes := []; sr_updatedAt := ""%string |}
  ∧ mequiv (sr_outcomes a) (sr_outcomes b).

(** The rollup is the recount of the ledger. *)
Definition recounts (live : jmap string unit) (s : Schedule) (r : ScheduleRollup) : Prop :=
  sameRollup r (computeScheduleRollup s "" live).

(** The rollup with another time. *)
Definition stamped (n : string) (r : ScheduleRollup) : ScheduleRollup := {| r with sr_updatedAt := n |}.

Lemma rollup_fold_now live n l r :
  foldl (rollupEntry live) (stamped n r) l = stamped n (foldl (rollupEntry live) r l).
Proof.
  revert r. induction l as [|e l IH]; intros r; [done|]. cbn [foldl]. rewrite <- IH. done.
Qed.

Lemma compute_now s now live :
  computeScheduleRollup s now live = stamped now (computeScheduleRollup s "" live).
Proof. unfold computeScheduleRollup. rewrite <- rollup_fold_now. done. Qed.

Lemma compute_recounts live s now : recounts live s (computeScheduleRollup s now live).
Proof. unfold recounts. rewrite compute_now. by split. Qed.

(** A rollup depends on the id and the ledger only. *)
Lemma recounts_ledger live s s' r :
  id s' = id s → executionLedger s' = executionLedger s → recounts live s r → recounts live s' r.
Proof. unfold recounts, computeScheduleRollup. by intros -> ->. Qed.

Lemma mwf_bump {K} `{EqDecision K} (k : K) h : mwf h → mwf (Receipt.bump k h).
Proof. apply mwf_mset. Qed.

Lemma compute_outcomes_wf s now live : mwf (sr_outcomes (computeScheduleRollup s now live)).
Proof.
  unfold computeScheduleRollup.
  enough (H : ∀ l r, mwf (sr_outcomes r) → mwf (sr_outcomes (foldl (rollupEntry live) r l))) by (apply H, mwf_nil).
  induction l as [|e l IH]; intros r Hr; [done|]. apply IH. by apply mwf_bump.
Qed.

Lemma sameOutcomes_equiv a b : mwf a → mwf b → sameOutcomes a b = true → mequiv a b.
Proof.
  intros Ha Hb H. unfold sameOutcomes in H. apply andb_true_iff in H as [Hl Hk]. apply Nat.eqb_eq in Hl.
  rewrite forallb_forall in Hk.
  assert (Hk' : ∀ k, k ∈ mkeys a → mget k a = mget k b).
  { intros k Hin. apply list_elem_of_In in Hin. apply Hk in Hin. by apply bool_decide_eq_true in Hin. }
  assert (Hsub : mkeys a ⊆+ mkeys b).
  { apply NoDup_submseteq; [done|]. intros k Hin. apply elem_of_mkeys. rewrite <- (Hk' k Hin). by apply elem_of_mkeys. }
  apply submseteq_length_Permutation in Hsub; [|unfold mkeys; rewrite !length_fmap; lia].
  intros k. destruct (decide (k ∈ mkeys a)) as [|Hn]; [by apply Hk'|].
  assert (k ∉ mkeys b) by (by rewrite <- Hsub). apply not_elem_of_mkeys in Hn as ->. symmetry. by apply not_elem_of_mkeys.
Qed.

Lemma rollupsEqual_same a b :
  mwf (sr_outcomes a) → mwf (sr_outcomes b) → rollupsEqual a b = true → sameRollup a b.
Proof.
  intros Ha Hb H. unfold rollupsEqual in H. zbool.
  destruct a, b; cbn in *. destruct sr_costUsd0, sr_costUsd1; try done. zbool. subst.
  split; [done|]. by apply sameOutcomes_equiv.
Qed.

Lemma foldl_set_in {V} (f : Schedule → V) l m s :
  NoDup (map id l) → s ∈ l → mget (id s) (foldl (λ m s, mset (id s) (f s) m) m l) = Some (f s).
Proof.
  revert m. induction l as [|x l IH]; intros m Hnd Hs; [set_solver|]. cbn in *. apply NoDup_cons in Hnd as [Hx Hnd].
  apply elem_of_cons in Hs as [->|Hs]; [|by apply IH].
  enough (H : ∀ m i, i ∉ map id l → mget i (foldl (λ m s, mset (id s) (f s) m) m l) = mget i m).
  { rewrite H by done. apply mget_mset_eq. }
  clear. induction l as [|y l IH]; intros m i Hi; [done|]. cbn in *. rewrite IH by set_solver.
  apply mget_mset_ne. set_solver.
Qed.

Lemma foldl_set_out {V} (f : Schedule → V) l m i :
  i ∉ map id l → mget i (foldl (λ m s, mset (id s) (f s) m) m l) = mget i m.
Proof.
  revert m. induction l as [|y l IH]; intros m Hi; [done|]. cbn in *. rewrite IH by set_solver.
  apply mget_mset_ne. set_solver.
Qed.

(** What [loadOne] stores. *)
Definition loaded (live : jmap string unit) (now : string) (persisted : option PersistedRollups) (s : Schedule) :
    ScheduleRollup :=
  let fresh := computeScheduleRollup s now live in
  match (p ← persisted; mget (id s) (pr_rollups p)) with
  | Some prior => if rollupsEqual prior fresh then prior else fresh
  | None => fresh
  end.

Lemma loadOne_fold live now p l acc :
  (foldl (loadOne live now p) acc l).1 = foldl (λ m s, mset (id s) (loaded live now p s) m) acc.1 l.
Proof.
  revert acc. induction l as [|s l IH]; intros acc; [done|]. cbn [foldl]. rewrite IH. f_equal.
  unfold loadOne, loaded. repeat case_match; done.
Qed.

(** The rows of the rollup file are objects. *)
Definition persisted_wf (p : option PersistedRollups) : Prop :=
  ∀ q i r, p = Some q → mget i (pr_rollups q) = Some r → mwf (sr_outcomes r).

Lemma loaded_recounts live now p s : persisted_wf p → recounts live s (loaded live now p s).
Proof.
  intros Hp. unfold loaded. destruct p as [q|]; simpl; [|apply compute_recounts].
  destruct (mget (id s) (pr_rollups q)) as [r|] eqn:E; [|apply compute_recounts].
  destruct (rollupsEqual r _) eqn:Er; [|apply compute_recounts]. unfold recounts.
  apply rollupsEqual_same in Er; [|by eapply Hp|apply compute_outcomes_wf].
  destruct (compute_recounts live s now) as [H1 H2], Er as [H3 H4].
  split; [congruence|]. intros k. by rewrite H4, H2.
Qed.

(** ** The store in step with its rollups *)

(** The rollup of a listed schedule is the recount of its ledger; an archived row and an id
    without a row have none. *)
Definition rollupInStep (st : scheduleStore) (i : string) : Prop :=
  let r := mget i (rollups (rollupState st)) in
  match get i st with
  | Some s => if archived s then r = None
              else ∃ x, r = Some x ∧ recounts (liveVerifiedCommits (rollupState st)) s x
  | None => r = None
  end.

(** The rows are kept under their ids. *)
Definition rows_ok (st : scheduleStore) : Prop :=
  mwf (schedules st) ∧ ∀ i s, get i st = Some s → id s = i.

Definition in_step (st : scheduleStore) : Prop := rows_ok st ∧ ∀ i, rollupInStep st i.

Lemma newStore_in_step : in_step newStore.
Proof. split; [split; [apply mwf_nil|done]|done]. Qed.

Lemma putRow_rows now i s st : id s = i → rows_ok st → rows_ok (putRow now i s st).
Proof.
  intros <- [Hw Hi]. split; unfold get, putRow, bumpRevision, syncRollup; cbn [schedules]; [by apply mwf_mset|].
  intros j t. rewrite mget_mset. case_decide as E; [intros [= <-]; by rewrite E|apply Hi].
Qed.

Lemma putRow_in_step now i s st : id s = i → in_step st → in_step (putRow now i s st).
Proof.
  intros <- [Hrow Hr]. split; [by apply putRow_rows|]. intros j. specialize (Hr j).
  unfold rollupInStep, get, putRow, bumpRevision, syncRollup, removeRollup, updateFromSchedule in *. cbn [schedules rollupState].
  rewrite mget_mset. destruct (decide (j = id s)) as [->|Hn].
  - destruct (archived s); cbn [rollups liveVerifiedCommits]; [apply mget_mdel_eq|]. eexists.
    split; [apply mget_mset_eq|apply compute_recounts].
  - destruct (archived s); cbn [rollups liveVerifiedCommits]; [by rewrite mget_mdel_ne|by rewrite mget_mset_ne].
Qed.

Lemma elem_of_list_ st s : rows_ok st → s ∈ list_ st ↔ get (id s) st = Some s ∧ archived s = false.
Proof.
  intros [Hw Hi]. unfold list_, listAll. rewrite list_elem_of_In, filter_In, <- list_elem_of_In, negb_true_iff.
  unfold mvals. rewrite list_elem_of_fmap. split.
  - intros [([i t] & -> & H) Ha]. split; [|done]. cbn in *. pose proof (elem_of_mget _ _ _ Hw H) as E.
    by rewrite (Hi i t E).
  - intros [H Ha]. split; [|done]. exists (id s, s). split; [done|]. by apply mget_elem_of.
Qed.

Lemma filter_map_NoDup {A B} (f : A → B) p l : NoDup (map f l) → NoDup (map f (List.filter p l)).
Proof.
  induction l as [|s l IH]; intros Hn; [by constructor|]. cbn in *. apply NoDup_cons in Hn as [Hs Hn].
  specialize (IH Hn). destruct (p s); cbn; [|done]. apply NoDup_cons. split; [|done].
  contradict Hs. clear -Hs. induction l as [|t l IH]; [done|]. cbn in *. destruct (p t); cbn in *; set_solver.
Qed.

Lemma list_ids st : rows_ok st → NoDup (map id (list_ st)).
Proof.
  intros [Hw Hi]. apply filter_map_NoDup. unfold listAll, get, mwf, mkeys in *.
  assert (H : map id (mvals (schedules st)) = (schedules st).*1); [|by rewrite H].
  unfold mvals. rewrite map_map. apply map_ext_in. intros [i s] Hin%list_elem_of_In. apply Hi. by apply elem_of_mget.
Qed.

(** Setting the rollup of every listed schedule. *)
Lemma rollups_of_list st (f : Schedule → ScheduleRollup) m live sha n :
  rows_ok st →
  (∀ i, i ∉ map id (list_ st) → mget i m = None) →
  (∀ s, recounts live s (f s)) →
  in_step {| st with rollupState :=
    mkRollups (foldl (λ m s, mset (id s) (f s) m) m (list_ st)) live sha n |}.
Proof.
  intros Hst Hm Hf. pose proof (list_ids _ Hst) as Hnd. split; [done|]. intros i. unfold rollupInStep, get.
  cbn [schedules rollupState rollups liveVerifiedCommits].
  assert (Hout : (∀ s, get i st = Some s → archived s = true) → mget i (foldl (λ m s, mset (id s) (f s) m) m (list_ st)) = None).
  { intros H. assert (Hn : i ∉ map id (list_ st)).
    { intros (s & Hid & Hin)%list_elem_of_fmap. apply elem_of_list_ in Hin as [Hg Ha]; [|done].
      rewrite <- Hid in Hg. rewrite (H _ Hg) in Ha. done. }
    rewrite foldl_set_out by done. by apply Hm. }
  unfold get in Hout. destruct (mget i (schedules st)) as [s|] eqn:E; [|by apply Hout].
  destruct (archived s) eqn:Ea; [apply Hout; naive_solver|]. pose proof (proj2 Hst i s E) as <-.
  exists (f s). split; [|done]. apply foldl_set_in; [done|]. by apply elem_of_list_.
Qed.

Lemma load_in_step now rows p st : persisted_wf p → rows_ok st → in_step (load now rows p st).
Proof.
  intros Hp [Hw Hi]. unfold load.
  set (st1 := bumpRevision {| st with schedules := foldl (λ m s, mset (id s) s m) (schedules st) rows |}).
  assert (Hrow : rows_ok st1).
  { unfold rows_ok, st1, get, bumpRevision. cbn [schedules]. unfold get in Hi. revert Hw Hi.
    generalize (schedules st). induction rows as [|s rows IH]; intros m Hw Hi; [done|]. cbn [foldl].
    apply IH; [by apply mwf_mset|]. intros j t. rewrite mget_mset. case_decide as E; [intros [= <-]; done|apply Hi]. }
  unfold loadRollups. set (live := setOf _). destruct (foldl (loadOne live now p) ([], []) (list_ st1)) as [m rec] eqn:Em.
  cbn [fst]. pose proof (loadOne_fold live now p (list_ st1) ([], [])) as H. rewrite Em in H. cbn [fst] in H. subst m.
  apply (rollups_of_list st1); [done|done|]. intros s. by apply loaded_recounts.
Qed.

Lemma deploy_in_step now sha c st : in_step st → in_step (recordDeployVerification now sha c st).
Proof.
  intros [Hrow Hr]. unfold recordDeployVerification, applyDeployVerification.
  apply (rollups_of_list (bumpRevision st)); [done| |intros; apply compute_recounts].
  intros i Hn. specialize (Hr i). unfold rollupInStep in Hr. destruct (get i st) as [s|] eqn:E; [|done].
  destruct (archived s) eqn:Ea; [done|]. exfalso. apply Hn. apply list_elem_of_fmap. exists s.
  split; [symmetry; by apply (proj2 Hrow)|]. apply (elem_of_list_ (bumpRevision st)); [done|].
  pose proof (proj2 Hrow _ _ E) as ->. done.
Qed.

Lemma delete_in_step i st : in_step st → in_step (delete i st).1.
Proof.
  intros [[Hw Hi] Hr]. unfold delete. destruct (get i st) as [s|] eqn:E; [|by split]. cbn [fst]. unfold bumpRevision.
  split; [split|]; unfold rollupInStep, get; cbn [schedules rollupState removeRollup rollups liveVerifiedCommits].
  - by apply mwf_mdel.
  - intros j t. rewrite mget_mdel. case_decide; [done|apply Hi].
  - intros j. specialize (Hr j). unfold rollupInStep, get in Hr. rewrite mget_mdel.
    destruct (decide (j = i)) as [->|Hn]; [apply mget_mdel_eq|]. by rewrite mget_mdel_ne.
Qed.

(** ** Histories of the store *)

Inductive storeOp :=
| OpCreate (now uuid : string) (i : CreateScheduleInput)
| OpUpdate (now i : string) (p : UpdateScheduleDefinitionInput)
| OpEnable (now i : string) (on : bool) (hold : option bool)
| OpArchive (now i : string) (reason : option string)
| OpUnarchive (now i : string)
| OpDelete (i : string)
| OpReplace (now : string) (s : Schedule)
| OpResolution (i : string) (signature : list string) (ok : bool)
| OpDeploy (now sha : string) (isContained : string → bool).

(** The store after the operation; an operation that throws leaves it. *)
Definition execStore (isValidCron : string → bool) (st : scheduleStore) (o : storeOp) : scheduleStore :=
  let kept {E} (r : result E scheduleStore) := match r with Ok st' => st' | Err _ => st end in
  match o with
  | OpCreate now uuid i => match create isValidCron now uuid i st with Ok (st', _) => st' | Err _ => st end
  | OpUpdate now i p => match updateDefinition isValidCron now i p st with Ok (st', _) => st' | Err _ => st end
  | OpEnable now i on hold => kept (setEnabledRow now i on hold st)
  | OpArchive now i reason => kept (archive now i reason st)
  | OpUnarchive now i => kept (unarchive now i st)
  | OpDelete i => (delete i st).1
  | OpReplace now s => replace now s st
  | OpResolution i sg ok => setPlaybookResolution i sg ok st
  | OpDeploy now sha c => recordDeployVerification now sha c st
  end.

Lemma execStore_in_step v st o : in_step st → in_step (execStore v st o).
Proof.
  intros H. assert (Hid : ∀ i s, get i st = Some s → id s = i) by apply H.
  destruct o; cbn [execStore]; unfold create, updateDefinition, setEnabledRow, archive, unarchive, replace.
  - destruct (createError v i); [done|]. by apply putRow_in_step.
  - destruct (get i st) as [s|] eqn:E; [|done]. destruct (updateError v s p); [done|].
    apply putRow_in_step; [|done]. by apply (Hid i s).
  - destruct (get i st) as [s|] eqn:E; [|done]. apply putRow_in_step; [|done]. rewrite <- (Hid i s E).
    unfold switched, setHold. repeat case_match; done.
  - destruct (get i st) as [s|] eqn:E; [|done]. apply putRow_in_step; [|done]. by apply (Hid i s).
  - destruct (get i st) as [s|] eqn:E; [|done]. apply putRow_in_step; [|done]. by apply (Hid i s).
  - by apply delete_in_step.
  - by apply putRow_in_step.
  - exact H.
  - by apply deploy_in_step.
Qed.



End Sched.
