(* ===== verification/ScheduleService.v ===== *)
(** * The schedule service

    [src/server/schedule-service.ts]: the operations on the schedules with what they write and
    send.  A method changes the rows before it first awaits, writes the schedule file, and then
    tells the clients: it is one step here, with the outcome of the write in its environment.
    The decision of the validator before a definition is created or changed is an argument. *)

From Stdlib Require QArith.Qround.
From S2P Require Import Prelude JsMap JsArray JsString JsRegExp JsJson AgentEvents TaskTypes TerminalReceipt JsDate Schedule.

Module Service.
Import Sched.
#[local] Open Scope Z_scope.

(** ** Failures *)

Definition DEFAULT_SCHEDULE_FAILURE_ALERT_THRESHOLD : Z := 3.

Definition nextConsecutiveFailures (previous : option Z) (status : ScheduleLastRunStatus) : Z :=
  match status with run_completed => 0 | _ => orElse previous 0 + 1 end.

Definition shouldAutoPauseForConsecutiveFailures (failures threshold : Z) (currentlyEnabled : bool) : bool :=
  if negb currentlyEnabled then false
  else if negb (0 <? threshold) then false
  else threshold <=? failures.

Definition SKIP_POINTER_OUTCOMES (o : ScheduleExecutionOutcome) : bool :=
  match o with skipped_active | skipped_coalesced => true | _ => false end.

Definition isHealthySkipOutcome (o : ScheduleExecutionOutcome) : bool :=
  bool_decide (o = deduplicated) || startsWith "skipped_" (outcomeName o).

Definition isGenuineTerminationFailure (r : option TerminationReason)
    (serverRestartActive reconciledAfterRestart : bool) : bool :=
  match r with
  | Some tr_timeout | Some tr_oom => true
  | Some tr_unknown => negb serverRestartActive && negb reconciledAfterRestart
  | Some tr_server_restart | Some tr_manual | Some tr_supervisor | Some tr_provider_transient | None => false
  end.

Definition isGenuineExecutionFailure (o : ScheduleExecutionOutcome) (r : option TerminationReason)
    (serverRestartActive reconciledAfterRestart : bool) : bool :=
  match o with
  | dispatch_failed => true
  | cancelled => isGenuineTerminationFailure r serverRestartActive reconciledAfterRestart
  | _ => false
  end.

(** ** What a task adds to its row *)

Record ScheduleLedgerEnrichment := mkEnrichment {
  en_tokenUsage : option TokenUsage;
  en_artifacts : option (list string);
  en_mergeCommit : option string
}.

Definition noEnrichment : ScheduleLedgerEnrichment := mkEnrichment None None None.

Definition deriveLedgerEnrichment (t : option Task) : ScheduleLedgerEnrichment :=
  match t with
  | None => noEnrichment
  | Some t =>
      let digest := Task.completionDigest t in
      let artifacts := List.filter (λ u, negb (String.eqb u "")) (orElse (d ← digest; prUrls d) []) in
      mkEnrichment (Task.tokenUsage t)
        (match artifacts with [] => None | _ => Some artifacts end)
        (truthyStr (d ← digest; mergeCommit d))
  end.

Definition deriveScheduleTerminalReason (t : option Task) : option ScheduleTerminalReason :=
  match t with
  | None => None
  | Some t =>
      match Receipt.projectTerminalReceipt t with
      | None => None
      | Some r =>
          Some (mkTerminalReason (rc_reason r) (rc_source r)
            (if bool_decide (rc_reason r = provider_failure) then truthyStr (Some (Task.agentType t)) else None)
            (rc_at r))
      end
  end.

(** ** The ledger of a row *)

Definition triggerName (t : ScheduleExecutionTrigger) : string :=
  match t with cron_trigger => "cron" | manual_trigger => "manual" end%string.

Definition ledgerKeyFor (scheduleId : string) (t : ScheduleExecutionTrigger) (key : string) : string :=
  scheduleId +:+ ":" +:+ triggerName t +:+ ":" +:+ key.

(** [{ ...old, ...new }]: the fields the new entry sets. *)
Definition mergeEntry (old new : ScheduleExecutionLedgerEntry) : ScheduleExecutionLedgerEntry :=
  {| le_id := le_id new; le_scheduleId := le_scheduleId new;
     le_receiptId := orOpt (le_receiptId new) (le_receiptId old);
     le_executionToken := orOpt (le_executionToken new) (le_executionToken old);
     le_trigger := le_trigger new; le_decision := le_decision new;
     le_scheduledFor := orOpt (le_scheduledFor new) (le_scheduledFor old);
     le_evaluatedAt := le_evaluatedAt new;
     le_completedAt := orOpt (le_completedAt new) (le_completedAt old);
     le_taskId := orOpt (le_taskId new) (le_taskId old);
     le_blockingTaskId := orOpt (le_blockingTaskId new) (le_blockingTaskId old);
     le_outcome := le_outcome new;
     le_reasonCode := orOpt (le_reasonCode new) (le_reasonCode old);
     le_message := orOpt (le_message new) (le_message old);
     le_tokenUsage := orOpt (le_tokenUsage new) (le_tokenUsage old);
     le_artifacts := orOpt (le_artifacts new) (le_artifacts old);
     le_launchPhaseTimings := orOpt (le_launchPhaseTimings new) (le_launchPhaseTimings old);
     le_mergeCommit := orOpt (le_mergeCommit new) (le_mergeCommit old);
     le_terminalReason := orOpt (le_terminalReason new) (le_terminalReason old);
     le_playbookSource := orOpt (le_playbookSource new) (le_playbookSource old);
     le_requestedProvider := orOpt (le_requestedProvider new) (le_requestedProvider old);
     le_attemptedProvider := orOpt (le_attemptedProvider new) (le_attemptedProvider old) |}.

(** [findIndex], and the update there. *)
Fixpoint updateAt (entry : ScheduleExecutionLedgerEntry) (l : list ScheduleExecutionLedgerEntry) :
    option (list ScheduleExecutionLedgerEntry) :=
  match l with
  | [] => None
  | x :: l' =>
      if String.eqb (le_id x) (le_id entry) then Some (mergeEntry x entry :: l')
      else (λ r, x :: r) <$> updateAt entry l'
  end.

Definition upsertLedgerEntry (l : list ScheduleExecutionLedgerEntry) (entry : ScheduleExecutionLedgerEntry) :
    list ScheduleExecutionLedgerEntry :=
  match updateAt entry l with
  | Some l' => l'
  | None => pruneExecutionLedger (l ++ [entry]) MAX_LEDGER_ENTRIES
  end.

(** What the end of a task writes on its rows. *)
Record RowPatch := mkPatch {
  pt_outcome : ScheduleExecutionOutcome;
  pt_reasonCode : ScheduleExecutionReasonCode;
  pt_completedAt : string;
  pt_message : option string;
  pt_enrichment : ScheduleLedgerEnrichment;
  pt_terminalReason : option ScheduleTerminalReason
}.

Definition patchRow (p : RowPatch) (e : ScheduleExecutionLedgerEntry) : ScheduleExecutionLedgerEntry :=
  {| e with le_outcome := pt_outcome p; le_reasonCode := Some (pt_reasonCode p);
            le_completedAt := Some (pt_completedAt p);
            le_message := orOpt (pt_message p) (le_message e);
            le_tokenUsage := orOpt (en_tokenUsage (pt_enrichment p)) (le_tokenUsage e);
            le_artifacts := orOpt (en_artifacts (pt_enrichment p)) (le_artifacts e);
            le_mergeCommit := orOpt (en_mergeCommit (pt_enrichment p)) (le_mergeCommit e);
            le_terminalReason := orOpt (pt_terminalReason p) (le_terminalReason e) |}.

Definition ofTask (taskId : string) (e : ScheduleExecutionLedgerEntry) : bool :=
  bool_decide (le_taskId e = Some taskId).

Definition updateLedgerEntryForTask (l : list ScheduleExecutionLedgerEntry) (taskId : string) (p : RowPatch) :
    list ScheduleExecutionLedgerEntry :=
  map (λ e, if ofTask taskId e then patchRow p e else e) l.

Definition closeMidFlightLedgerRowsForTask (l : list ScheduleExecutionLedgerEntry) (taskId : string)
    (p : RowPatch) : list ScheduleExecutionLedgerEntry :=
  map (λ e, if ofTask taskId e && negb (SKIP_POINTER_OUTCOMES (le_outcome e)) then patchRow p e else e) l.

(** The details a row made from a receipt may carry. *)
Record EntryDetails := mkDetails {
  ed_completedAt : string;
  ed_taskId : option string;
  ed_blockingTaskId : option string;
  ed_message : option string;
  ed_launchPhaseTimings : option json;
  ed_playbookSource : option SchedulePlaybookCheckoutSource;
  ed_requestedProvider : option string;
  ed_attemptedProvider : option string
}.

(** [requestedProvider] when it is not the attempted one. *)
Definition requestedOther (requested attempted : option string) : option string :=
  match truthyStr requested with
  | Some r => if bool_decide (attempted = Some r) then None else Some r
  | None => None
  end.

Definition ledgerEntryFromReceipt (s : Schedule) (r : ScheduleExecutionReceipt)
    (o : ScheduleExecutionOutcome) (why : ScheduleExecutionReasonCode) (d : EntryDetails) :
    ScheduleExecutionLedgerEntry :=
  {| le_id := ledgerKeyFor (id s) (rx_trigger r) (orElse (rx_scheduledFor r) (rx_id r));
     le_scheduleId := id s; le_receiptId := Some (rx_id r); le_executionToken := Some (rx_executionToken r);
     le_trigger := rx_trigger r; le_decision := rx_decision r;
     le_scheduledFor := truthyStr (rx_scheduledFor r); le_evaluatedAt := rx_evaluatedAt r;
     le_completedAt := Some (ed_completedAt d); le_taskId := truthyStr (ed_taskId d);
     le_blockingTaskId := truthyStr (ed_blockingTaskId d); le_outcome := o; le_reasonCode := Some why;
     le_message := truthyStr (ed_message d); le_tokenUsage := None; le_artifacts := None;
     le_launchPhaseTimings := ed_launchPhaseTimings d; le_mergeCommit := None; le_terminalReason := None;
     le_playbookSource := ed_playbookSource d;
     le_requestedProvider := requestedOther (ed_requestedProvider d) (ed_attemptedProvider d);
     le_attemptedProvider := truthyStr (ed_attemptedProvider d) |}.

(** The fields a consumed trigger changes. *)
Definition consumeCronTrigger (s : Schedule) (trigger : ScheduleExecutionTrigger) (shouldConsume : bool)
    (now : string) : option TriggerState :=
  match maxTriggers s with
  | Some m =>
      if negb shouldConsume || negb (bool_decide (trigger = cron_trigger)) then None
      else
        let remaining := Z.max (orElse (remainingTriggers s) m - 1) 0 in
        Some (if remaining =? 0
              then mkTriggers (Some m) (Some remaining) (Some trigger_limit_reached)
                     (Some (orElse (exhaustedAt s) now)) (Some false)
              else mkTriggers (Some m) (Some remaining) None None None)
  | None => None
  end.

Definition withConsumed (t : option TriggerState) (s : Schedule) : Schedule :=
  match t with Some t => withTriggers t s | None => s end.

(** ** Alerts *)

Inductive AlertState := alert_fired | alert_recovered.

Record Alert := mkAlert {
  al_key : string;
  al_summary : string;
  al_details : string;
  al_state : AlertState
}.

(** The string a reason is in the code. *)
Definition reasonName (r : TerminalReasonCategory) : string :=
  match r with
  | completed_normal => "completed_normal" | completed_recovery => "completed_recovery"
  | rc_server_restart => "server_restart" | rc_timeout => "timeout" | rc_oom => "oom"
  | provider_failure => "provider_failure" | launch_failure => "launch_failure"
  | rc_manual => "manual" | rc_supervisor => "supervisor" | rc_unknown => "unknown"
  | rc_unknown_legacy => "unknown_legacy"
  end%string.

Definition describeScheduleTerminalReason (r : option ScheduleTerminalReason) : string :=
  match r with
  | None => ""
  | Some r =>
      reasonName (tr_reasonCode r) +:+
      match bool_decide (tr_reasonCode r = provider_failure), truthyStr (tr_provider r) with
      | true, Some p => " (" +:+ p +:+ ")"
      | _, _ => ""
      end
  end%string.

(** A quotation mark around a name. *)
Definition quoted (s : string) : string := unchars (quoteChar :: chars s ++ [quoteChar]).

Definition alertKey (s : Schedule) : string := "schedule:failures:" +:+ id s.

Definition buildScheduleFailureAlert (s : Schedule) (failures threshold : Z) (lastMessage : option string)
    (autoPaused : bool) (r : option ScheduleTerminalReason) : Alert :=
  let detail := match truthyStr lastMessage with Some m => " Last error: " +:+ m +:+ "." | None => "" end in
  let label := truthyStr (Some (describeScheduleTerminalReason r)) in
  let suffix := match label with Some l => " (last failure: " +:+ l +:+ ")" | None => "" end in
  let classification :=
    match label with Some l => " The most recent failure was classified as " +:+ l +:+ "." | None => "" end in
  let pauseNote :=
    if autoPaused then
      " The schedule has been auto-paused (enabled=false, stopReason=consecutive_failures) to stop thrashing capacity; re-enable it after inspecting the loop to clear the counter and resume fires."
    else
      " A run that completes successfully resets the counter and clears this alert. This alert is raised once per failing episode." in
  {| al_key := alertKey s;
     al_summary :=
       if autoPaused then
         "Schedule " +:+ quoted (name s) +:+ " auto-paused after " +:+ showZ failures +:+ " consecutive failures" +:+ suffix
       else "Schedule " +:+ quoted (name s) +:+ " has failed " +:+ showZ failures +:+ " consecutive runs" +:+ suffix;
     al_details :=
       "Schedule " +:+ quoted (name s) +:+ " (" +:+ id s +:+ ") has now failed " +:+ showZ failures
       +:+ " consecutive runs, crossing the threshold of " +:+ showZ threshold
       +:+ " (scheduleFailureAlertThreshold setting)." +:+ detail +:+ classification +:+ pauseNote;
     al_state := alert_fired |}%string.

Inductive ScheduleFailureRecoveryCause := completed_run | re_enabled.

Definition buildScheduleFailureRecoveryAlert (s : Schedule) (c : ScheduleFailureRecoveryCause) : Alert :=
  let subject := "schedule " +:+ quoted (name s) in
  {| al_key := alertKey s;
     al_summary :=
       match c with
       | re_enabled => "Recovered: " +:+ subject +:+ " was re-enabled after a consecutive-failure pause"
       | completed_run => "Recovered: " +:+ subject +:+ " completed a run again"
       end;
     al_details :=
       match c with
       | re_enabled =>
           "Schedule " +:+ quoted (name s) +:+ " (" +:+ id s +:+ ") was re-enabled after a consecutive-failure pause, resetting its consecutive-failure counter to 0 and clearing the failure alert. This was a re-enable, not a completed run " +:+ unchars [ascii_of_N 151] +:+ " the underlying failure was force-cleared, so confirm the loop actually recovered."
       | completed_run =>
           "Schedule " +:+ quoted (name s) +:+ " (" +:+ id s +:+ ") completed a run, resetting its consecutive-failure counter to 0 and clearing the failure alert."
       end;
     al_state := alert_recovered |}%string.

(** ** The state *)

(** What a step reads: the clock, whether the file is written, the setting of the threshold,
    whether alerts are wired, and the lookups of a task. *)
Record env := mkEnv {
  e_now : string;
  e_persistOk : bool;
  e_threshold : option QArith_base.Q;
  e_emitAlert : bool;
  e_enrichment : string → ScheduleLedgerEnrichment;
  e_terminalReason : string → option ScheduleTerminalReason;
  e_serverRestarting : bool
}.

Inductive CatchUpMode := mode_auto | mode_manual | mode_off.

Record DeadManStats := mkStats {
  dm_attempts : Z;
  dm_successes : Z;
  dm_escalated : bool;
  dm_authExpired : bool
}.

Inductive effect := Broadcast | SendAlert (a : Alert).

Record svc := mkSvc {
  rows : scheduleStore;
  file : list Schedule;
  sent : list effect;
  runnerStartedAt : option string;
  lastTickCompletedAt : option string;
  lastError : option string;
  catchUpMode : CatchUpMode;
  deadManSelfHeal : option DeadManStats
}.

Inductive svcError := Invalid (e : ScheduleValidationError) | PersistFailed.

(** What a method gives: nothing, or what it throws, and the state it leaves. *)
Abbreviation outcome := (option svcError * svc)%type.

Definition send (l : list effect) (v : svc) : svc := {| v with sent := sent v ++ l |}.

Definition broadcastSchedules (v : svc) : svc := send [Broadcast] v.

(** [replace] on the rows of the service. *)
Definition put (e : env) (s : Schedule) (v : svc) : svc := {| v with rows := replace (e_now e) s (rows v) |}.

(** [await this.store.persist()]: the whole set is written, or the method throws. *)
Definition persist (e : env) (v : svc) : outcome :=
  if e_persistOk e then (None, {| v with file := listAll (rows v) |}) else (Some PersistFailed, v).

(** What follows an [await]: not reached when it threw. *)
Definition after (r : outcome) (k : svc → outcome) : outcome :=
  match r with (None, v) => k v | (Some _, _) => r end.

(** [await this.store.persist(); this.broadcastSchedules()]. *)
Definition commit (e : env) (v : svc) : outcome :=
  after (persist e v) (λ v, (None, broadcastSchedules v)).

Definition alertAfter (r : outcome) (l : list Alert) : outcome :=
  after r (λ v, (None, send (SendAlert <$> l) v)).

(** [requireSchedule] and what follows. *)
Definition withSchedule (i : string) (v : svc) (k : Schedule → outcome) : outcome :=
  match get i (rows v) with
  | None => (Some (Invalid (notFound i)), v)
  | Some s => k s
  end.

Definition receiptNotFound (i : string) : ScheduleValidationError :=
  mkInvalid ("Execution receipt not found: " +:+ i) [("receipt", "not_found")]%string.

Definition requireReceipt (s : Schedule) (receiptId : string) : option ScheduleExecutionReceipt :=
  match currentExecution s with
  | Some r => if String.eqb (rx_id r) receiptId then Some r else None
  | None => None
  end.

(** ** The threshold *)

Definition resolveFailureAlertThreshold (e : env) : Z :=
  match e_threshold e with
  | Some q => if negb (QArith_base.Qle_bool q (QArith_base.inject_Z 0)) then QArith.Qround.Qfloor q
              else DEFAULT_SCHEDULE_FAILURE_ALERT_THRESHOLD
  | None => DEFAULT_SCHEDULE_FAILURE_ALERT_THRESHOLD
  end.

Definition emitFailureAlertOnEdge (e : env) (previous : Schedule) (nextCount : Z) (lastMessage : option string)
    (autoPaused : bool) (r : option ScheduleTerminalReason) : list Alert :=
  if negb (e_emitAlert e) || archived previous then []
  else
    let priorCount := orElse (consecutiveFailures previous) 0 in
    let threshold := resolveFailureAlertThreshold e in
    if threshold <=? 0 then []
    else if (priorCount <? threshold) && (threshold <=? nextCount)
    then [buildScheduleFailureAlert previous nextCount threshold lastMessage autoPaused r]
    else if (threshold <=? priorCount) && (nextCount =? 0)
    then [buildScheduleFailureRecoveryAlert previous completed_run]
    else if autoPaused && (threshold <=? priorCount) && (threshold <=? nextCount)
    then [buildScheduleFailureAlert previous nextCount threshold lastMessage true r]
    else [].

Definition emitFailureRecoveryOnReEnable (e : env) (previous : Schedule) : list Alert :=
  if negb (e_emitAlert e) || archived previous then []
  else
    let threshold := resolveFailureAlertThreshold e in
    if threshold <=? 0 then []
    else if orElse (consecutiveFailures previous) 0 <? threshold then []
    else [buildScheduleFailureRecoveryAlert previous re_enabled].

(** The time of the hold, when the schedule is to be paused. *)
Definition autoPausePatch (e : env) (s : Schedule) (failures : Z) : option string :=
  if archived s then None
  else if negb (shouldAutoPauseForConsecutiveFailures failures (resolveFailureAlertThreshold e) (enabled s))
  then None
  else if isRecoveryCriticalSchedule s then None
  else Some (e_now e).

Definition withPause (p : option string) (s : Schedule) : Schedule :=
  match p with
  | None => s
  | Some at_ =>
      {| s with enabled := false; stopReason := Some consecutive_failures; operatorHold := true;
                holdSource := Some daemon; heldAt := Some at_ |}
  end.

(** ** The runner's marks *)

Definition setDeadManSelfHealStats (d : DeadManStats) (v : svc) : svc := {| v with deadManSelfHeal := Some d |}.

Definition recordRunnerStarted (e : env) (m : CatchUpMode) (v : svc) : svc :=
  broadcastSchedules {| v with runnerStartedAt := Some (e_now e); catchUpMode := m; lastError := None |}.

Definition recordTickCompleted (e : env) (v : svc) : svc :=
  broadcastSchedules {| v with lastTickCompletedAt := Some (e_now e); lastError := None |}.

Definition recordRunnerError (m : string) (v : svc) : svc :=
  broadcastSchedules {| v with lastError := Some m |}.

Definition schedulerHealthy (v : svc) : bool :=
  negb (isSome (truthyStr (loadError (rows v)))) && negb (isSome (truthyStr (lastError v))).

(** The schedules a status snapshot shows as paused by failures. *)
Definition schedulesPausedByFailure (v : svc) : list (string * string * Z * option ScheduleTerminalReason) :=
  (λ s, (id s, name s, orElse (consecutiveFailures s) 0, x ← latestExecution s; lx_terminalReason x)) <$>
  List.filter (λ s, bool_decide (stopReason s = Some consecutive_failures) && negb (enabled s)) (list_ (rows v)).

(** ** Pausing and re-arming *)

(** One round of the enforcement: the rows and the number paused. *)
Definition enforceStep (e : env) (acc : svc * Z) (s : Schedule) : svc * Z :=
  let '(v, paused) := acc in
  let threshold := resolveFailureAlertThreshold e in
  let count := orElse (consecutiveFailures s) 0 in
  if negb (shouldAutoPauseForConsecutiveFailures count threshold (enabled s)) then acc
  else
    match autoPausePatch e s count with
    | None => acc
    | Some p =>
        let v := put e (withPause (Some p) s) v in
        let shown := {| s with consecutiveFailures := Some (Z.max 0 (threshold - 1)) |} in
        (send (SendAlert <$> emitFailureAlertOnEdge e shown count
                 (Some "Auto-paused: consecutive failure threshold already reached"%string) true None) v,
         paused + 1)
    end.

Definition enforceFailureAutoPauses (e : env) (v : svc) : outcome :=
  if resolveFailureAlertThreshold e <=? 0 then (None, v)
  else
    let '(v', paused) := foldl (enforceStep e) (v, 0) (list_ (rows v)) in
    if 0 <? paused then commit e v' else (None, v').

(** The counter a re-enable clears. *)
Definition clearedRow (s : Schedule) : Schedule :=
  {| s with consecutiveFailures := Some 0;
            stopReason := if bool_decide (stopReason s = Some consecutive_failures) then None else stopReason s |}.

(** The row a switch leaves: a re-enabled one starts with a clear counter. *)
Definition needsClear (s : Schedule) : bool :=
  (0 <? orElse (consecutiveFailures s) 0) || bool_decide (stopReason s = Some consecutive_failures).

Definition setEnabled (e : env) (i : string) (on : bool) (hold : option bool) (v : svc) : outcome :=
  withSchedule i v (λ s,
    if on && isTriggerLimitExhausted s then
      (Some (Invalid (invalid "Schedule trigger limit has been exhausted" "maxTriggers"
                        "Increase or clear the trigger limit before resuming")), v)
    else
      match setEnabledRow (e_now e) i on hold (rows v) with
      | Err x => (Some (Invalid x), v)
      | Ok st =>
          let v1 := {| v with rows := st |} in
          let v2 :=
            match (if on then get i st else None) with
            | Some s1 =>
                if needsClear s1
                then put e (clearedRow s1) (send (SendAlert <$> emitFailureRecoveryOnReEnable e s1) v1)
                else v1
            | None => v1
            end in
          commit e v2
      end).

(** A loop over schedules read before it began, each awaited: a step that throws is skipped.
    [rearmTransientFailureHolds] is the loop with nothing else at its awaits; the machine below
    takes its rounds one by one. *)
Definition rearmStep (e : env) (healthy : bool) (ready : option string) (acc : svc * list string) (s : Schedule) :
    svc * list string :=
  let '(v, rearmed) := acc in
  if isSome (decideTransientFailureRearm s healthy ready) then acc
  else if isTriggerLimitExhausted s then acc
  else match setEnabled e (id s) true None v with
       | (None, v') => (v', rearmed ++ [id s])
       | (Some _, v') => (v', rearmed)
       end.

Definition rearmTransientFailureHolds (e : env) (healthy : bool) (readyAt : option string) (v : svc) :
    svc * list string :=
  foldl (rearmStep e healthy (orOpt readyAt (runnerStartedAt v))) (v, []) (list_ (rows v)).

Section watermark.
Variable dateParse : string → option Z.

Definition holdPredatesWatermark (held watermark : option string) : bool :=
  match truthyStr watermark with
  | None => true
  | Some w =>
      match dateParse w with
      | None => true
      | Some wm =>
          match truthyStr held with
          | None => true
          | Some h => match dateParse h with None => true | Some hm => hm <? wm end
          end
      end
  end.

Inductive RecoverySkip := held_after_watermark | recovery_exhausted | recovery_threw (x : svcError).

(** One round of the recovery: recovered and skipped ids. *)
Definition recoverStep (e : env) (heldBefore : option string)
    (acc : svc * list string * list (string * RecoverySkip)) (s : Schedule) :
    svc * list string * list (string * RecoverySkip) :=
  let '(v, recovered, skipped) := acc in
  if enabled s || negb (bool_decide (stopReason s = Some consecutive_failures)) then acc
  else if isSome (truthyStr heldBefore) && negb (holdPredatesWatermark (heldAt s) heldBefore)
  then (v, recovered, skipped ++ [(id s, held_after_watermark)])
  else if isTriggerLimitExhausted s then (v, recovered, skipped ++ [(id s, recovery_exhausted)])
  else match setEnabled e (id s) true None v with
       | (None, v') => (v', recovered ++ [id s], skipped)
       | (Some x, v') => (v', recovered, skipped ++ [(id s, recovery_threw x)])
       end.

Definition recoverConsecutiveFailureHolds (e : env) (heldBefore : option string) (v : svc) :
    svc * list string * list (string * RecoverySkip) :=
  foldl (recoverStep e heldBefore) (v, [], []) (list_ (rows v)).

Definition listConsecutiveFailureHoldsBefore (watermark : option string) (v : svc) : list Schedule :=
  List.filter (λ s, holdPredatesWatermark (heldAt s) watermark)
    (List.filter (λ s, negb (enabled s) && bool_decide (stopReason s = Some consecutive_failures)) (list_ (rows v))).
End watermark.

(** ** Definitions *)

Section cron.
Variable isValidCron : string → bool.

(** [validated] is what the validator threw, if it did. *)
Definition createDefinition (e : env) (uuid : string) (validated : option ScheduleValidationError)
    (i : CreateScheduleInput) (v : svc) : outcome :=
  match validated with
  | Some x => (Some (Invalid x), v)
  | None =>
      match create isValidCron (e_now e) uuid i (rows v) with
      | Err x => (Some (Invalid x), v)
      | Ok (st, _) => commit e {| v with rows := st |}
      end
  end.

Definition updateDefinition (e : env) (i : string) (validated : option ScheduleValidationError)
    (p : UpdateScheduleDefinitionInput) (v : svc) : outcome :=
  withSchedule i v (λ _,
    match validated with
    | Some x => (Some (Invalid x), v)
    | None =>
        match Sched.updateDefinition isValidCron (e_now e) i p (rows v) with
        | Err x => (Some (Invalid x), v)
        | Ok (st, _) => commit e {| v with rows := st |}
        end
    end).
End cron.

Definition delete (e : env) (i : string) (v : svc) : outcome :=
  let '(st, deleted) := Sched.delete i (rows v) in
  if negb deleted then (Some (Invalid (mkInvalid "Schedule not found" [])), v)
  else commit e {| v with rows := st |}.

Definition archive (e : env) (i : string) (reason : option string) (v : svc) : outcome :=
  withSchedule i v (λ _,
    match Sched.archive (e_now e) i reason (rows v) with
    | Err x => (Some (Invalid x), v)
    | Ok st => commit e {| v with rows := st |}
    end).

Definition unarchive (e : env) (i : string) (v : svc) : outcome :=
  withSchedule i v (λ _,
    match Sched.unarchive (e_now e) i (rows v) with
    | Err x => (Some (Invalid x), v)
    | Ok st => commit e {| v with rows := st |}
    end).

(** ** Reservations and skips *)

Definition defaultDecision (t : ScheduleExecutionTrigger) : ScheduleExecutionDecision :=
  match t with manual_trigger => manual_run | cron_trigger => cron_due end.

Definition newReceipt (e : env) (receiptId token : string) (s : Schedule) (t : ScheduleExecutionTrigger)
    (scheduledFor : option string) (d : ScheduleExecutionDecision) : ScheduleExecutionReceipt :=
  {| rx_id := receiptId; rx_scheduleId := id s; rx_executionToken := token; rx_trigger := t;
     rx_decision := d; rx_scheduledFor := truthyStr scheduledFor; rx_evaluatedAt := e_now e;
     rx_taskId := None; rx_status := reserved; rx_playbookSource := None |}.

Definition reservedRow (e : env) (receiptId token : string) (t : ScheduleExecutionTrigger)
    (scheduledFor : option string) (d : option ScheduleExecutionDecision) (s : Schedule) : Schedule :=
  let fromCron := bool_decide (t = cron_trigger) in
  {| s with
     lastScheduledFor :=
       match (if fromCron then truthyStr scheduledFor else None) with
       | Some f => Some f
       | None => lastScheduledFor s
       end;
     lastCronEvaluatedAt := if fromCron then Some (e_now e) else lastCronEvaluatedAt s;
     currentExecution := Some (newReceipt e receiptId token s t scheduledFor (orElse d (defaultDecision t)));
     updatedAt := e_now e |}.

Definition reserveExecution (e : env) (receiptId token : string) (s : Schedule) (t : ScheduleExecutionTrigger)
    (scheduledFor : option string) (d : option ScheduleExecutionDecision) (v : svc) : outcome :=
  persist e (put e (reservedRow e receiptId token t scheduledFor d s) v).

Definition exhaustedRow (e : env) (s : Schedule) : Schedule :=
  {| s with enabled := false; stopReason := Some trigger_limit_reached;
            exhaustedAt := Some (orElse (exhaustedAt s) (e_now e)) |}.

Definition markCronLimitExhausted (e : env) (i : string) (v : svc) : outcome :=
  withSchedule i v (λ s,
    if negb (isTriggerLimitExhausted s) then (None, v)
    else if negb (enabled s) && bool_decide (stopReason s = Some trigger_limit_reached) then (None, v)
    else commit e (put e (exhaustedRow e s) v)).

(** The row of a missed slot that is not fired. *)
Definition missedRow (e : env) (s : Schedule) (scheduledFor : string) (d : ScheduleExecutionDecision)
    (o : ScheduleExecutionOutcome) (why : ScheduleExecutionReasonCode) (m : string) :
    ScheduleExecutionLedgerEntry :=
  {| le_id := ledgerKeyFor (id s) cron_trigger scheduledFor; le_scheduleId := id s; le_receiptId := None;
     le_executionToken := None; le_trigger := cron_trigger; le_decision := d;
     le_scheduledFor := Some scheduledFor; le_evaluatedAt := e_now e; le_completedAt := Some (e_now e);
     le_taskId := None; le_blockingTaskId := None; le_outcome := o; le_reasonCode := Some why;
     le_message := Some m; le_tokenUsage := None; le_artifacts := None; le_launchPhaseTimings := None;
     le_mergeCommit := None; le_terminalReason := None; le_playbookSource := None;
     le_requestedProvider := None; le_attemptedProvider := None |}.

Definition missedLatest (e : env) (s : Schedule) (scheduledFor : string) (o : ScheduleExecutionOutcome)
    (why : ScheduleExecutionReasonCode) (m : string) : ScheduleLatestExecutionStatus :=
  {| lx_receiptId := None; lx_executionToken := ledgerKeyFor (id s) cron_trigger scheduledFor;
     lx_scheduledFor := Some scheduledFor; lx_evaluatedAt := e_now e; lx_triggeredAt := None;
     lx_trigger := cron_trigger; lx_taskId := None; lx_outcome := o; lx_reasonCode := Some why;
     lx_message := Some m; lx_terminalReason := None; lx_playbookSource := None;
     lx_requestedProvider := None; lx_attemptedProvider := None |}.

Definition missedSchedule (d : ScheduleExecutionDecision) (o : ScheduleExecutionOutcome)
    (why : ScheduleExecutionReasonCode) (e : env) (scheduledFor m : string) (s : Schedule) : Schedule :=
  {| s with lastScheduledFor := Some (e_now e); lastCronEvaluatedAt := Some (e_now e);
            latestExecution := Some (missedLatest e s scheduledFor o why m);
            executionLedger := upsertLedgerEntry (executionLedger s) (missedRow e s scheduledFor d o why m) |}.

Definition recordMissed (d : ScheduleExecutionDecision) (o : ScheduleExecutionOutcome)
    (why : ScheduleExecutionReasonCode) (e : env) (i scheduledFor m : string) (v : svc) : outcome :=
  withSchedule i v (λ s, commit e (put e (missedSchedule d o why e scheduledFor m s) v)).

Definition recordCatchUpSkipped : env → string → string → string → svc → outcome :=
  recordMissed stale_catch_up skipped_stale why_stale_catch_up.
Definition recordCatchUpDeferred : env → string → string → string → svc → outcome :=
  recordMissed manual_catch_up skipped_manual why_manual_catch_up_required.
Definition recordCatchUpLeaseDenied : env → string → string → string → svc → outcome :=
  recordMissed catch_up skipped_relaunch_locked why_relaunch_lease_held.

Definition suppressedRow (e : env) (s : Schedule) : Schedule :=
  {| s with lastScheduledFor := Some (e_now e); lastCronEvaluatedAt := Some (e_now e); updatedAt := e_now e |}.

Definition suppressCatchUp (e : env) (i : string) (v : svc) : outcome :=
  withSchedule i v (λ s, commit e (put e (suppressedRow e s) v)).

Record OverlapDetails := mkOverlap {
  ov_trigger : ScheduleExecutionTrigger;
  ov_decision : ScheduleExecutionDecision;
  ov_scheduledFor : option string;
  ov_blockingTaskId : option string;
  ov_blockingReceiptId : option string;
  ov_blockingExecutionToken : option string;
  ov_message : string
}.

Definition overlapRow (e : env) (uuid : string) (d : OverlapDetails) (s : Schedule) : ScheduleExecutionLedgerEntry :=
  {| le_id := uuid; le_scheduleId := id s; le_receiptId := truthyStr (ov_blockingReceiptId d);
     le_executionToken := truthyStr (ov_blockingExecutionToken d); le_trigger := ov_trigger d;
     le_decision := ov_decision d; le_scheduledFor := truthyStr (ov_scheduledFor d);
     le_evaluatedAt := e_now e; le_completedAt := Some (e_now e); le_taskId := None;
     le_blockingTaskId := truthyStr (ov_blockingTaskId d); le_outcome := skipped_active;
     le_reasonCode := Some why_previous_run_active; le_message := Some (ov_message d);
     le_tokenUsage := None; le_artifacts := None; le_launchPhaseTimings := None; le_mergeCommit := None;
     le_terminalReason := None; le_playbookSource := None; le_requestedProvider := None;
     le_attemptedProvider := None |}.

Definition overlappedSchedule (e : env) (uuid : string) (d : OverlapDetails) (s : Schedule) : Schedule :=
  {| s with executionLedger := upsertLedgerEntry (executionLedger s) (overlapRow e uuid d s); updatedAt := e_now e |}.

Definition recordOverlapSkipped (e : env) (uuid i : string) (d : OverlapDetails) (v : svc) : outcome :=
  withSchedule i v (λ s, commit e (put e (overlappedSchedule e uuid d s) v)).

(** ** Outcomes of a fire *)

Record AcceptDetails := mkAccept {
  ac_reasonCode : option ScheduleExecutionReasonCode;
  ac_message : option string;
  ac_dependencyParked : bool;
  ac_playbookSource : option SchedulePlaybookCheckoutSource;
  ac_requestedProvider : option string;
  ac_attemptedProvider : option string
}.

Record Fallback := mkFallback {
  fb_trigger : ScheduleExecutionTrigger;
  fb_decision : ScheduleExecutionDecision;
  fb_scheduledFor : option string
}.

(** The receipt an acceptance is written under: the reserved one, or, when it was rotated
    out, one made from the fallback. *)
Definition acceptedReceipt (e : env) (s : Schedule) (receiptId : string) (fb : option Fallback) :
    option ScheduleExecutionReceipt :=
  match requireReceipt s receiptId with
  | Some r => Some r
  | None =>
      (λ f, {| rx_id := receiptId; rx_scheduleId := id s; rx_executionToken := receiptId;
               rx_trigger := fb_trigger f; rx_decision := fb_decision f;
               rx_scheduledFor := truthyStr (fb_scheduledFor f); rx_evaluatedAt := e_now e;
               rx_taskId := None; rx_status := reserved; rx_playbookSource := None |}) <$> fb
  end.

Definition acceptOutcome (queued_ parked : bool) : ScheduleExecutionOutcome :=
  if parked then parked_dependency else if queued_ then queued_capacity else running.

Definition acceptReason (queued_ : bool) (d : AcceptDetails) : ScheduleExecutionReasonCode :=
  if ac_dependencyParked d then why_dependency_degraded
  else orElse (ac_reasonCode d) (if queued_ then why_capacity else why_none).

(** The row after an acceptance. *)
Definition acceptedRow (e : env) (s : Schedule) (r : ScheduleExecutionReceipt) (receiptId taskId : string)
    (queued_ : bool) (d : AcceptDetails) : Schedule :=
  let o := acceptOutcome queued_ (ac_dependencyParked d) in
  let why := acceptReason queued_ d in
  let s1 := withConsumed (consumeCronTrigger s (rx_trigger r) true (e_now e)) s in
  {| s1 with
     lastRunAt := Some (e_now e);
     lastRunTaskId := Some taskId;
     recentProviderFailures :=
       match ac_attemptedProvider d with
       | Some p => if isRecoveryCriticalSchedule s then clearProviderFailure (recentProviderFailures s) p
                   else recentProviderFailures s
       | None => recentProviderFailures s
       end;
     latestExecution := Some
       {| lx_receiptId := Some receiptId; lx_executionToken := rx_executionToken r;
          lx_scheduledFor := truthyStr (rx_scheduledFor r); lx_evaluatedAt := rx_evaluatedAt r;
          lx_triggeredAt := Some (e_now e); lx_trigger := rx_trigger r; lx_taskId := Some taskId;
          lx_outcome := o; lx_reasonCode := Some why; lx_message := truthyStr (ac_message d);
          lx_terminalReason := None; lx_playbookSource := ac_playbookSource d;
          lx_requestedProvider := requestedOther (ac_requestedProvider d) (ac_attemptedProvider d);
          lx_attemptedProvider := truthyStr (ac_attemptedProvider d) |};
     executionLedger := upsertLedgerEntry (executionLedger s)
       (ledgerEntryFromReceipt s r o why
          (mkDetails (e_now e) (Some taskId) None (ac_message d) None (ac_playbookSource d)
             (ac_requestedProvider d) (ac_attemptedProvider d)));
     currentExecution := Some
       {| r with rx_taskId := Some taskId; rx_status := accepted;
                 rx_playbookSource := orOpt (ac_playbookSource d) (rx_playbookSource r) |} |}.

Definition markExecutionAccepted (e : env) (i receiptId taskId : string) (queued_ : bool) (d : AcceptDetails)
    (fb : option Fallback) (v : svc) : outcome :=
  withSchedule i v (λ s,
    match acceptedReceipt e s receiptId fb with
    | None => (Some (Invalid (receiptNotFound receiptId)), v)
    | Some r => commit e (put e (acceptedRow e s r receiptId taskId queued_ d) v)
    end).

Record OutcomeDetails := mkOutcome {
  od_blockingTaskId : option string;
  od_launchPhaseTimings : option json;
  od_playbookSource : option SchedulePlaybookCheckoutSource;
  od_attemptedProvider : option string
}.

Definition noDetails : OutcomeDetails := mkOutcome None None None None.

(** The streak after an outcome of a fire. *)
Definition outcomeFailures (s : Schedule) (o : ScheduleExecutionOutcome) : Z :=
  if isGenuineExecutionFailure o None false false
  then nextConsecutiveFailures (consecutiveFailures s) run_failed
  else orElse (consecutiveFailures s) 0.

Definition outcomeProviderFailures (e : env) (s : Schedule) (o : ScheduleExecutionOutcome)
    (why : ScheduleExecutionReasonCode) (d : OutcomeDetails) : option (list ScheduleProviderFailure) :=
  match od_attemptedProvider d with
  | Some p =>
      if isGenuineExecutionFailure o None false false && isProviderBootFailureReason why
         && isRecoveryCriticalSchedule s
      then Some (recordProviderFailure (recentProviderFailures s) p (e_now e) (Some why) MAX_RECENT_PROVIDER_FAILURES)
      else recentProviderFailures s
  | None => recentProviderFailures s
  end.

(** The row after an outcome that launched nothing. *)
Definition outcomeRow (e : env) (s : Schedule) (r : ScheduleExecutionReceipt) (receiptId : string)
    (o : ScheduleExecutionOutcome) (why : ScheduleExecutionReasonCode) (m : option string) (d : OutcomeDetails) :
    Schedule :=
  let isFailure := isGenuineExecutionFailure o None false false in
  let failures := outcomeFailures s o in
  let preservedTaskId := orOpt (rx_taskId r) (od_blockingTaskId d) in
  let s1 := withConsumed (consumeCronTrigger s (rx_trigger r) (bool_decide (o = dispatch_failed)) (e_now e)) s in
  let s2 := withPause (autoPausePatch e s failures) s1 in
  {| s2 with
     lastRunAt := Some (rx_evaluatedAt r);
     lastRunTaskId := rx_taskId r;
     lastRunStatus := if isFailure then Some run_failed
                      else if isHealthySkipOutcome o then Some run_skipped else lastRunStatus s;
     consecutiveFailures := Some failures;
     recentProviderFailures := outcomeProviderFailures e s o why d;
     latestExecution := Some
       {| lx_receiptId := Some receiptId; lx_executionToken := rx_executionToken r;
          lx_scheduledFor := truthyStr (rx_scheduledFor r); lx_evaluatedAt := rx_evaluatedAt r;
          lx_triggeredAt := None; lx_trigger := rx_trigger r; lx_taskId := truthyStr preservedTaskId;
          lx_outcome := o; lx_reasonCode := Some why; lx_message := truthyStr m; lx_terminalReason := None;
          lx_playbookSource := od_playbookSource d; lx_requestedProvider := None;
          lx_attemptedProvider := truthyStr (od_attemptedProvider d) |};
     executionLedger := upsertLedgerEntry (executionLedger s)
       (ledgerEntryFromReceipt s r o why
          (mkDetails (e_now e) preservedTaskId (od_blockingTaskId d) m (od_launchPhaseTimings d)
             (od_playbookSource d) None (od_attemptedProvider d)));
     currentExecution := Some
       {| r with rx_status := if bool_decide (o = unknown_after_restart) then receipt_unknown else terminal;
                 rx_playbookSource := orOpt (od_playbookSource d) (rx_playbookSource r) |} |}.

Definition markExecutionOutcome (e : env) (i receiptId : string) (o : ScheduleExecutionOutcome)
    (why : ScheduleExecutionReasonCode) (m : option string) (d : OutcomeDetails) (v : svc) : outcome :=
  withSchedule i v (λ s,
    match requireReceipt s receiptId with
    | None => (Some (Invalid (receiptNotFound receiptId)), v)
    | Some r =>
        let failures := outcomeFailures s o in
        alertAfter (commit e (put e (outcomeRow e s r receiptId o why m d) v))
          (emitFailureAlertOnEdge e s failures m (isSome (autoPausePatch e s failures)) None)
    end).

Definition probedRow (e : env) (s : Schedule) (r : ScheduleExecutionReceipt) (receiptId : string)
    (why : ScheduleExecutionReasonCode) (m : option string) : Schedule :=
  let s1 := withConsumed (consumeCronTrigger s (rx_trigger r) true (e_now e)) s in
  {| s1 with
     lastRunAt := Some (e_now e);
     lastRunStatus := Some run_completed;
     lastRunTaskId := None;
     consecutiveFailures := Some (nextConsecutiveFailures (consecutiveFailures s) run_completed);
     latestExecution := Some
       {| lx_receiptId := Some receiptId; lx_executionToken := rx_executionToken r;
          lx_scheduledFor := truthyStr (rx_scheduledFor r); lx_evaluatedAt := rx_evaluatedAt r;
          lx_triggeredAt := None; lx_trigger := rx_trigger r; lx_taskId := None; lx_outcome := completed;
          lx_reasonCode := Some why; lx_message := truthyStr m; lx_terminalReason := None;
          lx_playbookSource := None; lx_requestedProvider := None; lx_attemptedProvider := None |};
     executionLedger := upsertLedgerEntry (executionLedger s)
       (ledgerEntryFromReceipt s r completed why (mkDetails (e_now e) None None m None None None None));
     currentExecution := Some {| r with rx_status := terminal |} |}.

Definition markProbeCompleted (e : env) (i receiptId : string) (why : ScheduleExecutionReasonCode)
    (m : option string) (v : svc) : outcome :=
  withSchedule i v (λ s,
    match requireReceipt s receiptId with
    | None => (Some (Invalid (receiptNotFound receiptId)), v)
    | Some r => commit e (put e (probedRow e s r receiptId why m) v)
    end).

(** ** The end of a task *)

(** The schedule whose latest execution is of the task, and its execution. *)
Definition ownerOf (taskId : string) (v : svc) : option (Schedule * ScheduleLatestExecutionStatus) :=
  s ← List.find (λ s, bool_decide ((x ← latestExecution s; lx_taskId x) = Some taskId)) (listAll (rows v));
  x ← latestExecution s;
  Some (s, x).

Definition endedFailures (s : Schedule) (done_ genuine : bool) : Z :=
  if done_ then nextConsecutiveFailures (consecutiveFailures s) run_completed
  else if genuine then nextConsecutiveFailures (consecutiveFailures s) run_failed
  else orElse (consecutiveFailures s) 0.

Definition runStatus (done_ : bool) : ScheduleLastRunStatus := if done_ then run_completed else run_cancelled.
Definition endOutcome (done_ : bool) : ScheduleExecutionOutcome := if done_ then completed else cancelled.

(** The row of a task that ended. *)
Definition endedRow (e : env) (s : Schedule) (x : ScheduleLatestExecutionStatus) (taskId at_ : string)
    (done_ genuine : bool) (why : ScheduleExecutionReasonCode) (en : ScheduleLedgerEnrichment)
    (tr : option ScheduleTerminalReason) : Schedule :=
  let failures := endedFailures s done_ genuine in
  let s1 := withPause (autoPausePatch e s failures) s in
  {| s1 with
     lastRunAt := Some at_;
     lastRunTaskId := Some taskId;
     lastRunStatus := Some (runStatus done_);
     consecutiveFailures := Some failures;
     latestExecution := Some
       {| x with lx_outcome := endOutcome done_; lx_reasonCode := Some why;
                 lx_terminalReason := orOpt tr (lx_terminalReason x) |};
     executionLedger := updateLedgerEntryForTask (executionLedger s) taskId
       (mkPatch (endOutcome done_) why at_ None en tr);
     currentExecution := (λ r, {| r with rx_status := terminal |}) <$> currentExecution s |}.

(** The row of a task that was cancelled after a later fire was skipped over it. *)
Definition closedRow (e : env) (s : Schedule) (taskId : string) (en : ScheduleLedgerEnrichment)
    (tr : option ScheduleTerminalReason) : Schedule :=
  {| s with executionLedger := closeMidFlightLedgerRowsForTask (executionLedger s) taskId
              (mkPatch cancelled why_none (e_now e) None en tr);
            updatedAt := e_now e |}.

Definition recordTaskTerminalOutcome (e : env) (taskId : string) (done_ : bool)
    (reason : option TerminationReason) (v : svc) : outcome :=
  match ownerOf taskId v with
  | None => (None, v)
  | Some (s, x) =>
      if match (r ← currentExecution s; truthyStr (rx_taskId r)) with
         | Some t => negb (String.eqb t taskId)
         | None => false
         end
      then (None, v)
      else
        let en := e_enrichment e taskId in
        let tr := e_terminalReason e taskId in
        if negb done_ && SKIP_POINTER_OUTCOMES (lx_outcome x) then
          commit e (put e (closedRow e s taskId en tr) v)
        else
          let genuine := negb done_ && isGenuineExecutionFailure cancelled reason (e_serverRestarting e) false in
          let failures := endedFailures s done_ genuine in
          alertAfter (commit e (put e (endedRow e s x taskId (e_now e) done_ genuine why_none en tr) v))
            (emitFailureAlertOnEdge e s failures None (isSome (autoPausePatch e s failures)) tr)
  end.

(** ** The start after a restart *)

Section reconcile.
(** [taskStore.getTask]. *)
Variable getTask : string → option Task.

Definition lostExecution : string := "Execution could not be reconciled after restart".
Definition lostTask : string := "Task state could not be reconciled after restart".

(** The task of a receipt that was open: a reserved one has none of its own. *)
Definition openReceiptTask (s : Schedule) (r : ScheduleExecutionReceipt) : option string :=
  truthyStr (if bool_decide (rx_status r = accepted)
             then orOpt (rx_taskId r) (x ← latestExecution s; lx_taskId x) else rx_taskId r).

Definition openReceipt (s : Schedule) : option ScheduleExecutionReceipt :=
  r ← currentExecution s;
  if bool_decide (rx_status r = reserved) || bool_decide (rx_status r = accepted) then Some r else None.

Definition lostReceiptRow (e : env) (s : Schedule) (r : ScheduleExecutionReceipt) : Schedule :=
  {| s with
     latestExecution := Some (orElse (latestExecution s)
       {| lx_receiptId := Some (rx_id r); lx_executionToken := rx_executionToken r;
          lx_scheduledFor := truthyStr (rx_scheduledFor r); lx_evaluatedAt := rx_evaluatedAt r;
          lx_triggeredAt := None; lx_trigger := rx_trigger r; lx_taskId := None;
          lx_outcome := unknown_after_restart; lx_reasonCode := Some why_unknown_after_restart;
          lx_message := Some lostExecution; lx_terminalReason := None; lx_playbookSource := None;
          lx_requestedProvider := None; lx_attemptedProvider := None |});
     executionLedger := upsertLedgerEntry (executionLedger s)
       (ledgerEntryFromReceipt s r unknown_after_restart why_unknown_after_restart
          (mkDetails (e_now e) None None (Some lostExecution) None None None None));
     currentExecution := Some {| r with rx_status := receipt_unknown |} |}.

Definition lostTaskRow (e : env) (s : Schedule) (x : ScheduleLatestExecutionStatus) (taskId : string) : Schedule :=
  {| s with
     latestExecution := Some
       {| x with lx_outcome := unknown_after_restart; lx_reasonCode := Some why_unknown_after_restart;
                 lx_message := Some lostTask |};
     executionLedger := updateLedgerEntryForTask (executionLedger s) taskId
       (mkPatch unknown_after_restart why_unknown_after_restart (e_now e) (Some lostTask) noEnrichment None);
     currentExecution := (λ r, {| r with rx_status := receipt_unknown |}) <$> currentExecution s |}.

(** The row after its latest execution, of the task it names, is settled; and the alerts. *)
Definition settleLatest (e : env) (s : Schedule) : option (Schedule * list Alert) :=
  match latestExecution s with
  | None => None
  | Some x =>
      if negb (PENDING_LEDGER_OUTCOMES (lx_outcome x)) then None
      else
        match truthyStr (lx_taskId x) with
        | None => None
        | Some taskId =>
            match getTask taskId with
            | None => Some (lostTaskRow e s x taskId, [])
            | Some t =>
                if negb (isTerminalStatus (Task.status t)) then None
                else
                  let done_ := bool_decide (Task.status t = ts_completed) in
                  let tr := deriveScheduleTerminalReason (Some t) in
                  let reason := if bool_decide (Task.status t = ts_terminated) then Task.terminationReason t else None in
                  let genuine := isGenuineExecutionFailure (endOutcome done_) reason (e_serverRestarting e) true in
                  let failures := endedFailures s done_ genuine in
                  Some (endedRow e s x (Task.id t) (JsDate.toISOString (Task.updatedAt t)) done_ genuine
                          why_reconciled_after_restart (deriveLedgerEnrichment (Some t)) tr,
                        emitFailureAlertOnEdge e s failures None (isSome (autoPausePatch e s failures)) tr)
            end
        end
  end.

(** One round of the loop: the state, and whether a row changed. *)
Definition reconcileStep (e : env) (acc : svc * bool) (listed : Schedule) : svc * bool :=
  let '(v, changed) := acc in
  let '(v, changed, s) :=
    match openReceipt listed with
    | Some r =>
        if isSome (openReceiptTask listed r) then (v, changed, Some listed)
        else
          let v' := put e (lostReceiptRow e listed r) v in
          (v', true, get (id listed) (rows v'))
    | None => (v, changed, Some listed)
    end in
  match s with
  | None => (v, changed)
  | Some s =>
      match settleLatest e s with
      | None => (v, changed)
      | Some (s', alerts) => (send (SendAlert <$> alerts) (put e s' v), true)
      end
  end.

Definition reconcileOnStartup (e : env) (v : svc) : outcome :=
  let '(v', changed) := foldl (reconcileStep e) (v, false) (listAll (rows v)) in
  if changed then commit e v' else (None, v').
End reconcile.

(** ** The service as a machine over its rows *)

(** What a step may do: at level 0 the daemon acts on its own, at level 1 an operator
    switches, archives or deletes, at level 2 an operator edits or brings back; and whether it
    may begin, settle or replace an execution. *)
Record grant := mkGrant { g_level : nat; g_runs : bool }.
#[local] Coercion g_level : grant >-> nat.

(** A change of a row. *)
Inductive rowChange (e : env) : grant → Schedule → Schedule → Prop :=
| ch_reserve l rid token t f d s : g_runs l = true → rowChange e l s (reservedRow e rid token t f d s)
| ch_exhaust l s : isTriggerLimitExhausted s = true → rowChange e l s (exhaustedRow e s)
| ch_missed l d o why f m s : g_runs l = true → PENDING_LEDGER_OUTCOMES o = false → rowChange e l s (missedSchedule d o why e f m s)
| ch_suppress l s : rowChange e l s (suppressedRow e s)
| ch_overlap l uuid d s : rowChange e l s (overlappedSchedule e uuid d s)
| ch_accept l s r rid taskId queued_ d fb :
    g_runs l = true → acceptedReceipt e s rid fb = Some r → rowChange e l s (acceptedRow e s r rid taskId queued_ d)
| ch_outcome l s r rid o why m d :
    g_runs l = true → requireReceipt s rid = Some r → rowChange e l s (outcomeRow e s r rid o why m d)
| ch_probe l s r rid why m : g_runs l = true → requireReceipt s rid = Some r → rowChange e l s (probedRow e s r rid why m)
| ch_ended l s x taskId at_ done_ genuine why en tr :
    latestExecution s = Some x → rowChange e l s (endedRow e s x taskId at_ done_ genuine why en tr)
| ch_closed l s taskId en tr : rowChange e l s (closedRow e s taskId en tr)
| ch_lost_receipt l s r : openReceipt s = Some r → rowChange e l s (lostReceiptRow e s r)
| ch_lost_task l s x taskId : latestExecution s = Some x → rowChange e l s (lostTaskRow e s x taskId)
| ch_pause l s p :
    autoPausePatch e s (orElse (consecutiveFailures s) 0) = Some p → rowChange e l s (withPause (Some p) s)
| ch_enable (l : grant) s hold : (1 ≤ l)%nat → isTriggerLimitExhausted s = false →
    rowChange e l s (let s1 := switched (e_now e) true hold s in if needsClear s1 then clearedRow s1 else s1)
| ch_disable (l : grant) s hold : (1 ≤ l)%nat → rowChange e l s (switched (e_now e) false hold s)
| ch_update (l : grant) s p : (2 ≤ l)%nat → rowChange e l s (updatedSchedule (e_now e) p s)
| ch_archive (l : grant) s reason : (1 ≤ l)%nat → rowChange e l s (archivedRow (e_now e) reason s)
| ch_unarchive (l : grant) s : (2 ≤ l)%nat → rowChange e l s (unarchivedRow (e_now e) s).

(** What [store.replace] stores. *)
Definition touched (e : env) (s : Schedule) : Schedule := {| s with updatedAt := e_now e |}.

(** The row of an id, before and after: [l] is what the step may do. *)
Inductive rowStep (e : env) (l : grant) : option Schedule → option Schedule → Prop :=
| rs_change s s' : rowChange e l s s' → rowStep e l (Some s) (Some (touched e s'))
| rs_create now uuid i v o : (1 ≤ l)%nat → g_runs l = true → createError v i = None → rowStep e l o (Some (newSchedule now uuid i))
| rs_delete o : (1 ≤ l)%nat → rowStep e l o None.

Definition row (i : string) (v : svc) : option Schedule := get i (rows v).

(** The step keeps the rows under their ids, and moves each by the machine. *)
Definition tracks (e : env) (l : grant) (v v' : svc) : Prop :=
  rows_ok (rows v) → rows_ok (rows v') ∧ ∀ i, rtc (rowStep e l) (row i v) (row i v').

Lemma tracks_refl e l v : tracks e l v v.
Proof. by intros H. Qed.

Lemma tracks_trans e l v1 v2 v3 : tracks e l v1 v2 → tracks e l v2 v3 → tracks e l v1 v3.
Proof. intros H1 H2 H. destruct (H1 H) as [Ha Hb], (H2 Ha) as [Hc Hd]. split; [done|]. intros i. etransitivity; [apply Hb|apply Hd]. Qed.

Lemma rowChange_id e l s s' : rowChange e l s s' → id s' = id s.
Proof.
  destruct 1; try done; unfold switched, setHold, clearedRow, acceptedRow, outcomeRow, probedRow, endedRow,
    withConsumed, withPause; repeat case_match; done.
Qed.

Lemma put_row e s v i : row i (put e s v) = if decide (i = id s) then Some (touched e s) else row i v.
Proof. unfold row, put, replace, putRow, bumpRevision, syncRollup, get. cbn [schedules rows]. apply mget_mset. Qed.

Lemma put_tracks e l s s' v : row (id s) v = Some s → rowChange e l s s' → tracks e l v (put e s' v).
Proof.
  intros Hs Hc Hok. pose proof (rowChange_id _ _ _ _ Hc) as Hid. split.
  - unfold put, replace. by apply putRow_rows.
  - intros i. rewrite put_row, Hid. case_decide as E; [|done]. subst i. rewrite Hs. apply rtc_once. by constructor.
Qed.

(** Sending and writing leave the rows. *)
Lemma commit_rows e v : rows (commit e v).2 = rows v.
Proof. unfold commit, persist. by destruct (e_persistOk e). Qed.

Lemma persist_rows e v : rows (persist e v).2 = rows v.
Proof. unfold persist. by destruct (e_persistOk e). Qed.

Lemma alertAfter_rows r l : rows (alertAfter r l).2 = rows r.2.
Proof. unfold alertAfter, after. by destruct r as [[x|] v]. Qed.

Lemma tracks_rows e l v v1 v2 : rows v1 = rows v2 → tracks e l v v1 → tracks e l v v2.
Proof. unfold tracks, row. by intros ->. Qed.

Lemma withSchedule_tracks e l i v k :
  (∀ s, row i v = Some s → rows_ok (rows v) → id s = i → tracks e l v (k s).2) → tracks e l v (withSchedule i v k).2.
Proof.
  intros H Hok. unfold withSchedule. unfold row in H. destruct (get i (rows v)) as [s|] eqn:E; [|by apply tracks_refl].
  apply H; [done|done| |done]. by apply (proj2 Hok).
Qed.

Lemma commit_put_tracks e l s s' v :
  row (id s) v = Some s → rowChange e l s s' → tracks e l v (commit e (put e s' v)).2.
Proof. intros Hs Hc. apply (tracks_rows e l v (put e s' v)); [symmetry; apply commit_rows|]. by apply (put_tracks e l s). Qed.

(** *** Loops over the rows read before they begin *)

(** A round moves the row of its schedule only. *)
Definition roundOk (e : env) (l : grant) (i : string) (v v' : svc) : Prop :=
  tracks e l v v' ∧ ∀ j, j ≠ i → row j v' = row j v.

Lemma roundOk_refl e l i v : roundOk e l i v v.
Proof. split; [apply tracks_refl|done]. Qed.

Lemma fold_tracks {A} e l (f : A → Schedule → A) (svcOf : A → svc) rs acc :
  (∀ acc s, rows_ok (rows (svcOf acc)) → row (id s) (svcOf acc) = Some s → roundOk e l (id s) (svcOf acc) (svcOf (f acc s))) →
  NoDup (map id rs) → (∀ s, s ∈ rs → row (id s) (svcOf acc) = Some s) →
  tracks e l (svcOf acc) (svcOf (foldl f acc rs)).
Proof.
  intros Hf. revert acc. induction rs as [|s rs IH]; intros acc Hnd Hin Hok; [by apply tracks_refl|].
  cbn in Hnd. apply NoDup_cons in Hnd as [Hs Hnd]. destruct (Hf acc s) as [Ht Hne]; [done|apply Hin; set_solver|].
  cbn [foldl]. revert Hok. eapply tracks_trans; [exact Ht|]. intros Hok. apply IH; [done| |done].
  intros t Ht'. rewrite Hne; [apply Hin; set_solver|]. intros Heq. apply Hs. rewrite <- Heq. by apply list_elem_of_fmap_2.
Qed.

Lemma snapshot_list v s : rows_ok (rows v) → s ∈ list_ (rows v) → row (id s) v = Some s.
Proof. intros Hok Hs. by apply elem_of_list_ in Hs as [? _]. Qed.

Lemma snapshot_all v s : rows_ok (rows v) → s ∈ listAll (rows v) → row (id s) v = Some s.
Proof.
  intros [Hw Hi] Hs. unfold listAll, mvals in Hs. apply list_elem_of_fmap in Hs as ([i t] & -> & H). cbn.
  pose proof (elem_of_mget _ _ _ Hw H) as E. unfold row, get in *. by rewrite (Hi i t E).
Qed.

Lemma all_ids v : rows_ok (rows v) → NoDup (map id (listAll (rows v))).
Proof.
  intros [Hw Hi]. unfold listAll, get, mwf, mkeys in *.
  assert (H : map id (mvals (schedules (rows v))) = (schedules (rows v)).*1); [|by rewrite H].
  unfold mvals. rewrite map_map. apply map_ext_in. intros [i s] Hin%list_elem_of_In. apply Hi. by apply elem_of_mget.
Qed.

Lemma put_round e l s s' v : row (id s) v = Some s → rowChange e l s s' → roundOk e l (id s) v (put e s' v).
Proof.
  intros Hs Hc. split; [by apply (put_tracks e l s)|]. intros j Hj. rewrite put_row, decide_False; [done|].
  by rewrite (rowChange_id _ _ _ _ Hc).
Qed.

Lemma roundOk_rows e l i v v1 v2 : rows v1 = rows v2 → roundOk e l i v v1 → roundOk e l i v v2.
Proof. unfold roundOk, tracks, row. by intros ->. Qed.

Lemma enforce_round e l acc s :
  row (id s) acc.1 = Some s → roundOk e l (id s) acc.1 (enforceStep e acc s).1.
Proof.
  destruct acc as [v n]. intros Hs. unfold enforceStep. cbn [fst] in *. destruct (negb _); [apply roundOk_refl|].
  destruct (autoPausePatch _ _ _) as [p|] eqn:E; [|apply roundOk_refl]. cbn [fst].
  apply (roundOk_rows _ _ _ _ (put e (withPause (Some p) s) v)); [done|]. apply put_round; [done|]. by constructor.
Qed.

Lemma enforce_tracks e l v : tracks e l v (enforceFailureAutoPauses e v).2.
Proof.
  intros Hok. revert Hok. unfold enforceFailureAutoPauses. destruct (_ <=? 0); [apply tracks_refl|]. intros Hok.
  pose proof (fold_tracks e l (enforceStep e) fst (list_ (rows v)) (v, 0)
    (λ acc s _ Hs, enforce_round e l acc s Hs) (list_ids _ Hok) (λ s, snapshot_list v s Hok)) as H.
  destruct (foldl _ _ _) as [v' n]. cbn [fst] in H. destruct (0 <? n); [|by apply H].
  apply (tracks_rows e l v v'); [by rewrite commit_rows|done|done].
Qed.

(** *** Switching *)

Definition enabledRow (e : env) (on : bool) (hold : option bool) (s : Schedule) : Schedule :=
  let s1 := switched (e_now e) on hold s in if on && needsClear s1 then clearedRow s1 else s1.

(** The row a switch leaves, when it does not throw first. *)
Lemma setEnabled_row e i on hold v s :
  rows_ok (rows v) → row i v = Some s →
  let v' := (setEnabled e i on hold v).2 in
  if on && isTriggerLimitExhausted s then v' = v
  else rows_ok (rows v') ∧ ∀ j, row j v' = if decide (j = i) then Some (touched e (enabledRow e on hold s)) else row j v.
Proof.
  intros Hok Hs. unfold setEnabled, withSchedule. unfold row in Hs. rewrite Hs. pose proof (proj2 Hok _ _ Hs) as Hid.
  destruct (on && _) eqn:Eon; [done|]. unfold setEnabledRow. rewrite Hs. cbn [snd].
  set (s1 := switched (e_now e) on hold s). set (st := putRow (e_now e) i s1 (rows v)).
  assert (Hid1 : id s1 = i) by (unfold s1, switched, setHold; repeat case_match; done).
  assert (Hst : rows_ok st) by by apply putRow_rows.
  assert (Hget : ∀ j, get j st = if decide (j = i) then Some s1 else get j (rows v)).
  { intros j. unfold st, putRow, bumpRevision, syncRollup, get. cbn. apply mget_mset. }
  assert (Htouch : Some s1 = Some (touched e s1)).
  { unfold s1, switched, setHold, touched. repeat case_match; done. }
  rewrite commit_rows. unfold row. rewrite Hget, decide_True by done.
  set (v1 := {| v with rows := st |}). unfold enabledRow. fold s1. destruct on; cbn [andb].
  - destruct (needsClear s1).
    + split; [by apply putRow_rows|]. intros j. rewrite commit_rows.
      transitivity (row j (put e (clearedRow s1) v1)); [done|]. rewrite put_row.
      change (id (clearedRow s1)) with (id s1). rewrite Hid1. case_decide; [done|].
      unfold row, v1. cbn [rows]. by rewrite Hget, decide_False.
    + split; [done|]. intros j. rewrite commit_rows. unfold v1. cbn [rows]. rewrite Hget. by case_decide.
  - split; [done|]. intros j. rewrite commit_rows. unfold v1. cbn [rows]. rewrite Hget. by case_decide.
Qed.

Lemma setEnabled_round e l i on hold v s :
  rows_ok (rows v) → row i v = Some s →
  (isTriggerLimitExhausted s = false ∨ on = false → rowChange e l s (enabledRow e on hold s)) →
  roundOk e l i v (setEnabled e i on hold v).2.
Proof.
  intros Hok Hs Hc. pose proof (setEnabled_row e i on hold v s Hok Hs) as H. cbn zeta in H.
  destruct (on && isTriggerLimitExhausted s) eqn:Eon; [rewrite H; apply roundOk_refl|]. destruct H as [Hok' Hrow].
  split.
  - intros _. split; [done|]. intros j. rewrite Hrow. case_decide as E; [|done]. subst j. rewrite Hs. apply rtc_once.
    constructor. apply Hc. destruct on; [left|by right]. done.
  - intros j Hj. by rewrite Hrow, decide_False.
Qed.

Lemma enable_round e (l : grant) i on hold v :
  (1 ≤ l)%nat → rows_ok (rows v) → roundOk e l i v (setEnabled e i on hold v).2.
Proof.
  intros Hl Hok. destruct (row i v) as [s|] eqn:Hs.
  - apply (setEnabled_round e l i on hold v s Hok Hs). intros Hx. unfold enabledRow. destruct on; cbn [andb]; [|by constructor].
    apply ch_enable; [done|]. by destruct Hx.
  - unfold setEnabled, withSchedule. unfold row in Hs. rewrite Hs. apply roundOk_refl.
Qed.

Lemma rearm_round e (l : grant) healthy ready v s :
  (1 ≤ l)%nat → rows_ok (rows v) → roundOk e l (id s) v (rearmStep e healthy ready (v, []) s).1.
Proof.
  intros Hl Hok. unfold rearmStep. destruct (isSome _); [apply roundOk_refl|]. destruct (isTriggerLimitExhausted s); [apply roundOk_refl|].
  pose proof (enable_round e l (id s) true None v Hl Hok). by destruct (setEnabled e (id s) true None v) as [[x|] v'].
Qed.

Lemma recover_round dateParse e (l : grant) before v s :
  (1 ≤ l)%nat → rows_ok (rows v) → roundOk e l (id s) v (recoverStep dateParse e before (v, [], []) s).1.1.
Proof.
  intros Hl Hok. unfold recoverStep. destruct (_ || _); [apply roundOk_refl|]. destruct (_ && _); [apply roundOk_refl|].
  destruct (isTriggerLimitExhausted s); [apply roundOk_refl|].
  pose proof (enable_round e l (id s) true None v Hl Hok). by destruct (setEnabled e (id s) true None v) as [[x|] v'].
Qed.

(** *** The restart *)

Lemma settle_change getTask e l s s' alerts : settleLatest getTask e s = Some (s', alerts) → rowChange e l s s'.
Proof. unfold settleLatest. intros H. repeat case_match; simplify_eq/=; by constructor. Qed.

Lemma roundOk_trans e l i v1 v2 v3 : roundOk e l i v1 v2 → roundOk e l i v2 v3 → roundOk e l i v1 v3.
Proof. intros [H1 H2] [H3 H4]. split; [by eapply tracks_trans|]. intros j Hj. by rewrite H4, H2. Qed.

(** The first half of a round: the receipt that was open and has no task is given up. *)
Definition settleReceipt (e : env) (acc : svc * bool) (listed : Schedule) : svc * bool * option Schedule :=
  let '(v, changed) := acc in
  match openReceipt listed with
  | Some r =>
      if isSome (openReceiptTask listed r) then (v, changed, Some listed)
      else let v' := put e (lostReceiptRow e listed r) v in (v', true, get (id listed) (rows v'))
  | None => (v, changed, Some listed)
  end.

Lemma settleReceipt_round e l acc s :
  row (id s) acc.1 = Some s →
  roundOk e l (id s) acc.1 (settleReceipt e acc s).1.1 ∧
  ∃ s', (settleReceipt e acc s).2 = Some s' ∧ id s' = id s ∧ row (id s) (settleReceipt e acc s).1.1 = Some s' ∧
    (openReceipt s' = None ∨ ∃ r t, openReceipt s' = Some r ∧ openReceiptTask s' r = Some t).
Proof.
  destruct acc as [v c]. cbn [fst]. intros Hs. unfold settleReceipt.
  destruct (openReceipt s) as [r|] eqn:Er; [|split; [apply roundOk_refl|exists s; split_and!; by try left]].
  destruct (openReceiptTask s r) as [t|] eqn:Et; cbn [isSome fst snd].
  - split; [apply roundOk_refl|]. exists s. split_and!; try done. right. by exists r, t.
  - split; [apply put_round; [done|by constructor]|]. exists (touched e (lostReceiptRow e s r)).
    assert (H : row (id s) (put e (lostReceiptRow e s r) v) = Some (touched e (lostReceiptRow e s r))).
    { rewrite put_row. by rewrite decide_True. }
    split_and!; [exact H|done|exact H|]. by left.
Qed.

Lemma reconcile_round getTask e l acc s :
  row (id s) acc.1 = Some s → roundOk e l (id s) acc.1 (reconcileStep getTask e acc s).1.
Proof.
  intros Hs. destruct (settleReceipt_round e l acc s Hs) as (H1 & s' & E2 & Hid & H2 & _).
  assert (E : reconcileStep getTask e acc s = let '(v, c, o) := settleReceipt e acc s in
    match o with None => (v, c) | Some s => match settleLatest getTask e s with None => (v, c)
      | Some (s', alerts) => (send (SendAlert <$> alerts) (put e s' v), true) end end).
  { unfold reconcileStep, settleReceipt. destruct acc. by repeat case_match. }
  rewrite E. destruct (settleReceipt e acc s) as [[v c] o]. cbn [fst snd] in *. subst o.
  destruct (settleLatest getTask e s') as [[s2 al]|] eqn:Es; [|exact H1]. cbn [fst].
  eapply roundOk_trans; [exact H1|]. apply (roundOk_rows _ _ _ _ (put e s2 v)); [done|]. rewrite <- Hid.
  apply put_round; [by rewrite Hid|]. by eapply settle_change.
Qed.

Lemma reconcile_tracks getTask e l v : tracks e l v (reconcileOnStartup getTask e v).2.
Proof.
  intros Hok. revert Hok. unfold reconcileOnStartup. intros Hok.
  pose proof (fold_tracks e l (reconcileStep getTask e) fst (listAll (rows v)) (v, false)
    (λ acc s _ Hs, reconcile_round getTask e l acc s Hs) (all_ids _ Hok) (λ s, snapshot_all v s Hok)) as H.
  destruct (foldl _ _ _) as [v' c]. cbn [fst] in H. destruct c; [|by apply H].
  apply (tracks_rows e l v v'); [by rewrite commit_rows|done|done].
Qed.

(** *** Operations *)

Inductive op :=
| Create (uuid : string) (validated : option ScheduleValidationError) (i : CreateScheduleInput)
| Update (i : string) (validated : option ScheduleValidationError) (p : UpdateScheduleDefinitionInput)
| Enable (i : string) (on : bool) (hold : option bool)
| Delete (i : string)
| Archive (i : string) (reason : option string)
| Unarchive (i : string)
| Recover (heldBefore : option string) (s : Schedule)
| Enforce
| Rearm (healthy : bool) (ready : option string) (s : Schedule)
| Reserve (i receiptId token : string) (t : ScheduleExecutionTrigger) (scheduledFor : option string)
    (d : option ScheduleExecutionDecision)
| CronLimit (i : string)
| CatchUpSkipped (i scheduledFor m : string)
| CatchUpDeferred (i scheduledFor m : string)
| CatchUpDenied (i scheduledFor m : string)
| Suppress (i : string)
| Overlap (uuid i : string) (d : OverlapDetails)
| Accept (i receiptId taskId : string) (queued_ : bool) (d : AcceptDetails) (fb : option Fallback)
| Outcome (i receiptId : string) (o : ScheduleExecutionOutcome) (why : ScheduleExecutionReasonCode)
    (m : option string) (d : OutcomeDetails)
| Probe (i receiptId : string) (why : ScheduleExecutionReasonCode) (m : option string)
| TaskEnded (taskId : string) (done_ : bool) (reason : option TerminationReason)
| Reconcile (getTask : string → option Task).

(** The level of an operation. *)
Definition level (o : op) : nat :=
  match o with
  | Update _ _ _ | Unarchive _ => 2
  | Create _ _ _ | Enable _ _ _ | Delete _ | Archive _ _ | Recover _ _ | Rearm _ _ _ => 1
  | _ => 0
  end.

Definition grantOf (o : op) : grant :=
  mkGrant (level o)
    match o with
    | Create _ _ _ | Reserve _ _ _ _ _ _ | CatchUpSkipped _ _ _ | CatchUpDeferred _ _ _ | CatchUpDenied _ _ _
    | Accept _ _ _ _ _ _ | Outcome _ _ _ _ _ _ | Probe _ _ _ _ => true
    | _ => false
    end.

Section machine.
Variable isValidCron : string → bool.
Variable dateParse : string → option Z.

(** The runner reserves the row it has just read.  The recovery and the re-arm await a write in each
    round: a round is an operation, on a row as the loop read it at its beginning. *)
Definition exec (e : env) (o : op) (v : svc) : svc :=
  match o with
  | Create uuid x i => (createDefinition isValidCron e uuid x i v).2
  | Update i x p => (updateDefinition isValidCron e i x p v).2
  | Enable i on hold => (setEnabled e i on hold v).2
  | Delete i => (delete e i v).2
  | Archive i reason => (archive e i reason v).2
  | Unarchive i => (unarchive e i v).2
  | Recover before s => (recoverStep dateParse e before (v, [], []) s).1.1
  | Enforce => (enforceFailureAutoPauses e v).2
  | Rearm healthy ready s => (rearmStep e healthy ready (v, []) s).1
  | Reserve i rid token t f d => (withSchedule i v (λ s, reserveExecution e rid token s t f d v)).2
  | CronLimit i => (markCronLimitExhausted e i v).2
  | CatchUpSkipped i f m => (recordCatchUpSkipped e i f m v).2
  | CatchUpDeferred i f m => (recordCatchUpDeferred e i f m v).2
  | CatchUpDenied i f m => (recordCatchUpLeaseDenied e i f m v).2
  | Suppress i => (suppressCatchUp e i v).2
  | Overlap uuid i d => (recordOverlapSkipped e uuid i d v).2
  | Accept i rid taskId q d fb => (markExecutionAccepted e i rid taskId q d fb v).2
  | Outcome i rid o why m d => (markExecutionOutcome e i rid o why m d v).2
  | Probe i rid why m => (markProbeCompleted e i rid why m v).2
  | TaskEnded taskId done_ reason => (recordTaskTerminalOutcome e taskId done_ reason v).2
  | Reconcile getTask => (reconcileOnStartup getTask e v).2
  end.

Definition run (ops : list (env * op)) (v : svc) : svc := foldl (λ v eo, exec eo.1 eo.2 v) v ops.

Lemma recordMissed_tracks d o why e l i f m v :
  g_runs l = true → PENDING_LEDGER_OUTCOMES o = false → tracks e l v (recordMissed d o why e i f m v).2.
Proof.
  intros Hl Ho. apply withSchedule_tracks. intros s Hs _ Hid. subst i. eapply commit_put_tracks; [done|by constructor].
Qed.

Lemma ownerOf_latest taskId v s x : ownerOf taskId v = Some (s, x) → latestExecution s = Some x.
Proof.
  unfold ownerOf. destruct (List.find _ _) as [s'|]; [|done]. cbn. destruct (latestExecution s') eqn:E; [|done].
  intros. by simplify_eq/=.
Qed.

Lemma ownerOf_row taskId v s x :
  rows_ok (rows v) → ownerOf taskId v = Some (s, x) → row (id s) v = Some s.
Proof.
  intros Hok H. unfold ownerOf in H.
  destruct (List.find _ _) as [s'|] eqn:E; [|done]. apply find_some in E as [Hin _]. cbn in H.
  destruct (latestExecution s'); simplify_eq/=. apply snapshot_all; [done|]. by apply list_elem_of_In.
Qed.

(** The new row of an id, which the operator asked for. *)
Lemma commit_set_tracks e l st v i s' :
  rows_ok st → (∀ j, get j st = if decide (j = i) then s' else row j v) →
  rowStep e l (row i v) s' → tracks e l v (commit e {| v with rows := st |}).2.
Proof.
  intros Hst Hg Hstep _. rewrite commit_rows. cbn [rows]. split; [done|]. intros j. unfold row. rewrite commit_rows. cbn [rows].
  rewrite Hg. case_decide as E; [subst j; by apply rtc_once|done].
Qed.

Lemma putRow_get now i s st j : get j (putRow now i s st) = if decide (j = i) then Some s else get j st.
Proof. unfold putRow, bumpRevision, syncRollup, get. cbn [schedules]. apply mget_mset. Qed.

(** A row an operator's change leaves, stored as the store does. *)
Lemma operator_tracks e l v i s s' :
  row i v = Some s → rows_ok (rows v) → rowChange e l s s' → s' = touched e s' →
  tracks e l v (commit e {| v with rows := putRow (e_now e) i s' (rows v) |}).2.
Proof.
  intros Hs Hok Hc Ht. pose proof (proj2 Hok _ _ Hs) as Hid. pose proof (rowChange_id _ _ _ _ Hc) as Hid'.
  apply (commit_set_tracks e _ _ v i (Some s')); [by apply putRow_rows; [congruence|]|intros j; apply putRow_get|].
  rewrite Hs. pose proof (rs_change e l s s' Hc) as H. by rewrite <- Ht in H.
Qed.

Lemma operator_exec e o v : (1 ≤ level o)%nat → tracks e (grantOf o) v (exec e o v).
Proof.
  intros Ho Hok. revert Hok. destruct o; cbn [level] in *; try lia; cbn [exec]; intros Hok; set (l := grantOf _).
  - revert Hok. unfold createDefinition, create. destruct validated; [apply tracks_refl|].
    destruct (createError isValidCron i) eqn:E; [apply tracks_refl|]. intros Hok.
    apply (commit_set_tracks e l (putRow (e_now e) uuid (newSchedule (e_now e) uuid i) (rows v)) v uuid (Some (newSchedule (e_now e) uuid i)));
      [by apply putRow_rows|intros j; apply putRow_get|by eapply (rs_create e l)|done].
  - revert Hok. apply withSchedule_tracks. intros s Hs Hok Hid. destruct validated; [apply tracks_refl|].
    unfold Sched.updateDefinition. unfold row in Hs. rewrite Hs. destruct (updateError isValidCron s p); [apply tracks_refl|].
    apply (operator_tracks e l v i s); [done|done|by constructor|done].
  - by apply (enable_round e l i on hold v).
  - revert Hok. unfold delete. unfold Sched.delete. destruct (get i (rows v)) as [s|] eqn:E; [|apply tracks_refl]. cbn [negb].
    intros Hok. eapply (commit_set_tracks e l _ v i None); [| |by constructor|done].
    + destruct Hok as [Hw Hi]. split; unfold bumpRevision, get; cbn [schedules]; [by apply mwf_mdel|].
      intros j t. rewrite mget_mdel. case_decide; [done|apply Hi].
    + intros j. unfold bumpRevision, row, get. cbn [schedules]. apply mget_mdel.
  - revert Hok. apply withSchedule_tracks. intros s Hs Hok Hid. unfold Sched.archive. unfold row in Hs. rewrite Hs.
    apply (operator_tracks e l v i s); [done|done|by constructor|done].
  - revert Hok. apply withSchedule_tracks. intros s Hs Hok Hid. unfold Sched.unarchive. unfold row in Hs. rewrite Hs.
    apply (operator_tracks e l v i s); [done|done|by constructor|done].
  - by apply (recover_round dateParse e l heldBefore v s).
  - by apply (rearm_round e l healthy ready v s).
Qed.

Lemma daemon_exec e o v : level o = 0%nat → tracks e (grantOf o) v (exec e o v).
Proof.
  intros Ho. destruct o; try done; cbn [exec]; set (l := grantOf _).
  - apply enforce_tracks.
  - apply withSchedule_tracks. intros s Hs _ Hid. subst i. unfold reserveExecution.
    eapply tracks_rows; [symmetry; apply persist_rows|]. apply (put_tracks e l s); [done|by constructor].
  - apply withSchedule_tracks. intros s Hs _ Hid. subst i. destruct (isTriggerLimitExhausted s) eqn:E; [|apply tracks_refl]. cbn [negb].
    destruct (_ && _); [apply tracks_refl|]. apply (commit_put_tracks e l s); [done|by constructor].
  - by apply recordMissed_tracks.
  - by apply recordMissed_tracks.
  - by apply recordMissed_tracks.
  - apply withSchedule_tracks. intros s Hs _ Hid. subst i. apply (commit_put_tracks e l s); [done|by constructor].
  - apply withSchedule_tracks. intros s Hs _ Hid. subst i. apply (commit_put_tracks e l s); [done|by constructor].
  - apply withSchedule_tracks. intros s Hs _ Hid. subst i. destruct (acceptedReceipt e s receiptId fb) as [r|] eqn:E; [|apply tracks_refl].
    apply (commit_put_tracks e l s); [done|by eapply ch_accept].
  - apply withSchedule_tracks. intros s Hs _ Hid. subst i. destruct (requireReceipt s receiptId) as [r|] eqn:E; [|apply tracks_refl].
    eapply tracks_rows; [symmetry; apply alertAfter_rows|]. apply (commit_put_tracks e l s); [done|by constructor].
  - apply withSchedule_tracks. intros s Hs _ Hid. subst i. destruct (requireReceipt s receiptId) as [r|] eqn:E; [|apply tracks_refl].
    apply (commit_put_tracks e l s); [done|by constructor].
  - intros Hok. revert Hok. unfold recordTaskTerminalOutcome. destruct (ownerOf taskId v) as [[s x]|] eqn:E; [|apply tracks_refl].
    intros Hok. pose proof (ownerOf_row _ _ _ _ Hok E) as Hs. pose proof (ownerOf_latest _ _ _ _ E) as Hx. revert Hok.
    destruct (match _ with Some _ => _ | None => false end); [apply tracks_refl|].
    destruct (_ && _); [apply (commit_put_tracks e l s); [done|by constructor]|].
    eapply tracks_rows; [symmetry; apply alertAfter_rows|]. apply (commit_put_tracks e l s); [done|by constructor].
  - apply reconcile_tracks.
Qed.

Lemma exec_tracks e o v : tracks e (grantOf o) v (exec e o v).
Proof.
  destruct (decide (1 ≤ level o)%nat) as [H|H]; [by apply operator_exec|]. apply daemon_exec. lia.
Qed.

(** Undisturbed, the loop of the re-arm is the history of its rounds. *)
Lemma rearm_rounds e healthy readyAt v :
  (rearmTransientFailureHolds e healthy readyAt v).1 =
  run (map (λ s, (e, Rearm healthy (orOpt readyAt (runnerStartedAt v)) s)) (list_ (rows v))) v.
Proof.
  unfold rearmTransientFailureHolds. generalize (orOpt readyAt (runnerStartedAt v)) as ready. intros ready.
  assert (H : ∀ acc s, (rearmStep e healthy ready acc s).1 = (rearmStep e healthy ready (acc.1, []) s).1).
  { intros [v0 rs] s. unfold rearmStep. cbn [fst]. destruct (isSome _); [done|]. destruct (isTriggerLimitExhausted s); [done|].
    by destruct (setEnabled e (id s) true None v0) as [[x|] v']. }
  assert (Hl : ∀ l acc, (foldl (rearmStep e healthy ready) acc l).1 = run (map (λ s, (e, Rearm healthy ready s)) l) acc.1).
  { induction l as [|s l IH]; intros acc; [done|]. cbn [foldl map]. rewrite IH. unfold run. cbn [foldl fst snd exec]. by rewrite H. }
  apply (Hl _ (v, [])).
Qed.

(** A property of a row that the machine keeps holds through every history. *)
Lemma run_invariant (P : option Schedule → Prop) i ops v :
  (∀ eo a b, eo ∈ ops → rowStep eo.1 (grantOf eo.2) a b → P a → P b) →
  rows_ok (rows v) → P (row i v) → rows_ok (rows (run ops v)) ∧ P (row i (run ops v)).
Proof.
  revert v. induction ops as [|[e o] ops IH]; intros v HP Hok Hv; [done|]. unfold run in *. cbn [foldl fst snd].
  destruct (exec_tracks e o v Hok) as [Hok' Hs]. apply IH; [intros eo a b Hin; apply HP; set_solver|done|].
  specialize (Hs i). specialize (HP (e, o)). clear -HP Hv Hs.
  induction Hs as [|a b c Hab _ IH]; [done|]. apply IH. by eapply HP; [set_solver|exact Hab|].
Qed.
End machine.

(** ** The trigger budget *)

Definition budgetOk (s : Schedule) : Prop :=
  match maxTriggers s with
  | None => True
  | Some m => 0 < m ∧ 0 ≤ orElse (remainingTriggers s) m ≤ m ∧ (enabled s = true → 0 < orElse (remainingTriggers s) m)
  end.

Definition rowOk (P : Schedule → Prop) (o : option Schedule) : Prop :=
  match o with Some s => P s | None => True end.

Lemma positiveInteger_pos v n : positiveInteger v = Some n → 0 < n.
Proof. unfold positiveInteger. intros H. repeat case_match; simplify_eq/=. by zbool. Qed.

Lemma nextLimit_pos v n : nextLimit v = Some (Some n) → 0 < n.
Proof.
  unfold nextLimit, isValidMaxTriggers. destruct v as [j|]; [|done].
  destruct j; try done; (destruct (positiveInteger _) eqn:E; [|done]); intros [= <-]; by eapply positiveInteger_pos.
Qed.

Lemma consumed_budget s t b now s' :
  budgetOk s → maxTriggers s' = maxTriggers (withConsumed (consumeCronTrigger s t b now) s) →
  remainingTriggers s' = remainingTriggers (withConsumed (consumeCronTrigger s t b now) s) →
  (enabled s' = true → enabled (withConsumed (consumeCronTrigger s t b now) s) = true) → budgetOk s'.
Proof.
  unfold budgetOk. intros Hb -> ->. unfold consumeCronTrigger, withConsumed.
  destruct (maxTriggers s) as [m|] eqn:Em; [|by rewrite Em]. destruct (_ || _); [rewrite Em; naive_solver|].
  destruct Hb as (Hm & Hr & He). destruct (Z.eqb_spec (Z.max (orElse (remainingTriggers s) m - 1) 0) 0) as [E|E]; cbn; intros Hs.
  - split_and!; [lia..|]. intros H. by specialize (Hs H).
  - split_and!; [lia..|]. intros _. lia.
Qed.

Lemma update_budget now p s : budgetOk s → budgetOk (updatedSchedule now p s).
Proof.
  intros Hb. unfold budgetOk, updatedSchedule, withTriggers. cbn [maxTriggers remainingTriggers enabled].
  unfold computeUpdatedTriggerState. destruct (nextLimit (up_maxTriggers p)) as [[n|]|] eqn:En; cbn; [|done|exact Hb].
  apply nextLimit_pos in En.
  set (c := match maxTriggers s with Some m => _ | None => 0 end). assert (0 ≤ c) by (subst c; destruct (maxTriggers s); lia).
  destruct (Z.eqb_spec (Z.max (n - c) 0) 0); cbn; split_and!; try lia; intros; try done; lia.
Qed.

(** A row no more enabled, with the same budget. *)
Lemma budget_same s s' :
  budgetOk s → maxTriggers s' = maxTriggers s → remainingTriggers s' = remainingTriggers s →
  (enabled s' = true → enabled s = true ∨ isTriggerLimitExhausted s = false) → budgetOk s'.
Proof.
  unfold budgetOk, isTriggerLimitExhausted. intros Hb -> -> He. destruct (maxTriggers s) as [m|]; [|done].
  destruct Hb as (? & ? & Hen). split_and!; [done|lia|lia|]. intros [|Hx]%He; [by apply Hen|]. by zbool.
Qed.

Lemma budget_step e l a b : rowStep e l a b → rowOk budgetOk a → rowOk budgetOk b.
Proof.
  destruct 1 as [s s' Hc|now uuid i v o _ _ Herr|]; [|intros _|done]; cbn [rowOk].
  - intros Hb. change (budgetOk s'). destruct Hc; try exact Hb.
    + apply (budget_same s); try done.
    + by eapply consumed_budget.
    + eapply consumed_budget; [exact Hb|..]; unfold outcomeRow, withPause; by destruct (autoPausePatch _ _ _).
    + by eapply consumed_budget.
    + apply (budget_same s); [done|..]; unfold endedRow, withPause; destruct (autoPausePatch _ _ _); try done; by left.
    + apply (budget_same s); try done.
    + apply (budget_same s); [done|..|by right]; cbn zeta; by destruct (needsClear _).
    + apply (budget_same s); [done|..]; unfold switched, setHold; destruct hold as [[]|]; try done; by destruct (isCriticalAllowlistedSchedule s).
    + by apply update_budget.
  - assert (Hn : ∀ n, (k ← in_maxTriggers i; isValidMaxTriggers k) = Some n → 0 < n).
    { intros n Hn. apply bind_Some in Hn as (k & _ & Hn). exact (positiveInteger_pos (Some k) n Hn). }
    unfold budgetOk. change (maxTriggers (newSchedule now uuid i)) with (k ← in_maxTriggers i; isValidMaxTriggers k).
    change (remainingTriggers (newSchedule now uuid i)) with (k ← in_maxTriggers i; isValidMaxTriggers k).
    destruct (k ← in_maxTriggers i; isValidMaxTriggers k) as [n|]; [|done]. specialize (Hn n eq_refl).
    change (orElse (Some n) n) with n. split_and!; intros; lia.
Qed.

(** ** Failing closed *)

(** A listed schedule that may fire and is not critical for recovery has not failed too often. *)
Definition underThreshold (th : Z) (s : Schedule) : Prop :=
  enabled s = true → archived s = false → isRecoveryCriticalSchedule s = false →
  orElse (consecutiveFailures s) 0 < th.

Lemma rowChange_same e (l : grant) s s' :
  (l ≤ 1)%nat → rowChange e l s s' → isRecoveryCriticalSchedule s' = isRecoveryCriticalSchedule s.
Proof.
  intros Hl Hc. assert (H : name s' = name s ∧ playbook s' = playbook s ∧ failurePolicy s' = failurePolicy s).
  { destruct Hc; try lia; try done; unfold acceptedRow, outcomeRow, probedRow, endedRow, withConsumed, withPause,
      clearedRow, switched, setHold; repeat case_match; done. }
  destruct H as (H1 & H2 & H3). unfold isRecoveryCriticalSchedule, isBootstrapCriticalSchedule, namedBy. by rewrite H1, H2, H3.
Qed.

(** The pause keeps a row under the threshold. *)
Lemma paused_under e th s s' n :
  resolveFailureAlertThreshold e = th → 0 < th →
  isRecoveryCriticalSchedule s' = isRecoveryCriticalSchedule s → archived s' = archived s →
  consecutiveFailures s' = Some n → (enabled s' = true → enabled s = true ∧ autoPausePatch e s n = None) →
  underThreshold th s'.
Proof.
  intros Hth Hp Hr Ha Hn He Hen Hna Hnr. rewrite Hn. cbn. destruct (He Hen) as [Hs Hnone]. unfold autoPausePatch in Hnone.
  rewrite <- Ha, Hna, <- Hr, Hnr, Hth in Hnone. unfold shouldAutoPauseForConsecutiveFailures in Hnone. rewrite Hs in Hnone. cbn in Hnone.
  destruct (Z.ltb_spec 0 th); [|lia]. cbn in Hnone. destruct (Z.leb_spec th n); [done|lia].
Qed.

(** A row no more enabled, with the same streak. *)
Lemma under_same th s s' :
  underThreshold th s → isRecoveryCriticalSchedule s' = isRecoveryCriticalSchedule s →
  (archived s' = false → archived s = false) → consecutiveFailures s' = consecutiveFailures s →
  (enabled s' = true → enabled s = true) → underThreshold th s'.
Proof. unfold underThreshold. intros Hu Hr Ha -> He ???. apply Hu; [auto|auto|congruence]. Qed.

Lemma withConsumed_enabled s t b now : enabled (withConsumed (consumeCronTrigger s t b now) s) = true → enabled s = true.
Proof. unfold withConsumed, consumeCronTrigger. repeat case_match; simplify_eq/=; done. Qed.

Lemma withConsumed_archived s t b now : archived (withConsumed (consumeCronTrigger s t b now) s) = archived s.
Proof. unfold withConsumed. by case_match. Qed.

Lemma withConsumed_failures s t b now :
  consecutiveFailures (withConsumed (consumeCronTrigger s t b now) s) = consecutiveFailures s.
Proof. unfold withConsumed. by case_match. Qed.

Lemma under_step e th (l : grant) a b :
  resolveFailureAlertThreshold e = th → 0 < th → (l ≤ 1)%nat → rowStep e l a b →
  rowOk (underThreshold th) a → rowOk (underThreshold th) b.
Proof.
  intros Hth Hp Hl. destruct 1 as [s s' Hc|now uuid i v o _ _ Herr|]; [|by intros _ _ _ _|done]; cbn [rowOk].
  intros Hu. change (underThreshold th s'). pose proof (rowChange_same _ _ _ _ Hl Hc) as Hr. destruct Hc; try lia; try exact Hu.
  - by apply (under_same th s).
  - apply (under_same th s); [done|done|..]; unfold acceptedRow; cbn.
    + by rewrite withConsumed_archived. + by rewrite withConsumed_failures. + apply withConsumed_enabled.
  - apply (paused_under e th s _ (outcomeFailures s o)); [done|done|done| |done|]; unfold outcomeRow, withPause;
      destruct (autoPausePatch _ _ _); cbn; rewrite ?withConsumed_archived; try done. intros ?%withConsumed_enabled. done.
  - unfold underThreshold. cbn. lia.
  - apply (paused_under e th s _ (endedFailures s done_ genuine)); [done|done|done| |done|]; unfold endedRow, withPause;
      by destruct (autoPausePatch _ _ _).
  - done.
  - cbn zeta. unfold needsClear. destruct (_ || _) eqn:E; unfold underThreshold; [cbn; lia|].
    apply orb_false_iff in E as [E _]. zbool. unfold switched, setHold in *. cbn in *. lia.
  - unfold underThreshold, switched, setHold. destruct hold as [[]|]; try done; by destruct (isCriticalAllowlistedSchedule s).
  - done.
Qed.

(** ** The ledger of a row *)

Abbreviation ledgerIds l := (map le_id l).

Lemma updateAt_ids entry l l' : updateAt entry l = Some l' → ledgerIds l' = ledgerIds l.
Proof.
  revert l'. induction l as [|x l IH]; intros l' H; [done|]. cbn in H. destruct (String.eqb_spec (le_id x) (le_id entry)) as [E|].
  - simplify_eq/=. by rewrite E.
  - destruct (updateAt entry l) as [r|]; simplify_eq/=. f_equal. by apply IH.
Qed.

Lemma updateAt_None entry l : updateAt entry l = None → le_id entry ∉ ledgerIds l.
Proof.
  induction l as [|x l IH]; cbn; [set_solver|]. destruct (String.eqb_spec (le_id x) (le_id entry)); [done|].
  destruct (updateAt entry l); [done|]. intros _. set_solver.
Qed.

Lemma updateAt_entry entry l l' : updateAt entry l = Some l' → ∃ x, x ∈ l ∧ le_id x = le_id entry ∧ mergeEntry x entry ∈ l'.
Proof.
  revert l'. induction l as [|x l IH]; intros l' H; [done|]. cbn in H. destruct (String.eqb_spec (le_id x) (le_id entry)) as [E|].
  - simplify_eq/=. exists x. set_solver.
  - destruct (updateAt entry l) as [r|]; simplify_eq/=. destruct (IH r) as (y & ? & ? & ?); [done|]. exists y. set_solver.
Qed.

Lemma ledgerIds_sublist l1 l2 : l1 `sublist_of` l2 → ledgerIds l1 `sublist_of` ledgerIds l2.
Proof. induction 1; cbn; by constructor. Qed.

(** What a change may do to a ledger: its rows keep their own ids, none of a run that is not over
    is dropped, and it does not grow past the newest 500, the rows of such runs and the new one. *)
Definition ledgerMoves (l l' : list ScheduleExecutionLedgerEntry) : Prop :=
  (NoDup (ledgerIds l) → NoDup (ledgerIds l'))
  ∧ (∀ x, x ∈ l → isPendingLedgerEntry x = true → le_id x ∈ ledgerIds l')
  ∧ Z.of_nat (length l') ≤
      Z.max (Z.of_nat (length l)) (MAX_LEDGER_ENTRIES + Z.of_nat (countb isPendingLedgerEntry l) + 1).

Lemma moves_ids l l' : ledgerIds l' = ledgerIds l → ledgerMoves l l'.
Proof.
  intros E. unfold ledgerMoves. split_and!; [by rewrite E|intros x Hx _; rewrite E; by apply list_elem_of_fmap_2|].
  apply (f_equal length) in E. rewrite !length_map in E. lia.
Qed.

Lemma upsert_moves l entry : ledgerMoves l (upsertLedgerEntry l entry).
Proof.
  unfold upsertLedgerEntry. destruct (updateAt entry l) as [l'|] eqn:E; [by apply moves_ids, (updateAt_ids entry)|].
  apply updateAt_None in E. unfold ledgerMoves. split_and!.
  - intros Hnd. eapply sublist_NoDup; [|apply ledgerIds_sublist, prune_sublist]. rewrite map_app. apply NoDup_app.
    split_and!; [done|set_solver|apply NoDup_singleton].
  - intros x Hx Hp. apply list_elem_of_fmap_2, prune_pending; [|done]. set_solver.
  - pose proof (prune_length (l ++ [entry]) MAX_LEDGER_ENTRIES) as H. rewrite countb_app in H.
    pose proof (countb_length isPendingLedgerEntry [entry]) as H1. change (length [entry]) with 1%nat in H1. unfold MAX_LEDGER_ENTRIES in *. lia.
Qed.

Lemma map_moves (f : ScheduleExecutionLedgerEntry → ScheduleExecutionLedgerEntry) l :
  (∀ x, le_id (f x) = le_id x) → ledgerMoves l (map f l).
Proof. intros Hf. apply moves_ids. rewrite map_map. by apply map_ext. Qed.

Lemma patch_moves p (t : ScheduleExecutionLedgerEntry → bool) l : ledgerMoves l (map (λ x, if t x then patchRow p x else x) l).
Proof. apply map_moves. intros x. by destruct (t x). Qed.

(** No operation loses the ledger row of a run that is not over, or gives two rows one id; and
    the ledger stays bounded: it may pass 500 rows only by those of such runs. *)
Theorem ledger_keeps_runs e l s s' :
  rowChange e l s s' → ledgerMoves (executionLedger s) (executionLedger s').
Proof.
  intros Hc. destruct Hc; try (by apply moves_ids); try apply upsert_moves; try apply patch_moves.
  - cbn zeta. destruct (needsClear _); apply moves_ids; unfold clearedRow, switched, setHold; by repeat case_match.
  - apply moves_ids; unfold switched, setHold; by repeat case_match.
Qed.

Section history.
Variable isValidCron : string → bool.
Variable dateParse : string → option Z.
Abbreviation exec := (exec isValidCron dateParse).
Abbreviation run := (run isValidCron dateParse).

(** C34: the triggers a schedule with a limit has left are between none and the limit, and a
    schedule that has none left is not enabled: from a row of which this holds, in any history,
    whatever an operator edits and whenever the clock fires. *)
Theorem trigger_budget v ops i :
  rows_ok (rows v) → rowOk budgetOk (row i v) → rowOk budgetOk (row i (run ops v)).
Proof.
  intros Hok Hv. apply (run_invariant isValidCron dateParse (rowOk budgetOk)); [|done|done].
  intros eo a b _. apply budget_step.
Qed.

(** *** What the enforcement establishes *)

Lemma fold_establish {A} e l (P : option Schedule → Prop) (f : A → Schedule → A) (svcOf : A → svc) rs acc :
  (∀ acc s, rows_ok (rows (svcOf acc)) → row (id s) (svcOf acc) = Some s →
     roundOk e l (id s) (svcOf acc) (svcOf (f acc s)) ∧ P (row (id s) (svcOf (f acc s)))) →
  NoDup (map id rs) → rows_ok (rows (svcOf acc)) → (∀ s, s ∈ rs → row (id s) (svcOf acc) = Some s) →
  (∀ s, s ∈ rs → P (row (id s) (svcOf (foldl f acc rs))))
  ∧ ∀ j, j ∉ map id rs → row j (svcOf (foldl f acc rs)) = row j (svcOf acc).
Proof.
  intros Hf. revert acc. induction rs as [|s rs IH]; intros acc Hnd Hok Hin; [split; [set_solver|done]|].
  cbn in Hnd. apply NoDup_cons in Hnd as [Hs Hnd]. destruct (Hf acc s) as [[Ht Hne] HP]; [done|apply Hin; set_solver|].
  cbn [foldl]. destruct (IH (f acc s)) as [H1 H2]; [done|by apply Ht| |].
  { intros t Ht'. rewrite Hne; [apply Hin; set_solver|]. intros Heq. apply Hs. rewrite <- Heq. by apply list_elem_of_fmap_2. }
  split.
  - intros t [->|Hin']%elem_of_cons; [|by apply H1]. rewrite H2 by done. exact HP.
  - intros j Hj. cbn in Hj. rewrite H2 by set_solver. apply Hne. set_solver.
Qed.

Lemma enforce_establishes e th v :
  resolveFailureAlertThreshold e = th → 0 < th → rows_ok (rows v) →
  ∀ i, rowOk (underThreshold th) (row i (exec e Enforce v)).
Proof.
  intros Hth Hp Hok i. cbn [Service.exec]. unfold enforceFailureAutoPauses. rewrite Hth. destruct (Z.leb_spec th 0); [lia|].
  destruct (fold_establish e (mkGrant 0 true) (rowOk (underThreshold th)) (enforceStep e) fst (list_ (rows v)) (v, 0)) as [H1 H2];
    [|by apply list_ids|done|intros s; by apply snapshot_list|].
  - intros [v1 n] s _ Hs. split; [by apply enforce_round|]. unfold enforceStep. cbn [fst] in *. rewrite Hth.
    destruct (shouldAutoPauseForConsecutiveFailures _ th (enabled s)) eqn:E; cbn [negb].
    + destruct (autoPausePatch e s _) as [p|] eqn:Ep; cbn [fst].
      * assert (Hr : row (id s) (put e (withPause (Some p) s) v1) = Some (touched e (withPause (Some p) s))) by (rewrite put_row; by rewrite decide_True).
        unfold row in *. cbn [rows send] in *. rewrite Hr. done.
      * rewrite Hs. cbn [rowOk]. intros Hen Hna Hnr. unfold autoPausePatch in Ep. by rewrite Hna, Hth, E, Hnr in Ep.
    + cbn [fst]. rewrite Hs. cbn [rowOk]. intros Hen _ _. unfold shouldAutoPauseForConsecutiveFailures in E. rewrite Hen in E. cbn in E.
      destruct (Z.ltb_spec 0 th); [|lia]. cbn in E. by apply Z.leb_gt in E.
  - destruct (foldl _ _ _) as [v' n]. cbn [fst] in *.
    assert (Hrow : row i (if 0 <? n then commit e v' else (None, v')).2 = row i v').
    { unfold row. destruct (0 <? n); [by rewrite commit_rows|done]. }
    rewrite Hrow. destruct (decide (i ∈ map id (list_ (rows v)))) as [Hi|Hi].
    + apply list_elem_of_fmap in Hi as (s & -> & Hs). by apply H1.
    + rewrite H2 by done. destruct (row i v) as [s|] eqn:Es; [|done]. cbn. intros _ Hna _. exfalso. apply Hi.
      apply list_elem_of_fmap. exists s. pose proof (proj2 Hok _ _ Es) as Hid. split; [done|].
      apply elem_of_list_; [done|]. rewrite Hid. by split.
Qed.

(** C17: the scheduler fails closed: once the enforcement of the start has run, whatever fires,
    ends, is re-armed or is switched, a listed schedule that is enabled and not critical for
    recovery has failed fewer times in a row than the threshold, for a positive threshold that does
    not change, and unless an operator edits a definition or brings an archived one back. *)
Theorem streak_fails_closed th e v ops i s :
  0 < th → resolveFailureAlertThreshold e = th → rows_ok (rows v) →
  (∀ eo, eo ∈ ops → resolveFailureAlertThreshold eo.1 = th ∧ (level eo.2 ≤ 1)%nat) →
  row i (run ops (exec e Enforce v)) = Some s →
  enabled s = true → archived s = false → isRecoveryCriticalSchedule s = false →
  orElse (consecutiveFailures s) 0 < th.
Proof.
  intros Hp Hth Hok Hops Hs. pose proof (enforce_establishes e th v Hth Hp Hok i) as Hi.
  destruct (run_invariant isValidCron dateParse (rowOk (underThreshold th)) i ops (exec e Enforce v)) as [_ H]; [| |exact Hi|].
  - intros eo a b Hin. destruct (Hops eo Hin) as [H1 H2]. by apply under_step.
  - by apply (exec_tracks isValidCron dateParse e Enforce v Hok).
  - rewrite Hs in H. exact H.
Qed.

(** *** Holds *)

(** What an operator decided about the schedule. *)
Definition heldRow (s0 s : Schedule) : Prop :=
  enabled s = false ∧ operatorHold s = operatorHold s0 ∧ holdSource s = Some operator ∧ heldAt s = heldAt s0.

Lemma withConsumed_hold s t b now :
  let s' := withConsumed (consumeCronTrigger s t b now) s in
  operatorHold s' = operatorHold s ∧ holdSource s' = holdSource s ∧ heldAt s' = heldAt s.
Proof. unfold withConsumed. by case_match. Qed.

Lemma no_pause_disabled e s n : enabled s = false → autoPausePatch e s n = None.
Proof. intros H. unfold autoPausePatch, shouldAutoPauseForConsecutiveFailures. rewrite H. by destruct (archived s). Qed.

Lemma held_step e (l : grant) s0 s b :
  g_level l = 0%nat → rowStep e l (Some s) b → heldRow s0 s → ∃ s', b = Some s' ∧ heldRow s0 s'.
Proof.
  intros Hl Hstep (H1 & H2 & H3 & H4). inversion Hstep as [t s' Hc| |]; subst; [|lia|lia]. exists (touched e s'). split; [done|].
  change (heldRow s0 s'). destruct Hc; try lia; try done.
  - destruct (withConsumed_hold s (rx_trigger r) true (e_now e)) as (? & ? & ?). unfold heldRow, acceptedRow. cbn.
    split_and!; try congruence. destruct (enabled (withConsumed _ _)) eqn:E; [|done]. apply withConsumed_enabled in E. congruence.
  - destruct (withConsumed_hold s (rx_trigger r) (bool_decide (o = dispatch_failed)) (e_now e)) as (? & ? & ?).
    unfold heldRow, outcomeRow. rewrite no_pause_disabled by done. cbn. split_and!; try congruence.
    destruct (enabled (withConsumed _ _)) eqn:E; [|done]. apply withConsumed_enabled in E. congruence.
  - destruct (withConsumed_hold s (rx_trigger r) true (e_now e)) as (? & ? & ?). unfold heldRow, probedRow. cbn.
    split_and!; try congruence. destruct (enabled (withConsumed _ _)) eqn:E; [|done]. apply withConsumed_enabled in E. congruence.
  - unfold heldRow, endedRow. by rewrite no_pause_disabled.
  - match goal with H : autoPausePatch _ _ _ = Some _ |- _ => by rewrite no_pause_disabled in H end.
Qed.

(** The daemon's own steps; a round of its re-arm works on a row that the loop read since the
    beginning of the history. *)
Definition daemonStep (i : string) (v : svc) (before : list (env * op)) (o : op) : Prop :=
  level o = 0%nat ∨
  ∃ healthy ready s, o = Rearm healthy ready s ∧ (id s = i → ∃ k, row i (run (take k before) v) = Some s).

Lemma held_exec e o v i s0 s :
  level o = 0%nat → rows_ok (rows v) → row i v = Some s → heldRow s0 s → ∃ s', row i (exec e o v) = Some s' ∧ heldRow s0 s'.
Proof.
  intros Ho Hok Hs Hh. destruct (exec_tracks isValidCron dateParse e o v Hok) as [_ Ht]. specialize (Ht i).
  assert (H : ∀ a b, rtc (rowStep e (grantOf o)) a b → (∃ x, a = Some x ∧ heldRow s0 x) → ∃ x, b = Some x ∧ heldRow s0 x).
  { intros a b Hr. induction Hr as [|a b c Hab _ IH]; [done|]. intros (x & -> & Hx). apply IH. eapply (held_step e (grantOf o)); [exact Ho|exact Hab|exact Hx]. }
  apply (H _ _ Ht). by exists s.
Qed.

Lemma rearm_held e healthy ready s0 s v : heldRow s0 s → (rearmStep e healthy ready (v, []) s).1 = v.
Proof.
  intros (_ & _ & H & _). unfold rearmStep. destruct (decideTransientFailureRearm s healthy ready) eqn:E; [done|exfalso].
  revert E. unfold decideTransientFailureRearm. rewrite H, (bool_decide_true (Some operator = Some operator)) by done.
  by repeat case_match.
Qed.


(** *** Launched tasks *)

Lemma newest_kept l entry : ∃ y, y ∈ upsertLedgerEntry l entry ∧ le_outcome y = le_outcome entry
  ∧ le_id y = le_id entry ∧ (∀ t, le_taskId entry = Some t → le_taskId y = Some t).
Proof.
  unfold upsertLedgerEntry. destruct (updateAt entry l) as [l'|] eqn:E.
  - destruct (updateAt_entry _ _ _ E) as (x & _ & _ & Hin). exists (mergeEntry x entry). split_and!; try done.
    cbn. by intros t ->.
  - exists entry. split_and!; try done. apply prune_newest. unfold MAX_LEDGER_ENTRIES. lia.
Qed.

(** A task that was launched is never without its row: whether or not the receipt it was reserved
    under is still there, and whether or not the file is written, an acceptance with a fallback
    leaves the schedule naming the task as its latest and current execution, with a row of the
    ledger that is of the task and not over. *)
Theorem launch_recorded e v i rid taskId q d fb s :
  rows_ok (rows v) → row i v = Some s → taskId ≠ ""%string →
  ∃ s', row i (exec e (Accept i rid taskId q d (Some fb)) v) = Some s'
    ∧ (x ← latestExecution s'; lx_taskId x) = Some taskId
    ∧ (r ← currentExecution s'; rx_taskId r) = Some taskId
    ∧ ∃ y, y ∈ executionLedger s' ∧ le_taskId y = Some taskId ∧ isPendingLedgerEntry y = true.
Proof.
  intros Hok Hs Ht. pose proof (proj2 Hok _ _ Hs) as Hid. cbn [Service.exec]. unfold markExecutionAccepted, withSchedule.
  unfold row in Hs. rewrite Hs. destruct (acceptedReceipt e s rid (Some fb)) as [r|] eqn:Er.
  2:{ unfold acceptedReceipt in Er. by destruct (requireReceipt s rid). }
  unfold row. rewrite commit_rows. exists (touched e (acceptedRow e s r rid taskId q d)).
  assert (Hid' : id (acceptedRow e s r rid taskId q d) = i).
  { unfold acceptedRow, withConsumed. destruct (consumeCronTrigger _ _ _ _); done. }
  pose proof (put_row e (acceptedRow e s r rid taskId q d) v i) as Hp. rewrite Hid', decide_True in Hp by done.
  split_and!; [exact Hp|done|done|]. cbn [touched executionLedger acceptedRow].
  destruct (newest_kept (executionLedger s) (ledgerEntryFromReceipt s r (acceptOutcome q (ac_dependencyParked d)) (acceptReason q d)
    (mkDetails (e_now e) (Some taskId) None (ac_message d) None (ac_playbookSource d) (ac_requestedProvider d) (ac_attemptedProvider d))))
    as (y & Hin & Ho & _ & Htask). exists y. split_and!; [exact Hin| |].
  - apply Htask. change (truthyStr (Some taskId) = Some taskId). by apply truthyStr_Some.
  - unfold isPendingLedgerEntry. rewrite Ho. cbn. unfold acceptOutcome. by destruct (ac_dependencyParked d), q.
Qed.

(** *** The start after a restart *)

(** A row the restart has settled: an open receipt has a task, and a latest execution that is not
    over is of a task that still runs. *)
Definition settledRow (getTask : string → option Task) (s : Schedule) : Prop :=
  (∀ r, openReceipt s = Some r → ∃ t, openReceiptTask s r = Some t)
  ∧ ∀ x t, latestExecution s = Some x → PENDING_LEDGER_OUTCOMES (lx_outcome x) = true → truthyStr (lx_taskId x) = Some t →
      ∃ task, getTask t = Some task ∧ isTerminalStatus (Task.status task) = false.

Lemma settled_latest getTask e s :
  (openReceipt s = None ∨ ∃ r t, openReceipt s = Some r ∧ openReceiptTask s r = Some t) →
  settledRow getTask (match settleLatest getTask e s with Some (s', _) => touched e s' | None => s end).
Proof.
  intros Ho. assert (Hfree : settleLatest getTask e s = None → settledRow getTask s).
  { intros E. split.
    - intros r Hr. destruct Ho as [Ho|(r' & t & Ho & Ht)]; [congruence|]. exists t. congruence.
    - intros x t Hx Hp Ht. unfold settleLatest in E. rewrite Hx, Hp, Ht in E. cbn in E.
      destruct (getTask t) as [task|]; [|done]. exists task. split; [done|]. by destruct (isTerminalStatus (Task.status task)). }
  destruct (settleLatest getTask e s) as [[s' al]|] eqn:E; [|by apply Hfree]. clear Hfree. unfold settleLatest in E.
  destruct (latestExecution s) as [x|] eqn:Ex; [|done]. destruct (negb _); [done|]. destruct (truthyStr (lx_taskId x)) as [t|] eqn:Et; [|done].
  assert (Hend : ∀ s1, latestExecution s1 = latestExecution s' → currentExecution s1 = currentExecution s' →
     (∀ y, latestExecution s' = Some y → PENDING_LEDGER_OUTCOMES (lx_outcome y) = false) → openReceipt s' = None → settledRow getTask s1).
  { intros s1 H1 H2 H3 H4. split.
    - intros r Hr. exfalso. unfold openReceipt in *. rewrite H2 in Hr. congruence.
    - intros y u Hy Hp. rewrite H1 in Hy. rewrite (H3 _ Hy) in Hp. done. }
  destruct (getTask t) as [task|] eqn:Etask; [destruct (negb (isTerminalStatus _)); [done|]|]; simplify_eq/=;
    (apply Hend; [done|done|intros y [= <-]|]).
  - cbn. by destruct (bool_decide (Task.status task = ts_completed)).
  - unfold openReceipt. cbn. by destruct (currentExecution s) as [r|].
  - done.
  - unfold openReceipt, lostTaskRow. cbn. by destruct (currentExecution s) as [r|].
Qed.

End history.

(** ** Examples and limits of the code *)

Definition newService : svc := mkSvc newStore [] [] None None None mode_manual None.

Definition demoEnv (now : string) : env :=
  mkEnv now true None true (λ _, noEnrichment) (λ _, None) false.

Definition demoInput (limit : option jvalue) (policy : option string) : CreateScheduleInput :=
  mkCreateInput "nightly" "0 3 * * *" limit (mkPlaybook "p.md" [] None None) None "/w" None None None None None
    None false policy.

(** A fire by cron that is reserved under a receipt. *)
Definition fire (t rid : string) : env * op := (demoEnv t, Reserve "s" rid rid cron_trigger None None).

(** A fire whose launch fails. *)
Definition failedFire (t rid : string) : list (env * op) :=
  [fire t rid; (demoEnv t, Outcome "s" rid dispatch_failed why_launch_error None noDetails)].

Definition created (limit : option jvalue) (policy : option string) : env * op :=
  (demoEnv "t0", Create "s" None (demoInput limit policy)).

Definition accept (t rid taskId : string) : env * op :=
  (demoEnv t, Accept "s" rid taskId false (mkAccept None None false None None None) None).

Definition threeFailures : list (env * op) := failedFire "t1" "r1" ++ failedFire "t2" "r2" ++ failedFire "t3" "r3".

Definition demoRun (ops : list (env * op)) : svc := run (λ _, true) (λ _, None) ops newService.
Definition demoRow (ops : list (env * op)) : option Schedule := row "s" (demoRun ops).

Example paused_after_three :
  (λ s, (enabled s, stopReason s, holdSource s, consecutiveFailures s)) <$> demoRow (created None None :: threeFailures)
  = Some (false, Some consecutive_failures, Some daemon, Some 3).
Proof. by vm_compute. Qed.

(** The catch-up record of a missed slot replaces the latest execution by one without a task, so
    the run that was under way is forgotten: its end finds no schedule, and its row stays open. *)
Theorem missed_slot_orphans_run :
  (λ s, (x ← latestExecution s; lx_taskId x, map le_outcome (executionLedger s))) <$>
    demoRow [created None None; fire "t1" "r1"; accept "t1" "r1" "task"; (demoEnv "t2", CatchUpDeferred "s" "t2" "missed");
             (demoEnv "t3", TaskEnded "task" true None)]
  = Some (None, [running; skipped_manual]).
Proof. by vm_compute. Qed.

(** The bulk recovery looks at the reason of the stop only: it re-enables a schedule that was
    paused by failures and that an operator has held since. *)
Theorem recovery_lifts_operator_hold :
  let held := created None None :: threeFailures ++ [(demoEnv "t4", Enable "s" false (Some true))] in
  (λ s, (enabled s, holdSource s)) <$> demoRow held = Some (false, Some operator)
  ∧ (λ s, (enabled s, holdSource s)) <$> (s ← demoRow held; demoRow (held ++ [(demoEnv "t5", Recover None s)])) = Some (true, None).
Proof. by vm_compute. Qed.

(** A new limit re-enables a schedule that ran out of triggers, also one an operator disabled
    and holds. *)
Theorem budget_lifts_operator_hold :
  let raised := mkUpdate None None (Some (JNumber "5")) None None None None None None None None None None in
  (λ s, (enabled s, operatorHold s, holdSource s)) <$>
    demoRow [created (Some (JNumber "1")) None; fire "t1" "r1"; accept "t1" "r1" "task";
             (demoEnv "t2", Enable "s" false (Some true)); (demoEnv "t3", Update "s" None raised)]
  = Some (true, true, Some operator).
Proof. by vm_compute. Qed.

(** The alerts sent, as what they say. *)
Definition alertStates (v : svc) : list AlertState :=
  omap (λ x, match x with SendAlert a => Some (al_state a) | Broadcast => None end) (sent v).

(** A probe that completes clears the streak without the alert of the recovery, which the run of
    an agent that completes sends. *)
Theorem probe_keeps_alert :
  let failing := created None (Some "recovery_critical"%string) :: threeFailures in
  let probed := failing ++ [fire "t4" "r4"; (demoEnv "t4", Probe "s" "r4" why_probe_quiet None)] in
  let ran := failing ++ [fire "t4" "r4"; accept "t4" "r4" "task"; (demoEnv "t5", TaskEnded "task" true None)] in
  consecutiveFailures <$> demoRow probed = Some (Some 0) ∧ alertStates (demoRun probed) = [alert_fired]
  ∧ alertStates (demoRun ran) = [alert_fired; alert_recovered].
Proof. by vm_compute. Qed.

(** The re-arm decides on the rows it read before it awaited the writes of the earlier ones: a
    hold an operator sets meanwhile is cleared. *)
Theorem rearm_races_hold :
  let v := demoRun (created None None :: threeFailures) in
  let v' := exec (λ _, true) (λ _, None) (demoEnv "t4") (Enable "s" false (Some true)) v in
  (λ s, (enabled s, holdSource s)) <$> row "s" v' = Some (false, Some operator)
  ∧ (λ s, enabled s) <$>
      (s ← row "s" v; row "s" (exec (λ _, true) (λ _, None) (demoEnv "t5") (Rearm true (Some "t9"%string) s) v')) = Some true.
Proof. by vm_compute. Qed.

(** A schedule archived during its last failing run comes back enabled with the streak at the
    threshold, and fires until the next start enforces the pause. *)
Theorem unarchived_over_threshold :
  let ops := [created None None] ++ failedFire "t1" "r1" ++ failedFire "t2" "r2" ++
    [fire "t3" "r3"; (demoEnv "t3", Archive "s" None);
     (demoEnv "t3", Outcome "s" "r3" dispatch_failed why_launch_error None noDetails); (demoEnv "t4", Unarchive "s")] in
  (λ s, (enabled s, archived s, consecutiveFailures s)) <$> demoRow ops = Some (true, false, Some 3)
  ∧ (λ s, enabled s) <$> demoRow (ops ++ [(demoEnv "t5", Enforce)]) = Some false.
Proof. by vm_compute. Qed.

(** ** Witnesses *)

Lemma newService_rows : rows_ok (rows newService).
Proof. split; [apply mwf_nil|done]. Qed.

Lemma trigger_budget_witness :
  rowOk budgetOk (demoRow [created (Some (JNumber "1")) None; fire "t1" "r1"; accept "t1" "r1" "task"]).
Proof.
  apply (trigger_budget (λ _, true) (λ _, None)); [exact newService_rows|]. exact I.
Defined.

Definition oneFailure : list (env * op) := created None None :: failedFire "t1" "r1".

Lemma oneFailure_row : ∃ s, row "s" (run (λ _, true) (λ _, None) oneFailure (exec (λ _, true) (λ _, None) (demoEnv "t0") Enforce newService)) = Some s
  ∧ enabled s = true ∧ archived s = false ∧ isRecoveryCriticalSchedule s = false.
Proof. eexists. split; [by vm_compute|]. by vm_compute. Qed.

Lemma streak_fails_closed_witness : ∃ s,
  row "s" (run (λ _, true) (λ _, None) oneFailure (exec (λ _, true) (λ _, None) (demoEnv "t0") Enforce newService)) = Some s
  ∧ orElse (consecutiveFailures s) 0 < 3.
Proof.
  destruct oneFailure_row as (s & Hs & He & Ha & Hr). exists s. split; [exact Hs|].
  apply (streak_fails_closed (λ _, true) (λ _, None) 3 (demoEnv "t0") newService oneFailure "s" s); [lia|reflexivity|exact newService_rows| |exact Hs|exact He|exact Ha|exact Hr].
  intros eo Hin. unfold oneFailure, failedFire, created, fire in Hin. cbn [app] in Hin.
  repeat (apply elem_of_cons in Hin as [->|Hin]; [split; [reflexivity|cbn; lia]|]). by apply not_elem_of_nil in Hin.
Defined.

Definition heldSchedule : Schedule :=
  switched "t1" false (Some true) (newSchedule "t0" "s" (demoInput None None)).

Definition heldService : svc := {| newService with rows := putRow "t1" "s" heldSchedule newStore |}.

Lemma heldService_rows : rows_ok (rows heldService).
Proof. apply putRow_rows; [done|]. split; [apply mwf_nil|done]. Qed.


Lemma ledger_keeps_runs_witness :
  let s := newSchedule "t0" "s" (demoInput None None) in
  ledgerMoves (executionLedger s) (executionLedger (overlappedSchedule (demoEnv "t1") "u" (mkOverlap cron_trigger cron_due None None None None "busy") s)).
Proof. apply (ledger_keeps_runs (demoEnv "t1") (mkGrant 0 true)). apply ch_overlap. Defined.

Lemma launch_recorded_witness : ∃ s',
  row "s" (exec (λ _, true) (λ _, None) (demoEnv "t1") (Accept "s" "r1" "task" false (mkAccept None None false None None None)
    (Some (mkFallback cron_trigger cron_due None))) heldService) = Some s'
  ∧ (x ← latestExecution s'; lx_taskId x) = Some "task"%string
  ∧ (r ← currentExecution s'; rx_taskId r) = Some "task"%string
  ∧ ∃ y, y ∈ executionLedger s' ∧ le_taskId y = Some "task"%string ∧ isPendingLedgerEntry y = true.
Proof. apply (launch_recorded (λ _, true) (λ _, None) _ _ _ _ _ _ _ _ heldSchedule); [exact heldService_rows|reflexivity|discriminate]. Defined.


End Service.
