(* ===== verification/RelaunchArbiter.v ===== *)
(** * The relaunch arbiter

    [src/server/relaunch-arbiter.ts], the class [RelaunchArbiter]: one lease per issue, and
    a time of rest after each.  A method reads the clock once here; [live] is the probe
    [isHolderLive], always true when there is none. *)

From S2P Require Import Prelude JsMap JsString JsDate IssueClaims.

Module Arbiter.
#[local] Open Scope Z_scope.
Import Claims.

Definition DEFAULT_RELAUNCH_BACKOFF_MS : Z := 15 * 60 * 1000.

Record RelaunchLease := mkLease {
  ls_key : ClaimKey;
  ls_holderId : string;
  ls_acquiredAt : string
}.

Record HolderRecord := mkHolder {
  hr_holderId : string;
  hr_acquiredAtMs : Z
}.

(** Both maps are keyed by [claimKeyString]. *)
Record arbiter := mkArbiter {
  holders : jmap string HolderRecord;
  cooldowns : jmap string Z
}.

Definition newArbiter : arbiter := mkArbiter [] [].

Inductive denial :=
| held (lease : RelaunchLease)
| backoff (retryAfterMs : Z) (cooldownUntil : string).

Definition toLease (key : ClaimKey) (r : HolderRecord) : RelaunchLease :=
  mkLease key (hr_holderId r) (toISOString (hr_acquiredAtMs r)).

Section arbiter.
Variable backoffMs : Z.

Definition startCooldown (now : Z) (k : string) (a : arbiter) : arbiter :=
  if backoffMs <=? 0 then {| a with cooldowns := mdel k (cooldowns a) |}
  else {| a with cooldowns := mset k (now + backoffMs) (cooldowns a) |}.

(** A holder that is dead drops the lease, and the rest begins. *)
Definition reclaimIfDead (now : Z) (live : string → bool) (k : string) (a : arbiter) : arbiter :=
  match mget k (holders a) with
  | None => a
  | Some r =>
      if live (hr_holderId r) then a
      else startCooldown now k {| a with holders := mdel k (holders a) |}
  end.

(** The rest that is not over; one that is over is dropped. *)
Definition liveCooldown (now : Z) (k : string) (a : arbiter) : arbiter * option denial :=
  match mget k (cooldowns a) with
  | None => (a, None)
  | Some until =>
      if until <=? now then ({| a with cooldowns := mdel k (cooldowns a) |}, None)
      else (a, Some (backoff (until - now) (toISOString until)))
  end.

(** [None] admits. *)
Definition evaluate (now : Z) (live : string → bool) (key : ClaimKey) (a : arbiter) : arbiter * option denial :=
  let k := claimKeyString key in
  let a := reclaimIfDead now live k a in
  match mget k (holders a) with
  | Some r => (a, Some (held (toLease key r)))
  | None => liveCooldown now k a
  end.

(** The lease and whether the holder had it before, or the denial. *)
Definition tryAcquire (now : Z) (live : string → bool) (key : ClaimKey) (holderId : string) (a : arbiter) :
    arbiter * (RelaunchLease * bool + denial) :=
  let k := claimKeyString key in
  let a := reclaimIfDead now live k a in
  match mget k (holders a) with
  | Some r => (a, if String.eqb (hr_holderId r) holderId then inl (toLease key r, true) else inr (held (toLease key r)))
  | None =>
      match liveCooldown now k a with
      | (a, Some d) => (a, inr d)
      | (a, None) =>
          let r := mkHolder holderId now in
          (mkArbiter (mset k r (holders a)) (mdel k (cooldowns a)), inl (toLease key r, false))
      end
  end.

Definition release (now : Z) (key : ClaimKey) (holderId : string) (a : arbiter) : arbiter * bool :=
  let k := claimKeyString key in
  match mget k (holders a) with
  | Some r =>
      if String.eqb (hr_holderId r) holderId
      then (startCooldown now k {| a with holders := mdel k (holders a) |}, true) else (a, false)
  | None => (a, false)
  end.

Definition isHeld (now : Z) (live : string → bool) (key : ClaimKey) (a : arbiter) : arbiter * bool :=
  let k := claimKeyString key in
  let a := reclaimIfDead now live k a in (a, mhas k (holders a)).

Definition getLease (now : Z) (live : string → bool) (key : ClaimKey) (a : arbiter) :
    arbiter * option RelaunchLease :=
  let k := claimKeyString key in
  let a := reclaimIfDead now live k a in (a, toLease key <$> mget k (holders a)).

(** ** Histories *)

Inductive call :=
| Evaluate (key : ClaimKey)
| Acquire (key : ClaimKey) (holderId : string)
| Release (key : ClaimKey) (holderId : string)
| IsHeld (key : ClaimKey)
| GetLease (key : ClaimKey).

(** A call, when it is made, and who is alive then. *)
Record event := mkEvent { ev_now : Z; ev_live : string → bool; ev_call : call }.

Definition exec (a : arbiter) (e : event) : arbiter :=
  match ev_call e with
  | Evaluate key => (evaluate (ev_now e) (ev_live e) key a).1
  | Acquire key h => (tryAcquire (ev_now e) (ev_live e) key h a).1
  | Release key h => (release (ev_now e) key h a).1
  | IsHeld key => (isHeld (ev_now e) (ev_live e) key a).1
  | GetLease key => (getLease (ev_now e) (ev_live e) key a).1
  end.

Definition keyOf (c : call) : ClaimKey :=
  match c with Evaluate k | Acquire k _ | Release k _ | IsHeld k | GetLease k => k end.

Definition holderOf (k : string) (a : arbiter) : option string := hr_holderId <$> mget k (holders a).

(** The call ends the hold of [h]: it gives the lease back, or finds it dead. *)
Definition ends (k h : string) (e : event) : Prop :=
  claimKeyString (keyOf (ev_call e)) = k ∧
  (match ev_call e with Release _ h' => h' = h | _ => ev_live e h = false end).

(** The times do not go back. *)
Fixpoint ordered (t : Z) (l : list event) : Prop :=
  match l with
  | [] => True
  | e :: l => t ≤ ev_now e ∧ ordered (ev_now e) l
  end.

(** Where a hold of [h] that began before [past] stands at [t]. *)
Definition standing (k h : string) (past : list event) (t : Z) (a : arbiter) : Prop :=
  holderOf k a = Some h ∨
  ∃ e, e ∈ past ∧ ends k h e ∧
    (ev_now e + backoffMs ≤ t ∨ (mget k (holders a) = None ∧ mget k (cooldowns a) = Some (ev_now e + backoffMs))).

Lemma reclaim_spec now live k a :
  let a' := reclaimIfDead now live k a in
  (a' = a ∧ ∀ r, mget k (holders a) = Some r → live (hr_holderId r) = true) ∨
  ∃ r, mget k (holders a) = Some r ∧ live (hr_holderId r) = false ∧ mget k (holders a') = None ∧
    (backoffMs ≤ 0 ∨ mget k (cooldowns a') = Some (now + backoffMs)).
Proof.
  unfold reclaimIfDead. destruct (mget k (holders a)) as [r|] eqn:E; [|by left].
  destruct (live (hr_holderId r)) eqn:El; [left; split; [done|congruence]|right]. exists r. split_and!; [done|done|..];
    unfold startCooldown; destruct (Z.leb_spec backoffMs 0); cbn; rewrite ?mget_mdel_eq, ?mget_mset_eq; try done; [by left|by right].
Qed.

(** Calls on another key change nothing of this one. *)
Definition sameAt (k : string) (a b : arbiter) : Prop :=
  mget k (holders a) = mget k (holders b) ∧ mget k (cooldowns a) = mget k (cooldowns b).

Lemma cooldown_same now k k' a : k ≠ k' → sameAt k (startCooldown now k' {| a with holders := mdel k' (holders a) |}) a.
Proof.
  intros Hk. unfold startCooldown, sameAt. destruct (backoffMs <=? 0); cbn; rewrite ?mget_mset_ne, ?mget_mdel_ne by done; done.
Qed.

Lemma reclaim_same now live k k' a : k ≠ k' → sameAt k (reclaimIfDead now live k' a) a.
Proof.
  intros Hk. unfold reclaimIfDead. destruct (mget k' (holders a)) as [r|]; [|done]. destruct (live _); [done|by apply cooldown_same].
Qed.

Lemma live_same now k k' a : k ≠ k' → sameAt k (liveCooldown now k' a).1 a.
Proof.
  intros Hk. unfold liveCooldown, sameAt. destruct (mget k' (cooldowns a)); [|done]. destruct (_ <=? _); [|done]. cbn.
  by rewrite mget_mdel_ne.
Qed.

Lemma sameAt_trans k a b c : sameAt k a b → sameAt k b c → sameAt k a c.
Proof. unfold sameAt. intros [-> ->] [-> ->]. done. Qed.

Lemma exec_same k a e : claimKeyString (keyOf (ev_call e)) ≠ k → sameAt k (exec a e) a.
Proof.
  intros Hk. destruct e as [now live c]. unfold exec. cbn in *.
  pose proof (reclaim_same now live k (claimKeyString (keyOf c)) a ltac:(done)) as Hr.
  destruct c as [key|key h|key h|key|key]; cbn in *; unfold evaluate, tryAcquire, release, isHeld, getLease; try exact Hr.
  - destruct (mget _ (holders _)); [exact Hr|]. eapply sameAt_trans; [by apply live_same|exact Hr].
  - destruct (mget _ (holders _)); [exact Hr|]. pose proof (live_same now k (claimKeyString key) (reclaimIfDead now live (claimKeyString key) a) ltac:(done)) as Hl.
    destruct (liveCooldown _ _ _) as [a' [d|]]; cbn in *; [by eapply sameAt_trans|].
    eapply sameAt_trans; [|by eapply sameAt_trans]. unfold sameAt. cbn. by rewrite mget_mset_ne, mget_mdel_ne by done.
  - destruct (mget _ (holders a)); [|done]. destruct (String.eqb _ _); [by apply cooldown_same|done].
Qed.

Lemma standing_same k h past e t a b :
  sameAt k a b → t ≤ ev_now e → standing k h past t b → standing k h (past ++ [e]) (ev_now e) a.
Proof.
  unfold standing, holderOf. intros [-> ->] Ht [H|(e0 & Hin & He & H)]; [by left|right]. exists e0. split_and!; [set_solver|done|].
  destruct H; [left; lia|by right].
Qed.

(** One call: where the hold stands after it; and if the call gives the lease to somebody new,
    the rest is over. *)
Lemma standing_exec k h past t a e :
  t ≤ ev_now e → standing k h past t a →
  standing k h (past ++ [e]) (ev_now e) (exec a e) ∧
  (∀ key h' lease, ev_call e = Acquire key h' → claimKeyString key = k →
     (tryAcquire (ev_now e) (ev_live e) key h' a).2 = inl (lease, false) →
     ∃ e0, e0 ∈ past ++ [e] ∧ ends k h e0 ∧ ev_now e0 + backoffMs ≤ ev_now e).
Proof.
  intros Ht Hs. destruct (decide (claimKeyString (keyOf (ev_call e)) = k)) as [Hk|Hk].
  2:{ split; [eapply standing_same; [by apply exec_same|done|done]|]. intros key h' lease Hc Hk'. by rewrite Hc in Hk. }
  destruct e as [now live c]. cbn [ev_now ev_live ev_call] in *. set (e := mkEvent now live c).
  assert (Hin : e ∈ past ++ [e]) by set_solver.
  (* Where the hold stands once the dead are reclaimed. *)
  assert (Hr : (∀ h', c ≠ Release (keyOf c) h') → standing k h (past ++ [e]) now (reclaimIfDead now live k a)).
  { intros Hc. destruct (reclaim_spec now live k a) as [[-> Hl]|(r & Hh & Hd & Hn & Hcd)].
    - by apply (standing_same k h past e t a a).
    - right. destruct Hs as [Hs|(e0 & Hin0 & He0 & H)].
      + exists e. assert (hr_holderId r = h) by (unfold holderOf in Hs; rewrite Hh in Hs; cbn in Hs; congruence). subst h.
        split_and!; [done| |]. { split; [done|]. cbn. destruct c; try done. by destruct (Hc holderId). }
        cbn. destruct Hcd; [left; lia|right; done].
      + exists e0. split_and!; [set_solver|done|]. destruct H as [H|[H1 H2]]; [left; lia|congruence]. }
  (* The rest, and whether it is over. *)
  assert (Hl : ∀ b, standing k h (past ++ [e]) now b → mget k (holders b) = None →
    standing k h (past ++ [e]) now (liveCooldown now k b).1 ∧
    ((liveCooldown now k b).2 = None → ∃ e0, e0 ∈ past ++ [e] ∧ ends k h e0 ∧ ev_now e0 + backoffMs ≤ now)).
  { intros b [Hb|(e0 & Hin0 & He0 & H)] Hn; [unfold holderOf in Hb; by rewrite Hn in Hb|].
    unfold liveCooldown. destruct H as [H|[_ H]].
    - split; [right; exists e0; split_and!; [done|done|by left]|intros _; by exists e0].
    - rewrite H. destruct (Z.leb_spec (ev_now e0 + backoffMs) now); cbn.
      + split; [right; exists e0; split_and!; [done|done|by left]|intros _; by exists e0].
      + split; [|done]. right. exists e0. split_and!; [done|done|by right]. }
  destruct c as [key|key h'|key h'|key|key]; cbn [keyOf] in *.
  - split; [|done]. change (exec a e) with (evaluate now live key a).1. unfold evaluate. rewrite Hk. destruct (mget k (holders _)) eqn:E; [by apply Hr|]. by apply Hl; [apply Hr|].
  - specialize (Hr ltac:(done)). change (exec a e) with (tryAcquire now live key h' a).1. unfold tryAcquire. rewrite Hk. destruct (mget k (holders _)) as [r|] eqn:E.
    { split; [done|]. intros key' h2 lease [= <- <-] _ Ha. rewrite Hk, E in Ha. cbn in Ha. by destruct (String.eqb _ _). }
    destruct (Hl _ Hr E) as [H1 H2]. destruct (liveCooldown now k _) as [b [d|]] eqn:El; cbn in *.
    { split; [done|]. intros key' h2 lease [= <- <-] _ Ha. by rewrite Hk, E, El in Ha. }
    destruct (H2 eq_refl) as (e0 & Hi0 & He0 & H). split; [right; exists e0; split_and!; [done|done|by left]|].
    intros. by exists e0.
  - split; [|done]. change (exec a e) with (release now key h' a).1. unfold release. rewrite Hk. destruct (mget k (holders a)) as [r|] eqn:E.
    2:{ by apply (standing_same k h past e t a a). }
    destruct (String.eqb_spec (hr_holderId r) h') as [Eh|_]; [|by apply (standing_same k h past e t a a)]. cbn.
    destruct Hs as [Hs|(e0 & Hi0 & He0 & H)].
    + right. exists e. assert (h' = h) by (unfold holderOf in Hs; rewrite E in Hs; cbn in Hs; congruence). subst h'.
      split_and!; [done|done|]. cbn. unfold startCooldown. destruct (Z.leb_spec backoffMs 0); [left; lia|right]. cbn.
      by rewrite mget_mdel_eq, mget_mset_eq.
    + right. exists e0. split_and!; [set_solver|done|]. destruct H as [H|[H _]]; [left; lia|congruence].
  - split; [|done]. change (exec a e) with (isHeld now live key a).1. unfold isHeld. rewrite Hk. by apply Hr.
  - split; [|done]. change (exec a e) with (getLease now live key a).1. unfold getLease. rewrite Hk. by apply Hr.
Qed.

(** C26: a relaunch rests between two holders: if somebody holds the lease of an issue, and after
    any history of calls another attempt is granted a new lease of it, then in between the first
    holder gave the lease back or was found dead, and the backoff has passed since; on a clock that
    does not run backwards. *)
Theorem relaunch_spaced a h l t0 t live key h' lease :
  holderOf (claimKeyString key) a = Some h → ordered t0 (l ++ [mkEvent t live (Acquire key h')]) →
  (tryAcquire t live key h' (foldl exec a l)).2 = inl (lease, false) →
  ∃ e, e ∈ l ++ [mkEvent t live (Acquire key h')] ∧ ends (claimKeyString key) h e ∧ ev_now e + backoffMs ≤ t.
Proof.
  intros Hh. set (k := claimKeyString key).
  assert (H : ∀ past t0 a, standing k h past t0 a → ordered t0 (l ++ [mkEvent t live (Acquire key h')]) →
    (tryAcquire t live key h' (foldl exec a l)).2 = inl (lease, false) →
    ∃ e, e ∈ past ++ l ++ [mkEvent t live (Acquire key h')] ∧ ends k h e ∧ ev_now e + backoffMs ≤ t).
  { clear Hh a t0. induction l as [|e l IH]; intros past t0 a Hs Ho Ha; cbn in Ho.
    - destruct (standing_exec k h past t0 a (mkEvent t live (Acquire key h'))) as [_ H]; [apply Ho|done|].
      by apply (H key h' lease).
    - destruct Ho as [Ht Ho]. destruct (standing_exec k h past t0 a e Ht Hs) as [H1 _].
      destruct (IH _ _ _ H1 Ho Ha) as (e0 & Hin & H). exists e0. split; [|done]. by rewrite <- app_assoc in Hin. }
  intros Ho Ha. apply (H [] t0 a); [by left|done|done].
Qed.
End arbiter.

Lemma relaunch_spaced_witness :
  let key := mkKey "schedule:s" 0 in
  let a := (tryAcquire 1000 0 (λ _, true) key "t1" newArbiter).1 in
  let l := [mkEvent 10 (λ _, false) (Evaluate key)] in
  ∃ e, e ∈ l ++ [mkEvent 1010 (λ _, true) (Acquire key "t2")] ∧ ends (claimKeyString key) "t1" e ∧ ev_now e + 1000 ≤ 1010.
Proof.
  intros key a l. apply (relaunch_spaced 1000 a "t1" l 0 1010 (λ _, true) key "t2" (mkLease key "t2" "1970-01-01T00:00:01.010Z"));
    vm_compute; repeat split; discriminate.
Defined.
End Arbiter.
