(* ===== verification/AgentSelection.v ===== *)
(** * Which agent runs, and whether anything may run on its own

    [src/shared/contracts/agent-types.ts]: the agent types, what each accepts as effort and
    model, the rotation, and the substitute of an agent that cannot be launched.
    [src/core/automation-kill-switch.ts]: SAFE MODE and the pause of a project. *)

From S2P Require Import Prelude JsMap JsString JsRegExp JsJson TaskTypes TaskStore.

Module Agents.
#[local] Open Scope string_scope.
Import Store.

Definition AGENT_TYPES : list string := ["claude-code"; "codex-cli"; "grok-build"; "hermes-fleet"].

Definition memb (x : string) (l : list string) : bool := existsb (String.eqb x) l.

Definition isAgentType (v : string) : bool := memb v AGENT_TYPES.

Definition ROUND_ROBIN_AGENT_TYPE : string := "round-robin".

Definition AGENT_SELECTIONS : list string := AGENT_TYPES ++ [ROUND_ROBIN_AGENT_TYPE].

(** An entry of the picker. *)
Record AvailableAgentType := mkAvailable { av_type : string; av_label : string }.

Definition AVAILABLE_AGENT_TYPES : list AvailableAgentType :=
  [mkAvailable "claude-code" "Claude Code"; mkAvailable "codex-cli" "Codex CLI";
   mkAvailable "grok-build" "Grok Build"].

Definition isIdentityOnlyAgentType (type : string) : bool :=
  negb (existsb (λ e, String.eqb (av_type e) type) AVAILABLE_AGENT_TYPES).

Definition AGENT_SELECTION_HINTS : jmap string string :=
  [("claude-code", "Anthropic Claude; native Kookr hooks and the bundled toolkit plugin");
   ("codex-cli", "OpenAI Codex (Kookr's Claude-compatible fork)");
   ("grok-build", "xAI Grok, using the signed-in subscription session");
   ("hermes-fleet", "Hermes fleet (DeepSeek via bash harness); ledger/verdict interop identity, not a launchable agent");
   ("round-robin", "Spreads launches across whatever runtimes are available")].

Definition agentSelectionHint (value : option string) : option string :=
  v ← value;
  if String.eqb v ROUND_ROBIN_AGENT_TYPE then mget ROUND_ROBIN_AGENT_TYPE AGENT_SELECTION_HINTS
  else if isAgentType v then mget v AGENT_SELECTION_HINTS else None.

(** ** Effort and model *)

Definition CLAUDE_CODE_EFFORT_LEVELS : list string := ["low"; "medium"; "high"; "xhigh"; "max"].
Definition CODEX_CLI_EFFORT_LEVELS : list string :=
  ["none"; "minimal"; "low"; "medium"; "high"; "xhigh"; "max"; "ultra"].
Definition CODEX_GPT_6_ASTRA_EFFORT_LEVELS : list string := ["low"; "medium"; "high"; "xhigh"; "max"; "ultra"].
Definition GROK_BUILD_EFFORT_LEVELS : list string := [].
Definition HERMES_FLEET_EFFORT_LEVELS : list string := [].

(** [None]: [assertNeverAgentType] throws. *)
Definition effortLevelsForAgent (agent : string) (model : option string) : option (list string) :=
  if String.eqb agent "claude-code" then Some CLAUDE_CODE_EFFORT_LEVELS
  else if String.eqb agent "codex-cli" then
    Some (if bool_decide (model = Some "gpt-6-astra") then CODEX_GPT_6_ASTRA_EFFORT_LEVELS
          else CODEX_CLI_EFFORT_LEVELS)
  else if String.eqb agent "grok-build" then Some GROK_BUILD_EFFORT_LEVELS
  else if String.eqb agent "hermes-fleet" then Some HERMES_FLEET_EFFORT_LEVELS
  else None.

Definition isValidEffortForAgent (agent effort : string) (model : option string) : option bool :=
  memb effort <$> effortLevelsForAgent agent model.

Definition CLAUDE_CODE_MODEL_IDS : list string :=
  ["claude-opus-5"; "claude-fable-5"; "claude-opus-4-8"; "claude-opus-4-7"; "claude-opus-4-6";
   "claude-sonnet-5"; "claude-sonnet-4-6"; "claude-haiku-4-5"].
Definition CODEX_CLI_MODEL_IDS : list string := ["gpt-6-astra"].
Definition GROK_BUILD_MODEL_IDS : list string := [].
Definition HERMES_FLEET_MODEL_IDS : list string := [].

Definition modelsForAgent (agent : string) : option (list string) :=
  if String.eqb agent "claude-code" then Some CLAUDE_CODE_MODEL_IDS
  else if String.eqb agent "codex-cli" then Some CODEX_CLI_MODEL_IDS
  else if String.eqb agent "grok-build" then Some GROK_BUILD_MODEL_IDS
  else if String.eqb agent "hermes-fleet" then Some HERMES_FLEET_MODEL_IDS
  else None.

Definition isValidModelForAgent (agent model : string) : option bool :=
  if String.eqb model "" then Some false
  else
    allowed ← modelsForAgent agent;
    Some (if memb model allowed then true
          else if negb (String.eqb agent "claude-code") then false
          else existsb (λ i, startsWith (i +:+ "-") model) allowed).

Definition ALL_MODEL_IDS : list string :=
  CLAUDE_CODE_MODEL_IDS ++ CODEX_CLI_MODEL_IDS ++ GROK_BUILD_MODEL_IDS ++ HERMES_FLEET_MODEL_IDS.

Definition isKnownModelId (model : string) : bool :=
  if String.eqb model "" then false
  else if memb model ALL_MODEL_IDS then true
  else existsb (λ i, startsWith (i +:+ "-") model) CLAUDE_CODE_MODEL_IDS.

Definition normalizeAgentType (value : option string) : string :=
  match value with
  | None => DEFAULT_AGENT_TYPE
  | Some v =>
      if memb v ["claude"; "claude-code"] then "claude-code"
      else if memb v ["codex"; "codex-cli"] then "codex-cli"
      else if memb v ["grok"; "grok-build"] then "grok-build"
      else if memb v ["hermes"; "hermes-fleet"] then "hermes-fleet"
      else DEFAULT_AGENT_TYPE
  end.

Definition normalizeAgentSelection (value : option string) : string :=
  if bool_decide (value = Some ROUND_ROBIN_AGENT_TYPE) then ROUND_ROBIN_AGENT_TYPE
  else normalizeAgentType value.

(** ** Rotation and substitution *)

(** The canonical order, restricted to what is available. *)
Definition rotation (available : list string) : list string :=
  List.filter (λ t, memb t available) (map av_type AVAILABLE_AGENT_TYPES).

(** The healthy ones, if there are any. *)
Definition effectiveOf (rotation_ deprioritized : list string) : list string :=
  match deprioritized with
  | [] => rotation_
  | _ =>
      match List.filter (λ t, negb (memb t deprioritized)) rotation_ with
      | [] => rotation_
      | healthy => healthy
      end
  end.

Definition resolveRoundRobinAgent (cursor : Z) (available deprioritized : list string) : string :=
  match rotation available with
  | [] => DEFAULT_AGENT_TYPE
  | r =>
      let effective := effectiveOf r deprioritized in
      let safeCursor := (if 0 <=? cursor then cursor else 0)%Z in
      orElse (effective !! Z.to_nat (safeCursor mod Z.of_nat (length effective))) DEFAULT_AGENT_TYPE
  end.

Inductive PinnedAgentResolution :=
| available (agentType : string)
| substituted (agentType from : string)
| unavailable (from : string).

Record AgentFallbackPolicy := mkPolicy {
  disallow : option (list string);
  allowlist : option (list string)
}.

(** A list that is there and not empty. *)
Definition given (l : option (list string)) : option (list string) :=
  match l with Some [] => None | _ => l end.

Definition filterFallbackCandidates (candidates : list string) (policy : option AgentFallbackPolicy) : list string :=
  let out :=
    match given (p ← policy; disallow p) with
    | Some l => List.filter (λ t, negb (memb t l)) candidates
    | None => candidates
    end in
  match given (p ← policy; allowlist p) with
  | Some l => List.filter (λ t, memb t l) out
  | None => out
  end.

Definition excludeBlacklistedAgents (agents blacklisted : list string) : list string :=
  match blacklisted with
  | [] => agents
  | _ => List.filter (λ t, negb (memb t blacklisted)) agents
  end.

Definition advertisedAgentTypes (registered blacklisted : list string) : list AvailableAgentType :=
  let allowed := excludeBlacklistedAgents registered blacklisted in
  List.filter (λ e, memb (av_type e) allowed) AVAILABLE_AGENT_TYPES.

(** [src/adapters/grok-auth-availability.ts]. *)
Definition filterLaunchableAgentTypes (registered : list string) (grokAuthUsable : option bool) : list string :=
  if bool_decide (grokAuthUsable = Some false)
  then List.filter (λ t, negb (String.eqb t "grok-build")) registered else registered.

Definition resolvePinnedAgentFallback (pinned : string) (available_ deprioritized : list string)
    (policy : option AgentFallbackPolicy) : PinnedAgentResolution :=
  match rotation available_ with
  | [] => unavailable pinned
  | registered =>
      let effective := effectiveOf registered deprioritized in
      if memb pinned effective then available pinned
      else
        match filterFallbackCandidates effective policy with
        | [] => unavailable pinned
        | substitute :: _ => substituted substitute pinned
        end
  end.

Definition ROUND_ROBIN_OPTION : AvailableAgentType := mkAvailable ROUND_ROBIN_AGENT_TYPE "Round robin".

Definition buildAgentSelectionOptions (l : list AvailableAgentType) : list AvailableAgentType :=
  let base := match l with [] => AVAILABLE_AGENT_TYPES | _ => l end in
  if (2 <=? length base)%nat then base ++ [ROUND_ROBIN_OPTION] else base.

Definition previewRoundRobinNextLabel (options : list AvailableAgentType) (cursor : option Z)
    (advertisedNext : option string) (grokAuthUsable : option bool) : option string :=
  let concrete := List.filter (λ t, negb (String.eqb t ROUND_ROBIN_AGENT_TYPE) && isAgentType t) (map av_type options) in
  let rotation_ := filterLaunchableAgentTypes concrete grokAuthUsable in
  match rotation_ with
  | [] => None
  | _ =>
      let next :=
        match truthyStr advertisedNext with
        | Some a => if memb a rotation_ then a else resolveRoundRobinAgent (orElse cursor 0%Z) rotation_ []
        | None => resolveRoundRobinAgent (orElse cursor 0%Z) rotation_ []
        end in
      av_label <$> List.find (λ o, String.eqb (av_type o) next) options
  end.

(** ** What they promise *)

Lemma memb_spec x l : memb x l = true ↔ x ∈ l.
Proof.
  unfold memb. rewrite existsb_exists. split.
  - intros (y & Hy & ->%String.eqb_eq). by apply list_elem_of_In.
  - intros H. exists x. split; [by apply list_elem_of_In|apply String.eqb_refl].
Qed.

(** An agent that can be launched: it has an adapter, and the machine has it. *)
Definition launchable (available_ : list string) (t : string) : Prop :=
  isIdentityOnlyAgentType t = false ∧ t ∈ available_.

Lemma elem_of_rotation t l : t ∈ rotation l ↔ launchable l t.
Proof.
  unfold rotation, launchable, isIdentityOnlyAgentType. rewrite list_elem_of_In, filter_In, <- list_elem_of_In, memb_spec.
  rewrite negb_false_iff, existsb_exists. split; intros [H1 H2]; (split; [|done]).
  - apply list_elem_of_fmap in H1 as (e & -> & He). exists e. split; [by apply list_elem_of_In|apply String.eqb_refl].
  - destruct H1 as (e & He & <-%String.eqb_eq). apply list_elem_of_fmap. exists e. by rewrite list_elem_of_In.
Qed.

(** An agent to prefer: launchable, and healthy if any launchable one is. *)
Definition preferred (available_ deprioritized : list string) (t : string) : Prop :=
  launchable available_ t ∧
  (t ∉ deprioritized ∨ ∀ u, launchable available_ u → u ∈ deprioritized).

Lemma elem_of_effective t l d : t ∈ effectiveOf (rotation l) d ↔ preferred l d t.
Proof.
  unfold preferred. destruct d as [|x d]; [cbn [effectiveOf]; rewrite elem_of_rotation; split; [intros H; split; [done|left; apply not_elem_of_nil]|by intros [? _]]|]. cbn [effectiveOf].
  set (p := λ u, negb (memb u (x :: d))).
  assert (Hp : ∀ u, u ∈ List.filter p (rotation l) ↔ launchable l u ∧ u ∉ x :: d).
  { intros u. rewrite list_elem_of_In, filter_In, <- list_elem_of_In, elem_of_rotation. subst p. cbn beta.
    rewrite negb_true_iff, <- not_true_iff_false, memb_spec. done. }
  destruct (List.filter p (rotation l)) as [|h hs] eqn:E.
  - rewrite elem_of_rotation. split; [|by intros [? _]]. intros H. split; [done|right]. intros u Hu.
    destruct (decide (u ∈ x :: d)) as [|Hn]; [done|]. assert (u ∈ @nil string) as []%not_elem_of_nil. by apply Hp.
  - rewrite Hp. split; [intros [H1 H2]; split; [done|by left]|]. intros [H1 [H2|H2]]; [done|].
    assert (Hh : h ∈ h :: hs) by left. apply Hp in Hh as [Hh Hn]. by destruct Hn; apply H2.
Qed.

(** What the policy of the operator lets a substitute be. *)
Definition allowedBy (policy : option AgentFallbackPolicy) (t : string) : Prop :=
  (∀ l, given (p ← policy; disallow p) = Some l → t ∉ l) ∧
  (∀ l, given (p ← policy; allowlist p) = Some l → t ∈ l).

Lemma elem_of_filter_bool (p : string → bool) t l : t ∈ List.filter p l ↔ t ∈ l ∧ p t = true.
Proof. by rewrite list_elem_of_In, filter_In, <- list_elem_of_In. Qed.

Lemma elem_of_candidates t l policy : t ∈ filterFallbackCandidates l policy ↔ t ∈ l ∧ allowedBy policy t.
Proof.
  unfold filterFallbackCandidates, allowedBy.
  destruct (given (p ← policy; disallow p)) as [d|], (given (p ← policy; allowlist p)) as [a|];
    rewrite ?elem_of_filter_bool, ?negb_true_iff, <- ?not_true_iff_false, ?memb_spec; naive_solver.
Qed.

(** C27: the agent of a pinned launch: the pin is kept exactly when it is preferred; otherwise the
    fire runs on an agent that is preferred and that the policy allows, and it is refused only when
    there is none. *)
Theorem fallback_exact pinned l d policy :
  match resolvePinnedAgentFallback pinned l d policy with
  | available a => a = pinned ∧ preferred l d a
  | substituted a from => from = pinned ∧ ¬ preferred l d pinned ∧ preferred l d a ∧ allowedBy policy a
  | unavailable from => from = pinned ∧ ¬ preferred l d pinned ∧ ∀ t, preferred l d t → ¬ allowedBy policy t
  end.
Proof.
  unfold resolvePinnedAgentFallback.
  assert (Hnone : rotation l = [] → ∀ t, ¬ preferred l d t).
  { intros E t [Ht _]. apply elem_of_rotation in Ht. rewrite E in Ht. by apply not_elem_of_nil in Ht. }
  destruct (rotation l) as [|r rs] eqn:Er; [split_and!; [done|by apply Hnone|by intros t ?%Hnone]|].
  pose proof (λ t, elem_of_effective t l d) as He. rewrite Er in He.
  destruct (memb pinned _) eqn:Em; [split; [done|]; apply He; by apply memb_spec|].
  apply not_true_iff_false in Em. rewrite memb_spec, He in Em.
  pose proof (λ t, elem_of_candidates t (effectiveOf (r :: rs) d) policy) as Hc.
  destruct (filterFallbackCandidates _ _) as [|s ss].
  - split_and!; [done|done|]. intros t Ht Ha. assert (t ∈ @nil string) as []%not_elem_of_nil. apply Hc. by rewrite He.
  - split_and!; [done|done|..]; (assert (Hs : s ∈ s :: ss) by left); apply Hc in Hs as [Hs Ha]; [by apply He|done].
Qed.

Lemma effective_nonempty r rs d : (0 < length (effectiveOf (r :: rs) d))%nat.
Proof. unfold effectiveOf. repeat case_match; cbn; try lia; by simplify_eq/=. Qed.

(** The rotation takes turns: from any place on, within as many launches as there are preferred
    agents, each of them is chosen. *)
Theorem rotation_fair c l d t :
  (0 <= c)%Z → preferred l d t →
  ∃ k : nat, (k < length (effectiveOf (rotation l) d))%nat ∧ resolveRoundRobinAgent (c + Z.of_nat k) l d = t.
Proof.
  intros Hc Ht. pose proof Ht as Ht'. apply elem_of_effective in Ht. unfold resolveRoundRobinAgent.
  destruct (rotation l) as [|r rs] eqn:Er.
  { destruct Ht' as [Hl _]. apply elem_of_rotation in Hl. rewrite Er in Hl. by apply not_elem_of_nil in Hl. }
  pose proof (effective_nonempty r rs d) as Hn. set (eff := effectiveOf (r :: rs) d) in *. set (n := Z.of_nat (length eff)).
  apply list_elem_of_lookup in Ht as [i Hi]. pose proof (lookup_lt_Some _ _ _ Hi) as Hlt.
  exists (Z.to_nat ((Z.of_nat i - c) mod n)). assert (Hm : (0 <= (Z.of_nat i - c) mod n < n)%Z) by (apply Z.mod_pos_bound; lia).
  split; [lia|]. rewrite Z2Nat.id by lia. assert (H0 : (0 <=? c + (Z.of_nat i - c) mod n)%Z = true) by (apply Z.leb_le; lia). rewrite H0.
  rewrite Zplus_mod_idemp_r. replace (c + (Z.of_nat i - c))%Z with (Z.of_nat i) by lia.
  rewrite Z.mod_small by lia. by rewrite Nat2Z.id, Hi.
Qed.

Lemma rotation_fair_witness :
  ∃ k : nat, (k < 3)%nat ∧ resolveRoundRobinAgent (5 + Z.of_nat k) AGENT_TYPES [] = "codex-cli".
Proof.
  apply (rotation_fair 5 AGENT_TYPES [] "codex-cli"); [lia|].
  split; [split; [reflexivity|set_solver]|left; set_solver].
Defined.
End Agents.

Module KillSwitch.
#[local] Open Scope string_scope.

Definition isAutonomousLaunchSource (s : option TaskLaunchSource) : bool :=
  match s with
  | Some (src_schedule | src_idle_refinery | src_post_recovery | src_resource_watchdog) => true
  | _ => false
  end.

(** The part of a path after the last slash, of either kind. *)
Definition lastSegment (l : str) : str :=
  orElse (last (splitOn "/"%char (map (λ c, if bool_decide (c = backslash) then "/"%char else c) l))) [].

Definition playbookFileBasename (playbookPath : option string) : string :=
  unchars (lastSegment (map lowerChar (chars (orElse playbookPath "")))).

Definition isSafeModeExemptSchedule (playbookPath : option string) : bool :=
  String.eqb (playbookFileBasename playbookPath) "cross-repo-orchestrator.md".

Definition resolveScheduleAutomationProjectId (playbookPath : option string) (cwdProjectId : string) : string :=
  if String.eqb (playbookFileBasename playbookPath) "kb-scout-reflection.md"
  then "github.com/jeanibarz/kb-scout-evol" else cwdProjectId.

Inductive AutonomousActuationDecision := allow | safe_mode | project_paused | not_autonomous.

Definition mayAutonomousActuate (source : option TaskLaunchSource) (projectId : option string)
    (globalEnabled : bool) (paused : list string) (safeModeExempt operatorInitiated : bool) :
    AutonomousActuationDecision :=
  if negb (isAutonomousLaunchSource source) then not_autonomous
  else if operatorInitiated then allow
  else if negb globalEnabled && negb safeModeExempt then safe_mode
  else match truthyStr projectId with
       | Some p => if Agents.memb p paused then project_paused else allow
       | None => allow
       end.

Record SafeModeStatus := mkSafeMode {
  sm_engaged : bool;
  sm_since : option string;
  sm_loadError : option string
}.

Definition resolveSafeModeStatus (automationKillSwitch : bool) (safeModeSince loadError : option string) :
    SafeModeStatus :=
  let loadError := truthyStr (trim <$> loadError) in
  if isSome loadError || automationKillSwitch then mkSafeMode true (truthyStr safeModeSince) loadError
  else mkSafeMode false None None.

(** A detail cut to one line. *)
Definition shortDetail (s : string) : string :=
  if (120 <? String.length s)%nat then sliceTo 117 s +:+ "..." else s.

Definition formatSafeModeDigestLine (s : SafeModeStatus) : option string :=
  if negb (sm_engaged s) then None
  else
    let base := match truthyStr (sm_since s) with Some t => "SAFE MODE since " +:+ t | None => "SAFE MODE" end in
    Some match truthyStr (sm_loadError s) with
         | None => base
         | Some e => base +:+ " (settings load error: " +:+ shortDetail e +:+ ")"
         end.

(** The two fields of the settings: the switch, and since when. *)
Abbreviation kill := (bool * option string)%type.

Definition applyKillSwitchTransition (prev next : kill) (nowIso : string) : kill :=
  if negb next.1 then (false, None)
  else
    (true, Some (match (if prev.1 then truthyStr prev.2 else None) with
                 | Some t => t
                 | None => orElse next.2 nowIso
                 end)).

(** The two fields of a project: the switch, which is absent or set, and since when. *)
Abbreviation pause := (option bool * option string)%type.

Definition applyProjectAutomationTransition (prev next : pause) (nowIso : string) : pause :=
  let wasPaused := bool_decide (prev.1 = Some false) in
  if negb (bool_decide (next.1 = Some false)) then (next.1, None)
  else
    (next.1, Some (match (if wasPaused then truthyStr prev.2 else None) with
                   | Some t => t
                   | None => orElse next.2 nowIso
                   end)).

Definition formatProjectAutomationDigestLine (paused : list string) (loadWarning : option string) : option string :=
  match paused, truthyStr loadWarning with
  | [], None => None
  | _, _ =>
      let pausedPart := match paused with [] => None | _ => Some ("project automation paused: " +:+ joinWith ", " paused) end in
      match truthyStr loadWarning with
      | None => pausedPart
      | Some w =>
          Some (match pausedPart with
                | None => "project-config load warning: " +:+ shortDetail w
                | Some p => p +:+ " (project-config load warning: " +:+ shortDetail w +:+ ")"
                end)
      end
  end.

(** Nothing runs on its own against a halt: a source that acts without a human is let through
    SAFE MODE only on an operator's word or under the exemption, and through the pause of its
    project only on an operator's word; what is not of its own making is never halted. *)
Theorem actuation_halts source projectId on paused exempt byOperator :
  let d := mayAutonomousActuate source projectId on paused exempt byOperator in
  (d = not_autonomous ↔ isAutonomousLaunchSource source = false) ∧
  (d = allow → byOperator = true ∨ ((on = true ∨ exempt = true) ∧ ∀ p, truthyStr projectId = Some p → p ∉ paused)) ∧
  (byOperator = true → d ≠ safe_mode ∧ d ≠ project_paused).
Proof.
  unfold mayAutonomousActuate. destruct (isAutonomousLaunchSource source), byOperator, on, exempt; cbn; split_and!; try done; try tauto;
    destruct (truthyStr projectId) as [p|]; try destruct (Agents.memb p paused) eqn:E; try done; intros _; right;
    (split; [tauto|]); intros q Hq; simplify_eq; by rewrite <- Agents.memb_spec, E.
Qed.

(** Saves of the settings, each at its time. *)
Definition saves (l : list (kill * string)) (k : kill) : kill :=
  foldl (λ k s, applyKillSwitchTransition k s.1 s.2) k l.

(** A period of SAFE MODE keeps the time it began: while every save leaves the switch engaged, the
    time is the one of the first. *)
Theorem since_kept since l :
  since ≠ "" → (∀ s, s ∈ l → s.1.1 = true) → saves l (true, Some since) = (true, Some since).
Proof.
  intros Hs. induction l as [|[[b x] t] l IH]; intros Hl; [done|]. cbn.
  assert (b = true) as -> by exact (Hl (b, x, t) ltac:(left)).
  assert (applyKillSwitchTransition (true, Some since) (true, x) t = (true, Some since)) as -> by by destruct since.
  apply IH. set_solver.
Qed.
End KillSwitch.
