(* ===== verification/ScheduleProbe.v ===== *)
(** * Cheap probes of a schedule

    [src/core/schedule-probe.ts]: the command that is run before an agent is, and what its exit
    means.  A lookup [obj[name]] is of a name that no object has by itself. *)

From S2P Require Import Prelude JsMap JsString JsRegExp JsJson.

Module Probe.
#[local] Open Scope string_scope.

Definition DEFAULT_PROBE_ESCALATE_ON_EXIT : list Z := [2%Z].
Definition DEFAULT_PROBE_TIMEOUT_MS : Z := 20000.

Record ResolvedScheduleProbe := mkProbe {
  argv : list string;
  escalateOnExit : list Z;
  timeoutMs : Z
}.

Record ProbeExecResult := mkResult {
  exitCode : Z;
  stdout : string;
  stderr : string
}.

(** [PlaybookProbe], whose codes the parser of the front matter keeps integral. *)
Record PlaybookProbe := mkDeclared {
  command : string;
  declaredCodes : option (list Z)
}.

Definition kookrCommand : string :=
  "pnpm deploy:convergence -- --branch {{branch}} --grace-minutes {{graceMinutes}}".
Definition lucyCommand : string :=
  "node scripts/deploy-convergence-check.mjs --base {{healthBase}} --branch {{branch}} --grace-minutes {{graceMinutes}} --signal-file {{signalFile}}".

Definition FALLBACK_PROBE_COMMANDS : jmap string string :=
  [("kookr-deploy-convergence.md", kookrCommand); ("kookr-deploy-convergence", kookrCommand);
   ("lucy-deploy-convergence.md", lucyCommand); ("lucy-deploy-convergence", lucyCommand)].

Definition BUILTIN_PARAM_DEFAULTS : jmap string string :=
  [("branch", "main"); ("graceMinutes", "15"); ("healthBase", "http://127.0.0.1:4877"); ("signalFile", "")].

Definition playbookBasename (playbookPath : string) : string :=
  unchars (orElse (last (splitOn "/"%char
    (map (λ c, if bool_decide (c = backslash) then "/"%char else c) (trimChars (chars playbookPath))))) []).

Definition fallbackProbeCommand (playbookPath : string) : option string :=
  mget (playbookBasename playbookPath) FALLBACK_PROBE_COMMANDS.

Definition isTruthyScheduleParam (value : option string) : bool :=
  match value with
  | None => false
  | Some v =>
      let normalized := unchars (map lowerChar (trimChars (chars v))) in
      String.eqb normalized "true" || String.eqb normalized "1" || String.eqb normalized "yes"
  end.

(** [current], when there is something in it, before the rest. *)
Definition flush (current : str) (out : list str) : list str :=
  match current with [] => out | _ => current :: out end.

Fixpoint tokenizeFrom (inQuotes : bool) (current : str) (l : str) : list str :=
  match l with
  | [] => flush current []
  | c :: l =>
      if bool_decide (c = quoteChar) then tokenizeFrom (negb inQuotes) current l
      else if negb inQuotes && isWs c then flush current (tokenizeFrom inQuotes [] l)
      else tokenizeFrom inQuotes (current ++ [c]) l
  end.

Definition tokenizeProbeCommand (command : string) : list string :=
  unchars <$> tokenizeFrom false [] (chars command).

(** [/\{\{(\w+)\}\}/]; the name is what the braces hold. *)
Definition placeholder : regexp := seqOf [lit "{{"; RPlus (RClass isWord); lit "}}"].
Definition placeholderName (m : str) : string := unchars (drop 2 (take (length m - 2) m)).

Definition interpolateProbeTemplate (template : string) (parameters : jmap string string) : string :=
  unchars (replaceAll placeholder (λ m, chars (orElse (mget (placeholderName m) parameters) "")) (chars template)).

Definition VALUE_TAKING_FLAGS (t : string) : bool :=
  bool_decide (t ∈ ["--base"; "--branch"; "--grace-minutes"; "--repo-dir"; "--signal-file"; "--state-dir"; "--state-file"]).

Definition isFlag (t : string) : bool := startsWith "--" t && negb (String.eqb t "--").

Definition isValue (t : string) : bool := negb (String.eqb t "") && negb (isFlag t).

Fixpoint dropEmptyFlagValues (l : list string) : list string :=
  match l with
  | [] => []
  | token :: l' =>
      match l' with
      | [] => if VALUE_TAKING_FLAGS token then [] else [token]
      | next :: l'' =>
          if VALUE_TAKING_FLAGS token && negb (isValue next)
          then if String.eqb next "" then dropEmptyFlagValues l'' else dropEmptyFlagValues l'
          else if isFlag token && String.eqb next "" then dropEmptyFlagValues l''
          else token :: dropEmptyFlagValues l'
      end
  end.

Definition normalizeEscalateOnExit (raw : option (list Z)) : list Z :=
  match raw with None | Some [] => DEFAULT_PROBE_ESCALATE_ON_EXIT | Some l => l end.

(** [{ ...a, ...b }]. *)
Definition spread (a b : jmap string string) : jmap string string := foldl (λ m '(k, v), mset k v m) a b.

Definition resolveScheduleProbe (playbookPath : string) (probe : option PlaybookProbe)
    (given : jmap string string) : option ResolvedScheduleProbe :=
  let parameters := spread BUILTIN_PARAM_DEFAULTS given in
  rawCommand ← match truthyStr ((λ p, trim (command p)) <$> probe) with
               | Some c => Some c
               | None => truthyStr (fallbackProbeCommand playbookPath)
               end;
  match dropEmptyFlagValues (tokenizeProbeCommand (interpolateProbeTemplate rawCommand parameters)) with
  | [] => None
  | l =>
      let dryRun := isTruthyScheduleParam (mget "dryRun" parameters) in
      let act := isTruthyScheduleParam (mget "act" parameters) in
      Some {| argv := if act && negb dryRun && negb (bool_decide ("--act" ∈ l)) then (l ++ ["--act"])%list else l;
              escalateOnExit := if dryRun then [] else normalizeEscalateOnExit (p ← probe; declaredCodes p);
              timeoutMs := DEFAULT_PROBE_TIMEOUT_MS |}
  end.

Definition shouldEscalateProbe (spec : ResolvedScheduleProbe) (code : Z) : bool :=
  bool_decide (code ∈ escalateOnExit spec).

Section receipt.
(** [JSON.parse]; [None] when it throws. *)
Variable parse : string → option jvalue.

Definition lastLine (trimmed : string) : string :=
  orElse (last (List.filter (λ l, negb (String.eqb l "")) (trim ∘ unchars <$> splitOn (ascii_of_N 10) (chars trimmed)))) "".

Definition probeReceiptLine (stdout_ : string) : string :=
  let trimmed := trim stdout_ in
  if String.eqb trimmed "" then ""
  else
    match truthyStr (trim <$> (v ← parse trimmed; asString (field "receipt" v))) with
    | Some receipt => receipt
    | None => lastLine trimmed
    end.
End receipt.

(** ** What they promise *)

Definition inQuotes_ (s : string) : str := (quoteChar :: chars s ++ [quoteChar])%list.

(** The command of an argument list, every argument in quotes. *)
Fixpoint commandOf (args : list string) : str :=
  match args with
  | [] => []
  | a :: args => (inQuotes_ a ++ " "%char :: commandOf args)%list
  end.

Lemma tokenize_quoted t l : quoteChar ∉ t → ∀ current,
  tokenizeFrom true current (t ++ quoteChar :: l) = tokenizeFrom false (current ++ t) l.
Proof.
  induction t as [|c t IH]; intros Ht current; cbn [app tokenizeFrom].
  - rewrite bool_decide_true by done. cbn. by rewrite app_nil_r.
  - rewrite bool_decide_false by set_solver. cbn [negb andb]. rewrite IH by set_solver. by rewrite <- app_assoc.
Qed.

(** An argument list is read back from its command, whatever white space or shell syntax the
    arguments hold. *)
Theorem tokenize_roundtrip args :
  (∀ a, a ∈ args → a ≠ "" ∧ quoteChar ∉ chars a) → tokenizeProbeCommand (unchars (commandOf args)) = args.
Proof.
  intros H. unfold tokenizeProbeCommand. rewrite chars_unchars. induction args as [|a args IH]; [done|].
  destruct (H a) as [Ha Hq]; [by left|]. cbn [commandOf]. unfold inQuotes_. rewrite <- app_comm_cons, <- app_assoc. cbn [app tokenizeFrom].
  rewrite bool_decide_true by done. cbn [negb]. rewrite tokenize_quoted by done. cbn [app tokenizeFrom].
  rewrite bool_decide_false by done. change (isWs " ") with true. cbn [negb andb].
  destruct (chars a) as [|c cs] eqn:E; [by destruct a|]. cbn [flush]. rewrite fmap_cons, <- E, unchars_chars. f_equal. apply IH. set_solver.
Qed.

Lemma tokenize_roundtrip_witness :
  tokenizeProbeCommand (unchars (commandOf ["node"; "a b; $(c)"; "--x"])) = ["node"; "a b; $(c)"; "--x"].
Proof.
  apply tokenize_roundtrip. intros a Ha. repeat (apply elem_of_cons in Ha as [->|Ha]; [split; [done|by vm_compute; set_solver]|]).
  by apply not_elem_of_nil in Ha.
Defined.

(** Every flag that takes a value has one. *)
Fixpoint flagsServed (l : list string) : Prop :=
  match l with
  | [] => True
  | t :: l' =>
      (VALUE_TAKING_FLAGS t = true → match l' with v :: _ => isValue v = true | [] => False end) ∧ flagsServed l'
  end.

Lemma value_not_flag v : isValue v = true → VALUE_TAKING_FLAGS v = false ∧ isFlag v = false.
Proof.
  unfold isValue. intros [_ Hf]%andb_true_iff. apply negb_true_iff in Hf. split; [|done].
  unfold VALUE_TAKING_FLAGS. apply bool_decide_false. intros Hin.
  repeat (apply elem_of_cons in Hin as [->|Hin]; [discriminate Hf|]). by apply not_elem_of_nil in Hin.
Qed.

Lemma served_head v l : isValue v = true → head l ≠ Some "" → head (dropEmptyFlagValues (v :: l)) = Some v.
Proof.
  intros Hv Hl. destruct (value_not_flag v Hv) as [H1 H2]. cbn. destruct l as [|n l]; rewrite H1; [done|]. by rewrite H2.
Qed.

Lemma drop_served l : "" ∉ l → flagsServed (dropEmptyFlagValues l).
Proof.
  intros Hl. assert (Hind : ∀ n l, (length l ≤ n)%nat → "" ∉ l → flagsServed (dropEmptyFlagValues l)); [|by eapply Hind].
  clear l Hl. induction n as [|n IH]; intros [|t l] Hn Hl; cbn in Hn; try lia; [done|done|].
  apply not_elem_of_cons in Hl as [Ht Hl]. cbn [dropEmptyFlagValues]. destruct l as [|v l].
  { destruct (VALUE_TAKING_FLAGS t) eqn:E; cbn; [done|]. split; [congruence|done]. }
  apply not_elem_of_cons in Hl as Hv. destruct Hv as [Hv _]. rewrite (proj2 (String.eqb_neq v "")) by done. rewrite andb_false_r.
  destruct (VALUE_TAKING_FLAGS t && negb (isValue v)) eqn:E; [apply IH; [cbn in *; lia|done]|].
  cbn [flagsServed]. split; [|apply IH; [cbn in *; lia|done]]. intros Ht'. rewrite Ht' in E. apply negb_false_iff in E.
  assert (Hh : head (dropEmptyFlagValues (v :: l)) = Some v).
  { apply served_head; [done|]. destruct l as [|u l]; [done|]. cbn. intros [= ->]. apply Hl. set_solver. }
  destruct (dropEmptyFlagValues (v :: l)); [done|]. cbn in Hh. by simplify_eq.
Qed.

Lemma tokens_nonempty l : ∀ b current, [] ∉ tokenizeFrom b current l.
Proof.
  assert (Hf : ∀ c out, [] ∉ out → [] ∉ flush c out).
  { intros [|x c] out H; [done|]. cbn. apply not_elem_of_cons. done. }
  induction l as [|c l IH]; intros b current; cbn; [apply Hf, not_elem_of_nil|]. repeat case_match; [apply IH|by apply Hf|apply IH].
Qed.

Lemma flagsServed_app l : flagsServed l → flagsServed (l ++ ["--act"]).
Proof.
  induction l as [|t l IH]; intros H; [done|]. destruct H as [H1 H2]. cbn. split; [|by apply IH].
  intros Ht. specialize (H1 Ht). by destruct l.
Qed.

(** No flag swallows the one after it: in the arguments of every probe that is run, whatever
    parameters are blank, a flag that takes a value has one. *)
Theorem flags_served path probe params spec :
  resolveScheduleProbe path probe params = Some spec → flagsServed (argv spec).
Proof.
  unfold resolveScheduleProbe. destruct (match _ with Some c => Some c | None => _ end) as [c|]; [|done]. cbn [mbind option_bind].
  set (cmd := interpolateProbeTemplate _ _). assert (H : flagsServed (dropEmptyFlagValues (tokenizeProbeCommand cmd))).
  { apply drop_served. unfold tokenizeProbeCommand. intros (t & Ht & Hin)%list_elem_of_fmap. destruct t; [|done]. by eapply tokens_nonempty. }
  destruct (dropEmptyFlagValues _) as [|x l]; [done|]. intros [= <-]. cbn [argv]. destruct (_ && _); [|done]. by apply (flagsServed_app (x :: l)).
Qed.

(** The parameters go into the command before it is split, so the value of one is not kept to its
    argument: white space in the branch makes new arguments, among them the flag that [act] is to
    guard. *)
Theorem parameter_splits :
  argv <$> resolveScheduleProbe "kookr-deploy-convergence.md" None [("branch", "main --act"); ("act", "false")]
  = Some ["pnpm"; "deploy:convergence"; "--"; "--branch"; "main"; "--act"; "--grace-minutes"; "15"].
Proof. by vm_compute. Qed.

Definition lucyProbe : ResolvedScheduleProbe :=
  mkProbe ["node"; "scripts/deploy-convergence-check.mjs"; "--base"; "http://127.0.0.1:4877"; "--branch"; "main"; "--grace-minutes"; "15"]
    [2%Z] 20000.

Lemma flags_served_witness : flagsServed (argv lucyProbe).
Proof. apply (flags_served "playbooks/lucy-deploy-convergence" None []). by vm_compute. Defined.
End Probe.
