(* ===== verification/ScheduleRunner.v ===== *)
(** * The schedule runner

    [src/server/schedule-runner.ts]: which schedules a tick fires, and what a fire does between
    its admission and its end.  A fire waits many times (for a write, a probe, git, a launch), and
    anything may happen meanwhile: it is a record with a phase here, and what it waited for comes
    as an answer to the step that resumes it.  What a step reads besides is in [deps].

    The cron library, [Date.parse], [JSON.parse] and [posix.join] are parameters, and so are the
    two characters of its messages that are not of one byte. *)

From S2P Require Import Prelude JsMap JsArray JsString JsRegExp JsJson AgentEvents TaskTypes TerminalReceipt JsDate IssueClaims Schedule ScheduleService RelaunchArbiter AgentSelection ScheduleProbe.

Module Runner.
Import Sched Service.
#[local] Open Scope Z_scope.

Definition SCHEDULE_TICK_INTERVAL_MS : Z := 60000.
Definition CATCHUP_MAX_STALENESS_MS : Z := 24 * 60 * 60 * 1000.
Definition SCHEDULE_GATE_MAX_TASK_AGE_MS : Z := 12 * 60 * 60 * 1000.
Definition MIN_PROVIDER_AVOID_WINDOW_MS : Z := 20 * 60000.
Definition MAX_PROVIDER_AVOID_WINDOW_MS : Z := 24 * 60 * 60000.
Definition DEFAULT_PROVIDER_AVOID_WINDOW_MS : Z := 60 * 60000.

Definition dash : string := unchars [ascii_of_N 151].

(** ** The gate of the run before *)

Definition SCHEDULE_GATE_ACTIVE_STATUSES (s : TaskStatus) : bool :=
  match s with ts_open | ts_pending | ts_inProgress => true | _ => false end.

Definition isNoSlotDependencyAdmission (a : option TaskLaunchAdmission) : bool :=
  match a with
  | Some (parked reason _ _) => negb (bool_decide (reason = half_open_waiting_for_capacity))
  | _ => false
  end.

Definition isTaskBlockingSchedule (task : option Task.Task) (now staleAfterMs : Z) : bool :=
  match task with
  | None => false
  | Some t =>
      if negb (SCHEDULE_GATE_ACTIVE_STATUSES (Task.status t)) then false
      else if isNoSlotDependencyAdmission (Task.launchAdmission t) then true
      else Z.max 0 (now - Task.updatedAt t) <? staleAfterMs
  end.

Definition scheduleRelaunchClaimKey (i : string) : Claims.ClaimKey :=
  Claims.mkKey ("schedule:" +:+ i) 0.

(** ** Errors of a launch *)

(** [QuotaHeadroomAdmissionError]; the percentages as [toFixed(0)] prints them. *)
Record QuotaError := mkQuota {
  q_resetsAt : option string;
  q_maxUtilization : string;
  q_threshold : string
}.

(** What is thrown, as far as the runner looks at it: whether it is an object and an [Error], its
    name, code and message (or [String(err)]), the classes it is an instance of, and what the
    launch attached to it. *)
Record thrown := mkThrown {
  th_isObject : bool;
  th_isError : bool;
  th_name : string;
  th_code : option string;
  th_message : string;
  th_validation : option ScheduleValidationError;
  th_queueFull : bool;
  th_quota : option QuotaError;
  th_launchPhaseTimings : option json;
  th_resolvedAgentType : option string
}.

Definition isSessionGoneError (x : thrown) : bool :=
  th_isError x &&
  (String.eqb (th_name x) "SessionGoneError"
   || test (ignoreCase (seqOf [lit "session "; RPlus RDot; lit " is gone"])) (chars (th_message x))).

Definition isGrokAuthPreflightError (x : thrown) : bool :=
  th_isObject x &&
  (bool_decide (th_code x = Some "grok_auth_preflight"%string)
   || th_isError x &&
      (String.eqb (th_name x) "GrokAuthPreflightError"
       || test (ignoreCase (seqOf [lit "Grok authentication "; oneOf [lit "expired"; lit "unavailable"]])) (chars (th_message x)))).

Definition mapErrorToReasonCode (x : thrown) : ScheduleExecutionReasonCode :=
  match th_validation x with
  | Some v =>
      if isSome (truthyStr (mget "cwd"%string (fieldErrors v))) then why_missing_cwd
      else if isSome (truthyStr (mget "playbook"%string (fieldErrors v))) then why_missing_playbook
      else why_validation
  | None =>
      if th_queueFull x then why_pending_queue_full
      else if th_isError x && String.eqb (th_name x) "AutomationKillSwitchError" then
        if bool_decide (th_code x = Some "project_automation"%string) then why_project_automation else why_safe_mode
      else if isGrokAuthPreflightError x then why_auth_expired
      else if isSessionGoneError x then why_session_gone
      else why_launch_error
  end.

(** ** The checkout a playbook is read from *)

Record PlaybookCheckoutDrift := mkDrift {
  pd_ref : string;
  pd_upstreamRef : string;
  pd_behindBy : Z;
  pd_drifted : bool;
  pd_blobDiffers : bool;
  pd_warning : option string
}.

Definition toSchedulePlaybookSource (d : PlaybookCheckoutDrift) : SchedulePlaybookCheckoutSource :=
  mkCheckout (pd_ref d) (Some (pd_upstreamRef d)) (pd_behindBy d) (pd_drifted d).

Definition shortenSha (sha : string) : string :=
  if (12 <? String.length sha)%nat then sliceTo 12 sha else sha.

Definition formatPlaybookCheckoutDriftWarning (d : PlaybookCheckoutDrift) (gitPath : string) (failClosed : bool) : string :=
  let head := shortenSha (pd_ref d) in
  let behindClause :=
    if 0 <? pd_behindBy d
    then "HEAD " +:+ head +:+ " is " +:+ (if pd_behindBy d =? 1 then "1 commit" else showZ (pd_behindBy d) +:+ " commits")
         +:+ " behind `" +:+ pd_upstreamRef d +:+ "`."
    else "HEAD " +:+ head +:+ " has a different playbook blob than `" +:+ pd_upstreamRef d +:+ "`." in
  let fileNote :=
    if pd_blobDiffers d
    then "The playbook file `" +:+ gitPath +:+ "` differs from upstream."
    else "The playbook file `" +:+ gitPath +:+ "` currently matches upstream, but the checkout is still behind "
         +:+ dash +:+ " later playbook edits may be missing." in
  let closer :=
    if failClosed then "This schedule is configured to fail closed on playbook cwd lag, so the run was skipped."
    else "This warning does not block the run." in
  ("WARNING: This scheduled playbook's cwd checkout lags its upstream. " +:+ behindClause +:+ " " +:+ fileNote
   +:+ " A fix already merged upstream may not be in effect. Fast-forward this checkout before re-deriving a local fix. "
   +:+ closer)%string.

(** ** Agents *)

Definition resolveScheduleAgentSelection (s : Schedule) (defaultAgent : option string) : string :=
  orElse (agentType s) (orElse defaultAgent TaskStore.Store.DEFAULT_AGENT_TYPE).

#[export] Instance AgentSubstitutionReason_eq_dec : EqDecision AgentSubstitutionReason.
Proof. solve_decision. Defined.

Definition hopName (r : AgentSubstitutionReason) : string :=
  match r with
  | schedule_sub => "schedule_sub" | quota_rotate => "quota_rotate" | task_migrate => "task_migrate"
  | boot_backoff => "boot_backoff"
  end%string.

Definition agentOf (x : Agents.PinnedAgentResolution) : option string :=
  match x with Agents.available a | Agents.substituted a _ => Some a | Agents.unavailable _ => None end.

(** The hop of a substituted pin. *)
Definition scheduleHop (x : option Agents.PinnedAgentResolution) : list AgentSubstitutionHop :=
  match x with Some (Agents.substituted a from) => [mkHop schedule_sub from a] | _ => [] end.

(** ** What a fire gives *)

Record ScheduleRunResult := mkRunResult {
  rr_taskId : option string;
  rr_error : option string;
  rr_queued : bool;
  rr_parked : bool
}.

Definition nothing : ScheduleRunResult := mkRunResult None None false false.
Definition failed (m : string) : ScheduleRunResult := mkRunResult None (Some m) false false.

Inductive ended := Returned (r : ScheduleRunResult) | Threw (m : string).

(** What a launch gives: the task, and how it was admitted. *)
Record LaunchResult := mkLaunched {
  lr_taskId : string;
  lr_agentType : option string;
  lr_queued : bool;
  lr_parked : bool;
  lr_chain : option (list AgentSubstitutionHop)
}.

(** A call of the launcher: what the runner decides of it. *)
Record LaunchRequest := mkRequest {
  lq_scheduleId : string;
  lq_looped : bool;
  lq_agentType : option string;
  lq_model : option string;
  lq_effort : option string;
  lq_avoid : list string;
  lq_projectId : string;
  lq_safeModeExempt : bool;
  lq_operatorInitiated : bool
}.

(** What a step reads: the clock and the writes of the service, fresh identifiers, and the
    getters the runner is wired with.  It is wired without [resolveAutomationProjectId], so the
    project of a schedule is the one of its directory. *)
Record deps := mkDeps {
  d_env : env;
  d_nowMs : Z;
  d_uuid : string;
  d_token : string;
  d_ioError : string;
  d_task : string → option Task.Task;
  d_isAccepting : bool;
  d_isServerRestarting : bool;
  d_isAutomationEnabled : bool;
  d_pausedProjectIds : list string;
  d_registered : option (list string);
  d_blacklisted : list string;
  d_deprioritized : list string → list string;
  d_policy : option Agents.AgentFallbackPolicy;
  d_grokAuthUsable : option bool;
  d_defaultAgent : option string;
  d_loopedLauncher : bool;
  d_live : string → bool
}.

(** What a fire holds from its reservation on. *)
Record job := mkJob {
  j_schedule : Schedule;
  j_receipt : ScheduleExecutionReceipt;
  j_operator : bool
}.

Inductive phase :=
| Reserving (j : job) (threw : option string)
| Identifying (j : job)
| Probing (j : job) (pid : string) (spec : Probe.ResolvedScheduleProbe)
| Drifting (j : job) (pid : string)
| Refreshing (j : job) (pid : string) (drift : option PlaybookCheckoutDrift)
| Preparing (j : job) (pid : string) (drift : option PlaybookCheckoutDrift)
    (res : option Agents.PinnedAgentResolution) (avoid : list string)
| Launching (j : job) (drift : option PlaybookCheckoutDrift) (res : option Agents.PinnedAgentResolution)
    (looped : bool)
| Binding (j : job) (l : LaunchResult) (d : AcceptDetails) (looped : bool) (attempt : nat) (threw : bool)
| Settling (j : option job) (e : ended).

(** What a fire waited for. *)
Inductive answer :=
| Resumed
| Identified (cwdProjectId : string) (declared : option Probe.PlaybookProbe) (defaults : jmap string string)
| Unidentified (m : string)
| Probed (r : Probe.ProbeExecResult)
| Inspected (drift : option PlaybookCheckoutDrift)
| Prepared
| Launched (l : LaunchResult)
| Failed (x : thrown).

Inductive origin := from_tick | from_catch_up | from_caller | from_self_heal.

Record fireState := mkFire {
  f_scheduleId : string;
  f_name : string;
  f_origin : origin;
  f_phase : phase
}.

Record tickState := mkTick {
  tk_rest : list Schedule;
  tk_now : Z;
  tk_fired : list string;
  tk_deferred : list string
}.

Record world := mkWorld {
  w_svc : svc;
  w_inFlight : jmap string unit;
  w_fires : jmap nat fireState;
  w_began : nat;
  w_arbiter : option Arbiter.arbiter;
  w_requests : list LaunchRequest;
  w_terminated : list (string * string);
  w_substitutions : Z;
  w_tick : option tickState;
  w_cursor : option string
}.

Definition onSvc (v : svc) (w : world) : world := {| w with w_svc := v |}.

Section runner.
Variable dateParse : string → option Z.
Variable nextRun : string → option Z → option Z.
Variable posixJoin : list string → string.
Variable parseJson : string → option jvalue.
Variable arrow geq : string.
Variable backoffMs : Z.
Variable maxFiresPerTick : Z.

Definition playbookGitPath (path : string) : string := posixJoin [".kookr"; "playbooks"; path]%string.

(** ** Times *)

Definition computeNextRunFor (s : Schedule) : option Z :=
  nextRun (cron s) (dateParse (orElse (truthyStr (lastScheduledFor s)) (createdAt s))).

Definition estimateScheduleCadenceMs (now : Z) (s : Schedule) : option Z :=
  first ← nextRun (cron s) (Some now);
  second ← nextRun (cron s) (Some first);
  if 0 <? second - first then Some (second - first) else None.

Definition estimateProviderAvoidWindowMs (now : Z) (s : Schedule) : Z :=
  match estimateScheduleCadenceMs now s with
  | None => DEFAULT_PROVIDER_AVOID_WINDOW_MS
  | Some cadence => Z.min MAX_PROVIDER_AVOID_WINDOW_MS (Z.max MIN_PROVIDER_AVOID_WINDOW_MS (cadence * 2))
  end.

Definition providerAvoidanceFor (now : Z) (s : Schedule) : list string :=
  if negb (isRecoveryCriticalSchedule s) then []
  else List.filter Agents.isAgentType (providersToAvoid dateParse s now (estimateProviderAvoidWindowMs now s)).

(** ** The agent of a fire *)

Definition resolveScheduleAgent (d : deps) (s : Schedule) (avoid : list string) :
    option Agents.PinnedAgentResolution :=
  registered ← d_registered d;
  let selection := resolveScheduleAgentSelection s (d_defaultAgent d) in
  if String.eqb selection Agents.ROUND_ROBIN_AGENT_TYPE then None
  else if negb (Agents.isAgentType selection) then None
  else
    let available := Agents.excludeBlacklistedAgents
      (Agents.filterLaunchableAgentTypes registered (Some (orElse (d_grokAuthUsable d) true))) (d_blacklisted d) in
    let boot := d_deprioritized d available in
    let avoidLaunchable := List.filter (λ t, Agents.memb t available) avoid in
    let deprioritized :=
      match avoidLaunchable with
      | [] => boot
      | _ => boot ++ List.filter (λ t, negb (Agents.memb t boot)) avoidLaunchable
      end in
    Some (Agents.resolvePinnedAgentFallback selection available deprioritized (d_policy d)).

(** The model and effort of the schedule that the agent takes; a pin that was kept takes them
    as they are.  The agent of a substitution has a list of both, so the tests do not throw. *)
Definition retainedModel (substituted : bool) (agent : string) (s : Schedule) : option string :=
  m ← model s;
  if negb substituted || bool_decide (Agents.isValidModelForAgent agent m = Some true) then Some m else None.

Definition retainedEffort (substituted : bool) (agent : string) (s : Schedule) : option string :=
  e ← effort s;
  if negb substituted
     || bool_decide (Agents.isValidEffortForAgent agent e (retainedModel substituted agent s) = Some true)
  then Some e else None.

Definition isSubstituted (x : option Agents.PinnedAgentResolution) : bool :=
  match x with Some (Agents.substituted _ _) => true | _ => false end.

Definition formatSubstitutionChain (hops : list AgentSubstitutionHop) : string :=
  let sep := (" " +:+ arrow +:+ " ")%string in
  match hops with
  | [] => ""
  | [h] => hop_from h +:+ sep +:+ hop_to h
  | h :: _ => joinWith sep (hop_from h :: map (λ h, hop_to h +:+ " (" +:+ hopName (hop_reason h) +:+ ")") hops)
  end%string.

Definition buildSubstitutionAcceptDetails (res : option Agents.PinnedAgentResolution)
    (chain : option (list AgentSubstitutionHop)) : option (ScheduleExecutionReasonCode * string) :=
  match (match chain with Some (h :: l) => h :: l | _ => scheduleHop res end) with
  | [] => None
  | hops =>
      Some (if forallb (λ h, bool_decide (hop_reason h = boot_backoff)) hops
            then (why_provider_backoff, "Backed off boot-broken provider " +:+ formatSubstitutionChain hops)
            else (why_agent_substituted, "Substituted unavailable agent " +:+ formatSubstitutionChain hops))
  end%string.

(** How many substitutions a launch counts for. *)
Definition substitutionsOf (res : option Agents.PinnedAgentResolution) (chain : option (list AgentSubstitutionHop)) : Z :=
  let hops := Z.of_nat (countb (λ h, negb (bool_decide (hop_reason h = boot_backoff))) (orElse chain [])) in
  if isSubstituted res || (0 <? hops)
  then Z.max 1 (if hops =? 0 then (if isSubstituted res then 1 else 0) else hops) else 0.

(** ** The phases of a fire *)

Definition errorText (d : deps) (x : svcError) : string :=
  match x with Invalid e => message e | PersistFailed => d_ioError d end.

(** The name and the identifier of the schedule of a fire. *)
Definition jobId (j : job) : string := id (j_schedule j).
Definition jobName (j : job) : string := name (j_schedule j).

(** [await markExecutionOutcome(...); return { error }]. *)
Definition endWith (d : deps) (j : job) (o : ScheduleExecutionOutcome) (why : ScheduleExecutionReasonCode)
    (m : string) (details : OutcomeDetails) (error : string) (w : world) : world * phase :=
  let '(x, v) := markExecutionOutcome (d_env d) (jobId j) (rx_id (j_receipt j)) o why (Some m) details (w_svc w) in
  (onSvc v w, Settling (Some j) (match x with None => Returned (failed error) | Some x => Threw (errorText d x) end)).

Definition blockedBy (t : string) : OutcomeDetails := mkOutcome (Some t) None None None.

(** [latestExecution?.taskId], when it is not empty. *)
Definition blockingTaskOf (s : Schedule) : option string := x ← latestExecution s; truthyStr (lx_taskId x).

Definition isBlocking (d : deps) (t : string) : bool :=
  isTaskBlockingSchedule (d_task d t) (d_nowMs d) SCHEDULE_GATE_MAX_TASK_AGE_MS.

(** Once the run before does not block: the drain, or on to the project. *)
Definition passDrain (d : deps) (j : job) (w : world) : world * phase :=
  if d_isAccepting d then (w, Identifying j)
  else if d_isServerRestarting d then
    endWith d j skipped_server_restarting why_server_restarting
      ("Server restarting " +:+ dash +:+ " not accepting new launches during redeploy") noDetails
      "Server restarting" w
  else
    endWith d j skipped_draining why_draining ("Server draining " +:+ dash +:+ " not accepting new launches")
      noDetails "Server draining" w.

Definition afterReserve (d : deps) (j : job) (w : world) : world * phase :=
  match blockingTaskOf (j_schedule j) with
  | None => passDrain d j w
  | Some t =>
      if negb (isBlocking d t) then passDrain d j w
      else if bool_decide (Task.status <$> d_task d t = Some ts_pending) then
        endWith d j skipped_coalesced why_previous_run_pending "Previous fire is still pending launch"
          (blockedBy t) "Previous fire is still pending launch" w
      else
        endWith d j skipped_active why_previous_run_active "Previous run still active" (blockedBy t)
          "Previous run still active" w
  end.

Definition afterIdentity (d : deps) (j : job) (cwdProjectId : string) (declared : option Probe.PlaybookProbe)
    (defaults : jmap string string) (w : world) : world * phase :=
  let path := pb_path (playbook (j_schedule j)) in
  let exempt := KillSwitch.isSafeModeExemptSchedule (Some path) in
  let pid := KillSwitch.resolveScheduleAutomationProjectId (Some path) cwdProjectId in
  match KillSwitch.mayAutonomousActuate (Some src_schedule) (Some pid) (d_isAutomationEnabled d)
          (d_pausedProjectIds d) exempt (j_operator j) with
  | KillSwitch.safe_mode =>
      endWith d j skipped_safe_mode why_safe_mode
        ("SAFE MODE " +:+ dash +:+ " automation kill-switch engaged; schedule fires halted") noDetails
        ("SAFE MODE " +:+ dash +:+ " automation kill-switch engaged") w
  | KillSwitch.project_paused =>
      endWith d j skipped_project_automation why_project_automation
        ("Project automation paused (" +:+ pid +:+ ")") noDetails ("Project automation paused (" +:+ pid +:+ ")") w
  | _ =>
      match Probe.resolveScheduleProbe path declared (Probe.spread defaults (pb_parameters (playbook (j_schedule j)))) with
      | Some spec => (w, Probing j pid spec)
      | None => (w, Drifting j pid)
      end
  end.

(** The text of the receipt of a probe that did not escalate. *)
Definition probeMessage (r : Probe.ProbeExecResult) : string :=
  match truthyStr (Some (Probe.probeReceiptLine parseJson (Probe.stdout r))) with
  | Some m => m
  | None =>
      match truthyStr (Some (trim (Probe.stderr r))) with
      | Some m => m
      | None => "probe exit " +:+ showZ (Probe.exitCode r)
      end
  end.

Definition afterProbe (d : deps) (j : job) (pid : string) (spec : Probe.ResolvedScheduleProbe)
    (r : Probe.ProbeExecResult) (w : world) : world * phase :=
  if Probe.shouldEscalateProbe spec (Probe.exitCode r) then (w, Drifting j pid)
  else
    let why := if Probe.exitCode r =? 1 then why_probe_blip else why_probe_quiet in
    let '(x, v) := markProbeCompleted (d_env d) (jobId j) (rx_id (j_receipt j)) why (Some (probeMessage r)) (w_svc w) in
    (onSvc v w, Settling (Some j) (match x with None => Returned nothing | Some x => Threw (errorText d x) end)).

(** A playbook that is not of the project is not looked at. *)
Definition inspected (s : Schedule) (drift : option PlaybookCheckoutDrift) : option PlaybookCheckoutDrift :=
  if String.eqb (orElse (pb_scope (playbook s)) "project") "project" then drift else None.

Definition afterDrift (d : deps) (j : job) (pid : string) (drift : option PlaybookCheckoutDrift) (w : world) :
    world * phase :=
  match inspected (j_schedule j) drift with
  | Some x =>
      if pd_drifted x && failOnPlaybookDrift (j_schedule j) then
        let m := formatPlaybookCheckoutDriftWarning x (playbookGitPath (pb_path (playbook (j_schedule j)))) true in
        endWith d j skipped_playbook_drift why_playbook_cwd_lag m
          (mkOutcome None None (Some (toSchedulePlaybookSource x)) None) m w
      else (w, Refreshing j pid (Some x))
  | None => (w, Refreshing j pid None)
  end.

Definition parkUnavailableAgent (d : deps) (j : job) (from : string) (w : world) : world * phase :=
  if String.eqb from "grok-build" && bool_decide (d_grokAuthUsable d = Some false) then
    let m := ("Grok authentication expired or unusable and no non-Grok substitute is launchable " +:+ dash
      +:+ " run `grok login --device-code` (or `grok login --oauth`) and retry. (reasonCode: auth_expired)")%string in
    endWith d j dispatch_failed why_auth_expired m noDetails m w
  else
    let m := ("Pinned agent " +:+ from +:+ " is unavailable and no substitute is registered " +:+ dash
      +:+ " fire parked (provider_paused)")%string in
    endWith d j skipped_provider_paused why_provider_paused m noDetails m w.

(** [recordFireOutcome]: a receipt that is gone is not an error of the fire. *)
Definition isExecutionReceiptNotFoundError (x : svcError) : bool :=
  match x with
  | Invalid e => bool_decide (mget "receipt"%string (fieldErrors e) = Some "not_found"%string)
  | PersistFailed => false
  end.

Definition recordFireOutcome (d : deps) (j : job) (o : ScheduleExecutionOutcome) (why : ScheduleExecutionReasonCode)
    (m : string) (details : OutcomeDetails) (w : world) : world * phase :=
  let '(x, v) := markExecutionOutcome (d_env d) (jobId j) (rx_id (j_receipt j)) o why (Some m) details (w_svc w) in
  (onSvc v w, Settling (Some j)
     match x with
     | None => Returned (failed m)
     | Some x => if isExecutionReceiptNotFoundError x then Returned (failed m) else Threw (errorText d x)
     end).

Definition recordFireFailure (d : deps) (j : job) (x : thrown) (hint : option string) (w : world) : world * phase :=
  match th_quota x with
  | Some q =>
      let resetHint :=
        match truthyStr (q_resetsAt q) with
        | Some t => " Retry after the binding window resets (" +:+ t +:+ ")."
        | None => " Retry once plan quota resets."
        end in
      recordFireOutcome d j skipped_provider_paused why_provider_paused
        ("Provider quota exhausted (utilization " +:+ q_maxUtilization q +:+ "% " +:+ geq +:+ " threshold "
         +:+ q_threshold q +:+ "%, no healthy alternate) " +:+ dash +:+ " fire parked (provider_paused)." +:+ resetHint)
        noDetails w
  | None =>
      recordFireOutcome d j dispatch_failed (mapErrorToReasonCode x) (th_message x)
        (mkOutcome None (th_launchPhaseTimings x) None
           (truthyStr (orOpt (List.find Agents.isAgentType (option_list (th_resolvedAgentType x))) hint))) w
  end%string.

(** *** Launching *)

Definition addRequest (q : LaunchRequest) (w : world) : world := {| w with w_requests := w_requests w ++ [q] |}.

Definition requestOf (d : deps) (j : job) (pid : string) (looped : bool) (agent : option string)
    (model_ effort_ : option string) (avoid : list string) : LaunchRequest :=
  {| lq_scheduleId := jobId j; lq_looped := looped; lq_agentType := agent; lq_model := model_; lq_effort := effort_;
     lq_avoid := avoid; lq_projectId := pid;
     lq_safeModeExempt := KillSwitch.isSafeModeExemptSchedule (Some (pb_path (playbook (j_schedule j))));
     lq_operatorInitiated := j_operator j |}.

(** The message of a lease that is denied. *)
Definition withheld (what : string) (x : Arbiter.denial) : string :=
  (what +:+ " withheld " +:+ dash +:+ " relaunch lease " +:+
   match x with
   | Arbiter.backoff ms _ => "in backoff for " +:+ showZ (- (- ms / 1000)) +:+ "s"
   | Arbiter.held l => "held by " +:+ Arbiter.ls_holderId l
   end)%string.

(** Arming a loop: the lease, the launcher, and the agent, then the call. *)
Definition armLoop (d : deps) (j : job) (pid : string) (drift : option PlaybookCheckoutDrift) (w : world) :
    world * phase :=
  let s := j_schedule j in
  let '(arbiter, denied) :=
    match w_arbiter w with
    | None => (None, None)
    | Some a =>
        let '(a, x) := Arbiter.evaluate backoffMs (d_nowMs d) (d_live d) (scheduleRelaunchClaimKey (id s)) a in (Some a, x)
    end in
  let w := {| w with w_arbiter := arbiter |} in
  match denied with
  | Some x =>
      let m := withheld "Loop arm" x in
      endWith d j skipped_relaunch_locked why_relaunch_lease_held m noDetails m w
  | None =>
      if negb (d_loopedLauncher d) then
        let m := "Schedule carries a loop config but no looped launcher is wired"%string in
        endWith d j dispatch_failed why_launch_error m noDetails m w
      else
        let res := resolveScheduleAgent d s [] in
        let call agent model_ effort_ :=
          (addRequest (requestOf d j pid true agent model_ effort_ []) w, Launching j drift res true) in
        match res with
        | Some (Agents.unavailable from) => parkUnavailableAgent d j from w
        | Some (Agents.substituted a _) => call (Some a) (retainedModel true a s) (retainedEffort true a s)
        | Some (Agents.available a) => call (Some a) (model s) (effort s)
        | None => call (agentType s) (model s) (effort s)
        end
  end.

Definition afterRefresh (d : deps) (j : job) (pid : string) (drift : option PlaybookCheckoutDrift) (w : world) :
    world * phase :=
  let s := j_schedule j in
  if hasScheduleLoopConfig s then armLoop d j pid drift w
  else
    let avoid := providerAvoidanceFor (d_nowMs d) s in
    let res := resolveScheduleAgent d s avoid in
    match res with
    | Some (Agents.unavailable from) => parkUnavailableAgent d j from w
    | _ => (w, Preparing j pid drift res avoid)
    end.

(** The launch is resolved: the launcher is called. *)
Definition afterPrepare (d : deps) (j : job) (pid : string) (drift : option PlaybookCheckoutDrift)
    (res : option Agents.PinnedAgentResolution) (avoid : list string) (w : world) : world * phase :=
  let s := j_schedule j in
  let agent := orElse (r ← res; agentOf r) (resolveScheduleAgentSelection s (d_defaultAgent d)) in
  let substituted := isSubstituted res in
  (addRequest (requestOf d j pid false (Some agent) (retainedModel substituted agent s)
     (retainedEffort substituted agent s) avoid) w, Launching j drift res false).

Definition fallbackOf (r : ScheduleExecutionReceipt) : Fallback :=
  mkFallback (rx_trigger r) (rx_decision r) (truthyStr (rx_scheduledFor r)).

(** One attempt of [bindLaunchedTaskReceipt]. *)
Definition bindAttempt (d : deps) (j : job) (l : LaunchResult) (x : AcceptDetails) (looped : bool) (attempt : nat)
    (w : world) : world * phase :=
  let '(e, v) := markExecutionAccepted (d_env d) (jobId j) (rx_id (j_receipt j)) (lr_taskId l) (lr_queued l) x
                   (Some (fallbackOf (j_receipt j))) (w_svc w) in
  (onSvc v w, Binding j l x looped attempt (isSome e)).

Definition acceptDetailsOf (drift : option PlaybookCheckoutDrift) (res : option Agents.PinnedAgentResolution)
    (looped : bool) (l : LaunchResult) : AcceptDetails :=
  let sub := buildSubstitutionAcceptDetails res (if looped then None else lr_chain l) in
  mkAccept (fst <$> sub) (snd <$> sub) (lr_parked l) (toSchedulePlaybookSource <$> drift)
    (if looped then None else truthyStr (c ← lr_chain l; hop_from <$> head c))
    (if looped then None else truthyStr (lr_agentType l)).

Definition afterLaunch (d : deps) (j : job) (drift : option PlaybookCheckoutDrift)
    (res : option Agents.PinnedAgentResolution) (looped : bool) (l : LaunchResult) (w : world) : world * phase :=
  let n := if looped then (if isSubstituted res then 1 else 0) else substitutionsOf res (lr_chain l) in
  bindAttempt d j l (acceptDetailsOf drift res looped l) looped 1
    {| w with w_substitutions := w_substitutions w + n |}.

(** What is said of a launch that lost the lease. *)
Definition lostLease (x : Arbiter.denial) : string :=
  match x with
  | Arbiter.backoff ms _ => "relaunch lease entered backoff mid-fire (retry in " +:+ showZ (- (- ms / 1000)) +:+ "s)"
  | Arbiter.held l => "relaunch lease taken mid-fire by " +:+ Arbiter.ls_holderId l
  end%string.

(** The lease under the task that was launched; a task that does not get it is ended. *)
Definition holdLease (d : deps) (i : string) (taskId : option string) (w : world) : world :=
  match w_arbiter w, truthyStr taskId with
  | Some a, Some t =>
      match Arbiter.tryAcquire backoffMs (d_nowMs d) (d_live d) (scheduleRelaunchClaimKey i) t a with
      | (a, inl _) => {| w with w_arbiter := Some a |}
      | (a, inr x) => {| w with w_arbiter := Some a; w_terminated := w_terminated w ++ [(t, lostLease x)] |}
      end
  | _, _ => w
  end.

Definition afterBind (d : deps) (j : job) (l : LaunchResult) (x : AcceptDetails) (looped : bool) (attempt : nat)
    (threw : bool) (w : world) : world * phase :=
  if threw && (attempt <? 2)%nat then bindAttempt d j l x looped (S attempt) w
  else
    ((if looped then holdLease d (jobId j) (Some (lr_taskId l)) w else w),
     Settling (Some j) (Returned (mkRunResult (Some (lr_taskId l)) None (lr_queued l) (lr_parked l)))).

(** One step of a fire that is under way; [None] when the answer is not what it waits for. *)
Definition resume (d : deps) (x : answer) (p : phase) (w : world) : option (world * phase) :=
  match p, x with
  | Reserving j None, Resumed => Some (afterReserve d j w)
  | Reserving j (Some m), Resumed => Some (w, Settling (Some j) (Threw m))
  | Identifying j, Identified pid declared defaults => Some (afterIdentity d j pid declared defaults w)
  | Identifying j, Unidentified m => Some (w, Settling (Some j) (Threw m))
  | Probing j pid spec, Probed r => Some (afterProbe d j pid spec r w)
  | Drifting j pid, Inspected drift => Some (afterDrift d j pid drift w)
  | Refreshing j pid drift, Resumed => Some (afterRefresh d j pid drift w)
  | Preparing j pid drift res avoid, Prepared => Some (afterPrepare d j pid drift res avoid w)
  | Preparing j _ _ res _, Failed e => Some (recordFireFailure d j e (r ← res; agentOf r) w)
  | Launching j drift res looped, Launched l => Some (afterLaunch d j drift res looped l w)
  | Launching j _ res looped, Failed e =>
      Some (recordFireFailure d j e (if looped then None else r ← res; agentOf r) w)
  | Binding j l a looped attempt threw, Resumed => Some (afterBind d j l a looped attempt threw w)
  | _, _ => None
  end.

(** ** The admission of a fire, and its end *)

Definition runnerError (m : string) (w : world) : world := onSvc (recordRunnerError m (w_svc w)) w.

(** What the caller of a fire does with its end. *)
Definition conclude (d : deps) (o : origin) (i name_ : string) (x : ended) (w : world) : world :=
  match o, x with
  | from_tick, Threw m => runnerError ("[schedule] Fire error for " +:+ quoted name_ +:+ ": " +:+ m) w
  | from_catch_up, Returned r => holdLease d i (rr_taskId r) w
  | from_catch_up, Threw m => runnerError ("[schedule] Catch-up error: " +:+ m) w
  | from_self_heal, Threw m => runnerError ("[schedule] Tick error: " +:+ m) w
  | _, _ => w
  end%string.

(** The race a fire lost: only a row of the ledger is written, and a fault of the write is not one
    of the fire. *)
Definition recordConcurrentOverlapSkip (d : deps) (s : Schedule) (t : ScheduleExecutionTrigger)
    (next : option Z) (dec : ScheduleExecutionDecision) (w : world) : world :=
  let winner := r ← get (id s) (rows (w_svc w)); currentExecution r in
  let details :=
    mkOverlap t dec (toISOString <$> next) (truthyStr (r ← winner; rx_taskId r)) (truthyStr (rx_id <$> winner))
      (truthyStr (rx_executionToken <$> winner)) "Previous run still active" in
  onSvc (recordOverlapSkipped (d_env d) (d_uuid d) (id s) details (w_svc w)).2 w.

Definition addFire (s : Schedule) (o : origin) (p : phase) (w : world) : world :=
  {| w with w_fires := mset (w_began w) (mkFire (id s) (name s) o p) (w_fires w); w_began := S (w_began w) |}.

(** The head of [dispatchAdmittedFire]: the row is read again and reserved. *)
Definition admitFire (d : deps) (s : Schedule) (t : ScheduleExecutionTrigger) (next : option Z)
    (dec : ScheduleExecutionDecision) (operator_ : bool) (o : origin) (w : world) : world :=
  let w := {| w with w_inFlight := mset (id s) tt (w_inFlight w) |} in
  match get (id s) (rows (w_svc w)) with
  | None => addFire s o (Settling None (Returned nothing)) w
  | Some fresh =>
      let scheduledFor := toISOString <$> next in
      let '(x, v) := reserveExecution (d_env d) (d_uuid d) (d_token d) fresh t scheduledFor (Some dec) (w_svc w) in
      let r := newReceipt (d_env d) (d_uuid d) (d_token d) fresh t scheduledFor dec in
      addFire s o (Reserving (mkJob fresh r operator_) (errorText d <$> x)) (onSvc v w)
  end.

(** [fire], up to where it waits: [s] is what the caller has read. *)
Definition fire (d : deps) (s : Schedule) (t : ScheduleExecutionTrigger) (next : option Z)
    (dec : ScheduleExecutionDecision) (operator_ : bool) (o : origin) (w : world) : world :=
  if archived s then conclude d o (id s) (name s) (Returned (failed "Schedule is archived")) w
  else if bool_decide (t = cron_trigger) && isTriggerLimitExhausted s then
    let '(x, v) := markCronLimitExhausted (d_env d) (id s) (w_svc w) in
    conclude d o (id s) (name s)
      (match x with None => Returned (failed "Schedule trigger limit reached") | Some x => Threw (errorText d x) end)
      (onSvc v w)
  else if mhas (id s) (w_inFlight w) then
    conclude d o (id s) (name s) (Returned (failed "Previous run still active"))
      (recordConcurrentOverlapSkip d s t next dec w)
  else admitFire d s t next dec operator_ o w.

Definition setPhase (n : nat) (p : phase) (w : world) : world :=
  {| w with w_fires := mupd (λ f, {| f with f_phase := p |}) n (w_fires w) |}.

(** A fire goes on with what it waited for. *)
Definition goOn (d : deps) (n : nat) (x : answer) (w : world) : world :=
  match f ← mget n (w_fires w); resume d x (f_phase f) w with
  | Some (w, p) => setPhase n p w
  | None => w
  end.

(** A fire that has ended drops its marker. *)
Definition settle (d : deps) (n : nat) (w : world) : world :=
  match mget n (w_fires w) with
  | Some (mkFire i name_ o (Settling _ x)) =>
      conclude d o i name_ x {| w with w_inFlight := mdel i (w_inFlight w); w_fires := mdel n (w_fires w) |}
  | _ => w
  end.

Definition runNow (d : deps) (i : string) (w : world) : world :=
  match get i (rows (w_svc w)) with
  | None => w
  | Some s => fire d s manual_trigger None manual_run true from_caller w
  end.

Definition forceRefire (d : deps) (i : string) (w : world) : world :=
  match get i (rows (w_svc w)) with
  | None => w
  | Some s =>
      if mhas i (w_inFlight w) then w else fire d s manual_trigger None manual_run false from_self_heal w
  end.

(** An awaited method of a round: what it throws ends the round and is recorded. *)
Definition inRound (label : string) (d : deps) (r : outcome) (w : world) : world :=
  match r with
  | (None, v) => onSvc v w
  | (Some x, v) => runnerError ("[schedule] " +:+ label +:+ " error: " +:+ errorText d x) (onSvc v w)
  end.

(** ** The tick *)

(** [findIndex], from [0]. *)
Fixpoint indexOf (c : string) (l : list Schedule) : option nat :=
  match l with
  | [] => None
  | s :: l => if String.eqb (id s) c then Some O else S <$> indexOf c l
  end.

Definition rotateFromCursor (l : list Schedule) (cursorId : option string) : list Schedule :=
  match cursorId with
  | None => l
  | Some c => match indexOf c l with Some (S i) => drop (S i) l ++ take (S i) l | _ => l end
  end.

Definition nextTickCursorId (deferred : list string) : option string := head deferred.

Definition budget : Z := Z.max 1 maxFiresPerTick.

Inductive verdict := Exhausted | Passed | Deferred | Due (next : Z).

(** What becomes of a schedule of the round; [busy]: a fire of it is in flight. *)
Definition judge (busy : bool) (t : tickState) (s : Schedule) : verdict :=
  if isTriggerLimitExhausted s then Exhausted
  else
    match computeNextRunFor s with
    | None => Passed
    | Some next =>
        if tk_now t <? next then Passed
        else if busy then Passed
        else if budget <=? Z.of_nat (length (tk_fired t)) then Deferred
        else Due next
    end.

(** The round after a schedule. *)
Definition judged (v : verdict) (s : Schedule) (l : list Schedule) (t : tickState) : tickState :=
  mkTick l (tk_now t)
    (match v with Due _ => tk_fired t ++ [id s] | _ => tk_fired t end)
    (match v with Deferred => tk_deferred t ++ [id s] | _ => tk_deferred t end).

(** One tick runs at a time; it goes over the enabled schedules it reads at its beginning. *)
Definition tickStart (d : deps) (w : world) : world :=
  match w_tick w with
  | Some _ => w
  | None =>
      let enabled_ := List.filter enabled (list_ (rows (w_svc w))) in
      {| w with w_tick := Some (mkTick (rotateFromCursor enabled_ (w_cursor w)) (d_nowMs d) [] []) |}
  end.

Definition tickVisit (d : deps) (w : world) : world :=
  match w_tick w with
  | Some t =>
      match tk_rest t with
      | [] => w
      | s :: l =>
          let v := judge (mhas (id s) (w_inFlight w)) t s in
          let w := {| w with w_tick := Some (judged v s l t) |} in
          match v with
          | Exhausted =>
              let r := markCronLimitExhausted (d_env d) (id s) (w_svc w) in
              inRound "Tick" d r (if isSome r.1 then {| w with w_tick := None |} else w)
          | Due next => fire d s cron_trigger (Some next) cron_due false from_tick w
          | Passed | Deferred => w
          end
      end
  | None => w
  end.

Definition tickEnd (d : deps) (w : world) : world :=
  match w_tick w with
  | Some (mkTick [] _ _ deferred) =>
      {| w with w_tick := None; w_cursor := nextTickCursorId deferred;
                w_svc := recordTickCompleted (d_env d) (w_svc w) |}
  | _ => w
  end.

(** ** Catching up *)

Definition getCatchUpMode (noCatchUp manual : option string) : CatchUpMode :=
  if isSome (truthyStr noCatchUp) then mode_off
  else if isSome (truthyStr manual) then mode_manual else mode_auto.

Definition catchUpFire (d : deps) (s : Schedule) (next : Z) (w : world) : world :=
  let go := fire d s cron_trigger (Some next) catch_up false from_catch_up in
  match w_arbiter w with
  | None => go w
  | Some a =>
      match Arbiter.evaluate backoffMs (d_nowMs d) (d_live d) (scheduleRelaunchClaimKey (id s)) a with
      | (a, None) => go {| w with w_arbiter := Some a |}
      | (a, Some x) =>
          let w := {| w with w_arbiter := Some a |} in
          inRound "Catch-up" d
            (recordCatchUpLeaseDenied (d_env d) (id s) (toISOString next) (withheld "Catch-up" x) (w_svc w)) w
      end
  end.

(** A schedule of the start, as it was read then; [now] is the time of the start. *)
Definition catchUpVisit (d : deps) (mode : CatchUpMode) (now : Z) (s : Schedule) (w : world) : world :=
  let cutoff := now - CATCHUP_MAX_STALENESS_MS in
  let at_ next := toISOString next in
  let say r := inRound "Catch-up" d r w in
  if negb (enabled s) then w
  else if isTriggerLimitExhausted s then say (markCronLimitExhausted (d_env d) (id s) (w_svc w))
  else
    match computeNextRunFor s with
    | None => w
    | Some next =>
        if (next <? now) && (cutoff <=? next) then
          match mode with
          | mode_off => say (suppressCatchUp (d_env d) (id s) (w_svc w))
          | mode_manual =>
              say (recordCatchUpDeferred (d_env d) (id s) (at_ next)
                       ("Missed startup run due " +:+ at_ next +:+ " was recorded for manual Run Now recovery")%string (w_svc w))
          | mode_auto => catchUpFire d s next w
          end
        else if next <? cutoff then
          match mode with
          | mode_off => say (suppressCatchUp (d_env d) (id s) (w_svc w))
          | _ =>
              say (recordCatchUpSkipped (d_env d) (id s) (at_ next)
                       ("Due " +:+ at_ next +:+ " is outside the 24h catch-up window")%string (w_svc w))
          end
        else w
    end.

(** ** Histories *)

Inductive act :=
| RunNow (i : string)
| ForceRefire (i : string)
| Answer (n : nat) (x : answer)
| Settle (n : nat)
| TickStart
| TickVisit
| TickEnd
| CatchUp (mode : CatchUpMode) (now : Z) (s : Schedule)
| Elsewhere (o : op).

Variable isValidCron : string → bool.

Definition perform (d : deps) (a : act) (w : world) : world :=
  match a with
  | RunNow i => runNow d i w
  | ForceRefire i => forceRefire d i w
  | Answer n x => goOn d n x w
  | Settle n => settle d n w
  | TickStart => tickStart d w
  | TickVisit => tickVisit d w
  | TickEnd => tickEnd d w
  | CatchUp mode now s => catchUpVisit d mode now s w
  | Elsewhere o => onSvc (Service.exec isValidCron dateParse (d_env d) o (w_svc w)) w
  end.

(** What others call of the service: nothing that begins or settles a fire; and a schedule that is
    created is not one that is being fired. *)
Definition allowed (a : act) (w : world) : Prop :=
  match a with
  | Elsewhere (Create uuid _ _) => mhas uuid (w_inFlight w) = false
  | Elsewhere o => g_runs (grantOf o) = false
  | _ => True
  end.

Definition newWorld (v : svc) (a : option Arbiter.arbiter) : world :=
  mkWorld v [] [] 0 a [] [] 0 None None.

(** What the runner can come to. *)
Inductive reach : world → Prop :=
| reach_new v a : rows_ok (rows v) → reach (newWorld v a)
| reach_step w d a : reach w → allowed a w → reach (perform d a w).

(** ** What the service does to the row of a fire *)

(** A step that touches one row at most, and brings none to life. *)
Definition only (i : string) (v v' : svc) : Prop :=
  rows_ok (rows v) →
  rows_ok (rows v') ∧ (∀ k, k ≠ i → row k v' = row k v) ∧ (row i v = None → row i v' = None).

Lemma only_refl i v v' : rows v' = rows v → only i v v'.
Proof. unfold only, row. by intros ->. Qed.

Lemma only_rows i v v1 v2 : rows v2 = rows v1 → only i v v1 → only i v v2.
Proof. unfold only, row. by intros ->. Qed.

Lemma put_only e i s s' v : row i v = Some s → id s = i → id s' = id s → only i v (put e s' v).
Proof.
  intros Hs Hi Hid Hok. split_and!.
  - unfold put, replace. by apply putRow_rows.
  - intros k Hk. rewrite put_row, decide_False; [done|]. congruence.
  - congruence.
Qed.

Lemma withSchedule_only i v k :
  (∀ s, row i v = Some s → id s = i → only i v (k s).2) → only i v (withSchedule i v k).2.
Proof.
  intros H Hok. unfold withSchedule. destruct (get i (rows v)) as [s|] eqn:E; [|by apply only_refl].
  apply H; [done| |done]. by apply (proj2 Hok).
Qed.

Lemma commit_only e i s s' v : row i v = Some s → id s = i → id s' = id s → only i v (commit e (put e s' v)).2.
Proof. intros. eapply only_rows; [apply commit_rows|by eapply put_only]. Qed.

Lemma commit_row e i s s' v : row i v = Some s → id s = i → id s' = id s → row i (commit e (put e s' v)).2 = Some (touched e s').
Proof. intros Hs Hi Hid. unfold row. rewrite commit_rows. change (get i _) with (row i (put e s' v)). rewrite put_row, decide_True; [done|congruence]. Qed.

Lemma rows_ok_id i v s : rows_ok (rows v) → row i v = Some s → id s = i.
Proof. intros Hok. apply (proj2 Hok). Qed.

Lemma outcome_id e s r rid o why m x : id (outcomeRow e s r rid o why m x) = id s.
Proof. unfold outcomeRow, withConsumed, withPause. by repeat case_match. Qed.

Lemma probed_id e s r rid why m : id (probedRow e s r rid why m) = id s.
Proof. unfold probedRow, withConsumed. by repeat case_match. Qed.

Lemma accepted_id e s r rid t q x : id (acceptedRow e s r rid t q x) = id s.
Proof. unfold acceptedRow, withConsumed. by repeat case_match. Qed.

Lemma markOutcome_only e i rid o why m x v : only i v (markExecutionOutcome e i rid o why m x v).2.
Proof.
  apply withSchedule_only. intros s Hs Hi. destruct (requireReceipt s rid); [|by apply only_refl].
  eapply only_rows; [apply alertAfter_rows|]. by apply (commit_only e i s); [| |apply outcome_id].
Qed.

Lemma markProbe_only e i rid why m v : only i v (markProbeCompleted e i rid why m v).2.
Proof.
  apply withSchedule_only. intros s Hs Hi. destruct (requireReceipt s rid); [|by apply only_refl].
  by apply (commit_only e i s); [| |apply probed_id].
Qed.

Lemma markAccepted_only e i rid t q x fb v : only i v (markExecutionAccepted e i rid t q x fb v).2.
Proof.
  apply withSchedule_only. intros s Hs Hi. destruct (acceptedReceipt e s rid fb); [|by apply only_refl].
  by apply (commit_only e i s); [| |apply accepted_id].
Qed.

Lemma missed_only d o why e i f m v : only i v (recordMissed d o why e i f m v).2.
Proof. apply withSchedule_only. intros s Hs Hi. by apply (commit_only e i s). Qed.

Lemma suppress_only e i v : only i v (suppressCatchUp e i v).2.
Proof. apply withSchedule_only. intros s Hs Hi. by apply (commit_only e i s). Qed.

Lemma limit_only e i v : only i v (markCronLimitExhausted e i v).2.
Proof.
  apply withSchedule_only. intros s Hs Hi. destruct (negb _); [by apply only_refl|]. destruct (_ && _); [by apply only_refl|].
  by apply (commit_only e i s).
Qed.

Lemma overlap_only e uuid i x v : only i v (recordOverlapSkipped e uuid i x v).2.
Proof. apply withSchedule_only. intros s Hs Hi. by apply (commit_only e i s). Qed.

(** The receipt of a fire in its row: open and without a task, or closed. *)
Definition openFor (r : ScheduleExecutionReceipt) (o : option Schedule) : Prop :=
  ∀ s, o = Some s → ∃ r', currentExecution s = Some r' ∧ rx_id r' = rx_id r ∧ rx_taskId r' = None.

Definition closedFor (r : ScheduleExecutionReceipt) (o : option Schedule) : Prop :=
  ∀ s, o = Some s → ∃ r', currentExecution s = Some r' ∧ rx_id r' = rx_id r ∧ rx_status r' ≠ reserved.

Lemma openFor_require r s : openFor r (Some s) → ∃ r', requireReceipt s (rx_id r) = Some r' ∧ rx_id r' = rx_id r ∧ rx_taskId r' = None.
Proof. intros (r' & E & H1 & H2)%(λ H, H s eq_refl). exists r'. unfold requireReceipt. by rewrite E, H1, String.eqb_refl. Qed.

Lemma markOutcome_row e i rid o why m x v s r :
  rows_ok (rows v) → row i v = Some s → requireReceipt s rid = Some r →
  row i (markExecutionOutcome e i rid o why m x v).2 = Some (touched e (outcomeRow e s r rid o why m x)).
Proof.
  intros Hok Hs Hr. pose proof (rows_ok_id _ _ _ Hok Hs) as Hi. unfold markExecutionOutcome, withSchedule.
  change (get i (rows v)) with (row i v). rewrite Hs, Hr. unfold row. rewrite alertAfter_rows. apply (commit_row e i s); [done|done|apply outcome_id].
Qed.

Lemma markOutcome_closed e i r o why m x v :
  rows_ok (rows v) → openFor r (row i v) → closedFor r (row i (markExecutionOutcome e i (rx_id r) o why m x v).2).
Proof.
  intros Hok Ho. destruct (row i v) as [s|] eqn:Hs.
  - destruct (openFor_require _ _ Ho) as (r' & Hr & Hid & _). rewrite (markOutcome_row _ _ _ _ _ _ _ _ s r') by done.
    intros s' [= <-]. eexists. split; [reflexivity|]. split; [exact Hid|]. cbn. by case_match.
  - destruct (markOutcome_only e i (rx_id r) o why m x v Hok) as (_ & _ & H). rewrite H by done. done.
Qed.

Lemma markProbe_closed e i r why m v :
  rows_ok (rows v) → openFor r (row i v) → closedFor r (row i (markProbeCompleted e i (rx_id r) why m v).2).
Proof.
  intros Hok Ho. destruct (row i v) as [s|] eqn:Hs.
  - destruct (openFor_require _ _ Ho) as (r' & Hr & Hid & _). pose proof (rows_ok_id _ _ _ Hok Hs). unfold markProbeCompleted, withSchedule.
    change (get i (rows v)) with (row i v). rewrite Hs, Hr, (commit_row e i s) by (done || apply probed_id).
    intros s' [= <-]. eexists. split; [reflexivity|]. by split.
  - destruct (markProbe_only e i (rx_id r) why m v Hok) as (_ & _ & H). rewrite H by done. done.
Qed.

Lemma markAccepted_closed e i r t q x fb v :
  rows_ok (rows v) → closedFor r (row i (markExecutionAccepted e i (rx_id r) t q x (Some fb) v).2).
Proof.
  intros Hok. destruct (row i v) as [s|] eqn:Hs.
  - assert (Hr : ∃ r', acceptedReceipt e s (rx_id r) (Some fb) = Some r' ∧ rx_id r' = rx_id r).
    { unfold acceptedReceipt, requireReceipt. destruct (currentExecution s) as [r0|]; [|by eexists].
      destruct (String.eqb_spec (rx_id r0) (rx_id r)); by eexists. }
    destruct Hr as (r' & Hr & Hid). pose proof (rows_ok_id _ _ _ Hok Hs). unfold markExecutionAccepted, withSchedule. change (get i (rows v)) with (row i v).
    rewrite Hs, Hr, (commit_row e i s) by (done || apply accepted_id).
    intros s' [= <-]. eexists. split; [reflexivity|]. by split.
  - destruct (markAccepted_only e i (rx_id r) t q x (Some fb) v Hok) as (_ & _ & H). rewrite H by done. done.
Qed.

(** What others leave of a row: the task of its latest execution, and the receipt, which they may
    close. *)
Definition receiptKept (s s' : Schedule) : Prop :=
  match currentExecution s, currentExecution s' with
  | Some r, Some r' => rx_id r' = rx_id r ∧ rx_taskId r' = rx_taskId r ∧ (rx_status r ≠ reserved → rx_status r' ≠ reserved)
  | None, None => True
  | _, _ => False
  end.

Definition kept (s s' : Schedule) : Prop := blockingTaskOf s' = blockingTaskOf s ∧ receiptKept s s'.

Lemma receiptKept_same s s' : currentExecution s' = currentExecution s → receiptKept s s'.
Proof. unfold receiptKept. intros ->. by destruct (currentExecution s). Qed.

Lemma kept_same s s' : latestExecution s' = latestExecution s → currentExecution s' = currentExecution s → kept s s'.
Proof. intros Hl Hc. split; [unfold blockingTaskOf; by rewrite Hl|by apply receiptKept_same]. Qed.

Lemma change_kept e l s s' : g_runs l = false → rowChange e l s s' → kept s (touched e s').
Proof.
  intros Hl Hc. revert Hl. destruct Hc; intros Hl;
    try congruence;
    try (apply kept_same; unfold touched, switched, setHold, clearedRow, updatedSchedule, withTriggers, withPause;
         cbn; repeat case_match; reflexivity).
  - match goal with H : latestExecution _ = _ |- _ => unfold kept, receiptKept, blockingTaskOf, touched, endedRow, withPause; destruct (autoPausePatch _ _ _); cbn; rewrite H end;
      destruct (currentExecution _); done.
  - match goal with H : openReceipt ?s = _ |- kept ?s _ => unfold openReceipt in H; destruct (currentExecution s) as [r0|] eqn:E;
      cbn in H; [|done]; unfold kept, receiptKept, blockingTaskOf, touched, lostReceiptRow; cbn; rewrite E; destruct (latestExecution s) end;
      by case_match; simplify_eq.
  - match goal with H : latestExecution ?s = _ |- _ => unfold kept, receiptKept, blockingTaskOf, touched, lostTaskRow; cbn; rewrite H; destruct (currentExecution s) end;
      done.
Qed.

(** A relation of the rows before and after, where a row may go and none comes. *)
Definition rowRel (R : Schedule → Schedule → Prop) (o o' : option Schedule) : Prop :=
  match o, o' with Some s, Some s' => R s s' | _, None => True | None, Some _ => False end.

Abbreviation rowKept := (rowRel kept).
Abbreviation rowSteady := (rowRel receiptKept).

Lemma rowRel_refl (R : Schedule → Schedule → Prop) o : (∀ s, R s s) → rowRel R o o.
Proof. intros H. destruct o; [apply H|done]. Qed.

Lemma receiptKept_refl s : receiptKept s s.
Proof. by apply receiptKept_same. Qed.

Lemma kept_refl s : kept s s.
Proof. by apply kept_same. Qed.

Lemma kept_trans a b c : kept a b → kept b c → kept a c.
Proof.
  unfold kept, receiptKept. intros [H1 H2] [H3 H4]. split; [congruence|].
  destruct (currentExecution a), (currentExecution b), (currentExecution c); try done. naive_solver congruence.
Qed.

Lemma rowKept_trans a b c : rowKept a b → rowKept b c → rowKept a c.
Proof. destruct a, b, c; cbn; try done. apply kept_trans. Qed.

Lemma kept_steady o o' : rowKept o o' → rowSteady o o'.
Proof. destruct o, o'; try done. by intros [_ ?]. Qed.

Lemma openFor_steady r o o' : rowSteady o o' → openFor r o → openFor r o'.
Proof.
  intros Hk Ho s ->. destruct o as [s0|]; [|done]. destruct (Ho s0) as (r' & E & H1 & H2); [done|]. cbn in Hk. unfold receiptKept in Hk.
  rewrite E in Hk. destruct (currentExecution s) as [r2|]; [|done]. exists r2. naive_solver congruence.
Qed.

Lemma closedFor_steady r o o' : rowSteady o o' → closedFor r o → closedFor r o'.
Proof.
  intros Hk Ho s ->. destruct o as [s0|]; [|done]. destruct (Ho s0) as (r' & E & H1 & H2); [done|]. cbn in Hk. unfold receiptKept in Hk.
  rewrite E in Hk. destruct (currentExecution s) as [r2|]; [|done]. exists r2. naive_solver congruence.
Qed.

(** What others do to the rows. *)
Definition quiet (R : Schedule → Schedule → Prop) (v v' : svc) : Prop :=
  rows_ok (rows v) → rows_ok (rows v') ∧ ∀ k, rowRel R (row k v) (row k v').

Lemma quiet_refl R v v' : (∀ s, R s s) → rows v' = rows v → quiet R v v'.
Proof. intros HR. unfold quiet, row. intros ->. intros H. split; [done|]. intros k. by apply rowRel_refl. Qed.

Lemma withSchedule_quiet R i v k :
  (∀ s, R s s) → (∀ s, row i v = Some s → id s = i → quiet R v (k s).2) → quiet R v (withSchedule i v k).2.
Proof.
  intros HR H Hok. unfold withSchedule. destruct (get i (rows v)) as [s|] eqn:E; [|by apply quiet_refl].
  apply H; [done| |done]. by apply (proj2 Hok).
Qed.

Lemma commit_quiet (R : Schedule → Schedule → Prop) e i s s' v :
  (∀ s, R s s) → row i v = Some s → id s = i → id s' = id s → R s (touched e s') → quiet R v (commit e (put e s' v)).2.
Proof.
  intros HR Hs Hi Hid Hc Hok. destruct (commit_only e i s s' v Hs Hi Hid Hok) as (H1 & H2 & _). split; [done|]. intros k.
  destruct (decide (k = i)) as [->|Hk]; [by rewrite Hs, (commit_row e i s)|]. rewrite H2 by done. by apply rowRel_refl.
Qed.

Lemma missed_quiet x o why e i f m v : quiet receiptKept v (recordMissed x o why e i f m v).2.
Proof.
  apply withSchedule_quiet; [apply receiptKept_refl|]. intros s Hs Hi.
  apply (commit_quiet receiptKept e i s); try done; [apply receiptKept_refl|by apply receiptKept_same].
Qed.

Lemma suppress_quiet e i v : quiet kept v (suppressCatchUp e i v).2.
Proof.
  apply withSchedule_quiet; [apply kept_refl|]. intros s Hs Hi. apply (commit_quiet kept e i s); try done; [apply kept_refl|by apply kept_same].
Qed.

Lemma overlap_quiet e uuid i x v : quiet kept v (recordOverlapSkipped e uuid i x v).2.
Proof.
  apply withSchedule_quiet; [apply kept_refl|]. intros s Hs Hi. apply (commit_quiet kept e i s); try done; [apply kept_refl|by apply kept_same].
Qed.

Lemma limit_quiet e i v : quiet kept v (markCronLimitExhausted e i v).2.
Proof.
  apply withSchedule_quiet; [apply kept_refl|]. intros s Hs Hi. destruct (negb _); [by apply quiet_refl; [apply kept_refl|]|].
  destruct (_ && _); [by apply quiet_refl; [apply kept_refl|]|]. apply (commit_quiet kept e i s); try done; [apply kept_refl|by apply kept_same].
Qed.

(** What is called elsewhere, but for a creation. *)
Lemma elsewhere_quiet e o v : g_runs (grantOf o) = false → quiet kept v (Service.exec isValidCron dateParse e o v).
Proof.
  intros Ho Hok. destruct (exec_tracks isValidCron dateParse e o v Hok) as [H1 H2]. split; [done|]. intros k. specialize (H2 k).
  induction H2 as [a|a b c Hab _ IH]; [apply rowRel_refl, kept_refl|]. eapply rowKept_trans; [|exact IH].
  destruct Hab as [s s' Hc| |]; [by eapply change_kept|congruence|by destruct o0].
Qed.

Lemma create_rows e uuid x i v : rows_ok (rows v) →
  rows_ok (rows (createDefinition isValidCron e uuid x i v).2) ∧
  ∀ k, k ≠ uuid → row k (createDefinition isValidCron e uuid x i v).2 = row k v.
Proof.
  intros Hok. split; [by apply (exec_tracks isValidCron dateParse e (Create uuid x i) v)|]. intros k Hk.
  unfold createDefinition, create. destruct x; [done|]. destruct (createError isValidCron i); [done|].
  unfold row. rewrite commit_rows. cbn [rows]. rewrite putRow_get. by rewrite decide_False.
Qed.

(** ** The receipt of a fire, in each of its phases *)

Definition jobOf (p : phase) : option job :=
  match p with
  | Reserving j _ | Identifying j | Probing j _ _ | Drifting j _ | Refreshing j _ _ | Preparing j _ _ _ _
  | Launching j _ _ _ | Binding j _ _ _ _ _ => Some j
  | Settling j _ => j
  end.

(** Its receipt is closed from the moment its outcome is recorded, and open before; a fire that
    threw may have left it open. *)
Definition phaseOk (i : string) (o : option Schedule) (p : phase) : Prop :=
  (∀ j, jobOf p = Some j → jobId j = i) ∧
  match p with
  | Binding j _ _ _ _ _ | Settling (Some j) (Returned _) => closedFor (j_receipt j) o
  | Settling _ _ => True
  | Reserving j _ | Identifying j | Probing j _ _ | Drifting j _ | Refreshing j _ _ | Preparing j _ _ _ _
  | Launching j _ _ _ => openFor (j_receipt j) o
  end.

Lemma phaseOk_steady i o o' p : rowSteady o o' → phaseOk i o p → phaseOk i o' p.
Proof.
  intros Hk [H1 H2]. split; [done|]. destruct p as [| | | | | | | |[j|] []]; try done; first [by eapply openFor_steady|by eapply closedFor_steady].
Qed.

(** What a step of a fire leaves of the rest. *)
Definition sameFires (w w' : world) : Prop :=
  w_fires w' = w_fires w ∧ w_inFlight w' = w_inFlight w ∧ w_began w' = w_began w.

Definition stepOk (i : string) (w : world) (r : world * phase) : Prop :=
  only i (w_svc w) (w_svc r.1) ∧ phaseOk i (row i (w_svc r.1)) r.2 ∧ sameFires w r.1.

Section step.
Context (d : deps) (i : string) (w : world) (j : job).
Context (Hok : rows_ok (rows (w_svc w))) (Hi : jobId j = i).

Lemma stay_ok p : jobOf p = Some j → phaseOk i (row i (w_svc w)) p → stepOk i w (w, p).
Proof. intros Hj Hp. split_and!; [by apply only_refl|done|done]. Qed.

(** An outcome that is recorded ends the fire, whatever it then returns. *)
Lemma outcome_ok o why m x (w1 : world) (f : option svcError → ended) :
  w_svc w1 = w_svc w → sameFires w w1 → openFor (j_receipt j) (row i (w_svc w)) →
  let r := markExecutionOutcome (d_env d) (jobId j) (rx_id (j_receipt j)) o why m x (w_svc w1) in
  stepOk i w (onSvc r.2 w1, Settling (Some j) (f r.1)).
Proof.
  intros Hw Hs Ho r. subst r. rewrite Hw, Hi. split_and!; [apply markOutcome_only| |done].
  split; [intros j' [= <-]; done|]. destruct (f _); [|done]. by apply markOutcome_closed.
Qed.

Lemma endWith_ok o why m x error w1 :
  w_svc w1 = w_svc w → sameFires w w1 → openFor (j_receipt j) (row i (w_svc w)) → stepOk i w (endWith d j o why m x error w1).
Proof.
  intros Hw Hs Ho. unfold endWith. rewrite (surjective_pairing (markExecutionOutcome _ _ _ _ _ _ _ _)).
  apply (outcome_ok o why (Some m) x w1 (λ y, match y with None => Returned (failed error) | Some y => Threw (errorText d y) end)); done.
Qed.

Lemma recordFireOutcome_ok o why m x :
  openFor (j_receipt j) (row i (w_svc w)) → stepOk i w (recordFireOutcome d j o why m x w).
Proof.
  intros Ho. unfold recordFireOutcome. rewrite (surjective_pairing (markExecutionOutcome _ _ _ _ _ _ _ _)).
  apply (outcome_ok o why (Some m) x w (λ y, match y with None => Returned (failed m)
    | Some y => if isExecutionReceiptNotFoundError y then Returned (failed m) else Threw (errorText d y) end)); done.
Qed.

Lemma recordFireFailure_ok x hint : openFor (j_receipt j) (row i (w_svc w)) → stepOk i w (recordFireFailure d j x hint w).
Proof. intros Ho. unfold recordFireFailure. destruct (th_quota x); by apply recordFireOutcome_ok. Qed.

Lemma park_ok from w1 :
  w_svc w1 = w_svc w → sameFires w w1 → openFor (j_receipt j) (row i (w_svc w)) → stepOk i w (parkUnavailableAgent d j from w1).
Proof. intros. unfold parkUnavailableAgent. destruct (_ && _); by apply endWith_ok. Qed.

Lemma passDrain_ok : openFor (j_receipt j) (row i (w_svc w)) → stepOk i w (passDrain d j w).
Proof.
  intros Ho. unfold passDrain. destruct (d_isAccepting d); [|destruct (d_isServerRestarting d); by apply endWith_ok].
  apply stay_ok; [done|]. split; [by intros j' [= <-]|done].
Qed.

Lemma afterReserve_ok : openFor (j_receipt j) (row i (w_svc w)) → stepOk i w (afterReserve d j w).
Proof.
  intros Ho. unfold afterReserve. destruct (blockingTaskOf _); [|by apply passDrain_ok].
  destruct (negb _); [by apply passDrain_ok|]. destruct (bool_decide _); by apply endWith_ok.
Qed.

Lemma afterIdentity_ok pid declared defaults :
  openFor (j_receipt j) (row i (w_svc w)) → stepOk i w (afterIdentity d j pid declared defaults w).
Proof.
  intros Ho. assert (Hj : ∀ p, jobOf p = Some j → (∀ j', jobOf p = Some j' → jobId j' = i)) by (intros p -> j' [= <-]; done).
  unfold afterIdentity. destruct (KillSwitch.mayAutonomousActuate _ _ _ _ _ _); try by apply endWith_ok.
  all: destruct (Probe.resolveScheduleProbe _ _ _); apply stay_ok; try done; (split; [by apply Hj|done]).
Qed.

Lemma afterProbe_ok pid spec r : openFor (j_receipt j) (row i (w_svc w)) → stepOk i w (afterProbe d j pid spec r w).
Proof.
  intros Ho. unfold afterProbe. destruct (Probe.shouldEscalateProbe _ _).
  { apply stay_ok; [done|]. split; [by intros j' [= <-]|done]. }
  rewrite (surjective_pairing (markProbeCompleted _ _ _ _ _ _)), Hi. split_and!; [apply markProbe_only| |done].
  split; [by intros j' [= <-]|]. cbn [snd fst onSvc w_svc]. destruct (markProbeCompleted _ _ _ _ _ _).1; [done|]. by apply markProbe_closed.
Qed.

Lemma afterDrift_ok pid drift : openFor (j_receipt j) (row i (w_svc w)) → stepOk i w (afterDrift d j pid drift w).
Proof.
  intros Ho. unfold afterDrift. destruct (inspected _ _) as [x|]; [destruct (_ && _); [by apply endWith_ok|]|];
    (apply stay_ok; [done|]; split; [by intros j' [= <-]|done]).
Qed.

Lemma request_ok q w1 p :
  w_svc w1 = w_svc w → sameFires w w1 → jobOf p = Some j → phaseOk i (row i (w_svc w)) p → stepOk i w (addRequest q w1, p).
Proof. intros Hw Hs Hj Hp. unfold stepOk. cbn. rewrite Hw. split_and!; [by apply only_refl|done|done]. Qed.

Lemma armLoop_ok pid drift : openFor (j_receipt j) (row i (w_svc w)) → stepOk i w (armLoop d j pid drift w).
Proof.
  intros Ho. unfold armLoop. destruct (match w_arbiter w with None => _ | Some a => _ end) as [a [x|]]; [by apply endWith_ok|].
  destruct (negb _); [by apply endWith_ok|].
  destruct (resolveScheduleAgent _ _ _) as [[]|]; try (by apply park_ok); (apply request_ok; [done|done|done|]; split; [by intros j' [= <-]|done]).
Qed.

Lemma afterRefresh_ok pid drift : openFor (j_receipt j) (row i (w_svc w)) → stepOk i w (afterRefresh d j pid drift w).
Proof.
  intros Ho. unfold afterRefresh. destruct (hasScheduleLoopConfig _); [by apply armLoop_ok|].
  destruct (resolveScheduleAgent _ _ _) as [[]|]; try (by apply park_ok); (apply stay_ok; [done|]; split; [by intros j' [= <-]|done]).
Qed.

Lemma bind_ok l x looped attempt w1 :
  w_svc w1 = w_svc w → sameFires w w1 → stepOk i w (bindAttempt d j l x looped attempt w1).
Proof.
  intros Hw Hs. unfold bindAttempt. rewrite (surjective_pairing (markExecutionAccepted _ _ _ _ _ _ _ _)), Hw, Hi.
  split_and!; [apply markAccepted_only| |done]. split; [by intros j' [= <-]|]. by apply markAccepted_closed.
Qed.

Lemma hold_same o w1 : w_svc (holdLease d i o w1) = w_svc w1 ∧ sameFires w1 (holdLease d i o w1).
Proof.
  unfold holdLease. destruct (w_arbiter w1); [|done]. destruct (truthyStr o); [|done].
  destruct (Arbiter.tryAcquire _ _ _ _ _ _) as [a' [|]]; done.
Qed.

Lemma afterBind_ok l x looped attempt threw :
  closedFor (j_receipt j) (row i (w_svc w)) → stepOk i w (afterBind d j l x looped attempt threw w).
Proof.
  intros Hc. unfold afterBind. destruct (_ && _); [by apply bind_ok|]. rewrite Hi.
  set (w1 := if looped then _ else _). assert (H : w_svc w1 = w_svc w ∧ sameFires w w1) by (subst w1; destruct looped; [apply hold_same|done]).
  destruct H as [H1 H2]. unfold stepOk. cbn [fst snd]. rewrite H1. split_and!; [by apply only_refl| |done]. split; [by intros j' [= <-]|done].
Qed.
End step.

Lemma resume_ok d i x p w r :
  rows_ok (rows (w_svc w)) → phaseOk i (row i (w_svc w)) p → resume d x p w = Some r → stepOk i w r.
Proof.
  intros Hok [Hj Hp] H. destruct p as [j [m|]|j|j pid spec|j pid|j pid drift|j pid drift res avoid|j drift res looped|j l a looped n threw|j e];
    destruct x; cbn in H; simplify_eq; specialize (Hj j eq_refl);
    first [by apply afterReserve_ok|by apply afterIdentity_ok|by apply afterProbe_ok|by apply afterDrift_ok|by apply afterRefresh_ok
          |by apply recordFireFailure_ok|by apply afterBind_ok|by apply bind_ok
          |apply request_ok with j; [done|done|done|split; [by intros j' [= <-]|done]]
          |apply stay_ok with j; [done|split; [by intros j' [= <-]|done]]].
Qed.

(** ** The invariant of the runner *)

(** One fire of a schedule at a time is in flight, under its marker, and its receipt is the one
    of the row. *)
Record Inv (w : world) : Prop := {
  inv_rows : rows_ok (rows (w_svc w));
  inv_old n f : mget n (w_fires w) = Some f → (n < w_began w)%nat;
  inv_marked n f : mget n (w_fires w) = Some f → mhas (f_scheduleId f) (w_inFlight w) = true;
  inv_marker i : mhas i (w_inFlight w) = true → ∃ n f, mget n (w_fires w) = Some f ∧ f_scheduleId f = i;
  inv_one n m f g : mget n (w_fires w) = Some f → mget m (w_fires w) = Some g → f_scheduleId f = f_scheduleId g → n = m;
  inv_phase n f : mget n (w_fires w) = Some f → phaseOk (f_scheduleId f) (row (f_scheduleId f) (w_svc w)) (f_phase f)
}.

Lemma Inv_steady w w' :
  Inv w → sameFires w w' → rows_ok (rows (w_svc w')) →
  (∀ k, mhas k (w_inFlight w) = true → rowSteady (row k (w_svc w)) (row k (w_svc w'))) → Inv w'.
Proof.
  intros [] (Hf & Hm & Hb) Hok Hk. split; rewrite ?Hf, ?Hm, ?Hb; [done|done|done|done|done|]. intros n f Hn.
  eapply phaseOk_steady; [by apply Hk; eapply inv_marked0|by apply inv_phase0 with n].
Qed.

Lemma sameFires_trans w1 w2 w3 : sameFires w1 w2 → sameFires w2 w3 → sameFires w1 w3.
Proof. unfold sameFires. intros (-> & -> & ->) (-> & -> & ->). done. Qed.

Lemma Inv_quietly R w v w' :
  (∀ s s', R s s' → receiptKept s s') → Inv w → quiet R (w_svc w) v → w_svc w' = v → sameFires w w' → Inv w'.
Proof.
  intros HR HI Hq <- Hs. destruct (Hq (inv_rows w HI)) as [H1 H2]. apply (Inv_steady w); [done|done|done|].
  intros k _. specialize (H2 k). destruct (row k (w_svc w)), (row k (w_svc w')); try done. by apply HR.
Qed.

Lemma Inv_sameFires w w' : Inv w → rows (w_svc w') = rows (w_svc w) → sameFires w w' → Inv w'.
Proof.
  intros HI Hr Hs. apply (Inv_quietly receiptKept w (w_svc w')); try done. apply quiet_refl; [apply receiptKept_refl|done].
Qed.

Lemma conclude_same d o i name_ x w :
  rows (w_svc (conclude d o i name_ x w)) = rows (w_svc w) ∧ sameFires w (conclude d o i name_ x w).
Proof.
  unfold conclude. destruct o, x; try done. destruct (hold_same d i (rr_taskId r) w) as [H1 H2]. by rewrite H1.
Qed.

Lemma Inv_conclude d o i name_ x w : Inv w → Inv (conclude d o i name_ x w).
Proof. intros HI. destruct (conclude_same d o i name_ x w). by apply (Inv_sameFires w). Qed.

Lemma reserve_only d rid token s t f dec i v :
  row i v = Some s → id s = i →
  only i v (reserveExecution d rid token s t f dec v).2 ∧
  (rows_ok (rows v) → openFor (newReceipt d rid token s t f (orElse dec (defaultDecision t))) (row i (reserveExecution d rid token s t f dec v).2)).
Proof.
  intros Hs Hi. unfold reserveExecution. split.
  - eapply only_rows; [apply persist_rows|]. by apply (put_only d i s).
  - intros _. unfold row. rewrite persist_rows. change (get i _) with (row i (put d (reservedRow d rid token t f dec s) v)).
    rewrite put_row, decide_True by done. intros s' [= <-]. by eexists.
Qed.

Lemma Inv_admit d s t next dec op_ o w : Inv w → mhas (id s) (w_inFlight w) = false → Inv (admitFire d s t next dec op_ o w).
Proof.
  intros HI Hf. assert (Hadd : ∀ v p, only (id s) (w_svc w) v → phaseOk (id s) (row (id s) v) p →
    Inv (addFire s o p (onSvc v {| w with w_inFlight := mset (id s) tt (w_inFlight w) |}))).
  { intros v p Hv Hp. destruct HI as [Hr Ho Hm Hm' H1 Hph]. destruct (Hv Hr) as (Hok & Hne & _).
    assert (Hnew : ∀ n f, mget n (w_fires w) = Some f → f_scheduleId f ≠ id s ∧ n ≠ w_began w).
    { intros n f Hn. split; [intros E; specialize (Hm n f Hn); congruence|]. specialize (Ho n f Hn). lia. }
    assert (Hcase : ∀ n f, mget n (mset (w_began w) (mkFire (id s) (name s) o p) (w_fires w)) = Some f →
      (n = w_began w ∧ f = mkFire (id s) (name s) o p) ∨ mget n (w_fires w) = Some f).
    { intros n f. rewrite mget_mset. case_decide; [intros [= <-]; by left|by right]. }
    split; cbn.
    - done.
    - intros n f [[-> ->]|Hn]%Hcase; [lia|]. specialize (Ho n f Hn). lia.
    - intros n f [[-> ->]|Hn]%Hcase; unfold mhas; rewrite mget_mset; case_decide; try done. by apply (Hm n f).
    - intros i. unfold mhas. rewrite mget_mset. case_decide as E.
      + intros _. exists (w_began w), (mkFire (id s) (name s) o p). by rewrite mget_mset_eq.
      + intros Hi. destruct (Hm' i Hi) as (n & f & Hn & Hid). exists n, f. split; [|done]. rewrite mget_mset_ne; [done|].
        by apply (Hnew n f).
    - intros n m f g [[-> ->]|Hn]%Hcase [[-> ->]|Hm2]%Hcase; cbn; intros E; try done.
      + destruct (Hnew m g Hm2). congruence.
      + destruct (Hnew n f Hn). congruence.
      + by eapply H1.
    - intros n f [[-> ->]|Hn]%Hcase; cbn; [done|]. rewrite Hne by (by eapply Hnew). by apply (Hph n). }
  unfold admitFire. cbn [w_svc]. destruct (get (id s) (rows (w_svc w))) as [fresh|] eqn:E.
  - pose proof (rows_ok_id _ _ _ (inv_rows w HI) E) as Hid.
    destruct (reserve_only (d_env d) (d_uuid d) (d_token d) fresh t (toISOString <$> next) (Some dec) (id s) (w_svc w) E Hid) as [H1 H2].
    destruct (reserveExecution _ _ _ _ _ _ _ _) as [x v]. apply Hadd; [done|]. split; [intros j [= <-]; exact Hid|].
    apply H2. by apply inv_rows.
  - apply (Hadd (w_svc w)); [by apply only_refl|]. by split.
Qed.

Lemma Inv_fire d s t next dec op_ o w : Inv w → Inv (fire d s t next dec op_ o w).
Proof.
  intros HI. unfold fire. destruct (archived s); [by apply Inv_conclude|]. destruct (_ && _).
  - rewrite (surjective_pairing (markCronLimitExhausted _ _ _)). apply Inv_conclude.
    apply (Inv_quietly kept w (markCronLimitExhausted (d_env d) (id s) (w_svc w)).2); [by intros ?? []|done|apply limit_quiet|done|done].
  - destruct (mhas (id s) (w_inFlight w)) eqn:E; [|by apply Inv_admit]. apply Inv_conclude.
    eapply (Inv_quietly kept w); [by intros ?? []|done|apply overlap_quiet|reflexivity|done].
Qed.

Lemma Inv_goOn d n x w : Inv w → Inv (goOn d n x w).
Proof.
  intros HI. unfold goOn. destruct (mget n (w_fires w)) as [f|] eqn:Hn; [|done]. cbn. destruct (resume d x (f_phase f) w) as [[w' p]|] eqn:E; [|done].
  destruct HI as [Hr Ho Hm Hm' H1 Hph].
  destruct (resume_ok d (f_scheduleId f) x (f_phase f) w (w', p) Hr (Hph n f Hn) E) as (Hv & Hp & Hf & Hi & Hb). cbn in Hv, Hp, Hf, Hi, Hb.
  destruct (Hv Hr) as (Hok & Hne & _).
  assert (Hcase : ∀ m g, mget m (mupd (λ f, {| f with f_phase := p |}) n (w_fires w)) = Some g →
    (m = n ∧ g = {| f with f_phase := p |}) ∨ (m ≠ n ∧ mget m (w_fires w) = Some g)).
  { intros m g. rewrite mget_mupd. case_decide as Em; [subst m; rewrite Hn; intros [= <-]; by left|by right]. }
  split; cbn; rewrite ?Hf, ?Hi, ?Hb.
  - done.
  - intros m g [[-> ->]|[_ Hg]]%Hcase; by eapply Ho.
  - intros m g [[-> ->]|[_ Hg]]%Hcase; [by apply (Hm n f)|by apply (Hm m g)].
  - intros i Hi'. destruct (Hm' i Hi') as (m & g & Hg & Hid). destruct (decide (m = n)) as [->|Hmn].
    + exists n, {| g with f_phase := p |}. rewrite mget_mupd, decide_True, Hg by done. done.
    + exists m, g. by rewrite mget_mupd_ne.
  - intros m k g h [[-> ->]|[? Hg]]%Hcase [[-> ->]|[? Hh]]%Hcase Heq; try done; cbn in Heq; [by eapply H1|by eapply H1|by eapply H1].
  - intros m g [[-> ->]|[Hmn Hg]]%Hcase; cbn; [done|]. rewrite Hne; [by apply (Hph m)|]. intros Heq. apply Hmn. by eapply H1.
Qed.

Lemma Inv_settled d n w : Inv w → Inv (settle d n w).
Proof.
  intros HI. unfold settle. destruct (mget n (w_fires w)) as [[i name_ o []]|] eqn:Hn; try done. apply Inv_conclude.
  destruct HI as [Hr Ho Hm Hm' H1 Hph].
  assert (Hcase : ∀ m g, mget m (mdel n (w_fires w)) = Some g → m ≠ n ∧ mget m (w_fires w) = Some g ∧ f_scheduleId g ≠ i).
  { intros m g. rewrite mget_mdel. case_decide as E; [done|]. intros Hg. split_and!; [done|done|]. intros Hi. apply E. by eapply H1. }
  split; cbn.
  - done.
  - intros m g (_ & Hg & _)%Hcase. by eapply Ho.
  - intros m g (_ & Hg & Hi)%Hcase. unfold mhas. rewrite mget_mdel_ne by done. by apply (Hm m g).
  - intros k. unfold mhas. rewrite mget_mdel. case_decide as E; [done|]. intros Hk. destruct (Hm' k Hk) as (m & g & Hg & Hid).
    exists m, g. split; [|done]. rewrite mget_mdel_ne; [done|]. intros ->. rewrite Hn in Hg. by simplify_eq.
  - intros m k g h (_ & Hg & _)%Hcase (_ & Hh & _)%Hcase. by apply H1.
  - intros m g (_ & Hg & _)%Hcase. by apply (Hph m).
Qed.

Lemma Inv_inRound R label d r w :
  (∀ s s', R s s' → receiptKept s s') → quiet R (w_svc w) r.2 → Inv w → Inv (inRound label d r w).
Proof.
  intros HR Hq HI. assert (H : Inv (onSvc r.2 w)) by by eapply (Inv_quietly R w).
  destruct r as [[x|] v]; [by apply (Inv_sameFires (onSvc v w))|done].
Qed.

Lemma kept_receipt s s' : kept s s' → receiptKept s s'.
Proof. by intros []. Qed.

Lemma Inv_tickVisit d w : Inv w → Inv (tickVisit d w).
Proof.
  intros HI. unfold tickVisit. destruct (w_tick w) as [t|]; [|done]. destruct (tk_rest t) as [|s l]; [done|].
  set (v := judge _ _ _). set (w1 := {| w with w_tick := Some (judged v s l t) |}).
  assert (H1 : Inv w1) by by apply (Inv_sameFires w). destruct v; [|done|done|by apply Inv_fire].
  apply (Inv_inRound kept); [apply kept_receipt|destruct (isSome _); apply limit_quiet|]. destruct (isSome _); [|done].
  by apply (Inv_sameFires w1).
Qed.

Lemma Inv_catchUp d mode now s w : Inv w → Inv (catchUpVisit d mode now s w).
Proof.
  intros HI. pose proof kept_receipt as Hk. unfold catchUpVisit. destruct (negb (enabled s)); [done|].
  destruct (isTriggerLimitExhausted s); [by apply (Inv_inRound kept); [|apply limit_quiet|]|].
  destruct (computeNextRunFor s) as [next|]; [|done].
  destruct (_ && _); [|destruct (next <? _); [|done]]; destruct mode;
    try (by apply (Inv_inRound kept); [|apply suppress_quiet|]); try (by apply (Inv_inRound receiptKept); [|apply missed_quiet|]).
  unfold catchUpFire. destruct (w_arbiter w) as [a|]; [|by apply Inv_fire].
  destruct (Arbiter.evaluate _ _ _ _ _) as [a' [x|]]; [|by apply Inv_fire, (Inv_sameFires w)].
  apply (Inv_inRound receiptKept); [done|apply missed_quiet|by apply (Inv_sameFires w)].
Qed.

Lemma Inv_perform d a w : Inv w → allowed a w → Inv (perform d a w).
Proof.
  intros HI Ha. destruct a as [i|i|n x|n| | | |mode now s|o]; cbn [perform].
  - unfold runNow. destruct (get _ _); [by apply Inv_fire|done].
  - unfold forceRefire. destruct (get _ _); [|done]. destruct (mhas _ _); [done|by apply Inv_fire].
  - by apply Inv_goOn.
  - by apply Inv_settled.
  - unfold tickStart. destruct (w_tick w); [done|]. by apply (Inv_sameFires w).
  - by apply Inv_tickVisit.
  - unfold tickEnd. destruct (w_tick w) as [[[|? ?] ? ? ?]|]; try done. by apply (Inv_sameFires w).
  - by apply Inv_catchUp.
  - assert (Hq : g_runs (grantOf o) = false → Inv (onSvc (Service.exec isValidCron dateParse (d_env d) o (w_svc w)) w)).
    { intros Hg. eapply (Inv_quietly kept w); [apply kept_receipt|done|by apply elsewhere_quiet|done|done]. }
    destruct o as [uuid x i| | | | | | | | | | | | | | | | | | | |]; try (apply Hq; exact Ha). clear Hq. cbn [allowed] in Ha.
    destruct (create_rows (d_env d) uuid x i (w_svc w) (inv_rows w HI)) as [H1 H2].
    apply (Inv_steady w); [done|done|done|]. intros k Hk. cbn [onSvc w_svc Service.exec]. rewrite H2 by congruence. apply rowRel_refl, receiptKept_refl.
Qed.

Lemma reach_Inv w : reach w → Inv w.
Proof.
  induction 1 as [v a Hv|w d a _ IH Ha]; [|by apply Inv_perform]. by split.
Qed.

(** C19: a fire accounts for itself: whatever happens meanwhile, at most one fire of a schedule is
    under way, and when one that reserved a receipt returns, with a task or with a failure, either
    the schedule is gone or the receipt of that very fire is the current one and is closed. Only
    the runner reserves, accepts and settles executions. A fire that throws, because a write of the
    store failed or the project could not be read, may leave its receipt open. *)
Theorem fires_accounted w n f j r :
  reach w → mget n (w_fires w) = Some f → f_phase f = Settling (Some j) (Returned r) →
  (∀ m g, mget m (w_fires w) = Some g → f_scheduleId g = f_scheduleId f → m = n) ∧
  (∀ s, row (f_scheduleId f) (w_svc w) = Some s →
     ∃ x, currentExecution s = Some x ∧ rx_id x = rx_id (j_receipt j) ∧ rx_status x ≠ reserved).
Proof.
  intros Hw%reach_Inv Hn Hp. split; [intros m g Hm Hid; by eapply (inv_one w Hw)|].
  pose proof (inv_phase w Hw n f Hn) as [_ H]. rewrite Hp in H. exact H.
Qed.

(** ** One run at a time *)

(** The requests for the launch of a schedule. *)
Definition launchesOf (i : string) (w : world) : list LaunchRequest :=
  List.filter (λ q, String.eqb (lq_scheduleId q) i) (w_requests w).

(** No fire of the schedule is past the gate of the run [t] before it. *)
Definition gated (i t : string) (w : world) : Prop :=
  (∀ s, row i (w_svc w) = Some s → blockingTaskOf s = Some t) ∧
  ∀ n f, mget n (w_fires w) = Some f → f_scheduleId f = i →
    match f_phase f with
    | Reserving j _ => blockingTaskOf (j_schedule j) = Some t
    | Settling _ _ => True
    | _ => False
    end.

(** A step that leaves the fires, the requests, and the run of the schedule. *)
Definition undisturbed (i : string) (w w' : world) : Prop :=
  w_fires w' = w_fires w ∧ w_requests w' = w_requests w ∧
  ∀ s', row i (w_svc w') = Some s' → ∃ s, row i (w_svc w) = Some s ∧ blockingTaskOf s' = blockingTaskOf s.

Definition stays (i t : string) (w w' : world) : Prop := gated i t w' ∧ launchesOf i w' = launchesOf i w.

Lemma undisturbed_stays i t w w' : gated i t w → undisturbed i w w' → stays i t w w'.
Proof.
  intros [H1 H2] (Hf & Hq & Hr). split; [|unfold launchesOf; by rewrite Hq]. split; [|by rewrite Hf].
  intros s' (s & Hs & ->)%Hr. by apply H1.
Qed.

Lemma undisturbed_rows i w w' :
  w_fires w' = w_fires w → w_requests w' = w_requests w → row i (w_svc w') = row i (w_svc w) → undisturbed i w w'.
Proof. intros ? ? Hr. split_and!; [done|done|]. rewrite Hr. eauto. Qed.

Lemma undisturbed_quiet i w v : Inv w → quiet kept (w_svc w) v → undisturbed i w (onSvc v w).
Proof.
  intros HI Hq. destruct (Hq (inv_rows w HI)) as [_ Hr]. split_and!; [done|done|]. cbn [onSvc w_svc]. intros s' Hs'. specialize (Hr i).
  rewrite Hs' in Hr. destruct (row i (w_svc w)) as [s|]; [|done]. exists s. by destruct Hr.
Qed.

Lemma undisturbed_only i k w v : Inv w → k ≠ i → only k (w_svc w) v → undisturbed i w (onSvc v w).
Proof. intros HI Hk Ho. destruct (Ho (inv_rows w HI)) as (_ & H & _). apply undisturbed_rows; [done|done|]. by apply H. Qed.

Lemma undisturbed_trans i a b c : undisturbed i a b → undisturbed i b c → undisturbed i a c.
Proof.
  intros (H1 & H2 & H3) (H4 & H5 & H6). split_and!; [congruence|congruence|]. intros s (s1 & (s2 & ? & ?)%H3 & ?)%H6. exists s2. split; congruence.
Qed.

Lemma conclude_undisturbed i d o k name_ x w : undisturbed i w (conclude d o k name_ x w).
Proof.
  destruct (conclude_same d o k name_ x w) as [H1 H2]. apply undisturbed_rows; [apply H2| |unfold row; by rewrite H1].
  unfold conclude, holdLease. destruct o, x; try done. destruct (w_arbiter w); [|done]. destruct (truthyStr _); [|done].
  by destruct (Arbiter.tryAcquire _ _ _ _ _ _) as [? [|]].
Qed.

Lemma inRound_undisturbed i label d r w : undisturbed i w (onSvc r.2 w) → undisturbed i w (inRound label d r w).
Proof. intros H. destruct r as [[x|] v]; [|done]. eapply undisturbed_trans; [exact H|]. by apply undisturbed_rows. Qed.

Lemma gated_admit i t d s tr next dec op_ o w : Inv w → gated i t w → stays i t w (admitFire d s tr next dec op_ o w).
Proof.
  intros HI [H1 H2].
  assert (Hadd : ∀ v p, (∀ s', row i v = Some s' → blockingTaskOf s' = Some t) →
    (id s = i → match p with Reserving j _ => blockingTaskOf (j_schedule j) = Some t | Settling _ _ => True | _ => False end) →
    stays i t w (addFire s o p (onSvc v {| w with w_inFlight := mset (id s) tt (w_inFlight w) |}))).
  { intros v p Hv Hp. split; [|done]. split; [done|]. intros n f. cbn. rewrite mget_mset. case_decide; [intros [= <-]; cbn; apply Hp|by apply H2]. }
  unfold admitFire. cbn [w_svc]. destruct (get (id s) (rows (w_svc w))) as [fresh|] eqn:E; [|by apply (Hadd (w_svc w))].
  pose proof (rows_ok_id _ _ _ (inv_rows w HI) E) as Hid.
  destruct (reserve_only (d_env d) (d_uuid d) (d_token d) fresh tr (toISOString <$> next) (Some dec) (id s) (w_svc w) E Hid) as [Ho _].
  destruct (Ho (inv_rows w HI)) as (_ & Hne & _).
  assert (Hrow : row (id s) (reserveExecution (d_env d) (d_uuid d) (d_token d) fresh tr (toISOString <$> next) (Some dec) (w_svc w)).2
    = Some (touched (d_env d) (reservedRow (d_env d) (d_uuid d) (d_token d) tr (toISOString <$> next) (Some dec) fresh))).
  { unfold reserveExecution, row. rewrite persist_rows. change (get (id s) _) with (row (id s) (put (d_env d) (reservedRow (d_env d) (d_uuid d) (d_token d) tr (toISOString <$> next) (Some dec) fresh) (w_svc w))).
    by rewrite put_row, decide_True. }
  destruct (reserveExecution _ _ _ _ _ _ _ _) as [x v]. cbn [snd] in *. apply Hadd.
  - intros s' Hs'. destruct (decide (i = id s)) as [->|Hn]; [|rewrite Hne in Hs' by done; by apply H1].
    rewrite Hrow in Hs'. simplify_eq. by apply (H1 fresh).
  - intros <-. cbn. by apply H1.
Qed.

Lemma gated_fire i t d s tr next dec op_ o w : Inv w → gated i t w → stays i t w (fire d s tr next dec op_ o w).
Proof.
  intros HI Hg. unfold fire. destruct (archived s); [apply undisturbed_stays; [done|apply conclude_undisturbed]|]. destruct (_ && _).
  - rewrite (surjective_pairing (markCronLimitExhausted _ _ _)). apply undisturbed_stays; [done|].
    eapply undisturbed_trans; [|apply conclude_undisturbed]. by apply undisturbed_quiet, limit_quiet.
  - destruct (mhas _ _); [|by apply gated_admit]. apply undisturbed_stays; [done|].
    eapply undisturbed_trans; [|apply conclude_undisturbed]. by apply undisturbed_quiet, overlap_quiet.
Qed.

(** The requests of a step are for the schedule of its fire. *)
Definition asksFor (k : string) (w w' : world) : Prop :=
  ∃ l, w_requests w' = w_requests w ++ l ∧ Forall (λ q, lq_scheduleId q = k) l.

Lemma asks_none k w w' : w_requests w' = w_requests w → asksFor k w w'.
Proof. intros H. exists []. by rewrite H, app_nil_r. Qed.

Lemma asks_one k q w w1 : w_requests w1 = w_requests w → lq_scheduleId q = k → asksFor k w (addRequest q w1).
Proof. intros Hw Hq. exists [q]. cbn. rewrite Hw. split; [done|]. by constructor. Qed.

Lemma endWith_asks k d j o why m x e w w1 : w_requests w1 = w_requests w → asksFor k w (endWith d j o why m x e w1).1.
Proof. intros Hw. apply asks_none. unfold endWith. by destruct (markExecutionOutcome _ _ _ _ _ _ _ _). Qed.

Lemma resume_asks d x p w r : resume d x p w = Some r → ∀ j, jobOf p = Some j → asksFor (jobId j) w r.1.
Proof.
  assert (Hfail : ∀ j e hint, asksFor (jobId j) w (recordFireFailure d j e hint w).1).
  { intros j e hint. apply asks_none. unfold recordFireFailure, recordFireOutcome. destruct (th_quota e); by destruct (markExecutionOutcome _ _ _ _ _ _ _ _). }
  assert (Hpark : ∀ j from w1, w_requests w1 = w_requests w → asksFor (jobId j) w (parkUnavailableAgent d j from w1).1).
  { intros j from w1 Hw. unfold parkUnavailableAgent. destruct (_ && _); by apply endWith_asks. }
  assert (Hbind : ∀ j l a looped n w1, w_requests w1 = w_requests w → asksFor (jobId j) w (bindAttempt d j l a looped n w1).1).
  { intros j l a looped n w1 Hw. apply asks_none. unfold bindAttempt. by destruct (markExecutionAccepted _ _ _ _ _ _ _ _). }
  intros H j0 Hj. destruct p as [j [m|]|j|j pid spec|j pid|j pid drift|j pid drift res avoid|j drift res looped|j l a looped n threw|j e];
    destruct x; cbn in H; simplify_eq; cbn in Hj; simplify_eq; try (by apply asks_none); try done; try (by apply Hbind).
  - unfold afterReserve, passDrain. repeat case_match; try (by apply endWith_asks); by apply asks_none.
  - unfold afterIdentity. repeat case_match; try (by apply endWith_asks); by apply asks_none.
  - unfold afterProbe. destruct (Probe.shouldEscalateProbe _ _); [by apply asks_none|]. apply asks_none. by destruct (markProbeCompleted _ _ _ _ _ _).
  - unfold afterDrift. repeat case_match; try (by apply endWith_asks); by apply asks_none.
  - unfold afterRefresh. destruct (hasScheduleLoopConfig _).
    + unfold armLoop. destruct (match w_arbiter w with None => _ | Some a => _ end) as [a [x|]]; [by apply endWith_asks|].
      destruct (negb _); [by apply endWith_asks|]. destruct (resolveScheduleAgent _ _ _) as [[]|]; try (by apply asks_one); by apply Hpark.
    + destruct (resolveScheduleAgent _ _ _) as [[]|]; try (by apply asks_none); by apply Hpark.
  - by apply asks_one.
  - unfold afterBind. destruct (_ && _); [by apply Hbind|]. apply asks_none. cbn [fst]. destruct looped; [|done].
    unfold holdLease. destruct (w_arbiter w); [|done]. destruct (truthyStr _); [|done]. by destruct (Arbiter.tryAcquire _ _ _ _ _ _) as [? [|]].
Qed.

Lemma launchesOf_other i k w w' : asksFor k w w' → k ≠ i → launchesOf i w' = launchesOf i w.
Proof.
  intros (l & Hl & Hf) Hk. unfold launchesOf. rewrite Hl, List.filter_app.
  assert (E : List.filter (λ q, String.eqb (lq_scheduleId q) i) l = []); [|by rewrite E, app_nil_r].
  clear Hl. induction Hf as [|q l Hq _ IH]; [done|]. cbn. rewrite Hq, (proj2 (String.eqb_neq k i)) by done. exact IH.
Qed.

Lemma truthyStr_fix x t : truthyStr x = Some t → truthyStr (Some t) = Some t.
Proof. destruct x as [[|c u]|]; cbn; try done. by intros [= <-]. Qed.

(** A fire that finds the run before still blocking ends, and keeps that run in the row. *)
Lemma blocked_outcome d i t j o why m error w :
  rows_ok (rows (w_svc w)) → jobId j = i → openFor (j_receipt j) (row i (w_svc w)) → truthyStr (Some t) = Some t →
  (∀ s, row i (w_svc w) = Some s → blockingTaskOf s = Some t) →
  ∃ x, (endWith d j o why m (blockedBy t) error w).2 = Settling (Some j) x ∧
  w_requests (endWith d j o why m (blockedBy t) error w).1 = w_requests w ∧
  ∀ s, row i (w_svc (endWith d j o why m (blockedBy t) error w).1) = Some s → blockingTaskOf s = Some t.
Proof.
  intros Hok Hi Ho Ht Hb. unfold endWith. rewrite (surjective_pairing (markExecutionOutcome _ _ _ _ _ _ _ _)), Hi.
  eexists. split_and!; [done|done|]. cbn [fst onSvc w_svc]. intros s. destruct (row i (w_svc w)) as [s0|] eqn:E.
  - destruct (openFor_require _ _ Ho) as (r' & Hr & _ & Hn). rewrite (markOutcome_row _ _ _ _ _ _ _ _ s0 r') by done.
    intros [= <-]. unfold blockingTaskOf, touched, outcomeRow. destruct t as [|c u]; [done|]. cbn. by rewrite Hn.
  - destruct (markOutcome_only (d_env d) i (rx_id (j_receipt j)) o why (Some m) (blockedBy t) (w_svc w) Hok) as (_ & _ & H). by rewrite H.
Qed.

Lemma gated_goOn i t d n x w :
  Inv w → gated i t w → isBlocking d t = true → stays i t w (goOn d n x w).
Proof.
  intros HI Hg Hb. unfold goOn. destruct (mget n (w_fires w)) as [f|] eqn:Hn; [|by apply undisturbed_stays, undisturbed_rows]. cbn.
  destruct (resume d x (f_phase f) w) as [[w' p]|] eqn:E; [|by apply undisturbed_stays, undisturbed_rows].
  pose proof (inv_phase w HI n f Hn) as Hph. pose proof (inv_rows w HI) as Hok.
  destruct (resume_ok d (f_scheduleId f) x (f_phase f) w (w', p) Hok Hph E) as (Hv & _ & Hf & _). cbn in Hv, Hf.
  destruct Hg as [G1 G2]. destruct (Hv Hok) as (_ & Hne & Hnone).
  assert (Hset : ∀ P : Prop, P → (∀ s, row i (w_svc w') = Some s → blockingTaskOf s = Some t) →
    (f_scheduleId f = i → match p with Reserving j _ => blockingTaskOf (j_schedule j) = Some t | Settling _ _ => True | _ => False end) →
    launchesOf i w' = launchesOf i w → stays i t w (setPhase n p w')).
  { intros P _ Hr Hp Hl. split; [|done]. split; [done|]. intros m g. cbn. rewrite Hf, mget_mupd. case_decide as Em; [|by apply G2].
    subst m. rewrite Hn. intros [= <-]. exact Hp. }
  destruct (decide (f_scheduleId f = i)) as [Hi|Hi].
  - specialize (G2 n f Hn Hi). destruct (f_phase f) as [j threw| | | | | | | |] eqn:Ep; try done.
    destruct Hph as [Hj Ho]. specialize (Hj j eq_refl). destruct threw as [m|]; cbn in E; destruct x; simplify_eq.
      { by apply (Hset True). }
      unfold afterReserve in E. rewrite G2, Hb in E. cbn [negb] in E.
      assert (Ht : truthyStr (Some t) = Some t).
      { unfold blockingTaskOf in G2. destruct (latestExecution (j_schedule j)); [|done]. by eapply truthyStr_fix. }
      destruct (bool_decide _);
        match type of E with ?e = _ => destruct (blocked_outcome d (f_scheduleId f) t j
           ltac:(match e with endWith _ _ ?o _ _ _ _ _ => exact o end) ltac:(match e with endWith _ _ _ ?o _ _ _ _ => exact o end)
           ltac:(match e with endWith _ _ _ _ ?o _ _ _ => exact o end) ltac:(match e with endWith _ _ _ _ _ _ ?o _ => exact o end) w Hok Hj Ho Ht G1) as (y & H1 & H2 & H3) end;
        rewrite E in H1, H2, H3; cbn [fst snd] in H1, H2, H3; subst p; (apply (Hset True); [done|exact H3|done|unfold launchesOf; by rewrite H2]).
  - apply (Hset True); [done| |done|].
    + rewrite Hne by done. exact G1.
    + destruct (jobOf (f_phase f)) as [j|] eqn:Ej.
      * apply launchesOf_other with (jobId j); [by eapply (resume_asks d x _ w (w', p))|]. destruct Hph as [Hj _]. by rewrite (Hj j Ej).
      * by destruct (f_phase f) as [| | | | | | | |[]].
Qed.

Lemma gated_settle i t d n w : gated i t w → stays i t w (settle d n w).
Proof.
  intros Hg. unfold settle. destruct (mget n (w_fires w)) as [[k name_ o []]|] eqn:Hn; try by apply undisturbed_stays, undisturbed_rows.
  destruct (conclude_undisturbed i d o k name_ e {| w with w_inFlight := mdel k (w_inFlight w); w_fires := mdel n (w_fires w) |}) as (H1 & H2 & H3).
  destruct Hg as [G1 G2]. split; [|unfold launchesOf; by rewrite H2]. split.
  - intros s (s0 & Hs & ->)%H3. by apply G1.
  - rewrite H1. cbn. intros m f. rewrite mget_mdel. case_decide; [done|]. apply G2.
Qed.

(** What bears on the run of the schedule besides its fires: the catch-up of the start, and the
    creation of a schedule under its name. *)
Definition spares (i : string) (a : act) : Prop :=
  match a with
  | CatchUp _ _ s => id s ≠ i
  | Elsewhere (Create u _ _) => u ≠ i
  | _ => True
  end.

Lemma stays_refl i t w : gated i t w → stays i t w w.
Proof. by split. Qed.

Lemma stays_via i t w w1 w2 : undisturbed i w w1 → gated i t w → (gated i t w1 → stays i t w1 w2) → stays i t w w2.
Proof.
  intros Hu Hg H. destruct (undisturbed_stays i t w w1 Hg Hu) as [H1 H2]. destruct (H H1) as [H3 H4]. split; [done|congruence].
Qed.

Lemma gated_tickVisit i t d w : Inv w → gated i t w → stays i t w (tickVisit d w).
Proof.
  intros HI Hg. unfold tickVisit. destruct (w_tick w) as [tk|]; [|by apply stays_refl]. destruct (tk_rest tk) as [|s l]; [by apply stays_refl|].
  set (v := judge _ _ _). set (w1 := {| w with w_tick := Some (judged v s l tk) |}).
  assert (HI1 : Inv w1) by by apply (Inv_sameFires w). apply (stays_via i t w w1); [by apply undisturbed_rows|done|]. intros Hg1.
  destruct v; [|by apply stays_refl|by apply stays_refl|by apply gated_fire].
  set (w2 := if isSome _ then _ else w1). assert (HI2 : Inv w2) by (subst w2; destruct (isSome _); [by apply (Inv_sameFires w1)|done]).
  apply (stays_via i t w1 w2); [subst w2; destruct (isSome _); by apply undisturbed_rows|done|]. intros Hg2.
  apply undisturbed_stays; [done|]. apply inRound_undisturbed, undisturbed_quiet; [done|].
  assert (E : w_svc w2 = w_svc w) by (subst w2; by destruct (isSome _)). rewrite E. apply limit_quiet.
Qed.

Lemma gated_catchUp i t d mode now s w : Inv w → gated i t w → id s ≠ i → stays i t w (catchUpVisit d mode now s w).
Proof.
  intros HI Hg Hs. unfold catchUpVisit. destruct (negb (enabled s)); [by apply stays_refl|].
  assert (Hround : ∀ label r, only (id s) (w_svc w) r.2 → stays i t w (inRound label d r w)).
  { intros label r Ho. apply undisturbed_stays; [done|]. apply inRound_undisturbed. by eapply undisturbed_only. }
  destruct (isTriggerLimitExhausted s); [apply Hround, limit_only|].
  destruct (computeNextRunFor s) as [next|]; [|by apply stays_refl].
  destruct (_ && _); [|destruct (next <? _); [|by apply stays_refl]]; destruct mode;
    try (apply Hround; first [apply suppress_only|apply missed_only]).
  unfold catchUpFire. destruct (w_arbiter w) as [a|]; [|by apply gated_fire].
  destruct (Arbiter.evaluate _ _ _ _ _) as [a' [x|]];
    (eapply (stays_via i t w {| w with w_arbiter := Some a' |}); [by apply undisturbed_rows|done|]; intros Hg').
  - apply undisturbed_stays; [done|]. apply inRound_undisturbed. eapply undisturbed_only; [by apply (Inv_sameFires w)|done|apply missed_only].
  - apply gated_fire; [by apply (Inv_sameFires w)|done].
Qed.

Lemma gated_perform i t d a w :
  Inv w → gated i t w → isBlocking d t = true → allowed a w → spares i a → stays i t w (perform d a w).
Proof.
  intros HI Hg Hb Ha Hs. destruct a as [k|k|n x|n| | | |mode now s|o]; cbn [perform].
  - unfold runNow. destruct (get _ _); [by apply gated_fire|by apply stays_refl].
  - unfold forceRefire. destruct (get _ _); [|by apply stays_refl]. destruct (mhas _ _); [by apply stays_refl|by apply gated_fire].
  - by apply gated_goOn.
  - by apply gated_settle.
  - unfold tickStart. destruct (w_tick w); [by apply stays_refl|]. by apply undisturbed_stays, undisturbed_rows.
  - by apply gated_tickVisit.
  - unfold tickEnd. destruct (w_tick w) as [[[|? ?] ? ? ?]|]; try by apply stays_refl. by apply undisturbed_stays, undisturbed_rows.
  - by apply gated_catchUp.
  - apply undisturbed_stays; [done|]. destruct o as [u x y| | | | | | | | | | | | | | | | | | | |];
      try (apply undisturbed_quiet; [done|apply elsewhere_quiet; exact Ha]).
    destruct (create_rows (d_env d) u x y (w_svc w) (inv_rows w HI)) as [_ H]. apply undisturbed_rows; [done|done|]. apply H. by cbn in Hs.
Qed.

(** A history, each step under what it reads. *)
Fixpoint admissible (l : list (deps * act)) (w : world) : Prop :=
  match l with [] => True | (d, a) :: l => allowed a w ∧ admissible l (perform d a w) end.

Definition history (l : list (deps * act)) (w : world) : world := foldl (λ w x, perform x.1 x.2 w) w l.

(** C4: a schedule does not run twice at once: as long as the task of its last run is active and
    not given up, nothing launches it again, neither a tick nor an operator nor the self-healing,
    whatever else is done meanwhile and however the fires interleave. The schedule is not being
    fired at the beginning and none is created under its id, only the runner reserves, accepts and
    settles executions, and the catch-up of the start, which does launch it, is left out. *)
Theorem no_second_run w i t l :
  reach w → (∀ s, row i (w_svc w) = Some s → blockingTaskOf s = Some t) → mhas i (w_inFlight w) = false →
  admissible l w → (∀ d a, (d, a) ∈ l → isBlocking d t = true ∧ spares i a) →
  launchesOf i (history l w) = launchesOf i w.
Proof.
  intros HI%reach_Inv Hr Hf. assert (Hg : gated i t w).
  { split; [done|]. intros n f Hn Hid. pose proof (inv_marked w HI n f Hn). congruence. }
  clear Hr Hf. revert w HI Hg. induction l as [|[d a] l IH]; intros w HI Hg Hl Hb; [done|]. destruct Hl as [Ha Hl].
  destruct (Hb d a) as [H1 H2]; [by left|]. destruct (gated_perform i t d a w HI Hg H1 Ha H2) as [H3 H4].
  unfold history. cbn [foldl fst snd]. rewrite <- H4. apply IH; [by apply Inv_perform|done|done|]. intros. apply Hb. by right.
Qed.

(** ** No schedule starves *)

(** The visits of a round one after the other: [busy] is what each finds in flight. *)
Fixpoint round (busy : string → bool) (t : tickState) (l : list Schedule) : tickState :=
  match l with
  | [] => t
  | s :: l => round busy (judged (judge (busy (id s)) t s) s l t) l
  end.

(** A visit is a step of the round, unless the write of an exhausted schedule failed. *)
Lemma tickVisit_round d w t s l :
  w_tick w = Some t → tk_rest t = s :: l →
  w_tick (tickVisit d w) = Some (judged (judge (mhas (id s) (w_inFlight w)) t s) s l t)
  ∨ (judge (mhas (id s) (w_inFlight w)) t s = Exhausted ∧ w_tick (tickVisit d w) = None).
Proof.
  assert (Hconc : ∀ o i n x w, w_tick (conclude d o i n x w) = w_tick w).
  { intros o i n x w0. unfold conclude, holdLease. destruct o, x; try done. destruct (w_arbiter w0); [|done]. destruct (truthyStr _); [|done].
    by destruct (Arbiter.tryAcquire _ _ _ _ _ _) as [? [|]]. }
  intros Ht Hr. unfold tickVisit. rewrite Ht, Hr. destruct (judge _ _ _) as [| | |next]; [|by left|by left|left].
  - destruct (markCronLimitExhausted _ _ _) as [[x|] v]; cbn; [by right|by left].
  - unfold fire. destruct (archived s); [by rewrite Hconc|]. destruct (_ && _).
    + destruct (markCronLimitExhausted _ _ _) as [x v]. by rewrite Hconc.
    + destruct (mhas _ _); [by rewrite Hconc|]. unfold admitFire. cbn [w_svc]. destruct (get _ _); [|done]. by destruct (reserveExecution _ _ _ _ _ _ _ _).
Qed.

(** A schedule that a round should fire. *)
Definition eligible (busy : string → bool) (now : Z) (s : Schedule) : Prop :=
  isTriggerLimitExhausted s = false ∧ busy (id s) = false ∧ ∃ next, computeNextRunFor s = Some next ∧ next ≤ now.

Lemma judge_eligible busy t s :
  eligible busy (tk_now t) s → judge (busy (id s)) t s = Deferred ∨ ∃ next, judge (busy (id s)) t s = Due next.
Proof using Type.
  intros (H1 & H2 & next & H3 & H4). unfold judge. rewrite H1, H2, H3, (proj2 (Z.ltb_ge _ _)) by lia.
  destruct (_ <=? _); [by left|right; by eexists].
Qed.

Lemma judge_deferred busy t s : judge busy t s = Deferred → budget ≤ Z.of_nat (length (tk_fired t)).
Proof using Type.
  unfold judge. destruct (isTriggerLimitExhausted s); [done|]. destruct (computeNextRunFor s); [|done]. destruct (_ <? _); [done|].
  destruct busy; [done|]. destruct (Z.leb_spec budget (Z.of_nat (length (tk_fired t)))); done.
Qed.

Lemma round_grows busy l : ∀ t,
  tk_fired t `prefix_of` tk_fired (round busy t l) ∧ tk_deferred t `prefix_of` tk_deferred (round busy t l).
Proof using Type.
  induction l as [|s l IH]; intros t; cbn [round]; [done|]. destruct (IH (judged (judge (busy (id s)) t s) s l t)) as [H1 H2].
  split; (etransitivity; [|eassumption]); unfold judged; cbn; destruct (judge _ _ _); try done; by eexists.
Qed.

(** What was deferred first: everything before it that was due is fired, and that is the budget. *)
Lemma round_split busy l : ∀ t, tk_deferred t = [] →
  (tk_deferred (round busy t l) = [] ∧ ∀ s, s ∈ l → eligible busy (tk_now t) s → id s ∈ tk_fired (round busy t l)) ∨
  ∃ l1 s l2, l = l1 ++ s :: l2 ∧ head (tk_deferred (round busy t l)) = Some (id s) ∧
    budget ≤ Z.of_nat (length (tk_fired t) + length l1) ∧
    ∀ y, y ∈ l1 → eligible busy (tk_now t) y → id y ∈ tk_fired (round busy t l).
Proof using Type.
  induction l as [|s l IH]; intros t Ht; cbn [round]; [left; split; [done|]; by intros s ?%not_elem_of_nil|].
  set (t1 := judged _ _ _ _). destruct (round_grows busy l t1) as [Hf Hd].
  assert (E : judge (busy (id s)) t s = Deferred ∨ judge (busy (id s)) t s ≠ Deferred) by (destruct (judge _ _ _); auto).
  destruct E as [E|E].
  - right. exists [], s, l. split_and!; [done| | |by intros y ?%not_elem_of_nil].
    + assert (E1 : tk_deferred t1 = [id s]) by (unfold t1, judged; cbn; by rewrite E, Ht). rewrite E1 in Hd. destruct Hd as [k ->]. done.
    + cbn. rewrite Nat.add_0_r. by eapply judge_deferred.
  - assert (Hs : eligible busy (tk_now t) s → id s ∈ tk_fired (round busy t1 l)).
    { intros He. destruct (judge_eligible _ _ _ He) as [?|[next Hn]]; [done|]. destruct Hf as [k ->]. apply elem_of_app. left.
      unfold t1, judged. cbn. rewrite Hn. apply elem_of_app. right. by left. }
    assert (Ht1 : tk_deferred t1 = []) by (unfold t1, judged; cbn; by destruct (judge _ _ _)).
    destruct (IH t1 Ht1) as [[H1 H2]|(l1 & s1 & l2 & -> & H1 & H2 & H3)].
    + left. split; [done|]. intros y [->|Hy]%elem_of_cons; [done|by apply H2].
    + right. exists (s :: l1), s1, l2. split_and!; [done|done| |].
      * assert (length (tk_fired t1) ≤ S (length (tk_fired t)))%nat; [|cbn; lia].
        unfold t1, judged. cbn. destruct (judge _ _ _); try lia. rewrite length_app. cbn. lia.
      * intros y [->|Hy]%elem_of_cons; [done|by apply H3].
Qed.

(** The rotation, on the identifiers. *)
Fixpoint place (c : string) (l : list string) : option nat :=
  match l with [] => None | x :: l => if String.eqb x c then Some O else S <$> place c l end.

Definition rotated (l : list string) (c : option string) : list string :=
  match c with
  | None => l
  | Some c => match place c l with Some (S i) => drop (S i) l ++ take (S i) l | _ => l end
  end.

Lemma rotate_ids l c : map id (rotateFromCursor l c) = rotated (map id l) c.
Proof using Type.
  destruct c as [c|]; [|done]. unfold rotateFromCursor, rotated.
  assert (E : indexOf c l = place c (map id l)).
  { induction l as [|s l IH]; cbn; [done|]. destruct (String.eqb _ _); [done|]. by rewrite IH. }
  rewrite E. destruct (place c (map id l)) as [[|i]|]; try done. by rewrite map_app, fmap_drop, fmap_take.
Qed.

Lemma rotated_at p y q : y ∉ p → rotated (p ++ y :: q) (Some y) = y :: q ++ p.
Proof using Type.
  intros Hy. assert (E : place y (p ++ y :: q) = Some (length p)).
  { induction p as [|x p IH]; cbn; [by rewrite String.eqb_refl|]. apply not_elem_of_cons in Hy as [Hx Hy].
    rewrite (proj2 (String.eqb_neq x y)) by congruence. by rewrite IH. }
  unfold rotated. rewrite E. destruct p as [|x p]; [by rewrite app_nil_r|].
  cbn [length]. change (S (length p)) with (length (x :: p)). by rewrite drop_app_length, take_app_length.
Qed.

Lemma rotated_split l c : ∃ a b, l = a ++ b ∧ rotated l c = b ++ a.
Proof using Type.
  assert (H : ∃ a b, l = a ++ b ∧ l = b ++ a) by (exists [], l; by rewrite app_nil_r).
  unfold rotated. destruct c as [c|]; [|done]. destruct (place c l) as [[|i]|]; try done.
  exists (take (S i) l), (drop (S i) l). by rewrite take_drop.
Qed.

(** To rotate at an element of a rotation is to turn that rotation. *)
Lemma rotated_again l c a y b : NoDup l → rotated l c = a ++ y :: b → rotated l (Some y) = y :: b ++ a.
Proof using Type.
  intros Hl E. destruct (rotated_split l c) as (p & q & -> & Hr). rewrite Hr in E.
  assert (Hat : ∀ u v, p ++ q = u ++ y :: v → v ++ u = b ++ a → rotated (p ++ q) (Some y) = y :: b ++ a).
  { intros u v Hu Hv. rewrite Hu. rewrite rotated_at; [by rewrite Hv|]. rewrite Hu in Hl. apply NoDup_app in Hl as (_ & H & _). intros Hy. apply (H y Hy). by left. }
  apply app_eq_app in E as [k [[-> Hk]|[-> ->]]].
  - destruct k as [|z k]; cbn in Hk.
    + subst p. by apply (Hat [] (b ++ a)); rewrite app_nil_r.
    + injection Hk as <- ->. apply (Hat (p ++ a) k); by rewrite <- !app_assoc.
  - apply (Hat k (b ++ q)); by rewrite <- !app_assoc.
Qed.

(** What the rounds of the ticks read. *)
Record roundInput := mkRound { ri_enabled : list Schedule; ri_busy : string → bool; ri_now : Z }.

Definition roundOf (r : roundInput) (c : option string) : tickState :=
  let l := rotateFromCursor (ri_enabled r) c in round (ri_busy r) (mkTick l (ri_now r) [] []) l.

(** The cursor before each tick. *)
Fixpoint cursorAt (rounds : nat → roundInput) (c : option string) (n : nat) : option string :=
  match n with
  | O => c
  | S n => nextTickCursorId (tk_deferred (roundOf (rounds n) (cursorAt rounds c n)))
  end.

(** C20: the budget of fires starves no schedule: over ticks that find the same schedules enabled,
    in the same order, one that at each tick is due, not in flight and within its trigger limit is
    fired by the tick at which the budgets add up to the number of schedules, whatever the others
    do, whatever else is in flight, and wherever the cursor begins. *)
Theorem due_not_starved rounds c ids x :
  NoDup ids → (∀ n, map id (ri_enabled (rounds n)) = ids) → x ∈ ids →
  (∀ n s, s ∈ ri_enabled (rounds n) → id s = x → eligible (ri_busy (rounds n)) (ri_now (rounds n)) s) →
  ∃ n, Z.of_nat n * budget < Z.of_nat (length ids) ∧ x ∈ tk_fired (roundOf (rounds n) (cursorAt rounds c n)).
Proof using Type.
  intros Hnd Hids Hx Hel. assert (Hb : 1 ≤ budget) by (unfold budget; lia).
  assert (H : ∀ n, (∃ m, Z.of_nat m * budget < Z.of_nat (length ids) ∧ x ∈ tk_fired (roundOf (rounds m) (cursorAt rounds c m))) ∨
    ∃ k, rotated ids (cursorAt rounds c n) !! k = Some x ∧ Z.of_nat k + Z.of_nat n * budget < Z.of_nat (length ids)).
  { induction n as [|n [IH|(k & Hk & Hlt)]]; [right|by left|].
    - destruct (rotated_split ids (cursorAt rounds c 0)) as (p & q & Hp & Hr).
      assert (Hin : x ∈ rotated ids (cursorAt rounds c 0)) by (rewrite Hr; rewrite Hp in Hx; apply elem_of_app in Hx as [?|?]; apply elem_of_app; [by right|by left]).
      apply list_elem_of_lookup in Hin as [k Hk]. exists k. split; [done|]. apply lookup_lt_Some in Hk. rewrite Hr, length_app in Hk.
      rewrite Hp, length_app. lia.
    - destruct (decide (x ∈ tk_fired (roundOf (rounds n) (cursorAt rounds c n)))) as [Hf|Hf]; [left; exists n; split; [lia|done]|right].
      cbn [cursorAt]. unfold roundOf in *. set (c0 := cursorAt rounds c n) in *. set (l := rotateFromCursor (ri_enabled (rounds n)) c0) in *.
      assert (Hl : map id l = rotated ids c0) by (subst l; by rewrite rotate_ids, Hids).
      assert (Hat : ∃ s, l !! k = Some s ∧ id s = x ∧ eligible (ri_busy (rounds n)) (ri_now (rounds n)) s).
      { rewrite <- Hl in Hk. change (map id l) with (id <$> l) in Hk. apply list_lookup_fmap_Some in Hk as (s & -> & Hs). exists s. split_and!; [done|done|]. apply (Hel n); [|done].
        apply list_elem_of_lookup_2 in Hs. subst l. unfold rotateFromCursor in Hs. destruct c0 as [c1|]; [|done].
        destruct (indexOf c1 _) as [[|j]|]; try done. apply elem_of_app in Hs as [Hs|Hs]; [by eapply subseteq_drop|by eapply subseteq_take]. }
      destruct Hat as (s & Hs & <- & He).
      destruct (round_split (ri_busy (rounds n)) l (mkTick l (ri_now (rounds n)) [] []) eq_refl) as [[_ H]|(l1 & s1 & l2 & E & H1 & H2 & H3)].
      { exfalso. apply Hf, H; [by eapply list_elem_of_lookup_2|done]. }
      assert (Hge : (length l1 ≤ k)%nat).
      { destruct (decide (length l1 ≤ k)%nat) as [|Hn]; [done|]. exfalso. apply Hf, H3; [|done]. rewrite E, lookup_app_l in Hs by lia. by eapply list_elem_of_lookup_2. }
      assert (Hrot : rotated ids (Some (id s1)) = id s1 :: map id l2 ++ map id l1).
      { apply (rotated_again ids c0 (map id l1)); [done|]. by rewrite <- Hl, E, map_app. }
      unfold nextTickCursorId. rewrite H1, Hrot. exists (k - length l1)%nat. split; [|cbn in H2; lia].
      change (id s1 :: map id l2 ++ map id l1) with (map id (s1 :: l2) ++ map id l1). rewrite lookup_app_l.
      + change (map id (s1 :: l2)) with (id <$> (s1 :: l2)). rewrite list_lookup_fmap. rewrite E, lookup_app_r in Hs by done. by rewrite Hs.
      + rewrite E in Hs. apply lookup_lt_Some in Hs. rewrite length_app in Hs. rewrite length_map. cbn in *. lia. }
  destruct (H (length ids)) as [Hm|(k & _ & Hk)]; [done|]. nia.
Qed.

End runner.

(** ** Examples and limits of the code *)

(** The times of the examples; a schedule is due a minute after the last one. *)
Definition demoParse (t : string) : option Z := if String.eqb t (toISOString 60000) then Some 60000 else Some 0.
Definition demoNext (c : string) (t : option Z) : option Z := (λ t, t + 60000) <$> t.

Definition activeTask (now : Z) : Task.Task :=
  let t := TaskStore.Store.buildTask (λ _, "a task"%string) "task" now (createOptions "p" "/w" None None) TaskStore.Store.newStore in
  {| t with Task.status := ts_inProgress |}.

(** A node that accepts, on which the task of the last run is active. *)
Definition demoDeps (now : Z) : deps :=
  {| d_env := demoEnv (toISOString now); d_nowMs := now; d_uuid := "r"; d_token := "k"; d_ioError := "ENOSPC";
     d_task := λ _, Some (activeTask now); d_isAccepting := true; d_isServerRestarting := false;
     d_isAutomationEnabled := true; d_pausedProjectIds := []; d_registered := None; d_blacklisted := [];
     d_deprioritized := λ _, []; d_policy := None; d_grokAuthUsable := None; d_defaultAgent := None;
     d_loopedLauncher := false; d_live := λ _, true |}.

Definition demoHistory (l : list (deps * act)) (v : svc) : world :=
  history demoParse demoNext (joinWith "/") (λ _, None) "" "" 0 16 (λ _, true) l (newWorld v None).

(** A fire of the schedule, once it is admitted, up to the call of the launcher. *)
Definition toLaunch (now : Z) (n : nat) : list (deps * act) :=
  let d := demoDeps now in
  [(d, Answer n Resumed); (d, Answer n (Identified "p" None [])); (d, Answer n (Inspected None));
   (d, Answer n Resumed); (d, Answer n Prepared)].

Definition freshSchedule : svc := demoRun [created None None].
Definition runningSchedule : svc := demoRun [created None None; Service.fire "t1" "r1"; accept "t1" "r1" "task"].

(** The catch-up goes over the schedules it read at the start, and the fire reads the row again, but
    only to reserve it: a schedule that was archived, or disabled and held, while an earlier one
    caught up is launched all the same. *)
Theorem retired_schedule_fires :
  let launched v := length (launchesOf "s" (demoHistory
    (match row "s" freshSchedule with Some s => [(demoDeps 90000, CatchUp mode_auto 90000 s)] | None => [] end
     ++ toLaunch 90000 0) v)) in
  let archived_ := Service.exec (λ _, true) demoParse (demoEnv "t1") (Archive "s" None) freshSchedule in
  let held_ := Service.exec (λ _, true) demoParse (demoEnv "t1") (Enable "s" false (Some true)) freshSchedule in
  (archived <$> row "s" archived_ = Some true ∧ launched archived_ = 1%nat) ∧
  (operatorHold <$> row "s" held_ = Some true ∧ launched held_ = 1%nat).
Proof. by vm_compute. Qed.

(** The record of a missed slot takes the task of the last run out of the row: after a restart that
    the run survives, "Run now" launches a second one beside it, which it refuses otherwise. *)
Theorem missed_slot_double_run :
  let again := (demoDeps 90000, RunNow "s") :: toLaunch 90000 0 in
  let start v := match row "s" v with Some s => [(demoDeps 90000, CatchUp mode_manual 90000 s)] | None => [] end in
  isBlocking (demoDeps 90000) "task" = true
  ∧ launchesOf "s" (demoHistory again runningSchedule) = []
  ∧ length (launchesOf "s" (demoHistory (start runningSchedule ++ again) runningSchedule)) = 1%nat.
Proof. by vm_compute. Qed.

(** A tick whose reservation is not written loses its slot: the slot is marked as evaluated, the
    receipt stays reserved, no row of the ledger says so, and the next tick does not fire it. *)
Theorem failed_reservation_loses_slot :
  let d := demoDeps 60000 in
  let full := {| d with d_env := mkEnv (toISOString 60000) false None true (λ _, noEnrichment) (λ _, None) false |} in
  let w := demoHistory [(full, TickStart); (full, TickVisit); (full, Answer 0 Resumed); (full, Settle 0); (full, TickEnd);
                        (demoDeps 60000, TickStart); (demoDeps 60000, TickVisit); (demoDeps 60000, TickEnd)] freshSchedule in
  (λ s, (lastScheduledFor s, rx_status <$> currentExecution s, executionLedger s)) <$> row "s" (w_svc w)
    = Some (Some (toISOString 60000), Some reserved, [])
  ∧ w_began w = 1%nat ∧ w_fires w = [].
Proof. by vm_compute. Qed.

(** ** Witnesses *)

Lemma fires_accounted_witness :
  let d0 := demoDeps 90000 in let d := {| d0 with d_isAccepting := false |} in
  let w := demoHistory [(d, RunNow "s"); (d, Answer 0 Resumed)] freshSchedule in
  ∃ s x, row "s" (w_svc w) = Some s ∧ currentExecution s = Some x ∧ rx_id x = "r"%string ∧ rx_status x ≠ reserved.
Proof.
  intros d0 d w.
  assert (H : ∃ j r s, mget 0%nat (w_fires w) = Some (mkFire "s" "nightly" from_caller (Settling (Some j) (Returned r)))
    ∧ rx_id (j_receipt j) = "r"%string ∧ row "s" (w_svc w) = Some s).
  { eexists _, _, _. split; [|split]; vm_compute; reflexivity. }
  destruct H as (j & r & s & Hf & Hr & Hs). exists s. rewrite <- Hr.
  enough (H : ∃ x, currentExecution s = Some x ∧ rx_id x = rx_id (j_receipt j) ∧ rx_status x ≠ reserved).
  { destruct H as [x H]. exists x. split; [exact Hs|exact H]. }
  refine (proj2 (fires_accounted demoParse demoNext (joinWith "/") (λ _, None) "" "" 0 16 (λ _, true) w 0 _ j r _ Hf eq_refl) s Hs).
  apply (reach_step _ _ _ _ _ _ _ _ _ _ d (Answer 0 Resumed)); [|exact I].
  apply (reach_step _ _ _ _ _ _ _ _ _ _ d (RunNow "s")); [|exact I]. apply reach_new.
  apply (exec_tracks (λ _, true) (λ _, None) (demoEnv "t0") (Create "s" None (demoInput None None)) newService), newService_rows.
Defined.

Lemma no_second_run_witness :
  launchesOf "s" (history demoParse demoNext (joinWith "/") (λ _, None) "" "" 0 16 (λ _, true)
    [(demoDeps 90000, RunNow "s"); (demoDeps 90000, Answer 0 Resumed); (demoDeps 90000, Settle 0)] (newWorld runningSchedule None)) = [].
Proof.
  refine (no_second_run demoParse demoNext (joinWith "/") (λ _, None) "" "" 0 16 (λ _, true) (newWorld runningSchedule None) "s" "task" _ _ _ _ _ _).
  - apply reach_new. unfold runningSchedule, demoRun, run. cbn [foldl fst snd]. do 3 (apply exec_tracks). exact newService_rows.
  - intros s Hs. vm_compute in Hs. simplify_eq. reflexivity.
  - reflexivity.
  - repeat split.
  - intros d a Hin. repeat (apply elem_of_cons in Hin as [Hin|Hin]; [simplify_eq; split; [by vm_compute|exact I]|]). by apply not_elem_of_nil in Hin.
Defined.

Lemma due_not_starved_witness :
  let s i := newSchedule "t0" i (demoInput None None) in
  let rounds := λ _ : nat, mkRound [s "a"; s "b"; s "c"] (λ _, false) 90000 in
  ∃ n, Z.of_nat n * 1 < 3 ∧ "c"%string ∈ tk_fired (roundOf demoParse demoNext 1 (rounds n) (cursorAt demoParse demoNext 1 rounds None n)).
Proof.
  intros s rounds. refine (due_not_starved demoParse demoNext 1 rounds None ["a"; "b"; "c"]%string "c" _ _ _ _).
  - repeat constructor; set_solver.
  - reflexivity.
  - set_solver.
  - intros n x Hx _. cbn in Hx. repeat (apply elem_of_cons in Hx as [->|Hx]; [split; [reflexivity|split; [reflexivity|exists 60000; split; [reflexivity|by vm_compute]]]|]).
    by apply not_elem_of_nil in Hx.
Defined.
End Runner.
